(* ===== verification/_CoqProject ===== *)
-Q . S2P
Prelude.v
Texts.v
Causal.v
Crdt.v
KeyCodec.v
PropValue.v
Graph.v
WarpState.v
Diff.v
Receipts.v
Ops.v
OpNormalizer.v
OpStrategies.v
JoinReducer.v
Convergence.v
Effects.v
Patch.v
Session.v
SessionReducer.v
SessionRefinement.v
SessionLiveness.v
SessionJoin.v
TrieRoute.v
TriePages.v
TrieHelpers.v
TrieCursor.v
TrieFlusher.v
TrieModel.v
TrieRep.v
TrieInsert.v
TrieWalks.v
TrieFlush.v
TrieEngine.v
TrieSession.v
TrieFaults.v
GC.v
StateDiff.v
RefLayout.v
Frontier.v
WriterId.v
MatchGlob.v
Loops.v
MinHeap.v
TraversalContext.v
Walks.v
GraphTraversal.v
GraphPathFinding.v
Bfs.v
Dfs.v
ShortestPath.v
WeightedSearch.v
GraphTopology.v
TopoSort.v
LongestPath.v
Ancestors.v
Adjacency.v
PatternIndex.v
ReadModel.v
SupportRules.v
Doubles.v
QueryRunner.v
QueryMeaning.v
QueryState.v
QueryBuilder.v
WriteIntents.v
PatchBuilder.v
PatchBuilding.v
PatchMeaning.v
PatchPolicies.v
Provenance.v
Repository.v
PatchCommit.v
CommitSafety.v
HostPatches.v
HostMeaning.v
Sync.v
SyncMeaning.v
Trust.v
TrustMeaning.v
