(* ===== verification/Prelude.v ===== *)
(** * git-warp: the state engine, its queries and its write path, verified

    git-warp stores a graph as patches in Git. Every writer appends patches to
    its own chain; a replica reads the chains it knows and reduces the patches
    to a materialized state. This development models the part of the program
    that decides what a graph is: causal identities, the conflict-free data
    types, the state, the operations of a patch, the in-memory reducer, and the
    page-backed session with the reducer that runs over it, down to the tries
    that keep its pages, and the part that reads a materialized graph: the
    searches over neighbour providers and the queries over read models; and the
    part that writes: the builder of patches, the committer, and the controller
    that brings the state up to date. Paths below are relative to
    [src/src/domain/].

    ** Parts and how they interact

    A patch is a list of operations with a writer, a Lamport time and a causal
    context. The reducer normalizes each operation, gives it an event id, and
    lets it mutate the state: adds and removes change two observed-remove sets
    (nodes, edges), properties are last-writer-wins registers keyed by encoded
    strings, and the context is folded into the observed frontier. The same
    loop can report a diff of what became visible or a receipt of the outcome of
    each operation. For graphs that do not fit in memory a second reducer runs
    the same operations against a session that keeps the two sets in tries of
    pages and writes dirty pages back when there are too many of them.

    A materialized state is read in two ways. The searches walk a graph through
    a neighbour provider, which serves the adjacency lists of the state or asks
    a read model. A query is accumulated by a builder, planned, and run over a
    read model of the state, which an observer may have narrowed.

    A patch is written by a builder, which issues the dots of what it adds and
    reads the dots of what it removes from the state it was made on. The
    committer puts the patch on the head of the chain of the writer if that head
    is still the one the builder was made on. The controller makes builders,
    commits them, and applies what was committed to the state of its host, so
    that the host and the chains stay in step.

    Two replicas synchronize by frontiers: the requester names the head it knows
    of each writer, the responder walks its chains down to these heads and sends
    the patches above them, page by page, and the requester applies them to its
    state, if the trust gate lets the writers pass: a log of signed records says
    which keys are active and which writers are bound to them.

    ** Files and sources

    - [Prelude]: errors, the result and step monads, loops, JavaScript numbers,
      strings and stable sorting, map folds.
    - [Causal]: crdt/Dot.ts, utils/EventId.ts, crdt/VersionVector.ts,
      utils/StringComparison.ts (Modules [Dot], [EventId], [VersionVector]).
    - [Crdt]: crdt/LWW.ts, crdt/ORSet.ts (Modules [LWW], [ORSet]).
    - [KeyCodec]: services/KeyCodec.ts.
    - [PropValue]: types/PropValue.ts, on a heap of arrays and objects.
    - [Graph]: the identifiers and records of graph/.
    - [WarpState]: services/state/WarpState.ts.
    - [Diff]: types/PatchDiff.ts, services/DiffCalculator.ts.
    - [Receipts]: types/TickReceipt.ts, services/ReceiptBuilder.ts and the
      outcome classes of types/ops/.
    - [Ops]: the operation classes of types/ops/, one Module per class, and
      the interface the reducer calls on [Op].
    - [OpNormalizer]: services/OpNormalizer.ts, OpValidator.ts, OpLike.ts.
    - [OpStrategies]: services/OpStrategies.ts, OpStrategy.ts and the registry
      validation.
    - [JoinReducer]: services/JoinReducer.ts.
    - [Convergence], [Effects]: the theorems of the in-memory reducer.
    - [Patch]: the constructor of types/Patch.ts.
    - [Session]: orset/session/, orset/ORSetElementState.ts,
      orset/trie/FlushResult.ts, storage/StorageRetentionWitness.ts, and the
      classes [Engine], [EngineLaws] and [Workspace] for what a session needs.
    - [SessionReducer]: services/JoinReducerSession.ts.
    - [SessionRefinement], [SessionLiveness], [SessionJoin]: the theorems of the
      session-backed reducer, and what a closed session leaves behind.
    - [TrieRoute]: orset/route/RouteKey.ts and the packed suffixes of
      orset/trie/trieCursorHelpers.ts, with their bit arithmetic.
    - [TriePages]: orset/trie/TrieGeometry.ts, TrieLeaf.ts, TrieBranch.ts,
      TrieStorePort.ts, DirtyPageSet.ts.
    - [TrieHelpers]: the rest of orset/trie/trieCursorHelpers.ts.
    - [TrieCursor]: orset/trie/TrieCursor.ts.
    - [TrieFlusher]: orset/trie/TrieFlusher.ts, orset/shadow/ShadowTrieORSet.ts,
      orset/trie/TrieCompactor.ts (Module [TrieCompactor]) and the [compact]
      methods that call it.
    - [TrieModel], [TrieRep]: the shape of a trie, the element map it holds, the
      contract of the store, and how a cursor over a store represents a trie.
    - [TrieInsert], [TrieWalks], [TrieFlush]: inserts with their splits, scans and
      removals, and the flush, each shown to keep the representation; lookups
      are in [TrieRep].
    - [TrieEngine], [TrieSession], [TrieFaults]: the trie as an instance of
      [EngineLaws], the session-backed reducer over it, and what faults of the
      store and compaction do.
    - [GC]: services/GCPolicy.ts, GCShouldRunResult.ts, GCMetrics.ts,
      GCExecuteResult.ts, executeGC.ts, executeGCInSession.ts.
    - [StateDiff]: services/state/StateDiff.ts, StateDiffOrdering.ts,
      StateDiffValueEquality.ts.
    - [RefLayout], [WriterId], [MatchGlob]: the modules of utils/ of that name.
    - [Frontier]: services/Frontier.ts.
    - [Loops]: loops with fuel that is shown to be enough, and the costs of
      weighted searches.
    - [MinHeap]: utils/MinHeap.ts.
    - [TraversalContext], [GraphTraversal], [GraphPathFinding], [GraphTopology]:
      the files of services/query/ of that name, with utils/cancellation.ts and
      ports/NeighborProviderPort.ts.
    - [Walks], [Bfs], [Dfs], [ShortestPath], [WeightedSearch], [TopoSort],
      [LongestPath], [Ancestors]: the theorems of the searches.
    - [Adjacency]: services/controllers/MaterializeHelpers.ts (the adjacency
      maps), services/query/AdjacencyNeighborProvider.ts.
    - [PatternIndex]: services/query/QueryNodePatternIndex.ts.
    - [ReadModel]: services/query/QueryPlan.ts, QueryReadModelProvider.ts,
      StateQueryReadModel.ts, VisibleQueryReadModel.ts,
      QueryReadModelNeighborProvider.ts, services/NodePropertyProjection.ts and
      the snapshots of services/ImmutableSnapshot.ts.
    - [Texts], [Doubles]: joined and trimmed texts, the texts [JSON.stringify]
      gives strings and lists of strings; the arithmetic of doubles.
    - [SupportRules]: services/query/BoundedSupportRule.ts, queryValidation.ts,
      CausalIndexPlan.ts, SupportFragmentPlan.ts.
    - [QueryRunner]: services/query/QueryAggregation.ts, QueryRunner.ts.
    - [QueryMeaning], [QueryState]: the theorems of queries over any read model
      and over the read model of a state.
    - [QueryBuilder]: services/query/QueryBuilder.ts.
    - [WriteIntents]: graph/NodePropertyWriteIntent.ts, EdgePropertyWriteIntent.ts,
      LegacyPropertyKeyClassification.ts, graph/ContentAttachmentWriteIntent.ts,
      ContentAttachmentPayload.ts, ContentAttachmentRecord.ts,
      services/PatchBuilderContent.ts, utils/canonicalStringify.ts.
    - [PatchBuilder]: services/PatchBuilder.ts, PatchBuilderValidation.ts.
    - [PatchBuilding], [PatchMeaning], [PatchPolicies]: the theorems of the builder;
      a built patch is applied by all three paths of the reducer.
    - [Provenance]: services/provenance/ProvenanceIndex.ts, and its theorem.
    - [Repository]: the ports and messages a commit needs (ports/, services/codec/)
      as classes, chains of commits, and the laws of a repository that other
      processes write too; an instance in memory for samples.
    - [PatchCommit]: services/PatchCommitter.ts, types/PatchCommitResult.ts, the
      commit of services/PatchBuilder.ts, warp/PatchSession.ts, warp/Writer.ts.
    - [CommitSafety]: the theorems of commits.
    - [HostPatches]: services/controllers/PatchDiscovery.ts, PatchController.ts.
    - [HostMeaning]: the theorems of the controller.
    - [Sync]: services/sync/syncDelta.ts, syncPatchLoader.ts,
      SyncResponsePaging.ts, syncRequestResponse.ts, SyncTrustGate.ts,
      services/codec/MessageSchemaDetector.ts, the range scan of
      infrastructure/adapters/CborPatchJournalAdapter.ts (below src/src/), and
      services/controllers/SyncController.ts.
    - [SyncMeaning]: the theorems of synchronization.
    - [Trust]: trust/TrustRecord.ts, TrustStateBuilder.ts, TrustEvaluator.ts,
      TrustAssessment.ts, verdict.ts, reasonCodes.ts, TrustRecordService.ts, the
      policy of trust/schemas.ts, services/audit/TrustEvaluationService.ts, and
      the trust gate of RuntimeHost.ts and runtimeHelpers.ts.
    - [TrustMeaning]: the theorems of trust.

    A class of the source is a Record in a Module of its name, a method is a
    Definition of its name there; [new] is the constructor with its checks.
    A method that mutates its receiver is in the [step] monad, which keeps the
    mutations made before a throw; a pure call that may throw returns [result].
    The comment before a definition gives the file and the symbol it models.

    ** What the theorems show

    - Convergence: the result of [reducePatches] does not depend on the order of
      the patches; it is a homomorphism into the join of states, so merging
      replicas, resuming from a checkpoint and redelivery are sound; the three
      application paths agree on state and errors; a rejected operation stops a
      patch exactly there.
    - State: the join is a semilattice; edge and attachment records are exactly
      the visible edges and fresh visible properties.
    - Data types: semilattice laws of registers, sets and version vectors;
      add-wins; compaction keeps membership and is safe to merge with replicas
      that saw the removals; a fresh dot per increment.
    - Codecs: keys, dots, legacy edge properties and operations survive their
      round trips; malformed encodings are rejected.
    - Reports: diffs are net changes, outcomes tell what the mutation does,
      receipts have one valid entry per applied operation; the strategy table
      does what the operation classes do.
    - Session: over any engines that satisfy [EngineLaws] the session is two
      element maps, stays below its dirty-page limit, and cannot be used after
      it is closed. On causally delivered patches the session-backed reducer
      computes the in-memory state, its receipts are the in-memory receipts, its
      liveness replay shows the same nodes and edges, and joining frames is
      joining states. [session_resurrects_removed_node] shows what goes wrong on
      other orders.
    - Trie: over a store that keeps its contract, for elements that the hash
      tells apart, every operation of the engine but compaction is the operation
      on the element map, whatever it loads, splits and rebinds; a flush writes
      the pages bottom-up and returns a root for the same map; a session
      reopened on the roots of a closed one answers as the in-memory reducer; a
      failed flush can be retried. [unreadable_root_is_forgotten] and
      [compaction_hides_elements] show two defects.
    - Garbage collection: a run reports exactly the dots it removes, changes
      nothing visible and leaves nothing for a second run.
    - State diffs: a diff terminates on property values and holds exactly what
      changed, in strict order; it is empty when both states show the same.
    - Names: refs of a graph are pairwise different and never nest, but for the
      substrate version; generated writer ids are canonical, safe and injective
      in the random bytes; a resolved writer id is stable; glob patterns mean
      what their declarative reading says.
    - Frontiers: fingerprints identify them, and they survive serialization but
      for a writer called [__proto__].
    - Searches: over a provider that answers from a finite graph every search
      ends. Breadth first gives the nodes by distance and id, depth first the
      recursive preorder; unweighted paths are shortest, the paths of Dijkstra
      and A* cheapest, reachability is decided; the topological order is the one
      that always takes the least free node, and a cycle is reported exactly
      when there is one; longest paths are longest, common ancestors common.
      The heap behind them is a sorted list ([min_heap_is_sorted_list]).
    - Providers and read models: the adjacency of a state serves exactly its
      visible edges, and scanning the state serves the same; the index of
      patterns misses no node; the two ways to open a read model for an observer
      agree; the read model of a valid state shows its visible graph.
    - Queries: a plan denotes a list of nodes ([finds]), and the runner returns
      it with the selected fields or the aggregates; a plan is made of the calls
      its builder accepted; keys of fragments identify their scope where ids
      hold no separators. [wider_depth_finds_less], [support_depth_too_small]
      and [fragment_keys_collide] show defects.
    - Patches: whatever is called on a builder, its patch can be built and
      applied, and does to the state it was built on what was asked: an element
      is alive exactly if the patch adds it, or it was and is not removed; a
      property has the value set last. The delete policies refuse exactly what
      they say and cascade to exactly the edges that touch the node.
      [failed_cascade_keeps_removals], [failed_effect_keeps_its_node] and
      [own_add_survives_removal] show defects.
    - Commits: a commit extends the chain by its patch, at the head its builder
      was made on, with ascending Lamport times, whatever other processes do;
      on a head that was left nothing is published; a builder is locked while it
      is committed and afterwards.
    - Hosts: a host that has its state keeps it through its patches and shows
      what was asked of them. [writer_reuses_dots] and
      [unmaterialized_host_reuses_dots] show what goes wrong when the vector of
      a writer or of a host without a state stays behind.
    - Synchronization: a response holds exactly the window of its page of what
      the requester misses, and announces more exactly when there is more; a
      requester whose heads the responder has gets, by applying the response to
      its state, the state of a replica that reduced the patches of both, and the
      heads of the responder. [synced_host_loses_writes] and
      [unknown_head_fails_the_request] show defects.
    - Trust: a verdict is the evidence of the log ([evidence]); every record of a
      log without errors is signed by a key that was active; a log stays linked
      while processes append to it, and retries end.
      [missing_revocation_goes_unnoticed] and [enforced_sync_is_always_rejected]
      show defects.

    ** Modelling decisions

    - A JavaScript string is a [string] whose characters are code units below
      256. Numbers are [jsnum]: integers, exact up to 2^53, and the rest, which
      the program rejects everywhere but in the aggregates of queries
      ([Doubles]). The two zeros are one.
    - A [Map] or [Set] is a [gmap] or [gset]; where the iteration order is
      observable the definition takes the entries in order
      ([attachmentRecords_in]) or the theorem quantifies over it.
    - A field of decoded input that is not of the expected type is [None]; a raw
      operation is [undefined], a value that is not an object, a decoded object,
      or an instance of an operation class.
    - Composite property values are references into a [heap], compared by
      address as [===] does, and may be shared or cyclic.
    - Engines, the store of the pages and the workspace port are arguments: an
      [Engine] with a store [W]. Faults of the store are outside [eng_ok].
      [ReferenceEngine] is an instance that satisfies the laws, [trie_engine] the
      one the program runs; [eng_names] are the elements an engine can tell
      apart, for a trie a set without collisions of the hash
      ([collision_free]).
    - The hash, the codec of leaf pages and the store of a trie are the classes
      [Hash], [Codec] and [TrieStore], with what the trie needs of them in
      [collision_free], [CodecLaws] and [TrieStoreLaws]. The children of a branch
      are a finite map: the scans sort them, the other walks do not depend on
      their order. A path part of a dirty path that does not parse is not
      modelled, as no key has one.
    - The ratio of a garbage-collection policy is an exact rational, its reasons
      are constructors instead of messages.
    - The codec of frontiers, the random source and the configuration of writer
      ids are arguments with laws ([CodecLaws], [good_source], [ConfigLaws]). A
      regular expression of a glob is parsed and matched in the fragment of the
      syntax that the translation produces.
    - Bit operations of JavaScript work on 32-bit integers ([to_int32]); the
      accumulator of the writer-id encoder overflows as it does there.
    - Asynchronous methods run to completion one after the other: the session
      and the reducer are used by one caller at a time.
    - A neighbour provider and a read model answer from a graph that does not
      change during a search or a query ([sees], [answers]). Limits of searches
      are integers or [Infinity]; the abort signal is an oracle that is asked for
      the n-th time; hooks may throw. Costs are a class whose addition is
      monotone, as rounding is, not associative; weights that are not finite are
      left out. Streams are collected: a consumer that stops early is not
      modelled, but for the runner's own stop after an exact pattern. The error
      values leave out the context ([cycleWitness] has a definition of its own).
    - Promises that the program awaits together are taken one after the other,
      so that of several errors the first in order is thrown. How many arguments
      the platform lets [Math.min] take is not limited.
    - The cache of compiled patterns is left out of [glob_test], as it never
      changes an answer. Property bags are maps; [__proto__] names no property of
      its own.
    - What callers may pass to the query builder is a type with a constructor for
      each case it tells apart. Whether two support rules are one object is an
      argument ([identical]).
    - A builder reads the current state through an environment ([env]): the address
      of the state at the moment, and what is stored there; it keeps the address
      it saw first. The text of a number that is no integer is a class
      ([NumberText]). Attachments are modelled up to and after the answer of the
      storage, which is an argument.
    - The ports of a commit are classes over a world [X]; [RepositoryLaws] says
      what a step may do to the repository the world shows: it [grows], as every
      process only extends chains; a publication compares and moves its ref in
      one step, and may have happened although the answer was lost. The text of
      a commit message is a type of its own. Lamport times of messages are
      assumed to stay below 2^53.
    - The state and the version vector of a host are objects: the host keeps their
      addresses, and changes them in place or replaces them as the program does.
      The logger, the subscribers and the index of the view are left out.
    - The order of the locale, by which a response takes the writers, and the
      check of ancestry are arguments; [ancestry_ok] asks the check to know the
      ancestors of a patch, for commits that are there. A peer is a function from
      requests to responses. An error that the handler recognizes by its message
      has class and code of a divergence here. Metrics and events are left out.
    - Signatures and fingerprints are functions that may throw; a chain of trust
      records is the class [TrustChain] with its laws in [chain_laws]. The type
      of a record is that of its subject. Errors of a log are constructors
      instead of texts, the texts of reasons and the meta data are left out.
    - Theorems on reductions assume what Git and the writers provide: a commit
      sha names one patch ([one_patch_per_sha]), a dot is issued for one element
      ([owned_by]), the frontier of a state is valid and not frozen
      ([live_state]). Each has a witness.

    ** Fuel

    [isPropValue] and [normalizePropValue] recurse on a value with fuel one more
    than the size of the heap. The first keeps a set of the addresses on its
    path, so it never gets deeper ([prop_value_check_decides_trees] proves that
    it always answers); the second is only run on values it accepts, which are
    trees no higher than the heap is large ([normalize_tree]). The source
    overflows its stack only on the cyclic values the check rejects. The same
    fuel is enough to compare two values in a state diff, as the left one is
    such a tree ([state_diff_values_equal]).

    In the trie the binary searches have the length of the leaf as fuel, the
    descents and splits one more than the levels that are left below them, the
    walks the number of levels of the trie, and the merging of siblings the
    number of children; [E_TOO_DEEP] marks fuel that ran out, and the refinement
    theorem shows that an engine that represents a trie never throws it.

    The searches run with any fuel: [settles] and [ends] say that from some fuel
    on the outcome is the one stated. The binary search of the pattern index has
    the number of keys as fuel, batches the number of items, snapshots one more
    than the size of the heap. Reading a chain, and scanning a range
    of one, takes fuel for its length, and throws [OutOfFuel] without. Every other loop is structural.

    ** Not modelled

    The adapter that stores the pages of a trie in Git, consumers that stop a
    scan early, checkpoints and serializers, bidirectional A*, the analyses of
    services/query/GraphAnalysis.ts, the paged read models and the adjacency over
    storage, and the services that are asynchronous plumbing over ports: the
    other controllers, observers, optics, indexes, strands, audit receipts,
    the canonical form of trust records, the server, client, authentication and rate limits of sync over HTTP, and
    the adapters to Git, HTTP and the file system. *)
From stdpp Require Export base tactics list gmap strings fin_maps sorting pretty.
From Stdlib Require Export ZArith Lia Ascii.

#[export] Set Default Goal Selector "!".
Global Open Scope string_scope.
Global Open Scope Z_scope.

Declare Scope warp_scope.
Delimit Scope warp_scope with warp.
Global Open Scope warp_scope.
Global Open Scope list_scope.

(** ** Errors

    Every error class of the program extends [WarpError] and carries a
    [code]; handlers branch on the class and the code only, so a thrown
    error is the pair of the two. *)
Record error := Err { err_class : string; err_code : string }.

#[export] Instance error_eq_dec : EqDecision error.
Proof. solve_decision. Defined.

(** The outcome of a JavaScript call: it returns, or it throws. *)
Inductive result (A : Type) : Type :=
  | Ok (a : A)
  | Throw (e : error).
Arguments Ok {A} a.
Arguments Throw {A} e.

#[export] Instance result_eq_dec {A} `{EqDecision A} : EqDecision (result A).
Proof. solve_decision. Defined.

#[export] Instance result_ret : MRet result := λ A a, Ok a.
#[export] Instance result_bind : MBind result := λ A B f m,
  match m with Ok a => f a | Throw e => Throw e end.
#[export] Instance result_fmap : FMap result := λ A B f m,
  match m with Ok a => Ok (f a) | Throw e => Throw e end.

Definition is_ok {A} (r : result A) : bool :=
  match r with Ok _ => true | Throw _ => false end.

(** [if (!cond) throw e] *)
Definition require (cond : bool) (e : error) : result unit :=
  if cond then Ok () else Throw e.

(** A method that mutates a receiver of type [S]: on a throw the
    mutations made so far stay visible to the caller. *)
Definition step (S A : Type) : Type := S → S * result A.

#[export] Instance step_ret {S} : MRet (step S) := λ A a s, (s, Ok a).
#[export] Instance step_bind {S} : MBind (step S) := λ A B f m s,
  match m s with
  | (s', Ok a) => f a s'
  | (s', Throw e) => (s', Throw e)
  end.

Definition lift {S A} (r : result A) : step S A := λ s, (s, r).
Definition get {S} : step S S := λ s, (s, Ok s).
Definition put {S} (s : S) : step S unit := λ _, (s, Ok ()).
Definition modify {S} (f : S → S) : step S unit := λ s, (f s, Ok ()).

(** A loop [for (const x of l) body(x)] in either monad. *)
Fixpoint for_each {S A} (body : A → step S unit) (l : list A) : step S unit :=
  match l with
  | [] => mret ()
  | x :: l' => body x ≫= λ _, for_each body l'
  end.

Fixpoint map_result {A B} (f : A → result B) (l : list A) : result (list B) :=
  match l with
  | [] => Ok []
  | x :: l' => y ← f x; ys ← map_result f l'; Ok (y :: ys)
  end.

Lemma bind_ok {A B} (m : result A) (f : A → result B) b :
  m ≫= f = Ok b ↔ ∃ a, m = Ok a ∧ f a = Ok b.
Proof.
  destruct m as [a|e]; simpl; split; [by eauto| |done|].
  - by intros (? & [= <-] & ?).
  - by intros (? & ? & _).
Qed.

Lemma require_ok (c : bool) (e : error) : require c e = Ok () ↔ c = true.
Proof. by destruct c. Qed.

Lemma map_result_ok {A B} (f : A → result B) l ys :
  map_result f l = Ok ys ↔ Forall2 (λ x y, f x = Ok y) l ys.
Proof.
  revert ys. induction l as [|x l IH]; intros ys; simpl.
  - split; [by intros [= <-]|]. by inversion 1.
  - rewrite bind_ok. setoid_rewrite bind_ok. split.
    + intros (y & Hy & ys' & Hys & [= <-]). constructor; [done|]. by apply IH.
    + inversion 1 as [|? y ? ys' Hy Hys]; subst. exists y. split; [done|].
      exists ys'. split; [by apply IH|done].
Qed.

(** Reads a successful sequence of calls backwards: one hypothesis per call. *)
Ltac invert_ok :=
  repeat match goal with
  | H : (_ ≫= _) = Ok _ |- _ =>
      let a := fresh "a" in let Ha := fresh "Ha" in
      apply bind_ok in H as (a & Ha & H)
  | H : Ok _ = Ok _ |- _ => injection H as H
  | H : Throw _ = Ok _ |- _ => discriminate H
  end.

Lemma map_result_perm {A B} (f : A → result B) l1 l2 ys1 :
  l1 ≡ₚ l2 → map_result f l1 = Ok ys1 → ∃ ys2, map_result f l2 = Ok ys2 ∧ ys1 ≡ₚ ys2.
Proof.
  intros Hp. revert ys1. induction Hp as [|x l1 l2 Hp IH|x y l|l1 l2 l3 _ IH1 _ IH2];
    intros ys1; cbn [map_result].
  - intros [= <-]. by exists [].
  - intros H. invert_ok. subst ys1. rewrite Ha.
    destruct (IH _ Ha0) as (zs & -> & Hzs). exists (a :: zs). split; [done|]. by rewrite Hzs.
  - intros H. invert_ok. subst. rewrite Ha, Ha1, Ha2.
    exists (a1 :: a :: a2). split; [done|]. constructor.
  - intros Hy. destruct (IH1 ys1 Hy) as (y2 & H2 & P2). destruct (IH2 y2 H2) as (y3 & H3 & P3).
    exists y3. split; [done|]. by rewrite P2.
Qed.

Lemma map_result_total {A B} (f : A → result B) l :
  (∀ x, x ∈ l → ∃ y, f x = Ok y) → ∃ ys, map_result f l = Ok ys.
Proof.
  induction l as [|x l IH]; intros Hf; [by exists []|].
  destruct (Hf x) as [y Hy]; [by left|]. destruct IH as [ys Hys]; [intros z Hz; apply Hf; by right|].
  exists (y :: ys). cbn [map_result]. by rewrite Hy, Hys.
Qed.

Lemma map_result_fmap {A B} (f : A → result B) (g : A → B) l :
  (∀ x, x ∈ l → f x = Ok (g x)) → map_result f l = Ok (g <$> l).
Proof.
  intros Hf. apply map_result_ok. induction l as [|x l IH]; csimpl; constructor.
  - apply Hf. by left.
  - apply IH. intros. apply Hf. by right.
Qed.

Lemma omap_id_fmap {A B} (f : A → option B) (l : list A) : omap id (f <$> l) = omap f l.
Proof. induction l as [|x l IH]; csimpl; [done|]. by rewrite IH. Qed.

Lemma for_each_app {S A} (body : A → step S unit) l1 l2 s :
  for_each body (l1 ++ l2) s = (for_each body l1 ≫= λ _, for_each body l2) s.
Proof.
  revert s. induction l1 as [|x l1 IH]; intros s; simpl; [done|].
  unfold mbind, step_bind in *. destruct (body x s) as [s' [[]|e]]; [|done].
  apply IH.
Qed.

(** A loop whose body keeps an invariant runs to its end. *)
Lemma for_each_invariant {S A} (body : A → step S unit) (I : S → Prop) l s :
  I s → (∀ x s, x ∈ l → I s → ∃ s', body x s = (s', Ok ()) ∧ I s') →
  ∃ s', for_each body l s = (s', Ok ()) ∧ I s'.
Proof.
  intros Hs Hbody. revert s Hs. induction l as [|x l IH]; intros s Hs; [by exists s|].
  destruct (Hbody x s) as (s1 & E & H1); [by left|done|].
  destruct (IH ltac:(intros y s' Hy; apply Hbody; by right) s1 H1) as (s' & E' & H').
  exists s'. split; [|done]. cbn [for_each]. unfold mbind, step_bind. by rewrite E.
Qed.

(** A loop that also carries an accumulator. *)
Fixpoint for_fold {S A B} (body : B → A → step S B) (l : list A) (b : B) : step S B :=
  match l with
  | [] => mret b
  | x :: l' => body b x ≫= λ b', for_fold body l' b'
  end.

(** [l.map(f)] for a callback that changes the receiver. *)
Fixpoint map_step {S A B} (f : A → step S B) (l : list A) : step S (list B) :=
  match l with
  | [] => mret []
  | x :: l' => y ← f x; ys ← map_step f l'; mret (y :: ys)
  end.

(** Two methods that leave the same receiver and throw the same errors,
    whatever they return. *)
Definition same_run {S A B} (m : step S A) (m' : step S B) : Prop :=
  ∀ s, (m s).1 = (m' s).1 ∧
    match (m s).2, (m' s).2 with
    | Ok _, Ok _ => True
    | Throw e, Throw e' => e = e'
    | _, _ => False
    end.

Lemma same_run_refl {S A} (m : step S A) : same_run m m.
Proof. intros s. split; [done|]. by destruct (m s).2. Qed.

Lemma same_run_ret {S A B} (a : A) (b : B) : same_run (S:=S) (mret a) (mret b).
Proof. done. Qed.

Lemma step_bind_ok {S A B} (m : step S A) (k : A → step S B) s s' a :
  m s = (s', Ok a) → (m ≫= k) s = k a s'.
Proof. intros E. unfold mbind, step_bind. by rewrite E. Qed.

Lemma same_run_bind {S A B A' B'} (m : step S A) (m' : step S B)
    (k : A → step S A') (k' : B → step S B') :
  same_run m m' → (∀ a b, same_run (k a) (k' b)) → same_run (m ≫= k) (m' ≫= k').
Proof.
  intros Hm Hk s. unfold mbind, step_bind. specialize (Hm s) as [E Hr].
  destruct (m s) as [s1 [a|e]], (m' s) as [s2 [b|e']]; simpl in *; subst; try done. apply Hk.
Qed.

Lemma same_run_for {S A B} (body : B → A → step S B) (body' : A → step S unit) l b :
  (∀ b x, same_run (body b x) (body' x)) → same_run (for_fold body l b) (for_each body' l).
Proof.
  intros Hb. revert b. induction l as [|x l IH]; intros b; cbn [for_fold for_each].
  - apply same_run_ret.
  - apply same_run_bind; [apply Hb|]. intros b' _. apply IH.
Qed.

(** The elements of an array with their indices. *)
Definition indexed {A} (l : list A) : list (Z * A) := imap (λ i x, (Z.of_nat i, x)) l.

(** ** Numbers

    A JavaScript number is an IEEE double. The program only computes with
    integers; every other double appears only in validation. [JInt z] is the
    integer double [z], exact for [|z| <= 2^53] (the range the model
    claims); [JFrac m e] is the non-integer [m * 2^e]. *)
Inductive jsnum : Type :=
  | JInt (z : Z)
  | JFrac (m e : Z)
  | JInf (neg : bool)
  | JNaN.

#[export] Instance jsnum_eq_dec : EqDecision jsnum.
Proof. solve_decision. Defined.

(** 2^53: above it [n + 1] is no longer representable. *)
Definition max_exact : Z := 9007199254740992.

(** [Number.isInteger] *)
Definition js_is_integer (n : jsnum) : bool :=
  match n with JInt _ => true | _ => false end.

(** The double nearest to the integer [z], ties to even. *)
Definition round_double (z : Z) : jsnum :=
  if Z.abs z <=? max_exact then JInt z
  else
    let e := Z.log2 (Z.abs z) - 52 in
    let q := Z.shiftr (Z.abs z) e in
    let r := Z.abs z - Z.shiftl q e in
    let half := Z.shiftl 1 (e - 1) in
    let q' := if (half <? r) || ((r =? half) && Z.odd q) then q + 1 else q in
    let m := Z.shiftl q' e in
    if Z.shiftl 1 1024 <=? m then JInf (z <? 0) else JInt (Z.sgn z * m).

(** [a + b] on integer doubles. *)
Definition js_add (a b : Z) : jsnum := round_double (a + b).

Lemma js_add_exact a b : Z.abs (a + b) <= max_exact → js_add a b = JInt (a + b).
Proof. intros H. unfold js_add, round_double. by rewrite (proj2 (Z.leb_le _ _)). Qed.

(** At 2^53 the successor rounds back. *)
Lemma js_add_saturates : js_add max_exact 1 = JInt max_exact.
Proof. vm_compute. reflexivity. Qed.

(** ** Values

    A property value: primitives compare by value, composite values
    (arrays, objects, byte arrays) are references, and the reducer only
    copies and compares the reference. *)
Inductive jsval : Type :=
  | JUndefined
  | JNull
  | JBool (b : bool)
  | JNum (n : jsnum)
  | JStr (s : string)
  | JRef (addr : N).

#[export] Instance jsval_eq_dec : EqDecision jsval.
Proof. solve_decision. Defined.

(** [===] *)
Definition js_strict_eq (a b : jsval) : bool :=
  match a, b with
  | JNum JNaN, JNum JNaN => false
  | _, _ => bool_decide (a = b)
  end.

Lemma js_strict_eq_true a b : js_strict_eq a b = true → a = b.
Proof. destruct a as [| | |[]| |], b as [| | |[]| |]; simpl; try done; case_bool_decide; done. Qed.

(** ** Total orders as comparators

    The program orders everything with comparators that return -1, 0 or 1.
    [CompareLaws] is what a caller (a sort, a last-writer-wins register)
    relies on. *)
Class CompareLaws {A} (cmp : A → A → Z) : Prop := {
  cmp_eq x y : cmp x y = 0 ↔ x = y;
  cmp_opp x y : cmp y x = - cmp x y;
  cmp_trans x y z : cmp x y < 0 → cmp y z < 0 → cmp x z < 0;
}.

(** [if (x !== y) { return x < y ? -1 : 1; } rest] *)
Definition cmp_step {F} `{EqDecision F} (ltb : F → F → bool) (x y : F) (rest : Z) : Z :=
  if decide (x = y) then rest else if ltb x y then -1 else 1.

Class StrictTotal {F} (ltb : F → F → bool) : Prop := {
    ltb_irrefl x : ltb x x = false;
    ltb_trans x y z : ltb x y = true → ltb y z = true → ltb x z = true;
    ltb_total x y : x ≠ y → ltb x y = negb (ltb y x);
  }.

#[export] Instance Z_ltb_strict_total : StrictTotal Z.ltb.
Proof. split; intros *; [apply Z.ltb_irrefl|rewrite !Z.ltb_lt; lia|].
  intros. destruct (Z.ltb_spec x y), (Z.ltb_spec y x); simpl; lia. Qed.

(** String comparison [a < b], by code units. *)
Definition str_ltb (a b : string) : bool :=
  match String.compare a b with Lt => true | _ => false end.

Lemma str_ltb_le a b : str_ltb a b = true ↔ String.le a b ∧ a ≠ b.
Proof.
  unfold str_ltb, String.le, String.leb.
  destruct (String.compare a b) eqn:E.
  - apply String.compare_eq_iff in E as ->. naive_solver.
  - split; [|done]. split; [done|]. intros ->.
    assert (String.compare b b = Eq) as HE; [|congruence].
    pose proof (String.compare_antisym b b). by destruct (String.compare b b).
  - naive_solver.
Qed.

#[export] Instance str_ltb_strict_total : StrictTotal str_ltb.
Proof.
  split.
  - intros x. apply not_true_is_false. rewrite str_ltb_le. naive_solver.
  - intros x y z. rewrite !str_ltb_le. intros [Hxy ?] [Hyz ?].
    split; [by etrans|]. intros ->.
    assert (y = z) by (by apply (anti_symm String.le)). done.
  - intros x y Hne. unfold str_ltb. rewrite (String.compare_antisym x y).
    destruct (String.compare y x) eqn:E; simpl; [|done..].
    apply String.compare_eq_iff in E. congruence.
Qed.

Section lexicographic.
Context {F G : Type} `{EqDecision F} (ltb : F → F → bool) `{!StrictTotal ltb}.

(** Lexicographic comparison of pairs, one [cmp_step] per component. *)
Lemma cmp_pair_laws (cmp : G → G → Z) :
  CompareLaws cmp →
  CompareLaws (λ p q : F * G, cmp_step ltb p.1 q.1 (cmp p.2 q.2)).
Proof.
  intros Hc. unfold cmp_step. split.
  - intros [x u] [y v]; simpl. case_decide as E.
  + rewrite cmp_eq. naive_solver.
  + destruct (ltb _ _); naive_solver.
  - intros [x u] [y v]; simpl. destruct (decide (x = y)) as [->|E].
  + rewrite decide_True by done. apply cmp_opp.
  + rewrite decide_False by done. rewrite (ltb_total x) by done. by destruct (ltb y x).
  - intros [x u] [y v] [z w]; simpl.
  destruct (decide (x = y)) as [->|E1], (decide (y = z)) as [->|E2].
  + apply cmp_trans.
  + done.
  + by rewrite decide_False.
  + destruct (ltb x y) eqn:L1, (ltb y z) eqn:L2; try lia. intros _ _.
    pose proof (ltb_trans _ _ _ L1 L2) as L3. rewrite L3.
    rewrite decide_False; [lia|]. intros ->. by rewrite ltb_irrefl in L3.
Qed.

Lemma cmp_base_laws : CompareLaws (λ x y : F, cmp_step ltb x y 0).
Proof.
  unfold cmp_step. split.
  - intros x y. case_decide; [naive_solver|]. by destruct (ltb _ _).
  - intros x y. destruct (decide (x = y)) as [->|E].
  + by rewrite decide_True.
  + rewrite decide_False by done. rewrite (ltb_total x) by done. by destruct (ltb y x).
  - intros x y z. destruct (decide (x = y)) as [->|E1]; [lia|].
  destruct (decide (y = z)) as [->|E2]; [lia|].
  destruct (ltb x y) eqn:L1, (ltb y z) eqn:L2; try lia. intros _ _.
  pose proof (ltb_trans _ _ _ L1 L2) as L3. rewrite L3.
  rewrite decide_False; [lia|]. intros ->. by rewrite ltb_irrefl in L3.
Qed.
End lexicographic.

(** A comparator on the values of an injective key. *)
Lemma cmp_pull_laws {A B} (key : A → B) `{!Inj (=) (=) key} (cmp : B → B → Z) :
  CompareLaws cmp → CompareLaws (λ x y, cmp (key x) (key y)).
Proof.
  intros Hc. split; intros *.
  - rewrite cmp_eq. split; [by intros ?%(inj key)|by intros ->].
  - apply cmp_opp.
  - apply cmp_trans.
Qed.

(** [compareStrings]: [-1], [0] or [1]. *)
(* @src domain/utils/StringComparison.ts compareStrings *)
Definition compareStrings (left right : string) : Z :=
  if str_ltb left right then -1 else if str_ltb right left then 1 else 0.

Lemma compareStrings_step a b : compareStrings a b = cmp_step str_ltb a b 0.
Proof.
  unfold compareStrings, cmp_step. case_decide as E.
  - subst. by rewrite !ltb_irrefl.
  - rewrite (ltb_total b a) by done. by destruct (str_ltb a b).
Qed.

#[export] Instance compareStrings_laws : CompareLaws compareStrings.
Proof.
  pose proof (cmp_base_laws str_ltb) as [H1 H2 H3].
  split; intros *; rewrite !compareStrings_step; [apply H1|apply H2|apply H3].
Qed.

(** ** [Array.prototype.sort]: a stable sort by a comparator *)
Section sort.
Context {A : Type} (cmp : A → A → Z).

Fixpoint sort_insert (x : A) (l : list A) : list A :=
  match l with
  | [] => [x]
  | y :: l' => if cmp x y <=? 0 then x :: l else y :: sort_insert x l'
  end.

Definition js_sort (l : list A) : list A := foldr sort_insert [] l.

Lemma sort_insert_perm x l : sort_insert x l ≡ₚ x :: l.
Proof.
  induction l as [|y l IH]; simpl; [done|].
  destruct (_ <=? _); [done|]. rewrite IH. apply Permutation_swap.
Qed.

Lemma js_sort_perm l : js_sort l ≡ₚ l.
Proof. induction l as [|x l IH]; simpl; [done|]. by rewrite sort_insert_perm, IH. Qed.

Definition cmp_le (x y : A) : Prop := cmp x y <= 0.

(** Sortedness needs only that swapping the arguments flips the sign. *)
Section sorted.
Context (cmp_flip : ∀ x y, cmp y x = - cmp x y).

Lemma sort_insert_sorted x l : Sorted cmp_le l → Sorted cmp_le (sort_insert x l).
Proof.
  induction 1 as [|y l Hl IH Hhd]; simpl; [by repeat constructor|].
  destruct (Z.leb_spec (cmp x y) 0) as [Hle|Hlt].
  - constructor; [by constructor|]. by constructor.
  - constructor; [done|].
  assert (cmp_le y x) as Hyx by (pose proof (cmp_flip x y); unfold cmp_le; lia).
  destruct l as [|z l]; simpl; [by constructor|].
  destruct (_ <=? _); constructor; [done|]. by inversion Hhd.
Qed.

Lemma js_sort_sorted l : Sorted cmp_le (js_sort l).
Proof. induction l; simpl; [constructor|]. by apply sort_insert_sorted. Qed.
End sorted.

Lemma elem_of_js_sort x l : x ∈ js_sort l ↔ x ∈ l.
Proof. by rewrite js_sort_perm. Qed.

Context `{!CompareLaws cmp}.

#[export] Instance cmp_le_trans : Transitive cmp_le.
Proof.
  intros x y z Hxy Hyz. unfold cmp_le in *.
  destruct (decide (cmp x y = 0)) as [E%cmp_eq|]; [by subst|].
  destruct (decide (cmp y z = 0)) as [E%cmp_eq|]; [by subst|].
  pose proof (cmp_trans x y z). lia.
Qed.
#[export] Instance cmp_le_antisymm : AntiSymm (=) cmp_le.
Proof. intros x y ??. unfold cmp_le in *. apply (cmp_eq (cmp:=cmp)).
  pose proof (cmp_opp x y). lia. Qed.
Lemma cmp_le_total x y : cmp_le x y ∨ cmp_le y x.
Proof. unfold cmp_le. pose proof (cmp_opp x y). lia. Qed.

Lemma js_sort_unique l1 l2 : l1 ≡ₚ l2 → js_sort l1 = js_sort l2.
Proof.
  intros Hp. apply (Sorted_unique cmp_le); [apply js_sort_sorted, cmp_opp..|].
  by rewrite !js_sort_perm.
Qed.
End sort.

Lemma StronglySorted_sublist {A} (R : relation A) l1 l2 :
  l1 `sublist_of` l2 → StronglySorted R l2 → StronglySorted R l1.
Proof.
  induction 1 as [|x l1 l2 Hl IH|x l1 l2 Hl IH]; [done| |]; intros [Hs Hx]%StronglySorted_inv; [|auto].
  constructor; [auto|]. rewrite Forall_forall in *. intros y Hy. apply Hx. by eapply elem_of_sublist.
Qed.

Lemma StronglySorted_weaken {A} (R R' : relation A) l :
  (∀ x y, x ∈ l → y ∈ l → R x y → R' x y) → StronglySorted R l → StronglySorted R' l.
Proof.
  intros Hl. induction 1 as [|x l Hs IH Hx]; [constructor|].
  constructor; [apply IH; set_solver|]. rewrite Forall_forall in *. set_solver.
Qed.

(** ** Strictly sorted lists *)
Section strict.
Context {A : Type} (cmp : A → A → Z) `{!CompareLaws cmp}.

Definition strictly_sorted (l : list A) : Prop := StronglySorted (λ x y, cmp x y < 0)%Z l.

Lemma strictly_sorted_nodup l : strictly_sorted l → NoDup l.
Proof.
  induction 1 as [|x l _ IH Hx]; constructor; [|done]. intros Hin.
  rewrite Forall_forall in Hx. specialize (Hx x Hin). rewrite (proj2 (cmp_eq x x)) in Hx by done. lia.
Qed.

Lemma js_sort_strict l : NoDup l → strictly_sorted (js_sort cmp l).
Proof.
  intros Hnd. assert (NoDup (js_sort cmp l)) as Hnd' by by rewrite js_sort_perm.
  assert (StronglySorted (cmp_le cmp) (js_sort cmp l)) as Hs
    by (apply Sorted_StronglySorted, js_sort_sorted, cmp_opp; apply _).
  induction Hs as [|x l' _ IH Hx]; [constructor|]. apply NoDup_cons in Hnd' as [Hni Hnd'].
  constructor; [by apply IH|]. rewrite Forall_forall in Hx |- *. intros y Hy. specialize (Hx y Hy).
  unfold cmp_le in Hx. destruct (decide (cmp x y = 0)) as [->%cmp_eq|]; [done|lia].
Qed.

(** The members determine the list. *)
Lemma strictly_sorted_unique l1 l2 :
  strictly_sorted l1 → strictly_sorted l2 → (∀ x, x ∈ l1 ↔ x ∈ l2) → l1 = l2.
Proof.
  intros H1 H2 Hx.
  assert (l1 ≡ₚ l2) as Hp by (apply NoDup_Permutation; [by apply strictly_sorted_nodup..|done]).
  apply (StronglySorted_unique (cmp_le cmp)); [| |done];
    (eapply StronglySorted_weaken; [|eassumption]); intros x y; unfold cmp_le; lia.
Qed.

Lemma strictly_sorted_filter P `{!∀ x, Decision (P x)} l :
  strictly_sorted l → strictly_sorted (filter P l).
Proof.
  induction 1 as [|x l _ IH Hx]; [constructor|]. rewrite filter_cons. case_decide; [|done].
  constructor; [done|]. rewrite Forall_forall in Hx |- *. intros y [_ Hy]%list_elem_of_filter. by apply Hx.
Qed.
End strict.

(** Sorting records by a string key. *)
Section sort_by_key.
Context {A : Type} (key : A → string).

Definition compare_key (x y : A) : Z := compareStrings (key x) (key y).

#[local] Instance compare_key_trans : Transitive (cmp_le compare_key).
Proof. intros x y z. apply (cmp_le_trans compareStrings (key x) (key y) (key z)). Qed.

Lemma sort_key_sorted l : StronglySorted (cmp_le compare_key) (js_sort compare_key l).
Proof.
  apply Sorted_StronglySorted; [apply _|]. apply js_sort_sorted.
  intros x y. apply (cmp_opp (key x) (key y)).
Qed.

(** The result does not depend on the order of the input when the keys of
    different elements differ. *)
Lemma sort_key_unique l1 l2 :
  l1 ≡ₚ l2 → (∀ x y, x ∈ l1 → y ∈ l1 → key x = key y → x = y) →
  js_sort compare_key l1 = js_sort compare_key l2.
Proof.
  intros Hp Hk. apply (StronglySorted_unique_strong (cmp_le compare_key));
  [|apply sort_key_sorted..|by rewrite !js_sort_perm].
  intros x y Hx%elem_of_js_sort Hy%elem_of_js_sort Hxy Hyx.
  apply Hk; [done|by rewrite Hp|]. by apply (anti_symm (cmp_le compareStrings)).
Qed.

(** Without duplicates the order is strict. *)
Lemma sort_key_strict l :
  NoDup l → (∀ x y, x ∈ l → y ∈ l → key x = key y → x = y) →
  Sorted (λ x y, compare_key x y < 0) (js_sort compare_key l).
Proof.
  intros Hnd Hk. apply StronglySorted_Sorted.
  assert (NoDup (js_sort compare_key l)) as Hnd' by by rewrite js_sort_perm.
  assert (∀ x y, x ∈ js_sort compare_key l → y ∈ js_sort compare_key l → key x = key y → x = y)
  as Hk' by (intros x y Hx%elem_of_js_sort Hy%elem_of_js_sort; by apply Hk).
  pose proof (sort_key_sorted l) as Hs. revert Hnd' Hk' Hs. clear.
  induction (js_sort compare_key l) as [|x l' IH]; intros Hnd Hk Hs; [constructor|].
  apply NoDup_cons in Hnd as [Hni Hnd]. apply StronglySorted_inv in Hs as [Hs Hx].
  constructor; [apply IH; [done| |done]; intros; apply Hk; set_solver|].
  rewrite Forall_forall in *. intros y Hy. specialize (Hx y Hy). unfold cmp_le in Hx.
  destruct (decide (compare_key x y = 0)) as [E|]; [|lia]. exfalso.
  apply (cmp_eq (cmp:=compareStrings)), Hk in E; [by subst|set_solver..].
Qed.
End sort_by_key.

(** ** Maps

    A JavaScript [Map] or plain object keyed by strings is a [gmap]. The
    iteration order of a [gmap] stands for the insertion order the program
    does not rely on; where it does rely on it the model uses
    [ordmap] below. *)
Section upsert.
Context {V : Type} (f : option V → V → V).

(** [for (const [k, v] of source) { target.set(k, f(target.get(k), v)); }] *)
Definition map_upsert (target source : gmap string V) : gmap string V :=
  foldl (λ acc '(k, v), <[k := f (acc !! k) v]> acc) target (map_to_list source).

Lemma foldl_upsert_lookup (l : list (string * V)) (t : gmap string V) k :
  NoDup l.*1 →
  foldl (λ acc '(k, v), <[k := f (acc !! k) v]> acc) t l !! k
  = match (list_to_map l : gmap string V) !! k with
  | None => t !! k
  | Some v => Some (f (t !! k) v)
  end.
Proof.
  revert t. induction l as [|[k' v'] l IH]; intros t Hnd; csimpl.
  { by rewrite lookup_empty. }
  inversion Hnd as [|?? Hni Hnd']; subst. rewrite IH by done.
  destruct (decide (k = k')) as [->|Hne].
  - rewrite lookup_insert_eq, not_elem_of_list_to_map_1 by done.
  by rewrite lookup_insert_eq.
  - by rewrite !lookup_insert_ne by done.
Qed.

Lemma lookup_map_upsert t s k :
  map_upsert t s !! k
  = match s !! k with None => t !! k | Some v => Some (f (t !! k) v) end.
Proof.
  unfold map_upsert. rewrite foldl_upsert_lookup by apply NoDup_fst_map_to_list.
  by rewrite list_to_map_to_list.
Qed.

(** [map_upsert] by a join [g] of values is a join of maps. *)
Definition upsert_of (g : V → V → V) : Prop :=
  (∀ v, f None v = v) ∧ (∀ u v, f (Some u) v = g u v).

Lemma lookup_map_upsert_join g t s k :
  upsert_of g →
  map_upsert t s !! k = union_with (λ u v, Some (g u v)) (t !! k) (s !! k).
Proof.
  intros [HN HS]. rewrite lookup_map_upsert.
  destruct (s !! k), (t !! k); simpl; rewrite ?HN, ?HS; done.
Qed.

Lemma map_upsert_idemp g t :
  upsert_of g → (∀ v, g v v = v) → map_upsert t t = t.
Proof.
  intros Hf Hg. apply map_eq; intros k. rewrite (lookup_map_upsert_join g) by done.
  destruct (t !! k); simpl; by rewrite ?Hg.
Qed.

Lemma map_upsert_assoc g t1 t2 t3 :
  upsert_of g → (∀ u v w, g (g u v) w = g u (g v w)) →
  map_upsert (map_upsert t1 t2) t3 = map_upsert t1 (map_upsert t2 t3).
Proof.
  intros Hf Hg. apply map_eq; intros k. rewrite !(lookup_map_upsert_join g) by done.
  destruct (t1 !! k), (t2 !! k), (t3 !! k); simpl; by rewrite ?Hg.
Qed.

Lemma map_upsert_comm g t1 t2 :
  upsert_of g →
  (∀ k u v, t1 !! k = Some u → t2 !! k = Some v → g u v = g v u) →
  map_upsert t1 t2 = map_upsert t2 t1.
Proof.
  intros Hf Hg. apply map_eq; intros k. rewrite !(lookup_map_upsert_join g) by done.
  destruct (t1 !! k) eqn:?, (t2 !! k) eqn:?; simpl; f_equal; eauto.
Qed.

Lemma map_upsert_empty_r t : map_upsert t ∅ = t.
Proof. unfold map_upsert. by rewrite map_to_list_empty. Qed.

Lemma map_upsert_empty_l g s : upsert_of g → map_upsert ∅ s = s.
Proof.
  intros Hf. apply map_eq; intros k. rewrite (lookup_map_upsert_join g) by done.
  rewrite lookup_empty. by destruct (s !! k).
Qed.

Lemma map_upsert_singleton t k v : map_upsert t {[k := v]} = <[k := f (t !! k) v]> t.
Proof.
  apply map_eq; intros k'. rewrite lookup_map_upsert.
  destruct (decide (k = k')) as [->|]; by simplify_map_eq.
Qed.
End upsert.

(** ** Insertion-ordered maps, where the order of the entries is observable *)
Section ordmap.
Context {V : Type}.

Fixpoint ordmap_get (k : string) (m : list (string * V)) : option V :=
  match m with
  | [] => None
  | (k', v) :: m' => if decide (k = k') then Some v else ordmap_get k m'
  end.

(** [m.set(k, v)]: in place when [k] is present, at the end otherwise. *)
Fixpoint ordmap_set (k : string) (v : V) (m : list (string * V)) : list (string * V) :=
  match m with
  | [] => [(k, v)]
  | (k', v') :: m' =>
    if decide (k = k') then (k, v) :: m' else (k', v') :: ordmap_set k v m'
  end.

Lemma ordmap_get_set k k' v m :
  ordmap_get k (ordmap_set k' v m) = if decide (k = k') then Some v else ordmap_get k m.
Proof. induction m as [|[]]; simpl; repeat (case_decide; subst; simpl); naive_solver. Qed.

Lemma ordmap_set_keys k v m k' :
  k' ∈ (ordmap_set k v m).*1 ↔ k' = k ∨ k' ∈ m.*1.
Proof.
  induction m as [|[k1 v1] m IH]; csimpl; [set_solver|].
  case_decide; subst; csimpl; set_solver.
Qed.

Lemma ordmap_set_NoDup k v m : NoDup m.*1 → NoDup (ordmap_set k v m).*1.
Proof.
  induction m as [|[k1 v1] m IH]; csimpl; intros Hnd; [constructor; [set_solver|constructor]|].
  inversion Hnd; subst. case_decide; subst; csimpl; constructor; [done|done| |auto].
  rewrite ordmap_set_keys. naive_solver.
Qed.
End ordmap.

(** ** Strings *)

(** [s.split(c)] for a one-character separator. *)
Fixpoint str_split (c : ascii) (s : string) : list string :=
  match s with
  | EmptyString => [""]
  | String a s' =>
      if decide (a = c) then "" :: str_split c s'
      else match str_split c s' with
           | [] => [String a ""]
           | w :: ws => String a w :: ws
           end
  end.

(** [s.includes(c)] *)
Fixpoint str_includes (c : ascii) (s : string) : bool :=
  match s with
  | EmptyString => false
  | String a s' => bool_decide (a = c) || str_includes c s'
  end.

(** [s[0]] *)
Definition str_head (s : string) : option ascii :=
  match s with EmptyString => None | String a _ => Some a end.

(** [s.slice(1)] *)
Definition str_tail (s : string) : string :=
  match s with EmptyString => "" | String _ s' => s' end.

Definition str_nonempty (s : string) : bool :=
  match s with EmptyString => false | _ => true end.

(** [s.lastIndexOf(c)] as the pair of the text before and after it. *)
Fixpoint str_split_last (c : ascii) (s : string) : option (string * string) :=
  match s with
  | EmptyString => None
  | String a s' =>
      match str_split_last c s' with
      | Some (l, r) => Some (String a l, r)
      | None => if decide (a = c) then Some ("", s') else None
      end
  end.

Lemma str_split_cons_nonnil c s : str_split c s ≠ [].
Proof. destruct s; simpl; [done|]. case_decide; [done|]. by destruct (str_split c s). Qed.

Lemma str_split_none c s : str_includes c s = false → str_split c s = [s].
Proof.
  induction s as [|a s IH]; simpl; [done|]. intros [H1 H2]%orb_false_elim.
  apply bool_decide_eq_false in H1. rewrite decide_False by done. by rewrite IH.
Qed.

Lemma str_split_app c s1 s2 :
  str_includes c s1 = false →
  str_split c (s1 +:+ String c s2) = s1 :: str_split c s2.
Proof.
  induction s1 as [|a s IH]; simpl; [by rewrite decide_True|].
  intros [H1 H2]%orb_false_elim. apply bool_decide_eq_false in H1.
  rewrite decide_False by done. by rewrite IH.
Qed.

(** Splitting loses nothing: joining the pieces gives the string back. *)
Lemma str_split_cons c s w ws :
  str_split c s = w :: ws → ws ≠ [] →
  ∃ s', s = w +:+ String c s' ∧ str_split c s' = ws.
Proof.
  revert w. induction s as [|a s IH]; simpl; intros w.
  - intros [= <- <-]. done.
  - case_decide as Ha.
    + intros [= <- <-] _. exists s. by subst.
    + destruct (str_split c s) as [|w' ws'] eqn:E; intros [= <- <-] Hne.
      { done. }
      destruct (IH w' eq_refl Hne) as (s' & -> & Hs'). by exists s'.
Qed.

Lemma str_split_single c s w : str_split c s = [w] → s = w.
Proof.
  revert w. induction s as [|a s IH]; simpl; intros w.
  - by intros [= <-].
  - case_decide as Ha.
    + intros [= ? Hs]. by apply str_split_cons_nonnil in Hs.
    + destruct (str_split c s) as [|w' ws'] eqn:E; [by apply str_split_cons_nonnil in E|].
      intros [= <- ->]. by rewrite (IH w').
Qed.

Lemma str_split_last_none c s : str_includes c s = false → str_split_last c s = None.
Proof.
  induction s as [|a s IH]; simpl; [done|]. intros [H1 H2]%orb_false_elim.
  apply bool_decide_eq_false in H1. rewrite IH by done. by rewrite decide_False.
Qed.

Lemma str_split_last_app c s1 s2 :
  str_includes c s2 = false →
  str_split_last c (s1 +:+ String c s2) = Some (s1, s2).
Proof.
  intros H2. induction s1 as [|a s IH]; simpl.
  - by rewrite str_split_last_none, decide_True.
  - by rewrite IH.
Qed.

Lemma str_split_last_Some c s l r :
  str_split_last c s = Some (l, r) → s = l +:+ String c r ∧ str_includes c r = false.
Proof.
  revert l. induction s as [|a s IH]; simpl; intros l; [done|].
  destruct (str_split_last c s) as [[l' r']|] eqn:E.
  - intros [= <- <-]. destruct (IH l') as [-> ?]; done.
  - case_decide; [|done]. intros [= <- <-]. subst. split; [done|].
    clear IH. induction s as [|b s IH]; simpl in *; [done|].
    destruct (str_split_last c s) as [[]|]; [done|]. case_decide; [done|].
    rewrite IH by done. by rewrite bool_decide_eq_false_2.
Qed.

Lemma str_app_assoc s1 s2 s3 : (s1 +:+ s2) +:+ s3 = s1 +:+ (s2 +:+ s3).
Proof.
  induction s1 as [|a s1 IH]; [done|].
  change (String a ((s1 +:+ s2) +:+ s3) = String a (s1 +:+ (s2 +:+ s3))).
  by rewrite IH.
Qed.

Lemma str_app_nil_r s : s +:+ "" = s.
Proof. induction s as [|a s IH]; [done|]. change (String a (s +:+ "") = String a s). by rewrite IH. Qed.

Lemma str_includes_app c s1 s2 :
  str_includes c (s1 +:+ s2) = str_includes c s1 || str_includes c s2.
Proof. induction s1 as [|a s1 IH]; simpl; [done|]. by rewrite IH, orb_assoc. Qed.

(** ** Decimal printing and parsing of numbers *)

(** [Number.prototype.toString] on an integer in the exact range. *)
Definition digit_char (d : Z) : ascii := ascii_of_N (Z.to_N (48 + d)).

Definition digit_val (a : ascii) : option Z :=
  let n := Z.of_N (N_of_ascii a) in
  if (48 <=? n) && (n <=? 57) then Some (n - 48) else None.

Fixpoint digits_acc (fuel : nat) (n : Z) (acc : string) : string :=
  match fuel with
  | O => acc
  | S fuel' =>
      let acc' := String (digit_char (n mod 10)) acc in
      if n <? 10 then acc' else digits_acc fuel' (n / 10) acc'
  end.

Definition num_to_string (z : Z) : string :=
  let digits n := digits_acc (S (Z.to_nat (Z.log2 n))) n "" in
  if z <? 0 then String "-" (digits (- z)) else digits z.

(** [parseInt(s, 10)] *)
Definition js_is_space (a : ascii) : bool :=
  let n := N_of_ascii a in
  ((9 <=? n) && (n <=? 13) || (n =? 32) || (n =? 160))%N.

Fixpoint js_trim_start (s : string) : string :=
  match s with
  | String a s' => if js_is_space a then js_trim_start s' else s
  | EmptyString => EmptyString
  end.

Fixpoint parse_digits (s : string) (acc : option Z) : option Z :=
  match s with
  | EmptyString => acc
  | String a s' =>
      match digit_val a with
      | Some d => parse_digits s' (Some (10 * default 0 acc + d))
      | None => acc
      end
  end.

Definition parse_int (s : string) : jsnum :=
  let s := js_trim_start s in
  let '(sgn, body) :=
    match s with
    | String "-" s' => (-1, s')
    | String "+" s' => (1, s')
    | _ => (1, s)
    end in
  match parse_digits body None with
  | Some z => round_double (sgn * z)
  | None => JNaN
  end.

Lemma digit_val_char d : 0 <= d < 10 → digit_val (digit_char d) = Some d.
Proof.
  intros Hd. assert (d = 0 ∨ d = 1 ∨ d = 2 ∨ d = 3 ∨ d = 4 ∨ d = 5 ∨ d = 6 ∨ d = 7 ∨ d = 8 ∨ d = 9)
    as Hc by lia.
  by repeat destruct Hc as [->|Hc]; [..|subst].
Qed.

Lemma parse_digits_acc fuel n acc :
  fuel ≠ O → 0 <= n < 2 ^ Z.of_nat fuel →
  parse_digits (digits_acc fuel n acc) None = parse_digits acc (Some n).
Proof.
  revert n acc. induction fuel as [|fuel IH]; intros n acc Hf Hn; cbn [digits_acc]; [done|].
  destruct (Z.ltb_spec n 10) as [Hlt|Hge].
  - cbn [parse_digits]. rewrite digit_val_char by (apply Z.mod_pos_bound; lia).
    rewrite Z.mod_small by lia. done.
  - rewrite IH.
    + cbn [parse_digits]. rewrite digit_val_char by (apply Z.mod_pos_bound; lia).
      cbn. by rewrite <- (Z.div_mod n 10).
    + intros ->. simpl in Hn. lia.
    + split; [apply Z.div_pos; lia|]. apply Z.div_lt_upper_bound; [lia|].
      rewrite Nat2Z.inj_succ, Z.pow_succ_r in Hn by lia. lia.
Qed.

Lemma digits_acc_head fuel n acc :
  fuel ≠ O → 0 <= n →
  ∃ d s, 0 <= d < 10 ∧ digits_acc fuel n acc = String (digit_char d) s.
Proof.
  revert n acc. induction fuel as [|fuel IH]; intros n acc Hf Hn; [done|]; cbn [digits_acc].
  pose proof (Z.mod_pos_bound n 10).
  destruct (n <? 10); [by eauto with lia|].
  destruct fuel as [|fuel]; [by eauto with lia|].
  apply IH; [done|]. apply Z.div_pos; lia.
Qed.

Lemma digits_acc_no_char c fuel n acc :
  (∀ d, 0 <= d < 10 → digit_char d ≠ c) → str_includes c acc = false →
  str_includes c (digits_acc fuel n acc) = false.
Proof.
  intros Hc. revert n acc. induction fuel as [|fuel IH]; intros n acc Ha; [done|].
  cbn [digits_acc].
  assert (str_includes c (String (digit_char (n mod 10)) acc) = false).
  { cbn. rewrite Ha, bool_decide_eq_false_2; [done|]. apply Hc, Z.mod_pos_bound. lia. }
  destruct (n <? 10); [done|]. by apply IH.
Qed.

Lemma num_to_string_free c z :
  0 <= z → digit_val c = None → str_includes c (num_to_string z) = false.
Proof.
  intros Hz Hc. unfold num_to_string. rewrite (proj2 (Z.ltb_ge _ _)) by lia.
  apply digits_acc_no_char; [|done]. intros d Hd <-. by rewrite digit_val_char in Hc.
Qed.

Lemma num_to_string_parse z : 0 <= z → parse_digits (num_to_string z) None = Some z.
Proof.
  intros Hz. unfold num_to_string. rewrite (proj2 (Z.ltb_ge _ _)) by lia.
  rewrite parse_digits_acc; [done|done|]. split; [lia|].
  destruct (decide (z = 0)) as [->|]; [done|].
  rewrite Nat2Z.inj_succ, Z2Nat.id by apply Z.log2_nonneg. apply Z.log2_spec. lia.
Qed.

Lemma num_to_string_inj x y : 0 <= x → 0 <= y → num_to_string x = num_to_string y → x = y.
Proof.
  intros Hx%num_to_string_parse Hy%num_to_string_parse E. rewrite E in Hx. congruence.
Qed.

(** Printing a natural in the exact range and parsing it back is exact. *)
Lemma parse_int_num_to_string z :
  0 <= z <= max_exact → parse_int (num_to_string z) = JInt z.
Proof.
  intros Hz. pose proof (num_to_string_parse z) as Hp. unfold num_to_string in *.
  rewrite (proj2 (Z.ltb_ge z 0)) in * by lia. specialize (Hp (proj1 Hz)).
  set (f := S (Z.to_nat (Z.log2 z))) in *.
  destruct (digits_acc_head f z "") as (d & s & Hd & Es); [done|lia|].
  unfold parse_int. rewrite Es in *.
  assert (js_trim_start (String (digit_char d) s) = String (digit_char d) s
    ∧ digit_char d ≠ "-"%char ∧ digit_char d ≠ "+"%char) as (-> & Hm & Hpl).
  { clear -Hd. assert (d ∈ seqZ 0 10) as Hc by (apply elem_of_seqZ; lia).
    unfold seqZ in Hc; simpl in Hc. set_unfold. by repeat destruct Hc as [->|Hc]. }
  assert ((match String (digit_char d) s with
    | String "-" s' => (-1, s') | String "+" s' => (1, s')
    | _ => (1, String (digit_char d) s) end) = (1, String (digit_char d) s)) as ->.
  { destruct (digit_char d) as [[] [] [] [] [] [] [] []]; try done. }
  rewrite Hp. unfold round_double. rewrite (proj2 (Z.leb_le _ _)) by lia.
  f_equal. lia.
Qed.
