(* ===== verification/Texts.v ===== *)
(** Strings as lists of parts: [String.prototype.trim] and [Array.prototype.join],
    shared by the components that build keys of texts. At the end: JSON texts. *)
From S2P Require Export Prelude.
#[local] Open Scope string_scope.
#[local] Open Scope list_scope.

(** [s.trimEnd()] *)
Fixpoint js_trim_end (s : string) : string :=
  match s with
  | EmptyString => EmptyString
  | String a s' =>
      match js_trim_end s' with
      | EmptyString => if js_is_space a then EmptyString else String a EmptyString
      | t => String a t
      end
  end.

(** [s.trim()] *)
Definition js_trim (s : string) : string := js_trim_end (js_trim_start s).

(** [l.join(c)] for a one-character separator. *)
Fixpoint str_join (c : ascii) (l : list string) : string :=
  match l with
  | [] => ""
  | [s] => s
  | s :: l' => s +:+ String c (str_join c l')
  end.

Lemma str_join_cons c s l : l ≠ [] → str_join c (s :: l) = s +:+ String c (str_join c l).
Proof. by destruct l. Qed.

Lemma str_includes_join c d l :
  c ≠ d → str_includes c (str_join d l) = existsb (str_includes c) l.
Proof.
  intros Hne. induction l as [|s [|s' l] IH]; [done|by simpl; rewrite orb_false_r|].
  rewrite str_join_cons, str_includes_app by done. cbn [str_includes].
  rewrite IH, bool_decide_eq_false_2 by done. done.
Qed.

(** Parts without the separator are read back. *)
Lemma str_split_join c l :
  l ≠ [] → Forall (λ s, str_includes c s = false) l → str_split c (str_join c l) = l.
Proof.
  intros Hne Hl. induction Hl as [|s l Hs Hl IH]; [done|].
  destruct l as [|s' l]; [by apply str_split_none|].
  rewrite str_join_cons, str_split_app by done. by rewrite IH.
Qed.

Lemma str_join_inj c l1 l2 :
  l1 ≠ [] → l2 ≠ [] →
  Forall (λ s, str_includes c s = false) l1 → Forall (λ s, str_includes c s = false) l2 →
  str_join c l1 = str_join c l2 → l1 = l2.
Proof.
  intros Hn1 Hn2 H1 H2 E. rewrite <- (str_split_join c l1), <- (str_split_join c l2) by done. by rewrite E.
Qed.

(** A prefix of two texts can be cancelled. *)
Lemma str_app_inj_l p s t : p +:+ s = p +:+ t → s = t.
Proof.
  induction p as [|a p IH]; [done|].
  change (String a (p +:+ s) = String a (p +:+ t) → s = t). intros [= E]. by apply IH.
Qed.

(** What is trimmed has no space at its ends. *)
Lemma js_trim_start_idemp s : js_trim_start (js_trim_start s) = js_trim_start s.
Proof. induction s as [|a s IH]; [done|]. simpl. destruct (js_is_space a) eqn:E; [done|]. simpl. by rewrite E. Qed.

Lemma js_trim_end_idemp s : js_trim_end (js_trim_end s) = js_trim_end s.
Proof.
  induction s as [|a s IH]; [done|]. simpl. destruct (js_trim_end s) as [|b t] eqn:E.
  - destruct (js_is_space a) eqn:Ea; [done|]. simpl. by rewrite Ea.
  - cbn [js_trim_end] in *. by rewrite IH.
Qed.

Lemma js_trim_start_end s : js_trim_start s = s → js_trim_start (js_trim_end s) = js_trim_end s.
Proof.
  destruct s as [|a s]; [done|]. simpl. destruct (js_is_space a) eqn:Ea.
  - intros E. exfalso. assert (∀ t, String.length (js_trim_start t) ≤ String.length t)%nat as Hlen.
    { induction t as [|b t IH]; [done|]. simpl. destruct (js_is_space b); simpl; lia. }
    specialize (Hlen s). rewrite E in Hlen. simpl in Hlen. lia.
  - intros _. destruct (js_trim_end s); simpl; by rewrite Ea.
Qed.

Lemma js_trim_idemp s : js_trim (js_trim s) = js_trim s.
Proof.
  unfold js_trim. rewrite js_trim_start_end by apply js_trim_start_idemp. apply js_trim_end_idemp.
Qed.

Lemma str_join_snoc c l s : l ≠ [] → str_join c (l ++ [s]) = str_join c l +:+ String c s.
Proof.
  intros Hne. induction l as [|x l IH]; [done|]. destruct l as [|y l]; [done|].
  change ((x :: y :: l) ++ [s]) with (x :: ((y :: l) ++ [s])).
  rewrite !str_join_cons, IH by (by try destruct l). by rewrite str_app_assoc.
Qed.

Lemma js_trim_end_app s t : js_trim_end t = t → t ≠ "" → js_trim_end (s +:+ t) = s +:+ t.
Proof.
  intros Et Hne. destruct t as [|b t]; [done|]. induction s as [|a s IH]; [done|].
  change (String a s +:+ String b t) with (String a (s +:+ String b t)). cbn [js_trim_end]. rewrite IH.
  by destruct s.
Qed.

(** The parts of a split text are free of the separator. *)
Lemma str_split_free c s w : w ∈ str_split c s → str_includes c w = false.
Proof.
  revert w. induction s as [|a s IH]; intros w; simpl.
  { by intros ->%list_elem_of_singleton. }
  case_decide as Ha.
  - intros [->|Hw]%elem_of_cons; [done|by apply IH].
  - destruct (str_split c s) as [|w0 ws]; [by apply str_split_cons_nonnil in IH || (intros ->%list_elem_of_singleton; simpl; by rewrite bool_decide_eq_false_2)|].
    intros [->|Hw]%elem_of_cons; [simpl; rewrite bool_decide_eq_false_2 by done; apply IH; by left|].
    apply IH. by right.
Qed.

(** ** JSON texts of strings and of lists of strings, as [JSON.stringify] writes
    them (ECMAScript, QuoteJSONString), and that they can be read back. *)
#[local] Open Scope list_scope.
#[local] Open Scope string_scope.

Module Json.

Definition quote_mark : ascii := "034"%char.
Definition backslash : ascii := "\"%char.

Definition hex_digit (n : N) : ascii :=
  ascii_of_N (if (n <? 10)%N then 48 + n else 87 + n)%N.

(** The text of one code unit. *)
Definition escape (c : ascii) : string :=
  let n := N_of_ascii c in
  let esc e := String backslash (String e "") in
  if (n =? 8)%N then esc "b"%char
  else if (n =? 9)%N then esc "t"%char
  else if (n =? 10)%N then esc "n"%char
  else if (n =? 12)%N then esc "f"%char
  else if (n =? 13)%N then esc "r"%char
  else if (n =? 34)%N then esc quote_mark
  else if (n =? 92)%N then esc backslash
  else if (n <? 32)%N then
    String backslash (String "u" (String "0" (String "0"
      (String (hex_digit (n / 16)) (String (hex_digit (n mod 16)) "")))))
  else String c "".

Fixpoint escape_all (s : string) : string :=
  match s with EmptyString => "" | String c s' => escape c +:+ escape_all s' end.

(** [JSON.stringify(s)] of a string. *)
Definition stringify_string (s : string) : string :=
  String quote_mark (escape_all s +:+ String quote_mark "").

Fixpoint join_with (sep : string) (l : list string) : string :=
  match l with
  | [] => ""
  | [x] => x
  | x :: l' => x +:+ sep +:+ join_with sep l'
  end.

(** [JSON.stringify] of an array whose entries have the given texts. *)
Definition stringify_array (texts : list string) : string :=
  "[" +:+ join_with "," texts +:+ "]".

(** Reading one code unit back. *)
Definition read_unit (s : string) : option (ascii * string) :=
  match s with
  | String c s1 =>
    if decide (c = quote_mark) then None
    else if decide (c = backslash) then
      match s1 with
      | String "b" r => Some ("008"%char, r)
      | String "t" r => Some ("009"%char, r)
      | String "n" r => Some ("010"%char, r)
      | String "f" r => Some ("012"%char, r)
      | String "r" r => Some ("013"%char, r)
      | String "u" (String _ (String _ (String h (String l r)))) =>
          let d a := (let n := N_of_ascii a in if n <? 58 then n - 48 else n - 87)%N in
          Some (ascii_of_N (16 * d h + d l)%N, r)
      | String e r => Some (e, r)
      | EmptyString => None
      end
    else Some (c, s1)
  | EmptyString => None
  end.

Lemma read_escape c s : read_unit (escape c +:+ s) = Some (c, s).
Proof. by destruct c as [[] [] [] [] [] [] [] []]. Qed.

(** A quoted string ends where it ends: a text that starts with one determines
    it and what follows. *)
Lemma escape_all_inj a b s t :
  escape_all a +:+ String quote_mark s = escape_all b +:+ String quote_mark t → a = b ∧ s = t.
Proof.
  revert b. induction a as [|c a IH]; intros [|d b] E; simpl in E.
  - by injection E.
  - apply (f_equal read_unit) in E. rewrite str_app_assoc, read_escape in E. done.
  - apply (f_equal read_unit) in E. rewrite str_app_assoc, read_escape in E. done.
  - apply (f_equal read_unit) in E. rewrite !str_app_assoc, !read_escape in E. injection E as -> E.
    by destruct (IH b E) as [-> ->].
Qed.

(** Texts that determine their value whatever follows them. *)
Definition prefix_free {A} (text : A → string) : Prop :=
  ∀ x y s t, text x +:+ s = text y +:+ t → x = y ∧ s = t.

Lemma stringify_string_prefix_free : prefix_free stringify_string.
Proof.
  intros x y s t E. unfold stringify_string in E.
  change (String quote_mark (escape_all x +:+ String quote_mark "") +:+ s)
    with (String quote_mark ((escape_all x +:+ String quote_mark "") +:+ s)) in E.
  change (String quote_mark (escape_all y +:+ String quote_mark "") +:+ t)
    with (String quote_mark ((escape_all y +:+ String quote_mark "") +:+ t)) in E.
  rewrite !str_app_assoc in E. injection E as E. by apply escape_all_inj in E.
Qed.

Lemma str_cons_app c s t : String c s +:+ t = String c (s +:+ t).
Proof. done. Qed.

Lemma str_app_inv_head a s t : a +:+ s = a +:+ t → s = t.
Proof. induction a as [|c a IH]; [done|]. rewrite !str_cons_app. intros E. injection E as E. auto. Qed.

(** *** Arrays *)
Section array.
Context {A : Type} (text : A → string) (Htext : prefix_free text)
  (Hhead : ∀ x, str_head (text x) ≠ Some "]"%char ∧ text x ≠ "").

(** The entries after the first one, and the closing bracket. *)
Fixpoint array_rest (l : list A) : string :=
  match l with [] => "]" | x :: l' => String "," (text x +:+ array_rest l') end.

Lemma join_rest x l s : join_with "," (text <$> x :: l) +:+ "]" +:+ s = text x +:+ array_rest l +:+ s.
Proof.
  revert x. induction l as [|y l IH]; intros x; csimpl; [done|].
  specialize (IH y). csimpl in IH. rewrite !str_app_assoc in *. f_equal.
  transitivity (String "," (text y +:+ array_rest l +:+ s)); [exact (f_equal (String ",") IH)|].
  by rewrite <- str_app_assoc.
Qed.

Lemma array_rest_inj l m s t : array_rest l +:+ s = array_rest m +:+ t → l = m ∧ s = t.
Proof.
  revert m. induction l as [|x l IH]; intros [|y m]; csimpl.
  - intros E. by injection E.
  - intros E. discriminate E.
  - intros E. discriminate E.
  - intros E. injection E as E. rewrite !str_app_assoc in E. apply Htext in E as [-> E].
    by apply IH in E as [-> ->].
Qed.

Lemma stringify_array_prefix_free : prefix_free (λ l, stringify_array (text <$> l)).
Proof.
  assert (∀ y m s t, String "]" s = text y +:+ (array_rest m +:+ t) → False) as Hne.
  { intros y m s t E. destruct (Hhead y) as [Hh Hn]. destruct (text y); [done|].
    injection E as Ea _. by subst. }
  intros l m s t E. unfold stringify_array in E. rewrite !str_app_assoc in E. apply str_app_inv_head in E.
  destruct l as [|x l], m as [|y m].
  - by injection E.
  - rewrite join_rest in E. by apply Hne in E.
  - rewrite join_rest in E. symmetry in E. by apply Hne in E.
  - rewrite !join_rest in E. apply Htext in E as [-> E]. by apply array_rest_inj in E as [-> ->].
Qed.
End array.

Lemma stringify_string_head x : str_head (stringify_string x) ≠ Some "]"%char ∧ stringify_string x ≠ "".
Proof. done. Qed.

(** Lists of strings, and lists of them. *)
Definition stringify_strings (l : list string) : string := stringify_array (stringify_string <$> l).

Lemma stringify_strings_prefix_free : prefix_free stringify_strings.
Proof.
  apply stringify_array_prefix_free; [apply stringify_string_prefix_free|apply stringify_string_head].
Qed.

Lemma stringify_strings_head l : str_head (stringify_strings l) ≠ Some "]"%char ∧ stringify_strings l ≠ "".
Proof. done. Qed.
End Json.
