(* ===== verification/Causal.v ===== *)
(** Causal identity: dots ([crdt/Dot.ts]), event identifiers
    ([utils/EventId.ts]) and version vectors ([crdt/VersionVector.ts]).

    A counter is the integer value of a double; constructors receive a raw
    [jsnum] and reject everything that is not an integer in range. *)
From S2P Require Export Prelude.

Definition CrdtError (code : string) : error := Err "CrdtError" code.
Definition PatchError (code : string) : error := Err "PatchError" code.
Definition PatchMalformed : error := PatchError "E_PATCH_MALFORMED".

(** [Number.isInteger(n) && n > bound - 1] as the integer it denotes. *)
Definition int_at_least (bound : Z) (n : jsnum) : option Z :=
  match n with
  | JInt z => if bound <=? z then Some z else None
  | _ => None
  end.

Lemma int_at_least_Some bound n z :
  int_at_least bound n = Some z ↔ n = JInt z ∧ bound <= z.
Proof. destruct n; simpl; try naive_solver. destruct (Z.leb_spec bound z0); naive_solver lia. Qed.

Module Dot.
(* @src domain/crdt/Dot.ts Dot 65-70 *)
Record Dot := mk { writerId : string; counter : Z }.

#[global] Instance Dot_eq_dec : EqDecision Dot.
Proof. solve_decision. Defined.

(* @src domain/crdt/Dot.ts constructor *)
Definition new (writerId : string) (counter : jsnum) : result Dot :=
  _ ← require (str_nonempty writerId) (CrdtError "E_CRDT_INVALID_WRITER_ID");
  match int_at_least 1 counter with
  | Some c => Ok (mk writerId c)
  | None => Throw (CrdtError "E_CRDT_INVALID_COUNTER")
  end.

(* @src domain/crdt/Dot.ts create *)
Definition create (writerId : string) (counter : jsnum) : result Dot :=
  new writerId counter.

(* @src domain/crdt/Dot.ts equals *)
Definition equals (a b : Dot) : bool :=
  String.eqb (writerId a) (writerId b) && (counter a =? counter b).

(* @src domain/crdt/Dot.ts encode *)
Definition encode (dot : Dot) : string :=
  writerId dot +:+ String ":" (num_to_string (counter dot)).

(* @src domain/crdt/Dot.ts decode *)
Definition decode (encoded : string) : result Dot :=
  match str_split_last ":" encoded with
  | None => Throw (CrdtError "E_CRDT_MALFORMED")
  | Some (writerId, counterStr) =>
    let counter := parse_int counterStr in
    _ ← require (str_nonempty writerId) (CrdtError "E_CRDT_INVALID_WRITER_ID");
    match counter with
    | JNaN => Throw (CrdtError "E_CRDT_INVALID_COUNTER")
    | JInt c =>
        _ ← require (0 <? c) (CrdtError "E_CRDT_INVALID_COUNTER");
        new writerId counter
    | JInf true => Throw (CrdtError "E_CRDT_INVALID_COUNTER")
    | _ => new writerId counter
    end
  end.

(* @src domain/crdt/Dot.ts compare *)
Definition compare (a b : Dot) : Z :=
  cmp_step str_ltb (writerId a) (writerId b)
  (cmp_step Z.ltb (counter a) (counter b) 0).

(** The range in which the encoding is modelled: counters up to 2^53. *)
Definition wf (d : Dot) : Prop :=
  str_nonempty (writerId d) = true ∧ 1 <= counter d <= max_exact.

Lemma dot_equals_spec a b : equals a b = true ↔ a = b.
Proof.
  unfold equals. rewrite andb_true_iff, String.eqb_eq, Z.eqb_eq.
  destruct a, b; naive_solver.
Qed.

Lemma dot_new_ok w n d :
  new w n = Ok d ↔
  str_nonempty w = true ∧ writerId d = w ∧ n = JInt (counter d) ∧ 1 <= counter d.
Proof.
  unfold new. destruct (str_nonempty w); simpl; [|naive_solver].
  destruct (int_at_least 1 n) as [c|] eqn:E.
  - apply int_at_least_Some in E as [-> ?]. destruct d; naive_solver.
  - split; [done|]. intros (_ & _ & -> & ?).
  by rewrite (proj2 (int_at_least_Some 1 _ (counter d))) in E.
Qed.

Definition key (d : Dot) : string * Z := (writerId d, counter d).
#[global] Instance key_inj : Inj (=) (=) key.
Proof. intros [] [] [= -> ->]. done. Qed.

#[global] Instance compare_laws : CompareLaws compare.
Proof.
  exact (cmp_pull_laws key _ (cmp_pair_laws str_ltb _ (cmp_base_laws Z.ltb))).
Qed.

Lemma num_to_string_no_colon z : 0 <= z → str_includes ":" (num_to_string z) = false.
Proof.
  intros. by apply num_to_string_free.
Qed.

Lemma decode_encode d : wf d → decode (encode d) = Ok d.
Proof.
  intros [Hw Hc]. unfold decode, encode.
  rewrite str_split_last_app by (apply num_to_string_no_colon; lia).
  rewrite parse_int_num_to_string by lia. rewrite Hw; simpl.
  rewrite (proj2 (Z.ltb_lt _ _)) by lia. simpl. apply dot_new_ok; simpl. repeat split; lia || done.
Qed.

Lemma encode_inj a b : wf a → wf b → encode a = encode b → a = b.
Proof.
  intros Ha Hb E. pose proof (decode_encode a Ha) as Da.
  rewrite E, decode_encode in Da by done. by injection Da.
Qed.

Lemma decode_valid s d : decode s = Ok d → str_nonempty (writerId d) = true ∧ 1 <= counter d.
Proof.
  unfold decode. destruct (str_split_last ":" s) as [[w r]|]; [|done].
  rewrite bind_ok. intros ([] & Hw & H). apply require_ok in Hw.
  destruct (parse_int r) as [z| |[]|]; try done.
  - apply bind_ok in H as ([] & _ & H). apply dot_new_ok in H as (?&->&?&?). done.
  - apply dot_new_ok in H as (?&?&?&?). done.
  - apply dot_new_ok in H as (?&?&?&?). done.
Qed.
End Dot.

(** What the constructor of [Dot] guarantees. *)
Definition valid_dot (d : Dot.Dot) : Prop :=
  str_nonempty (Dot.writerId d) = true ∧ 1 <= Dot.counter d.

Module EventId.
(* @src domain/utils/EventId.ts EventId 9-19 *)
Record EventId := mk {
  lamport : Z; writerId : string; patchSha : string; opIndex : Z }.

#[global] Instance EventId_eq_dec : EqDecision EventId.
Proof. solve_decision. Defined.

Definition is_hex (a : ascii) : bool :=
  let n := N_of_ascii a in
  ((48 <=? n) && (n <=? 57) || (97 <=? n) && (n <=? 102))%N.

(** [HEX_OID_REGEX = /^[0-9a-f]{4,64}$/] *)
(* @src domain/utils/EventId.ts HEX_OID_REGEX 3-4 *)
Definition hex_oid (s : string) : bool :=
  forallb is_hex (String.list_ascii_of_string s)
  && (4 <=? String.length s)%nat && (String.length s <=? 64)%nat.

(* @src domain/utils/EventId.ts constructor *)
Definition new (lamport : jsnum) (writerId patchSha : string) (opIndex : jsnum)
  : result EventId :=
  match int_at_least 1 lamport with
  | None => Throw PatchMalformed
  | Some l =>
    _ ← require (str_nonempty writerId) PatchMalformed;
    _ ← require (hex_oid patchSha) PatchMalformed;
    match int_at_least 0 opIndex with
    | None => Throw PatchMalformed
    | Some i => Ok (mk l writerId patchSha i)
    end
  end.

(* @src domain/utils/EventId.ts compareEventIds *)
Definition compareEventIds (a b : EventId) : Z :=
  cmp_step Z.ltb (lamport a) (lamport b)
  (cmp_step str_ltb (writerId a) (writerId b)
    (cmp_step str_ltb (patchSha a) (patchSha b)
      (cmp_step Z.ltb (opIndex a) (opIndex b) 0))).

(* @src domain/utils/EventId.ts isGreater *)
Definition isGreater (a b : EventId) : bool := 0 <? compareEventIds a b.

Lemma event_new_ok l w s i e :
  new l w s i = Ok e ↔
  l = JInt (lamport e) ∧ 1 <= lamport e ∧ w = writerId e ∧ str_nonempty w = true ∧
  s = patchSha e ∧ hex_oid s = true ∧ i = JInt (opIndex e) ∧ 0 <= opIndex e.
Proof.
  unfold new. destruct (int_at_least 1 l) as [l'|] eqn:El.
  - apply int_at_least_Some in El as [-> ?].
  destruct (str_nonempty w) eqn:Ew; [|naive_solver].
  destruct (hex_oid s) eqn:Es; [|naive_solver]. simpl.
  destruct (int_at_least 0 i) as [i'|] eqn:Ei.
  + apply int_at_least_Some in Ei as [-> ?]. destruct e; naive_solver.
  + split; [done|]. intros (_&_&_&_&_&_&->&?).
    by rewrite (proj2 (int_at_least_Some 0 _ (opIndex e))) in Ei.
  - split; [done|]. intros (->&?&_).
  by rewrite (proj2 (int_at_least_Some 1 _ (lamport e))) in El.
Qed.

Definition key (e : EventId) : Z * (string * (string * Z)) :=
  (lamport e, (writerId e, (patchSha e, opIndex e))).
#[global] Instance key_inj : Inj (=) (=) key.
Proof. intros [] [] [= -> -> -> ->]. done. Qed.

#[global] Instance compareEventIds_laws : CompareLaws compareEventIds.
Proof.
  exact (cmp_pull_laws key _ (cmp_pair_laws Z.ltb _ (cmp_pair_laws str_ltb _
  (cmp_pair_laws str_ltb _ (cmp_base_laws Z.ltb))))).
Qed.

Lemma compareEventIds_refl e : compareEventIds e e = 0.
Proof. by apply cmp_eq. Qed.
End EventId.

Module VersionVector.
Import Dot.

(** [#entries] and the receiver's [Object.isFrozen] flag. *)
(* @src domain/crdt/VersionVector.ts VersionVector 69-80 *)
Record VersionVector := mk { entries : gmap string Z; frozen : bool }.

#[global] Instance VersionVector_eq_dec : EqDecision VersionVector.
Proof. solve_decision. Defined.

(* @src domain/crdt/VersionVector.ts _isValidWriterId *)
Definition isValidWriterId (writerId : string) : bool := str_nonempty writerId.

(* @src domain/crdt/VersionVector.ts _isValidCounter *)
Definition isValidCounter (counter : jsnum) : option Z := int_at_least 0 counter.

(** Returns the integer value of the counter it accepts. *)
(* @src domain/crdt/VersionVector.ts _validateEntry *)
Definition validateEntry (writerId : string) (counter : jsnum) : result Z :=
  _ ← require (isValidWriterId writerId) (CrdtError "E_CRDT_INVALID_WRITER_ID");
  match isValidCounter counter with
  | Some c => Ok c
  | None => Throw (CrdtError "E_CRDT_INVALID_COUNTER")
  end.

(* @src domain/crdt/VersionVector.ts empty *)
Definition empty : VersionVector := mk ∅ false.

(** The loop shared by both sources: validate, keep positive counters. *)
Fixpoint collect (l : list (string * jsnum)) (acc : gmap string Z)
  : result (gmap string Z) :=
  match l with
  | [] => Ok acc
  | (writerId, counter) :: l' =>
    c ← validateEntry writerId counter;
    collect l' (if 0 <? c then <[writerId := c]> acc else acc)
  end.

(* @src domain/crdt/VersionVector.ts _fromMap *)
Definition fromMap (source : list (string * jsnum)) : result VersionVector :=
  es ← collect source ∅; Ok (mk es false).

(* @src domain/crdt/VersionVector.ts _fromPlainObject *)
Definition fromPlainObject (source : list (string * jsnum)) : result VersionVector :=
  es ← collect source ∅; Ok (mk es false).

(* @src domain/crdt/VersionVector.ts clone *)
Definition clone (vv : VersionVector) : VersionVector := mk (entries vv) false.

(** A [VersionVector], a [Map] or a plain object; the two latter as their
    entries in iteration order, with distinct keys. *)
Inductive source : Type :=
  | SVector (vv : VersionVector)
  | SMap (l : list (string * jsnum))
  | SObject (l : list (string * jsnum)).

(* @src domain/crdt/VersionVector.ts from *)
Definition from (s : source) : result VersionVector :=
  match s with
  | SVector vv => Ok (clone vv)
  | SMap l => fromMap l
  | SObject l => fromPlainObject l
  end.

(* @src domain/crdt/VersionVector.ts get 161-163 *)
Definition get (vv : VersionVector) (writerId : string) : option Z :=
  entries vv !! writerId.

(* @src domain/crdt/VersionVector.ts has *)
Definition has (vv : VersionVector) (writerId : string) : bool :=
  bool_decide (is_Some (entries vv !! writerId)).

(* @src domain/crdt/VersionVector.ts size 187-189 *)
Definition size (vv : VersionVector) : nat := base.size (entries vv).

(* @src domain/crdt/VersionVector.ts keys *)
Definition keys (vv : VersionVector) : list string := (map_to_list (entries vv)).*1.

(** The assignments [obj[key] = val] in the order they are made. *)
(* @src domain/crdt/VersionVector.ts serialize *)
Definition serialize (vv : VersionVector) : result (list (string * Z)) :=
  map_result (λ key,
  match get vv key with
  | Some val =>
      if val =? 0 then Throw (CrdtError "E_CRDT_ZERO_COUNTER") else Ok (key, val)
  | None => Throw (CrdtError "E_CRDT_ZERO_COUNTER")
  end) (js_sort compareStrings (keys vv)).

Definition frozen_error : error := CrdtError "E_CRDT_FROZEN_MUTATION".

(* @src domain/crdt/VersionVector.ts set 168-179 *)
Definition set (writerId : string) (counter : jsnum) : step VersionVector unit := λ vv,
  if frozen vv then (vv, Throw frozen_error)
  else match validateEntry writerId counter with
     | Throw e => (vv, Throw e)
     | Ok c =>
         (mk (if c =? 0 then delete writerId (entries vv)
              else <[writerId := c]> (entries vv)) false, Ok ())
     end.

(* @src domain/crdt/VersionVector.ts increment *)
Definition increment (writerId : string) : step VersionVector Dot := λ vv,
  if frozen vv then (vv, Throw frozen_error)
  else match Dot.new writerId (js_add (default 0 (entries vv !! writerId)) 1) with
     | Throw e => (vv, Throw e)
     | Ok dot => (mk (<[Dot.writerId dot := Dot.counter dot]> (entries vv)) false, Ok dot)
     end.

Definition max_into (existing : option Z) (counter : Z) : Z :=
  Z.max (default 0 existing) counter.

(* @src domain/crdt/VersionVector.ts merge *)
Definition merge (vv other : VersionVector) : VersionVector :=
  mk (map_upsert max_into (entries vv) (entries other)) false.

(* @src domain/crdt/VersionVector.ts descends *)
Definition descends (vv other : VersionVector) : bool :=
  forallb (λ '(writerId, counter),
  negb (default 0 (entries vv !! writerId) <? counter)) (map_to_list (entries other)).

(* @src domain/crdt/VersionVector.ts contains *)
Definition contains (vv : VersionVector) (dot : Dot) : bool :=
  Dot.counter dot <=? default 0 (entries vv !! Dot.writerId dot).

(* @src domain/crdt/VersionVector.ts equals *)
Definition equals (vv other : VersionVector) : bool :=
  if negb (bool_decide (size vv = size other)) then false
  else forallb (λ '(writerId, counter),
       bool_decide (get other writerId = Some counter)) (map_to_list (entries vv)).

(** The class invariant: counters are positive, writer ids are not empty. *)
Definition wf (vv : VersionVector) : Prop :=
  map_Forall (λ w c, str_nonempty w = true ∧ 0 < c) (entries vv).

(** The counter of a writer, 0 when absent. *)
Definition at_ (vv : VersionVector) (w : string) : Z := default 0 (entries vv !! w).

Lemma wf_at_nonneg vv w : wf vv → 0 <= at_ vv w.
Proof.
  intros Hwf. unfold at_. destruct (entries vv !! w) eqn:E; simpl; [|lia].
  apply Hwf in E. lia.
Qed.

Lemma wf_lookup_at vv w :
  wf vv → entries vv !! w = if 0 <? at_ vv w then Some (at_ vv w) else None.
Proof.
  intros Hwf. unfold at_. destruct (entries vv !! w) as [c|] eqn:E; simpl; [|done].
  apply Hwf in E as [_ E]. by rewrite (proj2 (Z.ltb_lt 0 c)).
Qed.

Lemma wf_ext vv other :
  wf vv → wf other → (∀ w, at_ vv w = at_ other w) → entries vv = entries other.
Proof.
  intros H1 H2 Ha. apply map_eq; intros w. rewrite !wf_lookup_at by done. by rewrite Ha.
Qed.

Lemma max_into_join vv : wf vv → ∀ k c, entries vv !! k = Some c → max_into None c = c.
Proof. intros Hwf k c E%Hwf. unfold max_into; simpl. lia. Qed.

Lemma lookup_merge vv other w :
  entries (merge vv other) !! w
  = match entries other !! w with
  | None => entries vv !! w
  | Some c => Some (Z.max (at_ vv w) c)
  end.
Proof.
  unfold merge; simpl. rewrite lookup_map_upsert. by destruct (entries other !! w).
Qed.

Lemma at_merge vv other w : wf vv → wf other → at_ (merge vv other) w = Z.max (at_ vv w) (at_ other w).
Proof.
  intros H1 H2. pose proof (wf_at_nonneg vv w H1). unfold at_ at 1 3.
  rewrite lookup_merge. destruct (entries other !! w) as [c|]; simpl; [done|].
  unfold at_ in *. lia.
Qed.

Lemma vv_merge_wf vv other : wf vv → wf other → wf (merge vv other).
Proof.
  intros H1 H2 w c. rewrite lookup_merge. destruct (entries other !! w) as [c'|] eqn:E.
  - intros [= <-]. apply H2 in E as [? ?]. split; [done|]. lia.
  - apply H1.
Qed.

Lemma vv_merge_eq vv1 vv2 vv1' vv2' :
  wf vv1 → wf vv2 → wf vv1' → wf vv2' →
  (∀ w, Z.max (at_ vv1 w) (at_ vv2 w) = Z.max (at_ vv1' w) (at_ vv2' w)) →
  merge vv1 vv2 = merge vv1' vv2'.
Proof.
  intros H1 H2 H3 H4 Hm.
  assert (entries (merge vv1 vv2) = entries (merge vv1' vv2')) as E.
  { apply wf_ext; [by apply vv_merge_wf..|]. intros w. rewrite !at_merge by done. apply Hm. }
  unfold merge in *. simpl in E. by rewrite E.
Qed.

Lemma vv_merge_comm vv other : wf vv → wf other → merge vv other = merge other vv.
Proof. intros. apply vv_merge_eq; [done..|]. intros; lia. Qed.

Lemma vv_merge_assoc a b c :
  wf a → wf b → wf c → merge (merge a b) c = merge a (merge b c).
Proof.
  intros. apply vv_merge_eq; try apply vv_merge_wf; try done.
  intros w. rewrite !at_merge by done. lia.
Qed.

Lemma vv_merge_idemp a : wf a → merge a a = clone a.
Proof.
  intros Ha. assert (entries (merge a a) = entries (clone a)) as E.
  { apply wf_ext; [by apply vv_merge_wf|done|]. intros w. rewrite at_merge by done.
  unfold at_; simpl. lia. }
  unfold merge, clone in *. simpl in *. by rewrite E.
Qed.

Lemma vv_merge_empty_l a : wf a → merge empty a = clone a.
Proof.
  intros Ha. unfold merge, clone, empty; simpl. f_equal. apply map_eq; intros w.
  rewrite lookup_map_upsert, lookup_empty. destruct (entries a !! w) as [c|] eqn:E; [|done].
  f_equal. by apply (max_into_join a Ha w).
Qed.

Definition entry_ok (w : string) (c : Z) : Prop := str_nonempty w = true ∧ 0 < c.

Lemma validateEntry_ok w c z :
  validateEntry w c = Ok z ↔ str_nonempty w = true ∧ c = JInt z ∧ 0 <= z.
Proof.
  unfold validateEntry, isValidWriterId, isValidCounter.
  destruct (str_nonempty w); simpl; [|naive_solver].
  destruct (int_at_least 0 c) as [z'|] eqn:E.
  - apply int_at_least_Some in E as [-> ?]. naive_solver.
  - split; [done|]. intros (_ & H1). apply int_at_least_Some in H1. congruence.
Qed.

Lemma collect_ok l acc m :
  collect l acc = Ok m → map_Forall entry_ok acc → map_Forall entry_ok m.
Proof.
  revert acc. induction l as [|[w c] l IH]; intros acc; simpl; [by intros [= <-]|].
  intros H Hacc. invert_ok. apply validateEntry_ok in Ha as (Hw & _ & _).
  apply (IH _ H). destruct (Z.ltb_spec 0 a); [|done]. by apply map_Forall_insert_2.
Qed.

Lemma from_wf src vv :
  match src with SVector v => wf v | _ => True end →
  from src = Ok vv → wf vv ∧ frozen vv = false.
Proof.
  destruct src as [v|l|l]; simpl; intros Hv H.
  - by injection H as <-.
  - unfold fromMap in H. invert_ok. subst vv. split; [|done].
  apply (collect_ok _ _ _ Ha), map_Forall_empty.
  - unfold fromPlainObject in H. invert_ok. subst vv. split; [|done].
  apply (collect_ok _ _ _ Ha), map_Forall_empty.
Qed.

(** Raising one counter is a merge with a singleton. *)
Lemma merge_single vv w l :
  wf vv → str_nonempty w = true → 0 <= l → frozen vv = false →
  merge vv (mk (if 0 <? l then {[w := l]} else ∅) false)
  = if at_ vv w <? l then (set w (JInt l) vv).1 else vv.
Proof.
  intros Hwf Hw Hl Hf. pose proof (wf_at_nonneg vv w Hwf) as Hnn.
  unfold merge, set. rewrite Hf. simpl. destruct vv as [m fr]; simpl in *. subst fr.
  unfold at_ in *. simpl in *. destruct (Z.ltb_spec 0 l) as [Hpos|Hz].
  - rewrite map_upsert_singleton. unfold max_into.
  rewrite (proj2 (validateEntry_ok w (JInt l) l)) by done.
  destruct (Z.ltb_spec (default 0 (m !! w)) l) as [Hlt|Hge]; simpl.
  + rewrite (proj2 (Z.eqb_neq l 0)) by lia. rewrite Z.max_r by lia. done.
  + rewrite Z.max_l by lia. f_equal. apply insert_id.
    destruct (m !! w); simpl in *; [done|lia].
  - rewrite map_upsert_empty_r. by rewrite (proj2 (Z.ltb_ge _ _)) by lia.
Qed.

Lemma descends_spec vv other :
  wf vv → wf other → descends vv other = true ↔ ∀ w, at_ other w <= at_ vv w.
Proof.
  intros H1 H2. unfold descends. rewrite forallb_forall. split.
  - intros Hf w. pose proof (wf_at_nonneg vv w H1). unfold at_ at 1.
  destruct (entries other !! w) as [c|] eqn:E; simpl; [|done].
  apply elem_of_map_to_list, list_elem_of_In, Hf in E.
  apply negb_true_iff, Z.ltb_ge in E. done.
  - intros Ha [w c] Hin%list_elem_of_In%elem_of_map_to_list.
  apply negb_true_iff, Z.ltb_ge. specialize (Ha w). unfold at_ in Ha.
  rewrite Hin in Ha. done.
Qed.

Lemma vv_equals_spec vv other : equals vv other = true ↔ entries vv = entries other.
Proof.
  unfold equals, size, get. case_bool_decide as Hs; simpl.
  - rewrite forallb_forall. split.
  + intros Hf. assert (entries vv ⊆ entries other) as Hsub.
    { apply map_subseteq_spec. intros w c E.
      apply elem_of_map_to_list, list_elem_of_In, Hf in E. by apply bool_decide_eq_true in E. }
    destruct (decide (entries vv = entries other)) as [|Hne]; [done|].
    assert (entries vv ⊂ entries other) as Hss%map_subset_size; [|lia].
    split; [done|]. intros Hsub'. apply Hne. by apply (anti_symm (⊆)).
  + intros E [w c] Hin%list_elem_of_In%elem_of_map_to_list.
    apply bool_decide_eq_true. by rewrite <- E.
  - split; [done|]. intros E. by rewrite E in Hs.
Qed.

Lemma contains_spec vv d : contains vv d = true ↔ Dot.counter d <= at_ vv (Dot.writerId d).
Proof. apply Z.leb_le. Qed.
End VersionVector.

(** ** Properties *)

(** Decoding an encoded dot gives the dot back, for every writer id (colons
    included) and every counter up to 2^53; so encodings are unique. *)
Theorem dot_decode_encode (d e : Dot.Dot) :
  Dot.wf d → Dot.wf e →
  Dot.decode (Dot.encode d) = Ok d ∧ (Dot.encode d = Dot.encode e ↔ d = e).
Proof.
  intros Hd He. split; [by apply Dot.decode_encode|].
  split; [by apply Dot.encode_inj|by intros ->].
Qed.

Lemma dot_decode_encode_witness :
  Dot.decode "a:b:7" = Ok (Dot.mk "a:b" 7) ∧
  Dot.decode (Dot.encode (Dot.mk "a:b" 7)) = Ok (Dot.mk "a:b" 7).
Proof.
  split; [vm_compute; reflexivity|].
  apply (dot_decode_encode (Dot.mk "a:b" 7) (Dot.mk "w" 1)); split; vm_compute; split; discriminate || reflexivity.
Defined.

(** On valid version vectors [merge] is commutative, associative and
    idempotent, keeps the vector valid, and is the least upper bound of its
    arguments for [descends]. *)
Theorem version_vector_merge_lub (a b c : VersionVector.VersionVector) :
  VersionVector.wf a → VersionVector.wf b → VersionVector.wf c →
  VersionVector.merge a b = VersionVector.merge b a ∧
  VersionVector.merge (VersionVector.merge a b) c
    = VersionVector.merge a (VersionVector.merge b c) ∧
  VersionVector.merge a a = VersionVector.clone a ∧
  VersionVector.wf (VersionVector.merge a b) ∧
  (VersionVector.descends c (VersionVector.merge a b)
    = VersionVector.descends c a && VersionVector.descends c b).
Proof.
  intros Ha Hb Hc. pose proof (VersionVector.vv_merge_wf a b Ha Hb) as Hm. split_and!.
  - by apply VersionVector.vv_merge_comm.
  - by apply VersionVector.vv_merge_assoc.
  - by apply VersionVector.vv_merge_idemp.
  - done.
  - apply eq_true_iff_eq. rewrite andb_true_iff, !VersionVector.descends_spec by done.
    setoid_rewrite VersionVector.at_merge; [|done..]. split.
    + intros H. split; intros w; specialize (H w); lia.
    + intros [H1 H2] w. specialize (H1 w). specialize (H2 w). lia.
Qed.

Definition vv_of (l : list (string * Z)) : VersionVector.VersionVector :=
  VersionVector.mk (list_to_map l) false.

Lemma version_vector_merge_lub_witness :
  VersionVector.merge (vv_of [("a", 2); ("b", 1)]) (vv_of [("b", 3)])
    = vv_of [("a", 2); ("b", 3)] ∧
  VersionVector.merge (vv_of [("a", 2)]) (vv_of [("b", 3)])
    = VersionVector.merge (vv_of [("b", 3)]) (vv_of [("a", 2)]).
Proof.
  split; [vm_compute; reflexivity|].
  apply (version_vector_merge_lub _ _ (vv_of [])).
  - by apply (bool_decide_unpack _); vm_compute.
  - by apply (bool_decide_unpack _); vm_compute.
  - by apply (bool_decide_unpack _); vm_compute.
Defined.

(** C24. [increment] issues the next dot of the writer: below 2^53 the dot is one
    the vector had not observed and observes afterwards, nothing else
    changes, and the vector stays valid. At 2^53 the sum is not
    representable and the dot of the last increment is issued again. *)
Theorem version_vector_increment_fresh (vv : VersionVector.VersionVector) (w : string) :
  VersionVector.wf vv → VersionVector.frozen vv = false → str_nonempty w = true →
  (VersionVector.at_ vv w < max_exact →
   ∃ vv', VersionVector.increment w vv = (vv', Ok (Dot.mk w (VersionVector.at_ vv w + 1))) ∧
     VersionVector.contains vv (Dot.mk w (VersionVector.at_ vv w + 1)) = false ∧
     VersionVector.contains vv' (Dot.mk w (VersionVector.at_ vv w + 1)) = true ∧
     VersionVector.wf vv' ∧
     ∀ w', w' ≠ w → VersionVector.get vv' w' = VersionVector.get vv w') ∧
  (VersionVector.at_ vv w = max_exact →
   VersionVector.increment w vv = (vv, Ok (Dot.mk w max_exact))).
Proof.
  intros Hwf Hfr Hw. pose proof (VersionVector.wf_at_nonneg vv w Hwf) as Hnn.
  unfold VersionVector.increment. rewrite Hfr. fold (VersionVector.at_ vv w). split.
  - intros Hlt. rewrite js_add_exact by lia.
    rewrite (proj2 (Dot.dot_new_ok w _ (Dot.mk w (VersionVector.at_ vv w + 1)))) by (simpl; split_and!; done || lia).
    eexists. split; [reflexivity|]. unfold VersionVector.contains, VersionVector.get; simpl. split_and!.
    + fold (VersionVector.at_ vv w). apply Z.leb_gt. lia.
    + rewrite lookup_insert_eq. simpl. apply Z.leb_le. lia.
    + intros w' c'. simpl. destruct (decide (w = w')) as [->|Hne].
      * rewrite lookup_insert_eq. intros [= <-]. split; [done|]. lia.
      * rewrite lookup_insert_ne by done. apply Hwf.
    + intros w' Hne. by rewrite lookup_insert_ne.
  - intros Hmax. rewrite Hmax. rewrite js_add_saturates. unfold Dot.new. rewrite Hw. simpl.
    f_equal. destruct vv as [m f]; simpl in *. subst f. f_equal. apply insert_id.
    unfold VersionVector.at_ in Hmax. simpl in Hmax.
    destruct (m !! w) as [c|]; simpl in Hmax; [by subst|]. by vm_compute in Hmax.
Qed.

Lemma version_vector_increment_fresh_witness :
  (VersionVector.increment "a" (vv_of [("a", 4)])).2 = Ok (Dot.mk "a" 5) ∧
  VersionVector.increment "a" (vv_of [("a", max_exact)])
    = (vv_of [("a", max_exact)], Ok (Dot.mk "a" max_exact)).
Proof.
  split; [vm_compute; reflexivity|].
  apply (version_vector_increment_fresh (vv_of [("a", max_exact)]) "a").
  - by apply (bool_decide_unpack _); vm_compute.
  - reflexivity.
  - reflexivity.
  - reflexivity.
Defined.
