(* ===== verification/Crdt.v ===== *)
(** The conflict-free data types of the state: the last-writer-wins
    register ([crdt/LWW.ts]) and the observed-remove set
    ([crdt/ORSet.ts]). *)
From S2P Require Export Causal.

Module LWW.
Import EventId.

(* @src domain/crdt/LWW.ts LWWRegister 74-85 *)
Record LWWRegister (V : Type) := mk { eventId : EventId; value : V }.
Arguments mk {V}.
Arguments eventId {V}.
Arguments value {V}.

#[global] Instance LWWRegister_eq_dec {V} `{EqDecision V} : EqDecision (LWWRegister V).
Proof. solve_decision. Defined.

Section lww.
Context {V : Type}.

(* @src domain/crdt/LWW.ts set 90-92 *)
Definition set (eventId : EventId) (value : V) : LWWRegister V := mk eventId value.

(** [null] and [undefined] are both [None]: [_lwwCoalesce] merges them. *)
(* @src domain/crdt/LWW.ts max 106-121 *)
Definition max (a b : option (LWWRegister V)) : option (LWWRegister V) :=
  match a, b with
  | None, _ => b
  | _, None => a
  | Some ra, Some rb =>
  Some (if 0 <=? compareEventIds (eventId ra) (eventId rb) then ra else rb)
  end.

(* @src domain/crdt/LWW.ts value 126-128 *)
Definition value_of (reg : option (LWWRegister V)) : option V := value <$> reg.

(** [max] on two registers. *)
Definition join (a b : LWWRegister V) : LWWRegister V :=
  if 0 <=? compareEventIds (eventId a) (eventId b) then a else b.

Lemma lww_max_join a b : max (Some a) (Some b) = Some (join a b).
Proof. done. Qed.

(** Two registers with one event id hold one value: an event id names a
    single operation of a single patch. *)
Definition agree (a b : LWWRegister V) : Prop :=
  eventId a = eventId b → value a = value b.

Lemma lww_join_idemp a : join a a = a.
Proof. unfold join. by destruct (_ <=? _). Qed.

Lemma lww_join_comm a b : agree a b → join a b = join b a.
Proof.
  intros Hag. unfold join.
  rewrite (cmp_opp (eventId a) (eventId b)).
  destruct (Z.leb_spec 0 (compareEventIds (eventId a) (eventId b))),
  (Z.leb_spec 0 (- compareEventIds (eventId a) (eventId b))); try lia; try done.
  assert (compareEventIds (eventId a) (eventId b) = 0) as E%cmp_eq by lia.
  destruct a, b; unfold agree in Hag; simpl in *; subst. by rewrite Hag.
Qed.

Lemma lww_join_assoc a b c : join (join a b) c = join a (join b c).
Proof.
  unfold join.
  set (ab := compareEventIds (eventId a) (eventId b)).
  set (bc := compareEventIds (eventId b) (eventId c)).
  set (ac := compareEventIds (eventId a) (eventId c)).
  assert (0 <= ab → 0 <= bc → 0 <= ac).
  { intros H1 H2. subst ab bc ac.
  pose proof (cmp_opp (eventId a) (eventId b)). pose proof (cmp_opp (eventId b) (eventId c)).
  pose proof (cmp_opp (eventId a) (eventId c)).
  destruct (decide (compareEventIds (eventId a) (eventId b) = 0)) as [E%cmp_eq|]; [by rewrite E|].
  destruct (decide (compareEventIds (eventId b) (eventId c) = 0)) as [E%cmp_eq|];
  [by rewrite <- E|].
  pose proof (cmp_trans (eventId c) (eventId b) (eventId a)). lia. }
  assert (ab < 0 → bc < 0 → ac < 0) by apply cmp_trans.
  destruct (Z.leb_spec 0 ab), (Z.leb_spec 0 bc); fold ac; fold ab; fold bc;
  repeat match goal with
  | |- context [0 <=? ?x] => destruct (Z.leb_spec 0 x)
  end; try done; lia.
Qed.
End lww.
End LWW.

Module ORSet.
Import Dot.

(* @src domain/crdt/ORSet.ts ORSet 66-79 *)
Record ORSet := mk { entries : gmap string (gset string); tombstones : gset string }.

#[global] Instance ORSet_eq_dec : EqDecision ORSet.
Proof. solve_decision. Defined.

(* @src domain/crdt/ORSet.ts empty *)
Definition empty : ORSet := mk ∅ ∅.

(** [_assertValidDot] holds of every [Dot] by its constructor. *)
(* @src domain/crdt/ORSet.ts add *)
Definition add (element : string) (dot : Dot) (s : ORSet) : ORSet :=
  let encoded := Dot.encode dot in
  let dots := default ∅ (entries s !! element) in
  mk (<[element := {[encoded]} ∪ dots]> (entries s)) (tombstones s).

(* @src domain/crdt/ORSet.ts remove *)
Definition remove (observedDots : gset string) (s : ORSet) : ORSet :=
  mk (entries s) (tombstones s ∪ observedDots).

(* @src domain/crdt/ORSet.ts isTombstoned *)
Definition isTombstoned (s : ORSet) (encodedDot : string) : bool :=
  bool_decide (encodedDot ∈ tombstones s).

(* @src domain/crdt/ORSet.ts contains *)
Definition contains (s : ORSet) (element : string) : bool :=
  match entries s !! element with
  | None => false
  | Some dots => existsb (λ d, negb (isTombstoned s d)) (base.elements dots)
  end.

(* @src domain/crdt/ORSet.ts elements *)
Definition elements (s : ORSet) : list string :=
  filter (λ e, contains s e) (map_to_list (entries s)).*1.

(* @src domain/crdt/ORSet.ts getDots *)
Definition getDots (s : ORSet) (element : string) : gset string :=
  match entries s !! element with
  | None => ∅
  | Some dots => filter (λ d, ¬ isTombstoned s d) dots
  end.

(* @src domain/crdt/ORSet.ts hasDot *)
Definition hasDot (s : ORSet) (element encodedDot : string) : bool :=
  match entries s !! element with
  | None => false
  | Some dots => bool_decide (encodedDot ∈ dots)
  end.

Definition sum_over (f : gset string → nat) (s : ORSet) : nat :=
  foldl (λ count '(_, dots), (count + f dots)%nat) 0%nat (map_to_list (entries s)).

(* @src domain/crdt/ORSet.ts countEntries *)
Definition countEntries (s : ORSet) : nat := sum_over size s.

(* @src domain/crdt/ORSet.ts countLiveDots *)
Definition countLiveDots (s : ORSet) : nat :=
  sum_over (λ dots, size (filter (λ d, ¬ isTombstoned s d) dots)) s.

(* @src domain/crdt/ORSet.ts countTombstones *)
Definition countTombstones (s : ORSet) : nat :=
  sum_over (λ dots, size (filter (λ d, isTombstoned s d) dots)) s.

(* @src domain/crdt/ORSet.ts _copyEntries *)
Definition copyEntries (source target : gmap string (gset string)) :
  gmap string (gset string) :=
  map_upsert (λ _ dots, dots) target source.

(* @src domain/crdt/ORSet.ts _mergeEntries *)
Definition mergeEntries (source target : gmap string (gset string)) :
  gmap string (gset string) :=
  map_upsert (λ existing dots,
  match existing with Some ds => ds ∪ dots | None => dots end) target source.

(* @src domain/crdt/ORSet.ts _unionSets *)
Definition unionSets (source target : gset string) : gset string := target ∪ source.

(* @src domain/crdt/ORSet.ts join *)
Definition join (s other : ORSet) : ORSet :=
  mk (mergeEntries (entries other) (copyEntries (entries s) ∅))
   (unionSets (tombstones other) (unionSets (tombstones s) ∅)).

Definition compactable (s : ORSet) (includedVV : VersionVector.VersionVector)
  (encodedDot : string) : result bool :=
  dot ← Dot.decode encodedDot;
  Ok (isTombstoned s encodedDot && VersionVector.contains includedVV dot).

(** The dots of [entries] in iteration order, with their element. *)
Definition tagged_dots (s : ORSet) : list (string * string) :=
  '(element, dots) ← map_to_list (entries s); (λ d, (element, d)) <$> base.elements dots.

(** Every dot is decoded; one that does not decode makes the call throw. *)
Fixpoint collect_dots (s : ORSet) (includedVV : VersionVector.VersionVector)
  (l : list (string * string)) : result (list (string * string)) :=
  match l with
  | [] => Ok []
  | (element, dot) :: l' =>
    b ← compactable s includedVV dot;
    rest ← collect_dots s includedVV l';
    Ok (if b : bool then (element, dot) :: rest else rest)
  end.

(* @src domain/crdt/ORSet.ts _collectCompactableDots *)
Definition collectCompactableDots (s : ORSet) (includedVV : VersionVector.VersionVector)
  : result (list (string * string)) :=
  collect_dots s includedVV (tagged_dots s).

Definition delete_dot (s : ORSet) (td : string * string) : ORSet :=
  let '(element, encodedDot) := td in
  mk (match entries s !! element with
    | None => entries s
    | Some dots =>
        let dots' := dots ∖ {[encodedDot]} in
        if decide (dots' = ∅) then delete element (entries s)
        else <[element := dots']> (entries s)
    end) (tombstones s ∖ {[encodedDot]}).

(* @src domain/crdt/ORSet.ts _applyCompaction *)
Definition applyCompaction (s : ORSet) (toDelete : list (string * string)) : ORSet :=
  foldl delete_dot s toDelete.

(* @src domain/crdt/ORSet.ts compact *)
Definition compact (includedVV : VersionVector.VersionVector) : step ORSet unit := λ s,
  match collectCompactableDots s includedVV with
  | Throw e => (s, Throw e)
  | Ok toDelete => (applyCompaction s toDelete, Ok ())
  end.

(* @src domain/crdt/ORSet.ts clone *)
Definition clone (s : ORSet) : ORSet :=
  mk (copyEntries (entries s) ∅) (unionSets (tombstones s) ∅).

(* @src domain/crdt/ORSet.ts scopedClone *)
Definition scopedClone (includeElement : string → bool) (s : ORSet) : ORSet :=
  mk (filter (λ '(element, _), includeElement element) (entries s))
   (unionSets (tombstones s) ∅).

(** *** Membership *)

Definition dots_of (s : ORSet) (e : string) : gset string := default ∅ (entries s !! e).

(** The set the structure denotes: the elements with a live dot. *)
Definition live (s : ORSet) (e : string) : Prop :=
  ∃ d, d ∈ dots_of s e ∧ d ∉ tombstones s.

Lemma contains_live s e : contains s e = true ↔ live s e.
Proof.
  unfold contains, live, dots_of. destruct (entries s !! e) as [dots|]; simpl; [|set_solver].
  rewrite existsb_exists. split.
  - intros (d & Hd%list_elem_of_In%elem_of_elements & Ht%negb_true_iff%bool_decide_eq_false).
  eauto.
  - intros (d & Hd & Ht). exists d. split; [by apply list_elem_of_In, elem_of_elements|].
  by apply negb_true_iff, bool_decide_eq_false.
Qed.

Lemma contains_ext s t e :
  (live s e ↔ live t e) → contains s e = contains t e.
Proof.
  intros H. apply eq_true_iff_eq. by rewrite !contains_live.
Qed.

Lemma elem_of_elements s e : e ∈ elements s ↔ contains s e = true.
Proof.
  unfold elements. rewrite list_elem_of_filter, Is_true_true. split; [naive_solver|].
  intros Hc. split; [done|]. unfold contains in Hc.
  destruct (entries s !! e) as [dots|] eqn:E; [|done].
  apply list_elem_of_fmap. exists (e, dots). split; [done|]. by apply elem_of_map_to_list.
Qed.

Lemma elements_NoDup s : NoDup (elements s).
Proof. apply NoDup_filter, NoDup_fst_map_to_list. Qed.

Lemma elem_of_getDots s e d : d ∈ getDots s e ↔ d ∈ dots_of s e ∧ d ∉ tombstones s.
Proof.
  unfold getDots, dots_of, isTombstoned.
  destruct (entries s !! e) as [dots|]; simpl; [|set_solver].
  rewrite elem_of_filter, bool_decide_spec. tauto.
Qed.

Lemma hasDot_spec s e d : hasDot s e d = true ↔ d ∈ dots_of s e.
Proof.
  unfold hasDot, dots_of. destruct (entries s !! e); simpl; [|set_solver].
  apply bool_decide_eq_true.
Qed.

Lemma dots_of_add e dot s e' :
  dots_of (add e dot s) e' = (if decide (e = e') then {[Dot.encode dot]} else ∅) ∪ dots_of s e'.
Proof.
  unfold dots_of, add; simpl. case_decide; subst.
  - by rewrite lookup_insert_eq.
  - rewrite lookup_insert_ne by done. set_solver.
Qed.

Lemma copyEntries_empty m : copyEntries m ∅ = m.
Proof.
  apply map_eq; intros k. unfold copyEntries. rewrite lookup_map_upsert, lookup_empty.
  by destruct (m !! k).
Qed.

Lemma or_join_eq s other :
  join s other = mk (mergeEntries (entries other) (entries s)) (tombstones s ∪ tombstones other).
Proof.
  unfold join, unionSets. rewrite copyEntries_empty. f_equal. set_solver.
Qed.

Lemma merge_upsert_of : upsert_of (λ existing dots,
  match existing with Some ds => ds ∪ dots | None => dots end) (union : gset string → gset string → gset string).
Proof. done. Qed.

Lemma dots_of_join s other e : dots_of (join s other) e = dots_of s e ∪ dots_of other e.
Proof.
  rewrite or_join_eq. unfold dots_of, mergeEntries; simpl. rewrite lookup_map_upsert.
  destruct (entries other !! e), (entries s !! e); simpl; set_solver.
Qed.

Lemma tombstones_join s other : tombstones (join s other) = tombstones s ∪ tombstones other.
Proof. by rewrite or_join_eq. Qed.

Lemma or_join_comm s other : join s other = join other s.
Proof.
  rewrite !or_join_eq. f_equal; [|set_solver].
  apply (map_upsert_comm _ union); [done|]. intros. set_solver.
Qed.

Lemma or_join_assoc a b c : join (join a b) c = join a (join b c).
Proof.
  rewrite !or_join_eq; simpl. f_equal; [|set_solver].
  symmetry. unfold mergeEntries. symmetry. apply (map_upsert_assoc _ union); [done|]. set_solver.
Qed.

Lemma or_join_idemp a : join a a = a.
Proof.
  rewrite or_join_eq. destruct a as [m t]; simpl. f_equal; [|set_solver].
  apply (map_upsert_idemp _ union); [done|]. set_solver.
Qed.

Lemma or_join_empty_l a : join empty a = a.
Proof.
  rewrite or_join_eq. destruct a as [m t]; simpl. f_equal; [|set_solver].
  by apply (map_upsert_empty_l _ union).
Qed.

Lemma or_join_empty_r a : join a empty = a.
Proof. rewrite or_join_comm. apply or_join_empty_l. Qed.

Lemma or_clone_id s : clone s = s.
Proof. unfold clone, unionSets. rewrite copyEntries_empty. destruct s; simpl. f_equal. set_solver. Qed.

(** Both mutations are joins with a small delta. *)
Definition add_delta (e : string) (dot : Dot) : ORSet := mk {[e := {[Dot.encode dot]}]} ∅.
Definition remove_delta (dots : gset string) : ORSet := mk ∅ dots.

Lemma add_join e dot s : add e dot s = join s (add_delta e dot).
Proof.
  rewrite or_join_eq. unfold add; simpl. f_equal; [|set_solver].
  unfold mergeEntries. rewrite map_upsert_singleton.
  f_equal. destruct (entries s !! e); simpl; set_solver.
Qed.

Lemma remove_join dots s : remove dots s = join s (remove_delta dots).
Proof.
  rewrite or_join_eq. unfold remove, mergeEntries; simpl. by rewrite map_upsert_empty_r.
Qed.

(** *** Compaction *)

Lemma elem_of_tagged_dots s e d : (e, d) ∈ tagged_dots s ↔ d ∈ dots_of s e.
Proof.
  unfold tagged_dots, dots_of. rewrite list_elem_of_bind. split.
  - intros ([e' dots] & Hd & Hin). simpl in Hd.
  apply list_elem_of_fmap in Hd as (d' & [= <- <-] & Hd%base.elem_of_elements).
  apply elem_of_map_to_list in Hin. by rewrite Hin.
  - destruct (entries s !! e) as [dots|] eqn:E; simpl; [|set_solver].
  intros Hd. exists (e, dots). split; [|by apply elem_of_map_to_list].
  simpl. apply list_elem_of_fmap. exists d. split; [done|]. by apply base.elem_of_elements.
Qed.

Lemma collect_dots_ok s vv l del :
  collect_dots s vv l = Ok del →
  ∀ e d, (e, d) ∈ del ↔ (e, d) ∈ l ∧ compactable s vv d = Ok true.
Proof.
  revert del. induction l as [|[e0 d0] l IH]; simpl; intros del Hc e d.
  - injection Hc as <-. set_solver.
  - apply bind_ok in Hc as (b & Hb & Hc). apply bind_ok in Hc as (rest & Hr & [= <-]).
  specialize (IH _ Hr e d).
  assert (compactable s vv d0 = Ok b) as Hb' by done. clear Hb Hr.
  destruct b; rewrite !elem_of_cons, IH; clear IH.
  + split; [intros [[= -> ->]|[]]; tauto|tauto].
  + split; [tauto|]. intros [[[= -> ->]|] ?]; [congruence|tauto].
Qed.

Lemma dots_of_delete s e0 d0 e :
  dots_of (delete_dot s (e0, d0)) e = if decide (e0 = e) then dots_of s e ∖ {[d0]} else dots_of s e.
Proof.
  unfold dots_of, delete_dot; simpl. destruct (entries s !! e0) as [dots|] eqn:E0.
  - case_decide as Hemp; case_decide; subst; simpl.
  + rewrite lookup_delete_eq, E0; simpl. set_solver.
  + by rewrite lookup_delete_ne.
  + by rewrite lookup_insert_eq, E0.
  + by rewrite lookup_insert_ne.
  - case_decide; subst; simpl; [|done]. rewrite E0; simpl. set_solver.
Qed.

Lemma applyCompaction_spec del s :
  (∀ e d, d ∈ dots_of (applyCompaction s del) e ↔ d ∈ dots_of s e ∧ (e, d) ∉ del) ∧
  (∀ d, d ∈ tombstones (applyCompaction s del) ↔ d ∈ tombstones s ∧ ∀ e, (e, d) ∉ del).
Proof.
  unfold applyCompaction. revert s.
  induction del as [|[e0 d0] del IH]; intros s; simpl; [set_solver|].
  destruct (IH (delete_dot s (e0, d0))) as [IH1 IH2]. split.
  - intros e d. rewrite IH1, dots_of_delete, not_elem_of_cons.
  case_decide; subst; set_solver.
  - intros d. rewrite IH2. unfold delete_dot at 1; simpl.
  rewrite elem_of_difference, elem_of_singleton. setoid_rewrite not_elem_of_cons.
  split; [intros [[? ?] Hn]; split; [done|]; split; [congruence|done]|].
  intros [? Hn]. destruct (Hn e0). split_and!; [done|congruence|apply Hn].
Qed.

(** [compact] either throws and changes nothing, or removes exactly the
    tombstoned, covered dots from the entries and their tombstones. *)
Lemma compact_spec vv s s' r :
  compact vv s = (s', r) →
  (∃ e, r = Throw e ∧ s' = s) ∨
  (r = Ok () ∧
  (∀ e d, d ∈ dots_of s' e ↔ d ∈ dots_of s e ∧ compactable s vv d ≠ Ok true) ∧
  (∀ d, d ∈ tombstones s' ↔ d ∈ tombstones s ∧
    ((∀ e, d ∉ dots_of s e) ∨ compactable s vv d ≠ Ok true))).
Proof.
  unfold compact, collectCompactableDots.
  destruct (collect_dots s vv (tagged_dots s)) as [del|err] eqn:E; intros [= <- <-]; [right|by eauto].
  pose proof (collect_dots_ok _ _ _ _ E) as Hdel.
  destruct (applyCompaction_spec del s) as [H1 H2]. split; [done|]. split.
  - intros e d. rewrite H1, Hdel, elem_of_tagged_dots.
  destruct (decide (compactable s vv d = Ok true)); tauto.
  - intros d. rewrite H2. setoid_rewrite Hdel. setoid_rewrite elem_of_tagged_dots.
  split; intros [Ht Hn]; (split; [done|]).
  + destruct (decide (compactable s vv d = Ok true)) as [Hc|Hc]; [left|by right].
    intros e Hd. by destruct (Hn e).
  + intros e [??]. destruct Hn as [Hn|Hn]; [by apply (Hn e)|done].
Qed.

Lemma compactable_tombstoned s vv d : compactable s vv d = Ok true → d ∈ tombstones s.
Proof.
  unfold compactable. rewrite bind_ok. intros (dot & _ & [= H]).
  apply andb_true_iff in H as [H _]. by apply bool_decide_eq_true in H.
Qed.
End ORSet.

(** ** Properties *)

(** Registers under [LWWRegister.max] form a join-semilattice: the maximum
    is idempotent and associative, it is commutative whenever registers with
    equal event ids hold equal values, and it never returns a register older
    than one of its arguments. The order on event ids behind it is total. *)
Theorem lww_max_semilattice {V} (a b c : option (LWW.LWWRegister V)) :
  (∀ x y, a = Some x → b = Some y → LWW.agree x y) →
  LWW.max a a = a ∧
  LWW.max a b = LWW.max b a ∧
  LWW.max (LWW.max a b) c = LWW.max a (LWW.max b c) ∧
  (∀ x y m, a = Some x → b = Some y → LWW.max a b = Some m →
     0 <= EventId.compareEventIds (LWW.eventId m) (LWW.eventId x) ∧
     0 <= EventId.compareEventIds (LWW.eventId m) (LWW.eventId y)).
Proof.
  intros Hag. split_and!.
  - destruct a as [x|]; [|done]. by rewrite LWW.lww_max_join, LWW.lww_join_idemp.
  - destruct a as [x|], b as [y|]; try done. rewrite !LWW.lww_max_join, LWW.lww_join_comm; auto.
  - destruct a as [x|], b as [y|], c as [z|]; try done.
    rewrite !LWW.lww_max_join. by rewrite LWW.lww_join_assoc.
  - intros x y m -> ->. rewrite LWW.lww_max_join. unfold LWW.join. intros [= <-].
    pose proof (cmp_opp (cmp:=EventId.compareEventIds) (LWW.eventId x) (LWW.eventId y)).
    destruct (Z.leb_spec 0 (EventId.compareEventIds (LWW.eventId x) (LWW.eventId y)));
      rewrite EventId.compareEventIds_refl; lia.
Qed.

Definition sample_event (lamport : Z) (writer : string) : EventId.EventId :=
  EventId.mk lamport writer "abcd" 0.

Lemma lww_max_semilattice_witness :
  LWW.max (Some (LWW.mk (sample_event 2 "a") 10)) (Some (LWW.mk (sample_event 2 "b") 20))
    = Some (LWW.mk (sample_event 2 "b") 20) ∧
  LWW.max (Some (LWW.mk (sample_event 2 "a") 10)) (Some (LWW.mk (sample_event 2 "b") 20))
    = LWW.max (Some (LWW.mk (sample_event 2 "b") 20)) (Some (LWW.mk (sample_event 2 "a") 10)).
Proof.
  split; [vm_compute; reflexivity|].
  apply (lww_max_semilattice _ _ (Some (LWW.mk (sample_event 1 "c") 0))).
  intros x y [= <-] [= <-]. unfold LWW.agree. simpl. intros H. discriminate H.
Defined.

(** [join] is commutative, associative and idempotent, leaves its arguments'
    membership joined dot by dot, and both mutators are joins: adding and
    removing only ever move a set up in the semilattice. *)
Theorem orset_join_semilattice (a b c : ORSet.ORSet) :
  ORSet.join a b = ORSet.join b a ∧
  ORSet.join (ORSet.join a b) c = ORSet.join a (ORSet.join b c) ∧
  ORSet.join a a = a ∧
  ORSet.clone a = a ∧
  (∀ e d, d ∈ ORSet.getDots (ORSet.join a b) e ↔
     (d ∈ ORSet.dots_of a e ∨ d ∈ ORSet.dots_of b e) ∧
     (d ∉ ORSet.tombstones a) ∧ (d ∉ ORSet.tombstones b)) ∧
  (∀ e d, ORSet.add e d a = ORSet.join a (ORSet.add e d ORSet.empty)) ∧
  (∀ ds, ORSet.remove ds a = ORSet.join a (ORSet.remove ds ORSet.empty)).
Proof.
  split_and!.
  - apply ORSet.or_join_comm.
  - apply ORSet.or_join_assoc.
  - apply ORSet.or_join_idemp.
  - apply ORSet.or_clone_id.
  - intros e d. rewrite ORSet.elem_of_getDots, ORSet.dots_of_join, ORSet.tombstones_join.
    set_solver.
  - intros e d. by rewrite !ORSet.add_join, ORSet.or_join_empty_l.
  - intros ds. by rewrite !ORSet.remove_join, ORSet.or_join_empty_l.
Qed.

(** C16. Add-wins: an add whose dot the remover had not observed (and nobody had
    tombstoned) survives the remove, in whichever order the two are applied
    and however the replicas are merged; a remove of the observed live dots
    of an element makes the element absent; and a later add with a fresh dot
    brings it back. *)
Theorem orset_add_wins (s : ORSet.ORSet) (e : string) (dot : Dot.Dot) (observed : gset string) :
  Dot.encode dot ∉ observed → Dot.encode dot ∉ ORSet.tombstones s →
  ORSet.remove observed (ORSet.add e dot s) = ORSet.add e dot (ORSet.remove observed s) ∧
  ORSet.contains (ORSet.remove observed (ORSet.add e dot s)) e = true ∧
  ORSet.contains (ORSet.join (ORSet.add e dot s) (ORSet.remove observed s)) e = true ∧
  ORSet.contains (ORSet.remove (ORSet.getDots s e) s) e = false ∧
  ORSet.contains (ORSet.add e dot (ORSet.remove (ORSet.getDots s e) s)) e
    = bool_decide (Dot.encode dot ∉ ORSet.getDots s e).
Proof.
  intros Ho Ht. split_and!.
  - done.
  - apply ORSet.contains_live. exists (Dot.encode dot).
    change (ORSet.dots_of (ORSet.remove ?o ?t) e) with (ORSet.dots_of t e).
    rewrite ORSet.dots_of_add, decide_True by done. simpl. set_solver.
  - apply ORSet.contains_live. exists (Dot.encode dot).
    rewrite ORSet.dots_of_join, ORSet.dots_of_add, decide_True, ORSet.tombstones_join by done.
    simpl. set_solver.
  - apply not_true_is_false. rewrite ORSet.contains_live.
    intros (d & Hd & Hn). simpl in Hn. apply not_elem_of_union in Hn as [Hn1 Hn2].
    apply Hn2, ORSet.elem_of_getDots. done.
  - apply eq_true_iff_eq. rewrite ORSet.contains_live, bool_decide_eq_true. split.
    + intros (d & Hd & Hn). rewrite ORSet.dots_of_add, decide_True in Hd by done.
      simpl in Hn. apply not_elem_of_union in Hn as [Hn1 Hn2].
      apply elem_of_union in Hd as [->%elem_of_singleton|Hd]; [done|].
      exfalso. apply Hn2, ORSet.elem_of_getDots. done.
    + intros Hn. exists (Dot.encode dot). rewrite ORSet.dots_of_add, decide_True by done.
      simpl. set_solver.
Qed.

Definition one_elem_set : ORSet.ORSet := ORSet.add "n" (Dot.mk "a" 1) ORSet.empty.

Lemma orset_add_wins_witness :
  ORSet.contains (ORSet.remove {["a:1"]} (ORSet.add "n" (Dot.mk "b" 1) one_elem_set)) "n" = true ∧
  ORSet.contains (ORSet.remove {["a:1"]} one_elem_set) "n" = false ∧
  ORSet.contains (ORSet.remove {["a:1"]} (ORSet.add "n" (Dot.mk "b" 1) one_elem_set)) "n" = true.
Proof.
  split_and!; [vm_compute; reflexivity|vm_compute; reflexivity|].
  apply (orset_add_wins one_elem_set "n" (Dot.mk "b" 1) {["a:1"]});
    apply (bool_decide_unpack _); vm_compute; exact I.
Defined.

(** Compaction is invisible to readers: when it succeeds, every element keeps
    exactly its live dots, so membership and the enumerated elements are
    unchanged; only dots the vector covers disappear, tombstones of dots that
    no entry carries stay, and when an entry holds a malformed dot the call
    throws before touching the set. *)
Theorem orset_compact_preserves_membership vv (s s' : ORSet.ORSet) r :
  ORSet.compact vv s = (s', r) →
  (r = Ok () ∨ s' = s) ∧
  (∀ e, ORSet.getDots s' e = ORSet.getDots s e) ∧
  (∀ e, ORSet.contains s' e = ORSet.contains s e) ∧
  Permutation (ORSet.elements s') (ORSet.elements s) ∧
  (∀ d, d ∈ ORSet.tombstones s → (∀ e, d ∉ ORSet.dots_of s e) → d ∈ ORSet.tombstones s').
Proof.
  intros Hc. apply ORSet.compact_spec in Hc as [(err & -> & ->)|(-> & Hd & Ht)].
  { split_and!; [by right|done..]. }
  assert (∀ e d, (d ∈ ORSet.dots_of s' e ∧ d ∉ ORSet.tombstones s')
    ↔ (d ∈ ORSet.dots_of s e ∧ d ∉ ORSet.tombstones s)) as Hlive.
  { intros e d. rewrite Hd, Ht. split.
    - intros [[Hin Hnc] Hnt]. split; [done|]. naive_solver.
    - intros [Hin Hnt]. split_and!; [done| |naive_solver].
      intros Hcm%ORSet.compactable_tombstoned. done. }
  assert (∀ e, ORSet.contains s' e = ORSet.contains s e) as Hcont.
  { intros e. apply ORSet.contains_ext. unfold ORSet.live. by setoid_rewrite Hlive. }
  split_and!; [by left| |done| |].
  - intros e. apply set_eq. intros d. by rewrite !ORSet.elem_of_getDots.
  - apply NoDup_Permutation; [apply ORSet.elements_NoDup..|].
    intros e. by rewrite !ORSet.elem_of_elements, Hcont.
  - intros d Hin Hfl. apply Ht. eauto.
Qed.

Definition gc_sample : ORSet.ORSet :=
  ORSet.remove {["a:1"; "z:9"]} (ORSet.add "m" (Dot.mk "b" 2) one_elem_set).

Lemma orset_compact_preserves_membership_witness :
  (ORSet.compact (vv_of [("a", 1)]) gc_sample).1
    = ORSet.mk {["m" := {["b:2"]}]} {["z:9"]} ∧
  ORSet.contains (ORSet.compact (vv_of [("a", 1)]) gc_sample).1 "m"
    = ORSet.contains gc_sample "m".
Proof.
  split; [apply (bool_decide_unpack _); vm_compute; exact I|].
  apply (orset_compact_preserves_membership (vv_of [("a", 1)]) gc_sample _
    (ORSet.compact (vv_of [("a", 1)]) gc_sample).2).
  apply surjective_pairing.
Defined.

(** C20. Garbage collection is safe for a replica that has seen the removals: if
    every dot [a] compacts is, wherever the peer [b] still carries it,
    tombstoned at [b] too, then merging after the compaction shows the same
    elements as merging before it. *)
Theorem orset_compact_gc_safe vv (a a' b : ORSet.ORSet) :
  ORSet.compact vv a = (a', Ok ()) →
  (∀ e d, ORSet.compactable a vv d = Ok true → d ∈ ORSet.dots_of b e →
     d ∈ ORSet.tombstones b) →
  ∀ e, ORSet.contains (ORSet.join a' b) e = ORSet.contains (ORSet.join a b) e.
Proof.
  intros Hc Hseen e. apply ORSet.compact_spec in Hc as [(? & [=] & _)|(_ & Hd & Ht)].
  apply ORSet.contains_ext. unfold ORSet.live.
  setoid_rewrite ORSet.dots_of_join. setoid_rewrite ORSet.tombstones_join.
  split; intros (d & Hin & Hn); exists d; rewrite not_elem_of_union in *;
    rewrite elem_of_union in *; destruct Hn as [Hna Hnb].
  - assert (ORSet.compactable a vv d ≠ Ok true) as Hnc.
    { intros Hcm. destruct Hin as [Hin|Hin]; [by apply Hd in Hin as []|].
      by apply Hnb, (Hseen e). }
    split; [rewrite Hd in Hin; tauto|]. split; [|done].
    intros Hta. apply Hna, Ht. auto.
  - assert (ORSet.compactable a vv d ≠ Ok true) as Hnc.
    { by intros Hcm%ORSet.compactable_tombstoned. }
    split; [rewrite Hd; tauto|]. split; [|done]. intros [? _]%Ht. done.
Qed.

Definition gc_peer : ORSet.ORSet := ORSet.remove {["a:1"]} one_elem_set.

(** Without the condition the element comes back: the peer that never saw the
    removal resurrects it. *)
Lemma orset_compact_gc_safe_witness :
  ORSet.contains (ORSet.join (ORSet.compact (vv_of [("a", 1)]) gc_sample).1 gc_peer) "n" = false ∧
  ORSet.contains (ORSet.join (ORSet.compact (vv_of [("a", 1)]) gc_sample).1 one_elem_set) "n" = true ∧
  ORSet.contains (ORSet.join (ORSet.compact (vv_of [("a", 1)]) gc_sample).1 gc_peer) "n"
    = ORSet.contains (ORSet.join gc_sample gc_peer) "n".
Proof.
  split_and!; [vm_compute; reflexivity..|].
  apply (orset_compact_gc_safe (vv_of [("a", 1)]) gc_sample).
  - apply (bool_decide_unpack _); vm_compute; exact I.
  - intros e d Hc Hin. unfold ORSet.dots_of in Hin.
    assert (ORSet.entries gc_peer = {["n" := {["a:1"]}]}) as E
      by (apply (bool_decide_unpack _); vm_compute; exact I).
    rewrite E in Hin. destruct (decide (e = "n")) as [->|Hne].
    + rewrite lookup_singleton_eq in Hin. simpl in Hin; apply elem_of_singleton in Hin as ->.
      apply (bool_decide_unpack _); vm_compute; exact I.
    + rewrite lookup_singleton_ne in Hin by congruence. set_solver.
Defined.
