(* ===== verification/KeyCodec.v ===== *)
(** Composite keys of the state maps ([services/KeyCodec.ts]): edge keys,
    node-property keys and edge-property keys, with NUL as the separator and
    [\x01] as the prefix of edge-property keys. *)
From S2P Require Export Prelude.

Definition WarpError (code : string) : error := Err "WarpError" code.

(* @src domain/services/KeyCodec.ts FIELD_SEPARATOR *)
Definition FIELD_SEPARATOR : ascii := "000"%char.

(* @src domain/services/KeyCodec.ts EDGE_PROP_PREFIX *)
Definition EDGE_PROP_PREFIX : ascii := "001"%char.

Record edge_parts := EdgeParts { ep_from : string; ep_to : string; ep_label : string }.

#[global] Instance edge_parts_eq_dec : EqDecision edge_parts.
Proof. solve_decision. Defined.

(** [parts[i] ?? ''] *)
Definition part (parts : list string) (i : nat) : string := default "" (parts !! i).

Definition sep_join (a b : string) : string := a +:+ String FIELD_SEPARATOR b.

(* @src domain/services/KeyCodec.ts encodeEdgeKey *)
Definition encodeEdgeKey (from to label : string) : string :=
  sep_join from (sep_join to label).

(* @src domain/services/KeyCodec.ts decodeEdgeKey *)
Definition decodeEdgeKey (key : string) : edge_parts :=
  let parts := str_split FIELD_SEPARATOR key in
  EdgeParts (part parts 0) (part parts 1) (part parts 2).

(* @src domain/services/KeyCodec.ts encodePropKey *)
Definition encodePropKey (nodeId propKey : string) : string := sep_join nodeId propKey.

(** The pair (nodeId, propKey). *)
(* @src domain/services/KeyCodec.ts decodePropKey *)
Definition decodePropKey (key : string) : string * string :=
  let parts := str_split FIELD_SEPARATOR key in (part parts 0, part parts 1).

(* @src domain/services/KeyCodec.ts encodeEdgePropKey *)
Definition encodeEdgePropKey (from to label propKey : string) : string :=
  String EDGE_PROP_PREFIX (sep_join from (sep_join to (sep_join label propKey))).

(* @src domain/services/KeyCodec.ts encodeLegacyEdgePropNode *)
Definition encodeLegacyEdgePropNode (from to label : string) : string :=
  String EDGE_PROP_PREFIX (sep_join from (sep_join to label)).

(** [s[0] === EDGE_PROP_PREFIX] *)
Definition starts_with_prefix (s : string) : bool :=
  bool_decide (str_head s = Some EDGE_PROP_PREFIX).

(* @src domain/services/KeyCodec.ts isLegacyEdgePropNode *)
Definition isLegacyEdgePropNode (node : string) : bool :=
  str_nonempty node && starts_with_prefix node.

(* @src domain/services/KeyCodec.ts decodeLegacyEdgePropNode *)
Definition decodeLegacyEdgePropNode (node : string) : result edge_parts :=
  _ ← require (isLegacyEdgePropNode node) (WarpError "E_KEYCODEC_LEGACY_NO_PREFIX");
  match str_split FIELD_SEPARATOR (str_tail node) with
  | [from; to; label] =>
      _ ← require (str_nonempty from && str_nonempty to && str_nonempty label)
            (WarpError "E_KEYCODEC_LEGACY_EMPTY_SEGMENT");
      Ok (EdgeParts from to label)
  | _ => Throw (WarpError "E_KEYCODEC_LEGACY_BAD_SEGMENTS")
  end.

(* @src domain/services/KeyCodec.ts isEdgePropKey *)
Definition isEdgePropKey (key : string) : bool := starts_with_prefix key.

(** The edge and the property name. *)
(* @src domain/services/KeyCodec.ts decodeEdgePropKey *)
Definition decodeEdgePropKey (encoded : string) : result (edge_parts * string) :=
  _ ← require (isEdgePropKey encoded) (WarpError "E_KEYCODEC_EDGE_PROP_NO_PREFIX");
  match str_split FIELD_SEPARATOR (str_tail encoded) with
  | [from; to; label; propKey] => Ok (EdgeParts from to label, propKey)
  | _ => Throw (WarpError "E_KEYCODEC_EDGE_PROP_BAD_SEGMENTS")
  end.

(** ** Identifiers

    What the operation constructors guarantee of every identifier: it has
    no separator, and does not start with the edge prefix. *)
Definition no_sep (s : string) : Prop := str_includes FIELD_SEPARATOR s = false.
Definition ident_ok (s : string) : Prop :=
  str_nonempty s = true ∧ no_sep s ∧ starts_with_prefix s = false.

Lemma split_join a b :
  no_sep a → str_split FIELD_SEPARATOR (sep_join a b) = a :: str_split FIELD_SEPARATOR b.
Proof. apply str_split_app. Qed.

Lemma split_one a : no_sep a → str_split FIELD_SEPARATOR a = [a].
Proof. apply str_split_none. Qed.

Lemma ident_ok_sep s : ident_ok s → no_sep s.
Proof. by intros (_ & ? & _). Qed.

Lemma decode_edge_key f t l :
  no_sep f → no_sep t → no_sep l → decodeEdgeKey (encodeEdgeKey f t l) = EdgeParts f t l.
Proof. intros. unfold decodeEdgeKey, encodeEdgeKey. by rewrite !split_join, split_one. Qed.

Lemma decode_prop_key n k :
  no_sep n → no_sep k → decodePropKey (encodePropKey n k) = (n, k).
Proof. intros. unfold decodePropKey, encodePropKey. by rewrite split_join, split_one. Qed.

Lemma decode_edge_prop_key f t l k :
  no_sep f → no_sep t → no_sep l → no_sep k →
  decodeEdgePropKey (encodeEdgePropKey f t l k) = Ok (EdgeParts f t l, k).
Proof.
  intros. unfold decodeEdgePropKey, encodeEdgePropKey. simpl.
  by rewrite !split_join, split_one.
Qed.

Lemma decode_legacy_node f t l :
  ident_ok f → ident_ok t → ident_ok l →
  decodeLegacyEdgePropNode (encodeLegacyEdgePropNode f t l) = Ok (EdgeParts f t l).
Proof.
  intros (Hf & Hf' & _) (Ht & Ht' & _) (Hl & Hl' & _).
  unfold decodeLegacyEdgePropNode, encodeLegacyEdgePropNode. simpl.
  rewrite !split_join, split_one by done. by rewrite Hf, Ht, Hl.
Qed.

Lemma sep_join_head a b : a ≠ "" → str_head (sep_join a b) = str_head a.
Proof. by destruct a. Qed.

Lemma prop_key_not_edge n k : starts_with_prefix n = false → isEdgePropKey (encodePropKey n k) = false.
Proof.
  unfold isEdgePropKey, starts_with_prefix, encodePropKey. destruct n; [done|].
  by rewrite sep_join_head.
Qed.

Lemma encode_prop_key_inj n k n' k' :
  no_sep n → no_sep k → no_sep n' → no_sep k' →
  encodePropKey n k = encodePropKey n' k' → n = n' ∧ k = k'.
Proof.
  intros H1 H2 H3 H4 E. pose proof (decode_prop_key n k H1 H2) as D.
  rewrite E, decode_prop_key in D by done. by injection D.
Qed.

Lemma encode_edge_key_inj f t l f' t' l' :
  no_sep f → no_sep t → no_sep l → no_sep f' → no_sep t' → no_sep l' →
  encodeEdgeKey f t l = encodeEdgeKey f' t' l' → f = f' ∧ t = t' ∧ l = l'.
Proof.
  intros H1 H2 H3 H4 H5 H6 E. pose proof (decode_edge_key f t l H1 H2 H3) as D.
  rewrite E, decode_edge_key in D by done. by injection D.
Qed.

(** ** Properties *)

(** On valid identifiers every key decodes to the parts it was built from,
    so the encodings are injective, and a node-property key is never taken
    for an edge-property key: the two families do not collide. *)
Theorem key_codec_roundtrip (f t l n k : string) :
  ident_ok f → ident_ok t → ident_ok l → ident_ok n → no_sep k →
  decodeEdgeKey (encodeEdgeKey f t l) = EdgeParts f t l ∧
  decodePropKey (encodePropKey n k) = (n, k) ∧
  decodeEdgePropKey (encodeEdgePropKey f t l k) = Ok (EdgeParts f t l, k) ∧
  decodeLegacyEdgePropNode (encodeLegacyEdgePropNode f t l) = Ok (EdgeParts f t l) ∧
  isEdgePropKey (encodePropKey n k) = false ∧
  isEdgePropKey (encodeEdgePropKey f t l k) = true ∧
  encodePropKey (encodeLegacyEdgePropNode f t l) k = encodeEdgePropKey f t l k.
Proof.
  intros Hf Ht Hl Hn Hk. split_and!.
  - apply decode_edge_key; by apply ident_ok_sep.
  - apply decode_prop_key; [by apply ident_ok_sep|done].
  - apply decode_edge_prop_key; [by apply ident_ok_sep..|done].
  - by apply decode_legacy_node.
  - apply prop_key_not_edge, Hn.
  - done.
  - unfold encodePropKey, encodeLegacyEdgePropNode, encodeEdgePropKey, sep_join.
    change (String EDGE_PROP_PREFIX (f +:+ String FIELD_SEPARATOR (t +:+ String FIELD_SEPARATOR l))
      +:+ String FIELD_SEPARATOR k)
      with (String EDGE_PROP_PREFIX ((f +:+ String FIELD_SEPARATOR (t +:+ String FIELD_SEPARATOR l))
        +:+ String FIELD_SEPARATOR k)).
    rewrite str_app_assoc.
    change (String FIELD_SEPARATOR (t +:+ String FIELD_SEPARATOR l) +:+ String FIELD_SEPARATOR k)
      with (String FIELD_SEPARATOR ((t +:+ String FIELD_SEPARATOR l) +:+ String FIELD_SEPARATOR k)).
    by rewrite str_app_assoc.
Qed.

Lemma key_codec_roundtrip_witness :
  decodeEdgeKey (encodeEdgeKey "a" "b" "knows") = EdgeParts "a" "b" "knows".
Proof.
  apply (key_codec_roundtrip "a" "b" "knows" "a" "name"); repeat split.
Defined.

(** Decoding rejects malformed edge-property nodes with a code per cause, and
    whatever it accepts encodes back to the string it was given. *)
Theorem key_codec_legacy_reject (node : string) (p : edge_parts) :
  decodeLegacyEdgePropNode node = Ok p →
  isLegacyEdgePropNode node = true ∧
  node = encodeLegacyEdgePropNode (ep_from p) (ep_to p) (ep_label p) ∧
  str_nonempty (ep_from p) = true ∧ str_nonempty (ep_to p) = true ∧
  str_nonempty (ep_label p) = true.
Proof.
  unfold decodeLegacyEdgePropNode. rewrite bind_ok. intros ([] & Hp & H).
  apply require_ok in Hp. split; [done|].
  unfold isLegacyEdgePropNode, starts_with_prefix in Hp.
  apply andb_true_iff in Hp as [_ Hp%bool_decide_eq_true].
  destruct (str_split FIELD_SEPARATOR (str_tail node)) as [|f [|t [|l []]]] eqn:E; try done.
  apply bind_ok in H as ([] & Hn & [= <-]). apply require_ok in Hn.
  apply andb_true_iff in Hn as [[? ?]%andb_true_iff ?]. split_and!; [|done..]. simpl.
  destruct node as [|a node]; [done|]. injection Hp as ->. simpl in E.
  unfold encodeLegacyEdgePropNode. f_equal.
  apply str_split_cons in E as (s1 & -> & E); [|done].
  apply str_split_cons in E as (s2 & -> & E); [|done].
  by apply str_split_single in E as ->.
Qed.

Lemma key_codec_legacy_reject_witness :
  decodeLegacyEdgePropNode "plain" = Throw (WarpError "E_KEYCODEC_LEGACY_NO_PREFIX") ∧
  decodeLegacyEdgePropNode (String EDGE_PROP_PREFIX "ab")
    = Throw (WarpError "E_KEYCODEC_LEGACY_BAD_SEGMENTS") ∧
  decodeLegacyEdgePropNode (encodeLegacyEdgePropNode "a" "" "c")
    = Throw (WarpError "E_KEYCODEC_LEGACY_EMPTY_SEGMENT") ∧
  isLegacyEdgePropNode (encodeLegacyEdgePropNode "a" "b" "c") = true.
Proof.
  split_and!; [reflexivity..|].
  apply (key_codec_legacy_reject (encodeLegacyEdgePropNode "a" "b" "c") (EdgeParts "a" "b" "c")).
  reflexivity.
Defined.
