(* ===== verification/PropValue.v ===== *)
(** Property values ([types/PropValue.ts]) on an explicit heap.

    A composite value is a reference [JRef a]; the heap maps the address to
    the object. The check [isPropValue] walks the object graph, which may
    share objects and may contain cycles, with the set of the objects on the
    current path. *)
From S2P Require Export Prelude.

(** [OPlain] has prototype [Object.prototype] or [null]; [OOther] is every
    other object (class instances, dates, maps). *)
Inductive obj : Type :=
  | OBytes (bytes : list Z)
  | OArray (items : list jsval)
  | OPlain (fields : list (string * jsval))
  | OOther (fields : list (string * jsval)).

Abbreviation heap := (gmap N obj).

Module PropValue.

(* @src domain/types/PropValue.ts FORBIDDEN_PROPERTY_VALUE_KEYS *)
Definition FORBIDDEN_PROPERTY_VALUE_KEYS : list string :=
  ["__proto__"; "constructor"; "prototype"].

(* @src domain/types/PropValue.ts isForbiddenPropertyValueKey *)
Definition isForbiddenPropertyValueKey (key : string) : bool :=
  bool_decide (key ∈ FORBIDDEN_PROPERTY_VALUE_KEYS).

Definition deref (h : heap) (v : jsval) : option obj :=
  match v with JRef a => h !! a | _ => None end.

(* @src domain/types/PropValue.ts isScalarPropValue *)
Definition isScalarPropValue (h : heap) (v : jsval) : bool :=
  match v with
  | JNull | JStr _ | JNum _ | JBool _ => true
  | JUndefined => false
  | JRef a => match h !! a with Some (OBytes _) => true | _ => false end
  end.

(** [every] over the results of the recursive calls, [None] for a call that
    ran out of fuel. *)
Fixpoint every_opt {A} (f : A → option bool) (l : list A) : option bool :=
  match l with
  | [] => Some true
  | x :: l' =>
    match f x with
    | Some true => every_opt f l'
    | r => r
    end
  end.

(** [propValueObjectEntriesAreValid] for a recursive check [rec]. *)
(* @src domain/types/PropValue.ts propValueObjectEntriesAreValid *)
Definition entriesAreValid (rec : jsval → option bool) (fields : list (string * jsval))
  : option bool :=
  every_opt (λ '(key, entry),
  if isForbiddenPropertyValueKey key then Some false else rec entry) fields.

(** [seen] holds the objects entered and not left: each is added before its
    parts are checked and deleted afterwards. *)
(* @src domain/types/PropValue.ts isPropValueArray *)
Definition isPropValueArray (rec : gset N → jsval → option bool) (h : heap)
  (v : jsval) (seen : gset N) : option bool :=
  match v with
  | JRef a =>
    match h !! a with
    | Some (OArray items) =>
        if decide (a ∈ seen) then Some false else every_opt (rec ({[a]} ∪ seen)) items
    | _ => Some false
    end
  | _ => Some false
  end.

(* @src domain/types/PropValue.ts isPropValueObject *)
Definition isPropValueObject (rec : gset N → jsval → option bool) (h : heap)
  (v : jsval) (seen : gset N) : option bool :=
  match v with
  | JRef a =>
    match h !! a with
    | Some (OPlain fields) =>
        if decide (a ∈ seen) then Some false
        else entriesAreValid (rec ({[a]} ∪ seen)) fields
    | _ => Some false
    end
  | _ => Some false
  end.

(** The three tests are disjoint, so [||] is: the first that applies. *)
(* @src domain/types/PropValue.ts isPropValueWithSeen *)
Fixpoint isPropValueWithSeen (fuel : nat) (h : heap) (seen : gset N) (v : jsval)
  : option bool :=
  match fuel with
  | O => None
  | S fuel' =>
    if isScalarPropValue h v then Some true
    else match isPropValueArray (isPropValueWithSeen fuel' h) h v seen with
         | Some false => isPropValueObject (isPropValueWithSeen fuel' h) h v seen
         | r => r
         end
  end.

(** The call nests at most once per object, plus once for the leaf. *)
(* @src domain/types/PropValue.ts isPropValue *)
Definition isPropValue (h : heap) (v : jsval) : option bool :=
  isPropValueWithSeen (S (size h)) h ∅ v.

(** ** Specification: the finite trees of the allowed shapes *)

Inductive prop_tree (h : heap) : nat → jsval → Prop :=
  | pt_scalar n v : isScalarPropValue h v = true → prop_tree h (S n) v
  | pt_array n a items :
    h !! a = Some (OArray items) → Forall (prop_tree h n) items →
    prop_tree h (S n) (JRef a)
  | pt_object n a fields :
    h !! a = Some (OPlain fields) →
    Forall (λ kv, isForbiddenPropertyValueKey kv.1 = false ∧ prop_tree h n kv.2) fields →
    prop_tree h (S n) (JRef a).

(** A value is a property value when it unfolds to a finite tree. *)
Definition is_tree (h : heap) (v : jsval) : Prop := ∃ n, prop_tree h n v.

Lemma prop_tree_mono h n m v : prop_tree h n v → (n ≤ m)%nat → prop_tree h m v.
Proof.
  revert m v. induction n as [|n IH]; intros m v Ht Hle; [inversion Ht|].
  destruct m as [|m]; [lia|].
  inversion Ht as [? ? Hs|? a items Ha Hf|? a fields Ha Hf]; subst.
  - by constructor.
  - apply (pt_array _ _ _ items); [done|]. eapply Forall_impl; [done|]. intros x Hx.
  apply IH; [done|lia].
  - apply (pt_object _ _ _ fields); [done|]. eapply Forall_impl; [done|].
  intros [k x] [? Hx]. split; [done|]. apply IH; [done|lia].
Qed.

Lemma every_opt_true {A} (f : A → option bool) l :
  every_opt f l = Some true ↔ Forall (λ x, f x = Some true) l.
Proof.
  induction l as [|x l IH]; simpl; [by split|].
  rewrite Forall_cons. destruct (f x) as [[]|]; naive_solver.
Qed.

Lemma every_opt_total {A} (f : A → option bool) l :
  Forall (λ x, is_Some (f x)) l → is_Some (every_opt f l).
Proof.
  induction 1 as [|x l [b Hb] Hl IH]; simpl; [by eexists|].
  rewrite Hb. destruct b; [done|by eexists].
Qed.

(** Soundness: an accepted value is a tree. *)
Lemma check_sound fuel h seen v :
  isPropValueWithSeen fuel h seen v = Some true → prop_tree h fuel v.
Proof.
  revert seen v. induction fuel as [|fuel IH]; intros seen v; simpl; [done|].
  destruct (isScalarPropValue h v) eqn:Hs; [by constructor|].
  unfold isPropValueArray, isPropValueObject.
  destruct v as [| | | | |a]; try done.
  destruct (h !! a) as [[|items|fields|]|] eqn:Ha; try done.
  - case_decide; [done|].
  destruct (every_opt _ _) as [[]|] eqn:E; try done. intros _.
  apply every_opt_true in E. apply (pt_array _ _ _ items); [done|].
  eapply Forall_impl; [done|]. intros x. apply IH.
  - case_decide; [done|]. unfold entriesAreValid. intros E%every_opt_true.
  apply (pt_object _ _ _ fields); [done|]. eapply Forall_impl; [done|].
  intros [k x]. simpl. destruct (isForbiddenPropertyValueKey k) eqn:Ek; [done|].
  intros Hx. split; [done|]. by eapply IH.
Qed.

Lemma size_minus_one (h : heap) a (seen : gset N) :
  a ∈ dom h → a ∉ seen → (size (dom h ∖ ({[a]} ∪ seen)) < size (dom h ∖ seen))%nat.
Proof. intros Ha Hs. apply subset_size. set_solver. Qed.

(** Termination: with more fuel than objects off the path, it decides. *)
Lemma check_total fuel h seen v :
  (size (dom h ∖ seen) < fuel)%nat → is_Some (isPropValueWithSeen fuel h seen v).
Proof.
  revert seen v. induction fuel as [|fuel IH]; intros seen v Hf; simpl; [lia|].
  destruct (isScalarPropValue h v); [by eexists|].
  unfold isPropValueArray, isPropValueObject.
  destruct v as [| | | | |a]; try by eexists.
  destruct (h !! a) as [[|items|fields|]|] eqn:Ha; try by eexists.
  all: case_decide as Hin; [by eexists|].
  all: assert (size (dom h ∖ ({[a]} ∪ seen)) < fuel)%nat as Hlt.
  1,3: pose proof (size_minus_one h a seen (elem_of_dom_2 _ _ _ Ha) Hin); lia.
  - destruct (every_opt_total (isPropValueWithSeen fuel h ({[a]} ∪ seen)) items) as [b Hb].
  { apply Forall_forall. intros x _. by apply IH. }
  rewrite Hb. by destruct b; eexists.
  - apply every_opt_total, Forall_forall. intros [k x] _.
  destruct (isForbiddenPropertyValueKey k); [by eexists|]. by apply IH.
Qed.

(** More fuel does not change an answer. *)
Lemma every_opt_mono {A} (f g : A → option bool) l b :
  (∀ x c, f x = Some c → g x = Some c) → every_opt f l = Some b → every_opt g l = Some b.
Proof.
  intros Hfg. induction l as [|x l IH]; simpl; [done|].
  destruct (f x) as [[]|] eqn:E; [|..]; [|intros [= <-]|done]; by rewrite (Hfg _ _ E); auto.
Qed.

Lemma check_mono n m h seen v b :
  isPropValueWithSeen n h seen v = Some b → (n ≤ m)%nat →
  isPropValueWithSeen m h seen v = Some b.
Proof.
  revert m seen v b. induction n as [|n IH]; intros [|m] seen v b; simpl; try done; [lia|].
  intros Hc Hle. destruct (isScalarPropValue h v); [done|].
  unfold isPropValueArray, isPropValueObject in *.
  destruct v as [| | | | |a]; try done.
  destruct (h !! a) as [[|items|fields|]|] eqn:Ha; try done; case_decide; try done.
  - destruct (every_opt (isPropValueWithSeen n h ({[a]} ∪ seen)) items) as [c|] eqn:E; [|done].
  rewrite (every_opt_mono _ (isPropValueWithSeen m h ({[a]} ∪ seen)) _ _) by
    (apply E || (intros; apply IH; [done|lia])).
  done.
  - unfold entriesAreValid in *. revert Hc. apply every_opt_mono. intros [k x] c.
  destruct (isForbiddenPropertyValueKey k); [done|]. intros Hx. apply IH; [done|lia].
Qed.

(** The height bound is decidable, so a tree has a least height. *)
Fixpoint treeb (n : nat) (h : heap) (v : jsval) : bool :=
  match n with
  | O => false
  | S n' =>
    isScalarPropValue h v ||
    match deref h v with
    | Some (OArray items) => forallb (treeb n' h) items
    | Some (OPlain fields) =>
        forallb (λ '(k, x), negb (isForbiddenPropertyValueKey k) && treeb n' h x) fields
    | _ => false
    end
  end.

Lemma forallb_Forall_iff {A} (f : A → bool) (P : A → Prop) l :
  (∀ x, f x = true ↔ P x) → forallb f l = true ↔ Forall P l.
Proof.
  intros Hf. rewrite forallb_forall, Forall_forall. setoid_rewrite <- Hf.
  by setoid_rewrite list_elem_of_In.
Qed.

Lemma treeb_spec n h v : treeb n h v = true ↔ prop_tree h n v.
Proof.
  revert v. induction n as [|n IH]; intros v; simpl; [by split; [|inversion 1]|].
  rewrite orb_true_iff. split.
  - intros [Hs|Hd]; [by constructor|]. destruct v as [| | | | |a]; try done. simpl in Hd.
  destruct (h !! a) as [[|items|fields|]|] eqn:Ha; try done.
  + apply (pt_array _ _ _ items); [done|]. by apply (forallb_Forall_iff (treeb n h)).
  + apply (pt_object _ _ _ fields); [done|].
    eapply (forallb_Forall_iff _ _ fields); [|exact Hd]. intros [k x]; simpl.
    by rewrite andb_true_iff, negb_true_iff, IH.
  - inversion 1 as [? ? Hs|? a items Ha Hf|? a fields Ha Hf]; subst; [by left|right..];
    simpl; rewrite Ha.
  + by apply (forallb_Forall_iff (treeb n h) _ items IH).
  + eapply (forallb_Forall_iff _ _ fields); [|exact Hf]. intros [k x]; simpl.
    by rewrite andb_true_iff, negb_true_iff, IH.
Qed.

Lemma least_height h n v :
  prop_tree h n v →
  ∃ m, prop_tree h m v ∧ (m ≤ n)%nat ∧ ∀ k, prop_tree h k v → (m ≤ k)%nat.
Proof.
  induction n as [|n IH]; intros Ht; [inversion Ht|].
  destruct (treeb n h v) eqn:E.
  - apply treeb_spec, IH in E as (m & ? & ? & ?). exists m. split_and!; [done|lia|done].
  - exists (S n). split_and!; [done|lia|]. intros k Hk.
  destruct (decide (k ≤ n)%nat) as [Hle|]; [|lia].
  apply (prop_tree_mono h k n v Hk), treeb_spec in Hle. congruence.
Qed.

(** Completeness: a tree of minimal height [n], entered from a path of objects
    that are not trees of that height, is accepted whatever the sharing. *)
Lemma check_complete fuel h seen n v :
  prop_tree h n v → (∀ a, a ∈ seen → ¬ prop_tree h n (JRef a)) →
  (n ≤ fuel)%nat → isPropValueWithSeen fuel h seen v = Some true.
Proof.
  revert seen n v. induction fuel as [|fuel IH]; intros seen n v Ht Hseen Hle.
  { assert (n = 0%nat) as -> by lia. inversion Ht. }
  destruct (least_height h n v Ht) as (m & Hm & Hmn & Hmin).
  assert (∀ a, a ∈ seen → ¬ prop_tree h m (JRef a)) as Hseen'.
  { intros a Ha Hta. apply (Hseen a Ha). by apply (prop_tree_mono h m). }
  simpl. destruct (isScalarPropValue h v) eqn:Hs; [done|].
  inversion Hm as [? ? Hs'|k a items Ha Hf|k a fields Ha Hf]; subst; [congruence|..];
  unfold isPropValueArray, isPropValueObject; rewrite Ha;
  (assert (a ∉ seen) as Hni by (intros Hin; by apply (Hseen' a Hin)));
  rewrite decide_False by done;
  (assert (∀ b, b ∈ {[a]} ∪ seen → ¬ prop_tree h k (JRef b)) as Hseen2 by
    (intros b [->%elem_of_singleton|Hb]%elem_of_union Htb;
     [specialize (Hmin _ Htb); lia|];
     apply (Hseen' b Hb); apply (prop_tree_mono h k); [done|lia])).
  - assert (every_opt (isPropValueWithSeen fuel h ({[a]} ∪ seen)) items = Some true) as ->; [|done].
  apply every_opt_true. eapply Forall_impl; [done|]. intros x Hx.
  apply (IH _ k); [done|done|lia].
  - apply every_opt_true. eapply Forall_impl; [done|]. intros [kk x] [Hk Hx]. simpl in *.
  rewrite Hk. apply (IH _ k); [done|done|lia].
Qed.
End PropValue.

(** ** Properties *)

(** C22. [isPropValue] terminates on every object graph, cyclic ones included, and
    accepts exactly the values that unfold to a finite tree of the allowed
    shapes: shared objects are accepted wherever they occur, cycles,
    [undefined], class instances and forbidden keys are rejected. *)
Theorem prop_value_check_decides_trees (h : heap) (v : jsval) :
  ∃ b, PropValue.isPropValue h v = Some b ∧ (b = true ↔ PropValue.is_tree h v).
Proof.
  destruct (PropValue.check_total (S (size h)) h ∅ v) as [b Hb].
  { rewrite difference_empty_L. rewrite size_dom. lia. }
  exists b. split; [done|]. split.
  - intros ->. exists (S (size h)). by apply (PropValue.check_sound _ _ ∅).
  - intros [n Ht].
    pose proof (PropValue.check_complete (max n (S (size h))) h ∅ n v Ht) as Hc.
    rewrite (PropValue.check_mono (S (size h)) _ h ∅ v b Hb) in Hc by lia.
    assert (Some b = Some true) as [=]; [|done]. apply Hc; [set_solver|lia].
Qed.

(** A list with one object twice is accepted; an object that contains itself,
    and one with a forbidden key, are not. *)
Definition sample_heap : heap :=
  {[ 1%N := OArray [JRef 2; JRef 2; JNum (JInt 5)];
     2%N := OPlain [("k", JStr "v"); ("b", JRef 4)];
     3%N := OPlain [("self", JRef 3)];
     4%N := OBytes [1; 2];
     5%N := OPlain [("__proto__", JNull)] ]}.

Example prop_value_samples :
  PropValue.isPropValue sample_heap <$> [JRef 1; JRef 2; JRef 3; JRef 4; JRef 5; JUndefined]
    = [Some true; Some true; Some false; Some true; Some false; Some false].
Proof. vm_compute. reflexivity. Qed.
