(* ===== verification/Graph.v ===== *)
(** Graph substrate carriers ([src/domain/graph/]): identifiers, node, edge and
    attachment records. A carrier that is not a string is [None]; a field that
    is not an instance of the class the constructor asks for is [None]. *)
From S2P Require Export Causal KeyCodec PropValue.

Definition E_VALIDATION : error := WarpError "E_VALIDATION".

(** The checks shared by the five string carriers. *)
Definition nonempty_string (value : option string) : result string :=
  match value with
  | None => Throw E_VALIDATION
  | Some v => _ ← require (str_nonempty v) E_VALIDATION; Ok v
  end.
Definition no_separator (v : string) : result string :=
  _ ← require (negb (str_includes FIELD_SEPARATOR v)) E_VALIDATION; Ok v.
Definition no_reserved_prefix (v : string) : result string :=
  _ ← require (negb (starts_with_prefix v)) E_VALIDATION; Ok v.

Lemma check_sep_ok v v' : nonempty_string v ≫= no_separator = Ok v' ↔
  v = Some v' ∧ str_nonempty v' = true ∧ no_sep v'.
Proof.
  unfold no_sep, no_separator, nonempty_string. destruct v as [v|]; simpl; [|by split; [|intros [? _]]].
  destruct (str_nonempty v) eqn:E1; simpl; [|split; [done|intros ([= ->] & ? & _); congruence]].
  destruct (str_includes FIELD_SEPARATOR v) eqn:E2; simpl;
    (split; [|intros ([= ->] & _ & ?); congruence]); [done|by intros [= <-]].
Qed.

Lemma check_ident_ok v v' :
  (nonempty_string v ≫= no_separator) ≫= no_reserved_prefix = Ok v' ↔
  v = Some v' ∧ ident_ok v'.
Proof.
  rewrite bind_ok. setoid_rewrite check_sep_ok. unfold no_reserved_prefix, ident_ok. split.
  - intros (w & (-> & Hn & Hs) & Hp).
    destruct (starts_with_prefix w) eqn:E; [done|]. injection Hp as <-. done.
  - intros (-> & ? & ? & E). exists v'. by rewrite E.
Qed.

Module NodeId.
(* @src domain/graph/NodeId.ts NodeId 7-9 *)
Record NodeId := mk { value : string }.

#[global] Instance NodeId_eq_dec : EqDecision NodeId.
Proof. solve_decision. Defined.

(* @src domain/graph/NodeId.ts requireNodeIdValue *)
Definition requireNodeIdValue (value : option string) : result string :=
  (nonempty_string value ≫= no_separator) ≫= no_reserved_prefix.

(* @src domain/graph/NodeId.ts constructor *)
Definition new (value : option string) : result NodeId :=
  v ← requireNodeIdValue value; Ok (mk v).

(* @src domain/graph/NodeId.ts toString *)
Definition toString (id : NodeId) : string := value id.

(* @src domain/graph/NodeId.ts equals *)
Definition equals (id : NodeId) (other : option NodeId) : bool :=
  match other with None => false | Some o => String.eqb (value id) (value o) end.

Lemma node_id_new v id : new v = Ok id ↔ v = Some (value id) ∧ ident_ok (value id).
Proof.
  unfold new, requireNodeIdValue. rewrite bind_ok. setoid_rewrite check_ident_ok. split.
  - by intros (? & ? & [= <-]).
  - intros ?. exists (value id). by destruct id.
Qed.
End NodeId.

Module EdgeId.
(* @src domain/graph/EdgeId.ts EdgeId 7-9 *)
Record EdgeId := mk { value : string }.

#[global] Instance EdgeId_eq_dec : EqDecision EdgeId.
Proof. solve_decision. Defined.

(* @src domain/graph/EdgeId.ts requireEdgeIdValue *)
Definition requireEdgeIdValue (value : option string) : result string :=
  (nonempty_string value ≫= no_separator) ≫= no_reserved_prefix.

(* @src domain/graph/EdgeId.ts constructor *)
Definition new (value : option string) : result EdgeId :=
  v ← requireEdgeIdValue value; Ok (mk v).

(* @src domain/graph/EdgeId.ts toString *)
Definition toString (id : EdgeId) : string := value id.

(* @src domain/graph/EdgeId.ts equals *)
Definition equals (id other : EdgeId) : bool := String.eqb (value id) (value other).

Lemma edge_id_new v id : new v = Ok id ↔ v = Some (value id) ∧ ident_ok (value id).
Proof.
  unfold new, requireEdgeIdValue. rewrite bind_ok. setoid_rewrite check_ident_ok. split.
  - by intros (? & ? & [= <-]).
  - intros ?. exists (value id). by destruct id.
Qed.
End EdgeId.

Module NodeTypeId.
(* @src domain/graph/NodeTypeId.ts NodeTypeId 9-11 *)
Record NodeTypeId := mk { value : string }.

#[global] Instance NodeTypeId_eq_dec : EqDecision NodeTypeId.
Proof. solve_decision. Defined.

(* @src domain/graph/NodeTypeId.ts DEFAULT_NODE_TYPE_ID *)
Definition DEFAULT_NODE_TYPE_ID : string := "untyped-node".

(* @src domain/graph/NodeTypeId.ts requireNodeTypeIdValue *)
Definition requireNodeTypeIdValue (value : option string) : result string :=
  nonempty_string value ≫= no_separator.

(* @src domain/graph/NodeTypeId.ts constructor *)
Definition new (value : option string) : result NodeTypeId :=
  v ← requireNodeTypeIdValue value; Ok (mk v).

(* @src domain/graph/NodeTypeId.ts toString *)
Definition toString (id : NodeTypeId) : string := value id.

(* @src domain/graph/NodeTypeId.ts equals *)
Definition equals (id other : NodeTypeId) : bool := String.eqb (value id) (value other).
End NodeTypeId.

Module EdgeTypeId.
(* @src domain/graph/EdgeTypeId.ts EdgeTypeId 6-8 *)
Record EdgeTypeId := mk { value : string }.

#[global] Instance EdgeTypeId_eq_dec : EqDecision EdgeTypeId.
Proof. solve_decision. Defined.

(* @src domain/graph/EdgeTypeId.ts requireEdgeTypeIdValue *)
Definition requireEdgeTypeIdValue (value : option string) : result string :=
  nonempty_string value ≫= no_separator.

(* @src domain/graph/EdgeTypeId.ts constructor *)
Definition new (value : option string) : result EdgeTypeId :=
  v ← requireEdgeTypeIdValue value; Ok (mk v).

(* @src domain/graph/EdgeTypeId.ts toString *)
Definition toString (id : EdgeTypeId) : string := value id.

(* @src domain/graph/EdgeTypeId.ts equals *)
Definition equals (id other : EdgeTypeId) : bool := String.eqb (value id) (value other).

Lemma edge_type_id_new v id :
  new v = Ok id ↔ v = Some (value id) ∧ str_nonempty (value id) = true ∧ no_sep (value id).
Proof.
  unfold new, requireEdgeTypeIdValue. rewrite bind_ok. setoid_rewrite check_sep_ok. split.
  - by intros (? & ? & [= <-]).
  - intros ?. exists (value id). by destruct id.
Qed.
End EdgeTypeId.

Module AttachmentKey.
(* @src domain/graph/AttachmentKey.ts AttachmentKey 6-8 *)
Record AttachmentKey := mk { value : string }.

#[global] Instance AttachmentKey_eq_dec : EqDecision AttachmentKey.
Proof. solve_decision. Defined.

(* @src domain/graph/AttachmentKey.ts requireAttachmentKeyValue *)
Definition requireAttachmentKeyValue (value : option string) : result string :=
  nonempty_string value ≫= no_separator.

(* @src domain/graph/AttachmentKey.ts constructor *)
Definition new (value : option string) : result AttachmentKey :=
  v ← requireAttachmentKeyValue value; Ok (mk v).

(* @src domain/graph/AttachmentKey.ts toString *)
Definition toString (key : AttachmentKey) : string := value key.

(* @src domain/graph/AttachmentKey.ts equals *)
Definition equals (key other : AttachmentKey) : bool := String.eqb (value key) (value other).

Lemma attachment_key_new v k :
  new v = Ok k ↔ v = Some (value k) ∧ str_nonempty (value k) = true ∧ no_sep (value k).
Proof.
  unfold new, requireAttachmentKeyValue. rewrite bind_ok. setoid_rewrite check_sep_ok. split.
  - by intros (? & ? & [= <-]).
  - intros ?. exists (value k). by destruct k.
Qed.
End AttachmentKey.

Module AttachmentSchemaVersion.
(* @src domain/graph/AttachmentSchemaVersion.ts AttachmentSchemaVersion 6-8 *)
Record AttachmentSchemaVersion := mk { value : Z }.

#[global] Instance AttachmentSchemaVersion_eq_dec : EqDecision AttachmentSchemaVersion.
Proof. solve_decision. Defined.

(* @src domain/graph/AttachmentSchemaVersion.ts CURRENT_ATTACHMENT_SCHEMA_VERSION *)
Definition CURRENT_ATTACHMENT_SCHEMA_VERSION : jsnum := JInt 1.

(* @src domain/graph/AttachmentSchemaVersion.ts requireSchemaVersionValue *)
Definition requireSchemaVersionValue (value : jsnum) : result Z :=
  match int_at_least 1 value with Some v => Ok v | None => Throw E_VALIDATION end.

(* @src domain/graph/AttachmentSchemaVersion.ts constructor *)
Definition new (value : jsnum) : result AttachmentSchemaVersion :=
  v ← requireSchemaVersionValue value; Ok (mk v).

(* @src domain/graph/AttachmentSchemaVersion.ts toNumber *)
Definition toNumber (v : AttachmentSchemaVersion) : Z := value v.

(* @src domain/graph/AttachmentSchemaVersion.ts equals *)
Definition equals (v other : AttachmentSchemaVersion) : bool := value v =? value other.

(* @src domain/graph/AttachmentSchemaVersion.ts current *)
Definition current : result AttachmentSchemaVersion := new CURRENT_ATTACHMENT_SCHEMA_VERSION.
End AttachmentSchemaVersion.

(** A field that must be an instance. *)
Definition instance_of {A} (v : option A) : result A :=
  match v with Some a => Ok a | None => Throw E_VALIDATION end.

Module NodeRecord.
Import NodeId NodeTypeId.

(* @src domain/graph/NodeRecord.ts NodeRecord 11-13 *)
Record NodeRecord := mk { id : NodeId; typeId : NodeTypeId }.

#[global] Instance NodeRecord_eq_dec : EqDecision NodeRecord.
Proof. solve_decision. Defined.

(* @src domain/graph/NodeRecord.ts requireNodeId *)
Definition requireNodeId (value : option NodeId) : result NodeId := instance_of value.
(* @src domain/graph/NodeRecord.ts requireNodeTypeId *)
Definition requireNodeTypeId (value : option NodeTypeId) : result NodeTypeId := instance_of value.

(* @src domain/graph/NodeRecord.ts constructor *)
Definition new (id : option NodeId) (typeId : option NodeTypeId) : result NodeRecord :=
  i ← requireNodeId id; t ← requireNodeTypeId typeId; Ok (mk i t).

(* @src domain/graph/NodeRecord.ts fromLegacyNodeId *)
Definition fromLegacyNodeId (nodeId : option string) : result NodeRecord :=
  id ← NodeId.new nodeId;
  typeId ← NodeTypeId.new (Some DEFAULT_NODE_TYPE_ID);
  new (Some id) (Some typeId).

(* @src domain/graph/NodeRecord.ts equals *)
Definition equals (r other : NodeRecord) : bool :=
  NodeId.equals (id r) (Some (id other)) && NodeTypeId.equals (typeId r) (typeId other).

(** The record of a legacy node id. *)
Definition of_legacy (n : string) : NodeRecord :=
  mk (NodeId.mk n) (NodeTypeId.mk DEFAULT_NODE_TYPE_ID).

Lemma fromLegacyNodeId_ok n r :
  fromLegacyNodeId (Some n) = Ok r ↔ ident_ok n ∧ r = of_legacy n.
Proof.
  unfold fromLegacyNodeId. rewrite bind_ok. setoid_rewrite node_id_new. split.
  - intros ([v] & [[= ->] Hv] & [= <-]). done.
  - intros [? ->]. by exists (NodeId.mk n).
Qed.
End NodeRecord.

Module EdgeRecord.
Import NodeId EdgeId EdgeTypeId.

(* @src domain/graph/EdgeRecord.ts EdgeRecord 22-26 *)
Record EdgeRecord := mk { id : EdgeId; from : NodeId; to : NodeId; typeId : EdgeTypeId }.

#[global] Instance EdgeRecord_eq_dec : EqDecision EdgeRecord.
Proof. solve_decision. Defined.

(* @src domain/graph/EdgeRecord.ts LEGACY_EDGE_ID_PREFIX *)
Definition LEGACY_EDGE_ID_PREFIX : string := "legacy-edge".

(* @src domain/graph/EdgeRecord.ts segment *)
Definition segment (value : string) : string :=
  num_to_string (Z.of_nat (String.length value)) +:+ String ":" value.

Definition colon_join (a b : string) : string := a +:+ String ":" b.

(* @src domain/graph/EdgeRecord.ts legacyEdgeIdValue *)
Definition legacyEdgeIdValue (fields : edge_parts) : string :=
  colon_join LEGACY_EDGE_ID_PREFIX
  (colon_join (segment (ep_from fields))
    (colon_join (segment (ep_to fields)) (segment (ep_label fields)))).

(* @src domain/graph/EdgeRecord.ts requireEdgeId *)
Definition requireEdgeId (value : option EdgeId) : result EdgeId := instance_of value.
(* @src domain/graph/EdgeRecord.ts requireNodeId *)
Definition requireNodeId (value : option NodeId) : result NodeId := instance_of value.
(* @src domain/graph/EdgeRecord.ts requireEdgeTypeId *)
Definition requireEdgeTypeId (value : option EdgeTypeId) : result EdgeTypeId := instance_of value.

(* @src domain/graph/EdgeRecord.ts constructor *)
Definition new (id : option EdgeId) (from to : option NodeId) (typeId : option EdgeTypeId)
  : result EdgeRecord :=
  i ← requireEdgeId id; f ← requireNodeId from; t ← requireNodeId to;
  ty ← requireEdgeTypeId typeId; Ok (mk i f t ty).

(* @src domain/graph/EdgeRecord.ts fromLegacyEdge *)
Definition fromLegacyEdge (fields : edge_parts) : result EdgeRecord :=
  id ← EdgeId.new (Some (legacyEdgeIdValue fields));
  from ← NodeId.new (Some (ep_from fields));
  to ← NodeId.new (Some (ep_to fields));
  typeId ← EdgeTypeId.new (Some (ep_label fields));
  new (Some id) (Some from) (Some to) (Some typeId).

(* @src domain/graph/EdgeRecord.ts equals *)
Definition equals (r other : EdgeRecord) : bool :=
  EdgeId.equals (id r) (id other) && NodeId.equals (from r) (Some (from other))
  && NodeId.equals (to r) (Some (to other)) && EdgeTypeId.equals (typeId r) (typeId other).

(** The record of a legacy edge. *)
Definition of_legacy (e : edge_parts) : EdgeRecord :=
  mk (EdgeId.mk (legacyEdgeIdValue e)) (NodeId.mk (ep_from e)) (NodeId.mk (ep_to e))
   (EdgeTypeId.mk (ep_label e)).

(** The edges [fromLegacyEdge] accepts. *)
Definition edge_ok (e : edge_parts) : Prop :=
  ident_ok (ep_from e) ∧ ident_ok (ep_to e) ∧
  str_nonempty (ep_label e) = true ∧ no_sep (ep_label e).

Lemma segment_no_sep v : no_sep v → no_sep (segment v).
Proof.
  unfold no_sep, segment. intros Hv. rewrite str_includes_app. simpl. rewrite Hv.
  by rewrite num_to_string_free by (done || lia).
Qed.

Lemma legacyEdgeIdValue_ident e :
  no_sep (ep_from e) → no_sep (ep_to e) → no_sep (ep_label e) → ident_ok (legacyEdgeIdValue e).
Proof.
  intros H1%segment_no_sep H2%segment_no_sep H3%segment_no_sep. unfold no_sep in *.
  unfold legacyEdgeIdValue, colon_join. split; [done|]. split; [|done].
  unfold no_sep. rewrite str_includes_app. cbn [str_includes].
  rewrite str_includes_app. cbn [str_includes]. rewrite str_includes_app. cbn [str_includes].
  by rewrite H1, H2, H3.
Qed.

Lemma fromLegacyEdge_ok e r : fromLegacyEdge e = Ok r ↔ edge_ok e ∧ r = of_legacy e.
Proof.
  unfold fromLegacyEdge, edge_ok. split.
  - intros H. invert_ok. injection H as <-.
  apply edge_id_new in Ha as [[= Ei] Hi].
  apply node_id_new in Ha0 as [[= Ef] Hf], Ha1 as [[= Et] Ht].
  apply edge_type_id_new in Ha2 as [[= El] [Hl Hs]].
  split; [by rewrite Ef, Et, El|].
  unfold of_legacy. rewrite Ei, Ef, Et, El. by destruct a, a0, a1, a2.
  - intros [(Hf & Ht & Hl & Hs) ->].
  rewrite (proj2 (edge_id_new _ (EdgeId.mk (legacyEdgeIdValue e)))) by
    (split; [done|]; apply legacyEdgeIdValue_ident; [apply Hf|apply Ht|done]).
  rewrite (proj2 (node_id_new (Some (ep_from e)) (NodeId.mk (ep_from e)))) by (split; [done|exact Hf]).
  rewrite (proj2 (node_id_new (Some (ep_to e)) (NodeId.mk (ep_to e)))) by (split; [done|exact Ht]).
  by rewrite (proj2 (edge_type_id_new _ (EdgeTypeId.mk (ep_label e)))).
Qed.

(** *** Length prefixes make the edge id injective, whatever the segments hold *)

Lemma app_length_inj (a b s t : string) :
  String.length a = String.length b → a +:+ s = b +:+ t → a = b ∧ s = t.
Proof.
  revert b. induction a as [|x a IH]; intros [|y b]; try done.
  intros [= Hl] E. change (String x (a +:+ s) = String y (b +:+ t)) in E.
  injection E as -> E. by destruct (IH b Hl E) as [-> ->].
Qed.

Lemma split_first_inj c (a b s t : string) :
  str_includes c a = false → str_includes c b = false →
  a +:+ String c s = b +:+ String c t → a = b ∧ s = t.
Proof.
  revert b. induction a as [|x a IH]; intros [|y b]; intros Ha Hb E.
  - by injection E as ->.
  - change (String c s = String y (b +:+ String c t)) in E. injection E as -> _.
  simpl in Hb. by rewrite bool_decide_eq_true_2 in Hb.
  - change (String x (a +:+ String c s) = String c t) in E. injection E as -> _.
  simpl in Ha. by rewrite bool_decide_eq_true_2 in Ha.
  - change (String x (a +:+ String c s) = String y (b +:+ String c t)) in E.
  injection E as -> E. simpl in Ha, Hb. apply orb_false_elim in Ha as [_ Ha], Hb as [_ Hb].
  by destruct (IH b Ha Hb E) as [-> ->].
Qed.

Lemma segment_inj v w s t : segment v +:+ s = segment w +:+ t → v = w ∧ s = t.
Proof.
  unfold segment. rewrite !str_app_assoc. intros E.
  apply split_first_inj in E as [El E]; [|apply num_to_string_free; done || lia..].
  apply num_to_string_inj in El; [|lia..]. by apply app_length_inj in E; [|lia].
Qed.

Lemma legacyEdgeIdValue_inj e e' : legacyEdgeIdValue e = legacyEdgeIdValue e' → e = e'.
Proof.
  unfold legacyEdgeIdValue, colon_join. intros E.
  apply app_length_inj in E as [_ E]; [|done]. injection E as E.
  apply segment_inj in E as [Ef E]. injection E as E.
  apply segment_inj in E as [Et E]. injection E as E.
  assert (segment (ep_label e) +:+ "" = segment (ep_label e') +:+ "") as E' by by rewrite E.
  apply segment_inj in E' as [El _]. destruct e, e'; simpl in *. by subst.
Qed.

Lemma of_legacy_inj e e' : of_legacy e = of_legacy e' → e = e'.
Proof.
  intros E. apply legacyEdgeIdValue_inj. exact (f_equal (λ r, EdgeId.value (id r)) E).
Qed.
End EdgeRecord.

Module AttachmentRecord.
Import AttachmentKey AttachmentSchemaVersion.

(* @src domain/graph/AttachmentRecord.ts AttachmentOwnerRecord *)
Inductive AttachmentOwnerRecord : Type :=
  | NodeOwner (r : NodeRecord.NodeRecord)
  | EdgeOwner (r : EdgeRecord.EdgeRecord).

(* @src domain/graph/AttachmentRecord.ts AttachmentRecord 18-22 *)
Record AttachmentRecord := mk {
  owner : AttachmentOwnerRecord;
  key : AttachmentKey;
  value : jsval;
  schemaVersion : AttachmentSchemaVersion }.

#[global] Instance AttachmentOwnerRecord_eq_dec : EqDecision AttachmentOwnerRecord.
Proof. solve_decision. Defined.
#[global] Instance AttachmentRecord_eq_dec : EqDecision AttachmentRecord.
Proof. solve_decision. Defined.

(* @src domain/graph/AttachmentRecord.ts requireOwner *)
Definition requireOwner (value : option AttachmentOwnerRecord) : result AttachmentOwnerRecord :=
  instance_of value.
(* @src domain/graph/AttachmentRecord.ts requireKey *)
Definition requireKey (value : option AttachmentKey) : result AttachmentKey := instance_of value.
(* @src domain/graph/AttachmentRecord.ts requireValue *)
Definition requireValue (h : heap) (value : jsval) : result jsval :=
  match PropValue.isPropValue h value with
  | Some true => Ok value
  | _ => Throw E_VALIDATION
  end.
(* @src domain/graph/AttachmentRecord.ts requireSchemaVersion *)
Definition requireSchemaVersion (value : option AttachmentSchemaVersion)
  : result AttachmentSchemaVersion := instance_of value.

(* @src domain/graph/AttachmentRecord.ts constructor *)
Definition new (h : heap) (owner : option AttachmentOwnerRecord) (key : option AttachmentKey)
  (value : jsval) (schemaVersion : option AttachmentSchemaVersion) : result AttachmentRecord :=
  o ← requireOwner owner; k ← requireKey key; v ← requireValue h value;
  s ← requireSchemaVersion schemaVersion; Ok (mk o k v s).

(* @src domain/graph/AttachmentRecord.ts isNodeAttachment *)
Definition isNodeAttachment (r : AttachmentRecord) : bool :=
  match owner r with NodeOwner _ => true | EdgeOwner _ => false end.

(* @src domain/graph/AttachmentRecord.ts isEdgeAttachment *)
Definition isEdgeAttachment (r : AttachmentRecord) : bool :=
  match owner r with NodeOwner _ => false | EdgeOwner _ => true end.
End AttachmentRecord.

(** ** Properties *)

(** Legacy edges and their records determine each other: [fromLegacyEdge] accepts
    exactly the edges with identifier endpoints and a non-empty label without
    NUL, and the length-prefixed edge id separates any two edges, colons and
    digits in their parts notwithstanding. *)
Theorem legacy_edge_id_injective (e e' : edge_parts) :
  (∀ r, EdgeRecord.fromLegacyEdge e = Ok r ↔ EdgeRecord.edge_ok e ∧ r = EdgeRecord.of_legacy e) ∧
  (EdgeRecord.legacyEdgeIdValue e = EdgeRecord.legacyEdgeIdValue e' ↔ e = e').
Proof.
  split; [intros r; apply EdgeRecord.fromLegacyEdge_ok|].
  split; [apply EdgeRecord.legacyEdgeIdValue_inj|by intros ->].
Qed.

Example legacy_edge_id_sample :
  EdgeRecord.legacyEdgeIdValue (EdgeParts "a:1" "b" "knows") = "legacy-edge:3:a:1:1:b:5:knows".
Proof. reflexivity. Qed.
