(* ===== verification/WarpState.v ===== *)
(** The materialized state of a graph ([services/state/WarpState.ts]): the two
    alive sets, the property registers, the observed frontier and the birth
    events of edges; its queries, its mutations and its join. *)
From S2P Require Export Crdt Graph.

(** [n > z] for a raw number and an integer. *)
Definition jsnum_gtb (n : jsnum) (z : Z) : bool :=
  match n with
  | JInt x => z <? x
  | JFrac m e => if 0 <=? e then z <? m * 2 ^ e else z * 2 ^ (- e) <? m
  | JInf neg => negb neg
  | JNaN => false
  end.

Module WarpState.
Import ORSet LWW EventId.

Definition register : Type := LWWRegister jsval.

(* @src domain/services/state/WarpState.ts WarpState 53-73 *)
Record WarpState := mk {
  nodeAlive : ORSet;
  edgeAlive : ORSet;
  prop : gmap string register;
  observedFrontier : VersionVector.VersionVector;
  edgeBirthEvent : gmap string EventId }.

#[global] Instance WarpState_eq_dec : EqDecision WarpState.
Proof. solve_decision. Defined.

(* @src domain/services/state/WarpState.ts empty *)
Definition empty : WarpState := mk ORSet.empty ORSet.empty ∅ VersionVector.empty ∅.

(** *** Node queries *)

(** A [string | NodeId] argument. *)
(* @src domain/services/state/WarpState.ts normalizeNodeId *)
Definition normalizeNodeId (value : string + NodeId.NodeId) : result NodeId.NodeId :=
  match value with inr id => Ok id | inl v => NodeId.new (Some v) end.

(* @src domain/services/state/WarpState.ts normalizeEdgeId *)
Definition normalizeEdgeId (value : string + EdgeId.EdgeId) : result EdgeId.EdgeId :=
  match value with inr id => Ok id | inl v => EdgeId.new (Some v) end.

(* @src domain/services/state/WarpState.ts nodeRecords *)
Definition nodeRecords (s : WarpState) : result (list NodeRecord.NodeRecord) :=
  map_result (λ nodeId, NodeRecord.fromLegacyNodeId (Some nodeId))
  (js_sort compareStrings (elements (nodeAlive s))).

(* @src domain/services/state/WarpState.ts getNodeRecord *)
Definition getNodeRecord (s : WarpState) (nodeId : string + NodeId.NodeId)
  : result (option NodeRecord.NodeRecord) :=
  id ← normalizeNodeId nodeId;
  if contains (nodeAlive s) (NodeId.toString id)
  then Some <$> NodeRecord.fromLegacyNodeId (Some (NodeId.toString id))
  else Ok None.

(* @src domain/services/state/WarpState.ts hasNodeRecord *)
Definition hasNodeRecord (s : WarpState) (nodeId : string + NodeId.NodeId) : result bool :=
  r ← getNodeRecord s nodeId; Ok (bool_decide (is_Some r)).

(** *** Property registers *)

(* @src domain/services/state/WarpState.ts propSize *)
Definition propSize (s : WarpState) : nat := size (prop s).

(* @src domain/services/state/WarpState.ts hasProp *)
Definition hasProp (s : WarpState) (encodedKey : string) : bool :=
  bool_decide (is_Some (prop s !! encodedKey)).

(* @src domain/services/state/WarpState.ts hasNodeProp *)
Definition hasNodeProp (s : WarpState) (nodeId key : string) : bool :=
  bool_decide (is_Some (prop s !! encodePropKey nodeId key)).

(* @src domain/services/state/WarpState.ts getNodeProp *)
Definition getNodeProp (s : WarpState) (nodeId key : string) : option register :=
  prop s !! encodePropKey nodeId key.

(* @src domain/services/state/WarpState.ts getEdgeProp *)
Definition getEdgeProp (s : WarpState) (from to label key : string) : option register :=
  prop s !! encodeEdgePropKey from to label key.

(* @src domain/services/state/WarpState.ts getEncodedProp *)
Definition getEncodedProp (s : WarpState) (encodedKey : string) : option register :=
  prop s !! encodedKey.

(** [prop.set(key, lwwMax(prop.get(key), r))] *)
Definition prop_put (encodedKey : string) (r : register) (s : WarpState) : WarpState :=
  mk (nodeAlive s) (edgeAlive s)
   (match LWW.max (prop s !! encodedKey) (Some r) with
    | Some winner => <[encodedKey := winner]> (prop s)
    | None => prop s
    end) (observedFrontier s) (edgeBirthEvent s).

(* @src domain/services/state/WarpState.ts mutatePropLWW *)
Definition mutatePropLWW (encodedKey : string) (eventId : EventId) (value : jsval)
  (s : WarpState) : WarpState :=
  prop_put encodedKey (LWW.set eventId value) s.

(* @src domain/services/state/WarpState.ts mutatePropRegisterLWW *)
Definition mutatePropRegisterLWW (encodedKey : string) (r : register) (s : WarpState)
  : WarpState := prop_put encodedKey r s.

(* @src domain/services/state/WarpState.ts NodePropertyEntry *)
Record NodePropertyEntry := NodeProp {
  np_encodedKey : string; np_nodeId : string; np_key : string; np_register : register }.
(* @src domain/services/state/WarpState.ts EdgePropertyEntry *)
Record EdgePropertyEntry := EdgeProp {
  ep_encodedKey : string; ep_edge : edge_parts; ep_key : string; ep_register : register }.

(** The entries of a property map in iteration order. *)
Definition entries_of (m : gmap string register) : list (string * register) := map_to_list m.

Definition node_entry (e : string * register) : option NodePropertyEntry :=
  let '(encodedKey, r) := e in
  if isEdgePropKey encodedKey then None
  else let '(nodeId, key) := decodePropKey encodedKey in Some (NodeProp encodedKey nodeId key r).

(** One step of the generator: a yield or a throw. *)
Definition edge_entry (e : string * register) : option (result EdgePropertyEntry) :=
  let '(encodedKey, r) := e in
  if isEdgePropKey encodedKey
  then Some ('(edge, key) ← decodeEdgePropKey encodedKey; Ok (EdgeProp encodedKey edge key r))
  else None.

(* @src domain/services/state/WarpState.ts nodePropertiesFromMap *)
Definition nodePropertiesFromMap (m : gmap string register) : list NodePropertyEntry :=
  omap node_entry (entries_of m).

(* @src domain/services/state/WarpState.ts edgePropertiesFromMap *)
Definition edgePropertiesFromMap (m : gmap string register) : list (result EdgePropertyEntry) :=
  omap edge_entry (entries_of m).

(* @src domain/services/state/WarpState.ts nodeProperties *)
Definition nodeProperties (s : WarpState) : list NodePropertyEntry :=
  omap node_entry (entries_of (prop s)).

(* @src domain/services/state/WarpState.ts edgeProperties *)
Definition edgeProperties (s : WarpState) : list (result EdgePropertyEntry) :=
  omap edge_entry (entries_of (prop s)).

(* @src domain/services/state/WarpState.ts allPropEntries *)
Definition allPropEntries (s : WarpState) : list (string * register) := entries_of (prop s).

(** A live state, or a snapshot that only has the property map. *)
(* @src domain/services/state/WarpState.ts allPropEntriesFromState *)
Definition allPropEntriesFromState (state : WarpState + gmap string register)
  : list (string * register) :=
  match state with inl s => entries_of (prop s) | inr m => entries_of m end.

(* @src domain/services/state/WarpState.ts nodePropertiesFromState *)
Definition nodePropertiesFromState (state : WarpState + gmap string register)
  : list NodePropertyEntry := omap node_entry (allPropEntriesFromState state).

(* @src domain/services/state/WarpState.ts edgePropertiesFromState *)
Definition edgePropertiesFromState (state : WarpState + gmap string register)
  : list (result EdgePropertyEntry) := omap edge_entry (allPropEntriesFromState state).

(** *** Edge queries *)

(* @src domain/services/state/WarpState.ts compareEdgeRecords *)
Definition compareEdgeRecords (left right : EdgeRecord.EdgeRecord) : Z :=
  compareStrings (EdgeId.toString (EdgeRecord.id left)) (EdgeId.toString (EdgeRecord.id right)).

(** [!this.hasNodeRecord(edge.from) || !this.hasNodeRecord(edge.to)], negated;
    the second call is not made when the first says no. *)
Definition has_endpoints (s : WarpState) (edge : edge_parts) : result bool :=
  b ← hasNodeRecord s (inl (ep_from edge));
  if b : bool then hasNodeRecord s (inl (ep_to edge)) else Ok false.

(** The record of one alive edge key, [None] for [continue]. *)
Definition edge_record_step (s : WarpState) (edgeKey : string)
  : result (option EdgeRecord.EdgeRecord) :=
  let edge := decodeEdgeKey edgeKey in
  b ← has_endpoints s edge;
  if b : bool then Some <$> EdgeRecord.fromLegacyEdge edge else Ok None.

(* @src domain/services/state/WarpState.ts edgeRecords *)
Definition edgeRecords (s : WarpState) : result (list EdgeRecord.EdgeRecord) :=
  records ← map_result (edge_record_step s) (elements (edgeAlive s));
  Ok (js_sort compareEdgeRecords (omap id records)).

(* @src domain/services/state/WarpState.ts getEdgeRecord *)
Definition getEdgeRecord (s : WarpState) (edgeId : string + EdgeId.EdgeId)
  : result (option EdgeRecord.EdgeRecord) :=
  id ← normalizeEdgeId edgeId;
  records ← edgeRecords s;
  Ok (snd <$> list_find (λ r, EdgeId.equals (EdgeRecord.id r) id) records).

(* @src domain/services/state/WarpState.ts hasEdgeRecord *)
Definition hasEdgeRecord (s : WarpState) (edgeId : string + EdgeId.EdgeId) : result bool :=
  r ← getEdgeRecord s edgeId; Ok (bool_decide (is_Some r)).

(** *** Attachments *)

(* @src domain/services/state/WarpState.ts isStaleEdgeAttachment *)
Definition isStaleEdgeAttachment (r : register) (birthEvent : option EventId) : bool :=
  match birthEvent with
  | None => false
  | Some b => compareEventIds (eventId r) b <? 0
  end.

(* @src domain/services/state/WarpState.ts nodeAttachmentRecordForProperty *)
Definition nodeAttachmentRecordForProperty (h : heap) (s : WarpState) (propKey : string)
  (r : register) : result (option AttachmentRecord.AttachmentRecord) :=
  let '(nodeId, key) := decodePropKey propKey in
  owner ← getNodeRecord s (inl nodeId);
  match owner with
  | None => Ok None
  | Some owner =>
    k ← AttachmentKey.new (Some key);
    v ← AttachmentSchemaVersion.current;
    Some <$> AttachmentRecord.new h (Some (AttachmentRecord.NodeOwner owner)) (Some k)
               (value r) (Some v)
  end.

(* @src domain/services/state/WarpState.ts edgeAttachmentRecordForProperty *)
Definition edgeAttachmentRecordForProperty (h : heap) (s : WarpState) (propKey : string)
  (r : register) : result (option AttachmentRecord.AttachmentRecord) :=
  '(edge, key) ← decodeEdgePropKey propKey;
  let edgeKey := encodeEdgeKey (ep_from edge) (ep_to edge) (ep_label edge) in
  if isStaleEdgeAttachment r (edgeBirthEvent s !! edgeKey) then Ok None
  else if negb (contains (edgeAlive s) edgeKey) then Ok None
  else
  b ← has_endpoints s edge;
  if negb b then Ok None
  else
    owner ← EdgeRecord.fromLegacyEdge edge;
    k ← AttachmentKey.new (Some key);
    v ← AttachmentSchemaVersion.current;
    Some <$> AttachmentRecord.new h (Some (AttachmentRecord.EdgeOwner owner)) (Some k)
               (value r) (Some v).

(* @src domain/services/state/WarpState.ts attachmentRecordForProperty *)
Definition attachmentRecordForProperty (h : heap) (s : WarpState) (propKey : string)
  (r : register) : result (option AttachmentRecord.AttachmentRecord) :=
  if isEdgePropKey propKey then edgeAttachmentRecordForProperty h s propKey r
  else nodeAttachmentRecordForProperty h s propKey r.

(* @src domain/services/state/WarpState.ts attachmentRecordSortKey *)
Definition attachmentRecordSortKey (r : AttachmentRecord.AttachmentRecord) : string :=
  let suffix id := id +:+ String ":" (AttachmentKey.toString (AttachmentRecord.key r)) in
  match AttachmentRecord.owner r with
  | AttachmentRecord.NodeOwner n => "node:" +:+ suffix (NodeId.toString (NodeRecord.id n))
  | AttachmentRecord.EdgeOwner e => "edge:" +:+ suffix (EdgeId.toString (EdgeRecord.id e))
  end.

(* @src domain/services/state/WarpState.ts compareAttachmentRecords *)
Definition compareAttachmentRecords (left right : AttachmentRecord.AttachmentRecord) : Z :=
  compareStrings (attachmentRecordSortKey left) (attachmentRecordSortKey right).

(** [attachmentRecords] for the iteration order [entries] of the map. *)
Definition attachmentRecords_in (h : heap) (s : WarpState) (entries : list (string * register))
  : result (list AttachmentRecord.AttachmentRecord) :=
  records ← map_result (λ '(propKey, r), attachmentRecordForProperty h s propKey r) entries;
  Ok (js_sort compareAttachmentRecords (omap id records)).

(* @src domain/services/state/WarpState.ts attachmentRecords *)
Definition attachmentRecords (h : heap) (s : WarpState)
  : result (list AttachmentRecord.AttachmentRecord) :=
  attachmentRecords_in h s (entries_of (prop s)).

(** *** Copies and joins *)

(* @src domain/services/state/WarpState.ts clone *)
Definition clone (s : WarpState) : WarpState :=
  mk (ORSet.clone (nodeAlive s)) (ORSet.clone (edgeAlive s)) (prop s)
   (VersionVector.clone (observedFrontier s)) (edgeBirthEvent s).

(** A snapshot that is not an instance: [edgeBirthEvent] may be missing. *)
Record snapshot := Snapshot {
  sn_nodeAlive : ORSet; sn_edgeAlive : ORSet; sn_prop : gmap string register;
  sn_observedFrontier : VersionVector.VersionVector;
  sn_edgeBirthEvent : option (gmap string EventId) }.

(* @src domain/services/state/WarpState.ts cloneFromSnapshot *)
Definition cloneFromSnapshot (state : WarpState + snapshot) : WarpState :=
  match state with
  | inl s => clone s
  | inr s =>
    mk (ORSet.clone (sn_nodeAlive s)) (ORSet.clone (sn_edgeAlive s)) (sn_prop s)
       (VersionVector.clone (sn_observedFrontier s)) (default ∅ (sn_edgeBirthEvent s))
  end.

Definition prop_upsert (regA : option register) (regB : register) : register :=
  default regB (LWW.max regA (Some regB)).

(* @src domain/services/state/WarpState.ts _mergeProps *)
Definition mergeProps (a b : gmap string register) : gmap string register :=
  map_upsert prop_upsert a b.

Definition birth_upsert (existing : option EventId) (e : EventId) : EventId :=
  match existing with
  | None => e
  | Some x => if 0 <? compareEventIds e x then e else x
  end.

(* @src domain/services/state/WarpState.ts _mergeEdgeBirthEvent *)
Definition mergeEdgeBirthEvent (a b : gmap string EventId) : gmap string EventId :=
  map_upsert birth_upsert a b.

(* @src domain/services/state/WarpState.ts join *)
Definition join (s other : WarpState) : WarpState :=
  mk (ORSet.join (nodeAlive s) (nodeAlive other)) (ORSet.join (edgeAlive s) (edgeAlive other))
   (mergeProps (prop s) (prop other))
   (VersionVector.merge (observedFrontier s) (observedFrontier other))
   (mergeEdgeBirthEvent (edgeBirthEvent s) (edgeBirthEvent other)).

Definition with_frontier (vv : VersionVector.VersionVector) (s : WarpState) : WarpState :=
  mk (nodeAlive s) (edgeAlive s) (prop s) vv (edgeBirthEvent s).

(** The context as a vector: an instance is used as it is, [null] is empty. *)
Definition context_vector (context : option VersionVector.source)
  : result VersionVector.VersionVector :=
  match context with
  | Some (VersionVector.SVector vv) => Ok vv
  | Some src => VersionVector.from src
  | None => VersionVector.from (VersionVector.SObject [])
  end.

(* @src domain/services/state/WarpState.ts foldPatch *)
Definition foldPatch (writer : string) (lamport : jsnum) (context : option VersionVector.source)
  : step WarpState unit := λ s,
  match context_vector context with
  | Throw e => (s, Throw e)
  | Ok contextVV =>
    let merged := VersionVector.merge (observedFrontier s) contextVV in
    let current := default 0 (VersionVector.get merged writer) in
    if jsnum_gtb lamport current
    then let '(vv, r) := VersionVector.set writer lamport merged in (with_frontier vv s, r)
    else (with_frontier merged s, Ok ())
  end.

(** ** The join *)

Definition birth_max (x e : EventId) : EventId :=
  if 0 <? compareEventIds e x then e else x.

Lemma prop_upsert_of : upsert_of prop_upsert LWW.join.
Proof. done. Qed.
Lemma birth_upsert_of : upsert_of birth_upsert birth_max.
Proof. done. Qed.

Lemma birth_max_join x e :
  birth_max x e = eventId (LWW.join (LWW.mk x ()) (LWW.mk e ())).
Proof.
  unfold birth_max, LWW.join; simpl. rewrite (cmp_opp (cmp:=compareEventIds) x e).
  destruct (Z.ltb_spec 0 (- compareEventIds x e)), (Z.leb_spec 0 (compareEventIds x e)); done || lia.
Qed.

Lemma unit_register (r : LWWRegister ()) : LWW.mk (eventId r) () = r.
Proof. by destruct r as [? []]. Qed.

Lemma birth_max_comm x e : birth_max x e = birth_max e x.
Proof. rewrite !birth_max_join. by rewrite lww_join_comm. Qed.
Lemma birth_max_idemp x : birth_max x x = x.
Proof. rewrite birth_max_join. by rewrite lww_join_idemp. Qed.
Lemma birth_max_assoc x y z : birth_max (birth_max x y) z = birth_max x (birth_max y z).
Proof. rewrite !birth_max_join, !unit_register. by rewrite lww_join_assoc. Qed.

(** Registers of one key with one event id hold one value. *)
Definition agree (a b : WarpState) : Prop :=
  ∀ k ra rb, prop a !! k = Some ra → prop b !! k = Some rb → LWW.agree ra rb.

Definition wf (s : WarpState) : Prop := VersionVector.wf (observedFrontier s).

Lemma ws_join_wf a b : wf a → wf b → wf (join a b).
Proof. apply VersionVector.vv_merge_wf. Qed.

Lemma lookup_mergeProps a b k :
  mergeProps a b !! k = union_with (λ u v, Some (LWW.join u v)) (a !! k) (b !! k).
Proof. apply (lookup_map_upsert_join prop_upsert LWW.join), prop_upsert_of. Qed.

Lemma mergeProps_comm a b :
  (∀ k ra rb, a !! k = Some ra → b !! k = Some rb → LWW.agree ra rb) →
  mergeProps a b = mergeProps b a.
Proof.
  intros Ha. apply (map_upsert_comm _ LWW.join); [apply prop_upsert_of|].
  intros k u v Hu Hv. apply lww_join_comm. by apply (Ha k).
Qed.

Lemma mergeProps_assoc a b c : mergeProps (mergeProps a b) c = mergeProps a (mergeProps b c).
Proof. apply (map_upsert_assoc _ LWW.join); [apply prop_upsert_of|]. apply lww_join_assoc. Qed.

Lemma mergeEdgeBirthEvent_comm a b : mergeEdgeBirthEvent a b = mergeEdgeBirthEvent b a.
Proof.
  apply (map_upsert_comm _ birth_max); [apply birth_upsert_of|]. intros. apply birth_max_comm.
Qed.

Lemma mergeEdgeBirthEvent_assoc a b c :
  mergeEdgeBirthEvent (mergeEdgeBirthEvent a b) c = mergeEdgeBirthEvent a (mergeEdgeBirthEvent b c).
Proof. apply (map_upsert_assoc _ birth_max); [apply birth_upsert_of|]. apply birth_max_assoc. Qed.

Lemma ws_join_comm a b : wf a → wf b → agree a b → join a b = join b a.
Proof.
  intros Ha Hb Hag. unfold join. f_equal.
  - apply or_join_comm.
  - apply or_join_comm.
  - by apply mergeProps_comm.
  - by apply VersionVector.vv_merge_comm.
  - apply mergeEdgeBirthEvent_comm.
Qed.

Lemma ws_join_assoc a b c :
  wf a → wf b → wf c → join (join a b) c = join a (join b c).
Proof.
  intros Ha Hb Hc. unfold join; simpl. f_equal.
  - apply or_join_assoc.
  - apply or_join_assoc.
  - apply mergeProps_assoc.
  - by apply VersionVector.vv_merge_assoc.
  - apply mergeEdgeBirthEvent_assoc.
Qed.

Lemma ws_clone_eq s : clone s = with_frontier (VersionVector.clone (observedFrontier s)) s.
Proof. unfold clone. by rewrite !or_clone_id. Qed.

Lemma ws_join_idemp a : wf a → join a a = clone a.
Proof.
  intros Ha. rewrite ws_clone_eq. unfold join, with_frontier. f_equal.
  - apply or_join_idemp.
  - apply or_join_idemp.
  - apply (map_upsert_idemp _ LWW.join); [apply prop_upsert_of|]. apply lww_join_idemp.
  - by apply VersionVector.vv_merge_idemp.
  - apply (map_upsert_idemp _ birth_max); [apply birth_upsert_of|]. apply birth_max_idemp.
Qed.

Lemma ws_join_empty_l a : wf a → join empty a = clone a.
Proof.
  intros Ha. rewrite ws_clone_eq. unfold join, with_frontier; simpl. f_equal.
  - apply or_join_empty_l.
  - apply or_join_empty_l.
  - by apply (map_upsert_empty_l _ LWW.join).
  - apply VersionVector.vv_merge_empty_l, Ha.
  - by apply (map_upsert_empty_l _ birth_max).
Qed.

(** ** Visibility *)

Definition key_of (e : edge_parts) : string := encodeEdgeKey (ep_from e) (ep_to e) (ep_label e).
Definition edge_prop_key (e : edge_parts) (k : string) : string :=
  encodeEdgePropKey (ep_from e) (ep_to e) (ep_label e) k.

(** The keys of a state built by validated operations. *)
Definition nodes_ok (s : WarpState) : Prop :=
  ∀ n, contains (nodeAlive s) n = true → ident_ok n.
Definition edges_ok (s : WarpState) : Prop :=
  ∀ k, contains (edgeAlive s) k = true → ∃ e, EdgeRecord.edge_ok e ∧ k = key_of e.

(** An edge is visible when it and both its endpoints are alive. *)
Definition endpoints_alive (s : WarpState) (e : edge_parts) : bool :=
  contains (nodeAlive s) (ep_from e) && contains (nodeAlive s) (ep_to e).
Definition visible (s : WarpState) (e : edge_parts) : bool :=
  contains (edgeAlive s) (key_of e) && endpoints_alive s e.

Lemma edge_ok_decode e : EdgeRecord.edge_ok e → decodeEdgeKey (key_of e) = e.
Proof.
  intros ((_&?&_) & (_&?&_) & _ & ?). destruct e. by apply decode_edge_key.
Qed.

Lemma key_of_inj e e' :
  EdgeRecord.edge_ok e → EdgeRecord.edge_ok e' → key_of e = key_of e' → e = e'.
Proof. intros He He' E. by rewrite <- (edge_ok_decode e), E, edge_ok_decode. Qed.

Lemma getNodeRecord_ok s n :
  ident_ok n →
  getNodeRecord s (inl n)
  = Ok (if contains (nodeAlive s) n then Some (NodeRecord.of_legacy n) else None).
Proof.
  intros Hn. unfold getNodeRecord, normalizeNodeId.
  rewrite (proj2 (NodeId.node_id_new (Some n) (NodeId.mk n))) by done. simpl.
  destruct (contains _ _); [|done].
  by rewrite (proj2 (NodeRecord.fromLegacyNodeId_ok n (NodeRecord.of_legacy n))).
Qed.

Lemma has_endpoints_ok s e :
  ident_ok (ep_from e) → ident_ok (ep_to e) → has_endpoints s e = Ok (endpoints_alive s e).
Proof.
  intros Hf Ht. unfold has_endpoints, hasNodeRecord, endpoints_alive.
  rewrite !getNodeRecord_ok by done. simpl.
  destruct (contains _ (ep_from e)); simpl; [|done]. by destruct (contains _ (ep_to e)).
Qed.

Lemma edge_record_step_ok s e :
  EdgeRecord.edge_ok e →
  edge_record_step s (key_of e)
  = Ok (if endpoints_alive s e then Some (EdgeRecord.of_legacy e) else None).
Proof.
  intros He. unfold edge_record_step. rewrite edge_ok_decode by done.
  rewrite has_endpoints_ok by apply He. simpl. destruct (endpoints_alive s e); [|done].
  by rewrite (proj2 (EdgeRecord.fromLegacyEdge_ok e (EdgeRecord.of_legacy e))).
Qed.

(** The record an alive edge key contributes. *)
Definition edge_record_of (s : WarpState) (k : string) : option EdgeRecord.EdgeRecord :=
  let e := decodeEdgeKey k in
  if endpoints_alive s e then Some (EdgeRecord.of_legacy e) else None.

Definition edge_list (s : WarpState) : list EdgeRecord.EdgeRecord :=
  omap (edge_record_of s) (elements (edgeAlive s)).

Lemma edgeRecords_eq s :
  edges_ok s → edgeRecords s = Ok (js_sort compareEdgeRecords (edge_list s)).
Proof.
  intros He. unfold edgeRecords.
  rewrite (map_result_fmap _ (edge_record_of s)).
  - simpl. unfold edge_list. do 2 f_equal. by rewrite omap_id_fmap.
  - intros k Hk%ORSet.elem_of_elements. destruct (He k Hk) as (e & He' & ->).
  rewrite edge_record_step_ok by done. unfold edge_record_of. by rewrite edge_ok_decode.
Qed.

Lemma elem_of_edge_list s r :
  edges_ok s →
  r ∈ edge_list s ↔
  ∃ e, EdgeRecord.edge_ok e ∧ visible s e = true ∧ r = EdgeRecord.of_legacy e.
Proof.
  intros He. unfold edge_list. rewrite list_elem_of_omap. unfold visible. split.
  - intros (k & Hk%ORSet.elem_of_elements & Hr). destruct (He k Hk) as (e & He' & ->).
  unfold edge_record_of in Hr. rewrite edge_ok_decode in Hr by done.
  destruct (endpoints_alive s e) eqn:E; [|done]. injection Hr as <-.
  exists e. rewrite Hk, E. done.
  - intros (e & He' & [Hv E]%andb_true_iff & ->). exists (key_of e).
  split; [by apply ORSet.elem_of_elements|].
  unfold edge_record_of. rewrite edge_ok_decode by done. by rewrite E.
Qed.

Lemma edge_list_id_inj s r r' :
  edges_ok s → r ∈ edge_list s → r' ∈ edge_list s →
  EdgeId.toString (EdgeRecord.id r) = EdgeId.toString (EdgeRecord.id r') → r = r'.
Proof.
  intros He (e & _ & _ & ->)%elem_of_edge_list (e' & _ & _ & ->)%elem_of_edge_list; [|done..].
  simpl. by intros ->%EdgeRecord.legacyEdgeIdValue_inj.
Qed.

Lemma edge_list_NoDup s : edges_ok s → NoDup (edge_list s).
Proof.
  intros He. unfold edge_list. pose proof (ORSet.elements_NoDup (edgeAlive s)) as Hnd.
  assert (∀ k, k ∈ elements (edgeAlive s) → ∃ e, EdgeRecord.edge_ok e ∧ k = key_of e) as Hk
  by (intros k Hk%ORSet.elem_of_elements; by apply He).
  induction Hnd as [|k l Hni Hnd IH]; csimpl; [constructor|].
  destruct (Hk k) as (e & Hek & ->); [set_solver|].
  assert (NoDup (omap (edge_record_of s) l)) by (apply IH; set_solver).
  unfold edge_record_of at 1. rewrite edge_ok_decode by done.
  destruct (endpoints_alive s e); [|done]. constructor; [|done].
  intros (k' & Hin & Hr)%list_elem_of_omap. destruct (Hk k') as (e' & He' & ->); [set_solver|].
  unfold edge_record_of in Hr. rewrite edge_ok_decode in Hr by done.
  destruct (endpoints_alive s e'); [|done].
  apply (inj Some), EdgeRecord.of_legacy_inj in Hr. by subst.
Qed.

(** *** Attachments *)

Definition prop_name_ok (p : string) : Prop := str_nonempty p = true ∧ no_sep p.

(** Property keys and values as validated operations write them. *)
Definition props_ok (h : heap) (s : WarpState) : Prop :=
  ∀ k r, prop s !! k = Some r →
  PropValue.isPropValue h (value r) = Some true ∧
  ((∃ n p, ident_ok n ∧ prop_name_ok p ∧ k = encodePropKey n p) ∨
   (∃ e p, EdgeRecord.edge_ok e ∧ prop_name_ok p ∧ k = edge_prop_key e p)).

Definition attachment (owner : AttachmentRecord.AttachmentOwnerRecord) (p : string) (v : jsval)
  : AttachmentRecord.AttachmentRecord :=
  AttachmentRecord.mk owner (AttachmentKey.mk p) v (AttachmentSchemaVersion.mk 1).
Definition node_attachment (n p : string) (v : jsval) : AttachmentRecord.AttachmentRecord :=
  attachment (AttachmentRecord.NodeOwner (NodeRecord.of_legacy n)) p v.
Definition edge_attachment (e : edge_parts) (p : string) (v : jsval)
  : AttachmentRecord.AttachmentRecord :=
  attachment (AttachmentRecord.EdgeOwner (EdgeRecord.of_legacy e)) p v.

(** An edge property counts when the edge is visible and the register is not
    older than the birth of the edge. *)
Definition edge_prop_visible (s : WarpState) (e : edge_parts) (r : register) : bool :=
  negb (isStaleEdgeAttachment r (edgeBirthEvent s !! key_of e)) && visible s e.

Lemma edge_prop_visible_spec s e r :
  edge_prop_visible s e r = true ↔
  visible s e = true ∧
  ∀ b, edgeBirthEvent s !! key_of e = Some b → 0 <= compareEventIds (eventId r) b.
Proof.
  unfold edge_prop_visible, isStaleEdgeAttachment. rewrite andb_true_iff, negb_true_iff.
  destruct (edgeBirthEvent s !! key_of e) as [b|].
  - rewrite Z.ltb_ge. split; [intros [Hb Hv]; split; [done|by intros ? [= <-]]|].
    intros [Hv Hb]. split; [by apply Hb|done].
  - split; [intros [_ Hv]; by split|intros [Hv _]; by split].
Qed.

Lemma encodePropKey_node n p : ident_ok n → isEdgePropKey (encodePropKey n p) = false.
Proof.
  intros (Hne & _ & Hp). unfold isEdgePropKey, starts_with_prefix, encodePropKey in *.
  by destruct n.
Qed.

Lemma attachment_new h owner p v :
  prop_name_ok p → PropValue.isPropValue h v = Some true →
  (k ← AttachmentKey.new (Some p); ver ← AttachmentSchemaVersion.current;
  Some <$> AttachmentRecord.new h (Some owner) (Some k) v (Some ver))
  = Ok (Some (attachment owner p v)).
Proof.
  intros [Hp Hs] Hv. rewrite (proj2 (AttachmentKey.attachment_key_new (Some p) (AttachmentKey.mk p)))
  by done. simpl. unfold AttachmentRecord.new, AttachmentRecord.requireValue. simpl. by rewrite Hv.
Qed.

Lemma node_prop_attachment h s n p r :
  ident_ok n → prop_name_ok p → PropValue.isPropValue h (value r) = Some true →
  attachmentRecordForProperty h s (encodePropKey n p) r
  = Ok (if contains (nodeAlive s) n then Some (node_attachment n p (value r)) else None).
Proof.
  intros Hn Hp Hv. unfold attachmentRecordForProperty. rewrite encodePropKey_node by done.
  unfold nodeAttachmentRecordForProperty. rewrite decode_prop_key by (apply Hn || apply Hp).
  rewrite getNodeRecord_ok by done. cbn [mbind result_bind].
  destruct (contains _ _); [|done]. by apply attachment_new.
Qed.

Lemma edge_prop_attachment h s e p r :
  EdgeRecord.edge_ok e → prop_name_ok p → PropValue.isPropValue h (value r) = Some true →
  attachmentRecordForProperty h s (edge_prop_key e p) r
  = Ok (if edge_prop_visible s e r then Some (edge_attachment e p (value r)) else None).
Proof.
  intros He Hp Hv. pose proof He as ((_&?&_) & (_&?&_) & _ & ?).
  unfold attachmentRecordForProperty, edge_prop_visible, visible. change (isEdgePropKey _) with true.
  unfold edgeAttachmentRecordForProperty, edge_prop_key.
  rewrite decode_edge_prop_key by (done || apply Hp). cbn [mbind result_bind].
  destruct e as [f t l]; cbn [ep_from ep_to ep_label] in *. fold (key_of (EdgeParts f t l)).
  destruct (isStaleEdgeAttachment _ _); [done|].
  destruct (contains (edgeAlive s) _); [|done]. cbn [negb andb].
  rewrite has_endpoints_ok by apply He. cbn [mbind result_bind].
  destruct (endpoints_alive s _); [|done]. cbn [negb].
  rewrite (proj2 (EdgeRecord.fromLegacyEdge_ok _ (EdgeRecord.of_legacy (EdgeParts f t l)))) by done.
  cbn [mbind result_bind]. by apply attachment_new.
Qed.

(** What one entry of the property map contributes. *)
Definition attachment_of (s : WarpState) (kr : string * register)
  : option AttachmentRecord.AttachmentRecord :=
  let '(k, r) := kr in
  if isEdgePropKey k then
  match decodeEdgePropKey k with
  | Ok (e, p) => if edge_prop_visible s e r then Some (edge_attachment e p (value r)) else None
  | Throw _ => None
  end
  else let '(n, p) := decodePropKey k in
     if contains (nodeAlive s) n then Some (node_attachment n p (value r)) else None.

Lemma attachment_of_node s n p r :
  ident_ok n → prop_name_ok p →
  attachment_of s (encodePropKey n p, r)
  = if contains (nodeAlive s) n then Some (node_attachment n p (value r)) else None.
Proof.
  intros Hn Hp. unfold attachment_of. rewrite encodePropKey_node by done.
  by rewrite decode_prop_key by (apply Hn || apply Hp).
Qed.

Lemma attachment_of_edge s e p r :
  EdgeRecord.edge_ok e → prop_name_ok p →
  attachment_of s (edge_prop_key e p, r)
  = if edge_prop_visible s e r then Some (edge_attachment e p (value r)) else None.
Proof.
  intros ((_&?&_) & (_&?&_) & _ & ?) Hp. unfold attachment_of, edge_prop_key.
  change (isEdgePropKey _) with true.
  rewrite decode_edge_prop_key by (done || apply Hp). by destruct e.
Qed.

Lemma attachment_of_spec h s k r :
  props_ok h s → prop s !! k = Some r →
  attachmentRecordForProperty h s k r = Ok (attachment_of s (k, r)).
Proof.
  intros Hok Hk. destruct (Hok k r Hk) as [Hv [(n & p & Hn & Hp & ->)|(e & p & He & Hp & ->)]].
  - by rewrite node_prop_attachment, attachment_of_node.
  - by rewrite edge_prop_attachment, attachment_of_edge.
Qed.

Lemma attachmentRecords_eq h s entries :
  props_ok h s → entries ≡ₚ map_to_list (prop s) →
  attachmentRecords_in h s entries
  = Ok (js_sort compareAttachmentRecords (omap (attachment_of s) entries)).
Proof.
  intros Hok Hp. unfold attachmentRecords_in.
  rewrite (map_result_fmap _ (attachment_of s)).
  - cbn [mbind result_bind]. by rewrite omap_id_fmap.
  - intros [k r]. rewrite Hp. intros Hk%elem_of_map_to_list. by apply (attachment_of_spec h).
Qed.
End WarpState.

(** ** Properties *)

(** C15. The join of states is commutative, associative and idempotent up to
    [clone], with the empty state as unit, on states with a valid frontier
    whose registers agree on equal event ids. *)
Theorem warp_state_join_semilattice (a b c : WarpState.WarpState) :
  WarpState.wf a → WarpState.wf b → WarpState.wf c → WarpState.agree a b →
  WarpState.join a b = WarpState.join b a ∧
  WarpState.join (WarpState.join a b) c = WarpState.join a (WarpState.join b c) ∧
  WarpState.join a a = WarpState.clone a ∧
  WarpState.join WarpState.empty a = WarpState.clone a ∧
  WarpState.wf (WarpState.join a b) ∧
  (∀ n, ORSet.contains (WarpState.nodeAlive (WarpState.join a b)) n = true →
     ORSet.contains (WarpState.nodeAlive a) n = true ∨
     ORSet.contains (WarpState.nodeAlive b) n = true).
Proof.
  intros Ha Hb Hc Hag. split_and!.
  - by apply WarpState.ws_join_comm.
  - by apply WarpState.ws_join_assoc.
  - by apply WarpState.ws_join_idemp.
  - by apply WarpState.ws_join_empty_l.
  - by apply WarpState.ws_join_wf.
  - intros n. simpl. rewrite !ORSet.contains_live. unfold ORSet.live.
    rewrite ORSet.dots_of_join, ORSet.tombstones_join. set_solver.
Qed.

(** The edge records of a state with valid keys are exactly its visible edges
    (alive with both endpoints alive: no record dangles), in strictly
    ascending order of their ids, and a lookup by id finds exactly the visible
    edge with that id. *)
Theorem edge_records_are_visible_edges (s : WarpState.WarpState) :
  WarpState.edges_ok s →
  ∃ rs, WarpState.edgeRecords s = Ok rs ∧
    (∀ r, r ∈ rs ↔ ∃ e, EdgeRecord.edge_ok e ∧ WarpState.visible s e = true ∧
                        r = EdgeRecord.of_legacy e) ∧
    Sorted (λ x y, WarpState.compareEdgeRecords x y < 0) rs ∧
    (∀ e, EdgeRecord.edge_ok e →
       WarpState.getEdgeRecord s (inl (EdgeRecord.legacyEdgeIdValue e))
       = Ok (if WarpState.visible s e then Some (EdgeRecord.of_legacy e) else None)).
Proof.
  intros He. eexists. split; [by apply WarpState.edgeRecords_eq|].
  assert (∀ r, r ∈ js_sort WarpState.compareEdgeRecords (WarpState.edge_list s) ↔
    ∃ e, EdgeRecord.edge_ok e ∧ WarpState.visible s e = true ∧ r = EdgeRecord.of_legacy e) as Hin
    by (intros r; by rewrite elem_of_js_sort, WarpState.elem_of_edge_list).
  split; [done|]. split.
  - apply (sort_key_strict (λ r, EdgeId.toString (EdgeRecord.id r)));
      [by apply WarpState.edge_list_NoDup|].
    intros. by apply (WarpState.edge_list_id_inj s).
  - intros e Hok. unfold WarpState.getEdgeRecord, WarpState.normalizeEdgeId.
    rewrite (proj2 (EdgeId.edge_id_new _ (EdgeId.mk (EdgeRecord.legacyEdgeIdValue e)))) by
      (split; [done|]; apply EdgeRecord.legacyEdgeIdValue_ident; [apply Hok..]).
    cbn [mbind result_bind]. rewrite WarpState.edgeRecords_eq by done.
    cbn [mbind result_bind]. f_equal.
    destruct (list_find _ _) as [[i r]|] eqn:Ef; cbn.
    + apply list_find_Some in Ef as (Hl & Hr & _).
      apply Is_true_true, String.eqb_eq in Hr.
      apply list_elem_of_lookup_2, Hin in Hl as (e' & _ & Hv & ->).
      apply EdgeRecord.legacyEdgeIdValue_inj in Hr as ->. by rewrite Hv.
    + rewrite list_find_None, Forall_forall in Ef.
      destruct (WarpState.visible s e) eqn:Hv; [|done].
      destruct (Ef (EdgeRecord.of_legacy e)); [apply Hin; by exists e|].
      apply Is_true_true, String.eqb_eq. done.
Qed.

(** The attachment records of a valid state, for any iteration order of the
    property map, are the properties of live nodes and the properties of
    visible edges written no earlier than the edge's last birth; the result
    does not depend on that order as long as the sort keys of different
    records differ. *)
Theorem attachment_records_visible (h : heap) (s : WarpState.WarpState)
    (entries : list (string * WarpState.register)) :
  WarpState.props_ok h s → entries ≡ₚ map_to_list (WarpState.prop s) →
  ∃ rs, WarpState.attachmentRecords_in h s entries = Ok rs ∧
    (∀ a, a ∈ rs ↔
       (∃ n p r, ident_ok n ∧ WarpState.prop_name_ok p ∧
          WarpState.getNodeProp s n p = Some r ∧
          ORSet.contains (WarpState.nodeAlive s) n = true ∧
          a = WarpState.node_attachment n p (LWW.value r)) ∨
       (∃ e p r, EdgeRecord.edge_ok e ∧ WarpState.prop_name_ok p ∧
          WarpState.getEdgeProp s (ep_from e) (ep_to e) (ep_label e) p = Some r ∧
          WarpState.visible s e = true ∧
          (∀ b, WarpState.edgeBirthEvent s !! WarpState.key_of e = Some b →
             0 <= EventId.compareEventIds (LWW.eventId r) b) ∧
          a = WarpState.edge_attachment e p (LWW.value r))) ∧
    ((∀ a b, a ∈ rs → b ∈ rs →
        WarpState.attachmentRecordSortKey a = WarpState.attachmentRecordSortKey b → a = b) →
     WarpState.attachmentRecords h s = Ok rs).
Proof.
  intros Hok Hp. eexists. split; [by apply WarpState.attachmentRecords_eq|]. split.
  - intros a. rewrite elem_of_js_sort, list_elem_of_omap. setoid_rewrite Hp. split.
    + intros ([k r] & Hk%elem_of_map_to_list & Ha).
      destruct (Hok k r Hk) as [_ [(n & p & Hn & Hnp & ->)|(e & p & He & Hnp & ->)]].
      * rewrite WarpState.attachment_of_node in Ha by done.
        destruct (ORSet.contains _ n) eqn:Hc; [|done]. injection Ha as <-. left.
        by exists n, p, r.
      * rewrite WarpState.attachment_of_edge in Ha by done.
        destruct (WarpState.edge_prop_visible s e r) eqn:Hc; [|done]. injection Ha as <-. right.
        apply WarpState.edge_prop_visible_spec in Hc as [Hv Hb]. by exists e, p, r.
    + intros [(n & p & r & Hn & Hnp & Hk & Hc & ->)|(e & p & r & He & Hnp & Hk & Hv & Hb & ->)].
      * exists (encodePropKey n p, r). split; [by apply elem_of_map_to_list|].
        rewrite WarpState.attachment_of_node by done. by rewrite Hc.
      * exists (WarpState.edge_prop_key e p, r). split; [by apply elem_of_map_to_list|].
        rewrite WarpState.attachment_of_edge by done.
        by rewrite (proj2 (WarpState.edge_prop_visible_spec s e r) (conj Hv Hb)).
  - intros Hinj. unfold WarpState.attachmentRecords.
    rewrite WarpState.attachmentRecords_eq by done. f_equal.
    apply (sort_key_unique WarpState.attachmentRecordSortKey).
    + by rewrite Hp.
    + intros a b Ha Hb. apply Hinj; apply elem_of_js_sort;
        [revert Ha|revert Hb]; by rewrite Hp.
Qed.

(** ** Witnesses *)

Definition sample_oid : string := "abcdef12".
Definition ev (lamport : Z) (writer : string) (i : Z) : EventId.EventId :=
  EventId.mk lamport writer sample_oid i.

Definition sample_edge : edge_parts := EdgeParts "n1" "n2" "knows".

(** Two live nodes, one dead one, a visible edge, a dangling edge, a node
    property, a fresh and a stale edge property. *)
Definition sample_state : WarpState.WarpState :=
  WarpState.mk
    (ORSet.remove {["w:3"]} (ORSet.add "n3" (Dot.mk "w" 3)
      (ORSet.add "n2" (Dot.mk "w" 2) (ORSet.add "n1" (Dot.mk "w" 1) ORSet.empty))))
    (ORSet.add (encodeEdgeKey "n1" "n3" "knows") (Dot.mk "w" 5)
      (ORSet.add (encodeEdgeKey "n1" "n2" "knows") (Dot.mk "w" 4) ORSet.empty))
    {[ encodePropKey "n1" "name" := LWW.mk (ev 1 "w" 3) (JStr "Ann");
       encodeEdgePropKey "n1" "n2" "knows" "since" := LWW.mk (ev 2 "w" 1) (JNum (JInt 7));
       encodeEdgePropKey "n1" "n2" "knows" "old" := LWW.mk (ev 1 "v" 0) JNull ]}
    (vv_of [("w", 2)])
    {[ encodeEdgeKey "n1" "n2" "knows" := ev 2 "w" 0 ]}.

(** The elements that the decided checks below range over. *)
Lemma contains_elements s k : ORSet.contains s k = true → k ∈ ORSet.elements s.
Proof. apply ORSet.elem_of_elements. Qed.

Lemma sample_edges_ok : WarpState.edges_ok sample_state.
Proof.
  intros k Hk%contains_elements.
  assert (ORSet.elements (WarpState.edgeAlive sample_state)
    ≡ₚ [encodeEdgeKey "n1" "n2" "knows"; encodeEdgeKey "n1" "n3" "knows"]) as Hp
    by (apply (bool_decide_unpack _); vm_compute; exact I).
  rewrite Hp in Hk. apply elem_of_cons in Hk as [->|Hk%list_elem_of_singleton].
  - by exists (EdgeParts "n1" "n2" "knows").
  - subst. by exists (EdgeParts "n1" "n3" "knows").
Qed.

Lemma edge_records_are_visible_edges_witness :
  WarpState.edgeRecords sample_state = Ok [EdgeRecord.of_legacy sample_edge] ∧
  WarpState.getEdgeRecord sample_state (inl "legacy-edge:2:n1:2:n3:5:knows") = Ok None ∧
  WarpState.getEdgeRecord sample_state (inl (EdgeRecord.legacyEdgeIdValue sample_edge))
    = Ok (Some (EdgeRecord.of_legacy sample_edge)).
Proof.
  split_and!; [vm_compute; reflexivity..|].
  destruct (edge_records_are_visible_edges sample_state sample_edges_ok) as (rs & _ & _ & _ & Hg).
  rewrite Hg by done. vm_compute. reflexivity.
Defined.

Lemma warp_state_join_semilattice_witness :
  WarpState.propSize (WarpState.join sample_state sample_state) = 3%nat ∧
  WarpState.join sample_state WarpState.empty = WarpState.join WarpState.empty sample_state.
Proof.
  split; [vm_compute; reflexivity|].
  apply (warp_state_join_semilattice sample_state WarpState.empty WarpState.empty).
  - by apply (bool_decide_unpack _); vm_compute.
  - by apply (bool_decide_unpack _); vm_compute.
  - by apply (bool_decide_unpack _); vm_compute.
  - intros k ra rb _ Hb. simpl in Hb. by rewrite lookup_empty in Hb.
Defined.

Lemma sample_props_ok : WarpState.props_ok ∅ sample_state.
Proof.
  intros k r Hk. cbn [WarpState.prop sample_state] in Hk.
  apply lookup_insert_Some in Hk as [[<- <-]|[_ Hk]].
  { split; [vm_compute; reflexivity|left]. by exists "n1", "name". }
  apply lookup_insert_Some in Hk as [[<- <-]|[_ Hk]].
  { split; [vm_compute; reflexivity|right]. by exists sample_edge, "since". }
  apply lookup_singleton_Some in Hk as [<- <-].
  split; [vm_compute; reflexivity|right]. by exists sample_edge, "old".
Qed.

Lemma attachment_records_visible_witness :
  WarpState.attachmentRecords ∅ sample_state
    = Ok [WarpState.edge_attachment sample_edge "since" (JNum (JInt 7));
          WarpState.node_attachment "n1" "name" (JStr "Ann")] ∧
  ∃ rs, WarpState.attachmentRecords_in ∅ sample_state
          (map_to_list (WarpState.prop sample_state)) = Ok rs ∧
    WarpState.node_attachment "n1" "name" (JStr "Ann") ∈ rs.
Proof.
  split; [vm_compute; reflexivity|].
  destruct (attachment_records_visible ∅ sample_state (map_to_list (WarpState.prop sample_state))
    sample_props_ok) as (rs & Hrs & Hin & _); [done|].
  exists rs. split; [done|]. apply Hin. left.
  exists "n1", "name", (LWW.mk (ev 1 "w" 3) (JStr "Ann")). repeat split; vm_compute; reflexivity.
Defined.

(** Two different attachments can share a sort key (a colon in a node id or a
    property name); their order is then the insertion order of the map. *)
Definition colon_state (entries : list (string * WarpState.register)) : WarpState.WarpState :=
  WarpState.mk (ORSet.add "a" (Dot.mk "w" 1) (ORSet.add "a:b" (Dot.mk "w" 2) ORSet.empty))
    ORSet.empty (list_to_map entries) VersionVector.empty ∅.

Theorem attachment_order_depends_on_insertion :
  let e1 := (encodePropKey "a" "b:c", LWW.mk (ev 1 "w" 0) JNull) in
  let e2 := (encodePropKey "a:b" "c", LWW.mk (ev 1 "w" 1) JNull) in
  colon_state [e1; e2] = colon_state [e2; e1] ∧
  WarpState.attachmentRecords_in ∅ (colon_state [e1; e2]) [e1; e2]
    = Ok [WarpState.node_attachment "a" "b:c" JNull; WarpState.node_attachment "a:b" "c" JNull] ∧
  WarpState.attachmentRecords_in ∅ (colon_state [e1; e2]) [e2; e1]
    = Ok [WarpState.node_attachment "a:b" "c" JNull; WarpState.node_attachment "a" "b:c" JNull].
Proof. vm_compute. split_and!; reflexivity. Qed.
