(* ===== verification/Diff.v ===== *)
(** Patch diffs ([types/PatchDiff.ts]) and the reverse-index walk over an
    observed-remove set that finds what a removal touched
    ([services/DiffCalculator.ts]). *)
From S2P Require Export WarpState.

(** [new Set(list)]: the elements in the order of their first occurrence. *)
Definition js_set_add (acc : list string) (x : string) : list string :=
  if bool_decide (x ∈ acc) then acc else acc ++ [x].
Definition js_set (l : list string) : list string := foldl js_set_add [] l.

Lemma elem_of_js_set_add acc x y : y ∈ js_set_add acc x ↔ y ∈ acc ∨ y = x.
Proof. unfold js_set_add. case_bool_decide; set_solver. Qed.

Lemma js_set_add_NoDup acc x : NoDup acc → NoDup (js_set_add acc x).
Proof.
  unfold js_set_add. intros Hnd. case_bool_decide; [done|]. apply NoDup_app.
  split; [done|]. split; [set_solver|apply NoDup_singleton].
Qed.

Lemma js_set_acc l acc : NoDup acc →
  NoDup (foldl js_set_add acc l) ∧ ∀ x, x ∈ foldl js_set_add acc l ↔ x ∈ acc ∨ x ∈ l.
Proof.
  revert acc. induction l as [|y l IH]; intros acc Hnd; simpl; [set_solver|].
  destruct (IH (js_set_add acc y)) as [H1 H2]; [by apply js_set_add_NoDup|].
  split; [done|]. intros x. rewrite H2, elem_of_js_set_add. set_solver.
Qed.

Lemma elem_of_js_set l x : x ∈ js_set l ↔ x ∈ l.
Proof. unfold js_set. rewrite (proj2 (js_set_acc l [] (NoDup_nil_2))). set_solver. Qed.

Lemma js_set_NoDup l : NoDup (js_set l).
Proof. apply (js_set_acc l []), NoDup_nil_2. Qed.

Module PatchDiff.

Definition E_FIELD : error := PatchError "E_PATCH_DIFF_FIELD".

(* @src domain/types/PatchDiff.ts requireNonEmptyString *)
Definition requireNonEmptyString (value : string) : result string :=
  _ ← require (str_nonempty value) E_FIELD; Ok value.

(** An [EdgeDiffEntry] is its three parts. *)
(* @src domain/types/PatchDiff.ts constructor 51-56 *)
Definition edge_entry (e : edge_parts) : result edge_parts :=
  f ← requireNonEmptyString (ep_from e); t ← requireNonEmptyString (ep_to e);
  l ← requireNonEmptyString (ep_label e); Ok (EdgeParts f t l).

(** [inl] an instance, [inr] its fields. *)
(* @src domain/types/PatchDiff.ts fromEntry 58-60 *)
Definition edge_fromEntry (entry : edge_parts + edge_parts) : result edge_parts :=
  match entry with inl e => Ok e | inr fields => edge_entry fields end.

(** [undefined] is [JUndefined]. *)
(* @src domain/types/PatchDiff.ts PropDiffEntry 63-67 *)
Record PropDiffEntry := PropDiff {
  pd_nodeId : string; pd_key : string; pd_value : jsval; pd_prevValue : jsval }.

#[global] Instance PropDiffEntry_eq_dec : EqDecision PropDiffEntry.
Proof. solve_decision. Defined.

(* @src domain/types/PatchDiff.ts constructor 69-75 *)
Definition prop_entry (p : PropDiffEntry) : result PropDiffEntry :=
  n ← requireNonEmptyString (pd_nodeId p); k ← requireNonEmptyString (pd_key p);
  Ok (PropDiff n k (pd_value p) (pd_prevValue p)).

(* @src domain/types/PatchDiff.ts fromEntry 77-79 *)
Definition prop_fromEntry (entry : PropDiffEntry + PropDiffEntry) : result PropDiffEntry :=
  match entry with inl p => Ok p | inr fields => prop_entry fields end.

(* @src domain/types/PatchDiff.ts MutablePatchDiff *)
Record PatchDiff := mk {
  nodesAdded : list string;
  nodesRemoved : list string;
  edgesAdded : list edge_parts;
  edgesRemoved : list edge_parts;
  propsChanged : list PropDiffEntry }.

#[global] Instance PatchDiff_eq_dec : EqDecision PatchDiff.
Proof. solve_decision. Defined.

(* @src domain/types/PatchDiff.ts constructor 104-122 *)
Definition new (nodesAdded nodesRemoved : list string)
  (edgesAdded edgesRemoved : list (edge_parts + edge_parts))
  (propsChanged : list (PropDiffEntry + PropDiffEntry)) : result PatchDiff :=
  na ← map_result requireNonEmptyString nodesAdded;
  nr ← map_result requireNonEmptyString nodesRemoved;
  ea ← map_result edge_fromEntry edgesAdded;
  er ← map_result edge_fromEntry edgesRemoved;
  pc ← map_result prop_fromEntry propsChanged;
  Ok (mk na nr ea er pc).

(* @src domain/types/PatchDiff.ts createPatchDiffAccumulator *)
Definition createPatchDiffAccumulator : PatchDiff := mk [] [] [] [] [].

(* @src domain/types/PatchDiff.ts empty *)
Definition empty : result PatchDiff := new [] [] [] [] [].

(* @src domain/types/PatchDiff.ts createEmptyDiff *)
Definition createEmptyDiff : result PatchDiff := empty.

(** [new PatchDiff(accumulator)]: the accumulator holds plain objects. *)
Definition of_accumulator (d : PatchDiff) : result PatchDiff :=
  new (nodesAdded d) (nodesRemoved d) (inr <$> edgesAdded d) (inr <$> edgesRemoved d)
    (inr <$> propsChanged d).

(* @src domain/types/PatchDiff.ts edgeKey *)
Definition edgeKey (e : edge_parts) : string :=
  sep_join (ep_from e) (sep_join (ep_to e) (ep_label e)).

(** The key of the map that keeps one entry per property. *)
Definition prop_id (p : PropDiffEntry) : string := sep_join (pd_nodeId p) (pd_key p).

(* @src domain/types/PatchDiff.ts deduplicateProps *)
Definition deduplicateProps (allProps : list PropDiffEntry) : list PropDiffEntry :=
  (foldl (λ m entry, ordmap_set (prop_id entry) entry m)
   [] allProps).*2.

Definition filter_out {A} (key : A → string) (drop : gset string) (l : list A) : list A :=
  filter (λ x, key x ∉ drop) l.

(* @src domain/types/PatchDiff.ts mergeDiffs *)
Definition mergeDiffs (a b : PatchDiff) : result PatchDiff :=
  let allAdded := nodesAdded a ++ nodesAdded b in
  let allRemoved := nodesRemoved a ++ nodesRemoved b in
  let removedSet : gset string := list_to_set allRemoved in
  let addedSet : gset string := list_to_set allAdded in
  let allEdgesAdded := edgesAdded a ++ edgesAdded b in
  let allEdgesRemoved := edgesRemoved a ++ edgesRemoved b in
  let edgeRemovedSet : gset string := list_to_set (edgeKey <$> allEdgesRemoved) in
  let edgeAddedSet : gset string := list_to_set (edgeKey <$> allEdgesAdded) in
  new (filter_out id removedSet allAdded) (filter_out id addedSet allRemoved)
    (inl <$> filter_out edgeKey edgeRemovedSet allEdgesAdded)
    (inl <$> filter_out edgeKey edgeAddedSet allEdgesRemoved)
    (inl <$> deduplicateProps (propsChanged a ++ propsChanged b)).

(** A diff whose node ids are not empty, as the constructor makes them. *)
Definition nodes_valid (d : PatchDiff) : Prop :=
  Forall (λ n, str_nonempty n = true) (nodesAdded d ++ nodesRemoved d).

Lemma requireNonEmptyString_ok v w : requireNonEmptyString v = Ok w ↔ v = w ∧ str_nonempty v = true.
Proof. unfold requireNonEmptyString. destruct (str_nonempty v); simpl; naive_solver. Qed.

Lemma require_all l :
  Forall (λ n, str_nonempty n = true) l → map_result requireNonEmptyString l = Ok l.
Proof.
  intros Hl. rewrite (map_result_fmap _ id); [by rewrite list_fmap_id|].
  rewrite Forall_forall in Hl. intros x Hx. apply requireNonEmptyString_ok. auto.
Qed.

Lemma require_all_inv l l' :
  map_result requireNonEmptyString l = Ok l' → l = l' ∧ Forall (λ n, str_nonempty n = true) l.
Proof.
  rewrite map_result_ok. induction 1 as [|x y l l' Hx%requireNonEmptyString_ok _ IH]; [done|].
  destruct Hx as [-> ?], IH as [-> ?]. split; [done|by constructor].
Qed.

Lemma map_result_inl {A} (f : A + A → result A) (l : list A) :
  (∀ x, f (inl x) = Ok x) → map_result f (inl <$> l) = Ok l.
Proof. intros Hf. induction l as [|x l IH]; csimpl; [done|]. by rewrite Hf, IH. Qed.

Lemma mergeDiffs_ok a b :
  nodes_valid a → nodes_valid b →
  ∃ d, mergeDiffs a b = Ok d ∧ nodes_valid d ∧
  nodesAdded d = filter_out id (list_to_set (nodesRemoved a ++ nodesRemoved b))
                   (nodesAdded a ++ nodesAdded b) ∧
  nodesRemoved d = filter_out id (list_to_set (nodesAdded a ++ nodesAdded b))
                   (nodesRemoved a ++ nodesRemoved b) ∧
  edgesAdded d = filter_out edgeKey (list_to_set (edgeKey <$> edgesRemoved a ++ edgesRemoved b))
                   (edgesAdded a ++ edgesAdded b) ∧
  edgesRemoved d = filter_out edgeKey (list_to_set (edgeKey <$> edgesAdded a ++ edgesAdded b))
                   (edgesRemoved a ++ edgesRemoved b) ∧
  propsChanged d = deduplicateProps (propsChanged a ++ propsChanged b).
Proof.
  intros Ha Hb. unfold mergeDiffs, new.
  assert (∀ X l, Forall (λ n, str_nonempty n = true) l →
  Forall (λ n, str_nonempty n = true) (filter_out id X l)) as Hf.
  { intros X l Hl. rewrite Forall_forall in *. intros x [_ Hx]%list_elem_of_filter. auto. }
  apply Forall_app in Ha as [Ha1 Ha2], Hb as [Hb1 Hb2].
  rewrite !require_all by (apply Hf; by apply Forall_app). cbn [mbind result_bind].
  rewrite !map_result_inl by done. cbn [mbind result_bind].
  eexists. split; [done|]. split; [|done].
  apply Forall_app; split; apply Hf; by apply Forall_app.
Qed.

(** *** Net effect

  [net d n]: how often [n] came alive minus how often it died. *)
Definition count (n : string) (l : list string) : Z := Z.of_nat (length (filter (n =.) l)).
Definition net (d : PatchDiff) (n : string) : Z :=
  count n (nodesAdded d) - count n (nodesRemoved d).
Definition net_edge (d : PatchDiff) (k : string) : Z :=
  count k (edgeKey <$> edgesAdded d) - count k (edgeKey <$> edgesRemoved d).

Lemma count_app n l1 l2 : count n (l1 ++ l2) = count n l1 + count n l2.
Proof. unfold count. rewrite filter_app, length_app. lia. Qed.

Lemma count_cons n x l : count n (x :: l) = (if decide (n = x) then 1 else 0) + count n l.
Proof. unfold count. rewrite filter_cons. case_decide; simpl; lia. Qed.

Lemma count_NoDup n l : NoDup l → count n l = if bool_decide (n ∈ l) then 1 else 0.
Proof.
  induction 1 as [|x l Hni Hnd IH]; [done|]. rewrite count_cons, IH.
  destruct (decide (n = x)); repeat case_bool_decide; first [lia | exfalso; set_solver].
Qed.

Lemma count_not_in n l : n ∉ l → count n l = 0.
Proof.
  induction l as [|x l IH]; [done|]. intros Hn. rewrite count_cons, IH by set_solver.
  case_decide; [exfalso; set_solver|done].
Qed.

Lemma count_filter_out n X l :
  count n (filter_out id X l) = if bool_decide (n ∈ X) then 0 else count n l.
Proof.
  unfold filter_out. induction l as [|x l IH]; [by case_bool_decide|].
  rewrite filter_cons, (count_cons n x l). unfold id in *.
  destruct (decide (x ∉ X)) as [Hx|Hx]; [rewrite count_cons|]; rewrite IH;
  destruct (decide (n = x)) as [->|]; repeat case_bool_decide; tauto || lia.
Qed.

Lemma fmap_filter_out {A} (key : A → string) X l :
  key <$> filter_out key X l = filter_out id X (key <$> l).
Proof.
  unfold filter_out, id. induction l as [|x l IH]; csimpl; [done|].
  rewrite !filter_cons. destruct (decide (key x ∉ X)); csimpl; by rewrite IH.
Qed.

(** Cancelling by set membership computes the difference when no key occurs
    twice on either side. *)
Lemma cancel_net n (xs ys : list string) :
  NoDup xs → NoDup ys →
  count n (filter_out id (list_to_set ys) xs) - count n (filter_out id (list_to_set xs) ys)
  = count n xs - count n ys.
Proof.
  intros Hx Hy. rewrite !count_filter_out, !count_NoDup by done.
  repeat case_bool_decide; set_unfold; tauto || lia.
Qed.

(** *** Property entries: the last one of a key wins *)

Lemma dedup_get l m k :
  ordmap_get k (foldl (λ m entry, ordmap_set (prop_id entry) entry m) m l)
  = match last (filter (λ p, prop_id p = k) l) with Some p => Some p | None => ordmap_get k m end.
Proof.
  revert m. induction l as [|p l IH]; intros m; simpl; [done|].
  rewrite IH, filter_cons, ordmap_get_set.
  case_decide; case_decide; try congruence; try done.
  rewrite last_cons. by destruct (last _).
Qed.

Lemma ordmap_get_elem {V} (m : list (string * V)) k v :
  NoDup m.*1 → (k, v) ∈ m ↔ ordmap_get k m = Some v.
Proof.
  induction m as [|[k' v'] m IH]; csimpl; intros Hnd; [set_solver|].
  apply NoDup_cons in Hnd as [Hni Hnd]. rewrite elem_of_cons, IH by done. case_decide; subst.
  - split; [|intros [= ->]; by left]. intros [[= ->]|Hg]; [done|].
  apply IH in Hg; [|done]. destruct Hni. apply list_elem_of_fmap. by exists (k', v).
  - split; [intros [[= ??]|?]; done|by right].
Qed.

Lemma dedup_NoDup l m :
  NoDup m.*1 → NoDup (foldl (λ m entry, ordmap_set (prop_id entry) entry m) m l).*1.
Proof. revert m. induction l; simpl; intros; [done|]. by apply IHl, ordmap_set_NoDup. Qed.

Lemma ordmap_set_Forall {V} (P : string * V → Prop) k v m :
  P (k, v) → Forall P m → Forall P (ordmap_set k v m).
Proof.
  intros Hp. induction 1 as [|[k' v'] m Hx Hm IH]; simpl; [by constructor|].
  case_decide; by constructor.
Qed.

Lemma dedup_keys l m :
  Forall (λ kp, kp.1 = prop_id kp.2) m →
  Forall (λ kp, kp.1 = prop_id kp.2)
  (foldl (λ m entry, ordmap_set (prop_id entry) entry m) m l).
Proof. revert m. induction l; simpl; intros; [done|]. by apply IHl, ordmap_set_Forall. Qed.

Lemma elem_of_deduplicateProps l p :
  p ∈ deduplicateProps l ↔ last (filter (λ q, prop_id q = prop_id p) l) = Some p.
Proof.
  unfold deduplicateProps.
  set (m := foldl _ _ _).
  assert (NoDup m.*1) as Hnd by (apply (dedup_NoDup l []); constructor).
  assert (Forall (λ kp, kp.1 = prop_id kp.2) m) as Hk by (apply (dedup_keys l []); constructor).
  pose proof (dedup_get l [] (prop_id p)) as Hg. change (foldl _ _ _) with m in Hg.
  rewrite list_elem_of_fmap. split.
  - intros ([k q] & -> & Hin). simpl in *.
  rewrite Forall_forall in Hk. pose proof (Hk _ Hin) as Hkq. simpl in Hkq. subst k.
  apply ordmap_get_elem in Hin; [|done]. rewrite Hin in Hg. by destruct (last _).
  - intros Hl. rewrite Hl in Hg. exists (prop_id p, p). split; [done|].
  by apply ordmap_get_elem.
Qed.
End PatchDiff.

Module DiffCalculator.
Import ORSet.

(** [entriesIter()]: the elements with their dots, in iteration order. *)
Definition entriesIter (s : ORSet) : list (string * list string) :=
  (λ '(e, ds), (e, base.elements ds)) <$> map_to_list (entries s).

(** The inner loop: [remaining] counts the targets not met yet, and reaching 0
    breaks. *)
Fixpoint scan_dots (targets : gset string) (element : string) (dots : list string)
  (remaining : nat) (m : gmap string string) : nat * gmap string string :=
  match dots with
  | [] => (remaining, m)
  | d :: ds =>
    if bool_decide (d ∈ targets) then
      let m' := <[d := element]> m in
      match pred remaining with
      | O => (O, m')
      | r => scan_dots targets element ds r m'
      end
    else scan_dots targets element ds remaining m
  end.

Fixpoint scan_entries (targets : gset string) (es : list (string * list string))
  (remaining : nat) (m : gmap string string) : gmap string string :=
  match es with
  | [] => m
  | (element, dots) :: es' =>
    match remaining with
    | O => m
    | _ => let '(r, m') := scan_dots targets element dots remaining m in
           scan_entries targets es' r m'
    end
  end.

(* @src domain/services/DiffCalculator.ts buildDotToElement *)
Definition buildDotToElement (s : ORSet) (targetDots : gset string) : gmap string string :=
  scan_entries targetDots (entriesIter s) (size targetDots) ∅.

(** [observedDots] is a JavaScript set: its elements in insertion order. *)
(* @src domain/services/DiffCalculator.ts aliveElementsForDots *)
Definition aliveElementsForDots (s : ORSet) (observedDots : list string) : list string :=
  let dotToElement := buildDotToElement s (list_to_set observedDots) in
  foldl (λ (result : list string) d,
  match dotToElement !! d with
  | Some element =>
      if negb (bool_decide (element ∈ result)) && contains s element
      then result ++ [element] else result
  | None => result
  end) [] observedDots.

(* @src domain/services/DiffCalculator.ts collectNodeRemovals *)
Definition collectNodeRemovals (diff : PatchDiff.PatchDiff) (state : WarpState.WarpState)
  (aliveBeforeNodes : option (list string)) : PatchDiff.PatchDiff :=
  match aliveBeforeNodes with
  | None => diff
  | Some nodes =>
    PatchDiff.mk (PatchDiff.nodesAdded diff)
      (PatchDiff.nodesRemoved diff
       ++ filter (λ e, contains (WarpState.nodeAlive state) e = false) nodes)
      (PatchDiff.edgesAdded diff) (PatchDiff.edgesRemoved diff) (PatchDiff.propsChanged diff)
  end.

(* @src domain/services/DiffCalculator.ts collectEdgeRemovals *)
Definition collectEdgeRemovals (diff : PatchDiff.PatchDiff) (state : WarpState.WarpState)
  (aliveBeforeEdges : option (list string)) : PatchDiff.PatchDiff :=
  match aliveBeforeEdges with
  | None => diff
  | Some keys =>
    PatchDiff.mk (PatchDiff.nodesAdded diff) (PatchDiff.nodesRemoved diff)
      (PatchDiff.edgesAdded diff)
      (PatchDiff.edgesRemoved diff
       ++ (decodeEdgeKey <$> filter (λ k, contains (WarpState.edgeAlive state) k = false) keys))
      (PatchDiff.propsChanged diff)
  end.

(** *** The reverse index

  A dot names one add of one element. *)
Definition owned (s : ORSet) : Prop :=
  ∀ e1 e2 d, d ∈ dots_of s e1 → d ∈ dots_of s e2 → e1 = e2.

(** The (dot, element) pairs the walk meets, targets only. *)
Definition hits (targets : gset string) (es : list (string * list string))
  : list (string * string) :=
  es ≫= λ '(e, ds), (λ d, (d, e)) <$> filter (λ d, d ∈ targets) ds.

Definition inserts (l : list (string * string)) (m : gmap string string) : gmap string string :=
  foldl (λ m '(d, e), <[d := e]> m) m l.

Lemma scan_dots_spec targets e ds r m :
  (0 < r)%nat →
  scan_dots targets e ds r m
  = let l := (λ d, (d, e)) <$> filter (λ d, d ∈ targets) ds in
  ((r - length l)%nat, inserts (take r l) m).
Proof.
  revert r m. induction ds as [|d ds IH]; intros r m Hr; cbn [scan_dots].
  { cbn. by rewrite Nat.sub_0_r, take_nil. }
  rewrite filter_cons. destruct (decide (d ∈ targets)) as [Hd|Hd].
  - rewrite bool_decide_eq_true_2 by done. destruct r as [|[|r]]; [lia|..]; cbn [pred].
  + csimpl. done.
  + rewrite IH by lia. csimpl. done.
  - rewrite bool_decide_eq_false_2 by done. by apply IH.
Qed.

Lemma scan_entries_spec targets es r m :
  scan_entries targets es r m = inserts (take r (hits targets es)) m.
Proof.
  revert r m. induction es as [|[e ds] es IH]; intros r m; cbn [scan_entries].
  { change (hits targets []) with (@nil (string * string)); by rewrite take_nil. }
  destruct r as [|r]; [by rewrite take_0|]. rewrite scan_dots_spec by lia. cbn.
  rewrite IH, take_app. unfold inserts. by rewrite foldl_app.
Qed.

Lemma inserts_lookup l m d e :
  NoDup l.*1 → inserts l m !! d = Some e ↔ (d, e) ∈ l ∨ ((d ∉ l.*1) ∧ m !! d = Some e).
Proof.
  revert m. induction l as [|[d' e'] l IH]; intros m; csimpl; intros Hnd.
  { set_solver. }
  apply NoDup_cons in Hnd as [Hni Hnd]. unfold inserts in *. simpl. rewrite IH by done.
  rewrite elem_of_cons, not_elem_of_cons. destruct (decide (d = d')) as [->|Hne].
  - rewrite lookup_insert_eq. split.
  + intros [Hin|[_ [= ->]]]; [|by left; left].
    destruct Hni. apply list_elem_of_fmap. by exists (d', e).
  + intros [[[= ->]|Hin]|[[] _]]; [by right| |done].
    destruct Hni. apply list_elem_of_fmap. by exists (d', e).
  - rewrite lookup_insert_ne by done. naive_solver.
Qed.

Lemma elem_of_hits s targets d e :
  (d, e) ∈ hits targets (entriesIter s) ↔ d ∈ targets ∧ d ∈ dots_of s e.
Proof.
  unfold hits, entriesIter, dots_of. rewrite list_elem_of_bind. split.
  - intros ([e' ds] & Hd & Hin). apply list_elem_of_fmap in Hd as (d' & [= <- <-] & Hd).
  apply list_elem_of_filter in Hd as [Ht Hd].
  apply list_elem_of_fmap in Hin as ([e2 ds2] & [= -> ->] & Hin).
  apply elem_of_map_to_list in Hin. rewrite Hin. simpl. set_solver.
  - intros [Ht Hd]. destruct (entries s !! e) as [ds|] eqn:E; simpl in Hd; [|set_solver].
  exists (e, base.elements ds). split.
  + apply list_elem_of_fmap. exists d. split; [done|].
    apply list_elem_of_filter. split; [done|]. by apply base.elem_of_elements.
  + apply list_elem_of_fmap. exists (e, ds). split; [done|]. by apply elem_of_map_to_list.
Qed.

Lemma hits_NoDup s targets : owned s → NoDup (hits targets (entriesIter s)).*1.
Proof.
  intros Ho. unfold hits, entriesIter.
  assert (∀ e ds, (e, ds) ∈ map_to_list (entries s) → ds = dots_of s e) as Hall.
  { intros e ds Hin%elem_of_map_to_list. unfold dots_of. by rewrite Hin. }
  pose proof (NoDup_fst_map_to_list (entries s)) as Hnd. revert Hnd Hall.
  induction (map_to_list (entries s)) as [|[e ds] l IH]; csimpl; intros Hnd Hall; [constructor|].
  apply NoDup_cons in Hnd as [Hni Hnd].
  rewrite fmap_app, <- list_fmap_compose. apply NoDup_app. split_and!.
  - unfold compose; simpl. rewrite list_fmap_id. apply NoDup_filter, NoDup_elements.
  - intros d Hd Hin. unfold compose in Hd. simpl in Hd. rewrite list_fmap_id in Hd.
  apply list_elem_of_filter in Hd as [_ Hd%base.elem_of_elements].
  apply list_elem_of_fmap in Hin as ([d' e'] & -> & Hin). simpl in *.
  apply list_elem_of_bind in Hin as ([e2 ds2] & Hd2 & Hin).
  apply list_elem_of_fmap in Hd2 as (d3 & [= <- <-] & Hd2).
  apply list_elem_of_filter in Hd2 as [_ Hd2].
  apply list_elem_of_fmap in Hin as ([e4 ds4] & [= -> ->] & Hin).
  apply base.elem_of_elements in Hd2.
  rewrite (Hall e ds) in Hd by (by left). rewrite (Hall e4 ds4) in Hd2 by (by right).
  assert (e = e4) as -> by (by apply (Ho _ _ d')).
  apply Hni, list_elem_of_fmap. by exists (e4, ds4).
  - apply IH; [done|]. intros. apply Hall. by right.
Qed.

(** On a set whose dots have one owner the early exit loses nothing. *)
Lemma buildDotToElement_spec s targets d e :
  owned s → buildDotToElement s targets !! d = Some e ↔ d ∈ targets ∧ d ∈ dots_of s e.
Proof.
  intros Ho. unfold buildDotToElement. rewrite scan_entries_spec.
  pose proof (hits_NoDup s targets Ho) as Hnd.
  assert (length (hits targets (entriesIter s)) ≤ size targets)%nat as Hlen.
  { rewrite <- (length_fmap fst). rewrite <- (size_list_to_set (C:=gset string)) by done.
  apply subseteq_size. intros x Hx%elem_of_list_to_set.
  apply list_elem_of_fmap in Hx as ([d' e'] & -> & Hx). by apply elem_of_hits in Hx as []. }
  rewrite take_ge by lia. rewrite inserts_lookup by done. rewrite elem_of_hits, lookup_empty.
  naive_solver.
Qed.

Lemma alive_fold s (m : gmap string string) l acc :
  NoDup acc →
  let r := foldl (λ (result : list string) d,
  match m !! d with
  | Some element =>
      if negb (bool_decide (element ∈ result)) && contains s element
      then result ++ [element] else result
  | None => result
  end) acc l in
  NoDup r ∧ ∀ e, e ∈ r ↔ e ∈ acc ∨ (contains s e = true ∧ ∃ d, d ∈ l ∧ m !! d = Some e).
Proof.
  revert acc. induction l as [|d l IH]; intros acc Hnd; simpl; [set_solver|].
  match goal with |- NoDup (foldl _ ?a _) ∧ _ => set (acc' := a) end.
  assert (NoDup acc' ∧ ∀ e, e ∈ acc' ↔ e ∈ acc ∨ (contains s e = true ∧ m !! d = Some e))
  as [Hnd' Hin'].
  { subst acc'. destruct (m !! d) as [e'|]; [|naive_solver].
  case_bool_decide as Hb; simpl.
  - split; [done|]. naive_solver.
  - destruct (contains s e') eqn:Hc.
    2: { split; [done|]. intros e. split; [by left|]. intros [?|[? [= <-]]]; [done|congruence]. }
    split.
    + apply NoDup_app. split; [done|]. split; [set_solver|apply NoDup_singleton].
    + intros e. rewrite elem_of_app, list_elem_of_singleton. naive_solver. }
  destruct (IH acc' Hnd') as [H1 H2]. split; [done|].
  intros e. rewrite H2, Hin'. setoid_rewrite elem_of_cons. naive_solver.
Qed.

(** The elements alive now that own one of the dots. *)
Lemma aliveElementsForDots_spec s dots :
  owned s →
  NoDup (aliveElementsForDots s dots) ∧
  ∀ e, e ∈ aliveElementsForDots s dots ↔
  contains s e = true ∧ ∃ d, d ∈ dots ∧ d ∈ dots_of s e.
Proof.
  intros Ho. unfold aliveElementsForDots.
  destruct (alive_fold s (buildDotToElement s (list_to_set dots)) dots []) as [H1 H2];
  [apply NoDup_nil_2|]. split; [done|].
  intros e. rewrite H2. setoid_rewrite buildDotToElement_spec; [|done].
  setoid_rewrite elem_of_list_to_set. set_solver.
Qed.
End DiffCalculator.

(** ** Properties *)

(** Merging two diffs in which nothing comes alive twice or dies twice gives
    their net effect: every node and every edge key is counted with the
    difference of its transitions, never on both sides, and for every property
    the last entry remains. *)
Theorem merge_diffs_net (a b : PatchDiff.PatchDiff) :
  PatchDiff.nodes_valid a → PatchDiff.nodes_valid b →
  NoDup (PatchDiff.nodesAdded a ++ PatchDiff.nodesAdded b) →
  NoDup (PatchDiff.nodesRemoved a ++ PatchDiff.nodesRemoved b) →
  NoDup (PatchDiff.edgeKey <$> PatchDiff.edgesAdded a ++ PatchDiff.edgesAdded b) →
  NoDup (PatchDiff.edgeKey <$> PatchDiff.edgesRemoved a ++ PatchDiff.edgesRemoved b) →
  ∃ d, PatchDiff.mergeDiffs a b = Ok d ∧
    (∀ n, PatchDiff.net d n = PatchDiff.net a n + PatchDiff.net b n) ∧
    (∀ k, PatchDiff.net_edge d k = PatchDiff.net_edge a k + PatchDiff.net_edge b k) ∧
    (∀ n, n ∈ PatchDiff.nodesAdded d → n ∉ PatchDiff.nodesRemoved d) ∧
    (∀ p, p ∈ PatchDiff.propsChanged d ↔
       last (filter (λ q, PatchDiff.prop_id q = PatchDiff.prop_id p)
         (PatchDiff.propsChanged a ++ PatchDiff.propsChanged b)) = Some p).
Proof.
  intros Ha Hb HA HR HEA HER.
  destruct (PatchDiff.mergeDiffs_ok a b Ha Hb) as (d & Hd & _ & EA & ER & EEA & EER & EP).
  exists d. split; [done|]. split_and!.
  - intros n. unfold PatchDiff.net. rewrite EA, ER, PatchDiff.cancel_net, !PatchDiff.count_app by done.
    lia.
  - intros k. unfold PatchDiff.net_edge. rewrite EEA, EER, !PatchDiff.fmap_filter_out.
    rewrite PatchDiff.cancel_net by done. rewrite !fmap_app, !PatchDiff.count_app. lia.
  - intros n. rewrite EA, ER. unfold PatchDiff.filter_out, id.
    rewrite !list_elem_of_filter, !elem_of_list_to_set. tauto.
  - intros p. rewrite EP. apply PatchDiff.elem_of_deduplicateProps.
Qed.

Definition diff_add_n : PatchDiff.PatchDiff := PatchDiff.mk ["n"] ["m"] [] [] [].
Definition diff_remove_n : PatchDiff.PatchDiff := PatchDiff.mk ["m"] ["n"] [] [] [].

Lemma merge_diffs_net_witness :
  PatchDiff.mergeDiffs diff_add_n diff_remove_n = Ok (PatchDiff.mk [] [] [] [] []) ∧
  ∃ d, PatchDiff.mergeDiffs diff_add_n diff_remove_n = Ok d ∧ PatchDiff.net d "n" = 1 + -1.
Proof.
  split; [vm_compute; reflexivity|].
  destruct (merge_diffs_net diff_add_n diff_remove_n) as (d & Hd & Hn & _).
  - by repeat constructor.
  - by repeat constructor.
  - by apply (bool_decide_unpack _); vm_compute.
  - by apply (bool_decide_unpack _); vm_compute.
  - by apply (bool_decide_unpack _); vm_compute.
  - by apply (bool_decide_unpack _); vm_compute.
  - exists d. split; [exact Hd|]. rewrite Hn. reflexivity.
Defined.

(** The walk over the reverse index stops as soon as every target is counted;
    on a set in which every dot belongs to one element it still finds, exactly
    once, each alive element that owns an observed dot. *)
Theorem alive_elements_for_dots (s : ORSet.ORSet) (dots : list string) :
  DiffCalculator.owned s →
  NoDup (DiffCalculator.aliveElementsForDots s dots) ∧
  (∀ e, e ∈ DiffCalculator.aliveElementsForDots s dots ↔
     ORSet.contains s e = true ∧ ∃ d, d ∈ dots ∧ ORSet.hasDot s e d = true) ∧
  (∀ d e, DiffCalculator.buildDotToElement s (list_to_set dots) !! d = Some e ↔
     d ∈ dots ∧ ORSet.hasDot s e d = true).
Proof.
  intros Ho. destruct (DiffCalculator.aliveElementsForDots_spec s dots Ho) as [H1 H2].
  split_and!; [done| |].
  - intros e. rewrite H2. by setoid_rewrite ORSet.hasDot_spec.
  - intros d e. rewrite DiffCalculator.buildDotToElement_spec by done.
    by rewrite ORSet.hasDot_spec, elem_of_list_to_set.
Qed.

Definition two_elem_set : ORSet.ORSet :=
  ORSet.add "m" (Dot.mk "b" 2) (ORSet.add "n" (Dot.mk "a" 1) ORSet.empty).

Lemma alive_elements_for_dots_witness :
  DiffCalculator.aliveElementsForDots two_elem_set ["b:2"; "z:1"; "a:1"] = ["m"; "n"] ∧
  NoDup (DiffCalculator.aliveElementsForDots two_elem_set ["b:2"; "z:1"; "a:1"]).
Proof.
  split; [vm_compute; reflexivity|]. apply alive_elements_for_dots.
  intros e1 e2 d. unfold two_elem_set. rewrite !ORSet.dots_of_add.
  change (Dot.encode (Dot.mk "a" 1)) with "a:1". change (Dot.encode (Dot.mk "b" 2)) with "b:2".
  change (ORSet.dots_of ORSet.empty ?e) with (∅ : gset string).
  repeat case_decide; set_solver.
Defined.
