(* ===== verification/Receipts.v ===== *)
(** Outcomes of operations ([types/ops/Op*Result], [services/ReceiptBuilder.ts])
    and tick receipts ([types/TickReceipt.ts]). *)
From S2P Require Export Diff.

(** The three outcome classes; [target] is the first field of each. *)
(* @src domain/types/ops/OpOutcomeResult.ts OpOutcomeResult 17-30 *)
Inductive OpOutcomeResult : Type :=
  | OpApplied (target : string)
  | OpRedundant (target : string)
  | OpSuperseded (target : string) (winner : EventId.EventId).

#[export] Instance OpOutcomeResult_eq_dec : EqDecision OpOutcomeResult.
Proof. solve_decision. Defined.

Definition outcome_target (o : OpOutcomeResult) : string :=
  match o with OpApplied t | OpRedundant t | OpSuperseded t _ => t end.

Definition outcome_result (o : OpOutcomeResult) : string :=
  match o with
  | OpApplied _ => "applied" | OpRedundant _ => "redundant" | OpSuperseded _ _ => "superseded"
  end.

(** The [reason] a superseded outcome carries. *)
(* @src domain/types/ops/OpSuperseded.ts constructor *)
Definition superseded_reason (winner : EventId.EventId) : string :=
  "LWW: writer " +:+ EventId.writerId winner +:+ " at lamport "
  +:+ num_to_string (EventId.lamport winner) +:+ " wins".

Module TickReceipt.

(* @src domain/types/TickReceipt.ts OP_TYPES *)
Definition OP_TYPES : list string :=
  ["NodeAdd"; "NodeTombstone"; "EdgeAdd"; "EdgeTombstone";
  "PropSet"; "NodePropSet"; "EdgePropSet"; "BlobValue"].

(* @src domain/types/TickReceipt.ts RESULT_TYPES *)
Definition RESULT_TYPES : list string := ["applied"; "superseded"; "redundant"].

(* @src domain/types/TickReceipt.ts OpOutcome *)
Record OpOutcome := mkOutcome {
  op : string; target : string; result_ : string; reason : option string }.

(* @src domain/types/TickReceipt.ts TickReceipt 152-163 *)
Record TickReceipt := mk {
  patchSha : string; writer : string; lamport : Z; ops : list OpOutcome }.

#[global] Instance OpOutcome_eq_dec : EqDecision OpOutcome.
Proof. solve_decision. Defined.
#[global] Instance TickReceipt_eq_dec : EqDecision TickReceipt.
Proof. solve_decision. Defined.

Definition E_VALIDATION : error := Err "WarpError" "E_VALIDATION".

(* @src domain/types/TickReceipt.ts validateOpType *)
Definition validateOpType (value : string) : result unit :=
  require (bool_decide (value ∈ OP_TYPES)) E_VALIDATION.

(* @src domain/types/TickReceipt.ts validateOpTarget *)
Definition validateOpTarget (value : string) : result unit :=
  require (str_nonempty value) E_VALIDATION.

(* @src domain/types/TickReceipt.ts validateOpResult *)
Definition validateOpResult (value : string) : result unit :=
  require (bool_decide (value ∈ RESULT_TYPES)) E_VALIDATION.

(* @src domain/types/TickReceipt.ts validateOp *)
Definition validateOp (o : OpOutcome) : result unit :=
  _ ← validateOpType (op o); _ ← validateOpTarget (target o); validateOpResult (result_ o).

(* @src domain/types/TickReceipt.ts assertNonNegativeInt *)
Definition assertNonNegativeInt (value : jsnum) : result Z :=
  match int_at_least 0 value with Some z => Ok z | None => Throw E_VALIDATION end.

(* @src domain/types/TickReceipt.ts assertOpsArray *)
Definition assertOpsArray (l : list OpOutcome) : result unit :=
  _ ← map_result validateOp l; Ok ().

(** The copies [freezeOps] makes are equal to the originals. *)
(* @src domain/types/TickReceipt.ts freezeOps *)
Definition freezeOps (l : list OpOutcome) : list OpOutcome :=
  (λ o, mkOutcome (op o) (target o) (result_ o) (reason o)) <$> l.

(* @src domain/types/TickReceipt.ts constructor *)
Definition new (patchSha writer : string) (lamport : jsnum) (ops : list OpOutcome)
  : result TickReceipt :=
  _ ← require (str_nonempty patchSha) E_VALIDATION;
  _ ← require (str_nonempty writer) E_VALIDATION;
  l ← assertNonNegativeInt lamport;
  _ ← assertOpsArray ops;
  Ok (mk patchSha writer l (freezeOps ops)).

(* @src domain/types/TickReceipt.ts createTickReceipt *)
Definition createTickReceipt (patchSha writer : string) (lamport : jsnum) (ops : list OpOutcome)
  : result TickReceipt := new patchSha writer lamport ops.

Lemma freezeOps_id l : freezeOps l = l.
Proof. unfold freezeOps. rewrite <- (list_fmap_id l) at 2. apply list_fmap_ext. by intros ? []. Qed.
End TickReceipt.

Module ReceiptBuilder.
Import ORSet.

(* @src domain/services/ReceiptBuilder.ts _isNonEmptyString *)
Definition isNonEmptyString (value : option string) : bool :=
  match value with Some v => str_nonempty v | None => false end.

(* @src domain/services/ReceiptBuilder.ts hasEffectiveRemoval *)
Definition hasEffectiveRemoval (s : ORSet) (targetDots : gset string) : bool :=
  let dotToElement := DiffCalculator.buildDotToElement s targetDots in
  existsb (λ d, negb (isTombstoned s d) && bool_decide (is_Some (dotToElement !! d)))
  (base.elements targetDots).

(* @src domain/services/ReceiptBuilder.ts nodeAddOutcome *)
Definition nodeAddOutcome (s : ORSet) (node : string) (dot : Dot.Dot) : OpOutcomeResult :=
  if hasDot s node (Dot.encode dot) then OpRedundant node else OpApplied node.

(* @src domain/services/ReceiptBuilder.ts nodeRemoveOutcome *)
Definition nodeRemoveOutcome (s : ORSet) (node : option string) (observedDots : list string)
  : OpOutcomeResult :=
  let effective := hasEffectiveRemoval s (list_to_set observedDots) in
  let target := if isNonEmptyString node then default "*" node else "*" in
  if effective then OpApplied target else OpRedundant target.

(* @src domain/services/ReceiptBuilder.ts edgeAddOutcome *)
Definition edgeAddOutcome (s : ORSet) (dot : Dot.Dot) (edgeKey : string) : OpOutcomeResult :=
  if hasDot s edgeKey (Dot.encode dot) then OpRedundant edgeKey else OpApplied edgeKey.

(* @src domain/services/ReceiptBuilder.ts _edgeRemoveTargetKey *)
Definition edgeRemoveTargetKey (from to label : option string) : string :=
  match from, to, label with
  | Some f, Some t, Some l =>
    if str_nonempty f && str_nonempty t && str_nonempty l then encodeEdgeKey f t l else "*"
  | _, _, _ => "*"
  end.

(* @src domain/services/ReceiptBuilder.ts edgeRemoveOutcome *)
Definition edgeRemoveOutcome (s : ORSet) (from to label : option string)
  (observedDots : list string) : OpOutcomeResult :=
  let effective := hasEffectiveRemoval s (list_to_set observedDots) in
  let target := edgeRemoveTargetKey from to label in
  if effective then OpApplied target else OpRedundant target.

(* @src domain/services/ReceiptBuilder.ts propOutcomeForKey *)
Definition propOutcomeForKey (state : WarpState.WarpState) (key : string)
  (eventId : EventId.EventId) : OpOutcomeResult :=
  match WarpState.getEncodedProp state key with
  | None => OpApplied key
  | Some current =>
    let cmp := EventId.compareEventIds eventId (LWW.eventId current) in
    if 0 <? cmp then OpApplied key
    else if cmp <? 0 then OpSuperseded key (LWW.eventId current)
    else OpRedundant key
  end.

(* @src domain/services/ReceiptBuilder.ts propSetOutcome *)
Definition propSetOutcome (state : WarpState.WarpState) (node key : string)
  (eventId : EventId.EventId) : OpOutcomeResult :=
  propOutcomeForKey state (encodePropKey node key) eventId.

(* @src domain/services/ReceiptBuilder.ts edgePropSetOutcome *)
Definition edgePropSetOutcome (state : WarpState.WarpState) (from to label key : string)
  (eventId : EventId.EventId) : OpOutcomeResult :=
  propOutcomeForKey state (encodeEdgePropKey from to label key) eventId.

(** A removal is effective when it tombstones a dot some element carries. *)
Lemma hasEffectiveRemoval_spec s targets :
  DiffCalculator.owned s →
  hasEffectiveRemoval s targets = true ↔
  ∃ d e, d ∈ targets ∧ (d ∉ tombstones s) ∧ d ∈ dots_of s e.
Proof.
  intros Ho. unfold hasEffectiveRemoval. rewrite existsb_exists. split.
  - intros (d & Hd%list_elem_of_In%base.elem_of_elements & [Ht He]%andb_true_iff).
  apply negb_true_iff, bool_decide_eq_false in Ht. apply bool_decide_eq_true in He as [e He].
  apply DiffCalculator.buildDotToElement_spec in He as [_ He]; [|done]. eauto.
  - intros (d & e & Hd & Ht & He). exists d.
  split; [by apply list_elem_of_In, base.elem_of_elements|].
  apply andb_true_iff. split; [by apply negb_true_iff, bool_decide_eq_false|].
  apply bool_decide_eq_true. exists e. by apply DiffCalculator.buildDotToElement_spec.
Qed.

(** An ineffective removal changes no membership. *)
Lemma ineffective_remove s targets e :
  DiffCalculator.owned s → hasEffectiveRemoval s targets = false →
  contains (remove targets s) e = contains s e.
Proof.
  intros Ho Hf. apply contains_ext. unfold live. unfold remove; simpl.
  split; intros (d & Hd & Hn).
  - exists d. split; [done|]. set_solver.
  - exists d. split; [done|]. intros [?|Hin]%elem_of_union; [done|].
  assert (hasEffectiveRemoval s targets = true); [|congruence].
  apply hasEffectiveRemoval_spec; [done|]. by exists d, e.
Qed.
End ReceiptBuilder.
