(* ===== verification/Ops.v ===== *)
(** The operation classes ([types/ops/]): validating constructors, and the
    methods the reducer calls, as an interface with one instance per class.

    A constructor argument that is not a string is [None]; [observedDots] that
    is not an array is [None], and its elements that are not strings are. *)
From S2P Require Export Receipts.

Abbreviation State := WarpState.WarpState.
Abbreviation EventId := EventId.EventId.

(* @src domain/types/ops/SnapshotBeforeOp.ts SnapshotBeforeOp *)
Record SnapshotBeforeOp := Snapshot {
  nodeWasAlive : option bool;
  edgeWasAlive : option bool;
  sb_edgeKey : option string;
  prevPropValue : jsval;
  sb_propKey : option string;
  aliveBeforeNodes : option (list string);
  aliveBeforeEdges : option (list string) }.

Definition no_snapshot : SnapshotBeforeOp := Snapshot None None None JUndefined None None None.

(** The abstract class [Op]: what the reducer asks of an operation. *)
(* @src domain/types/ops/Op.ts Op 22-61 *)
Class OpMethods (A : Type) := {
    receiptName : A → string;
    mutate : A → EventId → step State unit;
    outcome : A → State → EventId → OpOutcomeResult;
    snapshot : A → State → SnapshotBeforeOp;
    accumulate : A → PatchDiff.PatchDiff → State → SnapshotBeforeOp → PatchDiff.PatchDiff;
  }.

(** ** Validation helpers *)

(* @src domain/types/ops/validate.ts assertNonEmptyString *)
Definition assertNonEmptyString (value : option string) : result string :=
  match value with
  | None => Throw PatchMalformed
  | Some v => _ ← require (str_nonempty v) PatchMalformed; Ok v
  end.

(* @src domain/types/ops/validate.ts assertNoReservedBytes *)
Definition assertNoReservedBytes (value : string) : result unit :=
  _ ← require (negb (str_includes FIELD_SEPARATOR value)) PatchMalformed;
  require (negb (str_nonempty value && starts_with_prefix value)) PatchMalformed.

(* @src domain/types/ops/validate.ts assertArray *)
Definition assertArray {A} (value : option (list A)) : result (list A) :=
  match value with None => Throw PatchMalformed | Some l => Ok l end.

(** The dots of a removal, each a non-empty string. *)
Definition assertDots (observedDots : option (list (option string))) : result (list string) :=
  l ← assertArray observedDots; map_result assertNonEmptyString l.

(** [dot instanceof Dot] *)
Definition assertDotInstance (dot : option Dot.Dot) : result Dot.Dot :=
  match dot with Some d => Ok d | None => Throw PatchMalformed end.

Lemma assertNonEmptyString_ok v w :
  assertNonEmptyString v = Ok w ↔ v = Some w ∧ str_nonempty w = true.
Proof.
  destruct v as [v|]; simpl; [|naive_solver]. destruct (str_nonempty v) eqn:E; simpl.
  - split; [by intros [= <-]|by intros [[= <-] _]].
  - split; [done|]. intros [[= <-] ?]. congruence.
Qed.

Lemma assertNoReservedBytes_ok v :
  str_nonempty v = true → assertNoReservedBytes v = Ok () ↔ ident_ok v.
Proof.
  intros Hne. unfold assertNoReservedBytes, ident_ok, no_sep. rewrite Hne. simpl.
  destruct (str_includes FIELD_SEPARATOR v), (starts_with_prefix v); simpl; naive_solver.
Qed.

(** ** Property helpers *)

(* @src domain/types/ops/propHelpers.ts mutateProp *)
Definition mutateProp (propKey : string) (eventId : EventId) (value : jsval) : step State unit :=
  modify (WarpState.mutatePropLWW propKey eventId value).

Definition reg_value (r : option WarpState.register) : jsval :=
  match r with Some reg => LWW.value reg | None => JUndefined end.

(* @src domain/types/ops/propHelpers.ts snapshotProp *)
Definition snapshotProp (s : State) (propKey : string) : SnapshotBeforeOp :=
  Snapshot None None None (reg_value (WarpState.getEncodedProp s propKey)) (Some propKey)
    None None.

Definition push_prop (p : PatchDiff.PropDiffEntry) (d : PatchDiff.PatchDiff) : PatchDiff.PatchDiff :=
  PatchDiff.mk (PatchDiff.nodesAdded d) (PatchDiff.nodesRemoved d) (PatchDiff.edgesAdded d)
    (PatchDiff.edgesRemoved d) (PatchDiff.propsChanged d ++ [p]).

(* @src domain/types/ops/propHelpers.ts accumulatePropDiff *)
Definition accumulatePropDiff (diff : PatchDiff.PatchDiff) (s : State) (nodeId key : string)
    (before : SnapshotBeforeOp) : PatchDiff.PatchDiff :=
  let reg := match sb_propKey before with
             | Some k => WarpState.getEncodedProp s k
             | None => None
             end in
  let newVal := reg_value reg in
  if negb (js_strict_eq newVal (prevPropValue before))
  then push_prop (PatchDiff.PropDiff nodeId key newVal (prevPropValue before)) diff
  else diff.

(** ** The state's alive sets as receivers *)

Definition on_nodes (f : ORSet.ORSet → ORSet.ORSet) (s : State) : State :=
  WarpState.mk (f (WarpState.nodeAlive s)) (WarpState.edgeAlive s) (WarpState.prop s)
    (WarpState.observedFrontier s) (WarpState.edgeBirthEvent s).
Definition on_edges (f : ORSet.ORSet → ORSet.ORSet) (s : State) : State :=
  WarpState.mk (WarpState.nodeAlive s) (f (WarpState.edgeAlive s)) (WarpState.prop s)
    (WarpState.observedFrontier s) (WarpState.edgeBirthEvent s).
Definition on_births (f : gmap string EventId → gmap string EventId) (s : State) : State :=
  WarpState.mk (WarpState.nodeAlive s) (WarpState.edgeAlive s) (WarpState.prop s)
    (WarpState.observedFrontier s) (f (WarpState.edgeBirthEvent s)).

Module NodeAdd.
(* @src domain/types/ops/NodeAdd.ts NodeAdd 16-19 *)
Record NodeAdd := mk { node : string; dot : Dot.Dot }.

(* @src domain/types/ops/NodeAdd.ts constructor *)
Definition new (node : option string) (dot : option Dot.Dot) : result NodeAdd :=
  n ← assertNonEmptyString node; _ ← assertNoReservedBytes n;
  d ← assertDotInstance dot; Ok (mk n d).

(* @src domain/types/ops/NodeAdd.ts mutate *)
Definition mutate (o : NodeAdd) (_ : EventId) : step State unit :=
  modify (on_nodes (ORSet.add (node o) (dot o))).

(* @src domain/types/ops/NodeAdd.ts outcome *)
Definition outcome (o : NodeAdd) (s : State) (_ : EventId) : OpOutcomeResult :=
  ReceiptBuilder.nodeAddOutcome (WarpState.nodeAlive s) (node o) (dot o).

(* @src domain/types/ops/NodeAdd.ts snapshot *)
Definition snapshot (o : NodeAdd) (s : State) : SnapshotBeforeOp :=
  Snapshot (Some (ORSet.contains (WarpState.nodeAlive s) (node o))) None None JUndefined
  None None None.

(* @src domain/types/ops/NodeAdd.ts accumulate *)
Definition accumulate (o : NodeAdd) (diff : PatchDiff.PatchDiff) (s : State)
  (before : SnapshotBeforeOp) : PatchDiff.PatchDiff :=
  if negb (bool_decide (nodeWasAlive before = Some true))
   && ORSet.contains (WarpState.nodeAlive s) (node o)
  then PatchDiff.mk (PatchDiff.nodesAdded diff ++ [node o]) (PatchDiff.nodesRemoved diff)
       (PatchDiff.edgesAdded diff) (PatchDiff.edgesRemoved diff) (PatchDiff.propsChanged diff)
  else diff.

#[global] Instance methods : OpMethods NodeAdd :=
  Build_OpMethods _ (λ _, "NodeAdd") mutate outcome snapshot accumulate.
End NodeAdd.

Module NodeRemove.
(* @src domain/types/ops/NodeRemove.ts NodeRemove 15-18 *)
Record NodeRemove := mk { node : string; observedDots : list string }.

(* @src domain/types/ops/NodeRemove.ts constructor *)
Definition new (node : option string) (observedDots : option (list (option string)))
  : result NodeRemove :=
  n ← assertNonEmptyString node; _ ← assertNoReservedBytes n;
  ds ← assertDots observedDots; Ok (mk n ds).

(* @src domain/types/ops/NodeRemove.ts mutate *)
Definition mutate (o : NodeRemove) (_ : EventId) : step State unit :=
  modify (on_nodes (ORSet.remove (list_to_set (observedDots o)))).

(* @src domain/types/ops/NodeRemove.ts outcome *)
Definition outcome (o : NodeRemove) (s : State) (_ : EventId) : OpOutcomeResult :=
  ReceiptBuilder.nodeRemoveOutcome (WarpState.nodeAlive s) (Some (node o)) (observedDots o).

(* @src domain/types/ops/NodeRemove.ts snapshot *)
Definition snapshot (o : NodeRemove) (s : State) : SnapshotBeforeOp :=
  Snapshot None None None JUndefined None
  (Some (DiffCalculator.aliveElementsForDots (WarpState.nodeAlive s)
           (js_set (observedDots o)))) None.

(* @src domain/types/ops/NodeRemove.ts accumulate *)
Definition accumulate (o : NodeRemove) (diff : PatchDiff.PatchDiff) (s : State)
  (before : SnapshotBeforeOp) : PatchDiff.PatchDiff :=
  DiffCalculator.collectNodeRemovals diff s (aliveBeforeNodes before).

#[global] Instance methods : OpMethods NodeRemove :=
  Build_OpMethods _ (λ _, "NodeTombstone") mutate outcome snapshot accumulate.
End NodeRemove.

(** The identity check the edge constructors share, in their order. *)
Definition assertEdge (from to label : option string) : result edge_parts :=
  f ← assertNonEmptyString from; t ← assertNonEmptyString to; l ← assertNonEmptyString label;
  _ ← assertNoReservedBytes f; _ ← assertNoReservedBytes t; _ ← assertNoReservedBytes l;
  Ok (EdgeParts f t l).

Module EdgeAdd.
(* @src domain/types/ops/EdgeAdd.ts EdgeAdd 18-23 *)
Record EdgeAdd := mk { edge : edge_parts; dot : Dot.Dot }.

(* @src domain/types/ops/EdgeAdd.ts constructor *)
Definition new (from to label : option string) (dot : option Dot.Dot) : result EdgeAdd :=
  e ← assertEdge from to label; d ← assertDotInstance dot; Ok (mk e d).

Definition key (o : EdgeAdd) : string := WarpState.key_of (edge o).

(* @src domain/types/ops/EdgeAdd.ts mutate *)
Definition mutate (o : EdgeAdd) (eventId : EventId) : step State unit :=
  _ ← modify (on_edges (ORSet.add (key o) (dot o)));
  modify (on_births (λ m,
  match m !! key o with
  | None => <[key o := eventId]> m
  | Some prev => if 0 <? EventId.compareEventIds eventId prev then <[key o := eventId]> m else m
  end)).

(* @src domain/types/ops/EdgeAdd.ts outcome *)
Definition outcome (o : EdgeAdd) (s : State) (_ : EventId) : OpOutcomeResult :=
  ReceiptBuilder.edgeAddOutcome (WarpState.edgeAlive s) (dot o) (key o).

(* @src domain/types/ops/EdgeAdd.ts snapshot *)
Definition snapshot (o : EdgeAdd) (s : State) : SnapshotBeforeOp :=
  Snapshot None (Some (ORSet.contains (WarpState.edgeAlive s) (key o))) (Some (key o)) JUndefined
  None None None.

(* @src domain/types/ops/EdgeAdd.ts accumulate *)
Definition accumulate (o : EdgeAdd) (diff : PatchDiff.PatchDiff) (s : State)
  (before : SnapshotBeforeOp) : PatchDiff.PatchDiff :=
  match sb_edgeKey before with
  | Some k =>
    if negb (bool_decide (edgeWasAlive before = Some true))
       && ORSet.contains (WarpState.edgeAlive s) k
    then PatchDiff.mk (PatchDiff.nodesAdded diff) (PatchDiff.nodesRemoved diff)
           (PatchDiff.edgesAdded diff ++ [edge o]) (PatchDiff.edgesRemoved diff)
           (PatchDiff.propsChanged diff)
    else diff
  | None => diff
  end.

#[global] Instance methods : OpMethods EdgeAdd :=
  Build_OpMethods _ (λ _, "EdgeAdd") mutate outcome snapshot accumulate.
End EdgeAdd.

Module EdgeRemove.
(* @src domain/types/ops/EdgeRemove.ts EdgeRemove 15-20 *)
Record EdgeRemove := mk { edge : edge_parts; observedDots : list string }.

(* @src domain/types/ops/EdgeRemove.ts constructor *)
Definition new (from to label : option string) (observedDots : option (list (option string)))
  : result EdgeRemove :=
  e ← assertEdge from to label; ds ← assertDots observedDots; Ok (mk e ds).

(* @src domain/types/ops/EdgeRemove.ts mutate *)
Definition mutate (o : EdgeRemove) (_ : EventId) : step State unit :=
  modify (on_edges (ORSet.remove (list_to_set (observedDots o)))).

(* @src domain/types/ops/EdgeRemove.ts outcome *)
Definition outcome (o : EdgeRemove) (s : State) (_ : EventId) : OpOutcomeResult :=
  ReceiptBuilder.edgeRemoveOutcome (WarpState.edgeAlive s) (Some (ep_from (edge o)))
  (Some (ep_to (edge o))) (Some (ep_label (edge o))) (observedDots o).

(* @src domain/types/ops/EdgeRemove.ts snapshot *)
Definition snapshot (o : EdgeRemove) (s : State) : SnapshotBeforeOp :=
  Snapshot None None None JUndefined None None
  (Some (DiffCalculator.aliveElementsForDots (WarpState.edgeAlive s)
           (js_set (observedDots o)))).

(* @src domain/types/ops/EdgeRemove.ts accumulate *)
Definition accumulate (o : EdgeRemove) (diff : PatchDiff.PatchDiff) (s : State)
  (before : SnapshotBeforeOp) : PatchDiff.PatchDiff :=
  DiffCalculator.collectEdgeRemovals diff s (aliveBeforeEdges before).

#[global] Instance methods : OpMethods EdgeRemove :=
  Build_OpMethods _ (λ _, "EdgeTombstone") mutate outcome snapshot accumulate.
End EdgeRemove.

Module PropSet.
(* @src domain/types/ops/PropSet.ts PropSet 22-26 *)
Record PropSet := mk { node : string; key : string; value : jsval }.

(* @src domain/types/ops/PropSet.ts constructor *)
Definition new (node key : option string) (value : jsval) : result PropSet :=
  n ← assertNonEmptyString node; k ← assertNonEmptyString key;
  _ ← assertNoReservedBytes k; Ok (mk n k value).

(* @src domain/types/ops/PropSet.ts mutate *)
Definition mutate (o : PropSet) (eventId : EventId) : step State unit :=
  _ ← lift (require (negb (starts_with_prefix (node o))) PatchMalformed);
  mutateProp (encodePropKey (node o) (key o)) eventId (value o).

(* @src domain/types/ops/PropSet.ts outcome *)
Definition outcome (o : PropSet) (s : State) (eventId : EventId) : OpOutcomeResult :=
  ReceiptBuilder.propSetOutcome s (node o) (key o) eventId.

(* @src domain/types/ops/PropSet.ts snapshot *)
Definition snapshot (o : PropSet) (s : State) : SnapshotBeforeOp :=
  snapshotProp s (encodePropKey (node o) (key o)).

(* @src domain/types/ops/PropSet.ts accumulate *)
Definition accumulate (o : PropSet) (diff : PatchDiff.PatchDiff) (s : State)
  (before : SnapshotBeforeOp) : PatchDiff.PatchDiff :=
  accumulatePropDiff diff s (node o) (key o) before.

#[global] Instance methods : OpMethods PropSet :=
  Build_OpMethods _ (λ _, "PropSet") mutate outcome snapshot accumulate.
End PropSet.

Module NodePropSet.
(* @src domain/types/ops/NodePropSet.ts NodePropSet 18-22 *)
Record NodePropSet := mk { node : string; key : string; value : jsval }.

(* @src domain/types/ops/NodePropSet.ts constructor *)
Definition new (node key : option string) (value : jsval) : result NodePropSet :=
  n ← assertNonEmptyString node; k ← assertNonEmptyString key;
  _ ← assertNoReservedBytes n; _ ← assertNoReservedBytes k; Ok (mk n k value).

(* @src domain/types/ops/NodePropSet.ts mutate *)
Definition mutate (o : NodePropSet) (eventId : EventId) : step State unit :=
  mutateProp (encodePropKey (node o) (key o)) eventId (value o).

(* @src domain/types/ops/NodePropSet.ts outcome *)
Definition outcome (o : NodePropSet) (s : State) (eventId : EventId) : OpOutcomeResult :=
  ReceiptBuilder.propSetOutcome s (node o) (key o) eventId.

(* @src domain/types/ops/NodePropSet.ts snapshot *)
Definition snapshot (o : NodePropSet) (s : State) : SnapshotBeforeOp :=
  snapshotProp s (encodePropKey (node o) (key o)).

(* @src domain/types/ops/NodePropSet.ts accumulate *)
Definition accumulate (o : NodePropSet) (diff : PatchDiff.PatchDiff) (s : State)
  (before : SnapshotBeforeOp) : PatchDiff.PatchDiff :=
  accumulatePropDiff diff s (node o) (key o) before.

#[global] Instance methods : OpMethods NodePropSet :=
  Build_OpMethods _ (λ _, "NodePropSet") mutate outcome snapshot accumulate.
End NodePropSet.

Module EdgePropSet.
(* @src domain/types/ops/EdgePropSet.ts EdgePropSet 18-24 *)
Record EdgePropSet := mk { edge : edge_parts; key : string; value : jsval }.

(* @src domain/types/ops/EdgePropSet.ts constructor *)
Definition new (from to label key : option string) (value : jsval) : result EdgePropSet :=
  f ← assertNonEmptyString from; t ← assertNonEmptyString to; l ← assertNonEmptyString label;
  k ← assertNonEmptyString key;
  _ ← assertNoReservedBytes f; _ ← assertNoReservedBytes t; _ ← assertNoReservedBytes l;
  _ ← assertNoReservedBytes k; Ok (mk (EdgeParts f t l) k value).

Definition prop_key (o : EdgePropSet) : string := WarpState.edge_prop_key (edge o) (key o).

(* @src domain/types/ops/EdgePropSet.ts mutate *)
Definition mutate (o : EdgePropSet) (eventId : EventId) : step State unit :=
  mutateProp (prop_key o) eventId (value o).

(* @src domain/types/ops/EdgePropSet.ts outcome *)
Definition outcome (o : EdgePropSet) (s : State) (eventId : EventId) : OpOutcomeResult :=
  ReceiptBuilder.edgePropSetOutcome s (ep_from (edge o)) (ep_to (edge o)) (ep_label (edge o))
  (key o) eventId.

(* @src domain/types/ops/EdgePropSet.ts snapshot *)
Definition snapshot (o : EdgePropSet) (s : State) : SnapshotBeforeOp :=
  snapshotProp s (prop_key o).

(* @src domain/types/ops/EdgePropSet.ts accumulate *)
Definition accumulate (o : EdgePropSet) (diff : PatchDiff.PatchDiff) (s : State)
  (before : SnapshotBeforeOp) : PatchDiff.PatchDiff :=
  accumulatePropDiff diff s (WarpState.key_of (edge o)) (key o) before.

#[global] Instance methods : OpMethods EdgePropSet :=
  Build_OpMethods _ (λ _, "EdgePropSet") mutate outcome snapshot accumulate.
End EdgePropSet.

Module BlobValue.
(* @src domain/types/ops/BlobValue.ts BlobValue 13-16 *)
Record BlobValue := mk { node : string; oid : string }.

(* @src domain/types/ops/BlobValue.ts constructor *)
Definition new (node oid : option string) : result BlobValue :=
  n ← assertNonEmptyString node; o ← assertNonEmptyString oid;
  _ ← assertNoReservedBytes n; Ok (mk n o).

(* @src domain/types/ops/BlobValue.ts mutate 29-29 *)
Definition mutate (_ : BlobValue) (_ : EventId) : step State unit := mret ().

(* @src domain/types/ops/BlobValue.ts outcome *)
Definition outcome (o : BlobValue) (_ : State) (_ : EventId) : OpOutcomeResult :=
  OpApplied (if str_nonempty (oid o) then oid o else "*").

(* @src domain/types/ops/BlobValue.ts snapshot 36-36 *)
Definition snapshot (_ : BlobValue) (_ : State) : SnapshotBeforeOp := no_snapshot.

(* @src domain/types/ops/BlobValue.ts accumulate 37-37 *)
Definition accumulate (_ : BlobValue) (diff : PatchDiff.PatchDiff) (_ : State)
  (_ : SnapshotBeforeOp) : PatchDiff.PatchDiff := diff.

#[global] Instance methods : OpMethods BlobValue :=
  Build_OpMethods _ (λ _, "BlobValue") mutate outcome snapshot accumulate.
End BlobValue.

(** ** All operations *)

(* @src domain/types/ops/unions.ts PatchOp 27-40 *)
Inductive Op : Type :=
  | ONodeAdd (o : NodeAdd.NodeAdd)
  | ONodeRemove (o : NodeRemove.NodeRemove)
  | OEdgeAdd (o : EdgeAdd.EdgeAdd)
  | OEdgeRemove (o : EdgeRemove.EdgeRemove)
  | OPropSet (o : PropSet.PropSet)
  | ONodePropSet (o : NodePropSet.NodePropSet)
  | OEdgePropSet (o : EdgePropSet.EdgePropSet)
  | OBlobValue (o : BlobValue.BlobValue).

(** A method call on an [Op] goes to its class. *)
Definition dispatch {B : Type} (call : ∀ A, OpMethods A → A → B) (o : Op) : B :=
  match o with
  | ONodeAdd o => call _ _ o | ONodeRemove o => call _ _ o
  | OEdgeAdd o => call _ _ o | OEdgeRemove o => call _ _ o
  | OPropSet o => call _ _ o | ONodePropSet o => call _ _ o
  | OEdgePropSet o => call _ _ o | OBlobValue o => call _ _ o
  end.

#[export] Instance op_methods : OpMethods Op := {
    receiptName := dispatch (λ _ M, @receiptName _ M);
    mutate := dispatch (λ _ M, @mutate _ M);
    outcome := dispatch (λ _ M, @outcome _ M);
    snapshot := dispatch (λ _ M, @snapshot _ M);
    accumulate := dispatch (λ _ M, @accumulate _ M);
  }.

(** The [type] discriminator. *)
Definition op_type (o : Op) : string :=
  match o with
  | ONodeAdd _ => "NodeAdd" | ONodeRemove _ => "NodeRemove"
  | OEdgeAdd _ => "EdgeAdd" | OEdgeRemove _ => "EdgeRemove"
  | OPropSet _ => "PropSet" | ONodePropSet _ => "NodePropSet"
  | OEdgePropSet _ => "EdgePropSet" | OBlobValue _ => "BlobValue"
  end.

(** ** What the constructors guarantee *)

Definition edge_ident (e : edge_parts) : Prop :=
  ident_ok (ep_from e) ∧ ident_ok (ep_to e) ∧ ident_ok (ep_label e).
Definition dots_ok (l : list string) : Prop := Forall (λ d, str_nonempty d = true) l.

Definition op_ok (o : Op) : Prop :=
  match o with
  | ONodeAdd o => ident_ok (NodeAdd.node o) ∧ valid_dot (NodeAdd.dot o)
  | ONodeRemove o => ident_ok (NodeRemove.node o) ∧ dots_ok (NodeRemove.observedDots o)
  | OEdgeAdd o => edge_ident (EdgeAdd.edge o) ∧ valid_dot (EdgeAdd.dot o)
  | OEdgeRemove o => edge_ident (EdgeRemove.edge o) ∧ dots_ok (EdgeRemove.observedDots o)
  | OPropSet o => str_nonempty (PropSet.node o) = true ∧ ident_ok (PropSet.key o)
  | ONodePropSet o => ident_ok (NodePropSet.node o) ∧ ident_ok (NodePropSet.key o)
  | OEdgePropSet o => edge_ident (EdgePropSet.edge o) ∧ ident_ok (EdgePropSet.key o)
  | OBlobValue o => ident_ok (BlobValue.node o) ∧ str_nonempty (BlobValue.oid o) = true
  end.

(** The ops the reducer applies: everything but the raw [PropSet]. *)
Definition canonical (o : Op) : bool := match o with OPropSet _ => false | _ => true end.

Lemma edge_ident_ok e : edge_ident e → EdgeRecord.edge_ok e.
Proof. intros (? & ? & ? & ? & ?). done. Qed.

Lemma ident_nonempty s : ident_ok s → str_nonempty s = true.
Proof. by intros []. Qed.

(** Reads back a constructor that returned. *)
Ltac invert_checks :=
  invert_ok;
  repeat match goal with
  | H : assertNonEmptyString _ = Ok _ |- _ => apply assertNonEmptyString_ok in H as [? ?]
  | H : assertNoReservedBytes _ = Ok ?u |- _ =>
      destruct u; apply assertNoReservedBytes_ok in H; [|assumption]
  | H : assertDotInstance ?d = Ok _ |- _ => destruct d; [injection H as <-|discriminate H]
  end; subst.

Lemma ident_checks v :
  ident_ok v → assertNonEmptyString (Some v) = Ok v ∧ assertNoReservedBytes v = Ok ().
Proof.
  intros Hv. split; [apply assertNonEmptyString_ok; split; [done|apply Hv]|].
  apply assertNoReservedBytes_ok; [apply Hv|done].
Qed.

Lemma assertEdge_ok f t l e :
  assertEdge f t l = Ok e ↔
  f = Some (ep_from e) ∧ t = Some (ep_to e) ∧ l = Some (ep_label e) ∧ edge_ident e.
Proof.
  unfold assertEdge. split.
  - intros H. invert_checks. done.
  - intros (-> & -> & -> & [F1 F2]%ident_checks & [T1 T2]%ident_checks & [L1 L2]%ident_checks).
    rewrite F1. cbn [mbind result_bind]. rewrite T1. cbn [mbind result_bind].
    rewrite L1. cbn [mbind result_bind]. rewrite F2, T2, L2. by destruct e.
Qed.

Lemma assertDots_ok l ds :
  assertDots l = Ok ds ↔ l = Some (Some <$> ds) ∧ dots_ok ds.
Proof.
  unfold assertDots, assertArray. destruct l as [l|]; simpl; [|naive_solver].
  rewrite map_result_ok. split.
  - induction 1 as [|x y l ds [-> ?]%assertNonEmptyString_ok _ IH]; [split; [done|constructor]|].
    destruct IH as [[= ->] ?]. split; [done|]. by constructor.
  - intros [[= ->] Hok]. induction Hok as [|d ds Hd _ IH]; csimpl; constructor; [|done].
    by apply assertNonEmptyString_ok.
Qed.

Lemma NodeAdd_new n d o :
  NodeAdd.new n d = Ok o ↔
  n = Some (NodeAdd.node o) ∧ d = Some (NodeAdd.dot o) ∧ ident_ok (NodeAdd.node o).
Proof.
  unfold NodeAdd.new. split.
  - intros H. by invert_checks.
  - intros (-> & -> & [H1 H2]%ident_checks). rewrite H1. simpl. rewrite H2. by destruct o.
Qed.

Lemma NodeRemove_new n ds o :
  NodeRemove.new n ds = Ok o ↔
  n = Some (NodeRemove.node o) ∧ ds = Some (Some <$> NodeRemove.observedDots o) ∧
  op_ok (ONodeRemove o).
Proof.
  unfold NodeRemove.new. split.
  - intros H. invert_checks. by apply assertDots_ok in Ha1 as [-> ?].
  - intros (-> & -> & [H1 H2]%ident_checks & Hds). rewrite H1. simpl. rewrite H2. simpl.
    rewrite (proj2 (assertDots_ok _ (NodeRemove.observedDots o))) by done. by destruct o.
Qed.

Lemma EdgeAdd_new f t l d o :
  EdgeAdd.new f t l d = Ok o ↔
  assertEdge f t l = Ok (EdgeAdd.edge o) ∧ d = Some (EdgeAdd.dot o).
Proof.
  unfold EdgeAdd.new. split.
  - intros H. by invert_checks.
  - intros (-> & ->). by destruct o.
Qed.

Lemma EdgeRemove_new f t l ds o :
  EdgeRemove.new f t l ds = Ok o ↔
  assertEdge f t l = Ok (EdgeRemove.edge o) ∧ assertDots ds = Ok (EdgeRemove.observedDots o).
Proof.
  unfold EdgeRemove.new. split.
  - intros H. by invert_checks.
  - intros (-> & H). simpl. rewrite H. by destruct o.
Qed.

Lemma PropSet_new n k v o :
  PropSet.new n k v = Ok o ↔
  n = Some (PropSet.node o) ∧ k = Some (PropSet.key o) ∧ v = PropSet.value o ∧
  op_ok (OPropSet o).
Proof.
  unfold PropSet.new. split.
  - intros H. by invert_checks.
  - intros (-> & -> & -> & Hn & [H1 H2]%ident_checks).
    rewrite (proj2 (assertNonEmptyString_ok (Some (PropSet.node o)) (PropSet.node o))) by done.
    cbn [mbind result_bind]. rewrite H1. cbn [mbind result_bind]. rewrite H2. by destruct o.
Qed.

Lemma NodePropSet_new n k v o :
  NodePropSet.new n k v = Ok o ↔
  n = Some (NodePropSet.node o) ∧ k = Some (NodePropSet.key o) ∧ v = NodePropSet.value o ∧
  op_ok (ONodePropSet o).
Proof.
  unfold NodePropSet.new. split.
  - intros H. by invert_checks.
  - intros (-> & -> & -> & [H1 H2]%ident_checks & [H3 H4]%ident_checks).
    rewrite H1. cbn [mbind result_bind]. rewrite H3. cbn [mbind result_bind].
    rewrite H2, H4. by destruct o.
Qed.

Lemma EdgePropSet_new f t l k v o :
  EdgePropSet.new f t l k v = Ok o ↔
  f = Some (ep_from (EdgePropSet.edge o)) ∧ t = Some (ep_to (EdgePropSet.edge o)) ∧
  l = Some (ep_label (EdgePropSet.edge o)) ∧ k = Some (EdgePropSet.key o) ∧
  v = EdgePropSet.value o ∧ op_ok (OEdgePropSet o).
Proof.
  unfold EdgePropSet.new. split.
  - intros H. by invert_checks.
  - intros (-> & -> & -> & -> & -> & ([F1 F2]%ident_checks & [T1 T2]%ident_checks &
      [L1 L2]%ident_checks) & [K1 K2]%ident_checks).
    rewrite F1. cbn [mbind result_bind]. rewrite T1. cbn [mbind result_bind].
    rewrite L1. cbn [mbind result_bind]. rewrite K1. cbn [mbind result_bind].
    rewrite F2, T2, L2, K2. by destruct o as [[] ? ?].
Qed.

Lemma BlobValue_new n oid o :
  BlobValue.new n oid = Ok o ↔
  n = Some (BlobValue.node o) ∧ oid = Some (BlobValue.oid o) ∧ op_ok (OBlobValue o).
Proof.
  unfold BlobValue.new. split.
  - intros H. by invert_checks.
  - intros (-> & -> & [H1 H2]%ident_checks & Ho). rewrite H1. cbn [mbind result_bind].
    rewrite (proj2 (assertNonEmptyString_ok (Some (BlobValue.oid o)) (BlobValue.oid o))) by done.
    cbn [mbind result_bind]. rewrite H2. by destruct o.
Qed.
