(* ===== verification/OpNormalizer.v ===== *)
(** Decoded operations and their canonical forms ([services/OpLike.ts],
    [services/OpValidator.ts], [services/OpNormalizer.ts]).

    A decoded object has every field optional: a string field that is not a
    string is [None]. *)
From S2P Require Export Ops.

(** A [dot] field: not an object, an instance, or an object whose [writerId]
    may not be a string and whose [counter] may not be a number. *)
(* @src domain/services/OpLike.ts RawDotLike *)
Inductive raw_dot : Type :=
  | DotMissing
  | DotInstance (d : Dot.Dot)
  | DotObject (writerId : option string) (counter : option jsnum).

(* @src domain/services/OpLike.ts OpLike *)
Record pojo := Pojo {
  type : option string;
  p_node : option string;
  p_dot : raw_dot;
  p_observedDots : option (list (option string));
  p_from : option string;
  p_to : option string;
  p_label : option string;
  p_key : option string;
  p_value : jsval;
  p_oid : option string }.

Definition blank (ty : string) : pojo :=
  Pojo (Some ty) None DotMissing None None None None None JUndefined None.

(** An object that is an instance of an operation class, or is not. *)
Inductive op_like : Type :=
  | Decoded (p : pojo)
  | Instance (o : Op).

(** What an element of a patch's [ops] can be. *)
Inductive raw_op : Type :=
  | RUndefined
  | RNonObject (is_null : bool)
  | RObject (o : op_like).

Definition like_type (o : op_like) : option string :=
  match o with Decoded p => type p | Instance o => Some (op_type o) end.

Module OpValidator.

(* @src domain/services/OpValidator.ts RAW_KNOWN_OPS 41-44 *)
Definition RAW_KNOWN_OPS : gset string :=
  {["NodeAdd"; "NodeRemove"; "EdgeAdd"; "EdgeRemove"; "PropSet"; "BlobValue"]}.

(* @src domain/services/OpValidator.ts CANONICAL_KNOWN_OPS 50-53 *)
Definition CANONICAL_KNOWN_OPS : gset string :=
  {["NodeAdd"; "NodeRemove"; "EdgeAdd"; "EdgeRemove";
  "PropSet"; "NodePropSet"; "EdgePropSet"; "BlobValue"]}.

Definition known (set : gset string) (op : raw_op) : bool :=
  match op with
  | RObject o => match like_type o with Some t => bool_decide (t ∈ set) | None => false end
  | _ => false
  end.

(* @src domain/services/OpValidator.ts isKnownRaw *)
Definition isKnownRaw (op : raw_op) : bool := known RAW_KNOWN_OPS op.

(* @src domain/services/OpValidator.ts isKnownCanonical *)
Definition isKnownCanonical (op : raw_op) : bool := known CANONICAL_KNOWN_OPS op.

(** The field accesses [readField(op, field)] of the three assertions. *)
(* @src domain/services/OpValidator.ts assertString *)
Definition assertString (field : option string) : result string :=
  match field with Some v => Ok v | None => Throw PatchMalformed end.

(* @src domain/services/OpValidator.ts assertIterable *)
Definition assertIterable (field : option (list (option string))) : result (list (option string)) :=
  match field with Some v => Ok v | None => Throw PatchMalformed end.

(* @src domain/services/OpValidator.ts assertDot *)
Definition assertDot (dot : raw_dot) : result Dot.Dot :=
  match dot with DotInstance d => Ok d | _ => Throw PatchMalformed end.
End OpValidator.

Module OpNormalizer.

(* @src domain/services/OpNormalizer.ts expectString *)
Definition expectString (value : option string) : result string :=
  match value with Some v => Ok v | None => Throw PatchMalformed end.

(* @src domain/services/OpNormalizer.ts expectObservedDots *)
Definition expectObservedDots (value : option (list (option string)))
  : result (list (option string)) :=
  match value with Some l => Ok l | None => Throw PatchMalformed end.

(** The two fields of a dot object. *)
(* @src domain/services/OpNormalizer.ts expectDotObject *)
Definition expectDotObject (dot : raw_dot) : result (option string * option jsnum) :=
  match dot with
  | DotObject w c => Ok (w, c)
  | DotInstance d => Ok (Some (Dot.writerId d), Some (JInt (Dot.counter d)))
  | DotMissing => Throw PatchMalformed
  end.

(* @src domain/services/OpNormalizer.ts expectDotWriterId *)
Definition expectDotWriterId (writerId : option string) : result string :=
  match writerId with Some w => Ok w | None => Throw PatchMalformed end.

(* @src domain/services/OpNormalizer.ts expectDotCounter *)
Definition expectDotCounter (counter : option jsnum) : result jsnum :=
  match counter with
  | Some c => _ ← require (js_is_integer c) PatchMalformed; Ok c
  | None => Throw PatchMalformed
  end.

(* @src domain/services/OpNormalizer.ts hydrateDot *)
Definition hydrateDot (dot : raw_dot) : result Dot.Dot :=
  match dot with
  | DotInstance d => Ok d
  | _ =>
    '(w, c) ← expectDotObject dot;
    writerId ← expectDotWriterId w;
    counter ← expectDotCounter c;
    Dot.new writerId counter
  end.

(** The identity guards return the fields they establish. *)
(* @src domain/services/OpNormalizer.ts hasNodeIdentity *)
Definition hasNodeIdentity (p : pojo) : option string := p_node p.

(* @src domain/services/OpNormalizer.ts hasEdgeIdentity *)
Definition hasEdgeIdentity (p : pojo) : option edge_parts :=
  match p_from p, p_to p, p_label p with
  | Some f, Some t, Some l => Some (EdgeParts f t l)
  | _, _, _ => None
  end.

(* @src domain/services/OpNormalizer.ts hasNodePropIdentity *)
Definition hasNodePropIdentity (p : pojo) : option (string * string) :=
  match p_node p, p_key p with Some n, Some k => Some (n, k) | _, _ => None end.

(* @src domain/services/OpNormalizer.ts hasEdgePropIdentity *)
Definition hasEdgePropIdentity (p : pojo) : option (edge_parts * string) :=
  match hasEdgeIdentity p, p_key p with Some e, Some k => Some (e, k) | _, _ => None end.

(* @src domain/services/OpNormalizer.ts hasBlobIdentity *)
Definition hasBlobIdentity (p : pojo) : option (string * string) :=
  match p_node p, p_oid p with Some n, Some o => Some (n, o) | _, _ => None end.

(* @src domain/services/OpNormalizer.ts hydrateNodeAdd *)
Definition hydrateNodeAdd (p : pojo) : result op_like :=
  n ← expectString (p_node p); d ← hydrateDot (p_dot p);
  o ← NodeAdd.new (Some n) (Some d); Ok (Instance (ONodeAdd o)).

(* @src domain/services/OpNormalizer.ts hydrateNodeRemove *)
Definition hydrateNodeRemove (p : pojo) : result op_like :=
  match hasNodeIdentity p with
  | None => Ok (Decoded p)
  | Some n =>
    ds ← expectObservedDots (p_observedDots p);
    o ← NodeRemove.new (Some n) (Some ds); Ok (Instance (ONodeRemove o))
  end.

(* @src domain/services/OpNormalizer.ts hydrateEdgeAdd *)
Definition hydrateEdgeAdd (p : pojo) : result op_like :=
  f ← expectString (p_from p); t ← expectString (p_to p); l ← expectString (p_label p);
  d ← hydrateDot (p_dot p);
  o ← EdgeAdd.new (Some f) (Some t) (Some l) (Some d); Ok (Instance (OEdgeAdd o)).

(* @src domain/services/OpNormalizer.ts hydrateEdgeRemove *)
Definition hydrateEdgeRemove (p : pojo) : result op_like :=
  match hasEdgeIdentity p with
  | None => Ok (Decoded p)
  | Some e =>
    ds ← expectObservedDots (p_observedDots p);
    o ← EdgeRemove.new (Some (ep_from e)) (Some (ep_to e)) (Some (ep_label e)) (Some ds);
    Ok (Instance (OEdgeRemove o))
  end.

(* @src domain/services/OpNormalizer.ts hydratePropSet *)
Definition hydratePropSet (p : pojo) : result op_like :=
  n ← expectString (p_node p); k ← expectString (p_key p);
  o ← PropSet.new (Some n) (Some k) (p_value p); Ok (Instance (OPropSet o)).

(* @src domain/services/OpNormalizer.ts hydrateNodePropSet *)
Definition hydrateNodePropSet (p : pojo) : result op_like :=
  match hasNodePropIdentity p with
  | None => Ok (Decoded p)
  | Some (n, k) =>
    o ← NodePropSet.new (Some n) (Some k) (p_value p); Ok (Instance (ONodePropSet o))
  end.

(* @src domain/services/OpNormalizer.ts hydrateEdgePropSet *)
Definition hydrateEdgePropSet (p : pojo) : result op_like :=
  match hasEdgePropIdentity p with
  | None => Ok (Decoded p)
  | Some (e, k) =>
    o ← EdgePropSet.new (Some (ep_from e)) (Some (ep_to e)) (Some (ep_label e)) (Some k)
          (p_value p);
    Ok (Instance (OEdgePropSet o))
  end.

(* @src domain/services/OpNormalizer.ts hydrateBlobValue *)
Definition hydrateBlobValue (p : pojo) : result op_like :=
  match hasBlobIdentity p with
  | None => Ok (Decoded p)
  | Some (n, oid) => o ← BlobValue.new (Some n) (Some oid); Ok (Instance (OBlobValue o))
  end.

(* @src domain/services/OpNormalizer.ts HYDRATORS *)
Definition HYDRATORS : list (string * (pojo → result op_like)) :=
  [("NodeAdd", hydrateNodeAdd); ("NodeRemove", hydrateNodeRemove);
  ("EdgeAdd", hydrateEdgeAdd); ("EdgeRemove", hydrateEdgeRemove);
  ("PropSet", hydratePropSet); ("NodePropSet", hydrateNodePropSet);
  ("EdgePropSet", hydrateEdgePropSet); ("BlobValue", hydrateBlobValue)].

(* @src domain/services/OpNormalizer.ts isRuntimeOp *)
Definition isRuntimeOp (rawOp : op_like) : option Op :=
  match rawOp with Instance o => Some o | Decoded _ => None end.

(* @src domain/services/OpNormalizer.ts hydrateRawOp *)
Definition hydrateRawOp (rawOp : op_like) : result op_like :=
  match rawOp with
  | Instance o => Ok (Instance o)
  | Decoded p =>
    match type p ≫= λ t, ordmap_get t HYDRATORS with
    | Some hydrate => hydrate p
    | None => Ok (Decoded p)
    end
  end.

(* @src domain/services/OpNormalizer.ts hydrateDecodedOp *)
Definition hydrateDecodedOp (rawOp : op_like) : result op_like := hydrateRawOp rawOp.

(* @src domain/services/OpNormalizer.ts hydrateKnownDecodedOp *)
Definition hydrateKnownDecodedOp (rawOp : op_like) : result Op :=
  hydratedOp ← hydrateDecodedOp rawOp;
  match isRuntimeOp hydratedOp with
  | Some o => Ok o
  | None => Throw PatchMalformed
  end.

(* @src domain/services/OpNormalizer.ts normalizePropSet *)
Definition normalizePropSet (raw : PropSet.PropSet) : result Op :=
  if isLegacyEdgePropNode (PropSet.node raw) then
  e ← decodeLegacyEdgePropNode (PropSet.node raw);
  o ← EdgePropSet.new (Some (ep_from e)) (Some (ep_to e)) (Some (ep_label e))
        (Some (PropSet.key raw)) (PropSet.value raw);
  Ok (OEdgePropSet o)
  else
  o ← NodePropSet.new (Some (PropSet.node raw)) (Some (PropSet.key raw)) (PropSet.value raw);
  Ok (ONodePropSet o).

(* @src domain/services/OpNormalizer.ts normalizeRawOp *)
Definition normalizeRawOp (rawOp : op_like) : result op_like :=
  hydratedOp ← hydrateDecodedOp rawOp;
  match hydratedOp with
  | Instance (OPropSet p) => Instance <$> normalizePropSet p
  | _ => Ok hydratedOp
  end.

(* @src domain/services/OpNormalizer.ts lowerCanonicalOp *)
Definition lowerCanonicalOp (canonicalOp : Op) : result Op :=
  match canonicalOp with
  | ONodePropSet o =>
    OPropSet <$> PropSet.new (Some (NodePropSet.node o)) (Some (NodePropSet.key o))
                   (NodePropSet.value o)
  | OEdgePropSet o =>
    let e := EdgePropSet.edge o in
    OPropSet <$> PropSet.new
      (Some (encodeLegacyEdgePropNode (ep_from e) (ep_to e) (ep_label e)))
      (Some (EdgePropSet.key o)) (EdgePropSet.value o)
  | o => Ok o
  end.

(** The decoded form of an instance: its own fields, the dot as an object. *)
Definition to_pojo (o : Op) : pojo :=
  let dot d := DotObject (Some (Dot.writerId d)) (Some (JInt (Dot.counter d))) in
  let b := blank (op_type o) in
  match o with
  | ONodeAdd o => Pojo (type b) (Some (NodeAdd.node o)) (dot (NodeAdd.dot o)) None
    None None None None JUndefined None
  | ONodeRemove o => Pojo (type b) (Some (NodeRemove.node o)) DotMissing
    (Some (Some <$> NodeRemove.observedDots o)) None None None None JUndefined None
  | OEdgeAdd o => let e := EdgeAdd.edge o in
    Pojo (type b) None (dot (EdgeAdd.dot o)) None
      (Some (ep_from e)) (Some (ep_to e)) (Some (ep_label e)) None JUndefined None
  | OEdgeRemove o => let e := EdgeRemove.edge o in
    Pojo (type b) None DotMissing (Some (Some <$> EdgeRemove.observedDots o))
      (Some (ep_from e)) (Some (ep_to e)) (Some (ep_label e)) None JUndefined None
  | OPropSet o => Pojo (type b) (Some (PropSet.node o)) DotMissing None None None None
    (Some (PropSet.key o)) (PropSet.value o) None
  | ONodePropSet o => Pojo (type b) (Some (NodePropSet.node o)) DotMissing None None None None
    (Some (NodePropSet.key o)) (NodePropSet.value o) None
  | OEdgePropSet o => let e := EdgePropSet.edge o in
    Pojo (type b) None DotMissing None
      (Some (ep_from e)) (Some (ep_to e)) (Some (ep_label e))
      (Some (EdgePropSet.key o)) (EdgePropSet.value o) None
  | OBlobValue o => Pojo (type b) (Some (BlobValue.node o)) DotMissing None None None None None
    JUndefined (Some (BlobValue.oid o))
  end.

Lemma hydrateDot_object d :
  valid_dot d → hydrateDot (DotObject (Some (Dot.writerId d)) (Some (JInt (Dot.counter d)))) = Ok d.
Proof. intros [H1 H2]. simpl. by apply Dot.dot_new_ok. Qed.

Lemma assertEdge_parts e :
  edge_ident e → assertEdge (Some (ep_from e)) (Some (ep_to e)) (Some (ep_label e)) = Ok e.
Proof. intros. by apply assertEdge_ok. Qed.

(** Hydrating the decoded form of a valid operation rebuilds it. *)
Lemma hydrate_to_pojo o : op_ok o → hydrateRawOp (Decoded (to_pojo o)) = Ok (Instance o).
Proof.
  destruct o as [o|o|o|o|o|o|o|o]; intros Ho; unfold hydrateRawOp;
  cbn [to_pojo type blank op_type mbind option_bind].
  - change (ordmap_get _ _) with (Some hydrateNodeAdd). unfold hydrateNodeAdd.
  cbn [p_node p_dot expectString mbind result_bind]. rewrite hydrateDot_object by apply Ho.
  cbn [mbind result_bind]. by rewrite (proj2 (NodeAdd_new _ _ o)) by (split_and!; [done..|apply Ho]).
  - change (ordmap_get _ _) with (Some hydrateNodeRemove). unfold hydrateNodeRemove, hasNodeIdentity.
  cbn [p_node p_observedDots expectObservedDots mbind result_bind].
  by rewrite (proj2 (NodeRemove_new _ _ o)).
  - change (ordmap_get _ _) with (Some hydrateEdgeAdd). unfold hydrateEdgeAdd.
  cbn [p_from p_to p_label p_dot expectString mbind result_bind].
  rewrite hydrateDot_object by apply Ho. cbn [mbind result_bind].
  rewrite (proj2 (EdgeAdd_new _ _ _ _ o)); [done|]. split; [|done]. apply assertEdge_parts, Ho.
  - change (ordmap_get _ _) with (Some hydrateEdgeRemove). unfold hydrateEdgeRemove, hasEdgeIdentity.
  cbn [p_from p_to p_label p_observedDots expectObservedDots mbind result_bind].
  rewrite (proj2 (EdgeRemove_new _ _ _ _ o)); [done|].
  split; [destruct (EdgeRemove.edge o) eqn:E; rewrite <- E; apply (assertEdge_parts (EdgeRemove.edge o)), Ho|].
  apply assertDots_ok. split; [done|apply Ho].
  - change (ordmap_get _ _) with (Some hydratePropSet). unfold hydratePropSet.
  cbn [p_node p_key p_value expectString mbind result_bind].
  by rewrite (proj2 (PropSet_new _ _ _ o)).
  - change (ordmap_get _ _) with (Some hydrateNodePropSet). unfold hydrateNodePropSet, hasNodePropIdentity.
  cbn [p_node p_key p_value mbind result_bind].
  by rewrite (proj2 (NodePropSet_new _ _ _ o)).
  - change (ordmap_get _ _) with (Some hydrateEdgePropSet).
  unfold hydrateEdgePropSet, hasEdgePropIdentity, hasEdgeIdentity.
  cbn [p_from p_to p_label p_key p_value mbind result_bind].
  by rewrite (proj2 (EdgePropSet_new _ _ _ _ _ o)).
  - change (ordmap_get _ _) with (Some hydrateBlobValue). unfold hydrateBlobValue, hasBlobIdentity.
  cbn [p_node p_oid mbind result_bind]. by rewrite (proj2 (BlobValue_new _ _ o)).
Qed.

(** Lowering a canonical operation and normalizing it again is the identity. *)
Lemma normalize_lower o raw :
  op_ok o → canonical o = true → lowerCanonicalOp o = Ok raw →
  op_ok raw ∧ normalizeRawOp (Instance raw) = Ok (Instance o).
Proof.
  intros Ho Hc. destruct o as [o|o|o|o|o|o|o|o]; try done; cbn [lowerCanonicalOp].
  all: try (intros [= <-]; done).
  - destruct Ho as [Hn Hk].
  rewrite (proj2 (PropSet_new _ _ _
    (PropSet.mk (NodePropSet.node o) (NodePropSet.key o) (NodePropSet.value o))))
    by (split_and!; [done..|split; [apply Hn|done]]).
  intros [= <-]. split; [split; [apply Hn|done]|].
  unfold normalizeRawOp. cbn [hydrateDecodedOp hydrateRawOp mbind result_bind].
  unfold normalizePropSet, isLegacyEdgePropNode. cbn [PropSet.node PropSet.key PropSet.value].
  rewrite (proj2 (proj2 Hn)), andb_false_r.
  by rewrite (proj2 (NodePropSet_new _ _ _ o)).
  - destruct Ho as [He Hk]. set (e := EdgePropSet.edge o) in *.
  rewrite (proj2 (PropSet_new _ _ _
    (PropSet.mk (encodeLegacyEdgePropNode (ep_from e) (ep_to e) (ep_label e))
       (EdgePropSet.key o) (EdgePropSet.value o))))
    by (split_and!; [done..|split; [done|done]]).
  intros [= <-]. split; [split; [done|done]|].
  unfold normalizeRawOp. cbn [hydrateDecodedOp hydrateRawOp mbind result_bind].
  unfold normalizePropSet. cbn [PropSet.node PropSet.key PropSet.value].
  change (isLegacyEdgePropNode _) with true. cbn iota.
  rewrite decode_legacy_node by apply He. cbn [mbind result_bind].
  by rewrite (proj2 (EdgePropSet_new _ _ _ _ _ o)).
Qed.

(** *** What normalization returns *)

(** Instances are valid by their constructors. *)
Definition like_valid (r : op_like) : Prop :=
  match r with
  | Instance o => op_ok o
  | Decoded p => match p_dot p with DotInstance d => valid_dot d | _ => True end
  end.

(** Decoded objects that come through hydration as they are: an unknown type,
    or a type whose hydrator asks for an identity the object lacks. *)
Definition is_none {A} (o : option A) : bool := match o with None => true | Some _ => false end.

Definition lacks_identity : list (string * (pojo → bool)) :=
  [("NodeAdd", λ _, false); ("NodeRemove", λ p, is_none (hasNodeIdentity p));
  ("EdgeAdd", λ _, false); ("EdgeRemove", λ p, is_none (hasEdgeIdentity p));
  ("PropSet", λ _, false); ("NodePropSet", λ p, is_none (hasNodePropIdentity p));
  ("EdgePropSet", λ p, is_none (hasEdgePropIdentity p));
  ("BlobValue", λ p, is_none (hasBlobIdentity p))].

Definition passes_through (p : pojo) : bool :=
  match type p ≫= λ t, ordmap_get t lacks_identity with
  | Some lacks => lacks p
  | None => true
  end.

Lemma hydrateDot_valid r d :
  match r with DotInstance d => valid_dot d | _ => True end → hydrateDot r = Ok d → valid_dot d.
Proof.
  intros Hr. destruct r as [|d'|w c]; simpl; [done|by intros [= <-]|].
  intros H. destruct w as [w|]; simpl in H; [|done]. destruct c as [c|]; simpl in H; [|done].
  destruct (js_is_integer c); simpl in H; [|done].
  by apply Dot.dot_new_ok in H as (? & <- & _ & ?).
Qed.

Lemma hydrate_valid r r' : like_valid r → hydrateRawOp r = Ok r' → like_valid r'.
Proof.
  destruct r as [p|o]; [|by intros ? [= <-]]. intros Hv. unfold hydrateRawOp.
  destruct (type p) as [t|]; cbn [mbind option_bind]; [|by intros [= <-]].
  unfold HYDRATORS. cbn [ordmap_get].
  repeat (case_decide; [subst t; clear -Hv|]); [..|by intros [= <-]].
  - unfold hydrateNodeAdd. intros H. invert_ok. subst r'.
  apply NodeAdd_new in Ha1 as (_ & [= ->] & ?). split; [done|]. by eapply hydrateDot_valid.
  - unfold hydrateNodeRemove. destruct (hasNodeIdentity p); [|by intros [= <-]].
  intros H. invert_ok. subst r'. by apply NodeRemove_new in Ha0 as (_ & _ & ?).
  - unfold hydrateEdgeAdd. intros H. invert_ok. subst r'.
  apply EdgeAdd_new in Ha3 as ((_ & _ & _ & ?)%assertEdge_ok & [= ->]). split; [done|].
  by eapply hydrateDot_valid.
  - unfold hydrateEdgeRemove. destruct (hasEdgeIdentity p); [|by intros [= <-]].
  intros H. invert_ok. subst r'.
  by apply EdgeRemove_new in Ha0 as ((_ & _ & _ & ?)%assertEdge_ok & (_ & ?)%assertDots_ok).
  - unfold hydratePropSet. intros H. invert_ok. subst r'.
  by apply PropSet_new in Ha1 as (_ & _ & _ & ?).
  - unfold hydrateNodePropSet. destruct (hasNodePropIdentity p) as [[]|]; [|by intros [= <-]].
  intros H. invert_ok. subst r'. by apply NodePropSet_new in Ha as (_ & _ & _ & ?).
  - unfold hydrateEdgePropSet. destruct (hasEdgePropIdentity p) as [[]|]; [|by intros [= <-]].
  intros H. invert_ok. subst r'. by apply EdgePropSet_new in Ha as (_ & _ & _ & _ & _ & ?).
  - unfold hydrateBlobValue. destruct (hasBlobIdentity p) as [[]|]; [|by intros [= <-]].
  intros H. invert_ok. subst r'. by apply BlobValue_new in Ha as (_ & _ & ?).
Qed.

Lemma normalize_valid r o :
  like_valid r → normalizeRawOp r = Ok (Instance o) → op_ok o ∧ canonical o = true.
Proof.
  intros Hv. unfold normalizeRawOp. intros H. invert_ok. pose proof (hydrate_valid _ _ Hv Ha) as Hv'.
  destruct a as [p|[o'|o'|o'|o'|o'|o'|o'|o']]; try done; try (injection H as <-; done).
  destruct (normalizePropSet o') as [o2|] eqn:E; [|done]. injection H as <-.
  unfold normalizePropSet in E. destruct (isLegacyEdgePropNode _); invert_ok; subst o2.
  - by apply EdgePropSet_new in Ha1 as (_ & _ & _ & _ & _ & ?).
  - by apply NodePropSet_new in Ha0 as (_ & _ & _ & ?).
Qed.

Lemma normalize_decoded p p' :
  normalizeRawOp (Decoded p) = Ok (Decoded p') ↔ p' = p ∧ passes_through p = true.
Proof.
  unfold normalizeRawOp, hydrateDecodedOp, hydrateRawOp, passes_through.
  destruct (type p) as [t|] eqn:Et; cbn [mbind option_bind]; [|naive_solver].
  unfold HYDRATORS, lacks_identity. cbn [ordmap_get].
  repeat (destruct (decide (t = _)); [subst t; clear|]).
  - split; [|naive_solver]. unfold hydrateNodeAdd. intros H. invert_ok. by subst.
  - unfold hydrateNodeRemove. destruct (hasNodeIdentity p); cbn; [|naive_solver].
  split; [|naive_solver]. intros H. invert_ok. by subst.
  - split; [|naive_solver]. unfold hydrateEdgeAdd. intros H. invert_ok. by subst.
  - unfold hydrateEdgeRemove. destruct (hasEdgeIdentity p); cbn; [|naive_solver].
  split; [|naive_solver]. intros H. invert_ok. by subst.
  - split; [|naive_solver]. unfold hydratePropSet. intros H. invert_ok. subst.
  by destruct (normalizePropSet a2).
  - unfold hydrateNodePropSet. destruct (hasNodePropIdentity p) as [[]|]; cbn; [|naive_solver].
  split; [|naive_solver]. intros H. invert_ok. by subst.
  - unfold hydrateEdgePropSet. destruct (hasEdgePropIdentity p) as [[]|]; cbn; [|naive_solver].
  split; [|naive_solver]. intros H. invert_ok. by subst.
  - unfold hydrateBlobValue. destruct (hasBlobIdentity p) as [[]|]; cbn; [|naive_solver].
  split; [|naive_solver]. intros H. invert_ok. by subst.
  - cbn. naive_solver.
Qed.
End OpNormalizer.

(** ** Properties *)

(** C18. The wire round trip: a valid canonical operation can be lowered, the lowered
    operation has one of the six raw wire types, and decoding it from a plain
    object and normalizing gives the operation back, edge properties through
    their legacy encoding included. *)
Theorem op_wire_roundtrip (o : Op) :
  op_ok o → canonical o = true →
  ∃ raw, OpNormalizer.lowerCanonicalOp o = Ok raw ∧
    OpValidator.isKnownRaw (RObject (Instance raw)) = true ∧
    OpNormalizer.normalizeRawOp (Decoded (OpNormalizer.to_pojo raw)) = Ok (Instance o).
Proof.
  intros Ho Hc.
  assert (∃ raw, OpNormalizer.lowerCanonicalOp o = Ok raw ∧
    OpValidator.isKnownRaw (RObject (Instance raw)) = true) as (raw & Hl & Hk).
  { destruct o as [o|o|o|o|o|o|o|o]; try done; cbn [OpNormalizer.lowerCanonicalOp];
      try by (eexists; split; [reflexivity|vm_compute; reflexivity]).
    - rewrite (proj2 (PropSet_new _ _ _
        (PropSet.mk (NodePropSet.node o) (NodePropSet.key o) (NodePropSet.value o))));
        [eexists; split; [reflexivity|vm_compute; reflexivity]|].
      split_and!; [done..|]. split; [apply (proj1 Ho)|apply (proj2 Ho)].
    - rewrite (proj2 (PropSet_new _ _ _ (PropSet.mk (encodeLegacyEdgePropNode
        (ep_from (EdgePropSet.edge o)) (ep_to (EdgePropSet.edge o)) (ep_label (EdgePropSet.edge o)))
        (EdgePropSet.key o) (EdgePropSet.value o))));
        [eexists; split; [reflexivity|vm_compute; reflexivity]|].
      split_and!; [done..|]. split; [done|apply (proj2 Ho)]. }
  exists raw. split_and!; [done..|].
  destruct (OpNormalizer.normalize_lower o raw Ho Hc Hl) as [Hr Hn].
  unfold OpNormalizer.normalizeRawOp, OpNormalizer.hydrateDecodedOp in *.
  by rewrite OpNormalizer.hydrate_to_pojo.
Qed.

Definition sample_edge_prop : Op :=
  OEdgePropSet (EdgePropSet.mk sample_edge "since" (JNum (JInt 7))).

Lemma op_wire_roundtrip_witness :
  OpNormalizer.lowerCanonicalOp sample_edge_prop
    = Ok (OPropSet (PropSet.mk (encodeLegacyEdgePropNode "n1" "n2" "knows") "since" (JNum (JInt 7)))) ∧
  ∃ raw, OpNormalizer.lowerCanonicalOp sample_edge_prop = Ok raw ∧
    OpValidator.isKnownRaw (RObject (Instance raw)) = true ∧
    OpNormalizer.normalizeRawOp (Decoded (OpNormalizer.to_pojo raw)) = Ok (Instance sample_edge_prop).
Proof.
  split; [reflexivity|]. apply (op_wire_roundtrip sample_edge_prop); repeat split.
Defined.

(** C21. Whatever [normalizeRawOp] turns into an operation is valid and canonical,
    so no legacy edge-property [PropSet] reaches the reducer's dispatch; and it
    leaves a decoded object as it is exactly when its type is unknown, or when
    it is a removal, property or blob object without its identity fields. *)
Theorem normalize_valid_or_passes (r : op_like) (r' : op_like) :
  OpNormalizer.like_valid r → OpNormalizer.normalizeRawOp r = Ok r' →
  match r' with
  | Instance o => op_ok o ∧ canonical o = true
  | Decoded p => r = Decoded p ∧ OpNormalizer.passes_through p = true
  end.
Proof.
  intros Hv Hn. destruct r' as [p|o].
  - destruct r as [p'|o].
    + by apply OpNormalizer.normalize_decoded in Hn as [-> ?].
    + unfold OpNormalizer.normalizeRawOp in Hn. simpl in Hn.
      destruct o; try done. by destruct (OpNormalizer.normalizePropSet _).
  - by apply (OpNormalizer.normalize_valid r).
Qed.

Lemma normalize_valid_or_passes_witness :
  OpNormalizer.normalizeRawOp (Decoded (blank "NodeRemove")) = Ok (Decoded (blank "NodeRemove")) ∧
  OpNormalizer.passes_through (blank "NodeRemove") = true.
Proof.
  split; [reflexivity|].
  apply (normalize_valid_or_passes (Decoded (blank "NodeRemove")) (Decoded (blank "NodeRemove"))).
  - exact I.
  - reflexivity.
Defined.
