(* ===== verification/OpStrategies.v ===== *)
(** The strategy table ([services/OpStrategies.ts], [services/OpStrategy.ts],
    [services/OpStrategyRegistryValidation.ts]): a second dispatch over
    operation types, on plain objects that [validate] has checked. The
    theorem says it agrees with the operation classes method by method. *)
From S2P Require Export OpNormalizer.

(** An [OpLike] at its declared types: absent fields are [None]. *)
Record strategy_op := StrategyOp {
  so_node : option string;
  so_dot : raw_dot;
  so_observedDots : option (list string);
  so_from : option string;
  so_to : option string;
  so_label : option string;
  so_key : option string;
  so_value : jsval;
  so_oid : option string }.

Definition assertStrings (observedDots : option (list string)) : result (list string) :=
  match observedDots with Some l => Ok l | None => Throw PatchMalformed end.

(** ** Shared property helpers of the base class *)

(* @src domain/services/OpStrategy.ts _mutateProp *)
Definition mutateProp (propKey : string) (eventId : EventId) (value : jsval) : step State unit :=
  modify (WarpState.mutatePropLWW propKey eventId value).

(* @src domain/services/OpStrategy.ts _snapshotProp *)
Definition snapshotProp (s : State) (propKey : string) : SnapshotBeforeOp :=
  let reg := WarpState.getEncodedProp s propKey in
  Snapshot None None None (reg_value reg) (Some propKey) None None.

(* @src domain/services/OpStrategy.ts _accumulatePropDiff *)
Definition accumulatePropDiff (diff : PatchDiff.PatchDiff) (s : State) (nodeId key : string)
    (before : SnapshotBeforeOp) : PatchDiff.PatchDiff :=
  let reg := match sb_propKey before with
             | Some k => WarpState.getEncodedProp s k
             | None => None
             end in
  let newVal := reg_value reg in
  if negb (js_strict_eq newVal (prevPropValue before))
  then push_prop (PatchDiff.PropDiff nodeId key newVal (prevPropValue before)) diff
  else diff.

(** ** Strategies

    [validate] returns the fields it establishes; the other methods take them
    where the code reads them back with a cast. *)
Module NodeAddStrategy.
Record fields := mk { node : string; dot : Dot.Dot }.

(* @src domain/services/OpStrategies.ts validate 58-58 *)
Definition validate (op : strategy_op) : result fields :=
  n ← OpValidator.assertString (so_node op); d ← OpValidator.assertDot (so_dot op); Ok (mk n d).

(* @src domain/services/OpStrategies.ts mutate 59-61 *)
Definition mutate (o : fields) (_ : EventId) : step State unit :=
  modify (on_nodes (ORSet.add (node o) (dot o))).

(* @src domain/services/OpStrategies.ts outcome 62-64 *)
Definition outcome (o : fields) (s : State) (_ : EventId) : OpOutcomeResult :=
  ReceiptBuilder.nodeAddOutcome (WarpState.nodeAlive s) (node o) (dot o).

(* @src domain/services/OpStrategies.ts snapshot 65-67 *)
Definition snapshot (o : fields) (s : State) : SnapshotBeforeOp :=
  Snapshot (Some (ORSet.contains (WarpState.nodeAlive s) (node o))) None None JUndefined
    None None None.

(* @src domain/services/OpStrategies.ts accumulate 68-72 *)
Definition accumulate (o : fields) (diff : PatchDiff.PatchDiff) (s : State)
    (before : SnapshotBeforeOp) : PatchDiff.PatchDiff :=
  if negb (bool_decide (nodeWasAlive before = Some true))
     && ORSet.contains (WarpState.nodeAlive s) (node o)
  then PatchDiff.mk (PatchDiff.nodesAdded diff ++ [node o]) (PatchDiff.nodesRemoved diff)
         (PatchDiff.edgesAdded diff) (PatchDiff.edgesRemoved diff) (PatchDiff.propsChanged diff)
  else diff.

#[global] Instance methods : OpMethods fields :=
  Build_OpMethods _ (λ _, "NodeAdd") mutate outcome snapshot accumulate.
End NodeAddStrategy.

Module NodeRemoveStrategy.
(** The node is optional here. *)
Record fields := mk { node : option string; observedDots : list string }.

(* @src domain/services/OpStrategies.ts validate 77-77 *)
Definition validate (op : strategy_op) : result fields :=
  ds ← assertStrings (so_observedDots op); Ok (mk (so_node op) ds).

(* @src domain/services/OpStrategies.ts mutate 78-81 *)
Definition mutate (o : fields) (_ : EventId) : step State unit :=
  modify (on_nodes (ORSet.remove (list_to_set (observedDots o)))).

(* @src domain/services/OpStrategies.ts outcome 82-90 *)
Definition outcome (o : fields) (s : State) (_ : EventId) : OpOutcomeResult :=
  ReceiptBuilder.nodeRemoveOutcome (WarpState.nodeAlive s) (node o) (observedDots o).

(* @src domain/services/OpStrategies.ts snapshot 91-95 *)
Definition snapshot (o : fields) (s : State) : SnapshotBeforeOp :=
  Snapshot None None None JUndefined None
    (Some (DiffCalculator.aliveElementsForDots (WarpState.nodeAlive s)
             (js_set (observedDots o)))) None.

(* @src domain/services/OpStrategies.ts accumulate 96-98 *)
Definition accumulate (o : fields) (diff : PatchDiff.PatchDiff) (s : State)
    (before : SnapshotBeforeOp) : PatchDiff.PatchDiff :=
  DiffCalculator.collectNodeRemovals diff s (aliveBeforeNodes before).

#[global] Instance methods : OpMethods fields :=
  Build_OpMethods _ (λ _, "NodeTombstone") mutate outcome snapshot accumulate.
End NodeRemoveStrategy.

Module EdgeAddStrategy.
Record fields := mk { from : string; to : string; label : string; dot : Dot.Dot }.

Definition edgeKey (o : fields) : string := encodeEdgeKey (from o) (to o) (label o).

(* @src domain/services/OpStrategies.ts validate 103-108 *)
Definition validate (op : strategy_op) : result fields :=
  f ← OpValidator.assertString (so_from op); t ← OpValidator.assertString (so_to op);
  l ← OpValidator.assertString (so_label op); d ← OpValidator.assertDot (so_dot op);
  Ok (mk f t l d).

(* @src domain/services/OpStrategies.ts mutate 109-116 *)
Definition mutate (o : fields) (eventId : EventId) : step State unit :=
  _ ← modify (on_edges (ORSet.add (edgeKey o) (dot o)));
  modify (on_births (λ m,
    match m !! edgeKey o with
    | None => <[edgeKey o := eventId]> m
    | Some prev =>
        if 0 <? EventId.compareEventIds eventId prev then <[edgeKey o := eventId]> m else m
    end)).

(* @src domain/services/OpStrategies.ts outcome 117-120 *)
Definition outcome (o : fields) (s : State) (_ : EventId) : OpOutcomeResult :=
  ReceiptBuilder.edgeAddOutcome (WarpState.edgeAlive s) (dot o) (edgeKey o).

(* @src domain/services/OpStrategies.ts snapshot 121-124 *)
Definition snapshot (o : fields) (s : State) : SnapshotBeforeOp :=
  Snapshot None (Some (ORSet.contains (WarpState.edgeAlive s) (edgeKey o))) (Some (edgeKey o))
    JUndefined None None None.

(* @src domain/services/OpStrategies.ts accumulate 125-129 *)
Definition accumulate (o : fields) (diff : PatchDiff.PatchDiff) (s : State)
    (before : SnapshotBeforeOp) : PatchDiff.PatchDiff :=
  match sb_edgeKey before with
  | Some k =>
      if negb (bool_decide (edgeWasAlive before = Some true))
         && ORSet.contains (WarpState.edgeAlive s) k
      then PatchDiff.mk (PatchDiff.nodesAdded diff) (PatchDiff.nodesRemoved diff)
             (PatchDiff.edgesAdded diff ++ [EdgeParts (from o) (to o) (label o)])
             (PatchDiff.edgesRemoved diff) (PatchDiff.propsChanged diff)
      else diff
  | None => diff
  end.

#[global] Instance methods : OpMethods fields :=
  Build_OpMethods _ (λ _, "EdgeAdd") mutate outcome snapshot accumulate.
End EdgeAddStrategy.

Module EdgeRemoveStrategy.
Record fields := mk {
  from : option string; to : option string; label : option string; observedDots : list string }.

(* @src domain/services/OpStrategies.ts validate 134-134 *)
Definition validate (op : strategy_op) : result fields :=
  ds ← assertStrings (so_observedDots op); Ok (mk (so_from op) (so_to op) (so_label op) ds).

(* @src domain/services/OpStrategies.ts mutate 135-138 *)
Definition mutate (o : fields) (_ : EventId) : step State unit :=
  modify (on_edges (ORSet.remove (list_to_set (observedDots o)))).

(* @src domain/services/OpStrategies.ts outcome 139-158 *)
Definition outcome (o : fields) (s : State) (_ : EventId) : OpOutcomeResult :=
  ReceiptBuilder.edgeRemoveOutcome (WarpState.edgeAlive s) (from o) (to o) (label o)
    (observedDots o).

(* @src domain/services/OpStrategies.ts snapshot 159-163 *)
Definition snapshot (o : fields) (s : State) : SnapshotBeforeOp :=
  Snapshot None None None JUndefined None None
    (Some (DiffCalculator.aliveElementsForDots (WarpState.edgeAlive s)
             (js_set (observedDots o)))).

(* @src domain/services/OpStrategies.ts accumulate 164-166 *)
Definition accumulate (o : fields) (diff : PatchDiff.PatchDiff) (s : State)
    (before : SnapshotBeforeOp) : PatchDiff.PatchDiff :=
  DiffCalculator.collectEdgeRemovals diff s (aliveBeforeEdges before).

#[global] Instance methods : OpMethods fields :=
  Build_OpMethods _ (λ _, "EdgeTombstone") mutate outcome snapshot accumulate.
End EdgeRemoveStrategy.

Module NodePropSetStrategy.
Record fields := mk { node : string; key : string; value : jsval }.

(* @src domain/services/OpStrategies.ts validate 171-174 *)
Definition validate (op : strategy_op) : result fields :=
  n ← OpValidator.assertString (so_node op); k ← OpValidator.assertString (so_key op);
  Ok (mk n k (so_value op)).

(* @src domain/services/OpStrategies.ts mutate 175-181 *)
Definition mutate (o : fields) (eventId : EventId) : step State unit :=
  mutateProp (encodePropKey (node o) (key o)) eventId (value o).

(* @src domain/services/OpStrategies.ts outcome 182-184 *)
Definition outcome (o : fields) (s : State) (eventId : EventId) : OpOutcomeResult :=
  ReceiptBuilder.propSetOutcome s (node o) (key o) eventId.

(* @src domain/services/OpStrategies.ts snapshot 185-187 *)
Definition snapshot (o : fields) (s : State) : SnapshotBeforeOp := snapshotProp s (encodePropKey (node o) (key o)).

(* @src domain/services/OpStrategies.ts accumulate 188-194 *)
Definition accumulate (o : fields) (diff : PatchDiff.PatchDiff) (s : State)
    (before : SnapshotBeforeOp) : PatchDiff.PatchDiff :=
  accumulatePropDiff diff s (node o) (key o) before.

#[global] Instance methods : OpMethods fields :=
  Build_OpMethods _ (λ _, "NodePropSet") mutate outcome snapshot accumulate.
End NodePropSetStrategy.

Module EdgePropSetStrategy.
Record fields := mk {
  from : string; to : string; label : string; key : string; value : jsval }.

(* @src domain/services/OpStrategies.ts validate 199-204 *)
Definition validate (op : strategy_op) : result fields :=
  f ← OpValidator.assertString (so_from op); t ← OpValidator.assertString (so_to op);
  l ← OpValidator.assertString (so_label op); k ← OpValidator.assertString (so_key op);
  Ok (mk f t l k (so_value op)).

(* @src domain/services/OpStrategies.ts mutate 205-214 *)
Definition mutate (o : fields) (eventId : EventId) : step State unit :=
  mutateProp (encodeEdgePropKey (from o) (to o) (label o) (key o)) eventId (value o).

(* @src domain/services/OpStrategies.ts outcome 215-221 *)
Definition outcome (o : fields) (s : State) (eventId : EventId) : OpOutcomeResult :=
  ReceiptBuilder.edgePropSetOutcome s (from o) (to o) (label o) (key o) eventId.

(* @src domain/services/OpStrategies.ts snapshot 222-227 *)
Definition snapshot (o : fields) (s : State) : SnapshotBeforeOp := snapshotProp s (encodeEdgePropKey (from o) (to o) (label o) (key o)).

(* @src domain/services/OpStrategies.ts accumulate 228-238 *)
Definition accumulate (o : fields) (diff : PatchDiff.PatchDiff) (s : State)
    (before : SnapshotBeforeOp) : PatchDiff.PatchDiff :=
  accumulatePropDiff diff s (encodeEdgeKey (from o) (to o) (label o)) (key o) before.

#[global] Instance methods : OpMethods fields :=
  Build_OpMethods _ (λ _, "EdgePropSet") mutate outcome snapshot accumulate.
End EdgePropSetStrategy.

Module PropSetStrategy.
Record fields := mk { node : string; key : string; value : jsval }.

(* @src domain/services/OpStrategies.ts validate 243-246 *)
Definition validate (op : strategy_op) : result fields :=
  n ← OpValidator.assertString (so_node op); k ← OpValidator.assertString (so_key op);
  Ok (mk n k (so_value op)).

(* @src domain/services/OpStrategies.ts mutate 247-261 *)
Definition mutate (o : fields) (eventId : EventId) : step State unit :=
  _ ← lift (require (negb (starts_with_prefix (node o))) PatchMalformed);
  mutateProp (encodePropKey (node o) (key o)) eventId (value o).

(* @src domain/services/OpStrategies.ts outcome 262-264 *)
Definition outcome (o : fields) (s : State) (eventId : EventId) : OpOutcomeResult :=
  ReceiptBuilder.propSetOutcome s (node o) (key o) eventId.

(* @src domain/services/OpStrategies.ts snapshot 265-267 *)
Definition snapshot (o : fields) (s : State) : SnapshotBeforeOp := snapshotProp s (encodePropKey (node o) (key o)).

(* @src domain/services/OpStrategies.ts accumulate 268-274 *)
Definition accumulate (o : fields) (diff : PatchDiff.PatchDiff) (s : State)
    (before : SnapshotBeforeOp) : PatchDiff.PatchDiff :=
  accumulatePropDiff diff s (node o) (key o) before.

#[global] Instance methods : OpMethods fields :=
  Build_OpMethods _ (λ _, "PropSet") mutate outcome snapshot accumulate.
End PropSetStrategy.

Module BlobValueStrategy.
Record fields := mk { oid : option string }.

(* @src domain/services/OpStrategies.ts validate 279-279 *)
Definition validate (op : strategy_op) : result fields := Ok (mk (so_oid op)).

(* @src domain/services/OpStrategies.ts mutate 280-280 *)
Definition mutate (_ : fields) (_ : EventId) : step State unit := mret ().

(* @src domain/services/OpStrategies.ts outcome 281-285 *)
Definition outcome (o : fields) (_ : State) (_ : EventId) : OpOutcomeResult :=
  OpApplied (match oid o with
             | Some v => if str_nonempty v then v else "*"
             | None => "*"
             end).

(* @src domain/services/OpStrategies.ts snapshot 286-286 *)
Definition snapshot (_ : fields) (_ : State) : SnapshotBeforeOp := no_snapshot.

(* @src domain/services/OpStrategies.ts accumulate 287-287 *)
Definition accumulate (_ : fields) (diff : PatchDiff.PatchDiff) (_ : State)
  (_ : SnapshotBeforeOp) : PatchDiff.PatchDiff := diff.

#[global] Instance methods : OpMethods fields :=
  Build_OpMethods _ (λ _, "BlobValue") mutate outcome snapshot accumulate.
End BlobValueStrategy.

(** ** The registry *)

(** A strategy: its receipt name, and the methods on what it validates. *)
(* @src domain/services/OpStrategy.ts OpStrategy 15-37 *)
Record OpStrategy := Strategy {
  st_fields : Type;
  st_receiptName : string;
  st_validate : strategy_op → result st_fields;
  st_methods : OpMethods st_fields }.

(* @src domain/services/OpStrategies.ts OP_STRATEGIES *)
Definition OP_STRATEGIES : list (string * OpStrategy) :=
  [("NodeAdd", Strategy _ "NodeAdd" NodeAddStrategy.validate _);
   ("NodeRemove", Strategy _ "NodeTombstone" NodeRemoveStrategy.validate _);
   ("EdgeAdd", Strategy _ "EdgeAdd" EdgeAddStrategy.validate _);
   ("EdgeRemove", Strategy _ "EdgeTombstone" EdgeRemoveStrategy.validate _);
   ("NodePropSet", Strategy _ "NodePropSet" NodePropSetStrategy.validate _);
   ("EdgePropSet", Strategy _ "EdgePropSet" EdgePropSetStrategy.validate _);
   ("PropSet", Strategy _ "PropSet" PropSetStrategy.validate _);
   ("BlobValue", Strategy _ "BlobValue" BlobValueStrategy.validate _)].

(** An entry of a registry under validation: the value's receipt name and
    the methods it has; [None] when it is not an object. *)
(* @src domain/services/OpStrategyRegistryValidation.ts OpStrategyRegistryEntry *)
Record registry_entry := RegistryEntry {
  re_receiptName : option string;
  re_methods : list string }.

(* @src domain/services/OpStrategyRegistryValidation.ts REQUIRED_STRATEGY_METHODS *)
Definition REQUIRED_STRATEGY_METHODS : list string :=
  ["validate"; "mutate"; "outcome"; "snapshot"; "accumulate"].

(* @src domain/services/OpStrategyRegistryValidation.ts requireStrategyObject *)
Definition requireStrategyObject (strategy : option registry_entry) : result registry_entry :=
  match strategy with Some e => Ok e | None => Throw PatchMalformed end.

(* @src domain/services/OpStrategyRegistryValidation.ts requireStrategyMethod *)
Definition requireStrategyMethod (e : registry_entry) (methodName : string) : result unit :=
  require (bool_decide (methodName ∈ re_methods e)) PatchMalformed.

(* @src domain/services/OpStrategyRegistryValidation.ts requireReceiptName *)
Definition requireReceiptName (e : registry_entry) : result string :=
  match re_receiptName e with
  | Some n => _ ← require (str_nonempty n) PatchMalformed; Ok n
  | None => Throw PatchMalformed
  end.

(* @src domain/services/OpStrategyRegistryValidation.ts validateOpStrategyRegistry *)
Definition validateOpStrategyRegistry (registry : list (string * option registry_entry))
    (validReceiptOps : list string) : result unit :=
  _ ← map_result (λ '(_, strategy),
        e ← requireStrategyObject strategy;
        _ ← map_result (requireStrategyMethod e) REQUIRED_STRATEGY_METHODS;
        receiptName ← requireReceiptName e;
        require (bool_decide (receiptName ∈ validReceiptOps)) PatchMalformed) registry;
  Ok ().

(** The table as the validation sees it: instances have all five methods. *)
Definition registry_view : list (string * option registry_entry) :=
  (λ '(t, st), (t, Some (RegistryEntry (Some (st_receiptName st)) REQUIRED_STRATEGY_METHODS)))
    <$> OP_STRATEGIES.

(** An operation instance read as a plain object. *)
Definition view (o : Op) : strategy_op :=
  let e_op d ds e k v := StrategyOp None d ds (Some (ep_from e)) (Some (ep_to e))
                           (Some (ep_label e)) k v None in
  let n_op n d ds k v oid := StrategyOp (Some n) d ds None None None k v oid in
  match o with
  | ONodeAdd o => n_op (NodeAdd.node o) (DotInstance (NodeAdd.dot o)) None None JUndefined None
  | ONodeRemove o =>
      n_op (NodeRemove.node o) DotMissing (Some (NodeRemove.observedDots o)) None JUndefined None
  | OEdgeAdd o => e_op (DotInstance (EdgeAdd.dot o)) None (EdgeAdd.edge o) None JUndefined
  | OEdgeRemove o =>
      e_op DotMissing (Some (EdgeRemove.observedDots o)) (EdgeRemove.edge o) None JUndefined
  | OPropSet o =>
      n_op (PropSet.node o) DotMissing None (Some (PropSet.key o)) (PropSet.value o) None
  | ONodePropSet o =>
      n_op (NodePropSet.node o) DotMissing None (Some (NodePropSet.key o)) (NodePropSet.value o) None
  | OEdgePropSet o =>
      e_op DotMissing None (EdgePropSet.edge o) (Some (EdgePropSet.key o)) (EdgePropSet.value o)
  | OBlobValue o => n_op (BlobValue.node o) DotMissing None None JUndefined (Some (BlobValue.oid o))
  end.

(** Two receivers of the five methods that cannot be told apart. *)
Definition same_methods {A B} `{OpMethods A} `{OpMethods B} (x : A) (y : B) : Prop :=
  receiptName x = receiptName y ∧
  (∀ ev s, mutate x ev s = mutate y ev s) ∧
  (∀ s ev, outcome x s ev = outcome y s ev) ∧
  (∀ s, snapshot x s = snapshot y s) ∧
  (∀ d s b, accumulate x d s b = accumulate y d s b).

(** ** Properties *)

(** The strategy table and the operation classes implement the same reducer:
    for every operation there is a strategy under its type, the strategy
    accepts its fields, and mutation (errors included), outcome, snapshot,
    diff and receipt name coincide; the table passes the registry validation. *)
Theorem strategies_refine_ops (o : Op) :
  validateOpStrategyRegistry registry_view TickReceipt.OP_TYPES = Ok () ∧
  ∃ st x, ordmap_get (op_type o) OP_STRATEGIES = Some st ∧
    st_validate st (view o) = Ok x ∧ st_receiptName st = receiptName o ∧
    @same_methods _ _ (st_methods st) _ x o.
Proof.
  split; [vm_compute; reflexivity|].
  destruct o as [o|o|[e d]|[e ds]|o|o|[e k v]|o].
  3,4,7: destruct e as [f t l].
  all: eexists _, _; split; [reflexivity|]; split; [reflexivity|]; split; [reflexivity|].
  all: repeat split.
Qed.
