(* ===== verification/JoinReducer.v ===== *)
(** The reducer ([services/JoinReducer.ts]): applying one operation, one patch
    (fast, with a diff, with a receipt) and a sequence of patches. *)
From S2P Require Export OpNormalizer.

Module JoinReducer.
Import OpNormalizer.

(* @src domain/services/JoinReducer.ts PatchLike *)
Record PatchLike := Patch {
  writer : string;
  lamport : jsnum;
  ops : list raw_op;
  context : option VersionVector.source }.

(* @src domain/services/JoinReducer.ts createEmptyState *)
Definition createEmptyState : State := WarpState.empty.

(* @src domain/services/JoinReducer.ts cloneState *)
Definition cloneState (state : State + WarpState.snapshot) : State :=
  WarpState.cloneFromSnapshot state.

(* @src domain/services/JoinReducer.ts joinStates *)
Definition joinStates (a b : State) : State := WarpState.join a b.

(* @src domain/services/JoinReducer.ts readReducerOpType *)
Definition readReducerOpType (op : raw_op) : result string :=
  match op with
  | RUndefined | RNonObject _ => Throw PatchMalformed
  | RObject o => match like_type o with Some t => Ok t | None => Throw PatchMalformed end
  end.

Definition E_UNKNOWN_OP : error := PatchError "E_PATCH_UNKNOWN_OP".

(* @src domain/services/JoinReducer.ts assertKnownReducerOp *)
Definition assertKnownReducerOp (op : raw_op) (type : string) : result unit :=
  require (OpValidator.isKnownRaw op || OpValidator.isKnownCanonical op) E_UNKNOWN_OP.

(** The checks every path makes on an op before dispatch; [None] when the
    normalized op is not an [Op] instance. *)
Definition prepare (op : raw_op) : result (option Op) :=
  type ← readReducerOpType op;
  _ ← assertKnownReducerOp op type;
  match op with
  | RObject o =>
    canonOp ← normalizeRawOp o;
    Ok (isRuntimeOp canonOp)
  | _ => Ok None
  end.

(* @src domain/services/JoinReducer.ts applyPatchOp *)
Definition applyPatchOp (op : raw_op) (eventId : EventId) : step State unit :=
  canonOp ← lift (prepare op);
  match canonOp with
  | None => mret ()
  | Some o => mutate o eventId
  end.

Definition event_id (p : PatchLike) (patchSha : string) (i : Z) : result EventId :=
  EventId.new (lamport p) (writer p) patchSha (JInt i).

(** One round of each loop. *)
Definition fast_round (p : PatchLike) (patchSha : string) (iop : Z * raw_op) : step State unit :=
  let '(i, op) := iop in
  match op with
  | RUndefined => mret ()
  | _ =>
    canonOp ← lift (prepare op);
    match canonOp with
    | None => mret ()
    | Some o => eventId ← lift (event_id p patchSha i); mutate o eventId
    end
  end.

Definition diff_round (p : PatchLike) (patchSha : string) (diff : PatchDiff.PatchDiff)
  (iop : Z * raw_op) : step State PatchDiff.PatchDiff :=
  let '(i, op) := iop in
  match op with
  | RUndefined => mret diff
  | _ =>
    canonOp ← lift (prepare op);
    match canonOp with
    | None => mret diff
    | Some o =>
        eventId ← lift (event_id p patchSha i);
        s ← get;
        _ ← mutate o eventId;
        s' ← get;
        mret (accumulate o diff s' (snapshot o s))
    end
  end.

Definition receipt_entry (o : Op) (out : OpOutcomeResult) : TickReceipt.OpOutcome :=
  TickReceipt.mkOutcome (receiptName o) (outcome_target out) (outcome_result out)
  (match out with
   | OpSuperseded _ w =>
       let r := superseded_reason w in if str_nonempty r then Some r else None
   | _ => None
   end).

Definition receipt_round (p : PatchLike) (patchSha : string) (opResults : list TickReceipt.OpOutcome)
  (iop : Z * raw_op) : step State (list TickReceipt.OpOutcome) :=
  let '(i, op) := iop in
  match op with
  | RUndefined => mret opResults
  | _ =>
    canonOp ← lift (prepare op);
    match canonOp with
    | None => mret opResults
    | Some o =>
        eventId ← lift (event_id p patchSha i);
        s ← get;
        let out := outcome o s eventId in
        _ ← mutate o eventId;
        if negb (bool_decide (receiptName o ∈ TickReceipt.OP_TYPES)) then mret opResults
        else mret (opResults ++ [receipt_entry o out])
    end
  end.

Definition fold_patch (p : PatchLike) : step State unit :=
  WarpState.foldPatch (writer p) (lamport p) (context p).

(* @src domain/services/JoinReducer.ts applyFast *)
Definition applyFast (p : PatchLike) (patchSha : string) : step State unit :=
  _ ← for_each (fast_round p patchSha) (indexed (ops p));
  fold_patch p.

(* @src domain/services/JoinReducer.ts applyWithDiff *)
Definition applyWithDiff (p : PatchLike) (patchSha : string) : step State PatchDiff.PatchDiff :=
  diff ← for_fold (diff_round p patchSha) (indexed (ops p)) PatchDiff.createPatchDiffAccumulator;
  _ ← fold_patch p;
  lift (PatchDiff.of_accumulator diff).

(* @src domain/services/JoinReducer.ts applyWithReceipt *)
Definition applyWithReceipt (p : PatchLike) (patchSha : string)
  : step State TickReceipt.TickReceipt :=
  opResults ← for_fold (receipt_round p patchSha) (indexed (ops p)) [];
  _ ← fold_patch p;
  lift (TickReceipt.createTickReceipt patchSha (writer p) (lamport p) opResults).

(** The receipt is [None] when none is collected. *)
(* @src domain/services/JoinReducer.ts join *)
Definition join (p : PatchLike) (patchSha : string) (collectReceipts : bool)
  : step State (option TickReceipt.TickReceipt) :=
  if collectReceipts then r ← applyWithReceipt p patchSha; mret (Some r)
  else _ ← applyFast p patchSha; mret None.

Record reduce_options := ReduceOptions { receipts : bool; trackDiff : bool }.

Inductive reduced : Type :=
  | RState (s : State)
  | RReceipts (s : State) (receipts : list TickReceipt.TickReceipt)
  | RDiff (s : State) (diff : PatchDiff.PatchDiff).

Definition reduced_state (r : reduced) : State :=
  match r with RState s | RReceipts s _ | RDiff s _ => s end.

Definition sha_patch : Type := PatchLike * string.

Definition reduce_fast (patches : list sha_patch) : step State unit :=
  for_each (λ '(p, sha), applyFast p sha) patches.

Definition reduce_receipts (patches : list sha_patch) : step State (list TickReceipt.TickReceipt) :=
  for_fold (λ acc '(p, sha), r ← applyWithReceipt p sha; mret (acc ++ [r])) patches [].

Definition reduce_diff (patches : list sha_patch) : step State PatchDiff.PatchDiff :=
  merged ← lift PatchDiff.createEmptyDiff;
  for_fold (λ merged '(p, sha), d ← applyWithDiff p sha; lift (PatchDiff.mergeDiffs merged d))
  patches merged.

(** The reducer works on a copy, so a throw leaves the argument untouched. *)
Definition finish {A} (out : State * result A) (k : State → A → reduced) : result reduced :=
  let '(s, r) := out in a ← r; Ok (k s a).

(* @src domain/services/JoinReducer.ts reducePatches 294-323 *)
Definition reducePatches (patches : list sha_patch)
  (initialState : option (State + WarpState.snapshot)) (options : option reduce_options)
  : result reduced :=
  let state := match initialState with Some s => cloneState s | None => createEmptyState end in
  match options with
  | Some (ReduceOptions true _) => finish (reduce_receipts patches state) RReceipts
  | Some (ReduceOptions false true) => finish (reduce_diff patches state) RDiff
  | _ => finish (reduce_fast patches state) (λ s _, RState s)
  end.

(** ** The three paths run alike *)

Lemma diff_round_same p sha d iop : same_run (diff_round p sha d iop) (fast_round p sha iop).
Proof.
  destruct iop as [i op]. unfold diff_round, fast_round.
  assert (∀ op, same_run
  (canonOp ← lift (prepare op);
    match canonOp with
    | None => mret d
    | Some o =>
        eventId ← lift (event_id p sha i); s ← get; _ ← mutate o eventId; s' ← get;
        mret (accumulate o d s' (snapshot o s))
    end)
  (canonOp ← lift (prepare op);
    match canonOp with
    | None => mret ()
    | Some o => eventId ← lift (event_id p sha i); mutate o eventId
    end)) as Hr.
  { intros op'. intros s. unfold lift, get, mret, step_ret, mbind, step_bind.
  destruct (prepare op') as [[o|]|e]; [|done|done].
  destruct (event_id p sha i) as [ev|e]; [|done].
  by destruct (mutate o ev s) as [s' [[]|e]]. }
  destruct op; [apply same_run_ret|apply Hr..].
Qed.

Lemma receipt_round_same p sha l iop : same_run (receipt_round p sha l iop) (fast_round p sha iop).
Proof.
  destruct iop as [i op]. unfold receipt_round, fast_round.
  destruct op; [apply same_run_ret|..]; intros s; unfold lift, get, mret, step_ret, mbind, step_bind;
  destruct (prepare _) as [[o'|]|e]; try done;
  destruct (event_id p sha i) as [ev|e]; try done;
  destruct (mutate o' ev s) as [s' [[]|e]]; try done;
  by destruct (bool_decide _).
Qed.
End JoinReducer.
