(* ===== verification/Convergence.v ===== *)
(** What a patch denotes: every operation moves the state up by a join with a
    delta that does not depend on the state. The convergence theorems of the
    reducer follow from the semilattice of states. *)
From S2P Require Export JoinReducer.
Import OpNormalizer JoinReducer.

(** ** Deltas of operations *)

Definition bottom : State := WarpState.empty.

Definition delta (o : Op) (ev : EventId) : State :=
  match o with
  | ONodeAdd o => on_nodes (λ _, ORSet.add_delta (NodeAdd.node o) (NodeAdd.dot o)) bottom
  | ONodeRemove o =>
      on_nodes (λ _, ORSet.remove_delta (list_to_set (NodeRemove.observedDots o))) bottom
  | OEdgeAdd o =>
      on_births (λ _, {[EdgeAdd.key o := ev]})
        (on_edges (λ _, ORSet.add_delta (EdgeAdd.key o) (EdgeAdd.dot o)) bottom)
  | OEdgeRemove o =>
      on_edges (λ _, ORSet.remove_delta (list_to_set (EdgeRemove.observedDots o))) bottom
  | OPropSet o =>
      WarpState.prop_put (encodePropKey (PropSet.node o) (PropSet.key o))
        (LWW.mk ev (PropSet.value o)) bottom
  | ONodePropSet o =>
      WarpState.prop_put (encodePropKey (NodePropSet.node o) (NodePropSet.key o))
        (LWW.mk ev (NodePropSet.value o)) bottom
  | OEdgePropSet o =>
      WarpState.prop_put (EdgePropSet.prop_key o) (LWW.mk ev (EdgePropSet.value o)) bottom
  | OBlobValue _ => bottom
  end.

(** The states the reducer works on: a valid frontier that is not frozen. *)
Definition live_state (s : State) : Prop :=
  WarpState.wf s ∧ VersionVector.frozen (WarpState.observedFrontier s) = false.

Lemma bottom_live : live_state bottom.
Proof. split; [|done]. intros w c Hl. simpl in Hl. by rewrite lookup_empty in Hl. Qed.

Lemma ws_join_live a b : live_state a → live_state b → live_state (WarpState.join a b).
Proof. intros [? _] [? _]. split; [by apply WarpState.ws_join_wf|done]. Qed.

Lemma clone_live s : live_state s → WarpState.clone s = s.
Proof.
  intros [_ Hf]. rewrite WarpState.ws_clone_eq. destruct s as [n e p [f fr] b]; simpl in *.
  by subst.
Qed.

Lemma delta_live o ev : live_state (delta o ev).
Proof. destruct o; apply bottom_live. Qed.

Lemma merge_bottom s :
  live_state s → VersionVector.merge (WarpState.observedFrontier s) VersionVector.empty
  = WarpState.observedFrontier s.
Proof.
  intros [_ Hf]. unfold VersionVector.merge. simpl. rewrite map_upsert_empty_r.
  destruct (WarpState.observedFrontier s); simpl in *. by subst.
Qed.

(** Joins with a delta, component by component. *)
Lemma join_nodes s d : live_state s →
  WarpState.join s (on_nodes (λ _, d) bottom) = on_nodes (λ n, ORSet.join n d) s.
Proof.
  intros Hs. unfold WarpState.join, on_nodes; simpl. f_equal.
  - apply ORSet.or_join_empty_r.
  - by apply merge_bottom.
Qed.

Lemma join_edges s d births : live_state s →
  WarpState.join s (on_births (λ _, births) (on_edges (λ _, d) bottom))
  = on_births (λ b, WarpState.mergeEdgeBirthEvent b births) (on_edges (λ n, ORSet.join n d) s).
Proof.
  intros Hs. unfold WarpState.join, on_births, on_edges; simpl. f_equal.
  - apply ORSet.or_join_empty_r.
  - by apply merge_bottom.
Qed.

Lemma join_prop s k r : live_state s →
  WarpState.join s (WarpState.prop_put k r bottom) = WarpState.prop_put k r s.
Proof.
  intros Hs. unfold WarpState.join, WarpState.prop_put; simpl. rewrite lookup_empty.
  cbn [LWW.max insert]. f_equal.
  - apply ORSet.or_join_empty_r.
  - apply ORSet.or_join_empty_r.
  - unfold WarpState.mergeProps. change (<[k:=r]> ∅) with ({[k := r]} : gmap string WarpState.register).
    rewrite map_upsert_singleton. unfold WarpState.prop_upsert.
    by destruct (WarpState.prop s !! k).
  - by apply merge_bottom.
Qed.

Lemma on_births_id s : on_births (λ b, WarpState.mergeEdgeBirthEvent b ∅) s = s.
Proof.
  unfold on_births, WarpState.mergeEdgeBirthEvent. rewrite map_upsert_empty_r. by destruct s.
Qed.

Lemma mutate_delta o ev s :
  canonical o = true → live_state s → mutate o ev s = (WarpState.join s (delta o ev), Ok ()).
Proof.
  intros Hc Hs. destruct o as [o|o|o|o|o|o|o|o]; try done; simpl.
  - rewrite join_nodes by done. unfold NodeAdd.mutate, modify, on_nodes.
    by rewrite ORSet.add_join.
  - rewrite join_nodes by done. unfold NodeRemove.mutate, modify, on_nodes.
    by rewrite ORSet.remove_join.
  - rewrite join_edges by done. unfold EdgeAdd.mutate, modify, on_births, on_edges; simpl.
    unfold mbind, step_bind; simpl. rewrite ORSet.add_join. do 2 f_equal.
    unfold WarpState.mergeEdgeBirthEvent. rewrite map_upsert_singleton. unfold WarpState.birth_upsert.
    destruct (WarpState.edgeBirthEvent s !! EdgeAdd.key o) as [x|] eqn:E; [|done].
    destruct (0 <? _); [done|]. symmetry. by apply insert_id.
  - pose proof (join_edges s (ORSet.remove_delta (list_to_set (EdgeRemove.observedDots o))) ∅ Hs) as Hj.
    rewrite on_births_id in Hj.
    change (on_births (λ _, ∅) ?x) with x in Hj. rewrite Hj.
    unfold EdgeRemove.mutate, modify, on_edges. by rewrite ORSet.remove_join.
  - by rewrite join_prop.
  - by rewrite join_prop.
  - change WarpState.empty with bottom. rewrite WarpState.ws_join_comm.
    + by rewrite WarpState.ws_join_empty_l, clone_live by apply Hs.
    + apply Hs.
    + apply bottom_live.
    + intros k ra rb _ Hb. simpl in Hb. by rewrite lookup_empty in Hb.
Qed.

(** ** Deltas of patches *)

(** The delta of one element of [ops]: bottom when it is skipped. *)
Definition op_delta (p : PatchLike) (sha : string) (iop : Z * raw_op) : result State :=
  let '(i, op) := iop in
  match op with
  | RUndefined => Ok bottom
  | _ =>
      canonOp ← prepare op;
      match canonOp with
      | None => Ok bottom
      | Some o => ev ← event_id p sha i; Ok (delta o ev)
      end
  end.

(** The frontier a patch contributes: its context and its own dot. *)
Definition frontier_delta (p : PatchLike) : result State :=
  ctx ← WarpState.context_vector (context p);
  _ ← require (str_nonempty (writer p)) PatchMalformed;
  match int_at_least 0 (lamport p) with
  | None => Throw PatchMalformed
  | Some l =>
      Ok (WarpState.with_frontier
        (VersionVector.merge ctx
          (VersionVector.mk (if 0 <? l then {[writer p := l]} else ∅) false)) bottom)
  end.

(** The deltas of a patch in order; [Throw] when the patch is invalid. *)
Definition deltas (p : PatchLike) (sha : string) : result (list State) :=
  ds ← map_result (op_delta p sha) (indexed (ops p));
  f ← frontier_delta p;
  Ok (ds ++ [f]).

Definition joins (s : State) (ds : list State) : State := foldl WarpState.join s ds.

(** What the patch denotes. *)
Definition denote (p : PatchLike) (sha : string) : result State := joins bottom <$> deltas p sha.

(** Instances among the operands satisfy their class invariants. *)
Definition raw_valid (op : raw_op) : Prop :=
  match op with RObject o => like_valid o | _ => True end.
Definition patch_instances_valid (p : PatchLike) : Prop :=
  Forall raw_valid (ops p) ∧
  match context p with Some (VersionVector.SVector vv) => VersionVector.wf vv | _ => True end.

Lemma joins_app s l1 l2 : joins s (l1 ++ l2) = joins (joins s l1) l2.
Proof. apply foldl_app. Qed.

Lemma joins_live s l : live_state s → Forall live_state l → live_state (joins s l).
Proof.
  intros Hs Hl. revert s Hs. induction Hl as [|d l Hd Hl IH]; intros s Hs; [done|].
  apply IH. by apply ws_join_live.
Qed.

Lemma joins_join s l : live_state s → Forall live_state l →
  joins s l = WarpState.join s (joins bottom l).
Proof.
  intros Hs Hl. revert s Hs. induction Hl as [|d l Hd Hl IH]; intros s Hs; simpl.
  - rewrite WarpState.ws_join_comm.
    + by rewrite WarpState.ws_join_empty_l, clone_live by apply Hs.
    + apply Hs.
    + apply bottom_live.
    + intros k ra rb _ Hb. simpl in Hb. by rewrite lookup_empty in Hb.
  - rewrite (IH (WarpState.join s d)) by (by apply ws_join_live).
    rewrite (IH (WarpState.join bottom d)) by (apply ws_join_live; [apply bottom_live|done]).
    rewrite WarpState.ws_join_empty_l, clone_live by (done || apply Hd).
    apply WarpState.ws_join_assoc; [apply Hs|apply Hd|].
    apply joins_live; [apply bottom_live|done].
Qed.

Lemma prepare_canonical op o :
  raw_valid op → prepare op = Ok (Some o) → op_ok o ∧ canonical o = true.
Proof.
  unfold prepare. intros Hv H. invert_ok. destruct op as [| |r]; try done.
  invert_ok. destruct a1 as [|o']; [done|]. injection H as <-. by apply (normalize_valid r).
Qed.

Lemma op_delta_live p sha iop d : op_delta p sha iop = Ok d → live_state d.
Proof.
  destruct iop as [i op]. unfold op_delta.
  assert (∀ op, (canonOp ← prepare op;
      match canonOp with
      | None => Ok bottom
      | Some o => ev ← event_id p sha i; Ok (delta o ev)
      end) = Ok d → live_state d) as Hop.
  { intros op' H. invert_ok. destruct a as [o|]; invert_ok; subst; [apply delta_live|apply bottom_live]. }
  destruct op; [intros [= <-]; apply bottom_live|apply Hop..].
Qed.

Lemma fast_round_delta p sha iop d s :
  raw_valid iop.2 → live_state s → op_delta p sha iop = Ok d →
  fast_round p sha iop s = (WarpState.join s d, Ok ()).
Proof.
  intros Hv Hs. destruct iop as [i op]. simpl in Hv.
  assert (WarpState.join s bottom = s) as Hb by (symmetry; exact (joins_join s [] Hs (Forall_nil_2 _))).
  unfold op_delta, fast_round.
  assert (∀ op, raw_valid op → (canonOp ← prepare op;
      match canonOp with
      | None => Ok bottom
      | Some o => ev ← event_id p sha i; Ok (delta o ev)
      end) = Ok d →
    (canonOp ← lift (prepare op);
      match canonOp with
      | None => mret ()
      | Some o => eventId ← lift (event_id p sha i); mutate o eventId
      end) s = (WarpState.join s d, Ok ())) as Hop.
  { intros op' Hv' H. unfold lift, mbind, step_bind. invert_ok. rewrite Ha. destruct a as [o|].
    - invert_ok. subst d. rewrite Ha0. apply mutate_delta; [|done].
      by apply (prepare_canonical op').
    - injection H as <-. by rewrite Hb. }
  destruct op; [intros [= <-]; unfold mret, step_ret; by rewrite Hb|by apply Hop..].
Qed.

Lemma for_each_deltas p sha l ds s :
  Forall (λ iop, raw_valid iop.2) l → live_state s →
  map_result (op_delta p sha) l = Ok ds →
  for_each (fast_round p sha) l s = (joins s ds, Ok ()) ∧ Forall live_state ds.
Proof.
  intros Hl. revert s ds. induction Hl as [|iop l Hv Hl IH]; intros s ds Hs; cbn [map_result for_each].
  - intros [= <-]. split; [done|constructor].
  - intros H. invert_ok. subst ds. pose proof (op_delta_live _ _ _ _ Ha) as Hd.
    unfold mbind, step_bind. rewrite (fast_round_delta _ _ _ a) by done.
    destruct (IH (WarpState.join s a) a0) as [-> Hds]; [by apply ws_join_live|done|].
    split; [done|]. by constructor.
Qed.

Lemma join_frontier s v :
  WarpState.join s (WarpState.with_frontier v bottom)
  = WarpState.with_frontier (VersionVector.merge (WarpState.observedFrontier s) v) s.
Proof.
  unfold WarpState.join, WarpState.with_frontier; simpl. f_equal; apply ORSet.or_join_empty_r.
Qed.

Lemma context_vector_wf p ctx :
  patch_instances_valid p → WarpState.context_vector (context p) = Ok ctx → VersionVector.wf ctx.
Proof.
  intros [_ Hc]. unfold WarpState.context_vector. destruct (context p) as [[vv|l|l]|].
  - by intros [= <-].
  - intros H. by apply (VersionVector.from_wf (VersionVector.SMap l)).
  - intros H. by apply (VersionVector.from_wf (VersionVector.SObject l)).
  - intros H. by apply (VersionVector.from_wf (VersionVector.SObject [])).
Qed.

Lemma own_dot_wf w l :
  str_nonempty w = true →
  VersionVector.wf (VersionVector.mk (if 0 <? l then {[w := l]} else ∅) false).
Proof.
  intros Hw. unfold VersionVector.wf; simpl. destruct (Z.ltb_spec 0 l).
  - by apply map_Forall_singleton.
  - apply map_Forall_empty.
Qed.

Lemma fold_patch_delta p d s :
  patch_instances_valid p → live_state s → frontier_delta p = Ok d →
  fold_patch p s = (WarpState.join s d, Ok ()) ∧ live_state d.
Proof.
  intros Hp Hs. unfold frontier_delta. intros H. invert_ok.
  pose proof (context_vector_wf p a Hp Ha) as Hctx.
  destruct a0. apply require_ok in Ha0.
  destruct (int_at_least 0 (lamport p)) as [l|] eqn:El; [|done]. injection H as <-.
  apply int_at_least_Some in El as [El Hl].
  pose proof (own_dot_wf (writer p) l Ha0) as Hown. split.
  - rewrite join_frontier. unfold fold_patch, WarpState.foldPatch. rewrite Ha, El.
    rewrite <- VersionVector.vv_merge_assoc by (done || apply Hs).
    set (m := VersionVector.merge (WarpState.observedFrontier s) a).
    assert (VersionVector.wf m) as Hm by (by apply VersionVector.vv_merge_wf; [apply Hs|]).
    rewrite VersionVector.merge_single by done. cbn [jsnum_gtb].
    change (default 0 (VersionVector.get m (writer p))) with (VersionVector.at_ m (writer p)).
    destruct (Z.ltb_spec (VersionVector.at_ m (writer p)) l); [|done].
    unfold VersionVector.set. simpl.
    by rewrite (proj2 (VersionVector.validateEntry_ok (writer p) (JInt l) l)).
  - split; [|done]. by apply VersionVector.vv_merge_wf.
Qed.

Lemma deltas_live p sha ds :
  patch_instances_valid p → deltas p sha = Ok ds → Forall live_state ds.
Proof.
  intros Hp H. unfold deltas in H. invert_ok. subst ds. apply Forall_app. split.
  - clear Ha0. apply map_result_ok in Ha. induction Ha; constructor; [|done].
    by eapply op_delta_live.
  - constructor; [|constructor]. by apply (fold_patch_delta p a0 bottom).
Qed.

Lemma indexed_valid (l : list raw_op) :
  Forall raw_valid l → Forall (λ iop, raw_valid iop.2) (indexed l).
Proof.
  intros Hl. apply Forall_forall. intros [i op] Hin. rewrite Forall_forall in Hl.
  apply elem_of_lookup_imap in Hin as (j & x & [= -> ->] & Hx). simpl. apply Hl.
  by eapply list_elem_of_lookup_2.
Qed.

(** The fast path is a join with what the patch denotes. *)
Lemma applyFast_denote p sha d s :
  patch_instances_valid p → live_state s → denote p sha = Ok d →
  applyFast p sha s = (WarpState.join s d, Ok ()) ∧ live_state d.
Proof.
  intros Hp Hs Hd. unfold denote in Hd. destruct (deltas p sha) as [ds|] eqn:E; [|done].
  injection Hd as <-. pose proof (deltas_live p sha ds Hp E) as Hds.
  unfold deltas in E. invert_ok. subst ds. apply Forall_app in Hds as [Ha1 Hf].
  destruct (for_each_deltas p sha (indexed (ops p)) a s (indexed_valid _ (proj1 Hp)) Hs Ha)
    as [Hfe _].
  split.
  - unfold applyFast, mbind, step_bind. rewrite Hfe.
    destruct (fold_patch_delta p a0 (joins s a) Hp) as [-> _]; [by apply joins_live|done|].
    f_equal. rewrite <- joins_join by (done || by apply Forall_app).
    by rewrite joins_app.
  - apply joins_live; [apply bottom_live|]. by apply Forall_app.
Qed.

(** ** Sequences of patches *)

Definition patches_valid (ps : list sha_patch) : Prop :=
  Forall (λ ps, patch_instances_valid ps.1) ps.

(** The states the patches of a sequence denote. *)
Definition denotes (ps : list sha_patch) : result (list State) :=
  map_result (λ '(p, sha), denote p sha) ps.

Lemma reduce_fast_denotes ps ds s :
  patches_valid ps → live_state s → denotes ps = Ok ds →
  reduce_fast ps s = (joins s ds, Ok ()) ∧ Forall live_state ds.
Proof.
  unfold patches_valid, denotes, reduce_fast. intros Hv. revert s ds.
  induction Hv as [|[p sha] ps Hp Hv IH]; intros s ds Hs; cbn [map_result for_each].
  - intros [= <-]. split; [done|constructor].
  - intros H. invert_ok. subst ds. simpl in Hp.
    destruct (applyFast_denote p sha a s Hp Hs Ha) as [Hf Hl].
    unfold mbind, step_bind. rewrite Hf.
    destruct (IH (WarpState.join s a) a0) as [-> Hds]; [by apply ws_join_live|done|].
    split; [done|]. by constructor.
Qed.

(** Every register of a patch carries the patch's sha. *)
Definition stamped (sha : string) (s : State) : Prop :=
  ∀ k r, WarpState.prop s !! k = Some r → EventId.patchSha (LWW.eventId r) = sha.

Lemma stamped_bottom sha : stamped sha bottom.
Proof. intros k r. simpl. by rewrite lookup_empty. Qed.

Lemma stamped_join sha a b : stamped sha a → stamped sha b → stamped sha (WarpState.join a b).
Proof.
  intros Ha Hb k r. simpl. rewrite WarpState.lookup_mergeProps.
  destruct (WarpState.prop a !! k) as [ra|] eqn:Ea, (WarpState.prop b !! k) as [rb|] eqn:Eb;
    simpl; intros [= <-]; eauto.
  unfold LWW.join. destruct (_ <=? _); eauto.
Qed.

Lemma stamped_delta o ev : stamped (EventId.patchSha ev) (delta o ev).
Proof.
  destruct o; try apply stamped_bottom; intros k r; simpl; rewrite lookup_empty; simpl;
    intros [[<- <-]|[_ Hin]]%lookup_insert_Some; [done|by rewrite lookup_empty in Hin
    |done|by rewrite lookup_empty in Hin|done|by rewrite lookup_empty in Hin].
Qed.

Lemma stamped_joins sha s l : stamped sha s → Forall (stamped sha) l → stamped sha (joins s l).
Proof.
  intros Hs Hl. revert s Hs. induction Hl; intros s Hs; simpl; [done|].
  apply IHHl. by apply stamped_join.
Qed.

Lemma denote_stamped p sha d : denote p sha = Ok d → stamped sha d.
Proof.
  unfold denote. destruct (deltas p sha) as [ds|] eqn:E; [|done]. intros [= <-].
  apply stamped_joins; [apply stamped_bottom|].
  unfold deltas in E. invert_ok. subst ds. apply Forall_app. split.
  - clear Ha0. apply map_result_ok in Ha. induction Ha as [|[i op] d l ds Hd _ IH]; constructor; [|done].
    unfold op_delta in Hd. destruct op; [injection Hd as <-; apply stamped_bottom|..];
      invert_ok; (destruct a as [canon|]; [|injection Hd as <-; apply stamped_bottom]);
      invert_ok; subst d; (apply EventId.event_new_ok in Ha0 as (_ & _ & _ & _ & Hsha & _));
      rewrite Hsha; apply stamped_delta.
  - constructor; [|constructor]. unfold frontier_delta in Ha0. invert_ok.
    destruct (int_at_least 0 (lamport p)); [|done]. injection Ha0 as <-. apply stamped_bottom.
Qed.

(** A commit names one patch. *)
Definition one_patch_per_sha (ps : list sha_patch) : Prop :=
  ∀ p q sha, (p, sha) ∈ ps → (q, sha) ∈ ps → p = q.

Lemma denotes_agree ps ds :
  one_patch_per_sha ps → denotes ps = Ok ds →
  ∀ a b, a ∈ ds → b ∈ ds → WarpState.agree a b.
Proof.
  intros Hone Hd a b Ha Hb. unfold denotes in Hd. apply map_result_ok in Hd.
  assert (∀ x, x ∈ ds → ∃ p sha, (p, sha) ∈ ps ∧ denote p sha = Ok x) as Hsrc.
  { clear -Hd. induction Hd as [|[p sha] d l ds Hp _ IH]; intros x; [set_solver|].
    intros [->|Hx]%elem_of_cons; [exists p, sha; split; [by left|done]|].
    destruct (IH x Hx) as (p' & sha' & ? & ?). exists p', sha'. split; [by right|done]. }
  destruct (Hsrc a Ha) as (p & sha & Hp & Ea), (Hsrc b Hb) as (q & sha' & Hq & Eb).
  intros k ra rb Hra Hrb Heq.
  pose proof (denote_stamped _ _ _ Ea k ra Hra) as Sa.
  pose proof (denote_stamped _ _ _ Eb k rb Hrb) as Sb.
  assert (sha = sha') as <- by congruence.
  assert (p = q) as <- by (by apply (Hone p q sha)).
  assert (a = b) as <- by congruence. congruence.
Qed.

(** Joining a list of pairwise agreeing states does not depend on its order. *)
Lemma joins_perm s l1 l2 :
  live_state s → Forall live_state l1 → l1 ≡ₚ l2 →
  (∀ a b, a ∈ l1 → b ∈ l1 → WarpState.agree a b) → joins s l1 = joins s l2.
Proof.
  intros Hs Hl Hp. revert s Hs Hl. induction Hp as [|x l1 l2 Hp IH|x y l|l1 l2 l3 Hp1 IH1 Hp2 IH2];
    intros s Hs Hl Hag; simpl.
  - done.
  - inversion Hl; subst. apply IH; [by apply ws_join_live|done|set_solver].
  - inversion Hl as [|?? Hy Hl']; inversion Hl' as [|?? Hx Hl'']; subst. f_equal.
    rewrite !WarpState.ws_join_assoc by (apply Hs || apply Hx || apply Hy).
    f_equal. apply WarpState.ws_join_comm; [apply Hy|apply Hx|]. apply Hag; set_solver.
  - rewrite IH1 by done. apply IH2; [done|by rewrite <- Hp1|].
    intros a b Ha Hb. apply Hag; by rewrite Hp1.
Qed.

Lemma reducePatches_default ps init ds :
  patches_valid ps → live_state init → denotes ps = Ok ds →
  reducePatches ps (Some (inl init)) None = Ok (RState (joins init ds)) ∧ Forall live_state ds.
Proof.
  intros Hv Hi Hd. destruct (reduce_fast_denotes ps ds init Hv Hi Hd) as [Hr Hl]. split; [|done].
  unfold reducePatches. unfold cloneState, WarpState.cloneFromSnapshot. rewrite clone_live by done.
  unfold finish. by rewrite Hr.
Qed.

Lemma reducePatches_empty ps ds :
  patches_valid ps → denotes ps = Ok ds →
  reducePatches ps None None = Ok (RState (joins bottom ds)) ∧ Forall live_state ds.
Proof.
  intros Hv Hd. destruct (reduce_fast_denotes ps ds bottom Hv bottom_live Hd) as [Hr Hl].
  split; [|done]. unfold reducePatches, finish, createEmptyState. change WarpState.empty with bottom.
  by rewrite Hr.
Qed.

(** ** The three paths *)

Lemma applyWithDiff_state p sha s :
  (applyWithDiff p sha s).1 = (applyFast p sha s).1 ∧
  (∀ e, (applyFast p sha s).2 = Throw e → (applyWithDiff p sha s).2 = Throw e) ∧
  (∀ d, (applyWithDiff p sha s).2 = Ok d → (applyFast p sha s).2 = Ok ()).
Proof.
  pose proof (same_run_for (diff_round p sha) (fast_round p sha) (indexed (ops p))
    PatchDiff.createPatchDiffAccumulator (λ b x, diff_round_same p sha b x) s) as [E H].
  unfold applyWithDiff, applyFast, mbind, step_bind, lift in *.
  destruct (for_fold _ _ _ s) as [s1 [d1|e1]], (for_each _ _ s) as [s2 [[]|e2]]; simpl in *; subst;
    try done; [|split_and!; [done|congruence|congruence]].
  destruct (fold_patch p s2) as [s3 [[]|e3]]; simpl; split_and!; done || congruence.
Qed.

Lemma applyWithReceipt_state p sha s :
  (applyWithReceipt p sha s).1 = (applyFast p sha s).1 ∧
  (∀ e, (applyFast p sha s).2 = Throw e → (applyWithReceipt p sha s).2 = Throw e) ∧
  (∀ r, (applyWithReceipt p sha s).2 = Ok r → (applyFast p sha s).2 = Ok ()).
Proof.
  pose proof (same_run_for (receipt_round p sha) (fast_round p sha) (indexed (ops p))
    [] (λ b x, receipt_round_same p sha b x) s) as [E H].
  unfold applyWithReceipt, applyFast, mbind, step_bind, lift in *.
  destruct (for_fold _ _ _ s) as [s1 [d1|e1]], (for_each _ _ s) as [s2 [[]|e2]]; simpl in *; subst;
    try done; [|split_and!; [done|congruence|congruence]].
  destruct (fold_patch p s2) as [s3 [[]|e3]]; simpl; split_and!; done || congruence.
Qed.

Lemma reduce_receipts_state ps s acc s' rs :
  for_fold (λ acc '(p, sha), r ← applyWithReceipt p sha; mret (acc ++ [r])) ps acc s = (s', Ok rs) →
  reduce_fast ps s = (s', Ok ()) ∧ length rs = (length acc + length ps)%nat.
Proof.
  revert s acc. induction ps as [|[p sha] ps IH]; intros s acc; cbn [for_fold reduce_fast for_each].
  - intros [= <- <-]. split; [done|]. simpl. lia.
  - unfold reduce_fast in *. cbn [for_each]. unfold mbind, step_bind in *.
    destruct (applyWithReceipt_state p sha s) as (E & _ & Hok).
    destruct (applyWithReceipt p sha s) as [s1 [r|e]]; [|done]. simpl in *.
    destruct (applyFast p sha s) as [s2 r2]. simpl in *. subst s2. rewrite (Hok r eq_refl).
    intros H. apply IH in H as [H1 H2]. split; [done|].
    rewrite H2, length_app. simpl. lia.
Qed.

Lemma reduce_diff_state ps s d0 s' d :
  for_fold (λ merged '(p, sha), d ← applyWithDiff p sha; lift (PatchDiff.mergeDiffs merged d))
    ps d0 s = (s', Ok d) →
  reduce_fast ps s = (s', Ok ()).
Proof.
  revert s d0. induction ps as [|[p sha] ps IH]; intros s d0; cbn [for_fold reduce_fast for_each].
  - by intros [= <- <-].
  - unfold reduce_fast in *. cbn [for_each]. unfold mbind, step_bind, lift in *.
    destruct (applyWithDiff_state p sha s) as (E & _ & Hok).
    destruct (applyWithDiff p sha s) as [s1 [r|e]]; [|done]. simpl in *.
    destruct (applyFast p sha s) as [s2 r2]. simpl in *. subst s2. rewrite (Hok r eq_refl).
    destruct (PatchDiff.mergeDiffs d0 r); [|done]. apply IH.
Qed.

Lemma reduce_receipts_fast ps s s' rs :
  reduce_receipts ps s = (s', Ok rs) → reduce_fast ps s = (s', Ok ()) ∧ length rs = length ps.
Proof. apply reduce_receipts_state. Qed.

Lemma reduce_diff_fast ps s s' d :
  reduce_diff ps s = (s', Ok d) → reduce_fast ps s = (s', Ok ()).
Proof. apply reduce_diff_state. Qed.

(** ** Properties *)

(** C1. Convergence: replicas that have received the same valid patches reduce to
    the same state, in whatever order the patches arrived, as long as a
    commit sha names one patch. *)
Theorem reduce_converges (ps qs : list sha_patch) (ds : list State) :
  patches_valid ps → one_patch_per_sha ps → denotes ps = Ok ds → ps ≡ₚ qs →
  ∃ s, reducePatches ps None None = Ok (RState s) ∧ reducePatches qs None None = Ok (RState s).
Proof.
  intros Hv Hone Hd Hp.
  destruct (map_result_perm _ ps qs ds Hp Hd) as (ds' & Hd' & Hpd).
  destruct (reducePatches_empty ps ds Hv Hd) as [-> Hl].
  destruct (reducePatches_empty qs ds') as [-> _]; [by unfold patches_valid; rewrite <- Hp|done|].
  eexists. split; [done|]. do 2 f_equal. symmetry.
  apply joins_perm; [apply bottom_live|done..|]. by apply (denotes_agree ps).
Qed.

(** C2. Merging is reducing together: the join of the states of two replicas is the
    state of a replica that received the patches of both; reducing on top of a
    checkpoint continues the reduction; delivering the patches again changes
    nothing. *)
Theorem reduce_is_homomorphism (ps qs : list sha_patch) (dp dq : list State) :
  patches_valid ps → patches_valid qs → denotes ps = Ok dp → denotes qs = Ok dq →
  ∃ sp sq s, reducePatches ps None None = Ok (RState sp) ∧
    reducePatches qs None None = Ok (RState sq) ∧
    reducePatches (ps ++ qs) None None = Ok (RState s) ∧
    joinStates sp sq = s ∧
    reducePatches qs (Some (inl sp)) None = Ok (RState s) ∧
    reducePatches ps (Some (inl sp)) None = Ok (RState sp).
Proof.
  intros Hvp Hvq Hp Hq.
  destruct (reducePatches_empty ps dp Hvp Hp) as [Ep Hlp].
  destruct (reducePatches_empty qs dq Hvq Hq) as [Eq Hlq].
  assert (denotes (ps ++ qs) = Ok (dp ++ dq)) as Hpq.
  { unfold denotes in *. rewrite map_result_ok in *. by apply Forall2_app. }
  destruct (reducePatches_empty (ps ++ qs) (dp ++ dq)) as [Epq _]; [by apply Forall_app|done|].
  assert (live_state (joins bottom dp)) as Hls by (apply joins_live; [apply bottom_live|done]).
  exists (joins bottom dp), (joins bottom dq), (joins bottom (dp ++ dq)).
  assert (WarpState.join (joins bottom dp) (joins bottom dq) = joins bottom (dp ++ dq)) as Hj.
  { rewrite joins_app. symmetry. by apply joins_join. }
  split_and!; [done..| |].
  - destruct (reducePatches_default qs (joins bottom dp) dq Hvq Hls Hq) as [-> _].
    by rewrite joins_app.
  - destruct (reducePatches_default ps (joins bottom dp) dp Hvp Hls Hp) as [-> _].
    rewrite joins_join by done. rewrite WarpState.ws_join_idemp by apply Hls.
    by rewrite clone_live.
Qed.

(** C14. The instrumented paths do what the fast path does: applying a patch with a
    diff or with a receipt leaves the same state in every case, throws what
    the fast path throws, and succeeds only when it succeeds; and a reduction
    with either option returns the state of the plain one, with a receipt per
    patch. *)
Theorem apply_paths_agree (p : PatchLike) (sha : string) (s : State) (ps : list sha_patch)
    (init : option (State + WarpState.snapshot)) (o : option reduce_options) :
  ((applyWithDiff p sha s).1 = (applyFast p sha s).1 ∧
   (applyWithReceipt p sha s).1 = (applyFast p sha s).1 ∧
   (∀ e, (applyFast p sha s).2 = Throw e →
      (applyWithDiff p sha s).2 = Throw e ∧ (applyWithReceipt p sha s).2 = Throw e)) ∧
  (∀ r, reducePatches ps init o = Ok r →
     reducePatches ps init None = Ok (RState (reduced_state r)) ∧
     (∀ st l, r = RReceipts st l → length l = length ps)).
Proof.
  destruct (applyWithDiff_state p sha s) as (D1 & D2 & _).
  destruct (applyWithReceipt_state p sha s) as (R1 & R2 & _).
  split; [split_and!; auto|].
  intros r. unfold reducePatches.
  set (st := match init with Some s => _ | None => _ end). unfold finish.
  destruct o as [[[] []]|]; try (intros H; destruct (reduce_fast ps st) as [s' [[]|]]; [|done];
    by injection H as <-).
  1,2: destruct (reduce_receipts ps st) as [s' [rs|]] eqn:E; [|done];
    intros [= <-]; apply reduce_receipts_fast in E as [-> Hlen]; split; [done|];
    by intros ? ? [= <- <-].
  destruct (reduce_diff ps st) as [s' [d|]] eqn:E; [|done].
  intros [= <-]. by apply reduce_diff_fast in E as ->.
Qed.

(** C19. Failure is prompt and local: when an op of a patch is rejected, the ops
    before it have been applied, nothing after it is, the frontier is not
    touched, and the error is that of the op alone. *)
Theorem apply_fast_error (p : PatchLike) (sha : string) (s : State)
    (pre post : list (Z * raw_op)) (iop : Z * raw_op) (ds : list State) (e : error) :
  patch_instances_valid p → live_state s →
  indexed (ops p) = pre ++ iop :: post →
  map_result (op_delta p sha) pre = Ok ds → op_delta p sha iop = Throw e →
  applyFast p sha s = (joins s ds, Throw e).
Proof.
  intros Hp Hs Hi Hpre He. pose proof (indexed_valid _ (proj1 Hp)) as Hv. rewrite Hi in Hv.
  apply Forall_app in Hv as [Hv1 Hv2]. apply Forall_cons in Hv2 as [Hiop _].
  unfold applyFast. rewrite Hi. unfold mbind at 1, step_bind. rewrite for_each_app.
  destruct (for_each_deltas p sha pre ds s Hv1 Hs Hpre) as [Hf Hl].
  unfold mbind, step_bind. rewrite Hf. cbn [for_each]. unfold mbind, step_bind.
  assert (fast_round p sha iop (joins s ds) = (joins s ds, Throw e)) as ->; [|done].
  destruct iop as [i op]. simpl in Hiop.
  pose proof (joins_live s ds Hs Hl) as Hls. unfold op_delta in He. unfold fast_round.
  destruct op; [done|..]; unfold lift, mbind, step_bind;
    destruct (prepare _) as [[o'|]|e'] eqn:Epr; try done; try (by injection He as <-).
  cbn in He. destruct (event_id p sha i); [done|]. by injection He as <-.
Qed.

(** ** Witnesses *)

Definition decoded (o : Op) : raw_op := RObject (Decoded (to_pojo o)).

Definition patch_a : PatchLike := Patch "a" (JInt 1)
  [decoded (ONodeAdd (NodeAdd.mk "n1" (Dot.mk "a" 1)));
   decoded (ONodeAdd (NodeAdd.mk "n2" (Dot.mk "a" 2)));
   decoded (OEdgeAdd (EdgeAdd.mk sample_edge (Dot.mk "a" 3)));
   decoded (OPropSet (PropSet.mk (encodeLegacyEdgePropNode "n1" "n2" "knows") "since" (JNum (JInt 7))))]
  None.
Definition patch_b : PatchLike := Patch "b" (JInt 2)
  [decoded (OPropSet (PropSet.mk "n1" "name" (JStr "Ann"))); RUndefined;
   decoded (ONodeRemove (NodeRemove.mk "n2" ["a:2"]))]
  (Some (VersionVector.SObject [("a", JInt 1)])).
Definition patch_c : PatchLike := Patch "c" (JInt 2)
  [RObject (Instance (ONodePropSet (NodePropSet.mk "n1" "name" (JStr "Bob"))))]
  (Some (VersionVector.SMap [("a", JInt 1)])).

Definition sample_patches : list sha_patch :=
  [(patch_a, "aaaa"); (patch_b, "bbbb"); (patch_c, "cccc")].
Definition sample_patches' : list sha_patch :=
  [(patch_c, "cccc"); (patch_a, "aaaa"); (patch_b, "bbbb")].

Lemma sample_patches_valid : patches_valid sample_patches.
Proof.
  repeat constructor; simpl; repeat split.
Qed.

Definition denotes_or (ps : list sha_patch) : list State :=
  match denotes ps with Ok ds => ds | Throw _ => [] end.

Lemma sample_denotes : denotes sample_patches = Ok (denotes_or sample_patches).
Proof. vm_compute. reflexivity. Qed.

Lemma sample_one_patch : one_patch_per_sha sample_patches.
Proof.
  intros p q sha Hp Hq. unfold sample_patches in *.
  rewrite !elem_of_cons, elem_of_nil in Hp, Hq.
  destruct_or!; try done; simplify_eq; done.
Qed.

(** Both writers set the name of [n1] at lamport 2; writer "c" wins. *)
Lemma reduce_converges_witness :
  (∃ s, reducePatches sample_patches None None = Ok (RState s) ∧
    WarpState.getNodeProp s "n1" "name"
      = Some (LWW.mk (EventId.mk 2 "c" "cccc" 0) (JStr "Bob")) ∧
    ORSet.elements (WarpState.nodeAlive s) = ["n1"] ∧
    VersionVector.serialize (WarpState.observedFrontier s)
      = Ok [("a", 1); ("b", 2); ("c", 2)]) ∧
  ∃ s, reducePatches sample_patches None None = Ok (RState s) ∧
       reducePatches sample_patches' None None = Ok (RState s).
Proof.
  split.
  - eexists. split; [vm_compute; reflexivity|]. split_and!; vm_compute; reflexivity.
  - apply (reduce_converges sample_patches sample_patches' (denotes_or sample_patches)).
    + exact sample_patches_valid.
    + exact sample_one_patch.
    + exact sample_denotes.
    + symmetry. apply (Permutation_cons_append [(patch_a, "aaaa"); (patch_b, "bbbb")] (patch_c, "cccc")).
Defined.

Lemma reduce_is_homomorphism_witness :
  ∃ sp sq s, reducePatches [(patch_a, "aaaa")] None None = Ok (RState sp) ∧
    reducePatches [(patch_b, "bbbb")] None None = Ok (RState sq) ∧
    reducePatches ([(patch_a, "aaaa")] ++ [(patch_b, "bbbb")]) None None = Ok (RState s) ∧
    joinStates sp sq = s ∧
    reducePatches [(patch_b, "bbbb")] (Some (inl sp)) None = Ok (RState s) ∧
    reducePatches [(patch_a, "aaaa")] (Some (inl sp)) None = Ok (RState sp).
Proof.
  apply (reduce_is_homomorphism [(patch_a, "aaaa")] [(patch_b, "bbbb")]
    (denotes_or [(patch_a, "aaaa")]) (denotes_or [(patch_b, "bbbb")])).
  - repeat constructor; simpl; repeat split.
  - repeat constructor; simpl; repeat split.
  - vm_compute. reflexivity.
  - vm_compute. reflexivity.
Defined.

Lemma apply_paths_agree_witness :
  (∃ st l, reducePatches sample_patches None (Some (ReduceOptions true false))
    = Ok (RReceipts st l) ∧ length l = 3%nat) ∧
  (applyWithDiff patch_b "bbbb" WarpState.empty).1 = (applyFast patch_b "bbbb" WarpState.empty).1.
Proof.
  split.
  - eexists _, _. split; [vm_compute; reflexivity|reflexivity].
  - apply (apply_paths_agree patch_b "bbbb" WarpState.empty [] None None).
Defined.

(** The second op has an unknown type: the node of the first is in. *)
Definition patch_bad : PatchLike := Patch "a" (JInt 1)
  [decoded (ONodeAdd (NodeAdd.mk "n1" (Dot.mk "a" 1))); RObject (Decoded (blank "NodeRename"));
   decoded (ONodeAdd (NodeAdd.mk "n2" (Dot.mk "a" 2)))] None.

Lemma apply_fast_error_witness :
  ORSet.elements (WarpState.nodeAlive (applyFast patch_bad "abcd" WarpState.empty).1) = ["n1"] ∧
  (applyFast patch_bad "abcd" WarpState.empty).2 = Throw (PatchError "E_PATCH_UNKNOWN_OP").
Proof.
  split; [vm_compute; reflexivity|].
  rewrite (apply_fast_error patch_bad "abcd" WarpState.empty
    [(0, decoded (ONodeAdd (NodeAdd.mk "n1" (Dot.mk "a" 1))))]
    [(2, decoded (ONodeAdd (NodeAdd.mk "n2" (Dot.mk "a" 2))))]
    (1, RObject (Decoded (blank "NodeRename")))
    [delta (ONodeAdd (NodeAdd.mk "n1" (Dot.mk "a" 1))) (EventId.mk 1 "a" "abcd" 0)]
    (PatchError "E_PATCH_UNKNOWN_OP")).
  - reflexivity.
  - repeat constructor; simpl; repeat split.
  - exact bottom_live.
  - reflexivity.
  - vm_compute. reflexivity.
  - reflexivity.
Defined.
