(* ===== verification/Effects.v ===== *)
(** What the instrumented paths report: the outcomes in a receipt and the
    transitions in a diff are those of the mutation. *)
From S2P Require Export Convergence.
Import OpNormalizer JoinReducer.

(** ** Membership after a mutation *)

Lemma contains_add e dot s e' :
  ORSet.contains (ORSet.add e dot s) e'
  = ORSet.contains s e' || (bool_decide (e = e') && negb (ORSet.isTombstoned s (Dot.encode dot))).
Proof.
  apply eq_true_iff_eq. rewrite orb_true_iff, andb_true_iff, negb_true_iff, !ORSet.contains_live.
  unfold ORSet.isTombstoned. rewrite bool_decide_eq_true, bool_decide_eq_false.
  unfold ORSet.live. rewrite ORSet.dots_of_add. change (ORSet.tombstones (ORSet.add _ _ s))
    with (ORSet.tombstones s). split.
  - intros (d & Hd & Hn). case_decide as He; [|set_solver].
    apply elem_of_union in Hd as [->%elem_of_singleton|Hd]; [by right|left; by exists d].
  - intros [(d & Hd & Hn)|[-> Hn]].
    + exists d. split; [set_solver|done].
    + rewrite decide_True by done. exists (Dot.encode dot). split; [set_solver|done].
Qed.

Lemma contains_remove_before s dots e :
  ORSet.contains (ORSet.remove dots s) e = true → ORSet.contains s e = true.
Proof.
  rewrite !ORSet.contains_live. intros (d & Hd & Hn). exists d. split; [done|].
  simpl in Hn. set_solver.
Qed.

(** An element a removal kills carried an observed dot. *)
Lemma remove_kills s dots e :
  ORSet.contains s e = true → ORSet.contains (ORSet.remove dots s) e = false →
  ∃ d, d ∈ dots ∧ d ∈ ORSet.dots_of s e.
Proof.
  rewrite ORSet.contains_live. intros (d & Hd & Hn) Hf. exists d. split; [|done].
  destruct (decide (d ∈ dots)) as [|Hnd]; [done|]. exfalso.
  assert (ORSet.contains (ORSet.remove dots s) e = true); [|congruence].
  apply ORSet.contains_live. exists d. split; [done|]. simpl. set_solver.
Qed.

(** The removals a diff records are exactly the elements that died. *)
Lemma removal_count s (l : list string) n :
  DiffCalculator.owned s →
  PatchDiff.count n (filter (λ e, ORSet.contains (ORSet.remove (list_to_set l) s) e = false)
    (DiffCalculator.aliveElementsForDots s (js_set l)))
  = Z.b2z (ORSet.contains s n) - Z.b2z (ORSet.contains (ORSet.remove (list_to_set l) s) n).
Proof.
  intros Ho. destruct (DiffCalculator.aliveElementsForDots_spec s (js_set l) Ho) as [Hnd Hin].
  rewrite PatchDiff.count_NoDup by (by apply NoDup_filter).
  case_bool_decide as Hb.
  - apply list_elem_of_filter in Hb as [Ha Hb]. apply Hin in Hb as [Hb _]. by rewrite Ha, Hb.
  - destruct (ORSet.contains s n) eqn:Hs.
    + destruct (ORSet.contains (ORSet.remove _ s) n) eqn:Hr; [done|]. destruct Hb.
      apply list_elem_of_filter. split; [done|]. apply Hin. split; [done|].
      destruct (remove_kills _ _ _ Hs Hr) as (d & Hd & He). exists d.
      split; [|done]. apply elem_of_js_set. by apply elem_of_list_to_set in Hd.
    + destruct (ORSet.contains (ORSet.remove _ s) n) eqn:Hr; [|done].
      apply contains_remove_before in Hr. congruence.
Qed.

(** ** Diffs *)

(** [f] names the element every dot was issued for. *)
Definition owned_by (f : string → string) (s : ORSet.ORSet) : Prop :=
  ∀ e d, d ∈ ORSet.dots_of s e → f d = e.

Lemma owned_by_owned f s : owned_by f s → DiffCalculator.owned s.
Proof. intros Hf e1 e2 d H1%Hf H2%Hf. congruence. Qed.

Lemma owned_by_add f s e dot :
  owned_by f s → f (Dot.encode dot) = e → owned_by f (ORSet.add e dot s).
Proof.
  intros Hf He e' d. rewrite ORSet.dots_of_add. case_decide as Hd; [|set_solver].
  intros [->%elem_of_singleton|Hin]%elem_of_union; [congruence|by apply Hf].
Qed.

(** Edge keys as the operations build them. *)
Definition keys_wf (s : ORSet.ORSet) : Prop :=
  ∀ k d, d ∈ ORSet.dots_of s k → ∃ e, EdgeRecord.edge_ok e ∧ k = WarpState.key_of e.

Record owners_ok (f g : string → string) (s : State) : Prop := {
  own_nodes : owned_by f (WarpState.nodeAlive s);
  own_edges : owned_by g (WarpState.edgeAlive s);
  own_keys : keys_wf (WarpState.edgeAlive s) }.

(** The adds of an operation use dots issued for their target. *)
Definition respects (f g : string → string) (o : Op) : Prop :=
  match o with
  | ONodeAdd o => f (Dot.encode (NodeAdd.dot o)) = NodeAdd.node o
  | OEdgeAdd o => g (Dot.encode (EdgeAdd.dot o)) = EdgeAdd.key o
  | _ => True
  end.

Definition node_alive (s : State) (n : string) : Z :=
  Z.b2z (ORSet.contains (WarpState.nodeAlive s) n).
Definition edge_alive (s : State) (k : string) : Z :=
  Z.b2z (ORSet.contains (WarpState.edgeAlive s) k).

(** What one operation must do to a diff: account for its own transitions. *)
Definition diff_step (d d' : PatchDiff.PatchDiff) (s s' : State) : Prop :=
  (∀ n, PatchDiff.net d' n - PatchDiff.net d n = node_alive s' n - node_alive s n) ∧
  (∀ k, PatchDiff.net_edge d' k - PatchDiff.net_edge d k = edge_alive s' k - edge_alive s k).

Lemma diff_step_refl d s : diff_step d d s s.
Proof. split; intros; lia. Qed.

Lemma diff_step_trans d1 d2 d3 s1 s2 s3 :
  diff_step d1 d2 s1 s2 → diff_step d2 d3 s2 s3 → diff_step d1 d3 s1 s3.
Proof. intros [A1 A2] [B1 B2]. split; intros x; [specialize (A1 x); specialize (B1 x)|
  specialize (A2 x); specialize (B2 x)]; lia. Qed.

Lemma key_of_edgeKey e : PatchDiff.edgeKey e = WarpState.key_of e.
Proof. done. Qed.

Lemma decoded_keys (l : list string) :
  (∀ k, k ∈ l → ∃ e, EdgeRecord.edge_ok e ∧ k = WarpState.key_of e) →
  PatchDiff.edgeKey <$> (decodeEdgeKey <$> l) = l.
Proof.
  induction l as [|k l IH]; intros Hl; csimpl; [done|].
  rewrite IH by (intros; apply Hl; by right).
  destruct (Hl k) as (e & He & ->); [by left|]. by rewrite WarpState.edge_ok_decode.
Qed.

Lemma prop_op_diff_step d s k r :
  diff_step d d s (WarpState.prop_put k r s) ∧
  ∀ p, diff_step d (push_prop p d) s (WarpState.prop_put k r s).
Proof.
  split; [|intros p]; split; intros n; unfold node_alive, edge_alive, PatchDiff.net,
    PatchDiff.net_edge; simpl; lia.
Qed.

Lemma bool_decide_Some b : bool_decide (Some b = Some true) = b.
Proof. by destruct b. Qed.

Lemma count_snoc n x l :
  PatchDiff.count n (l ++ [x]) = PatchDiff.count n l + Z.b2z (bool_decide (x = n)).
Proof.
  rewrite PatchDiff.count_app, PatchDiff.count_cons. change (PatchDiff.count n []) with 0.
  case_decide; case_bool_decide; simpl; congruence || lia.
Qed.

(** An add pushes its target exactly when it came alive. *)
Lemma add_count e dot s n l :
  PatchDiff.count n (if negb (ORSet.contains s e) && ORSet.contains (ORSet.add e dot s) e
                     then l ++ [e] else l)
  = PatchDiff.count n l + Z.b2z (ORSet.contains (ORSet.add e dot s) n) - Z.b2z (ORSet.contains s n).
Proof.
  rewrite !contains_add, (bool_decide_eq_true_2 (e = e)) by done.
  destruct (decide (e = n)) as [->|Hne].
  - rewrite bool_decide_eq_true_2 by done.
    destruct (ORSet.contains s n), (ORSet.isTombstoned s _); simpl; try lia.
    rewrite count_snoc, bool_decide_eq_true_2 by done. simpl. lia.
  - rewrite (bool_decide_eq_false_2 (e = n)) by done. simpl. rewrite orb_false_r.
    destruct (negb _ && _); [|lia]. rewrite count_snoc, bool_decide_eq_false_2 by done. simpl. lia.
Qed.

Lemma accumulate_step f g o ev s s' d :
  op_ok o → respects f g o → owners_ok f g s →
  mutate o ev s = (s', Ok ()) →
  owners_ok f g s' ∧ diff_step d (accumulate o d s' (snapshot o s)) s s'.
Proof.
  intros Hok Hr [Hn He Hk].
  destruct o as [o|o|o|o|o|o|o|o]; simpl in *.
  - intros [= <-]. split; [split; [by apply owned_by_add|done|done]|].
    unfold NodeAdd.accumulate, NodeAdd.snapshot, diff_step, node_alive, edge_alive. simpl.
    rewrite bool_decide_Some. split.
    + intros n. pose proof (add_count (NodeAdd.node o) (NodeAdd.dot o) (WarpState.nodeAlive s) n
        (PatchDiff.nodesAdded d)) as Hc.
      destruct (negb _ && _); unfold PatchDiff.net; simpl; lia.
    + intros k. destruct (negb _ && _); unfold PatchDiff.net_edge; simpl; lia.
  - intros [= <-]. split; [split; done|]. split; [|intros; unfold edge_alive, PatchDiff.net_edge; simpl; lia].
    intros n. unfold NodeRemove.accumulate, NodeRemove.snapshot, node_alive, PatchDiff.net. simpl.
    rewrite PatchDiff.count_app, removal_count by (by apply (owned_by_owned f)). lia.
  - intros [= <-]. destruct Hok as [Hid _]. split.
    { split; [done|by apply owned_by_add|]. intros k dd. simpl. rewrite ORSet.dots_of_add.
      case_decide as Hd; subst; [|rewrite (left_id_L ∅ (∪)); apply Hk].
      intros _. exists (EdgeAdd.edge o). split; [by apply edge_ident_ok|done]. }
    unfold EdgeAdd.accumulate, EdgeAdd.snapshot, diff_step, node_alive, edge_alive. simpl.
    rewrite bool_decide_Some. split.
    + intros n. destruct (negb _ && _); unfold PatchDiff.net; simpl; lia.
    + intros k. pose proof (add_count (EdgeAdd.key o) (EdgeAdd.dot o) (WarpState.edgeAlive s) k
        (PatchDiff.edgeKey <$> PatchDiff.edgesAdded d)) as Hc.
      destruct (negb _ && _); unfold PatchDiff.net_edge; simpl; [|lia].
      rewrite fmap_app. csimpl. rewrite key_of_edgeKey.
      change (WarpState.key_of (EdgeAdd.edge o)) with (EdgeAdd.key o). lia.
  - intros [= <-]. split; [split; done|]. split; [intros; unfold node_alive, PatchDiff.net; simpl; lia|].
    intros k. unfold EdgeRemove.accumulate, EdgeRemove.snapshot, edge_alive, PatchDiff.net_edge. simpl.
    rewrite fmap_app, decoded_keys.
    + rewrite PatchDiff.count_app, removal_count by (by apply (owned_by_owned g)). lia.
    + intros k' [_ Hin]%list_elem_of_filter.
      apply DiffCalculator.aliveElementsForDots_spec in Hin as (_ & dd & _ & Hdd);
        [|by apply (owned_by_owned g)]. by apply (Hk k' dd).
  - unfold PropSet.mutate, mbind, step_bind, lift. destruct (require _ _); [|done].
    intros [= <-]. split; [split; done|].
    unfold PropSet.accumulate, accumulatePropDiff. destruct (negb _); apply prop_op_diff_step.
  - intros [= <-]. split; [split; done|].
    unfold NodePropSet.accumulate, accumulatePropDiff. destruct (negb _); apply prop_op_diff_step.
  - intros [= <-]. split; [split; done|].
    unfold EdgePropSet.accumulate, accumulatePropDiff. destruct (negb _); apply prop_op_diff_step.
  - intros [= <-]. split; [split; done|apply diff_step_refl].
Qed.

Lemma map_result_same {A B} (f : B → result A) (g : A → B) l l' :
  (∀ x y, f (g x) = Ok y → y = x) → map_result f (g <$> l) = Ok l' → l' = l.
Proof.
  intros Hf. rewrite map_result_ok. revert l'. induction l as [|x l IH]; intros l'; csimpl.
  - by inversion 1.
  - inversion 1 as [|?? ? l2 Hx Hl]; subst. f_equal; [by apply Hf|by apply IH].
Qed.

Lemma of_accumulator_same d d' : PatchDiff.of_accumulator d = Ok d' → d' = d.
Proof.
  unfold PatchDiff.of_accumulator, PatchDiff.new. intros H. invert_ok. subst d'.
  apply PatchDiff.require_all_inv in Ha as [<- _], Ha0 as [<- _].
  assert (∀ x y, PatchDiff.edge_fromEntry (inr x) = Ok y → y = x) as He.
  { intros [f t l] y Hy. unfold PatchDiff.edge_fromEntry, PatchDiff.edge_entry in Hy. invert_ok.
    subst y. apply PatchDiff.requireNonEmptyString_ok in Ha as [<- _], Ha0 as [<- _], Ha4 as [<- _].
    done. }
  assert (∀ x y, PatchDiff.prop_fromEntry (inr x) = Ok y → y = x) as Hpe.
  { intros [n k v pv] y Hy. unfold PatchDiff.prop_fromEntry, PatchDiff.prop_entry in Hy. invert_ok.
    subst y. apply PatchDiff.requireNonEmptyString_ok in Ha as [<- _], Ha0 as [<- _]. done. }
  apply (map_result_same _ inr) in Ha1, Ha2; [|done..].
  apply (map_result_same _ inr) in Ha3; [|done]. subst. by destruct d.
Qed.

(** The adds of a patch use dots issued for their targets. *)
Definition patch_respects (f g : string → string) (p : PatchLike) : Prop :=
  Forall (λ op, ∀ o, prepare op = Ok (Some o) → respects f g o) (ops p).

Lemma diff_round_step f g p sha iop d s s' d' :
  raw_valid iop.2 → (∀ o, prepare iop.2 = Ok (Some o) → respects f g o) → owners_ok f g s →
  diff_round p sha d iop s = (s', Ok d') → owners_ok f g s' ∧ diff_step d d' s s'.
Proof.
  intros Hv Hr Ho. destruct iop as [i op]. cbn [snd] in *. unfold diff_round.
  destruct op as [| |r]; [intros [= <- <-]; split; [done|apply diff_step_refl]|done|].
  unfold lift, get, mret, step_ret, mbind, step_bind.
  destruct (prepare (RObject r)) as [[o|]|e] eqn:Ep;
    [|intros [= <- <-]; split; [done|apply diff_step_refl]|done].
  destruct (event_id p sha i) as [ev|]; [|done].
  destruct (mutate o ev s) as [s1 [[]|]] eqn:Em; [|done]. intros [= <- <-].
  destruct (prepare_canonical (RObject r) o Hv Ep) as [Hok Hc].
  apply (accumulate_step f g o ev s s1 d); [done|by apply Hr|done|done].
Qed.

Lemma diff_fold_step f g p sha l d s s' d' :
  Forall (λ iop, raw_valid iop.2 ∧ ∀ o, prepare iop.2 = Ok (Some o) → respects f g o) l →
  owners_ok f g s → for_fold (diff_round p sha) l d s = (s', Ok d') →
  owners_ok f g s' ∧ diff_step d d' s s'.
Proof.
  intros Hl. revert d s. induction Hl as [|iop l [Hv Hr] Hl IH]; intros d s Ho; cbn [for_fold].
  - intros [= <- <-]. split; [done|apply diff_step_refl].
  - unfold mbind, step_bind. destruct (diff_round p sha d iop s) as [s1 [d1|]] eqn:E; [|done].
    intros Hf. destruct (diff_round_step f g p sha iop d s s1 d1 Hv Hr Ho E) as [Ho1 Hs1].
    destruct (IH d1 s1 Ho1 Hf) as [Ho2 Hs2]. split; [done|]. by eapply diff_step_trans.
Qed.

Lemma foldPatch_alive w l c s :
  WarpState.nodeAlive (WarpState.foldPatch w l c s).1 = WarpState.nodeAlive s ∧
  WarpState.edgeAlive (WarpState.foldPatch w l c s).1 = WarpState.edgeAlive s ∧
  WarpState.prop (WarpState.foldPatch w l c s).1 = WarpState.prop s ∧
  WarpState.edgeBirthEvent (WarpState.foldPatch w l c s).1 = WarpState.edgeBirthEvent s.
Proof.
  unfold WarpState.foldPatch. destruct (WarpState.context_vector c); [|done].
  destruct (jsnum_gtb _ _); [|done]. by destruct (VersionVector.set _ _ _).
Qed.

(** ** Receipts *)

Lemma prop_put_superseded s k ev v cur :
  WarpState.prop s !! k = Some cur → EventId.compareEventIds ev (LWW.eventId cur) <= 0 →
  WarpState.prop_put k (LWW.mk ev v) s = s.
Proof.
  intros Hk Hc. unfold WarpState.prop_put. rewrite Hk. cbn [LWW.max LWW.eventId].
  rewrite (cmp_opp (cmp:=EventId.compareEventIds) ev), (proj2 (Z.leb_le _ _)) by lia.
  rewrite insert_id by done. by destruct s.
Qed.

Lemma prop_put_applied s k ev v :
  (∀ cur : WarpState.register, WarpState.prop s !! k = Some cur → 0 < EventId.compareEventIds ev (LWW.eventId cur)) →
  WarpState.prop (WarpState.prop_put k (LWW.mk ev v) s) !! k = Some (LWW.mk ev v).
Proof.
  intros Hc. unfold WarpState.prop_put. destruct (WarpState.prop s !! k) as [cur|]; cbn [LWW.max LWW.eventId].
  - specialize (Hc cur eq_refl). rewrite (cmp_opp (cmp:=EventId.compareEventIds) ev).
    rewrite (proj2 (Z.leb_gt _ _)) by lia. apply lookup_insert_eq.
  - apply lookup_insert_eq.
Qed.

(** The outcome of a property write, against the write. *)
Lemma prop_outcome_cases s k ev v :
  match ReceiptBuilder.propOutcomeForKey s k ev with
  | OpApplied t => t = k ∧
      WarpState.prop (WarpState.prop_put k (LWW.mk ev v) s) !! k = Some (LWW.mk ev v)
  | OpSuperseded t w => t = k ∧ WarpState.prop_put k (LWW.mk ev v) s = s ∧
      ∃ cur, WarpState.prop s !! k = Some cur ∧ LWW.eventId cur = w ∧
             EventId.compareEventIds ev w < 0
  | OpRedundant t => t = k ∧ WarpState.prop_put k (LWW.mk ev v) s = s ∧
      ∃ cur, WarpState.prop s !! k = Some cur ∧ LWW.eventId cur = ev
  end.
Proof.
  unfold ReceiptBuilder.propOutcomeForKey, WarpState.getEncodedProp.
  destruct (WarpState.prop s !! k) as [cur|] eqn:E.
  - destruct (Z.ltb_spec 0 (EventId.compareEventIds ev (LWW.eventId cur))) as [Hgt|Hle].
    + split; [done|]. apply prop_put_applied. intros c. rewrite E. by intros [= <-].
    + destruct (Z.ltb_spec (EventId.compareEventIds ev (LWW.eventId cur)) 0) as [Hlt|Hge].
      * split; [done|]. split; [by apply (prop_put_superseded s k ev v cur)|]. by exists cur.
      * split; [done|]. split; [by apply (prop_put_superseded s k ev v cur)|]. exists cur.
        split; [done|]. symmetry. apply (cmp_eq (cmp:=EventId.compareEventIds)). lia.
  - split; [done|]. apply prop_put_applied. intros c. by rewrite E.
Qed.

(** Same members and same registers. *)
Definition same_view (s s' : State) : Prop :=
  (∀ n, node_alive s' n = node_alive s n) ∧ (∀ k, edge_alive s' k = edge_alive s k) ∧
  WarpState.prop s' = WarpState.prop s.

Lemma same_view_refl s : same_view s s.
Proof. done. Qed.

(** What an applied outcome promises. *)
Definition applied_effect (o : Op) (ev : EventId) (s s' : State) (target : string) : Prop :=
  match o with
  | ONodeAdd o => target = NodeAdd.node o ∧
      ORSet.hasDot (WarpState.nodeAlive s) target (Dot.encode (NodeAdd.dot o)) = false ∧
      ORSet.hasDot (WarpState.nodeAlive s') target (Dot.encode (NodeAdd.dot o)) = true
  | OEdgeAdd o => target = EdgeAdd.key o ∧
      ORSet.hasDot (WarpState.edgeAlive s) target (Dot.encode (EdgeAdd.dot o)) = false ∧
      ORSet.hasDot (WarpState.edgeAlive s') target (Dot.encode (EdgeAdd.dot o)) = true
  | ONodeRemove o => target = NodeRemove.node o ∧
      ∃ d e, d ∈ NodeRemove.observedDots o ∧ d ∈ ORSet.getDots (WarpState.nodeAlive s) e ∧
             d ∉ ORSet.getDots (WarpState.nodeAlive s') e
  | OEdgeRemove o => target = WarpState.key_of (EdgeRemove.edge o) ∧
      ∃ d e, d ∈ EdgeRemove.observedDots o ∧ d ∈ ORSet.getDots (WarpState.edgeAlive s) e ∧
             d ∉ ORSet.getDots (WarpState.edgeAlive s') e
  | OPropSet o => WarpState.prop s' !! target = Some (LWW.mk ev (PropSet.value o))
  | ONodePropSet o => target = encodePropKey (NodePropSet.node o) (NodePropSet.key o) ∧
      WarpState.prop s' !! target = Some (LWW.mk ev (NodePropSet.value o))
  | OEdgePropSet o => target = EdgePropSet.prop_key o ∧
      WarpState.prop s' !! target = Some (LWW.mk ev (EdgePropSet.value o))
  | OBlobValue o => target = BlobValue.oid o ∧ s' = s
  end.

Lemma hasDot_add e dot s : ORSet.hasDot (ORSet.add e dot s) e (Dot.encode dot) = true.
Proof. apply ORSet.hasDot_spec. rewrite ORSet.dots_of_add, decide_True by done. set_solver. Qed.

Lemma effective_remove_effect s (l : list string) :
  DiffCalculator.owned s → ReceiptBuilder.hasEffectiveRemoval s (list_to_set l) = true →
  ∃ d e, d ∈ l ∧ d ∈ ORSet.getDots s e ∧ d ∉ ORSet.getDots (ORSet.remove (list_to_set l) s) e.
Proof.
  intros Ho H. apply ReceiptBuilder.hasEffectiveRemoval_spec in H as (d & e & Hd & Ht & He); [|done].
  exists d, e. rewrite !ORSet.elem_of_getDots. apply elem_of_list_to_set in Hd as Hl.
  split; [done|]. split; [done|]. simpl. set_solver.
Qed.

Lemma redundant_add_view e dot s n :
  ORSet.hasDot s e (Dot.encode dot) = true →
  ORSet.contains (ORSet.add e dot s) n = ORSet.contains s n.
Proof.
  intros Hd%ORSet.hasDot_spec. apply ORSet.contains_ext. unfold ORSet.live.
  rewrite ORSet.dots_of_add. change (ORSet.tombstones (ORSet.add _ _ s)) with (ORSet.tombstones s).
  case_decide; subst; set_solver.
Qed.

Lemma outcome_effect o s ev :
  op_ok o → canonical o = true →
  DiffCalculator.owned (WarpState.nodeAlive s) → DiffCalculator.owned (WarpState.edgeAlive s) →
  match outcome o s ev with
  | OpApplied t => applied_effect o ev s (mutate o ev s).1 t
  | OpRedundant _ => same_view s (mutate o ev s).1
  | OpSuperseded t w => (mutate o ev s).1 = s ∧
      ∃ cur, WarpState.prop s !! t = Some cur ∧ LWW.eventId cur = w ∧
             EventId.compareEventIds ev w < 0
  end.
Proof.
  intros Hok Hc Hn He. destruct o as [o|o|o|o|o|o|o|o]; try done; simpl.
  - unfold NodeAdd.outcome, ReceiptBuilder.nodeAddOutcome. destruct (ORSet.hasDot _ _ _) eqn:Hd.
    + split; [|done]. intros n. unfold node_alive. simpl. by rewrite redundant_add_view.
    + split; [done|]. split; [done|]. apply hasDot_add.
  - unfold NodeRemove.outcome, ReceiptBuilder.nodeRemoveOutcome.
    rewrite (ident_nonempty _ (proj1 Hok) : ReceiptBuilder.isNonEmptyString (Some _) = true). simpl.
    destruct (ReceiptBuilder.hasEffectiveRemoval _ _) eqn:Hd.
    + split; [done|]. by apply effective_remove_effect.
    + split; [|done]. intros n. unfold node_alive. simpl.
      by rewrite ReceiptBuilder.ineffective_remove.
  - unfold EdgeAdd.outcome, ReceiptBuilder.edgeAddOutcome. destruct (ORSet.hasDot _ _ _) eqn:Hd.
    + split; [done|]. split; [|done]. intros k. unfold edge_alive. simpl. by rewrite redundant_add_view.
    + split; [done|]. split; [done|]. apply hasDot_add.
  - unfold EdgeRemove.outcome, ReceiptBuilder.edgeRemoveOutcome, ReceiptBuilder.edgeRemoveTargetKey.
    destruct Hok as [(Hf & Ht & Hl) _].
    rewrite (ident_nonempty _ Hf), (ident_nonempty _ Ht), (ident_nonempty _ Hl). simpl.
    destruct (ReceiptBuilder.hasEffectiveRemoval _ _) eqn:Hd.
    + split; [done|]. by apply effective_remove_effect.
    + split; [done|]. split; [|done]. intros n. unfold edge_alive. simpl.
      by rewrite ReceiptBuilder.ineffective_remove.
  - pose proof (prop_outcome_cases s (encodePropKey (NodePropSet.node o) (NodePropSet.key o)) ev
      (NodePropSet.value o)) as Hp.
    unfold NodePropSet.outcome, ReceiptBuilder.propSetOutcome.
    destruct (ReceiptBuilder.propOutcomeForKey _ _ _) as [t|t|t w].
    + destruct Hp as [-> Hp]. done.
    + destruct Hp as (_ & Hp & _).
      change (same_view s (WarpState.prop_put (encodePropKey (NodePropSet.node o) (NodePropSet.key o))
        (LWW.mk ev (NodePropSet.value o)) s)).
      rewrite Hp. apply same_view_refl.
    + destruct Hp as (-> & Hp & Hcur). done.
  - pose proof (prop_outcome_cases s (EdgePropSet.prop_key o) ev (EdgePropSet.value o)) as Hp.
    unfold EdgePropSet.outcome, ReceiptBuilder.edgePropSetOutcome.
    change (encodeEdgePropKey _ _ _ _) with (EdgePropSet.prop_key o).
    destruct (ReceiptBuilder.propOutcomeForKey _ _ _) as [t|t|t w].
    + destruct Hp as [-> Hp]. done.
    + destruct Hp as (_ & Hp & _).
      change (same_view s (WarpState.prop_put (EdgePropSet.prop_key o)
        (LWW.mk ev (EdgePropSet.value o)) s)).
      rewrite Hp. apply same_view_refl.
    + destruct Hp as (-> & Hp & Hcur). done.
  - unfold BlobValue.outcome. destruct Hok as [_ ->]. done.
Qed.

(** Every entry the receipt path makes passes the receipt's validation. *)
Lemma receipt_entry_valid o s ev :
  op_ok o → canonical o = true →
  TickReceipt.validateOp (receipt_entry o (outcome o s ev)) = Ok () ∧
  receiptName o ∈ TickReceipt.OP_TYPES.
Proof.
  intros Hok Hc.
  assert (receiptName o ∈ TickReceipt.OP_TYPES) as Hin.
  { destruct o; apply (bool_decide_unpack _); vm_compute; exact I. }
  split; [|done].
  assert (str_nonempty (outcome_target (outcome o s ev)) = true) as Ht.
  { destruct o as [o|o|o|o|o|o|o|o]; try done; simpl.
    - unfold NodeAdd.outcome, ReceiptBuilder.nodeAddOutcome.
      destruct (ORSet.hasDot _ _ _); apply Hok.
    - unfold NodeRemove.outcome, ReceiptBuilder.nodeRemoveOutcome. simpl.
      rewrite (ident_nonempty _ (proj1 Hok)).
      destruct (ReceiptBuilder.hasEffectiveRemoval _ _); apply Hok.
    - unfold EdgeAdd.outcome, ReceiptBuilder.edgeAddOutcome, EdgeAdd.key, WarpState.key_of.
      destruct Hok as [(Hf & _) _].
      destruct (ORSet.hasDot _ _ _); simpl; unfold encodeEdgeKey, sep_join; by destruct (ep_from _).
    - unfold EdgeRemove.outcome, ReceiptBuilder.edgeRemoveOutcome, ReceiptBuilder.edgeRemoveTargetKey.
      destruct Hok as [(Hf & Ht & Hl) _].
      rewrite (ident_nonempty _ Hf), (ident_nonempty _ Ht), (ident_nonempty _ Hl). simpl.
      destruct (ReceiptBuilder.hasEffectiveRemoval _ _); simpl; unfold encodeEdgeKey, sep_join;
        by destruct (ep_from _).
    - pose proof (prop_outcome_cases s (encodePropKey (NodePropSet.node o) (NodePropSet.key o)) ev
        (NodePropSet.value o)) as Hp. unfold NodePropSet.outcome, ReceiptBuilder.propSetOutcome.
      destruct (ReceiptBuilder.propOutcomeForKey _ _ _); destruct Hp as [-> _]; simpl;
        unfold encodePropKey, sep_join; destruct Hok as [[Hne _] _]; by destruct (NodePropSet.node o).
    - pose proof (prop_outcome_cases s (EdgePropSet.prop_key o) ev (EdgePropSet.value o)) as Hp.
      unfold EdgePropSet.outcome, ReceiptBuilder.edgePropSetOutcome.
      change (encodeEdgePropKey _ _ _ _) with (EdgePropSet.prop_key o).
      destruct (ReceiptBuilder.propOutcomeForKey _ _ _); by destruct Hp as [-> _].
    - unfold BlobValue.outcome. destruct Hok as [_ Ho]. by rewrite Ho. }
  revert Ht. generalize (outcome o s ev). intros out Ht.
  unfold TickReceipt.validateOp, TickReceipt.validateOpType, receipt_entry.
  cbn [TickReceipt.op TickReceipt.target TickReceipt.result_].
  rewrite bool_decide_eq_true_2 by done. unfold TickReceipt.validateOpTarget. rewrite Ht.
  unfold TickReceipt.validateOpResult. by destruct out.
Qed.

(** ** Properties *)


(** Outcomes tell the truth about the mutation that follows: "redundant" means
    that no member and no register changes, "superseded" that nothing at all
    changes because the target's register holds a greater event, and "applied"
    that the target gained the dot, that an observed live dot died, or that the
    target's register now holds exactly this write. *)
Theorem outcome_truthful (o : Op) (s : State) (ev : EventId) :
  op_ok o → canonical o = true →
  DiffCalculator.owned (WarpState.nodeAlive s) → DiffCalculator.owned (WarpState.edgeAlive s) →
  match outcome o s ev with
  | OpApplied t => applied_effect o ev s (mutate o ev s).1 t
  | OpRedundant _ => same_view s (mutate o ev s).1
  | OpSuperseded t w => (mutate o ev s).1 = s ∧
      ∃ cur, WarpState.prop s !! t = Some cur ∧ LWW.eventId cur = w ∧
             EventId.compareEventIds ev w < 0
  end.
Proof. apply outcome_effect. Qed.

Lemma outcome_truthful_witness :
  outcome (ONodePropSet (NodePropSet.mk "n1" "name" JNull)) sample_state (ev 1 "a" 0)
    = OpSuperseded (encodePropKey "n1" "name") (ev 1 "w" 3) ∧
  (mutate (OBlobValue (BlobValue.mk "n1" "oid1")) (ev 1 "a" 0) WarpState.empty).1 = WarpState.empty.
Proof.
  split; [vm_compute; reflexivity|].
  apply (outcome_truthful (OBlobValue (BlobValue.mk "n1" "oid1")) WarpState.empty (ev 1 "a" 0)).
  - repeat split.
  - reflexivity.
  - intros e1 e2 d Hd. unfold ORSet.dots_of in Hd. simpl in Hd. by rewrite lookup_empty in Hd.
  - intros e1 e2 d Hd. unfold ORSet.dots_of in Hd. simpl in Hd. by rewrite lookup_empty in Hd.
Defined.

(** The number of ops of a patch that reach an operation class. *)
Definition reaches (op : raw_op) : bool :=
  match prepare op with Ok (Some _) => true | _ => false end.
Definition effective_ops (p : PatchLike) : nat :=
  length (filter (λ op, reaches op = true) (ops p)).

Lemma receipt_fold_valid p sha l acc s ds :
  Forall (λ iop, raw_valid iop.2) l → live_state s →
  map_result (op_delta p sha) l = Ok ds →
  Forall (λ e, TickReceipt.validateOp e = Ok ()) acc →
  ∃ acc', for_fold (receipt_round p sha) l acc s = (joins s ds, Ok acc') ∧
    Forall (λ e, TickReceipt.validateOp e = Ok ()) acc' ∧
    length acc' = (length acc + length (filter (λ op, reaches op = true) l.*2))%nat.
Proof.
  intros Hl. revert acc s ds.
  induction Hl as [|[i op] l Hv Hl IH]; intros acc s ds Hs; cbn [map_result for_fold].
  - intros [= <-] Hacc. exists acc. split_and!; [done..|]. simpl. lia.
  - intros H Hacc. invert_ok. subst ds. cbn [snd] in Hv.
    pose proof (fast_round_delta p sha (i, op) a s Hv Hs Ha) as Hfast.
    destruct (receipt_round_same p sha acc (i, op) s) as [Est Ers].
    rewrite Hfast in Est, Ers. cbn [fst snd] in Est, Ers.
    assert (∃ acc1, receipt_round p sha acc (i, op) s = (WarpState.join s a, Ok acc1) ∧
      Forall (λ e, TickReceipt.validateOp e = Ok ()) acc1 ∧
      length acc1 = (length acc + length (filter (λ op, reaches op = true) [op]))%nat)
      as (acc1 & E1 & V1 & L1).
    { destruct (receipt_round p sha acc (i, op) s) as [s1 [acc1|]] eqn:E; [|done].
      cbn [fst] in Est. subst s1. exists acc1. split; [done|].
      unfold receipt_round in E. rewrite filter_cons, filter_nil. unfold reaches.
      destruct op as [| |r].
      - injection E as _ <-. split; [done|]. simpl. lia.
      - done.
      - unfold lift, get, mret, step_ret, mbind, step_bind in E.
        destruct (prepare (RObject r)) as [[o|]|] eqn:Ep; [|injection E as _ <-|done].
        + destruct (event_id p sha i) as [evt|]; [|done].
          destruct (prepare_canonical (RObject r) o Hv Ep) as [Hok Hc].
          destruct (mutate o evt s) as [s1 [[]|]]; [|done].
          destruct (receipt_entry_valid o s evt Hok Hc) as [Hval Hin].
          rewrite bool_decide_eq_true_2 in E by done. injection E as _ <-.
          rewrite decide_True by done. rewrite length_app. split; [|simpl; lia].
          apply Forall_app. split; [done|]. by constructor.
        + rewrite decide_False by naive_solver. split; [done|]. simpl. lia. }
    unfold mbind, step_bind. rewrite E1.
    pose proof (op_delta_live _ _ _ _ Ha) as Hda.
    destruct (IH acc1 (WarpState.join s a) a0) as (acc' & -> & V & L);
      [by apply ws_join_live|done|done|].
    exists acc'. split_and!; [done|done|]. rewrite L, L1. csimpl.
    rewrite (filter_cons _ op), filter_cons, filter_nil.
    destruct (decide _); simpl; lia.
Qed.

Lemma indexed_snd {A} (l : list A) : (indexed l).*2 = l.
Proof.
  unfold indexed. apply list_eq. intros i. rewrite list_lookup_fmap, list_lookup_imap.
  by destruct (l !! i).
Qed.

Lemma assertOpsArray_ok l :
  Forall (λ e, TickReceipt.validateOp e = Ok ()) l → TickReceipt.assertOpsArray l = Ok ().
Proof.
  intros Hl. unfold TickReceipt.assertOpsArray.
  rewrite (map_result_fmap _ (λ _, ())); [done|]. rewrite Forall_forall in Hl. auto.
Qed.

(** A valid patch always yields a receipt: it carries the patch's identity and
    one entry per op that reached an operation class, and the state is the
    one the patch denotes. *)
Theorem receipt_total (p : PatchLike) (sha : string) (s d : State) :
  patch_instances_valid p → live_state s → str_nonempty sha = true → denote p sha = Ok d →
  ∃ r, applyWithReceipt p sha s = (WarpState.join s d, Ok r) ∧
    TickReceipt.patchSha r = sha ∧ TickReceipt.writer r = writer p ∧
    JInt (TickReceipt.lamport r) = lamport p ∧
    length (TickReceipt.ops r) = effective_ops p.
Proof.
  intros Hp Hs Hsha Hd. pose proof Hd as Hden. unfold denote in Hd.
  destruct (deltas p sha) as [ds|] eqn:E; [|done]. injection Hd as <-.
  pose proof (deltas_live p sha ds Hp E) as Hds.
  unfold deltas in E. invert_ok. subst ds. apply Forall_app in Hds as [Ha1 Hf].
  destruct (receipt_fold_valid p sha (indexed (ops p)) [] s a (indexed_valid _ (proj1 Hp)) Hs Ha)
    as (acc & Efold & Vacc & Lacc); [constructor|].
  destruct (fold_patch_delta p a0 (joins s a) Hp) as [Ef _]; [by apply joins_live|done|].
  unfold applyWithReceipt, mbind, step_bind, lift. rewrite Efold, Ef.
  unfold frontier_delta in Ha0. invert_ok. destruct a2. apply require_ok in Ha3.
  destruct (int_at_least 0 (lamport p)) as [l|] eqn:El; [|done].
  exists (TickReceipt.mk sha (writer p) l (TickReceipt.freezeOps acc)).
  split_and!; [|done|done|by apply int_at_least_Some in El as [-> _]|].
  - f_equal.
    + rewrite <- joins_join by (done || by apply Forall_app). by rewrite joins_app.
    + unfold TickReceipt.createTickReceipt, TickReceipt.new, TickReceipt.assertNonNegativeInt.
      rewrite Hsha, Ha3, El. simpl. by rewrite assertOpsArray_ok.
  - simpl. rewrite TickReceipt.freezeOps_id, Lacc, indexed_snd. done.
Qed.

Definition denote_or (p : PatchLike) (sha : string) : State :=
  match denote p sha with Ok d => d | Throw _ => bottom end.

Lemma receipt_total_witness :
  (∃ r, (applyWithReceipt patch_b "bbbb" WarpState.empty).2 = Ok r ∧
    TickReceipt.ops r
      = [TickReceipt.mkOutcome "NodePropSet" (encodePropKey "n1" "name") "applied" None;
         TickReceipt.mkOutcome "NodeTombstone" "n2" "redundant" None]) ∧
  ∃ r, applyWithReceipt patch_b "bbbb" WarpState.empty
    = (WarpState.join WarpState.empty (denote_or patch_b "bbbb"), Ok r) ∧
    TickReceipt.patchSha r = "bbbb" ∧ TickReceipt.writer r = "b" ∧
    JInt (TickReceipt.lamport r) = JInt 2 ∧ length (TickReceipt.ops r) = effective_ops patch_b.
Proof.
  split.
  - eexists. split; vm_compute; reflexivity.
  - apply (receipt_total patch_b "bbbb" WarpState.empty (denote_or patch_b "bbbb")).
    + repeat constructor; simpl; repeat split.
    + exact bottom_live.
    + reflexivity.
    + vm_compute. reflexivity.
Defined.

(** [n] dies and comes back in one patch: both transitions are in the diff. *)
Definition patch_readd : PatchLike := Patch "a" (JInt 2)
  [decoded (ONodeRemove (NodeRemove.mk "n" ["a:1"]));
   decoded (ONodeAdd (NodeAdd.mk "n" (Dot.mk "a" 2)))] None.
Definition state_n : State := on_nodes (ORSet.add "n" (Dot.mk "a" 1)) WarpState.empty.


(** ** Divergences the model shows *)

(** Merging the diffs of a sequence loses a node that comes alive, dies and
    comes alive again: it is alive at the end and was absent at the start,
    but the merged diff does not mention it. *)
Theorem track_diff_loses_readded_node :
  let patches :=
    [(Patch "a" (JInt 1) [decoded (ONodeAdd (NodeAdd.mk "n" (Dot.mk "a" 1)))] None, "aaaa");
     (patch_readd, "bbbb")] in
  ∃ s d, reducePatches patches None (Some (ReduceOptions false true)) = Ok (RDiff s d) ∧
    ORSet.contains (WarpState.nodeAlive s) "n" = true ∧
    ORSet.contains (WarpState.nodeAlive WarpState.empty) "n" = false ∧
    PatchDiff.nodesAdded d = [] ∧ PatchDiff.nodesRemoved d = [].
Proof. eexists _, _. split; [vm_compute; reflexivity|]. repeat split. Qed.

(** A removal of a dot the replica has not seen is reported as redundant, but it
    is not without effect: the dot is tombstoned, and the add that brings it
    later no longer makes the node alive. *)
Theorem redundant_remove_blocks_later_add :
  let rem := ONodeRemove (NodeRemove.mk "n" ["a:1"]) in
  let add := ONodeAdd (NodeAdd.mk "n" (Dot.mk "a" 1)) in
  let s1 := (mutate rem (ev 2 "b" 0) WarpState.empty).1 in
  outcome rem WarpState.empty (ev 2 "b" 0) = OpRedundant "n" ∧
  s1 ≠ WarpState.empty ∧
  ORSet.contains (WarpState.nodeAlive (mutate add (ev 1 "a" 0) WarpState.empty).1) "n" = true ∧
  ORSet.contains (WarpState.nodeAlive (mutate add (ev 1 "a" 0) s1).1) "n" = false.
Proof.
  cbv zeta. split_and!; try (vm_compute; reflexivity).
  intros E. apply (f_equal (λ s, ORSet.isTombstoned (WarpState.nodeAlive s) "a:1")) in E.
  vm_compute in E. discriminate E.
Qed.

(** An object of a known type that lacks its identity is skipped without an
    error on every path. *)
Theorem known_op_without_identity_is_skipped :
  let p := Patch "a" (JInt 1) [RObject (Decoded (Pojo (Some "NodeRemove") None DotMissing
    (Some [Some "a:1"]) None None None None JUndefined None))] None in
  (applyFast p "aaaa" state_n).2 = Ok () ∧
  ORSet.contains (WarpState.nodeAlive (applyFast p "aaaa" state_n).1) "n" = true ∧
  ∃ r, (applyWithReceipt p "aaaa" state_n).2 = Ok r ∧ TickReceipt.ops r = [].
Proof.
  cbv zeta. split_and!; try (vm_compute; reflexivity).
  eexists. split; vm_compute; reflexivity.
Qed.
