(* ===== verification/Patch.v ===== *)
(** The patch value ([types/Patch.ts]): its validating constructor, and that
    every patch it builds can be folded by the reducer. *)
From S2P Require Export Convergence.

Module Patch.
Import OpNormalizer JoinReducer.

(* @src domain/types/Patch.ts Patch 99-138 *)
Record Patch := mk {
  schema : Z;
  writer : string;
  lamport : Z;
  context : VersionVector.source;
  ops : list raw_op;
  reads : option (list string);
  writes : option (list string) }.

(** An optional [reads]/[writes] argument; an entry is [None] when it is not a
    string. *)
Inductive string_array : Type :=
  | SAUndefined
  | SANotArray
  | SAArray (l : list (option string)).

(** The constructor's argument. [a_schema] is [None] when omitted, [a_writer]
    when it is not a string, [a_lamport] when it is not a number, [a_ops] when
    it is not an array. *)
Record patch_args := Args {
  a_schema : option jsnum;
  a_writer : option string;
  a_lamport : option jsnum;
  a_context : VersionVector.source;
  a_ops : option (list raw_op);
  a_reads : string_array;
  a_writes : string_array }.

(* @src domain/types/Patch.ts assertMetadataEntry *)
Definition assertMetadataEntry (value : option string) : result string :=
  match value with
  | Some v => if str_nonempty v then Ok v else Throw (PatchError "E_PATCH_METADATA_ENTRY")
  | None => Throw (PatchError "E_PATCH_METADATA_ENTRY")
  end.

(** Returns the validated entries of an array. *)
(* @src domain/types/Patch.ts assertStringArray *)
Definition assertStringArray (arr : string_array) : result (list string) :=
  match arr with
  | SAUndefined => Ok []
  | SANotArray => Throw (PatchError "E_PATCH_METADATA_TYPE")
  | SAArray l => map_result assertMetadataEntry l
  end.

(* @src domain/types/Patch.ts _nonEmpty *)
Definition nonEmpty (arr : string_array) : result (option (list string)) :=
  l ← assertStringArray arr;
  Ok (match l with [] => None | _ => Some l end).

(* @src domain/types/Patch.ts validateSchema *)
Definition validateSchema (schema : jsnum) : result Z :=
  match schema with
  | JInt 2 => Ok 2
  | JInt 3 => Ok 3
  | _ => Throw (PatchError "E_PATCH_SCHEMA")
  end.

(* @src domain/types/Patch.ts validateWriter *)
Definition validateWriter (writer : option string) : result string :=
  match writer with
  | Some w => if str_nonempty w then Ok w else Throw (PatchError "E_PATCH_WRITER")
  | None => Throw (PatchError "E_PATCH_WRITER")
  end.

(* @src domain/types/Patch.ts validateLamport *)
Definition validateLamport (lamport : option jsnum) : result Z :=
  match lamport ≫= int_at_least 0 with
  | Some l => Ok l
  | None => Throw (PatchError "E_PATCH_LAMPORT")
  end.

(* @src domain/types/Patch.ts validateOps *)
Definition validateOps (ops : option (list raw_op)) : result (list raw_op) :=
  match ops with Some l => Ok l | None => Throw (PatchError "E_PATCH_OPS") end.

(** An object is validated as a vector but kept as an object. *)
(* @src domain/types/Patch.ts normalizeContext *)
Definition normalizeContext (context : VersionVector.source) : result VersionVector.source :=
  match context with
  | VersionVector.SVector vv => Ok (VersionVector.SVector (VersionVector.clone vv))
  | VersionVector.SMap l => VersionVector.SVector <$> VersionVector.from (VersionVector.SMap l)
  | VersionVector.SObject l =>
      _ ← VersionVector.from (VersionVector.SObject l); Ok (VersionVector.SObject l)
  end.

(* @src domain/types/Patch.ts constructor *)
Definition new (a : patch_args) : result Patch :=
  schema ← validateSchema (default (JInt 2) (a_schema a));
  writer ← validateWriter (a_writer a);
  lamport ← validateLamport (a_lamport a);
  ops ← validateOps (a_ops a);
  context ← normalizeContext (a_context a);
  reads ← nonEmpty (a_reads a);
  writes ← nonEmpty (a_writes a);
  Ok (mk schema writer lamport context ops reads writes).

(** A patch as the reducer reads it. *)
Definition like (p : Patch) : PatchLike :=
  JoinReducer.Patch (writer p) (JInt (lamport p)) (ops p) (Some (context p)).

(** The arguments a patch would be rebuilt from. *)
Definition array_of (l : option (list string)) : string_array :=
  match l with None => SAUndefined | Some l => SAArray (Some <$> l) end.
Definition args_of (p : Patch) : patch_args :=
  Args (Some (JInt (schema p))) (Some (writer p)) (Some (JInt (lamport p))) (context p)
    (Some (ops p)) (array_of (reads p)) (array_of (writes p)).

(** ** The constructor's guarantees *)

(** What the constructor establishes. *)
Record patch_ok (p : Patch) : Prop := {
  ok_schema : schema p = 2 ∨ schema p = 3;
  ok_writer : str_nonempty (writer p) = true;
  ok_lamport : 0 <= lamport p;
  ok_context : normalizeContext (context p) = Ok (context p);
  ok_reads : nonEmpty (array_of (reads p)) = Ok (reads p);
  ok_writes : nonEmpty (array_of (writes p)) = Ok (writes p) }.

Lemma validateSchema_ok s z : validateSchema s = Ok z → s = JInt z ∧ (z = 2 ∨ z = 3).
Proof.
  unfold validateSchema. intros H.
  repeat match goal with H : match ?x with _ => _ end = _ |- _ => destruct x; try discriminate H end;
    injection H as <-; auto.
Qed.

Lemma validateLamport_int z : 0 <= z → validateLamport (Some (JInt z)) = Ok z.
Proof.
  intros H. unfold validateLamport, mbind, option_bind.
  by rewrite (proj2 (int_at_least_Some 0 (JInt z) z)).
Qed.

Lemma validateWriter_ok w : str_nonempty w = true → validateWriter (Some w) = Ok w.
Proof. intros H. unfold validateWriter. by rewrite H. Qed.

Lemma validateSchema_int z : z = 2 ∨ z = 3 → validateSchema (JInt z) = Ok z.
Proof. by intros [->| ->]. Qed.

Lemma validateLamport_ok l z : validateLamport l = Ok z → l = Some (JInt z) ∧ 0 <= z.
Proof.
  unfold validateLamport. destruct l as [n|]; simpl; [|done].
  destruct (int_at_least 0 n) as [k|] eqn:E; [|done]. intros [= <-].
  apply int_at_least_Some in E as [-> ?]. done.
Qed.

Lemma metadata_ok o s : assertMetadataEntry o = Ok s → o = Some s ∧ str_nonempty s = true.
Proof. destruct o as [v|]; simpl; [|done]. destruct (str_nonempty v) eqn:E; [|done]. by intros [= <-]. Qed.

Lemma nonEmpty_idemp arr l : nonEmpty arr = Ok l → nonEmpty (array_of l) = Ok l.
Proof.
  unfold nonEmpty. destruct arr as [| |a]; simpl; intros H; [by injection H as <-|done|].
  invert_ok. subst l. destruct a0 as [|s l]; [done|]. unfold array_of, assertStringArray.
  rewrite (map_result_fmap _ (λ o, default "" o)).
  - simpl. by rewrite <- list_fmap_compose, list_fmap_id.
  - intros o Ho. apply list_elem_of_fmap in Ho as (s' & -> & Hs').
    apply map_result_ok in Ha. apply (Forall2_Forall_r _ (λ y, str_nonempty y = true)) in Ha.
    + rewrite Forall_forall in Ha. simpl. by rewrite (Ha s').
    + apply Forall_forall. intros o _ y Hy. apply metadata_ok in Hy. apply Hy.
Qed.

Lemma normalizeContext_idemp c c' : normalizeContext c = Ok c' → normalizeContext c' = Ok c'.
Proof.
  destruct c as [vv|l|l]; simpl.
  - by intros [= <-].
  - destruct (VersionVector.fromMap l) as [vv|] eqn:E; [|done]. intros [= <-]. simpl.
    unfold VersionVector.fromMap in E. invert_ok. by subst vv.
  - intros H. invert_ok. subst c'. simpl in *. by rewrite Ha.
Qed.

Lemma new_patch_ok a p : new a = Ok p → patch_ok p.
Proof.
  intros H. unfold new in H. invert_ok. subst p. constructor; simpl.
  - apply validateSchema_ok in Ha. apply Ha.
  - unfold validateWriter in Ha0. destruct (a_writer a) as [w|]; [|done].
    destruct (str_nonempty w) eqn:E; [|done]. by injection Ha0 as <-.
  - apply validateLamport_ok in Ha1. apply Ha1.
  - by eapply normalizeContext_idemp.
  - by eapply nonEmpty_idemp.
  - by eapply nonEmpty_idemp.
Qed.

Lemma patch_ok_rebuilds p : patch_ok p → new (args_of p) = Ok p.
Proof.
  intros [Hs Hw Hl Hc Hr Hwr]. unfold new, args_of.
  cbn [a_schema a_writer a_lamport a_ops a_context a_reads a_writes from_option id].
  rewrite (validateSchema_int _ Hs), (validateWriter_ok _ Hw), (validateLamport_int _ Hl).
  cbn [mbind result_bind validateOps]. rewrite Hc. cbn [mbind result_bind].
  rewrite Hr. cbn [mbind result_bind]. rewrite Hwr. by destruct p.
Qed.

(** The context of a constructed patch is read back by the reducer. *)
Lemma normalized_context_vector c :
  normalizeContext c = Ok c → ∃ vv, WarpState.context_vector (Some c) = Ok vv.
Proof.
  destruct c as [vv|l|l]; simpl; [by eauto| |].
  - by destruct (VersionVector.fromMap l).
  - intros H. invert_ok. by exists a.
Qed.

Lemma patch_ok_frontier p : patch_ok p → ∃ d, frontier_delta (like p) = Ok d.
Proof.
  intros [_ Hw Hl Hc _ _]. destruct (normalized_context_vector _ Hc) as (vv & Hvv).
  unfold frontier_delta, like. cbn [JoinReducer.context JoinReducer.writer JoinReducer.lamport].
  rewrite Hvv, Hw. cbn [mbind result_bind require].
  rewrite (proj2 (int_at_least_Some 0 (JInt (lamport p)) (lamport p))) by done. by eexists.
Qed.
Lemma frontier_delta_covers p d :
  patch_ok p → patch_instances_valid (like p) → frontier_delta (like p) = Ok d →
  lamport p <= VersionVector.at_ (WarpState.observedFrontier d) (writer p).
Proof.
  intros Hp Hi Hd. unfold frontier_delta in Hd. invert_ok.
  pose proof (context_vector_wf _ _ Hi Ha) as Hctx. destruct a0.
  cbn [like JoinReducer.writer JoinReducer.lamport] in *.
  rewrite (proj2 (int_at_least_Some 0 (JInt (lamport p)) (lamport p))) in Hd
    by (split; [done|apply Hp]).
  injection Hd as <-. simpl.
  rewrite VersionVector.at_merge; [|done|apply own_dot_wf, Hp].
  pose proof (VersionVector.wf_at_nonneg a (writer p) Hctx).
  unfold VersionVector.at_ at 2. simpl. destruct (Z.ltb_spec 0 (lamport p)); [|lia].
  rewrite lookup_singleton_eq. simpl. lia.
Qed.
End Patch.

(** ** Properties *)

(** A patch that the constructor accepts is well-formed and a fixed point of
    it: rebuilding it from its own fields gives it back. Folding it into a
    live state never throws: the observed frontier covers what it covered
    before and the patch's own lamport. *)
Theorem patch_constructor_sound (a : Patch.patch_args) (p : Patch.Patch) (s : State) :
  Patch.new a = Ok p →
  patch_instances_valid (Patch.like p) → live_state s →
  Patch.patch_ok p ∧
  Patch.new (Patch.args_of p) = Ok p ∧
  ∃ s', JoinReducer.fold_patch (Patch.like p) s = (s', Ok ()) ∧ live_state s' ∧
    VersionVector.descends (WarpState.observedFrontier s') (WarpState.observedFrontier s) = true ∧
    Patch.lamport p <= VersionVector.at_ (WarpState.observedFrontier s') (Patch.writer p).
Proof.
  intros Hn Hi Hs. pose proof (Patch.new_patch_ok a p Hn) as Hp.
  split; [done|]. split; [by apply Patch.patch_ok_rebuilds|].
  destruct (Patch.patch_ok_frontier p Hp) as [d Hd].
  destruct (fold_patch_delta _ d s Hi Hs Hd) as [Hf Hl].
  exists (WarpState.join s d). split_and!; [done|by apply ws_join_live| |].
  - apply VersionVector.descends_spec; [by apply ws_join_live|apply Hs|].
    intros w. simpl. rewrite VersionVector.at_merge by (apply Hs || apply Hl). lia.
  - simpl. rewrite VersionVector.at_merge by (apply Hs || apply Hl).
    by pose proof (Patch.frontier_delta_covers p d Hp Hi Hd); lia.
Qed.

Definition patch_args_sample : Patch.patch_args :=
  Patch.Args None (Some "alice") (Some (JInt 4))
    (VersionVector.SObject [("alice", JInt 3); ("bob", JInt 0)]) (Some [])
    Patch.SAUndefined (Patch.SAArray [Some "n1"]).
Definition patch_sample : Patch.Patch :=
  Patch.mk 2 "alice" 4 (VersionVector.SObject [("alice", JInt 3); ("bob", JInt 0)]) [] None
    (Some ["n1"]).

Lemma patch_constructor_sound_witness :
  Patch.new patch_args_sample = Ok patch_sample ∧
  Patch.new (Patch.Args (Some (JInt 4)) None None (VersionVector.SObject []) None
    Patch.SAUndefined Patch.SAUndefined) = Throw (PatchError "E_PATCH_SCHEMA") ∧
  Patch.new (Patch.args_of patch_sample) = Ok patch_sample.
Proof.
  split_and!; [vm_compute; reflexivity..|].
  apply (patch_constructor_sound patch_args_sample patch_sample bottom).
  - vm_compute. reflexivity.
  - split; [apply Forall_nil_2|exact I].
  - apply bottom_live.
Defined.
