(* ===== verification/Session.v ===== *)
(** The page-backed alive sets: element states ([orset/ORSetElementState.ts]),
    what a storage-backed OR-set engine offers ([orset/shadow/ShadowTrieORSet.ts])
    as an interface with laws, and the session that owns two engines
    ([orset/session/StateSession.ts]). *)
From S2P Require Export WarpState.

Definition StateSessionError (code : string) : error := Err "StateSessionError" code.
Definition E_SESSION_CLOSED : error := StateSessionError "E_STATE_SESSION_CLOSED".
Definition E_SESSION_INPUT : error := StateSessionError "E_STATE_SESSION_INPUT".
Definition E_SESSION_STRUCTURE : error := StateSessionError "E_STATE_SESSION_STRUCTURE".

(** [null] or a non-empty string. *)
Definition root_oid_ok (rootOid : option string) : bool :=
  match rootOid with None => true | Some oid => str_nonempty oid end.

Module ORSetElementState.

(* @src domain/orset/ORSetElementState.ts ORSetElementState 15-18 *)
Record ORSetElementState := mk {
  element : string; dots : gset string; tombstonedDots : gset string }.

#[global] Instance ORSetElementState_eq_dec : EqDecision ORSetElementState.
Proof. solve_decision. Defined.

(** The sets arrive as sets of strings; only the element is checked. *)
(* @src domain/orset/ORSetElementState.ts constructor *)
Definition new (element : string) (dots tombstonedDots : gset string)
  : result ORSetElementState :=
  _ ← require (str_nonempty element) (Err "ORSetElementStateError" "E_ORSET_ELEMENT_STATE_INPUT");
  Ok (mk element dots tombstonedDots).

(* @src domain/orset/ORSetElementState.ts hasLiveDots *)
Definition hasLiveDots (s : ORSetElementState) : bool := bool_decide (dots s ≠ ∅).
End ORSetElementState.
Abbreviation ElementState := ORSetElementState.ORSetElementState.

Module FlushResult.

(* @src domain/orset/trie/FlushResult.ts FlushResult 30-34 *)
Record FlushResult := mk {
  rootOid : option string; blobsWritten : Z; treesWritten : Z; bytesWritten : Z }.

Definition E_STRUCTURE : error := Err "TrieFlushError" "E_TRIE_FLUSH_STRUCTURE".

(* @src domain/orset/trie/FlushResult.ts validateNonNegativeInteger *)
Definition validateNonNegativeInteger (value : jsnum) : result Z :=
  match int_at_least 0 value with Some n => Ok n | None => Throw E_STRUCTURE end.

(* @src domain/orset/trie/FlushResult.ts constructor *)
Definition new (rootOid : option string) (blobsWritten treesWritten bytesWritten : jsnum)
  : result FlushResult :=
  _ ← require (root_oid_ok rootOid) E_STRUCTURE;
  b ← validateNonNegativeInteger blobsWritten;
  t ← validateNonNegativeInteger treesWritten;
  n ← validateNonNegativeInteger bytesWritten;
  Ok (mk rootOid b t n).

(* @src domain/orset/trie/FlushResult.ts isClean *)
Definition isClean (r : FlushResult) : bool := (blobsWritten r =? 0) && (treesWritten r =? 0).
End FlushResult.
Abbreviation FlushResult := FlushResult.FlushResult.

Module CloseResult.

(* @src domain/orset/session/StateSessionCloseResult.ts StateSessionCloseResult 8-10 *)
Record StateSessionCloseResult := mk {
  nodeAliveRootOid : option string; edgeAliveRootOid : option string }.

(* @src domain/orset/session/StateSessionCloseResult.ts constructor *)
Definition new (nodeAliveRootOid edgeAliveRootOid : option string)
  : result StateSessionCloseResult :=
  _ ← require (root_oid_ok nodeAliveRootOid) E_SESSION_STRUCTURE;
  _ ← require (root_oid_ok edgeAliveRootOid) E_SESSION_STRUCTURE;
  Ok (mk nodeAliveRootOid edgeAliveRootOid).

Definition is_empty (r : StateSessionCloseResult) : bool :=
  bool_decide (nodeAliveRootOid r = None) && bool_decide (edgeAliveRootOid r = None).
End CloseResult.
Abbreviation CloseResult := CloseResult.StateSessionCloseResult.

(** Evidence that a storage handle is retained. *)
(* @src domain/storage/StorageRetentionWitness.ts StorageRetentionPolicy 6-12 *)
Inductive RetentionPolicy : Type := Pinned | Evictable.
Inductive Reachability : Type := Anchored | Orphaned | Volatile.
Inductive RootKind : Type := RootSet | Publication | CacheSet | ExpiringSet.

#[export] Instance RetentionPolicy_eq_dec : EqDecision RetentionPolicy.
Proof. solve_decision. Defined.
#[export] Instance Reachability_eq_dec : EqDecision Reachability.
Proof. solve_decision. Defined.
#[export] Instance RootKind_eq_dec : EqDecision RootKind.
Proof. solve_decision. Defined.

(* @src domain/storage/StorageRetentionWitness.ts StorageRetentionWitness 48-53 *)
Record RetentionWitness := Witness {
  wit_policy : RetentionPolicy; wit_reachability : Reachability; wit_rootKind : RootKind }.

(** ** Specification: one cell of live and dead dots per element *)
Module ElementMap.

Record cell := Cell { live : gset string; dead : gset string }.
Abbreviation t := (gmap string cell).

#[global] Instance cell_eq_dec : EqDecision cell.
Proof. solve_decision. Defined.

Definition no_dots : cell := Cell ∅ ∅.
Definition at_ (m : t) (e : string) : cell := default no_dots (m !! e).

Definition contains (m : t) (e : string) : bool := bool_decide (live (at_ m e) ≠ ∅).

(** A dot the element already lost is not added again. *)
Definition add (e d : string) (m : t) : t :=
  let c := at_ m e in
  if decide (d ∈ dead c) then m else <[e := Cell ({[d]} ∪ live c) (dead c)]> m.

(** Only live dots of the element itself die. *)
Definition kill (observed : gset string) (c : cell) : cell :=
  Cell (live c ∖ observed) (dead c ∪ live c ∩ observed).
Definition remove (e : string) (observed : gset string) (m : t) : t := alter (kill observed) e m.

Definition state_of (m : t) (e : string) : option ElementState :=
  (λ c, ORSetElementState.mk e (live c) (dead c)) <$> m !! e.

(** The element states of a scan, in some order, each element once. *)
Definition scanned (m : t) (l : list ElementState) : Prop :=
  l ≡ₚ (λ '(e, c), ORSetElementState.mk e (live c) (dead c)) <$> map_to_list m.

Lemma at_add e d m e' :
  at_ (add e d m) e' =
    if decide (e = e' ∧ d ∉ dead (at_ m e)) then Cell ({[d]} ∪ live (at_ m e)) (dead (at_ m e))
    else at_ m e'.
Proof.
  unfold add. destruct (decide (d ∈ dead (at_ m e))) as [Hd|Hd].
  - rewrite decide_False by tauto. done.
  - unfold at_ at 1. destruct (decide (e = e')) as [->|Hne].
    + rewrite lookup_insert_eq, decide_True by done. done.
    + rewrite lookup_insert_ne, decide_False by naive_solver. done.
Qed.

Lemma at_remove e observed m e' :
  at_ (remove e observed m) e' = if decide (e = e') then kill observed (at_ m e) else at_ m e'.
Proof.
  unfold at_, remove. destruct (decide (e = e')) as [->|Hne].
  - rewrite lookup_alter_eq. destruct (m !! e') as [c|]; simpl; [done|].
    unfold kill, no_dots; simpl. f_equal; set_solver.
  - by rewrite lookup_alter_ne.
Qed.
End ElementMap.

(** ** The engine interface *)

(** [W] is the store the pages live in; reading a page may load it, so reads
    change the engine too. *)
Class Engine (T W : Type) := {
    eng_open : option string → T;
    eng_contains : string → step (T * W) bool;
    eng_getDots : string → step (T * W) (gset string);
    eng_getElementState : string → step (T * W) (option ElementState);
    eng_add : string → Dot.Dot → step (T * W) unit;
    eng_removeElement : string → gset string → step (T * W) unit;
    eng_compact : VersionVector.VersionVector → step (T * W) unit;
    eng_scan : step (T * W) (list string);
    eng_scanElementStates : step (T * W) (list ElementState);
    eng_dirtyPageCount : T → Z;
    eng_prepareFlush : step (T * W) FlushResult;
    eng_acceptFlush : FlushResult → step T unit;
  }.

(** The port that retains roots between flushes. *)
Class Workspace (W : Type) :=
  ws_checkpoint : CloseResult → step W (option RetentionWitness).

(** How an engine represents an element map: [eng_ok] are the healthy
    combinations of an engine and a store, [store_le] the ways a store grows, and
    [eng_names] the elements it can tell apart. *)
Class EngineModel (T W : Type) := {
    store_le : relation W;
    eng_ok : T → W → Prop;
    eng_view : T → W → ElementMap.t;
    eng_names : string → Prop;
  }.
Arguments eng_names T W {_}.

Section engine_laws.
Context {T W : Type} `{Engine T W} `{EngineModel T W}.

(** The call answers as [P] says and changes nothing a reader can see. *)
Definition reads {A} (m : step (T * W) A) (P : ElementMap.t → A → Prop) : Prop :=
  ∀ t w, eng_ok t w → ∃ t' a, m (t, w) = ((t', w), Ok a) ∧ P (eng_view t w) a ∧
    eng_ok t' w ∧ eng_view t' w = eng_view t w ∧ eng_dirtyPageCount t' = eng_dirtyPageCount t.

(** The call returns and turns the map into its image under [f]. *)
Definition writes (m : step (T * W) unit) (f : ElementMap.t → ElementMap.t) : Prop :=
  ∀ t w, eng_ok t w → ∃ t', m (t, w) = ((t', w), Ok ()) ∧
    eng_ok t' w ∧ eng_view t' w = f (eng_view t w).
End engine_laws.

(** The contract. Faults of the store are outside it: they make [eng_ok] false. *)
Class EngineLaws (T W : Type) `{Engine T W} `{EngineModel T W} := {
    store_le_preorder :: PreOrder store_le;
    eng_frame : ∀ t w w', eng_ok t w → store_le w w' →
      eng_ok t w' ∧ eng_view t w' = eng_view t w;
    eng_contains_law : ∀ e, eng_names T W e →
      reads (eng_contains e) (λ m b, b = ElementMap.contains m e);
    eng_getDots_law : ∀ e, eng_names T W e →
      reads (eng_getDots e) (λ m ds, ds = ElementMap.live (ElementMap.at_ m e));
    eng_getElementState_law : ∀ e, eng_names T W e →
      reads (eng_getElementState e) (λ m st, st = ElementMap.state_of m e);
    eng_scan_law :
      reads eng_scan (λ m l, l ≡ₚ filter (λ e, ElementMap.contains m e) (map_to_list m).*1);
    eng_scanElementStates_law : reads eng_scanElementStates ElementMap.scanned;
    eng_add_law : ∀ e d, eng_names T W e → valid_dot d →
      writes (eng_add e d) (ElementMap.add e (Dot.encode d));
    eng_removeElement_law : ∀ e ds, eng_names T W e →
      writes (eng_removeElement e ds) (ElementMap.remove e ds);
    eng_elements_named : ∀ t w e, eng_ok t w → is_Some (eng_view t w !! e) → eng_names T W e;
    eng_dirty_nonneg : ∀ t, 0 <= eng_dirtyPageCount t;
    eng_flush_law : ∀ t w, eng_ok t w → ∃ w' r t',
      eng_prepareFlush (t, w) = ((t, w'), Ok r) ∧ store_le w w' ∧
      root_oid_ok (FlushResult.rootOid r) = true ∧
      eng_acceptFlush r t = (t', Ok ()) ∧ eng_ok t' w' ∧
      eng_view t' w' = eng_view t w ∧ eng_dirtyPageCount t' = 0;
  }.

(** The port retains what it is given, as its documentation promises. *)
Definition retains {T W} `{EngineModel T W} `{Workspace W} : Prop :=
  ∀ roots w, ∃ w' wit, ws_checkpoint roots w = (w', Ok (Some wit)) ∧ store_le w w' ∧
    wit = Witness Evictable Anchored RootSet.

Module StateSession.

Definition DEFAULT_MAX_DIRTY_PAGES : Z := 1024.

(* @src domain/orset/session/StateSession.ts StateSession 53-60 *)
Record StateSession (T W : Type) := mk {
  nodeAlive : T;
  edgeAlive : T;
  world : W;
  has_workspace : bool;
  maxDirtyPages : Z;
  workspaceCheckpointPending : bool;
  closePrepared : bool;
  closed : bool }.
Arguments mk {T W}.
Arguments nodeAlive {T W}.
Arguments edgeAlive {T W}.
Arguments world {T W}.
Arguments has_workspace {T W}.
Arguments maxDirtyPages {T W}.
Arguments workspaceCheckpointPending {T W}.
Arguments closePrepared {T W}.
Arguments closed {T W}.

(* @src domain/orset/session/StateSession.ts validateRootOid *)
Definition validateRootOid (rootOid : option string) : result unit :=
  require (root_oid_ok rootOid) E_SESSION_INPUT.

(** [value] is [None] when it is omitted. *)
(* @src domain/orset/session/StateSession.ts normalizeMaxDirtyPages *)
Definition normalizeMaxDirtyPages (value : option jsnum) (workspace : bool) : result Z :=
  _ ← require (workspace || bool_decide (value = None)) E_SESSION_INPUT;
  let normalized := match value with
                    | Some v => v
                    | None => JInt (if workspace then DEFAULT_MAX_DIRTY_PAGES else max_exact - 1)
                    end in
  match normalized with
  | JInt n => if (1 <=? n) && (n <? max_exact) then Ok n else Throw E_SESSION_INPUT
  | _ => Throw E_SESSION_INPUT
  end.

(* @src domain/orset/session/StateSession.ts isPinnedWorkspaceWitness *)
Definition isPinnedWorkspaceWitness (witness : option RetentionWitness) : bool :=
  match witness with
  | Some w => bool_decide (wit_policy w = Evictable) && bool_decide (wit_reachability w = Anchored)
              && bool_decide (wit_rootKind w = RootSet)
  | None => false
  end.

(* @src domain/orset/session/StateSession.ts requireWorkspaceWitness *)
Definition requireWorkspaceWitness (roots : CloseResult) (witness : option RetentionWitness)
  : result unit :=
  require (CloseResult.is_empty roots || isPinnedWorkspaceWitness witness) E_SESSION_STRUCTURE.

(* @src domain/orset/session/StateSession.ts requireFinalRetentionWitness *)
Definition requireFinalRetentionWitness (roots : CloseResult) (witness : option RetentionWitness)
  : result unit :=
  if CloseResult.is_empty roots then Ok ()
  else match witness with
       | Some w => require (bool_decide (wit_reachability w = Anchored)
                            && bool_decide (wit_rootKind w = CacheSet)) E_SESSION_STRUCTURE
       | None => Throw E_SESSION_STRUCTURE
       end.

Section session.
Context {T W : Type} `{Engine T W} `{Workspace W}.

Definition session : Type := StateSession T W.

(** The validated arguments; store, codec and geometry are typed values here. *)
(* @src domain/orset/session/StateSession.ts open *)
Definition open (nodeAliveRootOid edgeAliveRootOid : option string) (store : W)
  (workspace : bool) (maxDirtyPages : option jsnum) : result session :=
  _ ← validateRootOid nodeAliveRootOid;
  _ ← validateRootOid edgeAliveRootOid;
  n ← normalizeMaxDirtyPages maxDirtyPages workspace;
  Ok (mk (eng_open nodeAliveRootOid) (eng_open edgeAliveRootOid) store workspace n
        false false false).

Definition set_flags (pending prepared closed : bool) (s : session) : session :=
  mk (nodeAlive s) (edgeAlive s) (world s) (has_workspace s) (maxDirtyPages s)
    pending prepared closed.
Definition set_pending (b : bool) (s : session) : session :=
  set_flags b (closePrepared s) (closed s) s.

(** A call on one of the two engines. *)
Definition on_node {A} (m : step (T * W) A) : step session A := λ s,
  let '((t, w), r) := m (nodeAlive s, world s) in
  (mk t (edgeAlive s) w (has_workspace s) (maxDirtyPages s)
     (workspaceCheckpointPending s) (closePrepared s) (closed s), r).
Definition on_edge {A} (m : step (T * W) A) : step session A := λ s,
  let '((t, w), r) := m (edgeAlive s, world s) in
  (mk (nodeAlive s) t w (has_workspace s) (maxDirtyPages s)
     (workspaceCheckpointPending s) (closePrepared s) (closed s), r).
Definition pure_engine {A} (m : step T A) : step (T * W) A := λ '(t, w),
  let '(t', r) := m t in ((t', w), r).
Definition on_world {A} (m : step W A) : step session A := λ s,
  let '(w, r) := m (world s) in
  (mk (nodeAlive s) (edgeAlive s) w (has_workspace s) (maxDirtyPages s)
     (workspaceCheckpointPending s) (closePrepared s) (closed s), r).

(* @src domain/orset/session/StateSession.ts #assertOpen *)
Definition assertOpen : step session unit := λ s,
  (s, require (negb (closed s || closePrepared s)) E_SESSION_CLOSED).

(* @src domain/orset/session/StateSession.ts dirtyPageCount *)
Definition dirtyPageCount (s : session) : Z :=
  eng_dirtyPageCount (nodeAlive s) + eng_dirtyPageCount (edgeAlive s).

(* @src domain/orset/session/StateSession.ts PreparedSessionFlush 45-49 *)
Record PreparedSessionFlush := Prepared {
  p_node : FlushResult; p_edge : FlushResult; p_roots : CloseResult }.

(* @src domain/orset/session/StateSession.ts #prepareFlush *)
Definition prepareFlush : step session PreparedSessionFlush :=
  nodeFlush ← on_node eng_prepareFlush;
  _ ← (if FlushResult.isClean nodeFlush then mret () else modify (set_pending true));
  edgeFlush ← on_edge eng_prepareFlush;
  _ ← (if FlushResult.isClean edgeFlush then mret () else modify (set_pending true));
  roots ← lift (CloseResult.new (FlushResult.rootOid nodeFlush) (FlushResult.rootOid edgeFlush));
  mret (Prepared nodeFlush edgeFlush roots).

(* @src domain/orset/session/StateSession.ts #acceptFlush *)
Definition acceptFlush (p : PreparedSessionFlush) : step session unit :=
  _ ← on_node (pure_engine (eng_acceptFlush (p_node p)));
  _ ← on_edge (pure_engine (eng_acceptFlush (p_edge p)));
  modify (set_pending false).

(* @src domain/orset/session/StateSession.ts #flushAndRetain *)
Definition flushAndRetain : step session CloseResult :=
  prepared ← prepareFlush;
  s ← get;
  _ ← (if workspaceCheckpointPending s && has_workspace s
       then witness ← on_world (ws_checkpoint (p_roots prepared));
            lift (requireWorkspaceWitness (p_roots prepared) witness)
       else mret ());
  _ ← acceptFlush prepared;
  mret (p_roots prepared).

(* @src domain/orset/session/StateSession.ts #checkpointIfNeeded *)
Definition checkpointIfNeeded : step session unit :=
  s ← get;
  if negb (workspaceCheckpointPending s) && (dirtyPageCount s <? maxDirtyPages s)
  then mret ()
  else _ ← flushAndRetain; mret ().

(* @src domain/orset/session/StateSession.ts nodeContains *)
Definition nodeContains (id : string) : step session bool :=
  _ ← assertOpen; on_node (eng_contains id).

(* @src domain/orset/session/StateSession.ts nodeDots *)
Definition nodeDots (id : string) : step session (gset string) :=
  _ ← assertOpen; on_node (eng_getDots id).

(* @src domain/orset/session/StateSession.ts nodeElementState *)
Definition nodeElementState (id : string) : step session (option ElementState) :=
  _ ← assertOpen; on_node (eng_getElementState id).

(* @src domain/orset/session/StateSession.ts edgeContains *)
Definition edgeContains (key : string) : step session bool :=
  _ ← assertOpen; on_edge (eng_contains key).

(* @src domain/orset/session/StateSession.ts edgeDots *)
Definition edgeDots (key : string) : step session (gset string) :=
  _ ← assertOpen; on_edge (eng_getDots key).

(* @src domain/orset/session/StateSession.ts edgeElementState *)
Definition edgeElementState (key : string) : step session (option ElementState) :=
  _ ← assertOpen; on_edge (eng_getElementState key).

(* @src domain/orset/session/StateSession.ts addNode *)
Definition addNode (id : string) (dot : Dot.Dot) : step session unit :=
  _ ← assertOpen; _ ← on_node (eng_add id dot); checkpointIfNeeded.

(* @src domain/orset/session/StateSession.ts addEdge *)
Definition addEdge (key : string) (dot : Dot.Dot) : step session unit :=
  _ ← assertOpen; _ ← on_edge (eng_add key dot); checkpointIfNeeded.

(* @src domain/orset/session/StateSession.ts removeNode *)
Definition removeNode (id : string) (observedDots : gset string) : step session unit :=
  _ ← assertOpen; _ ← on_node (eng_removeElement id observedDots); checkpointIfNeeded.

(* @src domain/orset/session/StateSession.ts removeEdge *)
Definition removeEdge (key : string) (observedDots : gset string) : step session unit :=
  _ ← assertOpen; _ ← on_edge (eng_removeElement key observedDots); checkpointIfNeeded.

(* @src domain/orset/session/StateSession.ts scanNodes *)
Definition scanNodes : step session (list string) := _ ← assertOpen; on_node eng_scan.

(* @src domain/orset/session/StateSession.ts scanNodeElementStates *)
Definition scanNodeElementStates : step session (list ElementState) :=
  _ ← assertOpen; on_node eng_scanElementStates.

(* @src domain/orset/session/StateSession.ts scanEdges *)
Definition scanEdges : step session (list string) := _ ← assertOpen; on_edge eng_scan.

(* @src domain/orset/session/StateSession.ts scanEdgeElementStates *)
Definition scanEdgeElementStates : step session (list ElementState) :=
  _ ← assertOpen; on_edge eng_scanElementStates.

(* @src domain/orset/session/StateSession.ts compact *)
Definition compact (includedVV : VersionVector.VersionVector) : step session unit :=
  _ ← assertOpen;
  s ← get;
  _ ← lift (require (negb (has_workspace s)) E_SESSION_INPUT);
  _ ← on_node (eng_compact includedVV);
  _ ← on_edge (eng_compact includedVV);
  checkpointIfNeeded.

(* @src domain/orset/session/StateSession.ts close *)
Definition close : step session CloseResult :=
  _ ← assertOpen;
  roots ← flushAndRetain;
  _ ← modify (λ s, set_flags (workspaceCheckpointPending s) (closePrepared s) true s);
  mret roots.

(* @src domain/orset/session/StateSession.ts abort *)
Definition abort : step session unit :=
  modify (λ s, set_flags (workspaceCheckpointPending s) false true s).

(** A throw of the flush reopens the session. *)
(* @src domain/orset/session/StateSession.ts prepareClose 230-256 *)
Definition prepareClose : step session PreparedSessionFlush :=
  _ ← assertOpen;
  _ ← modify (λ s, set_flags (workspaceCheckpointPending s) true (closed s) s);
  (λ s, match prepareFlush s with
        | (s', Ok p) => (s', Ok p)
        | (s', Throw e) =>
            (set_flags (workspaceCheckpointPending s') false (closed s') s', Throw e)
        end) : step session PreparedSessionFlush.

(** The [accept] callback of a prepared close; the flag is its [accepted]. *)
(* @src domain/orset/session/StateSession.ts accept 237-249 *)
Definition accept (p : PreparedSessionFlush) (witness : option RetentionWitness)
  : step (session * bool) unit := λ '(s, accepted),
  if accepted : bool then ((s, accepted), Throw E_SESSION_CLOSED)
  else match requireFinalRetentionWitness (p_roots p) witness with
       | Throw e => ((s, accepted), Throw e)
       | Ok _ =>
           match acceptFlush p s with
           | (s', Throw e) => ((s', accepted), Throw e)
           | (s', Ok _) =>
               ((set_flags (workspaceCheckpointPending s') (closePrepared s') true s', true), Ok ())
           end
       end.
End session.
End StateSession.

(** ** The session over lawful engines *)
Section session_laws.
Context {T W : Type} `{EngineLaws T W} `{Workspace W}.
Import StateSession.

Implicit Types s : @session T W.

Definition node_view s : ElementMap.t := eng_view (nodeAlive s) (world s).
Definition edge_view s : ElementMap.t := eng_view (edgeAlive s) (world s).

(** Open, with healthy engines and room for at least one dirty page; roots are
    only retained through a port that keeps its promise. *)
Record session_ok s : Prop := {
  ok_node : eng_ok (nodeAlive s) (world s);
  ok_edge : eng_ok (edgeAlive s) (world s);
  ok_max : 1 <= maxDirtyPages s;
  ok_workspace : has_workspace s = true → retains (T:=T) (W:=W);
  ok_open : closed s = false ∧ closePrepared s = false }.

(** Same limits, same elements. *)
Record same_session s s' : Prop := {
  same_max : maxDirtyPages s' = maxDirtyPages s;
  same_ws : has_workspace s' = has_workspace s;
  same_nodes : node_view s' = node_view s;
  same_edges : edge_view s' = edge_view s }.

#[global] Instance same_session_preorder : PreOrder same_session.
Proof.
  split.
  - intros s. done.
  - intros s1 s2 s3 [] []. split; congruence.
Qed.

(** Below the limit, nothing pending: at most [maxDirtyPages - 1] dirty pages. *)
Definition settled s : Prop :=
  workspaceCheckpointPending s = false ∧ dirtyPageCount s < maxDirtyPages s.

Lemma assertOpen_ok s : session_ok s → assertOpen s = (s, Ok ()).
Proof. intros [_ _ _ _ [Hc Hp]]. unfold assertOpen. by rewrite Hc, Hp. Qed.

Lemma set_pending_ok b s :
  session_ok s → session_ok (set_pending b s) ∧ same_session s (set_pending b s).
Proof. intros []. split; done. Qed.

(** A read of one engine. *)
Lemma on_node_reads {A} (m : step (T * W) A) P s :
  reads m P → session_ok s →
  ∃ s' a, on_node m s = (s', Ok a) ∧ P (node_view s) a ∧ session_ok s' ∧ same_session s s' ∧
    dirtyPageCount s' = dirtyPageCount s ∧
    workspaceCheckpointPending s' = workspaceCheckpointPending s.
Proof.
  intros Hr [Hn He Hm Hw Ho].
  destruct (Hr _ _ Hn) as (t' & a & Hcall & HP & Hok & Hv & Hd).
  unfold on_node. rewrite Hcall. eexists _, a. split; [done|]. split; [done|].
  split; [by split|]. split; [by split|]. split; [|done].
  unfold dirtyPageCount; simpl. lia.
Qed.

Lemma on_edge_reads {A} (m : step (T * W) A) P s :
  reads m P → session_ok s →
  ∃ s' a, on_edge m s = (s', Ok a) ∧ P (edge_view s) a ∧ session_ok s' ∧ same_session s s' ∧
    dirtyPageCount s' = dirtyPageCount s ∧
    workspaceCheckpointPending s' = workspaceCheckpointPending s.
Proof.
  intros Hr [Hn He Hm Hw Ho].
  destruct (Hr _ _ He) as (t' & a & Hcall & HP & Hok & Hv & Hd).
  unfold on_edge. rewrite Hcall. eexists _, a. split; [done|]. split; [done|].
  split; [by split|]. split; [by split|]. split; [|done].
  unfold dirtyPageCount; simpl. lia.
Qed.

Lemma on_node_writes m f s :
  writes m f → session_ok s →
  ∃ s', on_node m s = (s', Ok ()) ∧ session_ok s' ∧ node_view s' = f (node_view s) ∧
    edge_view s' = edge_view s ∧ maxDirtyPages s' = maxDirtyPages s ∧
    has_workspace s' = has_workspace s.
Proof.
  intros Hr [Hn He Hm Hw Ho]. destruct (Hr _ _ Hn) as (t' & Hcall & Hok & Hv).
  unfold on_node. rewrite Hcall. eexists. split; [done|]. by split_and!.
Qed.

Lemma on_edge_writes m f s :
  writes m f → session_ok s →
  ∃ s', on_edge m s = (s', Ok ()) ∧ session_ok s' ∧ edge_view s' = f (edge_view s) ∧
    node_view s' = node_view s ∧ maxDirtyPages s' = maxDirtyPages s ∧
    has_workspace s' = has_workspace s.
Proof.
  intros Hr [Hn He Hm Hw Ho]. destruct (Hr _ _ He) as (t' & Hcall & Hok & Hv).
  unfold on_edge. rewrite Hcall. eexists. split; [done|]. by split_and!.
Qed.

(** The store grows; nothing else changes. *)
Definition grown s w : StateSession T W :=
  mk (nodeAlive s) (edgeAlive s) w (has_workspace s) (maxDirtyPages s)
    (workspaceCheckpointPending s) (closePrepared s) (closed s).

Lemma grown_ok s w :
  session_ok s → store_le (world s) w → session_ok (grown s w) ∧ same_session s (grown s w).
Proof.
  intros [Hn He Hm Hw Ho] Hle.
  destruct (eng_frame _ _ _ Hn Hle) as [? ?], (eng_frame _ _ _ He Hle) as [? ?]. by split.
Qed.

Lemma on_node_flush s :
  session_ok s → ∃ w' r, on_node eng_prepareFlush s = (grown s w', Ok r) ∧
    store_le (world s) w' ∧ root_oid_ok (FlushResult.rootOid r) = true ∧
    ∃ t', eng_acceptFlush r (nodeAlive s) = (t', Ok ()) ∧ eng_ok t' w' ∧
      eng_view t' w' = node_view s ∧ eng_dirtyPageCount t' = 0.
Proof.
  intros [Hn _ _ _ _]. destruct (eng_flush_law _ _ Hn) as (w' & r & t' & E & Hle & Hr & Ha).
  exists w', r. unfold on_node. rewrite E. split_and!; [done..|]. by exists t'.
Qed.

Lemma on_edge_flush s :
  session_ok s → ∃ w' r, on_edge eng_prepareFlush s = (grown s w', Ok r) ∧
    store_le (world s) w' ∧ root_oid_ok (FlushResult.rootOid r) = true ∧
    ∃ t', eng_acceptFlush r (edgeAlive s) = (t', Ok ()) ∧ eng_ok t' w' ∧
      eng_view t' w' = edge_view s ∧ eng_dirtyPageCount t' = 0.
Proof.
  intros [_ He _ _ _]. destruct (eng_flush_law _ _ He) as (w' & r & t' & E & Hle & Hr & Ha).
  exists w', r. unfold on_edge. rewrite E. split_and!; [done..|]. by exists t'.
Qed.

(** [acceptFlush] of a prepared flush succeeds in every later store. *)
Definition acceptable s (p : PreparedSessionFlush) : Prop :=
  ∀ w, store_le (world s) w → ∃ s', acceptFlush p (grown s w) = (s', Ok ()) ∧
    same_session s s' ∧ eng_ok (nodeAlive s') w ∧ eng_ok (edgeAlive s') w ∧ world s' = w ∧
    dirtyPageCount s' = 0 ∧ workspaceCheckpointPending s' = false ∧
    closed s' = closed s ∧ closePrepared s' = closePrepared s.

(** Only the flags and the store differ. *)
Lemma flagged_ok s b :
  session_ok s → ∃ s', (if b : bool then mret () else modify (set_pending true)) s = (s', Ok ()) ∧
    session_ok s' ∧ same_session s s' ∧ nodeAlive s' = nodeAlive s ∧
    edgeAlive s' = edgeAlive s ∧ world s' = world s.
Proof.
  intros Hs. destruct b.
  - exists s. split_and!; done.
  - exists (set_pending true s). destruct (set_pending_ok true s Hs). split_and!; done.
Qed.

Lemma root_results_ok r1 r2 :
  root_oid_ok r1 = true → root_oid_ok r2 = true →
  CloseResult.new r1 r2 = Ok (CloseResult.mk r1 r2).
Proof. intros H1' H2'. unfold CloseResult.new. by rewrite H1', H2'. Qed.

Lemma prepareFlush_ok s :
  session_ok s → ∃ s' p, prepareFlush s = (s', Ok p) ∧ session_ok s' ∧ same_session s s' ∧
    acceptable s' p.
Proof.
  intros Hs. unfold prepareFlush, mbind, step_bind.
  destruct (on_node_flush s Hs) as (w1 & r1 & -> & Hle1 & Hr1 & tn & Ean & Hokn & Hvn & Hdn).
  destruct (grown_ok s w1 Hs Hle1) as [Hs1 S1].
  destruct (flagged_ok (grown s w1) (FlushResult.isClean r1) Hs1)
    as (s2 & -> & Hs2 & S2 & N2 & E2 & W2).
  destruct (on_edge_flush s2 Hs2) as (w3 & r3 & -> & Hle3 & Hr3 & te & Eae & Hoke & Hve & Hde).
  destruct (grown_ok s2 w3 Hs2 Hle3) as [Hs3 S3].
  destruct (flagged_ok (grown s2 w3) (FlushResult.isClean r3) Hs3)
    as (s4 & -> & Hs4 & S4 & N4 & E4 & W4).
  unfold lift. rewrite root_results_ok by done.
  eexists _, _. split; [done|]. split; [done|].
  split; [by rewrite S1, S2, S3, S4|].
  intros w Hw. rewrite W4 in Hw. simpl in *. rewrite W2 in Hle3.
  unfold acceptFlush, mbind, step_bind, on_node, on_edge, pure_engine, modify. simpl.
  rewrite N4, E4. simpl. rewrite N2. simpl. rewrite Ean. simpl. rewrite Eae.
  eexists. split; [done|]. simpl.
  destruct (eng_frame tn w1 w Hokn) as [Hokn' Hvn']; [by rewrite Hle3|].
  destruct (eng_frame te w3 w Hoke Hw) as [Hoke' Hve'].
  split; [|split_and!; try done; unfold dirtyPageCount; simpl; lia].
  split; try done; unfold node_view, edge_view; simpl.
  - rewrite Hvn', Hvn. unfold node_view. rewrite N4, W4. simpl. rewrite N2.
    destruct (eng_frame _ _ w3 (ok_node _ Hs)) as [_ ->]; [by rewrite Hle1|done].
  - rewrite Hve', Hve. unfold edge_view. rewrite E4, W4. simpl. rewrite E2, W2.
    destruct (eng_frame _ _ w3 (ok_edge _ Hs1)) as [_ Hx]; [done|]. simpl in Hx. by rewrite Hx.
Qed.

(** A flush succeeds, keeps every element, leaves no dirty page and closes
    nothing. *)
Lemma flushAndRetain_ok s :
  session_ok s → ∃ s' roots, flushAndRetain s = (s', Ok roots) ∧ session_ok s' ∧
    same_session s s' ∧ dirtyPageCount s' = 0 ∧ workspaceCheckpointPending s' = false ∧
    ∃ s1 p, prepareFlush s = (s1, Ok p) ∧ roots = p_roots p ∧ store_le (world s1) (world s').
Proof.
  intros Hs. destruct (prepareFlush_ok s Hs) as (s1 & p & Ep & Hs1 & S1 & Hacc).
  assert (∃ w, store_le (world s1) w ∧
    (if workspaceCheckpointPending s1 && has_workspace s1
     then witness ← on_world (ws_checkpoint (p_roots p));
          lift (requireWorkspaceWitness (p_roots p) witness)
     else mret ()) s1 = (grown s1 w, Ok ())) as (w & Hle & Ew).
  { destruct (workspaceCheckpointPending s1); simpl.
    - destruct (has_workspace s1) eqn:Ehw.
      + destruct (ok_workspace _ Hs1 Ehw (p_roots p) (world s1)) as (w & wit & Ew & Hle & ->).
        exists w. split; [done|]. unfold mbind, step_bind, on_world, lift. rewrite Ew.
        unfold requireWorkspaceWitness. simpl. by rewrite orb_true_r.
      + exists (world s1). split; [done|]. by destruct s1.
    - exists (world s1). split; [done|]. by destruct s1. }
  destruct (Hacc w Hle) as (s2 & E2 & S2 & Hn & He & Hw & Hd & Hpend & Hc & Hp).
  exists s2, (p_roots p). split; [|split_and!].
  - unfold flushAndRetain, get. unfold mbind at 1, step_bind at 1. rewrite Ep.
    unfold mbind at 1, step_bind at 1. unfold mbind at 1, step_bind at 1. rewrite Ew.
    unfold mbind, step_bind. by rewrite E2.
  - constructor; rewrite ?Hw; [done|done|..].
    + rewrite (same_max _ _ S2). apply Hs1.
    + rewrite (same_ws _ _ S2). apply Hs1.
    + rewrite Hc, Hp. apply Hs1.
  - by rewrite S1.
  - done.
  - done.
  - exists s1, p. by rewrite Hw.
Qed.

Lemma checkpointIfNeeded_ok s :
  session_ok s → ∃ s', checkpointIfNeeded s = (s', Ok ()) ∧ session_ok s' ∧
    same_session s s' ∧ settled s'.
Proof.
  intros Hs. unfold checkpointIfNeeded, get, mbind, step_bind.
  destruct (negb _ && _) eqn:E.
  - apply andb_true_iff in E as [Hp%negb_true_iff Hd%Z.ltb_lt]. exists s. split_and!; done.
  - destruct (flushAndRetain_ok s Hs) as (s' & roots & -> & Hs' & S & Hd & Hp & _).
    exists s'. split; [done|]. split; [done|]. split; [done|]. split; [done|].
      rewrite Hd. pose proof (ok_max _ Hs'). lia.
Qed.

(** *** The session's operations as reads and writes of the two maps *)

Definition sreads {A} (m : step (StateSession T W) A)
    (P : ElementMap.t → ElementMap.t → A → Prop) : Prop :=
  ∀ s, session_ok s → ∃ s' a, m s = (s', Ok a) ∧ P (node_view s) (edge_view s) a ∧
    session_ok s' ∧ same_session s s' ∧ (settled s → settled s').

Definition swrites (m : step (StateSession T W) unit)
    (f g : ElementMap.t → ElementMap.t) : Prop :=
  ∀ s, session_ok s → ∃ s', m s = (s', Ok ()) ∧
    session_ok s' ∧ settled s' ∧ maxDirtyPages s' = maxDirtyPages s ∧
    has_workspace s' = has_workspace s ∧
    node_view s' = f (node_view s) ∧ edge_view s' = g (edge_view s).

Lemma node_read {A} (m : step (T * W) A) P :
  reads m P → sreads (_ ← assertOpen; on_node m) (λ n _, P n).
Proof.
  intros Hr s Hs. unfold mbind, step_bind. rewrite assertOpen_ok by done.
  destruct (on_node_reads m P s Hr Hs) as (s' & a & -> & HP & Hs' & S & Hd & Hp).
  exists s', a. split; [done|]. split; [done|]. split; [done|]. split; [done|].
  intros [Hs1 Hs2]. split; [by rewrite Hp|]. by rewrite Hd, (same_max _ _ S).
Qed.

Lemma edge_read {A} (m : step (T * W) A) P :
  reads m P → sreads (_ ← assertOpen; on_edge m) (λ _ e, P e).
Proof.
  intros Hr s Hs. unfold mbind, step_bind. rewrite assertOpen_ok by done.
  destruct (on_edge_reads m P s Hr Hs) as (s' & a & -> & HP & Hs' & S & Hd & Hp).
  exists s', a. split; [done|]. split; [done|]. split; [done|]. split; [done|].
  intros [Hs1 Hs2]. split; [by rewrite Hp|]. by rewrite Hd, (same_max _ _ S).
Qed.

Lemma node_write m f :
  writes m f → swrites (_ ← assertOpen; _ ← on_node m; checkpointIfNeeded) f id.
Proof.
  intros Hr s Hs. unfold mbind, step_bind. rewrite assertOpen_ok by done.
  destruct (on_node_writes m f s Hr Hs) as (s1 & -> & Hs1 & Hn & He & Hm & Hw).
  destruct (checkpointIfNeeded_ok s1 Hs1) as (s' & -> & Hs' & [] & Hset).
  exists s'. split_and!; try done; unfold id; congruence.
Qed.

Lemma edge_write m f :
  writes m f → swrites (_ ← assertOpen; _ ← on_edge m; checkpointIfNeeded) id f.
Proof.
  intros Hr s Hs. unfold mbind, step_bind. rewrite assertOpen_ok by done.
  destruct (on_edge_writes m f s Hr Hs) as (s1 & -> & Hs1 & Hn & He & Hm & Hw).
  destruct (checkpointIfNeeded_ok s1 Hs1) as (s' & -> & Hs' & [] & Hset).
  exists s'. split_and!; try done; unfold id; congruence.
Qed.
End session_laws.

(** ** A lawful engine: the element map itself *)
Module ReferenceEngine.

Record engine := mk { map : ElementMap.t; dirty : Z }.

Definition read {A} (f : ElementMap.t → A) : step (engine * unit) A := λ s, (s, Ok (f (map s.1))).
Definition write (f : ElementMap.t → ElementMap.t) : step (engine * unit) unit :=
  λ '(t, w), ((mk (f (map t)) (Z.max 0 (dirty t) + 1), w), Ok ()).

Definition named (id : string) {A} (m : step (engine * unit) A) : step (engine * unit) A :=
  if str_nonempty id then m else λ s, (s, Throw (Err "TrieCursorError" "E_TRIE_CURSOR_INPUT")).

#[global] Instance ops : Engine engine unit := {
    eng_open := λ _, mk ∅ 0;
    eng_contains := λ e, named e (read (λ m, ElementMap.contains m e));
    eng_getDots := λ e, named e (read (λ m, ElementMap.live (ElementMap.at_ m e)));
    eng_getElementState := λ e, named e (read (λ m, ElementMap.state_of m e));
    eng_add := λ e d, named e (write (ElementMap.add e (Dot.encode d)));
    eng_removeElement := λ e ds, named e (write (ElementMap.remove e ds));
    eng_compact := λ _, mret ();
    eng_scan := read (λ m, filter (λ e, ElementMap.contains m e) (map_to_list m).*1);
    eng_scanElementStates :=
      read (λ m, (λ '(e, c), ORSetElementState.mk e (ElementMap.live c) (ElementMap.dead c))
                   <$> map_to_list m);
    eng_dirtyPageCount := λ t, Z.max 0 (dirty t);
    eng_prepareFlush := λ s, (s, Ok (FlushResult.mk None 1 1 1));
    eng_acceptFlush := λ _ t, (mk (map t) 0, Ok ());
  }.

#[global] Instance workspace : Workspace unit :=
  λ _ w, (w, Ok (Some (Witness Evictable Anchored RootSet))).

#[global] Instance model : EngineModel engine unit := {
    store_le := λ _ _, True;
    eng_ok := λ t _, map_Forall (λ e _, str_nonempty e = true) (map t);
    eng_view := λ t _, map t;
    eng_names := λ e, str_nonempty e = true;
  }.

Lemma read_reads {A} (f : ElementMap.t → A) P : (∀ m, P m (f m)) → reads (read f) P.
Proof. intros HP t w Hok. exists t, (f (map t)). by split_and!. Qed.

Lemma add_named e d m :
  str_nonempty e = true → map_Forall (λ e _, str_nonempty e = true) m →
  map_Forall (λ e _, str_nonempty e = true) (ElementMap.add e d m).
Proof.
  intros He Hm. unfold ElementMap.add. destruct (decide _); [done|].
  by apply map_Forall_insert_2.
Qed.

Lemma remove_named e ds m :
  map_Forall (λ e _, str_nonempty e = true) m →
  map_Forall (λ e _, str_nonempty e = true) (ElementMap.remove e ds m).
Proof.
  intros Hm e' c Hc. unfold ElementMap.remove in Hc.
  destruct (decide (e = e')) as [->|Hne].
  - rewrite lookup_alter_eq in Hc. destruct (m !! e') eqn:E; [|done]. by apply (Hm _ _ E).
  - rewrite lookup_alter_ne in Hc by done. by apply (Hm _ _ Hc).
Qed.

#[global] Instance laws : EngineLaws engine unit.
Proof.
  split.
  - split; [by intros|by intros ? ? ?].
  - done.
  - intros e He. simpl. unfold named. rewrite He. by apply read_reads.
  - intros e He. simpl. unfold named. rewrite He. by apply read_reads.
  - intros e He. simpl. unfold named. rewrite He. by apply read_reads.
  - by apply read_reads.
  - apply read_reads. intros m. apply Permutation_refl.
  - intros e d He Hd t w Hok. simpl. unfold named. rewrite He. eexists.
    split; [done|]. split; [|done]. by apply add_named.
  - intros e ds He t w Hok. simpl. unfold named. rewrite He. eexists.
    split; [done|]. split; [|done]. by apply remove_named.
  - intros t w e Hok [c Hc]. by apply (Hok e c).
  - intros t. simpl. lia.
  - intros t w Hok. exists w, (FlushResult.mk None 1 1 1), (mk (map t) 0). by split_and!.
Qed.

Lemma workspace_retains : retains (T:=engine) (W:=unit).
Proof. intros roots w. eexists _, _. by split_and!. Qed.

(** An open session without elements. *)
Definition fresh (max : Z) : StateSession.StateSession engine unit :=
  StateSession.mk (mk ∅ 0) (mk ∅ 0) () true max false false false.

Lemma fresh_ok max : 1 <= max → session_ok (fresh max).
Proof. intros Hm. split; try done. intros _. apply workspace_retains. Qed.
End ReferenceEngine.

(** ** The life cycle, whatever the engines do *)
Section lifecycle.
Context {T W : Type} `{Engine T W} `{Workspace W}.
Import StateSession.

(** A call of a public method. *)
Inductive session_call : Type :=
  | CNodeContains (id : string) | CNodeDots (id : string) | CNodeElementState (id : string)
  | CEdgeContains (key : string) | CEdgeDots (key : string) | CEdgeElementState (key : string)
  | CAddNode (id : string) (dot : Dot.Dot) | CAddEdge (key : string) (dot : Dot.Dot)
  | CRemoveNode (id : string) (ds : gset string) | CRemoveEdge (key : string) (ds : gset string)
  | CScanNodes | CScanNodeElementStates | CScanEdges | CScanEdgeElementStates
  | CCompact (vv : VersionVector.VersionVector)
  | CClose | CAbort | CPrepareClose.

Definition forget {A} (m : step (StateSession T W) A) : step (StateSession T W) unit :=
  _ ← m; mret ().

Definition run_call (c : session_call) : step (StateSession T W) unit :=
  match c with
  | CNodeContains id => forget (nodeContains id)
  | CNodeDots id => forget (nodeDots id)
  | CNodeElementState id => forget (nodeElementState id)
  | CEdgeContains key => forget (edgeContains key)
  | CEdgeDots key => forget (edgeDots key)
  | CEdgeElementState key => forget (edgeElementState key)
  | CAddNode id dot => addNode id dot
  | CAddEdge key dot => addEdge key dot
  | CRemoveNode id ds => removeNode id ds
  | CRemoveEdge key ds => removeEdge key ds
  | CScanNodes => forget scanNodes
  | CScanNodeElementStates => forget scanNodeElementStates
  | CScanEdges => forget scanEdges
  | CScanEdgeElementStates => forget scanEdgeElementStates
  | CCompact vv => compact vv
  | CClose => forget close
  | CAbort => abort
  | CPrepareClose => forget prepareClose
  end.

(** A client step: a call, or the acceptance of some prepared close. *)
Inductive client_step : StateSession T W → StateSession T W → Prop :=
  | client_call c s : client_step s (run_call c s).1
  | client_accept p witness s : client_step s (accept p witness (s, false)).1.1.

Definition unavailable (s : StateSession T W) : bool := closed s || closePrepared s.

(** A method that opens and closes nothing. *)
Definition keeps_flags {A} (m : step (StateSession T W) A) : Prop :=
  ∀ s, closed (m s).1 = closed s ∧ closePrepared (m s).1 = closePrepared s.

Lemma keeps_bind {A B} (m : step (StateSession T W) A) (k : A → step (StateSession T W) B) :
  keeps_flags m → (∀ a, keeps_flags (k a)) → keeps_flags (m ≫= k).
Proof.
  intros Hm Hk s. unfold mbind, step_bind. specialize (Hm s).
  destruct (m s) as [s1 [a|e]]; simpl in *; [|done].
  destruct (Hk a s1) as [-> ->]. done.
Qed.

Lemma keeps_node {A} (m : step (T * W) A) : keeps_flags (on_node m).
Proof. intros s. unfold on_node. by destruct (m _) as [[t w] r]. Qed.
Lemma keeps_edge {A} (m : step (T * W) A) : keeps_flags (on_edge m).
Proof. intros s. unfold on_edge. by destruct (m _) as [[t w] r]. Qed.
Lemma keeps_world {A} (m : step W A) : keeps_flags (on_world m).
Proof. intros s. unfold on_world. by destruct (m _) as [w r]. Qed.
Lemma keeps_lift {A} (r : result A) : keeps_flags (lift r).
Proof. done. Qed.
Lemma keeps_pending b : keeps_flags (modify (set_pending b)).
Proof. done. Qed.

Lemma keeps_prepareFlush : keeps_flags prepareFlush.
Proof.
  unfold prepareFlush. repeat (apply keeps_bind; [|intros ?]);
    first [apply keeps_node|apply keeps_edge|done|by destruct (FlushResult.isClean _)].
Qed.

Lemma keeps_acceptFlush p : keeps_flags (acceptFlush p).
Proof.
  unfold acceptFlush. repeat (apply keeps_bind; [|intros ?]);
    first [apply keeps_node|apply keeps_edge|done].
Qed.

Lemma keeps_flushAndRetain : keeps_flags flushAndRetain.
Proof.
  unfold flushAndRetain. apply keeps_bind; [apply keeps_prepareFlush|intros p].
  apply keeps_bind; [done|intros s]. apply keeps_bind.
  - destruct (_ && _); [|done]. apply keeps_bind; [apply keeps_world|done].
  - intros _. apply keeps_bind; [apply keeps_acceptFlush|done].
Qed.

Lemma keeps_checkpoint : keeps_flags checkpointIfNeeded.
Proof.
  unfold checkpointIfNeeded. apply keeps_bind; [done|]. intros s.
  destruct (negb _ && _); [done|]. apply keeps_bind; [apply keeps_flushAndRetain|done].
Qed.

(** Behind the guard an unavailable session does nothing. *)
Lemma guarded_unavailable {A} (k : unit → step (StateSession T W) A) s :
  unavailable s = true → (assertOpen ≫= k) s = (s, Throw E_SESSION_CLOSED).
Proof. unfold unavailable. intros Hu. unfold mbind, step_bind, assertOpen. by rewrite Hu. Qed.

Lemma forget_throw {A} (m : step (StateSession T W) A) s s' e :
  m s = (s', Throw e) → forget m s = (s', Throw e).
Proof. intros E. unfold forget, mbind, step_bind. by rewrite E. Qed.

Lemma call_unavailable c s :
  unavailable s = true → c ≠ CAbort → run_call c s = (s, Throw E_SESSION_CLOSED).
Proof.
  intros Hu Hc. destruct c; try done; simpl;
    first [by apply guarded_unavailable|apply forget_throw; by apply guarded_unavailable].
Qed.

Lemma accept_closes p witness st st' :
  accept p witness st = (st', Ok ()) →
  st.2 = false ∧ closed st'.1 = true ∧ st'.2 = true.
Proof.
  unfold accept. destruct st as [s []]; [done|].
  destruct (requireFinalRetentionWitness _ _); [|done].
  destruct (acceptFlush p s) as [s' [[]|e]]; [|done]. by intros [= <-].
Qed.

Lemma accept_keeps_closed p witness s :
  closed s = true → closed (accept p witness (s, false)).1.1 = true.
Proof.
  intros Hc. unfold accept. destruct (requireFinalRetentionWitness _ _); [|done].
  destruct (keeps_acceptFlush p s) as [Hk _].
  destruct (acceptFlush p s) as [s' [[]|e]]; simpl in *; congruence.
Qed.
End lifecycle.
Arguments session_call : clear implicits.

(** ** Properties *)



(** Closing is final, whatever engines, store and port do: once a session is
    closed, aborted or prepared for closing, every method throws
    [E_STATE_SESSION_CLOSED] and changes nothing, except that [abort] always
    closes; a closed session stays closed under every sequence of calls and
    acceptances; a successful [close] or acceptance closes; [prepareClose]
    either blocks the session or, when its flush throws, reopens it; and a
    prepared close is accepted at most once. *)
Theorem state_session_lifecycle {T W} `{Engine T W} `{Workspace W}
    (s s' : StateSession.StateSession T W) :
  (unavailable s = true → ∀ c, c ≠ CAbort → run_call c s = (s, Throw E_SESSION_CLOSED)) ∧
  (StateSession.abort s = (s', Ok ()) → StateSession.closed s' = true) ∧
  (rtc client_step s s' → StateSession.closed s = true → StateSession.closed s' = true) ∧
  (∀ r, StateSession.close s = (s', Ok r) → StateSession.closed s' = true) ∧
  (∀ p, StateSession.prepareClose s = (s', Ok p) →
     StateSession.closePrepared s' = true ∧ StateSession.closed s' = false) ∧
  (∀ e, unavailable s = false → StateSession.prepareClose s = (s', Throw e) →
     unavailable s' = false) ∧
  (∀ p wit wit' st, StateSession.accept p wit (s, false) = (st, Ok ()) →
     StateSession.closed st.1 = true ∧
     StateSession.accept p wit' st = (st, Throw E_SESSION_CLOSED)).
Proof.
  split_and!.
  - intros Hu c. by apply call_unavailable.
  - by intros [= <-].
  - intros Hr Hc. induction Hr as [|s1 s2 s3 Hs Hr IH]; [done|]. apply IH.
    destruct Hs as [c s1|p wit s1]; [|by apply accept_keeps_closed].
    assert (unavailable s1 = true) as Hu by (unfold unavailable; by rewrite Hc).
    destruct c; try (by rewrite call_unavailable). done.
  - intros r. unfold StateSession.close, mbind, step_bind.
    destruct (StateSession.assertOpen s) as [? [|]]; [|done].
    destruct (StateSession.flushAndRetain _) as [? [|]]; [|done]. by intros [= <- _].
  - intros p. unfold StateSession.prepareClose, mbind, step_bind, StateSession.assertOpen.
    destruct (StateSession.closed s || StateSession.closePrepared s) eqn:Eu; [done|]. simpl.
    match goal with |- context [StateSession.prepareFlush ?x] =>
      pose proof (keeps_prepareFlush x) as [K1 K2];
      destruct (StateSession.prepareFlush x) as [s1 [p1|e]] end; [|done].
    intros [= <- _]. simpl in *. apply orb_false_iff in Eu as [? _]. split; congruence.
  - intros e Hu. unfold StateSession.prepareClose, mbind, step_bind, StateSession.assertOpen.
    unfold unavailable in Hu. rewrite Hu. simpl.
    match goal with |- context [StateSession.prepareFlush ?x] =>
      pose proof (keeps_prepareFlush x) as [K1 K2];
      destruct (StateSession.prepareFlush x) as [s1 [p1|e1]] end; [done|].
    intros [= <- _]. simpl in *. unfold unavailable; simpl.
    apply orb_false_iff in Hu as [? _]. rewrite K1. by rewrite orb_false_r.
  - intros p wit wit' [s1 b] Ha. apply accept_closes in Ha as (_ & Hc & Hb). simpl in *. subst b.
    by split.
Qed.

Lemma state_session_lifecycle_witness :
  let s := ReferenceEngine.fresh 8 in
  let closed := (StateSession.close s).1 in
  let prepared := (StateSession.prepareClose s).1 in
  (run_call (CNodeContains "n") s).2 = Ok () ∧
  (run_call (CNodeContains "n") prepared).2 = Throw E_SESSION_CLOSED ∧
  run_call (CNodeContains "n") closed = (closed, Throw E_SESSION_CLOSED).
Proof.
  cbv zeta. split_and!; [vm_compute; reflexivity..|].
  apply (state_session_lifecycle (StateSession.close (ReferenceEngine.fresh 8)).1
    (ReferenceEngine.fresh 8)); [vm_compute; reflexivity|discriminate].
Defined.
