(* ===== verification/SessionReducer.v ===== *)
(** The reducer over a page-backed session ([services/JoinReducerSession.ts]).
    It replays patches without the whole state in memory: the alive sets live
    in a [StateSession], the registers and the frontier in the frame. *)
From S2P Require Export Session JoinReducer.

Module SessionReducer.
Import OpNormalizer JoinReducer StateSession.

(** ** Values: every register holds a copy of its own *)

(** An address the heap does not use. *)
Definition next_addr (h : heap) : N := N.succ (map_fold (λ a _ m, N.max a m) 0%N h).

Definition alloc (o : obj) : step heap jsval := λ h,
  let a := next_addr h in (<[a := o]> h, Ok (JRef a)).

(** Assigning ["__proto__"] on a plain object creates no property. *)
Definition own_fields (fields : list (string * jsval)) : list (string * jsval) :=
  filter (λ kv, kv.1 ≠ "__proto__") fields.

(** The call stack is exhausted on cyclic values only. *)
Definition StackOverflow : error := Err "RangeError" "".

(* @src domain/services/JoinReducerSession.ts normalizePropValue *)
Fixpoint normalizePropValue (fuel : nat) (value : jsval) : step heap jsval :=
  match fuel with
  | O => lift (Throw StackOverflow)
  | S fuel' =>
    match value with
    | JNull | JStr _ | JNum _ | JBool _ => mret value
    | JUndefined => lift (Throw PatchMalformed)
    | JRef a =>
      h ← get;
      match h !! a with
      | Some (OBytes _) => mret value
      | Some (OArray items) =>
          items' ← map_step (normalizePropValue fuel') items; alloc (OArray items')
      | Some (OPlain fields) | Some (OOther fields) =>
          fields' ← map_step (λ '(key, entry),
            entry' ← normalizePropValue fuel' entry; mret (key, entry')) fields;
          alloc (OPlain (own_fields fields'))
      | None => lift (Throw PatchMalformed)
      end
    end
  end.

(** ** The frame *)

Section frame.
Context {T W : Type} `{Engine T W} `{Workspace W}.

Abbreviation register := WarpState.register.

(** The heap is where the registers' composite values live. *)
(* @src domain/services/JoinReducerSession.ts ReducerSessionFrame 64-93 *)
Record ReducerSessionFrame := Frame {
  session : StateSession T W;
  prop : gmap string register;
  observedFrontier : VersionVector.VersionVector;
  edgeBirthEvent : gmap string EventId;
  fheap : heap }.

(* @src domain/services/JoinReducerSession.ts propSize *)
Definition propSize (f : ReducerSessionFrame) : nat := size (prop f).
(* @src domain/services/JoinReducerSession.ts hasProp *)
Definition hasProp (f : ReducerSessionFrame) (encodedKey : string) : bool :=
  bool_decide (is_Some (prop f !! encodedKey)).
(* @src domain/services/JoinReducerSession.ts getEncodedProp *)
Definition getEncodedProp (f : ReducerSessionFrame) (encodedKey : string) : option register :=
  prop f !! encodedKey.

(** Calls on the parts of a frame. *)
Definition on_session {A} (m : step (StateSession T W) A) : step ReducerSessionFrame A := λ f,
  let '(s, r) := m (session f) in
  (Frame s (prop f) (observedFrontier f) (edgeBirthEvent f) (fheap f), r).
Definition on_heap {A} (m : step heap A) : step ReducerSessionFrame A := λ f,
  let '(h, r) := m (fheap f) in
  (Frame (session f) (prop f) (observedFrontier f) (edgeBirthEvent f) h, r).
Definition on_prop (g : gmap string register → gmap string register)
  : step ReducerSessionFrame unit :=
  modify (λ f, Frame (session f) (g (prop f)) (observedFrontier f) (edgeBirthEvent f) (fheap f)).
Definition on_births (g : gmap string EventId → gmap string EventId)
  : step ReducerSessionFrame unit :=
  modify (λ f, Frame (session f) (prop f) (observedFrontier f) (g (edgeBirthEvent f)) (fheap f)).
Definition on_frontier {A} (m : step VersionVector.VersionVector A)
  : step ReducerSessionFrame A := λ f,
  let '(vv, r) := m (observedFrontier f) in
  (Frame (session f) (prop f) vv (edgeBirthEvent f) (fheap f), r).

(** ** Outcomes *)

(* @src domain/services/JoinReducerSession.ts hasEffectiveRemoval *)
Definition hasEffectiveRemoval (currentDots : gset string) (observedDots : list string) : bool :=
  existsb (λ dot, bool_decide (dot ∈ currentDots)) observedDots.

(* @src domain/services/JoinReducerSession.ts propertyOutcome *)
Definition propertyOutcome (prop : gmap string register) (storageKey : string)
  (eventId : EventId) : OpOutcomeResult :=
  match prop !! storageKey with
  | None => OpApplied storageKey
  | Some current =>
      let comparison := EventId.compareEventIds eventId (LWW.eventId current) in
      if 0 <? comparison then OpApplied storageKey
      else if comparison <? 0 then OpSuperseded storageKey (LWW.eventId current)
      else OpRedundant storageKey
  end.

(** The add and remove outcomes from the live dots of the target. *)
Definition add_outcome (target : string) (dot : Dot.Dot) (dots : gset string) : OpOutcomeResult :=
  if decide (Dot.encode dot ∈ dots) then OpRedundant target else OpApplied target.
Definition remove_outcome (target : string) (observedDots : list string) (dots : gset string)
  : OpOutcomeResult :=
  if hasEffectiveRemoval dots observedDots then OpApplied target else OpRedundant target.

(* @src domain/services/JoinReducerSession.ts computeOutcome *)
Definition computeOutcome (op : Op) (eventId : EventId)
  : step ReducerSessionFrame OpOutcomeResult :=
  match op with
  | ONodeAdd o =>
      dots ← on_session (nodeDots (NodeAdd.node o));
      mret (add_outcome (NodeAdd.node o) (NodeAdd.dot o) dots)
  | ONodeRemove o =>
      dots ← on_session (nodeDots (NodeRemove.node o));
      mret (remove_outcome (NodeRemove.node o) (NodeRemove.observedDots o) dots)
  | OEdgeAdd o =>
      let edgeKey := EdgeAdd.key o in
      dots ← on_session (edgeDots edgeKey); mret (add_outcome edgeKey (EdgeAdd.dot o) dots)
  | OEdgeRemove o =>
      let edgeKey := WarpState.key_of (EdgeRemove.edge o) in
      dots ← on_session (edgeDots edgeKey);
      mret (remove_outcome edgeKey (EdgeRemove.observedDots o) dots)
  | OPropSet o =>
      f ← get; mret (propertyOutcome (prop f) (encodePropKey (PropSet.node o) (PropSet.key o)) eventId)
  | ONodePropSet o =>
      f ← get;
      mret (propertyOutcome (prop f) (encodePropKey (NodePropSet.node o) (NodePropSet.key o)) eventId)
  | OEdgePropSet o => f ← get; mret (propertyOutcome (prop f) (EdgePropSet.prop_key o) eventId)
  | OBlobValue o => mret (OpApplied (BlobValue.oid o))
  end.

(** ** Mutation *)

(* @src domain/services/JoinReducerSession.ts setProperty *)
Definition setProperty (storageKey : string) (eventId : EventId) (value : jsval)
  : step ReducerSessionFrame unit :=
  v ← on_heap (λ h, normalizePropValue (S (size h)) value h);
  on_prop (λ prop,
    match LWW.max (prop !! storageKey) (Some (LWW.set eventId v)) with
    | Some next => <[storageKey := next]> prop
    | None => prop
    end).

(** The birth of an edge is its greatest add. *)
Definition record_birth (edgeKey : string) (eventId : EventId) (births : gmap string EventId)
  : gmap string EventId :=
  match births !! edgeKey with
  | None => <[edgeKey := eventId]> births
  | Some previous =>
      if 0 <? EventId.compareEventIds eventId previous
      then <[edgeKey := eventId]> births else births
  end.

(* @src domain/services/JoinReducerSession.ts mutateInSession *)
Definition mutateInSession (op : Op) (eventId : EventId) : step ReducerSessionFrame unit :=
  match op with
  | ONodeAdd o => on_session (addNode (NodeAdd.node o) (NodeAdd.dot o))
  | ONodeRemove o =>
      on_session (removeNode (NodeRemove.node o) (list_to_set (NodeRemove.observedDots o)))
  | OEdgeAdd o =>
      _ ← on_session (addEdge (EdgeAdd.key o) (EdgeAdd.dot o));
      on_births (record_birth (EdgeAdd.key o) eventId)
  | OEdgeRemove o =>
      on_session (removeEdge (WarpState.key_of (EdgeRemove.edge o))
                    (list_to_set (EdgeRemove.observedDots o)))
  | OPropSet o =>
      setProperty (encodePropKey (PropSet.node o) (PropSet.key o)) eventId (PropSet.value o)
  | ONodePropSet o =>
      setProperty (encodePropKey (NodePropSet.node o) (NodePropSet.key o)) eventId
        (NodePropSet.value o)
  | OEdgePropSet o => setProperty (EdgePropSet.prop_key o) eventId (EdgePropSet.value o)
  | OBlobValue _ => mret ()
  end.

(** ** Diffs *)

(* @src domain/services/JoinReducerSession.ts ReplayDiffSnapshot 47-53 *)
Inductive ReplayDiffSnapshot : Type :=
  | SNodeAdd (target : string) (aliveBefore : bool)
  | SNodeRemove (target : string) (aliveBefore : bool)
  | SEdgeAdd (target : string) (edge : edge_parts) (aliveBefore : bool)
  | SEdgeRemove (target : string) (edge : edge_parts) (aliveBefore : bool)
  | SRegister (nodeId key storageKey : string) (prevValue : jsval)
  | SNone.

(* @src domain/services/JoinReducerSession.ts propertySnapshot *)
Definition propertySnapshot (prop : gmap string register) (nodeId key storageKey : string)
  : ReplayDiffSnapshot :=
  SRegister nodeId key storageKey (reg_value (prop !! storageKey)).

(* @src domain/services/JoinReducerSession.ts snapshotForDiff *)
Definition snapshotForDiff (op : Op) : step ReducerSessionFrame ReplayDiffSnapshot :=
  match op with
  | ONodeAdd o =>
      alive ← on_session (nodeContains (NodeAdd.node o)); mret (SNodeAdd (NodeAdd.node o) alive)
  | ONodeRemove o =>
      alive ← on_session (nodeContains (NodeRemove.node o));
      mret (SNodeRemove (NodeRemove.node o) alive)
  | OEdgeAdd o =>
      alive ← on_session (edgeContains (EdgeAdd.key o));
      mret (SEdgeAdd (EdgeAdd.key o) (EdgeAdd.edge o) alive)
  | OEdgeRemove o =>
      let target := WarpState.key_of (EdgeRemove.edge o) in
      alive ← on_session (edgeContains target);
      mret (SEdgeRemove target (EdgeRemove.edge o) alive)
  | OPropSet o =>
      f ← get;
      mret (propertySnapshot (prop f) (PropSet.node o) (PropSet.key o)
              (encodePropKey (PropSet.node o) (PropSet.key o)))
  | ONodePropSet o =>
      f ← get;
      mret (propertySnapshot (prop f) (NodePropSet.node o) (NodePropSet.key o)
              (encodePropKey (NodePropSet.node o) (NodePropSet.key o)))
  | OEdgePropSet o =>
      f ← get;
      mret (propertySnapshot (prop f) (WarpState.key_of (EdgePropSet.edge o)) (EdgePropSet.key o)
              (EdgePropSet.prop_key o))
  | OBlobValue _ => mret SNone
  end.

Definition push_node_added (n : string) (d : PatchDiff.PatchDiff) : PatchDiff.PatchDiff :=
  PatchDiff.mk (PatchDiff.nodesAdded d ++ [n]) (PatchDiff.nodesRemoved d)
    (PatchDiff.edgesAdded d) (PatchDiff.edgesRemoved d) (PatchDiff.propsChanged d).
Definition push_node_removed (n : string) (d : PatchDiff.PatchDiff) : PatchDiff.PatchDiff :=
  PatchDiff.mk (PatchDiff.nodesAdded d) (PatchDiff.nodesRemoved d ++ [n])
    (PatchDiff.edgesAdded d) (PatchDiff.edgesRemoved d) (PatchDiff.propsChanged d).
Definition push_edge_added (e : edge_parts) (d : PatchDiff.PatchDiff) : PatchDiff.PatchDiff :=
  PatchDiff.mk (PatchDiff.nodesAdded d) (PatchDiff.nodesRemoved d)
    (PatchDiff.edgesAdded d ++ [e]) (PatchDiff.edgesRemoved d) (PatchDiff.propsChanged d).
Definition push_edge_removed (e : edge_parts) (d : PatchDiff.PatchDiff) : PatchDiff.PatchDiff :=
  PatchDiff.mk (PatchDiff.nodesAdded d) (PatchDiff.nodesRemoved d)
    (PatchDiff.edgesAdded d) (PatchDiff.edgesRemoved d ++ [e]) (PatchDiff.propsChanged d).

(** The session is only asked when the answer matters. *)
Definition push_if (before : bool) (ask : step ReducerSessionFrame bool) (expected : bool)
  (push : PatchDiff.PatchDiff → PatchDiff.PatchDiff) (diff : PatchDiff.PatchDiff)
  : step ReducerSessionFrame PatchDiff.PatchDiff :=
  if before then alive ← ask; mret (if bool_decide (alive = expected) then push diff else diff)
  else mret diff.

(* @src domain/services/JoinReducerSession.ts accumulateDiff *)
Definition accumulateDiff (diff : PatchDiff.PatchDiff) (before : ReplayDiffSnapshot)
  : step ReducerSessionFrame PatchDiff.PatchDiff :=
  match before with
  | SNodeAdd target aliveBefore =>
      push_if (negb aliveBefore) (on_session (nodeContains target)) true
        (push_node_added target) diff
  | SNodeRemove target aliveBefore =>
      push_if aliveBefore (on_session (nodeContains target)) false (push_node_removed target) diff
  | SEdgeAdd target edge aliveBefore =>
      push_if (negb aliveBefore) (on_session (edgeContains target)) true
        (push_edge_added edge) diff
  | SEdgeRemove target edge aliveBefore =>
      push_if aliveBefore (on_session (edgeContains target)) false (push_edge_removed edge) diff
  | SRegister nodeId key storageKey prevValue =>
      f ← get;
      let nextValue := reg_value (prop f !! storageKey) in
      mret (if negb (js_strict_eq nextValue prevValue)
            then push_prop (PatchDiff.PropDiff nodeId key nextValue prevValue) diff else diff)
  | SNone => mret diff
  end.

(** ** Patches *)

(** Every merged counter is set on the frame's vector in place. *)
(* @src domain/services/JoinReducerSession.ts foldPatchIntoFrame *)
Definition foldPatchIntoFrame (patch : PatchLike) : step ReducerSessionFrame unit :=
  contextVV ← lift (match context patch with
                    | Some (VersionVector.SVector vv) => Ok (VersionVector.clone vv)
                    | Some src => VersionVector.from src
                    | None => VersionVector.from (VersionVector.SObject [])
                    end);
  on_frontier (
    vv ← get;
    let merged := VersionVector.merge vv contextVV in
    _ ← for_each (λ '(writerId, counter), VersionVector.set writerId (JInt counter))
          (map_to_list (VersionVector.entries merged));
    vv' ← get;
    let current := default 0 (VersionVector.get vv' (writer patch)) in
    if jsnum_gtb (lamport patch) current
    then VersionVector.set (writer patch) (lamport patch) else mret ()).

(* @src domain/services/JoinReducerSession.ts toReceiptOutcome *)
Definition toReceiptOutcome (receiptName : string) (outcome : OpOutcomeResult)
  : TickReceipt.OpOutcome :=
  TickReceipt.mkOutcome receiptName (outcome_target outcome) (outcome_result outcome)
    (match outcome with
     | OpSuperseded _ w =>
         let r := superseded_reason w in if str_nonempty r then Some r else None
     | _ => None
     end).

(* @src domain/services/JoinReducerSession.ts ReplayMode 55-55 *)
Inductive ReplayMode : Type := Fast | WithDiff | WithReceipt.

#[local] Instance ReplayMode_eq_dec : EqDecision ReplayMode.
Proof. solve_decision. Defined.

(** The canonical op of an element, [None] when the loop skips it. A primitive
    has no [type] and passes through unhydrated; [null] has no fields. *)
Definition session_op (rawOp : raw_op) : result (option Op) :=
  match rawOp with
  | RUndefined | RNonObject false => Ok None
  | RNonObject true => Throw (Err "TypeError" "")
  | RObject o => canonOp ← normalizeRawOp o; Ok (isRuntimeOp canonOp)
  end.

(** One round of the loop; the accumulators are the diff and the receipt. *)
Definition session_round (mode : ReplayMode) (p : PatchLike) (patchSha : string)
  (acc : PatchDiff.PatchDiff * list TickReceipt.OpOutcome) (iop : Z * raw_op)
  : step ReducerSessionFrame (PatchDiff.PatchDiff * list TickReceipt.OpOutcome) :=
  let '(diff, receiptOps) := acc in
  let '(i, rawOp) := iop in
  canonOp ← lift (session_op rawOp);
  match canonOp with
  | None => mret (diff, receiptOps)
  | Some o =>
      eventId ← lift (event_id p patchSha i);
      receiptOps' ← (match mode with
                     | WithReceipt =>
                         outcome ← computeOutcome o eventId;
                         mret (receiptOps ++ [toReceiptOutcome (receiptName o) outcome])
                     | _ => mret receiptOps
                     end);
      before ← (match mode with WithDiff => snapshotForDiff o | _ => mret SNone end);
      _ ← mutateInSession o eventId;
      diff' ← (match mode with WithDiff => accumulateDiff diff before | _ => mret diff end);
      mret (diff', receiptOps')
  end.

(* @src domain/services/JoinReducerSession.ts applyPatchInSession *)
Definition applyPatchInSession (p : PatchLike) (patchSha : string) (mode : ReplayMode)
  : step ReducerSessionFrame (PatchDiff.PatchDiff * TickReceipt.TickReceipt) :=
  acc ← for_fold (session_round mode p patchSha) (indexed (ops p))
          (PatchDiff.createPatchDiffAccumulator, []);
  _ ← foldPatchIntoFrame p;
  diff ← lift (PatchDiff.of_accumulator acc.1);
  receipt ← lift (TickReceipt.createTickReceipt patchSha (writer p) (lamport p) acc.2);
  mret (diff, receipt).

(* @src domain/services/JoinReducerSession.ts applyFastInSession *)
Definition applyFastInSession (p : PatchLike) (patchSha : string)
  : step ReducerSessionFrame unit :=
  _ ← applyPatchInSession p patchSha Fast; mret ().

(* @src domain/services/JoinReducerSession.ts applyWithDiffInSession *)
Definition applyWithDiffInSession (p : PatchLike) (patchSha : string)
  : step ReducerSessionFrame PatchDiff.PatchDiff :=
  r ← applyPatchInSession p patchSha WithDiff; mret r.1.

(* @src domain/services/JoinReducerSession.ts applyWithReceiptInSession *)
Definition applyWithReceiptInSession (p : PatchLike) (patchSha : string)
  : step ReducerSessionFrame TickReceipt.TickReceipt :=
  r ← applyPatchInSession p patchSha WithReceipt; mret r.2.

(** The session call of one op; the others have none. *)
Definition liveness_call (op : Op) : step (StateSession T W) unit :=
  match op with
  | ONodeAdd o => addNode (NodeAdd.node o) (NodeAdd.dot o)
  | ONodeRemove o => removeNode (NodeRemove.node o) (list_to_set (NodeRemove.observedDots o))
  | OEdgeAdd o => addEdge (EdgeAdd.key o) (EdgeAdd.dot o)
  | OEdgeRemove o =>
      removeEdge (WarpState.key_of (EdgeRemove.edge o)) (list_to_set (EdgeRemove.observedDots o))
  | _ => mret ()
  end.

(** [undefined] elements are not skipped here: reading their type throws. *)
Definition liveness_round (rawOp : raw_op) : step (StateSession T W) unit :=
  canonOp ← lift (match rawOp with
                  | RUndefined => Throw (Err "TypeError" "")
                  | _ => session_op rawOp
                  end);
  match canonOp with
  | Some o => liveness_call o
  | None => mret ()
  end.

(* @src domain/services/JoinReducerSession.ts applyLivenessInSession *)
Definition applyLivenessInSession (p : PatchLike) : step (StateSession T W) unit :=
  for_each liveness_round (ops p).

(** What [reducePatchesInSession] returns besides the frame. *)
Inductive session_reduced : Type :=
  | SRFrame
  | SRReceipts (receipts : list TickReceipt.TickReceipt)
  | SRDiff (diff : PatchDiff.PatchDiff).

(* @src domain/services/JoinReducerSession.ts reducePatchesInSession 180-207 *)
Definition reducePatchesInSession (patches : list sha_patch) (options : option reduce_options)
  : step ReducerSessionFrame session_reduced :=
  match options with
  | Some (ReduceOptions true _) =>
      receipts ← for_fold (λ acc '(p, sha),
        r ← applyWithReceiptInSession p sha; mret (acc ++ [r])) patches [];
      mret (SRReceipts receipts)
  | Some (ReduceOptions false true) =>
      merged ← lift PatchDiff.createEmptyDiff;
      diff ← for_fold (λ merged '(p, sha),
        d ← applyWithDiffInSession p sha; lift (PatchDiff.mergeDiffs merged d)) patches merged;
      mret (SRDiff diff)
  | _ =>
      _ ← for_each (λ '(p, sha), applyFastInSession p sha) patches; mret SRFrame
  end.

(** ** Joining frames *)

(** One element of the source: its dots are added, then the dead ones removed. *)
Definition merge_element (add : string → Dot.Dot → step (StateSession T W) unit)
  (remove : string → gset string → step (StateSession T W) unit) (st : ElementState)
  : step (StateSession T W) unit :=
  let e := ORSetElementState.element st in
  let add_encoded := λ encodedDot, dot ← lift (Dot.decode encodedDot); add e dot in
  _ ← for_each add_encoded (base.elements (ORSetElementState.dots st));
  _ ← for_each add_encoded (base.elements (ORSetElementState.tombstonedDots st));
  if decide (ORSetElementState.tombstonedDots st = ∅) then mret ()
  else remove e (ORSetElementState.tombstonedDots st).

(** The states the source's scan yielded. *)
(* @src domain/services/JoinReducerSession.ts mergeLiveNodesInto *)
Definition mergeLiveNodesInto (states : list ElementState) : step (StateSession T W) unit :=
  for_each (merge_element addNode removeNode) states.

(* @src domain/services/JoinReducerSession.ts mergeLiveEdgesInto *)
Definition mergeLiveEdgesInto (states : list ElementState) : step (StateSession T W) unit :=
  for_each (merge_element addEdge removeEdge) states.

(* @src domain/services/JoinReducerSession.ts mergePropMaps *)
Definition mergePropMaps (lhs rhs : gmap string register) : gmap string register :=
  map_upsert WarpState.prop_upsert lhs rhs.

(* @src domain/services/JoinReducerSession.ts mergeEdgeBirthEvents *)
Definition mergeEdgeBirthEvents (lhs rhs : gmap string EventId) : gmap string EventId :=
  map_upsert WarpState.birth_upsert lhs rhs.

(** The two frames are distinct objects over one heap; the right session is
    scanned while the left one is changed. *)
(* @src domain/services/JoinReducerSession.ts joinFrames *)
Definition joinFrames : step (ReducerSessionFrame * ReducerSessionFrame) ReducerSessionFrame :=
  λ '(lhs, rhs),
  let '(rhs1, nodes) := on_session scanNodeElementStates rhs in
  match nodes with
  | Throw e => ((lhs, rhs1), Throw e)
  | Ok nodeStates =>
    let '(lhs1, r1) := on_session (mergeLiveNodesInto nodeStates) lhs in
    match r1 with
    | Throw e => ((lhs1, rhs1), Throw e)
    | Ok _ =>
      let '(rhs2, edges) := on_session scanEdgeElementStates rhs1 in
      match edges with
      | Throw e => ((lhs1, rhs2), Throw e)
      | Ok edgeStates =>
        let '(lhs2, r2) := on_session (mergeLiveEdgesInto edgeStates) lhs1 in
        match r2 with
        | Throw e => ((lhs2, rhs2), Throw e)
        | Ok _ =>
          ((lhs2, rhs2),
           Ok (Frame (session lhs2) (mergePropMaps (prop lhs) (prop rhs))
                 (VersionVector.merge (observedFrontier lhs) (observedFrontier rhs))
                 (mergeEdgeBirthEvents (edgeBirthEvent lhs) (edgeBirthEvent rhs))
                 (fheap lhs)))
        end
      end
    end
  end.
End frame.
End SessionReducer.
