(* ===== verification/SessionRefinement.v ===== *)
(** The session-backed reducer implements the in-memory one on causally ordered
    patches, and only on those. *)
From S2P Require Export SessionReducer Effects.
Import OpNormalizer JoinReducer PropValue.

(** ** Copies of values *)

(** [v'] is a copy of [v] of height at most [n]; byte arrays are shared. *)
Inductive copy_of (h : heap) : nat → jsval → jsval → Prop :=
  | copy_scalar n v : isScalarPropValue h v = true → copy_of h (S n) v v
  | copy_array n a b xs ys :
      h !! a = Some (OArray xs) → h !! b = Some (OArray ys) → Forall2 (copy_of h n) xs ys →
      copy_of h (S n) (JRef a) (JRef b)
  | copy_object n a b fs gs :
      h !! a = Some (OPlain fs) → h !! b = Some (OPlain gs) →
      Forall2 (λ x y, x.1 = y.1 ∧ copy_of h n x.2 y.2) fs gs →
      copy_of h (S n) (JRef a) (JRef b).

Definition copied (h : heap) (v v' : jsval) : Prop := ∃ n, copy_of h n v v'.

Lemma scalar_mono h h' v :
  h ⊆ h' → isScalarPropValue h v = true → isScalarPropValue h' v = true.
Proof.
  intros Hh. destruct v as [| | | | |a]; simpl; try done.
  destruct (h !! a) as [[]|] eqn:E; try done. by rewrite (lookup_weaken _ _ _ _ E Hh).
Qed.

Lemma copy_of_mono h h' n v v' : h ⊆ h' → copy_of h n v v' → copy_of h' n v v'.
Proof.
  intros Hh. revert v v'. induction n as [|n IH]; intros v v' Hc; [inversion Hc|].
  inversion Hc as [? ? Hs|? a b xs ys Ha Hb Hf|? a b fs gs Ha Hb Hf]; subst.
  - apply copy_scalar. by apply (scalar_mono h).
  - apply (copy_array _ _ _ _ xs ys); [by eapply lookup_weaken..|].
    eapply Forall2_impl; [done|]. auto.
  - apply (copy_object _ _ _ _ fs gs); [by eapply lookup_weaken..|].
    eapply Forall2_impl; [done|]. intros x y [? ?]. auto.
Qed.

Lemma copied_mono h h' v v' : h ⊆ h' → copied h v v' → copied h' v v'.
Proof. intros Hh [n Hn]. exists n. by apply (copy_of_mono h). Qed.

Lemma prop_tree_heap_mono h h' n v : h ⊆ h' → prop_tree h n v → prop_tree h' n v.
Proof.
  intros Hh. revert v. induction n as [|n IH]; intros v Ht; [inversion Ht|].
  inversion Ht as [? ? Hs|? a items Ha Hf|? a fields Ha Hf]; subst.
  - apply pt_scalar. by apply (scalar_mono h).
  - apply (pt_array _ _ _ items); [by eapply lookup_weaken|].
    eapply Forall_impl; [done|]. auto.
  - apply (pt_object _ _ _ fields); [by eapply lookup_weaken|].
    eapply Forall_impl; [done|]. intros x [? ?]. auto.
Qed.

Lemma is_tree_mono h h' v : h ⊆ h' → is_tree h v → is_tree h' v.
Proof. intros Hh [n Hn]. exists n. by apply (prop_tree_heap_mono h). Qed.

(** ** Copying a tree *)
Import SessionReducer.

Lemma next_addr_gt h a o : h !! a = Some o → (a < next_addr h)%N.
Proof.
  unfold next_addr. intros Ha. apply N.lt_succ_r. revert Ha.
  apply (map_fold_weak_ind (λ m (h' : heap), h' !! a = Some o → (a ≤ m)%N)).
  - by rewrite lookup_empty.
  - intros i x m r Hi IH Hl. apply lookup_insert_Some in Hl as [[-> _]|[_ Hl]]; [lia|].
    specialize (IH Hl). lia.
Qed.

Lemma alloc_fresh h o : h ⊆ <[next_addr h := o]> h.
Proof.
  apply insert_subseteq. destruct (h !! next_addr h) as [o'|] eqn:E; [|done].
  apply next_addr_gt in E. lia.
Qed.

(** A copier that keeps the heap below and copies each part of a tree. *)
Definition copies (h : heap) (n : nat) (f : jsval → step heap jsval) : Prop :=
  ∀ v h1, prop_tree h n v → h ⊆ h1 → ∃ h2 v', f v h1 = (h2, Ok v') ∧ h1 ⊆ h2 ∧ copy_of h2 n v v'.

Lemma copies_items h n f items h1 :
  copies h n f → Forall (prop_tree h n) items → h ⊆ h1 →
  ∃ h2 items', map_step f items h1 = (h2, Ok items') ∧ h1 ⊆ h2 ∧ Forall2 (copy_of h2 n) items items'.
Proof.
  intros Hf Hall. revert h1. induction Hall as [|v items Hv _ IH]; intros h1 Hh; cbn [map_step].
  - exists h1, []. split_and!; [done|done|constructor].
  - destruct (Hf v h1 Hv Hh) as (h2 & v' & E & H12 & Hc).
    destruct (IH h2) as (h3 & items' & E' & H23 & Hcs); [by etrans|].
    exists h3, (v' :: items'). unfold mbind, step_bind. rewrite E, E'.
    split; [done|]. split; [by etrans|]. constructor; [by apply (copy_of_mono h2)|done].
Qed.

Definition copy_field (f : jsval → step heap jsval) : string * jsval → step heap (string * jsval) :=
  λ '(key, entry), entry' ← f entry; mret (key, entry').

Lemma copies_fields h n f fields h1 :
  copies h n f →
  Forall (λ kv, isForbiddenPropertyValueKey kv.1 = false ∧ prop_tree h n kv.2) fields → h ⊆ h1 →
  ∃ h2 fields', map_step (copy_field f) fields h1 = (h2, Ok fields') ∧ h1 ⊆ h2 ∧
    Forall2 (λ x y, x.1 = y.1 ∧ copy_of h2 n x.2 y.2) fields fields' ∧
    own_fields fields' = fields'.
Proof.
  intros Hf Hall. revert h1. induction Hall as [|[k v] fields [Hk Hv] _ IH]; intros h1 Hh;
    cbn [map_step].
  - exists h1, []. split_and!; [done|done|constructor|done].
  - cbn [fst snd] in *. destruct (Hf v h1 Hv Hh) as (h2 & v' & E & H12 & Hc).
    destruct (IH h2) as (h3 & fields' & E' & H23 & Hcs & Hown); [by etrans|].
    assert (copy_field f (k, v) h1 = (h2, Ok (k, v'))) as Ef.
    { unfold copy_field, mbind, step_bind. by rewrite E. }
    exists h3, ((k, v') :: fields'). unfold mbind, step_bind. rewrite Ef, E'.
    split; [done|]. split; [by etrans|].
    split; [constructor; [split; [done|by apply (copy_of_mono h2)]|done]|].
    unfold own_fields in *. rewrite filter_cons_True, Hown; [done|]. simpl.
    intros ->. vm_compute in Hk. discriminate Hk.
Qed.

Lemma normalize_copies h n fuel : (n ≤ fuel)%nat → copies h n (normalizePropValue fuel).
Proof.
  revert fuel. induction n as [|n IH]; intros fuel Hle v h1 Ht Hh; [inversion Ht|].
  destruct fuel as [|fuel]; [lia|]. assert (n ≤ fuel)%nat as Hle' by lia.
  inversion Ht as [? ? Hs|? a items Ha Hf|? a fields Ha Hf]; subst; cbn [normalizePropValue].
  - exists h1, v. split; [|split; [done|]].
    + destruct v as [| | | | |a]; try done. simpl in Hs. unfold get, mbind, step_bind.
      destruct (h !! a) as [[]|] eqn:E; try done. by rewrite (lookup_weaken _ _ _ _ E Hh).
    + apply copy_scalar. by apply (scalar_mono h).
  - unfold get, mbind, step_bind. rewrite (lookup_weaken _ _ _ _ Ha Hh).
    destruct (copies_items h n _ items h1 (IH fuel Hle') Hf Hh) as (h2 & items' & E & H12 & Hc).
    rewrite E. unfold alloc. eexists _, _. split; [done|].
    split; [etrans; [done|apply alloc_fresh]|].
    apply (copy_array _ _ _ _ items items').
    + eapply lookup_weaken; [exact Ha|]. etrans; [exact Hh|]. etrans; [exact H12|apply alloc_fresh].
    + apply lookup_insert_eq.
    + eapply Forall2_impl; [done|]. intros x y. apply copy_of_mono, alloc_fresh.
  - unfold get, mbind, step_bind. rewrite (lookup_weaken _ _ _ _ Ha Hh).
    destruct (copies_fields h n _ fields h1 (IH fuel Hle') Hf Hh)
      as (h2 & fields' & E & H12 & Hc & Hown).
    change (map_step _ fields) with (map_step (copy_field (normalizePropValue fuel)) fields).
    rewrite E, Hown. unfold alloc.
    eexists _, _. split; [done|]. split; [etrans; [done|apply alloc_fresh]|].
    apply (copy_object _ _ _ _ fields fields').
    + eapply lookup_weaken; [exact Ha|]. etrans; [exact Hh|]. etrans; [exact H12|apply alloc_fresh].
    + apply lookup_insert_eq.
    + eapply Forall2_impl; [done|]. intros x y [? ?]. split; [done|].
      by eapply copy_of_mono; [apply alloc_fresh|].
Qed.

(** The reducer's fuel suffices for every property value. *)
Lemma normalize_tree h v :
  is_tree h v → ∃ h' v', normalizePropValue (S (size h)) v h = (h', Ok v') ∧ h ⊆ h' ∧ copied h' v v'.
Proof.
  intros Ht. destruct (check_total (S (size h)) h ∅ v) as [b Hb].
  { rewrite difference_empty_L. rewrite size_dom. lia. }
  assert (prop_tree h (S (size h)) v) as Hpt.
  { apply (check_sound _ _ ∅). destruct Ht as [n Ht].
    rewrite <- (check_complete (max n (S (size h))) h ∅ n v Ht); [|set_solver|lia].
    rewrite Hb. symmetry. apply (check_mono (S (size h))); [done|lia]. }
  destruct (normalize_copies h _ _ (le_n (S (size h))) v h Hpt) as (h' & v' & E & Hh & Hc); [done|].
  exists h', v'. split; [done|]. split; [done|]. by exists (S (size h)).
Qed.

(** ** Element maps against OR-sets *)

(** The cells of the map hold the live and the dead dots of the set. *)
Definition cells_match (m : ElementMap.t) (s : ORSet.ORSet) : Prop :=
  ∀ e, ElementMap.live (ElementMap.at_ m e) = ORSet.getDots s e ∧
       ElementMap.dead (ElementMap.at_ m e) = ORSet.dots_of s e ∩ ORSet.tombstones s.

(** Every tombstone is a dot of some element. *)
Definition anchored (s : ORSet.ORSet) : Prop :=
  ∀ d, d ∈ ORSet.tombstones s → ∃ e, d ∈ ORSet.dots_of s e.

Lemma getDots_eq s e : ORSet.getDots s e = ORSet.dots_of s e ∖ ORSet.tombstones s.
Proof. apply set_eq. intros d. rewrite ORSet.elem_of_getDots. set_solver. Qed.

Lemma cells_contains m s e :
  cells_match m s → ElementMap.contains m e = ORSet.contains s e.
Proof.
  intros Hm. unfold ElementMap.contains. rewrite (proj1 (Hm e)).
  apply eq_true_iff_eq. rewrite bool_decide_eq_true, ORSet.contains_live. split.
  - intros (d & Hd)%set_choose_L. apply ORSet.elem_of_getDots in Hd. by exists d.
  - intros (d & Hd & Hn) E. assert (d ∈ ORSet.getDots s e) by (by apply ORSet.elem_of_getDots).
    set_solver.
Qed.

Lemma cells_add f m s e dot :
  cells_match m s → owned_by f s → anchored s → f (Dot.encode dot) = e →
  cells_match (ElementMap.add e (Dot.encode dot) m) (ORSet.add e dot s) ∧
  anchored (ORSet.add e dot s).
Proof.
  intros Hm Ho Ha He. split.
  - intros e'. rewrite ElementMap.at_add, getDots_eq, ORSet.dots_of_add.
    change (ORSet.tombstones (ORSet.add e dot s)) with (ORSet.tombstones s).
    destruct (Hm e) as [Hl Hd], (Hm e') as [Hl' Hd']. rewrite getDots_eq in Hl, Hl'.
    destruct (decide (e = e')) as [<-|Hne].
    + rewrite Hd. destruct (decide (Dot.encode dot ∈ ORSet.tombstones s)) as [Ht|Ht].
      * destruct (Ha _ Ht) as [e1 He1]. pose proof (Ho _ _ He1) as Hf.
        assert (e1 = e) as -> by congruence.
        rewrite decide_False by set_solver. rewrite Hl, Hd. set_solver.
      * rewrite decide_True by set_solver. simpl. rewrite Hl. set_solver.
    + rewrite decide_False by tauto. rewrite Hl', Hd'. set_solver.
  - intros d [e1 Hd]%Ha. exists e1. rewrite ORSet.dots_of_add. set_solver.
Qed.

Lemma cells_remove f m s e observed :
  cells_match m s → owned_by f s → anchored s → observed ⊆ ORSet.dots_of s e →
  cells_match (ElementMap.remove e observed m) (ORSet.remove observed s) ∧
  anchored (ORSet.remove observed s).
Proof.
  intros Hm Ho Ha Hobs. split.
  - intros e'. rewrite ElementMap.at_remove, getDots_eq.
    change (ORSet.dots_of (ORSet.remove observed s) e') with (ORSet.dots_of s e').
    change (ORSet.tombstones (ORSet.remove observed s)) with (ORSet.tombstones s ∪ observed).
    destruct (Hm e') as [Hl' Hd']. rewrite getDots_eq in Hl'.
    destruct (decide (e = e')) as [<-|Hne].
    + unfold ElementMap.kill; simpl. rewrite Hl', Hd'. split; set_unfold; intros.
      * naive_solver.
      * destruct (decide (x ∈ ORSet.tombstones s)); naive_solver.
    + assert (∀ d, d ∈ ORSet.dots_of s e' → d ∉ observed) as Hdis.
      { intros d Hd Hin. apply Hne. rewrite <- (Ho _ _ Hd). symmetry. by apply Ho, Hobs. }
      rewrite Hl', Hd'. set_solver.
  - intros d. simpl. intros [[e1 He1]%Ha|Hd]%elem_of_union; [by exists e1|].
    exists e. by apply Hobs.
Qed.

(** ** Causal delivery *)

(** A removal comes after the adds it observed. *)
Definition causal_op (o : Op) (s : State) : bool :=
  match o with
  | ONodeRemove o =>
      forallb (ORSet.hasDot (WarpState.nodeAlive s) (NodeRemove.node o)) (NodeRemove.observedDots o)
  | OEdgeRemove o =>
      forallb (ORSet.hasDot (WarpState.edgeAlive s) (WarpState.key_of (EdgeRemove.edge o)))
        (EdgeRemove.observedDots o)
  | _ => true
  end.

(** An add brings a dot that is not dead. *)
Definition fresh_op (o : Op) (s : State) : bool :=
  match o with
  | ONodeAdd o => negb (ORSet.isTombstoned (WarpState.nodeAlive s) (Dot.encode (NodeAdd.dot o)))
  | OEdgeAdd o => negb (ORSet.isTombstoned (WarpState.edgeAlive s) (Dot.encode (EdgeAdd.dot o)))
  | _ => true
  end.

(** A condition on the ops of a run, each at the state it is applied to. *)
Definition round_holds (c : Op → State → bool) (iop : Z * raw_op) (s : State) : bool :=
  match prepare iop.2 with Ok (Some o) => c o s | _ => true end.
Fixpoint ops_hold (c : Op → State → bool) (p : PatchLike) (sha : string)
  (l : list (Z * raw_op)) (s : State) : bool :=
  match l with
  | [] => true
  | iop :: l' => round_holds c iop s && ops_hold c p sha l' (fast_round p sha iop s).1
  end.
Fixpoint run_holds (c : Op → State → bool) (patches : list sha_patch) (s : State) : bool :=
  match patches with
  | [] => true
  | (p, sha) :: l => ops_hold c p sha (indexed (ops p)) s && run_holds c l (applyFast p sha s).1
  end.

(** The value an op writes, if any. *)
Definition op_value (o : Op) : option jsval :=
  match o with
  | OPropSet o => Some (PropSet.value o)
  | ONodePropSet o => Some (NodePropSet.value o)
  | OEdgePropSet o => Some (EdgePropSet.value o)
  | _ => None
  end.

(** The node or the edge key whose dots an op reads and changes, if any. *)
Definition op_element (o : Op) : option string :=
  match o with
  | ONodeAdd o => Some (NodeAdd.node o)
  | ONodeRemove o => Some (NodeRemove.node o)
  | OEdgeAdd o => Some (EdgeAdd.key o)
  | OEdgeRemove o => Some (WarpState.key_of (EdgeRemove.edge o))
  | _ => None
  end.

(** The value is in the heap and the engines know the element. *)
Record op_given (names : string → Prop) (h : heap) (o : Op) : Prop := {
  og_value : ∀ v, op_value o = Some v → is_tree h v;
  og_element : ∀ e, op_element o = Some e → names e }.

Lemma op_given_mono names h h' o : h ⊆ h' → op_given names h o → op_given names h' o.
Proof. intros Hh [Hv He]. split; [|done]. intros v E. by apply (is_tree_mono h), Hv. Qed.

Lemma observed_subset (l : list string) s e :
  forallb (ORSet.hasDot s e) l = true → list_to_set l ⊆ ORSet.dots_of s e.
Proof.
  rewrite forallb_forall. intros Hl d Hd%elem_of_list_to_set.
  by apply ORSet.hasDot_spec, Hl, list_elem_of_In.
Qed.

(** ** The frontier *)

Lemma set_all_ok l m :
  NoDup l.*1 → Forall (λ kc, str_nonempty kc.1 = true ∧ 0 < kc.2) l →
  for_each (λ '(w, c), VersionVector.set w (JInt c)) l (VersionVector.mk m false)
  = (VersionVector.mk (list_to_map l ∪ m) false, Ok ()).
Proof.
  intros Hnd Hl. revert m Hnd. induction Hl as [|[w c] l [Hw Hc] Hl IH]; intros m Hnd; simpl.
  - by rewrite (left_id_L ∅ (∪)).
  - apply NoDup_cons in Hnd as [Hni Hnd]. simpl in *.
    unfold mbind, step_bind, VersionVector.set. simpl.
    rewrite (proj2 (VersionVector.validateEntry_ok w (JInt c) c)) by (split_and!; done || lia).
    rewrite (proj2 (Z.eqb_neq c 0)) by lia. rewrite IH by done. do 2 f_equal.
    apply map_eq. intros k. rewrite !lookup_union.
    destruct (decide (w = k)) as [<-|Hne].
    + rewrite !lookup_insert_eq, not_elem_of_list_to_map_1 by done.
      by destruct (m !! w).
    + by rewrite !lookup_insert_ne.
Qed.

(** ** Frames against states *)
Section refinement.
Context {T W : Type} `{EngineLaws T W} `{Workspace W}.
Context (f g : string → string).

Abbreviation frame := (@ReducerSessionFrame T W).

(** The registers agree on the events; the frame holds copies of the values. *)
Definition regs_match (h : heap) (fp sp : gmap string WarpState.register) : Prop :=
  ∀ k, option_Forall2 (λ r r', LWW.eventId r = LWW.eventId r' ∧
    copied h (LWW.value r') (LWW.value r)) (fp !! k) (sp !! k).

Record frame_rel (fr : frame) (s : State) : Prop := {
  fr_session : session_ok (session fr);
  fr_nodes : cells_match (node_view (session fr)) (WarpState.nodeAlive s);
  fr_edges : cells_match (edge_view (session fr)) (WarpState.edgeAlive s);
  fr_anchored : anchored (WarpState.nodeAlive s) ∧ anchored (WarpState.edgeAlive s);
  fr_owners : owners_ok f g s;
  fr_prop : regs_match (fheap fr) (prop fr) (WarpState.prop s);
  fr_frontier : observedFrontier fr = WarpState.observedFrontier s;
  fr_births : edgeBirthEvent fr = WarpState.edgeBirthEvent s;
  fr_live : live_state s }.

(** The frame moves to one that matches [s'] and keeps its heap. *)
Definition moves {A} (m : step frame A) (fr : frame) (s' : State) (P : A → Prop) : Prop :=
  ∃ fr' a, m fr = (fr', Ok a) ∧ frame_rel fr' s' ∧ fheap fr ⊆ fheap fr' ∧ P a.

Lemma regs_mono h h' fp sp : h ⊆ h' → regs_match h fp sp → regs_match h' fp sp.
Proof.
  intros Hh Hm k. specialize (Hm k). inversion Hm as [r r' [He Hc]|]; constructor.
  split; [done|]. by apply (copied_mono h).
Qed.

(** A write of the session that the state mirrors on one of its sets. *)
Lemma frame_session_write fr s m fn fe na ea :
  frame_rel fr s → swrites m fn fe →
  (∀ mm, cells_match mm (WarpState.nodeAlive s) → cells_match (fn mm) na) →
  (∀ mm, cells_match mm (WarpState.edgeAlive s) → cells_match (fe mm) ea) →
  anchored na ∧ anchored ea →
  let s' := WarpState.mk na ea (WarpState.prop s) (WarpState.observedFrontier s)
              (WarpState.edgeBirthEvent s) in
  owners_ok f g s' → moves (on_session m) fr s' (λ _, True).
Proof.
  intros [] Hw Hn He Ha s' Ho. destruct (Hw _ fr_session0) as (se & E & Hok & _ & _ & _ & Vn & Ve).
  unfold moves, on_session. rewrite E. eexists _, (). split; [done|].
  split; [|done]. split; simpl; try done.
  - rewrite Vn. by apply Hn.
  - rewrite Ve. by apply He.
Qed.

(** A read of the session. *)
Lemma frame_session_read {A} fr s (m : step (StateSession.StateSession T W) A) P :
  frame_rel fr s → sreads m P →
  moves (on_session m) fr s (P (node_view (session fr)) (edge_view (session fr))).
Proof.
  intros [] Hr. destruct (Hr _ fr_session0) as (se & a & E & HP & Hok & [_ _ Vn Ve] & _).
  unfold moves, on_session. rewrite E. eexists _, a. split; [done|].
  split; [|done]. split; simpl; try done; [by rewrite Vn|by rewrite Ve].
Qed.

(** A register write; [ev] wins or loses on both sides. *)
Lemma set_register fr s k ev v :
  frame_rel fr s → is_tree (fheap fr) v →
  moves (setProperty k ev v) fr (WarpState.prop_put k (LWW.mk ev v) s) (λ _, True).
Proof.
  intros [] Ht. destruct (normalize_tree (fheap fr) v Ht) as (h' & v' & E & Hh & Hc).
  unfold moves, setProperty, on_heap, mbind, step_bind. rewrite E.
  unfold on_prop, modify. eexists _, (). split; [done|]. split; [|done].
  split; simpl; try done; [by destruct fr_owners0|].
  intros k'. pose proof (regs_mono _ _ _ _ Hh fr_prop0) as Hm. pose proof (Hm k) as Hk.
  unfold LWW.set.
  destruct (prop fr !! k) as [r|], (WarpState.prop s !! k) as [r'|]; inversion Hk as [? ? [Ev Cv]|];
    subst; cbn [LWW.max LWW.eventId].
  - rewrite <- Ev. destruct (0 <=? EventId.compareEventIds (LWW.eventId r) ev);
      (destruct (decide (k = k')) as [<-|Hne];
       [rewrite !lookup_insert_eq; constructor; done|rewrite !lookup_insert_ne by done; apply Hm]).
  - destruct (decide (k = k')) as [<-|Hne];
      [rewrite !lookup_insert_eq; constructor; done|rewrite !lookup_insert_ne by done; apply Hm].
Qed.
Lemma record_birth_eq fr s s' k ev :
  frame_rel fr s → owners_ok f g s' → live_state s' →
  s' = Ops.on_births (λ _, record_birth k ev (WarpState.edgeBirthEvent s)) s →
  moves (SessionReducer.on_births (record_birth k ev)) fr s' (λ _, True).
Proof.
  intros [] Ho Hl ->. unfold moves, SessionReducer.on_births, modify. eexists _, ().
  split; [done|]. split; [|done]. split; simpl; try done. by rewrite fr_births0.
Qed.

Lemma moves_bind {A B} (m : step frame A) (k : A → step frame B) fr s1 s2 P Q :
  moves m fr s1 P → (∀ fr1 a, frame_rel fr1 s1 → fheap fr ⊆ fheap fr1 → P a → moves (k a) fr1 s2 Q) →
  moves (m ≫= k) fr s2 Q.
Proof.
  intros (fr1 & a & E & R1 & H1' & Pa) Hk.
  destruct (Hk fr1 a R1 H1' Pa) as (fr2 & b & E2 & R2 & H2' & Qb).
  exists fr2, b. unfold mbind, step_bind. rewrite E. split; [done|]. split; [done|].
  split; [by etrans|done].
Qed.

Lemma moves_ret {A} (a : A) fr s (P : A → Prop) : frame_rel fr s → P a → moves (mret a) fr s P.
Proof. intros Hr Ha. by exists fr, a. Qed.

Lemma moves_lift {A} (a : A) fr s : frame_rel fr s → moves (lift (Ok a)) fr s (λ b, b = a).
Proof. intros Hr. by exists fr, a. Qed.

Lemma mutate_refines fr s o ev :
  frame_rel fr s → op_ok o → canonical o = true → respects f g o → causal_op o s = true →
  op_given (eng_names T W) (fheap fr) o →
  moves (mutateInSession o ev) fr (mutate o ev s).1 (λ _, True).
Proof.
  intros Hr Hok Hc Hres Hcau [Hval Hname].
  assert (owners_ok f g (mutate o ev s).1) as Hown.
  { apply (accumulate_step f g o ev s _ PatchDiff.createPatchDiffAccumulator);
      [done|done|apply Hr|]. rewrite mutate_delta by (done || apply Hr). done. }
  pose proof (fr_anchored _ _ Hr) as [An Ae]. pose proof (fr_owners _ _ Hr) as [On Oe _].
  destruct o as [o|o|o|o|o|o|o|o]; try done; simpl in *.
  - destruct Hok as [Hid Hd].
    eapply (frame_session_write _ _ _ (ElementMap.add (NodeAdd.node o) (Dot.encode (NodeAdd.dot o))) id);
      [done|by apply node_write, eng_add_law; [apply Hname|]|..|done].
    + intros mm Hm. by apply (cells_add f).
    + done.
    + split; [|done]. by eapply (cells_add f); [apply Hr|..].
  - destruct Hok as [Hid _]. apply observed_subset in Hcau.
    eapply (frame_session_write _ _ _ (ElementMap.remove (NodeRemove.node o) _) id);
      [done|by apply node_write, eng_removeElement_law, Hname|..|done].
    + intros mm Hm. by apply (cells_remove f).
    + done.
    + split; [|done]. by eapply (cells_remove f); [apply Hr|..].
  - destruct Hok as [Hid Hd].
    apply (moves_bind _ _ _ (Ops.on_edges (ORSet.add (EdgeAdd.key o) (EdgeAdd.dot o)) s) _ (λ _, True)).
    + eapply (frame_session_write _ _ _ id
        (ElementMap.add (EdgeAdd.key o) (Dot.encode (EdgeAdd.dot o))));
        [done|by apply edge_write, eng_add_law; [apply Hname|]|..].
      * done.
      * intros mm Hm. by apply (cells_add g).
      * split; [done|]. by eapply (cells_add g); [apply Hr|..].
      * by destruct Hown.
    + intros fr1 [] Hr1 _ _. apply (record_birth_eq _ (Ops.on_edges
        (ORSet.add (EdgeAdd.key o) (EdgeAdd.dot o)) s)); [done|done|by apply Hr|done].
  - destruct Hok as [Hid _]. apply observed_subset in Hcau.
    eapply (frame_session_write _ _ _ id (ElementMap.remove (WarpState.key_of (EdgeRemove.edge o)) _));
      [done|by apply edge_write, eng_removeElement_law, Hname|..|done].
    + done.
    + intros mm Hm. by apply (cells_remove g).
    + split; [done|]. by eapply (cells_remove g); [apply Hr|..].
  - apply set_register; [done|by apply Hval].
  - apply set_register; [done|by apply Hval].
  - by apply moves_ret.
Qed.

(** ** Outcomes *)

Lemma effective_removal_eq s e (l : list string) :
  DiffCalculator.owned s → forallb (ORSet.hasDot s e) l = true →
  ReceiptBuilder.hasEffectiveRemoval s (list_to_set l)
  = hasEffectiveRemoval (ORSet.getDots s e) l.
Proof.
  intros Ho Hl. apply eq_true_iff_eq. rewrite ReceiptBuilder.hasEffectiveRemoval_spec by done.
  unfold hasEffectiveRemoval. rewrite existsb_exists, forallb_forall in *. split.
  - intros (d & e' & Hd%elem_of_list_to_set & Ht & He'). exists d.
    apply list_elem_of_In in Hd. split; [done|]. apply bool_decide_eq_true.
    apply ORSet.elem_of_getDots. split; [|done]. by apply ORSet.hasDot_spec, Hl.
  - intros (d & Hd & Hin%bool_decide_eq_true). apply ORSet.elem_of_getDots in Hin as [? ?].
    exists d, e. split_and!; [|done|done]. by apply elem_of_list_to_set, list_elem_of_In.
Qed.

Lemma add_outcome_eq m s e dot :
  cells_match m s → ORSet.isTombstoned s (Dot.encode dot) = false →
  add_outcome e dot (ElementMap.live (ElementMap.at_ m e))
  = if ORSet.hasDot s e (Dot.encode dot) then OpRedundant e else OpApplied e.
Proof.
  intros Hm Ht%bool_decide_eq_false. unfold add_outcome. rewrite (proj1 (Hm e)), getDots_eq.
  destruct (ORSet.hasDot s e (Dot.encode dot)) eqn:Ed.
  - apply ORSet.hasDot_spec in Ed. rewrite decide_True by set_solver. done.
  - rewrite decide_False; [done|]. intros [Hd _]%elem_of_difference.
    apply ORSet.hasDot_spec in Hd. congruence.
Qed.

Lemma property_outcome_eq h fp s k ev :
  regs_match h fp (WarpState.prop s) →
  propertyOutcome fp k ev = ReceiptBuilder.propOutcomeForKey s k ev.
Proof.
  intros Hm. specialize (Hm k). unfold propertyOutcome, ReceiptBuilder.propOutcomeForKey,
    WarpState.getEncodedProp.
  destruct (fp !! k) as [r|], (WarpState.prop s !! k) as [r'|]; inversion Hm as [? ? [Ev _]|];
    subst; [|done]. by rewrite Ev.
Qed.

(** A dead dot added again is the one case in which the outcomes differ. *)
Lemma outcome_refines fr s o ev :
  frame_rel fr s → op_ok o → canonical o = true → (∀ e, op_element o = Some e → eng_names T W e) →
  causal_op o s = true → fresh_op o s = true →
  moves (computeOutcome o ev) fr s (λ out, out = outcome o s ev).
Proof.
  intros Hr Hok Hc Hname Hcau Hfr. pose proof (fr_owners _ _ Hr) as [On Oe _].
  destruct o as [o|o|o|o|o|o|o|o]; try done; simpl in *.
  - eapply moves_bind; [by eapply frame_session_read, node_read, eng_getDots_law, Hname|].
    intros fr1 dots Hr1 _ Hd. simpl in Hd. subst dots. apply moves_ret; [done|].
    apply add_outcome_eq; [apply Hr|by apply negb_true_iff].
  - eapply moves_bind; [by eapply frame_session_read, node_read, eng_getDots_law, Hname|].
    intros fr1 dots Hr1 _ Hd. simpl in Hd. subst dots. apply moves_ret; [done|].
    unfold remove_outcome, NodeRemove.outcome, ReceiptBuilder.nodeRemoveOutcome.
    rewrite (effective_removal_eq _ (NodeRemove.node o)) by (done || by apply (owned_by_owned f)).
    rewrite (proj1 (fr_nodes _ _ Hr _)).
    by rewrite (ident_nonempty _ (proj1 Hok) : ReceiptBuilder.isNonEmptyString (Some _) = true).
  - eapply moves_bind; [by eapply frame_session_read, edge_read, eng_getDots_law, Hname|].
    intros fr1 dots Hr1 _ Hd. simpl in Hd. subst dots. apply moves_ret; [done|].
    apply add_outcome_eq; [apply Hr|by apply negb_true_iff].
  - eapply moves_bind; [by eapply frame_session_read, edge_read, eng_getDots_law, Hname|].
    intros fr1 dots Hr1 _ Hd. simpl in Hd. subst dots. apply moves_ret; [done|].
    unfold remove_outcome, EdgeRemove.outcome, ReceiptBuilder.edgeRemoveOutcome,
      ReceiptBuilder.edgeRemoveTargetKey.
    rewrite (effective_removal_eq _ (WarpState.key_of (EdgeRemove.edge o)))
      by (done || by apply (owned_by_owned g)).
    rewrite (proj1 (fr_edges _ _ Hr _)). destruct Hok as [(Hf & Ht & Hl) _].
    by rewrite (ident_nonempty _ Hf), (ident_nonempty _ Ht), (ident_nonempty _ Hl).
  - exists fr. eexists. split; [done|]. split; [done|]. split; [done|].
    by rewrite (property_outcome_eq _ _ s _ _ (fr_prop _ _ Hr)).
  - exists fr. eexists. split; [done|]. split; [done|]. split; [done|].
    by rewrite (property_outcome_eq _ _ s _ _ (fr_prop _ _ Hr)).
  - apply moves_ret; [done|]. unfold BlobValue.outcome. by rewrite (proj2 Hok).
Qed.

Lemma fold_frontier_refines fr s p d :
  frame_rel fr s → patch_instances_valid p → frontier_delta p = Ok d →
  moves (foldPatchIntoFrame p) fr (WarpState.join s d) (λ _, True).
Proof.
  intros Hr Hp Hd. destruct (fold_patch_delta p d s Hp (fr_live _ _ Hr) Hd) as [Hf Hl].
  assert (∃ ctx, WarpState.context_vector (context p) = Ok ctx ∧ VersionVector.wf ctx) as (ctx & Hc & Hw).
  { unfold frontier_delta in Hd. invert_ok. exists a. split; [done|]. by apply (context_vector_wf p). }
  unfold fold_patch, WarpState.foldPatch in Hf. rewrite Hc in Hf.
  set (merged := VersionVector.merge (WarpState.observedFrontier s) ctx) in *.
  assert (VersionVector.wf merged) as Hm by (by apply VersionVector.vv_merge_wf; [apply Hr|]).
  unfold moves, foldPatchIntoFrame.
  assert (∃ c', (match context p with
     | Some (VersionVector.SVector vv) => Ok (VersionVector.clone vv)
     | Some src => VersionVector.from src
     | None => VersionVector.from (VersionVector.SObject [])
     end) = Ok c' ∧ VersionVector.merge (observedFrontier fr) c' = merged) as (c' & Ec & Em).
  { rewrite (fr_frontier _ _ Hr). unfold WarpState.context_vector in Hc.
    destruct (context p) as [[vv|l|l]|]; [|by exists ctx..].
    injection Hc as ->. by exists (VersionVector.clone ctx). }
  rewrite Ec. unfold lift, on_frontier, get, mbind, step_bind. rewrite Em.
  assert (observedFrontier fr = VersionVector.mk (VersionVector.entries (observedFrontier fr)) false) as Eo.
  { rewrite (fr_frontier _ _ Hr). destruct (fr_live _ _ Hr) as [_ Hfz].
    destruct (WarpState.observedFrontier s); simpl in *. by subst. }
  assert (for_each (λ '(w, c), VersionVector.set w (JInt c))
    (map_to_list (VersionVector.entries merged)) (observedFrontier fr) = (merged, Ok ())) as Hset.
  { rewrite Eo, set_all_ok.
    - f_equal. rewrite list_to_map_to_list, (fr_frontier _ _ Hr).
      replace (VersionVector.entries merged ∪ VersionVector.entries (WarpState.observedFrontier s))
        with (VersionVector.entries merged); [done|].
      apply map_eq. intros k. rewrite lookup_union.
      subst merged. rewrite VersionVector.lookup_merge.
      unfold VersionVector.at_. destruct (VersionVector.entries ctx !! k) as [c|];
        destruct (VersionVector.entries (WarpState.observedFrontier s) !! k); done.
    - apply NoDup_fst_map_to_list.
    - apply Forall_forall. intros [k c] Hin. apply elem_of_map_to_list in Hin. simpl.
      apply (Hm k c Hin). }
  rewrite Hset. fold merged in Hf. cbv beta zeta in Hf.
  pose proof (ws_join_live s d (fr_live _ _ Hr) Hl) as Hlive.
  destruct (jsnum_gtb _ _).
  - destruct (VersionVector.set (writer p) (lamport p) merged) as [vv r].
    apply pair_equal_spec in Hf as [E1 ->]. eexists _, (). split; [done|]. split; [|done].
    rewrite <- E1. rewrite <- E1 in Hlive. destruct Hr as [R1 R2 R3 R4 [O1 O2 O3] R6 R7 R8 R9].
    by split.
  - apply pair_equal_spec in Hf as [E1 _]. eexists _, (). split; [done|]. split; [|done].
    rewrite <- E1. rewrite <- E1 in Hlive. destruct Hr as [R1 R2 R3 R4 [O1 O2 O3] R6 R7 R8 R9].
    by split.
Qed.

(** ** Rounds and patches *)

Lemma session_op_prepare op o : prepare op = Ok o → session_op op = Ok o.
Proof.
  unfold prepare. intros Hp. invert_ok. by destruct op.
Qed.

(** What a round needs of its op. *)
Definition op_fits (h : heap) (op : raw_op) : Prop :=
  raw_valid op ∧ ∀ o, prepare op = Ok (Some o) → respects f g o ∧ op_given (eng_names T W) h o.

(** The receipt entries the mode asks for; the diff is not touched. *)
Definition receipt_mode (mode : ReplayMode) : bool :=
  match mode with WithReceipt => true | _ => false end.

(** What a run without a diff returns, against the in-memory run [m]. *)
Definition same_receipts (mode : ReplayMode) (df : PatchDiff.PatchDiff)
    (m : list TickReceipt.OpOutcome → step State (list TickReceipt.OpOutcome)) (s : State)
    (acc : list TickReceipt.OpOutcome)
    (a : PatchDiff.PatchDiff * list TickReceipt.OpOutcome) : Prop :=
  a.1 = df ∧ (mode = Fast → a.2 = acc) ∧ (mode = WithReceipt → (m acc s).2 = Ok a.2).

Lemma applied_round fr s p sha i o ev mode df acc :
  mode ≠ WithDiff → frame_rel fr s → op_ok o → canonical o = true → respects f g o →
  op_given (eng_names T W) (fheap fr) o → event_id p sha i = Ok ev → causal_op o s = true →
  (mode = WithReceipt → fresh_op o s = true) →
  moves (receiptOps' ← (match mode with
                        | WithReceipt =>
                            outcome ← computeOutcome o ev;
                            mret (acc ++ [toReceiptOutcome (receiptName o) outcome])
                        | _ => mret acc
                        end);
         before ← (match mode with WithDiff => snapshotForDiff o | _ => mret SNone end);
         _ ← mutateInSession o ev;
         diff' ← (match mode with WithDiff => accumulateDiff df before | _ => mret df end);
         mret (diff', receiptOps')) fr (mutate o ev s).1
    (λ a, a.1 = df ∧ (mode = Fast → a.2 = acc) ∧
          (mode = WithReceipt → a.2 = acc ++ [receipt_entry o (outcome o s ev)])).
Proof.
  intros Hmode Hr Hok Hc Hres Hv Hev Hcau Hfr.
  apply (moves_bind _ _ _ s _ (λ l, (mode = Fast → l = acc) ∧
    (mode = WithReceipt → l = acc ++ [receipt_entry o (outcome o s ev)]))).
  { destruct mode; [by apply moves_ret|done|].
    eapply moves_bind; [by apply outcome_refines; [done..|apply Hv|done|apply Hfr]|].
    intros fr1 out Hr1 _ ->. by apply moves_ret. }
  intros fr1 l Hr1 Hh1 [Hl1 Hl2].
  apply (moves_bind _ _ _ s _ (λ _, True)); [destruct mode; [by apply moves_ret|done|by apply moves_ret]|].
  intros fr2 before Hr2 Hh2 _.
  eapply moves_bind.
  { apply mutate_refines; try done. apply (op_given_mono _ (fheap fr)); [by etrans|done]. }
  intros fr3 [] Hr3 _ _.
  apply (moves_bind _ _ _ (mutate o ev s).1 _ (λ d, d = df)); [destruct mode; [by apply moves_ret|done|by apply moves_ret]|].
  intros fr4 d Hr4 _ ->. by apply moves_ret.
Qed.

Lemma round_refines mode p sha iop d fr s df acc :
  mode ≠ WithDiff → frame_rel fr s → op_fits (fheap fr) iop.2 → op_delta p sha iop = Ok d →
  round_holds causal_op iop s = true →
  (mode = WithReceipt → round_holds fresh_op iop s = true) →
  moves (session_round mode p sha (df, acc) iop) fr (fast_round p sha iop s).1
    (same_receipts mode df (λ acc, receipt_round p sha acc iop) s acc).
Proof.
  intros Hm Hr [Hv Hfit] Hd Hcau Hfr. pose proof (fr_live _ _ Hr) as Hlive.
  destruct iop as [i op]. cbn [snd] in *. unfold round_holds in *. cbn [snd] in *.
  destruct op as [|b|r]; [|done|].
  { apply moves_ret; [done|]. split; [done|]. by split; intros _. }
  pose proof (fast_round_delta p sha (i, RObject r) d s Hv Hlive Hd) as Hfast.
  unfold op_delta in Hd. invert_ok. pose proof (session_op_prepare _ _ Ha) as Es.
  rewrite Ha in Hcau, Hfr.
  unfold session_round. rewrite Es.
  eapply moves_bind; [by apply moves_lift|].
  intros fr1 canon Hr1 Hh1 Hcanon. simpl in Hcanon. subst canon.
  destruct a as [o|].
  - invert_ok. subst d. destruct (Hfit o Ha) as [Hres Hval].
    destruct (prepare_canonical _ o Hv Ha) as [Hok Hc].
    rewrite Ha0. eapply moves_bind; [by apply moves_lift|].
    intros fr2 ev Hr2 Hh2 Hev. simpl in Hev. subst ev.
    rewrite Hfast. rewrite <- mutate_delta by done.
    destruct (applied_round fr2 s p sha i o a mode df acc Hm Hr2 Hok Hc Hres)
      as (fr3 & out & E3 & R3 & H3 & P1 & P2 & P3); [|done|done|done|].
    { apply (op_given_mono _ (fheap fr)); [by etrans|done]. }
    exists fr3, out. split; [exact E3|]. split; [done|]. split; [done|].
    split; [done|]. split; [done|]. intros Hrm. rewrite (P3 Hrm).
    unfold receipt_round, lift, get, mret, step_ret, mbind, step_bind. rewrite Ha, Ha0.
    rewrite mutate_delta by done.
    destruct (receipt_entry_valid o s a Hok Hc) as [_ Hin].
    by rewrite bool_decide_eq_true_2.
  - injection Hd as <-. rewrite Hfast. cbn [fst].
    assert (WarpState.join s bottom = s) as -> by (symmetry; exact (joins_join s [] Hlive (Forall_nil_2 _))).
    apply moves_ret; [done|]. split; [done|]. split; [done|]. intros _.
    unfold receipt_round, lift, mbind, step_bind. by rewrite Ha.
Qed.

Lemma op_fits_mono h h' op : h ⊆ h' → op_fits h op → op_fits h' op.
Proof.
  intros Hh [Hv Hf]. split; [done|]. intros o Ho. destruct (Hf o Ho). split; [done|].
  by apply (op_given_mono _ h).
Qed.

Lemma ops_refine mode p sha l ds fr s df acc :
  mode ≠ WithDiff → frame_rel fr s → Forall (λ iop, op_fits (fheap fr) iop.2) l →
  map_result (op_delta p sha) l = Ok ds → ops_hold causal_op p sha l s = true →
  (mode = WithReceipt → ops_hold fresh_op p sha l s = true) →
  moves (for_fold (session_round mode p sha) l (df, acc)) fr
    (for_each (fast_round p sha) l s).1
    (same_receipts mode df (λ acc, for_fold (receipt_round p sha) l acc) s acc).
Proof.
  intros Hm. revert ds fr s acc. induction l as [|iop l IH]; intros ds fr s acc Hr Hfit Hds Hc Hf;
    cbn [for_fold for_each].
  - apply moves_ret; [done|]. split; [done|]. by split.
  - apply Forall_cons in Hfit as [Hfit1 Hfit]. cbn [map_result] in Hds. invert_ok. subst ds.
    cbn [ops_hold] in *. apply andb_true_iff in Hc as [Hc1 Hc].
    assert (mode = WithReceipt → round_holds fresh_op iop s = true ∧
      ops_hold fresh_op p sha l (fast_round p sha iop s).1 = true) as Hf'.
    { intros Hrm. by apply andb_true_iff, Hf. }
    pose proof (fast_round_delta p sha iop a s (proj1 Hfit1) (fr_live _ _ Hr) Ha) as Hfast.
    rewrite Hfast in Hc, Hf'.
    destruct (round_refines mode p sha iop a fr s df acc Hm Hr Hfit1 Ha Hc1)
      as (fr1 & a1 & E1 & R1 & H1' & Q1 & Q2 & Q3); [naive_solver|].
    rewrite Hfast in R1. cbn [fst] in *. destruct a1 as [df1 acc1]. simpl in Q1. subst df1.
    unfold mbind, step_bind. rewrite Hfast.
    destruct (IH a0 fr1 (WarpState.join s a) acc1 R1) as (fr2 & a2 & E2 & R2 & H2' & P1 & P2 & P3);
      [|done|done|naive_solver|].
    { eapply Forall_impl; [exact Hfit|]. intros x. by apply op_fits_mono. }
    exists fr2, a2. rewrite E1, E2. split; [done|]. split; [done|]. split; [by etrans|].
    split; [done|]. split.
    + intros Hfa. rewrite (P2 Hfa). by apply Q2.
    + intros Hrm. specialize (P3 Hrm). specialize (Q3 Hrm). simpl in Q3.
      destruct (receipt_round_same p sha acc iop s) as [Est _]. rewrite Hfast in Est.
      unfold mbind, step_bind. destruct (receipt_round p sha acc iop s) as [s1 r1].
      simpl in *. by subst.
Qed.

(** What the run needs of a patch. *)
Record patch_fits (h : heap) (p : PatchLike) (sha : string) (d : State) : Prop := {
  pf_valid : patch_instances_valid p;
  pf_sha : str_nonempty sha = true;
  pf_denotes : denote p sha = Ok d;
  pf_ops : Forall (op_fits h) (ops p) }.

Lemma patch_fits_mono h h' p sha d : h ⊆ h' → patch_fits h p sha d → patch_fits h' p sha d.
Proof.
  intros Hh []. split; try done. eapply Forall_impl; [done|]. intros x. by apply op_fits_mono.
Qed.

Lemma patch_refines mode p sha d fr s :
  mode ≠ WithDiff → frame_rel fr s → patch_fits (fheap fr) p sha d →
  ops_hold causal_op p sha (indexed (ops p)) s = true →
  (mode = WithReceipt → ops_hold fresh_op p sha (indexed (ops p)) s = true) →
  moves (applyPatchInSession p sha mode) fr (WarpState.join s d)
    (λ r, mode = WithReceipt → applyWithReceipt p sha s = (WarpState.join s d, Ok r.2)).
Proof.
  intros Hm Hr [Hp Hsha Hden Hfit] Hc Hf. pose proof (fr_live _ _ Hr) as Hlive.
  destruct (applyFast_denote p sha d s Hp Hlive Hden) as [Hfast _].
  unfold denote in Hden. destruct (deltas p sha) as [ds|] eqn:E; [|done].
  injection Hden as Hd. pose proof (deltas_live p sha ds Hp E) as Hdl.
  unfold deltas in E. invert_ok. subst ds. apply Forall_app in Hdl as [Hal Hfl].
  destruct (for_each_deltas p sha (indexed (ops p)) a s (indexed_valid _ (proj1 Hp)) Hlive Ha)
    as [Hfe _].
  destruct (receipt_fold_valid p sha (indexed (ops p)) [] s a (indexed_valid _ (proj1 Hp)) Hlive Ha)
    as (racc & Efold & Vacc & _); [constructor|].
  destruct (fold_patch_delta p a0 (joins s a) Hp) as [Ef _]; [by apply joins_live|done|].
  assert (WarpState.join s d = WarpState.join (joins s a) a0) as Ejoin.
  { rewrite <- Hd, <- joins_join by (done || by apply Forall_app). by rewrite joins_app. }
  rewrite Ejoin. unfold applyPatchInSession.
  eapply moves_bind.
  { eapply ops_refine; [done|exact Hr| |exact Ha|done|done].
    apply (proj1 (Forall_fmap snd (op_fits (fheap fr)) _)). by rewrite indexed_snd. }
  intros fr1 [df acc] Hr1 Hh1 (Q1 & Q2 & Q3). simpl in *. subst df. rewrite Hfe in Hr1. simpl in Hr1.
  eapply moves_bind; [by apply fold_frontier_refines|]. intros fr2 [] Hr2 _ _.
  eapply moves_bind; [by apply moves_lift|]. intros fr3 df Hr3 _ _.
  unfold frontier_delta in Ha0. invert_ok. destruct a2. apply require_ok in Ha2.
  destruct (int_at_least 0 (lamport p)) as [l|] eqn:El; [|done].
  assert (Forall (λ e, TickReceipt.validateOp e = Ok ()) acc) as Vacc'.
  { destruct mode; [by rewrite Q2|done|]. specialize (Q3 eq_refl). rewrite Efold in Q3.
    simpl in Q3. by injection Q3 as <-. }
  assert (TickReceipt.createTickReceipt sha (writer p) (lamport p) acc
    = Ok (TickReceipt.mk sha (writer p) l (TickReceipt.freezeOps acc))) as Erec.
  { unfold TickReceipt.createTickReceipt, TickReceipt.new, TickReceipt.assertNonNegativeInt.
    rewrite Hsha, Ha2, El. simpl. by rewrite assertOpsArray_ok. }
  rewrite Erec. eapply moves_bind; [by apply moves_lift|]. intros fr4 rec Hr4 _ Hrec.
  simpl in Hrec. subst rec. apply moves_ret; [done|]. intros Hrm. specialize (Q3 Hrm).
  rewrite Efold in Q3. simpl in Q3. injection Q3 as ->.
  unfold applyWithReceipt, mbind, step_bind, lift. by rewrite Efold, Ef, Erec.
Qed.

(** ** Sequences of patches *)

Definition run_fits (h : heap) (ps : list sha_patch) (ds : list State) : Prop :=
  Forall2 (λ '(p, sha) d, patch_fits h p sha d) ps ds.

Lemma run_fits_mono h h' ps ds : h ⊆ h' → run_fits h ps ds → run_fits h' ps ds.
Proof.
  intros Hh Hf. eapply Forall2_impl; [exact Hf|]. intros [p sha] d. by apply patch_fits_mono.
Qed.

Lemma run_fast_refines ps ds fr s :
  frame_rel fr s → run_fits (fheap fr) ps ds → run_holds causal_op ps s = true →
  moves (for_each (λ '(p, sha), applyFastInSession p sha) ps) fr (joins s ds) (λ _, True).
Proof.
  intros Hr Hf. revert fr s Hr Hf. induction ps as [|[p sha] ps IH] in ds |- *;
    intros fr s Hr Hf Hc; inversion Hf as [|? d ? ds' Hd Hds]; subst; cbn [for_each].
  - by apply moves_ret.
  - cbn [run_holds] in Hc. apply andb_true_iff in Hc as [Hc1 Hc].
    destruct (applyFast_denote p sha d s (pf_valid _ _ _ _ Hd) (fr_live _ _ Hr)
      (pf_denotes _ _ _ _ Hd)) as [Efast _]. rewrite Efast in Hc.
    eapply moves_bind.
    { unfold applyFastInSession. eapply moves_bind; [by apply patch_refines|].
      intros fr1 a Hr1 _ _. by apply (moves_ret _ _ _ (λ _, True)). }
    intros fr1 [] Hr1 Hh1 _. apply (IH ds' fr1 (WarpState.join s d)); [done| |done].
    by apply (run_fits_mono (fheap fr)).
Qed.

Definition push_receipts (acc : list TickReceipt.TickReceipt) : sha_patch →
    step State (list TickReceipt.TickReceipt) :=
  λ '(p, sha), r ← applyWithReceipt p sha; mret (acc ++ [r]).

Lemma run_receipts_refines ps ds fr s acc :
  frame_rel fr s → run_fits (fheap fr) ps ds → run_holds causal_op ps s = true →
  run_holds fresh_op ps s = true →
  moves (for_fold (λ acc '(p, sha), r ← applyWithReceiptInSession p sha; mret (acc ++ [r])) ps acc)
    fr (joins s ds) (λ rs, for_fold push_receipts ps acc s = (joins s ds, Ok rs)).
Proof.
  intros Hr Hf. revert fr s acc Hr Hf. induction ps as [|[p sha] ps IH] in ds |- *;
    intros fr s acc Hr Hf Hc Hfr; inversion Hf as [|? d ? ds' Hd Hds]; subst; cbn [for_fold].
  - by apply moves_ret.
  - cbn [run_holds] in *. apply andb_true_iff in Hc as [Hc1 Hc], Hfr as [Hfr1 Hfr].
    destruct (applyFast_denote p sha d s (pf_valid _ _ _ _ Hd) (fr_live _ _ Hr)
      (pf_denotes _ _ _ _ Hd)) as [Efast _]. rewrite Efast in Hc, Hfr.
    apply (moves_bind _ _ _ (WarpState.join s d) _
      (λ a, push_receipts acc (p, sha) s = (WarpState.join s d, Ok a))).
    { unfold applyWithReceiptInSession.
      apply (moves_bind _ _ _ (WarpState.join s d) _
        (λ r, applyWithReceipt p sha s = (WarpState.join s d, Ok r))).
      - eapply moves_bind; [by apply (patch_refines WithReceipt)|].
        intros fr1 a Hr1 _ Ha. apply moves_ret; [done|]. by apply Ha.
      - intros fr1 r Hr1 _ Er. apply moves_ret; [done|].
        unfold push_receipts, mbind, step_bind. by rewrite Er. }
    intros fr1 a Hr1 Hh1 Ea.
    destruct (IH ds' fr1 (WarpState.join s d) a Hr1) as (fr2 & rs & E2 & R2 & H2' & P2);
      [by apply (run_fits_mono (fheap fr))|done|done|].
    exists fr2, rs. split; [done|]. split; [done|]. split; [done|].
    unfold mbind, step_bind. by rewrite Ea.
Qed.

Lemma reduce_receipts_eq ps : reduce_receipts ps = for_fold push_receipts ps [].
Proof. done. Qed.

Lemma run_fits_denotes h ps ds : run_fits h ps ds → patches_valid ps ∧ denotes ps = Ok ds.
Proof.
  induction 1 as [|[p sha] d ps ds [Hp _ Hd _] _ [IH1 IH2]]; [split; [constructor|done]|].
  split; [by constructor|]. unfold denotes in *. cbn [map_result]. by rewrite Hd, IH2.
Qed.
End refinement.
Arguments op_fits T W {_} f g h op.
Arguments patch_fits T W {_} f g h p sha d.
Arguments run_fits T W {_} f g h ps ds.

(** ** Properties *)

(** C11. On causally delivered patches the session-backed reducer computes the
    in-memory state: over any lawful engines, from a frame that matches a
    state, [reducePatchesInSession] returns, [reducePatches] returns, and the
    resulting frame matches the resulting state: same live and dead dots of
    every node and edge, same events and copies of the same values in every
    register, same frontier and same edge births. *)
Theorem session_reducer_refines {T W} `{EngineLaws T W} `{Workspace W} (f g : string → string)
    (ps : list sha_patch) (ds : list State) (fr : @ReducerSessionFrame T W) (s : State) :
  frame_rel f g fr s → run_fits T W f g (fheap fr) ps ds → run_holds causal_op ps s = true →
  ∃ fr' s', reducePatchesInSession ps None fr = (fr', Ok SRFrame) ∧
    reducePatches ps (Some (inl s)) None = Ok (RState s') ∧
    frame_rel f g fr' s' ∧
    (∀ n, ElementMap.contains (node_view (session fr')) n
          = ORSet.contains (WarpState.nodeAlive s') n) ∧
    (∀ k, ElementMap.contains (edge_view (session fr')) k
          = ORSet.contains (WarpState.edgeAlive s') k).
Proof.
  intros Hr Hf Hc. pose proof (fr_live _ _ _ _ Hr) as Hs.
  destruct (run_fast_refines f g ps ds fr s Hr Hf Hc) as (fr' & [] & E & R & _ & _).
  destruct (run_fits_denotes _ _ _ _ _ Hf) as [Hv Hd].
  exists fr', (joins s ds). split_and!; [| |done|..].
  - unfold reducePatchesInSession, mbind, step_bind. by rewrite E.
  - unfold reducePatches, cloneState, WarpState.cloneFromSnapshot. rewrite clone_live by done.
    unfold finish. by rewrite (proj1 (reduce_fast_denotes ps ds s Hv Hs Hd)).
  - intros n. apply cells_contains, R.
  - intros k. apply cells_contains, R.
Qed.

(** The receipts of a causally delivered session replay are the in-memory
    receipts, entry by entry, provided no add carries a dot that is already
    dead (a redelivered patch would: its receipt says "applied" instead of
    "redundant"). *)
Theorem session_receipts_agree {T W} `{EngineLaws T W} `{Workspace W} (f g : string → string)
    (ps : list sha_patch) (ds : list State) (fr : @ReducerSessionFrame T W) (s : State) :
  frame_rel f g fr s → run_fits T W f g (fheap fr) ps ds →
  run_holds causal_op ps s = true → run_holds fresh_op ps s = true →
  ∃ fr' s' rs,
    reducePatchesInSession ps (Some (ReduceOptions true false)) fr = (fr', Ok (SRReceipts rs)) ∧
    reducePatches ps (Some (inl s)) (Some (ReduceOptions true false)) = Ok (RReceipts s' rs) ∧
    frame_rel f g fr' s'.
Proof.
  intros Hr Hf Hc Hfr. pose proof (fr_live _ _ _ _ Hr) as Hs.
  destruct (run_receipts_refines f g ps ds fr s [] Hr Hf Hc Hfr) as (fr' & rs & E & R & _ & P).
  exists fr', (joins s ds), rs. split_and!; [| |done].
  - cbn [reducePatchesInSession]. by rewrite (step_bind_ok _ _ _ _ _ E).
  - unfold reducePatches, cloneState, WarpState.cloneFromSnapshot. rewrite clone_live by done.
    unfold finish. by rewrite reduce_receipts_eq, P.
Qed.

(** ** A causal sample run *)

Definition dot_owner (d : string) : string := if decide (d = "a:1") then "n1" else "n2".
Definition causal_patches : list sha_patch :=
  [(Patch "a" (JInt 1) [decoded (ONodeAdd (NodeAdd.mk "n1" (Dot.mk "a" 1)));
                        decoded (ONodeAdd (NodeAdd.mk "n2" (Dot.mk "a" 2)));
                        decoded (ONodePropSet (NodePropSet.mk "n1" "name" (JStr "Ann")))] None, "aaaa");
   (Patch "b" (JInt 2) [decoded (ONodeRemove (NodeRemove.mk "n1" ["a:1"]))]
      (Some (VersionVector.SObject [("a", JInt 1)])), "bbbb")].
Definition causal_deltas : list State :=
  match denotes causal_patches with Ok ds => ds | Throw _ => [] end.
Definition sample_frame : @ReducerSessionFrame ReferenceEngine.engine unit :=
  Frame (ReferenceEngine.fresh 2) ∅ VersionVector.empty ∅ ∅.

(** A frame over a session without elements matches the empty state. *)
Lemma empty_frame_rel {T W} `{EngineLaws T W} `{Workspace W} f g (ss : StateSession.StateSession T W) :
  session_ok ss → node_view ss = ∅ → edge_view ss = ∅ →
  frame_rel f g (Frame ss ∅ VersionVector.empty ∅ ∅) bottom.
Proof.
  intros Hok Vn Ve. assert (∀ e, ORSet.dots_of ORSet.empty e = ∅) as Hd by done.
  assert (cells_match ∅ ORSet.empty) as Hc.
  { intros e. rewrite getDots_eq, Hd. unfold ElementMap.at_. rewrite lookup_empty. simpl.
    split; set_solver. }
  assert (∀ o, owned_by o ORSet.empty) as Ho by (intros o e d; rewrite Hd; set_solver).
  split; simpl; rewrite ?Vn, ?Ve; try done.
  intros k. rewrite !lookup_empty. constructor.
Qed.

Lemma sample_frame_rel : frame_rel dot_owner (λ _, "") sample_frame bottom.
Proof. by apply empty_frame_rel; [apply ReferenceEngine.fresh_ok|..]. Qed.

(** The sample patches fit every engine that knows their nodes. *)
Lemma causal_fits_names {T W} `{EngineModel T W} :
  eng_names T W "n1" → eng_names T W "n2" →
  run_fits T W dot_owner (λ _, "") ∅ causal_patches causal_deltas.
Proof.
  intros N1 N2.
  assert (∀ p sha d, denote p sha = Ok d → str_nonempty sha = true →
    patch_instances_valid p →
    Forall (λ op, match prepare op with
                  | Ok (Some (ONodeAdd o)) => dot_owner (Dot.encode (NodeAdd.dot o)) = NodeAdd.node o ∧
                      eng_names T W (NodeAdd.node o)
                  | Ok (Some (ONodeRemove o)) => eng_names T W (NodeRemove.node o)
                  | Ok (Some (ONodePropSet o)) => NodePropSet.value o = JStr "Ann"
                  | _ => False
                  end) (ops p) →
    patch_fits T W dot_owner (λ _, "") ∅ p sha d) as Hfit.
  { intros p sha d Hd Hsha Hv Hops. split; [done|done|done|].
    destruct Hv as [Hv _]. rewrite Forall_forall in *. intros op Hin. split; [by apply Hv|].
    intros o Ho. specialize (Hops op Hin). rewrite Ho in Hops.
    destruct o; try done; (split; [naive_solver|]); split; try done; intros v [= <-]; try naive_solver.
    rewrite Hops. exists 1%nat. by apply pt_scalar. }
  assert (denotes causal_patches = Ok causal_deltas) as Hd by (vm_compute; reflexivity).
  revert Hd. generalize causal_deltas. intros ds Hd. apply map_result_ok in Hd.
  apply Forall2_cons_inv_l in Hd as (d1 & ? & E1 & Hd & ->).
  apply Forall2_cons_inv_l in Hd as (d2 & ? & E2 & Hd & ->).
  apply Forall2_nil_inv_l in Hd as ->.
  repeat apply Forall2_cons_2; [| |constructor]; (apply Hfit; [done|done| |]).
  all: try (split; [|exact I]); repeat apply Forall_cons_2; try apply Forall_nil_2; done.
Qed.

Lemma causal_fits : run_fits ReferenceEngine.engine unit dot_owner (λ _, "") ∅ causal_patches causal_deltas.
Proof. by apply causal_fits_names. Qed.

Lemma session_reducer_refines_witness :
  run_holds causal_op causal_patches bottom = true ∧
  ElementMap.contains (node_view (session
    (reducePatchesInSession causal_patches None sample_frame).1)) "n1" = false ∧
  ∃ fr' s', reducePatchesInSession causal_patches None sample_frame = (fr', Ok SRFrame) ∧
    frame_rel dot_owner (λ _, "") fr' s'.
Proof.
  split; [vm_compute; reflexivity|]. split; [vm_compute; reflexivity|].
  destruct (session_reducer_refines dot_owner (λ _, "") causal_patches causal_deltas
    sample_frame bottom sample_frame_rel causal_fits) as (fr' & s' & E & _ & R & _).
  - vm_compute; reflexivity.
  - exists fr', s'. split; [exact E|exact R].
Defined.

Lemma session_receipts_agree_witness :
  run_holds fresh_op causal_patches bottom = true ∧
  ∃ fr' s' rs,
    reducePatchesInSession causal_patches (Some (ReduceOptions true false)) sample_frame
      = (fr', Ok (SRReceipts rs)) ∧
    reducePatches causal_patches (Some (inl bottom)) (Some (ReduceOptions true false))
      = Ok (RReceipts s' rs) ∧
    frame_rel dot_owner (λ _, "") fr' s'.
Proof.
  split; [vm_compute; reflexivity|].
  apply (session_receipts_agree dot_owner (λ _, "") causal_patches causal_deltas sample_frame bottom
    sample_frame_rel causal_fits); vm_compute; reflexivity.
Defined.
