(* ===== verification/SessionLiveness.v ===== *)
(** Liveness replay: [applyLivenessInSession] of services/JoinReducerSession.ts
    replays only the node and edge sets of a patch. It makes exactly the session
    calls of [applyFastInSession], over any engines, hence computes the
    in-memory liveness on causally delivered patches; and what it computes when
    a removal arrives before the add it observed. *)
From S2P Require Export SessionRefinement.
Import OpNormalizer JoinReducer PropValue StateSession SessionReducer.

(** No element of the patch is [undefined], which only the frame reducer skips. *)
Definition no_undefined (p : PatchLike) : Prop := Forall (λ op, op ≠ RUndefined) (ops p).

(** Replaying the liveness of a sequence of patches. *)
Definition replay_liveness {T W} `{Engine T W} `{Workspace W} (ps : list sha_patch)
  : step (StateSession.StateSession T W) unit :=
  for_each (λ '(p, _), applyLivenessInSession p) ps.

Section projection.
Context {T W : Type} `{Engine T W} `{Workspace W}.
#[local] Abbreviation frame := (@ReducerSessionFrame T W).

Lemma on_session_ok {A} (m : step (StateSession.StateSession T W) A) (fr fr' : frame) a :
  on_session m fr = (fr', Ok a) → m (session fr) = (session fr', Ok a).
Proof. unfold on_session. destruct (m (session fr)) as [s r]. by intros [= <- <-]. Qed.

(** The call leaves the session alone. *)
Definition keeps_session {A} (m : step frame A) : Prop :=
  ∀ fr, session (m fr).1 = session fr.

Lemma keeps_session_bind {A B} (m : step frame A) (k : A → step frame B) :
  keeps_session m → (∀ a, keeps_session (k a)) → keeps_session (m ≫= k).
Proof.
  intros Hm Hk fr. specialize (Hm fr). unfold mbind, step_bind.
  destruct (m fr) as [fr1 [a|e]]; [|done]. by rewrite Hk.
Qed.

Lemma keeps_session_lift {A} (r : result A) : keeps_session (lift r).
Proof. done. Qed.

Lemma keeps_session_heap {A} (m : step heap A) : keeps_session (on_heap m).
Proof. intros fr. unfold on_heap. by destruct (m (fheap fr)). Qed.

Lemma keeps_session_frontier {A} (m : step VersionVector.VersionVector A) :
  keeps_session (on_frontier m).
Proof. intros fr. unfold on_frontier. by destruct (m (observedFrontier fr)). Qed.

Lemma set_property_session k ev v : keeps_session (setProperty k ev v).
Proof. apply keeps_session_bind; [apply keeps_session_heap|done]. Qed.

Lemma fold_frontier_session p : keeps_session (foldPatchIntoFrame p).
Proof.
  apply keeps_session_bind; [apply keeps_session_lift|]. intros vv. apply keeps_session_frontier.
Qed.

Lemma keeps_session_ok {A} (m : step frame A) fr fr' (a : A) :
  keeps_session m → m fr = (fr', Ok a) → session fr' = session fr.
Proof. intros Hm E. specialize (Hm fr). by rewrite E in Hm. Qed.

Lemma mutate_projects o ev (fr fr' : frame) :
  mutateInSession o ev fr = (fr', Ok ()) → liveness_call o (session fr) = (session fr', Ok ()).
Proof.
  destruct o; simpl; try apply on_session_ok.
  - unfold mbind, step_bind. destruct (on_session _ fr) as [fr1 [[]|e]] eqn:E; [|done].
    apply on_session_ok in E. rewrite E. by intros [= <-].
  - intros E. by rewrite (keeps_session_ok _ _ _ _ (set_property_session _ _ _) E).
  - intros E. by rewrite (keeps_session_ok _ _ _ _ (set_property_session _ _ _) E).
  - intros E. by rewrite (keeps_session_ok _ _ _ _ (set_property_session _ _ _) E).
  - by intros [= <-].
Qed.

Lemma liveness_round_eq op : op ≠ RUndefined →
  liveness_round op =
    (canonOp ← lift (session_op op);
     match canonOp with Some o => liveness_call o | None => mret () end).
Proof. by destruct op. Qed.

Lemma rounds_project p sha l acc acc' (fr fr' : frame) :
  Forall (λ iop : Z * raw_op, iop.2 ≠ RUndefined) l →
  for_fold (session_round Fast p sha) l acc fr = (fr', Ok acc') →
  for_each liveness_round l.*2 (session fr) = (session fr', Ok ()).
Proof.
  intros Hl. revert fr acc. induction Hl as [|[i op] l Hop Hl IH]; intros fr [df acc]; simpl.
  - by intros [= <- _].
  - rewrite (liveness_round_eq op Hop). unfold mbind, step_bind, lift.
    destruct (session_op op) as [[o|]|e]; [..|done]; simpl.
    + destruct (event_id p sha i) as [ev|e]; [|done]. simpl.
      destruct (mutateInSession o ev fr) as [fr1 [[]|e]] eqn:E; [|done]. simpl.
      rewrite (mutate_projects o ev fr fr1 E). apply IH.
    + apply IH.
Qed.

Lemma liveness_projects p sha (fr fr' : frame) :
  no_undefined p → applyFastInSession p sha fr = (fr', Ok ()) →
  applyLivenessInSession p (session fr) = (session fr', Ok ()).
Proof.
  intros Hp. unfold applyFastInSession, applyPatchInSession.
  unfold mbind at 1, step_bind at 1. unfold mbind at 1, step_bind at 1.
  destruct (for_fold _ _ _ fr) as [fr1 [acc|e]] eqn:E; [|done].
  apply rounds_project in E; [|by apply (proj1 (Forall_fmap snd (λ op, op ≠ RUndefined) _));
    rewrite indexed_snd]. rewrite indexed_snd in E. unfold applyLivenessInSession. rewrite E.
  unfold mbind, step_bind.
  destruct (foldPatchIntoFrame p fr1) as [fr2 [[]|e]] eqn:E2; [|done].
  rewrite <- (keeps_session_ok _ _ _ _ (fold_frontier_session _) E2). unfold lift.
  destruct (PatchDiff.of_accumulator acc.1); [|done].
  destruct (TickReceipt.createTickReceipt _ _ _ _); [|done]. by intros [= <-].
Qed.

Lemma replay_projects ps (fr fr' : frame) :
  Forall (λ '(p, _), no_undefined p) ps →
  for_each (λ '(p, sha), applyFastInSession p sha) ps fr = (fr', Ok ()) →
  replay_liveness ps (session fr) = (session fr', Ok ()).
Proof.
  intros Hps. unfold replay_liveness. revert fr.
  induction Hps as [|[p sha] ps Hp Hps IH]; intros fr; cbn [for_each].
  - by intros [= <-].
  - unfold mbind, step_bind. destruct (applyFastInSession p sha fr) as [fr1 [[]|e]] eqn:E; [|done].
    rewrite (liveness_projects p sha fr fr1 Hp E). apply IH.
Qed.
(** A patch of one op makes one call. *)
Lemma replay_one w l op ctx sha o ps (s s' : StateSession.StateSession T W) :
  op ≠ RUndefined → session_op op = Ok (Some o) → liveness_call o s = (s', Ok ()) →
  replay_liveness ((Patch w l [op] ctx, sha) :: ps) s = replay_liveness ps s'.
Proof.
  intros Hop Ho Hs. unfold replay_liveness. cbn [for_each]. erewrite step_bind_ok; [done|].
  unfold applyLivenessInSession. cbn [for_each JoinReducer.ops]. rewrite liveness_round_eq by done.
  unfold mbind, step_bind, lift. rewrite Ho, Hs. done.
Qed.
End projection.

(** ** Properties *)

(** Replaying only the liveness of causally delivered patches shows the
    visible nodes and edges of the in-memory reducer: over any lawful engines,
    the replay returns and a node or edge is alive in the session exactly when
    it is alive in the reduced state. *)
Theorem liveness_replay_refines {T W} `{EngineLaws T W} `{Workspace W} (f g : string → string)
    (ps : list sha_patch) (ds : list State) (fr : @ReducerSessionFrame T W) (s : State) :
  frame_rel f g fr s → run_fits T W f g (fheap fr) ps ds → run_holds causal_op ps s = true →
  Forall (λ '(p, _), no_undefined p) ps →
  ∃ ss' s', replay_liveness ps (session fr) = (ss', Ok ()) ∧
    reducePatches ps (Some (inl s)) None = Ok (RState s') ∧
    (∀ n, ElementMap.contains (node_view ss') n = ORSet.contains (WarpState.nodeAlive s') n) ∧
    (∀ k, ElementMap.contains (edge_view ss') k = ORSet.contains (WarpState.edgeAlive s') k).
Proof.
  intros Hr Hf Hc Hu. pose proof (fr_live _ _ _ _ Hr) as Hs.
  destruct (run_fast_refines f g ps ds fr s Hr Hf Hc) as (fr' & [] & E & R & _ & _).
  destruct (run_fits_denotes _ _ _ _ _ Hf) as [Hv Hd].
  exists (session fr'), (joins s ds). split_and!.
  - by apply replay_projects.
  - unfold reducePatches, cloneState, WarpState.cloneFromSnapshot. rewrite clone_live by done.
    unfold finish. by rewrite (proj1 (reduce_fast_denotes ps ds s Hv Hs Hd)).
  - intros n. apply cells_contains, R.
  - intros k. apply cells_contains, R.
Qed.

(** Writer [b] adds a node that writer [a] removes. *)
Definition patch_adds : sha_patch :=
  (Patch "b" (JInt 1) [decoded (ONodeAdd (NodeAdd.mk "n" (Dot.mk "b" 1)))] None, "bbbb").
Definition patch_removes : sha_patch :=
  (Patch "a" (JInt 2) [decoded (ONodeRemove (NodeRemove.mk "n" ["b:1"]))]
     (Some (VersionVector.SObject [("b", JInt 1)])), "aaaa").

(** C25. Liveness replay depends on the order of the patches where the reducer
    does not: over any lawful engines, in a session that does not know node
    ["n"], the removal that observed its add makes it dead when it is replayed
    after the add, and is lost when it is replayed before it, while
    [reducePatches] leaves ["n"] dead in either order. *)
Theorem session_resurrects_removed_node {T W} `{EngineLaws T W} `{Workspace W}
    (ss : StateSession.StateSession T W) :
  session_ok ss → eng_names T W "n" → node_view ss !! "n" = None →
  (∃ ss', replay_liveness [patch_adds; patch_removes] ss = (ss', Ok ()) ∧
     ElementMap.contains (node_view ss') "n" = false) ∧
  (∃ ss', replay_liveness [patch_removes; patch_adds] ss = (ss', Ok ()) ∧
     ElementMap.contains (node_view ss') "n" = true) ∧
  (∃ s, reducePatches [patch_adds; patch_removes] None None = Ok (RState s) ∧
     reducePatches [patch_removes; patch_adds] None None = Ok (RState s) ∧
     ORSet.contains (WarpState.nodeAlive s) "n" = false).
Proof.
  intros Hok Hname Hn.
  pose proof (node_write _ _ (eng_add_law "n" (Dot.mk "b" 1) Hname ltac:(done))) as Hadd.
  pose proof (node_write _ _ (eng_removeElement_law "n" (list_to_set ["b:1"]) Hname)) as Hrem.
  assert (∀ m : ElementMap.t, m !! "n" = None → ElementMap.at_ m "n" = ElementMap.no_dots) as Hnone.
  { intros m Hm. unfold ElementMap.at_. by rewrite Hm. }
  split; [|split].
  - destruct (Hadd ss Hok) as (s1 & E1 & O1 & _ & _ & _ & V1 & _).
    destruct (Hrem s1 O1) as (s2 & E2 & O2 & _ & _ & _ & V2 & _).
    exists s2. split.
    + unfold patch_adds, patch_removes. erewrite replay_one; [|done|reflexivity|exact E1].
      by erewrite replay_one; [|done|reflexivity|exact E2].
    + unfold ElementMap.contains. rewrite V2, ElementMap.at_remove, V1, ElementMap.at_add.
      rewrite Hnone by done. reflexivity.
  - destruct (Hrem ss Hok) as (s1 & E1 & O1 & _ & _ & _ & V1 & _).
    destruct (Hadd s1 O1) as (s2 & E2 & O2 & _ & _ & _ & V2 & _).
    exists s2. split.
    + unfold patch_adds, patch_removes. erewrite replay_one; [|done|reflexivity|exact E1].
      by erewrite replay_one; [|done|reflexivity|exact E2].
    + unfold ElementMap.contains. rewrite V2, ElementMap.at_add, V1, ElementMap.at_remove.
      rewrite Hnone by done. reflexivity.
  - eexists. split_and!; vm_compute; reflexivity.
Qed.

Lemma liveness_replay_refines_witness :
  run_holds causal_op causal_patches bottom = true ∧
  ∃ ss' s', replay_liveness causal_patches (session sample_frame) = (ss', Ok ()) ∧
    reducePatches causal_patches (Some (inl bottom)) None = Ok (RState s') ∧
    (∀ n, ElementMap.contains (node_view ss') n = ORSet.contains (WarpState.nodeAlive s') n) ∧
    (∀ k, ElementMap.contains (edge_view ss') k = ORSet.contains (WarpState.edgeAlive s') k).
Proof.
  split; [vm_compute; reflexivity|].
  apply (liveness_replay_refines dot_owner (λ _, "") causal_patches causal_deltas sample_frame bottom
    sample_frame_rel causal_fits).
  - vm_compute; reflexivity.
  - repeat constructor; done.
Defined.

Lemma session_resurrects_removed_node_witness :
  (∃ ss', replay_liveness [patch_removes; patch_adds] (ReferenceEngine.fresh 2) = (ss', Ok ()) ∧
    ElementMap.contains (node_view ss') "n" = true) ∧
  ElementMap.contains (node_view (replay_liveness [patch_adds; patch_removes]
    (ReferenceEngine.fresh 2)).1) "n" = false.
Proof.
  split; [|vm_compute; reflexivity].
  apply (session_resurrects_removed_node (ReferenceEngine.fresh 2)).
  - by apply ReferenceEngine.fresh_ok.
  - reflexivity.
  - reflexivity.
Defined.
