(* ===== verification/SessionJoin.v ===== *)
(** Joining frames: [joinFrames] of services/JoinReducerSession.ts copies the
    element states of one session into another, and the joined frame matches
    the join of the in-memory states. At the end: what a closed session
    leaves behind. *)
From S2P Require Export SessionRefinement.
Import OpNormalizer JoinReducer PropValue StateSession SessionReducer.

(** ** Cells *)

(** What a cell becomes when another replica's cell is merged into it. *)
Definition join_cell (a b : ElementMap.cell) : ElementMap.cell :=
  ElementMap.Cell
    ((ElementMap.live a ∖ ElementMap.dead b) ∪ (ElementMap.live b ∖ ElementMap.dead a))
    (ElementMap.dead a ∪ ElementMap.dead b).

Definition cell_of (st : ElementState) : ElementMap.cell :=
  ElementMap.Cell (ORSetElementState.dots st) (ORSetElementState.tombstonedDots st).

(** The dots of a set are encodings of dots with exact counters. *)
Definition encoded (ds : gset string) : Prop :=
  ∀ d, d ∈ ds → ∃ dot, Dot.wf dot ∧ d = Dot.encode dot.
Definition encoded_dots (s : ORSet.ORSet) : Prop := ∀ e, encoded (ORSet.dots_of s e).

(** An element state that can be copied. *)
Record state_ok (names : string → Prop) (st : ElementState) : Prop := {
  st_named : names (ORSetElementState.element st);
  st_disjoint : ORSetElementState.dots st ## ORSetElementState.tombstonedDots st;
  st_live : encoded (ORSetElementState.dots st);
  st_dead : encoded (ORSetElementState.tombstonedDots st) }.

Lemma wf_valid d : Dot.wf d → valid_dot d.
Proof. intros [Hw Hc]. split; [done|lia]. Qed.

Lemma join_cell_none a : join_cell a ElementMap.no_dots = a.
Proof. destruct a as [l d]. unfold join_cell; simpl. f_equal; set_solver. Qed.

Lemma cells_join f ml mr m sl sr :
  cells_match ml sl → cells_match mr sr → owned_by f sl → owned_by f sr →
  anchored sl → anchored sr →
  (∀ e, ElementMap.at_ m e = join_cell (ElementMap.at_ ml e) (ElementMap.at_ mr e)) →
  cells_match m (ORSet.join sl sr).
Proof.
  intros Hl Hr Ol Or Al Ar Hm e. rewrite Hm, getDots_eq. unfold join_cell.
  cbn [ElementMap.live ElementMap.dead].
  destruct (Hl e) as [-> ->], (Hr e) as [-> ->]. rewrite !getDots_eq.
  rewrite ORSet.dots_of_join, ORSet.tombstones_join.
  assert (∀ d, d ∈ ORSet.dots_of sl e → d ∈ ORSet.tombstones sr → d ∈ ORSet.dots_of sr e) as H1.
  { intros d Hd Ht. destruct (Ar d Ht) as [e' He']. by rewrite <- (Ol _ _ Hd), (Or _ _ He'). }
  assert (∀ d, d ∈ ORSet.dots_of sr e → d ∈ ORSet.tombstones sl → d ∈ ORSet.dots_of sl e) as H2.
  { intros d Hd Ht. destruct (Al d Ht) as [e' He']. by rewrite <- (Or _ _ Hd), (Ol _ _ He'). }
  split; apply set_eq; intros d; specialize (H1 d); specialize (H2 d);
    rewrite ?elem_of_union, ?elem_of_difference, ?elem_of_intersection, ?elem_of_union; tauto.
Qed.

(** ** Copying element states into one engine of a session *)
Section copy.
Context {T W : Type} `{EngineLaws T W} `{Workspace W}.
Abbreviation sess := (StateSession.StateSession T W).
Context (add : string → Dot.Dot → step sess unit) (remove : string → gset string → step sess unit).
Context (view other : sess → ElementMap.t).
Context (Hadd : ∀ e d s, eng_names T W e → valid_dot d → session_ok s →
  ∃ s', add e d s = (s', Ok ()) ∧ session_ok s' ∧
    view s' = ElementMap.add e (Dot.encode d) (view s) ∧ other s' = other s).
Context (Hremove : ∀ e ds s, eng_names T W e → session_ok s →
  ∃ s', remove e ds s = (s', Ok ()) ∧ session_ok s' ∧
    view s' = ElementMap.remove e ds (view s) ∧ other s' = other s).

Lemma add_dots_copies e l s :
  eng_names T W e → session_ok s →
  (∀ d, d ∈ l → ∃ dot, Dot.wf dot ∧ d = Dot.encode dot) →
  ∃ s', for_each (λ encodedDot, dot ← lift (Dot.decode encodedDot); add e dot) l s = (s', Ok ()) ∧
    session_ok s' ∧ other s' = other s ∧
    ∀ e', ElementMap.at_ (view s') e' =
      if decide (e = e')
      then ElementMap.Cell
             (ElementMap.live (ElementMap.at_ (view s) e)
              ∪ (list_to_set l ∖ ElementMap.dead (ElementMap.at_ (view s) e)))
             (ElementMap.dead (ElementMap.at_ (view s) e))
      else ElementMap.at_ (view s) e'.
Proof.
  intros He. revert s. induction l as [|d l IH]; intros s Hs Hl; cbn [for_each].
  - exists s. split_and!; [done..|]. intros e'. case_decide as Hd; [|done]. subst e'.
    destruct (ElementMap.at_ (view s) e) as [lv dd]. simpl. f_equal. set_solver.
  - destruct (Hl d) as (dot & Hv & ->); [set_solver|].
    destruct (Hadd e dot s He (wf_valid dot Hv) Hs) as (s1 & E1 & O1 & V1 & Oth1).
    destruct (IH s1 O1) as (s2 & E2 & O2 & Oth2 & V2); [intros d ?; apply Hl; set_solver|].
    exists s2. unfold mbind, step_bind, lift. rewrite Dot.decode_encode by done.
    rewrite E1. split; [exact E2|]. split; [done|]. split; [congruence|].
    intros e'. rewrite V2, V1, !ElementMap.at_add.
    destruct (decide (e = e')) as [<-|Hne]; [|by rewrite decide_False by tauto].
    destruct (ElementMap.at_ (view s) e) as [lv dd]. simpl.
    destruct (decide (Dot.encode dot ∈ dd)) as [Hin|Hin].
    + rewrite decide_False by tauto. simpl. f_equal. set_solver.
    + rewrite decide_True by tauto. simpl. f_equal. set_solver.
Qed.
Lemma merge_element_copies st s :
  state_ok (eng_names T W) st → session_ok s →
  ∃ s', merge_element add remove st s = (s', Ok ()) ∧ session_ok s' ∧ other s' = other s ∧
    ∀ e', ElementMap.at_ (view s') e' =
      if decide (ORSetElementState.element st = e')
      then join_cell (ElementMap.at_ (view s) e') (cell_of st)
      else ElementMap.at_ (view s) e'.
Proof.
  destruct st as [e lv dd]. intros [He Hdis Hlv Hdd] Hs. simpl in *.
  destruct (add_dots_copies e (base.elements lv) s He Hs) as (s1 & E1 & O1 & T1 & V1).
  { intros d Hd. apply Hlv. set_solver. }
  destruct (add_dots_copies e (base.elements dd) s1 He O1) as (s2 & E2 & O2 & T2 & V2).
  { intros d Hd. apply Hdd. set_solver. }
  unfold merge_element. simpl. unfold mbind at 1, step_bind at 1. rewrite E1.
  unfold mbind at 1, step_bind at 1. rewrite E2.
  assert (∀ e', ElementMap.at_ (view s2) e' =
    if decide (e = e')
    then ElementMap.Cell (ElementMap.live (ElementMap.at_ (view s) e)
           ∪ ((lv ∪ dd) ∖ ElementMap.dead (ElementMap.at_ (view s) e)))
           (ElementMap.dead (ElementMap.at_ (view s) e))
    else ElementMap.at_ (view s) e') as V.
  { intros e'. rewrite V2. destruct (decide (e = e')) as [<-|Hne].
    - rewrite V1, decide_True by done. simpl. rewrite !list_to_set_elements_L. f_equal. set_solver.
    - by rewrite V1, decide_False. }
  destruct (decide (dd = ∅)) as [->|Hne].
  - exists s2. split_and!; [done|done|congruence|]. intros e'. rewrite V.
    case_decide as Hd; [subst e'|done]. unfold join_cell, cell_of; simpl. f_equal; set_solver.
  - destruct (Hremove e dd s2 He O2) as (s3 & E3 & O3 & V3 & T3).
    exists s3. split_and!; [done|done|congruence|]. intros e'.
    rewrite V3, ElementMap.at_remove. destruct (decide (e = e')) as [<-|Hn];
      [rewrite V, decide_True by done|by rewrite V, decide_False]. unfold join_cell, cell_of, ElementMap.kill; simpl.
    clear -Hdis. f_equal; apply set_eq; intros d; specialize (Hdis d);
      destruct (decide (d ∈ ElementMap.dead (ElementMap.at_ (view s) e)));
      destruct (decide (d ∈ dd)); set_unfold; tauto.
Qed.

Lemma at_cons e c (l : list (string * ElementMap.cell)) e' :
  ElementMap.at_ (list_to_map ((e, c) :: l)) e' =
    if decide (e = e') then c else ElementMap.at_ (list_to_map l) e'.
Proof.
  unfold ElementMap.at_. simpl. destruct (decide (e = e')) as [<-|Hne].
  - by rewrite lookup_insert_eq.
  - by rewrite lookup_insert_ne.
Qed.

Lemma at_absent (l : list (string * ElementMap.cell)) e :
  e ∉ l.*1 → ElementMap.at_ (list_to_map l) e = ElementMap.no_dots.
Proof. intros Hn. unfold ElementMap.at_. by rewrite not_elem_of_list_to_map_1. Qed.

Lemma merge_states_copies l s :
  NoDup (ORSetElementState.element <$> l) → Forall (state_ok (eng_names T W)) l → session_ok s →
  ∃ s', for_each (merge_element add remove) l s = (s', Ok ()) ∧ session_ok s' ∧
    other s' = other s ∧
    ∀ e, ElementMap.at_ (view s') e =
      join_cell (ElementMap.at_ (view s) e)
        (ElementMap.at_ (list_to_map ((λ st, (ORSetElementState.element st, cell_of st)) <$> l)) e).
Proof.
  intros Hnd Hl. revert s. induction Hl as [|st l Hst Hl IH]; intros s Hs; cbn [for_each].
  - exists s. split_and!; [done..|]. intros e.
    by rewrite (at_absent []), join_cell_none by (simpl; set_solver).
  - rewrite fmap_cons in Hnd. apply NoDup_cons in Hnd as [Hni Hnd].
    destruct (merge_element_copies st s Hst Hs) as (s1 & E1 & O1 & T1 & V1).
    destruct (IH Hnd s1 O1) as (s2 & E2 & O2 & T2 & V2).
    exists s2. unfold mbind, step_bind. rewrite E1. split_and!; [done|done|congruence|].
    intros e. rewrite V2, V1, fmap_cons, at_cons.
    destruct (decide (ORSetElementState.element st = e)) as [<-|Hne]; [|done].
    rewrite at_absent, join_cell_none; [done|]. by rewrite <- list_fmap_compose.
Qed.

(** The scan of a map gives the map back. *)
Lemma scanned_map m l :
  ElementMap.scanned m l →
  NoDup (ORSetElementState.element <$> l) ∧
  list_to_map ((λ st, (ORSetElementState.element st, cell_of st)) <$> l) = m.
Proof.
  intros Hl. unfold ElementMap.scanned in Hl.
  assert ((λ st, (ORSetElementState.element st, cell_of st)) <$> l ≡ₚ map_to_list m) as Hp.
  { rewrite Hl, <- list_fmap_compose.
    assert (((λ st, (ORSetElementState.element st, cell_of st)) ∘
      λ '(e, c), ORSetElementState.mk e (ElementMap.live c) (ElementMap.dead c)) <$> map_to_list m
      = map_to_list m) as ->; [|done].
    rewrite <- (list_fmap_id (map_to_list m)) at 2.
    apply list_fmap_ext. intros i [e [lv dd]] _. done. }
  assert (ORSetElementState.element <$> l ≡ₚ (map_to_list m).*1) as Hp1.
  { rewrite <- Hp, <- list_fmap_compose. done. }
  split; [rewrite Hp1; apply NoDup_fst_map_to_list|].
  rewrite <- (list_to_map_to_list m). apply list_to_map_proper; [|done].
  rewrite Hp. apply NoDup_fst_map_to_list.
Qed.
End copy.

(** ** Frames *)
Section join.
Context {T W : Type} `{EngineLaws T W} `{Workspace W}.
Context (f g : string → string).
Abbreviation frame := (@ReducerSessionFrame T W).

(** The states a scan of the right session yields can be copied. *)
Lemma scanned_states_ok m l s :
  ElementMap.scanned m l → cells_match m s → encoded_dots s →
  (∀ e, is_Some (m !! e) → eng_names T W e) → Forall (state_ok (eng_names T W)) l.
Proof.
  intros Hl Hm Henc Hn. rewrite Hl. apply Forall_fmap, Forall_forall. intros [e c] Hin.
  apply elem_of_map_to_list in Hin. destruct (Hm e) as [Hlv Hdd]. rewrite getDots_eq in Hlv.
  unfold ElementMap.at_ in Hlv, Hdd. rewrite Hin in Hlv, Hdd. simpl in Hlv, Hdd.
  split; simpl; rewrite ?Hlv, ?Hdd.
  - by apply Hn.
  - set_solver.
  - intros d Hd. apply (Henc e). set_solver.
  - intros d Hd. apply (Henc e). set_solver.
Qed.

Lemma owned_by_join o a b : owned_by o a → owned_by o b → owned_by o (ORSet.join a b).
Proof. intros Ha Hb e d. rewrite ORSet.dots_of_join. set_solver. Qed.

Lemma anchored_join a b : anchored a → anchored b → anchored (ORSet.join a b).
Proof.
  intros Ha Hb d. rewrite ORSet.tombstones_join.
  intros [[e He]%Ha|[e He]%Hb]%elem_of_union; exists e; rewrite ORSet.dots_of_join; set_solver.
Qed.

Lemma owners_join a b : owners_ok f g a → owners_ok f g b → owners_ok f g (WarpState.join a b).
Proof.
  intros [] []. split; simpl; [by apply owned_by_join..|].
  intros k d. rewrite ORSet.dots_of_join. intros [?|?]%elem_of_union; eauto.
Qed.

Lemma union_with_match {A B} (R : A → B → Prop) (j : A → A → A) (j' : B → B → B) a b c d :
  (∀ a c b d, R a b → R c d → R (j a c) (j' b d)) →
  option_Forall2 R a b → option_Forall2 R c d →
  option_Forall2 R (union_with (λ u v, Some (j u v)) a c) (union_with (λ u v, Some (j' u v)) b d).
Proof. intros Hj [x y Hxy|] [x' y' Hxy'|]; simpl; constructor; eauto. Qed.

Lemma regs_join h fpl fpr spl spr :
  regs_match h fpl spl → regs_match h fpr spr →
  regs_match h (mergePropMaps fpl fpr) (WarpState.mergeProps spl spr).
Proof.
  intros Hl Hr k. change (mergePropMaps fpl fpr) with (WarpState.mergeProps fpl fpr).
  rewrite !WarpState.lookup_mergeProps. apply union_with_match; [|apply Hl|apply Hr].
  intros a c b d [Ea Ca] [Ec Cc]. unfold LWW.join. rewrite Ea, Ec. by destruct (0 <=? _).
Qed.

Lemma scan_frame (fr : frame) s (m : step (StateSession.StateSession T W) (list ElementState)) P :
  frame_rel f g fr s → sreads m P →
  ∃ fr' l, on_session m fr = (fr', Ok l) ∧ frame_rel f g fr' s ∧
    P (node_view (session fr)) (edge_view (session fr)) l ∧
    node_view (session fr') = node_view (session fr) ∧
    edge_view (session fr') = edge_view (session fr) ∧
    prop fr' = prop fr ∧ fheap fr' = fheap fr ∧
    observedFrontier fr' = observedFrontier fr ∧ edgeBirthEvent fr' = edgeBirthEvent fr.
Proof.
  intros Hr Hs. destruct (Hs _ (fr_session _ _ _ _ Hr)) as (se & l & E & HP & Hok & [_ _ Vn Ve] & _).
  unfold on_session. rewrite E. eexists _, l. split; [done|]. destruct Hr.
  split; [split; simpl; rewrite ?Vn, ?Ve; done|done].
Qed.

(** Merging the node or the edge states into a session. *)
Lemma merge_nodes_copies l s :
  NoDup (ORSetElementState.element <$> l) → Forall (state_ok (eng_names T W)) l → session_ok s →
  ∃ s', mergeLiveNodesInto l s = (s', Ok ()) ∧ session_ok s' ∧ edge_view s' = edge_view s ∧
    ∀ e, ElementMap.at_ (node_view s') e =
      join_cell (ElementMap.at_ (node_view s) e)
        (ElementMap.at_ (list_to_map ((λ st, (ORSetElementState.element st, cell_of st)) <$> l)) e).
Proof.
  apply (merge_states_copies addNode removeNode node_view edge_view).
  - intros e d s0 He Hd Hs. destruct (node_write _ _ (eng_add_law e d He Hd) s0 Hs)
      as (s' & E & O & _ & _ & _ & Vn & Ve). by exists s'.
  - intros e ds s0 He Hs. destruct (node_write _ _ (eng_removeElement_law e ds He) s0 Hs)
      as (s' & E & O & _ & _ & _ & Vn & Ve). by exists s'.
Qed.

Lemma merge_edges_copies l s :
  NoDup (ORSetElementState.element <$> l) → Forall (state_ok (eng_names T W)) l → session_ok s →
  ∃ s', mergeLiveEdgesInto l s = (s', Ok ()) ∧ session_ok s' ∧ node_view s' = node_view s ∧
    ∀ e, ElementMap.at_ (edge_view s') e =
      join_cell (ElementMap.at_ (edge_view s) e)
        (ElementMap.at_ (list_to_map ((λ st, (ORSetElementState.element st, cell_of st)) <$> l)) e).
Proof.
  apply (merge_states_copies addEdge removeEdge edge_view node_view).
  - intros e d s0 He Hd Hs. destruct (edge_write _ _ (eng_add_law e d He Hd) s0 Hs)
      as (s' & E & O & _ & _ & _ & Vn & Ve). by exists s'.
  - intros e ds s0 He Hs. destruct (edge_write _ _ (eng_removeElement_law e ds He) s0 Hs)
      as (s' & E & O & _ & _ & _ & Vn & Ve). by exists s'.
Qed.

Lemma session_named s : session_ok s →
  (∀ e, is_Some (node_view s !! e) → eng_names T W e) ∧
  (∀ e, is_Some (edge_view s !! e) → eng_names T W e).
Proof.
  intros []. split; intros e He.
  - by apply (eng_elements_named (nodeAlive s) (world s)).
  - by apply (eng_elements_named (edgeAlive s) (world s)).
Qed.
End join.

(** ** Properties *)

(** Joining frames is joining states: over any lawful engines, joining a
    frame with another one over the same heap returns a frame that matches the
    join of the states they match (same live and dead dots of every node and
    edge, same winning registers, same frontier, same edge births), and the
    other frame still matches its state. *)
Theorem join_frames_refines {T W} `{EngineLaws T W} `{Workspace W} (f g : string → string)
    (lhs rhs : @ReducerSessionFrame T W) (sl sr : State) :
  frame_rel f g lhs sl → frame_rel f g rhs sr → fheap rhs = fheap lhs →
  encoded_dots (WarpState.nodeAlive sr) → encoded_dots (WarpState.edgeAlive sr) →
  ∃ lhs' rhs' fr, joinFrames (lhs, rhs) = ((lhs', rhs'), Ok fr) ∧
    frame_rel f g fr (joinStates sl sr) ∧ frame_rel f g rhs' sr.
Proof.
  intros Hl Hr Hh En Ee. unfold joinFrames.
  destruct (session_named _ (fr_session _ _ _ _ Hr)) as [Nn Ne].
  destruct (scan_frame f g rhs sr scanNodeElementStates _ Hr
    (node_read _ _ eng_scanElementStates_law))
    as (rhs1 & ln & -> & R1 & Sn & Vn1 & Ve1 & P1 & H1' & F1 & B1).
  destruct (merge_nodes_copies ln (session lhs)) as (s1 & E1 & O1 & Ve & Vn).
  { by apply (scanned_map _ _ Sn). }
  { by apply (scanned_states_ok _ _ _ Sn (fr_nodes _ _ _ _ Hr)). }
  { apply Hl. }
  unfold on_session at 1. rewrite E1.
  destruct (scan_frame f g rhs1 sr scanEdgeElementStates _ R1
    (edge_read _ _ eng_scanElementStates_law))
    as (rhs2 & le & -> & R2 & Se & Vn2 & Ve2 & P2 & H2' & F2 & B2).
  rewrite Ve1 in Se.
  destruct (merge_edges_copies le s1) as (s2 & E2 & O2 & Vn' & Ve').
  { by apply (scanned_map _ _ Se). }
  { by apply (scanned_states_ok _ _ _ Se (fr_edges _ _ _ _ Hr)). }
  { done. }
  unfold on_session at 1. simpl. rewrite E2.
  eexists _, rhs2, _. split; [reflexivity|]. split; [|done].
  rewrite (proj2 (scanned_map _ _ Sn)) in Vn. rewrite (proj2 (scanned_map _ _ Se)) in Ve'.
  pose proof (fr_owners _ _ _ _ Hl) as Ol. pose proof (fr_owners _ _ _ _ Hr) as Or.
  destruct (fr_anchored _ _ _ _ Hl), (fr_anchored _ _ _ _ Hr).
  split; simpl.
  - done.
  - apply (cells_join f (node_view (session lhs)) (node_view (session rhs)));
      [apply Hl|apply Hr|apply Ol|apply Or|done|done|]. intros e. rewrite Vn'. apply Vn.
  - apply (cells_join g (edge_view (session lhs)) (edge_view (session rhs)));
      [apply Hl|apply Hr|apply Ol|apply Or|done|done|]. intros e. rewrite Ve', Ve. done.
  - split; by apply anchored_join.
  - by apply owners_join.
  - apply regs_join; [apply Hl|rewrite <- Hh; apply Hr].
  - by rewrite (fr_frontier _ _ _ _ Hl), (fr_frontier _ _ _ _ Hr).
  - by rewrite (fr_births _ _ _ _ Hl), (fr_births _ _ _ _ Hr).
  - by apply ws_join_live; [apply Hl|apply Hr].
Qed.

(** ** A sample join *)

(** [encoded_dots], checked entry by entry. *)
Definition encoded_dotb (d : string) : bool :=
  match Dot.decode d with
  | Ok dot => str_nonempty (Dot.writerId dot) && (1 <=? Dot.counter dot)
              && (Dot.counter dot <=? max_exact) && String.eqb (Dot.encode dot) d
  | Throw _ => false
  end.
Definition encoded_dotsb (s : ORSet.ORSet) : bool :=
  forallb (λ '(_, ds), forallb encoded_dotb (base.elements ds)) (map_to_list (ORSet.entries s)).

Lemma encoded_dotsb_sound s : encoded_dotsb s = true → encoded_dots s.
Proof.
  unfold encoded_dotsb. rewrite forallb_forall. intros Hs e d Hd.
  unfold ORSet.dots_of in Hd. destruct (ORSet.entries s !! e) as [ds|] eqn:E; [|set_solver].
  simpl in Hd. apply elem_of_map_to_list in E.
  specialize (Hs (e, ds) (proj1 (list_elem_of_In _ _) E)). simpl in Hs.
  rewrite forallb_forall in Hs.
  specialize (Hs d (proj1 (list_elem_of_In _ _) (proj2 (elem_of_elements _ _) Hd))).
  unfold encoded_dotb in Hs. destruct (Dot.decode d) as [dot|]; [|done].
  rewrite !andb_true_iff, !Z.leb_le, String.eqb_eq in Hs. destruct Hs as [[[? ?] ?] ?].
  exists dot. by repeat split.
Qed.

Definition other_frame : @ReducerSessionFrame ReferenceEngine.engine unit :=
  (for_each (λ '(p, sha), applyFastInSession p sha) causal_patches sample_frame).1.

Lemma other_frame_rel :
  frame_rel dot_owner (λ _, "") other_frame (joins bottom causal_deltas).
Proof.
  destruct (run_fast_refines dot_owner (λ _, "") causal_patches causal_deltas sample_frame bottom
    sample_frame_rel causal_fits) as (fr' & a & E & R & _ & _); [vm_compute; reflexivity|].
  unfold other_frame. by rewrite E.
Qed.

Lemma join_frames_refines_witness :
  ElementMap.contains (node_view (session (joinFrames (sample_frame, other_frame)).1.1)) "n2" = true ∧
  ∃ lhs' rhs' fr, joinFrames (sample_frame, other_frame) = ((lhs', rhs'), Ok fr) ∧
    frame_rel dot_owner (λ _, "") fr (joinStates bottom (joins bottom causal_deltas)) ∧
    frame_rel dot_owner (λ _, "") rhs' (joins bottom causal_deltas).
Proof.
  split; [vm_compute; reflexivity|].
  apply (join_frames_refines dot_owner (λ _, "")).
  - apply sample_frame_rel.
  - apply other_frame_rel.
  - vm_compute. reflexivity.
  - apply encoded_dotsb_sound. vm_compute. reflexivity.
  - apply encoded_dotsb_sound. vm_compute. reflexivity.
Defined.

(** ** What a closed session leaves behind: over engines whose flushed roots can be
    opened again, the roots that [StateSession.close] returns open a session
    with the same elements. *)
Import StateSession.

(** A flushed root opens an engine with the map that was flushed, in every later
    store. *)
Class DurableEngine (T W : Type) `{Engine T W} `{EngineModel T W} : Prop :=
  eng_reopens : ∀ (t : T) (w : W) t2 w2 r w',
    eng_ok t w → eng_prepareFlush (t, w) = ((t2, w2), Ok r) → store_le w2 w' →
    eng_ok (eng_open (FlushResult.rootOid r) : T) w' ∧
    eng_view (eng_open (FlushResult.rootOid r) : T) w' = eng_view t w.

Section durable.
Context {T W : Type} `{EngineLaws T W} `{!DurableEngine T W} `{Workspace W}.
Implicit Types s : StateSession.StateSession T W.

Lemma on_node_call {A} (m : step (T * W) A) s s' a :
  on_node m s = (s', Ok a) → m (nodeAlive s, world s) = ((nodeAlive s', world s'), Ok a).
Proof. unfold on_node. destruct (m _) as [[t w] r]. by intros [= <- ->]. Qed.

Lemma on_edge_call {A} (m : step (T * W) A) s s' a :
  on_edge m s = (s', Ok a) → m (edgeAlive s, world s) = ((edgeAlive s', world s'), Ok a).
Proof. unfold on_edge. destruct (m _) as [[t w] r]. by intros [= <- ->]. Qed.

(** The roots open engines with the elements of [s], in every store after [w]. *)
Definition preserved s (roots : CloseResult) (w : W) : Prop :=
  root_oid_ok (CloseResult.nodeAliveRootOid roots) = true ∧
  root_oid_ok (CloseResult.edgeAliveRootOid roots) = true ∧
  ∀ w', store_le w w' →
    (eng_ok (eng_open (CloseResult.nodeAliveRootOid roots) : T) w' ∧
     eng_view (eng_open (CloseResult.nodeAliveRootOid roots) : T) w' = node_view s) ∧
    (eng_ok (eng_open (CloseResult.edgeAliveRootOid roots) : T) w' ∧
     eng_view (eng_open (CloseResult.edgeAliveRootOid roots) : T) w' = edge_view s).

Lemma flag_step_frame (b : bool) s s1 :
  (if b then mret () else modify (set_pending true)) s = (s1, Ok ()) →
  nodeAlive s1 = nodeAlive s ∧ edgeAlive s1 = edgeAlive s ∧ world s1 = world s.
Proof. destruct b; by intros [= <-]. Qed.

Lemma prepareFlush_preserves s s' p :
  session_ok s → prepareFlush s = (s', Ok p) → preserved s (p_roots p) (world s').
Proof.
  intros Hs. unfold prepareFlush.
  destruct (on_node_flush s Hs) as (w1 & r1 & E1 & Hle1 & Hr1 & _).
  rewrite (step_bind_ok _ _ _ _ _ E1). apply on_node_call in E1 as C1. cbn in C1.
  destruct (grown_ok s w1 Hs Hle1) as [Hs1 S1].
  destruct (flagged_ok (grown s w1) (FlushResult.isClean r1) Hs1) as (s2 & E2 & Hs2 & S2 & _ & N2 & W2).
  rewrite (step_bind_ok _ _ _ _ _ E2).
  destruct (on_edge_flush s2 Hs2) as (w3 & r3 & E3 & Hle3 & Hr3 & _).
  rewrite (step_bind_ok _ _ _ _ _ E3). apply on_edge_call in E3 as C3. cbn in C3.
  destruct (grown_ok s2 w3 Hs2 Hle3) as [Hs3 S3].
  destruct (flagged_ok (grown s2 w3) (FlushResult.isClean r3) Hs3) as (s4 & E4 & _ & _ & _ & _ & W4).
  rewrite (step_bind_ok _ _ _ _ _ E4), root_results_ok by done.
  intros [= <- <-]. cbn. rewrite W4. split; [done|]. split; [done|]. intros w' Hw'.
  rewrite W2 in Hle3. cbn in Hle3, Hw'. split.
  - apply (eng_reopens (nodeAlive s) (world s) (nodeAlive s) w1 r1); [apply Hs|exact C1|by rewrite Hle3].
  - destruct (eng_reopens (edgeAlive s2) (world s2) (edgeAlive s2) w3 r3 w'
      (ok_edge _ Hs2) C3 Hw') as [Hok Hv]. split; [done|].
    etransitivity; [exact Hv|]. etransitivity; [apply S2|]. apply S1.
Qed.

(** Closing succeeds, and its roots keep the elements. *)
Lemma close_preserves s :
  session_ok s → ∃ s' roots, close s = (s', Ok roots) ∧ closed s' = true ∧
    preserved s roots (world s').
Proof.
  intros Hs. destruct (flushAndRetain_ok s Hs)
    as (s1 & roots & E & _ & _ & _ & _ & s0 & p & Ep & -> & Hle).
  eexists _, (p_roots p). split.
  { unfold close. rewrite (step_bind_ok _ _ _ _ _ (assertOpen_ok s Hs)).
    rewrite (step_bind_ok _ _ _ _ _ E). reflexivity. }
  split; [done|]. cbn. destruct (prepareFlush_preserves s s0 p Hs Ep) as (Hn & He & Hall).
  split; [done|]. split; [done|]. intros w' Hw'. apply Hall. by etransitivity.
Qed.

(** A session opened on preserved roots has the elements. *)
Lemma open_preserved s roots w :
  preserved s roots w →
  ∃ s', open (CloseResult.nodeAliveRootOid roots) (CloseResult.edgeAliveRootOid roots) w false None
          = Ok s' ∧
    session_ok s' ∧ node_view s' = node_view s ∧ edge_view s' = edge_view s.
Proof.
  intros (Hn & He & Hall). destruct (Hall w ltac:(done)) as [[Nok Nv] [Eok Ev]].
  eexists. split.
  { unfold open, validateRootOid. rewrite Hn, He. reflexivity. }
  split; [|done]. split; cbn; try done.
Qed.

(** A replay, the close after it, and the session that opens on its roots. *)
Lemma run_survives_close f g (ps : list JoinReducer.sha_patch) (ds : list WarpState.WarpState)
    (fr : @SessionReducer.ReducerSessionFrame T W) st :
  frame_rel f g fr st → run_fits T W f g (SessionReducer.fheap fr) ps ds →
  run_holds causal_op ps st = true →
  ∃ fr' st' closing roots,
    SessionReducer.reducePatchesInSession ps None fr = (fr', Ok SessionReducer.SRFrame) ∧
    JoinReducer.reducePatches ps (Some (inl st)) None = Ok (JoinReducer.RState st') ∧
    close (SessionReducer.session fr') = (closing, Ok roots) ∧
    ∀ w, store_le (world closing) w →
      ∃ reopened, open (CloseResult.nodeAliveRootOid roots) (CloseResult.edgeAliveRootOid roots)
          w false None = Ok reopened ∧
        (∀ n, eng_names T W n → ∃ r', nodeContains n reopened
           = (r', Ok (ORSet.contains (WarpState.nodeAlive st') n))) ∧
        (∀ k, eng_names T W k → ∃ r', edgeContains k reopened
           = (r', Ok (ORSet.contains (WarpState.edgeAlive st') k))).
Proof.
  intros Hr Hf Hc. pose proof (fr_live _ _ _ _ Hr) as Hs.
  destruct (run_fast_refines f g ps ds fr st Hr Hf Hc) as (fr' & [] & E & R & _ & _).
  destruct (run_fits_denotes _ _ _ _ _ Hf) as [Hv Hd].
  destruct (close_preserves (SessionReducer.session fr') (fr_session _ _ _ _ R))
    as (closing & roots & Ec & _ & Hn & He & Hp).
  exists fr', (joins st ds), closing, roots. split; [|split; [|split; [done|]]].
  - unfold SessionReducer.reducePatchesInSession, mbind, step_bind. by rewrite E.
  - unfold JoinReducer.reducePatches, JoinReducer.cloneState, WarpState.cloneFromSnapshot.
    rewrite clone_live by done. unfold JoinReducer.finish.
    by rewrite (proj1 (reduce_fast_denotes ps ds st Hv Hs Hd)).
  - intros w Hw. destruct (open_preserved (SessionReducer.session fr') roots w) as (s2 & Eo & Hok & Vn & Ve).
    { split; [done|]. split; [done|]. intros w' Hw'. apply Hp. by transitivity w. }
    exists s2. split; [exact Eo|]. split.
    + intros n Hname. destruct (node_read _ _ (eng_contains_law n Hname) s2 Hok) as (r' & b & Eb & -> & _).
      exists r'. unfold nodeContains. rewrite Eb, Vn. by rewrite (cells_contains _ _ n (fr_nodes _ _ _ _ R)).
    + intros k Hname. destruct (edge_read _ _ (eng_contains_law k Hname) s2 Hok) as (r' & b & Eb & -> & _).
      exists r'. unfold edgeContains. rewrite Eb, Ve. by rewrite (cells_contains _ _ k (fr_edges _ _ _ _ R)).
Qed.
End durable.
