(* ===== verification/TrieRoute.v ===== *)
(** Route keys ([orset/route/RouteKey.ts]) and the packed key suffixes of trie
    leaves ([orset/trie/trieCursorHelpers.ts]): bytes are [N], bits are read
    and written most significant first. The hash is a parameter. *)
From S2P Require Export Session.

(** ** Byte arrays *)

(** [bytes[i] ?? 0] *)
Definition byte_at (bs : list N) (i : nat) : N := default 0%N (bs !! i).

(** Storing into a [Uint8Array]: modulo 256, ignored out of range. *)
Definition byte_set (bs : list N) (i : nat) (v : N) : list N := <[i := (v mod 256)%N]> bs.

(** The bit of a byte that [offset] addresses. *)
Definition bit_of (byte : N) (offset : nat) : N :=
  N.land (N.shiftr byte (N.of_nat (7 - offset mod 8))) 1.

(** [new TextEncoder().encode(s)] on code units below 256. *)
Fixpoint utf8 (s : string) : list N :=
  match s with
  | EmptyString => []
  | String a s' =>
      let c := N_of_ascii a in
      (if (c <? 128)%N then [c] else [N.lor 192 (N.shiftr c 6); N.lor 128 (N.land c 63)]) ++ utf8 s'
  end.

(** The hash function of the route keys, [blake3] of a library. *)
Class Hash := blake3 : list N → list N.

Module RouteKey.

Definition E_ROUTE_KEY_BYTES : error := Err "RouteKeyError" "E_ROUTE_KEY_BYTES".
Definition E_ROUTE_KEY_EMPTY_ELEMENT : error := Err "RouteKeyError" "E_ROUTE_KEY_EMPTY_ELEMENT".
Definition E_ROUTE_KEY_NIBBLE_BITS : error := Err "RouteKeyError" "E_ROUTE_KEY_NIBBLE_BITS".
Definition E_ROUTE_KEY_DEPTH : error := Err "RouteKeyError" "E_ROUTE_KEY_DEPTH".

Definition ROUTE_KEY_BYTES : nat := 32.
Definition ROUTE_KEY_BITS : nat := ROUTE_KEY_BYTES * 8.
Definition SUPPORTED_NIBBLE_BITS : list nat := [1; 2; 4; 6; 8]%nat.

(* @src domain/orset/route/RouteKey.ts RouteKey 42-43 *)
Record RouteKey := mk { bytes : list N }.

(* @src domain/orset/route/RouteKey.ts constructor *)
Definition new (bytes : list N) : result RouteKey :=
  _ ← require (bool_decide (length bytes = ROUTE_KEY_BYTES)) E_ROUTE_KEY_BYTES;
  Ok (mk bytes).

(* @src domain/orset/route/RouteKey.ts fromElement *)
Definition fromElement `{Hash} (element : string) : result RouteKey :=
  _ ← require (str_nonempty element) E_ROUTE_KEY_EMPTY_ELEMENT;
  new (blake3 (utf8 element)).

(* @src domain/orset/route/RouteKey.ts validateNibbleAtArgs *)
Definition validateNibbleAtArgs (depth nibbleBits : nat) : result unit :=
  _ ← require (bool_decide (nibbleBits ∈ SUPPORTED_NIBBLE_BITS)) E_ROUTE_KEY_NIBBLE_BITS;
  let maxDepth := (ROUTE_KEY_BITS / nibbleBits)%nat in
  require (bool_decide (depth < maxDepth)%nat) E_ROUTE_KEY_DEPTH.

(* @src domain/orset/route/RouteKey.ts readBitMsbFirst *)
Definition readBitMsbFirst (bytes : list N) (bitOffset : nat) : result N :=
  match bytes !! (bitOffset / 8)%nat with
  | Some byte => Ok (bit_of byte bitOffset)
  | None => Throw E_ROUTE_KEY_BYTES
  end.

(** The loop over the bits of a slice, [value] holding the bits read so far. *)
Fixpoint read_bits (bytes : list N) (bitOffset width : nat) (value : N) : result N :=
  match width with
  | O => Ok value
  | S width' =>
      b ← readBitMsbFirst bytes bitOffset;
      read_bits bytes (S bitOffset) width' (N.lor (N.shiftl value 1) b)
  end.

(* @src domain/orset/route/RouteKey.ts readBitsMsbFirst *)
Definition readBitsMsbFirst (bytes : list N) (bitOffset width : nat) : result N :=
  read_bits bytes bitOffset width 0.

(* @src domain/orset/route/RouteKey.ts nibbleAt *)
Definition nibbleAt (rk : RouteKey) (depth nibbleBits : nat) : result N :=
  _ ← validateNibbleAtArgs depth nibbleBits;
  readBitsMsbFirst (bytes rk) (depth * nibbleBits) nibbleBits.
End RouteKey.

(** ** Packed suffixes *)
Module Suffix.

(* @src domain/orset/trie/trieCursorHelpers.ts readBitMsbFirst *)
Definition readBitMsbFirst (bytes : list N) (bitOffset : nat) : N :=
  bit_of (byte_at bytes (bitOffset / 8)) bitOffset.

(* @src domain/orset/trie/trieCursorHelpers.ts writeBitMsbFirst *)
Definition writeBitMsbFirst (out : list N) (bitOffset : nat) (bit : N) : list N :=
  let byteIndex := (bitOffset / 8)%nat in
  let byte := byte_at out byteIndex in
  let mask := N.shiftl 1 (N.of_nat (7 - bitOffset mod 8)) in
  byte_set out byteIndex (if (bit =? 1)%N then N.lor byte mask else N.ldiff byte mask).

(* @src domain/orset/trie/trieCursorHelpers.ts writeNibbleAt *)
Definition writeNibbleAt (out : list N) (slot nibbleBits : nat) (value : N) : list N :=
  let bitOffset := (slot * nibbleBits)%nat in
  foldl (λ out bitIndex,
    let bit := N.land (N.shiftr value (N.of_nat (nibbleBits - bitIndex - 1))) 1 in
    writeBitMsbFirst out (bitOffset + bitIndex) bit) out (seq 0 nibbleBits).

(** [Math.ceil(bits / 8)] zero bytes. *)
Definition zero_bytes (bits : nat) : list N := replicate ((bits + 7) / 8) 0%N.

Fixpoint pack_slots (rk : RouteKey.RouteKey) (depth nibbleBits : nat) (slots : list nat)
  (out : list N) : result (list N) :=
  match slots with
  | [] => Ok out
  | i :: slots' =>
      value ← RouteKey.nibbleAt rk (depth + i) nibbleBits;
      pack_slots rk depth nibbleBits slots' (writeNibbleAt out i nibbleBits value)
  end.

(* @src domain/orset/trie/trieCursorHelpers.ts packSuffixMsbFirst *)
Definition packSuffixMsbFirst (rk : RouteKey.RouteKey) (depth nibbleBits : nat)
  : result (list N) :=
  let maxDepth := (256 / nibbleBits)%nat in
  let nibblesLeft := (maxDepth - depth)%nat in
  pack_slots rk depth nibbleBits (seq 0 nibblesLeft) (zero_bytes (nibblesLeft * nibbleBits)).

(* @src domain/orset/trie/trieCursorHelpers.ts suffixOfRouteKey *)
Definition suffixOfRouteKey (rk : RouteKey.RouteKey) (depth nibbleBits : nat)
  : result (list N) := packSuffixMsbFirst rk depth nibbleBits.

(* @src domain/orset/trie/trieCursorHelpers.ts firstNibbleOfSuffix *)
Definition firstNibbleOfSuffix (suffix : list N) (nibbleBits : nat) : N :=
  let byte := byte_at suffix 0 in
  let mask := (N.shiftl 1 (N.of_nat nibbleBits) - 1)%N in
  N.land (N.shiftr byte (N.of_nat (8 - nibbleBits))) mask.

(* @src domain/orset/trie/trieCursorHelpers.ts shiftSuffixLeftByOneNibble *)
Definition shiftSuffixLeftByOneNibble (suffix : list N) (nibbleBits suffixNibbles : nat)
  : list N :=
  let totalBits := ((suffixNibbles - 1) * nibbleBits)%nat in
  foldl (λ out bitIndex,
    writeBitMsbFirst out bitIndex (readBitMsbFirst suffix (nibbleBits + bitIndex)))
    (zero_bytes totalBits) (seq 0 totalBits).

(* @src domain/orset/trie/trieCursorHelpers.ts appendCollisionTag *)
Definition appendCollisionTag (suffix : list N) (element : string) : list N :=
  let code := match String.get (String.length element - 1) element with
              | Some a => N_of_ascii a
              | None => 0%N
              end in
  let tag := N.land code 255 in
  suffix ++ [if (tag =? 0)%N then 1%N else tag].
End Suffix.

(** [compareBytes]: lexicographic, a prefix first. *)
(* @src domain/orset/trie/trieCursorHelpers.ts compareBytes *)
Fixpoint compareBytes (left right : list N) : Z :=
  match left, right with
  | [], [] => 0
  | [], _ => - Z.of_nat (length right)
  | _, [] => Z.of_nat (length left)
  | a :: left', b :: right' =>
      if (a =? b)%N then compareBytes left' right' else Z.of_N a - Z.of_N b
  end.

(** ** Bits *)

Definition bit (bs : list N) (i : nat) : bool :=
  N.testbit (byte_at bs (i / 8)) (N.of_nat (7 - i mod 8)).

Lemma land_shift_bit v n : N.land (N.shiftr v n) 1 = N.b2n (N.testbit v n).
Proof.
  change 1%N with (N.ones 1). rewrite N.land_ones, N.shiftr_div_pow2. symmetry. apply N.testbit_spec'.
Qed.

Lemma bit_of_bit bs i : Suffix.readBitMsbFirst bs i = N.b2n (bit bs i).
Proof. apply land_shift_bit. Qed.

Lemma testbit_byte v j : (j < 8)%N → N.testbit (v mod 256) j = N.testbit v j.
Proof. intros Hj. change 256%N with (2 ^ 8)%N. by apply N.mod_pow2_bits_low. Qed.

Lemma testbit_mask k j : N.testbit (N.shiftl 1 k) j = bool_decide (j = k).
Proof. rewrite N.shiftl_1_l, N.pow2_bits_eqb. by case_bool_decide; [apply N.eqb_eq|apply N.eqb_neq]. Qed.

Lemma testbit_write byte k (b : bool) j :
  N.testbit (if (N.b2n b =? 1)%N then N.lor byte (N.shiftl 1 k) else N.ldiff byte (N.shiftl 1 k)) j
  = if decide (j = k) then b else N.testbit byte j.
Proof.
  destruct b; cbn [N.b2n]; [change (1 =? 1)%N with true|change (0 =? 1)%N with false];
    cbn iota; rewrite ?N.lor_spec, ?N.ldiff_spec, testbit_mask; case_decide as Hd;
    rewrite ?bool_decide_true, ?bool_decide_false by done;
    by rewrite ?orb_true_r, ?orb_false_r, ?andb_false_r, ?andb_true_r.
Qed.

Lemma byte_at_set bs i j v :
  (i < length bs)%nat → byte_at (byte_set bs i v) j = if decide (i = j) then (v mod 256)%N else byte_at bs j.
Proof.
  intros Hi. unfold byte_at, byte_set. case_decide as Hd; subst.
  - by rewrite list_lookup_insert_eq.
  - by rewrite list_lookup_insert_ne.
Qed.

Lemma length_write bs j b : length (Suffix.writeBitMsbFirst bs j b) = length bs.
Proof. apply length_insert. Qed.

Lemma bit_write bs j (b : bool) i :
  (j / 8 < length bs)%nat →
  bit (Suffix.writeBitMsbFirst bs j (N.b2n b)) i = if decide (i = j) then b else bit bs i.
Proof.
  intros Hj. unfold bit, Suffix.writeBitMsbFirst. rewrite byte_at_set by done.
  pose proof (Nat.mod_upper_bound i 8 ltac:(done)). pose proof (Nat.mod_upper_bound j 8 ltac:(done)).
  pose proof (Nat.div_mod_eq i 8). pose proof (Nat.div_mod_eq j 8).
  destruct (decide (j / 8 = i / 8)%nat) as [E|E].
  - rewrite testbit_byte, testbit_write by lia.
    destruct (decide (i = j)) as [->|Hne]; [by rewrite decide_True|].
    rewrite decide_False by lia. by rewrite E.
  - rewrite decide_False; [done|]. intros ->. done.
Qed.

Lemma bytes_write bs j b :
  Forall (λ v, v < 256)%N bs → Forall (λ v, v < 256)%N (Suffix.writeBitMsbFirst bs j b).
Proof. intros Hb. apply Forall_insert; [done|]. apply N.mod_lt. done. Qed.

Lemma bits_ext bs bs' :
  length bs = length bs' → Forall (λ v, v < 256)%N bs → Forall (λ v, v < 256)%N bs' →
  (∀ i, bit bs i = bit bs' i) → bs = bs'.
Proof.
  intros Hl Hb Hb' Hbit. apply list_eq_same_length with (length bs); [done|done|].
  intros k x y Hk Hx Hy. apply N.bits_inj. intros j.
  rewrite Forall_lookup in Hb, Hb'. specialize (Hb k x Hx). specialize (Hb' k y Hy).
  destruct (decide (j < 8)%N) as [Hj|Hj].
  - specialize (Hbit (8 * k + (7 - N.to_nat j))%nat). unfold bit, byte_at in Hbit.
    assert ((8 * k + (7 - N.to_nat j)) / 8 = k)%nat as Ed by
      (symmetry; apply (Nat.div_unique _ 8 _ (7 - N.to_nat j)); lia).
    assert ((8 * k + (7 - N.to_nat j)) mod 8 = 7 - N.to_nat j)%nat as Em by
      (symmetry; apply (Nat.mod_unique _ 8 k); lia).
    rewrite Ed, Em, Hx, Hy in Hbit. simpl in Hbit.
    by replace (N.of_nat (7 - (7 - N.to_nat j))) with j in Hbit by lia.
  - assert (∀ z, (z < 256)%N → N.testbit z j = false) as Hhigh; [|by rewrite !Hhigh].
    intros z Hz. destruct (decide (z = 0%N)) as [->|]; [apply N.bits_0|].
    apply N.bits_above_log2. apply N.log2_lt_pow2; [lia|].
    apply N.lt_le_trans with (2 ^ 8)%N; [done|]. apply N.pow_le_mono_r; lia.
Qed.

(** ** Packed lists of nibbles *)

(** Bit [i] of the nibbles [ns], [nb] bits each. *)
Definition slot_bit (nb : nat) (ns : list N) (i : nat) : bool :=
  match ns !! (i / nb)%nat with
  | Some v => N.testbit v (N.of_nat (nb - 1 - i mod nb))
  | None => false
  end.

Record packed (nb : nat) (ns bs : list N) : Prop := {
  packed_length : length bs = ((length ns * nb + 7) / 8)%nat;
  packed_bytes : Forall (λ v, v < 256)%N bs;
  packed_bits : ∀ i, bit bs i = slot_bit nb ns i }.

Lemma packed_unique nb ns bs bs' : packed nb ns bs → packed nb ns bs' → bs = bs'.
Proof.
  intros [L B X] [L' B' X']. apply bits_ext; [congruence|done|done|]. intros i. by rewrite X, X'.
Qed.

Lemma slot_bit_at nb ns k v j :
  (j < nb)%nat → ns !! k = Some v → slot_bit nb ns (k * nb + j) = N.testbit v (N.of_nat (nb - 1 - j)).
Proof.
  intros Hj Hk. unfold slot_bit.
  assert ((k * nb + j) / nb = k)%nat as -> by (symmetry; apply (Nat.div_unique _ _ _ j); lia).
  assert ((k * nb + j) mod nb = j)%nat as -> by (symmetry; apply (Nat.mod_unique _ _ k); lia).
  by rewrite Hk.
Qed.

Lemma nibble_ext (nb : nat) v v' :
  (v < 2 ^ N.of_nat nb)%N → (v' < 2 ^ N.of_nat nb)%N →
  (∀ j, (j < nb)%nat → N.testbit v (N.of_nat (nb - 1 - j)) = N.testbit v' (N.of_nat (nb - 1 - j))) →
  v = v'.
Proof.
  intros Hv Hv' Hj. apply N.bits_inj. intros i. destruct (decide (i < N.of_nat nb)%N) as [Hi|Hi].
  - specialize (Hj (nb - 1 - N.to_nat i)%nat ltac:(lia)).
    by replace (N.of_nat (nb - 1 - (nb - 1 - N.to_nat i))) with i in Hj by lia.
  - assert (∀ z, (z < 2 ^ N.of_nat nb)%N → N.testbit z i = false) as Hhigh; [|by rewrite !Hhigh].
    intros z Hz. destruct (decide (z = 0%N)) as [->|]; [apply N.bits_0|].
    apply N.bits_above_log2. apply N.log2_lt_pow2; [lia|].
    apply N.lt_le_trans with (2 ^ N.of_nat nb)%N; [done|]. apply N.pow_le_mono_r; lia.
Qed.

(** Two lists of the same length with the same packing are equal. *)
Lemma packed_inj nb ns ns' bs :
  (0 < nb)%nat → length ns = length ns' →
  Forall (λ v, v < 2 ^ N.of_nat nb)%N ns → Forall (λ v, v < 2 ^ N.of_nat nb)%N ns' →
  packed nb ns bs → packed nb ns' bs → ns = ns'.
Proof.
  intros Hnb Hl Hn Hn' [_ _ X] [_ _ X']. apply list_eq_same_length with (length ns); [done|done|].
  intros k v v' _ Hv Hv'. rewrite Forall_lookup in Hn, Hn'.
  apply (nibble_ext nb); [by eapply Hn|by eapply Hn'|]. intros j Hj.
  rewrite <- (slot_bit_at nb ns k v j), <- (slot_bit_at nb ns' k v' j) by done.
  by rewrite <- X, <- X'.
Qed.

(** ** Loops over bits *)

Lemma bit_zero n i : bit (Suffix.zero_bytes n) i = false.
Proof.
  unfold bit, Suffix.zero_bytes, byte_at. destruct (replicate _ _ !! _) as [v|] eqn:E; [|done].
  apply lookup_replicate in E as [-> _]. apply N.bits_0.
Qed.

Lemma zero_bytes_bytes n : Forall (λ v, v < 256)%N (Suffix.zero_bytes n).
Proof. by apply Forall_replicate. Qed.

(** Writing the bits [f 0 .. f (m - 1)] from position [base] on. *)
Definition fill_bits (f : nat → N) (base m : nat) (out : list N) : list N :=
  foldl (λ out j, Suffix.writeBitMsbFirst out (base + j) (f j)) out (seq 0 m).

Lemma fill_bits_spec (f : nat → bool) base m out :
  (base + m ≤ 8 * length out)%nat →
  length (fill_bits (λ j, N.b2n (f j)) base m out) = length out ∧
  (Forall (λ v, v < 256)%N out → Forall (λ v, v < 256)%N (fill_bits (λ j, N.b2n (f j)) base m out)) ∧
  ∀ i, bit (fill_bits (λ j, N.b2n (f j)) base m out) i =
    if decide (base ≤ i < base + m)%nat then f (i - base)%nat else bit out i.
Proof.
  unfold fill_bits. induction m as [|m IH]; intros Hm; [|rewrite seq_S, foldl_app; simpl].
  - split_and!; [done|done|]. intros i. by rewrite decide_False by lia.
  - destruct IH as (IH1 & IH2 & IH3); [lia|]. split_and!.
    + by rewrite length_write.
    + intros Ho. by apply bytes_write, IH2.
    + intros i. rewrite bit_write by (rewrite IH1; apply Nat.Div0.div_lt_upper_bound; lia).
      destruct (decide (i = base + m)%nat) as [->|Hne].
      * rewrite decide_True by lia. f_equal. lia.
      * rewrite IH3. repeat case_decide; try lia; done.
Qed.

Lemma writeNibbleAt_fill out slot nb v :
  Suffix.writeNibbleAt out slot nb v
  = fill_bits (λ j, N.b2n (N.testbit v (N.of_nat (nb - j - 1)))) (slot * nb) nb out.
Proof.
  unfold Suffix.writeNibbleAt, fill_bits. revert out.
  induction (seq 0 nb) as [|j l IH]; intros out; simpl; [done|]. by rewrite IH, land_shift_bit.
Qed.

(** The bits of a slice, read into a number. *)
Lemma read_bits_spec bs off w value :
  (off + w ≤ 8 * length bs)%nat →
  ∃ v, RouteKey.read_bits bs off w value = Ok v ∧
    (∀ j, (j < w)%nat → N.testbit v (N.of_nat (w - 1 - j)) = bit bs (off + j)) ∧
    (∀ k, N.testbit v (N.of_nat w + k) = N.testbit value k).
Proof.
  revert off value. induction w as [|w IH]; intros off value Hw; cbn [RouteKey.read_bits].
  - exists value. split_and!; [done|lia|done].
  - destruct (lookup_lt_is_Some_2 bs (off / 8)) as [byte Hb];
      [apply Nat.Div0.div_lt_upper_bound; lia|].
    unfold RouteKey.readBitMsbFirst. rewrite Hb. cbn [mbind result_bind].
    assert (bit_of byte off = N.b2n (bit bs off)) as ->
      by (unfold bit, byte_at; rewrite Hb; apply land_shift_bit).
    destruct (IH (S off) (N.lor (N.shiftl value 1) (N.b2n (bit bs off)))) as (v & E & V & Vh); [lia|].
    exists v. split; [done|]. split.
    + intros j Hj. destruct j as [|j].
      * rewrite Nat.sub_0_r, Nat.add_0_r. replace (N.of_nat (S w - 1)) with (N.of_nat w + 0)%N by lia.
        rewrite Vh, N.lor_spec, N.shiftl_spec_low by lia. simpl. apply N.b2n_bit0.
      * replace (N.of_nat (S w - 1 - S j)) with (N.of_nat (w - 1 - j)) by lia.
        rewrite V by lia. f_equal. lia.
    + intros k. replace (N.of_nat (S w) + k)%N with (N.of_nat w + N.succ k)%N by lia.
      rewrite Vh, N.lor_spec, N.shiftl_spec_high' by lia.
      replace (N.succ k - 1)%N with k by lia.
      rewrite (N.bits_above_log2 (N.b2n _)); [by rewrite orb_false_r|].
      destruct (bit bs off); simpl; lia.
Qed.

(** A route key as the hash gives it. *)
Definition key_ok (rk : RouteKey.RouteKey) : Prop :=
  length (RouteKey.bytes rk) = RouteKey.ROUTE_KEY_BYTES.

(** The widths a trie uses. *)
Definition width_ok (nb : nat) : Prop := nb ∈ RouteKey.SUPPORTED_NIBBLE_BITS.

Definition max_depth (nb : nat) : nat := (256 / nb)%nat.

Lemma width_cases nb : width_ok nb → nb = 1%nat ∨ nb = 2%nat ∨ nb = 4%nat ∨ nb = 6%nat ∨ nb = 8%nat.
Proof. unfold width_ok, RouteKey.SUPPORTED_NIBBLE_BITS. set_solver. Qed.

Lemma width_bounds nb : width_ok nb → (1 ≤ nb ≤ 8 ∧ max_depth nb * nb ≤ 256)%nat.
Proof. intros Hw. apply width_cases in Hw. destruct Hw as [->|[->|[->|[->| ->]]]]; vm_compute; lia. Qed.

Lemma nibbleAt_ok rk depth nb :
  key_ok rk → width_ok nb → (depth < max_depth nb)%nat →
  ∃ v, RouteKey.nibbleAt rk depth nb = Ok v ∧ (v < 2 ^ N.of_nat nb)%N ∧
    ∀ j, (j < nb)%nat → N.testbit v (N.of_nat (nb - 1 - j)) = bit (RouteKey.bytes rk) (depth * nb + j).
Proof.
  intros Hk Hw Hd. destruct (width_bounds nb Hw) as [Hnb Hm].
  unfold RouteKey.nibbleAt, RouteKey.validateNibbleAtArgs.
  change (RouteKey.ROUTE_KEY_BITS / nb)%nat with (max_depth nb).
  rewrite bool_decide_true by done. cbn [require mbind result_bind].
  rewrite bool_decide_true by done. cbn [require mbind result_bind].
  unfold RouteKey.readBitsMsbFirst.
  assert (depth * nb + nb ≤ 256)%nat.
  { transitivity (max_depth nb * nb)%nat; [|done]. rewrite <- Nat.mul_succ_l.
    apply Nat.mul_le_mono_r. lia. }
  destruct (read_bits_spec (RouteKey.bytes rk) (depth * nb) nb 0) as (v & E & V & Vh).
  { rewrite Hk. unfold RouteKey.ROUTE_KEY_BYTES. lia. }
  exists v. split; [done|]. split; [|done].
  destruct (decide (v = 0%N)) as [->|Hv]; [apply N.neq_0_lt_0, N.pow_nonzero; done|].
  apply N.log2_lt_pow2; [lia|]. apply N.nle_gt. intros Hle.
  specialize (Vh (N.log2 v - N.of_nat nb)%N). rewrite N.bits_0 in Vh.
  replace (N.of_nat nb + (N.log2 v - N.of_nat nb))%N with (N.log2 v) in Vh by lia.
  rewrite N.bit_log2 in Vh by done. done.
Qed.

(** ** Routes *)

(** The nibbles of a key: the path of its element, all the way down. *)
Definition nibbles (rk : RouteKey.RouteKey) (nb : nat) : list N :=
  (λ i, match RouteKey.nibbleAt rk i nb with Ok v => v | Throw _ => 0%N end) <$> seq 0 (max_depth nb).

Lemma length_nibbles rk nb : length (nibbles rk nb) = max_depth nb.
Proof. unfold nibbles. by rewrite length_fmap, length_seq. Qed.

Lemma nibbles_lookup rk nb i v :
  key_ok rk → width_ok nb → nibbles rk nb !! i = Some v ↔ RouteKey.nibbleAt rk i nb = Ok v ∧ (i < max_depth nb)%nat.
Proof.
  intros Hk Hw. unfold nibbles. rewrite list_lookup_fmap, fmap_Some. split.
  - intros (j & Hj & ->). apply lookup_seq in Hj as [-> Hj]. simpl.
    destruct (nibbleAt_ok rk i nb Hk Hw Hj) as (v' & -> & _). done.
  - intros [E Hi]. exists i. rewrite E. split; [|done]. apply lookup_seq. lia.
Qed.

Lemma nibbleAt_lookup rk nb i :
  key_ok rk → width_ok nb → (i < max_depth nb)%nat →
  ∃ v, RouteKey.nibbleAt rk i nb = Ok v ∧ nibbles rk nb !! i = Some v ∧ (v < 2 ^ N.of_nat nb)%N.
Proof.
  intros Hk Hw Hi. destruct (nibbleAt_ok rk i nb Hk Hw Hi) as (v & E & Hv & _).
  exists v. split; [done|]. split; [|done]. by apply nibbles_lookup.
Qed.

Lemma nibbles_bounded rk nb :
  key_ok rk → width_ok nb → Forall (λ v, v < 2 ^ N.of_nat nb)%N (nibbles rk nb).
Proof.
  intros Hk Hw. apply Forall_lookup. intros i v Hv. apply nibbles_lookup in Hv as [E Hi]; [|done..].
  destruct (nibbleAt_ok rk i nb Hk Hw Hi) as (v' & E' & Hv' & _). congruence.
Qed.

(** ** Packing a route *)

Lemma slot_bit_beyond nb ns i : (0 < nb)%nat → (length ns * nb ≤ i)%nat → slot_bit nb ns i = false.
Proof.
  intros Hnb Hi. unfold slot_bit. rewrite lookup_ge_None_2; [done|].
  apply Nat.div_le_lower_bound; lia.
Qed.

Lemma slot_bit_snoc nb ns v i :
  (0 < nb)%nat →
  slot_bit nb (ns ++ [v]) i =
    if decide (length ns * nb ≤ i < length ns * nb + nb)%nat
    then N.testbit v (N.of_nat (nb - (i - length ns * nb) - 1)) else slot_bit nb ns i.
Proof.
  intros Hnb. case_decide as Hd.
  - replace i with (length ns * nb + (i - length ns * nb))%nat at 1 by lia.
    rewrite (slot_bit_at nb _ (length ns) v) by (lia || by apply list_lookup_middle).
    f_equal. lia.
  - unfold slot_bit. destruct (decide (i / nb < length ns)%nat) as [Hl|Hl].
    + by rewrite lookup_app_l.
    + assert (length ns * nb + nb ≤ i)%nat as Hi.
      { pose proof (Nat.div_mod_eq i nb). pose proof (Nat.mod_upper_bound i nb ltac:(lia)). nia. }
      rewrite !lookup_ge_None_2; [done| |].
      * lia.
      * rewrite length_app. simpl. apply Nat.div_le_lower_bound; lia.
Qed.

Lemma pack_slots_spec rk d nb k out :
  key_ok rk → width_ok nb → (d + k ≤ max_depth nb)%nat → (k * nb ≤ 8 * length out)%nat →
  Forall (λ v, v < 256)%N out → (∀ i, bit out i = false) →
  ∃ bs, Suffix.pack_slots rk d nb (seq 0 k) out = Ok bs ∧
    length bs = length out ∧ Forall (λ v, v < 256)%N bs ∧
    ∀ i, bit bs i = slot_bit nb (take k (drop d (nibbles rk nb))) i.
Proof.
  intros Hk Hw Hd Hlen Hb Hz. destruct (width_bounds nb Hw) as [Hnb _].
  assert (∀ l1 l2 o, Suffix.pack_slots rk d nb (l1 ++ l2) o
    = (o' ← Suffix.pack_slots rk d nb l1 o; Suffix.pack_slots rk d nb l2 o')) as Happ.
  { induction l1 as [|x l1 IH]; intros l2 o; simpl; [done|].
    destruct (RouteKey.nibbleAt _ _ _); simpl; [apply IH|done]. }
  induction k as [|k IH]; [|rewrite seq_S, Happ; simpl].
  - exists out. rewrite take_0. split_and!; [done..|]. intros i.
    rewrite Hz, slot_bit_beyond; simpl; [done|lia..].
  - destruct IH as (bs & -> & L & B & X); [lia..|].
    destruct (nibbleAt_lookup rk nb (d + k) Hk Hw ltac:(lia)) as (v & -> & Hv & _).
    cbn [mbind result_bind]. eexists. split; [done|]. rewrite writeNibbleAt_fill.
    destruct (fill_bits_spec (λ j, N.testbit v (N.of_nat (nb - j - 1))) (k * nb) nb bs)
      as (L' & B' & X'); [rewrite L; lia|].
    split_and!; [by rewrite L'|by apply B'|]. intros i. rewrite X'.
    rewrite (take_S_r _ _ v) by (by rewrite lookup_drop).
    assert (length (take k (drop d (nibbles rk nb))) = k) as Hlk.
    { rewrite length_take, length_drop, length_nibbles. lia. }
    rewrite slot_bit_snoc, Hlk, X by lia. done.
Qed.

Lemma suffix_packed rk d nb :
  key_ok rk → width_ok nb → (d ≤ max_depth nb)%nat →
  ∃ bs, Suffix.suffixOfRouteKey rk d nb = Ok bs ∧ packed nb (drop d (nibbles rk nb)) bs.
Proof.
  intros Hk Hw Hd. unfold Suffix.suffixOfRouteKey, Suffix.packSuffixMsbFirst.
  change (256 / nb)%nat with (max_depth nb). set (k := (max_depth nb - d)%nat).
  assert (length (Suffix.zero_bytes (k * nb)) = (k * nb + 7) / 8)%nat as Hz by apply length_replicate.
  destruct (pack_slots_spec rk d nb k (Suffix.zero_bytes (k * nb))) as (bs & E & L & B & X);
    [done|done|lia| |apply zero_bytes_bytes|apply bit_zero|].
  - rewrite Hz. pose proof (Nat.div_mod_eq (k * nb + 7) 8).
    pose proof (Nat.mod_upper_bound (k * nb + 7) 8 ltac:(done)). lia.
  - exists bs. split; [done|].
    assert (length (drop d (nibbles rk nb)) = k) as Hl by (rewrite length_drop, length_nibbles; done).
    rewrite take_ge in X by lia. split; [by rewrite L, Hz, Hl|done|done].
Qed.

(** ** Reading and shifting a packed suffix *)

Lemma first_nibble_packed nb n ns bs :
  width_ok nb → (n < 2 ^ N.of_nat nb)%N → packed nb (n :: ns) bs →
  Suffix.firstNibbleOfSuffix bs nb = n.
Proof.
  intros Hw Hn [_ _ X]. destruct (width_bounds nb Hw) as [Hnb _].
  unfold Suffix.firstNibbleOfSuffix.
  assert (N.shiftl 1 (N.of_nat nb) - 1 = N.ones (N.of_nat nb))%N as -> by
    (rewrite N.shiftl_1_l, N.ones_equiv; lia).
  rewrite N.land_ones. apply (nibble_ext nb); [by apply N.mod_lt, N.pow_nonzero|done|].
  intros j Hj. rewrite N.mod_pow2_bits_low, N.shiftr_spec' by lia.
  specialize (X j). pose proof (slot_bit_at nb (n :: ns) 0 n j Hj eq_refl) as Hs. simpl in Hs.
  rewrite Hs in X. rewrite <- X. unfold bit.
  rewrite Nat.div_small, Nat.mod_small by lia. f_equal. lia.
Qed.

Lemma shift_packed nb n ns bs :
  width_ok nb → packed nb (n :: ns) bs →
  packed nb ns (Suffix.shiftSuffixLeftByOneNibble bs nb (S (length ns))).
Proof.
  intros Hw [_ _ X]. destruct (width_bounds nb Hw) as [Hnb _].
  unfold Suffix.shiftSuffixLeftByOneNibble. simpl Nat.sub. rewrite Nat.sub_0_r.
  set (m := (length ns * nb)%nat).
  assert (length (Suffix.zero_bytes m) = (m + 7) / 8)%nat as Hz by apply length_replicate.
  assert (foldl (λ out j, Suffix.writeBitMsbFirst out j (Suffix.readBitMsbFirst bs (nb + j)))
      (Suffix.zero_bytes m) (seq 0 m)
    = fill_bits (λ j, N.b2n (bit bs (nb + j))) 0 m (Suffix.zero_bytes m)) as ->.
  { unfold fill_bits. generalize (Suffix.zero_bytes m) as o.
    induction (seq 0 m) as [|j l IH]; intros o; simpl; [done|]. by rewrite IH, bit_of_bit. }
  destruct (fill_bits_spec (λ j, bit bs (nb + j)) 0 m (Suffix.zero_bytes m)) as (L & B & X').
  { rewrite Hz. pose proof (Nat.div_mod_eq (m + 7) 8).
    pose proof (Nat.mod_upper_bound (m + 7) 8 ltac:(done)). lia. }
  split; [by rewrite L, Hz|by apply B, zero_bytes_bytes|].
  intros i. rewrite X', Nat.sub_0_r. destruct (decide (i < m)%nat) as [Hi|Hi].
  - rewrite decide_True by lia. rewrite X. unfold slot_bit.
    replace (nb + i)%nat with (i + 1 * nb)%nat by lia.
    rewrite Nat.div_add, Nat.Div0.mod_add by lia. by rewrite Nat.add_1_r.
  - rewrite decide_False by lia. rewrite bit_zero, slot_bit_beyond; [done|lia|]. unfold m in Hi. lia.
Qed.
