(* ===== verification/TriePages.v ===== *)
(** The pages of a trie: its geometry ([orset/trie/TrieGeometry.ts]), leaves
    with their wire format ([TrieLeaf.ts]), branches ([TrieBranch.ts]), the
    port they are stored through ([TrieStorePort.ts]), and the snapshot of the
    pages a cursor changed ([DirtyPageSet.ts]). *)
From S2P Require Export TrieRoute.

Module TrieGeometry.

Definition SUPPORTED_FANOUTS : list Z := [16; 64; 256].

(* @src domain/orset/trie/TrieGeometry.ts TrieGeometry 79-83 *)
Record TrieGeometry := mk {
  fanout : N; nibbleBits : nat; leafCapacity : Z; leafFloor : Z }.

Definition geometry_error (code : string) : error := Err "TrieGeometryError" code.

(* @src domain/orset/trie/TrieGeometry.ts validateFanout *)
Definition validateFanout (fanout : jsnum) : result Z :=
  match fanout with
  | JInt n => if bool_decide (n ∈ SUPPORTED_FANOUTS) then Ok n
              else Throw (geometry_error "E_TRIE_GEOMETRY_FANOUT")
  | _ => Throw (geometry_error "E_TRIE_GEOMETRY_FANOUT")
  end.

(* @src domain/orset/trie/TrieGeometry.ts validateNibbleBits *)
Definition validateNibbleBits (fanout : Z) (nibbleBits : jsnum) : result nat :=
  let expected := Z.log2 fanout in
  if bool_decide (nibbleBits = JInt expected) then Ok (Z.to_nat expected)
  else Throw (geometry_error "E_TRIE_GEOMETRY_NIBBLE_BITS").

(* @src domain/orset/trie/TrieGeometry.ts validateLeafCapacity *)
Definition validateLeafCapacity (leafCapacity : jsnum) : result Z :=
  match int_at_least 1 leafCapacity with
  | Some n => Ok n
  | None => Throw (geometry_error "E_TRIE_GEOMETRY_LEAF_CAPACITY")
  end.

(* @src domain/orset/trie/TrieGeometry.ts validateLeafFloor *)
Definition validateLeafFloor (leafFloor : jsnum) (leafCapacity : Z) : result Z :=
  match int_at_least 0 leafFloor with
  | Some n => if n <? leafCapacity then Ok n else Throw (geometry_error "E_TRIE_GEOMETRY_LEAF_FLOOR")
  | None => Throw (geometry_error "E_TRIE_GEOMETRY_LEAF_FLOOR")
  end.

(* @src domain/orset/trie/TrieGeometry.ts constructor *)
Definition new (fanout nibbleBits leafCapacity leafFloor : jsnum) : result TrieGeometry :=
  f ← validateFanout fanout;
  b ← validateNibbleBits f nibbleBits;
  c ← validateLeafCapacity leafCapacity;
  l ← validateLeafFloor leafFloor c;
  Ok (mk (Z.to_N f) b c l).

(* @src domain/orset/trie/TrieGeometry.ts splitRequired *)
Definition splitRequired (g : TrieGeometry) (entryCount : Z) : bool := leafCapacity g <? entryCount.

(* @src domain/orset/trie/TrieGeometry.ts mergeRequired *)
Definition mergeRequired (g : TrieGeometry) (entryCount : Z) : bool := entryCount <? leafFloor g.

(* @src domain/orset/trie/TrieGeometry.ts default16way *)
Definition default16way : result TrieGeometry := new (JInt 16) (JInt 4) (JInt 64) (JInt 16).

(** What the constructor establishes. *)
Record valid (g : TrieGeometry) : Prop := {
  geo_width : width_ok (nibbleBits g);
  geo_fanout : fanout g = (2 ^ N.of_nat (nibbleBits g))%N;
  geo_capacity : 1 <= leafCapacity g;
  geo_floor : 0 <= leafFloor g < leafCapacity g }.

Lemma new_valid f b c l g : new f b c l = Ok g → valid g.
Proof.
  unfold new. intros E. invert_ok. subst g.
  unfold validateFanout in Ha. destruct f as [n| | |]; try done.
  case_bool_decide as Hn; [|done]. injection Ha as <-.
  unfold validateNibbleBits in Ha0. case_bool_decide; [|done]. injection Ha0 as <-.
  unfold validateLeafCapacity in Ha1. destruct (int_at_least 1 c) eqn:Ec; [|done].
  apply int_at_least_Some in Ec as [_ Hc]. injection Ha1 as <-.
  unfold validateLeafFloor in Ha2. destruct (int_at_least 0 l) eqn:El; [|done].
  apply int_at_least_Some in El as [_ Hl]. destruct (Z.ltb_spec z0 z); [|done].
  injection Ha2 as <-.
  unfold SUPPORTED_FANOUTS in Hn. rewrite !elem_of_cons in Hn.
  destruct Hn as [->|[->|[->|Hn]]]; [..|by apply elem_of_nil in Hn];
    (split; simpl; [|done|lia|lia]); unfold width_ok, RouteKey.SUPPORTED_NIBBLE_BITS;
    repeat constructor.
Qed.
End TrieGeometry.
Abbreviation TrieGeometry := TrieGeometry.TrieGeometry.

(** ** What a codec decodes

    The values of a decoded page, as far as the shape check of a leaf looks:
    every other value is [DOther]. *)
Inductive decoded : Type :=
  | DNum (n : jsnum)
  | DStr (s : string)
  | DBytes (bytes : list N)
  | DArr (items : list decoded)
  | DRec (fields : gmap string decoded)
  | DOther.

(** The codec port. *)
Class Codec := {
  encode : decoded → result (list N);
  decode : list N → result decoded }.

(** ** Leaves *)
Module TrieLeaf.

Definition TRIE_LEAF_WIRE_VERSION : jsnum := JInt 1.

Definition leaf_error (code : string) : error := Err "TrieLeafError" code.
Definition E_UNSORTED : error := leaf_error "E_TRIE_LEAF_UNSORTED".
Definition E_WIRE_SHAPE : error := leaf_error "E_TRIE_LEAF_WIRE_SHAPE".
Definition E_VERSION : error := leaf_error "E_TRIE_LEAF_VERSION".

(* @src domain/orset/trie/TrieLeaf.ts TrieLeafEntry *)
Record TrieLeafEntry := Entry {
  routeKeySuffix : list N; element : string; dots : gset string; tombstonedDots : gset string }.

#[global] Instance TrieLeafEntry_eq_dec : EqDecision TrieLeafEntry.
Proof. solve_decision. Defined.

(* @src domain/orset/trie/TrieLeaf.ts TrieLeaf 72-74 *)
Record TrieLeaf := mk { geometry : TrieGeometry; sortedEntries : list TrieLeafEntry }.

(* @src domain/orset/trie/TrieLeaf.ts validateEntriesSorted *)
Fixpoint validateEntriesSorted (entries : list TrieLeafEntry) : result unit :=
  match entries with
  | prev :: ((curr :: _) as rest) =>
      if 0 <=? compareBytes (routeKeySuffix prev) (routeKeySuffix curr) then Throw E_UNSORTED
      else validateEntriesSorted rest
  | _ => Ok ()
  end.

(* @src domain/orset/trie/TrieLeaf.ts constructor *)
Definition new (entries : list TrieLeafEntry) (geometry : TrieGeometry) : result TrieLeaf :=
  _ ← validateEntriesSorted entries;
  Ok (mk geometry entries).

(* @src domain/orset/trie/TrieLeaf.ts size *)
Definition size (l : TrieLeaf) : Z := Z.of_nat (length (sortedEntries l)).

(* @src domain/orset/trie/TrieLeaf.ts entries *)
Definition entries (l : TrieLeaf) : list TrieLeafEntry := sortedEntries l.

(** The loop [while (lo <= hi)], with the number of entries as fuel. *)
Fixpoint search (fuel : nat) (es : list TrieLeafEntry) (suffix : list N) (lo hi : Z) : Z :=
  match fuel with
  | O => -1
  | S fuel' =>
      if hi <? lo then -1 else
      let mid := Z.shiftr (lo + hi) 1 in
      match es !! Z.to_nat mid with
      | None => -1
      | Some entry =>
          let cmp := compareBytes (routeKeySuffix entry) suffix in
          if cmp =? 0 then mid
          else if cmp <? 0 then search fuel' es suffix (mid + 1) hi
          else search fuel' es suffix lo (mid - 1)
      end
  end.

(* @src domain/orset/trie/TrieLeaf.ts binarySearch *)
Definition binarySearch (l : TrieLeaf) (suffix : list N) : Z :=
  search (S (length (sortedEntries l))) (sortedEntries l) suffix 0 (size l - 1).

(* @src domain/orset/trie/TrieLeaf.ts requiresSplit *)
Definition requiresSplit (l : TrieLeaf) (g : TrieGeometry) : bool :=
  TrieGeometry.splitRequired g (size l).

(* @src domain/orset/trie/TrieLeaf.ts requiresMerge *)
Definition requiresMerge (l : TrieLeaf) (g : TrieGeometry) : bool :=
  TrieGeometry.mergeRequired g (size l).

(* @src domain/orset/trie/TrieLeaf.ts entryToWire *)
Definition entryToWire (e : TrieLeafEntry) : decoded :=
  DArr [DBytes (routeKeySuffix e); DStr (element e);
        DArr (DStr <$> elements (dots e)); DArr (DStr <$> elements (tombstonedDots e))].

Definition wire_of (es : list TrieLeafEntry) : decoded :=
  DRec (<["version" := DNum TRIE_LEAF_WIRE_VERSION]> {["entries" := DArr (entryToWire <$> es)]}).

(* @src domain/orset/trie/TrieLeaf.ts serialize *)
Definition serialize `{Codec} (l : TrieLeaf) : result (list N) := encode (wire_of (sortedEntries l)).

(* @src domain/orset/trie/TrieLeaf.ts isStringArray *)
Definition isStringArray (value : option decoded) : option (list string) :=
  match value with
  | Some (DArr items) => mapM (λ v, match v with DStr s => Some s | _ => None end) items
  | _ => None
  end.

(** A wire entry is destructured as [isLeafWireEntry] accepts it. *)
(* @src domain/orset/trie/TrieLeaf.ts isLeafWireEntryFields *)
Definition isLeafWireEntryFields (value : list decoded)
  : option (list N * string * list string * list string) :=
  match value !! 0%nat, value !! 1%nat with
  | Some (DBytes suffix), Some (DStr element) =>
      dots ← isStringArray (value !! 2%nat);
      tombstoned ← isStringArray (value !! 3%nat);
      Some (suffix, element, dots, tombstoned)
  | _, _ => None
  end.

(* @src domain/orset/trie/TrieLeaf.ts isLeafWireEntry *)
Definition isLeafWireEntry (value : decoded)
  : option (list N * string * list string * list string) :=
  match value with
  | DArr items => if bool_decide (length items = 4%nat) then isLeafWireEntryFields items else None
  | _ => None
  end.

(* @src domain/orset/trie/TrieLeaf.ts isLeafWireFormat *)
Definition isLeafWireFormat (value : decoded)
  : option (jsnum * list (list N * string * list string * list string)) :=
  match value with
  | DRec fields =>
      match fields !! "version", fields !! "entries" with
      | Some (DNum version), Some (DArr items) =>
          entries ← mapM isLeafWireEntry items; Some (version, entries)
      | _, _ => None
      end
  | _ => None
  end.

(* @src domain/orset/trie/TrieLeaf.ts entryFromWire *)
Definition entryFromWire (raw : list N * string * list string * list string) : TrieLeafEntry :=
  let '(routeKeySuffix, element, dots, tombstonedDots) := raw in
  Entry routeKeySuffix element (list_to_set dots) (list_to_set tombstonedDots).

(* @src domain/orset/trie/TrieLeaf.ts deserialize *)
Definition deserialize `{Codec} (bytes : list N) (geometry : TrieGeometry) : result TrieLeaf :=
  decoded ← decode bytes;
  match isLeafWireFormat decoded with
  | None => Throw E_WIRE_SHAPE
  | Some (version, entries) =>
      _ ← require (bool_decide (version = TRIE_LEAF_WIRE_VERSION)) E_VERSION;
      new (entryFromWire <$> entries) geometry
  end.
End TrieLeaf.
Abbreviation TrieLeaf := TrieLeaf.TrieLeaf.
Abbreviation TrieLeafEntry := TrieLeaf.TrieLeafEntry.

(** ** Branches *)
Module TrieBranch.

Definition branch_error (code : string) : error := Err "TrieBranchError" code.

(** A set of associations; the order of the children is not part of it. *)
Abbreviation TrieBranchEntries := (gmap N string).

(* @src domain/orset/trie/TrieBranch.ts TrieBranch 40-42 *)
Record TrieBranch := mk { geometry : TrieGeometry; children : TrieBranchEntries }.

(* @src domain/orset/trie/TrieBranch.ts validateNibble *)
Definition validateNibble (nibble : N) (g : TrieGeometry) : result unit :=
  require (nibble <? TrieGeometry.fanout g)%N (branch_error "E_TRIE_BRANCH_NIBBLE_RANGE").

(* @src domain/orset/trie/TrieBranch.ts validateOid *)
Definition validateOid (oid : string) : result unit :=
  require (str_nonempty oid) (branch_error "E_TRIE_BRANCH_CHILD_OID").

(* @src domain/orset/trie/TrieBranch.ts validateChild *)
Definition validateChild (nibble : N) (oid : string) (g : TrieGeometry) : result unit :=
  _ ← validateNibble nibble g; validateOid oid.

(* @src domain/orset/trie/TrieBranch.ts validateChildren *)
Definition validateChildren (children : TrieBranchEntries) (g : TrieGeometry) : result unit :=
  _ ← map_result (λ '(nibble, oid), validateChild nibble oid g) (map_to_list children); Ok ().

(* @src domain/orset/trie/TrieBranch.ts constructor *)
Definition new (children : TrieBranchEntries) (g : TrieGeometry) : result TrieBranch :=
  _ ← validateChildren children g;
  Ok (mk g children).

(* @src domain/orset/trie/TrieBranch.ts get *)
Definition get (b : TrieBranch) (nibble : N) : option string := children b !! nibble.

(* @src domain/orset/trie/TrieBranch.ts set *)
Definition set (b : TrieBranch) (nibble : N) (oid : string) : result TrieBranch :=
  _ ← validateChild nibble oid (geometry b);
  new (<[nibble := oid]> (children b)) (geometry b).

(* @src domain/orset/trie/TrieBranch.ts entries *)
Definition entries (b : TrieBranch) : TrieBranchEntries := children b.

(* @src domain/orset/trie/TrieBranch.ts childCount *)
Definition childCount (b : TrieBranch) : Z := Z.of_nat (size (children b)).

(** Children within the fanout, behind non-empty handles. *)
Definition fits (g : TrieGeometry) (cs : TrieBranchEntries) : Prop :=
  map_Forall (λ nibble oid, (nibble < TrieGeometry.fanout g)%N ∧ str_nonempty oid = true) cs.

Lemma validateChildren_ok g cs : validateChildren cs g = Ok () ↔ fits g cs.
Proof.
  unfold validateChildren. rewrite bind_ok. setoid_rewrite map_result_ok. split.
  - intros (us & Hf & _) n oid Hn. apply elem_of_map_to_list in Hn.
    apply list_elem_of_lookup in Hn as [i Hi].
    destruct (Forall2_lookup_l _ _ _ _ _ Hf Hi) as ([] & _ & Hv). simpl in Hv.
    unfold validateChild, validateNibble, validateOid in Hv. invert_ok.
    destruct (N.ltb_spec n (TrieGeometry.fanout g)); [|done].
    split; [done|]. by destruct (str_nonempty oid).
  - intros Hf. exists ((λ _, ()) <$> map_to_list cs). split; [|done].
    apply Forall2_fmap_r, Forall_Forall2_diag, Forall_forall. intros [n oid] Hn.
    apply elem_of_map_to_list in Hn. destruct (Hf _ _ Hn) as [Hlt Hne].
    unfold validateChild, validateNibble, validateOid. rewrite (proj2 (N.ltb_lt _ _)) by done.
    simpl. by rewrite Hne.
Qed.

Lemma new_ok g cs : fits g cs → new cs g = Ok (mk g cs).
Proof. intros Hf. unfold new. by rewrite (proj2 (validateChildren_ok g cs) Hf). Qed.
End TrieBranch.
Abbreviation TrieBranch := TrieBranch.TrieBranch.
Abbreviation TrieBranchEntries := TrieBranch.TrieBranchEntries.

(** ** The store port *)

(** Reads answer from the store, writes change it. *)
(* @src domain/orset/trie/TrieStorePort.ts TrieStorePort 57-92 *)
Class TrieStore (W : Type) := {
  readLeaf : W → string → result (list N);
  readBranch : W → string → result TrieBranchEntries;
  writeLeaf : list N → step W string;
  writeBranch : TrieBranchEntries → step W string }.

(** ** The order of suffixes *)

#[export] Instance compareBytes_laws : CompareLaws compareBytes.
Proof.
  split.
  - intros x. induction x as [|a x IH]; intros [|b y]; cbn [compareBytes length];
      try done; try (by split; [lia|]).
    destruct (N.eqb_spec a b) as [->|Hne].
    + rewrite IH. split; [by intros ->|by intros [= ->]].
    + split; [lia|]. by intros [= -> _].
  - intros x. induction x as [|a x IH]; intros [|b y]; cbn [compareBytes length]; try lia.
    rewrite N.eqb_sym. destruct (N.eqb_spec a b); [apply IH|lia].
  - intros x. induction x as [|a x IH]; intros [|b y] [|c z]; cbn [compareBytes length]; try lia.
    destruct (N.eqb_spec a b), (N.eqb_spec b c), (N.eqb_spec a c); subst; try lia; try done.
    apply IH.
Qed.

Lemma compareBytes_eq x y : compareBytes x y = 0 ↔ x = y.
Proof. apply (cmp_eq (cmp:=compareBytes)). Qed.

Section leaf_order.
Import TrieLeaf.

Definition entry_lt (a b : TrieLeafEntry) : Prop :=
  compareBytes (routeKeySuffix a) (routeKeySuffix b) < 0.

#[export] Instance entry_lt_trans : Transitive entry_lt.
Proof. intros a b c. apply (cmp_trans (cmp:=compareBytes)). Qed.

Lemma validateEntriesSorted_ok es :
  validateEntriesSorted es = Ok () ↔ StronglySorted entry_lt es.
Proof.
  transitivity (Sorted entry_lt es).
  - induction es as [|a [|b es] IH]; [by split; [constructor|]|by split; [repeat constructor|]|].
    cbn [validateEntriesSorted]. split.
    + destruct (Z.leb_spec 0 (compareBytes (routeKeySuffix a) (routeKeySuffix b))); [done|].
      intros Hv. constructor; [by apply IH|]. by constructor.
    + inversion 1 as [|?? Hs Hhd]; subst. inversion Hhd; subst.
      rewrite (proj2 (Z.leb_gt _ _)) by done. by apply IH.
  - split; [by apply Sorted_StronglySorted, _|apply StronglySorted_Sorted].
Qed.

Lemma new_leaf_ok es g : StronglySorted entry_lt es → new es g = Ok (mk g es).
Proof. intros Hs. unfold new. by rewrite (proj2 (validateEntriesSorted_ok es) Hs). Qed.

Lemma sorted_lookup es i j a b :
  StronglySorted entry_lt es → es !! i = Some a → es !! j = Some b → (i < j)%nat → entry_lt a b.
Proof.
  intros Hs. revert i j. induction Hs as [|x es Hs IH Hx]; intros i j Ha Hb Hij; [done|].
  destruct i as [|i], j as [|j]; simplify_eq/=; [lia| |lia|].
  - rewrite Forall_lookup in Hx. by apply (Hx j).
  - apply (IH i j); [done|done|lia].
Qed.

(** A suffix names at most one entry. *)
Lemma sorted_suffix_inj es i j a b :
  StronglySorted entry_lt es → es !! i = Some a → es !! j = Some b →
  routeKeySuffix a = routeKeySuffix b → i = j.
Proof.
  intros Hs Ha Hb E. destruct (Nat.lt_trichotomy i j) as [Hl|[?|Hl]]; [|done|];
    exfalso; [pose proof (sorted_lookup es i j a b Hs Ha Hb Hl) as Hlt
             |pose proof (sorted_lookup es j i b a Hs Hb Ha Hl) as Hlt];
    unfold entry_lt in Hlt; rewrite E, (proj2 (compareBytes_eq _ _)) in Hlt; done.
Qed.

Lemma sorted_elem_inj es a b :
  StronglySorted entry_lt es → a ∈ es → b ∈ es → routeKeySuffix a = routeKeySuffix b → a = b.
Proof.
  intros Hs [i Ha]%list_elem_of_lookup [j Hb]%list_elem_of_lookup E.
  pose proof (sorted_suffix_inj es i j a b Hs Ha Hb E). congruence.
Qed.

Lemma search_spec fuel es s lo hi :
  StronglySorted entry_lt es → 0 <= lo → hi < Z.of_nat (length es) →
  hi - lo + 1 < Z.of_nat fuel →
  (∀ i e, es !! i = Some e → routeKeySuffix e = s → lo <= Z.of_nat i <= hi) →
  (search fuel es s lo hi = -1 ∧ ∀ e, e ∈ es → routeKeySuffix e ≠ s) ∨
  ∃ i e, search fuel es s lo hi = Z.of_nat i ∧ es !! i = Some e ∧ routeKeySuffix e = s.
Proof.
  intros Hs. revert lo hi. induction fuel as [|fuel IH]; intros lo hi Hlo Hhi Hf Hin; simpl.
  { left. split; [done|]. intros e [i Hi]%list_elem_of_lookup E. pose proof (Hin i e Hi E). lia. }
  destruct (Z.ltb_spec hi lo) as [Hlt|Hge].
  { left. split; [done|]. intros e [i Hi]%list_elem_of_lookup E. pose proof (Hin i e Hi E). lia. }
  rewrite Z.shiftr_div_pow2 by lia. change (2 ^ 1) with 2. set (mid := (lo + hi) / 2).
  assert (lo <= mid <= hi) as Hm by (subst mid; split; [apply Z.div_le_lower_bound|
    apply Z.div_le_upper_bound]; lia).
  destruct (lookup_lt_is_Some_2 es (Z.to_nat mid)) as [e He]; [lia|]. rewrite He.
  destruct (Z.eqb_spec (compareBytes (routeKeySuffix e) s) 0) as [E|Hne].
  { right. exists (Z.to_nat mid), e. split; [lia|]. split; [done|]. by apply compareBytes_eq. }
  destruct (Z.ltb_spec (compareBytes (routeKeySuffix e) s) 0) as [Hc|Hc]; apply IH; try lia;
    intros i e' Hi E; specialize (Hin i e' Hi E); subst s;
    destruct (Nat.lt_trichotomy i (Z.to_nat mid)) as [Hl|[->|Hl]]; try lia;
    try (simplify_eq; rewrite (proj2 (compareBytes_eq _ _)) in Hne; done).
  - pose proof (sorted_lookup es _ _ _ _ Hs Hi He Hl) as Ho. unfold entry_lt in Ho.
    rewrite (cmp_opp (cmp:=compareBytes)) in Ho. lia.
  - pose proof (sorted_lookup es _ _ _ _ Hs He Hi Hl) as Ho. unfold entry_lt in Ho. lia.
Qed.

Lemma binarySearch_spec l s :
  StronglySorted entry_lt (sortedEntries l) →
  (binarySearch l s = -1 ∧ ∀ e, e ∈ sortedEntries l → routeKeySuffix e ≠ s) ∨
  ∃ i e, binarySearch l s = Z.of_nat i ∧ sortedEntries l !! i = Some e ∧ routeKeySuffix e = s.
Proof.
  intros Hs. unfold binarySearch, size. apply search_spec; [done|lia|lia|lia|].
  intros i e Hi _. apply lookup_lt_Some in Hi. lia.
Qed.
End leaf_order.

(** ** The wire format of leaves *)

(** The codec gives a leaf page back. *)
Class CodecLaws `{Codec} : Prop :=
  codec_roundtrip : ∀ es, ∃ bytes, encode (TrieLeaf.wire_of es) = Ok bytes ∧ bytes ≠ [] ∧
    decode bytes = Ok (TrieLeaf.wire_of es).

Section wire.
Import TrieLeaf.

Lemma isStringArray_strings l : isStringArray (Some (DArr (DStr <$> l))) = Some l.
Proof. cbn [isStringArray]. induction l as [|s l IH]; [done|]. cbn in *. by rewrite IH. Qed.

Lemma wire_entry_read e :
  entryFromWire <$> isLeafWireEntry (entryToWire e) = Some e.
Proof.
  destruct e as [s el ds ts]. unfold isLeafWireEntry, entryToWire.
  rewrite bool_decide_true by done. unfold isLeafWireEntryFields. cbn [lookup list_lookup].
  rewrite !isStringArray_strings. simpl. by rewrite !list_to_set_elements_L.
Qed.

Lemma wire_read es :
  (prod_map id (fmap (M:=list) entryFromWire)) <$> isLeafWireFormat (wire_of es)
  = Some (TRIE_LEAF_WIRE_VERSION, es).
Proof.
  unfold isLeafWireFormat, wire_of. rewrite lookup_insert_eq, lookup_insert_ne, lookup_singleton_eq by done.
  assert (∃ raws, mapM isLeafWireEntry (entryToWire <$> es) = Some raws ∧ entryFromWire <$> raws = es)
    as (raws & -> & E); [|simpl; by rewrite E].
  induction es as [|e es (raws & E1 & E2)]; [by exists []|].
  pose proof (wire_entry_read e) as He. destruct (isLeafWireEntry (entryToWire e)) as [r|] eqn:Er; [|done].
  exists (r :: raws). injection He as He. split; [|rewrite fmap_cons, He; by f_equal].
  change (mapM isLeafWireEntry (entryToWire <$> e :: es)) with
    (y ← isLeafWireEntry (entryToWire e); ys ← mapM isLeafWireEntry (entryToWire <$> es); Some (y :: ys)).
  by rewrite Er, E1.
Qed.

Lemma leaf_wire_roundtrip `{CodecLaws} g es :
  StronglySorted entry_lt es → ∃ bytes, serialize (mk g es) = Ok bytes ∧ bytes ≠ [] ∧
    ∀ g', deserialize bytes g' = Ok (mk g' es).
Proof.
  intros Hs. destruct (codec_roundtrip es) as (bytes & E & Hne & D). exists bytes.
  split; [done|]. split; [done|]. intros g'. unfold deserialize. rewrite D. cbn [mbind result_bind].
  pose proof (wire_read es) as Hw. destruct (isLeafWireFormat (wire_of es)) as [[v raws]|]; [|done].
  injection Hw as Hv He. simpl in Hv. rewrite Hv, He, bool_decide_true by done. by apply new_leaf_ok.
Qed.

(** Whatever a codec returns, a decoded leaf is strictly sorted. *)
Lemma deserialize_sorted `{Codec} bytes g l :
  deserialize bytes g = Ok l → StronglySorted entry_lt (sortedEntries l) ∧ geometry l = g.
Proof.
  unfold deserialize. intros E. invert_ok. destruct (isLeafWireFormat a) as [[v raws]|]; [|done].
  invert_ok. unfold new in E. invert_ok. subst l. destruct a1. by apply validateEntriesSorted_ok in Ha1.
Qed.
End wire.

(** ** Hexadecimal numbers *)

Definition hex_char (d : N) : ascii := ascii_of_N (if (d <? 10)%N then 48 + d else 87 + d).

Definition hex_val (a : ascii) : option N :=
  let n := N_of_ascii a in
  if ((48 <=? n) && (n <=? 57))%N then Some (n - 48)%N
  else if ((97 <=? n) && (n <=? 102))%N then Some (n - 87)%N
  else if ((65 <=? n) && (n <=? 70))%N then Some (n - 55)%N else None.

Fixpoint hex_acc (fuel : nat) (n : N) (acc : string) : string :=
  match fuel with
  | O => acc
  | S fuel' =>
      let acc' := String (hex_char (n mod 16)) acc in
      if (n <? 16)%N then acc' else hex_acc fuel' (n / 16) acc'
  end.

(** [n.toString(16)] *)
Definition to_hex (n : N) : string := hex_acc (S (N.to_nat (N.log2 n))) n "".

Fixpoint parse_hex_digits (s : string) (acc : option N) : option N :=
  match s with
  | EmptyString => acc
  | String a s' =>
      match hex_val a with
      | Some d => parse_hex_digits s' (Some (16 * default 0 acc + d)%N)
      | None => acc
      end
  end.

(** [parseInt(part, 16)] of a part of a path key, which has no sign, space or
    [0x] in front; [NaN], for a part without digits, does not occur there. *)
Definition parse_hex (s : string) : N := default 0%N (parse_hex_digits s None).

Lemma hex_val_char d : (d < 16)%N → hex_val (hex_char d) = Some d.
Proof.
  intros Hd. assert (d ∈ N.of_nat <$> seq 0 16) as Hc.
  { apply list_elem_of_fmap. exists (N.to_nat d). split; [lia|]. apply elem_of_seq. lia. }
  simpl in Hc. set_unfold. by repeat (destruct Hc as [->|Hc]; [done|]).
Qed.

Lemma parse_hex_acc fuel n acc :
  fuel ≠ O → (n < 2 ^ N.of_nat fuel)%N →
  parse_hex_digits (hex_acc fuel n acc) None = parse_hex_digits acc (Some n).
Proof.
  revert n acc. induction fuel as [|fuel IH]; intros n acc Hf Hn; cbn [hex_acc]; [done|].
  destruct (N.ltb_spec n 16) as [Hlt|Hge].
  - cbn [parse_hex_digits]. rewrite hex_val_char by by apply N.mod_lt.
    rewrite N.mod_small by done. done.
  - rewrite IH.
    + cbn [parse_hex_digits]. rewrite hex_val_char by by apply N.mod_lt.
      cbn [default]. f_equal. f_equal. pose proof (N.div_mod n 16 ltac:(done)). simpl. lia.
    + intros ->. simpl in Hn. lia.
    + apply N.Div0.div_lt_upper_bound. rewrite Nat2N.inj_succ, N.pow_succ_r' in Hn. lia.
Qed.

Lemma hex_acc_free c fuel n acc :
  (∀ d, (d < 16)%N → hex_char d ≠ c) → str_includes c acc = false →
  str_includes c (hex_acc fuel n acc) = false.
Proof.
  intros Hc. revert n acc. induction fuel as [|fuel IH]; intros n acc Ha; [done|]. cbn [hex_acc].
  assert (str_includes c (String (hex_char (n mod 16)) acc) = false).
  { cbn. rewrite Ha, bool_decide_eq_false_2; [done|]. apply Hc. by apply N.mod_lt. }
  destruct (n <? 16)%N; [done|]. by apply IH.
Qed.

Lemma to_hex_free n : str_includes "/" (to_hex n) = false.
Proof.
  apply hex_acc_free; [|done]. intros d Hd E. pose proof (hex_val_char d Hd) as H. by rewrite E in H.
Qed.

Lemma parse_to_hex n : parse_hex (to_hex n) = n.
Proof.
  unfold parse_hex, to_hex. rewrite parse_hex_acc; [done|done|].
  destruct (decide (n = 0%N)) as [->|]; [done|].
  rewrite Nat2N.inj_succ, N2Nat.id. apply N.log2_spec. lia.
Qed.

Lemma hex_acc_app fuel n acc : hex_acc fuel n acc = hex_acc fuel n "" +:+ acc.
Proof.
  revert n acc. induction fuel as [|fuel IH]; intros n acc; cbn [hex_acc]; [done|].
  destruct (n <? 16)%N; [done|]. rewrite IH. rewrite (IH _ (String _ "")). by rewrite str_app_assoc.
Qed.

Lemma to_hex_nonempty n : to_hex n ≠ "".
Proof.
  unfold to_hex. cbn [hex_acc]. destruct (n <? 16)%N; [done|]. rewrite hex_acc_app.
  by destruct (hex_acc _ _ "").
Qed.

(** ** The pages a cursor changed *)
Module DirtyPageSet.

Fixpoint encode_rest (path : list N) : string :=
  match path with
  | [] => ""
  | nibble :: path' => String "/" (to_hex nibble +:+ encode_rest path')
  end.

(* @src domain/orset/trie/DirtyPageSet.ts encodeDirtyPath *)
Definition encodeDirtyPath (path : list N) : string :=
  match path with
  | [] => ""
  | nibble :: path' => to_hex nibble +:+ encode_rest path'
  end.

(* @src domain/orset/trie/DirtyPageSet.ts decodeDirtyPath *)
Definition decodeDirtyPath (key : string) : list N :=
  if decide (key = "") then [] else parse_hex <$> str_split "/" key.

(* @src domain/orset/trie/DirtyPageSet.ts DirtyPageSet 88-92 *)
Record DirtyPageSet := mk {
  rootOid : option string;
  dirtyLeaves : gmap string TrieLeaf;
  dirtyBranches : gmap string TrieBranch;
  cleanChildren : gmap string string }.

Inductive page : Type := Leaf (l : TrieLeaf) | Branch (b : TrieBranch).

(* @src domain/orset/trie/DirtyPageSet.ts DirtyPageEntry *)
Record DirtyPageEntry := DirtyPage { path : list N; node : page }.

Definition E_STRUCTURE : error := Err "TrieCursorError" "E_TRIE_CURSOR_STRUCTURE".

(* @src domain/orset/trie/DirtyPageSet.ts validateNoPathOverlap *)
Definition validateNoPathOverlap (dirtyLeaves : gmap string TrieLeaf)
  (dirtyBranches : gmap string TrieBranch) : result unit :=
  require (bool_decide (map_Forall (λ key _, dirtyBranches !! key = None) dirtyLeaves)) E_STRUCTURE.

(* @src domain/orset/trie/DirtyPageSet.ts constructor *)
Definition new (rootOid : option string) (dirtyLeaves : gmap string TrieLeaf)
  (dirtyBranches : gmap string TrieBranch) (cleanChildren : gmap string string)
  : result DirtyPageSet :=
  _ ← validateNoPathOverlap dirtyLeaves dirtyBranches;
  Ok (mk rootOid dirtyLeaves dirtyBranches cleanChildren).

(* @src domain/orset/trie/DirtyPageSet.ts dirtyLeafAt *)
Definition dirtyLeafAt (d : DirtyPageSet) (path : list N) : option TrieLeaf :=
  dirtyLeaves d !! encodeDirtyPath path.

(* @src domain/orset/trie/DirtyPageSet.ts dirtyBranchAt *)
Definition dirtyBranchAt (d : DirtyPageSet) (path : list N) : option TrieBranch :=
  dirtyBranches d !! encodeDirtyPath path.

(* @src domain/orset/trie/DirtyPageSet.ts cleanChildOidAt *)
Definition cleanChildOidAt (d : DirtyPageSet) (path : list N) : option string :=
  cleanChildren d !! encodeDirtyPath path.

(* @src domain/orset/trie/DirtyPageSet.ts collectAllEntries *)
Definition collectAllEntries (dirtyLeaves : gmap string TrieLeaf)
  (dirtyBranches : gmap string TrieBranch) : list DirtyPageEntry :=
  ((λ '(key, leaf), DirtyPage (decodeDirtyPath key) (Leaf leaf)) <$> map_to_list dirtyLeaves) ++
  ((λ '(key, branch), DirtyPage (decodeDirtyPath key) (Branch branch)) <$> map_to_list dirtyBranches).

(* @src domain/orset/trie/DirtyPageSet.ts comparePathsLexicographically *)
Fixpoint comparePathsLexicographically (left right : list N) : Z :=
  match left with
  | [] => 0
  | a :: left' =>
      let b := default 0%N (head right) in
      if (a =? b)%N then comparePathsLexicographically left' (tail right) else Z.of_N a - Z.of_N b
  end.

(* @src domain/orset/trie/DirtyPageSet.ts compareByDepthDescendingThenNibbleAscending *)
Definition compareByDepthDescendingThenNibbleAscending (left right : DirtyPageEntry) : Z :=
  if bool_decide (length (path left) = length (path right))
  then comparePathsLexicographically (path left) (path right)
  else Z.of_nat (length (path right)) - Z.of_nat (length (path left)).

(* @src domain/orset/trie/DirtyPageSet.ts enumerateBottomUp *)
Definition enumerateBottomUp (d : DirtyPageSet) : list DirtyPageEntry :=
  js_sort compareByDepthDescendingThenNibbleAscending
    (collectAllEntries (dirtyLeaves d) (dirtyBranches d)).

(* @src domain/orset/trie/DirtyPageSet.ts isEmpty *)
Definition isEmpty (d : DirtyPageSet) : bool :=
  bool_decide (dirtyLeaves d = ∅) && bool_decide (dirtyBranches d = ∅).

(* @src domain/orset/trie/DirtyPageSet.ts emptyForRoot *)
Definition emptyForRoot (rootOid : option string) : result DirtyPageSet := new rootOid ∅ ∅ ∅.
End DirtyPageSet.
Abbreviation DirtyPageSet := DirtyPageSet.DirtyPageSet.
Abbreviation encodeDirtyPath := DirtyPageSet.encodeDirtyPath.

Section dirty_paths.
Import DirtyPageSet.

Lemma split_encoded h path :
  str_includes "/" h = false → str_split "/" (h +:+ encode_rest path) = h :: (to_hex <$> path).
Proof.
  revert h. induction path as [|n path IH]; intros h Hh; simpl.
  - by rewrite str_app_nil_r, str_split_none.
  - rewrite str_split_app by done. by rewrite IH by apply to_hex_free.
Qed.

Lemma decode_encode_path path : decodeDirtyPath (encodeDirtyPath path) = path.
Proof.
  unfold decodeDirtyPath, encodeDirtyPath. destruct path as [|n path]; [done|].
  rewrite decide_False.
  - rewrite split_encoded by apply to_hex_free. rewrite fmap_cons, parse_to_hex. f_equal.
    rewrite <- list_fmap_compose. rewrite <- (list_fmap_id path) at 2.
    apply list_fmap_ext. intros i x _. apply parse_to_hex.
  - pose proof (to_hex_nonempty n). by destruct (to_hex n).
Qed.

#[export] Instance encodeDirtyPath_inj : Inj (=) (=) encodeDirtyPath.
Proof. intros p q E. by rewrite <- (decode_encode_path p), E, decode_encode_path. Qed.

(** Every key is the encoding of a path, and no page is two. *)
Record keyed (d : DirtyPageSet) : Prop := {
  keyed_paths : ∀ key, is_Some (dirtyLeaves d !! key) ∨ is_Some (dirtyBranches d !! key) →
    ∃ path, key = encodeDirtyPath path;
  keyed_disjoint : ∀ key l b, dirtyLeaves d !! key = Some l → dirtyBranches d !! key = Some b → False }.

Lemma new_keyed root ls bs cs :
  keyed (mk root ls bs cs) → new root ls bs cs = Ok (mk root ls bs cs).
Proof.
  intros [_ Hd]. unfold new, validateNoPathOverlap. rewrite bool_decide_true; [done|].
  intros key l Hl. destruct (bs !! key) as [b|] eqn:E; [|done]. by destruct (Hd key l b).
Qed.

Lemma elem_enumerate d e :
  keyed d → e ∈ enumerateBottomUp d ↔
    match node e with
    | Leaf l => dirtyLeafAt d (path e) = Some l
    | Branch b => dirtyBranchAt d (path e) = Some b
    end.
Proof.
  intros [Hk _]. unfold enumerateBottomUp, collectAllEntries, dirtyLeafAt, dirtyBranchAt.
  rewrite elem_of_js_sort, elem_of_app, !list_elem_of_fmap. destruct e as [p [l|b]]; simpl; split.
  - intros [([key l'] & [= -> ->] & Hl%elem_of_map_to_list)|([key b'] & [=] & _)].
    destruct (Hk key) as [p ->]; [by left|]. by rewrite decode_encode_path.
  - intros Hl. left. exists (encodeDirtyPath p, l). rewrite decode_encode_path. split; [done|].
    by apply elem_of_map_to_list.
  - intros [([key l'] & [=] & _)|([key b'] & [= -> ->] & Hb%elem_of_map_to_list)].
    destruct (Hk key) as [p ->]; [by right|]. by rewrite decode_encode_path.
  - intros Hb. right. exists (encodeDirtyPath p, b). rewrite decode_encode_path. split; [done|].
    by apply elem_of_map_to_list.
Qed.

Lemma NoDup_decoded (keys : list string) :
  (∀ key, key ∈ keys → ∃ p, key = encodeDirtyPath p) → NoDup keys → NoDup (decodeDirtyPath <$> keys).
Proof.
  intros Hk Hnd. apply NoDup_fmap_2_strong; [|done]. intros k1 k2 [p1 ->]%Hk [p2 ->]%Hk E.
  by rewrite !decode_encode_path in E; subst.
Qed.

(** Each dirty page comes once. *)
Lemma NoDup_enumerate d : keyed d → NoDup (path <$> enumerateBottomUp d).
Proof.
  intros [Hk Hd]. unfold enumerateBottomUp. rewrite js_sort_perm. unfold collectAllEntries.
  rewrite fmap_app, <- !list_fmap_compose.
  rewrite (list_fmap_ext _ (decodeDirtyPath ∘ fst) (map_to_list (dirtyLeaves d))),
    (list_fmap_ext _ (decodeDirtyPath ∘ fst) (map_to_list (dirtyBranches d)))
    by (by intros ? [] _).
  rewrite !list_fmap_compose, <- fmap_app. apply NoDup_decoded.
  - intros key [Hl|Hb]%elem_of_app; apply Hk; [left|right];
      apply list_elem_of_fmap in Hl || apply list_elem_of_fmap in Hb.
    + destruct Hl as ([k l] & -> & Hl%elem_of_map_to_list). by exists l.
    + destruct Hb as ([k b] & -> & Hb%elem_of_map_to_list). by exists b.
  - apply NoDup_app. split_and!; [apply NoDup_fst_map_to_list| |apply NoDup_fst_map_to_list].
    intros key ([k l] & -> & Hl%elem_of_map_to_list)%list_elem_of_fmap
      ([k' b] & E & Hb%elem_of_map_to_list)%list_elem_of_fmap. simpl in *. subst. by eapply Hd.
Qed.

Lemma compare_lex_flip l r :
  length l = length r → comparePathsLexicographically r l = - comparePathsLexicographically l r.
Proof.
  revert r. induction l as [|a l IH]; intros [|b r] Hl; simplify_eq/=; [done|].
  rewrite N.eqb_sym. destruct (N.eqb_spec a b); [by apply IH|lia].
Qed.

Definition deeper (a b : DirtyPageEntry) : Prop := (length (path b) ≤ length (path a))%nat.

#[export] Instance deeper_trans : Transitive deeper.
Proof. intros a b c. unfold deeper. lia. Qed.

(** A page comes after the pages below it. *)
Lemma enumerate_deepest_first d : StronglySorted deeper (enumerateBottomUp d).
Proof.
  apply Sorted_StronglySorted; [apply _|].
  assert (Sorted (cmp_le compareByDepthDescendingThenNibbleAscending) (enumerateBottomUp d)) as Hs.
  { apply js_sort_sorted. intros x y. unfold compareByDepthDescendingThenNibbleAscending.
    case_bool_decide; case_bool_decide; [by apply compare_lex_flip|done|done|lia]. }
  induction Hs as [|x l Hl IH Hhd]; [constructor|]. constructor; [done|].
  destruct Hhd as [|y l Hxy]; constructor. unfold cmp_le in Hxy.
  unfold compareByDepthDescendingThenNibbleAscending in Hxy. unfold deeper.
  case_bool_decide; lia.
Qed.
End dirty_paths.
