(* ===== verification/TrieHelpers.v ===== *)
(** The pure helpers of the cursor ([orset/trie/trieCursorHelpers.ts]): finding,
    adding and tombstoning the entries of a leaf, and splitting a leaf by the
    next nibble; what they mean for leaves that sit on the routes of their
    elements. *)
From S2P Require Export TriePages.

Definition TrieCursorError (code : string) : error := Err "TrieCursorError" code.
Definition E_CURSOR_INPUT : error := TrieCursorError "E_TRIE_CURSOR_INPUT".
Definition E_CURSOR_STRUCTURE : error := TrieCursorError "E_TRIE_CURSOR_STRUCTURE".
Definition E_CURSOR_STORE : error := TrieCursorError "E_TRIE_CURSOR_STORE".
Definition E_CURSOR_DECODE : error := TrieCursorError "E_TRIE_CURSOR_DECODE".
Definition E_STORE_MISSING : error := Err "TrieStoreError" "E_TRIE_STORE_MISSING".

Module Helpers.
Import TrieLeaf.

(* @src domain/orset/trie/trieCursorHelpers.ts nibbleBitsOf *)
Definition nibbleBitsOf (n : nat) : result nat :=
  _ ← require (bool_decide (n ∈ RouteKey.SUPPORTED_NIBBLE_BITS)) E_CURSOR_INPUT; Ok n.

(* @src domain/orset/trie/trieCursorHelpers.ts validateElement *)
Definition validateElement (element : string) : result unit :=
  require (str_nonempty element) E_CURSOR_INPUT.

(* @src domain/orset/trie/trieCursorHelpers.ts isWellFormedDot *)
Definition isWellFormedDot (dot : Dot.Dot) : bool :=
  str_nonempty (Dot.writerId dot) && (0 <? Dot.counter dot).

(* @src domain/orset/trie/trieCursorHelpers.ts validateDot *)
Definition validateDot (dot : Dot.Dot) : result unit :=
  require (isWellFormedDot dot) E_CURSOR_INPUT.

(** The loop [while (lo < hi)], with the length of the window as fuel. *)
Fixpoint lower_bound (fuel : nat) (entries : list TrieLeafEntry) (suffix : list N) (lo hi : nat) : nat :=
  match fuel with
  | O => lo
  | S fuel' =>
      if (hi <=? lo)%nat then lo else
      let mid := Nat.div2 (lo + hi) in
      match entries !! mid with
      | None => lo
      | Some entry =>
          if compareBytes (routeKeySuffix entry) suffix <? 0
          then lower_bound fuel' entries suffix (S mid) hi
          else lower_bound fuel' entries suffix lo mid
      end
  end.

(* @src domain/orset/trie/trieCursorHelpers.ts findInsertIndex *)
Definition findInsertIndex (entries : list TrieLeafEntry) (suffix : list N) : nat :=
  lower_bound (length entries) entries suffix 0 (length entries).

(* @src domain/orset/trie/trieCursorHelpers.ts lowerBoundOnSuffix *)
Definition lowerBoundOnSuffix (entries : list TrieLeafEntry) (suffix : list N) : nat :=
  lower_bound (length entries) entries suffix 0 (length entries).

(** [entries.splice(index, 0, entry)] *)
Definition splice_in (index : nat) (entry : TrieLeafEntry) (entries : list TrieLeafEntry)
  : list TrieLeafEntry := take index entries ++ entry :: drop index entries.

(* @src domain/orset/trie/trieCursorHelpers.ts makeEntry *)
Definition makeEntry (routeKeySuffix : list N) (element : string) (dots : gset string)
  : TrieLeafEntry := Entry routeKeySuffix element dots ∅.

(* @src domain/orset/trie/trieCursorHelpers.ts UpsertArgs *)
Record UpsertArgs := mkUpsert {
  leaf : TrieLeaf; routeKey : RouteKey.RouteKey; leafDepth : nat; nibbleBits : nat;
  u_element : string; encodedDot : string }.

(* @src domain/orset/trie/trieCursorHelpers.ts upsertOnSuffixCollision *)
Definition upsertOnSuffixCollision (entries : list TrieLeafEntry) (args : UpsertArgs)
  : result TrieLeaf :=
  suffix ← Suffix.suffixOfRouteKey (routeKey args) (leafDepth args) (nibbleBits args);
  let tagged := Suffix.appendCollisionTag suffix (u_element args) in
  let insertAt := findInsertIndex entries tagged in
  new (splice_in insertAt (makeEntry tagged (u_element args) {[encodedDot args]}) entries)
    (geometry (leaf args)).

(* @src domain/orset/trie/trieCursorHelpers.ts upsertAtExistingIndex *)
Definition upsertAtExistingIndex (entries : list TrieLeafEntry) (existingIndex : nat)
  (args : UpsertArgs) : result TrieLeaf :=
  match entries !! existingIndex with
  | None => Ok (leaf args)
  | Some existing =>
      if negb (bool_decide (element existing = u_element args))
      then upsertOnSuffixCollision entries args
      else if bool_decide (encodedDot args ∈ tombstonedDots existing) then Ok (leaf args)
      else new (<[existingIndex := Entry (routeKeySuffix existing) (element existing)
                   ({[encodedDot args]} ∪ dots existing) (tombstonedDots existing)]> entries)
             (geometry (leaf args))
  end.

(* @src domain/orset/trie/trieCursorHelpers.ts upsertIntoLeaf *)
Definition upsertIntoLeaf (args : UpsertArgs) : result TrieLeaf :=
  suffix ← Suffix.suffixOfRouteKey (routeKey args) (leafDepth args) (nibbleBits args);
  let es := entries (leaf args) in
  let existingIndex := binarySearch (leaf args) suffix in
  if negb (existingIndex =? -1) then upsertAtExistingIndex es (Z.to_nat existingIndex) args
  else
    let insertAt := findInsertIndex es suffix in
    new (splice_in insertAt (makeEntry suffix (u_element args) {[encodedDot args]}) es)
      (geometry (leaf args)).

(* @src domain/orset/trie/trieCursorHelpers.ts bytesEqualInRange *)
Definition bytesEqualInRange (candidate expected : list N) (length : nat) : bool :=
  forallb (λ i, (byte_at candidate i =? byte_at expected i)%N) (seq 0 length).

(* @src domain/orset/trie/trieCursorHelpers.ts hasSuffixPrefix *)
Definition hasSuffixPrefix (candidate expected : list N) : bool :=
  if (length candidate <? length expected)%nat then false
  else bytesEqualInRange candidate expected (length expected).

Fixpoint scan_tagged (entries : list TrieLeafEntry) (suffix : list N) (el : string)
  : option TrieLeafEntry :=
  match entries with
  | [] => None
  | entry :: entries' =>
      if negb (hasSuffixPrefix (routeKeySuffix entry) suffix) then None
      else if bool_decide (element entry = el) then Some entry
      else scan_tagged entries' suffix el
  end.

(* @src domain/orset/trie/trieCursorHelpers.ts scanForCollisionTaggedEntry *)
Definition scanForCollisionTaggedEntry (entries : list TrieLeafEntry) (suffix : list N) (el : string)
  : option TrieLeafEntry :=
  let startIndex := lowerBoundOnSuffix entries suffix in
  scan_tagged (drop startIndex entries) suffix el.

(* @src domain/orset/trie/trieCursorHelpers.ts findEntryByElementNearSuffix *)
Definition findEntryByElementNearSuffix (l : TrieLeaf) (suffix : list N) (el : string)
  : option TrieLeafEntry :=
  let exact := binarySearch l suffix in
  let hit := if negb (exact =? -1) then entries l !! Z.to_nat exact else None in
  match hit with
  | Some hit => if bool_decide (element hit = el) then Some hit
                else scanForCollisionTaggedEntry (entries l) suffix el
  | None => scanForCollisionTaggedEntry (entries l) suffix el
  end.

(* @src domain/orset/trie/trieCursorHelpers.ts findEntryInLeaf *)
Definition findEntryInLeaf (l : TrieLeaf) (rk : RouteKey.RouteKey) (depth nibbleBits : nat)
  (el : string) : result (option TrieLeafEntry) :=
  suffix ← Suffix.suffixOfRouteKey rk depth nibbleBits;
  Ok (findEntryByElementNearSuffix l suffix el).

(* @src domain/orset/trie/trieCursorHelpers.ts pushIntoBucket *)
Definition pushIntoBucket (buckets : gmap N (list TrieLeafEntry)) (nibble : N) (entry : TrieLeafEntry)
  : gmap N (list TrieLeafEntry) :=
  <[nibble := match buckets !! nibble with None => [entry] | Some bucket => bucket ++ [entry] end]>
    buckets.

(* @src domain/orset/trie/trieCursorHelpers.ts partitionEntriesByNextNibble *)
Definition partitionEntriesByNextNibble (l : TrieLeaf) (nibbleBits : nat)
  : gmap N (list TrieLeafEntry) :=
  foldl (λ out entry,
    pushIntoBucket out (Suffix.firstNibbleOfSuffix (routeKeySuffix entry) nibbleBits) entry)
    ∅ (entries l).

Definition compare_suffix (a b : TrieLeafEntry) : Z :=
  compareBytes (routeKeySuffix a) (routeKeySuffix b).

(* @src domain/orset/trie/trieCursorHelpers.ts shortenEntries *)
Definition shortenEntries (es : list TrieLeafEntry) (nibbleBits suffixNibbles : nat)
  : list TrieLeafEntry :=
  js_sort compare_suffix
    ((λ e, Entry (Suffix.shiftSuffixLeftByOneNibble (routeKeySuffix e) nibbleBits suffixNibbles)
             (element e) (dots e) (tombstonedDots e)) <$> es).

(** The loop over the dots, as sets. *)
(* @src domain/orset/trie/trieCursorHelpers.ts tombstoneEntry *)
Definition tombstoneEntry (e : TrieLeafEntry) (observedDots : gset string) : TrieLeafEntry * bool :=
  let hit := dots e ∩ observedDots in
  (Entry (routeKeySuffix e) (element e) (dots e ∖ observedDots) (tombstonedDots e ∪ hit),
   bool_decide (hit ≠ ∅)).

(* @src domain/orset/trie/trieCursorHelpers.ts pendingChildOid *)
Definition pendingChildOid (parentPath : list N) (childNibble : N) : string :=
  "pending:" +:+ encodeDirtyPath (parentPath ++ [childNibble]).

(* @src domain/orset/trie/trieCursorHelpers.ts isMissingStoreError *)
Definition isMissingStoreError (raw : error) : bool := bool_decide (raw = E_STORE_MISSING).

(* @src domain/orset/trie/trieCursorHelpers.ts wrapStoreError *)
Definition wrapStoreError (raw : error) : error :=
  if bool_decide (err_class raw = "TrieCursorError") then raw else E_CURSOR_STORE.

(* @src domain/orset/trie/trieCursorHelpers.ts wrapDecodeError *)
Definition wrapDecodeError (raw : error) : error :=
  if bool_decide (err_class raw = "TrieCursorError") then raw else E_CURSOR_DECODE.
End Helpers.

(** ** Elements and their routes *)
Section routes.
Context `{Hash}.

Definition key_of_element (e : string) : RouteKey.RouteKey := RouteKey.mk (blake3 (utf8 e)).
Definition route (nb : nat) (e : string) : list N := nibbles (key_of_element e) nb.

(** A universe of elements without collisions: the hash gives keys of the right
    length and tells them apart within the depth of the trie. *)
Record collision_free (nb : nat) (names : string → Prop) : Prop := {
  cf_nonempty : ∀ e, names e → str_nonempty e = true;
  cf_key : ∀ e, names e → key_ok (key_of_element e);
  cf_inj : ∀ e e', names e → names e' → route nb e = route nb e' → e = e' }.

Lemma fromElement_ok nb names e :
  collision_free nb names → names e → RouteKey.fromElement e = Ok (key_of_element e).
Proof.
  intros Hcf He. unfold RouteKey.fromElement, RouteKey.new. rewrite (cf_nonempty _ _ Hcf e He).
  pose proof (cf_key _ _ Hcf e He) as Hk. cbn. by rewrite bool_decide_true.
Qed.
End routes.

(** The cell an entry holds. *)
Definition cell_of (ent : TrieLeafEntry) : ElementMap.cell :=
  ElementMap.Cell (TrieLeaf.dots ent) (TrieLeaf.tombstonedDots ent).
Definition cells (es : list TrieLeafEntry) : ElementMap.t :=
  list_to_map ((λ ent, (TrieLeaf.element ent, cell_of ent)) <$> es).

Section leaves.
Import TrieLeaf.
Context `{Hash} (nb : nat) (names : string → Prop).
Context (Hw : width_ok nb) (Hcf : collision_free nb names).

(** A leaf at path [p]: its elements are routed through [p], and its suffixes
    are what is left of their routes. *)
Record leaf_ok (p : list N) (es : list TrieLeafEntry) : Prop := {
  lf_depth : (length p ≤ max_depth nb)%nat;
  lf_sorted : StronglySorted entry_lt es;
  lf_named : ∀ ent, ent ∈ es → names (element ent);
  lf_route : ∀ ent, ent ∈ es → take (length p) (route nb (element ent)) = p;
  lf_suffix : ∀ ent, ent ∈ es →
    packed nb (drop (length p) (route nb (element ent))) (routeKeySuffix ent) }.

Lemma suffix_ok e d :
  names e → (d ≤ max_depth nb)%nat →
  ∃ s, Suffix.suffixOfRouteKey (key_of_element e) d nb = Ok s ∧ packed nb (drop d (route nb e)) s.
Proof. intros He Hd. apply suffix_packed; [by apply Hcf|done|done]. Qed.

Lemma route_length e : length (route nb e) = max_depth nb.
Proof. apply length_nibbles. Qed.

(** On one path, a suffix is an element. *)
Lemma suffix_element p e e' s :
  names e → names e' → take (length p) (route nb e) = p → take (length p) (route nb e') = p →
  packed nb (drop (length p) (route nb e)) s → packed nb (drop (length p) (route nb e')) s → e = e'.
Proof.
  intros He He' Hp Hp' Hs Hs'. destruct (width_bounds nb Hw) as [Hnb _].
  apply (cf_inj _ _ Hcf); [done|done|].
  rewrite <- (take_drop (length p) (route nb e)), <- (take_drop (length p) (route nb e')), Hp, Hp'.
  f_equal. apply (packed_inj nb _ _ s); [lia| | | |done|done].
  - by rewrite !length_drop, !route_length.
  - apply Forall_drop, nibbles_bounded; [by apply Hcf|done].
  - apply Forall_drop, nibbles_bounded; [by apply Hcf|done].
Qed.

Lemma leaf_suffix_iff p es ent e s :
  leaf_ok p es → ent ∈ es → names e → take (length p) (route nb e) = p →
  packed nb (drop (length p) (route nb e)) s → routeKeySuffix ent = s ↔ element ent = e.
Proof.
  intros Hl Hent He Hp Hs. split.
  - intros <-. apply (suffix_element p _ _ (routeKeySuffix ent)); try done; by apply Hl.
  - intros <-. apply (packed_unique nb (drop (length p) (route nb (element ent)))); [by apply Hl|done].
Qed.

Lemma leaf_element_inj p es a b :
  leaf_ok p es → a ∈ es → b ∈ es → element a = element b → a = b.
Proof.
  intros Hl Ha Hb E. apply (sorted_elem_inj es); [by apply Hl|done|done|].
  apply (leaf_suffix_iff p es a (element b) (routeKeySuffix b)); try done; by apply Hl.
Qed.

Lemma sorted_NoDup es : StronglySorted entry_lt es → NoDup es.
Proof.
  induction 1 as [|x es Hs IH Hx]; constructor; [|done]. intros Hin. rewrite Forall_forall in Hx.
  specialize (Hx x Hin). unfold entry_lt in Hx. rewrite (proj2 (compareBytes_eq _ _)) in Hx; done.
Qed.

Lemma leaf_NoDup p es : leaf_ok p es → NoDup (element <$> es).
Proof.
  intros Hl. apply NoDup_fmap_2_strong; [|by apply sorted_NoDup, Hl].
  intros a b Ha Hb. by apply (leaf_element_inj p es).
Qed.

Lemma cells_lookup es e c :
  NoDup (element <$> es) → cells es !! e = Some c ↔ ∃ ent, ent ∈ es ∧ element ent = e ∧ cell_of ent = c.
Proof.
  intros Hnd. unfold cells. rewrite <- elem_of_list_to_map.
  - rewrite list_elem_of_fmap. split; [intros (ent & [= -> ->] & ?); by exists ent|].
    intros (ent & ? & <- & <-). by exists ent.
  - by rewrite <- list_fmap_compose.
Qed.

Lemma cells_perm es es' : NoDup (element <$> es) → es ≡ₚ es' → cells es = cells es'.
Proof.
  intros Hnd Hp. unfold cells. apply list_to_map_proper; [by rewrite <- list_fmap_compose|by rewrite Hp].
Qed.

Lemma cells_cons ent es : cells (ent :: es) = <[element ent := cell_of ent]> (cells es).
Proof. done. Qed.

(** Only the key, the element and the two sets of an entry matter. *)
Lemma leaf_ok_same p es es' :
  leaf_ok p es → StronglySorted entry_lt es' →
  (∀ ent, ent ∈ es' → ∃ ent', ent' ∈ es ∧ element ent' = element ent ∧
     routeKeySuffix ent' = routeKeySuffix ent) → leaf_ok p es'.
Proof.
  intros Hl Hs Hsame. split; [apply Hl|done|..];
    intros ent (ent' & Hin & E & E')%Hsame; rewrite <- ?E, <- ?E'; by apply Hl.
Qed.
End leaves.

(** ** Searching and adding *)
Section leaf_search.
Import TrieLeaf Helpers.

Lemma lower_bound_spec fuel es s lo hi :
  StronglySorted entry_lt es → (lo ≤ hi ≤ length es)%nat → (hi - lo ≤ fuel)%nat →
  (∀ i e, es !! i = Some e → (i < lo)%nat → compareBytes (routeKeySuffix e) s < 0) →
  (∀ i e, es !! i = Some e → (hi ≤ i)%nat → 0 <= compareBytes (routeKeySuffix e) s) →
  let k := lower_bound fuel es s lo hi in
  (k ≤ length es)%nat ∧
  (∀ i e, es !! i = Some e → (i < k)%nat → compareBytes (routeKeySuffix e) s < 0) ∧
  (∀ i e, es !! i = Some e → (k ≤ i)%nat → 0 <= compareBytes (routeKeySuffix e) s).
Proof.
  intros Hs. revert lo hi. induction fuel as [|fuel IH]; intros lo hi Hle Hf Hlo Hhi; cbn [lower_bound].
  { split; [lia|]. split; [done|]. intros i e Hi Hk. apply (Hhi i e Hi). lia. }
  destruct (Nat.leb_spec hi lo) as [Hge|Hlt].
  { split; [lia|]. split; [done|]. intros i e Hi Hk. apply (Hhi i e Hi). lia. }
  pose proof (Nat.div2_odd (lo + hi)) as Hmid. set (mid := Nat.div2 (lo + hi)) in *.
  assert (lo ≤ mid < hi)%nat as Hm by (destruct (Nat.odd _); simpl in Hmid; lia).
  destruct (lookup_lt_is_Some_2 es mid) as [x Hx]; [lia|]. rewrite Hx.
  destruct (Z.ltb_spec (compareBytes (routeKeySuffix x) s) 0) as [Hc|Hc].
  - apply IH; [lia|lia| |done]. intros i e Hi Hk. destruct (decide (i = mid)) as [->|]; [by simplify_eq|].
    apply (cmp_trans (cmp:=compareBytes)) with (routeKeySuffix x); [|done].
    apply (sorted_lookup es i mid e x Hs Hi Hx). lia.
  - apply IH; [lia|lia|done|]. intros i e Hi Hk. destruct (decide (i = mid)) as [->|]; [by simplify_eq|].
    pose proof (sorted_lookup es mid i x e Hs Hx Hi ltac:(lia)) as Ho. unfold entry_lt in Ho.
    destruct (Z.le_gt_cases 0 (compareBytes (routeKeySuffix e) s)) as [|Hlt']; [done|].
    pose proof (cmp_trans (cmp:=compareBytes) _ _ _ Ho Hlt'). lia.
Qed.

Lemma insert_index_spec es s :
  StronglySorted entry_lt es →
  let k := findInsertIndex es s in
  (k ≤ length es)%nat ∧
  (∀ i e, es !! i = Some e → (i < k)%nat → compareBytes (routeKeySuffix e) s < 0) ∧
  (∀ i e, es !! i = Some e → (k ≤ i)%nat → 0 <= compareBytes (routeKeySuffix e) s).
Proof.
  intros Hs. apply lower_bound_spec; [done|lia|lia|lia|].
  intros i e Hi Hk. apply lookup_lt_Some in Hi. lia.
Qed.

(** Inserting a new suffix where the search says keeps the order. *)
Lemma splice_sorted es ent :
  StronglySorted entry_lt es → (∀ e, e ∈ es → routeKeySuffix e ≠ routeKeySuffix ent) →
  StronglySorted entry_lt (splice_in (findInsertIndex es (routeKeySuffix ent)) ent es).
Proof.
  intros Hs Hnew. destruct (insert_index_spec es (routeKeySuffix ent) Hs) as (Hk & Hlt & Hge).
  set (k := findInsertIndex es (routeKeySuffix ent)) in *. unfold splice_in.
  assert (∀ e, e ∈ take k es → entry_lt e ent) as Hbelow.
  { intros e [i [Hi Hik]%lookup_take_Some]%list_elem_of_lookup. by apply (Hlt i e). }
  assert (∀ e, e ∈ drop k es → entry_lt ent e) as Habove.
  { intros e [i Hi]%list_elem_of_lookup. rewrite lookup_drop in Hi.
    pose proof (Hge _ e Hi ltac:(lia)) as Hc. unfold entry_lt. rewrite (cmp_opp (cmp:=compareBytes)).
    destruct (decide (compareBytes (routeKeySuffix e) (routeKeySuffix ent) = 0)) as [E|]; [|lia].
    apply compareBytes_eq in E. destruct (Hnew e); [by eapply list_elem_of_lookup_2|done]. }
  pose proof Hs as Hs'. rewrite <- (take_drop k es) in Hs'.
  apply StronglySorted_app in Hs' as (Hcross & H1 & H2). apply StronglySorted_app. split_and!.
  - intros x1 x2 Hx1 [->|Hx2]%elem_of_cons; [by apply Hbelow|by apply Hcross].
  - done.
  - constructor; [done|]. by apply Forall_forall.
Qed.

Lemma splice_perm k ent es : splice_in k ent es ≡ₚ ent :: es.
Proof. unfold splice_in. by rewrite <- Permutation_middle, take_drop. Qed.

Lemma insert_sorted es i old ent :
  StronglySorted entry_lt es → es !! i = Some old → routeKeySuffix ent = routeKeySuffix old →
  StronglySorted entry_lt (<[i := ent]> es).
Proof.
  intros Hs Hi E. pose proof (lookup_lt_Some _ _ _ Hi) as Hl.
  rewrite <- (take_drop_middle es i old Hi) in Hs.
  rewrite insert_take_drop by done. apply StronglySorted_app in Hs as (Hcross & H1 & H2).
  apply StronglySorted_cons in H2 as [Hx H2]. apply StronglySorted_app. split_and!.
  - intros x1 x2 Hx1 [->|Hx2]%elem_of_cons; [|by apply Hcross; [|right]].
    unfold entry_lt. rewrite E. apply Hcross; [done|by left].
  - done.
  - constructor; [done|]. apply (Forall_impl _ _ _ Hx). intros y Hy. unfold entry_lt. by rewrite E.
Qed.

Lemma has_prefix_eq a b : length a = length b → hasSuffixPrefix a b = true → a = b.
Proof.
  intros Hl. unfold hasSuffixPrefix. rewrite (proj2 (Nat.ltb_ge _ _)) by lia.
  unfold bytesEqualInRange. rewrite forallb_forall. intros Hb.
  apply list_eq_same_length with (length b); [done|done|]. intros i x y Hi Hx Hy.
  specialize (Hb i ltac:(apply in_seq; lia)). unfold byte_at in Hb. rewrite Hx, Hy in Hb.
  by apply N.eqb_eq in Hb.
Qed.
End leaf_search.

Section leaf_updates.
Import TrieLeaf Helpers.
Context `{Hash} (nb : nat) (names : string → Prop).
Context (Hw : width_ok nb) (Hcf : collision_free nb names).
#[local] Abbreviation leaf_ok := (leaf_ok nb names).

Lemma findEntryInLeaf_ok g p es e :
  leaf_ok p es → names e → take (length p) (route nb e) = p →
  ∃ r, findEntryInLeaf (mk g es) (key_of_element e) (length p) nb e = Ok r ∧
    match r with
    | Some ent => ent ∈ es ∧ element ent = e
    | None => ∀ ent, ent ∈ es → element ent ≠ e
    end.
Proof.
  intros Hl He Hp. destruct (suffix_ok nb names Hw Hcf e (length p)) as (s & Es & Hs);
    [done|by apply Hl|].
  unfold findEntryInLeaf. rewrite Es. eexists. split; [done|].
  assert (∀ ent, ent ∈ es → routeKeySuffix ent = s ↔ element ent = e) as Hiff.
  { intros ent Hent. by apply (leaf_suffix_iff nb names Hw Hcf p es). }
  unfold findEntryByElementNearSuffix.
  destruct (binarySearch_spec (mk g es) s (lf_sorted _ _ _ _ Hl)) as [[-> Hno]|(i & ent & -> & Hi & Hent)].
  - simpl. unfold scanForCollisionTaggedEntry.
    destruct (drop _ es) as [|ent l] eqn:Ed; simpl.
    { intros ent Hent E. by apply (Hno ent Hent), Hiff. }
    assert (ent ∈ es) as Hent.
    { rewrite <- (take_drop (lowerBoundOnSuffix es s) es), Ed. set_solver. }
    destruct (hasSuffixPrefix (routeKeySuffix ent) s) eqn:Epre; simpl.
    + apply has_prefix_eq in Epre; [by destruct (Hno ent Hent)|].
      rewrite (packed_length _ _ _ (lf_suffix _ _ _ _ Hl ent Hent)), (packed_length _ _ _ Hs).
      by rewrite !length_drop, !route_length.
    + intros ent' Hent' E. by apply (Hno ent' Hent'), Hiff.
  - simpl in Hi. rewrite (proj2 (Z.eqb_neq _ _)) by lia. simpl. rewrite Nat2Z.id. unfold entries. simpl.
    rewrite Hi. assert (ent ∈ es) as Hin by by eapply list_elem_of_lookup_2.
    assert (element ent = e) as E by by apply Hiff. by rewrite bool_decide_true.
Qed.

(** A new entry where the search puts it. *)
Lemma leaf_splice p es ent :
  leaf_ok p es → leaf_ok p [ent] → (∀ x, x ∈ es → routeKeySuffix x ≠ routeKeySuffix ent) →
  let es' := splice_in (findInsertIndex es (routeKeySuffix ent)) ent es in
  leaf_ok p es' ∧ cells es' = <[element ent := cell_of ent]> (cells es).
Proof.
  intros Hl H1 Hno. pose proof (splice_sorted es ent (lf_sorted _ _ _ _ Hl) Hno) as Hsort.
  set (k := findInsertIndex es (routeKeySuffix ent)) in *. pose proof (splice_perm k ent es) as Hperm.
  assert (leaf_ok p (splice_in k ent es)) as Hl'.
  { split; [apply Hl|done|..]; intros x; rewrite Hperm; intros [->|Hin]%elem_of_cons;
      first [by apply Hl|apply H1; by left]. }
  split; [done|]. rewrite <- cells_cons. apply cells_perm; [|done].
  by apply (leaf_NoDup nb names Hw Hcf p).
Qed.

(** An entry replaced by one of the same element. *)
Lemma leaf_update p es i ent ent' :
  leaf_ok p es → es !! i = Some ent → routeKeySuffix ent' = routeKeySuffix ent →
  element ent' = element ent →
  leaf_ok p (<[i := ent']> es) ∧ cells (<[i := ent']> es) = <[element ent := cell_of ent']> (cells es).
Proof.
  intros Hl Hi Es Ee. pose proof (leaf_NoDup nb names Hw Hcf p es Hl) as Hnd.
  assert (StronglySorted entry_lt (<[i := ent']> es)) as Hsort by (eapply insert_sorted; [apply Hl|..]; done).
  assert (ent ∈ es) as Hin by by eapply list_elem_of_lookup_2.
  assert (leaf_ok p (<[i:=ent']> es)) as Hl'.
  { apply (leaf_ok_same nb names p es); [done..|].
    intros x [j Hj]%list_elem_of_lookup. apply list_lookup_insert_Some in Hj as [(-> & <- & _)|[_ Hj]].
    - by exists ent.
    - exists x. split; [by eapply list_elem_of_lookup_2|done]. }
  split; [done|]. apply map_eq. intros e'. apply option_eq. intros c.
  rewrite cells_lookup by by apply (leaf_NoDup nb names Hw Hcf p).
  rewrite lookup_insert_Some, cells_lookup by done. split.
  - intros (x & [j Hj]%list_elem_of_lookup & <- & <-).
    apply list_lookup_insert_Some in Hj as [(-> & <- & _)|[Hij Hj]]; [by left|].
    right. assert (x ∈ es) by by eapply list_elem_of_lookup_2. split; [|by exists x].
    intros Ex. assert (ent = x) as <- by (eapply (leaf_element_inj nb names Hw Hcf p es); congruence).
    by eapply Hij, sorted_suffix_inj; [apply Hl|..].
  - intros [[<- <-]|[Hne (x & Hx & <- & <-)]].
    + exists ent'. split; [|done]. apply list_elem_of_lookup. exists i.
      by apply list_lookup_insert_eq, lookup_lt_Some with ent.
    + exists x. split; [|done]. apply list_elem_of_lookup in Hx as [j Hj].
      apply list_elem_of_lookup. exists j. rewrite list_lookup_insert_ne; [done|].
      intros ->. congruence.
Qed.

Lemma fresh_leaf_ok p e d s :
  names e → (length p ≤ max_depth nb)%nat → take (length p) (route nb e) = p →
  packed nb (drop (length p) (route nb e)) s → leaf_ok p [makeEntry s e {[d]}].
Proof.
  intros He Hd Hp Hs. split; [done|by repeat constructor|..]; intros x ->%list_elem_of_singleton; done.
Qed.

(** The leaf after an upsert holds the map after an add. *)
Lemma upsertIntoLeaf_ok g p es e d :
  leaf_ok p es → names e → take (length p) (route nb e) = p →
  ∃ es', upsertIntoLeaf (mkUpsert (mk g es) (key_of_element e) (length p) nb e d) = Ok (mk g es') ∧
    leaf_ok p es' ∧ cells es' = ElementMap.add e d (cells es).
Proof.
  intros Hl He Hp. destruct (suffix_ok nb names Hw Hcf e (length p)) as (s & Es & Hs);
    [done|by apply Hl|].
  pose proof (leaf_NoDup nb names Hw Hcf p es Hl) as Hnd.
  unfold upsertIntoLeaf. cbn [routeKey leafDepth nibbleBits leaf u_element encodedDot].
  rewrite Es. cbn [mbind result_bind].
  assert (∀ ent, ent ∈ es → routeKeySuffix ent = s ↔ element ent = e) as Hiff.
  { intros ent Hent. by apply (leaf_suffix_iff nb names Hw Hcf p es). }
  unfold ElementMap.add, ElementMap.at_.
  destruct (binarySearch_spec (mk g es) s (lf_sorted _ _ _ _ Hl)) as [[-> Hno]|(i & ent & -> & Hi & Hent)].
  - destruct (leaf_splice p es (makeEntry s e {[d]})) as [Hl' Hc]; [done| |done|].
    { apply fresh_leaf_ok; [done|by apply Hl|done|done]. }
    simpl in *. rewrite new_leaf_ok by apply Hl'. eexists. split; [done|]. split; [done|]. rewrite Hc.
    assert (cells es !! e = None) as ->.
    { apply eq_None_not_Some. intros [c (ent' & Hin & E & _)%cells_lookup]; [|done].
      by apply (Hno ent' Hin), Hiff. }
    rewrite decide_False by (simpl; set_solver). unfold cell_of. simpl. by rewrite (right_id_L ∅ (∪)).
  - simpl in Hi. rewrite (proj2 (Z.eqb_neq _ _)) by lia. simpl. rewrite Nat2Z.id.
    assert (ent ∈ es) as Hin by by eapply list_elem_of_lookup_2.
    assert (element ent = e) as E by by apply Hiff.
    unfold upsertAtExistingIndex, entries. simpl. rewrite Hi, bool_decide_true by done. simpl.
    assert (cells es !! e = Some (cell_of ent)) as Hc by (apply cells_lookup; [done|by exists ent]).
    rewrite Hc. simpl. case_bool_decide as Hd; [exists es; by rewrite decide_True by done|].
    rewrite decide_False by done.
    edestruct leaf_update as [Hl' Hc']; [exact Hl|exact Hi|..|rewrite new_leaf_ok by apply Hl'; eexists;
      split; [done|]; split; [done|]; rewrite Hc', E; done]; done.
Qed.
End leaf_updates.

(** ** Tombstones *)

Lemma tombstone_cell ent ds :
  cell_of (Helpers.tombstoneEntry ent ds).1 = ElementMap.kill ds (cell_of ent) ∧
  ((Helpers.tombstoneEntry ent ds).2 = false → cell_of (Helpers.tombstoneEntry ent ds).1 = cell_of ent).
Proof.
  unfold Helpers.tombstoneEntry, cell_of, ElementMap.kill. simpl. split; [done|].
  intros Hc%bool_decide_eq_false. apply dec_stable in Hc. f_equal; set_solver.
Qed.

(** ** Splitting a leaf by the next nibble *)
Section leaf_split.
Import TrieLeaf Helpers.
Context `{Hash} (nb : nat) (names : string → Prop).
Context (Hw : width_ok nb) (Hcf : collision_free nb names).
#[local] Abbreviation leaf_ok := (leaf_ok nb names).

Definition next_nibble (ent : TrieLeafEntry) : N := Suffix.firstNibbleOfSuffix (routeKeySuffix ent) nb.
Definition bucket_of (m : N) (es : list TrieLeafEntry) : list TrieLeafEntry :=
  filter (λ ent, next_nibble ent = m) es.
Definition nonempty_list {A} (l : list A) : option (list A) := match l with [] => None | _ => Some l end.

Lemma partition_lookup g es m :
  partitionEntriesByNextNibble (mk g es) nb !! m = nonempty_list (bucket_of m es).
Proof.
  unfold partitionEntriesByNextNibble, entries. simpl.
  assert (∀ out, (∀ k, out !! k ≠ Some []) →
    foldl (λ out entry, pushIntoBucket out (Suffix.firstNibbleOfSuffix (routeKeySuffix entry) nb) entry)
      out es !! m = nonempty_list (default [] (out !! m) ++ bucket_of m es)) as Hgen;
    [|rewrite Hgen; [by rewrite lookup_empty|intros k; by rewrite lookup_empty]].
  induction es as [|ent es IH]; intros out Hout; simpl.
  - unfold bucket_of. rewrite filter_nil, app_nil_r. specialize (Hout m). by destruct (out !! m) as [[]|].
  - unfold bucket_of. rewrite filter_cons. fold (bucket_of m es). rewrite IH; unfold pushIntoBucket.
    + fold (next_nibble ent). destruct (decide (next_nibble ent = m)) as [<-|Hne].
      * rewrite lookup_insert_eq. simpl. f_equal. fold (bucket_of (next_nibble ent) es).
        destruct (out !! _); simpl; [by rewrite <- app_assoc|done].
      * by rewrite lookup_insert_ne.
    + intros k. fold (next_nibble ent). destruct (decide (next_nibble ent = k)) as [<-|Hne].
      * rewrite lookup_insert_eq. by destruct (out !! _) as [[]|].
      * by rewrite lookup_insert_ne.
Qed.

Lemma sort_strict es : NoDup (routeKeySuffix <$> es) → StronglySorted entry_lt (js_sort compare_suffix es).
Proof.
  intros Hnd.
  assert (Sorted (cmp_le compare_suffix) (js_sort compare_suffix es)) as Hs.
  { apply js_sort_sorted. intros x y. apply (cmp_opp (cmp:=compareBytes)). }
  apply Sorted_StronglySorted in Hs;
    [|intros x y z; apply (cmp_le_trans compareBytes (routeKeySuffix x) (routeKeySuffix y))].
  assert (NoDup (routeKeySuffix <$> js_sort compare_suffix es)) as Hnd' by by rewrite js_sort_perm.
  induction (js_sort compare_suffix es) as [|x l IH]; [constructor|].
  rewrite fmap_cons in *. apply NoDup_cons in Hnd' as [Hx Hnd'].
  apply StronglySorted_cons in Hs as [Hle Hs]. constructor; [by apply IH|].
  apply Forall_forall. intros y Hy. rewrite Forall_forall in Hle. specialize (Hle y Hy).
  unfold entry_lt. unfold cmp_le, compare_suffix in Hle.
  destruct (decide (compareBytes (routeKeySuffix x) (routeKeySuffix y) = 0)) as [E%compareBytes_eq|]; [|lia].
  destruct Hx. rewrite E. by apply list_elem_of_fmap_2.
Qed.

(** The first nibble of a suffix is the next nibble of the route. *)
Lemma next_nibble_route p es ent :
  leaf_ok p es → ent ∈ es → (length p < max_depth nb)%nat →
  route nb (element ent) !! length p = Some (next_nibble ent) ∧
  packed nb (drop (S (length p)) (route nb (element ent)))
    (Suffix.shiftSuffixLeftByOneNibble (routeKeySuffix ent) nb (max_depth nb - length p)).
Proof.
  intros Hl Hent Hlt. pose proof (lf_suffix _ _ _ _ Hl ent Hent) as Hpk.
  destruct (lookup_lt_is_Some_2 (route nb (element ent)) (length p)) as [n Hn];
    [by rewrite route_length|].
  rewrite (drop_S _ _ _ Hn) in Hpk. split.
  - rewrite Hn. f_equal. symmetry. eapply first_nibble_packed; [done| |done].
    assert (Forall (λ v, v < 2 ^ N.of_nat nb)%N (route nb (element ent))) as Hb.
    { apply nibbles_bounded; [|done]. by apply (cf_key _ _ Hcf), (lf_named _ _ _ _ Hl). }
    rewrite Forall_lookup in Hb. by apply (Hb (length p)).
  - apply shift_packed in Hpk; [|done].
    rewrite length_drop, route_length in Hpk.
    by replace (max_depth nb - length p)%nat with (S (max_depth nb - S (length p))) by lia.
Qed.

Lemma take_S_path (p l : list N) n :
  take (length p) l = p → l !! length p = Some n → take (length (p ++ [n])) l = p ++ [n].
Proof. intros Hp Hn. rewrite length_app, Nat.add_1_r. by rewrite (take_S_r _ _ n), Hp. Qed.

Lemma shorten_perm es k : shortenEntries es nb k ≡ₚ
  (λ e, Entry (Suffix.shiftSuffixLeftByOneNibble (routeKeySuffix e) nb k) (element e) (dots e)
          (tombstonedDots e)) <$> es.
Proof. apply js_sort_perm. Qed.

(** A bucket, shortened, is a leaf one level down with the same cells. *)
Lemma shorten_ok p es m :
  leaf_ok p es → (length p < max_depth nb)%nat →
  let es' := shortenEntries (bucket_of m es) nb (max_depth nb - length p) in
  leaf_ok (p ++ [m]) es' ∧
  (∀ e, cells es' !! e = if decide (route nb e !! length p = Some m) then cells es !! e else None).
Proof.
  intros Hl Hlt es'.
  set (f := λ e, Entry (Suffix.shiftSuffixLeftByOneNibble (routeKeySuffix e) nb (max_depth nb - length p))
    (element e) (dots e) (tombstonedDots e)).
  assert (∀ x, x ∈ es' ↔ ∃ ent, x = f ent ∧ ent ∈ es ∧ next_nibble ent = m) as Hin.
  { intros x. unfold es'. rewrite shorten_perm, list_elem_of_fmap.
    split; intros (ent & -> & Hx); exists ent; (split; [done|]);
      unfold bucket_of in *; apply list_elem_of_filter in Hx || apply list_elem_of_filter; tauto. }
  assert (∀ ent, ent ∈ es → next_nibble ent = m → names (element (f ent)) ∧
    take (length (p ++ [m])) (route nb (element (f ent))) = p ++ [m] ∧
    packed nb (drop (length (p ++ [m])) (route nb (element (f ent)))) (routeKeySuffix (f ent))) as Hf.
  { intros ent Hent <-. destruct (next_nibble_route p es ent Hl Hent Hlt) as [Hn Hpk].
    split; [exact (lf_named _ _ _ _ Hl ent Hent)|].
    split; [apply take_S_path; [exact (lf_route _ _ _ _ Hl ent Hent)|done]|].
    by rewrite length_app, Nat.add_1_r. }
  assert (NoDup (routeKeySuffix <$> (f <$> bucket_of m es))) as Hnd.
  { rewrite <- list_fmap_compose. apply NoDup_fmap_2_strong; [|apply NoDup_filter, sorted_NoDup, Hl].
    intros a b [Ha Ha']%list_elem_of_filter [Hb Hb']%list_elem_of_filter E.
    destruct (Hf a Ha' Ha) as (Na & Ta & Pa), (Hf b Hb' Hb) as (Nb & Tb & Pb).
    apply (leaf_element_inj nb names Hw Hcf p es); [done..|].
    apply (suffix_element nb names Hw Hcf (p ++ [m]) _ _ (routeKeySuffix (f a))); try done.
    simpl in E. simpl. by rewrite E. }
  assert (leaf_ok (p ++ [m]) es') as Hl'.
  { split; [rewrite length_app; simpl; lia|by apply sort_strict|..];
      intros x (ent & -> & Hent & Hm)%Hin; by apply Hf. }
  split; [done|]. intros e. apply option_eq. intros c.
  rewrite cells_lookup by by apply (leaf_NoDup nb names Hw Hcf (p ++ [m])).
  assert (∀ ent, ent ∈ es → element ent = e → route nb e !! length p = Some (next_nibble ent)) as Hr.
  { intros ent Hent <-. by apply (next_nibble_route p es). }
  case_decide as Hm.
  - rewrite cells_lookup by by apply (leaf_NoDup nb names Hw Hcf p). split.
    + intros (x & (ent & -> & Hent & _)%Hin & <- & <-). by exists ent.
    + intros (ent & Hent & Ee & <-). exists (f ent). split; [|done]. apply Hin. exists ent.
      split; [done|]. split; [done|]. pose proof (Hr ent Hent Ee). congruence.
  - split; [|done]. intros (x & (ent & -> & Hent & Hx)%Hin & Ee & _). destruct Hm.
    rewrite (Hr ent Hent Ee). by rewrite Hx.
Qed.

(** Rewriting entries in place, element and suffix kept. *)
Lemma leaf_map_ok p es (f : TrieLeafEntry → TrieLeafEntry) :
  leaf_ok p es → (∀ ent, element (f ent) = element ent ∧ routeKeySuffix (f ent) = routeKeySuffix ent) →
  leaf_ok p (f <$> es).
Proof.
  intros Hl Hf. apply (leaf_ok_same nb names p es); [done| |].
  - pose proof (lf_sorted _ _ _ _ Hl) as Hs. clear Hl.
    induction Hs as [|x l Hs IH Hx]; csimpl; constructor; [done|].
    apply Forall_fmap, (Forall_impl _ _ _ Hx). intros y. unfold entry_lt. simpl.
    by rewrite (proj2 (Hf x)), (proj2 (Hf y)).
  - intros x (ent & -> & Hent)%list_elem_of_fmap. exists ent. split; [done|]. by destruct (Hf ent).
Qed.
End leaf_split.
