(* ===== verification/TrieCursor.v ===== *)
(** The cursor over a stored trie ([orset/trie/TrieCursor.ts]): pages are read
    from the store as the cursor descends and kept in maps keyed by their
    encoded path; changed pages are also in the dirty maps, and a branch above a
    changed page carries a pending handle for it. [compact] is in
    [TrieCompactor]. *)
From S2P Require Export TrieHelpers.

Module TrieCursor.
Import Helpers.

(* @src domain/orset/trie/TrieCursor.ts TrieCursor 67-78 *)
Record TrieCursor := mk {
  initialRootOid : option string;
  geometry : TrieGeometry;
  dirtyLeaves : gmap string TrieLeaf;
  dirtyBranches : gmap string TrieBranch;
  cleanChildren : gmap string string;
  workingLeaves : gmap string TrieLeaf;
  workingBranches : gmap string TrieBranch;
  rootLoaded : bool }.

(* @src domain/orset/trie/TrieCursor.ts constructor *)
Definition new (rootOid : option string) (geometry : TrieGeometry) : TrieCursor :=
  mk rootOid geometry ∅ ∅ ∅ ∅ ∅ false.

(** Deeper than any trie of 256-bit keys; never reached on well-formed pages. *)
Definition E_TOO_DEEP : error := Err "RangeError" "".

(** *** The maps *)

(* @src domain/orset/trie/TrieCursor.ts #hasRoot *)
Definition hasRoot (c : TrieCursor) : bool :=
  bool_decide (is_Some (workingBranches c !! "") ∨ is_Some (dirtyBranches c !! "")).

(* @src domain/orset/trie/TrieCursor.ts #branchAt *)
Definition branchAt (c : TrieCursor) (path : list N) : option TrieBranch :=
  let key := encodeDirtyPath path in
  match dirtyBranches c !! key with Some b => Some b | None => workingBranches c !! key end.

(* @src domain/orset/trie/TrieCursor.ts #leafAt *)
Definition leafAt (c : TrieCursor) (path : list N) : option TrieLeaf :=
  let key := encodeDirtyPath path in
  match dirtyLeaves c !! key with Some l => Some l | None => workingLeaves c !! key end.

(* @src domain/orset/trie/TrieCursor.ts #markBranchDirty *)
Definition markBranchDirty (path : list N) (branch : TrieBranch) (c : TrieCursor) : TrieCursor :=
  let key := encodeDirtyPath path in
  mk (initialRootOid c) (geometry c) (dirtyLeaves c) (<[key := branch]> (dirtyBranches c))
    (cleanChildren c) (workingLeaves c) (<[key := branch]> (workingBranches c)) (rootLoaded c).

(* @src domain/orset/trie/TrieCursor.ts #markLeafDirty *)
Definition markLeafDirty (path : list N) (leaf : TrieLeaf) (c : TrieCursor) : TrieCursor :=
  let key := encodeDirtyPath path in
  mk (initialRootOid c) (geometry c) (<[key := leaf]> (dirtyLeaves c)) (dirtyBranches c)
    (cleanChildren c) (<[key := leaf]> (workingLeaves c)) (workingBranches c) (rootLoaded c).

(* @src domain/orset/trie/TrieCursor.ts #clearLeafAt *)
Definition clearLeafAt (path : list N) (c : TrieCursor) : TrieCursor :=
  let key := encodeDirtyPath path in
  mk (initialRootOid c) (geometry c) (delete key (dirtyLeaves c)) (dirtyBranches c)
    (cleanChildren c) (delete key (workingLeaves c)) (workingBranches c) (rootLoaded c).

(* @src domain/orset/trie/TrieCursor.ts #clearBranchAt *)
Definition clearBranchAt (path : list N) (c : TrieCursor) : TrieCursor :=
  let key := encodeDirtyPath path in
  mk (initialRootOid c) (geometry c) (dirtyLeaves c) (delete key (dirtyBranches c))
    (cleanChildren c) (workingLeaves c) (delete key (workingBranches c)) (rootLoaded c).

(** [workingLeaves.set], [workingBranches.set] and [cleanChildren.set] of a
    loaded page. *)
Definition set_loaded_leaf (path : list N) (leaf : TrieLeaf) (oid : string) (c : TrieCursor)
  : TrieCursor :=
  let key := encodeDirtyPath path in
  mk (initialRootOid c) (geometry c) (dirtyLeaves c) (dirtyBranches c)
    (<[key := oid]> (cleanChildren c)) (<[key := leaf]> (workingLeaves c)) (workingBranches c)
    (rootLoaded c).
Definition set_loaded_branch (path : list N) (branch : TrieBranch) (oid : string) (c : TrieCursor)
  : TrieCursor :=
  let key := encodeDirtyPath path in
  mk (initialRootOid c) (geometry c) (dirtyLeaves c) (dirtyBranches c)
    (<[key := oid]> (cleanChildren c)) (workingLeaves c) (<[key := branch]> (workingBranches c))
    (rootLoaded c).
Definition set_root (branch : TrieBranch) (c : TrieCursor) : TrieCursor :=
  mk (initialRootOid c) (geometry c) (dirtyLeaves c) (dirtyBranches c) (cleanChildren c)
    (workingLeaves c) (<["" := branch]> (workingBranches c)) (rootLoaded c).
Definition set_rootLoaded (c : TrieCursor) : TrieCursor :=
  mk (initialRootOid c) (geometry c) (dirtyLeaves c) (dirtyBranches c) (cleanChildren c)
    (workingLeaves c) (workingBranches c) true.

(* @src domain/orset/trie/TrieCursor.ts snapshot *)
Definition snapshot (c : TrieCursor) : result DirtyPageSet :=
  DirtyPageSet.new (initialRootOid c) (dirtyLeaves c) (dirtyBranches c) (cleanChildren c).

(* @src domain/orset/trie/TrieCursor.ts dirtyPageCount *)
Definition dirtyPageCount (c : TrieCursor) : Z :=
  Z.of_nat (size (dirtyLeaves c)) + Z.of_nat (size (dirtyBranches c)).

(* @src domain/orset/trie/TrieCursor.ts rebase *)
Definition rebase (rootOid : option string) : step TrieCursor unit := λ c,
  if root_oid_ok rootOid then (mk rootOid (geometry c) ∅ ∅ ∅ ∅ ∅ false, Ok ())
  else (c, Throw E_CURSOR_STRUCTURE).

(** *** Entries of a leaf *)

(* @src domain/orset/trie/TrieCursor.ts rewriteLeafWithTombstones *)
Definition rewriteLeafWithTombstones (leaf : TrieLeaf) (observedDots : gset string)
  : option (list TrieLeafEntry) :=
  let results := (λ entry, tombstoneEntry entry observedDots) <$> TrieLeaf.entries leaf in
  if existsb snd results then Some results.*1 else None.

(* @src domain/orset/trie/TrieCursor.ts rewriteElementWithTombstones *)
Definition rewriteElementWithTombstones (leaf : TrieLeaf) (element : string)
  (observedDots : gset string) : option (list TrieLeafEntry) :=
  let results := (λ entry, if negb (bool_decide (TrieLeaf.element entry = element))
                           then (entry, false) else tombstoneEntry entry observedDots)
                   <$> TrieLeaf.entries leaf in
  if existsb snd results then Some results.*1 else None.

(* @src domain/orset/trie/TrieCursor.ts LocatedEntry 889-893 *)
Record LocatedEntry := Located {
  entry : TrieLeafEntry; located_leaf : TrieLeaf; located_path : list N }.

(* @src domain/orset/trie/TrieCursor.ts LookupTarget 895-899 *)
Record LookupTarget := Target {
  t_routeKey : RouteKey.RouteKey; t_element : string; t_nibbleBits : nat }.

(* @src domain/orset/trie/TrieCursor.ts locateEntryInLeaf *)
Definition locateEntryInLeaf (leaf : TrieLeaf) (path : list N) (depth : nat) (target : LookupTarget)
  : result (option LocatedEntry) :=
  found ← findEntryInLeaf leaf (t_routeKey target) depth (t_nibbleBits target) (t_element target);
  Ok (fmap (M:=option) (λ entry, Located entry leaf path) found).

(* @src domain/orset/trie/TrieCursor.ts liveElementsOf *)
Definition liveElementsOf (leaf : TrieLeaf) : list string :=
  TrieLeaf.element <$> filter (λ entry, TrieLeaf.dots entry ≠ ∅) (TrieLeaf.entries leaf).

(* @src domain/orset/trie/TrieCursor.ts elementStateOfEntry *)
Definition elementStateOfEntry (entry : TrieLeafEntry) : result ElementState :=
  ORSetElementState.new (TrieLeaf.element entry) (TrieLeaf.dots entry)
    (TrieLeaf.tombstonedDots entry).

(* @src domain/orset/trie/TrieCursor.ts LookupStep 884-887 *)
Inductive LookupStep : Type :=
  | missing
  | at_leaf (leaf : TrieLeaf) (path : list N)
  | at_branch (nextPath : list N).

(** ["leaf"] or ["branch"]: [ensureChildLoaded] is declared to return [null]
    too, and never does. *)
Inductive child_kind : Type := KLeaf | KBranch.

(* @src domain/orset/trie/TrieCursor.ts InsertContext *)
Record InsertContext := mkInsert {
  i_routeKey : RouteKey.RouteKey; i_element : string; i_encodedDot : string;
  i_depth : nat; i_nibbleBits : nat; i_maxDepth : nat }.

(* @src domain/orset/trie/TrieCursor.ts SplitContext *)
Record SplitContext := mkSplit {
  parentPath : list N; leafPath : list N; nibbleInParent : N; leafDepth : nat;
  s_nibbleBits : nat; s_maxDepth : nat }.

(* @src domain/orset/trie/TrieCursor.ts advanceCtx *)
Definition advanceCtx (ctx : InsertContext) : InsertContext :=
  mkInsert (i_routeKey ctx) (i_element ctx) (i_encodedDot ctx) (S (i_depth ctx))
    (i_nibbleBits ctx) (i_maxDepth ctx).

Section cursor.
Context `{Hash} `{Codec} {W : Type} `{TrieStore W}.

Abbreviation cur := (step (TrieCursor * W)).

Definition asks {A} (f : TrieCursor → A) : cur A := λ s, (s, Ok (f s.1)).
Definition changes (f : TrieCursor → TrieCursor) : cur unit := λ '(c, w), ((f c, w), Ok ()).
Definition stores {A} (f : W → result A) : cur A := λ s, (s, f s.2).

(* @src domain/orset/trie/TrieCursor.ts #makeInsertContext *)
Definition makeInsertContext (c : TrieCursor) (element : string) (dot : Dot.Dot)
  : result InsertContext :=
  routeKey ← RouteKey.fromElement element;
  let encodedDot := Dot.encode dot in
  nibbleBits ← nibbleBitsOf (TrieGeometry.nibbleBits (geometry c));
  Ok (mkInsert routeKey element encodedDot 0 nibbleBits (256 / nibbleBits)).

(* @src domain/orset/trie/TrieCursor.ts #buildBranchWithPendingChild *)
Definition buildBranchWithPendingChild (c : TrieCursor) (path : list N) (mutatedNibble : N)
  : result TrieBranch :=
  let existing := branchAt c path in
  let entries := match existing with Some b => TrieBranch.entries b | None => ∅ end in
  TrieBranch.new (<[mutatedNibble := pendingChildOid path mutatedNibble]> entries) (geometry c).

(* @src domain/orset/trie/TrieCursor.ts #rebindParentBranch *)
Definition rebindParentBranch (parentPath : list N) (nibble : N) : cur unit :=
  built ← asks (λ c, buildBranchWithPendingChild c parentPath nibble);
  branch ← lift built;
  changes (markBranchDirty parentPath branch).

(* @src domain/orset/trie/TrieCursor.ts #markLoadedLeafMutation *)
Definition markLoadedLeafMutation (path : list N) (leaf : TrieLeaf) : cur unit :=
  _ ← changes (markLeafDirty path leaf);
  for_each (λ parentDepth,
    match path !! parentDepth with
    | Some nibble => rebindParentBranch (take parentDepth path) nibble
    | None => mret ()
    end) (reverse (seq 0 (length path))).

(** *** Loading *)

(* @src domain/orset/trie/TrieCursor.ts #readBranchStrict *)
Definition readBranchStrict (oid : string) : cur TrieBranch := λ '(c, w),
  ((c, w),
   match readBranch w oid with
   | Throw raw => Throw (wrapStoreError raw)
   | Ok entries =>
       match TrieBranch.new entries (geometry c) with
       | Throw raw => Throw (wrapDecodeError raw)
       | Ok b => Ok b
       end
   end).

(* @src domain/orset/trie/TrieCursor.ts #readLeafBytesAllowingMissing *)
Definition readLeafBytesAllowingMissing (w : W) (oid : string) : result (option (list N)) :=
  match readLeaf w oid with
  | Ok bytes => Ok (Some bytes)
  | Throw raw => if isMissingStoreError raw then Ok None else Throw (wrapStoreError raw)
  end.

(* @src domain/orset/trie/TrieCursor.ts #decodeBytesAsLeafOrFallThrough *)
Definition decodeBytesAsLeafOrFallThrough (bytes : list N) (g : TrieGeometry) : option TrieLeaf :=
  match TrieLeaf.deserialize bytes g with Ok l => Some l | Throw _ => None end.

(* @src domain/orset/trie/TrieCursor.ts #tryReadLeaf *)
Definition tryReadLeaf (oid : string) : cur (option TrieLeaf) := λ '(c, w),
  ((c, w),
   bytes ← readLeafBytesAllowingMissing w oid;
   match bytes with
   | None => Ok None
   | Some bytes => if bool_decide (bytes = []) then Ok None
                   else Ok (decodeBytesAsLeafOrFallThrough bytes (geometry c))
   end).

(** The root counts as loaded from here on, also when the read throws. *)
(* @src domain/orset/trie/TrieCursor.ts #loadRootIfNeeded *)
Definition loadRootIfNeeded : cur unit :=
  loaded ← asks rootLoaded;
  if loaded : bool then mret () else
  _ ← changes set_rootLoaded;
  root ← asks initialRootOid;
  match root with
  | None => mret ()
  | Some oid => rootBranch ← readBranchStrict oid; changes (set_root rootBranch)
  end.

(* @src domain/orset/trie/TrieCursor.ts #loadChildFromStore *)
Definition loadChildFromStore (childPath : list N) (childOid : string) : cur child_kind :=
  leaf ← tryReadLeaf childOid;
  match leaf with
  | Some leaf => _ ← changes (set_loaded_leaf childPath leaf childOid); mret KLeaf
  | None =>
      branch ← readBranchStrict childOid;
      _ ← changes (set_loaded_branch childPath branch childOid); mret KBranch
  end.

(* @src domain/orset/trie/TrieCursor.ts #ensureChildLoaded *)
Definition ensureChildLoaded (parentPath : list N) (nibble : N) (childOid : string)
  : cur child_kind :=
  let childPath := parentPath ++ [nibble] in
  leaf ← asks (λ c, leafAt c childPath);
  match leaf with
  | Some _ => mret KLeaf
  | None =>
      branch ← asks (λ c, branchAt c childPath);
      match branch with
      | Some _ => mret KBranch
      | None => loadChildFromStore childPath childOid
      end
  end.

(** *** The read path *)

(* @src domain/orset/trie/TrieCursor.ts #stepIntoChild *)
Definition stepIntoChild (parentPath : list N) (nibble : N) (childOid : string) : cur LookupStep :=
  kind ← ensureChildLoaded parentPath nibble childOid;
  let nextPath := parentPath ++ [nibble] in
  match kind with
  | KLeaf => asks (λ c, match leafAt c nextPath with
                        | Some leaf => at_leaf leaf nextPath
                        | None => missing
                        end)
  | KBranch => mret (at_branch nextPath)
  end.

(* @src domain/orset/trie/TrieCursor.ts #stepLookup *)
Definition stepLookup (routeKey : RouteKey.RouteKey) (path : list N) (depth nibbleBits : nat)
  : cur LookupStep :=
  branch ← asks (λ c, branchAt c path);
  match branch with
  | None => mret missing
  | Some branch =>
      nibble ← lift (RouteKey.nibbleAt routeKey depth nibbleBits);
      match TrieBranch.get branch nibble with
      | None => mret missing
      | Some childOid => stepIntoChild path nibble childOid
      end
  end.

(* @src domain/orset/trie/TrieCursor.ts #locateTerminalEntry *)
Definition locateTerminalEntry (path : list N) (target : LookupTarget) (depth : nat)
  : cur (option LocatedEntry) :=
  terminal ← asks (λ c, leafAt c path);
  match terminal with
  | None => mret None
  | Some leaf => lift (locateEntryInLeaf leaf path depth target)
  end.

(** The loop over the depths, with the number of the remaining ones. *)
Fixpoint descend (remaining : nat) (target : LookupTarget) (path : list N) (depth : nat)
  : cur (option LocatedEntry) :=
  match remaining with
  | O => locateTerminalEntry path target depth
  | S remaining' =>
      st ← stepLookup (t_routeKey target) path depth (t_nibbleBits target);
      match st with
      | missing => mret None
      | at_leaf leaf leafPath => lift (locateEntryInLeaf leaf leafPath (S depth) target)
      | at_branch nextPath => descend remaining' target nextPath (S depth)
      end
  end.

(* @src domain/orset/trie/TrieCursor.ts #descendForLookup *)
Definition descendForLookup (target : LookupTarget) : cur (option LocatedEntry) :=
  descend (256 / t_nibbleBits target) target [] 0.

(* @src domain/orset/trie/TrieCursor.ts #locateEntry *)
Definition locateEntry (element : string) : cur (option LocatedEntry) :=
  _ ← loadRootIfNeeded;
  root ← asks hasRoot;
  if negb root then mret None else
  routeKey ← lift (RouteKey.fromElement element);
  g ← asks geometry;
  nibbleBits ← lift (nibbleBitsOf (TrieGeometry.nibbleBits g));
  descendForLookup (Target routeKey element nibbleBits).

(* @src domain/orset/trie/TrieCursor.ts #lookupEntry *)
Definition lookupEntry (element : string) : cur (option TrieLeafEntry) :=
  located ← locateEntry element; mret (fmap (M:=option) entry located).

(* @src domain/orset/trie/TrieCursor.ts contains *)
Definition contains (element : string) : cur bool :=
  _ ← lift (validateElement element);
  found ← lookupEntry element;
  mret (match found with Some e => bool_decide (TrieLeaf.dots e ≠ ∅) | None => false end).

(* @src domain/orset/trie/TrieCursor.ts getDots *)
Definition getDots (element : string) : cur (gset string) :=
  _ ← lift (validateElement element);
  found ← lookupEntry element;
  mret (match found with Some e => TrieLeaf.dots e | None => ∅ end).

(* @src domain/orset/trie/TrieCursor.ts getElementState *)
Definition getElementState (element : string) : cur (option ElementState) :=
  _ ← lift (validateElement element);
  found ← lookupEntry element;
  match found with
  | Some e => st ← lift (elementStateOfEntry e); mret (Some st)
  | None => mret None
  end.

(** *** The write path *)

(* @src domain/orset/trie/TrieCursor.ts #requireBranchAt *)
Definition requireBranchAt (path : list N) : cur TrieBranch :=
  branch ← asks (λ c, branchAt c path);
  lift (match branch with Some b => Ok b | None => Throw E_CURSOR_STRUCTURE end).

(* @src domain/orset/trie/TrieCursor.ts #requireLeafAt *)
Definition requireLeafAt (path : list N) : cur TrieLeaf :=
  leaf ← asks (λ c, leafAt c path);
  lift (match leaf with Some l => Ok l | None => Throw E_CURSOR_STRUCTURE end).

(** A leaf of one entry below [path]. *)
Definition install_fresh_leaf (path : list N) (nibble : N) (leafDepth : nat) (ctx : InsertContext)
  : cur unit :=
  suffix ← lift (Suffix.suffixOfRouteKey (i_routeKey ctx) leafDepth (i_nibbleBits ctx));
  let entry := makeEntry suffix (i_element ctx) {[i_encodedDot ctx]} in
  g ← asks geometry;
  leaf ← lift (TrieLeaf.new [entry] g);
  _ ← changes (markLeafDirty (path ++ [nibble]) leaf);
  rebindParentBranch path nibble.

(* @src domain/orset/trie/TrieCursor.ts #createFirstRoot *)
Definition createFirstRoot (ctx : InsertContext) : cur unit :=
  rootNibble ← lift (RouteKey.nibbleAt (i_routeKey ctx) 0 (i_nibbleBits ctx));
  install_fresh_leaf [] rootNibble 1 ctx.

(* @src domain/orset/trie/TrieCursor.ts #insertFreshLeafChild *)
Definition insertFreshLeafChild (parentPath : list N) (nibble : N) (ctx : InsertContext) : cur unit :=
  install_fresh_leaf parentPath nibble (S (i_depth ctx)) ctx.

(* @src domain/orset/trie/TrieCursor.ts #installPartitionedLeaves *)
Definition installPartitionedLeaves (ctx : SplitContext) (partitions : gmap N (list TrieLeafEntry))
  : cur TrieBranch :=
  let suffixNibbles := (s_maxDepth ctx - leafDepth ctx)%nat in
  childEntries ← for_fold (λ childEntries '(childNibble, childEntriesList),
    g ← asks geometry;
    nibbleBits ← lift (nibbleBitsOf (TrieGeometry.nibbleBits g));
    childLeaf ← lift (TrieLeaf.new (shortenEntries childEntriesList nibbleBits suffixNibbles) g);
    _ ← changes (markLeafDirty (leafPath ctx ++ [childNibble]) childLeaf);
    mret (<[childNibble := pendingChildOid (leafPath ctx) childNibble]> childEntries))
    (map_to_list partitions) ∅;
  g ← asks geometry;
  lift (TrieBranch.new childEntries g).

(* @src domain/orset/trie/TrieCursor.ts #cascadeSplitsInto *)
Definition cascadeSplitsInto (splitLeaf : SplitContext → cur unit) (parentCtx : SplitContext)
  (branch : TrieBranch) : cur unit :=
  let childDepth := S (leafDepth parentCtx) in
  for_each (λ childNibble,
    let childPath := leafPath parentCtx ++ [childNibble] in
    childLeaf ← asks (λ c, leafAt c childPath);
    g ← asks geometry;
    match childLeaf with
    | Some childLeaf =>
        if negb (TrieLeaf.requiresSplit childLeaf g) then mret ()
        else splitLeaf (mkSplit (leafPath parentCtx) childPath childNibble childDepth
                          (s_nibbleBits parentCtx) (s_maxDepth parentCtx))
    | None => mret ()
    end) (map_to_list (TrieBranch.entries branch)).*1.

(** The fuel is [maxDepth - leafDepth + 1]: the depth grows with each call. *)
(* @src domain/orset/trie/TrieCursor.ts #splitLeaf *)
Fixpoint splitLeaf (fuel : nat) (ctx : SplitContext) : cur unit :=
  match fuel with
  | O => lift (Throw E_TOO_DEEP)
  | S fuel' =>
      if (s_maxDepth ctx <=? leafDepth ctx)%nat then mret () else
      leaf ← asks (λ c, leafAt c (leafPath ctx));
      match leaf with
      | None => mret ()
      | Some leaf =>
          let partitions := partitionEntriesByNextNibble leaf (s_nibbleBits ctx) in
          _ ← changes (clearLeafAt (leafPath ctx));
          newBranch ← installPartitionedLeaves ctx partitions;
          _ ← changes (markBranchDirty (leafPath ctx) newBranch);
          _ ← rebindParentBranch (parentPath ctx) (nibbleInParent ctx);
          cascadeSplitsInto (splitLeaf fuel') ctx newBranch
      end
  end.

(* @src domain/orset/trie/TrieCursor.ts #insertIntoLeafAtPath *)
Definition insertIntoLeafAtPath (parentPath childPath : list N) (nibble : N) (ctx : InsertContext)
  : cur unit :=
  leaf ← requireLeafAt childPath;
  nextLeaf ← lift (upsertIntoLeaf (mkUpsert leaf (i_routeKey ctx) (S (i_depth ctx))
    (i_nibbleBits ctx) (i_element ctx) (i_encodedDot ctx)));
  _ ← changes (markLeafDirty childPath nextLeaf);
  _ ← rebindParentBranch parentPath nibble;
  g ← asks geometry;
  if TrieLeaf.requiresSplit nextLeaf g
  then splitLeaf (S (i_maxDepth ctx - S (i_depth ctx)))
         (mkSplit parentPath childPath nibble (S (i_depth ctx)) (i_nibbleBits ctx) (i_maxDepth ctx))
  else mret ().

(* @src domain/orset/trie/TrieCursor.ts #dispatchChildInsert *)
Definition dispatchChildInsert (insertBelowBranch : list N → InsertContext → cur unit)
  (parentPath : list N) (nibble : N) (kind : child_kind) (ctx : InsertContext) : cur unit :=
  let childPath := parentPath ++ [nibble] in
  match kind with
  | KLeaf => insertIntoLeafAtPath parentPath childPath nibble ctx
  | KBranch =>
      let nextCtx := advanceCtx ctx in
      _ ← insertBelowBranch childPath nextCtx;
      rebindParentBranch parentPath nibble
  end.

(** The fuel is [maxDepth - depth + 1]: below that [nibbleAt] throws. *)
(* @src domain/orset/trie/TrieCursor.ts #insertBelowBranch *)
Fixpoint insertBelowBranch (fuel : nat) (parentPath : list N) (ctx : InsertContext) : cur unit :=
  match fuel with
  | O => lift (Throw E_TOO_DEEP)
  | S fuel' =>
      branch ← requireBranchAt parentPath;
      nibble ← lift (RouteKey.nibbleAt (i_routeKey ctx) (i_depth ctx) (i_nibbleBits ctx));
      match TrieBranch.get branch nibble with
      | None => insertFreshLeafChild parentPath nibble ctx
      | Some childOid =>
          kind ← ensureChildLoaded parentPath nibble childOid;
          dispatchChildInsert (insertBelowBranch fuel') parentPath nibble kind ctx
      end
  end.

(* @src domain/orset/trie/TrieCursor.ts #insertAtRoot *)
Definition insertAtRoot (ctx : InsertContext) : cur unit :=
  root ← asks hasRoot;
  if negb root then createFirstRoot ctx else insertBelowBranch (S (i_maxDepth ctx)) [] ctx.

(* @src domain/orset/trie/TrieCursor.ts add *)
Definition add (element : string) (dot : Dot.Dot) : cur unit :=
  _ ← lift (validateElement element);
  _ ← lift (validateDot dot);
  ctx ← asks (λ c, makeInsertContext c element dot);
  ctx ← lift ctx;
  _ ← loadRootIfNeeded;
  insertAtRoot ctx.

(* @src domain/orset/trie/TrieCursor.ts removeElement *)
Definition removeElement (element : string) (observedDots : gset string) : cur unit :=
  _ ← lift (validateElement element);
  if bool_decide (observedDots = ∅) then mret () else
  located ← locateEntry element;
  match located with
  | None => mret ()
  | Some located =>
      match rewriteElementWithTombstones (located_leaf located) element observedDots with
      | None => mret ()
      | Some next =>
          g ← asks geometry;
          leaf ← lift (TrieLeaf.new next g);
          markLoadedLeafMutation (located_path located) leaf
      end
  end.

(** *** Walks over all pages

    The fuel of a walk is the number of levels that are left. *)

(* @src domain/orset/trie/TrieCursor.ts #tombstoneInLeaf *)
Definition tombstoneInLeaf (leafPath : list N) (leaf : TrieLeaf) (observedDots : gset string)
  : cur unit :=
  match rewriteLeafWithTombstones leaf observedDots with
  | None => mret ()
  | Some next =>
      g ← asks geometry;
      leaf ← lift (TrieLeaf.new next g);
      markLoadedLeafMutation leafPath leaf
  end.

(* @src domain/orset/trie/TrieCursor.ts #descendTombstone *)
Definition descendTombstone (tombstoneBelow : list N → gset string → cur unit) (path : list N)
  (branch : TrieBranch) (observedDots : gset string) : cur unit :=
  for_each (λ '(childNibble, childOid),
    _ ← ensureChildLoaded path childNibble childOid;
    tombstoneBelow (path ++ [childNibble]) observedDots)
    (map_to_list (TrieBranch.entries branch)).

(* @src domain/orset/trie/TrieCursor.ts #tombstoneBelow *)
Fixpoint tombstoneBelow (fuel : nat) (path : list N) (observedDots : gset string) : cur unit :=
  match fuel with
  | O => lift (Throw E_TOO_DEEP)
  | S fuel' =>
      leaf ← asks (λ c, leafAt c path);
      match leaf with
      | Some leaf => tombstoneInLeaf path leaf observedDots
      | None =>
          branch ← asks (λ c, branchAt c path);
          match branch with
          | None => mret ()
          | Some branch => descendTombstone (tombstoneBelow fuel') path branch observedDots
          end
      end
  end.

(** The levels of a trie: [maxDepth] branches and a leaf. *)
Definition levels (c : TrieCursor) : nat := S (256 / TrieGeometry.nibbleBits (geometry c)).

(* @src domain/orset/trie/TrieCursor.ts remove *)
Definition remove (observedDots : gset string) : cur unit :=
  if bool_decide (observedDots = ∅) then mret () else
  _ ← loadRootIfNeeded;
  root ← asks hasRoot;
  if negb root then mret () else
  fuel ← asks levels;
  tombstoneBelow fuel [] observedDots.

(** [keys.sort((a, b) => a - b)] *)
Definition sort_nibbles (nibbles : list N) : list N := js_sort (λ a b, Z.of_N a - Z.of_N b) nibbles.

(** The children in the order of their nibbles. *)
(* @src domain/orset/trie/TrieCursor.ts #descendScanElementStates *)
Definition descendScan {A} (scanBelow : list N → cur (list A)) (path : list N) (branch : TrieBranch)
  : cur (list A) :=
  for_fold (λ out nibble,
    match TrieBranch.get branch nibble with
    | None => mret out
    | Some childOid =>
        _ ← ensureChildLoaded path nibble childOid;
        below ← scanBelow (path ++ [nibble]);
        mret (out ++ below)
    end) (sort_nibbles (map_to_list (TrieBranch.entries branch)).*1) [].

(** What a scan yields at each leaf is [emit]; a consumer that stops early is
    not modelled. *)
(* @src domain/orset/trie/TrieCursor.ts #scanElementStatesBelow *)
Fixpoint scanBelow {A} (emit : TrieLeaf → result (list A)) (fuel : nat) (path : list N)
  : cur (list A) :=
  match fuel with
  | O => lift (Throw E_TOO_DEEP)
  | S fuel' =>
      leaf ← asks (λ c, leafAt c path);
      match leaf with
      | Some leaf => lift (emit leaf)
      | None =>
          branch ← asks (λ c, branchAt c path);
          match branch with
          | None => mret []
          | Some branch => descendScan (scanBelow emit fuel') path branch
          end
      end
  end.

Definition scan_from_root {A} (emit : TrieLeaf → result (list A)) : cur (list A) :=
  _ ← loadRootIfNeeded;
  root ← asks hasRoot;
  if negb root then mret [] else
  fuel ← asks levels;
  scanBelow emit fuel [].

(* @src domain/orset/trie/TrieCursor.ts scan *)
Definition scan : cur (list string) := scan_from_root (λ leaf, Ok (liveElementsOf leaf)).

(* @src domain/orset/trie/TrieCursor.ts elements *)
Definition elements : cur (list string) := scan.

(* @src domain/orset/trie/TrieCursor.ts scanElementStates *)
Definition scanElementStates : cur (list ElementState) :=
  scan_from_root (λ leaf, map_result elementStateOfEntry (TrieLeaf.entries leaf)).
End cursor.
End TrieCursor.
Abbreviation TrieCursor := TrieCursor.TrieCursor.
