(* ===== verification/TrieFlusher.v ===== *)
(** Writing the changed pages of a cursor back ([orset/trie/TrieFlusher.ts]),
    and the engine that a session opens on a trie
    ([orset/shadow/ShadowTrieORSet.ts]). At the end: compaction. *)
From S2P Require Export TrieCursor.

Module TrieFlusher.
Import DirtyPageSet.

Definition TrieFlushError (code : string) : error := Err "TrieFlushError" code.
Definition E_FLUSH_ENCODE : error := TrieFlushError "E_TRIE_FLUSH_ENCODE".
Definition E_FLUSH_STORE : error := TrieFlushError "E_TRIE_FLUSH_STORE".
Definition E_FLUSH_UNRESOLVED : error := TrieFlushError "E_TRIE_FLUSH_UNRESOLVED".

(* @src domain/orset/trie/TrieFlusher.ts wrapFlushError *)
Definition wrapFlushError (raw : error) (code : error) : error :=
  if bool_decide (err_class raw = "TrieFlushError") then raw else code.

(** A call whose errors are wrapped. *)
Definition wrapping {S A} (code : error) (m : step S A) : step S A := λ s,
  match m s with
  | (s', Ok a) => (s', Ok a)
  | (s', Throw raw) => (s', Throw (wrapFlushError raw code))
  end.

(* @src domain/orset/trie/TrieFlusher.ts FlushState *)
Record FlushState := mkState {
  rootOid : option string; blobsWritten : Z; treesWritten : Z; bytesWritten : Z;
  newOidByPath : gmap string string }.

(* @src domain/orset/trie/TrieFlusher.ts createFlushState *)
Definition createFlushState : FlushState := mkState None 0 0 0 ∅.

(* @src domain/orset/trie/TrieFlusher.ts isPendingOid *)
Definition isPendingOid (oid : string) : bool := String.prefix "pending:" oid.

(* @src domain/orset/trie/TrieFlusher.ts resolveChildOid *)
Definition resolveChildOid (originalOid : string) (childPath : list N) (dirty : DirtyPageSet)
  (state : FlushState) : result string :=
  match newOidByPath state !! encodeDirtyPath childPath with
  | Some freshlyWritten => Ok freshlyWritten
  | None =>
      match cleanChildOidAt dirty childPath with
      | Some cleanChild => Ok cleanChild
      | None => if negb (isPendingOid originalOid) then Ok originalOid else Throw E_FLUSH_UNRESOLVED
      end
  end.

(* @src domain/orset/trie/TrieFlusher.ts resolveBranchChildren *)
Definition resolveBranchChildren (branch : TrieBranch) (path : list N) (dirty : DirtyPageSet)
  (state : FlushState) : result TrieBranchEntries :=
  resolved ← map_result (λ '(nibble, originalOid),
    oid ← resolveChildOid originalOid (path ++ [nibble]) dirty state;
    Ok (nibble, oid)) (map_to_list (TrieBranch.entries branch));
  Ok (list_to_map resolved).

Section flusher.
Context `{Codec} {W : Type} `{TrieStore W}.

Abbreviation flushing := (step (FlushState * W)).

Definition in_store {A} (m : step W A) : flushing A := λ '(st, w),
  let '(w', r) := m w in ((st, w'), r).

(** [newOidByPath.set], the counters, and the root at the empty path. *)
Definition record_page (path : list N) (oid : string) (blobs trees bytes : Z) : flushing unit :=
  modify (λ '(st, w),
    (mkState (if bool_decide (path = []) then Some oid else rootOid st)
       (blobsWritten st + blobs) (treesWritten st + trees) (bytesWritten st + bytes)
       (<[encodeDirtyPath path := oid]> (newOidByPath st)), w)).

(* @src domain/orset/trie/TrieFlusher.ts #processLeaf *)
Definition processLeaf (path : list N) (leaf : TrieLeaf) : flushing unit :=
  bytes ← wrapping E_FLUSH_ENCODE (lift (TrieLeaf.serialize leaf));
  oid ← wrapping E_FLUSH_STORE (in_store (writeLeaf bytes));
  record_page path oid 1 0 (Z.of_nat (length bytes)).

(* @src domain/orset/trie/TrieFlusher.ts #processBranch *)
Definition processBranch (path : list N) (branch : TrieBranch) (dirty : DirtyPageSet) : flushing unit :=
  st ← get;
  resolved ← lift (resolveBranchChildren branch path dirty st.1);
  oid ← wrapping E_FLUSH_STORE (in_store (writeBranch resolved));
  record_page path oid 0 1 0.

(* @src domain/orset/trie/TrieFlusher.ts #processEntry *)
Definition processEntry (dirty : DirtyPageSet) (entry : DirtyPageEntry) : flushing unit :=
  match node entry with
  | Leaf leaf => processLeaf (path entry) leaf
  | Branch branch => processBranch (path entry) branch dirty
  end.

(** A counter is an integer double. *)
(* @src domain/orset/trie/TrieFlusher.ts flush *)
Definition flush (dirty : DirtyPageSet) : step W FlushResult := λ w,
  if isEmpty dirty
  then (w, FlushResult.new (DirtyPageSet.rootOid dirty) (JInt 0) (JInt 0) (JInt 0))
  else
    match for_each (processEntry dirty) (enumerateBottomUp dirty) (createFlushState, w) with
    | ((_, w'), Throw e) => (w', Throw e)
    | ((st, w'), Ok _) =>
        (w', FlushResult.new (rootOid st) (JInt (blobsWritten st)) (JInt (treesWritten st))
               (JInt (bytesWritten st)))
    end.
End flusher.
End TrieFlusher.

(** ** The engine *)
Module ShadowTrieORSet.

(** The engine forwards to its cursor, which is its only state. *)
(* @src domain/orset/shadow/ShadowTrieORSet.ts ShadowTrieORSet 21-23 *)
Definition ShadowTrieORSet : Type := TrieCursor.

Section engine.
Context `{Hash} `{Codec} {W : Type} `{TrieStore W}.

(* @src domain/orset/shadow/ShadowTrieORSet.ts contains *)
Definition contains (element : string) : step (ShadowTrieORSet * W) bool := TrieCursor.contains element.

(* @src domain/orset/shadow/ShadowTrieORSet.ts getDots *)
Definition getDots (element : string) : step (ShadowTrieORSet * W) (gset string) :=
  TrieCursor.getDots element.

(* @src domain/orset/shadow/ShadowTrieORSet.ts getElementState *)
Definition getElementState (element : string) : step (ShadowTrieORSet * W) (option ElementState) :=
  TrieCursor.getElementState element.

(* @src domain/orset/shadow/ShadowTrieORSet.ts add *)
Definition add (element : string) (dot : Dot.Dot) : step (ShadowTrieORSet * W) unit :=
  TrieCursor.add element dot.

(* @src domain/orset/shadow/ShadowTrieORSet.ts remove *)
Definition remove (observedDots : gset string) : step (ShadowTrieORSet * W) unit :=
  TrieCursor.remove observedDots.

(* @src domain/orset/shadow/ShadowTrieORSet.ts removeElement *)
Definition removeElement (element : string) (observedDots : gset string)
  : step (ShadowTrieORSet * W) unit := TrieCursor.removeElement element observedDots.

(* @src domain/orset/shadow/ShadowTrieORSet.ts scan *)
Definition scan : step (ShadowTrieORSet * W) (list string) := TrieCursor.scan.

(* @src domain/orset/shadow/ShadowTrieORSet.ts scanElementStates *)
Definition scanElementStates : step (ShadowTrieORSet * W) (list ElementState) :=
  TrieCursor.scanElementStates.

(* @src domain/orset/shadow/ShadowTrieORSet.ts dirtyPageCount *)
Definition dirtyPageCount (e : ShadowTrieORSet) : Z := TrieCursor.dirtyPageCount e.

(* @src domain/orset/shadow/ShadowTrieORSet.ts prepareFlush *)
Definition prepareFlush : step (ShadowTrieORSet * W) FlushResult := λ '(c, w),
  match TrieCursor.snapshot c with
  | Throw e => ((c, w), Throw e)
  | Ok dirty => let '(w', r) := TrieFlusher.flush dirty w in ((c, w'), r)
  end.

(* @src domain/orset/shadow/ShadowTrieORSet.ts acceptFlush *)
Definition acceptFlush (result : FlushResult) : step ShadowTrieORSet unit :=
  TrieCursor.rebase (FlushResult.rootOid result).

(* @src domain/orset/shadow/ShadowTrieORSet.ts flush *)
Definition flush : step (ShadowTrieORSet * W) FlushResult :=
  result ← prepareFlush;
  _ ← (λ '(c, w), let '(c', r) := acceptFlush result c in ((c', w), r)) : step (ShadowTrieORSet * W) unit;
  mret result.
End engine.
End ShadowTrieORSet.

(** ** Compaction of a stored trie ([orset/trie/TrieCompactor.ts]): dead dots that a
    version vector covers are dropped, leaves below the floor are merged with a
    sibling, and a branch with one leaf left collapses into it. *)
Module TrieCompactor.
Import Helpers TrieCursor.

(* @src domain/orset/trie/TrieCompactor.ts NodeState 36-43 *)
Inductive NodeState : Type :=
  | NAbsent (changed : bool)
  | NLeaf (changed : bool) (leaf : TrieLeaf)
  | NBranch (changed : bool) (branch : TrieBranch).

Definition is_changed (st : NodeState) : bool :=
  match st with NAbsent c | NLeaf c _ | NBranch c _ => c end.
Definition is_absent (st : NodeState) : bool :=
  match st with NAbsent _ => true | _ => false end.

(* @src domain/orset/trie/TrieCompactor.ts MergeCandidate *)
Record MergeCandidate := Candidate {
  keepNibble : N; dropNibble : N; mergedLeaf : TrieLeaf }.

(** *** Entries *)

(** The dots of a set that stay; decoding any of [decoded] may throw. *)
Definition keep_dots (dots decoded : gset string) (includedVV : VersionVector.VersionVector)
  : result (gset string) :=
  kept ← map_result (λ dot,
    if bool_decide (dot ∈ decoded)
    then d ← Dot.decode dot; Ok (if VersionVector.contains includedVV d then None else Some dot)
    else Ok (Some dot)) (base.elements dots);
  Ok (list_to_set (omap id kept)).

(** One round of the loop: [None] drops the entry; the flag is [entryChanged]. *)
Definition compactEntry (entry : TrieLeafEntry) (includedVV : VersionVector.VersionVector)
  : result (option TrieLeafEntry * bool) :=
  let dots := TrieLeaf.dots entry in
  let tombstonedDots := TrieLeaf.tombstonedDots entry in
  nextLive ← keep_dots dots (dots ∩ tombstonedDots) includedVV;
  nextTombstoned ← keep_dots tombstonedDots tombstonedDots includedVV;
  let entryChanged := negb (bool_decide (nextLive = dots ∧ nextTombstoned = tombstonedDots)) in
  Ok (if bool_decide (nextLive = ∅ ∧ nextTombstoned = ∅) then (None, true)
      else (Some (TrieLeaf.Entry (TrieLeaf.routeKeySuffix entry) (TrieLeaf.element entry)
                    nextLive nextTombstoned), entryChanged)).

(* @src domain/orset/trie/TrieCompactor.ts compactLeafEntries *)
Definition compactLeafEntries (entries : list TrieLeafEntry) (includedVV : VersionVector.VersionVector)
  : result (bool * list TrieLeafEntry) :=
  rounds ← map_result (λ entry, compactEntry entry includedVV) entries;
  Ok (existsb snd rounds, omap fst rounds).

(* @src domain/orset/trie/TrieCompactor.ts mergeLeaves *)
Definition mergeLeaves (left right : TrieLeaf) (geometry : TrieGeometry) : result TrieLeaf :=
  TrieLeaf.new (js_sort compare_suffix (TrieLeaf.entries left ++ TrieLeaf.entries right)) geometry.

(* @src domain/orset/trie/TrieCompactor.ts readBitMsbFirst *)
Definition readBitMsbFirst (bytes : list N) (bitOffset : nat) : N :=
  bit_of (byte_at bytes (bitOffset / 8)) bitOffset.

(* @src domain/orset/trie/TrieCompactor.ts writeBitMsbFirst *)
Definition writeBitMsbFirst (out : list N) (bitOffset : nat) (bit : N) : list N :=
  let byteIndex := (bitOffset / 8)%nat in
  let byte := byte_at out byteIndex in
  let mask := N.shiftl 1 (N.of_nat (7 - bitOffset mod 8)) in
  byte_set out byteIndex (if (bit =? 1)%N then N.lor byte mask else N.ldiff byte mask).

(* @src domain/orset/trie/TrieCompactor.ts writeSlot *)
Definition writeSlot (out : list N) (slot nibbleBits : nat) (value : N) : list N :=
  let bitOffset := (slot * nibbleBits)%nat in
  foldl (λ out bitIndex,
    let bit := N.land (N.shiftr value (N.of_nat (nibbleBits - bitIndex - 1))) 1 in
    writeBitMsbFirst out (bitOffset + bitIndex) bit) out (seq 0 nibbleBits).

(* @src domain/orset/trie/TrieCompactor.ts readSlot *)
Definition readSlot (suffix : list N) (slot nibbleBits : nat) : N :=
  let bitOffset := (slot * nibbleBits)%nat in
  foldl (λ value bitIndex,
    N.lor (N.shiftl value 1) (readBitMsbFirst suffix (bitOffset + bitIndex))) 0%N (seq 0 nibbleBits).

(* @src domain/orset/trie/TrieCompactor.ts prependNibbleToSuffix *)
Definition prependNibbleToSuffix (suffix : list N) (nibble : N) (depth nibbleBits : nat) : list N :=
  let oldSlots := ((256 - depth * nibbleBits) / nibbleBits)%nat in
  let totalSlots := S oldSlots in
  let out := writeSlot (Suffix.zero_bytes (totalSlots * nibbleBits)) 0 nibbleBits nibble in
  foldl (λ out i, writeSlot out (S i) nibbleBits (readSlot suffix i nibbleBits)) out (seq 0 oldSlots).

(* @src domain/orset/trie/TrieCompactor.ts collapseLeafUp *)
Definition collapseLeafUp (leaf : TrieLeaf) (childNibble : N) (childDepth nibbleBits : nat)
  (geometry : TrieGeometry) : result TrieLeaf :=
  let lengthened := (λ entry,
    TrieLeaf.Entry (prependNibbleToSuffix (TrieLeaf.routeKeySuffix entry) childNibble childDepth
                      nibbleBits)
      (TrieLeaf.element entry) (TrieLeaf.dots entry) (TrieLeaf.tombstonedDots entry))
    <$> TrieLeaf.entries leaf in
  TrieLeaf.new (js_sort compare_suffix lengthened) geometry.

(** *** Siblings *)

Definition leaf_state (childStates : gmap N NodeState) (nibble : N) : option TrieLeaf :=
  match childStates !! nibble with Some (NLeaf _ leaf) => Some leaf | _ => None end.

(** The inner loop, for a leaf below the floor. *)
Definition merge_partner (childStates : gmap N NodeState) (geometry : TrieGeometry) (nibble : N)
  (leaf : TrieLeaf) (nibbles : list N) : option (result MergeCandidate) :=
  head (omap (λ siblingNibble,
    if bool_decide (siblingNibble = nibble) then None else
    match leaf_state childStates siblingNibble with
    | None => None
    | Some sibling =>
        let combinedSize := TrieLeaf.size leaf + TrieLeaf.size sibling in
        if TrieGeometry.leafCapacity geometry <? combinedSize then None else
        let keepNibble := N.min nibble siblingNibble in
        let dropNibble := N.max nibble siblingNibble in
        match leaf_state childStates keepNibble, leaf_state childStates dropNibble with
        | Some leftLeaf, Some rightLeaf =>
            Some (mergedLeaf ← mergeLeaves leftLeaf rightLeaf geometry;
                  Ok (Candidate keepNibble dropNibble mergedLeaf))
        | _, _ => None
        end
    end) nibbles).

(* @src domain/orset/trie/TrieCompactor.ts #findMergeCandidate *)
Definition findMergeCandidate (childStates : gmap N NodeState) (geometry : TrieGeometry)
  : result (option MergeCandidate) :=
  let nibbles := sort_nibbles (map_to_list childStates).*1 in
  match head (omap (λ nibble,
    match leaf_state childStates nibble with
    | None => None
    | Some leaf =>
        if negb (TrieLeaf.requiresMerge leaf geometry) then None
        else merge_partner childStates geometry nibble leaf nibbles
    end) nibbles) with
  | None => Ok None
  | Some (Ok candidate) => Ok (Some candidate)
  | Some (Throw e) => Throw e
  end.

(** What the entries of the rewritten branch are, and whether any of them
    changed. *)
Definition rewriteChildren (path : list N) (branch : TrieBranch) (childStates : gmap N NodeState)
  (childChanged : bool) : TrieBranchEntries * bool :=
  foldl (λ '(nextChildren, changed) '(childNibble, childOid),
    match childStates !! childNibble with
    | None | Some (NAbsent _) => (nextChildren, true)
    | Some state =>
        if is_changed state
        then (<[childNibble := pendingChildOid path childNibble]> nextChildren, true)
        else (<[childNibble := childOid]> nextChildren, changed)
    end) (∅, childChanged) (map_to_list (TrieBranch.entries branch)).

Section compactor.
Context `{Hash} `{Codec} {W : Type} `{TrieStore W}.
Abbreviation cur := (step (TrieCursor * W)).

(** Every merge drops a child, so the number of children is fuel enough. *)
(* @src domain/orset/trie/TrieCompactor.ts #mergeSiblingLeaves *)
Fixpoint mergeSiblingLeaves (fuel : nat) (path : list N) (childStates : gmap N NodeState)
  (merged : bool) : cur (gmap N NodeState * bool) :=
  match fuel with
  | O => mret (childStates, merged)
  | S fuel' =>
      g ← asks geometry;
      candidate ← lift (findMergeCandidate childStates g);
      match candidate with
      | None => mret (childStates, merged)
      | Some candidate =>
          _ ← changes (markLeafDirty (path ++ [keepNibble candidate]) (mergedLeaf candidate));
          _ ← changes (clearLeafAt (path ++ [dropNibble candidate]));
          mergeSiblingLeaves fuel' path
            (delete (dropNibble candidate)
               (<[keepNibble candidate := NLeaf true (mergedLeaf candidate)]> childStates)) true
      end
  end.

(** The branch with one leaf left: [None] when there is another number of
    children or the child is no leaf. *)
Definition only_leaf (nextChildren : TrieBranchEntries) (childStates : gmap N NodeState)
  : option (N * TrieLeaf) :=
  match (map_to_list nextChildren).*1 with
  | [onlyNibble] => pair onlyNibble <$> leaf_state childStates onlyNibble
  | _ => None
  end.

(* @src domain/orset/trie/TrieCompactor.ts #rewriteBranch *)
Definition rewriteBranch (path : list N) (branch : TrieBranch) (childStates : gmap N NodeState)
  (childChanged : bool) : cur NodeState :=
  let '(nextChildren, changed) := rewriteChildren path branch childStates childChanged in
  g ← asks geometry;
  if bool_decide (nextChildren = ∅) then
    if bool_decide (path = []) then
      emptyRoot ← lift (TrieBranch.new ∅ g);
      _ ← changes (markBranchDirty [] emptyRoot);
      mret (NBranch true emptyRoot)
    else _ ← changes (clearBranchAt path); mret (NAbsent true)
  else
    match (if bool_decide (path = []) then None else only_leaf nextChildren childStates) with
    | Some (onlyNibble, leaf) =>
        _ ← changes (clearLeafAt (path ++ [onlyNibble]));
        _ ← changes (clearBranchAt path);
        collapsedLeaf ← lift (collapseLeafUp leaf onlyNibble (S (length path))
                                (TrieGeometry.nibbleBits g) g);
        _ ← changes (markLeafDirty path collapsedLeaf);
        mret (NLeaf true collapsedLeaf)
    | None =>
        if negb changed then mret (NBranch false branch) else
        nextBranch ← lift (TrieBranch.new nextChildren g);
        _ ← changes (markBranchDirty path nextBranch);
        mret (NBranch true nextBranch)
    end.

(* @src domain/orset/trie/TrieCompactor.ts #compactLeaf *)
Definition compactLeaf (path : list N) (leaf : TrieLeaf) (includedVV : VersionVector.VersionVector)
  : cur NodeState :=
  result ← lift (compactLeafEntries (TrieLeaf.entries leaf) includedVV);
  let '(changed, entries) := result in
  if negb changed then mret (NLeaf false leaf) else
  if bool_decide (entries = []) then _ ← changes (clearLeafAt path); mret (NAbsent true)
  else
    g ← asks geometry;
    nextLeaf ← lift (TrieLeaf.new entries g);
    _ ← changes (markLeafDirty path nextLeaf);
    mret (NLeaf true nextLeaf).

(* @src domain/orset/trie/TrieCompactor.ts #compactBranch *)
Definition compactBranch (compactBelow : list N → VersionVector.VersionVector → cur NodeState)
  (path : list N) (branch : TrieBranch) (includedVV : VersionVector.VersionVector) : cur NodeState :=
  childStates ← for_fold (λ childStates '(childNibble, childOid),
    _ ← ensureChildLoaded path childNibble childOid;
    state ← compactBelow (path ++ [childNibble]) includedVV;
    mret (<[childNibble := state]> childStates))
    (map_to_list (TrieBranch.entries branch)) (∅ : gmap N NodeState);
  let changed := existsb (λ state, is_changed state || is_absent state) (map_to_list childStates).*2 in
  result ← mergeSiblingLeaves (size childStates) path childStates false;
  let '(childStates, merged) := result in
  rewriteBranch path branch childStates (changed || merged).

(** The fuel is the number of levels that are left. *)
(* @src domain/orset/trie/TrieCompactor.ts #compactBelow *)
Fixpoint compactBelow (fuel : nat) (path : list N) (includedVV : VersionVector.VersionVector)
  : cur NodeState :=
  match fuel with
  | O => lift (Throw E_TOO_DEEP)
  | S fuel' =>
      leaf ← asks (λ c, leafAt c path);
      match leaf with
      | Some leaf => compactLeaf path leaf includedVV
      | None =>
          branch ← asks (λ c, branchAt c path);
          match branch with
          | None => mret (NAbsent false)
          | Some branch => compactBranch (compactBelow fuel') path branch includedVV
          end
      end
  end.

(* @src domain/orset/trie/TrieCompactor.ts compact *)
Definition compact (includedVV : VersionVector.VersionVector) : cur unit :=
  _ ← loadRootIfNeeded;
  root ← asks hasRoot;
  if negb root then mret () else
  fuel ← asks levels;
  _ ← compactBelow fuel [] includedVV;
  mret ().

(** [TrieCursor.compact] builds a compactor over the maps of the cursor;
    [nibbleBitsOf] throws on a geometry of 2^n children it does not know. *)
(* @src domain/orset/trie/TrieCursor.ts compact *)
Definition cursor_compact (includedVV : VersionVector.VersionVector) : cur unit :=
  g ← asks geometry;
  _ ← lift (nibbleBitsOf (TrieGeometry.nibbleBits g));
  compact includedVV.

(* @src domain/orset/shadow/ShadowTrieORSet.ts compact *)
Definition shadow_compact (includedVV : VersionVector.VersionVector) : cur unit :=
  cursor_compact includedVV.
End compactor.
End TrieCompactor.
