(* ===== verification/TrieModel.v ===== *)
(** What the pages of a cursor and a store mean: the shape of a trie as a map
    from paths to pages, the element map it holds, and how a cursor over a store
    represents it. *)
From S2P Require Export TrieFlusher.

(** A page without its storage: a leaf's entries, or a branch, whose children
    are the paths one nibble longer. *)
Inductive shape : Type :=
  | SLeaf (es : list TrieLeafEntry)
  | SBranch.
Abbreviation trie := (gmap (list N) shape).

(** ** Shapes *)
Section shapes.
Context `{Hash} (geo : TrieGeometry) (names : string → Prop).
Context (Hgeo : TrieGeometry.valid geo).
#[local] Abbreviation nb := (TrieGeometry.nibbleBits geo).
Context (Hcf : collision_free nb names).

(** Every page but the root has a branch above it, and leaves sit on the routes
    of their elements. *)
Record trie_wf (G : trie) : Prop := {
  wf_parent : ∀ p n s, G !! (p ++ [n]) = Some s →
    G !! p = Some SBranch ∧ (n < TrieGeometry.fanout geo)%N;
  wf_root : ∀ es, G !! [] ≠ Some (SLeaf es);
  wf_leaf : ∀ p es, G !! p = Some (SLeaf es) → leaf_ok nb names p es;
  wf_branch : ∀ p, G !! p = Some SBranch → (length p < max_depth nb)%nat }.

Lemma wf_empty : trie_wf ∅.
Proof. split; intros *; by rewrite lookup_empty. Qed.

Lemma wf_prefix G p q s : trie_wf G → G !! (p ++ q) = Some s → q ≠ [] → G !! p = Some SBranch.
Proof.
  intros Hwf. revert s. induction q as [|n q IH] using rev_ind; intros s Hs Hq; [done|].
  rewrite app_assoc in Hs. apply (wf_parent G Hwf) in Hs as [Hp _].
  destruct (decide (q = [])) as [->|Hne]; [by rewrite app_nil_r in Hp|by apply (IH SBranch)].
Qed.

(** Nothing is below a page that is not a branch. *)
Lemma wf_below G p q : trie_wf G → G !! p ≠ Some SBranch → q ≠ [] → G !! (p ++ q) = None.
Proof.
  intros Hwf Hp Hq. destruct (G !! (p ++ q)) as [s|] eqn:E; [|done].
  by destruct Hp; apply (wf_prefix G p q s).
Qed.

Lemma take_prefix_app (p p' r : list N) :
  take (length p) r = p → take (length p') r = p' → (length p ≤ length p')%nat → ∃ q, p' = p ++ q.
Proof.
  intros T T' Hle. exists (drop (length p) p').
  rewrite <- (take_drop (length p) p') at 1. f_equal.
  rewrite <- T' at 1. by rewrite take_take, Nat.min_l.
Qed.

(** The page at which a route ends. *)
Lemma wf_route_unique G p p' es s r :
  trie_wf G → G !! p = Some (SLeaf es) → G !! p' = Some s → s ≠ SBranch →
  take (length p) r = p → take (length p') r = p' → p = p'.
Proof.
  intros Hwf Hp Hp' Hs T T'. destruct (Nat.le_ge_cases (length p) (length p')) as [Hle|Hle].
  - destruct (take_prefix_app p p' r T T' Hle) as [q ->].
    destruct (decide (q = [])) as [->|Hq]; [by rewrite app_nil_r|].
    rewrite (wf_prefix G p q s) in Hp; done.
  - destruct (take_prefix_app p' p r T' T Hle) as [q ->].
    destruct (decide (q = [])) as [->|Hq]; [by rewrite app_nil_r|].
    rewrite (wf_prefix G p' q (SLeaf es)) in Hp'; [by injection Hp'|done..].
Qed.

(** The element map that a trie holds. *)
Definition views (G : trie) (m : ElementMap.t) : Prop :=
  ∀ e c, m !! e = Some c ↔ ∃ p es, G !! p = Some (SLeaf es) ∧ cells es !! e = Some c.

Lemma views_unique G m m' : views G m → views G m' → m = m'.
Proof. intros Hm Hm'. apply map_eq. intros e. apply option_eq. intros c. by rewrite (Hm e c), (Hm' e c). Qed.

Lemma views_empty : views ∅ ∅.
Proof. intros e c. rewrite lookup_empty. split; [done|]. intros (p & es & Hp & _). by rewrite lookup_empty in Hp. Qed.

Lemma cell_entry p es e c :
  leaf_ok nb names p es → cells es !! e = Some c → names e ∧ take (length p) (route nb e) = p.
Proof.
  intros Hl Hc. apply cells_lookup in Hc as (ent & Hent & <- & _).
  - split; by apply Hl.
  - apply (leaf_NoDup nb names (TrieGeometry.geo_width _ Hgeo) Hcf p es Hl).
Qed.

(** The cells of the leaf at [p], none if there is no leaf. *)
Definition cells_at (G : trie) (p : list N) : ElementMap.t :=
  match G !! p with Some (SLeaf es) => cells es | _ => ∅ end.

(** An element is in the leaf at the end of its route or nowhere. *)
Lemma leaf_at_route G p q es e c :
  trie_wf G → G !! p = Some (SLeaf es) → cells es !! e = Some c →
  take (length q) (route nb e) = q → G !! q ≠ Some SBranch →
  (G !! q = None → ∃ p n, q = p ++ [n] ∧ G !! p = Some SBranch) → p = q.
Proof.
  intros Hwf Hp Hc Hq Hnb Hup. destruct (cell_entry p es e c) as [_ T]; [by apply Hwf|done|].
  destruct (G !! q) as [s|] eqn:Eq; [eapply (wf_route_unique G); try done; congruence|].
  exfalso. destruct Hup as (p0 & n & -> & Hp0); [done|].
  destruct (Nat.le_gt_cases (length p) (length p0)) as [Hle|Hgt].
  - destruct (take_prefix_app p (p0 ++ [n]) _ T Hq) as [x Hx]; [rewrite length_app; lia|].
    destruct x as [|y x _] using rev_ind.
    { rewrite app_nil_r in Hx. subst p. congruence. }
    rewrite app_assoc in Hx. apply app_inj_tail in Hx as [-> ->].
    destruct (decide (x = [])) as [->|]; [rewrite app_nil_r in Hp0; congruence|].
    rewrite (wf_prefix G p x SBranch) in Hp; done.
  - destruct (take_prefix_app (p0 ++ [n]) p _ Hq T) as [x ->]; [rewrite length_app; simpl; lia|].
    destruct (decide (x = [])) as [->|]; [rewrite app_nil_r in Hp; congruence|].
    rewrite (wf_prefix G (p0 ++ [n]) x _ Hwf Hp) in Eq; done.
Qed.

Lemma views_at G m q e :
  trie_wf G → views G m → take (length q) (route nb e) = q → G !! q ≠ Some SBranch →
  (G !! q = None → ∃ p n, q = p ++ [n] ∧ G !! p = Some SBranch) →
  m !! e = cells_at G q !! e.
Proof.
  intros Hwf Hm Hq Hnb Hup. apply option_eq. intros c. rewrite (Hm e c). unfold cells_at. split.
  - intros (p & es & Hp & Hc). assert (p = q) as -> by by eapply leaf_at_route. by rewrite Hp.
  - destruct (G !! q) as [[es|]|] eqn:Eq; [|done|by rewrite lookup_empty]. intros Hc. by exists q, es.
Qed.

(** Changing one element of one leaf. *)
Lemma views_update G m m' q es' e :
  trie_wf G → views G m → take (length q) (route nb e) = q → G !! q ≠ Some SBranch →
  (G !! q = None → ∃ p n, q = p ++ [n] ∧ G !! p = Some SBranch) →
  (∀ e', e' ≠ e → cells es' !! e' = cells_at G q !! e') →
  (∀ e', e' ≠ e → m' !! e' = m !! e') → m' !! e = cells es' !! e →
  views (<[q := SLeaf es']> G) m'.
Proof.
  intros Hwf Hm Hq Hnb Hup Hes Hm' He e' c. destruct (decide (e' = e)) as [->|Hne].
  - rewrite He. split; [intros Hc; exists q, es'; by rewrite lookup_insert_eq|].
    intros (p & es & Hp & Hc). apply lookup_insert_Some in Hp as [[-> [= ->]]|[Hqp Hp]]; [done|].
    destruct Hqp. symmetry. by eapply leaf_at_route.
  - rewrite Hm' by done. rewrite (Hm e' c). split.
    + intros (p & es & Hp & Hc). destruct (decide (p = q)) as [->|Hpq].
      * exists q, es'. rewrite lookup_insert_eq. split; [done|]. rewrite Hes by done.
        unfold cells_at. by rewrite Hp.
      * exists p, es. by rewrite lookup_insert_ne.
    + intros (p & es & Hp & Hc). apply lookup_insert_Some in Hp as [[-> [= ->]]|[Hqp Hp]].
      * rewrite Hes in Hc by done. unfold cells_at in Hc.
        destruct (G !! p) as [[es0|]|] eqn:Eq; [|by rewrite lookup_empty in Hc..].
        by exists p, es0.
      * by exists p, es.
Qed.

(** *** Splitting a leaf *)

(** The leaf at [q] is replaced by a branch over one leaf per next nibble. *)
Record split_of (G G' : trie) (q : list N) (es : list TrieLeafEntry) : Prop := {
  split_at : G' !! q = Some SBranch;
  split_child : ∀ m, G' !! (q ++ [m]) =
    (λ l, SLeaf (Helpers.shortenEntries l nb (max_depth nb - length q))) <$>
      nonempty_list (bucket_of nb m es);
  split_else : ∀ p, p ≠ q → (∀ m, p ≠ q ++ [m]) → G' !! p = G !! p }.

Lemma bucket_nibble p es m :
  leaf_ok nb names p es → (length p < max_depth nb)%nat → bucket_of nb m es ≠ [] →
  (m < TrieGeometry.fanout geo)%N.
Proof.
  intros Hl Hlt Hne. pose proof (TrieGeometry.geo_width _ Hgeo) as Hw.
  destruct (bucket_of nb m es) as [|ent l] eqn:E; [done|].
  assert (ent ∈ bucket_of nb m es) as [<- Hent]%list_elem_of_filter by (rewrite E; by left).
  destruct (next_nibble_route nb names Hw Hcf p es ent Hl Hent Hlt) as [Hn _].
  rewrite (TrieGeometry.geo_fanout _ Hgeo).
  assert (Forall (λ v, v < 2 ^ N.of_nat nb)%N (route nb (TrieLeaf.element ent))) as Hb.
  { apply nibbles_bounded; [|done]. by apply (cf_key _ _ Hcf), (lf_named _ _ _ _ Hl). }
  rewrite Forall_lookup in Hb. by apply (Hb (length p)).
Qed.

(** What the pages after a split are. *)
Lemma split_cases G G' q es p s :
  q ≠ [] → split_of G G' q es → G' !! p = Some s →
  (p = q ∧ s = SBranch) ∨
  (∃ k l, p = q ++ [k] ∧ bucket_of nb k es = l ∧ l ≠ [] ∧
     s = SLeaf (Helpers.shortenEntries l nb (max_depth nb - length q))) ∨
  (p ≠ q ∧ (∀ k, p ≠ q ++ [k]) ∧ G !! p = Some s).
Proof.
  intros Hq0 [Sat Sch Sel] Hs. destruct (decide (p = q)) as [->|Hpq]; [left; split; congruence|]. right.
  destruct p as [|k p _] using rev_ind.
  { right. split; [done|]. split; [by intros k; destruct q|]. rewrite <- Sel; [done|done|by intros k; destruct q]. }
  destruct (decide (p = q)) as [->|Hne].
  - left. rewrite Sch in Hs. exists k, (bucket_of nb k es). split; [done|]. split; [done|].
    destruct (bucket_of nb k es); [done|]. by injection Hs as <-.
  - right. assert (∀ k0, p ++ [k] ≠ q ++ [k0]) by (intros k0 E; by apply app_inj_tail in E as [-> _]).
    split; [done|]. split; [done|]. by rewrite <- Sel.
Qed.

Lemma split_wf G G' q es :
  trie_wf G → G !! q = Some (SLeaf es) → (length q < max_depth nb)%nat → split_of G G' q es → trie_wf G'.
Proof.
  intros Hwf Hq Hlt [Sat Sch Sel]. pose proof (TrieGeometry.geo_width _ Hgeo) as Hw.
  pose proof (wf_leaf _ Hwf _ _ Hq) as Hl.
  assert (q ≠ []) as Hq0 by (intros ->; by apply (wf_root _ Hwf es)).
  pose proof (λ p s, split_cases G G' q es p s Hq0 (Build_split_of _ _ _ _ Sat Sch Sel)) as Hcase.
  split.
  - intros p n s Hs. destruct (Hcase _ _ Hs) as [[Hpq ->]|[(k & l & E & <- & Hne & ->)|(H1 & H2 & Hg)]].
    + rewrite <- Hpq in Hq. destruct (wf_parent _ Hwf _ _ _ Hq) as [Hp Hn]. split; [|done].
      rewrite Sel; [done|..]; intros; intros ->; apply (f_equal length) in Hpq;
        rewrite !length_app in Hpq; simpl in Hpq; lia.
    + apply app_inj_tail in E as [-> ->]. split; [done|]. by apply (bucket_nibble q es).
    + destruct (wf_parent _ Hwf _ _ _ Hg) as [Hp Hn]. split; [|done].
      destruct (decide (p = q)) as [->|Hne]; [by destruct (H2 n)|].
      rewrite Sel; [done|done|]. intros m ->. rewrite <- app_assoc in Hg.
      rewrite (wf_below G q ([m] ++ [n])) in Hg; [done|done|congruence|done].
  - intros es' Hs. destruct (Hcase _ _ Hs) as [[<- _]|[(k & l & E & _)|(_ & _ & Hg)]]; [done|by destruct q|].
    by apply (wf_root _ Hwf es').
  - intros p es' Hs. destruct (Hcase _ _ Hs) as [[_ [=]]|[(k & l & -> & <- & _ & [= ->])|(_ & _ & Hg)]].
    + by apply (shorten_ok nb names Hw Hcf q es k Hl Hlt).
    + by apply Hwf.
  - intros p Hs. destruct (Hcase _ _ Hs) as [[-> _]|[(k & l & _ & _ & _ & [=])|(_ & _ & Hg)]]; [done|].
    by apply Hwf.
Qed.

Lemma split_views G G' q es m :
  trie_wf G → G !! q = Some (SLeaf es) → (length q < max_depth nb)%nat → split_of G G' q es →
  views G m → views G' m.
Proof.
  intros Hwf Hq Hlt [Sat Sch Sel] Hm e c. pose proof (TrieGeometry.geo_width _ Hgeo) as Hw.
  pose proof (wf_leaf _ Hwf _ _ Hq) as Hl. rewrite (Hm e c). split.
  - intros (p & es' & Hp & Hc). destruct (decide (p = q)) as [->|Hpq].
    + simplify_eq. pose proof Hc as Hc'.
      apply cells_lookup in Hc' as (ent & Hent & <- & _); [|by apply (leaf_NoDup nb names Hw Hcf q)].
      destruct (next_nibble_route nb names Hw Hcf q es ent Hl Hent Hlt) as [Hn _].
      set (k := next_nibble nb ent) in *. exists (q ++ [k]).
      destruct (shorten_ok nb names Hw Hcf q es k Hl Hlt) as [_ Hcells].
      eexists. rewrite Sch. split; [|rewrite Hcells, decide_True; done].
      assert (ent ∈ bucket_of nb k es) as Hin by by apply list_elem_of_filter.
      destruct (bucket_of nb k es); [by apply elem_of_nil in Hin|done].
    + exists p, es'. split; [|done]. rewrite Sel; [done|done|]. intros k ->.
      rewrite (wf_below G q [k]) in Hp; [done|done|congruence|done].
  - intros (p & es' & Hp & Hc). destruct (decide (p = q)) as [->|Hpq]; [congruence|].
    destruct p as [|k p _] using rev_ind.
    { exists [], es'. split; [|done]. rewrite <- Sel; [done|done|]. intros k E. by destruct q. }
    destruct (decide (p = q)) as [->|Hne].
    + rewrite Sch in Hp. exists q, es. split; [done|].
      destruct (shorten_ok nb names Hw Hcf q es k Hl Hlt) as [_ Hcells].
      destruct (bucket_of nb k es) eqn:Eb; [done|]. cbn [nonempty_list fmap option_fmap option_map] in Hp.
      injection Hp as <-. rewrite Hcells in Hc. by case_decide.
    + exists (p ++ [k]), es'. split; [|done]. rewrite <- Sel; [done|done|].
      intros k0 E. by apply app_inj_tail in E as [-> _].
Qed.
End shapes.

(** ** Stored pages *)

(** What a store holds: pages behind handles, kept as the store grows. *)
Class TrieStoreModel (W : Type) := {
  trie_store_le : relation W;
  leaf_page : W → string → list N → Prop;
  branch_page : W → string → TrieBranchEntries → Prop }.

(** A handle as a store gives it. *)
Definition oid_ok (oid : string) : Prop :=
  str_nonempty oid = true ∧ TrieFlusher.isPendingOid oid = false.

(** The contract of the port on a backend without faults; a branch read as a leaf
    is missing or empty. *)
Class TrieStoreLaws (W : Type) `{TrieStore W} `{TrieStoreModel W} := {
  trie_store_le_preorder :: PreOrder trie_store_le;
  leaf_page_mono : ∀ w w' oid bytes, leaf_page w oid bytes → trie_store_le w w' → leaf_page w' oid bytes;
  branch_page_mono : ∀ w w' oid cs, branch_page w oid cs → trie_store_le w w' → branch_page w' oid cs;
  read_leaf_law : ∀ w oid bytes, leaf_page w oid bytes → readLeaf w oid = Ok bytes;
  read_branch_law : ∀ w oid cs, branch_page w oid cs → readBranch w oid = Ok cs;
  read_branch_as_leaf_law : ∀ w oid cs, branch_page w oid cs →
    readLeaf w oid = Throw E_STORE_MISSING ∨ readLeaf w oid = Ok [];
  write_leaf_law : ∀ w bytes, ∃ w' oid, writeLeaf bytes w = (w', Ok oid) ∧
    trie_store_le w w' ∧ leaf_page w' oid bytes ∧ oid_ok oid;
  write_branch_law : ∀ w cs, ∃ w' oid, writeBranch cs w = (w', Ok oid) ∧
    trie_store_le w w' ∧ branch_page w' oid cs ∧ oid_ok oid }.

Section stored.
Context `{Codec} {W : Type} `{TrieStoreLaws W} (geo : TrieGeometry).

(** The subtrie at a path is in the store behind a handle. *)
Inductive stored (w : W) (G : trie) : string → list N → Prop :=
  | stored_leaf oid p es bytes :
      G !! p = Some (SLeaf es) → leaf_page w oid bytes → bytes ≠ [] →
      TrieLeaf.deserialize bytes geo = Ok (TrieLeaf.mk geo es) → stored w G oid p
  | stored_branch oid p cs :
      G !! p = Some SBranch → branch_page w oid cs → TrieBranch.fits geo cs →
      (∀ n, is_Some (cs !! n) ↔ is_Some (G !! (p ++ [n]))) →
      (∀ n o, cs !! n = Some o → TrieFlusher.isPendingOid o = false) →
      (∀ n o, cs !! n = Some o → stored w G o (p ++ [n])) → stored w G oid p.

Definition handle (w : W) (G : trie) (oid : string) (p : list N) : Prop :=
  oid_ok oid ∧ stored w G oid p.

Lemma stored_mono w w' G oid p : stored w G oid p → trie_store_le w w' → stored w' G oid p.
Proof.
  intros Hs Hle. induction Hs as [oid p es bytes Hp Hpage Hne Hd|oid p cs Hp Hpage Hf Hc Ho _ IH].
  - eapply stored_leaf; [done|by eapply leaf_page_mono|done|done].
  - eapply stored_branch; [done|by eapply branch_page_mono|done..].
Qed.

(** Only the pages at and below the path matter. *)
Lemma stored_frame w G G' oid p :
  stored w G oid p → (∀ q, G' !! (p ++ q) = G !! (p ++ q)) → stored w G' oid p.
Proof.
  intros Hs. induction Hs as [oid p es bytes Hp Hpage Hne Hd|oid p cs Hp Hpage Hf Hc Ho _ IH];
    intros Hq; pose proof (Hq []) as Hq0; rewrite !app_nil_r in Hq0.
  - eapply stored_leaf; [by rewrite Hq0|done..].
  - eapply stored_branch; [by rewrite Hq0|done|done| |done|].
    + intros n. by rewrite Hq, Hc.
    + intros n o Hn. apply (IH n o Hn). intros q. by rewrite <- app_assoc, Hq.
Qed.

Lemma handle_mono w w' G oid p : handle w G oid p → trie_store_le w w' → handle w' G oid p.
Proof. intros [Ho Hs] Hle. split; [done|]. by eapply stored_mono. Qed.

Lemma handle_frame w G G' oid p :
  handle w G oid p → (∀ q, G' !! (p ++ q) = G !! (p ++ q)) → handle w G' oid p.
Proof. intros [Ho Hs] Hq. split; [done|]. by eapply stored_frame. Qed.

Lemma handle_present w G oid p : handle w G oid p → is_Some (G !! p).
Proof. intros [_ Hs]. by destruct Hs as [?? es ? -> |??? ->]. Qed.
End stored.

(** ** Reading the maps of a cursor after a change *)
Section maps.
Import TrieCursor.

Lemma changes_bind {W A} (f : TrieCursor → TrieCursor) (k : unit → step (TrieCursor * W) A) c w :
  (changes f ≫= k) (c, w) = k () (f c, w).
Proof. done. Qed.

Lemma asks_bind {W A B} (f : TrieCursor → A) (k : A → step (TrieCursor * W) B) c w :
  (asks f ≫= k) (c, w) = k (f c) (c, w).
Proof. done. Qed.

Lemma lift_bind {S A B} (a : A) (k : A → step S B) (s : S) : (lift (Ok a) ≫= k) s = k a s.
Proof. done. Qed.

Definition dirty (c : TrieCursor) (p : list N) : Prop :=
  is_Some (dirtyLeaves c !! encodeDirtyPath p) ∨ is_Some (dirtyBranches c !! encodeDirtyPath p).
Definition cached (c : TrieCursor) (p : list N) : Prop :=
  is_Some (leafAt c p) ∨ is_Some (branchAt c p).

Lemma dirty_cached c p : dirty c p → cached c p.
Proof.
  unfold dirty, cached, leafAt, branchAt. intros [[l ->]|[b ->]]; [left|right]; done.
Qed.

Lemma lookup_insert_path {A} (m : gmap string A) p q a :
  <[encodeDirtyPath p := a]> m !! encodeDirtyPath q
  = if decide (q = p) then Some a else m !! encodeDirtyPath q.
Proof.
  destruct (decide (q = p)) as [->|Hne]; [by rewrite lookup_insert_eq|].
  rewrite lookup_insert_ne; [done|]. by intros <-%(inj _).
Qed.

Lemma lookup_delete_path {A} (m : gmap string A) p q :
  delete (encodeDirtyPath p) m !! encodeDirtyPath q
  = if decide (q = p) then None else m !! encodeDirtyPath q.
Proof.
  destruct (decide (q = p)) as [->|Hne]; [by rewrite lookup_delete_eq|].
  rewrite lookup_delete_ne; [done|]. by intros <-%(inj _).
Qed.

Lemma leafAt_mark_leaf p l c q :
  leafAt (markLeafDirty p l c) q = if decide (q = p) then Some l else leafAt c q.
Proof. unfold leafAt. simpl. rewrite !lookup_insert_path. by destruct (decide (q = p)). Qed.

Lemma dirty_mark_leaf p l c q : dirty (markLeafDirty p l c) q ↔ q = p ∨ dirty c q.
Proof.
  unfold dirty. simpl. rewrite lookup_insert_path. destruct (decide (q = p)); [|tauto].
  split; [by left|]. intros _. left. done.
Qed.

Lemma branchAt_mark_branch p b c q :
  branchAt (markBranchDirty p b c) q = if decide (q = p) then Some b else branchAt c q.
Proof. unfold branchAt. simpl. rewrite !lookup_insert_path. by destruct (decide (q = p)). Qed.

Lemma dirty_mark_branch p b c q : dirty (markBranchDirty p b c) q ↔ q = p ∨ dirty c q.
Proof.
  unfold dirty. simpl. rewrite lookup_insert_path. destruct (decide (q = p)); [|tauto].
  split; [by left|]. intros _. right. done.
Qed.

Lemma leafAt_clear_leaf p c q :
  leafAt (clearLeafAt p c) q = if decide (q = p) then None else leafAt c q.
Proof. unfold leafAt. simpl. rewrite !lookup_delete_path. by destruct (decide (q = p)). Qed.

Lemma dirty_clear_leaf p c q :
  branchAt c p = None → dirty (clearLeafAt p c) q ↔ q ≠ p ∧ dirty c q.
Proof.
  unfold dirty, branchAt. simpl. rewrite lookup_delete_path. intros Hb.
  destruct (decide (q = p)) as [->|]; [|tauto].
  destruct (dirtyBranches c !! encodeDirtyPath p); [done|].
  split; [intros [[? [=]]|[? [=]]]|by intros [[]]].
Qed.

Lemma leafAt_loaded p l oid c q :
  leafAt c p = None → leafAt (set_loaded_leaf p l oid c) q = if decide (q = p) then Some l else leafAt c q.
Proof.
  unfold leafAt. simpl. rewrite lookup_insert_path. destruct (decide (q = p)) as [->|]; [|done].
  by destruct (dirtyLeaves c !! encodeDirtyPath p).
Qed.

Lemma branchAt_loaded p b oid c q :
  branchAt c p = None →
  branchAt (set_loaded_branch p b oid c) q = if decide (q = p) then Some b else branchAt c q.
Proof.
  unfold branchAt. simpl. rewrite lookup_insert_path. destruct (decide (q = p)) as [->|]; [|done].
  by destruct (dirtyBranches c !! encodeDirtyPath p).
Qed.

Lemma hasRoot_branchAt c : hasRoot c = bool_decide (is_Some (branchAt c [])).
Proof.
  unfold hasRoot, branchAt. simpl. apply bool_decide_ext.
  destruct (dirtyBranches c !! ""), (workingBranches c !! ""); split; try (by eauto); by intros [[? [=]]|[? [=]]].
Qed.
End maps.
