(* ===== verification/TrieRep.v ===== *)
(** How a cursor over a store represents a trie, and what marking, clearing and
    loading pages do to the representation. At the
    end: lookups. *)
From S2P Require Export TrieModel.

(** The strict and weak prefixes of a path. *)
Definition above (p q : list N) : Prop := ∃ n x, q = p ++ n :: x.
Definition upto (q p : list N) : Prop := ∃ x, q = p ++ x.

Lemma above_not_eq p q : above p q → p ≠ q.
Proof. intros (n & x & ->) E. apply (f_equal length) in E. rewrite length_app in E. simpl in E. lia. Qed.

Lemma upto_above q p : upto q p ↔ p = q ∨ above p q.
Proof.
  split.
  - intros [[|n x] ->]; [left; by rewrite app_nil_r|right; by exists n, x].
  - intros [->|(n & x & ->)]; [exists []; by rewrite app_nil_r|by exists (n :: x)].
Qed.

Lemma above_snoc p q n : above p (q ++ [n]) ↔ upto q p.
Proof.
  split.
  - intros (m & x & E). destruct x as [|y x _] using rev_ind.
    + apply app_inj_tail in E as [-> _]. exists []. by rewrite app_nil_r.
    + change (m :: x ++ [y]) with ((m :: x) ++ [y]) in E. rewrite app_assoc in E.
      apply app_inj_tail in E as [-> _]. by exists (m :: x).
  - intros [x ->]. destruct x as [|y x]; [exists n, []; by rewrite app_nil_r|].
    exists y, (x ++ [n]). by rewrite <- app_assoc.
Qed.

Lemma snoc_neq (p : list N) n : p ++ [n] ≠ p.
Proof. intros E. apply (f_equal length) in E. rewrite length_app in E. simpl in E. lia. Qed.

Lemma snoc_not_nil (p : list N) n : p ++ [n] ≠ [].
Proof. by destruct p. Qed.

Section rep.
Import TrieCursor.
Context `{Codec} {W : Type} `{TrieStoreLaws W} (geo : TrieGeometry).
#[local] Abbreviation handle := (handle geo).

(** A cursor [c] over a store [w] represents the trie [G], but for the pages in
    [E], whose parents are yet to be rebound: cached pages are pages of [G], an
    unchanged child is in the store behind the handle its parent has, and
    whatever is above a changed page is changed. *)
Record rep (E : list N → Prop) (c : TrieCursor) (w : W) (G : trie) : Prop := {
  rep_geo : geometry c = geo;
  rep_root_oid : root_oid_ok (initialRootOid c) = true;
  rep_keys : ∀ key, is_Some (dirtyLeaves c !! key) ∨ is_Some (dirtyBranches c !! key) →
    ∃ p, key = encodeDirtyPath p;
  rep_unloaded : rootLoaded c = false → ∀ p, ¬ cached c p;
  rep_root : ¬ dirty c [] → ¬ E [] →
    match initialRootOid c with
    | None => G = ∅
    | Some o => G !! [] = Some SBranch ∧ stored geo w G o []
    end;
  rep_root_cached : rootLoaded c = true → ¬ E [] → is_Some (G !! []) → is_Some (branchAt c []);
  rep_leaf : ∀ p l, leafAt c p = Some l →
    l = TrieLeaf.mk geo (TrieLeaf.sortedEntries l) ∧ G !! p = Some (SLeaf (TrieLeaf.sortedEntries l));
  rep_branch : ∀ p b, branchAt c p = Some b →
    G !! p = Some SBranch ∧ TrieBranch.fits geo (TrieBranch.children b);
  rep_up : ∀ p n, cached c (p ++ [n]) → E (p ++ [n]) ∨ is_Some (branchAt c p);
  rep_children : ∀ p b n, branchAt c p = Some b → ¬ E (p ++ [n]) →
    is_Some (TrieBranch.children b !! n) ↔ is_Some (G !! (p ++ [n]));
  rep_child : ∀ p b n o, branchAt c p = Some b → TrieBranch.children b !! n = Some o →
    ¬ dirty c (p ++ [n]) → ¬ E (p ++ [n]) → handle w G o (p ++ [n]);
  rep_clean : ∀ p o, cleanChildren c !! encodeDirtyPath p = Some o →
    ¬ dirty c p → ¬ E p → handle w G o p;
  rep_dirty_up : ∀ p n, dirty c (p ++ [n]) → E (p ++ [n]) ∨ dirty c p }.

Definition nowhere : list N → Prop := λ _, False.

Lemma rep_loaded E c w G p : rep E c w G → cached c p → rootLoaded c = true.
Proof. intros R Hp. destruct (rootLoaded c) eqn:El; [done|]. by destruct (rep_unloaded _ _ _ _ R El p). Qed.

Lemma rep_exclusive E c w G p l b : rep E c w G → leafAt c p = Some l → branchAt c p = Some b → False.
Proof.
  intros R Hl Hb. apply (rep_leaf _ _ _ _ R) in Hl as [_ Hl].
  apply (rep_branch _ _ _ _ R) in Hb as [Hb _]. congruence.
Qed.

(** The store may grow. *)
Lemma rep_mono E c w w' G : rep E c w G → trie_store_le w w' → rep E c w' G.
Proof.
  intros R Hle. destruct R. split; try done.
  - intros Hd HE. specialize (rep_root0 Hd HE). destruct (initialRootOid c); [|done].
    destruct rep_root0. split; [done|]. by eapply stored_mono.
  - intros. eapply handle_mono; [by eapply rep_child0|done].
  - intros. eapply handle_mono; [by eapply rep_clean0|done].
Qed.

(** A leaf changes or appears: only the pages above it can notice. *)
Lemma rep_mark_leaf E E' c w G q l :
  rep E c w G → rootLoaded c = true → q ≠ [] → G !! q ≠ Some SBranch →
  l = TrieLeaf.mk geo (TrieLeaf.sortedEntries l) →
  (∀ p, E p → E' p) → E' q → (∀ p, above p q → dirty c p ∨ E' p) →
  rep E' (markLeafDirty q l c) w (<[q := SLeaf (TrieLeaf.sortedEntries l)]> G).
Proof.
  intros R Hload Hq Hnb Hl HE HEq Hab. set (G' := <[q := _]> G).
  assert (∀ p, p ≠ q → G' !! p = G !! p) as HG by (intros p Hp; by apply lookup_insert_ne).
  assert (∀ o p, ¬ dirty (markLeafDirty q l c) p → ¬ E' p → handle w G o p → handle w G' o p) as Hframe.
  { intros o p Hd HEp Hh. eapply handle_frame; [done|]. intros x. apply HG. intros <-.
    destruct x as [|n x]; [by rewrite app_nil_r in HEq|].
    destruct (Hab p) as [?|?]; [by exists n, x| |done]. apply Hd, dirty_mark_leaf. by right. }
  assert (∀ p, ¬ dirty (markLeafDirty q l c) p → ¬ dirty c p) as Hnd.
  { intros p Hd Hd'. apply Hd, dirty_mark_leaf. by right. }
  assert (∀ p, cached (markLeafDirty q l c) p → p = q ∨ cached c p) as Hcache.
  { intros p. unfold cached. rewrite leafAt_mark_leaf. destruct (decide (p = q)); [by left|by right]. }
  split; try apply R.
  - intros key. simpl. destruct (decide (key = encodeDirtyPath q)) as [->|Hne]; [by exists q|].
    rewrite lookup_insert_ne by done. apply R.
  - simpl. intros El. congruence.
  - intros Hd HEn. destruct (Hab []) as [Hd'|?]; [|by destruct (Hnd _ Hd)|done].
    destruct q as [|n q]; [done|]. by exists n, q.
  - simpl. intros _ HEn. rewrite HG by done. intros Hs. apply R; auto.
  - intros p l'. rewrite leafAt_mark_leaf. destruct (decide (p = q)) as [->|Hp].
    + intros [= <-]. split; [done|]. apply lookup_insert_eq.
    + intros Hl'. rewrite HG by done. by apply R.
  - intros p b Hb. destruct (rep_branch _ _ _ _ R p b Hb) as [Hp ?]. rewrite HG; [done|congruence].
  - intros p n [->|Hc]%Hcache; [by left|]. destruct (rep_up _ _ _ _ R p n Hc); [left; auto|by right].
  - intros p b n Hb HEp. rewrite HG by (intros <-; done). apply (rep_children _ _ _ _ R); auto.
  - intros p b n o Hb Hn Hd HEp. apply Hframe; [done|done|]. apply (rep_child _ _ _ _ R p b); auto.
  - intros p o Ho Hd HEp. apply Hframe; [done|done|]. apply (rep_clean _ _ _ _ R); auto.
  - intros p n [->|Hd]%dirty_mark_leaf; [by left|].
    destruct (rep_dirty_up _ _ _ _ R p n Hd); [left; auto|]. right. apply dirty_mark_leaf. by right.
Qed.

(** A leaf leaves the maps: a branch is to take its place. *)
Lemma rep_clear_leaf E E' c w G q l :
  rep E c w G → leafAt c q = Some l → q ≠ [] → (∀ x, x ≠ [] → G !! (q ++ x) = None) →
  (∀ p, E p → E' p) → E' q → (∀ p, above p q → dirty c p ∨ E' p) →
  rep E' (clearLeafAt q c) w (<[q := SBranch]> G).
Proof.
  intros R Hl Hq Hbelow HE HEq Hab. set (G' := <[q := _]> G).
  assert (branchAt c q = None) as Hnb.
  { destruct (branchAt c q) eqn:Eb; [|done]. by destruct (rep_exclusive _ _ _ _ _ _ _ R Hl Eb). }
  assert (∀ p, dirty (clearLeafAt q c) p ↔ p ≠ q ∧ dirty c p) as Hdirty
    by (intros p; by apply dirty_clear_leaf).
  assert (∀ p, p ≠ q → G' !! p = G !! p) as HG by (intros p Hp; by apply lookup_insert_ne).
  assert (∀ n, ¬ cached c (q ++ [n])) as Hnc.
  { intros n. specialize (Hbelow [n] ltac:(done)). intros [[l' Hl']|[b Hb]].
    - apply R in Hl' as [_ ?]. congruence.
    - apply R in Hb as [? _]. congruence. }
  assert (∀ p, ¬ dirty (clearLeafAt q c) p → ¬ E' p → ¬ dirty c p) as Hnd.
  { intros p Hd HEp Hd'. apply Hd, Hdirty. split; [|done]. by intros ->. }
  assert (∀ o p, ¬ dirty (clearLeafAt q c) p → ¬ E' p → handle w G o p → handle w G' o p) as Hframe.
  { intros o p Hd HEp Hh. eapply handle_frame; [done|]. intros x. apply HG. intros <-.
    destruct x as [|n x]; [by rewrite app_nil_r in HEq|].
    destruct (Hab p) as [?|?]; [by exists n, x| |done]. by apply (Hnd p). }
  assert (∀ p, cached (clearLeafAt q c) p → cached c p) as Hcache.
  { intros p. unfold cached. rewrite leafAt_clear_leaf. destruct (decide (p = q)); [|done].
    intros [[? [=]]|Hb]; by right. }
  assert (rootLoaded c = true) as Hload.
  { apply (rep_loaded E c w G q R). left. by rewrite Hl. }
  split; try apply R.
  - intros key. simpl. destruct (decide (key = encodeDirtyPath q)) as [->|Hne]; [by exists q|].
    rewrite lookup_delete_ne by done. apply R.
  - simpl. congruence.
  - intros Hd HEn. destruct (Hab []) as [Hd'|?]; [|by destruct (Hnd [])|done].
    destruct q as [|n q]; [done|]. by exists n, q.
  - simpl. intros _ HEn. rewrite HG by done. intros Hs. apply R; auto.
  - intros p l'. rewrite leafAt_clear_leaf. destruct (decide (p = q)) as [->|Hp]; [done|].
    intros Hl'. rewrite HG by done. by apply R.
  - intros p b Hb. change (branchAt c p = Some b) in Hb.
    destruct (rep_branch _ _ _ _ R p b Hb) as [Hp ?]. rewrite HG; [done|congruence].
  - intros p n Hc%Hcache. destruct (rep_up _ _ _ _ R p n Hc); [left; auto|by right].
  - intros p b n Hb HEp. rewrite HG by (intros <-; done). apply (rep_children _ _ _ _ R); auto.
  - intros p b n o Hb Hn Hd HEp. apply Hframe; [done|done|]. apply (rep_child _ _ _ _ R p b); auto.
  - intros p o Ho Hd HEp. apply Hframe; [done|done|]. apply (rep_clean _ _ _ _ R); auto.
  - intros p n [Hne Hd]%Hdirty. destruct (rep_dirty_up _ _ _ _ R p n Hd) as [|Hd']; [left; auto|].
    right. apply Hdirty. split; [|done]. intros ->. by apply (Hnc n), dirty_cached.
Qed.

(** A branch is rewritten with all its children: changed children may leave [E]. *)
Lemma rep_mark_branch E E' c w G P b :
  rep E c w G → rootLoaded c = true → G !! P = Some SBranch →
  TrieBranch.fits geo (TrieBranch.children b) →
  (∀ n, is_Some (TrieBranch.children b !! n) ↔ is_Some (G !! (P ++ [n]))) →
  (∀ n o, TrieBranch.children b !! n = Some o → ¬ dirty c (P ++ [n]) → ¬ E' (P ++ [n]) →
     handle w G o (P ++ [n])) →
  (∀ p, E p → E' p ∨ ∃ n, p = P ++ [n] ∧ dirty c p) → E' P ∨ dirty c P →
  rep E' (markBranchDirty P b c) w G.
Proof.
  intros R Hload HP Hfit Hkids Hhandle HE HEP.
  assert (∀ p, ¬ dirty (markBranchDirty P b c) p → p ≠ P ∧ ¬ dirty c p) as Hnd.
  { intros p Hd. rewrite dirty_mark_branch in Hd. tauto. }
  assert (∀ p, cached (markBranchDirty P b c) p → p = P ∨ cached c p) as Hcache.
  { intros p. unfold cached. rewrite branchAt_mark_branch. destruct (decide (p = P)); [by left|by right]. }
  assert (∀ p, ¬ E' p → ¬ dirty c p → ¬ E p) as HnE.
  { intros p Hp Hd [?|(n & -> & ?)]%HE; done. }
  assert (∀ p n, p ≠ P → ¬ E' (p ++ [n]) → ¬ E (p ++ [n])) as HnE'.
  { intros p n Hp HEp [?|(m & Em & ?)]%HE; [done|]. by apply app_inj_tail in Em as [-> _]. }
  split; try apply R.
  - intros key. simpl. destruct (decide (key = encodeDirtyPath P)) as [->|Hne]; [by exists P|].
    rewrite (lookup_insert_ne (dirtyBranches c)) by done. apply R.
  - simpl. congruence.
  - intros [HPn Hd]%Hnd HEn. apply (rep_root _ _ _ _ R); auto.
  - intros Hl HEn Hs. rewrite branchAt_mark_branch. destruct (decide ([] = P)); [done|].
    apply R; [done| |done]. intros [?|(n' & En & _)]%HE; [done|]. by destruct P.
  - intros p b'. rewrite branchAt_mark_branch. destruct (decide (p = P)) as [->|Hp]; [|by apply R].
    by intros [= <-].
  - intros p n [Ep|Hc]%Hcache; rewrite branchAt_mark_branch; destruct (decide (p = P)) as [->|HpP];
      [by right| |by right|].
    + destruct HEP as [HEP|HdP]; [left; by rewrite Ep|]. rewrite <- Ep in HdP.
      destruct (rep_up _ _ _ _ R p n (dirty_cached _ _ HdP)) as [HEp|]; [|by right].
      destruct (HE _ HEp) as [|(m & Em & _)]; [by left|]. by apply app_inj_tail in Em as [-> _].
    + destruct (rep_up _ _ _ _ R p n Hc) as [HEp|]; [|by right].
      destruct (HE _ HEp) as [|(m & Em & _)]; [by left|]. by apply app_inj_tail in Em as [-> _].
  - intros p b' n. rewrite branchAt_mark_branch. destruct (decide (p = P)) as [->|Hp].
    + intros [= <-] _. apply Hkids.
    + intros Hb HEp. apply (rep_children _ _ _ _ R); auto.
  - intros p b' n o. rewrite branchAt_mark_branch. destruct (decide (p = P)) as [->|Hp].
    + intros [= <-] Hn [_ Hd]%Hnd HEp. by apply Hhandle.
    + intros Hb Hn [_ Hd]%Hnd HEp. apply (rep_child _ _ _ _ R p b'); auto.
  - intros p o Ho [_ Hd]%Hnd HEp. apply (rep_clean _ _ _ _ R); auto.
  - intros p n [Ep|Hd]%dirty_mark_branch; rewrite dirty_mark_branch.
    + destruct HEP as [HEP|HdP]; [left; by rewrite Ep|]. rewrite <- Ep in HdP.
      destruct (rep_dirty_up _ _ _ _ R p n HdP) as [HEp|]; [|by right; right].
      destruct (HE _ HEp) as [|(m & Em & _)]; [by left|]. apply app_inj_tail in Em as [-> _].
      right. by left.
    + destruct (rep_dirty_up _ _ _ _ R p n Hd) as [HEp|]; [|by right; right].
      destruct (HE _ HEp) as [|(m & Em & _)]; [by left|]. apply app_inj_tail in Em as [-> _].
      right. by left.
Qed.

(** At a changed root nothing is left to rebind. *)
Lemma rep_close E c w G :
  rep E c w G → (∀ p, E p → p = []) → dirty c [] → is_Some (branchAt c []) → rep nowhere c w G.
Proof.
  intros R HE Hd Hb0. assert (∀ p n, ¬ E (p ++ [n])) as HnE.
  { intros p n Hp%HE. by apply snoc_not_nil in Hp. }
  split; try apply R.
  - done.
  - done.
  - intros p n Hc. destruct (rep_up _ _ _ _ R p n Hc); [by destruct (HnE p n)|by right].
  - intros p b n Hb _. by apply (rep_children _ _ _ _ R).
  - intros p b n o Hb Hn Hnd _. by apply (rep_child _ _ _ _ R p b).
  - intros p o Ho Hnd _. apply (rep_clean _ _ _ _ R); [done|done|]. by intros ->%HE.
  - intros p n Hdp. destruct (rep_dirty_up _ _ _ _ R p n Hdp); [by destruct (HnE p n)|by right].
Qed.

(** *** Loading *)

(** More pages are in memory; nothing else changed. *)
Record grows (c c' : TrieCursor) : Prop := {
  grows_dirty_leaves : dirtyLeaves c' = dirtyLeaves c;
  grows_dirty_branches : dirtyBranches c' = dirtyBranches c;
  grows_root : rootLoaded c = true → rootLoaded c' = true;
  grows_leaf : ∀ p l, leafAt c p = Some l → leafAt c' p = Some l;
  grows_branch : ∀ p b, branchAt c p = Some b → branchAt c' p = Some b }.

#[export] Instance grows_preorder : PreOrder grows.
Proof.
  split; [by intros c; split|]. intros c1 c2 c3 [] []. split; try congruence; auto.
Qed.

Lemma grows_dirty c c' p : grows c c' → dirty c' p ↔ dirty c p.
Proof. intros []. unfold dirty. by rewrite grows_dirty_leaves0, grows_dirty_branches0. Qed.

Lemma grows_count c c' : grows c c' → dirtyPageCount c' = dirtyPageCount c.
Proof. intros []. unfold dirtyPageCount. by rewrite grows_dirty_leaves0, grows_dirty_branches0. Qed.

Lemma branch_read c w oid cs :
  geometry c = geo → branch_page w oid cs → TrieBranch.fits geo cs →
  readBranchStrict oid (c, w) = ((c, w), Ok (TrieBranch.mk geo cs)).
Proof.
  intros Hg Hp Hf. unfold readBranchStrict. rewrite (read_branch_law _ _ _ Hp), Hg.
  by rewrite TrieBranch.new_ok.
Qed.

Lemma leaf_try c w oid bytes es :
  geometry c = geo → leaf_page w oid bytes → bytes ≠ [] →
  TrieLeaf.deserialize bytes geo = Ok (TrieLeaf.mk geo es) →
  tryReadLeaf oid (c, w) = ((c, w), Ok (Some (TrieLeaf.mk geo es))).
Proof.
  intros Hg Hp Hne Hd. unfold tryReadLeaf, readLeafBytesAllowingMissing.
  rewrite (read_leaf_law _ _ _ Hp). cbn [mbind result_bind]. rewrite bool_decide_false by done.
  unfold decodeBytesAsLeafOrFallThrough. by rewrite Hg, Hd.
Qed.

Lemma branch_try c w oid cs : branch_page w oid cs → tryReadLeaf oid (c, w) = ((c, w), Ok None).
Proof.
  intros Hp. unfold tryReadLeaf, readLeafBytesAllowingMissing.
  destruct (read_branch_as_leaf_law _ _ _ Hp) as [-> | ->]; [|done].
  unfold Helpers.isMissingStoreError. by rewrite bool_decide_true.
Qed.

(** A page of the store enters the maps. *)
Lemma rep_loaded_leaf c w G p n l o :
  rep nowhere c w G → is_Some (branchAt c p) → ¬ cached c (p ++ [n]) → handle w G o (p ++ [n]) →
  l = TrieLeaf.mk geo (TrieLeaf.sortedEntries l) →
  G !! (p ++ [n]) = Some (SLeaf (TrieLeaf.sortedEntries l)) →
  let c' := set_loaded_leaf (p ++ [n]) l o c in
  rep nowhere c' w G ∧ grows c c' ∧ leafAt c' (p ++ [n]) = Some l.
Proof.
  intros R Hp Hnc Hh Hl HG c'. assert (leafAt c (p ++ [n]) = None) as Hnl.
  { destruct (leafAt c (p ++ [n])) eqn:E; [|done]. destruct Hnc. left. by rewrite E. }
  assert (∀ q, leafAt c' q = if decide (q = p ++ [n]) then Some l else leafAt c q) as Hleaf
    by (intros q; by apply leafAt_loaded).
  split; [|split; [|by rewrite Hleaf, decide_True]].
  - split; try apply R.
    + intros El. change (rootLoaded c = false) in El. intros q Hq.
      destruct Hp as [b Hb]. destruct (rep_unloaded _ _ _ _ R El p). right. by rewrite Hb.
    + intros q l'. rewrite Hleaf. destruct (decide (q = p ++ [n])) as [->|]; [|by apply R].
      by intros [= <-].
    + intros q m Hc. right. destruct (decide (q ++ [m] = p ++ [n])) as [E|Hne].
      * by apply app_inj_tail in E as [-> _].
      * destruct (rep_up _ _ _ _ R q m) as [[]|]; [|done].
        destruct Hc as [Hc|Hc]; [left|by right]. by rewrite Hleaf, decide_False in Hc.
    + intros q o'. simpl. rewrite lookup_insert_path. destruct (decide (q = p ++ [n])) as [->|].
      * by intros [= <-].
      * by apply R.
  - split; try done. intros q l'. rewrite Hleaf. destruct (decide (q = p ++ [n])) as [->|]; [|done]. congruence.
Qed.

Lemma rep_loaded_branch c w G p n b o :
  rep nowhere c w G → is_Some (branchAt c p) → ¬ cached c (p ++ [n]) → handle w G o (p ++ [n]) →
  G !! (p ++ [n]) = Some SBranch → TrieBranch.fits geo (TrieBranch.children b) →
  (∀ m, is_Some (TrieBranch.children b !! m) ↔ is_Some (G !! ((p ++ [n]) ++ [m]))) →
  (∀ m o, TrieBranch.children b !! m = Some o → handle w G o ((p ++ [n]) ++ [m])) →
  let c' := set_loaded_branch (p ++ [n]) b o c in
  rep nowhere c' w G ∧ grows c c' ∧ branchAt c' (p ++ [n]) = Some b.
Proof.
  intros R Hp Hnc Hh HG Hfit Hkids Hhs c'. assert (branchAt c (p ++ [n]) = None) as Hnb.
  { destruct (branchAt c (p ++ [n])) eqn:E; [|done]. destruct Hnc. right. by rewrite E. }
  assert (∀ q, branchAt c' q = if decide (q = p ++ [n]) then Some b else branchAt c q) as Hbr
    by (intros q; by apply branchAt_loaded).
  assert (∀ q, is_Some (branchAt c q) → is_Some (branchAt c' q)) as Hmono.
  { intros q Hq. rewrite Hbr. by destruct (decide (q = p ++ [n])). }
  split; [|split; [|by rewrite Hbr, decide_True]].
  - split; try apply R.
    + intros El. change (rootLoaded c = false) in El. intros q Hq.
      destruct Hp as [b' Hb]. destruct (rep_unloaded _ _ _ _ R El p). right. by rewrite Hb.
    + intros Hl HEn Hs. by apply Hmono, R.
    + intros q b'. rewrite Hbr. destruct (decide (q = p ++ [n])) as [->|]; [|by apply R]. by intros [= <-].
    + intros q m Hc. right. apply Hmono. destruct (decide (q ++ [m] = p ++ [n])) as [E|Hne].
      * by apply app_inj_tail in E as [-> _].
      * destruct (rep_up _ _ _ _ R q m) as [[]|]; [|done].
        destruct Hc as [Hc|Hc]; [by left|right]. by rewrite Hbr, decide_False in Hc.
    + intros q b' m. rewrite Hbr. destruct (decide (q = p ++ [n])) as [->|]; [|by apply R].
      by intros [= <-] _.
    + intros q b' m o'. rewrite Hbr. destruct (decide (q = p ++ [n])) as [->|]; [|by apply R].
      intros [= <-] Hm _ _. by apply Hhs.
    + intros q o'. simpl. rewrite lookup_insert_path. destruct (decide (q = p ++ [n])) as [->|].
      * by intros [= <-].
      * by apply R.
  - split; try done. intros q b'. rewrite Hbr. destruct (decide (q = p ++ [n])) as [->|]; [|done]. congruence.
Qed.

(** What a loaded child is. *)
Definition child_loaded (c : TrieCursor) (G : trie) (p : list N) (kind : child_kind) : Prop :=
  match kind with
  | KLeaf => ∃ es, leafAt c p = Some (TrieLeaf.mk geo es) ∧ G !! p = Some (SLeaf es)
  | KBranch => is_Some (branchAt c p) ∧ leafAt c p = None
  end.

(** Any handle of the page will do, not only the one its parent has now. *)
Lemma ensureChildLoaded_handle c w G p n o :
  rep nowhere c w G → is_Some (branchAt c p) → dirty c (p ++ [n]) ∨ handle w G o (p ++ [n]) →
  ∃ c' kind, ensureChildLoaded p n o (c, w) = ((c', w), Ok kind) ∧ rep nowhere c' w G ∧
    grows c c' ∧ child_loaded c' G (p ++ [n]) kind.
Proof.
  intros R Hb Ho. unfold ensureChildLoaded, asks, mbind, step_bind. simpl.
  destruct (leafAt c (p ++ [n])) as [l|] eqn:El.
  { exists c, KLeaf. destruct (rep_leaf _ _ _ _ R _ _ El) as [E HG].
    split; [done|]. split; [done|]. split; [done|].
    exists (TrieLeaf.sortedEntries l). by rewrite El, <- E. }
  cbn [fst]. destruct (branchAt c (p ++ [n])) as [b'|] eqn:Eb.
  { exists c, KBranch. split; [done|]. split; [done|]. split; [done|]. split; [by rewrite Eb|done]. }
  assert (¬ cached c (p ++ [n])) as Hnc by (unfold cached; rewrite El, Eb; by intros [[]|[]]).
  assert (handle w G o (p ++ [n])) as Hh.
  { destruct Ho as [Hd|Ho]; [|done]. by destruct Hnc; apply dirty_cached. }
  pose proof (proj2 Hh) as Hs.
  unfold loadChildFromStore, mbind, step_bind.
  inversion Hs as [? ? es bytes HG Hpage Hne Hd|? ? cs HG Hpage Hfit Hkids Hoids Hst]; subst.
  - rewrite (leaf_try _ _ _ _ _ (rep_geo _ _ _ _ R) Hpage Hne Hd). simpl.
    destruct (rep_loaded_leaf c w G p n (TrieLeaf.mk geo es) o R) as (R' & Hg & Hl);
      [done|done|done|done|done|].
    eexists _, KLeaf. split; [done|]. split; [done|]. split; [done|]. by exists es.
  - rewrite (branch_try _ _ _ _ Hpage), (branch_read _ _ _ _ (rep_geo _ _ _ _ R) Hpage Hfit). simpl.
    destruct (rep_loaded_branch c w G p n (TrieBranch.mk geo cs) o R) as (R' & Hg & Hbr);
      [done|done|done|done|done|done| |].
    { intros m o' Hm. split; [|by apply (Hst m)]. split; [|by apply (Hoids m)]. by apply (Hfit m). }
    eexists _, KBranch. split; [done|]. split; [done|]. split; [done|]. split; [by rewrite Hbr|done].
Qed.

Lemma ensureChildLoaded_ok c w G p b n o :
  rep nowhere c w G → branchAt c p = Some b → TrieBranch.children b !! n = Some o →
  ∃ c' kind, ensureChildLoaded p n o (c, w) = ((c', w), Ok kind) ∧ rep nowhere c' w G ∧
    grows c c' ∧ child_loaded c' G (p ++ [n]) kind.
Proof.
  intros R Hb Hn. apply ensureChildLoaded_handle; [done|by rewrite Hb|].
  destruct (decide (dirty c (p ++ [n]))) as [Hd|Hd]; [by left|right].
  by apply (rep_child _ _ _ _ R p b); [..|intros []].
Qed.

(** After loading the root, the cursor has one exactly if the trie does. *)
Lemma loadRootIfNeeded_ok c w G :
  rep nowhere c w G → ∃ c', loadRootIfNeeded (c, w) = ((c', w), Ok ()) ∧ rep nowhere c' w G ∧
    grows c c' ∧ rootLoaded c' = true ∧ hasRoot c' = bool_decide (is_Some (G !! [])).
Proof.
  intros R.
  assert (∀ c', rep nowhere c' w G → rootLoaded c' = true →
    hasRoot c' = bool_decide (is_Some (G !! []))) as Hroot.
  { intros c' R' Hl. rewrite hasRoot_branchAt. apply bool_decide_ext.
    split; [|by apply (rep_root_cached _ _ _ _ R' Hl); intros []].
    intros [b Hb]. by destruct (rep_branch _ _ _ _ R' _ _ Hb) as [-> _]. }
  unfold loadRootIfNeeded, asks, changes, mbind, step_bind. simpl.
  destruct (rootLoaded c) eqn:El.
  { exists c. split; [done|]. split; [done|]. split; [done|]. split; [done|]. by apply Hroot. }
  pose proof (rep_unloaded _ _ _ _ R El) as Hnc.
  assert (¬ dirty c []) as Hnd by (intros ?%dirty_cached; by destruct (Hnc [])).
  pose proof (rep_root _ _ _ _ R Hnd ltac:(by intros [])) as Hr.
  change (initialRootOid (set_rootLoaded c, w).1) with (initialRootOid c).
  destruct (initialRootOid c) as [o|] eqn:Eo.
  - destruct Hr as [HG Hs]. inversion Hs as [|? ? cs _ Hpage Hfit Hkids Hoids Hst]; subst; [congruence|].
    rewrite (branch_read _ _ _ _ (rep_geo _ _ _ _ R : geometry (set_rootLoaded c) = geo) Hpage Hfit).
    eexists. split; [done|]. set (c' := set_root _ _).
    assert (∀ q, branchAt c' q = if decide (q = []) then Some (TrieBranch.mk geo cs) else None) as Hbr.
    { intros q. assert (branchAt c q = None) as Hq
        by (destruct (branchAt c q) eqn:E; [|done]; destruct (Hnc q); right; by rewrite E).
      revert Hq. unfold branchAt. simpl. change "" with (encodeDirtyPath []).
      destruct (dirtyBranches c !! _); [done|]. intros Hq. rewrite lookup_insert_path, Hq. by repeat case_decide. }
    assert (∀ q, leafAt c' q = None) as Hlf.
    { intros q. change (leafAt c q = None). destruct (leafAt c q) eqn:E; [|done].
      destruct (Hnc q). left. by rewrite E. }
    assert (rep nowhere c' w G) as R'.
    { split; try apply R.
      - done.
      - intros _ _ _. by rewrite Hbr.
      - intros q b. rewrite Hbr. destruct (decide (q = [])) as [->|]; [|done]. by intros [= <-].
      - intros q n Hc. unfold cached in Hc. rewrite Hlf, Hbr in Hc.
        rewrite decide_False in Hc by apply snoc_not_nil. by destruct Hc as [[]|[]].
      - intros q b n. rewrite Hbr. destruct (decide (q = [])) as [->|]; [|done]. intros [= <-] _. apply Hkids.
      - intros q b n o'. rewrite Hbr. destruct (decide (q = [])) as [->|]; [|done].
        intros [= <-] Hn _ _. split; [|by apply Hst]. split; [by apply (Hfit n)|by apply (Hoids n)]. }
    split; [done|]. split; [|split; [done|by apply Hroot]].
    split; try done. intros q b Hb. destruct (Hnc q). right. by rewrite Hb.
  - exists (set_rootLoaded c). assert (rep nowhere (set_rootLoaded c) w G) as R'.
    { split; try apply R; [done|]. intros _ _ [s Hs]. subst G. by rewrite lookup_empty in Hs. }
    split; [done|]. split; [done|]. split; [by split|]. split; [done|]. by apply Hroot.
Qed.

(** *** Rebinding *)
Lemma rebind_ok E E' c w G P n :
  rep E c w G → rootLoaded c = true → G !! P = Some SBranch → is_Some (G !! (P ++ [n])) →
  dirty c (P ++ [n]) → (n < TrieGeometry.fanout geo)%N →
  (branchAt c P = None → ∀ m, m ≠ n → G !! (P ++ [m]) = None) →
  (∀ m, E (P ++ [m]) → m = n) → (∀ p, E p → E' p ∨ p = P ++ [n]) → E' P ∨ dirty c P →
  ∃ b, rebindParentBranch P n (c, w) = ((markBranchDirty P b c, w), Ok ()) ∧
    rep E' (markBranchDirty P b c) w G.
Proof.
  intros R Hl HP Hn Hd Hlt Hnone HEn HE HEP.
  set (cs := match branchAt c P with Some b => TrieBranch.entries b | None => ∅ end).
  set (cs' := <[n := Helpers.pendingChildOid P n]> cs).
  assert (∀ m o, m ≠ n → cs !! m = Some o → ∃ b, branchAt c P = Some b ∧
    TrieBranch.children b !! m = Some o) as Hcs.
  { intros m o Hm. unfold cs. destruct (branchAt c P) as [b|]; [by exists b|]. by rewrite lookup_empty. }
  assert (TrieBranch.fits geo cs') as Hfit.
  { apply map_Forall_insert_2; [done|]. unfold cs. destruct (branchAt c P) as [b|] eqn:Eb;
      [by apply (rep_branch _ _ _ _ R P b)|apply map_Forall_empty]. }
  exists (TrieBranch.mk geo cs'). split.
  - unfold rebindParentBranch, asks, lift, changes, mbind, step_bind, buildBranchWithPendingChild. simpl.
    fold cs. fold cs'. by rewrite (rep_geo _ _ _ _ R), TrieBranch.new_ok.
  - apply (rep_mark_branch E); try done.
    + intros m. simpl. unfold cs'. destruct (decide (m = n)) as [->|Hm].
      { rewrite lookup_insert_eq. split; [done|by intros _]. }
      rewrite lookup_insert_ne by done. unfold cs. destruct (branchAt c P) as [b|] eqn:Eb.
      * apply (rep_children _ _ _ _ R); [done|]. by intros ?%HEn.
      * rewrite lookup_empty, (Hnone eq_refl m Hm). done.
    + intros m o Hm Hnd HEm. simpl in Hm. unfold cs' in Hm.
      apply lookup_insert_Some in Hm as [[<- _]|[Hne Hm]]; [done|].
      destruct (Hcs m o) as (b & Hb & Hbm); [done|done|].
      apply (rep_child _ _ _ _ R P b); [done|done|done|]. by intros ?%HEn.
    + intros p [?| ->]%HE; [by left|right; by exists n].
Qed.
End rep.

(** ** The cursor's lookups, inserts, removals and scans on the trie that a cursor
    represents. *)
Section ops.
Import TrieCursor Helpers.
Context `{Hash} `{Codec} {W : Type} `{TrieStoreLaws W} (geo : TrieGeometry) (names : string → Prop).
Context (Hgeo : TrieGeometry.valid geo).
#[local] Abbreviation nb := (TrieGeometry.nibbleBits geo).
#[local] Abbreviation D := (max_depth nb).
Context (Hcf : collision_free nb names).
#[local] Abbreviation rep := (rep geo).
#[local] Abbreviation trie_wf := (trie_wf geo names).

Let Hw : width_ok nb := TrieGeometry.geo_width _ Hgeo.

Lemma fanout_nibble e i n : names e → route nb e !! i = Some n → (n < TrieGeometry.fanout geo)%N.
Proof.
  intros He Hi. rewrite (TrieGeometry.geo_fanout _ Hgeo).
  assert (Forall (λ v, v < 2 ^ N.of_nat nb)%N (route nb e)) as Hb.
  { apply nibbles_bounded; [|done]. by apply (cf_key _ _ Hcf). }
  rewrite Forall_lookup in Hb. by apply (Hb i).
Qed.

(** The next step of a descent along a route. *)
Lemma route_step e p :
  names e → take (length p) (route nb e) = p → (length p < D)%nat →
  ∃ n, RouteKey.nibbleAt (key_of_element e) (length p) nb = Ok n ∧
    route nb e !! length p = Some n ∧ take (length (p ++ [n])) (route nb e) = p ++ [n] ∧
    (n < TrieGeometry.fanout geo)%N.
Proof.
  intros He Hp Hlt.
  destruct (nibbleAt_lookup (key_of_element e) nb (length p)) as (n & En & Hn & _);
    [by apply (cf_key _ _ Hcf)|done|done|].
  exists n. split; [done|]. split; [done|]. split; [by apply take_S_path|]. by eapply fanout_nibble.
Qed.

Lemma nibbleBitsOf_ok : nibbleBitsOf nb = Ok nb.
Proof. unfold nibbleBitsOf. by rewrite bool_decide_true. Qed.

(** ** Lookups *)

(** A lookup finds the entry of the element, or there is none. *)
Definition located (c : TrieCursor) (G : trie) (e : string) (r : option LocatedEntry) : Prop :=
  match r with
  | Some loc => ∃ es, located_leaf loc = TrieLeaf.mk geo es ∧
      leafAt c (located_path loc) = Some (TrieLeaf.mk geo es) ∧
      G !! located_path loc = Some (SLeaf es) ∧
      take (length (located_path loc)) (route nb e) = located_path loc ∧
      entry loc ∈ es ∧ TrieLeaf.element (entry loc) = e
  | None => ∀ p es, G !! p = Some (SLeaf es) → cells es !! e = None
  end.

Lemma not_located c G e q :
  trie_wf G → take (length q) (route nb e) = q → G !! q ≠ Some SBranch →
  (G !! q = None → ∃ p n, q = p ++ [n] ∧ G !! p = Some SBranch) →
  cells_at G q !! e = None → located c G e None.
Proof.
  intros Hwf Hq Hnb Hup Hno p es Hp. destruct (cells es !! e) eqn:Ec; [|done].
  assert (p = q) as -> by by eapply (leaf_at_route geo names Hgeo Hcf).
  unfold cells_at in Hno. rewrite Hp in Hno. congruence.
Qed.

Lemma descend_ok remaining e p c w G :
  rep nowhere c w G → trie_wf G → names e → is_Some (branchAt c p) →
  take (length p) (route nb e) = p → (length p + remaining = D)%nat →
  ∃ c' r, descend remaining (Target (key_of_element e) e nb) p (length p) (c, w) = ((c', w), Ok r) ∧
    rep nowhere c' w G ∧ grows c c' ∧ located c' G e r.
Proof.
  revert p c. induction remaining as [|remaining IH]; intros p c R Hwf He [b Hb] Hp Hrem;
    destruct (rep_branch _ _ _ _ _ R _ _ Hb) as [HG _]; pose proof (wf_branch _ _ _ Hwf p HG) as Hlt;
    [lia|].
  destruct (route_step e p He Hp Hlt) as (n & En & Hn & Hp' & Hlt').
  cbn [descend t_routeKey t_nibbleBits]. unfold stepLookup, asks, lift, mbind, step_bind. cbn [fst].
  rewrite Hb, En. unfold TrieBranch.get.
  destruct (TrieBranch.children b !! n) as [o|] eqn:Eo.
  - unfold stepIntoChild, asks, mbind, step_bind.
    destruct (ensureChildLoaded_ok geo c w G p b n o R Hb Eo) as (c1 & kind & -> & R1 & G1 & Hk).
    destruct kind; simpl in Hk.
    + destruct Hk as (es & Hl & HGl). cbn [fst]. rewrite Hl. cbn.
      destruct (findEntryInLeaf_ok nb names Hw Hcf geo (p ++ [n]) es e) as (r & Er & Hr);
        [by apply Hwf|done|done|].
      rewrite length_app, Nat.add_1_r in Er. unfold locateEntryInLeaf. cbn. rewrite Er. cbn.
      exists c1, (fmap (M:=option) (λ ent, Located ent (TrieLeaf.mk geo es) (p ++ [n])) r).
      split; [done|]. split; [done|]. split; [done|]. destruct r as [ent|]; cbn.
      * exists es. by destruct Hr.
      * apply (not_located c1 G e (p ++ [n])); [done|done|congruence|by exists p, n|].
        unfold cells_at. rewrite HGl. apply eq_None_not_Some.
        intros [cl (ent & Hent & E & _)%cells_lookup]; [by apply (Hr ent)|].
        by apply (leaf_NoDup nb names Hw Hcf (p ++ [n])), Hwf.
    + destruct Hk as [Hbr _]. destruct (IH (p ++ [n]) c1) as (c' & r & Er & R' & G' & Hr);
        [done|done|done|done|done|rewrite length_app; simpl; lia|].
      rewrite length_app, Nat.add_1_r in Er. exists c', r. cbn. split; [done|]. split; [done|].
      split; [by rewrite G1|done].
  - exists c, None. split; [done|]. split; [done|]. split; [done|].
    assert (G !! (p ++ [n]) = None) as Hnone.
    { apply eq_None_not_Some. rewrite <- (rep_children _ _ _ _ _ R p b n Hb); [|by intros []].
      by rewrite Eo; intros []. }
    apply (not_located c G e (p ++ [n])); [done|done|congruence|by exists p, n|].
    unfold cells_at. by rewrite Hnone, lookup_empty.
Qed.

Lemma locateEntry_ok e c w G :
  rep nowhere c w G → trie_wf G → names e →
  ∃ c' r, locateEntry e (c, w) = ((c', w), Ok r) ∧ rep nowhere c' w G ∧ grows c c' ∧
    rootLoaded c' = true ∧ located c' G e r.
Proof.
  intros R Hwf He. destruct (loadRootIfNeeded_ok geo c w G R) as (c1 & E1 & R1 & G1 & L1 & Hroot).
  unfold locateEntry. unfold mbind at 1, step_bind at 1. rewrite E1.
  unfold asks, lift, mbind, step_bind. cbn [fst]. rewrite Hroot.
  case_bool_decide as HG; cbn [negb].
  - rewrite (fromElement_ok nb names e Hcf He). cbn [fst].
    rewrite (rep_geo _ _ _ _ _ R1), nibbleBitsOf_ok.
    destruct (descend_ok D e [] c1 w G R1 Hwf He) as (c' & r & Er & R' & G' & Hr);
      [by apply (rep_root_cached _ _ _ _ _ R1 L1); [intros []|]|done|done|].
    exists c', r. split; [exact Er|]. split; [done|]. split; [by rewrite G1|]. split; [by apply G'|done].
  - exists c1, None. split; [done|]. split; [done|]. split; [done|]. split; [done|].
    intros p es Hp. destruct HG. destruct p as [|n p]; [by rewrite Hp|].
    rewrite (wf_prefix geo names G [] (n :: p) (SLeaf es) Hwf Hp); done.
Qed.

Lemma located_view c G e m r :
  trie_wf G → views G m → located c G e r → m !! e = cell_of <$> (entry <$> r).
Proof.
  intros Hwf Hm Hr. destruct r as [loc|]; simpl in *.
  - destruct Hr as (es & _ & _ & HG & _ & Hent & He). apply Hm. exists (located_path loc), es.
    split; [done|]. apply cells_lookup; [by eapply (leaf_NoDup nb names Hw Hcf), Hwf|]. by eexists.
  - apply eq_None_not_Some. intros [cl (p & es & Hp & Hc)%Hm]. by rewrite (Hr p es Hp) in Hc.
Qed.

Lemma validateElement_ok e : names e → validateElement e = Ok ().
Proof. intros He. unfold validateElement. by rewrite (cf_nonempty _ _ Hcf e He). Qed.

(** A read that looks the element up. *)
Lemma lookup_ok {A} e (k : option TrieLeafEntry → result A) c w G m :
  rep nowhere c w G → trie_wf G → views G m → names e →
  ∃ c' r, (_ ← lift (validateElement e); found ← lookupEntry e; lift (k found)) (c, w) = ((c', w), k r) ∧
    rep nowhere c' w G ∧ grows c c' ∧ m !! e = cell_of <$> r ∧
    match r with Some ent => TrieLeaf.element ent = e | None => True end.
Proof.
  intros R Hwf Hm He. destruct (locateEntry_ok e c w G R Hwf He) as (c' & r & E & R' & G' & _ & Hr).
  exists c', (entry <$> r). unfold lookupEntry, lift, mbind, step_bind.
  rewrite (validateElement_ok e He), E. split; [done|]. split; [done|]. split; [done|].
  split; [by eapply located_view|]. destruct r as [loc|]; [|done].
  destruct Hr as (es & _ & _ & _ & _ & _ & ?). done.
Qed.
End ops.
