(* ===== verification/TrieInsert.v ===== *)
(** Inserting an element: the new or updated leaf, the splits it causes, and
    the branches rebound on the way back. *)
From S2P Require Export TrieRep.

Section insert.
Import Helpers TrieCursor.
Context `{Hash} `{Codec} {W : Type} `{TrieStoreLaws W} (geo : TrieGeometry) (names : string → Prop).
Context (Hgeo : TrieGeometry.valid geo).
#[local] Abbreviation nb := (TrieGeometry.nibbleBits geo).
#[local] Abbreviation D := (max_depth nb).
Context (Hcf : collision_free nb names).
#[local] Abbreviation rep := (rep geo).
#[local] Abbreviation trie_wf := (trie_wf geo names).

Let Hw : width_ok nb := TrieGeometry.geo_width _ Hgeo.

(** Nothing that was in memory as a branch, and nothing dirty, is lost. *)
Record evolves (c c' : TrieCursor) : Prop := {
  ev_root : rootLoaded c = true → rootLoaded c' = true;
  ev_branch : ∀ p, is_Some (branchAt c p) → is_Some (branchAt c' p);
  ev_dirty : ∀ p, dirty c p → dirty c' p }.

#[export] Instance evolves_preorder : PreOrder evolves.
Proof. split; [by intros c; split|]. intros c1 c2 c3 [] []. split; auto. Qed.

Lemma grows_evolves c c' : grows c c' → evolves c c'.
Proof.
  intros G. split; [apply G| |].
  - intros p [b Hb]. rewrite (grows_branch _ _ G p b Hb). done.
  - intros p Hd. by apply (grows_dirty c c' p G).
Qed.

Lemma mark_leaf_evolves p l c : evolves c (markLeafDirty p l c).
Proof. split; [done|done|]. intros q Hd. apply dirty_mark_leaf. by right. Qed.

Lemma mark_branch_evolves p b c : evolves c (markBranchDirty p b c).
Proof.
  split; [done| |].
  - intros q Hq. rewrite branchAt_mark_branch. by destruct (decide (q = p)).
  - intros q Hd. apply dirty_mark_branch. by right.
Qed.

(** The pages from the root to [p]. *)
Lemma upto_snoc p q n : upto (p ++ [n]) q → q = p ++ [n] ∨ upto p q.
Proof. intros [?|Ha]%upto_above; [by left|right]. by apply above_snoc in Ha. Qed.

Lemma upto_nil p : upto [] p → p = [].
Proof. intros [x E]. symmetry in E. by apply app_eq_nil in E as [-> _]. Qed.

Lemma upto_child p n : upto p (p ++ [n]) → False.
Proof. intros [x E]. apply (f_equal length) in E. rewrite !length_app in E. simpl in E. lia. Qed.

(** *** A changed leaf and its parent *)
Lemma put_leaf_ok P n l c w G :
  rep nowhere c w G → rootLoaded c = true → G !! P = Some SBranch → is_Some (branchAt c P) →
  G !! (P ++ [n]) ≠ Some SBranch → (n < TrieGeometry.fanout geo)%N →
  l = TrieLeaf.mk geo (TrieLeaf.sortedEntries l) →
  let G' := <[P ++ [n] := SLeaf (TrieLeaf.sortedEntries l)]> G in
  ∃ c', rebindParentBranch P n (markLeafDirty (P ++ [n]) l c, w) = ((c', w), Ok ()) ∧
    rep (upto P) c' w G' ∧ evolves c c' ∧ dirty c' P ∧ dirty c' (P ++ [n]) ∧
    leafAt c' (P ++ [n]) = Some l.
Proof.
  intros R HL HP Hb Hnb Hlt Hl G'.
  assert (rep (upto (P ++ [n])) (markLeafDirty (P ++ [n]) l c) w G') as R1.
  { apply (rep_mark_leaf geo nowhere); try done.
    - apply snoc_not_nil.
    - apply upto_above. by left.
    - intros p Hp. right. apply upto_above. by right. }
  set (c1 := markLeafDirty (P ++ [n]) l c) in *.
  destruct (rebind_ok geo (upto (P ++ [n])) (upto P) c1 w G' P n) as (b & E & R2).
  - done.
  - done.
  - unfold G'. rewrite lookup_insert_ne; [done|apply snoc_neq].
  - unfold G'. by rewrite lookup_insert_eq.
  - apply dirty_mark_leaf. by left.
  - done.
  - intros Hno. change (branchAt c P = None) in Hno. rewrite Hno in Hb. by destruct Hb.
  - intros m [E|Hu]%upto_snoc; [by apply app_inj_tail in E as [_ ->]|by apply upto_child in Hu].
  - intros p [->|Hp]%upto_snoc; [by right|by left].
  - left. apply upto_above. by left.
  - eexists. split; [exact E|]. split; [done|].
    split; [by transitivity c1; [apply mark_leaf_evolves|apply mark_branch_evolves]|].
    split; [apply dirty_mark_branch; by left|].
    split; [apply dirty_mark_branch; right; apply dirty_mark_leaf; by left|].
    change (leafAt c1 (P ++ [n]) = Some l). unfold c1. by rewrite leafAt_mark_leaf, decide_True.
Qed.

(** *** The first page *)
Lemma rep_empty_nothing c w p : rep nowhere c w ∅ → leafAt c p = None ∧ branchAt c p = None.
Proof.
  intros R. split.
  - destruct (leafAt c p) eqn:E; [|done]. by apply (rep_leaf _ _ _ _ _ R) in E as [_ E].
  - destruct (branchAt c p) eqn:E; [|done]. by apply (rep_branch _ _ _ _ _ R) in E as [E _].
Qed.

Lemma put_first_leaf_ok n l c w :
  rep nowhere c w ∅ → rootLoaded c = true → (n < TrieGeometry.fanout geo)%N →
  l = TrieLeaf.mk geo (TrieLeaf.sortedEntries l) →
  let G' := <[[n] := SLeaf (TrieLeaf.sortedEntries l)]> {[[] := SBranch]} in
  ∃ c', rebindParentBranch [] n (markLeafDirty [n] l c, w) = ((c', w), Ok ()) ∧
    rep nowhere c' w G'.
Proof.
  intros R HL Hlt Hl G'.
  assert (rep (λ p, p = []) c w {[[] := SBranch]}) as R0.
  { split; try apply R; try done.
    - intros p l'. by rewrite (proj1 (rep_empty_nothing c w p R)).
    - intros p b. by rewrite (proj2 (rep_empty_nothing c w p R)).
    - intros p m [Hc|Hc]; [rewrite (proj1 (rep_empty_nothing c w _ R)) in Hc
        |rewrite (proj2 (rep_empty_nothing c w _ R)) in Hc]; by destruct Hc.
    - intros p b m. by rewrite (proj2 (rep_empty_nothing c w p R)).
    - intros p b m o. by rewrite (proj2 (rep_empty_nothing c w p R)).
    - intros p o Ho Hd _. destruct (rep_clean _ _ _ _ _ R p o Ho Hd) as [_ Hs]; [by intros []|].
      by inversion Hs.
    - intros p m [Hc|Hc]%dirty_cached; [rewrite (proj1 (rep_empty_nothing c w _ R)) in Hc
        |rewrite (proj2 (rep_empty_nothing c w _ R)) in Hc]; by destruct Hc. }
  assert (rep (upto [n]) (markLeafDirty [n] l c) w G') as R1.
  { apply (rep_mark_leaf geo (λ p, p = [])); try done.
    - by rewrite lookup_singleton_ne.
    - intros p ->. by exists [n].
    - apply upto_above. by left.
    - intros p Hp. right. apply upto_above. by right. }
  set (c1 := markLeafDirty [n] l c) in *.
  destruct (rebind_ok geo (upto [n]) (upto []) c1 w G' [] n) as (b & E & R2); try done.
  - unfold G'. rewrite lookup_insert_ne by done. apply lookup_singleton_eq.
  - unfold G'. by rewrite lookup_insert_eq.
  - apply dirty_mark_leaf. by left.
  - intros _ m Hm. unfold G'. rewrite lookup_insert_ne by (cbn; congruence).
    by rewrite lookup_singleton_ne.
  - intros m [E|Hu]%(upto_snoc []); [by injection E|by apply (upto_child [] m) in Hu].
  - intros p [->|Hp]%(upto_snoc []); [by right|by left].
  - left. apply upto_above. by left.
  - eexists. split; [exact E|]. apply (rep_close geo (upto [])); [done|apply upto_nil| |].
    + apply dirty_mark_branch. by left.
    + by rewrite branchAt_mark_branch.
Qed.

(** *** Splitting *)

Section parts.
Context (q : list N) (k : nat).
#[local] Abbreviation short := (λ l, shortenEntries l nb k).

(** The leaves of a split, one after the other. *)
Record parts_installed (c c' : TrieCursor) (G G' : trie) (acc acc' : TrieBranchEntries)
    (parts : list (N * list TrieLeafEntry)) : Prop := {
  pi_shape : ∀ m l, (m, l) ∈ parts → G' !! (q ++ [m]) = Some (SLeaf (short l));
  pi_else : ∀ p, (∀ m, m ∈ parts.*1 → p ≠ q ++ [m]) → G' !! p = G !! p;
  pi_entry : ∀ m, m ∈ parts.*1 → acc' !! m = Some (pendingChildOid q m);
  pi_other : ∀ m, m ∉ parts.*1 → acc' !! m = acc !! m;
  pi_dirty : ∀ m, m ∈ parts.*1 → dirty c' (q ++ [m]);
  pi_evolves : evolves c c' }.

Lemma install_parts_ok E w parts acc c G ctx :
  leafPath ctx = q → (s_maxDepth ctx - leafDepth ctx)%nat = k →
  rep E c w G → rootLoaded c = true → NoDup parts.*1 →
  (∀ m l, (m, l) ∈ parts → StronglySorted entry_lt (short l) ∧ E (q ++ [m]) ∧ G !! (q ++ [m]) = None) →
  (∀ p, upto q p → dirty c p ∨ E p) →
  ∃ c' G' acc', for_fold (λ childEntries '(childNibble, childEntriesList),
      g ← asks geometry;
      nibbleBits ← lift (nibbleBitsOf (TrieGeometry.nibbleBits g));
      childLeaf ← lift (TrieLeaf.new (shortenEntries childEntriesList nibbleBits
        (s_maxDepth ctx - leafDepth ctx)) g);
      _ ← changes (markLeafDirty (leafPath ctx ++ [childNibble]) childLeaf);
      mret (<[childNibble := pendingChildOid (leafPath ctx) childNibble]> childEntries))
      parts acc (c, w) = ((c', w), Ok acc') ∧
    rep E c' w G' ∧ parts_installed c c' G G' acc acc' parts.
Proof.
  intros Hq Hk. revert acc c G. induction parts as [|[m l] parts IH]; intros acc c G R HL Hnd Hparts Hup.
  - exists c, G, acc. cbn [for_fold]. split; [done|]. split; [done|].
    split; try done; cbn; intros; set_solver.
  - cbn in Hnd. apply NoDup_cons in Hnd as [Hm Hnd].
    destruct (Hparts m l) as (Hs & HE & HG); [by left|].
    cbn [for_fold]. unfold asks, lift, changes, mbind at 1, step_bind at 1. cbn [fst].
    unfold mbind at 1, step_bind at 1. cbn [fst].
    rewrite (rep_geo _ _ _ _ _ R). unfold mbind at 1, step_bind at 1. rewrite nibbleBitsOf_ok by done.
    unfold mbind at 1, step_bind at 1. rewrite Hq, Hk, new_leaf_ok by done.
    unfold mbind at 1, step_bind at 1. cbn.
    set (c1 := markLeafDirty (q ++ [m]) (TrieLeaf.mk geo (short l)) c).
    set (G1 := <[q ++ [m] := SLeaf (short l)]> G).
    assert (rep E c1 w G1) as R1.
    { apply (rep_mark_leaf geo E E c w G (q ++ [m]) (TrieLeaf.mk geo (short l))); try done.
      - apply snoc_not_nil.
      - congruence.
      - intros p Hp%above_snoc. by apply Hup. }
    destruct (IH (<[m := pendingChildOid q m]> acc) c1 G1) as (c' & G' & acc' & Er & R' & P).
    + done.
    + done.
    + done.
    + intros m' l' Hin. destruct (Hparts m' l') as (? & ? & ?); [by right|]. split; [done|]. split; [done|].
      unfold G1. rewrite lookup_insert_ne; [done|]. intros E'.
      apply app_inj_tail in E' as [_ ->].
      apply Hm. apply list_elem_of_fmap. by exists (m', l').
    + intros p Hp. destruct (Hup p Hp); [left|by right]. apply dirty_mark_leaf. by right.
    + exists c', G', acc'. rewrite Hk, Hq in Er. split; [exact Er|]. split; [done|]. destruct P. split.
      * intros m' l' [[= -> ->]|Hin]%elem_of_cons; [|by apply pi_shape0].
        rewrite pi_else0; [by apply lookup_insert_eq|].
        intros m'' Hin E'. by apply app_inj_tail in E' as [_ ->].
      * intros p Hp. rewrite pi_else0; [|intros m' Hin; apply Hp; by right].
        unfold G1. rewrite lookup_insert_ne; [done|]. intros <-. by apply (Hp m); [left|].
      * intros m' Hin. cbn in Hin. destruct (decide (m' ∈ parts.*1)) as [|Hno]; [by apply pi_entry0|].
        apply elem_of_cons in Hin as [->|]; [|done]. rewrite pi_other0 by done. by apply lookup_insert_eq.
      * intros m' Hno. cbn in Hno. apply not_elem_of_cons in Hno as [Hne Hno].
        rewrite pi_other0 by done. by apply lookup_insert_ne.
      * intros m' [->|Hin]%elem_of_cons; [|by apply pi_dirty0].
        apply pi_evolves0. apply dirty_mark_leaf. by left.
      * transitivity c1; [apply mark_leaf_evolves|done].
Qed.
End parts.

(** The branch over the parts of a leaf. *)
Lemma parts_split G q es c c' G' acc' :
  let M := partitionEntriesByNextNibble (TrieLeaf.mk geo es) nb in
  G !! q = Some SBranch → (∀ m, G !! (q ++ [m]) = None) →
  parts_installed q (D - length q) c c' G G' ∅ acc' (map_to_list M) →
  G' !! q = Some SBranch ∧
  (∀ m, G' !! (q ++ [m]) =
    (λ l, SLeaf (shortenEntries l nb (D - length q))) <$> nonempty_list (bucket_of nb m es)) ∧
  (∀ p, p ≠ q → (∀ m, p ≠ q ++ [m]) → G' !! p = G !! p) ∧
  (∀ m, acc' !! m = (λ _, pendingChildOid q m) <$> nonempty_list (bucket_of nb m es)).
Proof.
  intros M Hq Hnone P.
  assert (∀ m, m ∈ (map_to_list M).*1 ↔ is_Some (nonempty_list (bucket_of nb m es))) as Hkeys.
  { intros m. rewrite <- (partition_lookup nb geo es m). fold M. rewrite list_elem_of_fmap. split.
    - intros ([m' l] & -> & Hl%elem_of_map_to_list). by exists l.
    - intros [l Hl]. exists (m, l). split; [done|]. by apply elem_of_map_to_list. }
  split; [|split_and!].
  - rewrite (pi_else _ _ _ _ _ _ _ _ _ P); [done|]. intros m _ E. by apply (snoc_neq q m).
  - intros m. destruct (nonempty_list (bucket_of nb m es)) as [l|] eqn:El; cbn.
    + apply (pi_shape _ _ _ _ _ _ _ _ _ P), elem_of_map_to_list. unfold M. by rewrite partition_lookup.
    + rewrite (pi_else _ _ _ _ _ _ _ _ _ P); [done|]. intros m' Hm' E. apply app_inj_tail in E as [_ <-].
      rewrite Hkeys, El in Hm'. by destruct Hm'.
  - intros p _ Hp. apply (pi_else _ _ _ _ _ _ _ _ _ P). intros m _. apply Hp.
  - intros m. destruct (nonempty_list (bucket_of nb m es)) as [l|] eqn:El; cbn.
    + apply (pi_entry _ _ _ _ _ _ _ _ _ P), Hkeys. by rewrite El.
    + rewrite (pi_other _ _ _ _ _ _ _ _ _ P), lookup_empty; [done|]. rewrite Hkeys, El. by intros [].
Qed.

(** The leaf at [q] becomes a branch in memory: all of a split but the parent
    and the cascade. *)
Lemma split_page_ok E ctx c w G es :
  let q := leafPath ctx in
  leafDepth ctx = length q → s_maxDepth ctx = D → (length q < D)%nat →
  rep E c w G → trie_wf G → rootLoaded c = true → leafAt c q = Some (TrieLeaf.mk geo es) →
  (∀ p, above p q → dirty c p ∨ E p) → (∀ p, E p → ¬ upto p q) →
  ∃ c0 G' b, installPartitionedLeaves ctx (partitionEntriesByNextNibble (TrieLeaf.mk geo es) nb)
      (clearLeafAt q c, w) = ((c0, w), Ok b) ∧
    let c' := markBranchDirty q b c0 in
    rep (λ p, E p ∨ p = q) c' w G' ∧ split_of geo G G' q es ∧ evolves c c' ∧ dirty c' q ∧
    branchAt c' q = Some b ∧ (∀ m, m ∈ (map_to_list (TrieBranch.children b)).*1 → dirty c' (q ++ [m])).
Proof.
  intros q Hd HD Hlt R Hwf HL Hleaf Hab HE.
  destruct (rep_leaf _ _ _ _ _ R _ _ Hleaf) as [_ HG]. cbn in HG.
  pose proof (wf_leaf _ _ _ Hwf _ _ HG) as Hlf.
  assert (q ≠ []) as Hq0 by (intros E0; rewrite E0 in HG; by apply (wf_root _ _ _ Hwf es)).
  set (M := partitionEntriesByNextNibble (TrieLeaf.mk geo es) nb).
  set (E1 := λ p, E p ∨ p = q ∨ ∃ m, m ∈ (map_to_list M).*1 ∧ p = q ++ [m]).
  assert (∀ x, x ≠ [] → G !! (q ++ x) = None) as Hbelow
    by (intros x Hx; apply (wf_below geo names); [done|congruence|done]).
  set (c1 := clearLeafAt q c). set (G1 := <[q := SBranch]> G).
  assert (rep E1 c1 w G1) as R1.
  { eapply (rep_clear_leaf geo E E1); try done; unfold E1; [by left|by right; left|].
    intros p Hp. destruct (Hab p Hp); [by left|by right; left]. }
  assert (branchAt c q = None) as Hnb.
  { destruct (branchAt c q) eqn:Eb; [|done]. by destruct (rep_exclusive _ _ _ _ _ _ _ _ R Hleaf Eb). }
  destruct (install_parts_ok q (D - length q) E1 w (map_to_list M) ∅ c1 G1 ctx)
    as (c2 & G2 & acc & Er & R2 & P); [done|congruence|done|done|apply NoDup_fst_map_to_list| |..].
  { intros m l Hml. pose proof Hml as Hml'%elem_of_map_to_list. unfold M in Hml'.
    rewrite partition_lookup in Hml'. split; [|split].
    - destruct (bucket_of nb m es) as [|x l0] eqn:Eb; [done|]. injection Hml' as <-. rewrite <- Eb.
      apply (shorten_ok nb names Hw Hcf q es m Hlf Hlt).
    - right. right. exists m. split; [|done]. apply list_elem_of_fmap. by exists (m, l).
    - unfold G1. rewrite lookup_insert_ne by (intros E0; by apply (snoc_neq q m)). by apply Hbelow. }
  { intros p [->|Hp]%upto_above; [right; by right; left|]. destruct (Hab p Hp); [left|by right; left].
    apply dirty_clear_leaf; [done|]. split; [by apply above_not_eq|done]. }
  destruct (parts_split G1 q es c1 c2 G2 acc) as (S1 & S2 & S3 & S4);
    [apply lookup_insert_eq| |done|].
  { intros m. unfold G1. rewrite lookup_insert_ne by (intros E0; by apply (snoc_neq q m)). by apply Hbelow. }
  assert (TrieBranch.fits geo acc) as Hfit.
  { intros m o Hm. rewrite S4 in Hm. split; [|by destruct (nonempty_list _); [injection Hm as <-|]].
    apply (bucket_nibble geo names Hgeo Hcf q es m Hlf Hlt). by destruct (bucket_of nb m es). }
  assert (∀ m, is_Some (acc !! m) → m ∈ (map_to_list M).*1) as Hacc.
  { intros m Hm. rewrite S4 in Hm. apply list_elem_of_fmap.
    destruct (nonempty_list (bucket_of nb m es)) as [l|] eqn:El; [|by destruct Hm].
    exists (m, l). split; [done|]. apply elem_of_map_to_list. unfold M. by rewrite partition_lookup. }
  pose proof (pi_evolves _ _ _ _ _ _ _ _ _ P) as Hev.
  exists c2, G2, (TrieBranch.mk geo acc).
  split; [|split; [|split; [|split; [|split; [|split]]]]].
  - unfold installPartitionedLeaves. rewrite (step_bind_ok _ _ _ _ _ Er), asks_bind.
    unfold lift. by rewrite (rep_geo _ _ _ _ _ R2), TrieBranch.new_ok.
  - apply (rep_mark_branch geo E1); [done|by apply Hev|done|done| | | |by left; right].
    + intros m. cbn. rewrite S4, S2, !fmap_is_Some. done.
    + intros m o Hm Hnd. cbn in Hm. destruct Hnd. apply (pi_dirty _ _ _ _ _ _ _ _ _ P), Hacc. by rewrite Hm.
    + intros p [?|[->|(m & Hm & ->)]]; [by left; left|by left; right|right].
      exists m. split; [done|]. by apply (pi_dirty _ _ _ _ _ _ _ _ _ P).
  - split; [done|done|]. intros p Hp Hp'. rewrite S3 by done. by apply lookup_insert_ne.
  - split.
    + intros _. cbn. by apply Hev.
    + intros p Hp. apply mark_branch_evolves. by apply Hev.
    + intros p Hp. apply dirty_mark_branch. destruct (decide (p = q)) as [->|Hne]; [by left|right].
      apply Hev. by apply dirty_clear_leaf.
  - apply dirty_mark_branch. by left.
  - by rewrite branchAt_mark_branch, decide_True.
  - intros m ([m' o] & -> & Hx%elem_of_map_to_list)%list_elem_of_fmap.
    apply dirty_mark_branch. right. apply (pi_dirty _ _ _ _ _ _ _ _ _ P), Hacc. cbn in *. by rewrite Hx.
Qed.

(** A split keeps what the trie holds; the children that are still too large
    are split in turn. *)
Lemma splitLeaf_ok fuel E ctx c w G l :
  leafPath ctx = parentPath ctx ++ [nibbleInParent ctx] → leafDepth ctx = length (leafPath ctx) →
  s_nibbleBits ctx = nb → s_maxDepth ctx = D → (D - leafDepth ctx < fuel)%nat →
  rep E c w G → trie_wf G → rootLoaded c = true → leafAt c (leafPath ctx) = Some l →
  dirty c (leafPath ctx) → dirty c (parentPath ctx) → is_Some (branchAt c (parentPath ctx)) →
  (∀ p, E p → upto (parentPath ctx) p) → (∀ p, above p (leafPath ctx) → dirty c p ∨ E p) →
  ∃ c' G', splitLeaf fuel ctx (c, w) = ((c', w), Ok ()) ∧ rep E c' w G' ∧ trie_wf G' ∧
    (∀ m, views G m → views G' m) ∧ evolves c c'.
Proof.
  revert E ctx c G l. induction fuel as [|fuel IH]; intros E ctx c G l Hq Hd Hnbits HD Hfuel R Hwf HL
    Hleaf Hdq HdP HbP HE Hab; [lia|].
  cbn [splitLeaf]. destruct (Nat.leb_spec (s_maxDepth ctx) (leafDepth ctx)) as [|Hlt].
  { exists c, G. split; [done|]. split; [done|]. split; [done|]. by split. }
  destruct (rep_leaf _ _ _ _ _ R _ _ Hleaf) as [El HG]. set (es := TrieLeaf.sortedEntries l) in *.
  rewrite asks_bind, Hleaf, El, Hnbits. set (q := leafPath ctx) in *. set (P := parentPath ctx) in *.
  set (n := nibbleInParent ctx) in *. rewrite El in Hleaf.
  destruct (split_page_ok E ctx c w G es) as (c0 & G1 & b & E1 & R1 & S1 & V1 & Hd1 & Hb1 & Hkids);
    [done|done|fold q; lia|done|done|done|done|done| |].
  { intros p Hp%HE Hu. fold q in Hu. rewrite Hq in Hu. destruct Hp as [x ->], Hu as [y Hy].
    apply (f_equal length) in Hy. rewrite !length_app in Hy. simpl in Hy. lia. }
  set (c1 := markBranchDirty (leafPath ctx) b c0) in *.
  assert ((length q < D)%nat) as Hlq by lia.
  pose proof (split_wf geo names Hgeo Hcf G G1 q es Hwf HG Hlq S1) as Hwf1.
  assert (G1 !! q = Some SBranch) as HGq by apply S1.
  destruct (wf_parent _ _ _ Hwf1 P n SBranch) as [HGP Hn]; [by rewrite <- Hq|].
  destruct (rebind_ok geo (λ p, E p ∨ p = q) E c1 w G1 P n R1) as (bP & E2 & R2).
  { by apply V1. }
  { done. }
  { by rewrite <- Hq, HGq. }
  { by rewrite <- Hq. }
  { done. }
  { intros Hno. apply V1 in HbP. rewrite Hno in HbP. by destruct HbP. }
  { intros m [Hu%HE|Em]; [by apply upto_child in Hu|]. rewrite Hq in Em. by apply app_inj_tail in Em as [_ ->]. }
  { intros p [?| ->]; [by left|right; by rewrite <- Hq]. }
  { right. by apply V1. }
  set (c2 := markBranchDirty P bP c1) in *.
  assert (evolves c1 c2) as V2 by apply mark_branch_evolves.
  destruct (for_each_invariant (λ childNibble,
      childLeaf ← asks (λ c, leafAt c (q ++ [childNibble]));
      g ← asks geometry;
      match childLeaf with
      | Some childLeaf =>
          if negb (TrieLeaf.requiresSplit childLeaf g) then mret ()
          else splitLeaf fuel (mkSplit q (q ++ [childNibble]) childNibble (S (leafDepth ctx))
                                 (s_nibbleBits ctx) (s_maxDepth ctx))
      | None => mret ()
      end : step (TrieCursor * W) unit)
    (λ s, s.2 = w ∧ ∃ G', rep E s.1 w G' ∧ trie_wf G' ∧ (∀ m, views G1 m → views G' m) ∧ evolves c2 s.1)
    (map_to_list (TrieBranch.entries b)).*1 (c2, w)) as ([c' w'] & Ec & Ew & G' & R' & Hwf' & Hv' & V').
  - split; [done|]. exists G1. by split_and!.
  - intros m [c3 w3] Hm [Ew (G3 & R3 & Hwf3 & Hv3 & V3)]. cbn in Ew, R3, V3. subst w3.
    rewrite !asks_bind. destruct (leafAt c3 (q ++ [m])) as [lm|] eqn:Elm.
    + destruct (negb _); [exists (c3, w); split; [done|]; split; [done|]; by exists G3|].
      destruct (IH E (mkSplit q (q ++ [m]) m (S (leafDepth ctx)) (s_nibbleBits ctx) (s_maxDepth ctx)) c3 G3 lm)
        as (c4 & G4 & E4 & R4 & Hwf4 & Hv4 & V4); cbn; try done.
      * rewrite length_app, Hd. simpl. lia.
      * lia.
      * by apply V3, V2, V1.
      * apply V3, V2, Hkids. done.
      * by apply V3, V2.
      * apply V3, V2. by exists b.
      * intros p [x Hx]%HE. exists (x ++ [n]). rewrite Hq, Hx. by rewrite app_assoc.
      * intros p [->|Hp]%above_snoc%upto_above; [left; by apply V3, V2|].
        destruct (Hab p Hp); [left; by apply V3, V2, V1|by right].
      * exists (c4, w). split; [exact E4|]. split; [done|]. exists G4. split; [done|]. split; [done|].
        split; [auto|by transitivity c3].
    + exists (c3, w). split; [done|]. split; [done|]. by exists G3.
  - cbn in Ew. subst w'. exists c', G'. split; [|split; [done|split; [done|split]]].
    + rewrite changes_bind, (step_bind_ok _ _ _ _ _ E1), changes_bind.
      rewrite (step_bind_ok _ _ _ _ _ E2). exact Ec.
    + intros m Hm. apply Hv'. by eapply (split_views geo names Hgeo Hcf G G1 q es).
    + transitivity c1; [done|]. by transitivity c2.
Qed.

(** *** Inserting *)

(** The context of an insert of [e], at the depth of [P]. *)
Record inserting (e d : string) (P : list N) (ctx : InsertContext) : Prop := {
  ins_key : i_routeKey ctx = key_of_element e;
  ins_element : i_element ctx = e;
  ins_dot : i_encodedDot ctx = d;
  ins_depth : i_depth ctx = length P;
  ins_bits : i_nibbleBits ctx = nb;
  ins_max : i_maxDepth ctx = D }.

(** The element map after the insert. *)
Definition inserted (e d : string) (G G' : trie) : Prop :=
  ∀ m, views G m → views G' (ElementMap.add e d m).

Lemma put_leaf_wf G P n es :
  trie_wf G → G !! P = Some SBranch → G !! (P ++ [n]) ≠ Some SBranch →
  (n < TrieGeometry.fanout geo)%N → leaf_ok nb names (P ++ [n]) es →
  trie_wf (<[P ++ [n] := SLeaf es]> G).
Proof.
  intros Hwf HP Hnb Hn Hl. split.
  - intros p m s Hs. destruct (decide (p ++ [m] = P ++ [n])) as [E|Hne].
    + apply app_inj_tail in E as [-> ->]. split; [|done]. rewrite lookup_insert_ne; [done|apply snoc_neq].
    + rewrite lookup_insert_ne in Hs by done. destruct (wf_parent _ _ _ Hwf p m s Hs) as [Hp ?].
      split; [|done]. rewrite lookup_insert_ne; [done|]. intros <-. congruence.
  - intros es'. rewrite lookup_insert_ne by apply snoc_not_nil. by apply Hwf.
  - intros p es' Hp. apply lookup_insert_Some in Hp as [[<- [= <-]]|[_ Hp]]; [done|by apply Hwf].
  - intros p Hp. apply lookup_insert_Some in Hp as [[_ [=]]|[_ Hp]]. by apply Hwf.
Qed.

Lemma add_elsewhere e d m e' : e' ≠ e → ElementMap.add e d m !! e' = m !! e'.
Proof. intros Hne. unfold ElementMap.add. destruct (decide _); [done|]. by rewrite lookup_insert_ne. Qed.

Lemma add_here e d m m' : m !! e = m' !! e → ElementMap.add e d m !! e = ElementMap.add e d m' !! e.
Proof.
  intros E. unfold ElementMap.add, ElementMap.at_. rewrite E. destruct (decide _); [done|].
  by rewrite !lookup_insert_eq.
Qed.

Lemma put_leaf_inserted G P n es e d :
  trie_wf G → G !! P = Some SBranch → G !! (P ++ [n]) ≠ Some SBranch →
  take (length (P ++ [n])) (route nb e) = P ++ [n] →
  cells es = ElementMap.add e d (cells_at G (P ++ [n])) →
  inserted e d G (<[P ++ [n] := SLeaf es]> G).
Proof.
  intros Hwf HP Hnb Ht Hc m Hm. assert (G !! (P ++ [n]) = None →
    ∃ p k, P ++ [n] = p ++ [k] ∧ G !! p = Some SBranch) as Hup by (intros _; by exists P, n).
  eapply (views_update geo names Hgeo Hcf G m _ _ es e); try done.
  - intros e' Hne. rewrite Hc. by apply add_elsewhere.
  - intros e' Hne. by apply add_elsewhere.
  - rewrite Hc. apply add_here. by apply (views_at geo names Hgeo Hcf G).
Qed.

(** A fresh leaf. *)
Lemma fresh_entry e d P ctx n :
  inserting e d P ctx → names e → take (length (P ++ [n])) (route nb e) = P ++ [n] →
  (length P < D)%nat →
  ∃ s, Suffix.suffixOfRouteKey (i_routeKey ctx) (S (length P)) (i_nibbleBits ctx) = Ok s ∧
    let es := [makeEntry s (i_element ctx) {[i_encodedDot ctx]}] in
    TrieLeaf.new es geo = Ok (TrieLeaf.mk geo es) ∧ leaf_ok nb names (P ++ [n]) es ∧
    cells es = ElementMap.add e d ∅.
Proof.
  intros [-> -> -> _ -> _] He Ht Hlt.
  destruct (suffix_ok nb names Hw Hcf e (S (length P))) as (s & Es & Hs); [done|lia|].
  exists s. split; [done|]. intros es.
  assert (leaf_ok nb names (P ++ [n]) es) as Hl.
  { apply fresh_leaf_ok; [done|rewrite length_app; simpl; lia|done|].
    by rewrite length_app, Nat.add_1_r. }
  split; [by apply new_leaf_ok, Hl|]. split; [done|].
  unfold cells, ElementMap.add, ElementMap.at_, cell_of. simpl.
  rewrite lookup_empty, decide_False by (simpl; set_solver). simpl.
  by rewrite insert_empty, (right_id_L ∅ (∪)).
Qed.

Lemma insertFreshLeafChild_ok e d P n ctx c w G :
  inserting e d P ctx → names e → rep nowhere c w G → trie_wf G → is_Some (branchAt c P) →
  take (length (P ++ [n])) (route nb e) = P ++ [n] → (n < TrieGeometry.fanout geo)%N →
  G !! (P ++ [n]) = None →
  ∃ c' G', insertFreshLeafChild P n ctx (c, w) = ((c', w), Ok ()) ∧ rep (upto P) c' w G' ∧
    trie_wf G' ∧ evolves c c' ∧ dirty c' P ∧ inserted e d G G'.
Proof.
  intros Hi He R Hwf HbP Ht Hn Hnone. pose proof HbP as [b Hb].
  destruct (rep_branch _ _ _ _ _ R _ _ Hb) as [HGP _].
  destruct (fresh_entry e d P ctx n Hi He Ht) as (s & Es & El & Hl & Hc); [by apply (wf_branch _ _ _ Hwf)|].
  destruct (put_leaf_ok P n (TrieLeaf.mk geo [makeEntry s (i_element ctx) {[i_encodedDot ctx]}]) c w G)
    as (c' & E & R' & V & Hd & _); try done.
  { eapply (rep_loaded geo); [done|]. by right. }
  { congruence. }
  eexists c', _. split; [|split; [exact R'|split; [|split; [done|split; [done|]]]]].
  - unfold insertFreshLeafChild, install_fresh_leaf. rewrite (ins_depth _ _ _ _ Hi), Es, lift_bind.
    rewrite asks_bind, (rep_geo _ _ _ _ _ R), El, lift_bind, changes_bind. exact E.
  - apply put_leaf_wf; [done|done|congruence|done|done].
  - apply put_leaf_inserted; [done|done|congruence|done|]. unfold cells_at. by rewrite Hnone.
Qed.

Lemma insertIntoLeafAtPath_ok e d P n ctx c w G es :
  inserting e d P ctx → names e → rep nowhere c w G → trie_wf G → is_Some (branchAt c P) →
  take (length (P ++ [n])) (route nb e) = P ++ [n] → (n < TrieGeometry.fanout geo)%N →
  leafAt c (P ++ [n]) = Some (TrieLeaf.mk geo es) →
  ∃ c' G', insertIntoLeafAtPath P (P ++ [n]) n ctx (c, w) = ((c', w), Ok ()) ∧ rep (upto P) c' w G' ∧
    trie_wf G' ∧ evolves c c' ∧ dirty c' P ∧ inserted e d G G'.
Proof.
  intros Hi He R Hwf HbP Ht Hn Hleaf. pose proof HbP as [b Hb].
  destruct (rep_branch _ _ _ _ _ R _ _ Hb) as [HGP _].
  destruct (rep_leaf _ _ _ _ _ R _ _ Hleaf) as [_ HG]. cbn in HG.
  destruct (upsertIntoLeaf_ok nb names Hw Hcf geo (P ++ [n]) es e d) as (es' & Eu & Hl & Hc);
    [by apply (wf_leaf _ _ _ Hwf)|done|done|].
  destruct (put_leaf_ok P n (TrieLeaf.mk geo es') c w G) as (c1 & E & R1 & V1 & HdP & Hdq & Hl1); try done.
  { eapply (rep_loaded geo); [done|]. by right. }
  { congruence. }
  cbn in R1. set (G1 := <[P ++ [n] := SLeaf es']> G) in *.
  assert (trie_wf G1) as Hwf1 by (apply put_leaf_wf; [done|done|congruence|done|done]).
  assert (inserted e d G G1) as Hins1.
  { apply put_leaf_inserted; [done|done|congruence|done|]. unfold cells_at. by rewrite HG. }
  unfold insertIntoLeafAtPath, requireLeafAt. unfold mbind at 1, step_bind at 1.
  rewrite asks_bind, Hleaf. unfold lift at 1. destruct Hi as [-> -> -> Hdep -> ->]. rewrite Hdep.
  rewrite length_app, Nat.add_1_r in Eu. rewrite Eu, lift_bind.
  rewrite changes_bind, (step_bind_ok _ _ _ _ _ E), asks_bind.
  destruct (TrieLeaf.requiresSplit _ _).
  - destruct (splitLeaf_ok (S (D - S (length P))) (upto P) (mkSplit P (P ++ [n]) n (S (length P)) nb D)
      c1 w G1 (TrieLeaf.mk geo es')) as (c' & G' & E' & R' & Hwf' & Hv & V'); cbn; try done.
    + rewrite length_app. simpl. lia.
    + lia.
    + eapply (rep_loaded geo); [done|]. left. by rewrite Hl1.
    + by apply V1.
    + intros p Hp%above_snoc. by right.
    + exists c', G'. split; [exact E'|]. split; [done|]. split; [done|].
      split; [by transitivity c1|]. split; [by apply V'|]. intros m Hm. by apply Hv, Hins1.
  - exists c1, G1. by split_and!.
Qed.

Lemma insertBelowBranch_ok fuel e d P ctx c w G :
  inserting e d P ctx → names e → rep nowhere c w G → trie_wf G → is_Some (branchAt c P) →
  take (length P) (route nb e) = P → (D - length P < fuel)%nat →
  ∃ c' G', insertBelowBranch fuel P ctx (c, w) = ((c', w), Ok ()) ∧ rep (upto P) c' w G' ∧
    trie_wf G' ∧ evolves c c' ∧ dirty c' P ∧ inserted e d G G'.
Proof.
  revert P ctx c. induction fuel as [|fuel IH]; intros P ctx c Hi He R Hwf HbP Ht Hfuel; [lia|].
  destruct HbP as [b Hb]. destruct (rep_branch _ _ _ _ _ R _ _ Hb) as [HGP _].
  pose proof (wf_branch _ _ _ Hwf P HGP) as Hlt.
  destruct (route_step geo names Hgeo Hcf e P He Ht Hlt) as (n & En & Hn & Ht' & Hlt').
  cbn [insertBelowBranch]. unfold requireBranchAt. unfold mbind at 1, step_bind at 1.
  rewrite asks_bind, Hb. unfold lift at 1. pose proof Hi as [-> Ee Ed -> -> HD]. rewrite En, lift_bind.
  unfold TrieBranch.get. destruct (TrieBranch.children b !! n) as [o|] eqn:Eo.
  - destruct (ensureChildLoaded_ok geo c w G P b n o R Hb Eo) as (c1 & kind & E1 & R1 & G1 & Hk).
    rewrite (step_bind_ok _ _ _ _ _ E1). pose proof (grows_evolves _ _ G1) as V1.
    assert (is_Some (branchAt c1 P)) as Hb1 by (apply V1; by exists b).
    destruct kind; cbn [dispatchChildInsert].
    + destruct Hk as (es & Hleaf & _).
      destruct (insertIntoLeafAtPath_ok e d P n ctx c1 w G es) as (c' & G' & E' & R' & Hwf' & V' & ?); try done.
      exists c', G'. split; [exact E'|]. split; [done|]. split; [done|]. split; [by transitivity c1|done].
    + destruct Hk as [Hbq _]. destruct (IH (P ++ [n]) (advanceCtx ctx) c1) as (c2 & G2 & E2 & R2 & Hwf2 & V2 & Hd2 & Hins);
        try done.
      { split; cbn; try apply Hi. rewrite length_app, (ins_depth _ _ _ _ Hi). simpl. lia. }
      { rewrite length_app. simpl. lia. }
      rewrite (step_bind_ok _ _ _ _ _ E2).
      destruct (ev_branch _ _ V2 P Hb1) as [bP HbP]. destruct (ev_branch _ _ V2 _ Hbq) as [bq Hbq2].
      destruct (rebind_ok geo (upto (P ++ [n])) (upto P) c2 w G2 P n R2) as (b3 & E3 & R3).
      * apply V2. eapply (rep_loaded geo); [exact R1|]. by right.
      * by apply (rep_branch _ _ _ _ _ R2 P bP).
      * destruct (rep_branch _ _ _ _ _ R2 _ _ Hbq2) as [-> _]. done.
      * done.
      * done.
      * congruence.
      * intros m [E|Hu]%upto_snoc; [by apply app_inj_tail in E as [_ ->]|by apply upto_child in Hu].
      * intros p [->|Hp]%upto_snoc; [by right|by left].
      * left. apply upto_above. by left.
      * exists (markBranchDirty P b3 c2), G2. split; [exact E3|]. split; [done|]. split; [done|].
        split; [|split; [apply dirty_mark_branch; by left|done]].
        transitivity c1; [done|]. transitivity c2; [done|apply mark_branch_evolves].
  - assert (G !! (P ++ [n]) = None) as Hnone.
    { apply eq_None_not_Some. rewrite <- (rep_children _ _ _ _ _ R P b n Hb); [|by intros []].
      by rewrite Eo; intros []. }
    apply (insertFreshLeafChild_ok e d P n ctx c w G); done || by exists b.
Qed.

Lemma wf_root_only : (0 < D)%nat → trie_wf {[[] := SBranch]}.
Proof.
  intros HD. split.
  - intros p n s Hs. apply lookup_singleton_Some in Hs as [E _]. by apply eq_sym, snoc_not_nil in E.
  - intros es. by rewrite lookup_singleton_eq.
  - intros p es Hp. by apply lookup_singleton_Some in Hp as [_ [=]].
  - intros p Hp. by apply lookup_singleton_Some in Hp as [<- _].
Qed.

Lemma rep_unloaded_empty c w G :
  rep nowhere c w G → trie_wf G → rootLoaded c = true → G !! [] = None → G = ∅.
Proof.
  intros R Hwf HL Hn. apply map_empty. intros p. destruct (G !! p) eqn:E; [|done].
  destruct p as [|n p]; [congruence|]. by rewrite (wf_prefix geo names G [] (n :: p) s Hwf E) in Hn.
Qed.

Lemma add_ok e (dot : Dot.Dot) c w G :
  names e → valid_dot dot → rep nowhere c w G → trie_wf G →
  ∃ c' G', add e dot (c, w) = ((c', w), Ok ()) ∧ rep nowhere c' w G' ∧ trie_wf G' ∧
    inserted e (Dot.encode dot) G G'.
Proof.
  intros He Hdot R Hwf. unfold add. rewrite (validateElement_ok geo names Hcf e He), lift_bind.
  assert (validateDot dot = Ok ()) as ->.
  { unfold validateDot, isWellFormedDot. destruct Hdot as [-> Hc].
    by rewrite (proj2 (Z.ltb_lt _ _)) by lia. }
  rewrite lift_bind, asks_bind. unfold makeInsertContext.
  rewrite (fromElement_ok nb names e Hcf He), (rep_geo _ _ _ _ _ R), nibbleBitsOf_ok by done.
  cbn [mbind result_bind]. unfold mbind at 1 2, step_bind at 1 2. unfold lift at 1.
  set (ctx := mkInsert _ _ _ _ _ _).
  assert (inserting e (Dot.encode dot) [] ctx) as Hi by by split.
  destruct (loadRootIfNeeded_ok geo c w G R) as (c1 & E1 & R1 & G1 & L1 & Hroot). rewrite E1.
  unfold insertAtRoot. rewrite asks_bind, Hroot. case_bool_decide as HG; cbn [negb].
  - destruct (insertBelowBranch_ok (S (i_maxDepth ctx)) e (Dot.encode dot) [] ctx c1 w G)
      as (c' & G' & E' & R' & Hwf' & V & Hd & Hins); try done.
    { by apply (rep_root_cached _ _ _ _ _ R1 L1); [intros []|]. }
    { rewrite (ins_max _ _ _ _ Hi). lia. }
    exists c', G'. split; [exact E'|]. split; [|by split].
    apply (rep_close geo (upto [])); [done|apply upto_nil|done|].
    apply V. by apply (rep_root_cached _ _ _ _ _ R1 L1); [intros []|].
  - assert (G = ∅) as ->.
    { apply (rep_unloaded_empty c1 w); [done|done|done|]. by apply eq_None_not_Some. }
    assert ((0 < D)%nat) as HD.
    { destruct (width_cases nb Hw) as [E|[E|[E|[E|E]]]]; rewrite E; vm_compute; lia. }
    destruct (route_step geo names Hgeo Hcf e [] He eq_refl HD) as (n & En & Hn & Ht & Hlt).
    destruct (fresh_entry e (Dot.encode dot) [] ctx n Hi He Ht HD) as (s & Es & El & Hl & Hc).
    destruct (put_first_leaf_ok n (TrieLeaf.mk geo [makeEntry s e {[Dot.encode dot]}]) c1 w R1 L1 Hlt eq_refl)
      as (c' & E' & R').
    assert (trie_wf {[[] := SBranch]}) as Hwf0 by (by apply wf_root_only).
    exists c', (<[[] ++ [n] := SLeaf [makeEntry s e {[Dot.encode dot]}]]> {[[] := SBranch]}).
    split; [|split; [done|split]].
    + unfold createFirstRoot. cbn in En. cbn [i_routeKey i_nibbleBits ctx]. rewrite En, lift_bind.
      unfold install_fresh_leaf. cbn in Es. cbn [i_routeKey i_nibbleBits ctx]. rewrite Es, lift_bind.
      rewrite asks_bind, (rep_geo _ _ _ _ _ R1), El, lift_bind, changes_bind. exact E'.
    + apply put_leaf_wf; [done|apply lookup_singleton_eq|by rewrite lookup_singleton_ne|done|done].
    + intros m Hm. apply (put_leaf_inserted {[[] := SBranch]} [] n); [done|apply lookup_singleton_eq| |done| |].
      * by rewrite lookup_singleton_ne.
      * etransitivity; [exact Hc|]. unfold cells_at. by rewrite lookup_singleton_ne.
      * intros e' cl. rewrite (Hm e' cl). split; intros (p & es & Hp & _).
        { by rewrite lookup_empty in Hp. }
        { by apply lookup_singleton_Some in Hp as [_ [=]]. }
Qed.
End insert.
