(* ===== verification/TrieWalks.v ===== *)
(** Removing an element, and the walks over all pages: scans and the removal of
    dots wherever they are. *)
From S2P Require Export TrieInsert.

Section walks.
Import Helpers TrieCursor.
Context `{Hash} `{Codec} {W : Type} `{TrieStoreLaws W} (geo : TrieGeometry) (names : string → Prop).
Context (Hgeo : TrieGeometry.valid geo).
#[local] Abbreviation nb := (TrieGeometry.nibbleBits geo).
#[local] Abbreviation D := (max_depth nb).
Context (Hcf : collision_free nb names).
#[local] Abbreviation rep := (rep geo).
#[local] Abbreviation trie_wf := (trie_wf geo names).

Let Hw : width_ok nb := TrieGeometry.geo_width _ Hgeo.

(** The pages above a cached page are cached. *)
Lemma cached_above c w G p q : rep nowhere c w G → cached c q → above p q → is_Some (branchAt c p).
Proof.
  intros R Hc (n & x & ->). revert Hc. induction x as [|m x IH] using rev_ind; intros Hc.
  - by destruct (rep_up _ _ _ _ _ R p n Hc) as [[]|].
  - apply IH. right. replace (p ++ n :: x ++ [m]) with ((p ++ n :: x) ++ [m]) in Hc by by rewrite <- app_assoc.
    by destruct (rep_up _ _ _ _ _ R _ m Hc) as [[]|].
Qed.

Lemma rebind_up_ok q k c w G :
  (k ≤ length q)%nat → rep (upto (take k q)) c w G → rootLoaded c = true → dirty c (take k q) →
  is_Some (G !! take k q) → (∀ p, above p q → is_Some (branchAt c p)) → q ≠ [] →
  (∀ i n, q !! i = Some n → (n < TrieGeometry.fanout geo)%N) →
  ∃ c', for_each (λ parentDepth,
    match q !! parentDepth with
    | Some nibble => rebindParentBranch (take parentDepth q) nibble
    | None => mret ()
    end) (reverse (seq 0 k)) (c, w) = ((c', w), Ok ()) ∧ rep nowhere c' w G ∧ evolves c c'.
Proof.
  intros Hk R HL Hd HG Hab Hq Hn. revert c Hk R HL Hd HG Hab. induction k as [|k IH]; intros c Hk R HL Hd HG Hab.
  - exists c. split; [done|]. split; [|done]. apply (rep_close geo (upto [])); [done|apply upto_nil|done|].
    apply Hab. destruct q as [|n q]; [done|]. by exists n, q.
  - rewrite seq_S, reverse_snoc. cbn [for_each Nat.add].
    destruct (lookup_lt_is_Some_2 q k) as [n Hqn]; [lia|].
    pose proof (take_S_r _ _ _ Hqn) as Et. rewrite Et in R, Hd, HG. rewrite Hqn.
    assert (above (take k q) q) as Habk.
    { exists n, (drop (S k) q). by rewrite take_drop_middle. }
    destruct (Hab _ Habk) as [b Hb].
    destruct (rebind_ok geo (upto (take k q ++ [n])) (upto (take k q)) c w G (take k q) n R HL)
      as (b' & E & R').
    + by apply (rep_branch _ _ _ _ _ R _ b).
    + done.
    + done.
    + by apply (Hn k).
    + congruence.
    + intros m [E|Hu]%upto_snoc; [by apply app_inj_tail in E as [_ ->]|by apply upto_child in Hu].
    + intros p [->|Hp]%upto_snoc; [by right|by left].
    + left. apply upto_above. by left.
    + destruct (IH (markBranchDirty (take k q) b' c)) as (c' & E' & R'' & V).
      * lia.
      * done.
      * done.
      * apply dirty_mark_branch. by left.
      * destruct (rep_branch _ _ _ _ _ R _ _ Hb) as [-> _]. done.
      * intros p Hp. apply mark_branch_evolves. by apply Hab.
      * exists c'. rewrite (step_bind_ok _ _ _ _ _ E). split; [done|]. split; [done|].
        transitivity (markBranchDirty (take k q) b' c); [apply mark_branch_evolves|done].
Qed.

(** A leaf in memory is replaced. *)
Lemma markLoadedLeafMutation_ok q c w G es es' :
  rep nowhere c w G → trie_wf G → leafAt c q = Some (TrieLeaf.mk geo es) → 
  ∃ c', markLoadedLeafMutation q (TrieLeaf.mk geo es') (c, w) = ((c', w), Ok ()) ∧
    rep nowhere c' w (<[q := SLeaf es']> G) ∧ evolves c c'.
Proof.
  intros R Hwf Hleaf. destruct (rep_leaf _ _ _ _ _ R _ _ Hleaf) as [_ HG]. cbn in HG.
  assert (q ≠ []) as Hq by (intros ->; by apply (wf_root _ _ _ Hwf es)).
  assert (cached c q) as Hc by (left; by rewrite Hleaf).
  set (c1 := markLeafDirty q (TrieLeaf.mk geo es') c).
  assert (rep (upto q) c1 w (<[q := SLeaf es']> G)) as R1.
  { apply (rep_mark_leaf geo nowhere _ _ _ _ _ (TrieLeaf.mk geo es')); try done.
    - by eapply (rep_loaded geo).
    - congruence.
    - apply upto_above. by left.
    - intros p Hp. right. apply upto_above. by right. }
  destruct (rebind_up_ok q (length q) c1 w (<[q := SLeaf es']> G)) as (c' & E & R' & V).
  - done.
  - by rewrite take_ge.
  - by eapply (rep_loaded geo nowhere c).
  - rewrite take_ge by done. apply dirty_mark_leaf. by left.
  - rewrite take_ge by done. by rewrite lookup_insert_eq.
  - intros p Hp. by apply (cached_above c w G p q).
  - done.
  - intros i n Hi. destruct (G !! take (S i) q) as [s|] eqn:Es.
    + rewrite (take_S_r _ _ _ Hi) in Es. by eapply (wf_parent _ _ _ Hwf).
    + destruct (decide (S i = length q)) as [Ei|Hne]; [rewrite take_ge in Es by lia; congruence|].
      apply lookup_lt_Some in Hi as Hlt.
      rewrite (wf_prefix geo names G (take (S i) q) (drop (S i) q) (SLeaf es) Hwf) in Es; [done|by rewrite take_drop|].
      intros Ed. apply (f_equal length) in Ed. rewrite length_drop in Ed. simpl in Ed. lia.
  - exists c'. unfold markLoadedLeafMutation. rewrite changes_bind. split; [exact E|]. split; [done|].
    transitivity c1; [apply mark_leaf_evolves|done].
Qed.

(** ** Removing an element *)

Lemma cells_map es (f : TrieLeafEntry → TrieLeafEntry) e :
  (∀ ent, TrieLeaf.element (f ent) = TrieLeaf.element ent) → NoDup (TrieLeaf.element <$> es) →
  ∀ c, cells (f <$> es) !! e = Some c ↔ ∃ ent, ent ∈ es ∧ TrieLeaf.element ent = e ∧ cell_of (f ent) = c.
Proof.
  intros Hf Hnd c. rewrite cells_lookup.
  - split.
    + intros (x & (ent & -> & Hent)%list_elem_of_fmap & <- & <-). exists ent. by rewrite Hf.
    + intros (ent & Hent & <- & <-). exists (f ent). rewrite Hf. split; [|done].
      apply list_elem_of_fmap. by exists ent.
  - rewrite <- list_fmap_compose. by rewrite (list_fmap_ext _ TrieLeaf.element) by (intros; apply Hf).
Qed.

(** The entries after [rewriteElementWithTombstones], changed or not. *)
Definition kill_entry (e : string) (ds : gset string) (ent : TrieLeafEntry) : TrieLeafEntry :=
  if decide (TrieLeaf.element ent = e) then (tombstoneEntry ent ds).1 else ent.

Lemma rewriteElement_spec g es e ds :
  match rewriteElementWithTombstones (TrieLeaf.mk g es) e ds with
  | Some next => next = kill_entry e ds <$> es
  | None => ∀ ent, ent ∈ es → TrieLeaf.element ent = e → cell_of (kill_entry e ds ent) = cell_of ent
  end.
Proof.
  unfold rewriteElementWithTombstones. cbn. destruct (existsb snd _) eqn:Ex.
  - rewrite <- list_fmap_compose. apply list_fmap_ext. intros i ent _. cbn. unfold kill_entry.
    case_bool_decide; cbn; by repeat case_decide.
  - intros ent Hent He. unfold kill_entry. rewrite decide_True by done. apply (proj2 (tombstone_cell ent ds)).
    apply not_true_iff_false in Ex. destruct (tombstoneEntry ent ds).2 eqn:Et; [|done]. destruct Ex.
    apply existsb_exists. exists (tombstoneEntry ent ds). split; [|done]. apply list_elem_of_In, list_elem_of_fmap.
    exists ent. split; [|done]. by rewrite bool_decide_true.
Qed.

Lemma kill_entry_leaf p es e ds :
  leaf_ok nb names p es → leaf_ok nb names p (kill_entry e ds <$> es) ∧
  cells (kill_entry e ds <$> es) = ElementMap.remove e ds (cells es).
Proof.
  intros Hl. assert (∀ ent, TrieLeaf.element (kill_entry e ds ent) = TrieLeaf.element ent ∧
    TrieLeaf.routeKeySuffix (kill_entry e ds ent) = TrieLeaf.routeKeySuffix ent) as Hk.
  { intros ent. unfold kill_entry. by destruct (decide _). }
  pose proof (leaf_NoDup nb names Hw Hcf p es Hl) as Hnd.
  split; [by apply leaf_map_ok|]. apply map_eq. intros e'. apply option_eq. intros c.
  rewrite cells_map by (done || intros; apply Hk). unfold ElementMap.remove.
  destruct (decide (e' = e)) as [->|Hne].
  - rewrite lookup_alter_eq, fmap_Some. setoid_rewrite cells_lookup; [|done]. split.
    + intros (ent & Hent & He & <-). exists (cell_of ent). split; [by exists ent|].
      unfold kill_entry. rewrite decide_True by done. by destruct (tombstone_cell ent ds) as [-> _].
    + intros (cl & (ent & Hent & He & <-) & ->). exists ent. split; [done|]. split; [done|].
      unfold kill_entry. rewrite decide_True by done. apply tombstone_cell.
  - rewrite lookup_alter_ne by done. rewrite cells_lookup by done.
    split; intros (ent & Hent & He & Hc); exists ent; (split; [done|]; split; [done|]);
      unfold kill_entry in *; rewrite decide_False in * by congruence; done.
Qed.

Definition removed (e : string) (ds : gset string) (G G' : trie) : Prop :=
  ∀ m, views G m → views G' (ElementMap.remove e ds m).

Lemma remove_none e ds m : m !! e = None → ElementMap.remove e ds m = m.
Proof.
  intros Hn. apply map_eq. intros e'. unfold ElementMap.remove. destruct (decide (e = e')) as [->|Hne].
  - by rewrite lookup_alter_eq, Hn.
  - by rewrite lookup_alter_ne.
Qed.

Lemma replace_leaf_wf G q es es' :
  trie_wf G → G !! q = Some (SLeaf es) → leaf_ok nb names q es' → trie_wf (<[q := SLeaf es']> G).
Proof.
  intros Hwf Hq Hl. destruct q as [|n q _] using rev_ind; [by destruct (wf_root _ _ _ Hwf es)|].
  destruct (wf_parent _ _ _ Hwf _ _ _ Hq) as [HP Hn]. apply put_leaf_wf; try done. congruence.
Qed.

Lemma removeElement_ok e ds c w G :
  names e → rep nowhere c w G → trie_wf G →
  ∃ c' G', removeElement e ds (c, w) = ((c', w), Ok ()) ∧ rep nowhere c' w G' ∧ trie_wf G' ∧
    removed e ds G G'.
Proof.
  intros He R Hwf. unfold removeElement. rewrite (validateElement_ok geo names Hcf e He), lift_bind.
  case_bool_decide as Hds.
  { exists c, G. split; [done|]. split; [done|]. split; [done|]. intros m Hm. subst ds.
    replace (ElementMap.remove e ∅ m) with m; [done|]. apply map_eq. intros e'. unfold ElementMap.remove.
    destruct (decide (e = e')) as [->|Hne]; [rewrite lookup_alter_eq|by rewrite lookup_alter_ne].
    destruct (m !! e') as [[l d]|]; [|done]. cbn. unfold ElementMap.kill. cbn. do 2 f_equal; set_solver. }
  destruct (locateEntry_ok geo names Hgeo Hcf e c w G R Hwf He) as (c1 & r & E1 & R1 & G1 & L1 & Hr).
  rewrite (step_bind_ok _ _ _ _ _ E1). destruct r as [loc|]; cbn in Hr.
  2: { exists c1, G. split; [done|]. split; [done|]. split; [done|]. intros m Hm.
    rewrite remove_none; [done|]. apply eq_None_not_Some. intros [cl (p & es & Hp & Hc)%Hm].
    by rewrite (Hr p es Hp) in Hc. }
  destruct Hr as (es & El & Hleaf & HG & Ht & Hent & Hel). rewrite El.
  pose proof (wf_leaf _ _ _ Hwf _ _ HG) as Hlf.
  pose proof (rewriteElement_spec geo es e ds) as Hrw.
  destruct (kill_entry_leaf _ es e ds Hlf) as [Hlf' Hcells].
  destruct (rewriteElementWithTombstones _ e ds) as [next|].
  - subst next. rewrite asks_bind, (rep_geo _ _ _ _ _ R1), new_leaf_ok, lift_bind by apply Hlf'.
    destruct (markLoadedLeafMutation_ok (located_path loc) c1 w G es (kill_entry e ds <$> es))
      as (c' & E' & R' & _); [done..|].
    eexists c', _. split; [exact E'|]. split; [done|]. split; [by eapply replace_leaf_wf|].
    intros m Hm. assert (G !! located_path loc ≠ Some SBranch) as Hnb by congruence.
    assert (G !! located_path loc = None → ∃ p n, located_path loc = p ++ [n] ∧ G !! p = Some SBranch)
      as Hup by congruence.
    assert (cells_at G (located_path loc) = cells es) as Hat by (unfold cells_at; by rewrite HG).
    eapply (views_update geo names Hgeo Hcf G m _ _ _ e); try done.
    + intros e' Hne. rewrite Hcells, Hat. unfold ElementMap.remove. by rewrite lookup_alter_ne.
    + intros e' Hne. unfold ElementMap.remove. by rewrite lookup_alter_ne.
    + rewrite Hcells. unfold ElementMap.remove. rewrite !lookup_alter_eq. f_equal.
      rewrite <- Hat. by apply (views_at geo names Hgeo Hcf G).
  - exists c1, G. split; [done|]. split; [done|]. split; [done|]. intros m Hm.
    replace (ElementMap.remove e ds m) with m; [done|]. apply map_eq. intros e'.
    unfold ElementMap.remove. destruct (decide (e = e')) as [<-|Hne]; [rewrite lookup_alter_eq|by rewrite lookup_alter_ne].
    assert (m !! e = Some (cell_of (entry loc))) as ->.
    { apply Hm. exists (located_path loc), es. split; [done|].
      apply cells_lookup; [by apply (leaf_NoDup nb names Hw Hcf (located_path loc))|by eexists]. }
    cbn. f_equal. specialize (Hrw _ Hent Hel). unfold kill_entry in Hrw. rewrite decide_True in Hrw by done.
    rewrite <- Hrw at 1. apply tombstone_cell.
Qed.

(** ** Scans *)

(** The entries of the leaves at and below [p], each element once. *)
Definition entries_below (G : trie) (p : list N) (ents : list TrieLeafEntry) : Prop :=
  (∀ ent, ent ∈ ents ↔ ∃ x es, G !! (p ++ x) = Some (SLeaf es) ∧ ent ∈ es) ∧
  NoDup (TrieLeaf.element <$> ents).

Definition entries_in (G : trie) (p : list N) (ns : list N) (ents : list TrieLeafEntry) : Prop :=
  (∀ ent, ent ∈ ents ↔ ∃ n x es, n ∈ ns ∧ G !! ((p ++ [n]) ++ x) = Some (SLeaf es) ∧ ent ∈ es) ∧
  NoDup (TrieLeaf.element <$> ents).

Lemma entry_route G p x es ent :
  trie_wf G → G !! (p ++ x) = Some (SLeaf es) → ent ∈ es →
  take (length p) (route nb (TrieLeaf.element ent)) = p.
Proof.
  intros Hwf HG Hent. pose proof (lf_route _ _ _ _ (wf_leaf _ _ _ Hwf _ _ HG) ent Hent) as Ht.
  rewrite length_app in Ht. apply (f_equal (take (length p))) in Ht.
  rewrite take_take, Nat.min_l, take_app_length in Ht by lia. done.
Qed.

(** Entries below different children are of different elements. *)
Lemma entries_in_cons G p n ns ents1 ents2 :
  trie_wf G → n ∉ ns → entries_below G (p ++ [n]) ents1 → entries_in G p ns ents2 →
  entries_in G p (n :: ns) (ents1 ++ ents2).
Proof.
  intros Hwf Hn [Hin1 Hnd1] [Hin2 Hnd2]. split.
  - intros ent. rewrite elem_of_app, Hin1, Hin2. setoid_rewrite elem_of_cons. split.
    + intros [(x & es & Hx & He)|(n' & x & es & Hn' & Hx & He)]; [exists n, x, es|exists n', x, es]; auto.
    + intros (n' & x & es & [->|Hn'] & Hx & He); [left; by exists x, es|right; by exists n', x, es].
  - rewrite fmap_app. apply NoDup_app. split; [done|]. split; [|done].
    intros e (a & -> & (x & es & Hx & Ha)%Hin1)%list_elem_of_fmap
      (a' & E & (n' & x' & es' & Hn' & Hx' & Ha')%Hin2)%list_elem_of_fmap.
    apply Hn. pose proof (entry_route G _ _ _ _ Hwf Hx Ha) as T1.
    pose proof (entry_route G _ _ _ _ Hwf Hx' Ha') as T2. rewrite <- E in T2.
    rewrite !length_app in T1, T2. cbn in T1, T2. rewrite T1 in T2.
    by apply app_inj_tail in T2 as [_ ->].
Qed.

Lemma sort_nibbles_perm ns : sort_nibbles ns ≡ₚ ns.
Proof. apply js_sort_perm. Qed.

Section scan.
Context {A : Type} (emit : TrieLeaf → result (list A)) (yield : TrieLeafEntry → option A).
Context (Hemit : ∀ p es, leaf_ok nb names p es → emit (TrieLeaf.mk geo es) = Ok (omap yield es)).

Lemma scan_children_ok fuel p b ns out c w G :
  (∀ n c, n ∈ ns → rep nowhere c w G → cached c (p ++ [n]) →
    ∃ c' ents, scanBelow emit fuel (p ++ [n]) (c, w) = ((c', w), Ok (omap yield ents)) ∧
      rep nowhere c' w G ∧ grows c c' ∧ entries_below G (p ++ [n]) ents) →
  rep nowhere c w G → trie_wf G → branchAt c p = Some b → NoDup ns →
  (∀ n, n ∈ ns → is_Some (TrieBranch.children b !! n)) →
  ∃ c' ents, for_fold (λ out nibble,
      match TrieBranch.get b nibble with
      | None => mret out
      | Some childOid =>
          _ ← ensureChildLoaded p nibble childOid;
          below ← scanBelow emit fuel (p ++ [nibble]);
          mret (out ++ below)
      end) ns out (c, w) = ((c', w), Ok (out ++ omap yield ents)) ∧
    rep nowhere c' w G ∧ grows c c' ∧ entries_in G p ns ents.
Proof.
  intros Hrec. revert out c Hrec. induction ns as [|n ns IH]; intros out c Hrec R Hwf Hb Hnd Hns.
  - exists c, []. rewrite app_nil_r. split; [done|]. split; [done|]. split; [done|].
    split; [|constructor]. intros ent. split; [by intros ?%elem_of_nil|].
    by intros (n & x & es & ?%elem_of_nil & _).
  - apply NoDup_cons in Hnd as [Hn Hnd]. destruct (Hns n) as [o Ho]; [by left|].
    cbn [for_fold]. change (TrieBranch.get b n = Some o) in Ho. rewrite Ho.
    destruct (ensureChildLoaded_ok geo c w G p b n o R Hb Ho) as (c1 & kind & E1 & R1 & G1 & Hk).
    destruct (Hrec n c1) as (c2 & ents1 & E2 & R2 & G2 & Hin1); [by left|done| |].
    { destruct kind; [destruct Hk as (es & Hl & _); left; by rewrite Hl|by right; destruct Hk]. }
    destruct (IH (out ++ omap yield ents1) c2) as (c' & ents2 & E3 & R' & G' & Hin2); try done.
    { intros m c3 Hm. apply Hrec. by right. }
    { by apply G2, G1. }
    { intros m Hm. apply Hns. by right. }
    exists c', (ents1 ++ ents2). split; [|split; [done|split]].
    + unfold mbind at 1, step_bind at 1. rewrite (step_bind_ok _ _ _ _ _ E1), (step_bind_ok _ _ _ _ _ E2).
      unfold mret at 1, step_ret at 1. rewrite omap_app, app_assoc. exact E3.
    + by transitivity c1; [|transitivity c2].
    + by apply entries_in_cons.
Qed.

Lemma scanBelow_ok fuel p c w G :
  rep nowhere c w G → trie_wf G → cached c p → (D - length p < fuel)%nat →
  ∃ c' ents, scanBelow emit fuel p (c, w) = ((c', w), Ok (omap yield ents)) ∧
    rep nowhere c' w G ∧ grows c c' ∧ entries_below G p ents.
Proof.
  revert p c. induction fuel as [|fuel IH]; intros p c R Hwf Hc Hf; [lia|].
  cbn [scanBelow]. rewrite asks_bind. destruct (leafAt c p) as [l|] eqn:El.
  - destruct (rep_leaf _ _ _ _ _ R _ _ El) as [Eg HG]. pose proof (wf_leaf _ _ _ Hwf _ _ HG) as Hl.
    exists c, (TrieLeaf.sortedEntries l). unfold lift. rewrite Eg, (Hemit p) by done. cbn.
    split; [done|]. split; [done|]. split; [done|]. split; [|by apply (leaf_NoDup nb names Hw Hcf p)].
    intros ent. split; [intros ?; exists [], (TrieLeaf.sortedEntries l); by rewrite app_nil_r|].
    intros (x & es & Hx & He). destruct (decide (x = [])) as [->|Hne].
    + rewrite app_nil_r in Hx. by simplify_eq.
    + rewrite (wf_below geo names G p x) in Hx; [done|done|congruence|done].
  - destruct Hc as [Hc|[b Hb]]; [rewrite El in Hc; by destruct Hc|].
    rewrite asks_bind, Hb. destruct (rep_branch _ _ _ _ _ R _ _ Hb) as [HG _].
    pose proof (wf_branch _ _ _ Hwf p HG) as Hlt.
    set (ns := sort_nibbles (map_to_list (TrieBranch.entries b)).*1).
    assert (∀ n, n ∈ ns ↔ is_Some (TrieBranch.children b !! n)) as Hns.
    { intros n. unfold ns. rewrite sort_nibbles_perm, list_elem_of_fmap. split.
      - intros ([m o] & -> & Ho%elem_of_map_to_list). by exists o.
      - intros [o Ho]. exists (n, o). split; [done|]. by apply elem_of_map_to_list. }
    destruct (scan_children_ok fuel p b ns [] c w G) as (c' & ents & E & R' & G' & Hin & Hnd); try done.
    { intros n c1 _ R1 Hc1. apply IH; [done|done|done|]. rewrite length_app. simpl. lia. }
    { unfold ns. rewrite sort_nibbles_perm. apply NoDup_fst_map_to_list. }
    { intros n. by apply Hns. }
    exists c', ents. split; [exact E|]. split; [done|]. split; [done|]. split; [|done].
    intros ent. rewrite Hin. split.
    + intros (n & x & es & _ & Hx & He). exists (n :: x), es. by rewrite <- app_assoc in Hx.
    + intros ([|n x] & es & Hx & He); [rewrite app_nil_r in Hx; congruence|].
      exists n, x, es. split; [|by rewrite <- app_assoc].
      apply Hns. rewrite (rep_children _ _ _ _ _ R p b n Hb) by by intros [].
      destruct (G !! (p ++ [n])) eqn:En; [done|]. exfalso.
      replace (p ++ n :: x) with ((p ++ [n]) ++ x) in Hx by by rewrite <- app_assoc.
      destruct (decide (x = [])) as [->|Hne]; [rewrite app_nil_r in Hx; congruence|].
      rewrite (wf_prefix geo names G _ x _ Hwf Hx Hne) in En. done.
Qed.

Lemma scan_from_root_ok c w G :
  rep nowhere c w G → trie_wf G →
  ∃ c' ents, scan_from_root emit (c, w) = ((c', w), Ok (omap yield ents)) ∧
    rep nowhere c' w G ∧ grows c c' ∧ entries_below G [] ents.
Proof.
  intros R Hwf. destruct (loadRootIfNeeded_ok geo c w G R) as (c1 & E1 & R1 & G1 & L1 & Hroot).
  unfold scan_from_root. rewrite (step_bind_ok _ _ _ _ _ E1), asks_bind, Hroot.
  case_bool_decide as HG; cbn [negb].
  - rewrite asks_bind. unfold levels. rewrite (rep_geo _ _ _ _ _ R1).
    destruct (scanBelow_ok (S (256 / nb)) [] c1 w G R1 Hwf) as (c' & ents & E & R' & G' & Hin).
    + right. by apply (rep_root_cached _ _ _ _ _ R1 L1); [intros []|].
    + cbn. unfold max_depth. lia.
    + exists c', ents. split; [exact E|]. split; [done|]. split; [by transitivity c1|done].
  - assert (G = ∅) as ->.
    { apply (rep_unloaded_empty geo names c1 w); [done|done|done|]. by apply eq_None_not_Some. }
    exists c1, []. split; [done|]. split; [done|]. split; [done|]. split; [|constructor].
    intros ent. split; [by intros ?%elem_of_nil|]. intros (x & es & Hx & _). by rewrite lookup_empty in Hx.
Qed.
End scan.

(** The entries of a whole trie are the cells of its element map. *)
Lemma entries_view G m ents :
  trie_wf G → views G m → entries_below G [] ents →
  ((λ ent, (TrieLeaf.element ent, cell_of ent)) <$> ents) ≡ₚ map_to_list m.
Proof.
  intros Hwf Hm [Hin Hnd]. apply NoDup_Permutation.
  - apply NoDup_fmap_1 with fst. by rewrite <- list_fmap_compose.
  - apply NoDup_map_to_list.
  - intros [e cl]. rewrite elem_of_map_to_list, (Hm e cl), list_elem_of_fmap. split.
    + intros (ent & [= -> ->] & (x & es & Hx & He)%Hin). exists x, es. split; [done|].
      apply cells_lookup; [by eapply (leaf_NoDup nb names Hw Hcf), Hwf|]. by exists ent.
    + intros (p & es & Hp & (ent & He & <- & <-)%cells_lookup);
        [|by eapply (leaf_NoDup nb names Hw Hcf), Hwf].
      exists ent. split; [done|]. apply Hin. by exists p, es.
Qed.
End walks.

(** ** Removing dots wherever they are: [TrieCursor.remove] walks over all leaves. *)
(** The entries of the leaves at which [P] holds lose the dots [ds]. *)
Definition kill_all (ds : gset string) (ent : TrieLeafEntry) : TrieLeafEntry :=
  (Helpers.tombstoneEntry ent ds).1.
Definition kill_shape (ds : gset string) (s : shape) : shape :=
  match s with SLeaf es => SLeaf (kill_all ds <$> es) | SBranch => SBranch end.
Definition kill_on (ds : gset string) (P : list N → bool) (G : trie) : trie :=
  map_imap (λ q s, Some (if P q then kill_shape ds s else s)) G.

Definition below (p q : list N) : bool := bool_decide (p `prefix_of` q).

Section kill.
Context (ds : gset string).

Lemma kill_all_idem ent : kill_all ds (kill_all ds ent) = kill_all ds ent.
Proof.
  destruct ent as [s e l d]. unfold kill_all, Helpers.tombstoneEntry. cbn. f_equal; set_solver.
Qed.

Lemma kill_all_none ent : (Helpers.tombstoneEntry ent ds).2 = false → kill_all ds ent = ent.
Proof.
  destruct ent as [s e l d]. unfold kill_all, Helpers.tombstoneEntry. cbn.
  intros Hc%bool_decide_eq_false%dec_stable. f_equal; set_solver.
Qed.

Lemma kill_shape_idem s : kill_shape ds (kill_shape ds s) = kill_shape ds s.
Proof.
  destruct s as [es|]; [|done]. cbn. f_equal. rewrite <- list_fmap_compose.
  apply list_fmap_ext. intros _ ent _. apply kill_all_idem.
Qed.

Lemma lookup_kill P G q : kill_on ds P G !! q = (λ s, if P q then kill_shape ds s else s) <$> G !! q.
Proof. unfold kill_on. rewrite map_lookup_imap. by destruct (G !! q). Qed.

Lemma kill_kill P Q G : kill_on ds P (kill_on ds Q G) = kill_on ds (λ q, P q || Q q) G.
Proof.
  apply map_eq. intros q. rewrite !lookup_kill. destruct (G !! q) as [s|]; [|done]. cbn.
  destruct (P q), (Q q); cbn; by rewrite ?kill_shape_idem.
Qed.

(** Only the leaves matter. *)
Lemma kill_ext P Q G :
  (∀ q es, G !! q = Some (SLeaf es) → P q = Q q) → kill_on ds P G = kill_on ds Q G.
Proof.
  intros H. apply map_eq. intros q. rewrite !lookup_kill.
  destruct (G !! q) as [[es|]|] eqn:E; [|cbn; by destruct (P q), (Q q)|done].
  by rewrite (H q es E).
Qed.

Lemma kill_frame P G q : P q = false → kill_on ds P G !! q = G !! q.
Proof. intros Hq. rewrite lookup_kill, Hq. by destruct (G !! q). Qed.

Lemma kill_is_branch P G q : kill_on ds P G !! q = Some SBranch ↔ G !! q = Some SBranch.
Proof. rewrite lookup_kill. destruct (G !! q) as [[es|]|]; cbn; [|by destruct (P q)|done]. by destruct (P q). Qed.

Lemma kill_nowhere P G : (∀ q, P q = false) → kill_on ds P G = G.
Proof. intros HP. apply map_eq. intros q. by apply kill_frame. Qed.
End kill.

Section remove.
Import Helpers TrieCursor.
Context `{Hash} `{Codec} {W : Type} `{TrieStoreLaws W} (geo : TrieGeometry) (names : string → Prop).
Context (Hgeo : TrieGeometry.valid geo).
#[local] Abbreviation nb := (TrieGeometry.nibbleBits geo).
#[local] Abbreviation D := (max_depth nb).
Context (Hcf : collision_free nb names) (ds : gset string).
#[local] Abbreviation rep := (rep geo nowhere).
#[local] Abbreviation trie_wf := (trie_wf geo names).
#[local] Abbreviation kill_on := (kill_on ds).

Lemma kill_wf P G : trie_wf G → trie_wf (kill_on P G).
Proof.
  intros Hwf. split.
  - intros p n s. rewrite lookup_kill. destruct (G !! (p ++ [n])) as [s0|] eqn:E; [|done]. intros _.
    rewrite kill_is_branch. by apply (wf_parent _ _ _ Hwf p n s0).
  - intros es. rewrite lookup_kill. destruct (G !! []) as [[es0|]|] eqn:E; [|by destruct (P [])|done].
    by apply (wf_root _ _ _ Hwf) in E.
  - intros p es. rewrite lookup_kill. destruct (G !! p) as [[es0|]|] eqn:E; [|by destruct (P p)|done].
    apply (wf_leaf _ _ _ Hwf) in E as Hl. cbn. destruct (P p); intros [= <-]; [|done].
    apply leaf_map_ok; [done|]. by intros ent.
  - intros p Hp%kill_is_branch. by apply (wf_branch _ _ _ Hwf).
Qed.

(** What [remove] does to the map: every cell loses the dots. *)
Lemma kill_views G m : trie_wf G → views G m → views (kill_on (λ _, true) G) (ElementMap.kill ds <$> m).
Proof.
  intros Hwf Hm e cl. rewrite lookup_fmap, fmap_Some. setoid_rewrite (Hm e).
  assert (∀ p es, G !! p = Some (SLeaf es) → ∀ c,
    cells (kill_all ds <$> es) !! e = Some c ↔ ∃ c0, cells es !! e = Some c0 ∧ c = ElementMap.kill ds c0) as Hc.
  { intros p es Hp c. assert (NoDup (TrieLeaf.element <$> es)) as Hnd.
    { by apply (leaf_NoDup nb names (TrieGeometry.geo_width _ Hgeo) Hcf p), Hwf. }
    rewrite cells_map by done. setoid_rewrite cells_lookup; [|done]. split.
    - intros (ent & Hin & He & <-). exists (cell_of ent). split; [by exists ent|]. apply tombstone_cell.
    - intros (c0 & (ent & Hin & He & <-) & ->). exists ent. split_and!; [done..|]. apply tombstone_cell. }
  split.
  - intros (c0 & (p & es & Hp & Hes) & ->). exists p, (kill_all ds <$> es).
    rewrite lookup_kill, Hp. split; [done|]. apply (Hc p es Hp). by exists c0.
  - intros (p & es' & Hp & Hes). rewrite lookup_kill in Hp.
    destruct (G !! p) as [[es|]|] eqn:E; [|done..]. injection Hp as <-.
    apply (Hc p es E) in Hes as (c0 & Hes & ->). exists c0. split; [|done]. by exists p, es.
Qed.

Lemma rewriteLeaf_spec g es :
  match rewriteLeafWithTombstones (TrieLeaf.mk g es) ds with
  | Some next => next = kill_all ds <$> es
  | None => kill_all ds <$> es = es
  end.
Proof.
  unfold rewriteLeafWithTombstones. cbn. destruct (existsb snd _) eqn:Ex.
  - by rewrite <- list_fmap_compose.
  - apply not_true_iff_false in Ex. rewrite existsb_exists in Ex.
    rewrite <- (list_fmap_id es) at 2. apply list_fmap_ext. intros i ent Hi. apply kill_all_none.
    apply not_true_iff_false. intros Et. apply Ex. exists (tombstoneEntry ent ds). split; [|done].
    apply list_elem_of_In, list_elem_of_fmap. exists ent. split; [done|]. by eapply list_elem_of_lookup_2.
Qed.

Lemma tombstoneInLeaf_ok p es c w G :
  rep c w G → trie_wf G → leafAt c p = Some (TrieLeaf.mk geo es) →
  ∃ c', tombstoneInLeaf p (TrieLeaf.mk geo es) ds (c, w) = ((c', w), Ok ()) ∧
    rep c' w (kill_on (below p) G) ∧ evolves c c'.
Proof.
  intros R Hwf Hl. destruct (rep_leaf _ _ _ _ _ R _ _ Hl) as [_ HG]. cbn in HG.
  assert (kill_on (below p) G = <[p := SLeaf (kill_all ds <$> es)]> G) as Ek.
  { apply map_eq. intros q. destruct (decide (p = q)) as [<-|Hne].
    - rewrite lookup_insert_eq, lookup_kill, HG. unfold below. by rewrite bool_decide_true.
    - rewrite lookup_insert_ne by done. rewrite lookup_kill. unfold below. case_bool_decide as Hpre.
      + destruct Hpre as [x ->]. rewrite (wf_below geo names G p x); [done|done|congruence|].
        intros ->. by rewrite app_nil_r in Hne.
      + by destruct (G !! q). }
  unfold tombstoneInLeaf. pose proof (rewriteLeaf_spec geo es) as Hrw.
  destruct (rewriteLeafWithTombstones _ ds) as [next|].
  - subst next. assert (leaf_ok nb names p (kill_all ds <$> es)) as Hl'.
    { apply leaf_map_ok; [by apply (wf_leaf _ _ _ Hwf)|]. by intros ent. }
    rewrite asks_bind, (rep_geo _ _ _ _ _ R), new_leaf_ok, lift_bind by apply Hl'.
    rewrite Ek. by apply (markLoadedLeafMutation_ok geo names p c w G es).
  - exists c. split; [done|]. split; [|done]. rewrite Ek, Hrw.
    by rewrite insert_id.
Qed.

(** The children [ns] of [p] are done. *)
Definition under (p : list N) (ns : list N) (q : list N) : bool :=
  existsb (λ n, below (p ++ [n]) q) ns.

Lemma under_child p ns n x : under p ns (p ++ n :: x) = bool_decide (n ∈ ns).
Proof.
  unfold under. apply eq_bool_prop_intro. rewrite bool_decide_spec, Is_true_true, existsb_exists.
  setoid_rewrite <- list_elem_of_In. setoid_rewrite bool_decide_eq_true. split.
  - intros (m & Hm & [y E]). rewrite <- app_assoc in E. apply app_inv_head in E. by injection E as ->.
  - intros Hn. exists n. split; [done|]. exists x. by rewrite <- app_assoc.
Qed.

Lemma tombstone_children_ok rec p kids done c w G :
  (∀ n o c G, (n, o) ∈ kids → rep c w G → trie_wf G → cached c (p ++ [n]) →
    ∃ c', rec (p ++ [n]) ds (c, w) = ((c', w), Ok ()) ∧
      rep c' w (kill_on (below (p ++ [n])) G) ∧ evolves c c') →
  rep c w (kill_on (under p done) G) → trie_wf G → is_Some (branchAt c p) →
  NoDup kids.*1 → (∀ n, n ∈ done → n ∉ kids.*1) →
  (∀ n o, (n, o) ∈ kids → dirty c (p ++ [n]) ∨ handle geo w G o (p ++ [n])) →
  ∃ c', for_each (λ '(childNibble, childOid),
      _ ← ensureChildLoaded p childNibble childOid; rec (p ++ [childNibble]) ds) kids (c, w)
      = ((c', w), Ok ()) ∧ rep c' w (kill_on (under p (done ++ kids.*1)) G) ∧ evolves c c'.
Proof.
  intros Hrec. revert done c. induction kids as [|[n o] kids IH]; intros done c R Hwf Hb Hnd Hfresh Ho.
  - exists c. rewrite app_nil_r. by split_and!.
  - apply NoDup_cons in Hnd as [Hn Hnd]. cbn [for_each].
    assert (∀ x, kill_on (under p done) G !! ((p ++ [n]) ++ x) = G !! ((p ++ [n]) ++ x)) as Hsame.
    { intros x. apply kill_frame. rewrite <- app_assoc. cbn. rewrite under_child, bool_decide_false; [done|].
      intros Hin. apply (Hfresh n Hin). by left. }
    destruct (ensureChildLoaded_handle geo c w _ p n o R Hb) as (c1 & kind & E1 & R1 & G1 & Hk).
    { destruct (Ho n o) as [?|Hh]; [by left|by left|right]. by eapply handle_frame. }
    destruct (Hrec n o c1 (kill_on (under p done) G)) as (c2 & E2 & R2 & V2); [by left|done|by apply kill_wf| |].
    { destruct kind; [destruct Hk as (es & Hl & _); left; by rewrite Hl|by right; destruct Hk]. }
    assert (evolves c c2) as V by (transitivity c1; [by apply grows_evolves|done]).
    destruct (IH ltac:(intros n' o' c0 G0 Hin; apply (Hrec n' o'); by right) (done ++ [n]) c2)
      as (c' & E' & R' & V'); try done.
    + rewrite kill_kill in R2. replace (kill_on (under p (done ++ [n])) G) with
        (kill_on (λ q, below (p ++ [n]) q || under p done q) G); [done|]. apply kill_ext. intros q es _.
      unfold under. rewrite existsb_app. cbn. by rewrite orb_false_r, orb_comm.
    + by apply V.
    + intros m [Hm| ->%list_elem_of_singleton]%elem_of_app; [|done]. intros Hin. apply (Hfresh m Hm). by right.
    + intros m o' Hin. destruct (Ho m o') as [Hd|Hh]; [by right|left; by apply V|by right].
    + exists c'. unfold mbind at 1, step_bind at 1. rewrite (step_bind_ok _ _ _ _ _ E1), E2.
      split; [exact E'|]. split; [by rewrite <- app_assoc in R'|by transitivity c2].
Qed.

Lemma tombstoneBelow_ok fuel p c w G :
  rep c w G → trie_wf G → cached c p → (D - length p < fuel)%nat →
  ∃ c', tombstoneBelow fuel p ds (c, w) = ((c', w), Ok ()) ∧
    rep c' w (kill_on (below p) G) ∧ evolves c c'.
Proof.
  revert p c G. induction fuel as [|fuel IH]; intros p c G R Hwf Hc Hf; [lia|].
  cbn [tombstoneBelow]. rewrite asks_bind. destruct (leafAt c p) as [l|] eqn:El.
  - destruct (rep_leaf _ _ _ _ _ R _ _ El) as [Eg HG]. rewrite Eg in El |- *.
    by apply tombstoneInLeaf_ok.
  - destruct Hc as [Hc|[b Hb]]; [rewrite El in Hc; by destruct Hc|].
    rewrite asks_bind, Hb. destruct (rep_branch _ _ _ _ _ R _ _ Hb) as [HG _].
    pose proof (wf_branch _ _ _ Hwf p HG) as Hlt.
    destruct (tombstone_children_ok (tombstoneBelow fuel) p (map_to_list (TrieBranch.entries b)) [] c w G)
      as (c' & E & R' & V); try done.
    + intros n o c0 G0 _ R0 Hwf0 Hc0. apply IH; [done|done|done|]. rewrite length_app. simpl. lia.
    + by rewrite kill_nowhere.
    + apply NoDup_fst_map_to_list.
    + by intros n ?%elem_of_nil.
    + intros n o Hin%elem_of_map_to_list. destruct (decide (dirty c (p ++ [n]))) as [Hd|Hd]; [by left|right].
      by apply (rep_child _ _ _ _ _ R p b); [..|intros []].
    + exists c'. split; [exact E|]. split; [|done].
      replace (kill_on (below p) G) with (kill_on (under p ([] ++ (map_to_list (TrieBranch.entries b)).*1)) G);
        [done|]. apply kill_ext. intros q es Hq. unfold below. case_bool_decide as Hpre.
      * destruct Hpre as [[|n x] ->]; [rewrite app_nil_r in Hq; congruence|].
        rewrite under_child. apply bool_decide_eq_true, list_elem_of_fmap.
        assert (is_Some (G !! (p ++ [n]))) as Hn.
        { replace (p ++ n :: x) with ((p ++ [n]) ++ x) in Hq by by rewrite <- app_assoc.
          destruct (decide (x = [])) as [->|Hne]; [rewrite app_nil_r in Hq; by rewrite Hq|].
          by rewrite (wf_prefix geo names G _ x _ Hwf Hq Hne). }
        rewrite <- (rep_children _ _ _ _ _ R p b n Hb) in Hn by by intros []. destruct Hn as [o Ho].
        exists (n, o). split; [done|]. by apply elem_of_map_to_list.
      * apply not_true_iff_false. unfold under. rewrite existsb_exists. intros (n & _ & Hb'%bool_decide_eq_true).
        apply Hpre. etransitivity; [|exact Hb']. by exists [n].
Qed.

(** [remove] takes the dots from every element. *)
Lemma remove_ok c w G :
  rep c w G → trie_wf G →
  ∃ c' G', remove ds (c, w) = ((c', w), Ok ()) ∧ rep c' w G' ∧ trie_wf G' ∧
    ∀ m, views G m → views G' (ElementMap.kill ds <$> m).
Proof.
  intros R Hwf. unfold remove. case_bool_decide as Hds.
  { exists c, G. split; [done|]. split; [done|]. split; [done|]. intros m Hm.
    replace (ElementMap.kill ds <$> m) with m; [done|]. rewrite <- (map_fmap_id m) at 1.
    apply map_fmap_ext. intros e [l d] _. unfold ElementMap.kill. cbn. f_equal; set_solver. }
  destruct (loadRootIfNeeded_ok geo c w G R) as (c1 & E1 & R1 & G1 & L1 & Hroot).
  rewrite (step_bind_ok _ _ _ _ _ E1), asks_bind, Hroot. case_bool_decide as HG; cbn [negb].
  - rewrite asks_bind. unfold levels. rewrite (rep_geo _ _ _ _ _ R1).
    destruct (tombstoneBelow_ok (S (256 / nb)) [] c1 w G R1 Hwf) as (c' & E & R' & _).
    + right. by apply (rep_root_cached _ _ _ _ _ R1 L1); [intros []|].
    + cbn. unfold max_depth. lia.
    + exists c', (kill_on (below []) G). split; [exact E|]. split; [done|]. split; [by apply kill_wf|].
      intros m Hm. replace (kill_on (below []) G) with (kill_on (λ _, true) G); [by apply kill_views|].
      apply kill_ext. intros q es _. unfold below. rewrite bool_decide_true; [done|]. by exists q.
  - assert (G = ∅) as ->.
    { apply (rep_unloaded_empty geo names c1 w); [done|done|done|]. by apply eq_None_not_Some. }
    exists c1, ∅. split; [done|]. split; [done|]. split; [done|]. intros m Hm.
    rewrite (views_unique ∅ m ∅ Hm views_empty), fmap_empty. apply views_empty.
Qed.
End remove.
