(* ===== verification/TrieFlush.v ===== *)
(** Flushing: every changed page is written after the pages below it, and the
    new root is a handle for the whole trie. *)
From S2P Require Export TrieWalks.

Section flush.
Import DirtyPageSet TrieFlusher.
Context `{Hash} `{CodecLaws} {W : Type} `{TrieStoreLaws W} (geo : TrieGeometry) (names : string → Prop).
#[local] Abbreviation rep := (rep geo).
#[local] Abbreviation trie_wf := (trie_wf geo names).
#[local] Abbreviation handle := (handle geo).

(** A cursor just opened on a stored trie. *)
Lemma rep_new root w G :
  root_oid_ok root = true →
  match root with None => G = ∅ | Some o => G !! [] = Some SBranch ∧ stored geo w G o [] end →
  rep nowhere (TrieCursor.new root geo) w G.
Proof.
  intros Hok Hroot.
  assert (∀ p, TrieCursor.leafAt (TrieCursor.new root geo) p = None) as Hl
    by (intros p; unfold TrieCursor.leafAt; cbn; by rewrite !lookup_empty).
  assert (∀ p, TrieCursor.branchAt (TrieCursor.new root geo) p = None) as Hb
    by (intros p; unfold TrieCursor.branchAt; cbn; by rewrite !lookup_empty).
  assert (∀ p, ¬ cached (TrieCursor.new root geo) p) as Hc.
  { intros p. unfold cached. rewrite Hl, Hb. by intros [[]|[]]. }
  split; try done.
  - intros key [Hk|Hk]; by destruct Hk.
  - intros p n Hp. by destruct (Hc (p ++ [n])).
  - intros p n Hp%dirty_cached. by destruct (Hc (p ++ [n])).
Qed.

Section pages.
Context (c : TrieCursor) (G : trie).
#[local] Abbreviation d := (mk (TrieCursor.initialRootOid c) (TrieCursor.dirtyLeaves c)
  (TrieCursor.dirtyBranches c) (TrieCursor.cleanChildren c)).

(** What has been written: handles for the recorded pages, the root among them
    once it is reached. *)
Record written (st : FlushState) (w : W) : Prop := {
  wr_rep : rep nowhere c w G;
  wr_handle : ∀ p o, newOidByPath st !! encodeDirtyPath p = Some o → handle w G o p;
  wr_root : rootOid st = newOidByPath st !! encodeDirtyPath [];
  wr_counts : 0 <= blobsWritten st ∧ 0 <= treesWritten st ∧ 0 <= bytesWritten st }.

Lemma dirty_page p : dirty c p ↔ ∃ e, path e = p ∧ match node e with
    | Leaf l => dirtyLeafAt d p = Some l
    | Branch b => dirtyBranchAt d p = Some b
    end.
Proof.
  unfold dirty, dirtyLeafAt, dirtyBranchAt. cbn. split.
  - intros [[l Hl]|[b Hb]]; [by exists (DirtyPage p (Leaf l))|by exists (DirtyPage p (Branch b))].
  - intros ([p' [l|b]] & <- & He); cbn in *; [left|right]; by rewrite He.
Qed.

Lemma rep_keyed w : rep nowhere c w G → keyed d.
Proof.
  intros R. split; [apply R|]. cbn. intros key l b Hl Hb.
  destruct (rep_keys _ _ _ _ _ R key) as [p ->]; [left; by rewrite Hl|].
  apply (rep_exclusive geo nowhere c w G p l b R).
  - unfold TrieCursor.leafAt. by rewrite Hl.
  - unfold TrieCursor.branchAt. by rewrite Hb.
Qed.

(** A child is written, or it is unchanged and has its handle. *)
Lemma resolve_ok st w p b n o :
  written st w → TrieCursor.branchAt c p = Some b → TrieBranch.children b !! n = Some o →
  (dirty c (p ++ [n]) → is_Some (newOidByPath st !! encodeDirtyPath (p ++ [n]))) →
  ∃ o', resolveChildOid o (p ++ [n]) d st = Ok o' ∧ handle w G o' (p ++ [n]).
Proof.
  intros [R Hh _ _] Hb Hn Hd. unfold resolveChildOid.
  destruct (newOidByPath st !! _) as [o'|] eqn:Eo; [exists o'; split; [done|by apply Hh]|].
  assert (¬ dirty c (p ++ [n])) as Hnd by (intros Hx; by destruct (Hd Hx)).
  unfold cleanChildOidAt. cbn.
  destruct (TrieCursor.cleanChildren c !! _) as [o'|] eqn:Ec.
  - exists o'. split; [done|]. apply (rep_clean _ _ _ _ _ R); [done|done|by intros []].
  - assert (handle w G o (p ++ [n])) as Hho.
    { apply (rep_child _ _ _ _ _ R p b); [done|done|done|by intros []]. }
    exists o. by rewrite (proj2 (proj1 Hho)).
Qed.

Lemma resolve_children_ok st w p b :
  written st w → TrieCursor.branchAt c p = Some b →
  (∀ n, dirty c (p ++ [n]) → is_Some (newOidByPath st !! encodeDirtyPath (p ++ [n]))) →
  ∃ cs, resolveBranchChildren b p d st = Ok cs ∧
    (∀ n, is_Some (cs !! n) ↔ is_Some (TrieBranch.children b !! n)) ∧
    (∀ n o, cs !! n = Some o → handle w G o (p ++ [n])).
Proof.
  intros Hwr Hb Hd. unfold resolveBranchChildren.
  set (f := λ '(nibble, originalOid), oid ← resolveChildOid originalOid (p ++ [nibble]) d st;
    Ok (nibble, oid)).
  assert (∀ n o, TrieBranch.children b !! n = Some o → ∃ o', f (n, o) = Ok (n, o') ∧ handle w G o' (p ++ [n])) as Hf.
  { intros n o Hn. destruct (resolve_ok st w p b n o Hwr Hb Hn (Hd n)) as (o' & E & Hh).
    exists o'. unfold f. by rewrite E. }
  destruct (map_result_total f (map_to_list (TrieBranch.entries b))) as [ys Hys].
  { intros [n o] Hn%elem_of_map_to_list. destruct (Hf n o Hn) as (o' & E & _). by eexists. }
  rewrite Hys. cbn [mbind result_bind]. exists (list_to_map ys). split; [done|].
  apply map_result_ok in Hys.
  assert (ys.*1 = (map_to_list (TrieBranch.entries b)).*1) as Efst.
  { symmetry. apply list_eq_Forall2, Forall2_fmap. eapply Forall2_impl; [exact Hys|].
    intros [n o] [n' o'] E. unfold f in E. cbn. destruct (resolveChildOid _ _ _ _); [|done].
    cbn in E. congruence. }
  assert (NoDup ys.*1) as Hnd by (rewrite Efst; apply NoDup_fst_map_to_list).
  assert (∀ n o', (n, o') ∈ ys → ∃ o, TrieBranch.children b !! n = Some o ∧ f (n, o) = Ok (n, o')) as Hfrom.
  { intros n o' [i Hi]%list_elem_of_lookup. destruct (Forall2_lookup_r _ _ _ _ _ Hys Hi) as ([m o] & Hm & E).
    apply list_elem_of_lookup_2, elem_of_map_to_list in Hm.
    destruct (Hf m o Hm) as (o1 & E1 & _). rewrite E1 in E. injection E as -> ->. by exists o. }
  split.
  - intros n. split.
    + intros [o' Ho%elem_of_list_to_map_2]. destruct (Hfrom n o' Ho) as (o & -> & _). done.
    + intros [o Ho]. apply elem_of_map_to_list in Ho as Hin.
      apply list_elem_of_lookup in Hin as [i Hi].
      destruct (Forall2_lookup_l _ _ _ _ _ Hys Hi) as ([m o'] & Hm & E).
      destruct (Hf n o Ho) as (o1 & E1 & _). rewrite E1 in E. injection E as <- <-.
      exists o1. apply elem_of_list_to_map; [done|]. by eapply list_elem_of_lookup_2.
  - intros n o' Ho%elem_of_list_to_map_2. destruct (Hfrom n o' Ho) as (o & Hn & E).
    destruct (Hf n o Hn) as (o1 & E1 & Hh). rewrite E1 in E. by injection E as ->.
Qed.

Lemma record_page_ok st w w' p o bl tr by_ :
  written st w → trie_store_le w w' → handle w' G o p → 0 <= bl → 0 <= tr → 0 <= by_ →
  ∃ st', record_page p o bl tr by_ (st, w') = ((st', w'), Ok ()) ∧ written st' w' ∧
    newOidByPath st' = <[encodeDirtyPath p := o]> (newOidByPath st).
Proof.
  intros [R Hh Hr Hc] Hle Ho Hbl Htr Hby. eexists. split; [done|]. split; [|done]. split; cbn.
  - by eapply rep_mono.
  - intros q o'. rewrite lookup_insert_path. destruct (decide (q = p)) as [->|Hne]; [by intros [= <-]|].
    intros Hq. eapply handle_mono; [by apply Hh|done].
  - change "" with (encodeDirtyPath []). rewrite lookup_insert_path.
    destruct (decide ([] = p)) as [<-|Hne]; [done|]. by rewrite bool_decide_false.
  - lia.
Qed.

Lemma process_ok e st w :
  trie_wf G → written st w → e ∈ enumerateBottomUp d →
  (∀ n, dirty c (path e ++ [n]) → is_Some (newOidByPath st !! encodeDirtyPath (path e ++ [n]))) →
  ∃ st' w' o, processEntry d e (st, w) = ((st', w'), Ok ()) ∧ trie_store_le w w' ∧ written st' w' ∧
    newOidByPath st' = <[encodeDirtyPath (path e) := o]> (newOidByPath st).
Proof.
  intros Hwf Hwr He Hkids. pose proof (wr_rep _ _ Hwr) as R.
  apply elem_enumerate in He; [|by apply (rep_keyed w)]. unfold processEntry.
  destruct (node e) as [l|b].
  - assert (TrieCursor.leafAt c (path e) = Some l) as Hl.
    { unfold TrieCursor.leafAt. unfold dirtyLeafAt in He. cbn in He. by rewrite He. }
    destruct (rep_leaf _ _ _ _ _ R _ _ Hl) as [El HG].
    destruct (leaf_wire_roundtrip geo (TrieLeaf.sortedEntries l)) as (bytes & Es & Hne & Hd);
      [by eapply lf_sorted, (wf_leaf _ _ _ Hwf)|].
    destruct (write_leaf_law w bytes) as (w' & o & Ew & Hle & Hp & Ho).
    destruct (record_page_ok st w w' (path e) o 1 0 (Z.of_nat (length bytes)) Hwr Hle)
      as (st' & E & Hwr' & Hnew); [|lia..|].
    { split; [done|]. eapply stored_leaf; [exact HG|done|done|done]. }
    exists st', w', o. split; [|done]. unfold processLeaf, wrapping, lift, in_store, mbind, step_bind.
    rewrite El, Es, Ew. exact E.
  - assert (TrieCursor.branchAt c (path e) = Some b) as Hb.
    { unfold TrieCursor.branchAt. unfold dirtyBranchAt in He. cbn in He. by rewrite He. }
    destruct (rep_branch _ _ _ _ _ R _ _ Hb) as [HG Hfit].
    destruct (resolve_children_ok st w (path e) b Hwr Hb Hkids) as (cs & Er & Hcs & Hhs).
    destruct (write_branch_law w cs) as (w' & o & Ew & Hle & Hp & Ho).
    destruct (record_page_ok st w w' (path e) o 0 1 0 Hwr Hle) as (st' & E & Hwr' & Hnew); [|lia..|].
    { split; [done|]. eapply (stored_branch geo _ _ _ _ cs); [done|done| | | |].
      - intros n oid Hn. split; [|by apply (Hhs n oid Hn)].
        destruct (Hcs n) as [Hx _]. rewrite Hn in Hx. destruct (Hx ltac:(done)) as [o1 Ho1].
        by apply (Hfit n o1).
      - intros n. rewrite Hcs. apply (rep_children _ _ _ _ _ R _ _ _ Hb). by intros [].
      - intros n oid Hn. by apply (Hhs n oid Hn).
      - intros n oid Hn. eapply stored_mono; [by apply (Hhs n oid Hn)|done]. }
    exists st', w', o. split; [|done]. unfold processBranch, get, wrapping, lift, in_store, mbind, step_bind.
    cbn [fst]. rewrite Er, Ew. exact E.
Qed.

(** The children of a page come before it, so each finds its own handles. *)
Lemma kids_done e seen rest :
  keyed d → enumerateBottomUp d = seen ++ e :: rest →
  ∀ n, dirty c (path e ++ [n]) → ∃ k, k ∈ seen ∧ path k = path e ++ [n].
Proof.
  intros Hk El n Hd. apply dirty_page in Hd as (k & Ek & Hin).
  assert (k ∈ enumerateBottomUp d) as Hin' by (by apply elem_enumerate; [|rewrite Ek]).
  exists k. split; [|done]. rewrite El in Hin'.
  pose proof (enumerate_deepest_first d) as Hs. rewrite El in Hs.
  apply StronglySorted_app_1_r, StronglySorted_inv in Hs as [_ Hs].
  assert (length (path e) < length (path k))%nat as Hlen by (rewrite Ek, length_app; simpl; lia).
  apply elem_of_app in Hin' as [?|[ ->|Hr]%elem_of_cons]; [done|lia|].
  rewrite Forall_forall in Hs. specialize (Hs k Hr). unfold deeper in Hs. lia.
Qed.

Lemma process_all_ok rest seen st w :
  trie_wf G → written st w → enumerateBottomUp d = seen ++ rest →
  (∀ e, e ∈ seen → is_Some (newOidByPath st !! encodeDirtyPath (path e))) →
  ∃ st' w', for_each (processEntry d) rest (st, w) = ((st', w'), Ok ()) ∧ trie_store_le w w' ∧
    written st' w' ∧ ∀ e, e ∈ seen ++ rest → is_Some (newOidByPath st' !! encodeDirtyPath (path e)).
Proof.
  intros Hwf. revert seen st w. induction rest as [|e rest IH]; intros seen st w Hwr El Hdone.
  { exists st, w. rewrite app_nil_r. by split_and!. }
  assert (keyed d) as Hk by (eapply rep_keyed, wr_rep; exact Hwr).
  destruct (process_ok e st w Hwf Hwr) as (st1 & w1 & o & E1 & Hle1 & Hwr1 & Hnew).
  { rewrite El. apply elem_of_app. right. by left. }
  { intros n Hd. destruct (kids_done e seen rest Hk El n Hd) as (k & Hin & <-). by apply Hdone. }
  destruct (IH (seen ++ [e]) st1 w1 Hwr1) as (st' & w' & E' & Hle' & Hwr' & Hdone').
  - by rewrite <- app_assoc.
  - intros k Hk'. rewrite Hnew, lookup_insert_path. case_decide; [done|].
    apply elem_of_app in Hk' as [?| ->%list_elem_of_singleton]; [by apply Hdone|done].
  - exists st', w'. cbn [for_each]. rewrite (step_bind_ok _ _ _ _ _ E1). split; [done|].
    split; [by etransitivity|]. split; [done|]. intros k Hin. apply Hdone'. by rewrite <- app_assoc.
Qed.

(** Whatever has changed, the root has. *)
Lemma dirty_root w p : rep nowhere c w G → dirty c p → dirty c [].
Proof.
  intros R. induction p as [|n p IH] using rev_ind; [done|].
  intros Hd. destruct (rep_dirty_up _ _ _ _ _ R _ _ Hd) as [[]|Hp]. by apply IH.
Qed.

Lemma clean_of_empty p : isEmpty d = true → ¬ dirty c p.
Proof.
  unfold isEmpty. cbn. intros [Hl%bool_decide_eq_true Hb%bool_decide_eq_true]%andb_prop.
  unfold dirty. rewrite Hl, Hb, !lookup_empty. by intros [[]|[]].
Qed.

Lemma dirty_of_not_empty w : rep nowhere c w G → isEmpty d = false → dirty c [].
Proof.
  intros R Hne. assert (∃ key, is_Some (TrieCursor.dirtyLeaves c !! key) ∨
    is_Some (TrieCursor.dirtyBranches c !! key)) as [key Hkey].
  { unfold isEmpty in Hne. cbn in Hne. apply andb_false_iff in Hne as [Hx|Hx];
      apply bool_decide_eq_false, map_choose in Hx as (key & x & Hx); exists key; rewrite Hx;
      [by left|by right]. }
  destruct (rep_keys _ _ _ _ _ R key Hkey) as [p ->]. by apply (dirty_root w p).
Qed.

Lemma rep_root_branch w : trie_wf G → rep nowhere c w G → dirty c [] → G !! [] = Some SBranch.
Proof.
  intros Hwf R [[l Hl]|[b Hb]].
  - assert (TrieCursor.leafAt c [] = Some l) as Hl'%(rep_leaf _ _ _ _ _ R)
      by (unfold TrieCursor.leafAt; by rewrite Hl).
    destruct Hl' as [_ HG]. by apply (wf_root _ _ _ Hwf) in HG.
  - assert (TrieCursor.branchAt c [] = Some b) as Hb'%(rep_branch _ _ _ _ _ R)
      by (unfold TrieCursor.branchAt; by rewrite Hb). apply Hb'.
Qed.

(** The flush writes a trie that a fresh cursor at its root represents. *)
Lemma flush_ok w :
  trie_wf G → rep nowhere c w G →
  ∃ w' r, flush d w = (w', Ok r) ∧ trie_store_le w w' ∧ root_oid_ok (FlushResult.rootOid r) = true ∧
    rep nowhere (TrieCursor.new (FlushResult.rootOid r) geo) w' G.
Proof.
  intros Hwf R. unfold flush. destruct (isEmpty d) eqn:Ee.
  - pose proof (rep_root_oid _ _ _ _ _ R) as Hro.
    eexists w, (FlushResult.mk (TrieCursor.initialRootOid c) 0 0 0). split.
    { cbn. unfold FlushResult.new, require. by rewrite Hro. }
    split; [done|]. split; [done|]. apply rep_new; [done|]. cbn.
    apply (rep_root _ _ _ _ _ R); [by apply clean_of_empty|by intros []].
  - destruct (process_all_ok (enumerateBottomUp d) [] createFlushState w Hwf)
      as (st & w' & E & Hle & Hwr & Hdone).
    { split; [done| |done|done]. intros p o. cbn. by rewrite lookup_empty. }
    { done. }
    { by intros e ?%elem_of_nil. }
    pose proof (dirty_of_not_empty w R Ee) as Hd0. pose proof Hd0 as (e & Ep & Hin)%dirty_page.
    destruct (Hdone e) as [o Ho].
    { apply elem_enumerate; [by apply (rep_keyed w)|]. by rewrite Ep. }
    rewrite Ep in Ho. destruct (wr_handle _ _ Hwr _ _ Ho) as [[Hne Hp] Hs].
    pose proof (wr_root _ _ Hwr) as Hr. rewrite Ho in Hr. pose proof (wr_counts _ _ Hwr) as Hc.
    exists w', (FlushResult.mk (Some o) (blobsWritten st) (treesWritten st) (bytesWritten st)).
    rewrite E. split.
    { unfold FlushResult.new, require, FlushResult.validateNonNegativeInteger, int_at_least. rewrite Hr.
      cbn. unfold root_oid_ok. rewrite Hne. cbn. destruct Hc as (H1' & H2' & H3').
      repeat (rewrite (proj2 (Z.leb_le 0 _)) by done; cbn). done. }
    split; [done|]. split; [done|]. apply rep_new; [done|]. cbn. split; [|done].
    by apply (rep_root_branch w).
Qed.
End pages.
End flush.
