(* ===== verification/TrieEngine.v ===== *)
(** The trie engine implements element maps: every operation of
    [orset/shadow/ShadowTrieORSet.ts] over a lawful store acts on the map of the
    trie as the sessions expect, and a flush keeps the map behind its root. *)
From S2P Require Export TrieFlusher TrieWalks TrieFlush.

Section engine.
Context `{Hash} `{Codec} {W : Type} `{TrieStore W} (geo : TrieGeometry).

(** A session opens its engines with one geometry on one store. *)
Definition trie_engine : Engine TrieCursor W := {|
  eng_open := λ root, TrieCursor.new root geo;
  eng_contains := ShadowTrieORSet.contains;
  eng_getDots := ShadowTrieORSet.getDots;
  eng_getElementState := ShadowTrieORSet.getElementState;
  eng_add := ShadowTrieORSet.add;
  eng_removeElement := ShadowTrieORSet.removeElement;
  eng_compact := TrieCompactor.shadow_compact;
  eng_scan := ShadowTrieORSet.scan;
  eng_scanElementStates := ShadowTrieORSet.scanElementStates;
  eng_dirtyPageCount := ShadowTrieORSet.dirtyPageCount;
  eng_prepareFlush := ShadowTrieORSet.prepareFlush;
  eng_acceptFlush := ShadowTrieORSet.acceptFlush |}.

(** The map of a trie is what a scan shows. *)
Definition trie_view (t : TrieCursor) (w : W) : ElementMap.t :=
  match ShadowTrieORSet.scanElementStates (t, w) with
  | (_, Ok l) => list_to_map ((λ st, (ORSetElementState.element st,
      ElementMap.Cell (ORSetElementState.dots st) (ORSetElementState.tombstonedDots st))) <$> l)
  | _ => ∅
  end.

Context `{!TrieStoreModel W} (names : string → Prop).

Definition trie_ok (t : TrieCursor) (w : W) : Prop :=
  ∃ G, rep geo nowhere t w G ∧ trie_wf geo names G.

Definition trie_model : EngineModel TrieCursor W := {|
  store_le := trie_store_le;
  eng_ok := trie_ok;
  eng_view := trie_view;
  eng_names := names |}.
End engine.

Section laws.
Import TrieCursor.
Context `{Hash} `{CodecLaws} {W : Type} `{TrieStoreLaws W} (geo : TrieGeometry) (names : string → Prop).
Context (Hgeo : TrieGeometry.valid geo) (Hcf : collision_free (TrieGeometry.nibbleBits geo) names).
#[local] Abbreviation rep := (rep geo nowhere).
#[local] Abbreviation trie_wf := (trie_wf geo names).
#[local] Abbreviation nb := (TrieGeometry.nibbleBits geo).
#[local] Abbreviation view := trie_view.

Definition state_of_entry (ent : TrieLeafEntry) : ElementState :=
  ORSetElementState.mk (TrieLeaf.element ent) (TrieLeaf.dots ent) (TrieLeaf.tombstonedDots ent).

Lemma entry_state_ok ent : names (TrieLeaf.element ent) →
  elementStateOfEntry ent = Ok (state_of_entry ent).
Proof.
  intros Hn. unfold elementStateOfEntry, ORSetElementState.new, require.
  by rewrite (cf_nonempty _ _ Hcf _ Hn).
Qed.

Lemma emit_states p es : leaf_ok nb names p es →
  map_result elementStateOfEntry (TrieLeaf.entries (TrieLeaf.mk geo es))
  = Ok (omap (Some ∘ state_of_entry) es).
Proof.
  intros Hl. cbn. assert (∀ ent, ent ∈ es → names (TrieLeaf.element ent)) as Hn by apply Hl. clear Hl.
  induction es as [|ent es IH]; cbn [map_result]; [done|].
  rewrite entry_state_ok by (apply Hn; by left). cbn [mbind result_bind].
  rewrite IH by (intros ent' ?; apply Hn; by right). done.
Qed.

Lemma emit_live p es : leaf_ok nb names p es →
  Ok (liveElementsOf (TrieLeaf.mk geo es))
  = Ok (omap (λ ent, if decide (TrieLeaf.dots ent ≠ ∅) then Some (TrieLeaf.element ent) else None) es).
Proof.
  intros _. f_equal. unfold liveElementsOf. cbn. induction es as [|ent es IH]; [done|].
  rewrite filter_cons. cbn. case_decide; cbn; by rewrite IH.
Qed.

Lemma omap_all {A B} (f : A → B) (l : list A) : omap (Some ∘ f) l = f <$> l.
Proof. induction l as [|x l IH]; cbn; [done|]. by rewrite IH. Qed.

(** *** The view *)

Lemma entries_views G ents :
  trie_wf G → entries_below G [] ents →
  views G (list_to_map ((λ ent, (TrieLeaf.element ent, cell_of ent)) <$> ents)).
Proof.
  intros Hwf [Hin Hnd] e cl.
  rewrite <- elem_of_list_to_map by (by rewrite <- list_fmap_compose).
  rewrite list_elem_of_fmap. split.
  - intros (ent & [= -> ->] & (p & es & Hp & He)%Hin). cbn in Hp. exists p, es. split; [done|].
    apply cells_lookup; [|by exists ent].
    by apply (leaf_NoDup nb names (TrieGeometry.geo_width _ Hgeo) Hcf p), Hwf.
  - intros (p & es & Hp & Hc).
    apply cells_lookup in Hc as (ent & He & <- & <-);
      [|by apply (leaf_NoDup nb names (TrieGeometry.geo_width _ Hgeo) Hcf p), Hwf].
    exists ent. split; [done|]. apply Hin. by exists p, es.
Qed.

Lemma scan_states_ok c w G :
  rep c w G → trie_wf G →
  ∃ c' ents, scanElementStates (c, w) = ((c', w), Ok (state_of_entry <$> ents)) ∧
    rep c' w G ∧ grows c c' ∧ entries_below G [] ents.
Proof.
  intros R Hwf. unfold scanElementStates.
  destruct (scan_from_root_ok geo names Hgeo Hcf (λ leaf, map_result elementStateOfEntry (TrieLeaf.entries leaf))
    (Some ∘ state_of_entry) emit_states c w G R Hwf)
    as (c' & ents & E & R' & Hg & Hb).
  exists c', ents. rewrite <- omap_all. by split_and!.
Qed.

Lemma view_ok c w G : rep c w G → trie_wf G → views G (view c w).
Proof.
  intros R Hwf. destruct (scan_states_ok c w G R Hwf) as (c' & ents & E & _ & _ & Hb).
  unfold trie_view, ShadowTrieORSet.scanElementStates. rewrite E.
  rewrite <- list_fmap_compose. by apply entries_views.
Qed.

Lemma view_eq c w G m : rep c w G → trie_wf G → views G m → view c w = m.
Proof. intros R Hwf. apply views_unique. by apply view_ok. Qed.
(** *** The laws *)
#[local] Existing Instance trie_engine.
#[local] Existing Instance trie_model.

(** A read that returns the same trie. *)
Lemma reads_trie {A} (m : step (TrieCursor * W) A) P :
  (∀ c w G, rep c w G → trie_wf G → ∃ c' a, m (c, w) = ((c', w), Ok a) ∧ P (view c w) a ∧
     rep c' w G ∧ grows c c') →
  @reads _ _ (trie_engine geo) (trie_model geo names) A m P.
Proof.
  intros Hm c w (G & R & Hwf). destruct (Hm c w G R Hwf) as (c' & a & E & HP & R' & Hg).
  exists c', a. split; [done|]. split; [done|]. split; [by exists G|]. split.
  - apply (view_eq c' w G); [done|done|]. by apply view_ok.
  - by apply grows_count.
Qed.

(** A lookup answers from the map. *)
Lemma reads_lookup {A} e (k : option TrieLeafEntry → result A) (P : ElementMap.t → A → Prop) :
  names e →
  (∀ m found, m !! e = cell_of <$> found →
     match found with Some ent => TrieLeaf.element ent = e | None => True end →
     ∃ a, k found = Ok a ∧ P m a) →
  @reads _ _ (trie_engine geo) (trie_model geo names) A
    (_ ← lift (Helpers.validateElement e); found ← lookupEntry e; lift (k found)) P.
Proof.
  intros He Hk. apply reads_trie. intros c w G R Hwf.
  pose proof (view_ok c w G R Hwf) as Hm.
  destruct (lookup_ok geo names Hgeo Hcf e k c w G _ R Hwf Hm He) as (c' & r & E & R' & Hg & Hr & Hel).
  destruct (Hk _ r Hr Hel) as (a & Ea & HP). exists c', a. rewrite E, Ea. by split_and!.
Qed.

Lemma writes_trie (m : step (TrieCursor * W) unit) f :
  (∀ c w G, rep c w G → trie_wf G → ∃ c' G', m (c, w) = ((c', w), Ok ()) ∧ rep c' w G' ∧ trie_wf G' ∧
     ∀ mm, views G mm → views G' (f mm)) →
  @writes _ _ (trie_model geo names) m f.
Proof.
  intros Hm c w (G & R & Hwf). destruct (Hm c w G R Hwf) as (c' & G' & E & R' & Hwf' & Hv).
  exists c'. split; [done|]. split; [by exists G'|].
  apply (view_eq c' w G'); [done|done|]. by apply Hv, view_ok.
Qed.

Lemma remove_law ds : @writes _ _ (trie_model geo names)
  (ShadowTrieORSet.remove ds : step (TrieCursor * W) unit) (fmap (ElementMap.kill ds)).
Proof. apply writes_trie. intros c w G R Hwf. by apply remove_ok. Qed.

Lemma scan_law : @reads _ _ (trie_engine geo) (trie_model geo names) _ ShadowTrieORSet.scan
  (λ m l, l ≡ₚ filter (λ e, ElementMap.contains m e) (map_to_list m).*1).
Proof.
  apply reads_trie. intros c w G R Hwf. pose proof (view_ok c w G R Hwf) as Hm.
  destruct (scan_from_root_ok geo names Hgeo Hcf (λ leaf, Ok (liveElementsOf leaf))
    (λ ent, if decide (TrieLeaf.dots ent ≠ ∅) then Some (TrieLeaf.element ent) else None) emit_live c w G R Hwf)
    as (c' & ents & E & R' & Hg & Hb).
  eexists c', _. split; [exact E|]. split; [|by split].
  pose proof (entries_view geo names Hgeo Hcf G _ ents Hwf Hm Hb) as Hperm.
  assert (∀ ent, ent ∈ ents → view c w !! TrieLeaf.element ent = Some (cell_of ent)) as Hat.
  { intros ent Hin. apply elem_of_map_to_list. rewrite <- Hperm. apply list_elem_of_fmap. by exists ent. }
  rewrite <- Hperm. clear Hperm Hb E. rewrite <- list_fmap_compose.
  induction ents as [|ent ents IH]; [done|].
  rewrite fmap_cons, filter_cons. cbn [omap list_omap compose fst].
  assert (ElementMap.contains (view c w) (TrieLeaf.element ent) ↔ TrieLeaf.dots ent ≠ ∅) as Hc.
  { unfold ElementMap.contains, ElementMap.at_. rewrite (Hat ent) by by left.
    cbn. by rewrite bool_decide_spec. }
  destruct (decide (TrieLeaf.dots ent ≠ ∅)) as [Hd|Hd].
  - rewrite decide_True by by apply Hc. constructor. apply IH. intros ent' ?. apply Hat. by right.
  - rewrite decide_False by by rewrite Hc. apply IH. intros ent' ?. apply Hat. by right.
Qed.

Lemma scanElementStates_law : @reads _ _ (trie_engine geo) (trie_model geo names) _
  ShadowTrieORSet.scanElementStates ElementMap.scanned.
Proof.
  apply reads_trie. intros c w G R Hwf. pose proof (view_ok c w G R Hwf) as Hm.
  destruct (scan_states_ok c w G R Hwf) as (c' & ents & E & R' & Hg & Hb).
  exists c', (state_of_entry <$> ents). split; [exact E|]. split; [|by split].
  unfold ElementMap.scanned. rewrite <- (entries_view geo names Hgeo Hcf G _ ents Hwf Hm Hb).
  by rewrite <- list_fmap_compose.
Qed.

Lemma flush_law c w :
  trie_ok geo names c w → ∃ w' r,
    ShadowTrieORSet.prepareFlush (c, w) = ((c, w'), Ok r) ∧ trie_store_le w w' ∧
    root_oid_ok (FlushResult.rootOid r) = true ∧
    ShadowTrieORSet.acceptFlush r c = (TrieCursor.new (FlushResult.rootOid r) geo, Ok ()) ∧
    trie_ok geo names (TrieCursor.new (FlushResult.rootOid r) geo) w' ∧
    view (TrieCursor.new (FlushResult.rootOid r) geo) w' = view c w.
Proof.
  intros (G & R & Hwf). destruct (flush_ok geo names c G w Hwf R) as (w' & r & E & Hle & Hr & R').
  exists w', r. unfold ShadowTrieORSet.prepareFlush, snapshot.
  rewrite (new_keyed _ _ _ _ (rep_keyed geo c G w R)), E.
  split; [done|]. split; [done|]. split; [done|]. split.
  { unfold ShadowTrieORSet.acceptFlush, rebase. by rewrite Hr, (rep_geo _ _ _ _ _ R). }
  split; [by exists G|]. apply (view_eq _ w' G); [done|done|]. by apply view_ok.
Qed.

Lemma trie_laws : @EngineLaws TrieCursor W (trie_engine geo) (trie_model geo names).
Proof.
  split.
  - exact trie_store_le_preorder.
  - intros c w w' (G & R & Hwf) Hle. pose proof (rep_mono _ _ _ _ _ _ R Hle) as R'.
    split; [by exists G|]. apply (view_eq c w' G); [done|done|]. by apply view_ok.
  - intros e He. apply (reads_lookup e (λ found, Ok match found with
      Some e => bool_decide (TrieLeaf.dots e ≠ ∅) | None => false end)); [done|].
    intros m found Hm _. eexists. split; [done|]. unfold ElementMap.contains, ElementMap.at_.
    rewrite Hm. by destruct found.
  - intros e He. apply (reads_lookup e (λ found, Ok match found with
      Some e => TrieLeaf.dots e | None => ∅ end)); [done|].
    intros m found Hm _. eexists. split; [done|]. unfold ElementMap.at_. rewrite Hm. by destruct found.
  - intros e He t w Ht. destruct (reads_lookup e (λ found, match found with
      Some e => st ← elementStateOfEntry e; Ok (Some st) | None => Ok None end)
      (λ m st, st = ElementMap.state_of m e) He) with t w as (t' & a & E & Hrest); [|done|].
    + intros m found Hm Hel. unfold ElementMap.state_of. rewrite Hm.
      destruct found as [ent|]; [|by eexists]. cbn. subst e. rewrite entry_state_ok by done. by eexists.
    + exists t', a. split; [|done]. rewrite <- E. cbn [eng_getElementState trie_engine].
      unfold ShadowTrieORSet.getElementState, getElementState, mbind, step_bind, lift.
      destruct (Helpers.validateElement e); [|done]. destruct (lookupEntry e (t, w)) as [s [[ent|]|]]; [|done..].
      by destruct (elementStateOfEntry ent).
  - exact scan_law.
  - exact scanElementStates_law.
  - intros e d He Hd. apply writes_trie. intros c w G R Hwf. by apply add_ok.
  - intros e ds He. apply writes_trie. intros c w G R Hwf. by apply removeElement_ok.
  - intros c w e (G & R & Hwf) [cl Hc]. apply (view_ok c w G R Hwf) in Hc as (p & es & Hp & Hc).
    pose proof (wf_leaf _ _ _ Hwf _ _ Hp) as Hl.
    apply cells_lookup in Hc as (ent & He & <- & _); [by apply (lf_named _ _ _ _ Hl)|].
    by apply (leaf_NoDup nb names (TrieGeometry.geo_width _ Hgeo) Hcf p).
  - intros c. cbn. unfold ShadowTrieORSet.dirtyPageCount, dirtyPageCount. lia.
  - intros c w Hc. destruct (flush_law c w Hc) as (w' & r & E & Hle & Hr & Ea & Hok & Hv).
    eexists w', r, _. by split_and!.
Qed.
End laws.
