(* ===== verification/TrieSession.v ===== *)
(** Sessions on stored tries: the reducer over trie engines, and what the roots
    of a closed session are worth. A list of pages with a codec and a hash for
    a few names make it run. *)
From S2P Require Export TrieEngine SessionJoin.
Import OpNormalizer JoinReducer PropValue SessionReducer.

Section durable.
Context `{Hash} `{CodecLaws} {W : Type} `{TrieStoreLaws W} (geo : TrieGeometry) (names : string → Prop).
Context (Hgeo : TrieGeometry.valid geo) (Hcf : collision_free (TrieGeometry.nibbleBits geo) names).

Lemma trie_durable : @DurableEngine TrieCursor W (trie_engine geo) (trie_model geo names).
Proof.
  intros c w c2 w2 r w' Hok E Hle. destruct (flush_law geo names Hgeo Hcf c w Hok)
    as (w1 & r1 & E1 & _ & _ & _ & Hok1 & Hv1).
  assert (((c2, w2), Ok r) = ((c, w1), Ok r1)) as [= -> -> ->].
  { etransitivity; [symmetry; exact E|exact E1]. }
  destruct (@eng_frame _ _ _ _ (trie_laws geo names Hgeo Hcf) _ _ w' Hok1 Hle) as [Hok' Hv'].
  split; [exact Hok'|]. etransitivity; [exact Hv'|exact Hv1].
Qed.
End durable.

(** ** Concrete stores *)
Module SampleStore.

Inductive page : Type := PLeaf (bytes : list N) | PBranch (children : TrieBranchEntries).

(** Pages in the order they were written; a handle names an index in unary. *)
Abbreviation store := (list page).
Fixpoint strokes (n : nat) : string := match n with O => "" | S n' => String "x" (strokes n') end.
Definition oid_at (i : nat) : string := String "o" (strokes i).
Definition page_at (w : store) (oid : string) : option page := w !! (String.length oid - 1)%nat.

#[export] Instance trie_store : TrieStore store := {|
  readLeaf := λ w oid, match page_at w oid with Some (PLeaf b) => Ok b | _ => Throw E_STORE_MISSING end;
  readBranch := λ w oid, match page_at w oid with Some (PBranch cs) => Ok cs | _ => Throw E_STORE_MISSING end;
  writeLeaf := λ b w, (w ++ [PLeaf b], Ok (oid_at (length w)));
  writeBranch := λ cs w, (w ++ [PBranch cs], Ok (oid_at (length w))) |}.

#[export] Instance trie_store_model : TrieStoreModel store := {|
  trie_store_le := prefix;
  leaf_page := λ w oid b, page_at w oid = Some (PLeaf b);
  branch_page := λ w oid cs, page_at w oid = Some (PBranch cs) |}.

Lemma length_strokes n : String.length (strokes n) = n.
Proof. induction n as [|n IH]; cbn; [done|]. by rewrite IH. Qed.

Lemma page_at_new w p : page_at (w ++ [p]) (oid_at (length w)) = Some p.
Proof.
  unfold page_at, oid_at. cbn. rewrite length_strokes, Nat.sub_0_r, lookup_app_r, Nat.sub_diag by done.
  done.
Qed.

Lemma page_at_mono w w' oid p : page_at w oid = Some p → w `prefix_of` w' → page_at w' oid = Some p.
Proof. intros Hp [l ->]. by apply lookup_app_l_Some. Qed.

#[export] Instance trie_store_laws : TrieStoreLaws store.
Proof.
  split.
  - split; [by intros w|]. intros w1 w2 w3 H12 H23. cbn in *. by transitivity w2.
  - intros w w' oid b. apply page_at_mono.
  - intros w w' oid cs. apply page_at_mono.
  - intros w oid b Hp. cbn in *. by rewrite Hp.
  - intros w oid cs Hp. cbn in *. by rewrite Hp.
  - intros w oid cs Hp. left. cbn in *. by rewrite Hp.
  - intros w b. eexists _, _. split; [reflexivity|]. split; [by exists [PLeaf b]|].
    split; [apply page_at_new|done].
  - intros w cs. eexists _, _. split; [reflexivity|]. split; [by exists [PBranch cs]|].
    split; [apply page_at_new|done].
Qed.

(** The pages of a store outlive it: nothing is dropped that a root keeps. *)
#[export] Instance workspace : Workspace store :=
  λ _ w, (w, Ok (Some (Witness Evictable Anchored RootSet))).

(** A codec of leaves: the bits of their countable encoding. *)
Abbreviation raw_entry := (list N * string * list string * list string)%type.

Fixpoint bits_of (p : positive) : list N :=
  match p with xH => [2%N] | xO p => 0%N :: bits_of p | xI p => 1%N :: bits_of p end.
Fixpoint of_bits (bs : list N) : option positive :=
  match bs with
  | [2%N] => Some xH
  | 0%N :: bs => xO <$> of_bits bs
  | 1%N :: bs => xI <$> of_bits bs
  | _ => None
  end.

Lemma of_bits_of p : of_bits (bits_of p) = Some p.
Proof.
  induction p as [p IH|p IH|]; cbn [bits_of of_bits]; [| |done]; rewrite IH; by destruct (bits_of p).
Qed.

Definition wire_entry (r : raw_entry) : TriePages.decoded :=
  let '(suffix, element, dots, dead) := r in
  DArr [DBytes suffix; DStr element; DArr (DStr <$> dots); DArr (DStr <$> dead)].

#[export] Instance codec : Codec := {|
  TriePages.encode := λ v, match TrieLeaf.isLeafWireFormat v with
    | Some (_, raws) => Ok (bits_of (countable.encode raws))
    | None => Throw (Err "Error" "")
    end;
  TriePages.decode := λ bs, match of_bits bs ≫= countable.decode (A:=list raw_entry) with
    | Some raws => Ok (DRec (<["version" := DNum TrieLeaf.TRIE_LEAF_WIRE_VERSION]>
                         {["entries" := DArr (wire_entry <$> raws)]}))
    | None => Throw (Err "Error" "")
    end |}.

Definition raw_of (e : TrieLeafEntry) : raw_entry :=
  (TrieLeaf.routeKeySuffix e, TrieLeaf.element e, base.elements (TrieLeaf.dots e),
   base.elements (TrieLeaf.tombstonedDots e)).

Lemma format_wire es :
  TrieLeaf.isLeafWireFormat (TrieLeaf.wire_of es) = Some (TrieLeaf.TRIE_LEAF_WIRE_VERSION, raw_of <$> es).
Proof.
  unfold TrieLeaf.isLeafWireFormat, TrieLeaf.wire_of.
  rewrite lookup_insert_eq, lookup_insert_ne, lookup_singleton_eq by done.
  assert (mapM TrieLeaf.isLeafWireEntry (TrieLeaf.entryToWire <$> es) = Some (raw_of <$> es)) as ->; [|done].
  apply mapM_Some. induction es as [|e es IH]; [constructor|]. constructor; [|done].
  unfold TrieLeaf.entryToWire, TrieLeaf.isLeafWireEntry. rewrite bool_decide_true by done.
  unfold TrieLeaf.isLeafWireEntryFields. cbn [lookup list_lookup]. by rewrite !isStringArray_strings.
Qed.

#[export] Instance codec_laws : CodecLaws.
Proof.
  intros es. exists (bits_of (countable.encode (raw_of <$> es))). unfold TriePages.encode, TriePages.decode, codec.
  rewrite format_wire. split; [done|]. split; [by destruct (countable.encode (raw_of <$> es))|].
  rewrite of_bits_of. cbn [mbind option_bind]. rewrite decode_encode.
  unfold TrieLeaf.wire_of. rewrite <- list_fmap_compose. do 4 f_equal.
Qed.
End SampleStore.

(** ** A hash without collisions on a few names *)
Module SampleNames.

(** The element itself, padded to the length of a key. *)
#[export] Instance hash : Hash := λ bs, take 32 (bs ++ replicate 32 0%N).

Definition known : list string := ["n"; "n1"; "n2"; "m"].
Definition names (e : string) : Prop := e ∈ known.

(** Sixteen children, and leaves of one entry. *)
Definition geometry : TrieGeometry := TrieGeometry.mk 16 4 1 0.

Lemma geometry_valid : TrieGeometry.valid geometry.
Proof. by apply (TrieGeometry.new_valid (JInt 16) (JInt 4) (JInt 1) (JInt 0)). Qed.

(** Checked name by name. *)
Definition no_collisionsb (nb : nat) (l : list string) : bool :=
  forallb (λ e, str_nonempty e && bool_decide (length (RouteKey.bytes (key_of_element e)) = 32%nat)) l
  && forallb (λ e, forallb (λ e', bool_decide (e = e') || negb (bool_decide (route nb e = route nb e'))) l) l.

Lemma no_collisionsb_sound nb l : no_collisionsb nb l = true → collision_free nb (λ e, e ∈ l).
Proof.
  unfold no_collisionsb. rewrite andb_true_iff, !forallb_forall. intros [Hk Hi].
  setoid_rewrite <- list_elem_of_In in Hk. setoid_rewrite <- list_elem_of_In in Hi.
  split.
  - intros e He. specialize (Hk e He). by apply andb_true_iff in Hk as [? _].
  - intros e He. specialize (Hk e He). by apply andb_true_iff in Hk as [_ ?%bool_decide_eq_true].
  - intros e e' He He' E. specialize (Hi e He). rewrite forallb_forall in Hi.
    specialize (Hi e' (proj1 (list_elem_of_In _ _) He')).
    rewrite (bool_decide_true (route nb e = route nb e')), orb_false_r in Hi by done.
    by apply bool_decide_eq_true in Hi.
Qed.

Lemma no_collisions : collision_free (TrieGeometry.nibbleBits geometry) names.
Proof. apply no_collisionsb_sound. vm_compute. reflexivity. Qed.
End SampleNames.

(** ** Properties *)


Section samples.
Import SampleStore SampleNames.

(** Two names that share their first two bytes but a nibble: adding the second
    splits the leaf of the first three times. *)
Definition sample_run : step (TrieCursor * store) FlushResult :=
  _ ← ShadowTrieORSet.add "n1" (Dot.mk "a" 1);
  _ ← ShadowTrieORSet.add "n2" (Dot.mk "a" 2);
  _ ← ShadowTrieORSet.add "m" (Dot.mk "b" 1);
  _ ← ShadowTrieORSet.removeElement "n1" {["a:1"]};
  ShadowTrieORSet.flush.
Definition sample_end : TrieCursor * store := (sample_run (TrieCursor.new None geometry, [])).1.

End samples.

(** C13. What a session wrote can be opened again. Over trie engines on a store
    that keeps its contract, from a frame that matches a state, the
    session-backed reducer returns on causally delivered patches, [close]
    returns two roots, and a session opened on those roots over any later state
    of the store opens and answers for every node and edge as the state that
    the in-memory reducer computes. *)
Theorem trie_session_durable `{Hash} `{CodecLaws} {W} `{TrieStoreLaws W} `{Workspace W}
    (geo : TrieGeometry) (names : string → Prop) (f g : string → string)
    (ps : list sha_patch) (ds : list State) (fr : @ReducerSessionFrame TrieCursor W) (s : State)
    (Hgeo : TrieGeometry.valid geo) (Hcf : collision_free (TrieGeometry.nibbleBits geo) names) :
  let ops := trie_engine geo in let model := trie_model geo names in
  frame_rel f g fr s → run_fits TrieCursor W f g (fheap fr) ps ds →
  run_holds causal_op ps s = true →
  ∃ fr' s' closing roots,
    reducePatchesInSession ps None fr = (fr', Ok SRFrame) ∧
    reducePatches ps (Some (inl s)) None = Ok (RState s') ∧
    StateSession.close (session fr') = (closing, Ok roots) ∧
    ∀ w, trie_store_le (StateSession.world closing) w →
      ∃ reopened, StateSession.open (CloseResult.nodeAliveRootOid roots)
          (CloseResult.edgeAliveRootOid roots) w false None = Ok reopened ∧
        (∀ n, names n → ∃ r', StateSession.nodeContains n reopened
           = (r', Ok (ORSet.contains (WarpState.nodeAlive s') n))) ∧
        (∀ k, names k → ∃ r', StateSession.edgeContains k reopened
           = (r', Ok (ORSet.contains (WarpState.edgeAlive s') k))).
Proof.
  exact (@run_survives_close _ _ _ _ (trie_laws geo names Hgeo Hcf)
    (trie_durable geo names Hgeo Hcf) _ f g ps ds fr s).
Qed.

Section sample_session.
Import SampleStore SampleNames.

(** A session on two empty tries that flushes at every second dirty page. *)
Definition trie_session : StateSession.StateSession TrieCursor store :=
  StateSession.mk (TrieCursor.new None geometry) (TrieCursor.new None geometry) [] true 2 false false false.
Definition trie_frame : @ReducerSessionFrame TrieCursor store :=
  Frame trie_session ∅ VersionVector.empty ∅ ∅.

Lemma trie_frame_rel :
  let ops := trie_engine geometry in let model := trie_model geometry names in
  frame_rel dot_owner (λ _, "") trie_frame bottom.
Proof.
  cbv zeta. pose proof (trie_laws (W:=store) geometry names geometry_valid no_collisions) as Hlaws.
  assert (∀ w, trie_ok geometry names (TrieCursor.new None geometry) w) as Hnew.
  { intros w. exists ∅. split; [by apply rep_new|apply wf_empty]. }
  apply (@empty_frame_rel _ _ _ _ Hlaws); [|done|done]. split; [apply Hnew|apply Hnew|done| |done].
  intros _ roots w. eexists _, _. split; [reflexivity|]. split; [|done]. by cbn.
Qed.

Lemma trie_session_durable_witness :
  let ops := trie_engine geometry in
  run_holds causal_op causal_patches bottom = true ∧
  ∃ fr' s' closing roots reopened r1 r2,
    reducePatchesInSession causal_patches None trie_frame = (fr', Ok SRFrame) ∧
    reducePatches causal_patches (Some (inl bottom)) None = Ok (RState s') ∧
    StateSession.close (session fr') = (closing, Ok roots) ∧
    StateSession.open (CloseResult.nodeAliveRootOid roots) (CloseResult.edgeAliveRootOid roots)
      (StateSession.world closing) false None = Ok reopened ∧
    StateSession.nodeContains "n1" reopened = (r1, Ok (ORSet.contains (WarpState.nodeAlive s') "n1")) ∧
    StateSession.nodeContains "n2" reopened = (r2, Ok (ORSet.contains (WarpState.nodeAlive s') "n2")) ∧
    ORSet.contains (WarpState.nodeAlive s') "n1" = false ∧
    ORSet.contains (WarpState.nodeAlive s') "n2" = true.
Proof.
  cbv zeta. split; [vm_compute; reflexivity|].
  destruct (trie_session_durable geometry names dot_owner (λ _, "") causal_patches causal_deltas
    trie_frame bottom geometry_valid no_collisions) as (fr' & s' & closing & roots & E & Es & Ec & Ho).
  - exact trie_frame_rel.
  - apply causal_fits_names; [by right; left|by do 2 right; left].
  - vm_compute; reflexivity.
  - destruct (Ho (StateSession.world closing) ltac:(done)) as (reopened & Eo & Hn & _).
    destruct (Hn "n1") as [r1 E1]; [by right; left|].
    destruct (Hn "n2") as [r2 E2]; [by do 2 right; left|].
    exists fr', s', closing, roots, reopened, r1, r2.
    split; [exact E|]. split; [exact Es|]. split; [exact Ec|]. split; [exact Eo|].
    split; [exact E1|]. split; [exact E2|].
    assert (reducePatches causal_patches (Some (inl bottom)) None = Ok (RState s')) as Es' by exact Es.
    vm_compute in Es'. injection Es' as <-. split; vm_compute; reflexivity.
Defined.
End sample_session.
