(* ===== verification/TrieFaults.v ===== *)
(** Behaviour outside the contract of the store: a flush that failed can be
    retried, a root that could not be read is forgotten, and compaction hides
    elements from lookups. *)
From S2P Require Export TrieSession.
Import OpNormalizer JoinReducer PropValue SessionReducer.

(** Preparing a flush does not touch the cursor, whatever the store does. *)
Lemma prepareFlush_frame `{Codec} {W} `{TrieStore W} (c c' : TrieCursor) (w w' : W) r :
  ShadowTrieORSet.prepareFlush (c, w) = ((c', w'), r) → c' = c.
Proof.
  unfold ShadowTrieORSet.prepareFlush. destruct (TrieCursor.snapshot c); [|by intros [= <- _ _]].
  destruct (TrieFlusher.flush _ w). by intros [= <- _ _].
Qed.

(** C26. A flush that failed can be retried. Whatever a faulty store did during
    [prepareFlush], as long as it lost no page, the engine still represents its
    map, and when the store works again the next [flush] returns a root that
    represents it. *)
Theorem failed_flush_retries `{Hash} `{CodecLaws} {W} (faulty lawful : TrieStore W)
    `{!TrieStoreModel W} `{!TrieStoreLaws W} (geo : TrieGeometry)
    (names : string → Prop) (c c1 : TrieCursor) (w w1 : W) err :
  TrieGeometry.valid geo → collision_free (TrieGeometry.nibbleBits geo) names →
  trie_ok geo names c w →
  @ShadowTrieORSet.prepareFlush _ W faulty (c, w) = ((c1, w1), Throw err) →
  trie_store_le w w1 →
  trie_view c1 w1 = trie_view c w ∧
  ∃ w2 r, ShadowTrieORSet.flush (c1, w1)
            = ((TrieCursor.new (FlushResult.rootOid r) geo, w2), Ok r) ∧
    trie_ok geo names (TrieCursor.new (FlushResult.rootOid r) geo) w2 ∧
    trie_view (TrieCursor.new (FlushResult.rootOid r) geo) w2 = trie_view c w.
Proof.
  intros Hgeo Hcf Hok Hf Hle. pose proof (trie_laws geo names Hgeo Hcf) as Hlaws.
  apply prepareFlush_frame in Hf as ->.
  destruct (@eng_frame _ _ _ _ Hlaws _ _ w1 Hok Hle) as [Hok1 Hv1]. split; [exact Hv1|].
  destruct (flush_law geo names Hgeo Hcf c w1 Hok1) as (w2 & r & E & _ & _ & Ea & Hok2 & Hv2).
  exists w2, r. split.
  { unfold ShadowTrieORSet.flush. rewrite (step_bind_ok _ _ _ _ _ E). unfold mbind, step_bind. by rewrite Ea. }
  split; [exact Hok2|]. etransitivity; [exact Hv2|exact Hv1].
Qed.

(** ** A root that cannot be read *)
Section root.
Import TrieCursor.
Context `{Hash} `{Codec} {W : Type} `{TrieStore W}.

Lemma unread_root_missing e c w :
  rootLoaded c = true → hasRoot c = false → str_nonempty e = true →
  contains e (c, w) = ((c, w), Ok false).
Proof.
  intros Hl Hr He. unfold contains, Helpers.validateElement. rewrite He. cbn [require].
  unfold lookupEntry, locateEntry, loadRootIfNeeded, asks, mbind, step_bind, lift, mret, step_ret.
  cbn -[hasRoot]. rewrite Hl. cbn -[hasRoot]. by rewrite Hr.
Qed.
End root.

(** C27. An unreadable root is forgotten: when reading the root page throws, the
    first lookup reports it, but the cursor counts its root as loaded from
    then on, so that every later lookup, over any store, answers that the
    element is absent, and the scans yield nothing. *)
Theorem unreadable_root_is_forgotten `{Hash} `{Codec} {W} `{TrieStore W} (geo : TrieGeometry)
    (oid e : string) (w : W) err :
  str_nonempty e = true → readBranch w oid = Throw err →
  ∃ c, ShadowTrieORSet.contains e (TrieCursor.new (Some oid) geo, w)
         = ((c, w), Throw (Helpers.wrapStoreError err)) ∧
    ∀ w', (∀ e', str_nonempty e' = true → ShadowTrieORSet.contains e' (c, w') = ((c, w'), Ok false)) ∧
      ShadowTrieORSet.scan (c, w') = ((c, w'), Ok []) ∧
      ShadowTrieORSet.scanElementStates (c, w') = ((c, w'), Ok []).
Proof.
  intros He Hr. exists (TrieCursor.set_rootLoaded (TrieCursor.new (Some oid) geo)). split.
  - unfold ShadowTrieORSet.contains, TrieCursor.contains, Helpers.validateElement. rewrite He.
    unfold TrieCursor.lookupEntry, TrieCursor.locateEntry, TrieCursor.loadRootIfNeeded.
    unfold TrieCursor.asks, TrieCursor.changes, TrieCursor.readBranchStrict, mbind, step_bind, lift.
    cbn. by rewrite Hr.
  - intros w'. split; [|by split]. intros e' He'. by apply unread_root_missing.
Qed.

(** ** Samples *)
Section samples.
Import SampleStore SampleNames.

(** The sample store, with its writes out of order. *)
Definition full_disk : TrieStore store := {|
  readLeaf := readLeaf; readBranch := readBranch;
  writeLeaf := writeLeaf;
  writeBranch := λ _ w, (w, Throw (Err "TrieStoreError" "E_TRIE_STORE_WRITE")) |}.

Definition changed_trie : TrieCursor :=
  (ShadowTrieORSet.add "n" (Dot.mk "a" 1) (TrieCursor.new None geometry, [] : store)).1.1.

Lemma failed_flush_retries_witness :
  let failed := @ShadowTrieORSet.prepareFlush _ store full_disk (changed_trie, []) in
  failed.2 = Throw TrieFlusher.E_FLUSH_STORE ∧ length failed.1.2 = 1%nat ∧
  ∃ w2 r, ShadowTrieORSet.flush failed.1 = ((TrieCursor.new (FlushResult.rootOid r) geometry, w2), Ok r) ∧
    trie_view (TrieCursor.new (FlushResult.rootOid r) geometry) w2 = trie_view changed_trie ([] : store).
Proof.
  cbv zeta. split; [vm_compute; reflexivity|]. split; [vm_compute; reflexivity|].
  destruct (@ShadowTrieORSet.prepareFlush _ store full_disk (changed_trie, [])) as [[c1 w1] r1] eqn:E.
  assert (r1 = Throw TrieFlusher.E_FLUSH_STORE) as ->.
  { etransitivity; [symmetry; exact (f_equal snd E)|vm_compute; reflexivity]. }
  destruct (failed_flush_retries full_disk trie_store geometry names changed_trie c1 [] w1
    TrieFlusher.E_FLUSH_STORE geometry_valid no_collisions) as (_ & w2 & r & Ef & _ & Hv).
  - destruct (eng_add_law (EngineLaws := trie_laws (W:=store) geometry names geometry_valid no_collisions)
      "n" (Dot.mk "a" 1)) with (TrieCursor.new None geometry) ([] : store) as (c & Ea & Hok & _).
    + by left.
    + split; [reflexivity|discriminate].
    + exists ∅. split; [by apply rep_new|apply wf_empty].
    + unfold changed_trie. change (ShadowTrieORSet.add "n") with (eng_add (Engine:=trie_engine geometry) "n").
      rewrite Ea. exact Hok.
  - exact E.
  - by apply prefix_nil.
  - exists w2, r. split; [exact Ef|exact Hv].
Defined.

Lemma unreadable_root_is_forgotten_witness :
  let stored := [PBranch {[6%N := "ox"]}] : store in
  readBranch stored "o" = Ok {[6%N := "ox"]} ∧
  ∃ c, ShadowTrieORSet.contains "n" (TrieCursor.new (Some "o") geometry, [])
         = ((c, []), Throw E_CURSOR_STORE) ∧
    ShadowTrieORSet.scan (c, stored) = ((c, stored), Ok []).
Proof.
  cbv zeta. split; [reflexivity|].
  destruct (unreadable_root_is_forgotten (W:=store) geometry "o" "n" [] E_STORE_MISSING)
    as (c & E & Hall); [reflexivity|reflexivity|].
  exists c. split; [exact E|]. apply (Hall [PBranch {[6%N := "ox"]}]).
Defined.

(** The default geometry. *)
Definition default_geometry : TrieGeometry := TrieGeometry.mk 16 4 64 16.

Definition two_elements : step (TrieCursor * store) unit :=
  _ ← ShadowTrieORSet.add "A" (Dot.mk "a" 1); ShadowTrieORSet.add "n" (Dot.mk "a" 2).
Definition compacted : TrieCursor * store :=
  ((_ ← two_elements; TrieCompactor.shadow_compact VersionVector.empty)
     (TrieCursor.new None default_geometry, [])).1.

End samples.
