(* ===== verification/GC.v ===== *)
(** Garbage collection of a state and of a session
    ([services/GCPolicy.ts], [GCShouldRunResult.ts], [GCMetrics.ts],
    [GCExecuteResult.ts], [executeGC.ts], [executeGCInSession.ts]). *)
From S2P Require Export WarpState Session.
From Stdlib Require Import QArith_base.
#[local] Open Scope Z_scope.
#[local] Open Scope list_scope.

(** ** The policy

    The thresholds and the ratio are exact rationals here; the doubles of the
    program round the ratio. *)
Module GCPolicy.

(* @src domain/services/GCPolicy.ts GCPolicyInput *)
Record GCPolicyInput := mkInput {
  tombstoneRatio : Q; totalEntries : Q; patchesSinceCompaction : Q; ticksSinceCompaction : Q }.

(* @src domain/services/GCPolicy.ts GCPolicy 44-61 *)
Record GCPolicy := mk {
  enabled : bool; tombstoneRatioThreshold : Q; entryCountThreshold : Q;
  minPatchesSinceCompaction : Q; maxTicksSinceCompaction : Q; compactOnCheckpoint : bool }.

(* @src domain/services/GCPolicy.ts DEFAULT 81-88 *)
Definition DEFAULT : GCPolicy := mk false (Qmake 3 10) (Qmake 50000 1) (Qmake 1000 1)
  (Qmake 10000 1) true.

(** The messages, by what they say. *)
Inductive reason : Type :=
  | RatioExceeds (ratio threshold : Q)
  | EntriesExceed (count threshold : Q)
  | PatchesExceed (count minimum : Q)
  | TicksExceed (count maximum : Q).

(* @src domain/services/GCShouldRunResult.ts GCShouldRunResult 10-25 *)
Record GCShouldRunResult := ShouldRun { shouldRun : bool; reasons : list reason }.

Definition result_of (reasons : list reason) : GCShouldRunResult :=
  ShouldRun (0 <? length reasons)%nat reasons.

Definition exceeds (value threshold : Q) : bool := negb (Qle_bool value threshold).

(* @src domain/services/GCPolicy.ts evaluate *)
Definition evaluate (p : GCPolicy) (input : GCPolicyInput) : GCShouldRunResult :=
  result_of (
    (if exceeds (tombstoneRatio input) (tombstoneRatioThreshold p)
     then [RatioExceeds (tombstoneRatio input) (tombstoneRatioThreshold p)] else []) ++
    (if exceeds (totalEntries input) (entryCountThreshold p)
     then [EntriesExceed (totalEntries input) (entryCountThreshold p)] else []) ++
    (if exceeds (patchesSinceCompaction input) (minPatchesSinceCompaction p)
     then [PatchesExceed (patchesSinceCompaction input) (minPatchesSinceCompaction p)] else []) ++
    (if exceeds (ticksSinceCompaction input) (maxTicksSinceCompaction p)
     then [TicksExceed (ticksSinceCompaction input) (maxTicksSinceCompaction p)] else [])).
End GCPolicy.

(** ** Metrics *)
Module GCMetrics.

(* @src domain/services/GCMetrics.ts GCMetrics 18-50 *)
Record GCMetrics := mk {
  nodeEntries : Z; edgeEntries : Z; totalEntries : Z;
  nodeTombstones : Z; edgeTombstones : Z; totalTombstones : Z;
  nodeLiveDots : Z; edgeLiveDots : Z; totalLiveDots : Z; tombstoneRatio : Q }.

(* @src domain/services/GCMetrics.ts constructor *)
Definition new (nodeEntries edgeEntries nodeTombstones edgeTombstones nodeLiveDots edgeLiveDots : Z)
  : GCMetrics :=
  let totalTombstones := nodeTombstones + edgeTombstones in
  let totalLiveDots := nodeLiveDots + edgeLiveDots in
  let denominator := totalTombstones + totalLiveDots in
  mk nodeEntries edgeEntries (nodeEntries + edgeEntries) nodeTombstones edgeTombstones totalTombstones
    nodeLiveDots edgeLiveDots totalLiveDots
    (if 0 <? denominator then Qmake totalTombstones (Z.to_pos denominator) else Qmake 0 1).

(* @src domain/services/GCMetrics.ts fromState *)
Definition fromState (state : WarpState.WarpState) : GCMetrics :=
  let nodeAlive := WarpState.nodeAlive state in
  let edgeAlive := WarpState.edgeAlive state in
  new (Z.of_nat (ORSet.countEntries nodeAlive)) (Z.of_nat (ORSet.countEntries edgeAlive))
    (Z.of_nat (ORSet.countTombstones nodeAlive)) (Z.of_nat (ORSet.countTombstones edgeAlive))
    (Z.of_nat (ORSet.countLiveDots nodeAlive)) (Z.of_nat (ORSet.countLiveDots edgeAlive)).

(* @src domain/services/GCMetrics.ts collectCounts 105-126 *)
Definition collectCounts (states : list ElementState) : Z * Z * Z :=
  let '(tombstones, liveDots) := foldl (λ '(tombstones, liveDots) state,
    (tombstones + Z.of_nat (size (ORSetElementState.tombstonedDots state)),
     liveDots + Z.of_nat (size (ORSetElementState.dots state)))) (0, 0) states in
  (liveDots + tombstones, tombstones, liveDots).

(* @src domain/services/GCMetrics.ts fromSession *)
Definition fromSession {T W} `{Engine T W} `{Workspace W}
  : step (StateSession.StateSession T W) GCMetrics :=
  nodeStates ← StateSession.scanNodeElementStates;
  edgeStates ← StateSession.scanEdgeElementStates;
  let '(nodeEntries, nodeTombstones, nodeLive) := collectCounts nodeStates in
  let '(edgeEntries, edgeTombstones, edgeLive) := collectCounts edgeStates in
  mret (new nodeEntries edgeEntries nodeTombstones edgeTombstones nodeLive edgeLive).
End GCMetrics.
Abbreviation GCMetrics := GCMetrics.GCMetrics.

(** ** Execution *)
Module GC.

Definition WarpError (code : string) : error := Err "WarpError" code.
Definition E_GC_INVALID_VV : error := WarpError "E_GC_INVALID_VV".
Definition E_GC_COMPACT_FAILED : error := WarpError "E_GC_COMPACT_FAILED".

(* @src domain/services/GCExecuteResult.ts GCExecuteResult 7-15 *)
Record GCExecuteResult := Result { nodesCompacted : Z; edgesCompacted : Z; tombstonesRemoved : Z }.

Definition with_sets (nodeAlive edgeAlive : ORSet.ORSet) (s : WarpState.WarpState) : WarpState.WarpState :=
  WarpState.mk nodeAlive edgeAlive (WarpState.prop s) (WarpState.observedFrontier s)
    (WarpState.edgeBirthEvent s).

(** [try { ... } catch { throw new WarpError(...) }] *)
Definition or_gc_failed {S A} (m : step S A) : step S A := λ s,
  match m s with
  | (s', Ok a) => (s', Ok a)
  | (s', Throw _) => (s', Throw E_GC_COMPACT_FAILED)
  end.

Definition on_node_set (m : step ORSet.ORSet unit) : step WarpState.WarpState unit := λ s,
  let '(nodes, r) := m (WarpState.nodeAlive s) in (with_sets nodes (WarpState.edgeAlive s) s, r).
Definition on_edge_set (m : step ORSet.ORSet unit) : step WarpState.WarpState unit := λ s,
  let '(edges, r) := m (WarpState.edgeAlive s) in (with_sets (WarpState.nodeAlive s) edges s, r).

(* @src domain/services/executeGC.ts compactORSets *)
Definition compactORSets (appliedVV : VersionVector.VersionVector) : step WarpState.WarpState unit :=
  or_gc_failed (_ ← on_node_set (ORSet.compact appliedVV); on_edge_set (ORSet.compact appliedVV)).

(** What a run did, from the metrics before and after. *)
Definition result_between (before after : GCMetrics) : GCExecuteResult :=
  Result (GCMetrics.nodeEntries before - GCMetrics.nodeEntries after)
    (GCMetrics.edgeEntries before - GCMetrics.edgeEntries after)
    (GCMetrics.totalTombstones before - GCMetrics.totalTombstones after).

(** [appliedVV] is [None] when it is no [VersionVector]. *)
(* @src domain/services/executeGC.ts executeGC *)
Definition executeGC (appliedVV : option VersionVector.VersionVector)
  : step WarpState.WarpState GCExecuteResult :=
  match appliedVV with
  | None => lift (Throw E_GC_INVALID_VV)
  | Some appliedVV =>
      s ← get;
      let beforeMetrics := GCMetrics.fromState s in
      _ ← compactORSets appliedVV;
      s' ← get;
      let afterMetrics := GCMetrics.fromState s' in
      mret (result_between beforeMetrics afterMetrics)
  end.

Section session.
Context {T W : Type} `{Engine T W} `{Workspace W}.

(* @src domain/services/executeGCInSession.ts validateAppliedVersionVector *)
Definition validateAppliedVersionVector (appliedVV : option VersionVector.VersionVector)
  : result VersionVector.VersionVector :=
  match appliedVV with Some vv => Ok vv | None => Throw E_GC_INVALID_VV end.

(** A closed session is reported as such, any other failure as a failed run. *)
(* @src domain/services/executeGCInSession.ts compactSession *)
Definition compactSession (appliedVV : VersionVector.VersionVector)
  : step (StateSession.StateSession T W) unit := λ s,
  match StateSession.compact appliedVV s with
  | (s', Ok _) => (s', Ok ())
  | (s', Throw e) =>
      (s', Throw (if bool_decide (err_code e = err_code E_SESSION_CLOSED) then e
                  else E_GC_COMPACT_FAILED))
  end.

(* @src domain/services/executeGCInSession.ts executeGCInSession *)
Definition executeGCInSession (appliedVV : option VersionVector.VersionVector)
  : step (StateSession.StateSession T W) GCExecuteResult :=
  vv ← lift (validateAppliedVersionVector appliedVV);
  beforeMetrics ← GCMetrics.fromSession;
  _ ← compactSession vv;
  afterMetrics ← GCMetrics.fromSession;
  mret (result_between beforeMetrics afterMetrics).
End session.
End GC.

(** ** Counting dots *)
Section counts.
Import ORSet.
Implicit Types s : ORSet.

Lemma foldl_count (f : gset string → nat) (l : list (string * gset string)) n :
  foldl (λ count '(_, dots), (count + f dots)%nat) n l = (n + sum_list (f ∘ snd <$> l))%nat.
Proof. revert n. induction l as [|[e ds] l IH]; intros n; csimpl; [lia|]. rewrite IH. simpl. lia. Qed.

Lemma length_filter_tag (P : string → Prop) `{∀ d, Decision (P d)} (e : string) (l : list string) :
  length (filter (λ ed, P ed.2) ((λ d, (e, d)) <$> l)) = length (filter P l).
Proof. induction l as [|d l IH]; csimpl; [done|]. rewrite !filter_cons. cbn. case_decide; cbn; by rewrite IH. Qed.

(** A count of dots is the length of a filter over all dots. *)
Lemma sum_over_filter (f : gset string → nat) (P : string → Prop) `{∀ d, Decision (P d)} s :
  (∀ ds, f ds = length (filter P (base.elements ds))) →
  sum_over f s = length (filter (λ ed, P ed.2) (tagged_dots s)).
Proof.
  intros Hf. unfold sum_over, tagged_dots. rewrite foldl_count. cbn.
  induction (map_to_list (entries s)) as [|[e ds] l IH]; [done|].
  rewrite fmap_cons, bind_cons, filter_app, length_app, length_filter_tag. cbn [sum_list list_fmap compose snd].
  rewrite Hf. f_equal. exact IH.
Qed.

Lemma size_filter (P : string → Prop) `{∀ d, Decision (P d)} (ds : gset string) :
  size (filter P ds) = length (filter P (base.elements ds)).
Proof.
  unfold size, set_size. cbn. apply Permutation_length, NoDup_Permutation.
  - apply NoDup_elements.
  - apply NoDup_filter, NoDup_elements.
  - intros d. by rewrite base.elem_of_elements, list_elem_of_filter, elem_of_filter, base.elem_of_elements.
Qed.

Lemma filter_length_split {A} (P : A → Prop) `{∀ x, Decision (P x)} (l : list A) :
  (length (filter P l) + length (filter (λ x, ¬ P x) l))%nat = length l.
Proof.
  induction l as [|x l IH]; [done|]. rewrite !filter_cons.
  destruct (decide (P x)) as [Hx|Hx]; [rewrite decide_False by tauto|rewrite decide_True by tauto]; cbn; lia.
Qed.

Lemma length_filter_true {A} (l : list A) : length (filter (λ _, True) l) = length l.
Proof. induction l as [|x l IH]; [done|]. rewrite filter_cons, decide_True by done. cbn. by rewrite IH. Qed.

Lemma countTombstones_length s :
  countTombstones s = length (filter (λ ed, isTombstoned s ed.2) (tagged_dots s)).
Proof. refine (sum_over_filter _ (λ d, isTombstoned s d) s _). intros ds. apply size_filter. Qed.

Lemma countLiveDots_length s :
  countLiveDots s = length (filter (λ ed, ¬ isTombstoned s ed.2) (tagged_dots s)).
Proof. refine (sum_over_filter _ (λ d, ¬ isTombstoned s d) s _). intros ds. apply size_filter. Qed.

Lemma countEntries_split s : countEntries s = (countTombstones s + countLiveDots s)%nat.
Proof.
  rewrite countTombstones_length, countLiveDots_length, filter_length_split. unfold countEntries.
  rewrite (sum_over_filter size (λ _, True)).
  - apply length_filter_true.
  - intros ds. symmetry. apply length_filter_true.
Qed.

Lemma tagged_NoDup s : NoDup (tagged_dots s).
Proof.
  apply NoDup_bind.
  - intros [e1 d1] [e2 d2] [e d] H1 H2 (? & [= -> ->] & _)%list_elem_of_fmap (? & [= -> ->] & _)%list_elem_of_fmap.
    apply elem_of_map_to_list in H1, H2. congruence.
  - intros [e ds] _. apply NoDup_fmap_2; [by intros d d' [= ->]|apply NoDup_elements].
  - apply NoDup_map_to_list.
Qed.

(** The dots that a compaction with [vv] removes. *)
Definition compactable_dots (vv : VersionVector.VersionVector) s : list (string * string) :=
  filter (λ ed, compactable s vv ed.2 = Ok true) (tagged_dots s).

(** A successful compaction keeps the live dots and removes the compactable. *)
Lemma compact_counts vv s s' :
  compact vv s = (s', Ok ()) →
  (∀ e, getDots s' e = getDots s e) ∧ countLiveDots s' = countLiveDots s ∧
  countTombstones s = (countTombstones s' + length (compactable_dots vv s))%nat.
Proof.
  intros [(e & [=] & _)|(_ & Hd & Ht)]%compact_spec.
  assert (∀ e d, (d ∈ dots_of s' e ∧ d ∉ tombstones s') ↔ (d ∈ dots_of s e ∧ d ∉ tombstones s)) as Hlive.
  { intros e d. rewrite Hd, Ht. split.
    - intros [[Hin Hnc] Hnt]. split; [done|]. naive_solver.
    - intros [Hin Hnt]. split_and!; [done| |naive_solver].
      intros Hcm%compactable_tombstoned. done. }
  assert (∀ s d, isTombstoned s d ↔ d ∈ tombstones s) as Hts
    by (intros s0 d; unfold isTombstoned; by rewrite bool_decide_spec).
  split; [intros e; apply set_eq; intros d; by rewrite !elem_of_getDots|].
  rewrite !countLiveDots_length, !countTombstones_length. unfold compactable_dots. split.
  - apply Permutation_length, NoDup_Permutation; [apply NoDup_filter, tagged_NoDup..|].
    intros [e d]. rewrite !list_elem_of_filter, !elem_of_tagged_dots. cbn. rewrite !Hts.
    specialize (Hlive e d). tauto.
  - rewrite <- length_app. apply Permutation_length, NoDup_Permutation.
    + apply NoDup_filter, tagged_NoDup.
    + apply NoDup_app. split; [apply NoDup_filter, tagged_NoDup|]. split; [|apply NoDup_filter, tagged_NoDup].
      intros [e d]. rewrite !list_elem_of_filter, !elem_of_tagged_dots. cbn. rewrite Hd. tauto.
    + intros [e d]. rewrite elem_of_app, !list_elem_of_filter, !elem_of_tagged_dots. cbn. rewrite !Hts, Hd, Ht.
      destruct (decide (compactable s vv d = Ok true)) as [Hc|Hc]; [|naive_solver].
      apply compactable_tombstoned in Hc as Hin. naive_solver.
Qed.
End counts.

(** ** Totality *)
Section total.
Import ORSet.
Implicit Types s : ORSet.

(** Every dot that an entry carries decodes. *)
Definition decodable s : Prop := ∀ e d, d ∈ dots_of s e → ∃ dot, Dot.decode d = Ok dot.

Lemma collect_dots_total s vv l :
  (∀ e d, (e, d) ∈ l → ∃ dot, Dot.decode d = Ok dot) ↔ ∃ del, collect_dots s vv l = Ok del.
Proof.
  induction l as [|[e d] l IH]; cbn [collect_dots].
  - split; [by eexists|]. by intros _ ? ? ?%elem_of_nil.
  - split.
    + intros Hl. destruct (Hl e d) as [dot Hdot]; [by left|].
      destruct (proj1 IH) as [del E]; [intros e' d' ?; apply (Hl e'); by right|].
      unfold compactable. rewrite Hdot. cbn. rewrite E. by eexists.
    + intros (del & (b & Hb & (rest & Hr & _)%bind_ok)%bind_ok) e' d' [[= -> ->]|Hin]%elem_of_cons.
      * unfold compactable in Hb. apply bind_ok in Hb as (dot & ? & _). by exists dot.
      * by apply (proj2 IH (ex_intro _ rest Hr) e').
Qed.

Lemma compact_total vv s :
  (decodable s ∧ ∃ s', compact vv s = (s', Ok ())) ∨ (¬ decodable s ∧ ∃ e, compact vv s = (s, Throw e)).
Proof.
  assert (decodable s ↔ ∃ del, collect_dots s vv (tagged_dots s) = Ok del) as Hd.
  { rewrite <- collect_dots_total. unfold decodable. by setoid_rewrite elem_of_tagged_dots. }
  unfold compact, collectCompactableDots. destruct (collect_dots s vv (tagged_dots s)) as [del|e].
  - left. split; [apply Hd; by exists del|by eexists].
  - right. split; [intros [del [=]]%Hd|by eexists].
Qed.

(** [decodable], checked dot by dot. *)
Definition decodableb s : bool :=
  forallb (λ ed, match Dot.decode ed.2 with Ok _ => true | Throw _ => false end) (tagged_dots s).

Lemma decodableb_sound s : decodableb s = true → decodable s.
Proof.
  unfold decodableb. rewrite forallb_forall. intros Hs e d Hd%elem_of_tagged_dots%list_elem_of_In.
  specialize (Hs _ Hd). cbn in Hs. destruct (Dot.decode d) as [dot|]; [by exists dot|done].
Qed.

(** A second compaction finds nothing. *)
Lemma compact_again vv s s' : compact vv s = (s', Ok ()) → compact vv s' = (s', Ok ()).
Proof.
  intros Hc. destruct (compact_total vv s) as [[Hdec _]|[_ [e E]]]; [|congruence].
  apply compact_spec in Hc as [(e & [=] & _)|(_ & Hd & Ht)].
  destruct (compact_total vv s') as [[_ [s2 E2]]|[Hn _]].
  2: { destruct Hn. intros e d [Hin _]%Hd. by apply (Hdec e). }
  rewrite E2. f_equal. unfold compact, collectCompactableDots in E2.
  destruct (collect_dots s' vv (tagged_dots s')) as [del|] eqn:E; [|done]. injection E2 as <-.
  pose proof (collect_dots_ok _ _ _ _ E) as Hdel. destruct del as [|[e d] del]; [done|].
  destruct (proj1 (Hdel e d)) as [Hin Hcm]; [by left|]. apply elem_of_tagged_dots in Hin.
  apply Hd in Hin as [Hin Hnc]. destruct Hnc. unfold compactable in *. apply bind_ok in Hcm as (dot & Ed & [= Hb]).
  rewrite Ed. cbn. apply andb_true_iff in Hb as [Hts Hvv]. rewrite Hvv, andb_true_r.
  apply bool_decide_eq_true in Hts. apply Ht in Hts as [Hts _].
  f_equal. by apply bool_decide_eq_true.
Qed.
Lemma compacted_nothing_left vv s s' : compact vv s = (s', Ok ()) → compactable_dots vv s' = [].
Proof.
  intros Hc%compact_again. apply compact_counts in Hc as (_ & _ & Hn).
  apply length_zero_iff_nil. lia.
Qed.
End total.

(** ** Properties *)
Section properties.
Import GC.
Implicit Types s : WarpState.WarpState.

(** Same live dots, and everything that is not a set is the same. *)
Record same_visible s s' : Prop := {
  sv_nodes : ∀ n, ORSet.getDots (WarpState.nodeAlive s') n = ORSet.getDots (WarpState.nodeAlive s) n;
  sv_edges : ∀ k, ORSet.getDots (WarpState.edgeAlive s') k = ORSet.getDots (WarpState.edgeAlive s) k;
  sv_prop : WarpState.prop s' = WarpState.prop s;
  sv_frontier : WarpState.observedFrontier s' = WarpState.observedFrontier s;
  sv_births : WarpState.edgeBirthEvent s' = WarpState.edgeBirthEvent s }.

Lemma executeGC_run vv s nodes edges :
  ORSet.compact vv (WarpState.nodeAlive s) = (nodes, Ok ()) →
  ORSet.compact vv (WarpState.edgeAlive s) = (edges, Ok ()) →
  let n := Z.of_nat (length (compactable_dots vv (WarpState.nodeAlive s))) in
  let k := Z.of_nat (length (compactable_dots vv (WarpState.edgeAlive s))) in
  executeGC (Some vv) s = (with_sets nodes edges s, Ok (Result n k (n + k))).
Proof.
  intros Hn He n k. unfold executeGC, compactORSets, or_gc_failed, on_node_set, on_edge_set, get, mbind, step_bind.
  rewrite Hn. cbn [with_sets WarpState.nodeAlive WarpState.edgeAlive]. rewrite He.
  unfold mret, step_ret. do 2 f_equal. unfold result_between, GCMetrics.fromState, GCMetrics.new.
  apply compact_counts in Hn as (_ & Ln & Tn), He as (_ & Le & Te).
  cbn -[ORSet.countEntries ORSet.countTombstones ORSet.countLiveDots]. rewrite !countEntries_split.
  fold n k in Tn, Te |- *. f_equal; lia.
Qed.

(** Garbage collection of a state reports what it removes and changes
    nothing visible. If every carried dot decodes, [executeGC] returns: every
    node and edge keeps its live dots, registers, frontier and births stay, the
    counters are the numbers of tombstoned dots that the vector covers,
    [tombstonesRemoved] is their sum, and a second run removes nothing. A
    malformed node dot makes it throw before anything changes; a malformed edge
    dot makes it throw after the nodes were compacted. *)
Theorem gc_reports_what_it_removes (vv : VersionVector.VersionVector) s :
  (decodable (WarpState.nodeAlive s) → decodable (WarpState.edgeAlive s) →
    let n := Z.of_nat (length (compactable_dots vv (WarpState.nodeAlive s))) in
    let k := Z.of_nat (length (compactable_dots vv (WarpState.edgeAlive s))) in
    ∃ s', executeGC (Some vv) s = (s', Ok (Result n k (n + k))) ∧ same_visible s s' ∧
      executeGC (Some vv) s' = (s', Ok (Result 0 0 0))) ∧
  (¬ decodable (WarpState.nodeAlive s) →
    executeGC (Some vv) s = (s, Throw E_GC_COMPACT_FAILED)) ∧
  (decodable (WarpState.nodeAlive s) → ¬ decodable (WarpState.edgeAlive s) →
    ∃ s', executeGC (Some vv) s = (s', Throw E_GC_COMPACT_FAILED) ∧ same_visible s s' ∧
      WarpState.edgeAlive s' = WarpState.edgeAlive s ∧
      compactable_dots vv (WarpState.nodeAlive s') = []).
Proof.
  assert (∀ t nodes, ORSet.compact vv t = (nodes, Ok ()) → ∀ e, ORSet.getDots nodes e = ORSet.getDots t e) as Hlive.
  { intros t nodes Hc. by apply compact_counts in Hc as (? & _). }
  destruct (compact_total vv (WarpState.nodeAlive s)) as [[Dn [nodes Hn]]|[Dn [en Hn]]];
    destruct (compact_total vv (WarpState.edgeAlive s)) as [[De [edges He]]|[De [ee He]]].
  all: (split; [|split]); intros Hdn; try done.
  - intros _ n k. exists (with_sets nodes edges s). split; [by apply executeGC_run|]. split.
    { split; cbn; [by apply Hlive|by apply Hlive|done..]. }
    rewrite (executeGC_run vv (with_sets nodes edges s) nodes edges) by by eapply compact_again.
    cbn. by rewrite (compacted_nothing_left _ _ _ Hn), (compacted_nothing_left _ _ _ He).
  - intros _. exists (with_sets nodes (WarpState.edgeAlive s) s). split.
    { unfold executeGC, compactORSets, or_gc_failed, on_node_set, on_edge_set, get, mbind, step_bind.
      rewrite Hn. cbn [with_sets WarpState.nodeAlive WarpState.edgeAlive]. by rewrite He. }
    split; [split; cbn; [by apply Hlive|done..]|]. split; [done|]. by eapply compacted_nothing_left.
  - unfold executeGC, compactORSets, or_gc_failed, on_node_set, on_edge_set, get, mbind, step_bind.
    rewrite Hn. by destruct s.
  - unfold executeGC, compactORSets, or_gc_failed, on_node_set, on_edge_set, get, mbind, step_bind.
    rewrite Hn. by destruct s.
Qed.

Definition gc_state : WarpState.WarpState :=
  WarpState.mk (ORSet.mk {["n" := {["a:1"; "b:2"]}]} {["a:1"; "z:9"]})
    (ORSet.mk {["e" := {["a:2"]}]} {["a:2"]}) ∅ VersionVector.empty ∅.

Lemma gc_reports_what_it_removes_witness :
  ∃ s', executeGC (Some (vv_of [("a", 2)])) gc_state = (s', Ok (Result 1 1 2)) ∧
    ORSet.getDots (WarpState.nodeAlive s') "n" = {["b:2"]}.
Proof.
  destruct (gc_reports_what_it_removes (vv_of [("a", 2)]) gc_state) as [Hok _].
  destruct Hok as (s' & E & [Hn _] & _).
  - apply decodableb_sound. vm_compute. reflexivity.
  - apply decodableb_sound. vm_compute. reflexivity.
  - exists s'. split; [exact E|]. etransitivity; [apply Hn|]. apply (bool_decide_unpack _). vm_compute. exact I.
Defined.
End properties.
