(* ===== verification/StateDiff.v ===== *)
(** What changed between two states ([services/state/StateDiff.ts],
    [StateDiffOrdering.ts], [StateDiffValueEquality.ts]).

    The values of the two states live on one heap and are compared part by
    part. The comparison has no guard against cycles: it is run on the values
    that [isPropValue] accepts, which are trees no higher than the heap is
    large, so one more than its size is enough fuel. *)
From S2P Require Export WarpState.
#[local] Open Scope Z_scope.
#[local] Open Scope list_scope.

(** ** Orders *)
Module StateDiffOrdering.

(* @src domain/services/state/StateDiffOrdering.ts compareText *)
Definition compareText (left right : string) : Z :=
  if str_ltb left right then -1 else if str_ltb right left then 1 else 0.

(** [a || b] on numbers. *)
Definition or_else (a b : Z) : Z := if a =? 0 then b else a.

(* @src domain/services/state/StateDiffOrdering.ts compareEdgeChanges *)
Definition compareEdgeChanges (left right : edge_parts) : Z :=
  or_else (compareText (ep_from left) (ep_from right))
    (or_else (compareText (ep_to left) (ep_to right))
       (compareText (ep_label left) (ep_label right))).

(** On anything with a [key]. *)
(* @src domain/services/state/StateDiffOrdering.ts comparePropChanges *)
Definition comparePropChanges {A} (key : A → string) (left right : A) : Z :=
  compareText (key left) (key right).
End StateDiffOrdering.

(** ** Equality of values *)
Module StateDiffValueEquality.
Import PropValue.

(* @src domain/services/state/StateDiffValueEquality.ts isNonNullObject *)
Definition isNonNullObject (value : jsval) : bool :=
  match value with JRef _ => true | _ => false end.

(* @src domain/services/state/StateDiffValueEquality.ts isPlainRecord *)
Definition isPlainRecord (value : obj) : bool :=
  match value with OPlain _ => true | _ => false end.

(** [Object.keys] and the values of a plain object. *)
Definition fields_of (value : obj) : list (string * jsval) :=
  match value with OPlain fields => fields | _ => [] end.
Definition is_bytes (value : obj) : bool := match value with OBytes _ => true | _ => false end.
Definition is_array (value : obj) : bool := match value with OArray _ => true | _ => false end.

(* @src domain/services/state/StateDiffValueEquality.ts stateDiffBytesEqual *)
Definition stateDiffBytesEqual (left right : list Z) : bool :=
  (length left =? length right)%nat && forallb (λ '(x, y), x =? y) (zip left right).

(* @src domain/services/state/StateDiffValueEquality.ts stateDiffByteObjectsEqual *)
Definition stateDiffByteObjectsEqual (left right : obj) : bool :=
  match left, right with
  | OBytes ls, OBytes rs => stateDiffBytesEqual ls rs
  | _, _ => false
  end.

(** [rec] is the recursive call, [None] when it runs out of fuel. *)
Section parts.
Context (rec : jsval → jsval → option bool).

(* @src domain/services/state/StateDiffValueEquality.ts stateDiffArraysEqual *)
Definition stateDiffArraysEqual (left right : list jsval) : option bool :=
  if negb (length left =? length right)%nat then Some false
  else every_opt (λ '(x, y), rec x y) (zip left right).

(* @src domain/services/state/StateDiffValueEquality.ts stateDiffRecordsEqual *)
Definition stateDiffRecordsEqual (left right : list (string * jsval)) : option bool :=
  let leftKeys := left.*1 in
  let rightKeys := right.*1 in
  if negb (length leftKeys =? length rightKeys)%nat then Some false
  else every_opt (λ key,
    match ordmap_get key right with
    | None => Some false
    | Some theirs => rec (default JUndefined (ordmap_get key left)) theirs
    end) leftKeys.

(* @src domain/services/state/StateDiffValueEquality.ts stateDiffArrayObjectsEqual *)
Definition stateDiffArrayObjectsEqual (left right : obj) : option bool :=
  match left, right with
  | OArray ls, OArray rs => stateDiffArraysEqual ls rs
  | _, _ => Some false
  end.

(* @src domain/services/state/StateDiffValueEquality.ts stateDiffPlainObjectsEqual *)
Definition stateDiffPlainObjectsEqual (left right : obj) : option bool :=
  if negb (isPlainRecord left) || negb (isPlainRecord right) then Some false
  else stateDiffRecordsEqual (fields_of left) (fields_of right).

(* @src domain/services/state/StateDiffValueEquality.ts stateDiffObjectsEqual *)
Definition stateDiffObjectsEqual (left right : obj) : option bool :=
  if is_bytes left || is_bytes right then Some (stateDiffByteObjectsEqual left right)
  else if is_array left || is_array right then stateDiffArrayObjectsEqual left right
  else stateDiffPlainObjectsEqual left right.
End parts.

(* @src domain/services/state/StateDiffValueEquality.ts stateDiffValuesEqual *)
Fixpoint stateDiffValuesEqual (fuel : nat) (h : heap) (left right : jsval) : option bool :=
  match fuel with
  | O => None
  | S fuel' =>
    if js_strict_eq left right then Some true
    else if negb (isNonNullObject left) || negb (isNonNullObject right) then Some false
    else match deref h left, deref h right with
         | Some l, Some r => stateDiffObjectsEqual (stateDiffValuesEqual fuel' h) l r
         | _, _ => Some false
         end
  end.

Definition values_equal (h : heap) (left right : jsval) : option bool :=
  stateDiffValuesEqual (S (size h)) h left right.
End StateDiffValueEquality.

(** ** The diff *)
Module StateDiff.
Import StateDiffOrdering StateDiffValueEquality WarpState.

(* @src domain/services/state/StateDiff.ts PropSet *)
Record PropSet := mkSet {
  set_key : string; set_nodeId : string; set_propKey : string;
  set_oldValue : jsval; set_newValue : jsval }.

(* @src domain/services/state/StateDiff.ts PropRemoved *)
Record PropRemoved := mkRemoved {
  removed_key : string; removed_nodeId : string; removed_propKey : string;
  removed_oldValue : jsval }.

(** The constructor only copies and freezes. *)
(* @src domain/services/state/StateDiff.ts StateDiffResult *)
Record StateDiffResult := mkResult {
  nodes_added : list string; nodes_removed : list string;
  edges_added : list edge_parts; edges_removed : list edge_parts;
  props_set : list PropSet; props_removed : list PropRemoved }.

(* @src domain/services/state/StateDiff.ts setAdded *)
Definition setAdded (before after : gset string) : list string :=
  filter (λ item, item ∉ before) (base.elements after).

Definition node_set (s : WarpState) : gset string := list_to_set (ORSet.elements (nodeAlive s)).

(** The alive edges with alive endpoints. *)
Definition edge_set (nodes : gset string) (s : WarpState) : gset string :=
  list_to_set (filter (λ edgeKey,
    let edge := decodeEdgeKey edgeKey in ep_from edge ∈ nodes ∧ ep_to edge ∈ nodes)
    (ORSet.elements (edgeAlive s))).

Definition before_nodes (before : option WarpState) : gset string :=
  match before with Some s => node_set s | None => ∅ end.
Definition before_edges (before : option WarpState) : gset string :=
  match before with Some s => edge_set (node_set s) s | None => ∅ end.

(* @src domain/services/state/StateDiff.ts diffNodesAndEdges *)
Definition diffNodesAndEdges (before : option WarpState) (after : WarpState)
  : (list string * list string) * (list edge_parts * list edge_parts) :=
  let beforeNodes := before_nodes before in
  let afterNodes := node_set after in
  let beforeEdges := before_edges before in
  let afterEdges := edge_set afterNodes after in
  ((setAdded beforeNodes afterNodes, setAdded afterNodes beforeNodes),
   (decodeEdgeKey <$> setAdded beforeEdges afterEdges,
    decodeEdgeKey <$> setAdded afterEdges beforeEdges)).

(** A change is a [PropSet] or a [PropRemoved]; the program tells them apart by
    the field [newValue]. *)
Section classify.
Context (h : heap) (key nodeId propKey : string).

(* @src domain/services/state/StateDiff.ts classifyPropAddition *)
Definition classifyPropAddition (beforeReg afterReg : option register) : option PropSet :=
  match afterReg, beforeReg with
  | Some afterReg, None => Some (mkSet key nodeId propKey JUndefined (LWW.value afterReg))
  | _, _ => None
  end.

(* @src domain/services/state/StateDiff.ts classifyPropRemoval *)
Definition classifyPropRemoval (beforeReg afterReg : option register) : option PropRemoved :=
  match afterReg, beforeReg with
  | None, Some beforeReg => Some (mkRemoved key nodeId propKey (LWW.value beforeReg))
  | _, _ => None
  end.

(** The outer option is the fuel of the comparison. *)
(* @src domain/services/state/StateDiff.ts classifyPropUpdate *)
Definition classifyPropUpdate (beforeReg afterReg : register) : option (option PropSet) :=
  let beforeValue := LWW.value beforeReg in
  let afterValue := LWW.value afterReg in
  equal ← values_equal h beforeValue afterValue;
  Some (if negb equal then Some (mkSet key nodeId propKey beforeValue afterValue) else None).

(* @src domain/services/state/StateDiff.ts classifyPropUpdateIfComplete *)
Definition classifyPropUpdateIfComplete (beforeReg afterReg : option register)
  : option (option PropSet) :=
  match beforeReg, afterReg with
  | Some beforeReg, Some afterReg => classifyPropUpdate beforeReg afterReg
  | _, _ => Some None
  end.
End classify.

(* @src domain/services/state/StateDiff.ts classifyPropChange *)
Definition classifyPropChange (h : heap) (key : string) (beforeProps afterProps : gmap string register)
  : option (option (PropSet + PropRemoved)) :=
  let beforeReg := beforeProps !! key in
  let afterReg := afterProps !! key in
  let '(nodeId, propKey) := decodePropKey key in
  match classifyPropAddition key nodeId propKey beforeReg afterReg with
  | Some addition => Some (Some (inl addition))
  | None =>
    match classifyPropRemoval key nodeId propKey beforeReg afterReg with
    | Some removal => Some (Some (inr removal))
    | None =>
      match classifyPropUpdateIfComplete h key nodeId propKey beforeReg afterReg with
      | Some update => Some (option_map inl update)
      | None => None
      end
    end
  end.

Definition changes : Type := list PropSet * list PropRemoved.

(* @src domain/services/state/StateDiff.ts accumulatePropChange *)
Definition accumulatePropChange (h : heap) (beforeProps afterProps : gmap string register)
  (key : string) (ctx : changes) : option changes :=
  change ← classifyPropChange h key beforeProps afterProps;
  Some (match change with
        | None => ctx
        | Some (inl set) => (ctx.1 ++ [set], ctx.2)
        | Some (inr removed) => (ctx.1, ctx.2 ++ [removed])
        end).

Definition prop_map (s : WarpState) : gmap string register :=
  list_to_map (allPropEntriesFromState (inl s)).
Definition before_props (before : option WarpState) : gmap string register :=
  match before with Some s => prop_map s | None => ∅ end.

Fixpoint diff_keys (h : heap) (beforeProps afterProps : gmap string register)
  (keys : list string) (ctx : changes) : option changes :=
  match keys with
  | [] => Some ctx
  | key :: keys' =>
    ctx' ← (if isEdgePropKey key then Some ctx
            else accumulatePropChange h beforeProps afterProps key ctx);
    diff_keys h beforeProps afterProps keys' ctx'
  end.

(* @src domain/services/state/StateDiff.ts diffProps *)
Definition diffProps (h : heap) (before : option WarpState) (after : WarpState) : option changes :=
  let beforeProps := before_props before in
  let afterProps := prop_map after in
  let allPropKeys : gset string := dom beforeProps ∪ dom afterProps in
  diff_keys h beforeProps afterProps (base.elements allPropKeys) ([], []).

(* @src domain/services/state/StateDiff.ts diffStates *)
Definition diffStates (h : heap) (before : option WarpState) (after : WarpState)
  : option StateDiffResult :=
  let '((nodesAdded, nodesRemoved), (edgesAdded, edgesRemoved)) := diffNodesAndEdges before after in
  '(propsSet, propsRemoved) ← diffProps h before after;
  Some (mkResult (js_sort compareStrings nodesAdded) (js_sort compareStrings nodesRemoved)
    (js_sort compareEdgeChanges edgesAdded) (js_sort compareEdgeChanges edgesRemoved)
    (js_sort (comparePropChanges set_key) propsSet)
    (js_sort (comparePropChanges removed_key) propsRemoved)).

(* @src domain/services/state/StateDiff.ts isEmptyPair *)
Definition isEmptyPair {A} (added removed : list A) : bool :=
  (length added =? 0)%nat && (length removed =? 0)%nat.

(* @src domain/services/state/StateDiff.ts isEmptySetRemoved *)
Definition isEmptySetRemoved {A B} (set : list A) (removed : list B) : bool :=
  (length set =? 0)%nat && (length removed =? 0)%nat.

(* @src domain/services/state/StateDiff.ts isEmptyDiff *)
Definition isEmptyDiff (diff : StateDiffResult) : bool :=
  isEmptyPair (nodes_added diff) (nodes_removed diff) &&
  isEmptyPair (edges_added diff) (edges_removed diff) &&
  isEmptySetRemoved (props_set diff) (props_removed diff).

(* @src domain/services/state/StateDiff.ts createEmptyDiff *)
Definition createEmptyDiff : StateDiffResult := mkResult [] [] [] [] [] [].
End StateDiff.
Abbreviation StateDiffResult := StateDiff.StateDiffResult.

(** ** What equality of values means

    Two values are the same when they unfold to the same tree; the order of the
    keys of an object does not count, and [NaN] is not the same as itself. *)
Section same_value.
Context (h : heap).
Import PropValue StateDiffValueEquality.

Inductive same_value : jsval → jsval → Prop :=
  | same_scalar v : isNonNullObject v = false → js_strict_eq v v = true → same_value v v
  | same_bytes a b bs :
    h !! a = Some (OBytes bs) → h !! b = Some (OBytes bs) → same_value (JRef a) (JRef b)
  | same_array a b xs ys :
    h !! a = Some (OArray xs) → h !! b = Some (OArray ys) →
    Forall2 same_value xs ys → same_value (JRef a) (JRef b)
  | same_record a b fs gs :
    h !! a = Some (OPlain fs) → h !! b = Some (OPlain gs) →
    (∀ k, option_Forall2 same_value (ordmap_get k fs) (ordmap_get k gs)) →
    same_value (JRef a) (JRef b).

(** The keys of an object are distinct. *)
Definition unique_keys : Prop := ∀ a fs, h !! a = Some (OPlain fs) → NoDup fs.*1.

(** The values inside a value. *)
Inductive inside : jsval → jsval → Prop :=
  | inside_refl v : inside v v
  | inside_item a xs x v : h !! a = Some (OArray xs) → x ∈ xs → inside x v → inside (JRef a) v
  | inside_field a fs k x v :
    h !! a = Some (OPlain fs) → (k, x) ∈ fs → inside x v → inside (JRef a) v.

Definition nan_free (v : jsval) : Prop := ¬ inside v (JNum JNaN).

(** Property values without [NaN]. *)
Definition plain_value (v : jsval) : Prop := is_tree h v ∧ nan_free v.

Lemma tree_height v : is_tree h v → prop_tree h (S (size h)) v.
Proof.
  intros Ht. destruct (check_total (S (size h)) h ∅ v) as [b Hb].
  { rewrite difference_empty_L, size_dom. lia. }
  destruct Ht as [n Ht]. apply (check_sound _ _ ∅). rewrite Hb.
  pose proof (check_mono _ (max n (S (size h))) h ∅ v b Hb ltac:(lia)) as Hm.
  rewrite (check_complete (max n (S (size h))) h ∅ n v Ht) in Hm by (set_solver || lia). by rewrite Hm.
Qed.

Lemma nan_free_item a xs x : h !! a = Some (OArray xs) → x ∈ xs → nan_free (JRef a) → nan_free x.
Proof. intros Ha Hx Hn Hi. apply Hn. by apply (inside_item a xs x). Qed.

Lemma nan_free_field a fs k x : h !! a = Some (OPlain fs) → (k, x) ∈ fs → nan_free (JRef a) → nan_free x.
Proof. intros Ha Hx Hn Hi. apply Hn. by apply (inside_field a fs k x). Qed.

Lemma ordmap_get_mem {V} k (v : V) l : ordmap_get k l = Some v → (k, v) ∈ l.
Proof.
  induction l as [|[k' v'] l IH]; simpl; [done|]. case_decide; subst; [intros [= ->]; by left|].
  intros ?. right. auto.
Qed.

Lemma ordmap_get_NoDup {V} k (v : V) l : NoDup l.*1 → (k, v) ∈ l → ordmap_get k l = Some v.
Proof.
  induction l as [|[k' v'] l IH]; csimpl; [by intros _ ?%elem_of_nil|].
  intros [Hni Hnd]%NoDup_cons [[= -> ->]|Hin]%elem_of_cons; [by rewrite decide_True|].
  rewrite decide_False; [auto|]. intros ->. apply Hni. by apply (list_elem_of_fmap_2' fst _ (k', v)).
Qed.

Lemma ordmap_get_key {V} k (l : list (string * V)) : k ∈ l.*1 ↔ is_Some (ordmap_get k l).
Proof.
  induction l as [|[k' v'] l IH]; csimpl.
  - rewrite elem_of_nil, is_Some_alt. done.
  - rewrite elem_of_cons, IH. case_decide; [subst; naive_solver|]. naive_solver.
Qed.

Lemma Forall2_elem_impl {A B} (P Q : A → B → Prop) l k :
  Forall2 P l k → (∀ x y, x ∈ l → P x y → Q x y) → Forall2 Q l k.
Proof. induction 1 as [|x y l k Hxy Hl IH]; intros HPQ; constructor; [apply HPQ; [by left|done]|].
  apply IH. intros. apply HPQ; [by right|done]. Qed.

(** *** Reflexive and symmetric on property values *)
Lemma strict_eq_refl v : v ≠ JNum JNaN → js_strict_eq v v = true.
Proof. intros Hv. destruct v as [| | |[]| |]; simpl; try done; by rewrite bool_decide_eq_true_2. Qed.

Lemma scalar_inside v : nan_free v → js_strict_eq v v = true.
Proof. intros Hn. apply strict_eq_refl. intros ->. apply Hn. constructor. Qed.

Lemma same_refl n v : unique_keys → prop_tree h n v → nan_free v → same_value v v.
Proof.
  intros Hu Ht. induction n as [|n IH] in v, Ht |- *; [inversion Ht|]. intros Hn.
  inversion Ht as [? ? Hs|? a items Ha Hf|? a fields Ha Hf]; subst.
  - destruct v as [| | | | |a]; try (apply same_scalar; [done|by apply scalar_inside]).
    simpl in Hs. destruct (h !! a) as [[bs| | |]|] eqn:Ha; try done. by apply (same_bytes a a bs).
  - apply (same_array a a items items); [done..|]. rewrite Forall_forall in Hf.
    apply Forall_Forall2_diag, Forall_forall. intros x Hx. apply IH; [by apply Hf|]. by eapply nan_free_item.
  - apply (same_record a a fields fields); [done..|]. intros k.
    destruct (ordmap_get k fields) as [x|] eqn:E; constructor. apply ordmap_get_mem in E.
    rewrite Forall_forall in Hf. apply IH; [by apply (Hf (k, x))|]. by eapply nan_free_field.
Qed.

Lemma same_sym n l r : prop_tree h n l → same_value l r → same_value r l.
Proof.
  intros Ht. induction n as [|n IH] in l, r, Ht |- *; [inversion Ht|].
  intros Hs. inversion Ht as [? ? Hsc|? a items Ha Hf|? a fields Ha Hf]; subst.
  - inversion Hs as [v Hv He|a b bs Ha Hb|a b xs ys Ha|a b fs gs Ha]; subst;
      [done|by apply (same_bytes b a bs)|simpl in Hsc; by rewrite Ha in Hsc..].
  - inversion Hs as [v Hv He|? b bs Ha' Hb|? b xs ys Ha' Hb Hxy|? b fs gs Ha']; subst; simplify_eq.
    apply (same_array b a ys items); [done..|]. apply Forall2_flip.
    rewrite Forall_forall in Hf. apply (Forall2_elem_impl _ _ _ _ Hxy). intros x y Hx Hsame. cbn. auto.
  - inversion Hs as [v Hv He|? b bs Ha' Hb|? b xs ys Ha'|? b fs gs Ha' Hb Hk]; subst; simplify_eq.
    apply (same_record b a gs fields); [done..|]. intros k. specialize (Hk k).
    destruct (ordmap_get k fields) as [x|] eqn:E; inversion Hk; subst; constructor.
    rewrite Forall_forall in Hf. apply ordmap_get_mem in E. apply IH; [by apply (Hf (k, x))|done].
Qed.
End same_value.

(** *** The comparison decides it *)
Section values_equal.
Context (h : heap) (Hkeys : unique_keys h).
Import PropValue StateDiffValueEquality.

Lemma bytes_equal_iff (l r : list Z) : stateDiffBytesEqual l r = true ↔ l = r.
Proof.
  unfold stateDiffBytesEqual. split.
  - intros [Hl%Nat.eqb_eq Hz]%andb_true_iff. revert r Hl Hz.
    induction l as [|x l IH]; intros [|y r] Hl; simpl in *; try done.
    intros [->%Z.eqb_eq Hz]%andb_true_iff. f_equal. apply IH; [lia|done].
  - intros <-. rewrite Nat.eqb_refl. simpl. induction l as [|x l IH]; simpl; [done|]. by rewrite Z.eqb_refl.
Qed.

Lemma arrays_equal_iff rec xs ys :
  stateDiffArraysEqual rec xs ys = Some true ↔ Forall2 (λ x y, rec x y = Some true) xs ys.
Proof.
  unfold stateDiffArraysEqual. destruct (Nat.eqb_spec (length xs) (length ys)) as [Hl|Hl]; simpl.
  - rewrite every_opt_true. revert ys Hl. induction xs as [|x xs IH]; intros [|y ys] Hl; simpl in *;
      try done. rewrite Forall_cons, Forall2_cons, IH by lia. done.
  - split; [done|]. by intros ?%Forall2_length.
Qed.

(** Equal numbers of distinct keys: it is enough that every left key is a right
    key. *)
Lemma same_keys {V} (fs gs : list (string * V)) k :
  NoDup fs.*1 → length fs.*1 = length gs.*1 → (∀ j, j ∈ fs.*1 → j ∈ gs.*1) →
  k ∈ gs.*1 → k ∈ fs.*1.
Proof.
  intros Hnd Hl Hsub Hk. rewrite (submseteq_length_Permutation fs.*1 gs.*1); [done| |lia].
  by apply NoDup_submseteq.
Qed.

Lemma records_equal_iff rec fs gs :
  NoDup fs.*1 → NoDup gs.*1 →
  stateDiffRecordsEqual rec fs gs = Some true ↔
  ∀ k, option_Forall2 (λ x y, rec x y = Some true) (ordmap_get k fs) (ordmap_get k gs).
Proof.
  intros Hf Hg. unfold stateDiffRecordsEqual.
  destruct (Nat.eqb_spec (length fs.*1) (length gs.*1)) as [Hl|Hl]; simpl.
  - rewrite every_opt_true, Forall_forall. split.
    + intros Hall k. destruct (ordmap_get k fs) as [x|] eqn:E.
      * pose proof (Hall k) as Hk. rewrite ordmap_get_key, E in Hk. specialize (Hk ltac:(by eexists)).
        cbn in Hk. destruct (ordmap_get k gs); [by constructor|done].
      * destruct (ordmap_get k gs) as [y|] eqn:E'; [|constructor]. exfalso.
        assert (k ∈ fs.*1) as [? ?]%ordmap_get_key; [|congruence].
        apply (same_keys fs gs); [done|done| |apply ordmap_get_key; by eexists].
        intros j Hj. specialize (Hall j Hj). apply ordmap_get_key.
        destruct (ordmap_get j gs); [by eexists|done].
    + intros Hk k [x E]%ordmap_get_key. specialize (Hk k). rewrite E in Hk |- *. cbn.
      by inversion Hk.
  - split; [done|]. intros Hk. destruct Hl. apply Permutation_length, NoDup_Permutation; [done..|].
    intros k. rewrite !ordmap_get_key. specialize (Hk k). by inversion Hk; split; intros []; eexists.
Qed.

Lemma prop_tree_item n a xs : h !! a = Some (OArray xs) → prop_tree h (S n) (JRef a) →
  ∀ x, x ∈ xs → prop_tree h n x.
Proof.
  intros Ha Ht. apply Forall_forall.
  inversion Ht as [? ? Hs|? ? ? Ha' Hf|? ? ? Ha' Hf]; subst; simplify_eq; [|done]. simpl in Hs. by rewrite Ha in Hs.
Qed.
Lemma prop_tree_field n a fs : h !! a = Some (OPlain fs) → prop_tree h (S n) (JRef a) →
  ∀ k x, (k, x) ∈ fs → prop_tree h n x.
Proof.
  intros Ha Ht k x Hin.
  inversion Ht as [? ? Hs|? ? ? Ha' Hf|? ? ? Ha' Hf]; subst; simplify_eq.
  - simpl in Hs. by rewrite Ha in Hs.
  - rewrite Forall_forall in Hf. by apply (Hf (k, x)).
Qed.

(** One step of the comparison, for two different objects. *)
Lemma values_equal_refs fuel a b lo ro :
  h !! a = Some lo → h !! b = Some ro → a ≠ b →
  stateDiffValuesEqual (S fuel) h (JRef a) (JRef b)
  = stateDiffObjectsEqual (stateDiffValuesEqual fuel h) lo ro.
Proof. intros Ha Hb Hab. simpl. rewrite bool_decide_eq_false_2 by congruence. by rewrite Ha, Hb. Qed.

Lemma values_total n l r : prop_tree h n l → is_Some (stateDiffValuesEqual n h l r).
Proof.
  revert l r. induction n as [|n IH]; intros l r Ht; [inversion Ht|]. simpl.
  destruct (js_strict_eq l r); [by eexists|].
  destruct (_ || _); [by eexists|].
  destruct l as [| | | | |a]; try by eexists. simpl.
  destruct (h !! a) as [lo|] eqn:Ha; [|by eexists].
  destruct r as [| | | | |b]; try by eexists. simpl. destruct (h !! b) as [ro|] eqn:Hb; [|by eexists].
  unfold stateDiffObjectsEqual. destruct (_ || _); [by eexists|].
  destruct (_ || _).
  - destruct lo as [|xs| |], ro as [|ys| |]; try by eexists. simpl. unfold stateDiffArraysEqual.
    destruct (negb _); [by eexists|]. apply every_opt_total, Forall_forall. intros [x y] Hin.
    apply IH, (prop_tree_item n a xs Ha Ht). by apply elem_of_zip_l in Hin.
  - unfold stateDiffPlainObjectsEqual. destruct lo as [| |fs|], ro as [| |gs|]; try by eexists. simpl.
    unfold stateDiffRecordsEqual. destruct (negb _); [by eexists|]. apply every_opt_total, Forall_forall.
    intros k [x E]%ordmap_get_key. rewrite E. cbn. destruct (ordmap_get k gs); [|by eexists].
    apply IH, (prop_tree_field n a fs Ha Ht k). by apply ordmap_get_mem.
Qed.

Lemma values_complete n l r :
  prop_tree h n l → same_value h l r → stateDiffValuesEqual n h l r = Some true.
Proof.
  revert l r. induction n as [|n IH]; intros l r Ht Hs; [inversion Ht|].
  destruct (decide (js_strict_eq l r = true)) as [He|He]; [simpl; by rewrite He|].
  inversion Hs as [v Hv He'|a b bs Ha Hb|a b xs ys Ha Hb Hxy|a b fs gs Ha Hb Hk]; subst; [done|..].
  all: assert (a ≠ b) as Hab by (intros ->; by rewrite strict_eq_refl in He).
  all: rewrite (values_equal_refs n a b _ _ Ha Hb Hab); cbn.
  - f_equal. by apply bytes_equal_iff.
  - apply arrays_equal_iff. apply (Forall2_elem_impl _ _ _ _ Hxy). intros x y Hx ?.
    apply IH; [|done]. by apply (prop_tree_item n a xs).
  - unfold stateDiffPlainObjectsEqual. simpl. apply records_equal_iff; [by apply (Hkeys a)|by apply (Hkeys b)|].
    intros k. specialize (Hk k). destruct (ordmap_get k fs) as [x|] eqn:E; inversion Hk; subst; constructor.
    apply IH; [|done]. apply (prop_tree_field n a fs Ha Ht k). by apply ordmap_get_mem.
Qed.

Lemma values_sound n l r :
  prop_tree h n l → nan_free h l → stateDiffValuesEqual n h l r = Some true → same_value h l r.
Proof.
  revert l r. induction n as [|n IH]; intros l r Ht Hn; [done|].
  destruct (decide (l = r)) as [->|Hlr]; [intros _; by apply (same_refl h (S n))|]. simpl.
  destruct (js_strict_eq l r) eqn:He; [by apply js_strict_eq_true in He|].
  destruct l as [| | | | |a]; try done. destruct r as [| | | | |b]; try done. simpl.
  destruct (h !! a) as [lo|] eqn:Ha; [|done]. destruct (h !! b) as [ro|] eqn:Hb; [|done].
  unfold stateDiffObjectsEqual, stateDiffPlainObjectsEqual.
  destruct lo as [bs|xs|fs|], ro as [bs'|ys|gs|]; simpl; try done.
  - intros [= <-%bytes_equal_iff]. by apply (same_bytes h a b bs).
  - rewrite arrays_equal_iff. intros Hxy. apply (same_array h a b xs ys); [done..|].
    apply (Forall2_elem_impl _ _ _ _ Hxy). intros x y Hx.
    apply IH; [by apply (prop_tree_item n a xs)|by apply (nan_free_item h a xs)].
  - rewrite records_equal_iff by (by eapply Hkeys). intros Hk.
    apply (same_record h a b fs gs); [done..|]. intros k. specialize (Hk k).
    destruct (ordmap_get k fs) as [x|] eqn:E; inversion Hk; subst; constructor. apply ordmap_get_mem in E.
    apply IH; [by apply (prop_tree_field n a fs Ha Ht k)|by apply (nan_free_field h a fs k)|done].
Qed.

Lemma values_equal_spec l r :
  plain_value h l → ∃ b, values_equal h l r = Some b ∧ (b = true ↔ same_value h l r).
Proof.
  intros [Ht%tree_height Hn]. destruct (values_total _ l r Ht) as [b Hb]. exists b. split; [done|].
  unfold values_equal in *. split.
  - intros ->. by eapply values_sound.
  - intros Hs. pose proof (values_complete _ _ _ Ht Hs). congruence.
Qed.
End values_equal.

(** ** What a diff reports *)
Section exact.
Context (h : heap).
Import StateDiffOrdering StateDiffValueEquality WarpState StateDiff.

(** A sort without duplicates is strict. *)
Lemma sort_cmp_strict {A} (cmp : A → A → Z) `{!CompareLaws cmp} l :
  NoDup l → Sorted (λ x y, cmp x y < 0) (js_sort cmp l).
Proof.
  intros Hnd. apply StronglySorted_Sorted.
  assert (StronglySorted (cmp_le cmp) (js_sort cmp l)) as Hs.
  { apply Sorted_StronglySorted; [apply _|]. apply js_sort_sorted, cmp_opp. }
  rewrite <- (js_sort_perm cmp l) in Hnd.
  induction Hs as [|x l' Hs IH Hx]; [constructor|]. apply NoDup_cons in Hnd as [Hni Hnd].
  constructor; [by apply IH|]. rewrite Forall_forall in *. intros y Hy.
  specialize (Hx y Hy). unfold cmp_le in Hx.
  destruct (decide (cmp x y = 0)) as [->%cmp_eq|]; [done|lia].
Qed.

Lemma or_else_step a b rest : or_else (compareText a b) rest = cmp_step str_ltb a b rest.
Proof.
  unfold or_else, compareText, cmp_step. case_decide as E.
  - subst. by rewrite !ltb_irrefl.
  - rewrite (ltb_total b a) by done. by destruct (str_ltb a b).
Qed.

Definition edge_triple (e : edge_parts) : string * (string * string) := (ep_from e, (ep_to e, ep_label e)).

#[local] Instance edge_triple_inj : Inj (=) (=) edge_triple.
Proof. intros [] []. by intros [= -> -> ->]. Qed.

#[global] Instance compareEdgeChanges_laws : CompareLaws compareEdgeChanges.
Proof.
  pose proof (cmp_pull_laws edge_triple _
    (cmp_pair_laws str_ltb _ (cmp_pair_laws str_ltb _ compareStrings_laws))) as [H1 H2 H3].
  assert (∀ l r, compareEdgeChanges l r = cmp_step str_ltb (ep_from l) (ep_from r)
    (cmp_step str_ltb (ep_to l) (ep_to r) (compareStrings (ep_label l) (ep_label r)))) as E
    by (intros l r; unfold compareEdgeChanges; by rewrite !or_else_step).
  split; intros *; rewrite !E; [apply H1|apply H2|apply H3].
Qed.

(** *** Nodes and edges *)
Lemma elem_of_setAdded (before after : gset string) x : x ∈ setAdded before after ↔ x ∈ after ∧ x ∉ before.
Proof. unfold setAdded. rewrite list_elem_of_filter, base.elem_of_elements. tauto. Qed.

Lemma setAdded_NoDup before after : NoDup (setAdded before after).
Proof. apply NoDup_filter, NoDup_elements. Qed.

Definition node_in (s : option WarpState) (n : string) : Prop :=
  match s with Some s => ORSet.contains (nodeAlive s) n = true | None => False end.
Definition edge_in (s : option WarpState) (e : edge_parts) : Prop :=
  match s with Some s => EdgeRecord.edge_ok e ∧ visible s e = true | None => False end.
Definition prop_in (s : option WarpState) (k : string) : option jsval :=
  match s with Some s => LWW.value <$> prop s !! k | None => None end.

Lemma elem_of_before_nodes s n : n ∈ before_nodes s ↔ node_in s n.
Proof.
  destruct s as [s|]; simpl; [|set_solver]. unfold node_set. rewrite elem_of_list_to_set.
  apply ORSet.elem_of_elements.
Qed.

Lemma elem_of_before_edges s k :
  (∀ t, s = Some t → edges_ok t) → k ∈ before_edges s ↔ ∃ e, edge_in s e ∧ k = key_of e.
Proof.
  intros Hok. destruct s as [s|]; simpl; [|set_solver]. specialize (Hok s eq_refl).
  unfold edge_set. rewrite elem_of_list_to_set, list_elem_of_filter, ORSet.elem_of_elements.
  pose proof (elem_of_before_nodes (Some s)) as Hn. simpl in Hn. rewrite !Hn.
  unfold visible, endpoints_alive. split.
  - intros [[Hf Ht] Hc]. destruct (Hok k Hc) as (e & He & ->). rewrite edge_ok_decode in Hf, Ht by done.
    exists e. by rewrite Hc, Hf, Ht.
  - intros (e & [He [Hc [Hf Ht]%andb_true_iff]%andb_true_iff] & ->). by rewrite edge_ok_decode.
Qed.

Lemma edges_added_iff s t e :
  (∀ s', s = Some s' → edges_ok s') → (∀ t', t = Some t' → edges_ok t') →
  e ∈ decodeEdgeKey <$> setAdded (before_edges s) (before_edges t) ↔ edge_in t e ∧ ¬ edge_in s e.
Proof.
  intros Hs Ht. rewrite list_elem_of_fmap. setoid_rewrite elem_of_setAdded.
  setoid_rewrite elem_of_before_edges; [|done..].
  assert (∀ u e, edge_in u e → EdgeRecord.edge_ok e) as Hok by by intros [u|] ? [].
  split.
  - intros (k & -> & (e' & He & ->) & Hn). rewrite edge_ok_decode by by eapply Hok.
    split; [done|]. intros ?. apply Hn. by exists e'.
  - intros [He Hn]. exists (key_of e). rewrite edge_ok_decode by by eapply Hok. split_and!; [done|by exists e|].
    intros (e' & He' & E%key_of_inj); [by subst|by eapply Hok..].
Qed.

Lemma edges_added_NoDup s t :
  (∀ t', t = Some t' → edges_ok t') → NoDup (decodeEdgeKey <$> setAdded (before_edges s) (before_edges t)).
Proof.
  intros Ht. apply NoDup_fmap_2_strong; [|apply setAdded_NoDup].
  intros k k' [Hk _]%elem_of_setAdded [Hk' _]%elem_of_setAdded.
  apply elem_of_before_edges in Hk as (e & He & ->); [|done].
  apply elem_of_before_edges in Hk' as (e' & He' & ->); [|done].
  destruct t as [t|]; [|done]. rewrite !edge_ok_decode by (apply He || apply He'). by intros ->.
Qed.

(** *** Properties *)
Lemma NoDup_omap {A B} (f : A → option B) l :
  (∀ x y z, f x = Some z → f y = Some z → x = y) → NoDup l → NoDup (omap f l).
Proof.
  intros Hf. induction 1 as [|x l Hni Hnd IH]; csimpl; [constructor|].
  destruct (f x) as [z|] eqn:E; [|done]. constructor; [|done].
  intros (y & Hy & Ez)%list_elem_of_omap. by rewrite (Hf x y z) in Hni.
Qed.

Definition changed (h : heap) (before after : gmap string register) (key : string)
  : option (PropSet + PropRemoved) :=
  if isEdgePropKey key then None else default None (classifyPropChange h key before after).
Definition set_at h before after key : option PropSet :=
  match changed h before after key with Some (inl set) => Some set | _ => None end.
Definition removed_at h before after key : option PropRemoved :=
  match changed h before after key with Some (inr removed) => Some removed | _ => None end.

(** The loop collects the changes of the keys. *)
Lemma diff_keys_spec before after keys ctx :
  (∀ key, is_Some (classifyPropChange h key before after)) →
  diff_keys h before after keys ctx
  = Some (ctx.1 ++ omap (set_at h before after) keys, ctx.2 ++ omap (removed_at h before after) keys).
Proof.
  intros Htotal. induction keys as [|key keys IH] in ctx |- *; cbn [diff_keys].
  - simpl. rewrite !app_nil_r. by destruct ctx.
  - assert ((if isEdgePropKey key then Some ctx else accumulatePropChange h before after key ctx)
      = Some (ctx.1 ++ option_list (set_at h before after key),
              ctx.2 ++ option_list (removed_at h before after key))) as ->.
    { unfold set_at, removed_at, changed, accumulatePropChange. destruct (Htotal key) as [c ->].
      destruct (isEdgePropKey key); [by rewrite !app_nil_r; destruct ctx|].
      by destruct c as [[]|]; simpl; rewrite ?app_nil_r; destruct ctx. }
    cbn. rewrite IH. cbn. rewrite <- !app_assoc.
    by destruct (set_at _ _ _ key), (removed_at _ _ _ key).
Qed.

(** What [set] and [removed] mean. *)
Definition is_set (before after : option WarpState) (c : PropSet) : Prop :=
  isEdgePropKey (set_key c) = false ∧
  decodePropKey (set_key c) = (set_nodeId c, set_propKey c) ∧
  prop_in after (set_key c) = Some (set_newValue c) ∧
  match prop_in before (set_key c) with
  | None => set_oldValue c = JUndefined
  | Some old => set_oldValue c = old ∧ ¬ same_value h old (set_newValue c)
  end.
Definition is_removed (before after : option WarpState) (c : PropRemoved) : Prop :=
  isEdgePropKey (removed_key c) = false ∧
  decodePropKey (removed_key c) = (removed_nodeId c, removed_propKey c) ∧
  prop_in before (removed_key c) = Some (removed_oldValue c) ∧
  prop_in after (removed_key c) = None.

Lemma before_props_lookup s k : LWW.value <$> before_props s !! k = prop_in s k.
Proof. destruct s as [s|]; [|done]. simpl. unfold prop_map, allPropEntriesFromState, entries_of. by rewrite list_to_map_to_list. Qed.

Definition plain_props (s : option WarpState) : Prop := ∀ k v, prop_in s k = Some v → plain_value h v.

Section changes.
Context (Hkeys : unique_keys h) (s t : option WarpState) (Hplain : plain_props s).

Lemma classify_total key : is_Some (classifyPropChange h key (before_props s) (before_props t)).
Proof.
  unfold classifyPropChange. pose proof (before_props_lookup s key) as Ls. pose proof (Hplain key) as Hp.
  destruct (decodePropKey key) as [n k].
  destruct (before_props s !! key) as [b|], (before_props t !! key) as [a|]; simpl in *; try by eexists.
  unfold classifyPropUpdate. destruct (values_equal_spec h Hkeys (LWW.value b) (LWW.value a)) as (eq & -> & _).
  - by apply Hp.
  - cbn. by eexists.
Qed.

Lemma set_at_iff key p :
  set_at h (before_props s) (before_props t) key = Some p ↔ is_set s t p ∧ set_key p = key.
Proof.
  unfold set_at, changed, classifyPropChange, is_set.
  pose proof (before_props_lookup s key) as Ls. pose proof (before_props_lookup t key) as Lt.
  pose proof (Hplain key) as Hp. destruct (isEdgePropKey key) eqn:Ek; [naive_solver congruence|].
  destruct (decodePropKey key) as [n k] eqn:Ed.
  destruct (before_props s !! key) as [b|], (before_props t !! key) as [a|]; simpl in *.
  - unfold classifyPropUpdate. destruct (values_equal_spec h Hkeys (LWW.value b) (LWW.value a)) as (eq & -> & Heq).
    { by apply Hp. }
    destruct eq; cbn; (split; [intros [= <-]|intros [(He & Hd & Ht & Ho) <-]]); cbn; try done.
    + rewrite <- Lt in Ht. rewrite <- Ls in Ho. destruct Ho as [_ []]. injection Ht as <-. by apply Heq.
    + rewrite <- Lt, <- Ls. split_and!; try done. by rewrite <- Heq.
    + rewrite <- Lt in Ht. rewrite <- Ls in Ho. rewrite Ed in Hd. destruct p; simpl in *. naive_solver.
  - split; [done|]. intros [(He & Hd & Ht & Ho) <-]. congruence.
  - split; [intros [= <-]|intros [(He & Hd & Ht & Ho) <-]]; cbn; [by rewrite <- Lt, <- Ls|].
    rewrite <- Lt in Ht. rewrite <- Ls in Ho. rewrite Ed in Hd. destruct p; simpl in *. naive_solver.
  - split; [done|]. intros [(He & Hd & Ht & Ho) <-]. congruence.
Qed.

Lemma removed_at_iff key p :
  removed_at h (before_props s) (before_props t) key = Some p ↔ is_removed s t p ∧ removed_key p = key.
Proof.
  unfold removed_at, changed, is_removed. destruct (classify_total key) as [c Hc]. rewrite Hc. revert Hc.
  unfold classifyPropChange.
  pose proof (before_props_lookup s key) as Ls. pose proof (before_props_lookup t key) as Lt.
  destruct (isEdgePropKey key) eqn:Ek; [naive_solver congruence|].
  destruct (decodePropKey key) as [n k] eqn:Ed.
  destruct (before_props s !! key) as [b|], (before_props t !! key) as [a|]; simpl in *.
  - destruct (classifyPropUpdate _ _ _ _ _ _) as [u|]; [|done]. intros [= <-].
    split; [by destruct u|]. intros [(_ & _ & _ & Ht) <-]. congruence.
  - intros [= <-]. split; [intros [= <-]|intros [(He & Hd & Hs & _) <-]]; cbn; [done|].
    rewrite <- Ls in Hs. rewrite Ed in Hd. destruct p; simpl in *. naive_solver.
  - intros [= <-]. split; [done|]. intros [(He & Hd & Hs & _) <-]. congruence.
  - intros [= <-]. split; [done|]. intros [(He & Hd & Hs & _) <-]. congruence.
Qed.

(** The keys that occur in a state. *)
Lemma elem_of_prop_keys key :
  key ∈ base.elements (dom (before_props s) ∪ dom (before_props t) : gset string) ↔
  is_Some (prop_in s key) ∨ is_Some (prop_in t key).
Proof. rewrite base.elem_of_elements, elem_of_union, !elem_of_dom, <- !before_props_lookup, !fmap_is_Some. done. Qed.

Lemma diff_props_spec after :
  t = Some after →
  ∃ sets removals, diffProps h s after = Some (sets, removals) ∧
    (∀ p, p ∈ sets ↔ is_set s t p) ∧ (∀ p, p ∈ removals ↔ is_removed s t p) ∧
    NoDup sets ∧ NoDup removals.
Proof.
  intros Ht. unfold diffProps. replace (prop_map after) with (before_props t) by by rewrite Ht.
  rewrite diff_keys_spec by apply classify_total. cbn. do 2 eexists. split; [done|]. split_and!.
  - intros p. rewrite list_elem_of_omap. setoid_rewrite set_at_iff. setoid_rewrite elem_of_prop_keys.
    split; [naive_solver|]. intros Hp. exists (set_key p). split_and!; [|done..]. right.
    destruct Hp as (_ & _ & -> & _). by eexists.
  - intros p. rewrite list_elem_of_omap. setoid_rewrite removed_at_iff. setoid_rewrite elem_of_prop_keys.
    split; [naive_solver|]. intros Hp. exists (removed_key p). split_and!; [|done..]. left.
    destruct Hp as (_ & _ & -> & _). by eexists.
  - apply NoDup_omap; [|apply NoDup_elements]. intros k k' p H1%set_at_iff H2%set_at_iff. naive_solver.
  - apply NoDup_omap; [|apply NoDup_elements]. intros k k' p H1%removed_at_iff H2%removed_at_iff. naive_solver.
Qed.

Lemma is_set_key_inj p q : is_set s t p → is_set s t q → set_key p = set_key q → p = q.
Proof.
  intros Hp Hq E. apply (inj Some).
  rewrite <- (proj2 (set_at_iff (set_key p) p)) by done. rewrite E. by apply set_at_iff.
Qed.
Lemma is_removed_key_inj p q : is_removed s t p → is_removed s t q → removed_key p = removed_key q → p = q.
Proof.
  intros Hp Hq E. apply (inj Some).
  rewrite <- (proj2 (removed_at_iff (removed_key p) p)) by done. rewrite E. by apply removed_at_iff.
Qed.
End changes.

(** The six lists are in strict order. *)
Definition in_order (d : StateDiffResult) : Prop :=
  Sorted (λ x y, compareStrings x y < 0) (nodes_added d) ∧
  Sorted (λ x y, compareStrings x y < 0) (nodes_removed d) ∧
  Sorted (λ x y, compareEdgeChanges x y < 0) (edges_added d) ∧
  Sorted (λ x y, compareEdgeChanges x y < 0) (edges_removed d) ∧
  Sorted (λ x y, comparePropChanges set_key x y < 0) (props_set d) ∧
  Sorted (λ x y, comparePropChanges removed_key x y < 0) (props_removed d).

(** The six lists hold what changed between two states. *)
Record reports (s t : option WarpState) (d : StateDiffResult) : Prop := {
  rep_nodes_added n : n ∈ nodes_added d ↔ node_in t n ∧ ¬ node_in s n;
  rep_nodes_removed n : n ∈ nodes_removed d ↔ node_in s n ∧ ¬ node_in t n;
  rep_edges_added e : e ∈ edges_added d ↔ edge_in t e ∧ ¬ edge_in s e;
  rep_edges_removed e : e ∈ edges_removed d ↔ edge_in s e ∧ ¬ edge_in t e;
  rep_props_set p : p ∈ props_set d ↔ is_set s t p;
  rep_props_removed p : p ∈ props_removed d ↔ is_removed s t p }.

Lemma diff_states_spec s after :
  unique_keys h → (∀ s', s = Some s' → edges_ok s') → edges_ok after → plain_props s →
  ∃ d, diffStates h s after = Some d ∧ reports s (Some after) d ∧ in_order d.
Proof.
  intros Hu Hs Ha Hp. unfold diffStates, diffNodesAndEdges.
  destruct (diff_props_spec Hu s (Some after) Hp after eq_refl) as (sets & removals & -> & Hset & Hrem & Ns & Nr).
  assert (∀ t', Some after = Some t' → edges_ok t') as Ha' by by intros ? [= <-].
  cbn. eexists. split; [done|]. split.
  - constructor; intros x;
      cbn [nodes_added nodes_removed edges_added edges_removed props_set props_removed];
      rewrite elem_of_js_sort.
    + by rewrite elem_of_setAdded, <- !elem_of_before_nodes.
    + by rewrite elem_of_setAdded, <- !elem_of_before_nodes.
    + by apply (edges_added_iff s (Some after)).
    + by apply (edges_added_iff (Some after) s).
    + done.
    + done.
  - split_and!; cbn.
    + apply sort_cmp_strict; [apply _|apply setAdded_NoDup].
    + apply sort_cmp_strict; [apply _|apply setAdded_NoDup].
    + apply sort_cmp_strict; [apply _|]. by apply (edges_added_NoDup s (Some after)).
    + apply sort_cmp_strict; [apply _|]. by apply (edges_added_NoDup (Some after) s).
    + apply sort_key_strict; [done|]. intros p q. rewrite !Hset. by apply is_set_key_inj.
    + apply sort_key_strict; [done|]. intros p q. rewrite !Hrem. by apply is_removed_key_inj.
Qed.

(** Two states that show the same nodes, edges and properties of nodes. *)
Definition same_view (s t : option WarpState) : Prop :=
  (∀ n, node_in s n ↔ node_in t n) ∧ (∀ e, edge_in s e ↔ edge_in t e) ∧
  ∀ k, isEdgePropKey k = false → option_Forall2 (same_value h) (prop_in s k) (prop_in t k).
End exact.

(** ** Properties *)
Section properties.
Import PropValue StateDiffValueEquality WarpState StateDiff.
Implicit Types (h : heap) (s : option WarpState).

Lemma nil_iff {A} (l : list A) : (length l =? 0)%nat = true ↔ ∀ x, x ∉ l.
Proof.
  rewrite Nat.eqb_eq. split; [by intros ->%nil_length_inv x ?%elem_of_nil|].
  intros Hl. by rewrite (elem_of_nil_inv l).
Qed.

Lemma same_view_iff h s t d :
  unique_keys h → plain_props h s → reports h s t d → isEmptyDiff d = true ↔ same_view h s t.
Proof.
  intros Hu Hp [Hna Hnr Hea Her Hps Hpr].
  unfold isEmptyDiff, isEmptyPair, isEmptySetRemoved, same_view. rewrite !andb_true_iff, !nil_iff.
  setoid_rewrite Hna. setoid_rewrite Hnr. setoid_rewrite Hea. setoid_rewrite Her.
  setoid_rewrite Hps. setoid_rewrite Hpr.
  assert (∀ u n, node_in u n ∨ ¬ node_in u n) as Dn.
  { intros [u|] n; [|right; by intros []]. simpl. destruct (ORSet.contains _ _); [by left|by right]. }
  assert (∀ u v e, edge_in u e → edge_in v e ∨ ¬ edge_in v e) as De.
  { intros u [v|] e He; [|right; by intros []]. unfold edge_in. destruct (visible v e); [left|by right; intros []].
    by destruct u as [u|]; destruct He. }
  split.
  - intros [[[Na Nr] [Ea Er]] [Ps Pr]]. split; [|split].
    + intros n. specialize (Na n). specialize (Nr n). destruct (Dn s n), (Dn t n); tauto.
    + intros e. split; intros He; [destruct (De s t e He)|destruct (De t s e He)]; [done| |done|]; naive_solver.
    + intros k Hk. destruct (decodePropKey k) as [n key] eqn:Ed.
      destruct (prop_in s k) as [old|] eqn:Es, (prop_in t k) as [new|] eqn:Et;
        [constructor|exfalso..|constructor].
      * destruct (values_equal_spec h Hu old new) as (b & _ & Hb); [by apply (Hp k)|].
        destruct b; [by apply Hb|]. destruct (Ps (mkSet k n key old new)).
        split_and!; simpl; rewrite ?Es; try done. split; [done|]. by rewrite <- Hb.
      * by apply (Pr (mkRemoved k n key old)).
      * apply (Ps (mkSet k n key JUndefined new)). split_and!; simpl; by rewrite ?Es.
  - intros (Hn & He & Hv). split_and!; [naive_solver..| |].
    + intros [k n key old new] (Hk & _ & Ht & Ho). simpl in *. specialize (Hv k Hk). rewrite Ht in Hv.
      by inversion Hv as [x y Hxy E|E]; subst; rewrite <- E in Ho; destruct Ho.
    + intros [k n key old] (Hk & _ & Hs & Ht). simpl in *. specialize (Hv k Hk). rewrite Hs, Ht in Hv. inversion Hv.
Qed.

(** The comparison of two property values terminates and decides whether they
    are the same: it returns for every value that [isPropValue] accepts,
    whatever the other one is, and on values without [NaN] it returns [true]
    exactly when both unfold to the same tree, wherever the objects are and in
    whatever order their keys were set. *)
Theorem state_diff_values_equal (h : heap) (left right : jsval) :
  unique_keys h → is_tree h left →
  ∃ b, stateDiffValuesEqual (S (size h)) h left right = Some b ∧
    (same_value h left right → b = true) ∧
    (nan_free h left → b = true → same_value h left right).
Proof.
  intros Hu Ht%tree_height. destruct (values_total h _ left right Ht) as [b Hb]. exists b. split; [done|].
  split.
  - intros Hs. pose proof (values_complete h Hu _ _ _ Ht Hs). congruence.
  - intros Hn ->. by eapply values_sound.
Qed.

(** C29. A diff of two states is exact: it terminates, its six lists hold the nodes
    that became or ceased to be alive, the visible edges that appeared or
    disappeared, and the node properties that were set to another value or
    removed, nothing else, each once and in strict order; and it is empty
    exactly when both states show the same. [before = None] is the empty state. *)
Theorem state_diff_exact (h : heap) (before : option WarpState) (after : WarpState) :
  unique_keys h → (∀ u, before = Some u → edges_ok u) → edges_ok after → plain_props h before →
  ∃ d, diffStates h before after = Some d ∧ reports h before (Some after) d ∧ in_order d ∧
    (isEmptyDiff d = true ↔ same_view h before (Some after)).
Proof.
  intros Hu Hs Ha Hp. destruct (diff_states_spec h before after) as (d & E & Hr & Ho); [done..|].
  exists d. split_and!; [done..|]. by apply same_view_iff.
Qed.

(** *** Deciding the hypotheses *)
Fixpoint nan_freeb (n : nat) (h : heap) (v : jsval) : bool :=
  match n with
  | O => false
  | S n' =>
    bool_decide (v ≠ JNum JNaN) &&
    match deref h v with
    | Some (OArray items) => forallb (nan_freeb n' h) items
    | Some (OPlain fields) => forallb (λ kv, nan_freeb n' h kv.2) fields
    | _ => true
    end
  end.

Lemma nan_freeb_sound n h v : nan_freeb n h v = true → nan_free h v.
Proof.
  revert v. induction n as [|n IH]; intros v; [done|]. simpl.
  intros [Hv%bool_decide_eq_true Hd]%andb_true_iff Hi. inversion Hi as [|a xs x ? Ha Hx|a fs k x ? Ha Hx]; subst.
  - done.
  - simpl in Hd. rewrite Ha, forallb_forall in Hd. by apply (IH x); [apply Hd, list_elem_of_In|].
  - simpl in Hd. rewrite Ha, forallb_forall in Hd. by apply (IH x); [apply (Hd (k, x)), list_elem_of_In|].
Qed.

Definition plainb (h : heap) (v : jsval) : bool :=
  treeb (S (size h)) h v && nan_freeb (S (size h)) h v.

Lemma plainb_sound h v : plainb h v = true → plain_value h v.
Proof.
  intros [Ht%treeb_spec Hn%nan_freeb_sound]%andb_true_iff. split; [by eexists|done].
Qed.

Lemma plain_props_decide h (u : WarpState) :
  bool_decide (map_Forall (λ _ r, plainb h (LWW.value r) = true) (prop u)) = true → plain_props h (Some u).
Proof.
  intros Hs%bool_decide_eq_true k v Hk. simpl in Hk. apply fmap_Some in Hk as (r & Hr & ->).
  apply plainb_sound, (Hs k r Hr).
Qed.

Lemma unique_keys_decide h :
  bool_decide (map_Forall (λ _ o, NoDup (fields_of o).*1) h) = true → unique_keys h.
Proof. intros Hs%bool_decide_eq_true a fs Ha. by apply (Hs a _ Ha). Qed.

(** Two objects with the same entries in another order, and a list with each. *)
Definition diff_heap : heap :=
  {[ 1%N := OPlain [("a", JNum (JInt 1)); ("b", JRef 3)];
     2%N := OPlain [("b", JRef 4); ("a", JNum (JInt 1))];
     3%N := OBytes [7]; 4%N := OBytes [7];
     5%N := OArray [JRef 1; JNull]; 6%N := OArray [JRef 2; JNull] ]}.

Lemma diff_heap_keys : unique_keys diff_heap.
Proof. apply unique_keys_decide. vm_compute. reflexivity. Qed.

Lemma state_diff_values_equal_witness :
  ∃ b, stateDiffValuesEqual (S (size diff_heap)) diff_heap (JRef 5) (JRef 6) = Some b ∧ b = true ∧
    same_value diff_heap (JRef 5) (JRef 6).
Proof.
  destruct (state_diff_values_equal diff_heap (JRef 5) (JRef 6)) as (b & E & _ & Hs).
  - apply diff_heap_keys.
  - exists 3%nat. apply treeb_spec. vm_compute. reflexivity.
  - assert (b = true) as Hb by (vm_compute in E; congruence).
    exists b. split_and!; [exact E|exact Hb|]. apply Hs; [|exact Hb].
    apply (nan_freeb_sound 3). vm_compute. reflexivity.
Defined.

(** The sample state after the removal of a node, the change of a property and
    the rewrite of another one with an equal object. *)
Definition diff_before : WarpState :=
  mk (nodeAlive sample_state) (edgeAlive sample_state)
    {[ encodePropKey "n1" "name" := LWW.mk (ev 1 "w" 3) (JStr "Ann");
       encodePropKey "n1" "tags" := LWW.mk (ev 1 "w" 4) (JRef 5) ]}
    (observedFrontier sample_state) (edgeBirthEvent sample_state).
Definition diff_after : WarpState :=
  mk (ORSet.remove {["w:2"]} (nodeAlive sample_state)) (edgeAlive sample_state)
    {[ encodePropKey "n1" "name" := LWW.mk (ev 3 "w" 0) (JStr "Bob");
       encodePropKey "n1" "tags" := LWW.mk (ev 3 "w" 1) (JRef 6) ]}
    (observedFrontier sample_state) (edgeBirthEvent sample_state).

Lemma state_diff_exact_witness :
  reports diff_heap (Some diff_before) (Some diff_after)
    (mkResult [] ["n2"] [] [EdgeParts "n1" "n2" "knows"]
      [mkSet (encodePropKey "n1" "name") "n1" "name" (JStr "Ann") (JStr "Bob")] []).
Proof.
  destruct (state_diff_exact diff_heap (Some diff_before) diff_after) as (d & E & Hr & _ & _).
  - apply diff_heap_keys.
  - intros u [= <-]. exact sample_edges_ok.
  - exact sample_edges_ok.
  - apply plain_props_decide. vm_compute. reflexivity.
  - vm_compute in E. injection E as <-. exact Hr.
Defined.

(** A property with the value [NaN] is reported as set by every diff, also by
    that of a state with itself. *)
Lemma nan_is_always_reported vv :
  let nan := mk ORSet.empty ORSet.empty {[ encodePropKey "n" "k" := LWW.mk (ev 1 "w" 0) (JNum JNaN) ]} vv ∅ in
  isEmptyDiff <$> diffStates ∅ (Some nan) nan = Some false.
Proof. vm_compute. reflexivity. Qed.

(** On values that contain themselves, which [isPropValue] rejects, the
    comparison does not end. *)
Lemma cyclic_values_are_never_compared h fuel :
  h !! 1%N = Some (OArray [JRef 1]) → h !! 2%N = Some (OArray [JRef 2]) →
  stateDiffValuesEqual fuel h (JRef 1) (JRef 2) = None.
Proof.
  intros H1 H2. induction fuel as [|fuel IH]; [done|].
  rewrite (values_equal_refs h fuel 1 2 _ _ H1 H2) by done. cbn. by rewrite IH.
Qed.
End properties.
