(* ===== verification/RefLayout.v ===== *)
(** The names of the Git refs of a graph ([utils/RefLayout.ts]): their
    validation, their builders and the parser of writer refs. *)
From S2P Require Export KeyCodec.
#[local] Open Scope Z_scope.
#[local] Open Scope list_scope.
#[local] Open Scope string_scope.

Module RefLayout.

(* @src domain/utils/RefLayout.ts REF_PREFIX *)
Definition REF_PREFIX : string := "refs/warp".
(* @src domain/utils/RefLayout.ts MAX_WRITER_ID_LENGTH *)
Definition MAX_WRITER_ID_LENGTH : nat := 64%nat.

Definition slash : ascii := "/"%char.
Definition dot : ascii := "."%char.

(* @src domain/utils/RefLayout.ts RESERVED_GRAPH_NAME_SEGMENTS *)
Definition RESERVED_GRAPH_NAME_SEGMENTS : list string :=
  ["writers"; "checkpoints"; "coverage"; "cursor"; "strands"; "strand-overlays"; "strand-braids";
   "audit"; "trust"; "intents"; "seek-cache"; "state-cache"].

Definition in_range (lo hi : ascii) (c : ascii) : bool :=
  ((N_of_ascii lo <=? N_of_ascii c) && (N_of_ascii c <=? N_of_ascii hi))%N.

(** [A-Za-z0-9._-] *)
Definition writer_char (c : ascii) : bool :=
  in_range "A" "Z" c || in_range "a" "z" c || in_range "0" "9" c ||
  bool_decide (c = dot) || bool_decide (c = "_"%char) || bool_decide (c = "-"%char).

Fixpoint str_forall (p : ascii → bool) (s : string) : bool :=
  match s with EmptyString => true | String c s' => p c && str_forall p s' end.

(** [/^[A-Za-z0-9._-]+$/.test(s)] *)
(* @src domain/utils/RefLayout.ts WRITER_ID_PATTERN *)
Definition WRITER_ID_PATTERN (s : string) : bool := str_nonempty s && str_forall writer_char s.

(** [/\.\./.test(s)] *)
(* @src domain/utils/RefLayout.ts PATH_TRAVERSAL_PATTERN *)
Fixpoint PATH_TRAVERSAL_PATTERN (s : string) : bool :=
  match s with
  | String c s' => bool_decide (c = dot ∧ str_head s' = Some dot) || PATH_TRAVERSAL_PATTERN s'
  | EmptyString => false
  end.

(** [/\s/.test(s)] *)
Fixpoint has_space (s : string) : bool :=
  match s with EmptyString => false | String c s' => js_is_space c || has_space s' end.

Definition E_GRAPH_NAME : error := WarpError "E_INVALID_GRAPH_NAME".
Definition E_WRITER_ID : error := WarpError "E_INVALID_WRITER_ID".

(** *** Validators *)

(* @src domain/utils/RefLayout.ts rejectForbiddenGraphChars *)
Definition rejectForbiddenGraphChars (name : string) : result unit :=
  _ ← require (negb (PATH_TRAVERSAL_PATTERN name)) E_GRAPH_NAME;
  _ ← require (negb (str_includes ";" name)) E_GRAPH_NAME;
  _ ← require (negb (str_includes " " name)) E_GRAPH_NAME;
  require (negb (str_includes FIELD_SEPARATOR name)) E_GRAPH_NAME.

(* @src domain/utils/RefLayout.ts rejectReservedSegments *)
Definition rejectReservedSegments (name : string) : result unit :=
  require (forallb (λ seg, negb (bool_decide (seg ∈ RESERVED_GRAPH_NAME_SEGMENTS)))
    (str_split slash name)) E_GRAPH_NAME.

(** [None] is an argument that is not a string. *)
(* @src domain/utils/RefLayout.ts validateGraphName *)
Definition validateGraphName (name : option string) : result unit :=
  match name with
  | None => Throw E_GRAPH_NAME
  | Some name =>
      _ ← require (str_nonempty name) E_GRAPH_NAME;
      _ ← rejectForbiddenGraphChars name;
      rejectReservedSegments name
  end.

(* @src domain/utils/RefLayout.ts rejectControlAndNonAscii *)
Definition rejectControlAndNonAscii (id : string) : result unit :=
  _ ← require (negb (str_includes FIELD_SEPARATOR id)) E_WRITER_ID;
  _ ← require (negb (has_space id)) E_WRITER_ID;
  require (WRITER_ID_PATTERN id) E_WRITER_ID.

(* @src domain/utils/RefLayout.ts rejectForbiddenWriterChars *)
Definition rejectForbiddenWriterChars (id : string) : result unit :=
  _ ← require (negb (PATH_TRAVERSAL_PATTERN id)) E_WRITER_ID;
  _ ← require (negb (str_includes slash id)) E_WRITER_ID;
  rejectControlAndNonAscii id.

(* @src domain/utils/RefLayout.ts validateWriterId *)
Definition validateWriterId (id : option string) : result unit :=
  match id with
  | None => Throw E_WRITER_ID
  | Some id =>
      _ ← require (str_nonempty id) E_WRITER_ID;
      _ ← require (String.length id <=? MAX_WRITER_ID_LENGTH)%nat E_WRITER_ID;
      rejectForbiddenWriterChars id
  end.

(** *** Builders *)

(** A path of segments: [`${a}/${b}`] *)
Definition seg (a b : string) : string := a +:+ String slash b.
#[local] Infix "//" := seg (at level 55, right associativity).

Section builders.
Context (graphName : string).

(* @src domain/utils/RefLayout.ts buildWriterRef *)
Definition buildWriterRef (writerId : string) : result string :=
  _ ← validateGraphName (Some graphName);
  _ ← validateWriterId (Some writerId);
  Ok (REF_PREFIX // graphName // "writers" // writerId).

(* @src domain/utils/RefLayout.ts buildCheckpointRef *)
Definition buildCheckpointRef : result string :=
  _ ← validateGraphName (Some graphName);
  Ok (REF_PREFIX // graphName // "checkpoints" // "head").

(* @src domain/utils/RefLayout.ts buildCoverageRef *)
Definition buildCoverageRef : result string :=
  _ ← validateGraphName (Some graphName);
  Ok (REF_PREFIX // graphName // "coverage" // "head").

(* @src domain/utils/RefLayout.ts buildWritersPrefix *)
Definition buildWritersPrefix : result string :=
  _ ← validateGraphName (Some graphName);
  Ok (REF_PREFIX // graphName // "writers" // "").

(* @src domain/utils/RefLayout.ts buildStrandRef *)
Definition buildStrandRef (strandId : string) : result string :=
  _ ← validateGraphName (Some graphName);
  _ ← validateWriterId (Some strandId);
  Ok (REF_PREFIX // graphName // "strands" // strandId).

(* @src domain/utils/RefLayout.ts buildStrandsPrefix *)
Definition buildStrandsPrefix : result string :=
  _ ← validateGraphName (Some graphName);
  Ok (REF_PREFIX // graphName // "strands" // "").

(* @src domain/utils/RefLayout.ts buildIntentRef *)
Definition buildIntentRef (queued : bool) (ownerId : string) : result string :=
  _ ← validateGraphName (Some graphName);
  _ ← validateWriterId (Some ownerId);
  let channel := if queued then "queued" else "admitted" in
  Ok (REF_PREFIX // graphName // "intents" // channel // ownerId).

(* @src domain/utils/RefLayout.ts buildStrandOverlayRef *)
Definition buildStrandOverlayRef (strandId : string) : result string :=
  _ ← validateGraphName (Some graphName);
  _ ← validateWriterId (Some strandId);
  Ok (REF_PREFIX // graphName // "strand-overlays" // strandId).

(* @src domain/utils/RefLayout.ts buildStrandBraidRef *)
Definition buildStrandBraidRef (strandId braidedStrandId : string) : result string :=
  _ ← validateGraphName (Some graphName);
  _ ← validateWriterId (Some strandId);
  _ ← validateWriterId (Some braidedStrandId);
  Ok (REF_PREFIX // graphName // "strand-braids" // strandId // braidedStrandId).

(* @src domain/utils/RefLayout.ts buildStrandBraidsPrefix *)
Definition buildStrandBraidsPrefix (strandId : string) : result string :=
  _ ← validateGraphName (Some graphName);
  _ ← validateWriterId (Some strandId);
  Ok (REF_PREFIX // graphName // "strand-braids" // strandId // "").

(* @src domain/utils/RefLayout.ts buildAuditRef *)
Definition buildAuditRef (writerId : string) : result string :=
  _ ← validateGraphName (Some graphName);
  _ ← validateWriterId (Some writerId);
  Ok (REF_PREFIX // graphName // "audit" // writerId).

(* @src domain/utils/RefLayout.ts buildAuditPrefix *)
Definition buildAuditPrefix : result string :=
  _ ← validateGraphName (Some graphName);
  Ok (REF_PREFIX // graphName // "audit" // "").

(* @src domain/utils/RefLayout.ts buildStateCacheRef *)
Definition buildStateCacheRef : result string :=
  _ ← validateGraphName (Some graphName);
  Ok (REF_PREFIX // graphName // "state-cache").

(* @src domain/utils/RefLayout.ts buildSubstrateVersionRef *)
Definition buildSubstrateVersionRef : result string :=
  _ ← validateGraphName (Some graphName);
  Ok (REF_PREFIX // graphName // "substrate-version").

(* @src domain/utils/RefLayout.ts buildTrustRecordRef *)
Definition buildTrustRecordRef : result string :=
  _ ← validateGraphName (Some graphName);
  Ok (REF_PREFIX // graphName // "trust" // "records").
End builders.

(** *** Parser *)

(** [s.startsWith(prefix)] and the rest. *)
Fixpoint strip_prefix (prefix s : string) : option string :=
  match prefix, s with
  | EmptyString, _ => Some s
  | String a p, String b s' => if decide (a = b) then strip_prefix p s' else None
  | _, EmptyString => None
  end.

(* @src domain/utils/RefLayout.ts splitWarpRefParts *)
Definition splitWarpRefParts (refPath : string) : option (list string) :=
  match strip_prefix (REF_PREFIX // "") refPath with
  | None => None
  | Some rest =>
    let parts := str_split slash rest in
    if (length parts <? 3)%nat then None else Some parts
  end.

(** [indexOf] returns -1 when there is none. *)
Definition index_of (x : string) (l : list string) : Z :=
  match list_find (x =.) l with Some (i, _) => Z.of_nat i | None => -1 end.

(* @src domain/utils/RefLayout.ts extractValidWriterId *)
Definition extractValidWriterId (parts : list string) : option string :=
  let writersIndex := index_of "writers" parts in
  if ((writersIndex <? 1) || negb (writersIndex =? Z.of_nat (length parts) - 2))%Z then None
  else
    match parts !! (length parts - 1)%nat with
    | None => None
    | Some writerId =>
        if is_ok (validateWriterId (Some writerId)) then Some writerId else None
    end.

(* @src domain/utils/RefLayout.ts parseWriterIdFromRef *)
Definition parseWriterIdFromRef (refPath : option string) : option string :=
  match refPath with
  | None => None
  | Some refPath => splitWarpRefParts refPath ≫= extractValidWriterId
  end.

(** ** The refs of a graph *)
Inductive ref : Type :=
  | Writer (graph writer : string)
  | Checkpoint (graph : string)
  | Coverage (graph : string)
  | Strand (graph strand : string)
  | Intent (graph : string) (queued : bool) (owner : string)
  | StrandOverlay (graph strand : string)
  | StrandBraid (graph strand braided : string)
  | Audit (graph writer : string)
  | StateCache (graph : string)
  | SubstrateVersion (graph : string)
  | TrustRecord (graph : string).

Definition build (r : ref) : result string :=
  match r with
  | Writer g w => buildWriterRef g w
  | Checkpoint g => buildCheckpointRef g
  | Coverage g => buildCoverageRef g
  | Strand g s => buildStrandRef g s
  | Intent g queued o => buildIntentRef g queued o
  | StrandOverlay g s => buildStrandOverlayRef g s
  | StrandBraid g s b => buildStrandBraidRef g s b
  | Audit g w => buildAuditRef g w
  | StateCache g => buildStateCacheRef g
  | SubstrateVersion g => buildSubstrateVersionRef g
  | TrustRecord g => buildTrustRecordRef g
  end.

Definition graph_of (r : ref) : string :=
  match r with
  | Writer g _ | Checkpoint g | Coverage g | Strand g _ | Intent g _ _ | StrandOverlay g _
  | StrandBraid g _ _ | Audit g _ | StateCache g | SubstrateVersion g | TrustRecord g => g
  end.

(** The keyword after the graph name, and what follows it. *)
Definition keyword (r : ref) : string :=
  match r with
  | Writer _ _ => "writers" | Checkpoint _ => "checkpoints" | Coverage _ => "coverage"
  | Strand _ _ => "strands" | Intent _ _ _ => "intents" | StrandOverlay _ _ => "strand-overlays"
  | StrandBraid _ _ _ => "strand-braids" | Audit _ _ => "audit" | StateCache _ => "state-cache"
  | SubstrateVersion _ => "substrate-version" | TrustRecord _ => "trust"
  end.
Definition arguments (r : ref) : list string :=
  match r with
  | Writer _ w | Audit _ w => [w]
  | Checkpoint _ | Coverage _ => ["head"]
  | Strand _ s | StrandOverlay _ s => [s]
  | Intent _ queued o => [if queued then "queued" else "admitted"; o]
  | StrandBraid _ s b => [s; b]
  | StateCache _ | SubstrateVersion _ => []
  | TrustRecord _ => ["records"]
  end.

(** *** Segments *)
Lemma split_seg a b : str_split slash (a // b) = (str_split slash a ++ str_split slash b)%list.
Proof.
  induction a as [|c a IH]; [done|]. change (seg (String c a) b) with (String c (seg a b)). simpl.
  rewrite IH. case_decide; [done|].
  destruct (str_split slash a) as [|w ws] eqn:E; [by apply str_split_cons_nonnil in E|done].
Qed.

(** A path is determined by its segments. *)
Lemma split_inj s t : str_split slash s = str_split slash t → s = t.
Proof.
  remember (str_split slash s) as l eqn:E. revert s t E. induction l as [|w l IH]; intros s t E Et.
  - symmetry in E. by apply str_split_cons_nonnil in E.
  - destruct (decide (l = [])) as [->|Hl].
    + symmetry in E, Et. apply str_split_single in E as ->. by apply str_split_single in Et as ->.
    + symmetry in E, Et. apply str_split_cons in E as (s' & -> & E); [|done].
      apply str_split_cons in Et as (t' & -> & Et); [|done]. f_equal. f_equal. by apply IH.
Qed.

Definition reserved (s : string) : Prop := s ∈ RESERVED_GRAPH_NAME_SEGMENTS.

Ltac invert_checks := invert_ok; repeat match goal with x : () |- _ => destruct x end.

Lemma graph_segments g : validateGraphName (Some g) = Ok () → Forall (λ s, ¬ reserved s) (str_split slash g).
Proof.
  simpl. intros H. invert_checks. unfold rejectReservedSegments in H. apply require_ok in H.
  rewrite forallb_forall in H. apply Forall_forall. intros s Hs. specialize (H s).
  apply negb_true_iff, bool_decide_eq_false in H; [done|]. by apply list_elem_of_In.
Qed.

Lemma writer_segments w : validateWriterId (Some w) = Ok () → str_split slash w = [w].
Proof.
  simpl. intros H. invert_checks. unfold rejectForbiddenWriterChars in H. invert_checks.
  apply require_ok, negb_true_iff in Ha2. by apply str_split_none.
Qed.

Lemma build_segments r p :
  build r = Ok p →
  Forall (λ s, ¬ reserved s) (str_split slash (graph_of r)) ∧
  str_split slash p = ("refs" :: "warp" :: str_split slash (graph_of r) ++ keyword r :: arguments r)%list.
Proof.
  destruct r; simpl;
    unfold buildWriterRef, buildCheckpointRef, buildCoverageRef, buildStrandRef, buildIntentRef,
      buildStrandOverlayRef, buildStrandBraidRef, buildAuditRef, buildStateCacheRef,
      buildSubstrateVersionRef, buildTrustRecordRef;
    intros H; invert_checks; subst p;
    (split; [by apply graph_segments|]); rewrite !split_seg;
    repeat match goal with
      | H : validateWriterId (Some ?w) = Ok () |- _ => rewrite (writer_segments w H); clear H
      end; try done. by destruct queued.
Qed.

(** Where the first reserved segment is. *)
Lemma first_reserved l1 l2 (x y : string) r1 r2 :
  Forall (λ s, ¬ reserved s) l1 → Forall (λ s, ¬ reserved s) l2 → reserved x → reserved y →
  (l1 ++ x :: r1 = l2 ++ y :: r2)%list → l1 = l2 ∧ x = y ∧ r1 = r2.
Proof.
  intros H1. revert l2. induction H1 as [|a l1 Ha H1 IH]; intros l2 H2 Hx Hy; destruct H2 as [|b l2 Hb H2]; simpl.
  - by intros [= -> ->].
  - by intros [= -> _].
  - by intros [= -> _].
  - intros [= -> E]. by destruct (IH l2 H2 Hx Hy E) as (-> & -> & ->).
Qed.

Definition is_substrate_version (r : ref) : bool :=
  match r with SubstrateVersion _ => true | _ => false end.

Lemma keyword_reserved r : is_substrate_version r = false → reserved (keyword r).
Proof. destruct r; intros; try done; apply (bool_decide_unpack _); vm_compute; exact I. Qed.

Lemma version_not_reserved : ¬ reserved "substrate-version".
Proof. apply (bool_decide_eq_false_1 _). vm_compute. reflexivity. Qed.

Lemma no_reserved_tail l x r l' :
  Forall (λ s, ¬ reserved s) l' → ¬ reserved "substrate-version" → reserved x →
  (l' ++ ["substrate-version"] ≠ l ++ x :: r)%list.
Proof.
  intros Hl Hv Hx E. assert (x ∈ (l' ++ ["substrate-version"])%list) as Hin by (rewrite E; set_solver).
  apply elem_of_app in Hin as [Hin| ->%list_elem_of_singleton]; [|done].
  rewrite Forall_forall in Hl. by apply (Hl x).
Qed.

(** ** Properties *)
Lemma refs_injective r r' p : build r = Ok p → build r' = Ok p → r = r'.
Proof.
  intros [Hg E]%build_segments [Hg' E']%build_segments. rewrite E in E'. injection E' as E'. clear E.
  destruct (is_substrate_version r) eqn:Hr, (is_substrate_version r') eqn:Hr'.
  - destruct r, r'; try done. simpl in *. apply app_inj_tail in E' as [->%split_inj _]. done.
  - destruct r; try done. simpl in E'.
    by apply no_reserved_tail in E'; [|done|apply version_not_reserved|by apply keyword_reserved].
  - destruct r'; try done. simpl in E'. symmetry in E'.
    by apply no_reserved_tail in E'; [|done|apply version_not_reserved|by apply keyword_reserved].
  - apply first_reserved in E' as (Eg%split_inj & Ek & Ea); [|done|done|by apply keyword_reserved..].
    destruct r, r'; simpl in *; simplify_eq; try done. by destruct queued, queued0; simplify_eq.
Qed.

Lemma refs_do_not_nest r r' p rest :
  is_substrate_version r = false → build r = Ok p → build r' ≠ Ok (p // rest).
Proof.
  intros Hr [Hg E]%build_segments [Hg' E']%build_segments. rewrite split_seg, E in E'. simpl in E'.
  injection E' as E'. rewrite <- app_assoc in E'. simpl in E'.
  destruct (is_substrate_version r') eqn:Hr'.
  - destruct r'; try done. simpl in E'. symmetry in E'.
    by apply no_reserved_tail in E'; [|done|apply version_not_reserved|by apply keyword_reserved].
  - apply first_reserved in E' as (Eg & Ek & Ea); [|done|done|by apply keyword_reserved..].
    assert (length (arguments r) = length (arguments r')) as Hl by by destruct r, r'.
    rewrite <- Ea, length_app in Hl. pose proof (str_split_cons_nonnil slash rest) as Hs.
    destruct (str_split slash rest); [done|]. simpl in Hl. lia.
Qed.

(** *** Parsing *)
Lemma strip_prefix_app a s : strip_prefix a (a +:+ s) = Some s.
Proof. induction a as [|c a IH]; [done|]. change (String c a +:+ s) with (String c (a +:+ s)). simpl. by rewrite decide_True. Qed.

Lemma strip_prefix_Some a s x : strip_prefix a s = Some x → s = a +:+ x.
Proof.
  revert s. induction a as [|c a IH]; intros s; simpl; [by intros [= ->]|]. destruct s as [|d s]; [done|].
  case_decide; [|done]. intros ->%IH. by subst.
Qed.

Lemma prefix_slash a s : (a // "") +:+ s = a // s.
Proof. unfold seg. by rewrite str_app_assoc. Qed.

Lemma build_path r p : build r = Ok p → ∃ x, p = REF_PREFIX // x.
Proof.
  destruct r; simpl;
    unfold buildWriterRef, buildCheckpointRef, buildCoverageRef, buildStrandRef, buildIntentRef,
      buildStrandOverlayRef, buildStrandBraidRef, buildAuditRef, buildStateCacheRef,
      buildSubstrateVersionRef, buildTrustRecordRef;
    intros H; invert_ok; subst p; by eexists.
Qed.

Lemma split_built r p :
  build r = Ok p →
  strip_prefix (REF_PREFIX // "") p ≫= (λ rest, Some (str_split slash rest))
  = Some (str_split slash (graph_of r) ++ keyword r :: arguments r)%list.
Proof.
  intros Hb. pose proof (build_segments r p Hb) as [_ E]. apply build_path in Hb as [x ->].
  rewrite <- (prefix_slash REF_PREFIX x), strip_prefix_app. simpl. rewrite split_seg in E. by injection E as ->.
Qed.

Lemma index_of_app l1 l2 x :
  x ∉ l1 →
  index_of x (l1 ++ l2)%list
  = (if index_of x l2 <? 0 then -1 else Z.of_nat (length l1) + index_of x l2)%Z.
Proof.
  intros Hx. unfold index_of. rewrite list_find_app_r.
  - destruct (list_find _ l2) as [[i y]|]; [|done]. simpl.
    destruct (Z.ltb_spec (Z.of_nat i) 0); lia.
  - apply list_find_None, Forall_forall. intros y Hy <-. done.
Qed.

Lemma index_of_cons x y l :
  index_of x (y :: l) = (if decide (x = y) then 0 else if index_of x l <? 0 then -1 else 1 + index_of x l)%Z.
Proof.
  unfold index_of. simpl. destruct (decide (x = y)); [done|].
  destruct (list_find _ l) as [[i z]|]; [|done]. simpl. destruct (Z.ltb_spec (Z.of_nat i) 0); lia.
Qed.

(** The parser looks for the keyword after the graph name only. *)
Lemma extract_app gs t :
  gs ≠ [] → "writers" ∉ gs → t ≠ [] →
  extractValidWriterId (gs ++ t)%list
  = if ((index_of "writers" t <? 0) || negb (index_of "writers" t =? Z.of_nat (length t) - 2))%Z then None
    else t !! (length t - 1)%nat ≫= λ w, if is_ok (validateWriterId (Some w)) then Some w else None.
Proof.
  intros Hgs Hw Ht. unfold extractValidWriterId. rewrite index_of_app, length_app by done.
  assert (length gs ≠ 0%nat) by by intros ?%nil_length_inv.
  assert (length t ≠ 0%nat) by by intros ?%nil_length_inv.
  replace ((gs ++ t)%list !! (length gs + length t - 1)%nat) with (t !! (length t - 1)%nat)
    by (rewrite lookup_app_r by lia; f_equal; lia).
  destruct (Z.ltb_spec (index_of "writers" t) 0); [done|]. simpl.
  destruct (Z.ltb_spec (Z.of_nat (length gs) + index_of "writers" t) 1); [lia|]. simpl.
  destruct (Z.eqb_spec (index_of "writers" t) (Z.of_nat (length t) - 2)),
    (Z.eqb_spec (Z.of_nat (length gs) + index_of "writers" t) (Z.of_nat (length gs + length t) - 2));
    (done || lia).
Qed.

(** What the parser makes of each ref. *)
Definition parsed (r : ref) : option string :=
  match r with
  | Writer _ w => Some w
  | StrandBraid _ s b => if decide (s = "writers") then Some b else None
  | _ => None
  end.

Lemma build_valid r p w : build r = Ok p → parsed r = Some w → validateWriterId (Some w) = Ok ().
Proof.
  destruct r; simpl; try done; unfold buildWriterRef, buildStrandBraidRef; intros H; invert_checks.
  - by intros [= <-].
  - case_decide; [|done]. by intros [= <-].
Qed.

Lemma parse_built r p : build r = Ok p → parseWriterIdFromRef (Some p) = parsed r.
Proof.
  intros Hb. pose proof (split_built r p Hb) as Es. pose proof (build_segments r p Hb) as [Hg _].
  pose proof (build_valid r p) as Hv. simpl. unfold splitWarpRefParts.
  destruct (strip_prefix _ p) as [rest|]; [|done]. simpl in Es. injection Es as ->.
  assert ("writers" ∉ str_split slash (graph_of r)) as Hw.
  { intros Hin. rewrite Forall_forall in Hg. apply (Hg _ Hin). by apply (keyword_reserved (Writer "" "")). }
  pose proof (str_split_cons_nonnil slash (graph_of r)) as Hne.
  transitivity (extractValidWriterId (str_split slash (graph_of r) ++ keyword r :: arguments r)%list).
  - destruct (Nat.ltb_spec (length (str_split slash (graph_of r) ++ keyword r :: arguments r)%list) 3) as [Hl|];
      [|done]. rewrite length_app in Hl. destruct (str_split slash (graph_of r)) as [|g gs]; [done|].
    rewrite extract_app by done. by destruct r; simpl in Hl; try lia.
  - rewrite extract_app by done. destruct r; cbn [keyword arguments parsed] in *;
      rewrite !index_of_cons; repeat (case_decide; try done); cbn -[validateWriterId]; try done.
    all: first [by rewrite (Hv _ Hb eq_refl)|by destruct queued].
Qed.

(** C30. The refs of a graph do not clash: two builders, or one builder on other
    arguments, never give the same ref, and no ref lies below another one, as
    Git requires, unless that one is a substrate-version ref. *)
Theorem refs_do_not_clash (r r' : ref) (p p' rest : string) :
  build r = Ok p → build r' = Ok p' →
  (p = p' → r = r') ∧ (is_substrate_version r = false → p' ≠ p // rest).
Proof.
  intros Hp Hp'. split.
  - intros <-. by eapply refs_injective.
  - intros Hr ->. by eapply refs_do_not_nest.
Qed.

Lemma refs_do_not_clash_witness :
  build (Writer "team/app" "node-1") = Ok "refs/warp/team/app/writers/node-1" ∧
  ("refs/warp/team/app/writers/node-1" = "refs/warp/team/app/audit/node-1" →
    Writer "team/app" "node-1" = Audit "team/app" "node-1").
Proof.
  split; [vm_compute; reflexivity|].
  apply (refs_do_not_clash (Writer "team/app" "node-1") (Audit "team/app" "node-1")
    "refs/warp/team/app/writers/node-1" "refs/warp/team/app/audit/node-1" "").
  - vm_compute. reflexivity.
  - vm_compute. reflexivity.
Defined.

(** The keyword of a substrate-version ref is not reserved: a graph may have a
    name below which the refs of another graph lie. *)
Lemma version_ref_nests :
  build (SubstrateVersion "g") = Ok "refs/warp/g/substrate-version" ∧
  build (Writer "g/substrate-version" "w") = Ok ("refs/warp/g/substrate-version" // "writers/w").
Proof. split; vm_compute; reflexivity. Qed.

(** [parseWriterIdFromRef] inverts [buildWriterRef] and answers [null] on every
    other ref of a graph, except for the braids of a strand called [writers],
    which it takes for writer refs; whatever it reads is a valid writer id. *)
Theorem writer_refs_roundtrip (r : ref) (p : string) :
  build r = Ok p →
  parseWriterIdFromRef (Some p) = parsed r ∧
  ∀ w, parseWriterIdFromRef (Some p) = Some w → validateWriterId (Some w) = Ok ().
Proof.
  intros Hb. split; [by apply parse_built|]. intros w. rewrite (parse_built r p Hb). by apply (build_valid r p).
Qed.

Lemma writer_refs_roundtrip_witness :
  parseWriterIdFromRef (Some "refs/warp/team/app/writers/node-1") = Some "node-1" ∧
  parseWriterIdFromRef (Some "refs/warp/g/strand-braids/writers/b") = Some "b".
Proof.
  split.
  - apply (writer_refs_roundtrip (Writer "team/app" "node-1")). vm_compute. reflexivity.
  - apply (writer_refs_roundtrip (StrandBraid "g" "writers" "b")). vm_compute. reflexivity.
Defined.

(** A valid writer id need not be a component that Git accepts in a ref. *)
Lemma writer_id_samples :
  (λ id, is_ok (validateWriterId (Some id))) <$> [".hidden"; "x.lock"; "x."; "a..b"; "a/b"; ""]
  = [true; true; true; false; false; false].
Proof. vm_compute. reflexivity. Qed.
End RefLayout.
