(* ===== verification/Frontier.v ===== *)
(** The frontier of a replica: the last patch it saw of every writer
    ([services/Frontier.ts]). *)
From S2P Require Export Texts RefLayout.
#[local] Open Scope Z_scope.
#[local] Open Scope list_scope.

Module Frontier.

(* @src domain/services/Frontier.ts Frontier 14-15 *)
Record Frontier := mk { entries_of : gmap string string }.

#[global] Instance Frontier_eq_dec : EqDecision Frontier.
Proof. solve_decision. Defined.

(** [new Map(entries)]: a later entry of a key replaces an earlier one. *)
Definition map_of (entries : list (string * string)) : gmap string string :=
  foldl (λ m '(writerId, patchSha), <[writerId := patchSha]> m) ∅ entries.

(* @src domain/services/Frontier.ts constructor *)
Definition new (entries : option (list (string * string))) : Frontier :=
  match entries with Some entries => mk (map_of entries) | None => mk ∅ end.

(* @src domain/services/Frontier.ts set *)
Definition set (writerId patchSha : string) (f : Frontier) : Frontier :=
  mk (<[writerId := patchSha]> (entries_of f)).

(* @src domain/services/Frontier.ts get *)
Definition get (writerId : string) (f : Frontier) : option string := entries_of f !! writerId.

(* @src domain/services/Frontier.ts has *)
Definition has (writerId : string) (f : Frontier) : bool := bool_decide (is_Some (entries_of f !! writerId)).

(* @src domain/services/Frontier.ts size 37-39 *)
Definition size (f : Frontier) : nat := base.size (entries_of f).

(* @src domain/services/Frontier.ts keys *)
Definition keys (f : Frontier) : list string := (map_to_list (entries_of f)).*1.

(* @src domain/services/Frontier.ts entries *)
Definition entries (f : Frontier) : list (string * string) := map_to_list (entries_of f).

(* @src domain/services/Frontier.ts writers *)
Definition writers (f : Frontier) : list string := js_sort compareStrings (keys f).

(* @src domain/services/Frontier.ts clone *)
Definition clone (f : Frontier) : Frontier := new (Some (entries f)).

(** [([a], [b]) => (a < b ? -1 : a > b ? 1 : 0)] *)
Definition compare_entries (x y : string * string) : Z := compareStrings x.1 y.1.

Definition entry_text (entry : string * string) : string := Json.stringify_strings [entry.1; entry.2].

(** [fingerprint] for the iteration order [entries] of the map. *)
Definition fingerprint_in (entries : list (string * string)) : string :=
  let sorted := js_sort compare_entries entries in
  Json.stringify_array (entry_text <$> sorted).

(* @src domain/services/Frontier.ts fingerprint *)
Definition fingerprint (f : Frontier) : string := fingerprint_in (entries f).

(* @src domain/services/Frontier.ts merge *)
Definition merge (f other : Frontier) : Frontier :=
  foldl (λ merged '(writerId, patchSha), set writerId patchSha merged) (clone f) (entries other).

(** The codec encodes a plain object with string values. *)
Class Codec := {
  bytes : Type;
  encode : gmap string string → bytes;
  decode : bytes → result (gmap string string) }.

(** What the codec reads back is what was encoded. *)
Class CodecLaws `{Codec} : Prop := { decode_encode o : decode (encode o) = Ok o }.

Section codec.
Context `{Codec}.

(* @src domain/services/codec/CodecRequirement.ts requireCodec *)
Definition requireCodec (codec : option ()) : result () :=
  match codec with
  | Some c => Ok c
  | None => Throw (WarpError "E_CODEC_REQUIRED")
  end.

(** [obj[key] = val] on an object literal: for [__proto__] the assignment is the
    setter of the prototype, which ignores a string. *)
Definition assign (obj : gmap string string) (key val : string) : gmap string string :=
  if decide (key = "__proto__") then obj else <[key := val]> obj.

(* @src domain/services/Frontier.ts serialize *)
Definition serialize (codec : option ()) (f : Frontier) : result bytes :=
  _ ← requireCodec codec;
  Ok (encode (foldl (λ obj key,
    match get key f with Some val => assign obj key val | None => obj end) ∅ (writers f))).

(* @src domain/services/Frontier.ts deserialize *)
Definition deserialize (codec : option ()) (buffer : bytes) : result Frontier :=
  _ ← requireCodec codec;
  obj ← decode buffer;
  Ok (foldl (λ frontier '(writerId, patchSha), set writerId patchSha frontier) (new None) (map_to_list obj)).

(* @src domain/services/Frontier.ts serializeFrontier *)
Definition serializeFrontier (codec : option ()) (frontier : gmap string string) : result bytes :=
  serialize codec (new (Some (map_to_list frontier))).

(* @src domain/services/Frontier.ts deserializeFrontier *)
Definition deserializeFrontier (codec : option ()) (buffer : bytes) : result (gmap string string) :=
  f ← deserialize codec buffer;
  Ok (map_of (entries f)).
End codec.

(* @src domain/services/Frontier.ts createFrontier *)
Definition createFrontier : gmap string string := ∅.
(* @src domain/services/Frontier.ts updateFrontier *)
Definition updateFrontier (writerId patchSha : string) (frontier : gmap string string)
  : gmap string string := <[writerId := patchSha]> frontier.
(* @src domain/services/Frontier.ts getFrontierEntry *)
Definition getFrontierEntry (frontier : gmap string string) (writerId : string) : option string :=
  frontier !! writerId.
(* @src domain/services/Frontier.ts getWriters *)
Definition getWriters (frontier : gmap string string) : list string :=
  js_sort compareStrings (map_to_list frontier).*1.
(* @src domain/services/Frontier.ts cloneFrontier *)
Definition cloneFrontier (frontier : gmap string string) : gmap string string :=
  map_of (map_to_list frontier).
(* @src domain/services/Frontier.ts frontierFingerprint *)
Definition frontierFingerprint (frontier : gmap string string) : string :=
  fingerprint (new (Some (map_to_list frontier))).
(* @src domain/services/Frontier.ts mergeFrontiers *)
Definition mergeFrontiers (a b : gmap string string) : gmap string string :=
  foldl (λ merged '(writerId, patchSha), <[writerId := patchSha]> merged)
    (map_of (map_to_list a)) (map_to_list b).

(** ** Maps *)
Definition replace_value (_ : option string) (v : string) : string := v.

Lemma map_of_to_list m : map_of (map_to_list m) = m.
Proof.
  change (map_upsert replace_value ∅ m = m). apply map_eq. intros k. rewrite lookup_map_upsert.
  by destruct (m !! k); simpl; rewrite ?lookup_empty.
Qed.

Lemma foldl_set (l : list (string * string)) f :
  foldl (λ acc '(writerId, patchSha), set writerId patchSha acc) f l
  = mk (foldl (λ m '(writerId, patchSha), <[writerId := patchSha]> m) (entries_of f) l).
Proof. induction l as [|[k v] l IH] in f |- *; simpl; [by destruct f|]. by rewrite IH. Qed.

Lemma foldl_insert_union (a b : gmap string string) :
  foldl (λ m '(writerId, patchSha), <[writerId := patchSha]> m) a (map_to_list b) = b ∪ a.
Proof.
  change (map_upsert replace_value a b = b ∪ a). apply map_eq. intros k. rewrite lookup_map_upsert.
  unfold replace_value. destruct (b !! k) eqn:E.
  - by rewrite (lookup_union_Some_l b a k s).
  - by rewrite lookup_union_r.
Qed.

Lemma new_entries f : new (Some (entries f)) = f.
Proof. unfold new, entries. rewrite map_of_to_list. by destruct f. Qed.

Lemma merge_union f g : merge f g = mk (entries_of g ∪ entries_of f).
Proof. unfold merge, clone. rewrite new_entries, foldl_set. unfold entries. by rewrite foldl_insert_union. Qed.

(** ** The fingerprint *)
Lemma entry_text_prefix_free : Json.prefix_free entry_text.
Proof.
  intros [a b] [c d] s t E. unfold entry_text in E. simpl in E.
  apply Json.stringify_strings_prefix_free in E as [[= -> ->] ->]. done.
Qed.

Lemma array_text_inj (l m : list (string * string)) :
  Json.stringify_array (entry_text <$> l) = Json.stringify_array (entry_text <$> m) → l = m.
Proof.
  intros E. apply (Json.stringify_array_prefix_free entry_text entry_text_prefix_free) with (s := "") (t := "").
  - intros x. apply Json.stringify_strings_head.
  - by rewrite E.
Qed.

Lemma map_keys_inj (m : gmap string string) l x y :
  l ≡ₚ map_to_list m → x ∈ l → y ∈ l → x.1 = y.1 → x = y.
Proof.
  destruct x as [k v], y as [k' v']. intros ->. rewrite !elem_of_map_to_list. simpl. intros Hx Hy <-. congruence.
Qed.

Lemma fingerprint_in_inj f g l l' :
  l ≡ₚ entries f → l' ≡ₚ entries g → fingerprint_in l = fingerprint_in l' ↔ f = g.
Proof.
  intros Hl Hl'. split.
  - intros E%array_text_inj. destruct f as [f], g as [g]. f_equal.
    rewrite <- (list_to_map_to_list f), <- (list_to_map_to_list g).
    apply list_to_map_proper; [apply NoDup_fst_map_to_list|].
    by rewrite <- Hl, <- Hl', <- (js_sort_perm compare_entries l), E, js_sort_perm.
  - intros <-. unfold fingerprint_in. do 2 f_equal. apply (sort_key_unique fst); [by rewrite Hl, Hl'|].
    intros x y. by apply (map_keys_inj (entries_of f)).
Qed.

(** ** Serialization *)
Section roundtrip.
Context `{CodecLaws}.

Lemma serialize_object f ks obj k :
  foldl (λ obj key, match get key f with Some val => assign obj key val | None => obj end) obj ks !! k
  = if decide (k ∈ ks ∧ k ≠ "__proto__" ∧ is_Some (get k f)) then get k f else obj !! k.
Proof.
  induction ks as [|j ks IH] in obj |- *; cbn [foldl].
  - rewrite decide_False; [done|]. intros [?%elem_of_nil _]. done.
  - rewrite IH. destruct (decide (k ∈ ks ∧ _)) as [Hk|Hk]; [rewrite decide_True; set_solver|].
    destruct (decide (k = j)) as [->|Hne].
    + unfold assign. destruct (get j f) as [v|] eqn:Ev; [|by rewrite decide_False by naive_solver].
      destruct (decide (j = "__proto__")) as [Ej|Ej]; [by rewrite decide_False by naive_solver|].
      rewrite decide_True; [by rewrite lookup_insert_eq|]. split_and!; [by left|done|by eexists].
    + rewrite decide_False by (rewrite elem_of_cons; naive_solver). unfold assign.
      destruct (get j f); [|done]. case_decide; [done|]. by rewrite lookup_insert_ne.
Qed.

Lemma writers_keys f k : k ∈ writers f ↔ is_Some (get k f).
Proof.
  unfold writers, keys, get. rewrite elem_of_js_sort, list_elem_of_fmap. split.
  - intros ([k' v] & -> & Hin%elem_of_map_to_list). by exists v.
  - intros [v Hv]. exists (k, v). by rewrite elem_of_map_to_list.
Qed.

Lemma deserialize_serialize f :
  serialize (Some ()) f ≫= deserialize (Some ()) = Ok (mk (delete "__proto__" (entries_of f))).
Proof.
  unfold serialize, deserialize. cbn. rewrite decode_encode. cbn. f_equal.
  rewrite foldl_set. f_equal. cbn. rewrite foldl_insert_union, (right_id_L ∅ (∪)).
  apply map_eq. intros k. rewrite serialize_object, lookup_empty.
  destruct (decide (k = "__proto__")) as [->|Hne].
  - rewrite lookup_delete_eq, decide_False; [done|]. naive_solver.
  - rewrite lookup_delete_ne by done. destruct (get k f) as [v|] eqn:Ev.
    + rewrite decide_True; [done|]. split_and!; [apply writers_keys; by eexists|done|by eexists].
    + rewrite decide_False; [done|]. intros (_ & _ & []). done.
Qed.
End roundtrip.

(** ** Properties *)

(** The fingerprint identifies a frontier: whatever order the entries of two
    frontiers were inserted in, the fingerprints are equal exactly when every
    writer has the same patch in both. *)
Theorem frontier_fingerprint_identifies (f g : Frontier) (l l' : list (string * string)) :
  l ≡ₚ entries f → l' ≡ₚ entries g → fingerprint_in l = fingerprint_in l' ↔ f = g.
Proof. apply fingerprint_in_inj. Qed.

Definition sample : Frontier := new (Some [("b", "2"); ("a", "1"); ("b", "3")]).

Lemma frontier_fingerprint_identifies_witness :
  fingerprint_in [("b", "3"); ("a", "1")] = fingerprint_in [("a", "1"); ("b", "3")].
Proof.
  apply (frontier_fingerprint_identifies sample sample).
  - apply (bool_decide_unpack _). vm_compute. exact I.
  - apply (bool_decide_unpack _). vm_compute. exact I.
  - reflexivity.
Defined.

(** A serialized frontier is read back without the writer [__proto__], which is
    a valid writer id; every other frontier is read back as it was. Without a
    codec both directions throw. *)
Theorem frontier_serialize_roundtrip `{CodecLaws} (f : Frontier) :
  serialize (Some ()) f ≫= deserialize (Some ()) = Ok (mk (delete "__proto__" (entries_of f))) ∧
  (has "__proto__" f = false → serialize (Some ()) f ≫= deserialize (Some ()) = Ok f) ∧
  RefLayout.validateWriterId (Some "__proto__") = Ok () ∧
  serialize None f = Throw (WarpError "E_CODEC_REQUIRED") ∧
  ∀ b, deserialize None b = Throw (WarpError "E_CODEC_REQUIRED").
Proof.
  split_and!; [apply deserialize_serialize| |vm_compute; reflexivity|done|done].
  intros Hf%bool_decide_eq_false. rewrite deserialize_serialize, delete_id; [by destruct f|].
  by apply eq_None_not_Some.
Qed.

Definition object_codec : Codec := {| bytes := gmap string string; encode o := o; decode := Ok |}.
Lemma object_codec_laws : @CodecLaws object_codec.
Proof. by split. Qed.

Lemma frontier_serialize_roundtrip_witness :
  @serialize object_codec (Some ()) sample ≫= @deserialize object_codec (Some ()) = Ok sample ∧
  is_ok (@serialize object_codec (Some ()) sample) = true.
Proof.
  split; [|reflexivity].
  apply (@frontier_serialize_roundtrip object_codec object_codec_laws sample). vm_compute. reflexivity.
Defined.

(** The free functions do what the class does. *)
Lemma free_functions_agree (a b : gmap string string) :
  mergeFrontiers a b = entries_of (merge (mk a) (mk b)) ∧ cloneFrontier a = a ∧
  frontierFingerprint a = fingerprint (mk a) ∧ getWriters a = writers (mk a).
Proof.
  split_and!; [|apply map_of_to_list| |done].
  - rewrite merge_union. unfold mergeFrontiers. by rewrite map_of_to_list, foldl_insert_union.
  - unfold frontierFingerprint, new. by rewrite map_of_to_list.
Qed.

(** A merge prefers the other frontier; it is idempotent and associative, and
    commutes on frontiers without a common writer. *)
Lemma merge_laws f g k :
  merge f f = f ∧ merge (merge f g) k = merge f (merge g k) ∧
  (entries_of f ##ₘ entries_of g → merge f g = merge g f).
Proof.
  rewrite !merge_union. split_and!.
  - rewrite (idemp_L (∪)). by destruct f.
  - simpl. by rewrite (assoc_L (∪)).
  - intros Hd. f_equal. by rewrite map_union_comm.
Qed.
End Frontier.
