(* ===== verification/WriterId.v ===== *)
(** Writer identities ([utils/WriterId.ts]): generation from random bytes and
    resolution through the configuration of a repository. *)
From S2P Require Export RefLayout.
#[local] Open Scope Z_scope.
#[local] Open Scope list_scope.

(** ** 32-bit integers *)

(** [ToInt32] and [ToUint32]. *)
Definition to_uint32 (x : Z) : Z := x mod 2 ^ 32.
Definition to_int32 (x : Z) : Z := (x + 2 ^ 31) mod 2 ^ 32 - 2 ^ 31.

(** [a << n], [a | b], [a >>> n] and [a & b] *)
Definition js_shl (a n : Z) : Z := to_int32 (Z.shiftl (to_int32 a) n).
Definition js_or (a b : Z) : Z := Z.lor (to_int32 a) (to_int32 b).
Definition js_shr (a n : Z) : Z := Z.shiftr (to_uint32 a) n.
Definition js_and (a b : Z) : Z := Z.land (to_int32 a) (to_int32 b).

(** Both reduce modulo 2^32. *)
Lemma to_int32_eq x : ∃ q, to_int32 x = x + q * 2 ^ 32.
Proof.
  exists (- ((x + 2 ^ 31) / 2 ^ 32)). unfold to_int32. rewrite Z.mod_eq by done. ring.
Qed.

Lemma mod_shift x q k : 0 <= k <= 32 → (x + q * 2 ^ 32) mod 2 ^ k = x mod 2 ^ k.
Proof.
  intros Hk. replace (2 ^ 32) with (2 ^ (32 - k) * 2 ^ k) by (rewrite <- Z.pow_add_r by lia; f_equal; lia).
  rewrite Z.mul_assoc, Z.mod_add; [done|]. pose proof (Z.pow_pos_nonneg 2 k). lia.
Qed.

Lemma to_int32_mod x k : 0 <= k <= 32 → to_int32 x mod 2 ^ k = x mod 2 ^ k.
Proof. intros Hk. destruct (to_int32_eq x) as [q ->]. by apply mod_shift. Qed.

Lemma to_int32_id x : - 2 ^ 31 <= x < 2 ^ 31 → to_int32 x = x.
Proof. change (2 ^ 31) with 2147483648. intros Hx. unfold to_int32.
  change (2 ^ 31) with 2147483648. change (2 ^ 32) with 4294967296. rewrite Z.mod_small; lia. Qed.

(** The low byte is free after a shift by eight. *)
Lemma lor_byte v b : 0 <= b < 256 → Z.lor (v * 256) b = v * 256 + b.
Proof.
  intros Hb. pose proof (Z.add_lor_land (v * 256) b) as E.
  assert (Z.land (v * 256) b = 0) as Hl; [|lia]. apply Z.bits_inj'. intros n Hn.
  rewrite Z.land_spec, Z.bits_0. change 256 with (2 ^ 8).
  destruct (Z.lt_ge_cases n 8) as [Hlt|Hge].
  - by rewrite Z.mul_pow2_bits_low.
  - rewrite (Z.bits_above_log2 b n); [apply andb_false_r|lia|].
    destruct (decide (b = 0)) as [->|]; [simpl; lia|]. apply Z.log2_lt_pow2; [lia|].
    apply Z.lt_le_trans with (2 ^ 8); [simpl; lia|]. by apply Z.pow_le_mono_r.
Qed.

Lemma js_and_31 x : js_and x 31 = x mod 32.
Proof.
  unfold js_and. rewrite (to_int32_id 31) by (simpl; lia). change 31 with (Z.ones 5).
  rewrite Z.land_ones by done. by apply (to_int32_mod x 5).
Qed.

Module WriterId.

Definition WriterIdError (code : string) : error := Err "WriterIdError" code.

(* @src domain/utils/WriterId.ts CROCKFORD32 *)
Definition CROCKFORD32 : string := "0123456789abcdefghjkmnpqrstvwxyz".

Definition crockford_char (c : ascii) : bool :=
  RefLayout.in_range "0" "9" c || RefLayout.in_range "a" "h" c || bool_decide (c ∈ ["j"; "k"; "m"; "n"]%char) ||
  RefLayout.in_range "p" "t" c || RefLayout.in_range "v" "z" c.

(** [/^w_[0-9a-hjkmnp-tv-z]{26}$/.test(id)] *)
(* @src domain/utils/WriterId.ts CANONICAL_RE *)
Definition CANONICAL_RE (id : string) : bool :=
  match id with
  | String "w" (String "_" body) => (String.length body =? 26)%nat && RefLayout.str_forall crockford_char body
  | _ => false
  end.

(* @src domain/utils/WriterId.ts validateWriterIdCanonical *)
Definition validateWriterIdCanonical (id : option string) : result unit :=
  match id with
  | None => Throw (WriterIdError "INVALID_TYPE")
  | Some id => require (CANONICAL_RE id) (WriterIdError "INVALID_CANONICAL")
  end.

(** [CROCKFORD32[idx]] as a string to append. *)
Definition digit (idx : Z) : string :=
  match String.get (Z.to_nat idx) CROCKFORD32 with Some c => String c "" | None => "undefined" end.

(** The inner loop; it runs at most twice, as at most twelve bits wait. *)
Fixpoint emit (fuel : nat) (value bits : Z) (out : string) : Z * string :=
  match fuel with
  | O => (bits, out)
  | S fuel' =>
    if 5 <=? bits then
      let idx := js_and (js_shr value (bits - 5)) 31 in
      emit fuel' value (bits - 5) (out +:+ digit idx)
    else (bits, out)
  end.

Fixpoint encode_bytes (bytes : list Z) (bits value : Z) (out : string) : Z * Z * string :=
  match bytes with
  | [] => (bits, value, out)
  | b :: bytes' =>
    let value := js_or (js_shl value 8) b in
    let '(bits, out) := emit (Z.to_nat (bits + 8)) value (bits + 8) out in
    encode_bytes bytes' bits value out
  end.

(* @src domain/utils/WriterId.ts crockfordBase32 *)
Definition crockfordBase32 (bytes : list Z) : string :=
  let '(bits, value, out) := encode_bytes bytes 0 0 "" in
  if 0 <? bits then out +:+ digit (js_and (js_shl value (5 - bits)) 31) else out.

(** [s.toLowerCase()] on ASCII. *)
Definition lower (c : ascii) : ascii :=
  if RefLayout.in_range "A" "Z" c then ascii_of_N (N_of_ascii c + 32) else c.
Fixpoint to_lower (s : string) : string :=
  match s with EmptyString => "" | String c s' => String (lower c) (to_lower s') end.

(** [rb] is the random source: a byte array, [None] for any other value. *)
(* @src domain/utils/WriterId.ts generateWriterId *)
Definition generateWriterId (rb : nat → result (option (list Z))) : result string :=
  bytes ← rb 16%nat;
  match bytes with
  | Some bytes =>
      _ ← require (length bytes =? 16)%nat (WriterIdError "CSPRNG_UNAVAILABLE");
      Ok ("w_" +:+ to_lower (crockfordBase32 bytes))
  | None => Throw (WriterIdError "CSPRNG_UNAVAILABLE")
  end.

(** [getRandomValues] of the platform, when there is one, fills an array. *)
(* @src domain/utils/WriterId.ts defaultRandomBytes *)
Definition defaultRandomBytes (getRandomValues : option (nat → list Z)) (n : nat)
  : result (option (list Z)) :=
  match getRandomValues with
  | Some fill => Ok (Some (fill n))
  | None => Throw (WriterIdError "CSPRNG_UNAVAILABLE")
  end.

(** ** Resolution, over the configuration of the repository *)
Section resolve.
Context {S : Type} (getRandomValues : option (nat → list Z)).
Context (configGet : string → step S (option string)) (configSet : string → string → step S unit).

(** [try { await call } catch (e) { throw new WriterIdError(code) }] *)
Definition wrapped {A} (code : string) (call : step S A) : step S A := λ s,
  match call s with
  | (s', Ok a) => (s', Ok a)
  | (s', Throw _) => (s', Throw (WriterIdError code))
  end.

(* @src domain/utils/WriterId.ts readConfigKey *)
Definition readConfigKey (key : string) : step S (option string) :=
  wrapped "CONFIG_READ_FAILED" (configGet key).

(* @src domain/utils/WriterId.ts tryValidateWriterId *)
Definition tryValidateWriterId (id : string) : bool := is_ok (RefLayout.validateWriterId (Some id)).

(* @src domain/utils/WriterId.ts loadFromConfig *)
Definition loadFromConfig (key : string) : step S (option string) :=
  existing ← readConfigKey key;
  mret (match existing with
        | None | Some EmptyString => None
        | Some existing => if tryValidateWriterId existing then Some existing else None
        end).

(* @src domain/utils/WriterId.ts generateAndPersist *)
Definition generateAndPersist (key : string) : step S string :=
  fresh ← lift (generateWriterId (defaultRandomBytes getRandomValues));
  _ ← lift (RefLayout.validateWriterId (Some fresh));
  _ ← lift (validateWriterIdCanonical (Some fresh));
  _ ← wrapped "CONFIG_WRITE_FAILED" (configSet key fresh);
  mret fresh.

(* @src domain/utils/WriterId.ts resolveWriterId *)
Definition resolveWriterId (graphName : string) (explicitWriterId : option string) : step S string :=
  match explicitWriterId with
  | Some id => _ ← lift (RefLayout.validateWriterId (Some id)); mret id
  | None =>
    let key := "warp.writerId." +:+ graphName in
    fromConfig ← loadFromConfig key;
    match fromConfig with
    | Some id => mret id
    | None => generateAndPersist key
    end
  end.
End resolve.

(** ** The encoding *)

(** The number that bytes denote, most significant first. *)
Definition be_value (bytes : list Z) : Z := foldl (λ n b, n * 256 + b) 0 bytes.

(** The number that base-32 digits denote. *)
Fixpoint char_index (c : ascii) (s : string) : Z :=
  match s with
  | EmptyString => 0
  | String a s' => if decide (a = c) then 0 else 1 + char_index c s'
  end.
Fixpoint digits_value (acc : Z) (s : string) : Z :=
  match s with
  | EmptyString => acc
  | String c s' => digits_value (acc * 32 + char_index c CROCKFORD32) s'
  end.

Definition good_char (c : ascii) : bool :=
  crockford_char c && RefLayout.writer_char c && bool_decide (lower c = c) &&
  bool_decide (c ≠ RefLayout.dot ∧ c ≠ RefLayout.slash ∧ c ≠ FIELD_SEPARATOR) && negb (js_is_space c).

Lemma digit_spec d :
  0 <= d < 32 → ∃ c, digit d = String c "" ∧ char_index c CROCKFORD32 = d ∧ good_char c = true.
Proof.
  intros Hd.
  assert (forallb (λ d, match digit d with
    | String c "" => (char_index c CROCKFORD32 =? d) && good_char c | _ => false end) (seqZ 0 32) = true)
    as Hall by (vm_compute; reflexivity).
  rewrite forallb_forall in Hall. specialize (Hall d).
  destruct (digit d) as [|c [|]]; try (discriminate Hall; apply list_elem_of_In, elem_of_seqZ; lia).
  destruct (proj1 (andb_true_iff _ _) (Hall ltac:(apply list_elem_of_In, elem_of_seqZ; lia))) as [Hi%Z.eqb_eq Hg].
  by exists c.
Qed.

Lemma digits_value_app acc s t : digits_value acc (s +:+ t) = digits_value (digits_value acc s) t.
Proof. induction s as [|c s IH] in acc |- *; [done|]. change (String c s +:+ t) with (String c (s +:+ t)). simpl. apply IH. Qed.

Lemma forall_app p s t : RefLayout.str_forall p (s +:+ t) = RefLayout.str_forall p s && RefLayout.str_forall p t.
Proof.
  induction s as [|c s IH]; [done|]. change (String c s +:+ t) with (String c (s +:+ t)). simpl.
  by rewrite IH, andb_assoc.
Qed.

Lemma length_app_str s t : String.length (s +:+ t) = (String.length s + String.length t)%nat.
Proof. induction s as [|c s IH]; [done|]. change (String c s +:+ t) with (String c (s +:+ t)). simpl. by rewrite IH. Qed.

(** The output so far holds all bits of [n] but the last [bits]. *)
Record written (n bits : Z) (total : Z) (out : string) : Prop := {
  w_value : digits_value 0 out = n / 2 ^ bits;
  w_length : 5 * Z.of_nat (String.length out) + bits = total;
  w_chars : RefLayout.str_forall good_char out = true }.

Lemma written_digit n bits total out d :
  5 <= bits → written n bits total out → d = (n / 2 ^ (bits - 5)) mod 32 →
  written n (bits - 5) total (out +:+ digit d).
Proof.
  intros Hb [Hv Hl Hc] Hd. assert (0 <= d < 32) as Hr by (subst d; apply Z.mod_pos_bound; lia).
  destruct (digit_spec d Hr) as (c & -> & Hi & Hg). split.
  - rewrite digits_value_app, Hv. cbn [digits_value]. rewrite Hi, Hd.
    replace (2 ^ bits) with (2 ^ (bits - 5) * 32)
      by (change 32 with (2 ^ 5); rewrite <- Z.pow_add_r by lia; f_equal; lia).
    rewrite <- Z.div_div by (try apply Z.pow_nonzero; lia).
    pose proof (Z.div_mod (n / 2 ^ (bits - 5)) 32). lia.
  - rewrite length_app_str. simpl. lia.
  - rewrite forall_app, Hc. simpl. by rewrite Hg.
Qed.

(** The five bits above the last [k]. *)
Lemma read_digit value n q k :
  0 <= k <= 27 → value = n + q * 2 ^ 32 → js_and (js_shr value k) 31 = (n / 2 ^ k) mod 32.
Proof.
  intros Hk ->. rewrite js_and_31. unfold js_shr, to_uint32. rewrite Z.mod_add by done.
  rewrite Z.shiftr_div_pow2 by lia. rewrite (Z.div_mod n (2 ^ 32)) at 2 by done.
  replace (2 ^ 32 * (n / 2 ^ 32)) with (n / 2 ^ 32 * 2 ^ (32 - k - 5) * 32 * 2 ^ k).
  - rewrite Z.div_add_l by (apply Z.pow_nonzero; lia). rewrite Z.add_comm, Z.mod_add by done. done.
  - rewrite (Z.mul_comm (2 ^ 32)). change 32 with (2 ^ 5). rewrite <- !Z.mul_assoc, <- !Z.pow_add_r by lia.
    do 2 f_equal. lia.
Qed.

Lemma emit_spec fuel value n q bits total out :
  0 <= bits <= 32 → bits <= Z.of_nat fuel → value = n + q * 2 ^ 32 → written n bits total out →
  ∃ bits' out', emit fuel value bits out = (bits', out') ∧ 0 <= bits' < 5 ∧ written n bits' total out'.
Proof.
  revert bits out. induction fuel as [|fuel IH]; intros bits out Hb Hf Hv Hw; simpl.
  - exists bits, out. split_and!; [done|lia|lia|done].
  - destruct (Z.leb_spec 5 bits) as [Hge|Hlt].
    + apply IH; [lia|lia|done|]. apply written_digit; [done|done|]. apply (read_digit value n q); [lia|done].
    + exists bits, out. split_and!; [done|lia|lia|done].
Qed.

Definition is_byte (b : Z) : Prop := 0 <= b < 256.

Lemma shift_in value n q b :
  is_byte b → value = n + q * 2 ^ 32 → ∃ q', js_or (js_shl value 8) b = n * 256 + b + q' * 2 ^ 32.
Proof.
  intros Hb ->. unfold js_or, js_shl. rewrite Z.shiftl_mul_pow2 by done. change (2 ^ 8) with 256.
  destruct (to_int32_eq (n + q * 2 ^ 32)) as [q1 ->].
  destruct (to_int32_eq ((n + q * 2 ^ 32 + q1 * 2 ^ 32) * 256)) as [q2 ->].
  destruct (to_int32_eq ((n + q * 2 ^ 32 + q1 * 2 ^ 32) * 256 + q2 * 2 ^ 32)) as [q3 ->].
  rewrite (to_int32_id b) by (change (2 ^ 31) with 2147483648; unfold is_byte in Hb; lia).
  exists ((q + q1) * 256 + q2 + q3).
  replace ((n + q * 2 ^ 32 + q1 * 2 ^ 32) * 256 + q2 * 2 ^ 32 + q3 * 2 ^ 32)
    with ((n + (q + q1) * 2 ^ 32 + (q2 + q3) * 2 ^ 24) * 256)
    by (change (2 ^ 32) with (2 ^ 24 * 256); ring).
  rewrite lor_byte by done. change (2 ^ 32) with (2 ^ 24 * 256). ring.
Qed.

Lemma written_byte n bits total out b :
  0 <= bits → is_byte b → written n bits total out → written (n * 256 + b) (bits + 8) (total + 8) out.
Proof.
  intros Hb Hbyte [Hv Hl Hc]. split; [|lia|done]. rewrite Hv, Z.pow_add_r by lia. change (2 ^ 8) with 256.
  rewrite (Z.mul_comm (2 ^ bits)), <- Z.div_div by (pose proof (Z.pow_pos_nonneg 2 bits); lia).
  f_equal. rewrite Z.add_comm, Z.div_add by done. rewrite Z.div_small by done. lia.
Qed.

Lemma encode_bytes_spec bytes n q bits value total out :
  Forall is_byte bytes → 0 <= bits < 5 → value = n + q * 2 ^ 32 → written n bits total out →
  ∃ bits' value' out' q', encode_bytes bytes bits value out = (bits', value', out') ∧ 0 <= bits' < 5 ∧
    value' = foldl (λ n b, n * 256 + b) n bytes + q' * 2 ^ 32 ∧
    written (foldl (λ n b, n * 256 + b) n bytes) bits' (total + 8 * Z.of_nat (length bytes)) out'.
Proof.
  intros Hbytes. revert n q bits value total out.
  induction Hbytes as [|b bytes Hb Hbytes IH]; intros n q bits value total out Hbits Hv Hw.
  - exists bits, value, out, q. cbn [length foldl].
    rewrite Z.mul_0_r, Z.add_0_r. by split; [|split; [|split]].
  - cbn [encode_bytes foldl]. destruct (shift_in value n q b Hb Hv) as [q' Hs].
    destruct (emit_spec (Z.to_nat (bits + 8)) (js_or (js_shl value 8) b) (n * 256 + b) q' (bits + 8) (total + 8) out)
      as (bits1 & out1 & -> & Hb1 & Hw1); [lia|lia|done|by apply written_byte; [lia|done|]|].
    destruct (IH (n * 256 + b) q' bits1 _ (total + 8) out1 Hb1 Hs Hw1) as (bits2 & v2 & out2 & q2 & E & ? & ? & Hw2).
    exists bits2, v2, out2, q2. split_and!; [done|lia|lia|done|].
    cbn [length]. replace (total + 8 * Z.of_nat (Datatypes.S (length bytes))) with (total + 8 + 8 * Z.of_nat (length bytes)) by lia.
    done.
Qed.

(** The zero bits that fill the last digit. *)
Definition padding (bytes : list Z) : Z := (- (8 * Z.of_nat (length bytes))) mod 5.

Lemma crockford_spec bytes :
  Forall is_byte bytes →
  digits_value 0 (crockfordBase32 bytes) = be_value bytes * 2 ^ padding bytes ∧
  5 * Z.of_nat (String.length (crockfordBase32 bytes)) = 8 * Z.of_nat (length bytes) + padding bytes ∧
  RefLayout.str_forall good_char (crockfordBase32 bytes) = true.
Proof.
  intros Hb. unfold crockfordBase32.
  destruct (encode_bytes_spec bytes 0 0 0 0 0 "" Hb) as (bits & value & out & q & -> & Hbits & Hv & [Wv Wl Wc]);
    [lia|done|by split|]. fold (be_value bytes) in Hv, Wv.
  assert (padding bytes = if 0 <? bits then 5 - bits else 0) as ->.
  { unfold padding. rewrite <- (Z.add_0_l (8 * _)), <- Wl.
    destruct (Z.ltb_spec 0 bits); symmetry; eapply Z.mod_unique; [lia| |lia|]; [|].
    - instantiate (1 := - Z.of_nat (String.length out) - 1). lia.
    - instantiate (1 := - Z.of_nat (String.length out)). lia. }
  destruct (Z.ltb_spec 0 bits) as [Hpos|Hz].
  - set (n := be_value bytes) in *.
    assert (js_and (js_shl value (5 - bits)) 31 = (n * 2 ^ (5 - bits)) mod 32) as ->.
    { rewrite js_and_31. unfold js_shl. rewrite Z.shiftl_mul_pow2 by lia. change 32 with (2 ^ 5).
      rewrite to_int32_mod by lia. destruct (to_int32_eq value) as [q1 ->]. subst value.
      replace ((n + q * 2 ^ 32 + q1 * 2 ^ 32) * 2 ^ (5 - bits))
        with (n * 2 ^ (5 - bits) + (q + q1) * 2 ^ (5 - bits) * 2 ^ 32) by ring.
      by rewrite mod_shift. }
    pose proof (Z.mod_pos_bound (n * 2 ^ (5 - bits)) 32 ltac:(lia)) as Hr.
    destruct (digit_spec _ Hr) as (c & -> & Hi & Hg). split_and!.
    + rewrite digits_value_app, Wv. cbn [digits_value]. rewrite Hi.
      replace (n / 2 ^ bits) with (n * 2 ^ (5 - bits) / 32).
      * pose proof (Z.div_mod (n * 2 ^ (5 - bits)) 32). lia.
      * replace 32 with (2 ^ bits * 2 ^ (5 - bits))
          by (change 32 with (2 ^ 5); rewrite <- Z.pow_add_r by lia; f_equal; lia).
        by rewrite Z.div_mul_cancel_r by (apply Z.pow_nonzero; lia).
    + rewrite length_app_str. simpl. lia.
    + rewrite forall_app, Wc. simpl. by rewrite Hg.
  - assert (bits = 0) as -> by lia. rewrite Wv. change (2 ^ 0) with 1. rewrite Z.div_1_r.
    split_and!; [lia|lia|done].
Qed.

Lemma be_value_snoc bytes b : be_value (bytes ++ [b]) = be_value bytes * 256 + b.
Proof. unfold be_value. by rewrite foldl_app. Qed.

Lemma be_value_inj xs ys :
  Forall is_byte xs → Forall is_byte ys → length xs = length ys → be_value xs = be_value ys → xs = ys.
Proof.
  revert ys. induction xs as [|x xs IH] using rev_ind; intros ys Hx Hy Hl.
  - by destruct ys.
  - destruct ys as [|y ys _] using rev_ind; [rewrite length_app in Hl; simpl in Hl; lia|].
    rewrite !length_app in Hl. simpl in Hl. rewrite !be_value_snoc.
    apply Forall_app in Hx as [Hx Hx1%Forall_inv], Hy as [Hy Hy1%Forall_inv].
    unfold is_byte in Hx1, Hy1. intros E. rewrite (IH ys Hx Hy) by lia. f_equal. f_equal. lia.
Qed.

Lemma crockford_inj xs ys :
  Forall is_byte xs → Forall is_byte ys → length xs = length ys →
  crockfordBase32 xs = crockfordBase32 ys → xs = ys.
Proof.
  intros Hx Hy Hl E. apply be_value_inj; [done..|].
  destruct (crockford_spec xs Hx) as (Vx & _ & _), (crockford_spec ys Hy) as (Vy & _ & _).
  rewrite E, Vy in Vx. unfold padding in Vx. rewrite Hl in Vx.
  apply Z.mul_reg_r in Vx; [done|]. apply Z.pow_nonzero; [done|]. by apply Z.mod_pos_bound.
Qed.

(** ** Validity *)
Definition safe_char (c : ascii) : bool :=
  RefLayout.writer_char c && bool_decide (c ≠ RefLayout.dot ∧ c ≠ RefLayout.slash ∧ c ≠ FIELD_SEPARATOR)
  && negb (js_is_space c).

Lemma forall_impl (p q : ascii → bool) s :
  (∀ c, p c = true → q c = true) → RefLayout.str_forall p s = true → RefLayout.str_forall q s = true.
Proof.
  intros Hpq. induction s as [|c s IH]; simpl; [done|]. intros [Hc Hs]%andb_true_iff.
  by rewrite Hpq, IH.
Qed.

Lemma good_safe c : good_char c = true → safe_char c = true.
Proof. unfold good_char, safe_char. rewrite !andb_true_iff. naive_solver. Qed.

Lemma safe_validate s :
  s ≠ "" → (String.length s ≤ RefLayout.MAX_WRITER_ID_LENGTH)%nat → RefLayout.str_forall safe_char s = true →
  RefLayout.validateWriterId (Some s) = Ok ().
Proof.
  intros Hne Hl Hs.
  assert (∀ c, (∃ d, d = c ∧ (c = RefLayout.slash ∨ c = FIELD_SEPARATOR)) → str_includes c s = false) as Hinc.
  { intros c (_ & _ & Hc). clear Hne Hl. induction s as [|a s IH]; simpl in *; [done|].
    apply andb_true_iff in Hs as [Ha Hs]. rewrite IH, orb_false_r by done.
    unfold safe_char in Ha. rewrite !andb_true_iff, bool_decide_eq_true in Ha.
    apply bool_decide_eq_false. naive_solver. }
  assert (RefLayout.PATH_TRAVERSAL_PATTERN s = false) as Hp.
  { clear Hne Hl Hinc. induction s as [|a s IH]; simpl in *; [done|].
    apply andb_true_iff in Hs as [Ha Hs]. rewrite IH, orb_false_r by done.
    unfold safe_char in Ha. rewrite !andb_true_iff, bool_decide_eq_true in Ha.
    apply bool_decide_eq_false. naive_solver. }
  assert (RefLayout.has_space s = false) as Hw.
  { clear Hne Hl Hinc Hp. induction s as [|a s IH]; simpl in *; [done|].
    apply andb_true_iff in Hs as [Ha Hs]. rewrite IH, orb_false_r by done.
    unfold safe_char in Ha. rewrite !andb_true_iff in Ha. destruct Ha as [_ Ha]. by apply negb_true_iff. }
  assert (RefLayout.str_forall RefLayout.writer_char s = true) as Hc.
  { revert Hs. apply forall_impl. intros c. unfold safe_char. rewrite !andb_true_iff. naive_solver. }
  unfold RefLayout.validateWriterId, RefLayout.rejectForbiddenWriterChars, RefLayout.rejectControlAndNonAscii,
    RefLayout.WRITER_ID_PATTERN.
  rewrite (proj2 (Nat.leb_le _ _) Hl), Hp, Hw, Hc, !Hinc by eauto.
  by destruct s.
Qed.

Lemma lower_good s : RefLayout.str_forall good_char s = true → to_lower s = s.
Proof.
  induction s as [|c s IH]; simpl; [done|]. intros [Hc Hs]%andb_true_iff. rewrite IH by done.
  unfold good_char in Hc. rewrite !andb_true_iff, !bool_decide_eq_true in Hc. f_equal. naive_solver.
Qed.

(** A source that returns 16 bytes. *)
Definition good_source (rb : nat → result (option (list Z))) (bytes : list Z) : Prop :=
  rb 16%nat = Ok (Some bytes) ∧ length bytes = 16%nat ∧ Forall is_byte bytes.

Lemma generate_ok rb bytes :
  good_source rb bytes →
  generateWriterId rb = Ok ("w_" +:+ crockfordBase32 bytes) ∧
  validateWriterIdCanonical (Some ("w_" +:+ crockfordBase32 bytes)) = Ok () ∧
  RefLayout.validateWriterId (Some ("w_" +:+ crockfordBase32 bytes)) = Ok ().
Proof.
  intros (Hrb & Hl & Hb). destruct (crockford_spec bytes Hb) as (_ & Hlen & Hc).
  assert (padding bytes = 2) as Hpad by (unfold padding; by rewrite Hl).
  assert (String.length (crockfordBase32 bytes) = 26%nat) as Hn by lia.
  change ("w_" +:+ crockfordBase32 bytes) with (String "w" (String "_" (crockfordBase32 bytes))).
  split_and!.
  - unfold generateWriterId. rewrite Hrb. cbn [mbind result_bind]. rewrite Hl, lower_good by done. done.
  - unfold validateWriterIdCanonical, CANONICAL_RE. rewrite Hn, (forall_impl good_char); [done| |done].
    intros c. unfold good_char. rewrite !andb_true_iff. naive_solver.
  - apply safe_validate; [done| |].
    + cbn [String.length]. rewrite Hn. unfold RefLayout.MAX_WRITER_ID_LENGTH. lia.
    + cbn [RefLayout.str_forall]. rewrite (forall_impl good_char safe_char); [done|apply good_safe|done].
Qed.

(** ** The configuration *)

(** A configuration that keeps what was set last. *)
Class ConfigLaws {S} (configGet : string → step S (option string))
    (configSet : string → string → step S unit) (view : S → gmap string string) : Prop := {
  config_get key s : configGet key s = (s, Ok (view s !! key));
  config_set key v s : ∃ s', configSet key v s = (s', Ok ()) ∧ view s' = <[key := v]> (view s) }.

Section resolution.
Context `{ConfigLaws C configGet configSet view}.

Lemma load_valid key s id :
  view s !! key = Some id → RefLayout.validateWriterId (Some id) = Ok () →
  loadFromConfig configGet key s = (s, Ok (Some id)).
Proof.
  intros Hk Hv. unfold loadFromConfig, readConfigKey, wrapped, mbind, step_bind. rewrite config_get, Hk.
  unfold mret, step_ret, tryValidateWriterId. rewrite Hv. by destruct id.
Qed.

Lemma load_invalid key s :
  (∀ id, view s !! key = Some id → RefLayout.validateWriterId (Some id) ≠ Ok ()) →
  loadFromConfig configGet key s = (s, Ok None).
Proof.
  intros Hk. unfold loadFromConfig, readConfigKey, wrapped, mbind, step_bind. rewrite config_get.
  unfold mret, step_ret, tryValidateWriterId. destruct (view s !! key) as [id|]; [|done].
  specialize (Hk id eq_refl). destruct (RefLayout.validateWriterId (Some id)) as [[]|]; [done|]. by destruct id.
Qed.

Lemma resolve_stored fill graph s id :
  view s !! ("warp.writerId." +:+ graph) = Some id → RefLayout.validateWriterId (Some id) = Ok () →
  resolveWriterId fill configGet configSet graph None s = (s, Ok id).
Proof.
  intros Hk Hv. unfold resolveWriterId, mbind, step_bind. by rewrite (load_valid _ _ id).
Qed.

Lemma resolve_fresh fill bytes graph s :
  good_source (defaultRandomBytes fill) bytes →
  (∀ id, view s !! ("warp.writerId." +:+ graph) = Some id → RefLayout.validateWriterId (Some id) ≠ Ok ()) →
  ∃ s', resolveWriterId fill configGet configSet graph None s = (s', Ok ("w_" +:+ crockfordBase32 bytes)) ∧
    view s' = <["warp.writerId." +:+ graph := "w_" +:+ crockfordBase32 bytes]> (view s).
Proof.
  intros Hf Hk. destruct (generate_ok _ _ Hf) as (Hg & Hc & Hv).
  unfold resolveWriterId, mbind, step_bind. rewrite load_invalid by done.
  unfold generateAndPersist, wrapped, lift, mbind, step_bind, mret, step_ret. rewrite Hg, Hv, Hc.
  destruct (config_set ("warp.writerId." +:+ graph) ("w_" +:+ crockfordBase32 bytes) s) as (s' & -> & Hview).
  by exists s'.
Qed.
End resolution.

(** ** Properties *)

(** A generated writer id is sound: from any 16 random bytes [generateWriterId]
    returns a canonical id that is also safe in refs, and different bytes give
    different ids, although the encoder accumulates the bits in a 32-bit
    integer that overflows. *)
Theorem writer_id_generated (rb rb' : nat → result (option (list Z))) (bytes bytes' : list Z) :
  good_source rb bytes → good_source rb' bytes' →
  ∃ id, generateWriterId rb = Ok id ∧ validateWriterIdCanonical (Some id) = Ok () ∧
    RefLayout.validateWriterId (Some id) = Ok () ∧
    (generateWriterId rb' = Ok id ↔ bytes' = bytes).
Proof.
  intros Hs Hs'. destruct (generate_ok rb bytes Hs) as (Hg & Hc & Hv), (generate_ok rb' bytes' Hs') as (Hg' & _).
  exists ("w_" +:+ crockfordBase32 bytes). split_and!; [done..|]. rewrite Hg'. split; [|by intros ->].
  intros E. assert (crockfordBase32 bytes' = crockfordBase32 bytes) as E' by by injection E.
  destruct Hs as (_ & Hl & Hb), Hs' as (_ & Hl' & Hb'). apply crockford_inj; [done..|congruence|done].
Qed.

Definition counting (from : Z) (n : nat) : result (option (list Z)) := Ok (Some (seqZ from (Z.of_nat n))).

Lemma counting_good from : 0 <= from < 200 → good_source (counting from) (seqZ from 16).
Proof.
  intros Hf. split_and!; [done|done|]. apply Forall_forall. intros b Hb%elem_of_seqZ. unfold is_byte. lia.
Qed.

Lemma writer_id_generated_witness :
  generateWriterId (counting 100) = Ok "w_chjpcsv8d5n6pv3ddsqq0wbjec" ∧
  generateWriterId (counting 101) ≠ generateWriterId (counting 100).
Proof.
  split; [vm_compute; reflexivity|].
  destruct (writer_id_generated (counting 100) (counting 101) (seqZ 100 16) (seqZ 101 16)) as (id & -> & _ & _ & Hid).
  - apply counting_good. lia.
  - apply counting_good. lia.
  - intros E%Hid. discriminate E.
Defined.

(** Resolving a writer id without an explicit one always gives a valid id that
    the configuration holds from then on, so that every later resolution gives
    the same one, whatever its random source: a valid stored id is kept, a
    missing or an invalid one is replaced. An explicit id is checked and
    returned, and the configuration is left alone. *)
Theorem writer_id_resolution_is_stable {C}
  (configGet : string → step C (option string)) (configSet : string → string → step C unit)
  (view : C → gmap string string) `{!ConfigLaws configGet configSet view}
  (fill : option (nat → list Z)) (bytes : list Z) (graph : string) (s : C) :
  good_source (defaultRandomBytes fill) bytes →
  (∃ id s', resolveWriterId fill configGet configSet graph None s = (s', Ok id) ∧
    RefLayout.validateWriterId (Some id) = Ok () ∧ view s' !! ("warp.writerId." +:+ graph) = Some id ∧
    ∀ fill', resolveWriterId fill' configGet configSet graph None s' = (s', Ok id)) ∧
  ∀ id, resolveWriterId fill configGet configSet graph (Some id) s
    = (s, _ ← RefLayout.validateWriterId (Some id); Ok id).
Proof.
  intros Hf. split.
  - assert (∀ s' id, view s' !! ("warp.writerId." +:+ graph) = Some id →
      RefLayout.validateWriterId (Some id) = Ok () →
      ∀ fill', resolveWriterId fill' configGet configSet graph None s' = (s', Ok id)) as Hstable
      by (intros s' id ? ? fill'; by apply (resolve_stored (view:=view))).
    destruct (view s !! ("warp.writerId." +:+ graph)) as [id|] eqn:Es.
    + destruct (decide (RefLayout.validateWriterId (Some id) = Ok ())) as [Hv|Hv].
      * exists id, s. split_and!; [by apply Hstable|done|done|by apply Hstable].
      * destruct (resolve_fresh (view:=view) fill bytes graph s Hf) as (s' & E & Hview); [by intros ? [= <-]%(eq_trans (eq_sym Es))|].
        destruct (generate_ok _ _ Hf) as (_ & _ & Hvalid).
        eexists _, s'. rewrite Hview, lookup_insert_eq. split_and!; [done|done|done|].
        apply Hstable; [by rewrite Hview, lookup_insert_eq|done].
    + destruct (resolve_fresh (view:=view) fill bytes graph s Hf) as (s' & E & Hview); [by intros ? [=]%(eq_trans (eq_sym Es))|].
      destruct (generate_ok _ _ Hf) as (_ & _ & Hvalid).
      eexists _, s'. rewrite Hview, lookup_insert_eq. split_and!; [done|done|done|].
      apply Hstable; [by rewrite Hview, lookup_insert_eq|done].
  - intros id. unfold resolveWriterId, lift, mbind, step_bind. cbn [mret step_ret].
    by destruct (RefLayout.validateWriterId (Some id)) as [[]|].
Qed.

(** A configuration in memory. *)
Definition memory_get (key : string) : step (gmap string string) (option string) :=
  λ m, (m, Ok (m !! key)).
Definition memory_set (key v : string) : step (gmap string string) unit := λ m, (<[key := v]> m, Ok ()).

Lemma memory_laws : ConfigLaws memory_get memory_set id.
Proof. split; [done|]. intros key v s. by eexists. Qed.

Lemma writer_id_resolution_is_stable_witness :
  ∃ s', resolveWriterId (Some (seqZ 100 ∘ Z.of_nat)) memory_get memory_set "g" None {["warp.writerId.g" := "a/b"]}
    = (s', Ok "w_chjpcsv8d5n6pv3ddsqq0wbjec") ∧
  resolveWriterId None memory_get memory_set "g" None s' = (s', Ok "w_chjpcsv8d5n6pv3ddsqq0wbjec").
Proof.
  destruct (proj1 (writer_id_resolution_is_stable memory_get memory_set id (ConfigLaws0 := memory_laws)
    (Some (seqZ 100 ∘ Z.of_nat)) (seqZ 100 16) "g" {["warp.writerId.g" := "a/b"]}
    (counting_good 100 ltac:(lia)))) as (w & s' & E & _ & _ & Hs).
  exists s'. assert (w = "w_chjpcsv8d5n6pv3ddsqq0wbjec") as -> by (vm_compute in E; congruence).
  split; [exact E|apply Hs].
Defined.
End WriterId.
