(* ===== verification/MatchGlob.v ===== *)
(** Glob patterns over identifiers ([utils/matchGlob.ts]): the translation of a
    pattern to a regular expression, the cache of compiled patterns, and the
    match. *)
From S2P Require Export Prelude.
#[local] Open Scope list_scope.
#[local] Open Scope string_scope.

(** ** Regular expressions

    The fragment of the syntax that the translation produces, between [^] and
    [$]: literal characters, escaped characters and [.*]. *)
Module Regex.

Inductive token := Lit (c : ascii) | AnyChars.

#[global] Instance token_eq_dec : EqDecision token.
Proof. solve_decision. Defined.

Definition backslash : ascii := "\"%char.
Definition star : ascii := "*"%char.

(** The characters with a meaning in a regular expression. *)
Definition special : list ascii :=
  [".";"*";"+";"?";"^";"$";"{";"}";"(";")";"|";"[";"]";"\"]%char.

Fixpoint parse (s : string) : option (list token) :=
  match s with
  | EmptyString => Some []
  | String a s' =>
    if decide (a = backslash) then
      match s' with
      | String c r => if decide (c ∈ special) then cons (Lit c) <$> parse r else None
      | EmptyString => None
      end
    else if decide (a = "."%char) then
      match s' with
      | String c r => if decide (c = star) then cons AnyChars <$> parse r else None
      | EmptyString => None
      end
    else if decide (a ∈ special) then None
    else cons (Lit a) <$> parse s'
  end.

(** [.] does not match a line terminator. *)
Definition line_terminator (c : ascii) : bool :=
  bool_decide (c = "010"%char) || bool_decide (c = "013"%char).

(** [regex.test(s)] for [^...$]: a backtracking match of the whole string. *)
Fixpoint test (tokens : list token) : string → bool :=
  match tokens with
  | [] => λ s, negb (str_nonempty s)
  | Lit c :: rest => λ s,
      match s with String a s' => bool_decide (a = c) && test rest s' | EmptyString => false end
  | AnyChars :: rest =>
      fix any (s : string) : bool :=
        test rest s ||
        match s with String a s' => negb (line_terminator a) && any s' | EmptyString => false end
  end.
End Regex.

Module MatchGlob.
Import Regex.

(** [value.replace(/[.*+?^${}()|[\]\\]/g, '\\$&')] *)
(* @src domain/utils/matchGlob.ts escapeRegex *)
Fixpoint escapeRegex (value : string) : string :=
  match value with
  | EmptyString => ""
  | String c s =>
      if decide (c ∈ special) then String backslash (String c (escapeRegex s))
      else String c (escapeRegex s)
  end.

(** [s.replace(/\\\*/g, '.*')] *)
Fixpoint replace_stars (s : string) : string :=
  match s with
  | String a s' =>
    match s' with
    | String b r =>
        if decide (a = backslash ∧ b = star) then String "." (String star (replace_stars r))
        else String a (replace_stars s')
    | EmptyString => String a ""
    end
  | EmptyString => ""
  end.

(** The text between [^] and [$]. *)
Definition regex_source (pattern : string) : string := replace_stars (escapeRegex pattern).

(** [globRegexCache] *)
Abbreviation cache := (gmap string (list token)).

(** The size at which the cache is emptied. *)
Definition CACHE_LIMIT : nat := 1000%nat.

Definition E_SYNTAX : error := Err "SyntaxError" "".

(* @src domain/utils/matchGlob.ts getGlobRegex *)
Definition getGlobRegex (pattern : string) : step cache (list token) :=
  globRegexCache ← get;
  match globRegexCache !! pattern with
  | Some regex => mret regex
  | None =>
    match parse (regex_source pattern) with
    | None => lift (Throw E_SYNTAX)
    | Some regex =>
        let globRegexCache := <[pattern := regex]> globRegexCache in
        _ ← put (if (CACHE_LIMIT <=? size globRegexCache)%nat then {[pattern := regex]} else globRegexCache);
        mret regex
    end
  end.

(** [matchGlob] on one pattern. *)
Definition match_one (pattern str : string) : step cache bool :=
  if decide (pattern = "*") then mret true
  else if negb (str_includes star pattern) then mret (bool_decide (pattern = str))
  else regex ← getGlobRegex pattern; mret (test regex str).

(** [pattern.some(...)] stops at the first match. *)
Fixpoint match_some (patterns : list string) (str : string) : step cache bool :=
  match patterns with
  | [] => mret false
  | p :: patterns' => b ← match_one p str; if b : bool then mret true else match_some patterns' str
  end.

(** A pattern, or several. *)
(* @src domain/utils/matchGlob.ts matchGlob *)
Definition matchGlob (pattern : string + list string) (str : string) : step cache bool :=
  match pattern with
  | inr patterns => match_some patterns str
  | inl pattern => match_one pattern str
  end.

(** ** What a pattern means *)
Inductive glob : string → string → Prop :=
  | glob_end : glob "" ""
  | glob_char c p s : c ≠ star → glob p s → glob (String c p) (String c s)
  | glob_star_none p s : glob p s → glob (String star p) s
  | glob_star_some p c s :
    line_terminator c = false → glob (String star p) s → glob (String star p) (String c s).

Fixpoint tokens_of (p : string) : list token :=
  match p with
  | EmptyString => []
  | String c p' => (if decide (c = star) then AnyChars else Lit c) :: tokens_of p'
  end.

Lemma special_star : star ∈ special.
Proof. apply (bool_decide_unpack _). vm_compute. exact I. Qed.
Lemma special_backslash : backslash ∈ special.
Proof. apply (bool_decide_unpack _). vm_compute. exact I. Qed.
Lemma special_dot : "."%char ∈ special.
Proof. apply (bool_decide_unpack _). vm_compute. exact I. Qed.

Lemma escape_head p : str_head (escapeRegex p) ≠ Some star.
Proof.
  destruct p as [|c p]; simpl; [done|]. case_decide as Hc; simpl; [done|].
  intros [= ->]. by apply Hc, special_star.
Qed.

Lemma replace_cons a s : (a ≠ backslash ∨ str_head s ≠ Some star) → replace_stars (String a s) = String a (replace_stars s).
Proof.
  intros Ha. destruct s as [|b s]; [done|]. cbn [replace_stars str_head] in *. rewrite decide_False; [done|].
  intros [-> ->]. naive_solver.
Qed.

(** The translation compiles, to one token per character. *)
Lemma parse_source p : parse (regex_source p) = Some (tokens_of p).
Proof.
  unfold regex_source. induction p as [|c p IH]; [done|]. cbn [escapeRegex tokens_of].
  destruct (decide (c ∈ special)) as [Hc|Hc].
  - destruct (decide (c = star)) as [->|Hs].
    + cbn [replace_stars]. rewrite decide_True by done. cbn [parse].
      rewrite decide_False by done. rewrite decide_True by done. rewrite decide_True by done. by rewrite IH.
    + rewrite replace_cons by (right; simpl; congruence). rewrite replace_cons by (right; apply escape_head).
      cbn [parse]. rewrite decide_True by done. rewrite decide_True by done. by rewrite IH.
  - assert (c ≠ backslash ∧ c ≠ "."%char ∧ c ≠ star) as (Hb & Hd & Hs).
    { split_and!; intros ->; apply Hc; [apply special_backslash|apply special_dot|apply special_star]. }
    rewrite replace_cons by by left. cbn [parse]. rewrite !decide_False by done. by rewrite IH.
Qed.

Lemma glob_star_split p s : glob (String star p) s → glob p s ∨ ∃ c s', s = String c s' ∧ line_terminator c = false ∧ glob (String star p) s'.
Proof. inversion 1; subst; [done|by left|right; eauto]. Qed.

Lemma test_glob p s : test (tokens_of p) s = true ↔ glob p s.
Proof.
  induction p as [|c p IH] in s |- *; cbn [tokens_of].
  - destruct s; simpl; [split; [constructor|done]|]. split; [done|]. inversion 1.
  - destruct (decide (c = star)) as [->|Hc].
    + induction s as [|a s IHs]; cbn [test] in *.
      * rewrite orb_false_r, IH. split; [by constructor|]. intros [?|(?&?&[=]&_)]%glob_star_split; done.
      * rewrite orb_true_iff, andb_true_iff, negb_true_iff, IH, IHs. split.
        -- intros [?|[??]]; by constructor.
        -- intros [?|(c'&s'&[= <- <-]&?&?)]%glob_star_split; [by left|by right].
    + simpl. destruct s as [|a s]; [split; [done|inversion 1; done]|].
      rewrite andb_true_iff, bool_decide_eq_true, IH. split.
      * intros [-> ?]. by constructor.
      * inversion 1; subst; done.
Qed.

(** Without a star a pattern is a literal. *)
Lemma glob_literal p s : str_includes star p = false → glob p s ↔ p = s.
Proof.
  induction p as [|c p IH] in s |- *; cbn [str_includes].
  - intros _. split; [by inversion 1|]. intros <-. constructor.
  - intros [Hc%bool_decide_eq_false Hp]%orb_false_iff. split.
    + inversion 1; subst; try done. f_equal. by apply IH.
    + intros <-. constructor; [done|]. by apply IH.
Qed.

(** The cache only holds compiled patterns, and is bounded. *)
Definition cache_ok (m : cache) : Prop :=
  (∀ p r, m !! p = Some r → r = tokens_of p) ∧ (size m < CACHE_LIMIT)%nat.

Lemma getGlobRegex_ok pattern m :
  cache_ok m → ∃ m', getGlobRegex pattern m = (m', Ok (tokens_of pattern)) ∧ cache_ok m'.
Proof.
  intros [Hm Hs]. unfold getGlobRegex, get, put, mbind, step_bind, mret, step_ret.
  destruct (m !! pattern) as [r|] eqn:E; [rewrite (Hm _ _ E); by exists m|].
  rewrite parse_source. eexists. split; [done|].
  destruct (Nat.leb_spec CACHE_LIMIT (size (<[pattern := tokens_of pattern]> m))) as [_|Hlt]; split.
  - intros p r [<- <-]%lookup_singleton_Some. done.
  - rewrite map_size_singleton. unfold CACHE_LIMIT. lia.
  - intros p r [[<- <-]|[_ Hp]]%lookup_insert_Some; [done|by apply Hm].
  - done.
Qed.

Lemma match_one_ok p s m :
  cache_ok m → ∃ m' b, match_one p s m = (m', Ok b) ∧ cache_ok m' ∧ (b = true ↔ p = "*" ∨ glob p s).
Proof.
  intros Hm. unfold match_one. destruct (decide (p = "*")) as [->|Hp]; [exists m, true; naive_solver|].
  destruct (str_includes star p) eqn:Es; simpl.
  - destruct (getGlobRegex_ok p m Hm) as (m' & E & Hm'). exists m', (test (tokens_of p) s).
    unfold mbind, step_bind. rewrite E. split; [done|]. split; [done|]. rewrite test_glob. naive_solver.
  - eexists m, _. split; [done|]. split; [done|]. rewrite bool_decide_eq_true, glob_literal by done. naive_solver.
Qed.

Lemma match_some_ok ps s m :
  cache_ok m → ∃ m' b, match_some ps s m = (m', Ok b) ∧ cache_ok m' ∧ (b = true ↔ ∃ p, p ∈ ps ∧ (p = "*" ∨ glob p s)).
Proof.
  induction ps as [|p ps IH] in m |- *; intros Hm.
  - exists m, false. split; [done|]. split; [done|]. set_solver.
  - destruct (match_one_ok p s m Hm) as (m1 & b & E & Hm1 & Hb). cbn [match_some].
    rewrite (step_bind_ok _ _ _ _ _ E). destruct b.
    + exists m1, true. split; [done|]. split; [done|]. set_solver.
    + destruct (IH m1 Hm1) as (m2 & b2 & E2 & Hm2 & Hb2). exists m2, b2. split; [done|]. split; [done|].
      rewrite Hb2. split; [set_solver|]. intros (q & [->|Hq]%elem_of_cons & Hg); [|set_solver].
      apply Hb in Hg. done.
Qed.

(** ** Properties *)

(** [matchGlob] decides the meaning of its patterns: it never throws, whatever
    characters a pattern contains and whatever was matched before; a list of
    patterns matches when one of them does; the pattern [*] matches every
    string; elsewhere [*] stands for any characters but line terminators and
    every other character for itself. The cache of compiled patterns stays below
    its limit. *)
Theorem match_glob_decides (pattern : string + list string) (str : string) (m : cache) :
  cache_ok m →
  ∃ m' b, matchGlob pattern str m = (m', Ok b) ∧ cache_ok m' ∧
    (b = true ↔ match pattern with
     | inl p => p = "*" ∨ glob p str
     | inr ps => ∃ p, p ∈ ps ∧ (p = "*" ∨ glob p str)
     end).
Proof.
  intros Hm. destruct pattern as [p|ps]; [by apply match_one_ok|by apply match_some_ok].
Qed.

Lemma match_glob_decides_witness :
  ∃ m' b, matchGlob (inr ["user:*.ts"; "a+b"]) "user:x.ts" ∅ = (m', Ok b) ∧ b = true ∧ (size m' < CACHE_LIMIT)%nat.
Proof.
  destruct (match_glob_decides (inr ["user:*.ts"; "a+b"]) "user:x.ts" ∅) as (m' & b & E & [_ Hs] & _).
  - split; [intros p r Hp; by rewrite lookup_empty in Hp|]. vm_compute. lia.
  - exists m', b. split; [exact E|]. split; [vm_compute in E; congruence|exact Hs].
Defined.

(** A star inside a longer pattern does not stand for a line break. *)
Lemma star_stops_at_line_breaks :
  (λ p, (matchGlob (inl p) (String "a" (String "010" "b")) ∅).2) <$> ["*"; "a*"; "a*b"; "**"]
  = [Ok true; Ok false; Ok false; Ok false].
Proof. vm_compute. reflexivity. Qed.
End MatchGlob.
