(* ===== verification/Loops.v ===== *)
(** [while] loops over a mutable receiver, with fuel, and the rule that shows
    that enough fuel ends them. At the end: path costs. *)
From stdpp Require Export well_founded relations.
From S2P Require Export Prelude.
#[local] Open Scope nat_scope.

(** Marks fuel that ran out; no theorem has it as an outcome. *)
Definition out_of_fuel : error := Err "fuel" "E_OUT_OF_FUEL".

(** [body] gets the local variables of the loop and either goes on with new
    ones or leaves the loop with a value. *)
Fixpoint loop {S A B} (fuel : nat) (body : A → step S (A + B)) (a : A) : step S B :=
  match fuel with
  | O => lift (Throw out_of_fuel)
  | Datatypes.S fuel' =>
      r ← body a;
      match r with inl a' => loop fuel' body a' | inr b => mret b end
  end.

(** From some fuel on the run has this outcome. *)
Definition settles {S B} (m : nat → step S B) (s : S) (out : S * result B) : Prop :=
  ∃ n, ∀ fuel, n ≤ fuel → m fuel s = out.

Lemma settles_unique {S B} (m : nat → step S B) s out1 out2 :
  settles m s out1 → settles m s out2 → out1 = out2.
Proof.
  intros [n1 H1] [n2 H2]. rewrite <- (H1 (n1 `max` n2)) by lia. apply H2. lia.
Qed.

Lemma settles_const {S B} (m : step S B) s : settles (λ _, m) s (m s).
Proof. by exists 0. Qed.

Lemma settles_bind_ok {S A B} (m : nat → step S A) (k : nat → A → step S B) s s' a out :
  settles m s (s', Ok a) → settles (λ fuel, k fuel a) s' out →
  settles (λ fuel, m fuel ≫= k fuel) s out.
Proof.
  intros [n1 H1] [n2 H2]. exists (n1 `max` n2). intros fuel Hf.
  rewrite (step_bind_ok _ _ _ _ _ (H1 fuel ltac:(lia))). apply H2. lia.
Qed.

Lemma settles_bind_throw {S A B} (m : nat → step S A) (k : nat → A → step S B) s s' e :
  settles m s (s', Throw e) → settles (λ fuel, m fuel ≫= k fuel) s (s', Throw e).
Proof.
  intros [n1 H1]. exists n1. intros fuel Hf. unfold mbind, step_bind. by rewrite H1.
Qed.

(** Total correctness: an invariant, a measure that every further turn
    decreases, and what holds when a turn leaves the loop or throws. *)
Lemma loop_settles {S A B} (body : A → step S (A + B))
    (I : A → S → Prop) (R : A * S → A * S → Prop) (Q : S → result B → Prop) :
  well_founded R →
  (∀ a s, I a s → match body a s with
    | (s', Ok (inl a')) => I a' s' ∧ R (a', s') (a, s)
    | (s', Ok (inr b)) => Q s' (Ok b)
    | (s', Throw e) => Q s' (Throw e)
    end) →
  ∀ a s, I a s → ∃ out, settles (λ fuel, loop fuel body a) s out ∧ Q out.1 out.2.
Proof.
  intros Hwf Hbody.
  assert (∀ p, I p.1 p.2 → ∃ out, settles (λ fuel, loop fuel body p.1) p.2 out ∧ Q out.1 out.2)
    as Hgen; [|intros a s; apply (Hgen (a, s))].
  intros p. induction (Hwf p) as [[a s] _ IH]. simpl. intros HI.
  specialize (Hbody a s HI). destruct (body a s) as [s' [[a'|b]|e]] eqn:E.
  - destruct Hbody as [HI' HR]. destruct (IH (a', s') HR HI') as (out & [n Hn] & HQ).
    exists out. split; [|done]. exists (Datatypes.S n). intros [|fuel] Hf; [lia|].
    cbn [loop]. rewrite (step_bind_ok _ _ _ _ _ E). apply Hn. lia.
  - exists (s', Ok b). split; [|done]. exists 1. intros [|fuel] Hf; [lia|].
    cbn [loop]. by rewrite (step_bind_ok _ _ _ _ _ E).
  - exists (s', Throw e). split; [|done]. exists 1. intros [|fuel] Hf; [lia|].
    cbn [loop]. unfold mbind, step_bind. by rewrite E.
Qed.

(** Pairs of numbers in lexicographic order. *)
Definition lex_lt (p q : nat * nat) : Prop := p.1 < q.1 ∨ p.1 = q.1 ∧ p.2 < q.2.

Lemma lex_lt_wf : well_founded lex_lt.
Proof.
  intros [x y]. revert y. induction (lt_wf x) as [x _ IHx]. intros y.
  induction (lt_wf y) as [y _ IHy]. constructor. intros [x' y'] [Hlt|[E Hlt]]; simpl in *.
  - by apply IHx.
  - subst. by apply IHy.
Qed.

Lemma measure_wf {A} (f : A → nat * nat) : well_founded (λ x y, lex_lt (f x) (f y)).
Proof. apply (wf_projected lex_lt f); [done|apply lex_lt_wf]. Qed.

(** The elements of a finite universe that a set does not hold yet. *)
Definition room (universe visited : gset string) : nat := size (universe ∖ visited).

Lemma room_mono universe V V' : V ⊆ V' → room universe V' ≤ room universe V.
Proof. intros. apply subseteq_size. set_solver. Qed.

Lemma room_lt universe V V' x :
  V ⊆ V' → x ∈ universe → x ∉ V → x ∈ V' → room universe V' < room universe V.
Proof. intros. apply subset_size. split; [set_solver|]. set_solver. Qed.

(** ** Calls that return the same value whatever the receiver

    [ok] is what the receiver has to satisfy, and keeps satisfying. *)
Section yields.
Context {S : Type} (ok : S → Prop).

Definition yields {A} (m : step S A) (a : A) : Prop :=
  ∀ s, ok s → ∃ s', m s = (s', Ok a) ∧ ok s'.

Lemma yields_ret {A} (a : A) : yields (mret a) a.
Proof. intros s Hs. by exists s. Qed.

Lemma yields_bind {A B} (m : step S A) (k : A → step S B) a b :
  yields m a → yields (k a) b → yields (m ≫= k) b.
Proof.
  intros Hm Hk s Hs. destruct (Hm s Hs) as (s1 & E1 & H1).
  destruct (Hk s1 H1) as (s2 & E2 & H2). exists s2. split; [|done].
  by rewrite (step_bind_ok _ _ _ _ _ E1).
Qed.

Lemma yields_if {A} (c : bool) (m1 m2 : step S A) a :
  (c = true → yields m1 a) → (c = false → yields m2 a) → yields (if c then m1 else m2) a.
Proof. destruct c; auto. Qed.

Lemma for_fold_yields_in {A B} (body : B → A → step S B) (f : B → A → B) l b :
  (∀ b x, x ∈ l → yields (body b x) (f b x)) → yields (for_fold body l b) (foldl f b l).
Proof.
  revert b. induction l as [|x l IH]; intros b Hb; [apply yields_ret|].
  eapply yields_bind; [apply Hb; by left|]. apply IH. intros b' y Hy. apply Hb. by right.
Qed.

Lemma for_fold_yields {A B} (body : B → A → step S B) (f : B → A → B) l b :
  (∀ b x, yields (body b x) (f b x)) → yields (for_fold body l b) (foldl f b l).
Proof. intros Hb. by apply for_fold_yields_in. Qed.

Lemma for_each_yields {A} (body : A → step S unit) l :
  (∀ x, x ∈ l → yields (body x) ()) → yields (for_each body l) ().
Proof.
  induction l as [|x l IH]; intros Hb; [apply yields_ret|].
  eapply yields_bind; [apply Hb; by left|]. apply IH. intros y Hy. apply Hb. by right.
Qed.

(** Enough fuel gives a value that satisfies [Q]. *)
Definition ends {A} (m : nat → step S A) (Q : A → Prop) : Prop :=
  ∀ s, ok s → ∃ s' a, settles m s (s', Ok a) ∧ ok s' ∧ Q a.

Lemma ends_yields {A} (m : step S A) a (Q : A → Prop) : yields m a → Q a → ends (λ _, m) Q.
Proof.
  intros Hm HQ s Hs. destruct (Hm s Hs) as (s' & E & Hs'). exists s', a.
  rewrite <- E. split; [apply settles_const|done].
Qed.

Lemma ends_bind {A B} (m : nat → step S A) (k : nat → A → step S B) (P : A → Prop) (Q : B → Prop) :
  ends m P → (∀ a, P a → ends (λ fuel, k fuel a) Q) → ends (λ fuel, m fuel ≫= k fuel) Q.
Proof.
  intros Hm Hk s Hs. destruct (Hm s Hs) as (s1 & a & Hset & H1 & HP).
  destruct (Hk a HP s1 H1) as (s2 & b & Hset2 & H2 & HQ). exists s2, b.
  split; [by eapply settles_bind_ok|done].
Qed.

Lemma ends_mono {A} (m : nat → step S A) (P Q : A → Prop) :
  (∀ a, P a → Q a) → ends m P → ends m Q.
Proof. intros HPQ Hm s Hs. destruct (Hm s Hs) as (s' & a & ? & ? & ?). exists s', a. auto. Qed.

Lemma for_fold_ends {A B} (body : nat → B → A → step S B) (I : list A → B → Prop) l b :
  I [] b →
  (∀ pre x post b, l = pre ++ x :: post → I pre b → ends (λ fuel, body fuel b x) (I (pre ++ [x]))) →
  ends (λ fuel, for_fold (body fuel) l b) (I l).
Proof.
  intros HI Hbody.
  enough (∀ post pre b, l = pre ++ post → I pre b → ends (λ fuel, for_fold (body fuel) post b) (I l))
    as Hgen by by apply (Hgen l []).
  induction post as [|x post IH]; intros pre b' E HI'; cbn [for_fold].
  - rewrite app_nil_r in E. subst. by eapply ends_yields; [apply yields_ret|].
  - eapply ends_bind; [by eapply Hbody|]. intros b2 HI2. apply (IH (pre ++ [x])); [|done].
    by rewrite <- app_assoc.
Qed.

(** A call whose value may depend on the receiver. *)
Definition returns {A} (m : step S A) (Q : A → Prop) : Prop :=
  ∀ s, ok s → ∃ s' a, m s = (s', Ok a) ∧ ok s' ∧ Q a.

Lemma returns_yields {A} (m : step S A) a (Q : A → Prop) : yields m a → Q a → returns m Q.
Proof. intros Hm HQ s Hs. destruct (Hm s Hs) as (s' & E & Hs'). by exists s', a. Qed.

Lemma returns_bind {A B} (m : step S A) (k : A → step S B) (P : A → Prop) (Q : B → Prop) :
  returns m P → (∀ a, P a → returns (k a) Q) → returns (m ≫= k) Q.
Proof.
  intros Hm Hk s Hs. destruct (Hm s Hs) as (s1 & a & E & H1 & HP).
  destruct (Hk a HP s1 H1) as (s2 & b & E2 & H2 & HQ). exists s2, b.
  split; [by rewrite (step_bind_ok _ _ _ _ _ E)|done].
Qed.

Lemma returns_bind_yields {A B} (m : step S A) (k : A → step S B) a (Q : B → Prop) :
  yields m a → returns (k a) Q → returns (m ≫= k) Q.
Proof.
  intros Hm Hk. apply (returns_bind m k (λ b, b = a)); [by apply (returns_yields m a)|].
  by intros b ->.
Qed.

Lemma returns_mono {A} (m : step S A) (P Q : A → Prop) :
  (∀ a, P a → Q a) → returns m P → returns m Q.
Proof. intros HPQ Hm s Hs. destruct (Hm s Hs) as (s' & a & ? & ? & ?). exists s', a. auto. Qed.

Lemma ends_returns {A} (m : step S A) (Q : A → Prop) : returns m Q → ends (λ _, m) Q.
Proof.
  intros Hm s Hs. destruct (Hm s Hs) as (s' & a & E & Hs' & HQ). exists s', a.
  rewrite <- E. split; [apply settles_const|done].
Qed.

(** A loop whose turns return values and descend in a well-founded order. *)
Lemma loop_returns {A B} (body : A → step S (A + B)) (I : A → Prop) (R : relation A) (Q : B → Prop) a :
  well_founded R → I a →
  (∀ a, I a → returns (body a) (λ c, match c with inl a' => I a' ∧ R a' a | inr b => Q b end)) →
  ends (λ fuel, loop fuel body a) Q.
Proof.
  intros Hwf HI Hbody s Hs.
  destruct (loop_settles body (λ a s, I a ∧ ok s) (λ p q, R p.1 q.1)
    (λ s' r, ok s' ∧ ∃ b, r = Ok b ∧ Q b)) with (a := a) (s := s) as ([s' r] & Hset & Hok & b & Er & HQ).
  - by apply (wf_projected R fst).
  - intros a' s1 [HI' Hs1]. destruct (Hbody a' HI' s1 Hs1) as (s2 & c & -> & Hs2 & Hc).
    destruct c as [a2|b]; naive_solver.
  - done.
  - simpl in *. subst r. by exists s', b.
Qed.

(** A call that may throw, and what holds of its outcome. *)
Definition attempts {A} (m : step S A) (Q : result A → Prop) : Prop :=
  ∀ s, ok s → ∃ s' r, m s = (s', r) ∧ ok s' ∧ Q r.

Definition tries {A} (m : nat → step S A) (Q : result A → Prop) : Prop :=
  ∀ s, ok s → ∃ s' r, settles m s (s', r) ∧ ok s' ∧ Q r.

Lemma attempts_returns {A} (m : step S A) (P : A → Prop) (Q : result A → Prop) :
  (∀ a, P a → Q (Ok a)) → returns m P → attempts m Q.
Proof. intros HPQ Hm s Hs. destruct (Hm s Hs) as (s' & a & ? & ? & ?). exists s', (Ok a). auto. Qed.

Lemma attempts_throw {A} e (Q : result A → Prop) : Q (Throw e) → attempts (lift (Throw e)) Q.
Proof. intros HQ s Hs. by exists s, (Throw e). Qed.

Lemma attempts_bind_yields {A B} (m : step S A) (k : A → step S B) a (Q : result B → Prop) :
  yields m a → attempts (k a) Q → attempts (m ≫= k) Q.
Proof.
  intros Hm Hk s Hs. destruct (Hm s Hs) as (s1 & E1 & H1).
  destruct (Hk s1 H1) as (s2 & r & E2 & H2). exists s2, r. split; [|done].
  by rewrite (step_bind_ok _ _ _ _ _ E1).
Qed.

Lemma tries_bind_yields {A B} (m : step S A) (k : nat → A → step S B) a (Q : result B → Prop) :
  yields m a → tries (λ fuel, k fuel a) Q → tries (λ fuel, m ≫= k fuel) Q.
Proof.
  intros Hm Hk s Hs. destruct (Hm s Hs) as (s1 & E1 & H1).
  destruct (Hk s1 H1) as (s2 & r & [n Hn] & H2). exists s2, r. split; [|done].
  exists n. intros fuel Hf. rewrite (step_bind_ok _ _ _ _ _ E1). by apply Hn.
Qed.

Lemma tries_bind_ends {A B} (m : nat → step S A) (k : nat → A → step S B) (P : A → Prop)
    (Q : result B → Prop) :
  ends m P → (∀ a, P a → tries (λ fuel, k fuel a) Q) → tries (λ fuel, m fuel ≫= k fuel) Q.
Proof.
  intros Hm Hk s Hs. destruct (Hm s Hs) as (s1 & a & E1 & H1 & HP).
  destruct (Hk a HP s1 H1) as (s2 & r & E2 & H2). exists s2, r. split; [|done].
  by eapply settles_bind_ok.
Qed.

Lemma tries_bind {A B} (m : nat → step S A) (k : nat → A → step S B) (P : result A → Prop)
    (Q : result B → Prop) :
  tries m P → (∀ a, P (Ok a) → tries (λ fuel, k fuel a) Q) → (∀ e, P (Throw e) → Q (Throw e)) →
  tries (λ fuel, m fuel ≫= k fuel) Q.
Proof.
  intros Hm Hk Ht s Hs. destruct (Hm s Hs) as (s1 & [a|e] & E1 & H1 & HP).
  - destruct (Hk a HP s1 H1) as (s2 & r & E2 & H2). exists s2, r. split; [|done].
    by eapply settles_bind_ok.
  - exists s1, (Throw e). split; [by apply settles_bind_throw|]. split; [done|by apply Ht].
Qed.

Lemma tries_attempts {A} (m : step S A) (Q : result A → Prop) : attempts m Q → tries (λ _, m) Q.
Proof.
  intros Hm s Hs. destruct (Hm s Hs) as (s' & r & E & Hr). exists s', r.
  split; [|done]. rewrite <- E. apply settles_const.
Qed.

(** The same for a loop that may throw. *)
Lemma loop_tries {A B} (body : A → step S (A + B)) (I : A → Prop) (R : relation A)
    (Q : result B → Prop) a :
  well_founded R → I a →
  (∀ a, I a → attempts (body a) (λ r, match r with
    | Ok (inl a') => I a' ∧ R a' a
    | Ok (inr b) => Q (Ok b)
    | Throw e => Q (Throw e)
    end)) →
  tries (λ fuel, loop fuel body a) Q.
Proof.
  intros Hwf HI Hbody s Hs.
  destruct (loop_settles body (λ a s, I a ∧ ok s) (λ p q, R p.1 q.1)
    (λ s' r, ok s' ∧ Q r)) with (a := a) (s := s) as ([s' r] & Hset & Hok & HQ).
  - by apply (wf_projected R fst).
  - intros a' s1 [HI' Hs1]. destruct (Hbody a' HI' s1 Hs1) as (s2 & r & -> & Hs2 & Hc).
    destruct r as [[a2|b]|e]; naive_solver.
  - done.
  - by exists s', r.
Qed.

Lemma loop_ends {A B} (body : A → step S (A + B)) (I : A → Prop) (R : relation A) (Q : B → Prop) a :
  well_founded R → I a →
  (∀ a, I a → ∃ c, yields (body a) c ∧
    match c with inl a' => I a' ∧ R a' a | inr b => Q b end) →
  ends (λ fuel, loop fuel body a) Q.
Proof.
  intros Hwf HI Hbody. apply (loop_returns body I R); [done..|]. intros a' HI'.
  destruct (Hbody a' HI') as (c & Hy & Hc). by apply (returns_yields _ c).
Qed.
End yields.

(** ** Path costs: what the search algorithms use of JavaScript numbers. *)
#[local] Open Scope Z_scope.

(** The finite numbers a search meets: weights, sums of weights, priorities.
    [+], [<] and [===] are the only operations the algorithms use. *)
Class Costs (C : Type) := {
  c_zero : C;
  c_one : C;
  c_add : C → C → C;
  c_ltb : C → C → bool;
  c_eq_dec :: EqDecision C;
}.

(** Addition is monotone, as rounding is: nothing here asks it to be
    associative, so the laws hold of doubles too. *)
Class CostLaws (C : Type) `{Costs C} : Prop := {
  c_strict :: StrictTotal c_ltb;
  c_add_mono a b w : c_ltb b a = false → c_ltb (c_add b w) (c_add a w) = false;
  c_add_nonneg a w : c_ltb w c_zero = false → c_ltb (c_add a w) a = false;
}.

Definition c_le {C} `{Costs C} (a b : C) : Prop := c_ltb b a = false.

#[export] Instance Z_costs : Costs Z :=
  { c_zero := 0; c_one := 1; c_add := Z.add; c_ltb := Z.ltb; c_eq_dec := Z.eq_dec }.

#[export] Instance Z_cost_laws : CostLaws Z.
Proof. split; [apply _|intros *..]; simpl; rewrite !Z.ltb_ge; lia. Qed.

Lemma Z_c_le (a b : Z) : c_le a b ↔ a <= b.
Proof. apply Z.ltb_ge. Qed.

Section laws.
Context {C} `{CostLaws C}.
Implicit Types a b : C.

Lemma c_ltb_irrefl a : c_ltb a a = false.
Proof. apply ltb_irrefl. Qed.

Lemma c_ltb_le a b : c_ltb a b = true → c_le a b.
Proof.
  intros Hlt. unfold c_le. destruct (c_ltb b a) eqn:E; [|done].
  rewrite <- (c_ltb_irrefl a). symmetry. by apply (ltb_trans (ltb:=c_ltb) a b).
Qed.

#[export] Instance c_le_refl : Reflexive (c_le (C:=C)).
Proof. intros a. apply c_ltb_irrefl. Qed.

Lemma c_le_cases a b : c_le a b → c_ltb a b = true ∨ a = b.
Proof.
  intros Hle. destruct (decide (a = b)) as [->|Hne]; [by right|left].
  rewrite (ltb_total a b) by done. unfold c_le in Hle. by rewrite Hle.
Qed.

Lemma c_ltb_le_trans a b c : c_ltb a b = true → c_le b c → c_ltb a c = true.
Proof. intros ? [?| ->]%c_le_cases; [by eapply ltb_trans|done]. Qed.

Lemma c_le_ltb_trans a b c : c_le a b → c_ltb b c = true → c_ltb a c = true.
Proof. intros [?| ->]%c_le_cases ?; [by eapply ltb_trans|done]. Qed.

#[export] Instance c_le_trans : Transitive (c_le (C:=C)).
Proof.
  intros a b c [Hab| ->]%c_le_cases ?; [|done]. apply c_ltb_le. by eapply c_ltb_le_trans.
Qed.

#[export] Instance c_le_antisymm : AntiSymm (=) (c_le (C:=C)).
Proof.
  intros a b Hab Hba. apply c_le_cases in Hab as [Hab|]; [|done].
  unfold c_le in Hba. congruence.
Qed.

Lemma c_le_total a b : c_le a b ∨ c_le b a.
Proof. destruct (c_ltb a b) eqn:E; [left; by apply c_ltb_le|by right]. Qed.

Lemma c_ltb_not_le a b : c_ltb a b = true ↔ ¬ c_le b a.
Proof. unfold c_le. by destruct (c_ltb a b). Qed.

Lemma c_add_le_l a b w : c_le a b → c_le (c_add a w) (c_add b w).
Proof. apply c_add_mono. Qed.

Lemma c_add_le a w : c_le c_zero w → c_le a (c_add a w).
Proof. apply c_add_nonneg. Qed.
End laws.

Create HintDb costs.
#[export] Hint Resolve c_ltb_le c_add_le c_add_le_l : costs.
