(* ===== verification/MinHeap.v ===== *)
(** The binary heap of the search algorithms ([utils/MinHeap.ts]), shown to be
    a sorted list: inserting is sorted insertion, extracting takes the head. *)
From S2P Require Export Loops.
#[local] Open Scope Z_scope.
#[local] Open Scope nat_scope.

Module MinHeap.

(* @src domain/utils/MinHeap.ts HeapEntry *)
Record HeapEntry (A C : Type) := mkEntry { item : A; priority : C }.
Arguments mkEntry {A C} _ _.
Arguments item {A C} _.
Arguments priority {A C} _.

#[global] Instance HeapEntry_eq_dec {A C} `{EqDecision A, EqDecision C} :
  EqDecision (HeapEntry A C).
Proof. solve_decision. Defined.

(* @src domain/utils/MinHeap.ts MinHeap 11-13 *)
Record MinHeap (A C : Type) := mk {
  heap_of : list (HeapEntry A C);
  tieBreaker : option (A → A → Z);
}.
Arguments mk {A C} _ _.
Arguments heap_of {A C} _.
Arguments tieBreaker {A C} _.

Section ops.
Context {A C : Type} `{Costs C}.
Implicit Types h : MinHeap A C.
Implicit Types l : list (HeapEntry A C).

(* @src domain/utils/MinHeap.ts constructor *)
Definition new (tie : option (A → A → Z)) : MinHeap A C := mk [] tie.

(** Two entries: [a.priority - b.priority] is negative exactly when the first
    is smaller, and only its sign is used. *)
Definition compare_entries (tie : option (A → A → Z)) (a b : HeapEntry A C) : Z :=
  cmp_step c_ltb (priority a) (priority b)
    (match tie with Some t => t (item a) (item b) | None => 0%Z end).

(* @src domain/utils/MinHeap.ts _compare *)
Definition _compare (tie : option (A → A → Z)) l (idxA idxB : nat) : Z :=
  match l !! idxA, l !! idxB with
  | Some a, Some b => compare_entries tie a b
  | _, _ => 0%Z
  end.

(** [tmp = h[i]; h[i] = h[j]; h[j] = tmp] *)
Definition swap (i j : nat) l : list (HeapEntry A C) :=
  match l !! i, l !! j with
  | Some x, Some y => <[j := x]> (<[i := y]> l)
  | _, _ => l
  end.

Definition parent (i : nat) : nat := (i - 1) / 2.

(** The position at least halves in every turn: [pos] turns are enough. *)
(* @src domain/utils/MinHeap.ts _bubbleUp *)
Fixpoint _bubbleUp (fuel : nat) (tie : option (A → A → Z)) (current : nat) l
    : list (HeapEntry A C) :=
  match fuel with
  | O => l
  | S fuel' =>
      if current =? 0 then l else
      let parentIndex := parent current in
      if (_compare tie l parentIndex current <=? 0)%Z then l
      else _bubbleUp fuel' tie parentIndex (swap parentIndex current l)
  end.

(* @src domain/utils/MinHeap.ts _smallestChild *)
Definition _smallestChild (tie : option (A → A → Z)) (current : nat) l : nat :=
  let leftChild := 2 * current + 1 in
  let rightChild := 2 * current + 2 in
  let smallest := current in
  let smallest :=
    if (leftChild <? length l) && (_compare tie l leftChild smallest <? 0)%Z
    then leftChild else smallest in
  if (rightChild <? length l) && (_compare tie l rightChild smallest <? 0)%Z
  then rightChild else smallest.

(** The position grows in every turn: as many turns as entries are enough. *)
(* @src domain/utils/MinHeap.ts _bubbleDown *)
Fixpoint _bubbleDown (fuel : nat) (tie : option (A → A → Z)) (current : nat) l
    : list (HeapEntry A C) :=
  match fuel with
  | O => l
  | S fuel' =>
      let smallest := _smallestChild tie current l in
      if smallest =? current then l
      else _bubbleDown fuel' tie smallest (swap current smallest l)
  end.

(* @src domain/utils/MinHeap.ts insert *)
Definition insert (x : A) (p : C) h : MinHeap A C :=
  let l := heap_of h ++ [mkEntry x p] in
  mk (_bubbleUp (length l - 1) (tieBreaker h) (length l - 1) l) (tieBreaker h).

(* @src domain/utils/MinHeap.ts extractMin *)
Definition extractMin h : MinHeap A C * option A :=
  match heap_of h with
  | [] => (h, None)
  | [e] => (mk [] (tieBreaker h), Some (item e))
  | min :: rest =>
      match last rest with
      | Some e =>
          let l := e :: removelast rest in
          (mk (_bubbleDown (length l) (tieBreaker h) 0 l) (tieBreaker h), Some (item min))
      | None => (h, None)
      end
  end.

(* @src domain/utils/MinHeap.ts isEmpty *)
Definition isEmpty h : bool := length (heap_of h) =? 0.

(* @src domain/utils/MinHeap.ts size *)
Definition size h : nat := length (heap_of h).

(** [None] is [Infinity]. *)
(* @src domain/utils/MinHeap.ts peekPriority *)
Definition peekPriority h : option C := priority <$> head (heap_of h).
End ops.

(** ** The heap order *)
Section order.
Context {A C : Type} `{CostLaws C} (tie : option (A → A → Z)).
Implicit Types l : list (HeapEntry A C).

(** What a tie breaker has to be: a total preorder given by signs. *)
Class TieLaws : Prop := {
  tie_opp t x y : tie = Some t → t y x = (- t x y)%Z;
  tie_trans t x y z : tie = Some t → (t x y <= 0)%Z → (t y z <= 0)%Z → (t x z <= 0)%Z;
}.
Context `{!TieLaws}.

Definition entry_le (a b : HeapEntry A C) : Prop := (compare_entries tie a b <= 0)%Z.

Lemma compare_entries_opp a b : compare_entries tie b a = (- compare_entries tie a b)%Z.
Proof.
  unfold compare_entries, cmp_step. repeat case_decide; try congruence.
  - destruct tie as [t|] eqn:Et; [|done]. by apply tie_opp.
  - rewrite (ltb_total (priority a)) by done. by destruct (c_ltb (priority b) (priority a)).
Qed.

#[export] Instance entry_le_refl : Reflexive entry_le.
Proof. intros a. unfold entry_le. pose proof (compare_entries_opp a a). lia. Qed.

#[export] Instance entry_le_trans : Transitive entry_le.
Proof.
  intros [x p] [y q] [z r]. unfold entry_le, compare_entries, cmp_step. simpl.
  repeat case_decide; subst; try done.
  - destruct tie as [t|] eqn:Et; [by apply tie_trans|done].
  - destruct (c_ltb r q) eqn:L1, (c_ltb q r) eqn:L2; try done. intros _ _.
    pose proof (ltb_trans _ _ _ L1 L2) as L3. by rewrite ltb_irrefl in L3.
  - destruct (c_ltb p q) eqn:L1, (c_ltb q r) eqn:L2; try done. intros _ _.
    by rewrite (ltb_trans _ _ _ L1 L2).
Qed.

Lemma entry_le_total a b : entry_le a b ∨ entry_le b a.
Proof. unfold entry_le. pose proof (compare_entries_opp a b). lia. Qed.

Lemma entry_le_priority a b : entry_le a b → c_le (priority a) (priority b).
Proof.
  unfold entry_le, compare_entries, cmp_step. case_decide as E; [by rewrite E|].
  destruct (c_ltb _ _) eqn:L; [by intros _; apply c_ltb_le|done].
Qed.

(** Every entry is at least its parent. *)
Definition ordered_at l (i : nat) : Prop :=
  ∀ p a, 0 < i → l !! parent i = Some p → l !! i = Some a → entry_le p a.

Definition heap_ok l : Prop := ∀ i, ordered_at l i.

Lemma compare_le l i j a b :
  l !! i = Some a → l !! j = Some b → (_compare tie l i j <= 0)%Z ↔ entry_le a b.
Proof. intros Ei Ej. unfold _compare. by rewrite Ei, Ej. Qed.

Lemma compare_gt l i j a b :
  l !! i = Some a → l !! j = Some b → ¬ (_compare tie l i j <= 0)%Z → entry_le b a.
Proof.
  intros Ei Ej Hn. destruct (entry_le_total b a) as [|Hle]; [done|].
  by apply (compare_le l i j) in Hle.
Qed.

(** ** Swapping *)
Lemma insert_perm_cons l i x y : l !! i = Some x → x :: <[i := y]> l ≡ₚ y :: l.
Proof.
  revert i. induction l as [|z l IH]; intros [|i] E; simplify_eq/=; [apply Permutation_swap|].
  rewrite (Permutation_swap z x), IH by done. apply Permutation_swap.
Qed.

Lemma swap_perm i j l : swap i j l ≡ₚ l.
Proof.
  unfold swap. destruct (l !! i) as [x|] eqn:Ei; [|done].
  destruct (l !! j) as [y|] eqn:Ej; [|done].
  destruct (decide (i = j)) as [->|Hne].
  - simplify_eq. by rewrite list_insert_insert_eq, list_insert_id.
  - apply (Permutation_cons_inv (a:=y)).
    rewrite insert_perm_cons by (by rewrite list_lookup_insert_ne). by apply insert_perm_cons.
Qed.

Lemma swap_length i j l : length (swap i j l) = length l.
Proof. apply Permutation_length, swap_perm. Qed.

Lemma lookup_swap i j l x y k :
  l !! i = Some x → l !! j = Some y →
  swap i j l !! k = if decide (k = j) then Some x else if decide (k = i) then Some y else l !! k.
Proof.
  intros Ei Ej. unfold swap. rewrite Ei, Ej.
  pose proof (lookup_lt_Some _ _ _ Ei). pose proof (lookup_lt_Some _ _ _ Ej).
  repeat case_decide; subst.
  - apply list_lookup_insert_eq. by rewrite length_insert.
  - rewrite list_lookup_insert_ne by done. by apply list_lookup_insert_eq.
  - by rewrite !list_lookup_insert_ne.
Qed.

Lemma parent_spec i p : 0 < i → parent i = p ↔ i = 2 * p + 1 ∨ i = 2 * p + 2.
Proof. intros. unfold parent. pose proof (Nat.div_mod (i - 1) 2). pose proof (Nat.mod_upper_bound (i - 1) 2). lia. Qed.

Lemma parent_lt i : 0 < i → parent i < i.
Proof. intros Hi. pose proof (proj1 (parent_spec i (parent i) Hi) eq_refl). lia. Qed.

(** ** Moving an entry up *)

(** All entries are in order but the one at [cur], whose children are already
    in order with its parent. *)
Definition up_inv l (cur : nat) : Prop :=
  (∀ i, i ≠ cur → ordered_at l i) ∧
  ∀ c p a, 0 < c → parent c = cur → 0 < cur →
    l !! parent cur = Some p → l !! c = Some a → entry_le p a.

Lemma up_inv_swap l cur p a :
  0 < cur → l !! parent cur = Some p → l !! cur = Some a → entry_le a p →
  up_inv l cur → up_inv (swap (parent cur) cur l) (parent cur).
Proof.
  intros Hc Ep Ea Hle [Ho Hg]. pose proof (parent_lt cur Hc) as Hlt. split.
  - intros i Hi q b Hi0. rewrite !(lookup_swap _ _ _ p a) by done.
    destruct (decide (parent i = cur)) as [Epi|Npi]; [|destruct (decide (parent i = parent cur)) as [E|]].
    + intros [= <-]. pose proof (parent_lt i Hi0).
      rewrite !decide_False by lia. intros Eb. by apply (Hg i).
    + intros [= <-]. case_decide; [by intros [= <-]|]. rewrite decide_False by done.
      intros Eb. trans p; [done|]. apply (Ho i); [done..|by rewrite E|done].
    + intros Eq. case_decide; [congruence|]. rewrite decide_False by done. by apply Ho.
  - intros c q b Hc0 Epc Hp0. pose proof (parent_lt _ Hp0).
    rewrite !(lookup_swap _ _ _ p a) by done. rewrite !decide_False by lia.
    intros Eq. assert (entry_le q p) as Hqp by (apply (Ho (parent cur)); [lia|done..]).
    pose proof (parent_lt c Hc0).
    case_decide; [by intros [= <-]|]. rewrite decide_False by lia. intros Eb.
    trans p; [done|]. apply (Ho c); [done..|by rewrite Epc|done].
Qed.

Lemma bubbleUp_perm fuel cur l : _bubbleUp fuel tie cur l ≡ₚ l.
Proof.
  revert cur l. induction fuel as [|fuel IH]; intros cur l; simpl; [done|].
  destruct (cur =? 0); [done|]. destruct (_ <=? 0)%Z; [done|]. by rewrite IH, swap_perm.
Qed.

Lemma bubbleUp_ok fuel cur l :
  cur <= fuel → cur < length l → up_inv l cur → heap_ok (_bubbleUp fuel tie cur l).
Proof.
  revert cur l. induction fuel as [|fuel IH]; intros cur l Hf Hlt Hinv; simpl.
  { intros i. destruct (decide (i = cur)); [subst; intros ???; lia|by apply Hinv]. }
  destruct (Nat.eqb_spec cur 0) as [->|Hc].
  { intros i. destruct (decide (i = 0)); [subst; intros ???; lia|by apply Hinv]. }
  pose proof (parent_lt cur ltac:(lia)).
  destruct (lookup_lt_is_Some_2 l cur Hlt) as [a Ea].
  destruct (lookup_lt_is_Some_2 l (parent cur) ltac:(lia)) as [p Ep].
  destruct (Z.leb_spec (_compare tie l (parent cur) cur) 0) as [Hle|Hgt].
  - intros i. destruct (decide (i = cur)) as [->|]; [|by apply Hinv].
    intros q b _ Eq Eb. apply (compare_le l (parent cur) cur p a) in Hle; [|done..]. congruence.
  - apply IH; [lia|rewrite swap_length; lia|]. apply (up_inv_swap _ _ p a); [lia|done..| |done].
    apply (compare_gt l (parent cur) cur); [done..|lia].
Qed.

(** ** Moving an entry down *)
Definition down_inv l (cur : nat) : Prop :=
  (∀ i, parent i ≠ cur → ordered_at l i) ∧
  ∀ c p a, 0 < c → parent c = cur → 0 < cur →
    l !! parent cur = Some p → l !! c = Some a → entry_le p a.

(** [s] is [cur] or a child, and no other of the three is smaller. *)
Lemma smallestChild_spec cur l x :
  l !! cur = Some x →
  ∃ y, l !! _smallestChild tie cur l = Some y ∧ entry_le y x ∧
    (_smallestChild tie cur l = cur ∨ 0 < _smallestChild tie cur l ∧ parent (_smallestChild tie cur l) = cur) ∧
    ∀ c a, 0 < c → parent c = cur → l !! c = Some a → entry_le y a.
Proof.
  intros Ex.
  assert (∀ s y c, l !! s = Some y →
    ∃ z, l !! (if (c <? length l) && (_compare tie l c s <? 0)%Z then c else s) = Some z ∧
      entry_le z y ∧ ∀ a, l !! c = Some a → entry_le z a) as Hpick.
  { intros s y c Es. destruct (Nat.ltb_spec c (length l)) as [Hlt|Hge]; simpl.
    - destruct (lookup_lt_is_Some_2 l c Hlt) as [a Ea].
      destruct (Z.ltb_spec (_compare tie l c s) 0) as [H'|H'].
      + exists a. split; [done|]. split; [|by intros b ?; simplify_eq].
        apply (compare_le l c s); [done..|lia].
      + exists y. split; [done|]. split; [done|]. intros b ?; simplify_eq.
        unfold _compare in H'. rewrite Ea, Es in H'. unfold entry_le.
        pose proof (compare_entries_opp a y). lia.
    - exists y. split; [done|]. split; [done|]. intros a Ea%lookup_lt_Some. lia. }
  unfold _smallestChild.
  destruct (Hpick cur x (2 * cur + 1) Ex) as (y & Ey & Hyx & Hyl).
  destruct (Hpick _ y (2 * cur + 2) Ey) as (z & Ez & Hzy & Hzr).
  exists z. split; [exact Ez|]. split; [by trans y|]. split.
  - destruct (_ && _) in |- *; [right; split; [lia|apply parent_spec; lia]|].
    destruct (_ && _); [right; split; [lia|apply parent_spec; lia]|by left].
  - intros c a Hc0 [->| ->]%parent_spec Ea; [|by apply Hzr|done]. trans y; [done|by apply Hyl].
Qed.

Lemma down_inv_swap l cur s x y :
  l !! cur = Some x → l !! s = Some y → 0 < s → parent s = cur → entry_le y x →
  (∀ c a, 0 < c → parent c = cur → l !! c = Some a → entry_le y a) →
  down_inv l cur → down_inv (swap cur s l) s.
Proof.
  intros Ex Ey Hs0 Eps Hyx Hy [Ho Hg]. pose proof (parent_lt s Hs0) as Hlt. split.
  - intros i Hps q b Hi0. pose proof (parent_lt i Hi0). rewrite !(lookup_swap _ _ _ x y) by done.
    rewrite (decide_False (P:=parent i = s)) by done.
    destruct (decide (parent i = cur)) as [Epi|Npi].
    + intros [= <-]. case_decide; [by intros [= <-]|]. rewrite decide_False by lia. by apply Hy.
    + intros Eq. rewrite (decide_False (P:=i = s)) by (intros ->; lia).
      case_decide as E; [|by apply Ho]. intros [= <-]. subst i. by apply (Hg s).
  - intros c q b Hc0 Epc _. pose proof (parent_lt c Hc0). rewrite !(lookup_swap _ _ _ x y) by done.
    rewrite Eps, (decide_False (P:=cur = s)), decide_True by lia. intros [= <-].
    rewrite !decide_False by lia. intros Eb. apply (Ho c); [lia|done|by rewrite Epc|done].
Qed.

Lemma bubbleDown_perm fuel cur l : _bubbleDown fuel tie cur l ≡ₚ l.
Proof.
  revert cur l. induction fuel as [|fuel IH]; intros cur l; simpl; [done|].
  destruct (_ =? cur); [done|]. by rewrite IH, swap_perm.
Qed.

Lemma bubbleDown_ok fuel cur l :
  length l <= fuel + cur → down_inv l cur → heap_ok (_bubbleDown fuel tie cur l).
Proof.
  assert (∀ l cur, l !! cur = None → down_inv l cur → heap_ok l) as Hout.
  { intros l' c Ec [Ho _] i q b Hi0 Eq Eb.
    apply (Ho i); [by intros Ep; rewrite Ep, Ec in Eq|done..]. }
  revert cur l. induction fuel as [|fuel IH]; intros cur l Hf Hinv; simpl.
  { apply (Hout _ cur); [apply lookup_ge_None; lia|done]. }
  destruct (l !! cur) as [x|] eqn:Ex.
  2: { assert (_smallestChild tie cur l = cur) as ->; [|rewrite Nat.eqb_refl; by apply (Hout _ cur)].
       apply lookup_ge_None in Ex. unfold _smallestChild.
       destruct (Nat.ltb_spec (2 * cur + 1) (length l)); [lia|]. cbn [andb].
       destruct (Nat.ltb_spec (2 * cur + 2) (length l)); [lia|done]. }
  destruct (smallestChild_spec cur l x Ex) as (y & Ey & Hyx & Hs & Hy).
  destruct (Nat.eqb_spec (_smallestChild tie cur l) cur) as [E|Hne].
  - rewrite E in Ey. simplify_eq. intros i q b Hi0 Eq Eb. destruct Hinv as [Ho _].
    destruct (decide (parent i = cur)) as [Epi|]; [|by apply (Ho i)].
    rewrite Epi in Eq. simplify_eq. by apply (Hy i).
  - destruct Hs as [|[Hs0 Eps]]; [done|]. pose proof (parent_lt _ Hs0).
    apply IH; [rewrite swap_length; lia|]. by apply (down_inv_swap _ _ _ x y).
Qed.

Lemma heap_root l m i a : heap_ok l → l !! 0 = Some m → l !! i = Some a → entry_le m a.
Proof.
  intros Hok Em. revert a. induction (lt_wf i) as [i _ IH]. intros a Ea.
  destruct (decide (i = 0)) as [->|]; [by simplify_eq|].
  pose proof (parent_lt i ltac:(lia)).
  destruct (lookup_lt_is_Some_2 l (parent i)) as [p Ep];
    [apply lookup_lt_Some in Ea; lia|].
  trans p; [by apply (IH (parent i))|]. apply (Hok i); [lia|done..].
Qed.

(** ** The operations *)
Implicit Types h : MinHeap A C.

Definition valid h : Prop := tieBreaker h = tie ∧ heap_ok (heap_of h).

Lemma new_heap_valid : valid (new tie).
Proof. split; [done|]. by intros i p a _ E. Qed.

Lemma insert_spec x p h :
  valid h → valid (insert x p h) ∧ heap_of (insert x p h) ≡ₚ mkEntry x p :: heap_of h.
Proof.
  intros [Et Hok]. unfold insert. split; [split; [done|]|]; simpl; rewrite ?Et.
  - rewrite length_app. simpl. apply bubbleUp_ok; [lia|rewrite length_app; simpl; lia|]. split.
    + intros i Hi q b Hi0 Eq Eb. pose proof (lookup_lt_Some _ _ _ Eb) as Hlt.
      rewrite length_app in Hlt. simpl in Hlt. pose proof (parent_lt i Hi0).
      rewrite lookup_app_l in Eq, Eb by lia. by apply (Hok i).
    + intros c q b Hc0 Epc _ _ Eb%lookup_lt_Some. pose proof (parent_lt c Hc0).
      rewrite length_app in Eb. simpl in Eb. lia.
  - rewrite bubbleUp_perm. by rewrite Permutation_app_comm.
Qed.

Lemma extractMin_spec h h' r :
  valid h → extractMin h = (h', r) →
  valid h' ∧
  match heap_of h with
  | [] => heap_of h' = [] ∧ r = None
  | m :: rest => r = Some (item m) ∧ heap_of h' ≡ₚ rest ∧ Forall (entry_le m) rest
  end.
Proof.
  intros [Et Hok] E. unfold extractMin in E.
  destruct (heap_of h) as [|m rest] eqn:El; simplify_eq; [by repeat split; rewrite ?El|].
  assert (Forall (entry_le m) rest) as Hall.
  { apply Forall_forall. intros a [i Ei]%list_elem_of_lookup.
    by apply (heap_root (m :: rest) m (S i)). }
  destruct rest as [|e0 rest']; simplify_eq.
  { split; [split; [done|by intros i p a _ E]|by split]. }
  set (rest := e0 :: rest') in *.
  destruct (exists_last (l:=rest) ltac:(done)) as (init & e & Er). rewrite Er in E, Hall |- *.
  rewrite last_snoc, removelast_last in E. apply pair_equal_spec in E as [<- <-].
  assert (Forall (entry_le m) rest → down_inv (e :: init) 0) as Hdown.
  { intros _. split; [|intros c p a _ _ Hn; lia]. intros i Hpi q b Hi0 Eq Eb.
    destruct i as [|i]; [done|]. destruct (parent (S i)) as [|j] eqn:Ep; [done|].
    simpl in Eq, Eb. apply (Hok (S i)); [done|rewrite Ep|]; simpl; rewrite Er.
    - rewrite lookup_app_l; [done|by eapply lookup_lt_Some].
    - rewrite lookup_app_l; [done|by eapply lookup_lt_Some]. }
  split; [split; [done|]|split; [done|split; [|done]]]; cbn [heap_of].
  - rewrite Et. apply bubbleDown_ok; [lia|]. apply Hdown. by rewrite Er.
  - rewrite Et, bubbleDown_perm. by rewrite Permutation_app_comm.
Qed.
End order.

(** ** A heap is a sorted list

    With a tie breaker that is a total order the heap cannot be told from a
    list kept in order: the layout of the array never shows. *)
Section refinement.
Context {A C : Type} `{CostLaws C} (t : A → A → Z) `{!CompareLaws t}.

#[export] Instance total_tie_laws : TieLaws (Some t).
Proof.
  split.
  - intros u x y [= <-]. apply cmp_opp.
  - intros u x y z [= <-]. apply (cmp_le_trans t).
Qed.

#[export] Instance entry_compare_laws : CompareLaws (compare_entries (C:=C) (Some t)).
Proof.
  assert (Inj (=) (=) (λ e : HeapEntry A C, (priority e, item e))) as Hinj
    by (intros [] [] [=]; by subst).
  exact (cmp_pull_laws _ _ (cmp_pair_laws c_ltb t _)).
Qed.

(** What a client can call, and what it sees. *)
Inductive call := Insert (x : A) (p : C) | ExtractMin | PeekPriority | Size.
Inductive answer := Unit | Item (r : option A) | Priority (r : option C) | Count (n : nat).

Definition call_heap (c : call) (h : MinHeap A C) : MinHeap A C * answer :=
  match c with
  | Insert x p => (insert x p h, Unit)
  | ExtractMin => let '(h', r) := extractMin h in (h', Item r)
  | PeekPriority => (h, Priority (peekPriority h))
  | Size => (h, Count (size h))
  end.

Definition call_list (c : call) (l : list (HeapEntry A C)) : list (HeapEntry A C) * answer :=
  match c with
  | Insert x p => (sort_insert (compare_entries (Some t)) (mkEntry x p) l, Unit)
  | ExtractMin => (tail l, Item (item <$> head l))
  | PeekPriority => (l, Priority (priority <$> head l))
  | Size => (l, Count (length l))
  end.

Fixpoint answers {S} (run : call → S → S * answer) (cs : list call) (s : S) : list answer :=
  match cs with
  | [] => []
  | c :: cs' => let '(s', a) := run c s in a :: answers run cs' s'
  end.

(** The abstraction: the entries in order. *)
Definition in_order (h : MinHeap A C) : list (HeapEntry A C) :=
  js_sort (compare_entries (Some t)) (heap_of h).

Lemma sorted_min m rest :
  Forall (entry_le (Some t) m) rest →
  js_sort (compare_entries (C:=C) (Some t)) (m :: rest) = m :: js_sort (compare_entries (Some t)) rest.
Proof.
  intros Hall. simpl. set (l := js_sort _ rest).
  assert (Forall (entry_le (Some t) m) l) as Hl by (unfold l; by rewrite js_sort_perm).
  destruct l as [|y l]; [done|]. inversion Hl as [|?? Hy]; subst. unfold entry_le in Hy. simpl.
  by rewrite (proj2 (Z.leb_le _ _)).
Qed.

Lemma call_refines c h :
  valid (Some t) h →
  valid (Some t) (call_heap c h).1 ∧
  (in_order (call_heap c h).1, (call_heap c h).2) = call_list c (in_order h).
Proof.
  intros Hv. destruct c as [x p| | |]; cbn [call_heap call_list fst snd].
  - destruct (insert_spec (Some t) x p h Hv) as [Hv' Hp]. split; [done|]. f_equal.
    unfold in_order. by rewrite (js_sort_unique _ _ _ Hp).
  - destruct (extractMin h) as [h' r] eqn:E.
    destruct (extractMin_spec (Some t) h h' r Hv E) as [Hv' Hs]. split; [done|]. simpl.
    unfold in_order. destruct (heap_of h) as [|m rest]; [by destruct Hs as [-> ->]|].
    destruct Hs as (-> & Hp & Hall). rewrite (sorted_min m rest Hall). simpl.
    by rewrite (js_sort_unique _ _ _ Hp).
  - split; [done|]. f_equal. f_equal. unfold peekPriority, in_order. destruct Hv as [_ Hok].
    destruct (heap_of h) as [|m rest] eqn:El; [done|].
    rewrite sorted_min; [done|]. apply Forall_forall. intros a [i Ei]%list_elem_of_lookup.
    by apply (heap_root (Some t) (m :: rest) m (S i)).
  - split; [done|]. do 2 f_equal. unfold size, in_order. by rewrite js_sort_perm.
Qed.

(** No client can tell a [MinHeap] with a total tie breaker from a sorted
    list: whatever is inserted and extracted in whatever order, every answer is
    the head of the list of the entries ordered by priority and then by the tie
    breaker. *)
Theorem min_heap_is_sorted_list (cs : list call) :
  answers call_heap cs (new (Some t)) = answers call_list cs [].
Proof.
  assert (∀ h, valid (Some t) h → answers call_heap cs h = answers call_list cs (in_order h)) as Hgen.
  { induction cs as [|c cs IH]; intros h Hv; [done|]. simpl.
    destruct (call_refines c h Hv) as [Hv' E].
    destruct (call_heap c h) as [h' a], (call_list c (in_order h)) as [l' b]. simplify_eq/=.
    f_equal. by apply IH. }
  apply (Hgen (new (Some t))), new_heap_valid.
Qed.
End refinement.

Example heap_extracts_in_order :
  answers (call_heap)
    [Insert "b" 2; Insert "c" 1; Insert "a" 2; ExtractMin; PeekPriority; ExtractMin; ExtractMin; ExtractMin]%Z
    (new (Some compareStrings))
  = [Unit; Unit; Unit; Item (Some "c"); Priority (Some 2%Z); Item (Some "a"); Item (Some "b"); Item None].
Proof. reflexivity. Qed.

Lemma min_heap_is_sorted_list_witness :
  answers call_heap [Insert "b" 2; Insert "a" 2; ExtractMin; PeekPriority]%Z (new (Some compareStrings))
  = answers (call_list compareStrings) [Insert "b" 2; Insert "a" 2; ExtractMin; PeekPriority]%Z [].
Proof. apply (min_heap_is_sorted_list (C:=Z) compareStrings). Defined.
End MinHeap.
