(* ===== verification/TraversalContext.v ===== *)
(** What all graph searches share ([ports/NeighborProviderPort.ts],
    [services/query/TraversalContext.ts], [utils/cancellation.ts]): the provider
    of neighbours, the memo of a run, the abort signal and the weights. *)
From S2P Require Export Loops MinHeap.
#[local] Open Scope Z_scope.
#[local] Open Scope list_scope.

(** The character NUL that joins the parts of a key. *)
Definition nul : string := String "000" "".

Module NeighborProviderPort.

(* @src ports/NeighborProviderPort.ts Direction 11-11 *)
Inductive Direction := DOut | DIn | DBoth.

#[global] Instance Direction_eq_dec : EqDecision Direction.
Proof. solve_decision. Defined.

Definition direction_text (d : Direction) : string :=
  match d with DOut => "out" | DIn => "in" | DBoth => "both" end.

(* @src ports/NeighborProviderPort.ts isDirection 13-17 *)
Definition isDirection (value : string) : option Direction :=
  if decide (value = "out") then Some DOut
  else if decide (value = "in") then Some DIn
  else if decide (value = "both") then Some DBoth else None.

(** Label filters are sets; the order of insertion never matters. *)
(* @src ports/NeighborProviderPort.ts NeighborOptions *)
Record NeighborOptions := mkOptions { labels : option (list string) }.

(* @src ports/NeighborProviderPort.ts NeighborEdge 23-25 *)
Record NeighborEdge := mkEdge { neighborId : string; label : string }.

#[global] Instance NeighborEdge_eq_dec : EqDecision NeighborEdge.
Proof. solve_decision. Defined.

(* @src ports/NeighborProviderPort.ts constructor 27-42 *)
Definition newEdge (neighborId label : jsval) : result NeighborEdge :=
  match neighborId with
  | JStr n =>
      if str_nonempty n then
        match label with
        | JStr l => Ok (mkEdge n l)
        | _ => Throw (Err "NeighborProviderError" "E_INVALID_NEIGHBOR_LABEL")
        end
      else Throw (Err "NeighborProviderError" "E_INVALID_NEIGHBOR_ID")
  | _ => Throw (Err "NeighborProviderError" "E_INVALID_NEIGHBOR_ID")
  end.

(* @src ports/NeighborProviderPort.ts LatencyClass 49-49 *)
Inductive LatencyClass := sync | async_local | async_remote.

#[global] Instance LatencyClass_eq_dec : EqDecision LatencyClass.
Proof. solve_decision. Defined.

(** A provider answers from a view that does not change during a run; reading
    it may fail. *)
(* @src ports/NeighborProviderPort.ts NeighborProviderPort 52-81 *)
Record NeighborProviderPort := mk {
  getNeighbors : string → Direction → NeighborOptions → result (list NeighborEdge);
  hasNode : string → result bool;
  latencyClass : LatencyClass;
}.

End NeighborProviderPort.
Export NeighborProviderPort.

Module TraversalContext.

(* @src domain/services/query/TraversalContext.ts RunStats 24-29 *)
Record RunStats := mkRunStats {
  cacheHits : Z;
  cacheMisses : Z;
  edgesTraversed : Z;
  neighborResults : gmap string (list NeighborEdge);
}.

(* @src domain/services/query/TraversalContext.ts TraversalStats 31-36 *)
Record TraversalStats := mkStats {
  nodesVisited : Z;
  s_edgesTraversed : Z;
  s_cacheHits : Z;
  s_cacheMisses : Z;
}.

(** What a run changes besides its local variables: its statistics, how often
    it asked the abort signal, and the cache a weight function keeps. *)
Record Run (W : Type) := mkRun { rs : RunStats; polls : nat; weights : gmap string W }.
Arguments mkRun {W} _ _ _.
Arguments rs {W} _.
Arguments polls {W} _.
Arguments weights {W} _.

(** An abort signal: whether it is set when it is asked for the n-th time. *)
Definition AbortSignal : Type := nat → bool.

(* @src domain/services/query/TraversalContext.ts TraversalHooks 38-41 *)
Record TraversalHooks := mkHooks {
  onVisit : option (string → Z → result unit);
  onExpand : option (string → list NeighborEdge → result unit);
}.

(** A bound that may be [Infinity]. *)
Inductive limit := Upto (n : Z) | Infinite.

#[global] Instance limit_eq_dec : EqDecision limit.
Proof. solve_decision. Defined.

Definition lt_limit (x : Z) (l : limit) : bool :=
  match l with Upto n => x <? n | Infinite => true end.
Definition le_limit (x : Z) (l : limit) : bool :=
  match l with Upto n => x <=? n | Infinite => true end.

(* @src domain/services/query/TraversalContext.ts DEFAULT_MAX_NODES 75-75 *)
Definition DEFAULT_MAX_NODES : limit := Upto 100000.
(* @src domain/services/query/TraversalContext.ts DEFAULT_MAX_DEPTH 76-76 *)
Definition DEFAULT_MAX_DEPTH : limit := Upto 1000.

(* @src domain/services/query/TraversalContext.ts lexTieBreaker 82-83 *)
Definition lexTieBreaker (a b : string) : Z :=
  if str_ltb a b then -1 else if str_ltb b a then 1 else 0.

#[global] Instance lexTieBreaker_laws : CompareLaws lexTieBreaker := compareStrings_laws.

(* @src domain/services/query/TraversalContext.ts computeTopoHasCycle *)
Definition computeTopoHasCycle (sortedLength discoveredSize : Z) (maxNodes : limit)
    (readyRemaining : bool) : bool :=
  let stoppedByLimit := negb (lt_limit sortedLength maxNodes) && readyRemaining in
  negb stoppedByLimit && (sortedLength <? discoveredSize).

(* @src domain/services/query/TraversalContext.ts newRunStats *)
Definition newRunStats : RunStats := mkRunStats 0 0 0 ∅.

Definition newRun {W} : Run W := mkRun newRunStats 0 ∅.

(* @src domain/services/query/TraversalContext.ts stats *)
Definition stats (nodesVisited : Z) (rs : RunStats) : TraversalStats :=
  mkStats nodesVisited (edgesTraversed rs) (cacheHits rs) (cacheMisses rs).

Definition aborted_error : error := Err "OperationAbortedError" "OPERATION_ABORTED".
Definition invalid_start : error := Err "TraversalError" "INVALID_START".
Definition no_path : error := Err "TraversalError" "NO_PATH".

Section run.
Context {W : Type}.
#[local] Abbreviation M := (step (Run W)).
Context (provider : NeighborProviderPort).

Definition update_rs (f : RunStats → RunStats) : M unit :=
  modify (λ r, mkRun (f (rs r)) (polls r) (weights r)).

(** [rs.edgesTraversed += n] *)
Definition count_edges (l : list NeighborEdge) : M unit :=
  update_rs (λ s, mkRunStats (cacheHits s) (cacheMisses s)
    (edgesTraversed s + Z.of_nat (length l)) (neighborResults s)).

(* @src domain/utils/cancellation.ts checkAborted *)
Definition checkAborted (signal : option AbortSignal) : M unit :=
  match signal with
  | None => mret ()
  | Some aborted =>
      r ← get;
      _ ← put (mkRun (rs r) (S (polls r)) (weights r));
      if aborted (polls r) then lift (Throw aborted_error) else mret ()
  end.

(** [if (size % 1000 === 0) { checkAborted(signal, ...); }] *)
Definition poll (signal : option AbortSignal) (size : nat) : M unit :=
  if (size mod 1000 =? 0)%nat then checkAborted signal else mret ().

Definition cache_key (nodeId : string) (direction : Direction) (options : NeighborOptions) : string :=
  let labelsKey :=
    match labels options with
    | Some ls => String.concat nul (js_sort compareStrings ls)
    | None => "*"
    end in
  nodeId +:+ nul +:+ direction_text direction +:+ nul +:+ labelsKey.

(* @src domain/services/query/TraversalContext.ts getNeighbors *)
Definition getNeighbors (nodeId : string) (direction : Direction) (options : NeighborOptions)
    : M (list NeighborEdge) :=
  if decide (latencyClass provider = sync)
  then lift (NeighborProviderPort.getNeighbors provider nodeId direction options)
  else
    let key := cache_key nodeId direction options in
    r ← get;
    match neighborResults (rs r) !! key with
    | Some cached =>
        _ ← update_rs (λ s, mkRunStats (cacheHits s + 1) (cacheMisses s)
              (edgesTraversed s) (neighborResults s));
        mret cached
    | None =>
        _ ← update_rs (λ s, mkRunStats (cacheHits s) (cacheMisses s + 1)
              (edgesTraversed s) (neighborResults s));
        result ← lift (NeighborProviderPort.getNeighbors provider nodeId direction options);
        _ ← update_rs (λ s, mkRunStats (cacheHits s) (cacheMisses s)
              (edgesTraversed s) (<[key := result]> (neighborResults s)));
        mret result
    end.

(** The neighbours of a node, with [rs.edgesTraversed += neighbors.length]. *)
Definition expand (nodeId : string) (direction : Direction) (options : NeighborOptions)
    : M (list NeighborEdge) :=
  neighbors ← getNeighbors nodeId direction options;
  _ ← count_edges neighbors;
  mret neighbors.

(* @src domain/services/query/TraversalContext.ts validateStart *)
Definition validateStart (nodeId : string) : M unit :=
  exists_ ← lift (hasNode provider nodeId);
  if exists_ : bool then mret () else lift (Throw invalid_start).
End run.

(** ** Weights *)

(* @src domain/services/query/TraversalContext.ts WeightFn 43-43 *)
Definition WeightFn (C : Type) : Type := string → string → string → step (Run C) C.

Section weights.
Context {C : Type} `{Costs C}.

(** The default weight is the number 1. *)
(* @src domain/services/query/TraversalContext.ts DEFAULT_WEIGHT_FN 77-77 *)
Definition DEFAULT_WEIGHT_FN : WeightFn C := λ _ _ _, mret c_one.

(* @src domain/services/query/TraversalContext.ts _buildNodeWeightResolver *)
Definition _buildNodeWeightResolver (nodeWeightFn : string → result C) : WeightFn C :=
  λ _ to _,
    r ← get;
    match weights r !! to with
    | Some cached => mret cached
    | None =>
        result ← lift (nodeWeightFn to);
        _ ← modify (λ r, mkRun (rs r) (polls r) (<[to := result]> (weights r)));
        mret result
    end.

(* @src domain/services/query/TraversalContext.ts resolveWeightFn *)
Definition resolveWeightFn (weightFn : option (string → string → string → result C))
    (nodeWeightFn : option (string → result C)) : result (WeightFn C) :=
  match weightFn, nodeWeightFn with
  | Some _, Some _ => Throw (Err "TraversalError" "E_WEIGHT_FN_CONFLICT")
  | _, Some f => Ok (_buildNodeWeightResolver f)
  | Some f, None => Ok (λ from to label, lift (f from to label))
  | None, None => Ok DEFAULT_WEIGHT_FN
  end.
End weights.

(** ** Paths *)

(** A chain of predecessors without a cycle has at most as many links as the
    map has entries. *)
Fixpoint follow (fuel : nat) (predMap : gmap string string) (stop current : string)
    (path : list string) : result (list string) :=
  match fuel with
  | O => Throw out_of_fuel
  | S fuel' =>
      if decide (current = stop) then Ok path else
      match predMap !! current with
      | None => Ok path
      | Some pred => follow fuel' predMap stop pred (path ++ [pred])
      end
  end.

(* @src domain/services/query/TraversalContext.ts reconstructPath *)
Definition reconstructPath (predMap : gmap string string) (start goal : string)
    : result (list string) :=
  path ← follow (S (size predMap)) predMap start goal [goal];
  Ok (reverse path).

(* @src domain/services/query/TraversalContext.ts reconstructBiPath *)
Definition reconstructBiPath (fwdPrev bwdNext : gmap string string) (start goal meeting : string)
    : result (list string) :=
  fwdHalf ← follow (S (size fwdPrev)) fwdPrev start meeting [meeting];
  follow (S (size bwdNext)) bwdNext goal meeting (reverse fwdHalf).

(* @src domain/services/query/TraversalContext.ts shouldUpdatePredecessor *)
Definition shouldUpdatePredecessor (predMap : gmap string string) (nodeId candidatePred : string)
    : bool :=
  match predMap !! nodeId with
  | None => true
  | Some current => str_ltb candidatePred current
  end.

End TraversalContext.
Export TraversalContext.
