(* ===== verification/Walks.v ===== *)
(** Graphs as the searches see them: walks, distances, paths, and a provider
    that answers from a finite graph. *)
From S2P Require Export TraversalContext.
#[local] Open Scope nat_scope.
#[local] Open Scope list_scope.

Section graph.
Context (nbrs : string → list NeighborEdge).

Definition edge (x y : string) : Prop := ∃ e, e ∈ nbrs x ∧ neighborId e = y.

Lemma elem_of_edge e x : e ∈ nbrs x → edge x (neighborId e).
Proof. intros. by exists e. Qed.

Inductive walk : nat → string → string → Prop :=
  | walk_nil x : walk 0 x x
  | walk_snoc n x y z : walk n x y → edge y z → walk (S n) x z.

Lemma walk_0 x y : walk 0 x y → x = y.
Proof. by inversion 1. Qed.

Lemma walk_S n x z : walk (S n) x z → ∃ y, walk n x y ∧ edge y z.
Proof. inversion 1; subst. by eexists. Qed.

Lemma walk_app n m x y z : walk n x y → walk m y z → walk (n + m) x z.
Proof.
  intros Hn. induction 1 as [y|m y w z _ IH Hwz]; [by rewrite Nat.add_0_r|].
  rewrite Nat.add_succ_r. econstructor; [by apply IH|done].
Qed.

Definition reachable (x y : string) : Prop := ∃ n, walk n x y.

(** [k] steps are needed to get from [s] to [x]. *)
Definition distance (s x : string) (k : nat) : Prop :=
  walk k s x ∧ ∀ j, walk j s x → k ≤ j.

Lemma distance_unique s x j k : distance s x j → distance s x k → j = k.
Proof. intros [H1 H2] [H3 H4]. apply H2 in H3. apply H4 in H1. lia. Qed.

Lemma distance_0 s x : distance s x 0 ↔ x = s.
Proof. split; [by intros [?%walk_0 _]|intros ->]. split; [constructor|lia]. Qed.

Lemma distance_self s k : distance s s k → k = 0.
Proof. intros [_ Hmin]. pose proof (Hmin 0 (walk_nil s)). lia. Qed.

(** Walks can be made shortest walks. Deciding which walk is shortest is not
    constructive on an arbitrary graph, so the searches prove this where they
    need it; on one step it is plain. *)
Lemma distance_pred s x k : distance s x (S k) → ∃ y, distance s y k ∧ edge y x.
Proof.
  intros [Hw Hmin]. destruct (walk_S _ _ _ Hw) as (y & Hy & Hyx). exists y.
  split; [|done]. split; [done|]. intros j Hj.
  assert (walk (S j) s x) as Hx by (by econstructor). apply Hmin in Hx. lia.
Qed.

Lemma distance_below s x k j : distance s x k → j ≤ k → ∃ y, distance s y j.
Proof.
  revert x j. induction k as [|k IH]; intros x j Hx Hj.
  - assert (j = 0) as -> by lia. by exists x.
  - destruct (decide (j = S k)) as [->|]; [by exists x|].
    destruct (distance_pred _ _ _ Hx) as (y & Hy & _). apply (IH y j); [done|lia].
Qed.

(** A path as the list of its nodes. *)
Inductive route : string → string → list string → Prop :=
  | route_nil x : route x x [x]
  | route_snoc x y z p : route x y p → edge y z → route x z (p ++ [z]).

Lemma route_walk x y p : route x y p → walk (length p - 1) x y.
Proof.
  assert (∀ x y p, route x y p → 1 ≤ length p ∧ walk (length p - 1) x y) as Hgen;
    [|intros Hp%Hgen; apply Hp].
  induction 1 as [a|a b c q _ [Hl IH] Hbc]; simpl; [split; [done|constructor]|].
  rewrite length_app. simpl. split; [lia|].
  replace (length q + 1 - 1) with (S (length q - 1)) by lia. by econstructor.
Qed.

Lemma route_last x y p : route x y p → last p = Some y.
Proof. inversion 1; [done|]. by rewrite last_snoc. Qed.

Lemma route_head x y p : route x y p → head p = Some x.
Proof. induction 1 as [|a b c q Hq IH]; [done|]. by destruct q. Qed.

Lemma walk_route n x y : walk n x y → ∃ p, route x y p ∧ length p = S n.
Proof.
  induction 1 as [x|n x y z _ (p & Hp & Hl) Hyz]; [exists [x]; split; [constructor|done]|].
  exists (p ++ [z]). split; [by econstructor|]. rewrite length_app. simpl. lia.
Qed.
End graph.

(** ** Providers of a finite graph *)
Section view.
Context {W : Type} (provider : NeighborProviderPort) (options : NeighborOptions).
Implicit Types r : Run W.

(** What a memo holds is what the provider answers. *)
Definition memo_ok r : Prop :=
  ∀ n d v, neighborResults (rs r) !! cache_key n d options = Some v →
    NeighborProviderPort.getNeighbors provider n d options = Ok v.

(** An abort signal that is never set. *)
Definition unset (signal : option AbortSignal) : Prop :=
  ∀ f n, signal = Some f → f n = false.

(** The neighbours of all nodes in one direction, all of them in [U]. *)
Record sees (direction : Direction) (nbrs : string → list NeighborEdge) (U : gset string) : Prop := {
  sees_answers n : NeighborProviderPort.getNeighbors provider n direction options = Ok (nbrs n);
  sees_finite n e : e ∈ nbrs n → neighborId e ∈ U;
}.

Lemma sees_edge d nbrs U x y : sees d nbrs U → edge nbrs x y → y ∈ U.
Proof. intros Hs (e & He & <-). by eapply sees_finite. Qed.

Lemma list_ascii_app s1 s2 :
  String.list_ascii_of_string (s1 +:+ s2) = String.list_ascii_of_string s1 ++ String.list_ascii_of_string s2.
Proof. induction s1 as [|a s1 IH]; [done|]. simpl. by rewrite IH. Qed.

(** A key determines the node and the direction. *)
Lemma cache_key_inj n1 d1 n2 d2 :
  cache_key n1 d1 options = cache_key n2 d2 options → n1 = n2 ∧ d1 = d2.
Proof.
  unfold cache_key. set (ls := match labels options with Some _ => _ | None => _ end).
  intros E%(f_equal String.list_ascii_of_string). rewrite !list_ascii_app in E.
  rewrite !(app_assoc (String.list_ascii_of_string n1)), !(app_assoc (String.list_ascii_of_string n2)) in E.
  rewrite !app_assoc in E. apply (inj (λ l, l ++ String.list_ascii_of_string ls)) in E.
  apply (inj (λ l, l ++ String.list_ascii_of_string nul)) in E.
  assert (d1 = d2) as ->.
  { apply (f_equal last) in E. rewrite !last_app in E.
    by destruct d1, d2; simpl in E; simplify_eq. }
  split; [|done].
  apply (inj (λ l, l ++ String.list_ascii_of_string (direction_text d2))) in E.
  apply (inj (λ l, l ++ String.list_ascii_of_string nul)) in E.
  apply (f_equal String.string_of_list_ascii) in E. by rewrite !String.string_of_list_ascii_of_string in E.
Qed.

Lemma memo_ok_new p w : memo_ok (mkRun newRunStats p w).
Proof. intros n d v. simpl. by rewrite lookup_empty. Qed.

Lemma count_edges_yields l : yields memo_ok (count_edges l) ().
Proof. intros r Hr. eexists. split; [done|]. intros n d v. apply Hr. Qed.

(** Memoized or not, the answer is the provider's. *)
Lemma getNeighbors_answers n d r :
  memo_ok r →
  ∃ r', getNeighbors provider n d options r = (r', NeighborProviderPort.getNeighbors provider n d options) ∧
    memo_ok r' ∧ weights r' = weights r ∧ polls r' = polls r.
Proof.
  intros Hr. unfold getNeighbors. case_decide; [by exists r|].
  unfold mbind, step_bind, get. simpl.
  destruct (neighborResults (rs r) !! cache_key n d options) as [v|] eqn:E; simpl.
  - rewrite (Hr n d v E). eexists. split; [done|]. split; [|done]. intros n' d' v'. apply Hr.
  - destruct (NeighborProviderPort.getNeighbors provider n d options) as [v|e] eqn:Ev; simpl.
    + eexists. split; [done|]. split; [|done]. intros n' d' v'. simpl.
      intros [[Ek <-]|[_ Hv]]%lookup_insert_Some; [|by apply Hr].
      by apply cache_key_inj in Ek as [<- <-].
    + eexists. split; [done|]. split; [|done]. intros n' d' v'. apply Hr.
Qed.

Lemma expand_yields d nbrs U n :
  sees d nbrs U → yields memo_ok (expand provider n d options) (nbrs n).
Proof.
  intros Hs r Hr. unfold expand.
  destruct (getNeighbors_answers n d r Hr) as (r1 & E & H1 & _).
  rewrite (sees_answers _ _ _ Hs) in E. rewrite (step_bind_ok _ _ _ _ _ E).
  apply (yields_bind memo_ok (count_edges (nbrs n)) (λ _, mret (nbrs n)) () (nbrs n));
    [apply count_edges_yields|apply yields_ret|done].
Qed.

Lemma checkAborted_yields signal : unset signal → yields memo_ok (checkAborted signal) ().
Proof.
  intros Hu r Hr. destruct signal as [f|]; [|by exists r]. simpl.
  unfold mbind, step_bind, get, put. simpl. rewrite (Hu f) by done. eexists. split; [done|].
  intros n d v. apply Hr.
Qed.

Lemma poll_yields signal k : unset signal → yields memo_ok (poll signal k) ().
Proof. intros. apply yields_if; intros _; [by apply checkAborted_yields|apply yields_ret]. Qed.

Lemma validateStart_yields n :
  hasNode provider n = Ok true → yields memo_ok (validateStart (W:=W) provider n) ().
Proof. intros E r Hr. unfold validateStart. rewrite E. by exists r. Qed.
End view.

Create HintDb yields.
#[export] Hint Resolve yields_ret expand_yields checkAborted_yields poll_yields
  validateStart_yields : yields.
