(* ===== verification/GraphTraversal.v ===== *)
(** Breadth-first and depth-first traversal ([services/query/GraphTraversal.ts]). *)
From S2P Require Export Walks.
#[local] Open Scope Z_scope.
#[local] Open Scope list_scope.

Module GraphTraversal.

(* @src domain/services/query/GraphTraversal.ts GraphTraversalStreamParams 46-54 *)
Record GraphTraversalStreamParams := mkParams {
  p_start : string;
  p_direction : option Direction;
  p_options : NeighborOptions;
  p_maxNodes : option limit;
  p_maxDepth : option limit;
  p_signal : option AbortSignal;
  p_hooks : option TraversalHooks;
}.

(* @src domain/services/query/GraphTraversal.ts PrimitiveTraversalRun 56-66 *)
Record PrimitiveTraversalRun := mkRun {
  start : string;
  direction : Direction;
  options : NeighborOptions;
  maxNodes : limit;
  maxDepth : limit;
  signal : option AbortSignal;
  hooks : option TraversalHooks;
}.

(* @src domain/services/query/GraphTraversal.ts createPrimitiveRun *)
Definition createPrimitiveRun (p : GraphTraversalStreamParams) : PrimitiveTraversalRun := {|
  start := p_start p;
  direction := default DOut (p_direction p);
  options := p_options p;
  maxNodes := default DEFAULT_MAX_NODES (p_maxNodes p);
  maxDepth := default DEFAULT_MAX_DEPTH (p_maxDepth p);
  signal := p_signal p;
  hooks := p_hooks p;
|}.

(** [{ nodeId, depth }] *)
Record Entry := mkEntry { nodeId : string; depth : Z }.

(** A run with its own statistics and weights, as [newRunStats] makes them;
    the signal stays the caller's. *)
Definition fresh {W A} (m : step (Run W) A) : step (Run W) A := λ r,
  let '(r', x) := m (TraversalContext.mkRun newRunStats (polls r) ∅) in
  (TraversalContext.mkRun (rs r) (polls r') (weights r), x).

Section traversal.
Context {W : Type} (provider : NeighborProviderPort) (run : PrimitiveTraversalRun).
#[local] Abbreviation M := (step (Run W)).

Definition call_onVisit (nodeId : string) (depth : Z) : M unit :=
  match hooks run with
  | Some {| onVisit := Some f |} => lift (f nodeId depth)
  | _ => mret ()
  end.

Definition call_onExpand (nodeId : string) (neighbors : list NeighborEdge) : M unit :=
  match hooks run with
  | Some {| onExpand := Some f |} => lift (f nodeId neighbors)
  | _ => mret ()
  end.

(** The nodes a stream yields are collected in [nodes]. *)
Definition set_size (s : gset string) : Z := Z.of_nat (size s).

(** ** Breadth first *)
Record BfsLevel := mkLevel {
  visited : gset string;
  nodes : list string;
  nextLevel : list Entry;
  queued : gset string;
}.

(** [for (const { neighborId } of neighbors) { if (!visited.has && !queued.has) ... }] *)
(* @src domain/services/query/GraphTraversal.ts _bfsStream 149-154 *)
Definition enqueue (depth : Z) (neighbors : list NeighborEdge) (st : BfsLevel) : BfsLevel :=
  foldl (λ st e,
    if decide (neighborId e ∈ visited st ∨ neighborId e ∈ queued st) then st
    else mkLevel (visited st) (nodes st)
           (nextLevel st ++ [mkEntry (neighborId e) (depth + 1)])
           ({[neighborId e]} ∪ queued st)) st neighbors.

(** The body of the inner loop, for an entry that is not skipped. *)
(* @src domain/services/query/GraphTraversal.ts _bfsStream 139-155 *)
Definition bfs_visit (nodeId : string) (depth : Z) (st : BfsLevel) : M BfsLevel :=
  _ ← poll (signal run) (size (visited st));
  let st := mkLevel ({[nodeId]} ∪ visited st) (nodes st ++ [nodeId]) (nextLevel st) (queued st) in
  _ ← call_onVisit nodeId depth;
  if lt_limit depth (maxDepth run) then
    neighbors ← expand provider nodeId (direction run) (options run);
    _ ← call_onExpand nodeId neighbors;
    mret (enqueue depth neighbors st)
  else mret st.

(** [for (const { nodeId, depth } of currentLevel)] *)
(* @src domain/services/query/GraphTraversal.ts _bfsStream 135-156 *)
Fixpoint bfs_level (level : list Entry) (st : BfsLevel) : M BfsLevel :=
  match level with
  | [] => mret st
  | mkEntry nodeId depth :: rest =>
      if negb (lt_limit (set_size (visited st)) (maxNodes run)) then mret st
      else if decide (nodeId ∈ visited st) then bfs_level rest st
      else if negb (le_limit depth (maxDepth run)) then bfs_level rest st
      else st ← bfs_visit nodeId depth st; bfs_level rest st
  end.

(** A turn of the outer loop, on [currentLevel], [visited] and what was yielded. *)
(* @src domain/services/query/GraphTraversal.ts _bfsStream 130-158 *)
Definition bfs_turn (turn : list Entry * gset string * list string)
    : M ((list Entry * gset string * list string) + (gset string * list string)) :=
  let '(currentLevel, seen, yielded) := turn in
  if bool_decide (currentLevel ≠ []) && lt_limit (set_size seen) (maxNodes run) then
    let currentLevel := js_sort (compare_key nodeId) currentLevel in
    st ← bfs_level currentLevel (mkLevel seen yielded [] ∅);
    mret (inl (nextLevel st, visited st, nodes st))
  else mret (inr (seen, yielded)).

(* @src domain/services/query/GraphTraversal.ts _bfsStream *)
Definition _bfsStream (fuel : nat) : M (gset string * list string) :=
  _ ← validateStart provider (start run);
  loop fuel bfs_turn ([mkEntry (start run) 0], ∅, []).

(** ** Depth first *)

(** [for (let i = neighbors.length - 1; i >= 0; i -= 1) { ... stack.push(...) }]:
    the top of the stack is the head of the list. *)
(* @src domain/services/query/GraphTraversal.ts _dfsStream 194-199 *)
Definition push_neighbors (seen : gset string) (depth : Z) (neighbors : list NeighborEdge)
    (stack : list Entry) : list Entry :=
  foldl (λ stack e,
    if decide (neighborId e ∈ seen) then stack
    else mkEntry (neighborId e) (depth + 1) :: stack) stack (reverse neighbors).

(** A turn of the loop, on [stack], [visited] and what was yielded. *)
(* @src domain/services/query/GraphTraversal.ts _dfsStream 179-201 *)
Definition dfs_turn (turn : list Entry * gset string * list string)
    : M ((list Entry * gset string * list string) + (gset string * list string)) :=
  let '(stack, seen, yielded) := turn in
  match stack with
  | mkEntry nodeId depth :: stack =>
      if negb (lt_limit (set_size seen) (maxNodes run)) then mret (inr (seen, yielded))
      else if decide (nodeId ∈ seen) then mret (inl (stack, seen, yielded))
      else if negb (le_limit depth (maxDepth run)) then mret (inl (stack, seen, yielded))
      else
        _ ← poll (signal run) (size seen);
        let seen := {[nodeId]} ∪ seen in
        let yielded := yielded ++ [nodeId] in
        _ ← call_onVisit nodeId depth;
        if lt_limit depth (maxDepth run) then
          neighbors ← expand provider nodeId (direction run) (options run);
          _ ← call_onExpand nodeId neighbors;
          mret (inl (push_neighbors seen depth neighbors stack, seen, yielded))
        else mret (inl (stack, seen, yielded))
  | [] => mret (inr (seen, yielded))
  end.

(* @src domain/services/query/GraphTraversal.ts _dfsStream *)
Definition _dfsStream (fuel : nat) : M (gset string * list string) :=
  _ ← validateStart provider (start run);
  loop fuel dfs_turn ([mkEntry (start run) 0], ∅, []).

(** [{ nodes, stats }] of a collected stream. *)
(* @src domain/services/query/GraphTraversal.ts collectTraversal *)
Definition collectTraversal (stream : M (gset string * list string))
    : M (list string * TraversalStats) :=
  fresh (
    '(seen, yielded) ← stream;
    r ← get;
    mret (yielded, stats (set_size seen) (rs r))).
End traversal.

Section entry_points.
Context {W : Type} (provider : NeighborProviderPort).
#[local] Abbreviation M := (step (Run W)).

(* @src domain/services/query/GraphTraversal.ts bfs *)
Definition bfs (fuel : nat) (params : GraphTraversalStreamParams)
    : M (list string * TraversalStats) :=
  collectTraversal (_bfsStream provider (createPrimitiveRun params) fuel).

(* @src domain/services/query/GraphTraversal.ts dfs *)
Definition dfs (fuel : nat) (params : GraphTraversalStreamParams)
    : M (list string * TraversalStats) :=
  collectTraversal (_dfsStream provider (createPrimitiveRun params) fuel).

(** The streams yield what [bfs] and [dfs] collect. *)
(* @src domain/services/query/GraphTraversal.ts bfsStream *)
Definition bfsStream (fuel : nat) (params : GraphTraversalStreamParams) : M (list string) :=
  fresh ('(_, yielded) ← _bfsStream provider (createPrimitiveRun params) fuel; mret yielded).

(* @src domain/services/query/GraphTraversal.ts dfsStream *)
Definition dfsStream (fuel : nat) (params : GraphTraversalStreamParams) : M (list string) :=
  fresh ('(_, yielded) ← _dfsStream provider (createPrimitiveRun params) fuel; mret yielded).
End entry_points.

End GraphTraversal.
