(* ===== verification/GraphPathFinding.v ===== *)
(** Path searches ([services/query/GraphPathFinding.ts]): shortest paths by
    breadth, reachability, Dijkstra, A* and bidirectional A*. *)
From S2P Require Export GraphTraversal.
#[local] Open Scope Z_scope.
#[local] Open Scope list_scope.

Module GraphPathFinding.
Export GraphTraversal(fresh, set_size, Entry, mkEntry, nodeId, depth).

(* @src domain/services/query/GraphPathFinding.ts shortestPath 34-41 *)
Record PathParams := mkPathParams {
  start : string;
  goal : string;
  p_direction : option Direction;
  options : NeighborOptions;
  p_maxNodes : option limit;
  p_maxDepth : option limit;
  signal : option AbortSignal;
}.

Definition direction (p : PathParams) : Direction := default DOut (p_direction p).
Definition maxNodes (p : PathParams) : limit := default DEFAULT_MAX_NODES (p_maxNodes p).
Definition maxDepth (p : PathParams) : limit := default DEFAULT_MAX_DEPTH (p_maxDepth p).

(* @src domain/services/query/GraphPathFinding.ts shortestPath 41-41 *)
Record PathResult := mkPath { found : bool; path : list string; length_ : Z; p_stats : TraversalStats }.

Section unweighted.
Context {W : Type} (provider : NeighborProviderPort) (params : PathParams).
#[local] Abbreviation M := (step (Run W)).

(** [rs] of the run so far, in a result. *)
Definition stats_of (visited : gset string) : M TraversalStats :=
  r ← get; mret (stats (set_size visited) (rs r)).

(** ** Shortest path by breadth *)
Record Frontier := mkFrontier {
  visited : gset string;
  parent : gmap string string;
  next : list Entry;
}.

(** [for (const { neighborId } of neighbors)]: [inr] when the goal is met. *)
(* @src domain/services/query/GraphPathFinding.ts shortestPath 67-77 *)
Fixpoint discover (from : string) (depth : Z) (neighbors : list NeighborEdge) (st : Frontier)
    : Frontier + Frontier :=
  match neighbors with
  | [] => inl st
  | e :: rest =>
      if decide (neighborId e ∈ visited st) then discover from depth rest st
      else
        let st := mkFrontier ({[neighborId e]} ∪ visited st)
                    (<[neighborId e := from]> (parent st)) (next st) in
        if decide (neighborId e = goal params) then inr st
        else discover from depth rest
               (mkFrontier (visited st) (parent st) (next st ++ [mkEntry (neighborId e) (depth + 1)]))
  end.

(** [for (const { nodeId, depth } of frontier)] *)
(* @src domain/services/query/GraphPathFinding.ts shortestPath 60-78 *)
Fixpoint sp_level (frontier : list Entry) (st : Frontier) : M (Frontier + Frontier) :=
  match frontier with
  | [] => mret (inl st)
  | mkEntry nodeId depth :: rest =>
      if negb (lt_limit depth (maxDepth params)) then sp_level rest st
      else
        _ ← poll (signal params) (size (visited st));
        neighbors ← expand provider nodeId (direction params) (options params);
        match discover nodeId depth neighbors st with
        | inl st => sp_level rest st
        | inr st => mret (inr st)
        end
  end.

(* @src domain/services/query/GraphPathFinding.ts shortestPath 56-82 *)
Definition sp_turn (turn : list Entry * gset string * gmap string string)
    : M ((list Entry * gset string * gmap string string) + PathResult) :=
  let '(frontier, seen, parents) := turn in
  if bool_decide (frontier ≠ []) && lt_limit (set_size seen) (maxNodes params) then
    out ← sp_level (js_sort (compare_key nodeId) frontier) (mkFrontier seen parents []);
    match out with
    | inl st => mret (inl (next st, visited st, parent st))
    | inr st =>
        path ← lift (reconstructPath (parent st) (start params) (goal params));
        s ← stats_of (visited st);
        mret (inr (mkPath true path (Z.of_nat (length path) - 1) s))
    end
  else s ← stats_of seen; mret (inr (mkPath false [] (-1) s)).

(* @src domain/services/query/GraphPathFinding.ts shortestPath *)
Definition shortestPath (fuel : nat) : M PathResult :=
  fresh (
    _ ← validateStart provider (start params);
    if decide (start params = goal params) then
      r ← get; mret (mkPath true [start params] 0 (stats 1 (rs r)))
    else loop fuel sp_turn ([mkEntry (start params) 0], {[start params]}, ∅)).

(** ** Reachability *)

(** [for (const { neighborId } of neighbors)]: [inr] when the goal is met. *)
(* @src domain/services/query/GraphPathFinding.ts isReachable 113-121 *)
Fixpoint reach_neighbors (neighbors : list NeighborEdge) (seen : gset string) (next : list string)
    : gset string * list string + gset string :=
  match neighbors with
  | [] => inl (seen, next)
  | e :: rest =>
      if decide (neighborId e = goal params) then inr seen
      else if decide (neighborId e ∈ seen) then reach_neighbors rest seen next
      else reach_neighbors rest ({[neighborId e]} ∪ seen) (next ++ [neighborId e])
  end.

(** [for (const nodeId of frontier)] *)
(* @src domain/services/query/GraphPathFinding.ts isReachable 110-122 *)
Fixpoint reach_level (frontier : list string) (seen : gset string) (next : list string)
    : M (gset string * list string + gset string) :=
  match frontier with
  | [] => mret (inl (seen, next))
  | nodeId :: rest =>
      neighbors ← expand provider nodeId (direction params) (options params);
      match reach_neighbors neighbors seen next with
      | inl (seen, next) => reach_level rest seen next
      | inr seen => mret (inr seen)
      end
  end.

(* @src domain/services/query/GraphPathFinding.ts isReachable 107-127 *)
Definition reach_turn (turn : list string * gset string * Z)
    : M ((list string * gset string * Z) + (bool * TraversalStats)) :=
  let '(frontier, seen, depth) := turn in
  if bool_decide (frontier ≠ []) && lt_limit depth (maxDepth params)
       && lt_limit (set_size seen) (maxNodes params) then
    _ ← poll (signal params) (size seen);
    out ← reach_level frontier seen [];
    match out with
    | inl (seen, next) => mret (inl (next, seen, depth + 1))
    | inr seen => s ← stats_of seen; mret (inr (true, s))
    end
  else s ← stats_of seen; mret (inr (false, s)).

(* @src domain/services/query/GraphPathFinding.ts isReachable *)
Definition isReachable (fuel : nat) : M (bool * TraversalStats) :=
  fresh (
    if decide (start params = goal params) then
      r ← get; mret (true, stats 1 (rs r))
    else loop fuel reach_turn ([start params], {[start params]}, 0)).
End unweighted.

(** ** Weighted searches *)
Section weighted.
Context {C : Type} `{Costs C} (provider : NeighborProviderPort) (params : PathParams).
#[local] Abbreviation M := (step (Run C)).

(* @src domain/services/query/GraphPathFinding.ts weightedShortestPath 135-136 *)
Record Weights := mkWeights {
  weightFn : option (string → string → string → result C);
  nodeWeightFn : option (string → result C);
}.

(* @src domain/services/query/GraphPathFinding.ts aStarSearch 197-197 *)
Record WeightedResult := mkWeighted {
  w_path : list string;
  totalCost : option C;
  nodesExplored : Z;
  w_stats : TraversalStats;
}.

(** The local variables of a search. *)
Record Search := mkSearch {
  dist : gmap string C;
  prev : gmap string string;
  settled : gset string;
  pq : MinHeap.MinHeap string C;
}.

(** [alt < best || (alt === best && shouldUpdatePredecessor(...))]; a missing
    [best] is [Infinity]. *)
(* @src domain/services/query/GraphPathFinding.ts weightedShortestPath 171-173 *)
Definition improves (prev : gmap string string) (nodeId current : string) (alt : C)
    (best : option C) : bool :=
  match best with
  | None => true
  | Some b => c_ltb alt b || (bool_decide (alt = b) && shouldUpdatePredecessor prev nodeId current)
  end.

(** [for (const { neighborId, label } of neighbors)], with the priority of a
    node that costs [g] to reach. *)
(* @src domain/services/query/GraphPathFinding.ts weightedShortestPath 167-178 *)
Definition relax (priority : string → C → C) (weight : WeightFn C) (current : string)
    (st : Search) (e : NeighborEdge) : M Search :=
  if decide (neighborId e ∈ settled st) then mret st
  else
    w ← weight current (neighborId e) (label e);
    match dist st !! current with
    | None => mret st
    | Some d =>
        let alt := c_add d w in
        if improves (prev st) (neighborId e) current alt (dist st !! neighborId e) then
          mret (mkSearch (<[neighborId e := alt]> (dist st)) (<[neighborId e := current]> (prev st))
                  (settled st) (MinHeap.insert (neighborId e) (priority (neighborId e) alt) (pq st)))
        else mret st
    end.

(* @src domain/services/query/GraphPathFinding.ts weightedShortestPath 152-184 *)
Definition search_turn (priority : string → C → C) (weight : WeightFn C) (st : Search)
    : M (Search + WeightedResult) :=
  if MinHeap.isEmpty (pq st) || negb (lt_limit (set_size (settled st)) (maxNodes params))
  then lift (Throw no_path)
  else
    _ ← checkAborted (signal params);
    match MinHeap.extractMin (pq st) with
    | (pq, Some current) =>
        if decide (current ∈ settled st) then mret (inl (mkSearch (dist st) (prev st) (settled st) pq))
        else
          let st := mkSearch (dist st) (prev st) ({[current]} ∪ settled st) pq in
          if decide (current = goal params) then
            path ← lift (reconstructPath (prev st) (start params) (goal params));
            s ← stats_of (settled st);
            mret (inr (mkWeighted path (dist st !! goal params) (set_size (settled st)) s))
          else
            neighbors ← expand provider current (direction params) (options params);
            st ← for_fold (relax priority weight current) neighbors st;
            mret (inl st)
    | (pq, None) => mret (inl (mkSearch (dist st) (prev st) (settled st) pq))
    end.

(** The start costs nothing and is alone in the queue. *)
Definition search_from (priority : string → C → C) (p0 : C) (weights : Weights) (fuel : nat)
    : M WeightedResult :=
  fresh (
    weight ← lift (resolveWeightFn (weightFn weights) (nodeWeightFn weights));
    _ ← validateStart provider (start params);
    loop fuel (search_turn priority weight)
      (mkSearch {[start params := c_zero]} ∅ ∅
         (MinHeap.insert (start params) p0 (MinHeap.new (Some lexTieBreaker))))).

(** The priority of a node is the cost to reach it. *)
(* @src domain/services/query/GraphPathFinding.ts weightedShortestPath *)
Definition weightedShortestPath (weights : Weights) (fuel : nat) : M WeightedResult :=
  search_from (λ _ g, g) c_zero weights fuel.

(** The heuristic estimates what is left to the goal; without one it is 0. *)
(* @src domain/services/query/GraphPathFinding.ts aStarSearch *)
Definition aStarSearch (heuristicFn : option (string → string → C)) (weights : Weights)
    (fuel : nat) : M WeightedResult :=
  let h := default (λ _ _, c_zero) heuristicFn in
  search_from (λ n g, c_add g (h n (goal params))) (h (start params) (goal params)) weights fuel.
End weighted.
End GraphPathFinding.
