(* ===== verification/Bfs.v ===== *)
(** Breadth-first traversal visits the nodes in the order of their distance and
    then of their ids, and cuts that order off where the limit says. *)
From S2P Require Export GraphTraversal.
#[local] Open Scope nat_scope.
#[local] Open Scope list_scope.
Import GraphTraversal.

(** Neither the signal nor a hook interferes. *)
Record quiet (run : PrimitiveTraversalRun) : Prop := {
  quiet_signal : unset (signal run);
  quiet_visit h f n d : hooks run = Some h → onVisit h = Some f → f n d = Ok ();
  quiet_expand h f n l : hooks run = Some h → onExpand h = Some f → f n l = Ok ();
}.

Lemma set_size_list (l : list string) :
  NoDup l → set_size (list_to_set l) = Z.of_nat (length l).
Proof. intros. unfold set_size. by rewrite size_list_to_set. Qed.

(** The entries a limit leaves room for, after [n] of them. *)
Definition cut (max : limit) (n : nat) (l : list string) : list string :=
  match max with Upto m => take (Z.to_nat (m - Z.of_nat n)) l | Infinite => l end.

Lemma cut_sublist max n l : cut max n l `sublist_of` l.
Proof. destruct max; simpl; [apply sublist_take|done]. Qed.

Lemma cut_full max n l : lt_limit (Z.of_nat n) max = false → cut max n l = [].
Proof. destruct max as [m|]; [|done]. simpl. rewrite Z.ltb_ge. intros. by replace (Z.to_nat _) with 0 by lia. Qed.

Lemma cut_cons max n x l :
  lt_limit (Z.of_nat n) max = true → cut max n (x :: l) = x :: cut max (S n) l.
Proof.
  destruct max as [m|]; [|done]. simpl. rewrite Z.ltb_lt. intros.
  replace (Z.to_nat (m - Z.of_nat n)) with (S (Z.to_nat (m - Z.of_nat (S n)))) by lia. done.
Qed.

Lemma cut_nil max n : cut max n [] = [].
Proof. destruct max; [apply take_nil|done]. Qed.

(** What is cut off comes after all that is kept, which fills the limit. *)
Lemma cut_dropped (R : relation string) max n l x :
  StronglySorted R l → x ∈ l → x ∉ cut max n l →
  lt_limit (Z.of_nat (n + length (cut max n l))) max = false ∧ Forall (λ y, R y x) (cut max n l).
Proof.
  intros Hs. revert n. induction Hs as [|y l Hs IH Hy]; intros n Hx Hni; [by apply elem_of_nil in Hx|].
  destruct (lt_limit (Z.of_nat n) max) eqn:E.
  - rewrite cut_cons in Hni |- * by done. apply not_elem_of_cons in Hni as [Hne Hni].
    apply elem_of_cons in Hx as [|Hx]; [done|]. destruct (IH (S n) Hx Hni) as [Hfull Hall].
    split; [simpl; by rewrite Nat.add_succ_r|].
    constructor; [|done]. rewrite Forall_forall in Hy. by apply Hy.
  - rewrite cut_full by done. simpl. by rewrite Nat.add_0_r.
Qed.

Section bfs.
Context {W : Type} (provider : NeighborProviderPort) (run : PrimitiveTraversalRun).
Context (nbrs : string → list NeighborEdge) (U : gset string).
Context (Hsees : sees provider (options run) (direction run) nbrs U) (Hquiet : quiet run).
#[local] Abbreviation ok := (memo_ok (W:=W) provider (options run)).

Lemma call_onVisit_yields n d : yields ok (call_onVisit run n d) ().
Proof.
  intros r Hr. exists r. split; [|done]. unfold call_onVisit.
  destruct (hooks run) as [[[f|] h2]|] eqn:E; try done. simpl.
  unfold lift. by rewrite (quiet_visit _ Hquiet _ f n d E).
Qed.

Lemma call_onExpand_yields n l : yields ok (call_onExpand run n l) ().
Proof.
  intros r Hr. exists r. split; [|done]. unfold call_onExpand.
  destruct (hooks run) as [[h1 [f|]]|] eqn:E; try done. simpl.
  unfold lift. by rewrite (quiet_expand _ Hquiet _ f n l E).
Qed.

(** ** A level without its effects *)
Definition pure_visit (n : string) (d : Z) (st : BfsLevel) : BfsLevel :=
  let st := mkLevel ({[n]} ∪ visited st) (nodes st ++ [n]) (nextLevel st) (queued st) in
  if lt_limit d (maxDepth run) then enqueue d (nbrs n) st else st.

Fixpoint pure_level (level : list Entry) (st : BfsLevel) : BfsLevel :=
  match level with
  | [] => st
  | mkEntry n d :: rest =>
      if negb (lt_limit (set_size (visited st)) (maxNodes run)) then st
      else if decide (n ∈ visited st) then pure_level rest st
      else if negb (le_limit d (maxDepth run)) then pure_level rest st
      else pure_level rest (pure_visit n d st)
  end.

Lemma bfs_visit_yields n d st : yields ok (bfs_visit provider run n d st) (pure_visit n d st).
Proof.
  unfold bfs_visit, pure_visit. eapply yields_bind; [apply poll_yields, Hquiet|].
  eapply yields_bind; [apply call_onVisit_yields|].
  destruct (lt_limit d (maxDepth run)); [|apply yields_ret].
  eapply yields_bind; [by eapply expand_yields|].
  eapply yields_bind; [apply call_onExpand_yields|apply yields_ret].
Qed.

Lemma bfs_level_yields level st : yields ok (bfs_level provider run level st) (pure_level level st).
Proof.
  revert st. induction level as [|[n d] level IH]; intros st; cbn [bfs_level pure_level];
    [apply yields_ret|].
  destruct (negb _); [apply yields_ret|]. case_decide; [apply IH|].
  destruct (negb _); [apply IH|]. eapply yields_bind; [apply bfs_visit_yields|apply IH].
Qed.

(** ** The queue of a level *)
Definition ids (l : list Entry) : list string := nodeId <$> l.

Record queue_ok (d : Z) (st : BfsLevel) : Prop := {
  queue_set : queued st = list_to_set (ids (nextLevel st));
  queue_nodup : NoDup (ids (nextLevel st));
  queue_depth : Forall (λ e, depth e = (d + 1)%Z) (nextLevel st);
}.

Lemma enqueue_spec d l st :
  queue_ok d st →
  let st' := enqueue d l st in
  queue_ok d st' ∧ visited st' = visited st ∧ nodes st' = nodes st ∧
  ∀ x, x ∈ ids (nextLevel st') ↔
    x ∈ ids (nextLevel st) ∨ ((x ∉ visited st) ∧ ∃ e, e ∈ l ∧ neighborId e = x).
Proof.
  revert st. induction l as [|e l IH]; intros st Hq; simpl.
  { do 3 (split; [done|]). set_solver. }
  set (st1 := if decide _ then st else _).
  assert (queue_ok d st1 ∧ visited st1 = visited st ∧ nodes st1 = nodes st ∧
    ∀ x, x ∈ ids (nextLevel st1) ↔ x ∈ ids (nextLevel st) ∨ ((x ∉ visited st) ∧ neighborId e = x))
    as (Hq1 & Ev & En & Hx).
  { destruct Hq as [Hset Hnd Hd]. unfold st1. case_decide as Hdec.
    - do 3 (split; [done|]). intros x. split; [by left|]. intros [|[? <-]]; [done|].
      destruct Hdec as [|Hin]; [done|]. rewrite Hset in Hin. by apply elem_of_list_to_set in Hin.
    - assert ((neighborId e ∉ visited st) ∧ (neighborId e ∉ queued st)) as [Hnv Hnq] by tauto.
      assert (∀ es, ids (es ++ [mkEntry (neighborId e) (d + 1)]) = ids es ++ [neighborId e]) as Hids
        by (intros es; unfold ids; by rewrite fmap_app).
      split; [split; simpl; rewrite ?Hids|].
      + rewrite list_to_set_app_L, Hset. set_solver.
      + apply NoDup_app. split; [done|]. split; [|apply NoDup_singleton].
        intros y Hy ->%list_elem_of_singleton. apply Hnq. rewrite Hset. by apply elem_of_list_to_set.
      + apply Forall_app. split; [done|]. by constructor.
      + do 2 (split; [done|]). intros x. simpl. rewrite Hids. set_solver. }
  destruct (IH st1 Hq1) as (Hq' & Ev' & En' & Hx').
  split; [done|]. rewrite Ev', En'. split; [done|]. split; [done|].
  intros x. rewrite Hx', Hx, Ev. set_solver.
Qed.

(** ** What a level visits *)
Definition unvisited (V : gset string) (l : list string) : list string :=
  filter (.∉ V) l.

Lemma unvisited_add V x l : x ∉ l → unvisited ({[x]} ∪ V) l = unvisited V l.
Proof.
  unfold unvisited. induction l as [|y l IH]; [done|]. intros [Hne Hni]%not_elem_of_cons.
  rewrite !filter_cons, IH by done. repeat case_decide; set_solver.
Qed.

Record state_ok (st : BfsLevel) : Prop := {
  nodes_visited : visited st = list_to_set (nodes st);
  nodes_nodup : NoDup (nodes st);
}.

(** A level of nodes of one depth visits those it has not seen, in order, as
    far as the limit goes, and queues their neighbours. *)
Record level_result (d : Z) (level : list Entry) (st st' : BfsLevel) (new : list string) : Prop := {
  lr_state : state_ok st';
  lr_queue : queue_ok d st';
  lr_new : new = cut (maxNodes run) (length (nodes st)) (unvisited (visited st) (ids level));
  lr_nodes : nodes st' = nodes st ++ new;
  lr_sound x : x ∈ ids (nextLevel st') →
    x ∈ ids (nextLevel st) ∨ ((x ∉ visited st) ∧ ∃ y, y ∈ new ∧ edge nbrs y x);
  lr_complete x : x ∈ ids (nextLevel st) → x ∈ ids (nextLevel st');
  lr_expanded x y : lt_limit d (maxDepth run) = true → y ∈ new → edge nbrs y x →
    x ∈ visited st' ∨ x ∈ ids (nextLevel st');
}.

Lemma state_size st : state_ok st → set_size (visited st) = Z.of_nat (length (nodes st)).
Proof. intros [-> ?]. by apply set_size_list. Qed.

Lemma pure_visit_spec n d st :
  n ∉ visited st → state_ok st → queue_ok d st →
  let st' := pure_visit n d st in
  state_ok st' ∧ queue_ok d st' ∧ visited st' = {[n]} ∪ visited st ∧ nodes st' = nodes st ++ [n] ∧
  (∀ x, x ∈ ids (nextLevel st') → x ∈ ids (nextLevel st) ∨ ((x ∉ visited st) ∧ edge nbrs n x)) ∧
  (∀ x, x ∈ ids (nextLevel st) → x ∈ ids (nextLevel st')) ∧
  (lt_limit d (maxDepth run) = true → ∀ x, edge nbrs n x → x ∈ visited st' ∨ x ∈ ids (nextLevel st')).
Proof.
  intros Hn Hst Hq. unfold pure_visit.
  set (st1 := mkLevel _ _ _ _).
  assert (state_ok st1) as Hst1.
  { destruct Hst as [Ev Hnd]. split; simpl; [rewrite list_to_set_app_L, <- Ev; set_solver|].
    apply NoDup_app. split; [done|]. split; [|apply NoDup_singleton].
    intros y Hy ->%list_elem_of_singleton. rewrite Ev in Hn. by apply Hn, elem_of_list_to_set. }
  assert (queue_ok d st1) as Hq1 by (by destruct Hq).
  destruct (lt_limit d (maxDepth run)).
  - destruct (enqueue_spec d (nbrs n) st1 Hq1) as (Hq' & Ev & En & Hx). unfold edge.
    assert (state_ok (enqueue d (nbrs n) st1)) by (destruct Hst1; split; rewrite ?Ev, ?En; done).
    rewrite Ev, En. simpl. do 4 (split; [done|]).
    split; [intros x Hx'%Hx; set_solver|]. split; [intros x Hx'; apply Hx; by left|].
    intros _ x Hex. destruct (decide (x ∈ visited st1)) as [Hv|Hv]; [by left|right].
    apply Hx. by right.
  - do 4 (split; [done|]). split; [by left|]. by split.
Qed.

Lemma pure_level_spec d level st :
  le_limit d (maxDepth run) = true →
  Forall (λ e, depth e = d) level → NoDup (ids level) → state_ok st → queue_ok d st →
  ∃ new, level_result d level st (pure_level level st) new.
Proof.
  intros Hd. revert st. induction level as [|[n d'] level IH]; intros st Hdep Hnd Hst Hq.
  { exists []. split; [done..| | |by left|done|]; rewrite ?cut_nil, ?app_nil_r; [done..|].
    intros x y _ Hy. by apply elem_of_nil in Hy. }
  apply Forall_cons in Hdep as [[= ->] Hdep]. simpl in Hnd. apply NoDup_cons in Hnd as [Hni Hnd].
  cbn [pure_level]. destruct (lt_limit (set_size (visited st)) (maxNodes run)) eqn:Efull; simpl.
  2: { exists []. rewrite (state_size st) in Efull by done.
       split; [done..| | |by left|done|]; rewrite ?app_nil_r; [by rewrite cut_full|done|].
       intros x y _ Hy. by apply elem_of_nil in Hy. }
  rewrite (state_size st) in Efull by done.
  case_decide as Hv.
  - destruct (IH st Hdep Hnd Hst Hq) as [new [? ? Enew ? ? ? ?]]. exists new. split; try done.
    rewrite Enew. f_equal. unfold unvisited. simpl. by rewrite filter_cons_False by naive_solver.
  - rewrite Hd. simpl.
    destruct (pure_visit_spec n d st Hv Hst Hq) as (Hst1 & Hq1 & Ev & En & Hs & Hc & He).
    destruct (IH _ Hdep Hnd Hst1 Hq1) as [new [? ? Enew En' Hs' Hc' He']].
    rewrite Ev, En, length_app, Nat.add_1_r in Enew. rewrite unvisited_add in Enew by done.
    exists (n :: new). split; try done.
    + unfold unvisited. simpl. rewrite filter_cons_True by done. rewrite cut_cons by done. f_equal. exact Enew.
    + by rewrite En', En, <- app_assoc.
    + intros x [[Hx|[Hx1 Hx2]]%Hs|[Hx (y & Hy & Hyx)]]%Hs'; [by left|right; set_solver|].
      right. split; [set_solver|]. exists y. set_solver.
    + intros x Hx. by apply Hc', Hc.
    + intros x y Hlt [->|Hy]%elem_of_cons Hyx; [|by apply (He' x y)].
      destruct (He Hlt x Hyx) as [Hx|Hx]; [left|right; by apply Hc'].
      rewrite (nodes_visited _ Hst1) in Hx. rewrite (nodes_visited (pure_level _ _)), En' by done. set_solver.
Qed.

Lemma sorted_ids l :
  NoDup (ids l) → StronglySorted (λ x y, str_ltb x y = true) (ids (js_sort (compare_key nodeId) l)).
Proof.
  intros Hnd. assert (NoDup (ids (js_sort (compare_key nodeId) l))) as Hnd'
    by (unfold ids; by rewrite js_sort_perm).
  pose proof (sort_key_sorted nodeId l) as Hs. revert Hnd' Hs. generalize (js_sort (compare_key nodeId) l).
  clear. intros l. induction l as [|e l IH]; intros Hnd Hs; simpl; [constructor|].
  apply NoDup_cons in Hnd as [Hni Hnd]. apply StronglySorted_inv in Hs as [Hs He].
  constructor; [by apply IH|]. apply Forall_fmap. rewrite Forall_forall in He |- *.
  intros e' He'. simpl. specialize (He e' He'). unfold cmp_le, compare_key, compareStrings in He.
  destruct (str_ltb (nodeId e) (nodeId e')) eqn:E0; [done|].
  destruct (str_ltb (nodeId e') (nodeId e)) eqn:E; [done|]. exfalso.
  apply Hni. unfold ids. apply list_elem_of_fmap. exists e'. split; [|done].
  destruct (decide (nodeId e = nodeId e')) as [|Hne]; [done|].
  apply (ltb_total (ltb:=str_ltb)) in Hne. by rewrite E, E0 in Hne.
Qed.

(** ** The order of the visits *)
#[local] Abbreviation s0 := (start run).
Definition within (k : nat) : Prop := le_limit (Z.of_nat k) (maxDepth run) = true.

Lemma within_le j k : j ≤ k → within k → within j.
Proof. unfold within. destruct (maxDepth run); simpl; [|done]. rewrite !Z.leb_le. lia. Qed.

Lemma within_S k : within (S k) → lt_limit (Z.of_nat k) (maxDepth run) = true.
Proof. unfold within. destruct (maxDepth run); simpl; [|done]. rewrite Z.leb_le, Z.ltb_lt. lia. Qed.

(** By distance from the start, then by id. *)
Definition before (x y : string) : Prop :=
  ∃ i j, distance nbrs s0 x i ∧ distance nbrs s0 y j ∧ (i < j ∨ (i = j ∧ str_ltb x y = true)).

Definition full (l : list string) : Prop :=
  lt_limit (Z.of_nat (length l)) (maxNodes run) = false.

(** The nodes within the depth limit, in order, as many as the limit allows. *)
Record visit_order (l : list string) : Prop := {
  vo_sorted : StronglySorted before l;
  vo_within x : x ∈ l → ∃ k, distance nbrs s0 x k ∧ within k;
  vo_limit n : maxNodes run = Upto n → (Z.of_nat (length l) <= Z.max 0 n)%Z;
  vo_all x k : ¬ full l → walk nbrs k s0 x → within k → x ∈ l;
  vo_rest x k : distance nbrs s0 x k → within k → x ∉ l → full l ∧ Forall (λ y, before y x) l;
}.

(** Between two levels: [k] is the distance of the current level. *)
Record level_inv (k : nat) (level : list Entry) (l : list string) : Prop := {
  li_depth : Forall (λ e, depth e = Z.of_nat k) level;
  li_nodup : NoDup (ids level);
  li_sorted : StronglySorted before l;
  li_within x : x ∈ l → ∃ j, j < k ∧ distance nbrs s0 x j ∧ within j;
  li_limit n : maxNodes run = Upto n → (Z.of_nat (length l) <= Z.max 0 n)%Z;
  li_done x j : j < k → within j → walk nbrs j s0 x → x ∈ l;
  li_walk x : x ∈ ids level → walk nbrs k s0 x;
  li_level x : within k → walk nbrs k s0 x → x ∈ ids level ∨ x ∈ l;
}.

Lemma li_distance k level l x : level_inv k level l → x ∈ ids level → x ∉ l → within k →
  distance nbrs s0 x k.
Proof.
  intros Hi Hx Hni Hk. split; [by eapply li_walk|]. intros j Hj.
  destruct (decide (k ≤ j)) as [|Hlt]; [done|]. destruct Hni.
  apply (li_done _ _ _ Hi x j); [lia| |done]. apply (within_le j k); [lia|done].
Qed.

(** When a level is empty the graph is exhausted. *)
Lemma li_end k l : level_inv k [] l → visit_order l.
Proof.
  intros Hi.
  assert (∀ j x, walk nbrs j s0 x → within j → x ∈ l) as Hall.
  { induction j as [|j IH]; intros x Hw Hj.
    - apply walk_0 in Hw as <-. destruct (decide (k = 0)) as [->|].
      + destruct (li_level _ _ _ Hi s0 Hj (walk_nil _ s0)) as [Hx%elem_of_nil|]; done.
      + apply (li_done _ _ _ Hi s0 0); [lia|done|constructor].
    - destruct (walk_S _ _ _ _ Hw) as (y & Hy & Hyx).
      assert (y ∈ l) as Hyl by (apply (IH y Hy); by apply (within_le j (S j)); [lia|]).
      destruct (li_within _ _ _ Hi y Hyl) as (i & Hik & [Hwi Hmin] & _).
      specialize (Hmin j Hy). assert (walk nbrs (S i) s0 x) as Hwx by (by econstructor).
      assert (within (S i)) by (apply (within_le _ (S j)); [lia|done]).
      destruct (decide (S i = k)) as [<-|]; [|apply (li_done _ _ _ Hi x (S i)); [lia|done..]].
      destruct (li_level _ _ _ Hi x) as [Hx%elem_of_nil|]; done. }
  split.
  - apply (li_sorted _ _ _ Hi).
  - intros x Hx. destruct (li_within _ _ _ Hi x Hx) as (j & _ & ? & ?). by exists j.
  - apply (li_limit _ _ _ Hi).
  - eauto.
  - intros x j [Hw _] Hj Hni. destruct Hni. eauto.
Qed.

(** Below the depth limit a level changes nothing. *)
Lemma pure_level_deep d level st :
  le_limit d (maxDepth run) = false → Forall (λ e, depth e = d) level → pure_level level st = st.
Proof.
  intros Hd. revert st. induction level as [|[n d'] level IH]; intros st Hdep; [done|].
  apply Forall_cons in Hdep as [[= ->] Hdep]. cbn [pure_level]. rewrite Hd. simpl.
  destruct (negb _); [done|]. case_decide; by apply IH.
Qed.

Definition turn_result (level : list Entry) (l : list string) : BfsLevel :=
  pure_level (js_sort (compare_key nodeId) level) (mkLevel (list_to_set l) l [] ∅).

Lemma turn_level k level l :
  level_inv k level l → NoDup l → within k →
  ∃ new, level_result (Z.of_nat k) (js_sort (compare_key nodeId) level)
    (mkLevel (list_to_set l) l [] ∅) (turn_result level l) new.
Proof.
  intros Hi Hnd Hk. apply pure_level_spec; [done|..].
  - rewrite js_sort_perm. apply (li_depth _ _ _ Hi).
  - unfold ids. rewrite js_sort_perm. apply (li_nodup _ _ _ Hi).
  - by split.
  - by split; [|constructor|constructor].
Qed.

(** The visits of one level, in order. *)
Section turn.
Context (k : nat) (level : list Entry) (l new : list string) (st' : BfsLevel).
Context (Hi : level_inv k level l) (Hk : within k).
Context (Hr : level_result (Z.of_nat k) (js_sort (compare_key nodeId) level)
  (mkLevel (list_to_set l) l [] ∅) st' new).

#[local] Abbreviation candidates :=
  (unvisited (list_to_set l) (ids (js_sort (compare_key nodeId) level))).

Lemma elem_of_candidates x : x ∈ candidates ↔ x ∈ ids level ∧ x ∉ l.
Proof.
  unfold unvisited, ids. rewrite list_elem_of_filter, elem_of_list_to_set, js_sort_perm. tauto.
Qed.

Lemma candidates_sorted : StronglySorted (λ x y, str_ltb x y = true) candidates.
Proof.
  eapply StronglySorted_sublist; [|apply sorted_ids, (li_nodup _ _ _ Hi)]. apply sublist_filter.
Qed.

Lemma new_eq : new = cut (maxNodes run) (length l) candidates.
Proof using Hr. by destruct Hr. Qed.

Lemma new_distance x : x ∈ new → distance nbrs s0 x k ∧ x ∉ l.
Proof.
  rewrite new_eq. intros Hx. eapply elem_of_sublist in Hx; [|apply cut_sublist].
  apply elem_of_candidates in Hx as [Hx Hni]. split; [by apply (li_distance k level l)|done].
Qed.

Lemma new_after y x : y ∈ l → x ∈ new → before y x.
Proof.
  intros Hy [Hx _]%new_distance. destruct (li_within _ _ _ Hi y Hy) as (j & Hj & Hd & _).
  exists j, k. auto.
Qed.

Lemma turn_sorted : StronglySorted before (l ++ new).
Proof.
  apply StronglySorted_app_2; [|apply (li_sorted _ _ _ Hi)|].
  - intros y x Hy Hx. by apply new_after.
  - apply (StronglySorted_weaken (λ x y, str_ltb x y = true)).
    + intros x y [Hx _]%new_distance [Hy _]%new_distance Hlt. exists k, k. auto.
    + rewrite new_eq. eapply StronglySorted_sublist; [apply cut_sublist|apply candidates_sorted].
Qed.

Lemma turn_limit n : maxNodes run = Upto n → (Z.of_nat (length (l ++ new)) <= Z.max 0 n)%Z.
Proof.
  intros E. pose proof (li_limit _ _ _ Hi n E). rewrite length_app, new_eq, E. simpl.
  rewrite length_take. lia.
Qed.

Lemma turn_within x : x ∈ l ++ new → ∃ j, j < S k ∧ distance nbrs s0 x j ∧ within j.
Proof.
  intros [Hx|[Hx _]%new_distance]%elem_of_app; [|exists k; auto with lia].
  destruct (li_within _ _ _ Hi x Hx) as (j & ? & ? & ?). exists j. auto with lia.
Qed.

(** A node of this distance is missing only when the limit is reached. *)
Lemma turn_missing x :
  walk nbrs k s0 x → x ∉ l ++ new → full (l ++ new) ∧ Forall (λ y, before y x) (l ++ new).
Proof.
  intros Hw [Hxl Hxn]%not_elem_of_app.
  destruct (li_level _ _ _ Hi x Hk Hw) as [Hx|]; [|done].
  assert (x ∈ candidates) as Hc by by apply elem_of_candidates.
  rewrite new_eq in Hxn.
  destruct (cut_dropped _ _ _ _ x candidates_sorted Hc Hxn) as [Hf Hall]. rewrite <- new_eq in *.
  split; [unfold full; by rewrite length_app|].
  pose proof (li_distance _ _ _ _ Hi Hx Hxl Hk) as Hd.
  apply Forall_app. split; rewrite Forall_forall in *; intros y Hy.
  - destruct (li_within _ _ _ Hi y Hy) as (j & Hj & Hdj & _). exists j, k. auto.
  - exists k, k. split; [by apply new_distance|]. auto.
Qed.

Lemma turn_full : full (l ++ new) → visit_order (l ++ new).
Proof.
  intros Hf. split; [apply turn_sorted| |apply turn_limit|done|].
  - intros x (j & _ & Hj)%turn_within. by exists j.
  - intros x j Hd Hj Hni. split; [done|].
    destruct (decide (j < k)) as [Hlt|Hge].
    { destruct Hni. apply elem_of_app. left. apply (li_done _ _ _ Hi x j); [done..|]. apply Hd. }
    destruct (decide (j = k)) as [->|]; [by apply turn_missing; [apply Hd|]|].
    apply Forall_forall. intros y (i & Hi' & Hdi & _)%turn_within. exists i, j. auto with lia.
Qed.

Lemma turn_next : ¬ full (l ++ new) → level_inv (S k) (nextLevel st') (l ++ new).
Proof.
  intros Hf.
  assert (∀ x j, j < S k → within j → walk nbrs j s0 x → x ∈ l ++ new) as Hdone.
  { intros x j Hj Hwj Hw. destruct (decide (x ∈ l ++ new)) as [|Hni]; [done|].
    destruct (decide (j = k)) as [->|]; [by destruct (turn_missing x Hw Hni)|].
    destruct Hni. apply elem_of_app. left. apply (li_done _ _ _ Hi x j); [lia|done..]. }
  split; [|apply Hr| |apply turn_within|apply turn_limit|done| |].
  - destruct (lr_queue _ _ _ _ _ Hr) as [_ _ Hd]. eapply Forall_impl; [exact Hd|].
    intros e. simpl. lia.
  - apply turn_sorted.
  - intros x Hx. apply (lr_sound _ _ _ _ _ Hr) in Hx as [Hx|[_ (y & Hy & Hyx)]];
      [by apply elem_of_nil in Hx|].
    apply new_distance in Hy as [[Hw _] _]. by econstructor.
  - intros x Hw' (y & Hy & Hyx)%walk_S.
    assert (y ∈ l ++ new) as Hyl by (apply (Hdone y k); [lia|done|done]).
    apply elem_of_app in Hyl as [Hyl|Hyn].
    + right. destruct (li_within _ _ _ Hi y Hyl) as (j & Hj & [Hwj _] & _).
      apply (Hdone x (S j)); [lia|apply (within_le _ k); [lia|done]|by econstructor].
    + destruct (lr_expanded _ _ _ _ _ Hr x y (within_S k Hw') Hyn Hyx) as [Hv|]; [|by left].
      right. rewrite (nodes_visited _ (lr_state _ _ _ _ _ Hr)), (lr_nodes _ _ _ _ _ Hr) in Hv.
      by apply elem_of_list_to_set in Hv.
Qed.
End turn.

Lemma li_full k level l : level_inv k level l → full l → visit_order l.
Proof.
  intros Hi Hf. split; [apply (li_sorted _ _ _ Hi)| |apply (li_limit _ _ _ Hi)|done|].
  - intros x Hx. destruct (li_within _ _ _ Hi x Hx) as (j & _ & ? & ?). by exists j.
  - intros x j Hd Hj Hni. split; [done|]. apply Forall_forall. intros y Hy.
    destruct (li_within _ _ _ Hi y Hy) as (i & Hik & Hdi & _). exists i, j.
    destruct (decide (j < k)); [|auto with lia]. destruct Hni.
    apply (li_done _ _ _ Hi x j); [done..|apply Hd].
Qed.

(** Below the depth limit there is nothing left to visit. *)
Lemma li_deep k level l : level_inv k level l → ¬ within k → level_inv (S k) [] l.
Proof.
  intros Hi Hk. split; [constructor..|apply (li_sorted _ _ _ Hi)| |apply (li_limit _ _ _ Hi)| | |].
  - intros x Hx. destruct (li_within _ _ _ Hi x Hx) as (j & ? & ? & ?). exists j. auto with lia.
  - intros x j Hj Hwj Hw. destruct (decide (j = k)) as [->|]; [done|].
    apply (li_done _ _ _ Hi x j); [lia|done..].
  - intros x Hx. by apply elem_of_nil in Hx.
  - intros x Hwk. destruct Hk. by apply (within_le k (S k)); [lia|].
Qed.

Definition loop_inv (turn : list Entry * gset string * list string) : Prop :=
  let '(level, V, l) := turn in
  V = list_to_set l ∧ NoDup l ∧ ((full l ∧ visit_order l) ∨ ∃ k, level_inv k level l).

Definition universe : gset string := {[s0]} ∪ U.

Lemma walk_universe n x : walk nbrs n s0 x → x ∈ universe.
Proof.
  clear Hquiet. unfold universe. intros Hw. inversion Hw as [|m a y b Hy Hyx]; subst; [set_solver|].
  apply elem_of_union. right. by eapply sees_edge.
Qed.

Definition measure (turn : list Entry * gset string * list string) : nat * nat :=
  let '(level, V, _) := turn in (room universe V, length level).

Lemma turn_descends k level l new st' :
  level ≠ [] → level_inv k level l → within k →
  level_result (Z.of_nat k) (js_sort (compare_key nodeId) level)
    (mkLevel (list_to_set l) l [] ∅) st' new →
  lex_lt (measure (nextLevel st', visited st', nodes st')) (measure (level, list_to_set l, l)).
Proof.
  intros Hne Hi Hk Hr. simpl. rewrite (nodes_visited _ (lr_state _ _ _ _ _ Hr)), (lr_nodes _ _ _ _ _ Hr).
  destruct new as [|x new].
  - right. rewrite app_nil_r. split; [done|]. destruct (nextLevel st') as [|e es] eqn:E.
    + destruct level; [done|simpl; lia].
    + pose proof (lr_sound _ _ _ _ _ Hr (nodeId e)) as Hs. rewrite E in Hs.
      destruct Hs as [Hx|[_ (y & Hy & _)]]; [by left|by apply elem_of_nil in Hx|by apply elem_of_nil in Hy].
  - left. simpl. pose proof (new_distance k level l (x :: new) st' Hi Hk Hr x ltac:(by left)) as [[Hw _] Hni].
    apply (room_lt _ _ _ x); [set_solver|by eapply walk_universe|set_solver|set_solver].
Qed.

Lemma bfs_turn_ends turn :
  loop_inv turn →
  ∃ c, yields ok (bfs_turn provider run turn) c ∧
    match c with
    | inl turn' => loop_inv turn' ∧ lex_lt (measure turn') (measure turn)
    | inr (V, l) => V = list_to_set l ∧ NoDup l ∧ visit_order l
    end.
Proof.
  destruct turn as [[level V] l]. intros (-> & Hnd & Hcase). cbn [bfs_turn].
  rewrite set_size_list by done.
  destruct (bool_decide (level ≠ [])) eqn:Elev; simpl.
  2: { apply bool_decide_eq_false, dec_stable in Elev as ->. eexists. split; [apply yields_ret|].
       do 2 (split; [done|]). destruct Hcase as [[_ ?]|[k Hk]]; [done|by eapply li_end]. }
  apply bool_decide_eq_true in Elev.
  destruct (lt_limit (Z.of_nat (length l)) (maxNodes run)) eqn:Efull.
  2: { eexists. split; [apply yields_ret|]. do 2 (split; [done|]).
       destruct Hcase as [[_ ?]|[k Hk]]; [done|by eapply li_full]. }
  destruct Hcase as [[Hf _]|[k Hk]]; [unfold full in Hf; congruence|].
  set (level' := js_sort (compare_key nodeId) level).
  set (st' := pure_level level' (mkLevel (list_to_set l) l [] ∅)).
  exists (inl (nextLevel st', visited st', nodes st')). split.
  { eapply yields_bind; [apply bfs_level_yields|apply yields_ret]. }
  destruct (le_limit (Z.of_nat k) (maxDepth run)) eqn:Ewithin.
  - destruct (turn_level k level l Hk Hnd Ewithin) as [new Hr]. fold level' st' in Hr.
    unfold turn_result in Hr. fold level' in Hr. fold st' in Hr.
    split; [|by eapply turn_descends].
    destruct (lr_state _ _ _ _ _ Hr) as [Ev Hnd']. do 2 (split; [done|]).
    rewrite (lr_nodes _ _ _ _ _ Hr).
    destruct (decide (full (l ++ new))) as [Hf|Hf].
    + left. split; [done|]. by eapply turn_full.
    + right. exists (S k). by eapply turn_next.
  - assert (st' = mkLevel (list_to_set l) l [] ∅) as ->.
    { apply (pure_level_deep (Z.of_nat k)); [done|]. unfold level'. rewrite js_sort_perm.
      apply (li_depth _ _ _ Hk). }
    simpl. split.
    + do 2 (split; [done|]). right. exists (S k). eapply li_deep; [done|]. unfold within. congruence.
    + right. split; [done|]. destruct level; [done|simpl; lia].
Qed.

Lemma bfsStream_ends :
  hasNode provider s0 = Ok true →
  ends ok (_bfsStream provider run) (λ '(V, l), V = list_to_set l ∧ NoDup l ∧ visit_order l).
Proof.
  intros Hstart. apply (ends_bind ok _ _ (λ _, True)); [eapply ends_yields; [by apply validateStart_yields|done]|].
  intros _ _. eapply loop_ends; [apply (measure_wf measure)| |apply bfs_turn_ends].
  do 2 (split; [done || constructor|]). right. exists 0. split.
  - by constructor.
  - apply NoDup_singleton.
  - constructor.
  - intros x Hx. by apply elem_of_nil in Hx.
  - intros n _. simpl. lia.
  - intros x j Hj. lia.
  - intros x ->%list_elem_of_singleton. constructor.
  - intros x _ <-%walk_0. left. by left.
Qed.

(** ** The order is unique *)
Lemma before_irrefl x : ¬ before x x.
Proof.
  intros (i & j & Hi & Hj & [Hlt|[_ Hlt]]).
  - pose proof (distance_unique _ _ _ _ _ Hi Hj). lia.
  - by rewrite ltb_irrefl in Hlt.
Qed.

Lemma before_trans x y z : before x y → before y z → before x z.
Proof.
  intros (i & j & Hi & Hj & Hij) (j' & k & Hj' & Hk & Hjk).
  pose proof (distance_unique _ _ _ _ _ Hj Hj') as <-. exists i, k. do 2 (split; [done|]).
  destruct Hij as [|[-> Hxy]], Hjk as [|[-> Hyz]]; [left; lia|by left|by left|right].
  split; [done|]. by eapply ltb_trans.
Qed.

Lemma visit_order_nodup l : visit_order l → NoDup l.
Proof.
  intros [Hs _ _ _ _]. induction Hs as [|x l Hs IH Hx]; [constructor|]. constructor; [|done].
  rewrite Forall_forall in Hx. intros Hin. by apply (before_irrefl x), Hx.
Qed.

Lemma visit_order_incl l1 l2 : visit_order l1 → visit_order l2 → l1 ⊆ l2.
Proof.
  intros H1 H2 x Hx. destruct (decide (x ∈ l2)) as [|Hni]; [done|exfalso].
  destruct (vo_within _ H1 x Hx) as (k & Hd & Hk).
  destruct (vo_rest _ H2 x k Hd Hk Hni) as [Hfull Hall]. rewrite Forall_forall in Hall.
  assert (l2 ⊆ l1) as Hsub.
  { intros y Hy. destruct (decide (y ∈ l1)) as [|Hny]; [done|exfalso].
    destruct (vo_within _ H2 y Hy) as (j & Hdj & Hj).
    destruct (vo_rest _ H1 y j Hdj Hj Hny) as [_ Hall1]. rewrite Forall_forall in Hall1.
    apply (before_irrefl x). eapply before_trans; [by apply Hall1|by apply Hall]. }
  assert (length (x :: l2) ≤ length l1) as Hlen.
  { apply submseteq_length, NoDup_submseteq; [constructor; [done|by apply visit_order_nodup]|].
    intros y [->|Hy]%elem_of_cons; [done|by apply Hsub]. }
  unfold full in Hfull. destruct (maxNodes run) as [n|] eqn:En; [|done].
  pose proof (vo_limit _ H1 n En). simpl in *. apply Z.ltb_ge in Hfull. lia.
Qed.

Lemma visit_order_unique l1 l2 : visit_order l1 → visit_order l2 → l1 = l2.
Proof.
  intros H1 H2. apply (StronglySorted_unique_strong before);
    [|apply (vo_sorted _ H1)|apply (vo_sorted _ H2)|].
  - intros x y _ _ Hxy Hyx. destruct (before_irrefl x). by eapply before_trans.
  - apply NoDup_Permutation; [by apply visit_order_nodup..|].
    intros x. split; by apply visit_order_incl.
Qed.
End bfs.

(** ** Runs with their own statistics *)
Lemma fresh_settles {W A} (m : nat → step (Run W) A) (r r1 : Run W) x :
  settles m (TraversalContext.mkRun newRunStats (polls r) ∅) (r1, x) →
  settles (λ fuel, fresh (m fuel)) r (TraversalContext.mkRun (rs r) (polls r1) (weights r), x).
Proof. intros [n Hn]. exists n. intros fuel Hf. unfold fresh. by rewrite Hn. Qed.

(** What a run of a search leaves of the caller's state. *)
Definition same_caller {W} (r r' : Run W) : Prop := rs r' = rs r ∧ weights r' = weights r.

Lemma fresh_ends {W A} provider options (m : nat → step (Run W) A) (Q : A → Prop) :
  ends (memo_ok provider options) m Q →
  ∀ r, ∃ r' a, settles (λ fuel, fresh (m fuel)) r (r', Ok a) ∧ same_caller r r' ∧ Q a.
Proof.
  intros Hm r. destruct (Hm _ (memo_ok_new provider options (polls r) ∅)) as (r1 & a & Hs & _ & HQ).
  eexists _, a. split; [by apply fresh_settles|done].
Qed.

Lemma fresh_tries {W A} (ok : Run W → Prop) (m : nat → step (Run W) A) (Q : result A → Prop) :
  (∀ p, ok (TraversalContext.mkRun newRunStats p ∅)) → tries ok m Q →
  ∀ r, ∃ r' out, settles (λ fuel, fresh (m fuel)) r (r', out) ∧ same_caller r r' ∧ Q out.
Proof.
  intros Hok Hm r. destruct (Hm _ (Hok (polls r))) as (r1 & out & Hs & _ & HQ).
  eexists _, out. split; [by apply fresh_settles|done].
Qed.

Lemma fresh_outcome {W A} (ok : Run W → Prop) (m : nat → step (Run W) A) (Q : result A → Prop) :
  (∀ p, ok (TraversalContext.mkRun newRunStats p ∅)) → tries ok m Q →
  ∀ r, ∃ r' out, settles (λ fuel, fresh (m fuel)) r (r', out) ∧ Q out.
Proof.
  intros Hok Hm r. destruct (fresh_tries ok m Q Hok Hm r) as (r' & out & Hs & _ & HQ). by exists r', out.
Qed.

Lemma get_stats_ends {W} provider options (l : list string) (v : Z) :
  ends (memo_ok (W:=W) provider options)
    (λ _, r ← get; mret (l, stats v (rs r))) (λ '(l', st), l' = l ∧ nodesVisited st = v).
Proof.
  intros r Hr. exists r, (l, stats v (rs r)). split; [|done].
  exists 0. done.
Qed.

Lemma collect_ends {W} provider options (m : nat → step (Run W) (gset string * list string))
    (Q : list string → Prop) :
  ends (memo_ok provider options) m (λ '(V, l), V = list_to_set l ∧ NoDup l ∧ Q l) →
  ∀ r, ∃ r' l st, settles (λ fuel, collectTraversal (m fuel)) r (r', Ok (l, st)) ∧
    same_caller r r' ∧ Q l ∧ nodesVisited st = Z.of_nat (length l).
Proof.
  intros Hm r.
  destruct (fresh_ends provider options
    (λ fuel, '(seen, yielded) ← m fuel; r ← get; mret (yielded, stats (set_size seen) (rs r)))
    (λ '(l, st), Q l ∧ nodesVisited st = Z.of_nat (length l))) with (r := r)
    as (r' & [l st] & Hs & Hc & HQ & Hv).
  - eapply ends_bind; [apply Hm|]. intros [V l] (-> & Hnd & HQ). rewrite set_size_list by done.
    eapply ends_mono; [|apply get_stats_ends]. by intros [l' st] [-> ?].
  - by exists r', l, st.
Qed.

(** On a finite graph, without aborts and failing hooks, [bfs] returns the
    nodes within the depth limit, each once, ordered by their distance from the
    start and then by id, as many as the node limit allows: what is missing
    comes after all that is returned. The list depends on the graph only, not on
    the order of the provider's answers or on memoization. *)
Theorem bfs_visits_in_order {W} (provider : NeighborProviderPort)
    (params : GraphTraversalStreamParams) nbrs U (r : Run W) :
  let run := createPrimitiveRun params in
  sees provider (options run) (direction run) nbrs U → quiet run →
  hasNode provider (start run) = Ok true →
  ∃ r' nodes st,
    settles (λ fuel, bfs provider fuel params) r (r', Ok (nodes, st)) ∧
    visit_order run nbrs nodes ∧ nodesVisited st = Z.of_nat (length nodes) ∧
    ∀ nodes', visit_order run nbrs nodes' → nodes' = nodes.
Proof.
  intros run Hsees Hquiet Hstart.
  destruct (collect_ends (W:=W) provider (options run) (_bfsStream provider run) (visit_order run nbrs))
    with (r := r) as (r' & l & st & Hs & _ & Hv & Hn).
  - by eapply bfsStream_ends.
  - exists r', l, st. do 3 (split; [done|]). intros l' Hl'. by eapply visit_order_unique.
Qed.

(** A start that does not exist is rejected. *)
Lemma bfs_invalid_start {W} (provider : NeighborProviderPort)
    (params : GraphTraversalStreamParams) (r : Run W) fuel :
  hasNode provider (p_start params) = Ok false → (bfs provider fuel params r).2 = Throw invalid_start.
Proof.
  intros E. unfold bfs, collectTraversal, fresh, _bfsStream, validateStart. simpl.
  unfold mbind, step_bind, lift. by rewrite E.
Qed.

(** ** A concrete graph *)
Section example.

(** A diamond with a tail: a -> c, b; b -> d; c -> d; d -> e. *)
Definition diamond (n : string) : list NeighborEdge :=
  if decide (n = "a") then [mkEdge "c" "x"; mkEdge "b" "x"]
  else if decide (n = "b") then [mkEdge "d" "x"]
  else if decide (n = "c") then [mkEdge "d" "y"]
  else if decide (n = "d") then [mkEdge "e" "x"] else [].

Definition diamond_provider : NeighborProviderPort :=
  NeighborProviderPort.mk (λ n _ _, Ok (diamond n)) (λ _, Ok true) async_local.

Lemma diamond_sees o d : sees diamond_provider o d diamond {["a"; "b"; "c"; "d"; "e"]}.
Proof.
  split; [done|]. intros n e. unfold diamond. repeat case_decide; set_solver.
Qed.

Definition from_a (maxNodes : option limit) : GraphTraversalStreamParams :=
  mkParams "a" None (mkOptions None) maxNodes None None None.

Lemma quiet_plain run : signal run = None → hooks run = None → quiet run.
Proof. intros Es Eh. split; [intros f n|intros h f n d|intros h f n l]; congruence. Qed.

Example bfs_diamond :
  (bfs diamond_provider 9 (from_a None) (newRun (W:=Z))).2
  = Ok (["a"; "b"; "c"; "d"; "e"], mkStats 5 5 0 5).
Proof. vm_compute. reflexivity. Qed.
End example.

Lemma bfs_visits_in_order_witness :
  ∃ r' nodes st,
    settles (λ fuel, bfs diamond_provider fuel (from_a (Some (Upto 4)))) (newRun (W:=Z)) (r', Ok (nodes, st)) ∧
    visit_order (createPrimitiveRun (from_a (Some (Upto 4)))) diamond nodes ∧
    nodesVisited st = Z.of_nat (length nodes) ∧
    ∀ nodes', visit_order (createPrimitiveRun (from_a (Some (Upto 4)))) diamond nodes' → nodes' = nodes.
Proof.
  apply (bfs_visits_in_order diamond_provider (from_a (Some (Upto 4))) diamond {["a"; "b"; "c"; "d"; "e"]}).
  - apply diamond_sees.
  - by apply quiet_plain.
  - reflexivity.
Defined.
