(* ===== verification/Dfs.v ===== *)
(** Depth-first traversal: the loop over a stack is the recursive visit in
    preorder, leftmost neighbours first. *)
From S2P Require Export Bfs.
#[local] Open Scope nat_scope.
#[local] Open Scope list_scope.
Import GraphTraversal.

Section dfs.
Context {W : Type} (provider : NeighborProviderPort) (run : PrimitiveTraversalRun).
Context (nbrs : string → list NeighborEdge) (U : gset string).
Context (Hsees : sees provider (options run) (direction run) nbrs U) (Hquiet : quiet run).
#[local] Abbreviation ok := (memo_ok (W:=W) provider (options run)).
#[local] Abbreviation s0 := (start run).

(** ** The recursive visit *)
Definition child (d : Z) (e : NeighborEdge) : Entry := mkEntry (neighborId e) (d + 1).

Definition children (e : Entry) : list Entry :=
  if lt_limit (depth e) (maxDepth run) then child (depth e) <$> nbrs (nodeId e) else [].

(** A node is passed over when the limit is reached, when it was seen, or when
    it is too deep. *)
Definition skipped (e : Entry) (l : list string) : Prop :=
  full run l ∨ nodeId e ∈ l ∨ le_limit (depth e) (maxDepth run) = false.

(** [preorder es l l']: visiting [es] one after the other, each with all that
    is below it, extends the visited nodes from [l] to [l']. *)
Inductive preorder : list Entry → list string → list string → Prop :=
  | pre_nil l : preorder [] l l
  | pre_skip e es l l' : skipped e l → preorder es l l' → preorder (e :: es) l l'
  | pre_visit e es l l1 l' :
      ¬ skipped e l → preorder (children e) (l ++ [nodeId e]) l1 → preorder es l1 l' →
      preorder (e :: es) l l'.

Lemma preorder_unique es l l1 l2 : preorder es l l1 → preorder es l l2 → l1 = l2.
Proof.
  intros H1. revert l2. induction H1 as [l|e es l l' Hsk _ IH|e es l l1 l' Hsk _ IH1 _ IH2];
    intros l2 H2; inversion H2; subst; try done; [by apply IH|].
  apply IH2. by rewrite (IH1 l3).
Qed.

Lemma preorder_prefix es l l' : preorder es l l' → l `prefix_of` l'.
Proof.
  induction 1 as [l|e es l l' _ _ IH|e es l l1 l' _ _ IH1 _ IH2]; [done|done|].
  trans (l ++ [nodeId e]); [by apply prefix_app_r|by trans l1].
Qed.

Lemma preorder_app es1 es2 l l' :
  preorder (es1 ++ es2) l l' → ∃ l1, preorder es1 l l1 ∧ preorder es2 l1 l'.
Proof.
  revert l. induction es1 as [|e es1 IH]; intros l; simpl; [exists l; split; [constructor|done]|].
  inversion 1 as [|? ? ? ? Hsk Hp|? ? ? l1 ? Hsk Hc Hp]; subst; destruct (IH _ Hp) as (l2 & ? & ?);
    exists l2; (split; [|done]); [by apply pre_skip|by eapply pre_visit].
Qed.

Lemma preorder_full es l : full run l → preorder es l l.
Proof. intros Hf. induction es; [constructor|]. apply pre_skip; [by left|done]. Qed.

(** Leaving out nodes that were seen changes nothing. *)
Lemma preorder_unseen (V : gset string) d es l l' :
  V ⊆ list_to_set l →
  preorder (child d <$> filter (λ e, neighborId e ∉ V) es) l l' → preorder (child d <$> es) l l'.
Proof.
  revert l. induction es as [|e es IH]; intros l HV; [done|].
  destruct (decide (neighborId e ∈ V)) as [Hin|Hni].
  - rewrite filter_cons_False by naive_solver. intros Hp. simpl. apply pre_skip; [|by apply IH].
    right; left. simpl. by apply (elem_of_list_to_set (C:=gset string)), HV.
  - rewrite filter_cons_True by done. simpl.
    inversion 1 as [|? ? ? ? Hsk Hp|? ? ? l1 ? Hsk Hc Hp]; subst; [by apply pre_skip; [|apply IH]|].
    eapply pre_visit; [done..|]. apply IH; [|done]. etrans; [exact HV|].
    apply preorder_prefix in Hc as [k ->]. rewrite !list_to_set_app_L. set_solver.
Qed.

(** ** The loop *)
Lemma push_neighbors_eq V d l stack :
  push_neighbors V d l stack = (child d <$> filter (λ e, neighborId e ∉ V) l) ++ stack.
Proof.
  unfold push_neighbors. induction l as [|e l IH]; [done|].
  rewrite reverse_cons, foldl_app, IH. simpl. rewrite filter_cons.
  repeat case_decide; done || tauto.
Qed.

Definition dfs_universe : gset string := {[s0]} ∪ U.

(** No simple path is long enough for the depth limit. *)
Definition deep : Prop := lt_limit (Z.of_nat (size dfs_universe)) (maxDepth run) = true.

Record dfs_inv (stack : list Entry) (l : list string) : Prop := {
  di_nodup : NoDup l;
  di_universe x : x ∈ l → x ∈ dfs_universe;
  di_preorder l' : preorder stack l l' → preorder [mkEntry s0 0] [] l';
  di_within x : x ∈ l → ∃ k, walk nbrs k s0 x ∧ within run k;
  di_stack e : e ∈ stack → ∃ k, depth e = Z.of_nat k ∧ walk nbrs k s0 (nodeId e) ∧ k ≤ length l;
  di_limit n : maxNodes run = Upto n → (Z.of_nat (length l) <= Z.max 0 n)%Z;
  di_closed x : deep → x = s0 ∨ (∃ y, y ∈ l ∧ edge nbrs y x) → x ∈ l ∨ x ∈ ids stack;
}.

(** What a depth-first traversal returns. *)
Record dfs_result (l : list string) : Prop := {
  dr_preorder : preorder [mkEntry s0 0] [] l;
  dr_nodup : NoDup l;
  dr_within x : x ∈ l → ∃ k, walk nbrs k s0 x ∧ within run k;
  dr_limit n : maxNodes run = Upto n → (Z.of_nat (length l) <= Z.max 0 n)%Z;
  dr_complete x : deep → ¬ full run l → reachable nbrs s0 x → x ∈ l;
}.

Lemma di_end stack l : dfs_inv stack l → stack = [] ∨ full run l → dfs_result l.
Proof.
  intros Hi Hend. split; [|apply Hi|apply Hi|apply Hi|].
  - apply (di_preorder _ _ Hi). destruct Hend as [->|Hf]; [constructor|by apply preorder_full].
  - intros x Hdeep Hnf [n Hw]. destruct Hend as [->|]; [|done].
    assert (∀ x, x = s0 ∨ (∃ y, y ∈ l ∧ edge nbrs y x) → x ∈ l) as Hc.
    { intros y Hy. by destruct (di_closed _ _ Hi y Hdeep Hy) as [|?%elem_of_nil]. }
    revert x Hw. induction n as [|n IH]; intros x Hw; [apply Hc; left; by apply walk_0 in Hw|].
    apply walk_S in Hw as (y & Hy & Hyx). apply Hc. right. exists y. split; [by apply IH|done].
Qed.

(** An entry that is passed over. *)
Lemma di_skip e stack l :
  dfs_inv (e :: stack) l → skipped e l → nodeId e ∈ l ∨ ¬ deep → dfs_inv stack l.
Proof.
  intros Hi Hsk Hcase. split; [apply Hi|apply Hi| |apply Hi| |apply Hi|].
  - intros l' Hp. apply (di_preorder _ _ Hi). by apply pre_skip.
  - intros e' He'. apply (di_stack _ _ Hi). by right.
  - intros x Hdeep Hx. destruct Hcase as [Hin|]; [|done].
    destruct (di_closed _ _ Hi x Hdeep Hx) as [|[->|]%elem_of_cons]; auto.
Qed.

Lemma di_length stack l : dfs_inv stack l → length l ≤ size dfs_universe.
Proof.
  intros Hi. rewrite <- (size_list_to_set (C:=gset string) l) by apply Hi.
  apply subseteq_size. intros x Hx%elem_of_list_to_set. by apply (di_universe _ _ Hi).
Qed.

Lemma deep_lt k : k ≤ size dfs_universe → deep → lt_limit (Z.of_nat k) (maxDepth run) = true.
Proof. unfold deep. destruct (maxDepth run); simpl; [rewrite !Z.ltb_lt; lia|done]. Qed.

Lemma lt_le_limit x max : lt_limit x max = true → le_limit x max = true.
Proof. destruct max; simpl; [rewrite Z.ltb_lt, Z.leb_le; lia|done]. Qed.

Lemma di_too_deep e stack l :
  dfs_inv (e :: stack) l → le_limit (depth e) (maxDepth run) = false → ¬ deep.
Proof.
  intros Hi Hle Hdeep. destruct (di_stack _ _ Hi e ltac:(by left)) as (k & Ek & _ & Hk).
  pose proof (di_length _ _ Hi). pose proof (deep_lt k ltac:(lia) Hdeep) as Hlt%lt_le_limit. congruence.
Qed.

Lemma dfs_walk_universe k x : walk nbrs k s0 x → x ∈ dfs_universe.
Proof. apply (walk_universe provider run nbrs U Hsees). Qed.

Definition after_visit (e : Entry) (stack : list Entry) (l : list string) : list Entry :=
  if lt_limit (depth e) (maxDepth run)
  then push_neighbors ({[nodeId e]} ∪ list_to_set l) (depth e) (nbrs (nodeId e)) stack else stack.

Lemma elem_of_after_visit e stack l e' :
  e' ∈ after_visit e stack l →
  e' ∈ stack ∨ (e' ∈ child (depth e) <$> nbrs (nodeId e)).
Proof.
  unfold after_visit. destruct (lt_limit _ _); [|by left]. rewrite push_neighbors_eq.
  intros [(x & -> & Hx)%list_elem_of_fmap|]%elem_of_app; [right|by left].
  apply list_elem_of_fmap. exists x. split; [done|]. by apply list_elem_of_filter in Hx as [_ ?].
Qed.

Lemma di_visit e stack l :
  dfs_inv (e :: stack) l → ¬ skipped e l → dfs_inv (after_visit e stack l) (l ++ [nodeId e]).
Proof.
  intros Hi Hsk. destruct (di_stack _ _ Hi e ltac:(by left)) as (k & Ek & Hw & Hk).
  assert (¬ full run l) as Hnf by (intros ?; apply Hsk; by left).
  assert (nodeId e ∉ l) as Hni by (intros ?; apply Hsk; right; by left).
  assert (le_limit (depth e) (maxDepth run) = true) as Hle.
  { apply not_false_is_true. intros ?. apply Hsk. by right; right. }
  split.
  - apply NoDup_app. split; [apply Hi|]. split; [|apply NoDup_singleton].
    by intros x Hx ->%list_elem_of_singleton.
  - intros x [Hx| ->%list_elem_of_singleton]%elem_of_app; [by apply (di_universe _ _ Hi)|].
    by eapply dfs_walk_universe.
  - intros l' Hp. apply (di_preorder _ _ Hi).
    unfold after_visit in Hp. destruct (lt_limit (depth e) (maxDepth run)) eqn:Elt.
    + rewrite push_neighbors_eq in Hp. apply preorder_app in Hp as (l1 & H1 & H2).
      eapply pre_visit; [done| |exact H2]. unfold children. rewrite Elt.
      eapply preorder_unseen; [|exact H1]. rewrite list_to_set_app_L. set_solver.
    + eapply pre_visit; [done| |exact Hp]. unfold children. rewrite Elt. constructor.
  - intros x [Hx| ->%list_elem_of_singleton]%elem_of_app; [by apply (di_within _ _ Hi)|].
    exists k. split; [done|]. unfold within. by rewrite <- Ek.
  - intros e' [He'|(x & -> & Hx)%list_elem_of_fmap]%elem_of_after_visit.
    + destruct (di_stack _ _ Hi e') as (j & ? & ? & ?); [by right|].
      exists j. rewrite length_app. auto with lia.
    + exists (S k). simpl. rewrite length_app, Ek. simpl. split; [lia|]. split; [|lia].
      econstructor; [done|]. by exists x.
  - intros n En. unfold full in Hnf. rewrite En in Hnf. simpl in Hnf.
    apply not_false_is_true, Z.ltb_lt in Hnf. rewrite length_app. simpl. lia.
  - intros x Hdeep Hx. pose proof (di_length _ _ Hi) as Hlen.
    assert (lt_limit (depth e) (maxDepth run) = true) as Hlt
      by (rewrite Ek; apply deep_lt; [lia|done]).
    destruct (decide (x ∈ l ++ [nodeId e])) as [|Hnx]; [by left|right].
    unfold after_visit. rewrite Hlt, push_neighbors_eq. unfold ids. rewrite fmap_app. apply elem_of_app.
    assert (x ∈ l ∨ x ∈ ids (e :: stack) → x ∈ nodeId <$> stack) as Hold by set_solver.
    destruct Hx as [->|(y & Hy & Hyx)]; [right; apply Hold, (di_closed _ _ Hi); auto|].
    apply elem_of_app in Hy as [Hy| ->%list_elem_of_singleton];
      [right; apply Hold, (di_closed _ _ Hi); eauto|].
    left. destruct Hyx as (f & Hf & <-). rewrite <- list_fmap_compose. apply list_elem_of_fmap.
    exists f. split; [done|]. apply list_elem_of_filter. set_solver.
Qed.

Definition dfs_measure (turn : list Entry * gset string * list string) : nat * nat :=
  let '(stack, V, _) := turn in (room dfs_universe V, length stack).

Lemma dfs_turn_ends turn :
  (let '(stack, V, l) := turn in V = list_to_set l ∧ dfs_inv stack l) →
  ∃ c, yields ok (dfs_turn provider run turn) c ∧
    match c with
    | inl turn' => (let '(stack, V, l) := turn' in V = list_to_set l ∧ dfs_inv stack l) ∧
        lex_lt (dfs_measure turn') (dfs_measure turn)
    | inr (V, l) => V = list_to_set l ∧ NoDup l ∧ dfs_result l
    end.
Proof.
  destruct turn as [[stack V] l]. intros [-> Hi]. pose proof (di_nodup _ _ Hi) as Hnd.
  destruct stack as [|[n d] stack]; cbn [dfs_turn].
  { eexists. split; [apply yields_ret|]. do 2 (split; [done|]). apply (di_end [] l); auto. }
  rewrite set_size_list by done.
  destruct (lt_limit (Z.of_nat (length l)) (maxNodes run)) eqn:Efull; simpl.
  2: { eexists. split; [apply yields_ret|]. do 2 (split; [done|]). eapply di_end; [done|by right]. }
  destruct (decide (n ∈ list_to_set l)) as [Hv|Hv].
  { eexists. split; [apply yields_ret|]. apply elem_of_list_to_set in Hv. split.
    - split; [done|]. eapply di_skip; [done|right; by left|by left].
    - right. simpl. lia. }
  destruct (le_limit d (maxDepth run)) eqn:Ele; simpl.
  2: { eexists. split; [apply yields_ret|]. split.
       - split; [done|]. eapply di_skip; [done|by right; right|right; by eapply di_too_deep].
       - right. simpl. lia. }
  rewrite elem_of_list_to_set in Hv.
  exists (inl (after_visit (mkEntry n d) stack l, {[n]} ∪ list_to_set l, l ++ [n])). split.
  - eapply yields_bind; [apply poll_yields, Hquiet|].
    eapply yields_bind; [by apply call_onVisit_yields|].
    unfold after_visit. simpl. destruct (lt_limit d (maxDepth run)); [|apply yields_ret].
    eapply yields_bind; [by eapply expand_yields|].
    eapply yields_bind; [by apply call_onExpand_yields|apply yields_ret].
  - split; [split; [rewrite list_to_set_app_L; set_solver|]|].
    + apply (di_visit (mkEntry n d)); [done|]. intros [Hf|[|]]; [|done|simpl in *; congruence].
      unfold full in Hf. congruence.
    + left. simpl. apply (room_lt _ _ _ n); [set_solver| |set_solver|set_solver].
      destruct (di_stack _ _ Hi (mkEntry n d) ltac:(by left)) as (k & _ & Hw & _).
      by eapply dfs_walk_universe.
Qed.

Lemma dfsStream_ends :
  hasNode provider s0 = Ok true →
  ends ok (_dfsStream provider run) (λ '(V, l), V = list_to_set l ∧ NoDup l ∧ dfs_result l).
Proof.
  intros Hstart. apply (ends_bind ok _ _ (λ _, True)); [eapply ends_yields; [by apply validateStart_yields|done]|].
  intros _ _. eapply loop_ends; [apply (measure_wf dfs_measure)| |apply dfs_turn_ends].
  split; [done|]. split; [constructor|..].
  - intros x Hx. by apply elem_of_nil in Hx.
  - done.
  - intros x Hx. by apply elem_of_nil in Hx.
  - intros e ->%list_elem_of_singleton. exists 0. split; [done|]. split; [constructor|done].
  - intros n _. simpl. lia.
  - intros x _ [->|(y & Hy & _)]; [right; by left|by apply elem_of_nil in Hy].
Qed.
End dfs.

(** On a finite graph, without aborts and failing hooks, [dfs] ends and
    returns the recursive preorder visit: every node before what is below it,
    neighbours in the order of the provider, until the limit is reached. Each
    node is returned once and has a walk within the depth limit. With a depth
    limit beyond the number of nodes and room for all, every reachable node is
    returned. *)
Theorem dfs_visits_in_preorder {W} (provider : NeighborProviderPort)
    (params : GraphTraversalStreamParams) nbrs U (r : Run W) :
  let run := createPrimitiveRun params in
  sees provider (options run) (direction run) nbrs U → quiet run →
  hasNode provider (start run) = Ok true →
  ∃ r' nodes st,
    settles (λ fuel, dfs provider fuel params) r (r', Ok (nodes, st)) ∧
    dfs_result run nbrs U nodes ∧ nodesVisited st = Z.of_nat (length nodes) ∧
    ∀ nodes', preorder run nbrs [mkEntry (start run) 0] [] nodes' → nodes' = nodes.
Proof.
  intros run Hsees Hquiet Hstart.
  destruct (collect_ends (W:=W) provider (options run) (_dfsStream provider run) (dfs_result run nbrs U))
    with (r := r) as (r' & l & st & Hs & _ & Hv & Hn).
  - by eapply dfsStream_ends.
  - exists r', l, st. do 3 (split; [done|]). intros l' Hl'. eapply preorder_unique; [done|apply Hv].
Qed.

(** The deepest path first: a -> b, c; b -> c; c -> d. *)
Definition detour (n : string) : list NeighborEdge :=
  if decide (n = "a") then [mkEdge "b" "x"; mkEdge "c" "x"]
  else if decide (n = "b") then [mkEdge "c" "x"]
  else if decide (n = "c") then [mkEdge "d" "x"] else [].

Definition detour_provider : NeighborProviderPort :=
  NeighborProviderPort.mk (λ n _ _, Ok (detour n)) (λ _, Ok true) sync.

Definition up_to_depth (maxDepth : option limit) : GraphTraversalStreamParams :=
  mkParams "a" None (mkOptions None) None maxDepth None None.

(** With a depth limit the first visit of a node counts, however deep: "d" is
    two steps from "a", but "c" was first reached at the limit. *)
Lemma dfs_depth_limit_incomplete :
  (dfs detour_provider 9 (up_to_depth (Some (Upto 2))) (newRun (W:=Z))).2
    = Ok (["a"; "b"; "c"], mkStats 3 3 0 0) ∧
  (bfs detour_provider 9 (up_to_depth (Some (Upto 2))) (newRun (W:=Z))).2
    = Ok (["a"; "b"; "c"; "d"], mkStats 4 4 0 0).
Proof. vm_compute. auto. Qed.

Lemma dfs_visits_in_preorder_witness :
  ∃ r' nodes st,
    settles (λ fuel, dfs detour_provider fuel (up_to_depth None)) (newRun (W:=Z)) (r', Ok (nodes, st)) ∧
    dfs_result (createPrimitiveRun (up_to_depth None)) detour {["b"; "c"; "d"]} nodes ∧
    nodesVisited st = Z.of_nat (length nodes) ∧
    ∀ nodes', preorder (createPrimitiveRun (up_to_depth None)) detour
      [mkEntry (start (createPrimitiveRun (up_to_depth None))) 0] [] nodes' → nodes' = nodes.
Proof.
  apply (dfs_visits_in_preorder detour_provider (up_to_depth None) detour {["b"; "c"; "d"]}).
  - split; [done|]. intros n e. unfold detour. repeat case_decide; set_solver.
  - by apply quiet_plain.
  - reflexivity.
Defined.
