(* ===== verification/ShortestPath.v ===== *)
(** Breadth-first path search: [shortestPath] finds a shortest path and
    [isReachable] decides reachability, within the depth limit. *)
From S2P Require Export GraphPathFinding Bfs.
#[local] Open Scope nat_scope.
#[local] Open Scope list_scope.
Import GraphPathFinding.

(** ** Chains of predecessors *)

(** [chain prev s x p]: following [prev] back from [x] visits [p] and ends at [s]. *)
Inductive chain (prev : gmap string string) (s : string) : string → list string → Prop :=
  | chain_start : chain prev s s [s]
  | chain_step x y p : prev !! x = Some y → chain prev s y p → x ∉ p → chain prev s x (p ++ [x]).

Lemma chain_elem prev s x p : chain prev s x p → s ∈ p ∧ x ∈ p.
Proof. induction 1; set_solver. Qed.

Lemma chain_nodup prev s x p : chain prev s x p → NoDup p.
Proof.
  induction 1 as [|x y p _ _ IH Hx]; [apply NoDup_singleton|].
  apply NoDup_app. split; [done|]. split; [|apply NoDup_singleton].
  by intros z Hz ->%list_elem_of_singleton.
Qed.

Lemma chain_dom prev s x p z : chain prev s x p → z ∈ p → z = s ∨ is_Some (prev !! z).
Proof. induction 1 as [|x y p E _ IH _]; set_solver. Qed.

Lemma chain_length prev s x p : chain prev s x p → length p ≤ S (size prev).
Proof.
  intros Hc. rewrite <- (size_list_to_set (C:=gset string) p) by by eapply chain_nodup.
  rewrite <- size_dom. trans (size ({[s]} ∪ dom prev)).
  - apply subseteq_size. intros z Hz%elem_of_list_to_set. apply elem_of_union.
    rewrite elem_of_dom. destruct (chain_dom _ _ _ _ z Hc Hz); [left; set_solver|by right].
  - rewrite (size_union_alt {[s]}), size_singleton.
    assert (size (dom prev ∖ {[s]}) ≤ size (dom prev)) by (apply subseteq_size; set_solver). lia.
Qed.

Lemma chain_insert prev s x p z y : chain prev s x p → z ∉ p → chain (<[z := y]> prev) s x p.
Proof.
  induction 1 as [|x x' p E _ IH Hx]; intros Hz; [constructor|].
  apply not_elem_of_app in Hz as [Hz Hne]. apply (chain_step _ _ _ x'); [|by apply IH|done].
  rewrite lookup_insert_ne; [done|]. set_solver.
Qed.

Lemma chain_reverse prev s x p : chain prev s x p → ∃ q, reverse p = x :: q.
Proof. inversion 1; [by exists []|]. rewrite reverse_snoc. by eexists. Qed.

Lemma follow_chain prev s x p fuel acc :
  chain prev s x p → length p ≤ fuel → follow fuel prev s x acc = Ok (acc ++ tail (reverse p)).
Proof.
  intros Hc. revert fuel acc. induction Hc as [|x y p E Hc IH Hx]; intros fuel acc Hf.
  - destruct fuel; [simpl in Hf; lia|]. simpl. rewrite decide_True by done. by rewrite app_nil_r.
  - rewrite length_app in Hf. simpl in Hf. destruct fuel as [|fuel]; [lia|]. simpl.
    apply chain_elem in Hc as Hs. rewrite decide_False by (intros ->; tauto).
    rewrite E, IH, <- app_assoc by lia. rewrite reverse_snoc. simpl. do 2 f_equal.
    by destruct (chain_reverse _ _ _ _ Hc) as [q ->].
Qed.

Lemma reconstructPath_chain prev s x p : chain prev s x p → reconstructPath prev s x = Ok p.
Proof.
  intros Hc. unfold reconstructPath. rewrite (follow_chain _ _ _ p) by (done || by eapply chain_length).
  destruct (chain_reverse _ _ _ _ Hc) as [q Eq]. rewrite Eq. simpl. rewrite <- Eq.
  by rewrite reverse_involutive.
Qed.

(** ** Balls *)
Section ball.
Context (nbrs : string → list NeighborEdge) (s : string).

(** [V] is what [k] steps reach, [front] what no fewer steps reach. *)
Record ball (k : nat) (V : gset string) (front : list string) : Prop := {
  ball_dist x : x ∈ V → ∃ j, j ≤ k ∧ distance nbrs s x j;
  ball_all x j : j ≤ k → walk nbrs j s x → x ∈ V;
  ball_front x : x ∈ front ↔ distance nbrs s x k;
}.

Lemma ball_0 : ball 0 {[s]} [s].
Proof.
  split.
  - intros x ->%elem_of_singleton. exists 0. by rewrite distance_0.
  - intros x j Hj Hw. assert (j = 0) as -> by lia. apply walk_0 in Hw as <-. set_solver.
  - intros x. rewrite distance_0. set_solver.
Qed.

Lemma ball_in_front k V front y j x :
  ball k V front → y ∈ V → distance nbrs s y j → edge nbrs y x → x ∈ V ∨ y ∈ front.
Proof.
  intros Hb Hy Hd Hyx. destruct (ball_dist _ _ _ Hb y Hy) as (i & Hi & Hdi).
  pose proof (distance_unique _ _ _ _ _ Hd Hdi) as ->.
  destruct (decide (i = k)) as [->|]; [right; by apply (ball_front _ _ _ Hb)|left].
  apply (ball_all _ _ _ Hb x (S i)); [lia|]. econstructor; [apply Hd|done].
Qed.

Lemma ball_closed k V x j :
  ball k V [] → walk nbrs j s x → x ∈ V.
Proof.
  intros Hb. revert x. induction j as [|j IH]; intros x Hw.
  - apply (ball_all _ _ _ Hb x 0); [lia|done].
  - apply walk_S in Hw as (y & Hy & Hyx). apply IH in Hy.
    destruct (ball_dist _ _ _ Hb y Hy) as (i & _ & Hd).
    by destruct (ball_in_front _ _ _ y i x Hb Hy Hd Hyx) as [|?%elem_of_nil].
Qed.

(** A new neighbour of the front is one step further. *)
Lemma ball_new k V front y x :
  ball k V front → y ∈ front → edge nbrs y x → x ∉ V → distance nbrs s x (S k).
Proof.
  intros Hb Hy Hyx Hx. apply (ball_front _ _ _ Hb) in Hy as [Hw _].
  split; [by econstructor|]. intros j Hj. destruct (decide (S k ≤ j)) as [|Hlt]; [done|].
  destruct Hx. apply (ball_all _ _ _ Hb x j); [lia|done].
Qed.

Lemma ball_next k V front V' front' :
  ball k V front →
  (∀ x, x ∈ front' ↔ (x ∉ V) ∧ ∃ y, y ∈ front ∧ edge nbrs y x) →
  (∀ x, x ∈ V' ↔ x ∈ V ∨ x ∈ front') →
  ball (S k) V' front'.
Proof.
  intros Hb Hf HV.
  assert (∀ x, x ∈ front' → distance nbrs s x (S k)) as Hd.
  { intros x [Hx (y & Hy & Hyx)]%Hf. by apply (ball_new k V front y). }
  assert (∀ x j, j ≤ S k → walk nbrs j s x → x ∈ V ∨ x ∈ front') as Hall.
  { intros x j Hj Hw. destruct (decide (x ∈ V)) as [|Hx]; [by left|right].
    destruct (decide (j ≤ k)) as [Hle|]; [destruct Hx; by apply (ball_all _ _ _ Hb x j)|].
    assert (j = S k) as -> by lia. apply walk_S in Hw as (y & Hy & Hyx).
    apply Hf. split; [done|]. exists y. split; [|done].
    assert (y ∈ V) as HyV by (apply (ball_all _ _ _ Hb y k); [lia|done]).
    destruct (ball_dist _ _ _ Hb y HyV) as (i & _ & Hdi).
    by destruct (ball_in_front _ _ _ y i x Hb HyV Hdi Hyx). }
  split.
  - intros x [Hx|Hx]%HV; [|exists (S k); auto].
    destruct (ball_dist _ _ _ Hb x Hx) as (j & ? & ?). exists j. auto with lia.
  - intros x j Hj Hw. apply HV. by apply (Hall x j).
  - intros x. split; [apply Hd|]. intros [Hw Hmin].
    destruct (Hall x (S k) (le_n _) Hw) as [Hx|]; [|done].
    destruct (ball_dist _ _ _ Hb x Hx) as (j & Hj & Hdj & _). apply Hmin in Hdj. lia.
Qed.
End ball.

(** ** shortestPath *)
Section shortest.
Context {W : Type} (provider : NeighborProviderPort) (params : PathParams).
Context (nbrs : string → list NeighborEdge) (U : gset string).
Context (Hsees : sees provider (options params) (direction params) nbrs U).
Context (Hsignal : unset (signal params)).
#[local] Abbreviation ok := (memo_ok (W:=W) provider (options params)).
#[local] Abbreviation s0 := (start params).

Fixpoint sp_pure (frontier : list Entry) (st : Frontier) : Frontier + Frontier :=
  match frontier with
  | [] => inl st
  | mkEntry n d :: rest =>
      if negb (lt_limit d (maxDepth params)) then sp_pure rest st
      else match discover params n d (nbrs n) st with
           | inl st => sp_pure rest st
           | inr st => inr st
           end
  end.

Lemma sp_level_yields frontier st :
  yields ok (sp_level provider params frontier st) (sp_pure frontier st).
Proof.
  revert st. induction frontier as [|[n d] rest IH]; intros st; cbn [sp_level sp_pure];
    [apply yields_ret|].
  destruct (negb _); [apply IH|]. eapply yields_bind; [by apply poll_yields|].
  eapply yields_bind; [by eapply expand_yields|].
  destruct (discover _ _ _ _ _); [apply IH|apply yields_ret].
Qed.

(** Every node that was found has a shortest path along its parents. *)
Definition tree (V : gset string) (parents : gmap string string) : Prop :=
  ∀ x, x ∈ V → ∃ p, chain parents s0 x p ∧ route nbrs s0 x p ∧ (∀ z, z ∈ p → z ∈ V) ∧
    distance nbrs s0 x (length p - 1).

Lemma tree_step V parents k x y :
  tree V parents → y ∈ V → distance nbrs s0 y k → edge nbrs y x → x ∉ V →
  distance nbrs s0 x (S k) → tree ({[x]} ∪ V) (<[x := y]> parents).
Proof.
  intros Ht Hy Hdy Hyx Hx Hdx z [->%elem_of_singleton|Hz]%elem_of_union.
  - destruct (Ht y Hy) as (p & Hc & Hp & HV & Hd). exists (p ++ [x]).
    assert (x ∉ p) as Hxp by (intros ?; by apply Hx, HV).
    split; [apply (chain_step _ _ _ y); [by rewrite lookup_insert_eq|by apply chain_insert|done]|].
    split; [by econstructor|]. split; [set_solver|].
    assert (1 ≤ length p) as Hlen by (destruct p; [by apply chain_elem in Hc as [[]%elem_of_nil _]|simpl; lia]).
    pose proof (distance_unique _ _ _ _ _ Hdy Hd) as Ek.
    replace (length (p ++ [x]) - 1) with (S k); [done|]. rewrite length_app. simpl. lia.
  - destruct (Ht z Hz) as (p & Hc & Hp & HV & Hd). exists p.
    split; [apply chain_insert; [done|]; intros ?; by apply Hx, HV|]. split; [done|]. set_solver.
Qed.

(** What reading a frontier of nodes at distance [k] does to the state. *)
Record found_ok (k : nat) (st : Frontier) : Prop := {
  fo_tree : tree (visited st) (parent st);
  fo_goal : goal params ∉ visited st;
  fo_depth : Forall (λ e, depth e = Z.of_nat (S k)) (next st);
  fo_nodup : NoDup (ids (next st));
  fo_next x : x ∈ ids (next st) → x ∈ visited st;
}.

Definition goal_found (st : Frontier) : Prop :=
  ∃ p, chain (parent st) s0 (goal params) p ∧ route nbrs s0 (goal params) p ∧
    distance nbrs s0 (goal params) (length p - 1).

Definition grows (st st' : Frontier) (new : string → Prop) : Prop :=
  (∀ x, x ∈ ids (next st') ↔ x ∈ ids (next st) ∨ ((x ∉ visited st) ∧ new x)) ∧
  (∀ x, x ∈ visited st' ↔ x ∈ visited st ∨ new x).

Lemma ex_cons (e : NeighborEdge) nb z :
  (∃ e', e' ∈ e :: nb ∧ neighborId e' = z) ↔ z = neighborId e ∨ ∃ e', e' ∈ nb ∧ neighborId e' = z.
Proof. setoid_rewrite elem_of_cons. naive_solver. Qed.

Lemma discover_spec k y d nb st :
  d = Z.of_nat k → found_ok k st → y ∈ visited st → distance nbrs s0 y k →
  (∀ e, e ∈ nb → edge nbrs y (neighborId e)) →
  (∀ x, x ∉ visited st → edge nbrs y x → distance nbrs s0 x (S k)) →
  match discover params y d nb st with
  | inl st' => found_ok k st' ∧ grows st st' (λ x, ∃ e, e ∈ nb ∧ neighborId e = x)
  | inr st' => goal_found st' ∧ distance nbrs s0 (goal params) (S k)
  end.
Proof.
  intros ->. revert st. induction nb as [|e nb IH]; intros st Hok Hy Hd Hnb Hnew; simpl.
  { split; [done|]. split; set_solver. }
  set (x := neighborId e) in *.
  assert (edge nbrs y x) as Hyx by (apply Hnb; by left).
  destruct (decide (x ∈ visited st)) as [Hv|Hv].
  { specialize (IH st Hok Hy Hd ltac:(intros; apply Hnb; by right) Hnew).
    destruct (discover _ _ _ _ _); [|done]. destruct IH as [? [Hn Hvis]]. split; [done|].
    split; intros z; rewrite ex_cons; fold x; [rewrite Hn|rewrite Hvis];
      destruct (decide (z = x)) as [->|]; naive_solver. }
  pose proof (tree_step _ _ k x y (fo_tree _ _ Hok) Hy Hd Hyx Hv (Hnew x Hv Hyx)) as Ht.
  case_decide as Hg; simpl.
  { split; [|rewrite <- Hg; by apply Hnew]. rewrite Hg in Ht.
    destruct (Ht (goal params)) as (p & ? & ? & _ & ?); [set_solver|]. exists p. by rewrite Hg. }
  set (st1 := mkFrontier _ _ _).
  assert (ids (next st1) = ids (next st) ++ [x]) as Eids by (unfold ids; simpl; by rewrite fmap_app).
  assert (found_ok k st1) as Hok1.
  { destruct Hok as [_ Hgoal Hdep Hnd Hvis]. split; [done|set_solver| | |].
    - apply Forall_app. split; [done|]. constructor; [simpl; lia|done].
    - rewrite Eids. apply NoDup_app. split; [done|]. split; [|apply NoDup_singleton].
      intros z Hz ->%list_elem_of_singleton. by apply Hv, Hvis.
    - rewrite Eids. simpl. intros z [Hz%Hvis|Hz%list_elem_of_singleton]%elem_of_app; set_solver. }
  specialize (IH st1 Hok1 ltac:(set_solver) Hd ltac:(intros; apply Hnb; by right)
    ltac:(intros z Hz; apply Hnew; set_solver)).
  destruct (discover _ _ _ _ _) as [st'|st']; [|done]. destruct IH as [? [Hn Hvis]]. split; [done|].
  assert (∀ z, z ∈ visited st1 ↔ z = x ∨ z ∈ visited st) as Hv1
    by (intros z; simpl; by rewrite elem_of_union, elem_of_singleton).
  split; intros z; rewrite ex_cons; fold x; [rewrite Hn, Hv1, Eids, elem_of_app, list_elem_of_singleton|rewrite Hvis, Hv1];
    destruct (decide (z = x)) as [->|]; naive_solver.
Qed.

Lemma sp_pure_level_spec k front st :
  lt_limit (Z.of_nat k) (maxDepth params) = true →
  Forall (λ e, depth e = Z.of_nat k) front → found_ok k st →
  (∀ y, y ∈ ids front → y ∈ visited st ∧ distance nbrs s0 y k) →
  (∀ x y, x ∉ visited st → y ∈ ids front → edge nbrs y x → distance nbrs s0 x (S k)) →
  match sp_pure front st with
  | inl st' => found_ok k st' ∧ grows st st' (λ x, ∃ y, y ∈ ids front ∧ edge nbrs y x)
  | inr st' => goal_found st' ∧ distance nbrs s0 (goal params) (S k)
  end.
Proof.
  intros Hk. revert st. induction front as [|[n d] front IH]; intros st Hdep Hok Hfront Hnew; simpl.
  { split; [done|]. split; set_solver. }
  apply Forall_cons in Hdep as [Ed Hdep]. simpl in Ed. subst d. rewrite Hk. simpl.
  destruct (Hfront n) as [Hn Hdn]; [by left|].
  pose proof (discover_spec k n (Z.of_nat k) (nbrs n) st eq_refl Hok Hn Hdn
    (λ e, elem_of_edge nbrs e n)
    ltac:(intros x Hx; apply (Hnew x n Hx); by left)) as Hs.
  destruct (discover _ _ _ _ _) as [st1|st1]; [|done]. destruct Hs as [Hok1 [Hn1 Hv1]].
  assert (∀ x, x ∉ visited st1 → x ∉ visited st) as Hmono by (intros x; rewrite Hv1; tauto).
  specialize (IH st1 Hdep Hok1
    ltac:(intros y Hy; destruct (Hfront y) as [Hv ?]; [by right|]; split; [by apply Hv1; left|done])
    ltac:(intros x y Hx Hy; apply Hnew; [by apply Hmono|by right])).
  destruct (sp_pure front st1) as [st'|st']; [|done]. destruct IH as [? [Hn' Hv']]. split; [done|].
  assert (∀ x, (∃ y, y ∈ ids (mkEntry n (Z.of_nat k) :: front) ∧ edge nbrs y x) ↔
    (∃ e, e ∈ nbrs n ∧ neighborId e = x) ∨ ∃ y, y ∈ ids front ∧ edge nbrs y x) as Hcons.
  { intros x. simpl. setoid_rewrite elem_of_cons. unfold edge. naive_solver. }
  split; intros x; rewrite Hcons; [rewrite Hn', Hn1, Hv1|rewrite Hv', Hv1; tauto].
  assert ((∃ e, e ∈ nbrs n ∧ neighborId e = x) ↔ x ∈ neighborId <$> nbrs n) as ->
    by (rewrite list_elem_of_fmap; naive_solver).
  destruct (decide (x ∈ neighborId <$> nbrs n)); tauto.
Qed.

(** ** The loop *)
Definition sp_universe : gset string := {[s0]} ∪ U.

Lemma sp_walk_universe n x : walk nbrs n s0 x → x ∈ sp_universe.
Proof.
  clear Hsignal. unfold sp_universe. intros Hw. inversion Hw as [|m a y b Hy Hyx]; subst; [set_solver|].
  apply elem_of_union. right. by eapply sees_edge.
Qed.

Definition sp_within (k : nat) : Prop := le_limit (Z.of_nat k) (maxDepth params) = true.

(** No path to the goal within the depth limit. *)
Definition out_of_reach : Prop := ∀ j, walk nbrs j s0 (goal params) → ¬ sp_within j.

Definition room_for_all : Prop := lt_limit (Z.of_nat (size sp_universe)) (maxNodes params) = true.

(** What [shortestPath] returns. *)
Definition sp_result (res : PathResult) : Prop :=
  if found res then
    route nbrs s0 (goal params) (path res) ∧
    ∃ k, distance nbrs s0 (goal params) k ∧ length_ res = Z.of_nat k ∧ length (path res) = S k ∧
      (k = 0 ∨ sp_within k)
  else path res = [] ∧ length_ res = (-1)%Z ∧ (room_for_all → out_of_reach).

Definition sp_state : Type := list Entry * gset string * gmap string string.

Definition sp_inv (turn : sp_state) : Prop :=
  let '(frontier, V, parents) := turn in
  V ⊆ sp_universe ∧
  ((frontier = [] ∧ out_of_reach) ∨
   ∃ k, ball nbrs s0 k V (ids frontier) ∧ tree V parents ∧ (goal params ∉ V) ∧
     Forall (λ e, depth e = Z.of_nat k) frontier).

Definition sp_measure (turn : sp_state) : nat * nat :=
  let '(frontier, V, _) := turn in (room sp_universe V, length frontier).

Lemma stats_of_returns V :
  returns ok (stats_of V) (λ s, nodesVisited s = set_size V).
Proof. intros r Hr. exists r, (stats (set_size V) (rs r)). done. Qed.

Lemma lift_ok_yields {S A} (okS : S → Prop) (a : A) : yields okS (lift (Ok a)) a.
Proof. intros s Hs. by exists s. Qed.

Lemma sp_pure_deep d frontier st :
  lt_limit d (maxDepth params) = false → Forall (λ e, depth e = d) frontier →
  sp_pure frontier st = inl st.
Proof.
  intros Hd. revert st. induction frontier as [|[n d'] rest IH]; intros st Hdep; [done|].
  apply Forall_cons in Hdep as [[= ->] Hdep]. simpl. rewrite Hd. simpl. by apply IH.
Qed.

(** A level that was read to its end. *)
Lemma sp_level_inv k frontier V parents st' :
  ball nbrs s0 k V (ids frontier) →
  found_ok k st' → grows (mkFrontier V parents []) st' (λ x, ∃ y, y ∈ ids frontier ∧ edge nbrs y x) →
  V ⊆ sp_universe → frontier ≠ [] →
  sp_inv (next st', visited st', parent st') ∧
  lex_lt (sp_measure (next st', visited st', parent st')) (sp_measure (frontier, V, parents)).
Proof.
  intros Hb Hok [Hn Hv] HV Hne. simpl in Hn, Hv.
  assert (∀ x, x ∈ ids (next st') ↔ (x ∉ V) ∧ ∃ y, y ∈ ids frontier ∧ edge nbrs y x) as Hn'.
  { intros x. rewrite Hn. split; [by intros [?%elem_of_nil|]|by right]. }
  assert (∀ x, x ∈ visited st' ↔ x ∈ V ∨ x ∈ ids (next st')) as Hv'.
  { intros x. rewrite Hv, Hn'. destruct (decide (x ∈ V)); tauto. }
  pose proof (ball_next _ _ k V _ _ _ Hb Hn' Hv') as Hb'.
  split; [split|].
  - intros x Hx. destruct (ball_dist _ _ _ _ _ Hb' x Hx) as (j & _ & Hw & _).
    by eapply sp_walk_universe.
  - right. exists (S k). split; [done|]. destruct Hok. done.
  - destruct (next st') as [|e es] eqn:E.
    + assert (visited st' = V) as ->.
      { apply set_eq. intros x. rewrite Hv'. simpl. rewrite elem_of_nil. tauto. }
      right. split; [done|]. destruct frontier; [done|simpl; lia].
    + left. simpl. assert (nodeId e ∈ ids (e :: es)) as He by by left.
      apply (room_lt _ _ _ (nodeId e)); [intros x Hx; apply Hv'; by left| | |].
      * apply (ball_front _ _ _ _ _ Hb') in He as [Hw _]. by eapply sp_walk_universe.
      * by apply Hn'.
      * apply Hv'. by right.
Qed.

Lemma sp_exit frontier V parents :
  sp_inv (frontier, V, parents) →
  bool_decide (frontier ≠ []) && lt_limit (set_size V) (maxNodes params) = false →
  room_for_all → out_of_reach.
Proof.
  intros [HV Hcase] Hcond Hroom. apply andb_false_iff in Hcond as [Hf|Hf].
  - apply bool_decide_eq_false, dec_stable in Hf as ->.
    destruct Hcase as [[_ ?]|(k & Hb & _ & Hg & _)]; [done|].
    intros j Hw _. by apply Hg, (ball_closed nbrs s0 k V _ j).
  - exfalso. assert (size V ≤ size sp_universe) as Hle by by apply subseteq_size.
    unfold room_for_all, set_size in *. destruct (maxNodes params); simpl in *; [|done].
    rewrite Z.ltb_ge in Hf. rewrite Z.ltb_lt in Hroom. lia.
Qed.

Lemma sp_turn_returns turn :
  sp_inv turn →
  returns ok (sp_turn provider params turn) (λ c, match c with
    | inl turn' => sp_inv turn' ∧ lex_lt (sp_measure turn') (sp_measure turn)
    | inr res => sp_result res
    end).
Proof.
  destruct turn as [[frontier V] parents]. intros Hinv. cbn [sp_turn].
  destruct (bool_decide (frontier ≠ []) && lt_limit (set_size V) (maxNodes params)) eqn:Hcond.
  2: { eapply returns_bind; [apply stats_of_returns|]. intros st _.
       eapply returns_yields; [apply yields_ret|]. do 2 (split; [done|]). by eapply sp_exit. }
  apply andb_true_iff in Hcond as [Hne%bool_decide_eq_true _].
  destruct Hinv as [HV [[-> _]|(k & Hb & Ht & Hg & Hdep)]]; [done|].
  set (front := js_sort (compare_key nodeId) frontier).
  eapply returns_bind_yields; [apply sp_level_yields|].
  assert (∀ x, x ∈ ids front ↔ x ∈ ids frontier) as Hperm
    by (intros x; unfold front, ids; by rewrite js_sort_perm).
  assert (Forall (λ e, depth e = Z.of_nat k) front) as Hdep' by (unfold front; by rewrite js_sort_perm).
  destruct (lt_limit (Z.of_nat k) (maxDepth params)) eqn:Ek.
  - pose proof (sp_pure_level_spec k front (mkFrontier V parents []) Ek Hdep') as Hs.
    assert (found_ok k (mkFrontier V parents [])) as Hok
      by (split; [done|done|by constructor|apply NoDup_nil_2|intros x Hx; by apply elem_of_nil in Hx]).
    specialize (Hs Hok
      ltac:(intros y Hy%Hperm%(ball_front _ _ _ _ _ Hb); split; [apply (ball_all _ _ _ _ _ Hb y k); [done|apply Hy]|done])
      ltac:(intros x y Hx Hy%Hperm Hyx; by apply (ball_new _ _ k V (ids frontier) y))).
    destruct (sp_pure front _) as [st'|st'].
    + destruct Hs as [Hok' [Hn Hv]]. eapply returns_yields; [apply yields_ret|].
      apply (sp_level_inv k); [done..| |done|done].
      split; intros x; [rewrite Hn|rewrite Hv]; by setoid_rewrite Hperm.
    + destruct Hs as [(p & Hc & Hp & Hd) HdS].
      rewrite (reconstructPath_chain _ _ _ p Hc). eapply returns_bind_yields; [apply lift_ok_yields|].
      eapply returns_bind; [apply stats_of_returns|]. intros s _.
      eapply returns_yields; [apply yields_ret|]. split; [done|]. simpl.
      assert (1 ≤ length p) by (destruct p; [by apply chain_elem in Hc as [[]%elem_of_nil _]|simpl; lia]).
      pose proof (distance_unique _ _ _ _ _ Hd HdS) as El.
      exists (S k). split; [done|]. split; [lia|]. split; [lia|]. right.
      unfold sp_within. destruct (maxDepth params); simpl in *; [|done].
      rewrite Z.leb_le. rewrite Z.ltb_lt in Ek. lia.
  - rewrite (sp_pure_deep (Z.of_nat k)) by done. eapply returns_yields; [apply yields_ret|]. simpl.
    split; [split; [done|left; split; [done|]]|right; split; [done|destruct frontier; [done|simpl; lia]]].
    intros j Hw Hj. apply Hg, (ball_all _ _ _ _ _ Hb _ j); [|done].
    unfold sp_within in Hj. destruct (maxDepth params); simpl in *; [|done].
    rewrite Z.leb_le in Hj. rewrite Z.ltb_ge in Ek. lia.
Qed.

Lemma shortestPath_loop :
  s0 ≠ goal params →
  ends ok (λ fuel, loop fuel (sp_turn provider params) ([mkEntry s0 0], {[s0]}, ∅)) sp_result.
Proof.
  intros Hne. eapply loop_returns; [apply (measure_wf sp_measure)| |apply sp_turn_returns].
  split; [set_solver|]. right. exists 0. split; [apply ball_0|]. split.
  - intros x ->%elem_of_singleton. exists [s0]. split; [constructor|]. split; [constructor|].
    split; [set_solver|]. by rewrite distance_0.
  - split; [set_solver|]. by constructor.
Qed.
End shortest.

(** C31. On a finite graph, without aborts, [shortestPath] ends; when it finds
    the goal the path is a route from start to goal with as few steps as
    possible, [length] counts them, and they are within the depth limit; when it
    does not, and the node limit leaves room for the graph, there is no route
    within the depth limit. *)
Theorem shortest_path_is_shortest {W} (provider : NeighborProviderPort) (params : PathParams)
    nbrs U (r : Run W) :
  sees provider (options params) (direction params) nbrs U → unset (signal params) →
  hasNode provider (start params) = Ok true →
  ∃ r' res, settles (λ fuel, shortestPath provider params fuel) r (r', Ok res) ∧
    sp_result params nbrs U res.
Proof.
  intros Hsees Hsig Hstart.
  destruct (fresh_ends (W:=W) provider (options params)
    (λ fuel, _ ← validateStart provider (start params);
      if decide (start params = goal params) then
        r ← get; mret (mkPath true [start params] 0 (stats 1 (rs r)))
      else loop fuel (sp_turn provider params) ([mkEntry (start params) 0], {[start params]}, ∅))
    (sp_result params nbrs U)) with (r := r) as (r' & res & Hs & _ & Hres); [|by exists r', res].
  eapply (ends_bind _ _ _ (λ _, True)); [eapply ends_yields; [by apply validateStart_yields|done]|].
  intros _ _. destruct (decide (start params = goal params)) as [E|Hne].
  - apply ends_returns. intros r1 Hr1. eexists r1, _. split; [done|]. split; [done|].
    unfold sp_result. simpl. rewrite <- E. split; [constructor|].
    exists 0. rewrite distance_0. auto.
  - by apply shortestPath_loop.
Qed.

(** ** isReachable *)
Section reachability.
Context {W : Type} (provider : NeighborProviderPort) (params : PathParams).
Context (nbrs : string → list NeighborEdge) (U : gset string).
Context (Hsees : sees provider (options params) (direction params) nbrs U).
Context (Hsignal : unset (signal params)).
#[local] Abbreviation ok := (memo_ok (W:=W) provider (options params)).
#[local] Abbreviation s0 := (start params).

Fixpoint reach_pure (frontier : list string) (seen : gset string) (next : list string)
    : gset string * list string + gset string :=
  match frontier with
  | [] => inl (seen, next)
  | n :: rest =>
      match reach_neighbors params (nbrs n) seen next with
      | inl (seen, next) => reach_pure rest seen next
      | inr seen => inr seen
      end
  end.

Lemma reach_level_yields frontier seen next :
  yields ok (reach_level provider params frontier seen next) (reach_pure frontier seen next).
Proof.
  revert seen next. induction frontier as [|n rest IH]; intros seen next; cbn [reach_level reach_pure];
    [apply yields_ret|].
  eapply yields_bind; [by eapply expand_yields|].
  destruct (reach_neighbors _ _ _ _) as [[??]|]; [apply IH|apply yields_ret].
Qed.

(** What was read leads to [new] nodes, none of them the goal. *)
Definition spreads (seen : gset string) (next : list string) (seen' : gset string)
    (next' : list string) (new : string → Prop) : Prop :=
  ¬ new (goal params) ∧
  (∀ x, x ∈ next' ↔ x ∈ next ∨ ((x ∉ seen) ∧ new x)) ∧
  (∀ x, x ∈ seen' ↔ x ∈ seen ∨ new x).

Lemma reach_neighbors_spec nb seen next :
  match reach_neighbors params nb seen next with
  | inl (seen', next') => spreads seen next seen' next' (λ x, x ∈ neighborId <$> nb)
  | inr _ => goal params ∈ neighborId <$> nb
  end.
Proof.
  revert seen next. induction nb as [|e nb IH]; intros seen next; simpl.
  { split; [apply not_elem_of_nil|]. setoid_rewrite elem_of_nil. split; intros x; tauto. }
  case_decide as Hg; [apply elem_of_cons; by left|].
  assert (∀ x, x ∈ neighborId e :: (neighborId <$> nb) ↔ x = neighborId e ∨ x ∈ neighborId <$> nb)
    as Hcons by (intros; apply elem_of_cons).
  case_decide as Hv.
  - specialize (IH seen next). destruct (reach_neighbors _ _ _ _) as [[seen' next']|]; [|by right].
    destruct IH as (Hgoal & Hn & Hs). split; [rewrite Hcons; naive_solver|].
    split; intros x; [rewrite Hn|rewrite Hs]; rewrite Hcons;
      destruct (decide (x = neighborId e)) as [->|]; tauto.
  - specialize (IH ({[neighborId e]} ∪ seen) (next ++ [neighborId e])).
    destruct (reach_neighbors _ _ _ _) as [[seen' next']|]; [|by right].
    destruct IH as (Hgoal & Hn & Hs). split; [rewrite Hcons; naive_solver|].
    split; intros x; [rewrite Hn, elem_of_app, list_elem_of_singleton|rewrite Hs];
      rewrite Hcons, elem_of_union, elem_of_singleton;
      destruct (decide (x = neighborId e)) as [->|]; tauto.
Qed.

Lemma edge_neighbors y x : edge nbrs y x ↔ x ∈ neighborId <$> nbrs y.
Proof. unfold edge. rewrite list_elem_of_fmap. naive_solver. Qed.

Lemma reach_pure_spec frontier seen next :
  match reach_pure frontier seen next with
  | inl (seen', next') => spreads seen next seen' next' (λ x, ∃ y, y ∈ frontier ∧ edge nbrs y x)
  | inr _ => ∃ y, y ∈ frontier ∧ edge nbrs y (goal params)
  end.
Proof.
  revert seen next. induction frontier as [|n rest IH]; intros seen next; simpl.
  { split; [by intros (y & Hy%elem_of_nil & _)|]. setoid_rewrite elem_of_nil. split; intros x; naive_solver. }
  assert (∀ x, (∃ y, y ∈ n :: rest ∧ edge nbrs y x) ↔
    x ∈ neighborId <$> nbrs n ∨ ∃ y, y ∈ rest ∧ edge nbrs y x) as Hcons.
  { intros x. rewrite <- edge_neighbors. setoid_rewrite elem_of_cons. naive_solver. }
  pose proof (reach_neighbors_spec (nbrs n) seen next) as Hs.
  destruct (reach_neighbors _ _ _ _) as [[seen1 next1]|]; [|apply Hcons; by left].
  destruct Hs as (Hg & Hn & Hs). specialize (IH seen1 next1).
  destruct (reach_pure _ _ _) as [[seen' next']|]; [|apply Hcons; by right].
  destruct IH as (Hg' & Hn' & Hs'). split; [rewrite Hcons; tauto|].
  split; intros x; rewrite Hcons; [rewrite Hn', Hn, Hs|rewrite Hs', Hs; tauto].
  destruct (decide (x ∈ neighborId <$> nbrs n)); tauto.
Qed.

(** What [isReachable] returns. *)
Definition reach_result (out : bool * TraversalStats) : Prop :=
  if out.1 then ∃ k, distance nbrs s0 (goal params) k ∧ (k = 0 ∨ sp_within params k)
  else room_for_all params U → out_of_reach params nbrs.

Definition reach_inv (turn : list string * gset string * Z) : Prop :=
  let '(frontier, V, d) := turn in
  V ⊆ sp_universe params U ∧ (goal params ∉ V) ∧
  ∃ k, d = Z.of_nat k ∧ ball nbrs s0 k V frontier.

Definition reach_measure (turn : list string * gset string * Z) : nat * nat :=
  let '(frontier, V, _) := turn in (room (sp_universe params U) V, length frontier).

Lemma reach_exit frontier V d :
  reach_inv (frontier, V, d) →
  bool_decide (frontier ≠ []) && lt_limit d (maxDepth params) && lt_limit (set_size V) (maxNodes params) = false →
  room_for_all params U → out_of_reach params nbrs.
Proof.
  intros (HV & Hg & k & -> & Hb) Hcond Hroom j Hw Hj.
  apply andb_false_iff in Hcond as [[Hf|Hf]%andb_false_iff|Hf].
  - apply bool_decide_eq_false, dec_stable in Hf as ->. by apply Hg, (ball_closed nbrs s0 k V _ j).
  - apply Hg, (ball_all _ _ _ _ _ Hb _ j); [|done]. unfold sp_within in Hj.
    destruct (maxDepth params); simpl in *; [|done]. rewrite Z.leb_le in Hj. rewrite Z.ltb_ge in Hf. lia.
  - assert (size V ≤ size (sp_universe params U)) as Hle by by apply subseteq_size.
    unfold room_for_all, set_size in *. destruct (maxNodes params); simpl in *; [|done].
    rewrite Z.ltb_ge in Hf. rewrite Z.ltb_lt in Hroom. lia.
Qed.

Lemma reach_turn_returns turn :
  reach_inv turn →
  returns ok (reach_turn provider params turn) (λ c, match c with
    | inl turn' => reach_inv turn' ∧ lex_lt (reach_measure turn') (reach_measure turn)
    | inr out => reach_result out
    end).
Proof.
  destruct turn as [[frontier V] d]. intros Hinv. cbn [reach_turn].
  destruct (_ && _) eqn:Hcond.
  2: { eapply returns_bind; [apply stats_of_returns|]. intros st _.
       eapply returns_yields; [apply yields_ret|]. exact (reach_exit _ _ _ Hinv Hcond). }
  apply andb_true_iff in Hcond as [[Hne%bool_decide_eq_true Hd]%andb_true_iff _].
  destruct Hinv as (HV & Hg & k & -> & Hb).
  eapply returns_bind_yields; [by apply poll_yields|].
  eapply returns_bind_yields; [apply reach_level_yields|].
  pose proof (reach_pure_spec frontier V []) as Hs.
  destruct (reach_pure frontier V []) as [[V' next]|V'].
  - destruct Hs as (Hg' & Hn & Hv). eapply returns_yields; [apply yields_ret|].
    assert (∀ x, x ∈ next ↔ (x ∉ V) ∧ ∃ y, y ∈ frontier ∧ edge nbrs y x) as Hn'
      by (intros x; rewrite Hn, elem_of_nil; tauto).
    assert (∀ x, x ∈ V' ↔ x ∈ V ∨ x ∈ next) as Hv'
      by (intros x; rewrite Hv, Hn'; destruct (decide (x ∈ V)); tauto).
    pose proof (ball_next _ _ k V _ _ _ Hb Hn' Hv') as Hb'.
    split; [split; [|split]|].
    + intros x Hx. destruct (ball_dist _ _ _ _ _ Hb' x Hx) as (j & _ & Hw & _).
      by eapply sp_walk_universe.
    + rewrite Hv. tauto.
    + exists (S k). split; [lia|done].
    + destruct next as [|x next].
      * assert (V' = V) as -> by (apply set_eq; intros x; rewrite Hv', elem_of_nil; tauto).
        right. split; [done|]. destruct frontier; [done|simpl; lia].
      * left. simpl. apply (room_lt _ _ _ x); [intros z Hz; apply Hv'; by left| | |].
        -- assert (x ∈ x :: next) as Hx by by left.
           apply (ball_front _ _ _ _ _ Hb') in Hx as [Hw _]. by eapply sp_walk_universe.
        -- apply Hn'. by left.
        -- apply Hv'. right. by left.
  - destruct Hs as (y & Hy & Hyg). eapply returns_bind; [apply stats_of_returns|]. intros st _.
    eapply returns_yields; [apply yields_ret|]. exists (S k).
    split; [by apply (ball_new nbrs s0 k V frontier y)|]. right.
    unfold sp_within. destruct (maxDepth params); simpl in *; [|done].
    rewrite Z.leb_le. rewrite Z.ltb_lt in Hd. lia.
Qed.
End reachability.

(** On a finite graph, without aborts, [isReachable] ends and decides
    whether the goal is reachable within the depth limit, as long as the node
    limit leaves room for the graph; it says yes only if there is a route. *)
Theorem is_reachable_decides {W} (provider : NeighborProviderPort) (params : PathParams)
    nbrs U (r : Run W) :
  sees provider (options params) (direction params) nbrs U → unset (signal params) →
  ∃ r' out, settles (λ fuel, isReachable provider params fuel) r (r', Ok out) ∧
    reach_result params nbrs U out.
Proof.
  intros Hsees Hsig.
  destruct (fresh_ends (W:=W) provider (options params)
    (λ fuel, if decide (start params = goal params) then
        r ← get; mret (true, stats 1 (rs r))
      else loop fuel (reach_turn provider params) ([start params], {[start params]}, 0%Z))
    (reach_result params nbrs U)) with (r := r) as (r' & out & Hs & _ & Hres); [|by exists r', out].
  destruct (decide (start params = goal params)) as [E|Hne].
  - apply ends_returns. intros r1 Hr1. eexists r1, _. split; [done|]. split; [done|].
    exists 0. rewrite distance_0. auto.
  - eapply loop_returns; [apply (measure_wf (reach_measure params U))| |by eapply reach_turn_returns].
    split; [unfold sp_universe; set_solver|]. split; [set_solver|]. exists 0. split; [done|apply ball_0].
Qed.

(** ** Concrete runs *)
Definition a_to (goal : string) : PathParams := mkPathParams "a" goal None (mkOptions None) None None None.

Example shortest_path_diamond :
  (shortestPath diamond_provider (a_to "e") 9 (newRun (W:=Z))).2
  = Ok (mkPath true ["a"; "b"; "d"; "e"] 3 (mkStats 5 5 0 4)).
Proof. vm_compute. reflexivity. Qed.

Lemma shortest_path_is_shortest_witness :
  ∃ r' res, settles (λ fuel, shortestPath diamond_provider (a_to "e") fuel) (newRun (W:=Z)) (r', Ok res) ∧
    sp_result (a_to "e") diamond {["a"; "b"; "c"; "d"; "e"]} res.
Proof.
  apply (shortest_path_is_shortest diamond_provider (a_to "e")).
  - apply diamond_sees.
  - by intros f n.
  - reflexivity.
Defined.

Lemma is_reachable_decides_witness :
  ∃ r' out, settles (λ fuel, isReachable diamond_provider (a_to "z") fuel) (newRun (W:=Z)) (r', Ok out) ∧
    reach_result (a_to "z") diamond {["a"; "b"; "c"; "d"; "e"]} out.
Proof.
  apply (is_reachable_decides diamond_provider (a_to "z")).
  - apply diamond_sees.
  - by intros f n.
Defined.
