(* ===== verification/WeightedSearch.v ===== *)
(** Weighted path searches: [weightedShortestPath] (Dijkstra) and [aStarSearch]
    return a cheapest route, and report that there is none exactly when there is
    none. *)
From S2P Require Export ShortestPath.
#[local] Open Scope nat_scope.
#[local] Open Scope list_scope.
Import GraphPathFinding.
#[local] Existing Instance MinHeap.total_tie_laws.

(** ** Weight functions *)
Section weight_functions.
Context {C : Type} `{Costs C} (provider : NeighborProviderPort) (options : NeighborOptions).

(** The weight of an edge under the functions a caller gave. *)
Definition weighs (w : Weights) (wt : string → string → string → C) : Prop :=
  match weightFn w, nodeWeightFn w with
  | Some f, None => ∀ x y l, f x y l = Ok (wt x y l)
  | None, Some f => ∀ x y l, f y = Ok (wt x y l)
  | None, None => ∀ x y l, wt x y l = c_one
  | Some _, Some _ => False
  end.

(** The caches of a run hold what the provider and the node weights answer. *)
Definition caches_ok (w : Weights) (r : Run C) : Prop :=
  memo_ok provider options r ∧
  ∀ f n v, nodeWeightFn w = Some f → weights r !! n = Some v → f n = Ok v.

Lemma caches_ok_new w p : caches_ok w (TraversalContext.mkRun newRunStats p ∅).
Proof. split; [apply memo_ok_new|]. intros f n v _. simpl. by rewrite lookup_empty. Qed.

(** What leaves the weights alone keeps both caches. *)
Lemma caches_yields {A} w (m : step (Run C) A) a :
  (∀ r, weights (m r).1 = weights r) → yields (memo_ok provider options) m a →
  yields (caches_ok w) m a.
Proof.
  intros Hw Hm r [Hr Hc]. destruct (Hm r Hr) as (r' & E & Hr'). exists r'. split; [done|].
  split; [done|]. specialize (Hw r). rewrite E in Hw. simpl in Hw. rewrite Hw. done.
Qed.

Lemma checkAborted_weights signal (r : Run C) : weights (checkAborted signal r).1 = weights r.
Proof. destruct signal as [f|]; [|done]. simpl. unfold mbind, step_bind, get, put. simpl. by destruct (f _). Qed.

Lemma expand_weights n d (r : Run C) : weights (expand provider n d options r).1 = weights r.
Proof.
  unfold expand, getNeighbors, mbind, step_bind, get, lift, update_rs, modify.
  case_decide; simpl; [by destruct (NeighborProviderPort.getNeighbors _ _ _ _)|].
  destruct (neighborResults (rs r) !! _); simpl; [done|].
  by destruct (NeighborProviderPort.getNeighbors _ _ _ _).
Qed.

Lemma resolveWeightFn_yields w wt :
  weighs w wt →
  ∃ weight, resolveWeightFn (weightFn w) (nodeWeightFn w) = Ok weight ∧
    ∀ x y l, yields (caches_ok w) (weight x y l) (wt x y l).
Proof.
  unfold weighs, resolveWeightFn. destruct (weightFn w) as [f|], (nodeWeightFn w) as [g|] eqn:Eg; intros Hw.
  - done.
  - eexists. split; [done|]. intros x y l r Hr. exists r. split; [|done]. unfold lift. by rewrite Hw.
  - eexists. split; [done|]. intros x y l r [Hm Hc].
    unfold _buildNodeWeightResolver, mbind, step_bind, get, lift, modify. simpl.
    destruct (weights r !! y) as [v|] eqn:Ev.
    + exists r. split; [|done]. apply (Hc g y v Eg) in Ev. rewrite (Hw x y l) in Ev. by simplify_eq.
    + rewrite (Hw x y l). eexists. split; [done|]. split; [done|]. simpl. intros f n v Ef.
      rewrite Eg in Ef. injection Ef as <-.
      intros [[<- <-]|[_ Hv]]%lookup_insert_Some; [done|by apply (Hc g n v)].
  - eexists. split; [done|]. intros x y l. rewrite Hw. intros r Hr. by exists r.
Qed.
End weight_functions.

(** ** Costs of routes *)
Section costs.
Context {C : Type} `{CostLaws C} (nbrs : string → list NeighborEdge).
Context (wt : string → string → string → C) (s : string).

Definition step_cost (x : string) (e : NeighborEdge) (c : C) : C :=
  c_add c (wt x (neighborId e) (label e)).

(** The sums along the walks from [s], added up step by step as the searches do. *)
Inductive costs : string → C → Prop :=
  | costs_nil : costs s c_zero
  | costs_snoc x c e : costs x c → e ∈ nbrs x → costs (neighborId e) (step_cost x e c).

(** The same with the nodes on the way. *)
Inductive costed_route : string → list string → C → Prop :=
  | croute_nil : costed_route s [s] c_zero
  | croute_snoc x p c e : costed_route x p c → e ∈ nbrs x →
      costed_route (neighborId e) (p ++ [neighborId e]) (step_cost x e c).

Lemma costed_route_costs x p c : costed_route x p c → costs x c.
Proof. induction 1; by econstructor. Qed.

Lemma costed_route_route x p c : costed_route x p c → route nbrs s x p.
Proof. induction 1 as [|x p c e _ IH He]; [constructor|]. econstructor; [exact IH|]. by exists e. Qed.

Lemma walk_costs n x : walk nbrs n s x → ∃ c, costs x c.
Proof.
  assert (∀ a, walk nbrs n a x → a = s → ∃ c, costs x c) as Hgen; [|intros Hw; by apply (Hgen s)].
  intros a. induction 1 as [x|n x y z _ IH (e & He & <-)]; intros ->; [eexists; constructor|].
  destruct (IH eq_refl) as [c Hc]. eexists. by econstructor.
Qed.

Lemma costs_reachable x c : costs x c → reachable nbrs s x.
Proof.
  induction 1 as [|x c e _ [n IH] He]; [exists 0; constructor|].
  exists (S n). econstructor; [done|]. by exists e.
Qed.

Definition cheapest (x : string) (c : C) : Prop := ∀ c', costs x c' → c_le c c'.
End costs.

(** ** The search *)
Section search.
Context {C : Type} `{CostLaws C} (provider : NeighborProviderPort) (params : PathParams).
Context (nbrs : string → list NeighborEdge) (U : gset string).
Context (Hsees : sees provider (options params) (direction params) nbrs U).
Context (wt : string → string → string → C).
#[local] Abbreviation s0 := (start params).
#[local] Abbreviation reaches := (costs nbrs wt s0).

(** What a priority has to be: monotone in the cost, and such that it does not
    drop along an edge (for A*: a consistent heuristic). *)
Context (key : string → C → C).
Class KeyLaws : Prop := {
  key_mono n a b : c_le a b → c_le (key n a) (key n b);
  key_reflect n a b : c_le (key n a) (key n b) → c_le a b;
  key_step x e g : e ∈ nbrs x → c_le (key x g) (key (neighborId e) (step_cost wt x e g));
}.
Context `{!KeyLaws}.

#[local] Abbreviation entries st := (MinHeap.heap_of (pq st)).
#[local] Abbreviation entry := (MinHeap.HeapEntry string C).

(** Between two turns; while the neighbours of [cur] are read, [pending] of them
    are left. *)
Record search_inv (cur : string) (pending : list NeighborEdge) (st : Search) : Prop := {
  si_heap : MinHeap.valid (Some lexTieBreaker) (pq st);
  si_start : dist st !! s0 = Some c_zero;
  si_first : s0 ∈ settled st ∨ (settled st = ∅ ∧ ∀ e, e ∈ entries st → MinHeap.item e = s0);
  si_chain x d : dist st !! x = Some d →
    ∃ p, chain (prev st) s0 x p ∧ costed_route nbrs wt s0 x p d ∧ ∀ z, z ∈ p → z = x ∨ z ∈ settled st;
  si_entry e : e ∈ entries st →
    ∃ d g, dist st !! MinHeap.item e = Some d ∧ c_le d g ∧ MinHeap.priority e = key (MinHeap.item e) g;
  si_queued x d : dist st !! x = Some d → x ∉ settled st →
    ∃ e, e ∈ entries st ∧ MinHeap.item e = x ∧ MinHeap.priority e = key x d;
  si_settled x : x ∈ settled st → ∃ d, dist st !! x = Some d ∧ cheapest nbrs wt s0 x d;
  si_relaxed x d e : x ∈ settled st → dist st !! x = Some d → e ∈ nbrs x →
    (x = cur ∧ e ∈ pending) ∨ neighborId e ∈ settled st ∨
    ∃ d', dist st !! neighborId e = Some d' ∧ c_le d' (step_cost wt x e d);
  si_goal : goal params ∉ settled st;
}.

(** Every cost of a node is matched by the node being settled or by an entry of
    the queue that is no worse. *)
Lemma search_frontier cur st z c :
  search_inv cur [] st → reaches z c →
  z ∈ settled st ∨ ∃ e, e ∈ entries st ∧ c_le (MinHeap.priority e) (key z c).
Proof.
  intros Hi. induction 1 as [|x c e Hc IH He].
  - destruct (decide (s0 ∈ settled st)) as [|Hs]; [by left|right].
    destruct (si_queued _ _ _ Hi s0 _ (si_start _ _ _ Hi) Hs) as (e & He & _ & Ek). exists e. by rewrite Ek.
  - destruct IH as [Hx|(e' & He' & Hle)].
    + destruct (si_settled _ _ _ Hi x Hx) as (d & Hd & Hmin).
      destruct (si_relaxed _ _ _ Hi x d e Hx Hd He) as [[_ []%elem_of_nil]|[|(d' & Hd' & Hle)]]; [by left|].
      destruct (decide (neighborId e ∈ settled st)) as [|Hs]; [by left|right].
      destruct (si_queued _ _ _ Hi _ _ Hd' Hs) as (e' & He' & _ & Ek). exists e'. split; [done|].
      rewrite Ek. apply key_mono. etrans; [exact Hle|]. unfold step_cost. apply c_add_le_l. by apply Hmin.
    + right. exists e'. split; [done|]. etrans; [exact Hle|]. by apply key_step.
Qed.

(** ** Relaxing the edges of a node *)
Definition relaxed (cur : string) (st : Search) (e : NeighborEdge) : Search :=
  if decide (neighborId e ∈ settled st) then st
  else match dist st !! cur with
  | None => st
  | Some d =>
      let alt := step_cost wt cur e d in
      if improves (prev st) (neighborId e) cur alt (dist st !! neighborId e) then
        mkSearch (<[neighborId e := alt]> (dist st)) (<[neighborId e := cur]> (prev st))
          (settled st) (MinHeap.insert (neighborId e) (key (neighborId e) alt) (pq st))
      else st
  end.

Lemma improves_false prevs n cur alt best :
  improves prevs n cur alt best = false → ∃ b, best = Some b ∧ c_le b alt.
Proof.
  destruct best as [b|]; [|done]. simpl. intros [Hlt _]%orb_false_iff. by exists b.
Qed.

Lemma improves_true prevs n cur alt b :
  improves prevs n cur alt (Some b) = true → c_le alt b.
Proof.
  simpl. intros [Hlt|[->%bool_decide_eq_true _]%andb_true_iff]%orb_true_iff; [by apply c_ltb_le|done].
Qed.

(** A better route to a node that is not settled. *)
Lemma improve_inv cur e pending st d :
  let n := neighborId e in
  let alt := step_cost wt cur e d in
  search_inv cur (e :: pending) st → cur ∈ settled st → e ∈ nbrs cur → n ∉ settled st →
  dist st !! cur = Some d → improves (prev st) n cur alt (dist st !! n) = true →
  search_inv cur pending (mkSearch (<[n := alt]> (dist st)) (<[n := cur]> (prev st)) (settled st)
    (MinHeap.insert n (key n alt) (pq st))).
Proof.
  intros n alt Hi Hcur He Hn Hd Himp.
  assert (∀ b, dist st !! n = Some b → c_le alt b) as Hle
    by (intros b E; rewrite E in Himp; by eapply improves_true).
  assert (s0 ∈ settled st) as Hs0.
  { destruct (si_first _ _ _ Hi) as [|[E _]]; [done|]. rewrite E in Hcur. by apply elem_of_empty in Hcur. }
  assert (n ≠ s0) as Hns by (by intros E; rewrite E in Hn).
  assert (∀ x, x ∈ settled st → x ≠ n) as Hset by (by intros x Hx ->).
  destruct (MinHeap.insert_spec (Some lexTieBreaker) n (key n alt) (pq st) (si_heap _ _ _ Hi)) as [Hv Hp].
  split; simpl.
  - exact Hv.
  - rewrite lookup_insert_ne by done. apply (si_start _ _ _ Hi).
  - by left.
  - intros x d'. destruct (decide (x = n)) as [->|Hne].
    + rewrite lookup_insert_eq. intros [= <-].
      destruct (si_chain _ _ _ Hi cur d Hd) as (p & Hc & Hr & Hz).
      assert (n ∉ p) as Hnp by (intros [E|]%Hz; [rewrite E in Hn|]; done).
      exists (p ++ [n]). split; [apply (chain_step _ _ _ cur); [by rewrite lookup_insert_eq|by apply chain_insert|done]|].
      split; [by apply croute_snoc|]. intros z [Hzp| ->%list_elem_of_singleton]%elem_of_app; [right|by left].
      by destruct (Hz z Hzp) as [->|].
    + rewrite lookup_insert_ne by done. intros Hd'.
      destruct (si_chain _ _ _ Hi x d' Hd') as (p & Hc & Hr & Hz). exists p.
      split; [apply chain_insert; [done|]|done]. intros [E|]%Hz; [by apply Hne|done].
  - intros e'. rewrite Hp. intros [->|He']%elem_of_cons; simpl.
    + rewrite lookup_insert_eq. by exists alt, alt.
    + destruct (si_entry _ _ _ Hi e' He') as (d' & g & Hd' & Hg & Hk).
      destruct (decide (MinHeap.item e' = n)) as [E|]; [|rewrite lookup_insert_ne by done; by exists d', g].
      rewrite E, lookup_insert_eq. rewrite E in Hd', Hk. exists alt, g. split; [done|]. split; [|done].
      etrans; [by apply Hle|done].
  - intros x d' Hd' Hx. setoid_rewrite Hp. destruct (decide (x = n)) as [->|Hne].
    + rewrite lookup_insert_eq in Hd'. injection Hd' as <-. eexists. split; [by left|done].
    + rewrite lookup_insert_ne in Hd' by done.
      destruct (si_queued _ _ _ Hi x d' Hd' Hx) as (e' & He' & ?). exists e'. split; [by right|done].
  - intros x Hx. rewrite lookup_insert_ne by (by apply not_eq_sym, Hset). by apply (si_settled _ _ _ Hi).
  - intros x d' e' Hx. rewrite lookup_insert_ne by (by apply not_eq_sym, Hset). intros Hd' He'.
    destruct (si_relaxed _ _ _ Hi x d' e' Hx Hd' He') as [[-> [->|Hpend]%elem_of_cons]|[Hs|(b & Hb & Hble)]].
    + right; right. exists alt. fold n. rewrite lookup_insert_eq. split; [done|].
      rewrite Hd in Hd'. by simplify_eq.
    + by left.
    + by right; left.
    + right; right. destruct (decide (neighborId e' = n)) as [E|].
      * rewrite E, lookup_insert_eq in *. exists alt. split; [done|]. etrans; [by apply Hle|done].
      * rewrite lookup_insert_ne by done. by exists b.
  - apply (si_goal _ _ _ Hi).
Qed.

Lemma relaxed_inv cur e pending st :
  search_inv cur (e :: pending) st → cur ∈ settled st → e ∈ nbrs cur →
  search_inv cur pending (relaxed cur st e) ∧ settled (relaxed cur st e) = settled st.
Proof.
  intros Hi Hcur He. unfold relaxed.
  destruct (si_settled _ _ _ Hi cur Hcur) as (d & Hd & _).
  assert ((neighborId e ∈ settled st ∨ ∃ d', dist st !! neighborId e = Some d' ∧ c_le d' (step_cost wt cur e d)) →
    search_inv cur pending st) as Hskip.
  { intros Hdone. destruct Hi as [? ? ? ? ? ? ? Hrel ?]. split; try done.
    intros x d' e' Hx Hd' He'. destruct (Hrel x d' e' Hx Hd' He') as [[-> [->|]%elem_of_cons]|]; auto.
    rewrite Hd in Hd'. simplify_eq. auto. }
  case_decide as Hn; [split; [by apply Hskip; left|done]|]. rewrite Hd.
  destruct (improves _ _ _ _ _) eqn:Himp; [by split; [apply improve_inv|]|].
  split; [|done]. apply Hskip. right. by apply improves_false in Himp.
Qed.

Lemma relaxed_all cur st pending :
  (∀ e, e ∈ pending → e ∈ nbrs cur) →
  search_inv cur pending st → cur ∈ settled st →
  search_inv cur [] (foldl (relaxed cur) st pending) ∧
  settled (foldl (relaxed cur) st pending) = settled st.
Proof.
  revert st. induction pending as [|e pending IH]; intros st Hsub Hi Hcur; [done|]. simpl.
  destruct (relaxed_inv cur e pending st Hi Hcur) as [Hi' Es]; [apply Hsub; by left|].
  destruct (IH _ ltac:(intros; apply Hsub; by right) Hi') as [Hi2 Es2]; [by rewrite Es|].
  split; [done|by rewrite Es2].
Qed.

(** ** Taking a node from the queue *)
Section extract.
Context (cur0 : string) (st : Search (C:=C)) (pq' : MinHeap.MinHeap string C) (m : entry) (rest : list entry).
Context (Hi : search_inv cur0 [] st) (Em : entries st = m :: rest).
Context (Hv : MinHeap.valid (Some lexTieBreaker) pq') (Hp : MinHeap.heap_of pq' ≡ₚ rest).
Context (Hmin : Forall (MinHeap.entry_le (Some lexTieBreaker) m) rest).
#[local] Abbreviation x := (MinHeap.item m).

Lemma extract_elem e : e ∈ entries st ↔ e = m ∨ e ∈ MinHeap.heap_of pq'.
Proof. rewrite Em, Hp. apply elem_of_cons. Qed.

(** The entry of a node that is settled already. *)
Lemma extract_settled :
  x ∈ settled st → search_inv cur0 [] (mkSearch (dist st) (prev st) (settled st) pq').
Proof.
  intros Hx. destruct Hi as [? ? Hf ? He Hq ? ? ?]. split; simpl; try done.
  - destruct Hf as [|[E Hall]]; [by left|right]. split; [done|]. intros e He'. apply Hall, extract_elem. by right.
  - intros e He'. apply He, extract_elem. by right.
  - intros y d Hd Hy. destruct (Hq y d Hd Hy) as (e & [->|He']%extract_elem & Ey & Hk); [|by exists e].
    by rewrite Ey in Hx.
Qed.

(** The first node of the queue cannot be reached at a lower cost. *)
Lemma extract_cheapest d :
  x ∉ settled st → dist st !! x = Some d → cheapest nbrs wt s0 x d.
Proof.
  intros Hx Hd c Hc.
  destruct (search_frontier _ _ _ _ Hi Hc) as [|(e & He & Hle)]; [done|].
  destruct (si_entry _ _ _ Hi m) as (d' & g & Hd' & Hg & Hk); [rewrite Em; by left|].
  rewrite Hd in Hd'. injection Hd' as <-. etrans; [exact Hg|]. apply (key_reflect x).
  rewrite <- Hk. etrans; [|exact Hle]. apply extract_elem in He as [->|He]; [done|].
  rewrite Hp in He. rewrite Forall_forall in Hmin. by apply (MinHeap.entry_le_priority (Some lexTieBreaker)), Hmin.
Qed.

Lemma extract_dist : ∃ d, dist st !! x = Some d.
Proof. destruct (si_entry _ _ _ Hi m) as (d & _ & Hd & _); [rewrite Em; by left|]. by exists d. Qed.

(** Settling it leaves its edges to be relaxed. *)
Lemma extract_fresh :
  x ∉ settled st → x ≠ goal params →
  search_inv x (nbrs x) (mkSearch (dist st) (prev st) ({[x]} ∪ settled st) pq').
Proof.
  intros Hx Hgoal. destruct extract_dist as [d Hd]. pose proof (extract_cheapest d Hx Hd) as Hopt.
  pose proof Hi as [? ? Hf Hch He Hq Hs Hr Hg]. split; simpl; try done.
  - left. destruct Hf as [|[_ Hall]]; [set_solver|]. rewrite <- (Hall m); [set_solver|].
    rewrite Em. by left.
  - intros y d' Hd'. destruct (Hch y d' Hd') as (p & ? & ? & Hz). exists p. do 2 (split; [done|]).
    intros z Hzp. destruct (Hz z Hzp); [by left|right; set_solver].
  - intros e He'. apply He, extract_elem. by right.
  - intros y d' Hd' [Hne Hy]%not_elem_of_union.
    destruct (Hq y d' Hd' Hy) as (e & [->|He']%extract_elem & Ey & Hk); [|by exists e].
    rewrite Ey in Hne. set_solver.
  - intros y [->%elem_of_singleton|Hy]%elem_of_union; [by exists d|by apply Hs].
  - intros y d' e [->%elem_of_singleton|Hy]%elem_of_union Hd' He'; [by left|].
    destruct (Hr y d' e Hy Hd' He') as [[_ []%elem_of_nil]|[|]]; [right; left; set_solver|by right; right].
  - apply not_elem_of_union. split; [|done]. apply not_elem_of_singleton. done.
Qed.
End extract.

Lemma search_inv_cur cur cur' st : search_inv cur [] st → search_inv cur' [] st.
Proof.
  intros []. split; try done. intros x d e Hx Hd He.
  destruct (si_relaxed0 x d e Hx Hd He) as [[_ []%elem_of_nil]|]. by right.
Qed.

Lemma dist_universe cur pending st x d :
  search_inv cur pending st → dist st !! x = Some d → x ∈ sp_universe params U.
Proof.
  intros Hi Hd. destruct (si_chain _ _ _ Hi x d Hd) as (p & _ & Hr & _).
  apply costed_route_route, route_walk in Hr. by eapply sp_walk_universe.
Qed.

(** What a search returns. *)
Definition search_result (out : result WeightedResult) : Prop :=
  match out with
  | Ok res => ∃ c, totalCost res = Some c ∧ costed_route nbrs wt s0 (goal params) (w_path res) c ∧
      cheapest nbrs wt s0 (goal params) c
  | Throw e => e = no_path ∧ (room_for_all params U → ¬ reachable nbrs s0 (goal params))
  end.

Lemma search_exhausted cur st :
  search_inv cur [] st →
  MinHeap.isEmpty (pq st) || negb (lt_limit (set_size (settled st)) (maxNodes params)) = true →
  room_for_all params U → ¬ reachable nbrs s0 (goal params).
Proof.
  intros Hi Hcond Hroom [n Hw]. apply orb_true_iff in Hcond as [He|Hf].
  - unfold MinHeap.isEmpty in He. apply Nat.eqb_eq, nil_length_inv in He.
    destruct (walk_costs nbrs wt s0 n _ Hw) as [c Hc].
    destruct (search_frontier _ _ _ _ Hi Hc) as [Hg|(e & Hin & _)].
    + by apply (si_goal _ _ _ Hi).
    + rewrite He in Hin. by apply elem_of_nil in Hin.
  - apply negb_true_iff in Hf.
    assert (size (settled st) ≤ size (sp_universe params U)) as Hle.
    { apply subseteq_size. intros x Hx. destruct (si_settled _ _ _ Hi x Hx) as (d & Hd & _).
      by eapply dist_universe. }
    unfold room_for_all, set_size in *. destruct (maxNodes params); simpl in *; [|done].
    rewrite Z.ltb_ge in Hf. rewrite Z.ltb_lt in Hroom. lia.
Qed.

Definition search_measure (st : Search (C:=C)) : nat * nat :=
  (room (sp_universe params U) (settled st), length (entries st)).

(** ** The loop *)
Section effects.
Context (w : Weights (C:=C)) (weight : WeightFn C) (Hsignal : unset (signal params)).
#[local] Abbreviation ok := (caches_ok provider (options params) w).
Context (Hweight : ∀ x y l, yields ok (weight x y l) (wt x y l)).

Lemma relax_yields cur st e : yields ok (relax key weight cur st e) (relaxed cur st e).
Proof.
  unfold relax, relaxed. case_decide; [apply yields_ret|].
  eapply yields_bind; [apply Hweight|]. destruct (dist st !! cur); [|apply yields_ret].
  unfold step_cost. destruct (improves _ _ _ _ _); apply yields_ret.
Qed.

Lemma weighted_stats_returns V : returns ok (stats_of V) (λ s, nodesVisited s = set_size V).
Proof. intros r Hr. exists r, (stats (set_size V) (rs r)). done. Qed.

Lemma search_turn_attempts st :
  search_inv "" [] st →
  attempts ok (search_turn provider params key weight st) (λ r, match r with
    | Ok (inl st') => search_inv "" [] st' ∧ lex_lt (search_measure st') (search_measure st)
    | Ok (inr res) => search_result (Ok res)
    | Throw e => search_result (Throw e)
    end).
Proof.
  intros Hi. unfold search_turn.
  destruct (_ || _) eqn:Hcond.
  { apply attempts_throw. split; [done|by eapply search_exhausted]. }
  eapply attempts_bind_yields;
    [apply caches_yields; [apply checkAborted_weights|by apply checkAborted_yields]|].
  destruct (MinHeap.extractMin (pq st)) as [pq' r] eqn:Ex.
  destruct (MinHeap.extractMin_spec (Some lexTieBreaker) _ _ _ (si_heap _ _ _ Hi) Ex) as [Hv Hspec].
  destruct (entries st) as [|m rest] eqn:Em.
  { unfold MinHeap.isEmpty in Hcond. by rewrite Em in Hcond. }
  destruct Hspec as (-> & Hp & Hmin).
  destruct (extract_dist "" st m rest Hi Em) as [d Hd].
  pose proof (dist_universe _ _ _ _ _ Hi Hd) as HU.
  case_decide as Hs.
  { eapply attempts_returns; [|eapply returns_yields; [apply yields_ret|exact eq_refl]].
    intros _ <-. split; [by eapply extract_settled|]. right. unfold search_measure. simpl.
    rewrite Em, Hp. simpl. lia. }
  case_decide as Hg; simpl.
  - destruct (si_chain _ _ _ Hi _ d Hd) as (p & Hc & Hr & _).
    pose proof (extract_cheapest "" st pq' m rest Hi Em Hp Hmin d Hs Hd) as Hopt. rewrite Hg in *.
    rewrite (reconstructPath_chain _ _ _ p Hc).
    eapply attempts_bind_yields; [apply lift_ok_yields|].
    eapply attempts_returns with (P := λ c, match c with inl _ => False | inr res => search_result (Ok res) end);
      [by intros []|].
    eapply returns_bind; [apply weighted_stats_returns|]. intros s _.
    eapply returns_yields; [apply yields_ret|]. exists d. simpl. done.
  - eapply attempts_bind_yields;
      [apply caches_yields; [apply expand_weights|by eapply expand_yields]|].
    eapply attempts_bind_yields; [apply for_fold_yields, relax_yields|].
    eapply attempts_returns; [|eapply returns_yields; [apply yields_ret|exact eq_refl]].
    intros _ <-.
    pose proof (extract_fresh "" st pq' m rest Hi Em Hv Hp Hmin Hs Hg) as Hi'.
    destruct (relaxed_all _ _ _ (λ e He, He) Hi') as [Hi2 Es]; [simpl; set_solver|].
    split; [by eapply search_inv_cur|]. left. unfold search_measure. rewrite Es. simpl.
    apply (room_lt _ _ _ (MinHeap.item m)); [set_solver|done|done|set_solver].
Qed.
End effects.

Lemma search_from_result (p0 : C) (w : Weights) (r : Run C) :
  unset (signal params) → weighs w wt → hasNode provider s0 = Ok true → p0 = key s0 c_zero →
  ∃ r' out, settles (search_from provider params key p0 w) r (r', out) ∧ search_result out.
Proof.
  intros Hsig Hw Hstart ->.
  destruct (resolveWeightFn_yields provider (options params) w wt Hw) as (weight & Ew & Hy).
  enough (tries (caches_ok provider (options params) w)
    (λ fuel, weight ← lift (resolveWeightFn (weightFn w) (nodeWeightFn w));
      _ ← validateStart provider s0;
      loop fuel (search_turn provider params key weight)
        (mkSearch {[s0 := c_zero]} ∅ ∅
           (MinHeap.insert s0 (key s0 c_zero) (MinHeap.new (Some lexTieBreaker))))) search_result) as Ht.
  { destruct (fresh_tries _ _ _ (caches_ok_new provider (options params) w) Ht r)
      as (r' & out & Hs & _ & HQ). by exists r', out. }
  rewrite Ew. eapply tries_bind_yields; [apply lift_ok_yields|].
  eapply tries_bind_yields; [apply caches_yields; [|by apply validateStart_yields]|].
  { intros r1. unfold validateStart. by rewrite Hstart. }
  eapply loop_tries; [apply (measure_wf search_measure)| |by apply search_turn_attempts].
  destruct (MinHeap.insert_spec (Some lexTieBreaker) s0 (key s0 c_zero) _ (MinHeap.new_heap_valid (C:=C) (Some lexTieBreaker)))
    as [Hv Hp]. simpl in Hp.
  assert (∀ x d, ({[s0 := c_zero]} : gmap string C) !! x = Some d → x = s0 ∧ d = c_zero) as Hd
    by (intros x d Hx; by apply lookup_singleton_Some in Hx as [<- <-]).
  split; cbn [dist prev settled pq]; try done.
  - by rewrite lookup_singleton_eq.
  - right. split; [done|]. intros e. rewrite Hp. by intros ->%list_elem_of_singleton.
  - intros x d [-> ->]%Hd. exists [s0]. split; [constructor|]. split; [constructor|]. set_solver.
  - intros e. rewrite Hp. intros ->%list_elem_of_singleton. simpl. exists c_zero, c_zero.
    by rewrite lookup_singleton_eq.
  - intros x d [-> ->]%Hd _. exists (MinHeap.mkEntry s0 (key s0 c_zero)). rewrite Hp. split; [by left|done].
Qed.
End search.

(** ** Dijkstra *)
Lemma dijkstra_key {C} `{CostLaws C} nbrs (wt : string → string → string → C) :
  (∀ x e, e ∈ nbrs x → c_le c_zero (wt x (neighborId e) (label e))) →
  KeyLaws nbrs wt (λ _ g, g).
Proof. intros Hpos. split; [done|done|]. intros x e g He. by apply c_add_le, Hpos. Qed.

(** C32. On a finite graph, without aborts, for weights that are not negative,
    [weightedShortestPath] ends; a path it returns is a route from start to goal
    whose cost is [totalCost] and no route is cheaper; when it throws, the error
    is [NO_PATH], and the goal is not reachable if the node limit leaves room for
    the graph. Costs are summed from the start on, with any addition that is
    monotone, so rounding is allowed. *)
Theorem dijkstra_is_cheapest {C} `{CostLaws C} (provider : NeighborProviderPort) (params : PathParams)
    nbrs U (w : Weights) (wt : string → string → string → C) (r : Run C) :
  sees provider (options params) (direction params) nbrs U → unset (signal params) →
  hasNode provider (start params) = Ok true → weighs w wt →
  (∀ x e, e ∈ nbrs x → c_le c_zero (wt x (neighborId e) (label e))) →
  ∃ r' out, settles (weightedShortestPath provider params w) r (r', out) ∧
    search_result params nbrs U wt out.
Proof.
  intros Hsees Hsig Hstart Hw Hpos. pose proof (dijkstra_key nbrs wt Hpos).
  by apply (search_from_result provider params nbrs U Hsees wt (λ _ g, g)).
Qed.

(** ** A* *)
Section astar.
Context (nbrs : string → list NeighborEdge) (wt : string → string → string → Z).

(** A heuristic that never drops by more than the weight of an edge. *)
Definition consistent (h : string → Z) : Prop :=
  ∀ x e, e ∈ nbrs x → (h x <= wt x (neighborId e) (label e) + h (neighborId e))%Z.

Lemma astar_key h : consistent h → KeyLaws nbrs wt (λ n g, c_add g (h n)).
Proof.
  intros Hh. split; intros *; rewrite !Z_c_le; simpl; [lia..|].
  intros He%Hh. unfold step_cost. simpl. lia.
Qed.
End astar.

(** With a heuristic that is consistent, and integer weights, [aStarSearch]
    gives the guarantees of Dijkstra's algorithm: it ends, returns a cheapest
    route with its cost, and throws [NO_PATH] only when the goal is not
    reachable or the node limit is too low. The weights may be negative where
    the heuristic allows for them. *)
Theorem astar_is_cheapest (provider : NeighborProviderPort) (params : PathParams) nbrs U
    (w : Weights) (wt : string → string → string → Z) (heuristicFn : option (string → string → Z)) (r : Run Z) :
  sees provider (options params) (direction params) nbrs U → unset (signal params) →
  hasNode provider (start params) = Ok true → weighs w wt →
  consistent nbrs wt (λ n, default (λ _ _, 0%Z) heuristicFn n (goal params)) →
  ∃ r' out, settles (aStarSearch provider params heuristicFn w) r (r', out) ∧
    search_result params nbrs U wt out.
Proof.
  intros Hsees Hsig Hstart Hw Hh. pose proof (astar_key nbrs wt _ Hh).
  by apply (search_from_result provider params nbrs U Hsees wt
    (λ n g, c_add g (default (λ _ _, 0%Z) heuristicFn n (goal params)))).
Qed.

(** ** Concrete searches *)
Definition no_weights {C} : Weights (C:=C) := mkWeights None None.
Definition by_label : Weights (C:=Z) :=
  mkWeights (Some (λ _ _ l, Ok (if decide (l = "y") then 5%Z else 2%Z))) None.

Example dijkstra_diamond :
  (weightedShortestPath diamond_provider (a_to "e") by_label 20 newRun).2
  = Ok (mkWeighted ["a"; "b"; "d"; "e"] (Some 6%Z) 5 (mkStats 5 5 0 4)).
Proof. vm_compute. reflexivity. Qed.

Lemma dijkstra_is_cheapest_witness :
  ∃ r' out, settles (weightedShortestPath diamond_provider (a_to "e") by_label) newRun (r', out) ∧
    search_result (a_to "e") diamond {["a"; "b"; "c"; "d"; "e"]}
      (λ _ _ l, if decide (l = "y") then 5%Z else 2%Z) out.
Proof.
  apply (dijkstra_is_cheapest diamond_provider (a_to "e")).
  - apply diamond_sees.
  - by intros f n.
  - reflexivity.
  - by intros x y l.
  - intros x e _. by case_decide.
Defined.

(** A heuristic that never overestimates but drops by 4 along an edge of weight
    1: "a" is settled before its cheaper route is known. *)
Definition detours (n : string) : list NeighborEdge :=
  if decide (n = "s") then [mkEdge "a" "3"; mkEdge "b" "1"]
  else if decide (n = "b") then [mkEdge "a" "1"]
  else if decide (n = "a") then [mkEdge "g" "3"] else [].

Definition detours_provider : NeighborProviderPort :=
  NeighborProviderPort.mk (λ n _ _, Ok (detours n)) (λ _, Ok true) sync.

Definition label_weight (l : string) : Z := if decide (l = "3") then 3 else 1.

Definition s_to_g : PathParams := mkPathParams "s" "g" None (mkOptions None) None None None.

Lemma astar_needs_consistency :
  let h := (λ n _ : string, if decide (n = "b") then 4%Z else 0%Z) in
  (aStarSearch detours_provider s_to_g (Some h) (mkWeights (Some (λ _ _ l, Ok (label_weight l))) None) 20 newRun).2
    = Ok (mkWeighted ["s"; "a"; "g"] (Some 6%Z) 4 (mkStats 4 4 0 0)) ∧
  (weightedShortestPath detours_provider s_to_g (mkWeights (Some (λ _ _ l, Ok (label_weight l))) None) 20 newRun).2
    = Ok (mkWeighted ["s"; "b"; "a"; "g"] (Some 5%Z) 4 (mkStats 4 4 0 0)).
Proof. vm_compute. auto. Qed.

Lemma detours_sees o d : sees detours_provider o d detours {["s"; "a"; "b"; "g"]}.
Proof. split; [done|]. intros n e. unfold detours. repeat case_decide; set_solver. Qed.

(** Steps left to the goal. *)
Definition steps_left (n _ : string) : Z :=
  if decide (n = "s") then 5 else if decide (n = "b") then 4 else if decide (n = "a") then 3 else 0.

Lemma astar_is_cheapest_witness :
  ∃ r' out, settles (aStarSearch detours_provider s_to_g (Some steps_left)
      (mkWeights (Some (λ _ _ l, Ok (label_weight l))) None)) newRun (r', out) ∧
    search_result s_to_g detours {["s"; "a"; "b"; "g"]} (λ _ _ l, label_weight l) out.
Proof.
  apply (astar_is_cheapest detours_provider s_to_g).
  - apply detours_sees.
  - by intros f n.
  - reflexivity.
  - by intros x y l.
  - intros x e. simpl. unfold detours, steps_left, label_weight.
    repeat case_decide; subst; try by intros ?%elem_of_nil.
    all: intros He; repeat (apply elem_of_cons in He as [->|He]); simpl in *; subst; try done; by apply elem_of_nil in He.
Defined.
