(* ===== verification/GraphTopology.v ===== *)
(** Topological sort and what builds on it ([services/query/GraphTopology.ts]). *)
From S2P Require Export GraphPathFinding.
#[local] Open Scope Z_scope.
#[local] Open Scope list_scope.

Module GraphTopology.
Export GraphTraversal(fresh, set_size).

(* @src domain/services/query/GraphTopology.ts topologicalSort 55-62 *)
Record TopoParams := mkTopoParams {
  starts_of : list string;
  t_direction : option Direction;
  t_options : NeighborOptions;
  t_maxNodes : option limit;
  throwOnCycle : option bool;
  t_signal : option AbortSignal;
  _returnAdjList : option bool;
  _lightweight : option bool;
}.

(* @src domain/services/query/GraphTopology.ts topologicalSort 63-68 *)
Record TopoResult := mkTopo {
  sorted : list string;
  hasCycle : bool;
  t_stats : TraversalStats;
  _neighborEdgeMap : option (gmap string (list NeighborEdge));
}.

Definition has_cycles : error := Err "TraversalError" "ERR_GRAPH_HAS_CYCLES".

(** [[...new Set(l)]] *)
Definition distinct (l : list string) : list string :=
  foldl (λ acc x, if decide (x ∈ acc) then acc else acc ++ [x]) [] l.

Section topology.
Context {W : Type} (provider : NeighborProviderPort).
#[local] Abbreviation M := (step (Run W)).

Section sort.
Context (params : TopoParams).
#[local] Abbreviation direction := (default DOut (t_direction params)).
#[local] Abbreviation maxNodes := (default DEFAULT_MAX_NODES (t_maxNodes params)).

(** Whether the neighbour ids are kept: [_lightweight ?? !_returnAdjList], and
    not when the lists are to be returned. *)
Definition lightweight : bool :=
  let returnAdjList := default false (_returnAdjList params) in
  default (negb returnAdjList) (_lightweight params) && negb returnAdjList.

(** The variables of the first phase. [discovered] is a set in the order in
    which [queue] grows, so iterating it is iterating the queue. *)
Record Discovery := mkDiscovery {
  qHead : nat;
  queue : list string;
  discovered : gset string;
  inDegree : gmap string Z;
  adjList : gmap string (list string);
  neighborEdgeMap : gmap string (list NeighborEdge);
}.

(** [for (const { neighborId } of neighbors)] of the first phase. *)
(* @src domain/services/query/GraphTopology.ts topologicalSort 98-104 *)
Definition count_neighbor (st : Discovery) (e : NeighborEdge) : Discovery :=
  let n := neighborId e in
  let degrees := <[n := default 0 (inDegree st !! n) + 1]> (inDegree st) in
  if decide (n ∈ discovered st)
  then mkDiscovery (qHead st) (queue st) (discovered st) degrees (adjList st) (neighborEdgeMap st)
  else mkDiscovery (qHead st) (queue st ++ [n]) ({[n]} ∪ discovered st) degrees
         (adjList st) (neighborEdgeMap st).

(* @src domain/services/query/GraphTopology.ts topologicalSort 92-111 *)
Definition discover_turn (st : Discovery) : M (Discovery + Discovery) :=
  match queue st !! qHead st with
  | None => mret (inr st)
  | Some nodeId =>
      _ ← poll (t_signal params) (size (discovered st));
      neighbors ← expand provider nodeId direction (t_options params);
      let st := foldl count_neighbor
        (mkDiscovery (S (qHead st)) (queue st) (discovered st) (inDegree st) (adjList st)
           (neighborEdgeMap st)) neighbors in
      let adj := if lightweight then adjList st
                 else <[nodeId := neighborId <$> neighbors]> (adjList st) in
      let edges := if default false (_returnAdjList params)
                   then <[nodeId := neighbors]> (neighborEdgeMap st) else neighborEdgeMap st in
      mret (inl (mkDiscovery (qHead st) (queue st) (discovered st) (inDegree st) adj edges))
  end.

(* @src domain/services/query/GraphTopology.ts _loadTopoNeighborIds *)
Definition _loadTopoNeighborIds (nodeId : string) : M (list string) :=
  neighbors ← expand provider nodeId direction (t_options params);
  mret (neighborId <$> neighbors).

(* @src domain/services/query/GraphTopology.ts _createTopoNeighborIdReader *)
Definition _createTopoNeighborIdReader (adj : gmap string (list string)) (nodeId : string)
    : M (list string) :=
  if lightweight then _loadTopoNeighborIds nodeId
  else mret (default [] (adj !! nodeId)).

(** The variables of the second phase. *)
Record Kahn := mkKahn {
  degrees : gmap string Z;
  ready : MinHeap.MinHeap string Z;
  order : list string;
}.

(** [for (const neighborId of neighbors)]: a missing degree is [NaN], which is
    never 0. *)
(* @src domain/services/query/GraphTopology.ts topologicalSort 134-138 *)
Definition release (st : Kahn) (n : string) : Kahn :=
  match degrees st !! n with
  | None => st
  | Some d =>
      let deg := d - 1 in
      mkKahn (<[n := deg]> (degrees st))
        (if deg =? 0 then MinHeap.insert n 0 (ready st) else ready st) (order st)
  end.

(* @src domain/services/query/GraphTopology.ts topologicalSort 128-139 *)
Definition kahn_turn (getNeighborIds : string → M (list string)) (st : Kahn) : M (Kahn + Kahn) :=
  if negb (MinHeap.isEmpty (ready st)) && lt_limit (Z.of_nat (length (order st))) maxNodes then
    _ ← poll (t_signal params) (length (order st));
    match MinHeap.extractMin (ready st) with
    | (heap, Some nodeId) =>
        neighbors ← getNeighborIds nodeId;
        mret (inl (foldl release (mkKahn (degrees st) heap (order st ++ [nodeId])) neighbors))
    | (heap, None) => mret (inl (mkKahn (degrees st) heap (order st)))
    end
  else mret (inr st).

(** [if (deg.get(n) ?? 0) === 0) ready.insert(n, 0)] *)
(* @src domain/services/query/GraphTopology.ts topologicalSort 120-125 *)
Definition initially_ready (degrees : gmap string Z) (queue : list string)
    : MinHeap.MinHeap string Z :=
  foldl (λ heap n, if decide (default 0 (degrees !! n) = 0) then MinHeap.insert n 0 heap else heap)
    (MinHeap.new (Some lexTieBreaker)) queue.

(** The first edge between nodes that were not sorted. *)
(* @src domain/services/query/GraphTopology.ts _findTopoCycleWitness *)
Fixpoint _findTopoCycleWitness (discovered sorted : list string)
    (getNeighborIds : string → M (list string)) : M (option (string * string)) :=
  match discovered with
  | [] => mret None
  | nodeId :: rest =>
      if decide (nodeId ∈ sorted) then _findTopoCycleWitness rest sorted getNeighborIds
      else
        neighbors ← getNeighborIds nodeId;
        match list_find (.∉ sorted) neighbors with
        | Some (_, neighborId) => mret (Some (nodeId, neighborId))
        | None => _findTopoCycleWitness rest sorted getNeighborIds
        end
  end.

(* @src domain/services/query/GraphTopology.ts topologicalSort *)
Definition topologicalSort (fuel : nat) : M TopoResult :=
  fresh (
    let starts := distinct (starts_of params) in
    _ ← for_each (validateStart provider) starts;
    found ← loop fuel discover_turn (mkDiscovery 0 starts (list_to_set starts) ∅ ∅ ∅);
    let degrees := foldl (λ m s, if decide (is_Some (m !! s)) then m else <[s := 0]> m)
                     (inDegree found) starts in
    let getNeighborIds := _createTopoNeighborIdReader (adjList found) in
    done ← loop fuel (kahn_turn getNeighborIds)
             (mkKahn degrees (initially_ready degrees (queue found)) []);
    let hasCycle := computeTopoHasCycle (Z.of_nat (length (order done))) (set_size (discovered found))
                      maxNodes (negb (MinHeap.isEmpty (ready done))) in
    if hasCycle && default false (throwOnCycle params) then
      _ ← _findTopoCycleWitness (queue found) (order done) getNeighborIds;
      lift (Throw has_cycles)
    else
      r ← get;
      mret (mkTopo (order done) hasCycle (stats (Z.of_nat (length (order done))) (rs r))
              (if default false (_returnAdjList params) then Some (neighborEdgeMap found) else None))).
End sort.

(** ** Components and common ancestors *)

(* @src domain/services/query/GraphTopology.ts connectedComponent *)
Definition connectedComponent (start : string) (options : NeighborOptions)
    (maxNodes maxDepth : option limit) (signal : option AbortSignal) (fuel : nat)
    : M (list string * TraversalStats) :=
  GraphTraversal.bfs provider fuel
    (GraphTraversal.mkParams start (Some DBoth) options maxNodes maxDepth signal None).

(* @src domain/services/query/GraphTopology.ts commonAncestors 167-175 *)
Record AncestorParams := mkAncestorParams {
  a_nodes : list string;
  a_options : NeighborOptions;
  a_maxDepth : option limit;
  maxResults : option limit;
  a_signal : option AbortSignal;
}.

Definition add_stats (a b : TraversalStats) : TraversalStats :=
  mkStats (nodesVisited a + nodesVisited b) (s_edgesTraversed a + s_edgesTraversed b)
    (s_cacheHits a + s_cacheHits b) (s_cacheMisses a + s_cacheMisses b).

(** [ancestorCounts.set(a, (ancestorCounts.get(a) ?? 0) + 1)] *)
Definition count_one (counts : gmap string Z) (a : string) : gmap string Z :=
  <[a := default 0 (counts !! a) + 1]> counts.

(* @src domain/services/query/GraphTopology.ts commonAncestors 187-203 *)
Definition count_ancestors (params : AncestorParams) (fuel : nat)
    (acc : gmap string Z * TraversalStats) (nodeId : string) : M (gmap string Z * TraversalStats) :=
  let '(ancestorCounts, totalStats) := acc in
  _ ← checkAborted (a_signal params);
  found ← GraphTraversal.bfs provider fuel
    (GraphTraversal.mkParams nodeId (Some DIn) (a_options params) None
       (Some (default DEFAULT_MAX_DEPTH (a_maxDepth params))) (a_signal params) None);
  mret (foldl count_one ancestorCounts (fst found), add_stats totalStats (snd found)).

(** [common.push(ancestor); if (common.length >= maxResults) { break; }] *)
(* @src domain/services/query/GraphTopology.ts commonAncestors 210-213 *)
Fixpoint push_results (max : limit) (common entries : list string) : list string :=
  match entries with
  | [] => common
  | ancestor :: rest =>
      let common := common ++ [ancestor] in
      if negb (lt_limit (Z.of_nat (length common)) max) then common
      else push_results max common rest
  end.

(* @src domain/services/query/GraphTopology.ts commonAncestors *)
Definition commonAncestors (params : AncestorParams) (fuel : nat)
    : M (list string * TraversalStats) :=
  match a_nodes params with
  | [] => mret ([], stats 0 newRunStats)
  | nodes =>
      acc ← for_fold (count_ancestors params fuel) nodes (∅, stats 0 newRunStats);
      let requiredCount := Z.of_nat (length nodes) in
      let entries := js_sort (compare_key fst)
        (filter (λ entry, entry.2 = requiredCount) (map_to_list (fst acc))) in
      mret (push_results (default (Upto 100) (maxResults params)) [] (entries.*1), snd acc)
  end.
End topology.

(** ** Longest paths *)
Section longest.
Context {C : Type} `{Costs C} (provider : NeighborProviderPort) (params : GraphPathFinding.PathParams).
#[local] Abbreviation M := (step (Run C)).
#[local] Abbreviation start := (GraphPathFinding.start params).
#[local] Abbreviation goal := (GraphPathFinding.goal params).
#[local] Abbreviation direction := (GraphPathFinding.direction params).
#[local] Abbreviation options := (GraphPathFinding.options params).

(** [dist] and [prev] *)
Record Longest := mkLongest { l_dist : gmap string C; l_prev : gmap string string }.

(** [alt > best || (alt === best && shouldUpdatePredecessor(...))]; a missing
    [best] is [-Infinity]. *)
(* @src domain/services/query/GraphTopology.ts weightedLongestPath 253-255 *)
Definition prolongs (prev : gmap string string) (nodeId current : string) (alt : C)
    (best : option C) : bool :=
  match best with
  | None => true
  | Some b => c_ltb b alt || (bool_decide (alt = b) && shouldUpdatePredecessor prev nodeId current)
  end.

(* @src domain/services/query/GraphTopology.ts weightedLongestPath 250-259 *)
Definition lengthen (weight : WeightFn C) (nodeId : string) (st : Longest) (e : NeighborEdge)
    : M Longest :=
  w ← weight nodeId (neighborId e) (label e);
  match l_dist st !! nodeId with
  | None => mret st
  | Some d =>
      let alt := c_add d w in
      if prolongs (l_prev st) (neighborId e) nodeId alt (l_dist st !! neighborId e) then
        mret (mkLongest (<[neighborId e := alt]> (l_dist st)) (<[neighborId e := nodeId]> (l_prev st)))
      else mret st
  end.

(* @src domain/services/query/GraphTopology.ts weightedLongestPath 243-260 *)
Definition lengthen_from (edges : option (gmap string (list NeighborEdge))) (weight : WeightFn C)
    (st : Longest) (nodeId : string) : M Longest :=
  match l_dist st !! nodeId with
  | None => mret st
  | Some _ =>
      neighbors ← match edges with
                  | Some map => mret (default [] (map !! nodeId))
                  | None => getNeighbors provider nodeId direction options
                  end;
      _ ← count_edges neighbors;
      for_fold (lengthen weight nodeId) neighbors st
  end.

(** The sort that fixes the order of the nodes. *)
(* @src domain/services/query/GraphTopology.ts weightedLongestPath 233-237 *)
Definition longest_topo : TopoParams :=
  mkTopoParams [start] (Some direction) options (Some (GraphPathFinding.maxNodes params))
    (Some true) (GraphPathFinding.signal params) (Some true) None.

(* @src domain/services/query/GraphTopology.ts weightedLongestPath *)
Definition weightedLongestPath (weights : GraphPathFinding.Weights) (fuel : nat)
    : M (list string * C * TraversalStats) :=
  fresh (
    weight ← lift (resolveWeightFn (GraphPathFinding.weightFn weights)
                     (GraphPathFinding.nodeWeightFn weights));
    _ ← validateStart provider start;
    topo ← topologicalSort provider longest_topo fuel;
    st ← for_fold (lengthen_from (_neighborEdgeMap topo) weight) (sorted topo)
           (mkLongest {[start := c_zero]} ∅);
    match l_dist st !! goal with
    | None => lift (Throw no_path)
    | Some d =>
        path ← lift (reconstructPath (l_prev st) start goal);
        r ← get;
        mret (path, d, stats (Z.of_nat (length (sorted topo))) (rs r))
    end).
End longest.
End GraphTopology.
