(* ===== verification/TopoSort.v ===== *)
(** Topological sort: Kahn's algorithm takes the least node that is ready, time
    and again, and tells cycles from truncation. *)
From S2P Require Export GraphTopology WeightedSearch.
#[local] Open Scope nat_scope.
#[local] Open Scope list_scope.
Import GraphTopology.
#[local] Existing Instance MinHeap.total_tie_laws.

Section counting.
Context (nbrs : string → list NeighborEdge).

Definition targets (y : string) : list string := neighborId <$> nbrs y.

(** How often [x] occurs in a list. *)
Definition times (x : string) (l : list string) : nat := length (filter (.= x) l).

(** How many edges lead from [ys] to [x]. *)
Definition into (ys : list string) (x : string) : nat := times x (concat (targets <$> ys)).

Lemma times_app x l1 l2 : times x (l1 ++ l2) = times x l1 + times x l2.
Proof. unfold times. by rewrite filter_app, length_app. Qed.

Lemma times_cons x y l : times x (y :: l) = (if decide (y = x) then 1 else 0) + times x l.
Proof. unfold times. rewrite filter_cons. by case_decide. Qed.

Lemma times_0 x l : times x l = 0 ↔ x ∉ l.
Proof.
  induction l as [|y l IH]; [split; [intros _; apply not_elem_of_nil|done]|].
  rewrite times_cons, not_elem_of_cons, <- IH. case_decide; naive_solver lia.
Qed.

Lemma into_app ys1 ys2 x : into (ys1 ++ ys2) x = into ys1 x + into ys2 x.
Proof. unfold into. by rewrite fmap_app, concat_app, times_app. Qed.

Lemma into_single y x : into [y] x = times x (targets y).
Proof. unfold into. simpl. by rewrite app_nil_r. Qed.

Lemma into_perm ys1 ys2 x : ys1 ≡ₚ ys2 → into ys1 x = into ys2 x.
Proof.
  induction 1 as [|y ys1 ys2 _ IH|y z ys|ys1 ys2 ys3 _ IH1 _ IH2]; [done| | |congruence].
  - change (y :: ys1) with ([y] ++ ys1). change (y :: ys2) with ([y] ++ ys2).
    by rewrite !into_app, IH.
  - change (y :: z :: ys) with ([y] ++ [z] ++ ys). change (z :: y :: ys) with ([z] ++ [y] ++ ys).
    rewrite !into_app. lia.
Qed.

Lemma edge_targets y x : edge nbrs y x ↔ x ∈ targets y.
Proof. unfold edge, targets. rewrite list_elem_of_fmap. naive_solver. Qed.

Lemma into_0 ys x : into ys x = 0 ↔ ∀ y, y ∈ ys → ¬ edge nbrs y x.
Proof.
  induction ys as [|y ys IH]; [split; [by intros _ y []%elem_of_nil|done]|].
  change (y :: ys) with ([y] ++ ys). rewrite into_app, into_single.
  setoid_rewrite elem_of_app. setoid_rewrite list_elem_of_singleton. rewrite Nat.eq_add_0, times_0, IH.
  setoid_rewrite edge_targets. naive_solver.
Qed.
End counting.

Lemma distinct_spec l : NoDup (distinct l) ∧ ∀ x, x ∈ distinct l ↔ x ∈ l.
Proof.
  unfold distinct.
  assert (∀ acc, NoDup acc → let l' := foldl (λ acc x, if decide (x ∈ acc) then acc else acc ++ [x]) acc l in
    NoDup l' ∧ ∀ x, x ∈ l' ↔ x ∈ acc ∨ x ∈ l) as Hgen.
  { induction l as [|y l IH]; intros acc Hnd; simpl; [split; [done|]; set_solver|].
    case_decide as Hy.
    - destruct (IH acc Hnd) as [? Hx]. split; [done|]. intros x. rewrite Hx, elem_of_cons. naive_solver.
    - destruct (IH (acc ++ [y])) as [? Hx].
      + apply NoDup_app. split; [done|]. split; [by intros x Hx ->%list_elem_of_singleton|apply NoDup_singleton].
      + split; [done|]. intros x. rewrite Hx, elem_of_cons, elem_of_app, list_elem_of_singleton. tauto. }
  destruct (Hgen [] (NoDup_nil_2)) as [? Hx]. split; [done|]. intros x. rewrite Hx, elem_of_nil. tauto.
Qed.

(** ** Cycles *)
Section cycles.
Context (nbrs : string → list NeighborEdge) (rest : list string).
Context (Hpred : ∀ x, x ∈ rest → ∃ y, y ∈ rest ∧ edge nbrs y x).

(** A list of nodes of [rest] with edges from each to the next. *)
Inductive trail : list string → Prop :=
  | trail_one x : x ∈ rest → trail [x]
  | trail_cons x y l : x ∈ rest → edge nbrs x y → trail (y :: l) → trail (x :: y :: l).

Lemma trail_incl l x : trail l → x ∈ l → x ∈ rest.
Proof. induction 1; set_solver. Qed.

Lemma trail_long x k : x ∈ rest → ∃ l, trail l ∧ length l = S k.
Proof.
  intros Hx. induction k as [|k (l & Hl & E)]; [by exists [x]; split; [constructor|]|].
  destruct l as [|y l]; [done|].
  destruct (Hpred y) as (z & Hz & He); [by eapply trail_incl; [|left]|].
  exists (z :: y :: l). split; [by constructor|]. simpl in *. lia.
Qed.

Lemma trail_walk x l y : trail (x :: l) → y ∈ l → ∃ n, walk nbrs (S n) x y.
Proof.
  revert x. induction l as [|z l IH]; intros x Ht Hy; [by apply elem_of_nil in Hy|].
  inversion Ht as [|? ? ? _ Hxz Ht']; subst.
  assert (walk nbrs 1 x z) as Hw by (econstructor; [constructor|done]).
  apply elem_of_cons in Hy as [->|Hy]; [by exists 0|].
  destruct (IH z Ht' Hy) as [n Hn]. exists (S n). by apply (walk_app nbrs 1 (S n) x z y).
Qed.

Lemma trail_repeats l : trail l → ¬ NoDup l → ∃ x n, x ∈ rest ∧ walk nbrs (S n) x x.
Proof.
  induction 1 as [x Hx|x y l Hx Hxy Ht IH]; intros Hd; [destruct Hd; apply NoDup_singleton|].
  destruct (decide (x ∈ y :: l)) as [Hin|Hni].
  - destruct (trail_walk x (y :: l) x) as [n Hn]; [by constructor|done|]. by exists x, n.
  - apply IH. intros Hnd. apply Hd. by constructor.
Qed.

(** Among finitely many nodes, each with a predecessor, there is a cycle. *)
Lemma cycle_exists x : x ∈ rest → ∃ y n, y ∈ rest ∧ walk nbrs (S n) y y.
Proof.
  intros Hx. destruct (trail_long x (length rest) Hx) as (l & Hl & E).
  apply (trail_repeats l Hl). intros Hnd.
  assert (l ⊆+ rest) as Hsub by (apply NoDup_submseteq; [done|]; intros y; by apply trail_incl).
  apply submseteq_length in Hsub. lia.
Qed.
End cycles.

Lemma entry_le_lex (a b : MinHeap.HeapEntry string Z) :
  MinHeap.priority a = MinHeap.priority b → MinHeap.entry_le (Some lexTieBreaker) a b →
  MinHeap.item b = MinHeap.item a ∨ str_ltb (MinHeap.item a) (MinHeap.item b) = true.
Proof.
  intros E. unfold MinHeap.entry_le, MinHeap.compare_entries, cmp_step, lexTieBreaker.
  rewrite decide_True by done. destruct (decide (MinHeap.item b = MinHeap.item a)) as [|Hne]; [by left|].
  rewrite (ltb_total (MinHeap.item b)) by done. right. by destruct (str_ltb _ _).
Qed.

Section topo.
Context {W : Type} (provider : NeighborProviderPort) (params : TopoParams).
Context (nbrs : string → list NeighborEdge) (U : gset string).
#[local] Abbreviation direction := (default DOut (t_direction params)).
#[local] Abbreviation maxNodes := (default DEFAULT_MAX_NODES (t_maxNodes params)).
#[local] Abbreviation ok := (memo_ok (W:=W) provider (t_options params)).
Context (Hsees : sees provider (t_options params) direction nbrs U).
Context (Hsignal : unset (t_signal params)).
#[local] Abbreviation starts := (distinct (starts_of params)).

(** What the starts reach. *)
Definition reached (x : string) : Prop := ∃ s, s ∈ starts_of params ∧ reachable nbrs s x.

Lemma reached_edge x y : reached x → edge nbrs x y → reached y.
Proof. intros (s & Hs & n & Hw) He. exists s. split; [done|]. exists (S n). by econstructor. Qed.

(** ** Discovery *)
Definition processed (st : Discovery) : list string := take (qHead st) (queue st).

Record discovery_inv (st : Discovery) : Prop := {
  dy_nodup : NoDup (queue st);
  dy_set : discovered st = list_to_set (queue st);
  dy_reached x : x ∈ queue st → reached x;
  dy_starts x : x ∈ starts → x ∈ queue st;
  dy_head : qHead st ≤ length (queue st);
  dy_closed y x : y ∈ processed st → edge nbrs y x → x ∈ queue st;
  dy_degree x : default 0%Z (inDegree st !! x) = Z.of_nat (into nbrs (processed st) x);
  dy_degrees x : x ∈ dom (inDegree st) → x ∈ queue st;
  dy_adj y : lightweight params = false → y ∈ processed st → adjList st !! y = Some (targets nbrs y);
  dy_edges y : default false (_returnAdjList params) = true → y ∈ processed st →
    neighborEdgeMap st !! y = Some (nbrs y);
}.

Lemma count_neighbors_spec nb st :
  NoDup (queue st) → discovered st = list_to_set (queue st) →
  let st' := foldl count_neighbor st nb in
  NoDup (queue st') ∧ discovered st' = list_to_set (queue st') ∧
  (∃ new, queue st' = queue st ++ new) ∧
  (∀ x, x ∈ queue st' ↔ x ∈ queue st ∨ x ∈ neighborId <$> nb) ∧
  (∀ x, default 0%Z (inDegree st' !! x) =
    (default 0%Z (inDegree st !! x) + Z.of_nat (times x (neighborId <$> nb)))%Z) ∧
  (∀ x, x ∈ dom (inDegree st') ↔ x ∈ dom (inDegree st) ∨ x ∈ neighborId <$> nb) ∧
  qHead st' = qHead st ∧ adjList st' = adjList st ∧ neighborEdgeMap st' = neighborEdgeMap st.
Proof.
  revert st. induction nb as [|e nb IH]; intros st Hnd Hset; cbn [foldl fmap list_fmap].
  { do 2 (split; [done|]). split; [by exists []; rewrite app_nil_r|]. setoid_rewrite elem_of_nil.
    split; [tauto|]. split; [intros x; unfold times; simpl; lia|]. split; [tauto|done]. }
  set (n := neighborId e). set (st1 := count_neighbor st e).
  assert (NoDup (queue st1) ∧ discovered st1 = list_to_set (queue st1) ∧
    (∃ new, queue st1 = queue st ++ new) ∧ (∀ x, x ∈ queue st1 ↔ x ∈ queue st ∨ x = n) ∧
    inDegree st1 = <[n := (default 0 (inDegree st !! n) + 1)%Z]> (inDegree st) ∧
    qHead st1 = qHead st ∧ adjList st1 = adjList st ∧ neighborEdgeMap st1 = neighborEdgeMap st)
    as (Hnd1 & Hset1 & [new1 Hq1] & Hx1 & Hdeg1 & Eh1 & Ea1 & Ee1).
  { unfold st1, count_neighbor. fold n. case_decide as Hn; simpl.
    - rewrite Hset in Hn. apply elem_of_list_to_set in Hn. do 2 (split; [done|]).
      split; [by exists []; rewrite app_nil_r|]. split; [|done]. intros x. naive_solver.
    - rewrite Hset in Hn. rewrite elem_of_list_to_set in Hn. split.
      + apply NoDup_app. split; [done|]. split; [by intros x Hx ->%list_elem_of_singleton|apply NoDup_singleton].
      + split; [rewrite Hset, list_to_set_app_L; set_solver|]. split; [by eexists|]. split; [|done].
        intros x. by rewrite elem_of_app, list_elem_of_singleton. }
  destruct (IH st1 Hnd1 Hset1) as (Hnd' & Hset' & [new' Hq'] & Hx' & Hdeg' & Hdom' & Eh' & Ea' & Ee').
  do 2 (split; [done|]). split; [exists (new1 ++ new'); by rewrite Hq', Hq1, app_assoc|].
  split; [intros x; rewrite Hx', Hx1, elem_of_cons; tauto|].
  split; [intros x; rewrite Hdeg', Hdeg1, times_cons|].
  { destruct (decide (n = x)) as [<-|Hne]; [rewrite lookup_insert_eq; simpl; lia|].
    rewrite lookup_insert_ne by done. lia. }
  split; [intros x; rewrite Hdom', Hdeg1, dom_insert, elem_of_union, elem_of_singleton, elem_of_cons; tauto|].
  by rewrite Eh', Ea', Ee'.
Qed.

Definition topo_universe : gset string := list_to_set (starts_of params) ∪ U.

Lemma reached_universe x : reached x → x ∈ topo_universe.
Proof.
  clear Hsignal. intros (s & Hs & n & Hw). unfold topo_universe. apply elem_of_union.
  inversion Hw as [|m a y b Hy Hyx]; subst; [left; by apply elem_of_list_to_set|right; by eapply sees_edge].
Qed.

Definition discovery_measure (st : Discovery) : nat * nat :=
  (room topo_universe (discovered st), length (queue st) - qHead st).

Lemma discover_turn_ends st :
  discovery_inv st →
  ∃ c, yields ok (discover_turn provider params st) c ∧
    match c with
    | inl st' => discovery_inv st' ∧ lex_lt (discovery_measure st') (discovery_measure st)
    | inr st' => discovery_inv st' ∧ processed st' = queue st'
    end.
Proof.
  intros Hi. unfold discover_turn. destruct (queue st !! qHead st) as [y|] eqn:Ey.
  2: { eexists. split; [apply yields_ret|]. split; [done|]. apply lookup_ge_None in Ey.
       by apply take_ge. }
  pose proof (lookup_lt_Some _ _ _ Ey) as Hlt.
  set (st0 := mkDiscovery (S (qHead st)) (queue st) (discovered st) (inDegree st) (adjList st) (neighborEdgeMap st)).
  destruct (count_neighbors_spec (nbrs y) st0 (dy_nodup _ Hi) (dy_set _ Hi))
    as (Hnd & Hset & [new Hq] & Hx & Hdeg & Hdom & Eh & Ea & Ee).
  set (st1 := foldl count_neighbor st0 (nbrs y)) in *. simpl in Hq, Hx, Hdeg, Hdom, Eh, Ea, Ee.
  eexists. split.
  { eapply yields_bind; [by apply poll_yields|]. eapply yields_bind; [by eapply expand_yields|].
    apply yields_ret. }
  fold st0. fold st1.
  set (adj := if lightweight params then _ else _). set (edges := if default false _ then _ else _).
  assert (take (S (qHead st)) (queue st1) = processed st ++ [y]) as Hproc.
  { rewrite Hq, take_app_le by lia. by apply take_S_r. }
  assert (∀ x, x ∈ queue st → x ∈ queue st1) as Hold by (intros x ?; apply Hx; by left).
  assert (y ∈ queue st) as Hyq by by eapply list_elem_of_lookup_2.
  split.
  - split; simpl; unfold processed; simpl; rewrite ?Eh, ?Hproc.
    + done.
    + done.
    + intros x [Hxo|Hxn]%Hx; [by apply (dy_reached _ Hi)|].
      apply (reached_edge y); [by apply (dy_reached _ Hi)|]. by apply (edge_targets nbrs).
    + intros x Hs. by apply Hold, (dy_starts _ Hi).
    + rewrite Hq, length_app. lia.
    + intros z x [Hz| ->%list_elem_of_singleton]%elem_of_app Hzx.
      * apply Hold. by apply (dy_closed _ Hi z).
      * apply Hx. right. by apply (edge_targets nbrs).
    + intros x. rewrite Hdeg, (dy_degree _ Hi), into_app, into_single. unfold targets. lia.
    + intros x [Hd|Hn]%Hdom; [by apply Hold, (dy_degrees _ Hi)|]. apply Hx. by right.
    + intros z Hl Hz. unfold adj. rewrite Hl, Ea. destruct (decide (z = y)) as [->|Hne];
        [by rewrite lookup_insert_eq|]. rewrite lookup_insert_ne by done. apply (dy_adj _ Hi); [done|].
      apply elem_of_app in Hz as [|?%list_elem_of_singleton]; done.
    + intros z Hl Hz. unfold edges. rewrite Hl, Ee. destruct (decide (z = y)) as [->|Hne];
        [by rewrite lookup_insert_eq|]. rewrite lookup_insert_ne by done. apply (dy_edges _ Hi); [done|].
      apply elem_of_app in Hz as [|?%list_elem_of_singleton]; done.
  - unfold discovery_measure. simpl. rewrite Eh, Hset, (dy_set _ Hi). destruct new as [|x new].
    + right. rewrite Hq, app_nil_r. simpl. split; [done|lia].
    + left. simpl. rewrite Hq in Hnd |- *.
      assert (x ∈ queue st1) as Hx1 by (rewrite Hq; set_solver).
      apply (room_lt _ _ _ x).
      * rewrite list_to_set_app_L. set_solver.
      * apply reached_universe. apply Hx in Hx1 as [Hxo|Hxn]; [by apply (dy_reached _ Hi)|].
        apply (reached_edge y); [by apply (dy_reached _ Hi)|]. by apply (edge_targets nbrs).
      * rewrite elem_of_list_to_set. intros Hxo. apply NoDup_app in Hnd as (_ & Hdis & _).
        apply (Hdis x Hxo). by left.
      * rewrite list_to_set_app_L. set_solver.
Qed.

Lemma discovery_starts : discovery_inv (mkDiscovery 0 starts (list_to_set starts) ∅ ∅ ∅).
Proof.
  destruct (distinct_spec (starts_of params)) as [Hnd Hx]. split; simpl; try done.
  - intros x Hs%Hx. exists x. split; [done|]. exists 0. constructor.
  - lia.
  - by intros y x []%elem_of_nil.
  - by intros y _ []%elem_of_nil.
  - by intros y _ []%elem_of_nil.
Qed.

Lemma discovery_ends :
  ends ok (λ fuel, loop fuel (discover_turn provider params)
    (mkDiscovery 0 starts (list_to_set starts) ∅ ∅ ∅))
    (λ st, discovery_inv st ∧ processed st = queue st).
Proof.
  eapply loop_ends; [apply (measure_wf discovery_measure)|apply discovery_starts|].
  intros st Hi. destruct (discover_turn_ends st Hi) as (c & Hy & Hc). exists c. split; [done|].
  by destruct c.
Qed.

(** The queue ends up with all that is reached. *)
Lemma discovery_complete st x :
  discovery_inv st → processed st = queue st → x ∈ queue st ↔ reached x.
Proof.
  intros Hi Hp. split; [apply (dy_reached _ Hi)|]. intros (s & Hs & n & Hw).
  induction Hw as [y|n s y z _ IH Hyz].
  - apply (dy_starts _ Hi). by apply distinct_spec.
  - apply (dy_closed _ Hi y); [|done]. rewrite Hp. by apply IH.
Qed.

(** ** Sorting *)

(** All predecessors of [x] are in [l], and [x] is not. *)
Definition ready_at (l : list string) (x : string) : Prop :=
  reached x ∧ (x ∉ l) ∧ ∀ y, reached y → edge nbrs y x → y ∈ l.

Definition least_ready (l : list string) (x : string) : Prop :=
  ready_at l x ∧ ∀ y, ready_at l y → y = x ∨ str_ltb x y = true.

(** Every node is the least that was ready when it was taken. *)
Definition kahn_order (l : list string) : Prop :=
  ∀ pre x post, l = pre ++ x :: post → least_ready pre x.

Lemma kahn_order_snoc l x : kahn_order l → least_ready l x → kahn_order (l ++ [x]).
Proof.
  intros Hl Hx pre y post E. destruct post as [|z post _] using rev_ind.
  - by apply app_inj_tail in E as [-> ->].
  - rewrite app_comm_cons, app_assoc in E. apply app_inj_tail in E as [-> _]. by apply (Hl pre y post).
Qed.

Lemma kahn_order_before l pre x post y n :
  kahn_order l → l = pre ++ x :: post → reached y → walk nbrs (S n) y x → y ∈ pre.
Proof.
  intros Hl. revert pre x post y. induction n as [|n IH]; intros pre x post y E Hy Hw.
  - apply walk_S in Hw as (z & <-%walk_0 & Hyx). destruct (Hl _ _ _ E) as [(_ & _ & Hp) _]. by apply Hp.
  - apply walk_S in Hw as (z & Hyz & Hzx).
    assert (reached z) as Hz.
    { destruct Hy as (s & Hs & m & Hm). exists s. split; [done|]. exists (m + S n). by eapply walk_app. }
    destruct (Hl _ _ _ E) as [(_ & _ & Hp) _]. specialize (Hp z Hz Hzx).
    apply list_elem_of_split in Hp as (pre1 & pre2 & ->).
    apply elem_of_app. left. apply (IH pre1 z (pre2 ++ x :: post) y); [|done..].
    by rewrite E, <- app_assoc.
Qed.

(** A node that was sorted is on no cycle. *)
Lemma kahn_order_acyclic l x n : kahn_order l → x ∈ l → ¬ walk nbrs (S n) x x.
Proof.
  intros Hl Hx Hw. apply list_elem_of_split in Hx as (pre & post & E).
  destruct (Hl _ _ _ E) as [(Hr & Hni & _) _].
  by apply Hni, (kahn_order_before l pre x post x n).
Qed.

Lemma kahn_order_nodup l : kahn_order l → NoDup l.
Proof.
  induction l as [|x l IH] using rev_ind; intros Hl; [constructor|].
  apply NoDup_app. split; [|split; [|apply NoDup_singleton]].
  - apply IH. intros pre y post ->. apply (Hl pre y (post ++ [x])). by rewrite <- app_assoc.
  - intros y Hy ->%list_elem_of_singleton. by destruct (Hl l x []) as [(_ & Hni & _) _].
Qed.

Lemma kahn_order_closed l x y :
  kahn_order l → x ∈ l → reached y → edge nbrs y x → y ∈ l.
Proof.
  intros Hl Hx Hy He. apply list_elem_of_split in Hx as (pre & post & E).
  destruct (Hl _ _ _ E) as [(_ & _ & Hp) _]. rewrite E. apply elem_of_app. left. by apply Hp.
Qed.

(** Nothing that a just sorted node points to was sorted. *)
Lemma kahn_order_last l x y : kahn_order (l ++ [x]) → edge nbrs x y → y ∉ l ++ [x].
Proof.
  intros Hl He [Hy| ->%list_elem_of_singleton]%elem_of_app;
    destruct (Hl l x []) as [(Hr & Hni & Hp) _]; try done.
  - apply Hni, (kahn_order_closed l y); [|done..]. intros pre z post ->.
    apply (Hl pre z (post ++ [x])). by rewrite <- app_assoc.
  - by apply Hni, Hp.
Qed.

Section kahn.
Context (q : list string) (Hnd : NoDup q) (Hq : ∀ x, x ∈ q ↔ reached x).
#[local] Abbreviation items st := (MinHeap.item <$> MinHeap.heap_of (ready st)).

Lemma kahn_order_rest l : kahn_order l → ∃ rest, q ≡ₚ l ++ rest.
Proof.
  intros Hl. apply submseteq_Permutation, NoDup_submseteq; [by apply kahn_order_nodup|].
  intros x Hx. apply list_elem_of_split in Hx as (pre & post & E).
  destruct (Hl _ _ _ E) as [(Hr & _) _]. by apply Hq.
Qed.

(** [pending] are the targets of the last node that were not released yet. *)
Record kahn_inv (pending : list string) (st : Kahn) : Prop := {
  ka_heap : MinHeap.valid (Some lexTieBreaker) (ready st);
  ka_zero e : e ∈ MinHeap.heap_of (ready st) → MinHeap.priority e = 0%Z;
  ka_nodup : NoDup (items st);
  ka_items x : x ∈ items st ↔ x ∈ q ∧ (x ∉ order st) ∧ degrees st !! x = Some 0%Z;
  ka_degree x : x ∈ q → degrees st !! x =
    Some (Z.of_nat (into nbrs q x) - Z.of_nat (into nbrs (order st) x) + Z.of_nat (times x pending))%Z;
  ka_order : kahn_order (order st);
  ka_pending x : x ∈ pending → x ∈ q ∧ x ∉ order st;
}.

Lemma into_le l x : kahn_order l → into nbrs l x ≤ into nbrs q x.
Proof.
  intros (rest & Hp)%kahn_order_rest. rewrite (into_perm nbrs _ _ x Hp), into_app. lia.
Qed.

Lemma insert_items n (h : MinHeap.MinHeap string Z) x :
  MinHeap.valid (Some lexTieBreaker) h →
  x ∈ MinHeap.item <$> MinHeap.heap_of (MinHeap.insert n 0%Z h) ↔ x = n ∨ x ∈ MinHeap.item <$> MinHeap.heap_of h.
Proof.
  intros Hv. destruct (MinHeap.insert_spec _ n 0%Z h Hv) as [_ Hp]. rewrite Hp. simpl.
  by rewrite elem_of_cons.
Qed.

Lemma insert_zero n (h : MinHeap.MinHeap string Z) e :
  MinHeap.valid (Some lexTieBreaker) h →
  (∀ e, e ∈ MinHeap.heap_of h → MinHeap.priority e = 0%Z) →
  e ∈ MinHeap.heap_of (MinHeap.insert n 0%Z h) → MinHeap.priority e = 0%Z.
Proof.
  intros Hv Hz. destruct (MinHeap.insert_spec _ n 0%Z h Hv) as [_ ->].
  intros [->|He]%elem_of_cons; [done|by apply Hz].
Qed.

Lemma release_inv n pending st :
  kahn_inv (n :: pending) st →
  kahn_inv pending (release st n) ∧ order (release st n) = order st.
Proof.
  intros Hk. destruct (ka_pending _ _ Hk n) as [Hn Hno]; [by left|].
  pose proof (ka_degree _ _ Hk n Hn) as Hd. rewrite times_cons, decide_True in Hd by done.
  pose proof (into_le _ n (ka_order _ _ Hk)) as Hle.
  set (d := (_ - _ + _)%Z) in Hd. assert (1 <= d)%Z as Hd1 by (unfold d; lia).
  assert (n ∉ items st) as Hni.
  { intros Hin. destruct (proj1 (ka_items _ _ Hk n) Hin) as (_ & _ & E). rewrite Hd in E. injection E. lia. }
  unfold release. rewrite Hd. split; [|done]. split; simpl.
  - destruct (Z.eqb _ _); [|apply (ka_heap _ _ Hk)].
    by apply (MinHeap.insert_spec (Some lexTieBreaker) n 0%Z), (ka_heap _ _ Hk).
  - intros e. destruct (Z.eqb _ _); [|apply (ka_zero _ _ Hk)].
    apply insert_zero; [apply (ka_heap _ _ Hk)|apply (ka_zero _ _ Hk)].
  - destruct (Z.eqb _ _); [|apply (ka_nodup _ _ Hk)].
    destruct (MinHeap.insert_spec (Some lexTieBreaker) n 0%Z _ (ka_heap _ _ Hk)) as [_ ->].
    apply NoDup_cons. split; [done|apply (ka_nodup _ _ Hk)].
  - intros x. transitivity ((x = n ∧ d = 1%Z) ∨ x ∈ items st).
    { destruct (Z.eqb_spec (d - 1) 0); [rewrite insert_items by apply (ka_heap _ _ Hk)|];
        naive_solver lia. }
    rewrite (ka_items _ _ Hk). destruct (decide (n = x)) as [<-|Hne].
    + rewrite lookup_insert_eq, Hd. split; [intros [[_ ->]|(_ & _ & [= E])]; [done|lia]|].
      intros (_ & _ & [= E]). left. split; [done|lia].
    + rewrite lookup_insert_ne by done. naive_solver.
  - intros x Hx. destruct (decide (n = x)) as [<-|Hne].
    + rewrite lookup_insert_eq. f_equal. unfold d. lia.
    + rewrite lookup_insert_ne, (ka_degree _ _ Hk x Hx), times_cons, decide_False by done. done.
  - apply (ka_order _ _ Hk).
  - intros x Hx. apply (ka_pending _ _ Hk). by right.
Qed.

Lemma releases_inv pending st :
  kahn_inv pending st →
  kahn_inv [] (foldl release st pending) ∧ order (foldl release st pending) = order st.
Proof.
  revert st. induction pending as [|n pending IH]; intros st Hk; [done|]. simpl.
  destruct (release_inv n pending st Hk) as [Hk' <-]. by apply IH.
Qed.

(** With nothing pending, the heap holds what is ready. *)
Lemma items_ready st x : kahn_inv [] st → x ∈ items st ↔ ready_at (order st) x.
Proof.
  intros Hk. rewrite (ka_items _ _ Hk). unfold ready_at. rewrite Hq.
  destruct (kahn_order_rest _ (ka_order _ _ Hk)) as [rest Hp].
  enough (reached x → degrees st !! x = Some 0%Z ↔
    ∀ y, reached y → edge nbrs y x → y ∈ order st) by naive_solver.
  intros Hx. rewrite (ka_degree _ _ Hk) by (by apply Hq).
  rewrite (into_perm nbrs _ _ x Hp), into_app. transitivity (into nbrs rest x = 0).
  { unfold times. simpl. split; [intros [=]; lia|intros ->; f_equal; lia]. }
  rewrite into_0. setoid_rewrite <- Hq. setoid_rewrite Hp. setoid_rewrite elem_of_app.
  split; [naive_solver|]. intros Hall y Hy He.
  assert (y ∈ order st) as Hyo by (apply Hall; naive_solver).
  rewrite Hp in Hnd. apply NoDup_app in Hnd as (_ & Hdis & _). by apply (Hdis y).
Qed.

Lemma extract_least st h r :
  kahn_inv [] st → MinHeap.isEmpty (ready st) = false → MinHeap.extractMin (ready st) = (h, r) →
  ∃ x, r = Some x ∧ reached x ∧
    kahn_inv (targets nbrs x) (mkKahn (degrees st) h (order st ++ [x])).
Proof.
  intros Hk Hne Ex.
  destruct (MinHeap.extractMin_spec _ _ _ _ (ka_heap _ _ Hk) Ex) as [Hv Hs].
  unfold MinHeap.isEmpty in Hne.
  destruct (MinHeap.heap_of (ready st)) as [|m rest] eqn:Em; [done|].
  destruct Hs as (-> & Hp & Hmin). set (x := MinHeap.item m).
  assert (∀ y, y ∈ items st ↔ y = x ∨ y ∈ MinHeap.item <$> MinHeap.heap_of h) as Hitems.
  { intros y. by rewrite Em, Hp, fmap_cons, elem_of_cons. }
  assert (ready_at (order st) x) as Hx by (apply items_ready, Hitems; [done|by left]).
  assert (kahn_order (order st ++ [x])) as Hord.
  { apply kahn_order_snoc; [apply (ka_order _ _ Hk)|]. split; [done|].
    intros y [->|Hy]%(items_ready st y Hk)%Hitems; [by left|].
    apply list_elem_of_fmap in Hy as (e & -> & He). rewrite Hp in He.
    rewrite Forall_forall in Hmin. specialize (Hmin e He).
    apply entry_le_lex in Hmin; [done|]. by rewrite !(ka_zero _ _ Hk) by (rewrite Em; set_solver). }
  exists x. split; [done|]. split; [apply Hx|].
  pose proof (ka_nodup _ _ Hk) as Hn. rewrite Em, fmap_cons, NoDup_cons, <- Hp in Hn.
  split; simpl; try done.
  - intros e He. apply (ka_zero _ _ Hk). rewrite Em. rewrite Hp in He. by right.
  - apply Hn.
  - intros y. pose proof (ka_items _ _ Hk y) as Hi. rewrite Hitems in Hi. destruct Hn as [Hn _]. fold x in Hn. simpl. rewrite elem_of_app, list_elem_of_singleton. naive_solver.
  - intros y Hy. rewrite (ka_degree _ _ Hk y Hy), into_app, into_single. f_equal.
    change (times y []) with 0. lia.
  - intros y Hy. assert (edge nbrs x y) as He by by apply (edge_targets nbrs).
    split; [|by apply (kahn_order_last _ x)]. apply Hq. by apply (reached_edge x); [apply Hx|].
Qed.

(** What is left when nothing is ready lies behind a cycle. *)
Definition cyclic : Prop := ∃ y n, reached y ∧ walk nbrs (S n) y y.

Lemma stuck_cycle st :
  kahn_inv [] st → MinHeap.isEmpty (ready st) = true → length (order st) < length q → cyclic.
Proof.
  intros Hk He Hlt. destruct (kahn_order_rest _ (ka_order _ _ Hk)) as [rest Hp].
  pose proof Hnd as Hnd'. rewrite Hp in Hnd'. apply NoDup_app in Hnd' as (_ & Hdis & _).
  assert (∀ x, x ∈ rest → reached x ∧ x ∉ order st) as Hrest.
  { intros x Hx. split; [apply Hq; rewrite Hp; set_solver|]. intros Hxo. by apply (Hdis x). }
  destruct rest as [|x0 rest']; [rewrite Hp, app_nil_r in Hlt; lia|].
  destruct (cycle_exists nbrs (x0 :: rest')) with (x := x0) as (y & n & Hy & Hw); [|by left|].
  - intros x Hx. destruct (Hrest x Hx) as [Hxr Hxo].
    destruct (decide (into nbrs (x0 :: rest') x = 0)) as [E|E].
    + exfalso. assert (x ∈ items st) as Hin.
      { apply (ka_items _ _ Hk). split; [by apply Hq|]. split; [done|].
        rewrite (ka_degree _ _ Hk) by (by apply Hq). f_equal.
        rewrite (into_perm nbrs _ _ x Hp), into_app, E. change (times x []) with 0. lia. }
      unfold MinHeap.isEmpty in He. apply Nat.eqb_eq, nil_length_inv in He. rewrite He in Hin.
      by apply elem_of_nil in Hin.
    + destruct (decide (Exists (λ y, x ∈ targets nbrs y) (x0 :: rest'))) as [Hex|Hex].
      * apply Exists_exists in Hex as (y & Hy & Hyx). exists y. split; [done|].
        by apply (edge_targets nbrs).
      * exfalso. apply E, into_0. intros y Hy Hyx. apply Hex, Exists_exists. exists y.
        split; [done|]. by apply (edge_targets nbrs).
  - exists y, n. split; [by apply Hrest|done].
Qed.

Section turns.
Context (getNeighborIds : string → step (Run W) (list string)).
Context (Hids : ∀ x, reached x → yields ok (getNeighborIds x) (targets nbrs x)).

Lemma kahn_turn_ends st :
  kahn_inv [] st →
  (∀ n, maxNodes = Upto n → (Z.of_nat (length (order st)) <= Z.max 0 n)%Z) →
  ∃ c, yields ok (kahn_turn params getNeighborIds st) c ∧
    match c with
    | inl st' => (kahn_inv [] st' ∧
        (∀ n, maxNodes = Upto n → (Z.of_nat (length (order st')) <= Z.max 0 n)%Z)) ∧
        length q - length (order st') < length q - length (order st)
    | inr st' => st' = st ∧
        (MinHeap.isEmpty (ready st) = true ∨ lt_limit (Z.of_nat (length (order st))) maxNodes = false)
    end.
Proof.
  intros Hk Hmax. unfold kahn_turn. destruct (negb _ && _) eqn:Hc.
  2: { exists (inr st). split; [apply yields_ret|]. split; [done|].
       apply andb_false_iff in Hc as [?%negb_false_iff|?]; [by left|by right]. }
  apply andb_true_iff in Hc as [Hne%negb_true_iff Hlt].
  destruct (MinHeap.extractMin (ready st)) as [h r] eqn:Ex.
  destruct (extract_least st h r Hk Hne Ex) as (x & -> & Hx & Hk1).
  destruct (releases_inv _ _ Hk1) as [Hk' Eo]. simpl in Eo.
  eexists. split.
  { eapply yields_bind; [by apply poll_yields|]. eapply yields_bind; [by apply Hids|]. apply yields_ret. }
  cbn beta iota. rewrite Eo, length_app. simpl. split; [split; [done|]|].
  - intros n En. specialize (Hmax n En). rewrite En in Hlt. simpl in Hlt. lia.
  - destruct (kahn_order_rest _ (ka_order _ _ Hk')) as [rest Hp]. rewrite Hp, Eo, !length_app. simpl. lia.
Qed.

(** What the loop leaves. *)
Definition kahn_end (st : Kahn) : Prop :=
  kahn_inv [] st ∧
  (∀ n, maxNodes = Upto n → (Z.of_nat (length (order st)) <= Z.max 0 n)%Z) ∧
  (MinHeap.isEmpty (ready st) = true ∨ lt_limit (Z.of_nat (length (order st))) maxNodes = false).

Lemma kahn_ends st :
  kahn_inv [] st → order st = [] → ends ok (λ fuel, loop fuel (kahn_turn params getNeighborIds) st) kahn_end.
Proof.
  intros Hk Eo. eapply (loop_ends ok _ (λ st, kahn_inv [] st ∧
      (∀ n, maxNodes = Upto n → (Z.of_nat (length (order st)) <= Z.max 0 n)%Z))
    (λ st' st, length q - length (order st') < length q - length (order st))).
  - apply (well_founded_ltof _ (λ st, length q - length (order st))).
  - split; [done|]. rewrite Eo. simpl. intros n _. lia.
  - intros st1 [Hk1 Hm1]. destruct (kahn_turn_ends st1 Hk1 Hm1) as (c & Hy & Hc). exists c. split; [done|].
    destruct c as [st'|st']; [done|]. destruct Hc as [-> Hc]. done.
Qed.

Lemma witness_search_yields l sorted :
  (∀ x, x ∈ l → reached x) → ∃ w, yields ok (_findTopoCycleWitness l sorted getNeighborIds) w.
Proof.
  induction l as [|x l IH]; intros Hl; [eexists; apply yields_ret|]. simpl.
  destruct IH as [w Hw]; [intros y Hy; apply Hl; by right|].
  case_decide; [by exists w|].
  destruct (list_find (.∉ sorted) (targets nbrs x)) as [[i z]|] eqn:Ef; eexists;
    (eapply yields_bind; [apply Hids, Hl; by left|]; rewrite Ef); [apply yields_ret|done].
Qed.
End turns.

(** [computeTopoHasCycle] tells cycles from truncation. *)
Lemma has_cycle_spec st :
  kahn_end st →
  let hasCycle := computeTopoHasCycle (Z.of_nat (length (order st))) (Z.of_nat (length q)) maxNodes
                    (negb (MinHeap.isEmpty (ready st))) in
  (hasCycle = true → cyclic) ∧
  (hasCycle = false → lt_limit (Z.of_nat (length (order st))) maxNodes = true → ∀ x, reached x → x ∈ order st).
Proof.
  intros (Hk & _ & Hend). unfold computeTopoHasCycle. cbn zeta. split.
  - intros [Hs Hlt]%andb_true_iff. apply Z.ltb_lt in Hlt. apply (stuck_cycle st); [done| |lia].
    destruct (MinHeap.isEmpty _); [done|]. destruct Hend as [|Hf]; [done|]. by rewrite Hf in Hs.
  - intros Hc Hlt x Hx. rewrite Hlt in Hc. simpl in Hc.
    apply Z.ltb_ge in Hc.
    destruct (kahn_order_rest _ (ka_order _ _ Hk)) as [rest Hp].
    destruct rest; [|rewrite Hp, length_app in Hc; simpl in Hc; lia].
    rewrite app_nil_r in Hp. rewrite <- Hp. by apply Hq.
Qed.
End kahn.

Lemma initially_ready_spec (deg : gmap string Z) l (heap0 : MinHeap.MinHeap string Z) :
  MinHeap.valid (Some lexTieBreaker) heap0 →
  let heap := foldl (λ heap n, if decide (default 0%Z (deg !! n) = 0%Z) then MinHeap.insert n 0%Z heap
                               else heap) heap0 l in
  MinHeap.valid (Some lexTieBreaker) heap ∧
  MinHeap.heap_of heap ≡ₚ ((λ n, MinHeap.mkEntry n 0%Z) <$>
    filter (λ n, default 0%Z (deg !! n) = 0%Z) l) ++ MinHeap.heap_of heap0.
Proof.
  revert heap0. induction l as [|n l IH]; intros heap0 Hv; [done|]. simpl. rewrite filter_cons.
  case_decide; [|by apply IH].
  destruct (MinHeap.insert_spec (Some lexTieBreaker) n 0%Z heap0 Hv) as [Hv' Hp].
  destruct (IH _ Hv') as [Hv2 Hp2]. split; [done|]. rewrite Hp2, Hp. simpl.
  by rewrite Permutation_middle.
Qed.

Definition all_degrees (found : Discovery) : gmap string Z :=
  foldl (λ m s, if decide (is_Some (m !! s)) then m else <[s := 0%Z]> m) (inDegree found) starts.

Lemma all_degrees_spec found x :
  discovery_inv found → processed found = queue found → x ∈ queue found →
  all_degrees found !! x = Some (Z.of_nat (into nbrs (queue found) x)).
Proof.
  intros Hi Hp Hx. unfold all_degrees.
  assert (∀ l (m : gmap string Z),
    foldl (λ m s, if decide (is_Some (m !! s)) then m else <[s := 0%Z]> m) m l !! x =
    match m !! x with Some d => Some d | None => if decide (x ∈ l) then Some 0%Z else None end) as Hfold.
  { induction l as [|s l IH]; intros m; cbn [foldl].
    - destruct (m !! x); [done|]. rewrite decide_False; [done|]. by apply not_elem_of_nil.
    - rewrite IH. destruct (decide (is_Some (m !! s))) as [Hs|Hs].
      + destruct (m !! x) eqn:E; [done|]. apply decide_ext. rewrite elem_of_cons.
        split; [by right|]. intros [->|]; [by rewrite E in Hs; destruct Hs|done].
      + destruct (decide (s = x)) as [->|Hne].
        * rewrite lookup_insert_eq. apply eq_None_not_Some in Hs. by rewrite Hs, decide_True by by left.
        * rewrite lookup_insert_ne by done. destruct (m !! x); [done|]. apply decide_ext.
          rewrite elem_of_cons. naive_solver. }
  rewrite Hfold. pose proof (dy_degree _ Hi x) as Hd. rewrite Hp in Hd.
  destruct (inDegree found !! x) as [d|]; simpl in Hd; [by f_equal|].
  rewrite decide_True; [by f_equal|]. apply (discovery_complete _ _ Hi Hp) in Hx as (s & Hs & n & Hw).
  inversion Hw as [|m a y b Hy Hyx]; subst; [by apply distinct_spec|]. exfalso.
  assert (into nbrs (queue found) x = 0) as E by lia. apply (proj1 (into_0 nbrs _ _) E y); [|done].
  apply (discovery_complete _ _ Hi Hp). exists s. split; [done|]. by exists m.
Qed.

Lemma kahn_starts found :
  discovery_inv found → processed found = queue found →
  kahn_inv (queue found) [] (mkKahn (all_degrees found) (initially_ready (all_degrees found) (queue found)) []).
Proof.
  intros Hi Hp. unfold initially_ready.
  destruct (initially_ready_spec (all_degrees found) (queue found)
    (MinHeap.new (Some lexTieBreaker)) (MinHeap.new_heap_valid (C:=Z) _)) as [Hv Hh].
  set (heap := foldl _ _ _) in *. simpl in Hh. rewrite app_nil_r in Hh.
  assert (MinHeap.item <$> MinHeap.heap_of heap ≡ₚ
    filter (λ n, default 0%Z (all_degrees found !! n) = 0%Z) (queue found)) as Hitems.
  { rewrite Hh, <- list_fmap_compose. unfold compose. simpl. by rewrite list_fmap_id. }
  split; simpl; try done.
  - intros e. rewrite Hh. by intros (n & -> & _)%list_elem_of_fmap.
  - rewrite Hitems. apply NoDup_filter, (dy_nodup _ Hi).
  - intros x. rewrite Hitems, list_elem_of_filter. split.
    + intros [Hz Hx]. split; [done|]. split; [apply not_elem_of_nil|].
      rewrite (all_degrees_spec _ _ Hi Hp Hx) in Hz |- *. simpl in Hz. by rewrite Hz.
    + intros (Hx & _ & E). by rewrite E.
  - intros x Hx. rewrite (all_degrees_spec _ _ Hi Hp Hx). f_equal.
    change (into nbrs [] x) with 0. change (times x []) with 0. lia.
  - intros pre x post E. by destruct pre.
  - by intros x []%elem_of_nil.
Qed.

(** What a sort promises. *)
Definition topo_outcome (out : result TopoResult) : Prop :=
  match out with
  | Ok res =>
      kahn_order (sorted res) ∧
      (∀ n, maxNodes = Upto n → (Z.of_nat (length (sorted res)) <= Z.max 0 n)%Z) ∧
      (hasCycle res = true → cyclic ∧ default false (throwOnCycle params) = false) ∧
      (hasCycle res = false → lt_limit (Z.of_nat (length (sorted res))) maxNodes = true →
        ∀ x, reached x → x ∈ sorted res) ∧
      (default false (_returnAdjList params) = true → ∃ edges, _neighborEdgeMap res = Some edges ∧
        ∀ x, reached x → edges !! x = Some (nbrs x))
  | Throw e => e = has_cycles ∧ cyclic ∧ default false (throwOnCycle params) = true
  end.

Lemma reader_yields found x :
  discovery_inv found → processed found = queue found → reached x →
  yields ok (_createTopoNeighborIdReader provider params (adjList found) x) (targets nbrs x).
Proof.
  intros Hi Hp Hx. unfold _createTopoNeighborIdReader. apply yields_if; intros Hl.
  - unfold _loadTopoNeighborIds. eapply yields_bind; [by eapply expand_yields|]. apply yields_ret.
  - rewrite (dy_adj _ Hi) with (y := x); [apply yields_ret|done|].
    rewrite Hp. by apply (discovery_complete _ _ Hi Hp).
Qed.

Lemma topologicalSort_outcome (r : Run W) :
  (∀ s, s ∈ starts_of params → hasNode provider s = Ok true) →
  ∃ r' out, settles (topologicalSort provider params) r (r', out) ∧ same_caller r r' ∧ topo_outcome out.
Proof.
  intros Hnodes. unfold topologicalSort.
  refine (fresh_tries ok _ topo_outcome _ _ r); [intros p; apply memo_ok_new|]. cbn zeta.
  eapply tries_bind_yields.
  { apply for_each_yields. intros s Hs. apply validateStart_yields, Hnodes. by apply distinct_spec. }
  eapply tries_bind_ends; [apply discovery_ends|]. intros found [Hi Hp].
  pose proof (dy_nodup _ Hi) as Hnd.
  assert (∀ x, x ∈ queue found ↔ reached x) as Hq by (intros x; by apply discovery_complete).
  assert (∀ x, reached x →
    yields ok (_createTopoNeighborIdReader provider params (adjList found) x) (targets nbrs x)) as Hids
    by (intros x; by apply reader_yields).
  eapply tries_bind_ends.
  { apply (kahn_ends (queue found) Hnd Hq _ Hids); [by apply kahn_starts|done]. }
  intros st Hst. cbn beta. rewrite (dy_set _ Hi), set_size_list by done.
  destruct (has_cycle_spec (queue found) Hnd Hq st Hst) as [Htrue Hfalse].
  set (c := computeTopoHasCycle _ _ _ _) in *. apply tries_attempts.
  destruct (c && default false (throwOnCycle params)) eqn:Hc.
  - apply andb_true_iff in Hc as [Hc Ht].
    destruct (witness_search_yields _ Hids (queue found) (order st)) as [w Hw]; [apply (dy_reached _ Hi)|].
    eapply attempts_bind_yields; [exact Hw|]. apply attempts_throw.
    split; [done|]. split; [by apply Htrue|done].
  - intros r1 Hr1. eexists _, _. split; [done|]. split; [done|]. simpl.
    destruct Hst as (Hk & Hmax & _). split; [apply (ka_order _ _ _ Hk)|].
    split; [done|]. split; [|split; [done|]].
    + intros Hct. split; [auto|]. by rewrite Hct in Hc.
    + intros Hr. rewrite Hr. eexists. split; [done|]. intros x Hx. apply (dy_edges _ Hi); [done|].
      rewrite Hp. by apply Hq.
Qed.
End topo.

Lemma least_ready_unique params nbrs l x y :
  least_ready params nbrs l x → least_ready params nbrs l y → x = y.
Proof.
  intros [Hx Hminx] [Hy Hminy]. destruct (Hminx y Hy) as [|Hxy]; [done|].
  destruct (Hminy x Hx) as [|Hyx]; [done|].
  pose proof (ltb_trans _ _ _ Hxy Hyx) as E. by rewrite ltb_irrefl in E.
Qed.

(** The graph determines the order, up to where the limit cuts it off. *)
Lemma kahn_order_prefix params nbrs l1 l2 :
  kahn_order params nbrs l1 → kahn_order params nbrs l2 → l1 `prefix_of` l2 ∨ l2 `prefix_of` l1.
Proof.
  intros H1 H2.
  assert (∀ pre k1 k2, l1 = pre ++ k1 → l2 = pre ++ k2 → l1 `prefix_of` l2 ∨ l2 `prefix_of` l1) as Hgen;
    [|by apply (Hgen [] l1 l2)].
  intros pre k1. revert pre. induction k1 as [|x k1 IH]; intros pre k2 E1 E2.
  - left. exists k2. by rewrite E2, E1, app_nil_r.
  - destruct k2 as [|y k2]; [right; exists (x :: k1); by rewrite E1, E2, app_nil_r|].
    assert (x = y) as <- by (eapply least_ready_unique; [by eapply H1|by eapply H2]).
    apply (IH (pre ++ [x]) k2); by rewrite <- app_assoc.
Qed.

(** On a finite graph, without aborts, [topologicalSort] is Kahn's
    algorithm: of what the starts reach, every node is the least whose
    predecessors were all sorted before, up to [maxNodes] nodes. [hasCycle] is
    true only if what is reached has a cycle, and false only if all of it was
    sorted or the limit was met. The call throws exactly then, if
    [throwOnCycle]. The order depends on the graph only. *)
Theorem topological_sort_is_kahn {W} (provider : NeighborProviderPort) (params : TopoParams)
    nbrs U (r : Run W) :
  sees provider (t_options params) (default DOut (t_direction params)) nbrs U →
  unset (t_signal params) →
  (∀ s, s ∈ starts_of params → hasNode provider s = Ok true) →
  ∃ r' out, settles (topologicalSort provider params) r (r', out) ∧
    topo_outcome params nbrs out ∧
    (∀ res, out = Ok res → ∀ l, kahn_order params nbrs l →
      l `prefix_of` sorted res ∨ sorted res `prefix_of` l) ∧
    (∀ res x n, out = Ok res → x ∈ sorted res → ¬ walk nbrs (S n) x x).
Proof.
  intros Hs Hu Hn. destruct (topologicalSort_outcome provider params nbrs U Hs Hu r Hn)
    as (r' & out & Hset & _ & Hout).
  exists r', out. split; [done|]. split; [done|]. split.
  - intros res -> l Hl. destruct Hout as [Ho _]. by eapply kahn_order_prefix.
  - intros res x n -> Hx. destruct Hout as [Ho _]. by apply (kahn_order_acyclic params nbrs (sorted res)).
Qed.

(** ** A run *)
Definition sort_from (starts : list string) (throws : bool) : TopoParams :=
  mkTopoParams starts None (mkOptions None) None (Some throws) None None None.

Example topo_diamond :
  (topologicalSort diamond_provider (sort_from ["a"] true) 9 (newRun (W:=Z))).2
  = Ok (mkTopo ["a"; "b"; "c"; "d"; "e"] false (mkStats 5 10 5 5) None).
Proof. vm_compute. reflexivity. Qed.

Lemma topological_sort_is_kahn_witness :
  ∃ r' out, settles (topologicalSort diamond_provider (sort_from ["a"] true)) (newRun (W:=Z)) (r', out) ∧
    topo_outcome (sort_from ["a"] true) diamond out ∧
    (∀ res, out = Ok res → ∀ l, kahn_order (sort_from ["a"] true) diamond l →
      l `prefix_of` sorted res ∨ sorted res `prefix_of` l) ∧
    (∀ res x n, out = Ok res → x ∈ sorted res → ¬ walk diamond (S n) x x).
Proof.
  apply (topological_sort_is_kahn diamond_provider (sort_from ["a"] true) diamond
    {["a"; "b"; "c"; "d"; "e"]}).
  - apply diamond_sees.
  - by intros f n [=].
  - by intros s _.
Defined.

(** The edge that an error reports as the witness of a cycle may be on none:
    here [c] points to itself and to [b], and [b -> e] is reported. *)
Definition behind (n : string) : list NeighborEdge :=
  if decide (n = "a") then [mkEdge "b" "x"; mkEdge "c" "x"]
  else if decide (n = "b") then [mkEdge "e" "x"]
  else if decide (n = "c") then [mkEdge "b" "x"; mkEdge "c" "x"] else [].

Definition behind_provider : NeighborProviderPort :=
  NeighborProviderPort.mk (λ n _ _, Ok (behind n)) (λ _, Ok true) sync.

Lemma cycle_witness_on_no_cycle :
  (topologicalSort behind_provider (sort_from ["a"] true) 9 (newRun (W:=Z))).2 = Throw has_cycles ∧
  (_findTopoCycleWitness ["a"; "b"; "c"; "e"] ["a"]
     (_createTopoNeighborIdReader behind_provider (sort_from ["a"] true) ∅) (newRun (W:=Z))).2
  = Ok (Some ("b", "e")) ∧
  ∀ n, ¬ walk behind n "e" "b".
Proof.
  split; [vm_compute; reflexivity|]. split; [vm_compute; reflexivity|]. intros n.
  assert (∀ n x, walk behind n "e" x → x = "e") as He; [|by intros ?%He].
  clear n. intros n x. induction n as [|n IH] in x |- *; [by intros ->%walk_0|].
  intros (y & ->%IH & e & He & _)%walk_S. by apply elem_of_nil in He.
Qed.
