(* ===== verification/LongestPath.v ===== *)
(** Longest paths in directed acyclic graphs: [weightedLongestPath] relaxes the
    edges in topological order. *)
From S2P Require Export TopoSort.
#[local] Open Scope nat_scope.
#[local] Open Scope list_scope.
Import GraphTopology.

Section longest.
Context {C : Type} `{CostLaws C} (nbrs : string → list NeighborEdge).
Context (wt : string → string → string → C) (s : string).

(** One edge, with the weight it has. *)
Definition prolonged (cur : string) (st : Longest (C:=C)) (e : NeighborEdge) : Longest :=
  match l_dist st !! cur with
  | None => st
  | Some d =>
      let alt := step_cost wt cur e d in
      if prolongs (l_prev st) (neighborId e) cur alt (l_dist st !! neighborId e) then
        mkLongest (<[neighborId e := alt]> (l_dist st)) (<[neighborId e := cur]> (l_prev st))
      else st
  end.

Lemma prolongs_false prevs n cur alt best :
  prolongs (C:=C) prevs n cur alt best = false → ∃ b, best = Some b ∧ c_le alt b.
Proof. destruct best as [b|]; [|done]. intros [? _]%orb_false_iff. by exists b. Qed.

Lemma prolongs_true prevs n cur alt b :
  prolongs (C:=C) prevs n cur alt (Some b) = true → c_le b alt.
Proof.
  intros [?|[->%bool_decide_eq_true _]%andb_true_iff]%orb_true_iff; [by apply c_ltb_le|done].
Qed.

(** [pre] was sorted before, [cur] last; [pending] of its edges are left. *)
Record long_inv (pre : list string) (cur : string) (pending : list NeighborEdge)
    (st : Longest) : Prop := {
  lo_start : l_dist st !! s = Some c_zero;
  lo_chain x d : l_dist st !! x = Some d →
    ∃ p, chain (l_prev st) s x p ∧ costed_route nbrs wt s x p d ∧ ∀ z, z ∈ p → z = x ∨ z ∈ pre;
  lo_relaxed y d e : y ∈ pre → l_dist st !! y = Some d → e ∈ nbrs y →
    (y = cur ∧ e ∈ pending) ∨ ∃ d', l_dist st !! neighborId e = Some d' ∧ c_le (step_cost wt y e d) d';
}.

Lemma prolonged_inv pre cur e pending st :
  cur ∈ pre → e ∈ nbrs cur → neighborId e ∉ pre → neighborId e ≠ s →
  long_inv pre cur (e :: pending) st → long_inv pre cur pending (prolonged cur st e).
Proof.
  intros Hcur He Hn Hns Hi. unfold prolonged.
  destruct (l_dist st !! cur) as [d|] eqn:Ed.
  2: { split; [apply (lo_start _ _ _ _ Hi)|apply (lo_chain _ _ _ _ Hi)|].
       intros y dy e' Hy Edy He'. destruct (lo_relaxed _ _ _ _ Hi y dy e' Hy Edy He') as [[-> _]|]; [congruence|].
       by right. }
  set (n := neighborId e) in *. set (alt := step_cost wt cur e d).
  destruct (prolongs _ _ _ _ _) eqn:Hp; split; simpl.
  - rewrite lookup_insert_ne by done. apply (lo_start _ _ _ _ Hi).
  - intros x dx. destruct (lo_chain _ _ _ _ Hi cur d Ed) as (p & Hc & Hr & Hz).
    intros [[<- <-]|[Hne Hx]]%lookup_insert_Some.
    + exists (p ++ [n]). assert (n ∉ p) as Hnp by (intros [->|]%Hz; done). split; [|split].
      * apply (chain_step _ _ _ cur); [by rewrite lookup_insert_eq|by apply chain_insert|done].
      * by apply croute_snoc.
      * intros z [[->|]%Hz| ->%list_elem_of_singleton]%elem_of_app; [by right|by right|by left].
    + destruct (lo_chain _ _ _ _ Hi x dx Hx) as (q & Hcq & Hrq & Hzq). exists q. split; [|done].
      apply chain_insert; [done|]. intros [->|]%Hzq; done.
  - intros y dy e' Hy. rewrite lookup_insert_ne by (intros ->; done). intros Edy He'.
    destruct (lo_relaxed _ _ _ _ Hi y dy e' Hy Edy He') as [[-> [->|Hin]%elem_of_cons]|(d' & Ed' & Hle)].
    + right. exists alt. rewrite Ed in Edy. injection Edy as <-. by rewrite lookup_insert_eq.
    + by left.
    + right. destruct (decide (n = neighborId e')) as [En|Hne].
      * exists alt. rewrite <- En, lookup_insert_eq. split; [done|].
        rewrite <- En in Ed'. rewrite Ed' in Hp. apply prolongs_true in Hp. by trans d'.
      * exists d'. by rewrite lookup_insert_ne.
  - apply (lo_start _ _ _ _ Hi).
  - apply (lo_chain _ _ _ _ Hi).
  - intros y dy e' Hy Edy He'.
    destruct (lo_relaxed _ _ _ _ Hi y dy e' Hy Edy He') as [[-> [->|Hin]%elem_of_cons]|]; [|by left|by right].
    right. rewrite Ed in Edy. injection Edy as <-. by apply prolongs_false in Hp.
Qed.

Lemma prolonged_all pre cur pending st :
  cur ∈ pre → (∀ e, e ∈ nbrs cur → (neighborId e ∉ pre) ∧ neighborId e ≠ s) →
  (∀ e, e ∈ pending → e ∈ nbrs cur) →
  long_inv pre cur pending st → long_inv pre cur [] (foldl (prolonged cur) st pending).
Proof.
  intros Hcur Hn. revert st. induction pending as [|e pending IH]; intros st Hsub Hi; [done|]. simpl.
  destruct (Hn e) as [Hn1 Hn2]; [apply Hsub; by left|].
  apply IH; [intros e' He'; apply Hsub; by right|].
  apply prolonged_inv; [done|apply Hsub; by left|done..].
Qed.

Definition prolonged_from (st : Longest) (y : string) : Longest :=
  match l_dist st !! y with None => st | Some _ => foldl (prolonged y) st (nbrs y) end.

Lemma prolonged_from_inv pre cur y st :
  (∀ e, e ∈ nbrs y → (neighborId e ∉ pre ++ [y]) ∧ neighborId e ≠ s) →
  long_inv pre cur [] st → long_inv (pre ++ [y]) y [] (prolonged_from st y).
Proof.
  intros Hn Hi. unfold prolonged_from.
  assert (long_inv (pre ++ [y]) y (nbrs y) st) as Hi'.
  { split; [apply (lo_start _ _ _ _ Hi)| |].
    - intros x d Hx. destruct (lo_chain _ _ _ _ Hi x d Hx) as (p & ? & ? & Hz). exists p.
      do 2 (split; [done|]). intros z [->|]%Hz; [by left|]. right. set_solver.
    - intros z d e [Hz| ->%list_elem_of_singleton]%elem_of_app Ez He; [|by left].
      destruct (lo_relaxed _ _ _ _ Hi z d e Hz Ez He) as [[_ []%elem_of_nil]|]. by right. }
  destruct (l_dist st !! y) as [d|] eqn:Ey; [apply prolonged_all; set_solver|].
  split; [apply (lo_start _ _ _ _ Hi')|apply (lo_chain _ _ _ _ Hi')|].
  intros z d e Hz Ez He. destruct (lo_relaxed _ _ _ _ Hi' z d e Hz Ez He) as [[-> _]|]; [congruence|].
  by right.
Qed.

Lemma long_inv_start cur : long_inv [] cur [] (mkLongest {[s := c_zero]} ∅).
Proof.
  split; simpl; [by rewrite lookup_singleton_eq| |by intros y d e []%elem_of_nil].
  intros x d [<- <-]%lookup_singleton_Some. exists [s]. split; [constructor|]. split; [constructor|].
  intros z ->%list_elem_of_singleton. by left.
Qed.

(** All sums are matched when all that is reached was relaxed. *)
Lemma long_inv_longest pre cur st x c :
  long_inv pre cur [] st → (∀ y, reachable nbrs s y → y ∈ pre) →
  costs nbrs wt s x c → ∃ d, l_dist st !! x = Some d ∧ c_le c d.
Proof.
  intros Hi Hall. induction 1 as [|x c e Hc (d & Ed & Hle) He].
  - exists c_zero. split; [apply (lo_start _ _ _ _ Hi)|done].
  - destruct (lo_relaxed _ _ _ _ Hi x d e) as [[_ []%elem_of_nil]|(d' & Ed' & Hle')]; [|done..|].
    + apply Hall. by eapply costs_reachable.
    + exists d'. split; [done|]. trans (step_cost wt x e d); [by apply c_add_le_l|done].
Qed.
End longest.

Section run.
Context {C : Type} `{CostLaws C} (provider : NeighborProviderPort) (params : GraphPathFinding.PathParams).
Context (nbrs : string → list NeighborEdge) (U : gset string) (wt : string → string → string → C).
#[local] Abbreviation s0 := (GraphPathFinding.start params).
#[local] Abbreviation goal := (GraphPathFinding.goal params).
#[local] Abbreviation options := (GraphPathFinding.options params).
#[local] Abbreviation maxNodes := (GraphPathFinding.maxNodes params).
#[local] Abbreviation order := (kahn_order (longest_topo params) nbrs).

Lemma longest_reached x : reached (longest_topo params) nbrs x ↔ reachable nbrs s0 x.
Proof.
  unfold reached. simpl. split; [by intros (s & ->%list_elem_of_singleton & ?)|].
  intros Hx. exists s0. split; [by left|done].
Qed.

(** No edge leads back to the start or to what was sorted before. *)
Lemma order_forward l pre y post e :
  order l → l = pre ++ y :: post → e ∈ nbrs y → (neighborId e ∉ pre ++ [y]) ∧ neighborId e ≠ s0.
Proof.
  intros Hl E He. pose proof (elem_of_edge nbrs e y He) as Hye.
  assert (y ∈ l) as Hy by (rewrite E; set_solver).
  destruct (Hl _ _ _ E) as [(Hr & _) _].
  assert (order (pre ++ [y])) as Hpre.
  { intros pre' z post' E'. apply (Hl pre' z (post' ++ post)).
    rewrite E. change (y :: post) with ([y] ++ post). by rewrite (app_assoc pre), E', <- app_assoc. }
  split; [by apply (kahn_order_last (longest_topo params) nbrs pre y)|]. intros Es.
  apply longest_reached in Hr as [n Hn].
  apply (kahn_order_acyclic (longest_topo params) nbrs l y n Hl Hy).
  apply (walk_app nbrs 1 n y s0 y); [|done]. rewrite <- Es. econstructor; [constructor|done].
Qed.

Lemma order_long_inv l : order l → ∃ cur,
  long_inv nbrs wt s0 l cur [] (foldl (prolonged_from nbrs wt) (mkLongest {[s0 := c_zero]} ∅) l).
Proof.
  intros Hl.
  enough (∀ post pre cur st, l = pre ++ post → long_inv nbrs wt s0 pre cur [] st →
    ∃ cur', long_inv nbrs wt s0 l cur' [] (foldl (prolonged_from nbrs wt) st post)) as Hgen.
  { apply (Hgen l [] ""); [done|apply long_inv_start]. }
  induction post as [|y post IH]; intros pre cur st E Hi; simpl.
  - rewrite app_nil_r in E. subst. by exists cur.
  - apply (IH (pre ++ [y]) y); [by rewrite <- app_assoc|]. apply (prolonged_from_inv _ _ _ _ cur); [|done].
    intros e He. by apply (order_forward l pre y post).
Qed.

Definition longest (c : C) : Prop := ∀ c', costs nbrs wt s0 goal c' → c_le c' c.

(** The node limit does not cut anything off. *)
Definition roomy : Prop := lt_limit (Z.of_nat (size ({[s0]} ∪ U : gset string))) maxNodes = true.

Definition longest_outcome (out : result (list string * C * TraversalStats)) : Prop :=
  match out with
  | Ok (path, c, _) => costed_route nbrs wt s0 goal path c ∧ (roomy → longest c)
  | Throw e =>
      (e = no_path ∧ (roomy → ¬ reachable nbrs s0 goal)) ∨
      (e = has_cycles ∧ cyclic (longest_topo params) nbrs)
  end.

Context (Hsees : sees provider options (GraphPathFinding.direction params) nbrs U).
Context (Hsignal : unset (GraphPathFinding.signal params)).

Lemma order_room l : order l → roomy → lt_limit (Z.of_nat (length l)) maxNodes = true.
Proof.
  intros Hl. unfold roomy. destruct maxNodes as [n|]; [|done]. simpl. rewrite !Z.ltb_lt.
  enough (length l ≤ size ({[s0]} ∪ U : gset string)) by lia.
  rewrite <- (size_list_to_set (C:=gset string) l) by by eapply kahn_order_nodup.
  apply subseteq_size. intros x Hx%elem_of_list_to_set.
  apply list_elem_of_split in Hx as (pre & post & E). destruct (Hl _ _ _ E) as [(Hr & _) _].
  apply (reached_universe provider _ nbrs U) in Hr; [|done]. unfold topo_universe in Hr.
  simpl in Hr. set_solver.
Qed.

#[local] Abbreviation ok w := (caches_ok provider options w).

Section effects.
Context (w : GraphPathFinding.Weights (C:=C)) (weight : WeightFn C).
Context (Hweight : ∀ x y l, yields (ok w) (weight x y l) (wt x y l)).

Lemma lengthen_yields y st e : yields (ok w) (lengthen weight y st e) (prolonged wt y st e).
Proof.
  unfold lengthen, prolonged. eapply yields_bind; [apply Hweight|].
  destruct (l_dist st !! y); [|apply yields_ret]. unfold step_cost.
  destruct (prolongs _ _ _ _ _); apply yields_ret.
Qed.

Lemma lengthen_from_yields edges st y :
  edges !! y = Some (nbrs y) →
  yields (ok w) (lengthen_from provider params (Some edges) weight st y) (prolonged_from nbrs wt st y).
Proof.
  intros E. unfold lengthen_from, prolonged_from. destruct (l_dist st !! y); [|apply yields_ret].
  eapply yields_bind; [apply yields_ret|]. rewrite E. simpl.
  eapply yields_bind; [apply caches_yields; [done|apply count_edges_yields]|].
  apply for_fold_yields, lengthen_yields.
Qed.
End effects.

Lemma weightedLongestPath_outcome (w : GraphPathFinding.Weights) (r : Run C) :
  weighs w wt → hasNode provider s0 = Ok true →
  ∃ r' out, settles (weightedLongestPath provider params w) r (r', out) ∧ longest_outcome out.
Proof.
  intros Hw Hstart.
  destruct (resolveWeightFn_yields provider options w wt Hw) as (weight & Ew & Hy).
  refine (fresh_outcome (ok w) _ longest_outcome (caches_ok_new provider options w) _ r).
  rewrite Ew. eapply tries_bind_yields; [apply lift_ok_yields|].
  eapply tries_bind_yields; [apply caches_yields; [|by apply validateStart_yields]|].
  { intros r1. unfold validateStart. by rewrite Hstart. }
  eapply tries_bind with (P := topo_outcome (longest_topo params) nbrs).
  - intros r1 Hr1.
    destruct (topologicalSort_outcome provider (longest_topo params) nbrs U Hsees Hsignal r1)
      as (r2 & out & Hset & [Ers Ewt] & Hout); [by intros s ->%list_elem_of_singleton|].
    exists r2, out. split; [done|]. split; [|done]. destruct Hr1 as [Hm Hc].
    split; [unfold memo_ok; by rewrite Ers|by rewrite Ewt].
  - intros res (Hord & _ & Hct & Hcf & Hedges). apply tries_attempts.
    destruct (Hedges eq_refl) as (edges & -> & Hed).
    destruct (order_long_inv (sorted res) Hord) as [cur Hi].
    eapply attempts_bind_yields.
    { apply for_fold_yields_in. intros st y Hy'. apply lengthen_from_yields; [done|].
      apply Hed. apply list_elem_of_split in Hy' as (pre & post & E).
      by destruct (Hord _ _ _ E) as [(Hr & _) _]. }
    set (st := foldl _ _ _) in *.
    assert (roomy → ∀ c, costs nbrs wt s0 goal c → ∃ d, l_dist st !! goal = Some d ∧ c_le c d) as Hlong.
    { intros Hroom c. apply (long_inv_longest _ _ _ _ _ _ _ _ Hi). intros y Hr. apply Hcf.
      - destruct (hasCycle res); [|done]. by destruct (Hct eq_refl) as [_ ?].
      - by apply order_room.
      - by apply longest_reached. }
    destruct (l_dist st !! goal) as [d|] eqn:Ed.
    + destruct (lo_chain _ _ _ _ _ _ _ Hi goal d Ed) as (p & Hc & Hr & _).
      rewrite (reconstructPath_chain _ _ _ p Hc).
      eapply attempts_bind_yields; [apply lift_ok_yields|]. intros r1 Hr1.
      eexists _, _. split; [done|]. split; [done|]. split; [done|]. intros Hroom c Hcost.
      by destruct (Hlong Hroom c Hcost) as (d' & [= <-] & Hle).
    + apply attempts_throw. left. split; [done|]. intros Hroom [n Hn].
      destruct (walk_costs nbrs wt s0 n goal Hn) as [c Hcost].
      by destruct (Hlong Hroom c Hcost) as (d' & ? & _).
  - intros e (-> & Hc & _). by right.
Qed.
End run.

(** On a finite graph, without aborts and failing weights,
    [weightedLongestPath] returns a route from the start to the goal with the
    cost of its edges. When the node limit exceeds the number of nodes, no route
    costs more, and the call throws only if the goal cannot be reached or what
    is reached has a cycle. *)
Theorem longest_path_is_longest {C} `{CostLaws C} (provider : NeighborProviderPort)
    (params : GraphPathFinding.PathParams) nbrs U wt w (r : Run C) :
  sees provider (GraphPathFinding.options params) (GraphPathFinding.direction params) nbrs U →
  unset (GraphPathFinding.signal params) → weighs w wt →
  hasNode provider (GraphPathFinding.start params) = Ok true →
  ∃ r' out, settles (weightedLongestPath provider params w) r (r', out) ∧
    longest_outcome params nbrs U wt out.
Proof. intros. by apply weightedLongestPath_outcome. Qed.

(** ** A run *)

(** s -> a -> g is longer than s -> g. *)
Definition triangle (n : string) : list NeighborEdge :=
  if decide (n = "s") then [mkEdge "g" "1"; mkEdge "a" "1"]
  else if decide (n = "a") then [mkEdge "g" "3"] else [].

Definition triangle_provider : NeighborProviderPort :=
  NeighborProviderPort.mk (λ n _ _, Ok (triangle n)) (λ _, Ok true) async_local.

Lemma triangle_sees o d : sees triangle_provider o d triangle {["s"; "a"; "g"]}.
Proof. split; [done|]. intros n e. unfold triangle. repeat case_decide; set_solver. Qed.

Definition label_weights : GraphPathFinding.Weights :=
  GraphPathFinding.mkWeights (Some (λ _ _ l, Ok (label_weight l))) None.

Definition to_goal (max : option limit) : GraphPathFinding.PathParams :=
  GraphPathFinding.mkPathParams "s" "g" None (mkOptions None) max None None.

Lemma longest_path_is_longest_witness :
  ∃ r' out, settles (weightedLongestPath triangle_provider (to_goal None) label_weights) newRun (r', out) ∧
    longest_outcome (to_goal None) triangle {["s"; "a"; "g"]} (λ _ _ l, label_weight l) out.
Proof.
  apply (longest_path_is_longest triangle_provider (to_goal None) triangle {["s"; "a"; "g"]}
    (λ _ _ l, label_weight l) label_weights newRun).
  - apply triangle_sees.
  - by intros f n [=].
  - by intros x y l.
  - reflexivity.
Defined.

(** With a node limit the same call returns a shorter route, and nothing tells
    it from a longest one. *)
Lemma longest_path_truncated :
  (weightedLongestPath triangle_provider (to_goal None) label_weights 9 newRun).2
  = Ok (["s"; "a"; "g"], 4%Z, mkStats 3 3 0 0) ∧
  (weightedLongestPath triangle_provider (to_goal (Some (Upto 1))) label_weights 9 newRun).2
  = Ok (["s"; "g"], 1%Z, mkStats 1 2 0 0).
Proof. split; vm_compute; reflexivity. Qed.
