(* ===== verification/Ancestors.v ===== *)
(** Common ancestors: [commonAncestors] counts in how many backward searches a
    node was found. *)
From S2P Require Export TopoSort.
#[local] Open Scope nat_scope.
#[local] Open Scope list_scope.
Import GraphTopology.

Lemma push_results_infinite common entries : push_results Infinite common entries = common ++ entries.
Proof.
  revert common. induction entries as [|x entries IH]; intros common; [by rewrite app_nil_r|].
  simpl. by rewrite IH, <- app_assoc.
Qed.

(** At least one result is pushed before the limit is looked at. *)
Lemma push_results_upto n common entries :
  push_results (Upto n) common entries =
  common ++ take (Z.to_nat (n - Z.of_nat (length common)) `max` 1) entries.
Proof.
  revert common. induction entries as [|x entries IH]; intros common; [by rewrite take_nil, app_nil_r|].
  simpl. rewrite length_app. simpl. destruct (Z.ltb_spec (Z.of_nat (length common + 1)) n); simpl.
  - rewrite IH, length_app, <- app_assoc. simpl. f_equal.
    replace (Z.to_nat (n - Z.of_nat (length common)) `max` 1)
      with (S (Z.to_nat (n - Z.of_nat (length common + 1)) `max` 1)) by lia. done.
  - replace (Z.to_nat (n - Z.of_nat (length common)) `max` 1) with 1 by lia. simpl. by rewrite take_0.
Qed.

Lemma count_all_spec l counts x :
  NoDup l →
  default 0%Z (foldl count_one counts l !! x) =
  (default 0%Z (counts !! x) + if decide (x ∈ l) then 1 else 0)%Z.
Proof.
  revert counts. induction l as [|y l IH]; intros counts Hnd.
  { rewrite decide_False by apply not_elem_of_nil. simpl. lia. }
  apply NoDup_cons in Hnd as [Hy Hnd]. simpl foldl. rewrite IH by done. unfold count_one.
  destruct (decide (y = x)) as [->|Hne].
  - rewrite lookup_insert_eq, decide_False, decide_True by (done || by left). simpl. lia.
  - rewrite lookup_insert_ne by done. f_equal. apply decide_ext. rewrite elem_of_cons. naive_solver.
Qed.

(** All of [vs] contain [x] if as many do as there are. *)
Lemma filter_all (vs : list (list string)) x :
  length (filter (λ v, x ∈ v) vs) = length vs ↔ ∀ v, v ∈ vs → x ∈ v.
Proof.
  rewrite <- Forall_forall. induction vs as [|v vs IH]; [done|].
  rewrite Forall_cons, filter_cons. pose proof (length_filter (λ v, x ∈ v) vs).
  case_decide; simpl; [rewrite <- IH; naive_solver lia|]. split; [lia|tauto].
Qed.

Section ancestors.
Context {W : Type} (provider : NeighborProviderPort) (params : AncestorParams).
Context (nbrs : string → list NeighborEdge) (U : gset string).
Context (Hsees : sees provider (a_options params) DIn nbrs U).
Context (Hsignal : unset (a_signal params)).
#[local] Abbreviation maxDepth := (default DEFAULT_MAX_DEPTH (a_maxDepth params)).

(** [x] is [n] or above it, within the depth limit. *)
Definition ancestor (n x : string) : Prop :=
  ∃ k, walk nbrs k n x ∧ le_limit (Z.of_nat k) maxDepth = true.

(** The default node limit of the searches does not cut anything off. *)
Definition holds_all (n : string) : Prop :=
  lt_limit (Z.of_nat (size ({[n]} ∪ U : gset string))) DEFAULT_MAX_NODES = true.

Definition ancestor_params (n : string) : GraphTraversal.GraphTraversalStreamParams :=
  GraphTraversal.mkParams n (Some DIn) (a_options params) None (Some maxDepth) (a_signal params) None.

#[local] Abbreviation any := (λ _ : Run W, True).

Lemma ancestors_found n :
  hasNode provider n = Ok true → holds_all n →
  ends any (λ fuel, GraphTraversal.bfs provider fuel (ancestor_params n))
    (λ found, NoDup (fst found) ∧ ∀ x, x ∈ fst found ↔ ancestor n x).
Proof.
  intros Hn Hroom r _. set (run := GraphTraversal.createPrimitiveRun (ancestor_params n)).
  assert (quiet run) as Hquiet by (split; simpl; [done|by intros h f|by intros h f]).
  destruct (collect_ends (W:=W) provider (GraphTraversal.options run)
    (GraphTraversal._bfsStream provider run) (λ l, NoDup l ∧ visit_order run nbrs l))
    with (r := r) as (r' & l & st & Hs & _ & [Hnd Hv] & _).
  { eapply ends_mono; [|by eapply (bfsStream_ends provider run nbrs U)].
    by intros [V l] (-> & Hnd & Hv). }
  exists r', (l, st). split; [done|]. split; [done|]. split; [done|]. simpl. intros x. split.
  - intros Hx. destruct (vo_within _ _ _ Hv x Hx) as (k & [Hw _] & Hk). by exists k.
  - intros (k & Hw & Hk). apply (vo_all _ _ _ Hv x k); [|done..]. unfold full. simpl.
    unfold holds_all in Hroom. simpl in Hroom. apply Z.ltb_lt in Hroom.
    rewrite not_false_iff_true. apply Z.ltb_lt. eapply Z.le_lt_trans; [|exact Hroom].
    apply inj_le. rewrite <- (size_list_to_set (C:=gset string) l) by done.
    apply subseteq_size. intros y Hy%elem_of_list_to_set.
    destruct (vo_within _ _ _ Hv y Hy) as (j & [Hj _] & _).
    change (y ∈ universe run U). by eapply walk_universe.
Qed.

Definition search_found (n : string) (v : list string) : Prop := NoDup v ∧ ∀ x, x ∈ v ↔ ancestor n x.

(** After the searches from [ns] every count is the number of searches that
    found the node. *)
Definition counted (ns : list string) (acc : gmap string Z * TraversalStats) : Prop :=
  ∃ vs, Forall2 search_found ns vs ∧
    ∀ x, default 0%Z (fst acc !! x) = Z.of_nat (length (filter (λ v, x ∈ v) vs)).

Lemma count_ancestors_ends n ns acc :
  hasNode provider n = Ok true → holds_all n → counted ns acc →
  ends any (λ fuel, count_ancestors provider params fuel acc n) (counted (ns ++ [n])).
Proof.
  intros Hn Hroom (vs & Hvs & Hc). destruct acc as [counts total]. unfold count_ancestors.
  apply (ends_bind any (λ _, checkAborted (a_signal params)) _ (λ _, True)).
  { intros r _. destruct (checkAborted (a_signal params) r) as [r' [[]|e]] eqn:E.
    - exists r', (). rewrite <- E. split; [apply settles_const|done].
    - exfalso. destruct (a_signal params) as [f|] eqn:Es; [|done].
      simpl in E. unfold mbind, step_bind, get, put in E. simpl in E. by rewrite (Hsignal f) in E. }
  intros _ _. eapply ends_bind; [by apply ancestors_found|]. intros [v st] [Hnd Hv]. simpl in *.
  eapply ends_yields; [apply yields_ret|]. exists (vs ++ [v]). split; [by apply Forall2_app; [|constructor]|].
  intros x. simpl. rewrite count_all_spec, Hc, filter_app, length_app by done.
  rewrite filter_cons. case_decide; simpl; lia.
Qed.

(** Ancestors of all nodes; a node counts as its own. *)
Definition common (x : string) : Prop := ∀ n, n ∈ a_nodes params → ancestor n x.

Definition all_common (l : list string) : Prop :=
  StronglySorted (λ x y, str_ltb x y = true) l ∧ ∀ x, x ∈ l ↔ a_nodes params ≠ [] ∧ common x.

Lemma counted_common acc x :
  a_nodes params ≠ [] → counted (a_nodes params) acc →
  fst acc !! x = Some (Z.of_nat (length (a_nodes params))) ↔ common x.
Proof.
  intros Hne (vs & Hvs & Hc). specialize (Hc x). pose proof (Forall2_length _ _ _ Hvs) as Hl.
  assert (common x ↔ ∀ v, v ∈ vs → x ∈ v) as ->.
  { unfold common. split; intros Hall.
    - intros v [i Hi]%list_elem_of_lookup. destruct (Forall2_lookup_r _ _ _ _ _ Hvs Hi) as (n & Hn & _ & Hx).
      apply Hx, Hall. by eapply list_elem_of_lookup_2.
    - intros n [i Hi]%list_elem_of_lookup. destruct (Forall2_lookup_l _ _ _ _ _ Hvs Hi) as (v & Hv & _ & Hx).
      apply Hx, Hall. by eapply list_elem_of_lookup_2. }
  rewrite <- filter_all. destruct (fst acc !! x) as [d|]; simpl in Hc.
  - rewrite Hc, Hl. split; [intros [= E]; lia|by intros ->].
  - split; [done|]. intros E. rewrite E, <- Hl in Hc. destruct (a_nodes params); [done|simpl in Hc; lia].
Qed.

Lemma entries_common acc :
  a_nodes params ≠ [] → counted (a_nodes params) acc →
  all_common (js_sort (compare_key fst)
    (filter (λ entry, entry.2 = Z.of_nat (length (a_nodes params))) (map_to_list (fst acc)))).*1.
Proof.
  intros Hne Hc. set (es := filter _ _). split.
  - assert (Sorted (λ p q, compare_key fst p q < 0)%Z (js_sort (compare_key fst) es)) as Hs.
    { apply sort_key_strict; [apply NoDup_filter, NoDup_map_to_list|].
      intros [x c] [y d] [_ Hx]%list_elem_of_filter [_ Hy]%list_elem_of_filter E. simpl in E. subst y.
      apply elem_of_map_to_list in Hx, Hy. congruence. }
    apply Sorted_StronglySorted; [intros x y z; apply (ltb_trans (ltb:=str_ltb))|].
    refine (Sorted_fmap fst _ _ _ _ Hs). intros [x c] [y d]. unfold compare_key, compareStrings. simpl.
    by destruct (str_ltb x y); [|destruct (str_ltb y x)].
  - intros x. rewrite list_elem_of_fmap. split.
    + intros ([y c] & -> & Hin%elem_of_js_sort). split; [done|].
      apply list_elem_of_filter in Hin as [Ec Hin%elem_of_map_to_list]. simpl in Ec. subst c.
      by apply (counted_common acc).
    + intros [_ Hx%(counted_common acc)]; [|done..]. eexists (x, _). split; [done|].
      apply elem_of_js_sort, list_elem_of_filter. split; [|by apply elem_of_map_to_list]. done.
Qed.

Lemma commonAncestors_ends :
  (∀ n, n ∈ a_nodes params → hasNode provider n = Ok true ∧ holds_all n) →
  ends any (commonAncestors provider params) (λ res, ∃ all, all_common all ∧
    fst res = push_results (default (Upto 100) (maxResults params)) [] all).
Proof.
  intros Hnodes. unfold commonAncestors. destruct (a_nodes params) as [|n0 ns] eqn:En.
  - eapply ends_yields; [apply yields_ret|]. exists []. split; [|done]. split; [constructor|].
    intros x. rewrite elem_of_nil, En. naive_solver.
  - eapply ends_bind with (P := counted (n0 :: ns)).
    + apply for_fold_ends.
      * exists []. split; [constructor|]. intros x. simpl. by rewrite lookup_empty.
      * intros pre x post acc E Hc.
        destruct (Hnodes x) as [Hx Hroom]; [rewrite E; set_solver|]. by apply count_ancestors_ends.
    + intros acc Hc. eapply ends_yields; [apply yields_ret|]. eexists. split; [|done].
      rewrite <- En in Hc |- *. apply entries_common; [by rewrite En|done].
Qed.
End ancestors.

(** On a finite graph of fewer than 100000 nodes, without aborts,
    [commonAncestors] returns the nodes from which every given node can be
    reached within the depth limit, ordered by id: the first [maxResults] of
    them, but at least one if there is one. *)
Theorem common_ancestors_are_common {W} (provider : NeighborProviderPort) (params : AncestorParams)
    nbrs U (r : Run W) :
  sees provider (a_options params) DIn nbrs U → unset (a_signal params) →
  (∀ n, n ∈ a_nodes params → hasNode provider n = Ok true ∧ holds_all U n) →
  ∃ r' l st all, settles (commonAncestors provider params) r (r', Ok (l, st)) ∧
    all_common params nbrs all ∧
    l = match default (Upto 100) (maxResults params) with
        | Upto n => take (Z.to_nat n `max` 1) all
        | Infinite => all
        end.
Proof.
  intros Hs Hu Hn.
  destruct (commonAncestors_ends provider params nbrs U Hs Hu Hn r I) as (r' & [l st] & Hset & _ & all & Hall & E).
  exists r', l, st, all. split; [done|]. split; [done|]. simpl in E. rewrite E.
  destruct (default _ _) as [n|]; [|by rewrite push_results_infinite].
  rewrite push_results_upto. simpl. by rewrite Z.sub_0_r.
Qed.

(** ** A run *)
Definition above_diamond (max : option limit) : AncestorParams :=
  mkAncestorParams ["b"; "c"] (mkOptions None) None max None.

(** [diamond] is read here as the graph of incoming edges. *)
Example common_of_diamond :
  (commonAncestors diamond_provider (above_diamond None) 9 (newRun (W:=Z))).2
    = Ok (["d"; "e"], mkStats 6 4 0 6) ∧
  (commonAncestors diamond_provider (above_diamond (Some (Upto 0))) 9 (newRun (W:=Z))).2
    = Ok (["d"], mkStats 6 4 0 6).
Proof. split; vm_compute; reflexivity. Qed.

Lemma common_ancestors_are_common_witness :
  ∃ r' l st all, settles (commonAncestors diamond_provider (above_diamond None)) (newRun (W:=Z)) (r', Ok (l, st)) ∧
    all_common (above_diamond None) diamond all ∧ l = take 100 all.
Proof.
  apply (common_ancestors_are_common diamond_provider (above_diamond None) diamond
    {["a"; "b"; "c"; "d"; "e"]}).
  - apply diamond_sees.
  - by intros f n [=].
  - intros n [->|[->|[]%elem_of_nil]%elem_of_cons]%elem_of_cons; split; vm_compute; reflexivity.
Defined.
