(* ===== verification/Adjacency.v ===== *)
(** Adjacency of a materialized state: the maps built from the alive edges
    ([controllers/MaterializeHelpers.ts]) and the provider that serves them to
    the searches ([query/AdjacencyNeighborProvider.ts]). *)
From S2P Require Export WarpState Walks.
#[local] Open Scope list_scope.

Module MaterializeHelpers.

(* @src domain/services/controllers/MaterializeHelpers.ts MaterializeAdjacency 126-129 *)
Record MaterializeAdjacency := mk {
  outgoing : gmap string (list NeighborEdge);
  incoming : gmap string (list NeighborEdge);
}.

(** [ensureList(map, key).push(edge)] *)
(* @src domain/services/controllers/MaterializeHelpers.ts ensureList *)
Definition ensureList_push (m : gmap string (list NeighborEdge)) (key : string) (e : NeighborEdge)
    : gmap string (list NeighborEdge) :=
  <[key := default [] (m !! key) ++ [e]]> m.

(* @src domain/services/controllers/MaterializeHelpers.ts sortNeighborList *)
Definition sortNeighborList (l : list NeighborEdge) : list NeighborEdge :=
  js_sort (λ a b,
    if decide (neighborId a ≠ neighborId b)
    then (if str_ltb (neighborId a) (neighborId b) then -1 else 1)%Z
    else (if str_ltb (label a) (label b) then -1 else if str_ltb (label b) (label a) then 1 else 0)%Z) l.

(** The body of the loop over the alive edges. *)
Definition add_edge (s : WarpState.WarpState) (adj : MaterializeAdjacency) (edgeKey : string)
    : MaterializeAdjacency :=
  let e := decodeEdgeKey edgeKey in
  if negb (ORSet.contains (WarpState.nodeAlive s) (ep_from e)) then adj
  else if negb (ORSet.contains (WarpState.nodeAlive s) (ep_to e)) then adj
  else mk (ensureList_push (outgoing adj) (ep_from e) (mkEdge (ep_to e) (ep_label e)))
          (ensureList_push (incoming adj) (ep_to e) (mkEdge (ep_from e) (ep_label e))).

(* @src domain/services/controllers/MaterializeHelpers.ts buildAdjacency *)
Definition buildAdjacency (s : WarpState.WarpState) : MaterializeAdjacency :=
  let adj := foldl (add_edge s) (mk ∅ ∅) (ORSet.elements (WarpState.edgeAlive s)) in
  mk (sortNeighborList <$> outgoing adj) (sortNeighborList <$> incoming adj).
End MaterializeHelpers.

Module AdjacencyNeighborProvider.

(* @src domain/services/query/AdjacencyNeighborProvider.ts edgeCmp *)
Definition edgeCmp (a b : NeighborEdge) : Z :=
  if str_ltb (neighborId a) (neighborId b) then -1
  else if str_ltb (neighborId b) (neighborId a) then 1
  else if str_ltb (label a) (label b) then -1
  else if str_ltb (label b) (label a) then 1
  else 0.

(* @src domain/services/query/AdjacencyNeighborProvider.ts sortAdjacencyMap *)
Definition sortAdjacencyMap (adjMap : gmap string (list NeighborEdge))
    : gmap string (list NeighborEdge) :=
  js_sort edgeCmp <$> adjMap.

(* @src domain/services/query/AdjacencyNeighborProvider.ts filterByLabels *)
Definition filterByLabels (edges : list NeighborEdge) (labels : option (list string))
    : list NeighborEdge :=
  match labels with None => edges | Some ls => filter (λ e, label e ∈ ls) edges end.

(** Equal entries advance both cursors. *)
(* @src domain/services/query/AdjacencyNeighborProvider.ts mergeSorted *)
Fixpoint mergeSorted (a b : list NeighborEdge) : list NeighborEdge :=
  match a with
  | [] => b
  | ai :: a' =>
      (fix inner (b : list NeighborEdge) : list NeighborEdge :=
        match b with
        | [] => a
        | bj :: b' =>
            let cmp := edgeCmp ai bj in
            if (cmp <=? 0)%Z then ai :: mergeSorted a' (if (0 <=? cmp)%Z then b' else b)
            else bj :: inner b'
        end) b
  end.

(* @src domain/services/query/AdjacencyNeighborProvider.ts AdjacencyNeighborProvider 55-58 *)
Record AdjacencyNeighborProvider := mk {
  _outgoing : gmap string (list NeighborEdge);
  _incoming : gmap string (list NeighborEdge);
  _aliveNodes : gset string;
}.

(* @src domain/services/query/AdjacencyNeighborProvider.ts constructor *)
Definition new (outgoing incoming : gmap string (list NeighborEdge)) (aliveNodes : option (gset string))
    : result AdjacencyNeighborProvider :=
  match aliveNodes with
  | None => Throw (Err "QueryError" "E_ADJACENCY_NO_ALIVE_NODES")
  | Some aliveNodes => Ok (mk (sortAdjacencyMap outgoing) (sortAdjacencyMap incoming) aliveNodes)
  end.

(* @src domain/services/query/AdjacencyNeighborProvider.ts _filteredEdges *)
Definition _filteredEdges (adjMap : gmap string (list NeighborEdge)) (nodeId : string)
    (labels : option (list string)) : list NeighborEdge :=
  filterByLabels (default [] (adjMap !! nodeId)) labels.

(* @src domain/services/query/AdjacencyNeighborProvider.ts _resolveEdges *)
Definition _resolveEdges (p : AdjacencyNeighborProvider) (nodeId : string) (direction : Direction)
    (labels : option (list string)) : list NeighborEdge :=
  match direction with
  | DOut => _filteredEdges (_outgoing p) nodeId labels
  | DIn => _filteredEdges (_incoming p) nodeId labels
  | DBoth => mergeSorted (_filteredEdges (_outgoing p) nodeId labels)
                         (_filteredEdges (_incoming p) nodeId labels)
  end.

(* @src domain/services/query/AdjacencyNeighborProvider.ts getNeighbors *)
Definition getNeighbors (p : AdjacencyNeighborProvider) (nodeId : string) (direction : Direction)
    (options : NeighborOptions) : result (list NeighborEdge) :=
  Ok (_resolveEdges p nodeId direction (labels options)).

(* @src domain/services/query/AdjacencyNeighborProvider.ts hasNode *)
Definition hasNode (p : AdjacencyNeighborProvider) (nodeId : string) : result bool :=
  Ok (bool_decide (nodeId ∈ _aliveNodes p)).

(* @src domain/services/query/AdjacencyNeighborProvider.ts latencyClass *)
Definition port (p : AdjacencyNeighborProvider) : NeighborProviderPort.NeighborProviderPort :=
  NeighborProviderPort.mk (getNeighbors p) (hasNode p) sync.
End AdjacencyNeighborProvider.

(** ** Order of the edges *)
Section order.
Import AdjacencyNeighborProvider.

Lemma edgeCmp_pair a b :
  edgeCmp a b = cmp_step str_ltb (neighborId a) (neighborId b) (compareStrings (label a) (label b)).
Proof.
  unfold edgeCmp, cmp_step. case_decide as E; [rewrite E, !ltb_irrefl; done|].
  rewrite (ltb_total (neighborId b)) by done. by destruct (str_ltb _ _).
Qed.

#[export] Instance edgeCmp_laws : CompareLaws edgeCmp.
Proof.
  pose proof (cmp_pair_laws str_ltb compareStrings compareStrings_laws) as [Heq Hopp Htr].
  split.
  - intros [x u] [y v]. rewrite edgeCmp_pair. specialize (Heq (x, u) (y, v)). simpl in *. naive_solver.
  - intros [x u] [y v]. rewrite !edgeCmp_pair. apply (Hopp (x, u) (y, v)).
  - intros [x u] [y v] [z w]. rewrite !edgeCmp_pair. apply (Htr (x, u) (y, v) (z, w)).
Qed.

Lemma sortNeighborList_edgeCmp l : MaterializeHelpers.sortNeighborList l = js_sort edgeCmp l.
Proof.
  unfold MaterializeHelpers.sortNeighborList, js_sort. induction l as [|x l IH]; [done|]. simpl. rewrite IH.
  generalize (foldr (sort_insert edgeCmp) [] l). clear. intros l.
  induction l as [|y l IH]; [done|]. simpl. rewrite IH, (edgeCmp_pair x y). unfold cmp_step, compareStrings.
  destruct (decide (neighborId x = neighborId y)) as [E|E].
  - by rewrite decide_False by tauto.
  - by rewrite decide_True by done.
Qed.

Lemma js_sort_twice l : js_sort edgeCmp (js_sort edgeCmp l) = js_sort edgeCmp l.
Proof. apply (js_sort_unique edgeCmp), js_sort_perm. Qed.

Lemma mergeSorted_nil_r a : mergeSorted a [] = a.
Proof. by destruct a. Qed.

Lemma mergeSorted_cons x a y b :
  mergeSorted (x :: a) (y :: b) =
  if (edgeCmp x y <=? 0)%Z then x :: mergeSorted a (if (0 <=? edgeCmp x y)%Z then b else y :: b)
  else y :: mergeSorted (x :: a) b.
Proof. done. Qed.

Lemma elem_of_mergeSorted a b e : e ∈ mergeSorted a b ↔ e ∈ a ∨ e ∈ b.
Proof.
  revert b. induction a as [|x a IHa]; intros b; [simpl; rewrite elem_of_nil; tauto|].
  induction b as [|y b IHb]; [rewrite mergeSorted_nil_r, elem_of_nil; tauto|].
  rewrite mergeSorted_cons. destruct (Z.leb_spec (edgeCmp x y) 0).
  - rewrite elem_of_cons, IHa. destruct (Z.leb_spec 0 (edgeCmp x y)); rewrite !elem_of_cons; [|tauto].
    assert (x = y) as -> by (apply (cmp_eq (cmp:=edgeCmp)); lia). tauto.
  - rewrite elem_of_cons, IHb, !elem_of_cons. tauto.
Qed.

Lemma mergeSorted_strict a b :
  strictly_sorted edgeCmp a → strictly_sorted edgeCmp b → strictly_sorted edgeCmp (mergeSorted a b).
Proof.
  intros Ha. revert b. induction Ha as [|x a Ha IHa Hx]; intros b Hb; [done|].
  induction Hb as [|y b Hb IHb Hy]; [rewrite mergeSorted_nil_r; by constructor|].
  rewrite mergeSorted_cons. rewrite Forall_forall in Hx, Hy.
  destruct (Z.leb_spec (edgeCmp x y) 0) as [Hle|Hgt].
  - constructor; [apply IHa; destruct (Z.leb_spec 0 (edgeCmp x y)); [done|constructor; [done|by apply Forall_forall]]|].
    apply Forall_forall. intros e [He|He]%elem_of_mergeSorted; [by apply Hx|].
    destruct (Z.leb_spec 0 (edgeCmp x y)) as [Hge|Hlt].
    + assert (x = y) as -> by (apply (cmp_eq (cmp:=edgeCmp)); lia). by apply Hy.
    + apply elem_of_cons in He as [->|He]; [done|]. apply (cmp_trans (cmp:=edgeCmp) x y e); [done|by apply Hy].
  - pose proof (cmp_opp (cmp:=edgeCmp) x y) as Hop. assert (edgeCmp y x < 0)%Z as Hyx by lia.
    constructor; [done|]. apply Forall_forall.
    intros e [[->|He]%elem_of_cons|He]%elem_of_mergeSorted; [done| |by apply Hy].
    apply (cmp_trans (cmp:=edgeCmp) y x e); [done|by apply Hx].
Qed.
End order.

(** ** The maps hold the visible edges *)
Section built.
Context (s : WarpState.WarpState).
Import MaterializeHelpers.

(** What an alive edge key contributes to the list of a node. *)
Definition out_edge (n k : string) : option NeighborEdge :=
  let e := decodeEdgeKey k in
  if WarpState.endpoints_alive s e && bool_decide (ep_from e = n)
  then Some (mkEdge (ep_to e) (ep_label e)) else None.
Definition in_edge (n k : string) : option NeighborEdge :=
  let e := decodeEdgeKey k in
  if WarpState.endpoints_alive s e && bool_decide (ep_to e = n)
  then Some (mkEdge (ep_from e) (ep_label e)) else None.

Lemma add_edges_lists l adj n :
  default [] (outgoing (foldl (add_edge s) adj l) !! n) = default [] (outgoing adj !! n) ++ omap (out_edge n) l ∧
  default [] (incoming (foldl (add_edge s) adj l) !! n) = default [] (incoming adj !! n) ++ omap (in_edge n) l.
Proof.
  revert adj. induction l as [|k l IH]; intros adj; [by rewrite !app_nil_r|]. cbn [foldl].
  destruct (IH (add_edge s adj k)) as [-> ->]. unfold add_edge.
  assert (∀ (m : gmap string (list NeighborEdge)) key e,
    default [] (ensureList_push m key e !! n) =
    default [] (m !! n) ++ if bool_decide (key = n) then [e] else []) as Hpush.
  { intros m key e. unfold ensureList_push. case_bool_decide as Hne; [subst|].
    - by rewrite lookup_insert_eq.
    - by rewrite lookup_insert_ne, app_nil_r. }
  assert (∀ f : string → option NeighborEdge, omap f (k :: l) =
    match f k with Some e => [e] | None => [] end ++ omap f l) as Homap by (intros f; csimpl; by destruct (f k)).
  rewrite !Homap. unfold out_edge at 2, in_edge at 2, WarpState.endpoints_alive.
  destruct (decodeEdgeKey k) as [f t lb]. cbn [ep_from ep_to ep_label].
  destruct (ORSet.contains (WarpState.nodeAlive s) f); [|done].
  destruct (ORSet.contains (WarpState.nodeAlive s) t); [|done].
  cbn [negb andb outgoing incoming]. rewrite !Hpush, <- !app_assoc.
  split; by case_bool_decide.
Qed.

Lemma buildAdjacency_lists n :
  default [] (outgoing (buildAdjacency s) !! n)
    = sortNeighborList (omap (out_edge n) (ORSet.elements (WarpState.edgeAlive s))) ∧
  default [] (incoming (buildAdjacency s) !! n)
    = sortNeighborList (omap (in_edge n) (ORSet.elements (WarpState.edgeAlive s))).
Proof.
  unfold buildAdjacency. simpl. rewrite !lookup_fmap.
  destruct (add_edges_lists (ORSet.elements (WarpState.edgeAlive s)) (mk ∅ ∅) n) as [Ho Hi].
  simpl in Ho, Hi. rewrite lookup_empty in Ho, Hi. simpl in Ho, Hi. rewrite <- Ho, <- Hi.
  by destruct (outgoing _ !! n), (incoming _ !! n).
Qed.

Context (Hok : WarpState.edges_ok s).

(** A visible edge with valid parts. *)
Definition shown (e : edge_parts) : Prop := EdgeRecord.edge_ok e ∧ WarpState.visible s e = true.

(** Visible edges as neighbours. *)
Definition links (d : Direction) (n : string) (e : NeighborEdge) : Prop :=
  let out := shown (EdgeParts n (neighborId e) (label e)) in
  let inc := shown (EdgeParts (neighborId e) n (label e)) in
  match d with DOut => out | DIn => inc | DBoth => out ∨ inc end.

Definition allowed (options : NeighborOptions) (e : NeighborEdge) : Prop :=
  ∀ ls, labels options = Some ls → label e ∈ ls.

Lemma alive_key k :
  k ∈ ORSet.elements (WarpState.edgeAlive s) →
  ∃ e, EdgeRecord.edge_ok e ∧ k = WarpState.key_of e ∧ decodeEdgeKey k = e.
Proof.
  intros Hk%ORSet.elem_of_elements. destruct (Hok k Hk) as (e & He & ->). exists e.
  do 2 (split; [done|]). by apply WarpState.edge_ok_decode.
Qed.

(** The alive keys are the keys of the edges. *)
Lemma alive_shown e :
  shown e ↔ ∃ k, k ∈ ORSet.elements (WarpState.edgeAlive s) ∧ decodeEdgeKey k = e ∧
    WarpState.endpoints_alive s e = true.
Proof.
  unfold shown, WarpState.visible. rewrite andb_true_iff. split.
  - intros (He & Hk & Ha). exists (WarpState.key_of e).
    split; [by apply ORSet.elem_of_elements|]. split; [by apply WarpState.edge_ok_decode|done].
  - intros (k & Hk & E & Ha). destruct (alive_key k Hk) as (e' & He' & -> & E').
    rewrite E in E'. subst e'. split; [done|]. split; [by apply ORSet.elem_of_elements|done].
Qed.

Lemma decode_inj k1 k2 :
  k1 ∈ ORSet.elements (WarpState.edgeAlive s) → k2 ∈ ORSet.elements (WarpState.edgeAlive s) →
  decodeEdgeKey k1 = decodeEdgeKey k2 → k1 = k2.
Proof.
  intros H1 H2 E. destruct (alive_key k1 H1) as (e1 & _ & -> & E1).
  destruct (alive_key k2 H2) as (e2 & _ & -> & E2). congruence.
Qed.

Lemma elem_of_out_edges n e :
  e ∈ omap (out_edge n) (ORSet.elements (WarpState.edgeAlive s)) ↔ links DOut n e.
Proof.
  rewrite list_elem_of_omap. unfold links, out_edge. rewrite alive_shown. split.
  - intros (k & Hk & E). destruct (decodeEdgeKey k) as [f t lb] eqn:Ek. cbn [ep_from ep_to ep_label] in E.
    destruct (WarpState.endpoints_alive s _) eqn:Ea; [|done]. simpl in E.
    case_bool_decide; [subst|done]. injection E as <-. by exists k.
  - intros (k & Hk & E & Ha). exists k. split; [done|]. rewrite E, Ha. simpl.
    rewrite bool_decide_true by done. by destruct e.
Qed.

Lemma elem_of_in_edges n e :
  e ∈ omap (in_edge n) (ORSet.elements (WarpState.edgeAlive s)) ↔ links DIn n e.
Proof.
  rewrite list_elem_of_omap. unfold links, in_edge. rewrite alive_shown. split.
  - intros (k & Hk & E). destruct (decodeEdgeKey k) as [f t lb] eqn:Ek. cbn [ep_from ep_to ep_label] in E.
    destruct (WarpState.endpoints_alive s _) eqn:Ea; [|done]. simpl in E.
    case_bool_decide; [subst|done]. injection E as <-. by exists k.
  - intros (k & Hk & E & Ha). exists k. split; [done|]. rewrite E, Ha. simpl.
    rewrite bool_decide_true by done. by destruct e.
Qed.

(** Distinct keys give distinct entries. *)
Lemma omap_nodup (f : string → option NeighborEdge) :
  (∀ k1 k2 e, f k1 = Some e → f k2 = Some e → decodeEdgeKey k1 = decodeEdgeKey k2) →
  NoDup (omap f (ORSet.elements (WarpState.edgeAlive s))).
Proof.
  intros Hinj. pose proof decode_inj as Hdec. pose proof (ORSet.elements_NoDup (WarpState.edgeAlive s)) as Hnd.
  induction Hnd as [|k l Hni Hnd IH]; csimpl; [constructor|].
  assert (NoDup (omap f l)) by (apply IH; intros; apply Hdec; set_solver).
  destruct (f k) as [e|] eqn:E; [|done]. constructor; [|done].
  intros (k' & Hk' & E')%list_elem_of_omap. apply Hni.
  rewrite (Hdec k k'); [done|by left|by right|by eapply Hinj].
Qed.

Lemma out_edges_nodup n : NoDup (omap (out_edge n) (ORSet.elements (WarpState.edgeAlive s))).
Proof.
  apply omap_nodup. unfold out_edge. intros k1 k2 e.
  destruct (decodeEdgeKey k1) as [f1 t1 l1], (decodeEdgeKey k2) as [f2 t2 l2]. simpl.
  destruct (WarpState.endpoints_alive s _); [|done]. destruct (WarpState.endpoints_alive s _); [|by destruct (_ && _)].
  simpl. do 2 case_bool_decide; naive_solver.
Qed.

Lemma in_edges_nodup n : NoDup (omap (in_edge n) (ORSet.elements (WarpState.edgeAlive s))).
Proof.
  apply omap_nodup. unfold in_edge. intros k1 k2 e.
  destruct (decodeEdgeKey k1) as [f1 t1 l1], (decodeEdgeKey k2) as [f2 t2 l2]. simpl.
  destruct (WarpState.endpoints_alive s _); [|done]. destruct (WarpState.endpoints_alive s _); [|by destruct (_ && _)].
  simpl. do 2 case_bool_decide; naive_solver.
Qed.

(** ** What the provider answers *)
Section served.
Context (options : NeighborOptions).
Import AdjacencyNeighborProvider.

Definition alive_nodes : gset string := list_to_set (ORSet.elements (WarpState.nodeAlive s)).

Definition state_provider : AdjacencyNeighborProvider :=
  mk (sortAdjacencyMap (outgoing (buildAdjacency s))) (sortAdjacencyMap (incoming (buildAdjacency s)))
     alive_nodes.

(** The members of an answer. *)
Definition answers_links (d : Direction) (n : string) (es : list NeighborEdge) : Prop :=
  strictly_sorted edgeCmp es ∧ ∀ e, e ∈ es ↔ links d n e ∧ allowed options e.

Lemma filterByLabels_links d n l :
  strictly_sorted edgeCmp l → (∀ e, e ∈ l ↔ links d n e) →
  answers_links d n (filterByLabels l (labels options)).
Proof.
  intros Hs Hl. unfold filterByLabels, answers_links, allowed. destruct (labels options) as [ls|].
  - split; [by apply strictly_sorted_filter|]. intros e. rewrite list_elem_of_filter, Hl. naive_solver.
  - split; [done|]. intros e. rewrite Hl. naive_solver.
Qed.

Lemma sorted_list_spec (l : list NeighborEdge) m n :
  NoDup l → default [] (m !! n) = sortNeighborList l →
  let l' := default [] (sortAdjacencyMap m !! n) in
  strictly_sorted edgeCmp l' ∧ ∀ e, e ∈ l' ↔ e ∈ l.
Proof.
  intros Hnd E. cbn zeta.
  assert (default [] (sortAdjacencyMap m !! n) = js_sort edgeCmp l) as ->.
  { unfold sortAdjacencyMap. rewrite lookup_fmap. rewrite sortNeighborList_edgeCmp in E.
    destruct (m !! n) as [es|]; simpl in *; [by rewrite E, js_sort_twice|]. done. }
  split; [apply js_sort_strict; [apply _|done]|]. intros e. apply elem_of_js_sort.
Qed.

Lemma resolveEdges_links d n : answers_links d n (_resolveEdges state_provider n d (labels options)).
Proof.
  destruct (buildAdjacency_lists n) as [Eo Ei].
  destruct (sorted_list_spec _ _ n (out_edges_nodup n) Eo) as [Hso Hmo].
  destruct (sorted_list_spec _ _ n (in_edges_nodup n) Ei) as [Hsi Hmi].
  assert (answers_links DOut n (_filteredEdges (_outgoing state_provider) n (labels options))) as Ho
    by (apply filterByLabels_links; [done|]; intros e; rewrite Hmo; apply elem_of_out_edges).
  assert (answers_links DIn n (_filteredEdges (_incoming state_provider) n (labels options))) as Hi
    by (apply filterByLabels_links; [done|]; intros e; rewrite Hmi; apply elem_of_in_edges).
  destruct d; [done|done|]. destruct Ho as [Ho Ho'], Hi as [Hi Hi'].
  split; [by apply mergeSorted_strict|]. intros e. simpl. rewrite elem_of_mergeSorted, Ho', Hi'.
  simpl. tauto.
Qed.

Lemma links_alive d n e : links d n e → neighborId e ∈ alive_nodes.
Proof.
  assert (∀ f t l, shown (EdgeParts f t l) → f ∈ alive_nodes ∧ t ∈ alive_nodes) as Hs.
  { intros f t l [_ [_ [Hf Ht]%andb_true_iff]%andb_true_iff].
    unfold alive_nodes. by rewrite !elem_of_list_to_set, !ORSet.elem_of_elements. }
  destruct d; simpl; [|intros H|intros [H|H]]; [intros H|..]; by apply Hs in H as [? ?].
Qed.

Lemma state_provider_sees d :
  let nbrs n := _resolveEdges state_provider n d (labels options) in
  sees (port state_provider) options d nbrs alive_nodes ∧
  ∀ n m, edge nbrs n m ↔ ∃ l, links d n (mkEdge m l) ∧ allowed options (mkEdge m l).
Proof.
  cbn zeta. split.
  - split; [done|]. intros n e He. destruct (resolveEdges_links d n) as [_ Hm].
    apply Hm in He as [He _]. by eapply links_alive.
  - intros n m. unfold edge. destruct (resolveEdges_links d n) as [_ Hm]. setoid_rewrite Hm. split.
    + intros ([m' l] & He & <-). by exists l.
    + intros (l & He). by exists (mkEdge m l).
Qed.
End served.
End built.

(** A provider over the adjacency of a state answers with the visible
    edges: an edge that is alive between alive nodes is listed at both ends,
    filtered by label, without duplicates and ordered by neighbour and label;
    a self loop or a pair of opposite edges with one label counts once in both
    directions together. The searches over it see the visible graph. *)
Theorem adjacency_serves_visible_edges (s : WarpState.WarpState) (options : NeighborOptions) :
  WarpState.edges_ok s →
  ∃ p, AdjacencyNeighborProvider.new (MaterializeHelpers.outgoing (MaterializeHelpers.buildAdjacency s))
         (MaterializeHelpers.incoming (MaterializeHelpers.buildAdjacency s)) (Some (alive_nodes s)) = Ok p ∧
    (∀ n, AdjacencyNeighborProvider.hasNode p n = Ok (ORSet.contains (WarpState.nodeAlive s) n)) ∧
    (∀ n d, ∃ es, AdjacencyNeighborProvider.getNeighbors p n d options = Ok es ∧
      answers_links s options d n es) ∧
    (∀ d, ∃ nbrs, sees (AdjacencyNeighborProvider.port p) options d nbrs (alive_nodes s) ∧
      ∀ n m, edge nbrs n m ↔ ∃ l, links s d n (mkEdge m l) ∧ allowed options (mkEdge m l)).
Proof.
  intros Hok. exists (state_provider s). split; [done|]. split; [|split].
  - intros n. unfold AdjacencyNeighborProvider.hasNode. simpl. f_equal. unfold alive_nodes.
    destruct (ORSet.contains _ n) eqn:E; [apply bool_decide_true|apply bool_decide_false];
      rewrite elem_of_list_to_set, ORSet.elem_of_elements; congruence.
  - intros n d. eexists. split; [done|]. by apply resolveEdges_links.
  - intros d. eexists. by apply state_provider_sees.
Qed.

Lemma adjacency_serves_visible_edges_witness :
  ∃ p, AdjacencyNeighborProvider.new
         (MaterializeHelpers.outgoing (MaterializeHelpers.buildAdjacency sample_state))
         (MaterializeHelpers.incoming (MaterializeHelpers.buildAdjacency sample_state))
         (Some (alive_nodes sample_state)) = Ok p ∧
    (∀ n, AdjacencyNeighborProvider.hasNode p n = Ok (ORSet.contains (WarpState.nodeAlive sample_state) n)) ∧
    (∀ n d, ∃ es, AdjacencyNeighborProvider.getNeighbors p n d (mkOptions None) = Ok es ∧
      answers_links sample_state (mkOptions None) d n es) ∧
    (∀ d, ∃ nbrs, sees (AdjacencyNeighborProvider.port p) (mkOptions None) d nbrs (alive_nodes sample_state) ∧
      ∀ n m, edge nbrs n m ↔
        ∃ l, links sample_state d n (mkEdge m l) ∧ allowed (mkOptions None) (mkEdge m l)).
Proof. apply (adjacency_serves_visible_edges sample_state (mkOptions None)), sample_edges_ok. Defined.

Example sample_neighbors :
  AdjacencyNeighborProvider.getNeighbors (state_provider sample_state) "n2" DIn (mkOptions None)
    = Ok [mkEdge "n1" "knows"] ∧
  AdjacencyNeighborProvider.getNeighbors (state_provider sample_state) "n2" DIn (mkOptions (Some ["likes"]))
    = Ok [].
Proof. split; vm_compute; reflexivity. Qed.
