(* ===== verification/PatternIndex.v ===== *)
(** The index behind node patterns ([query/QueryNodePatternIndex.ts]): exact
    patterns and prefixes are looked up in the sorted entry keys of the alive
    set, which are cached. *)
From S2P Require Export Crdt MatchGlob.
#[local] Open Scope string_scope.
#[local] Open Scope nat_scope.
#[local] Open Scope list_scope.

(** [matchGlob(pattern, str)]; the cache of compiled patterns never changes an
    answer. *)
Definition glob_test (pattern : string + list string) (str : string) : bool :=
  match (MatchGlob.matchGlob pattern str ∅).2 with Ok b => b | Throw _ => false end.

Lemma glob_test_spec pattern str :
  glob_test pattern str = true ↔
  match pattern with
  | inl p => p = "*" ∨ MatchGlob.glob p str
  | inr ps => ∃ p, p ∈ ps ∧ (p = "*" ∨ MatchGlob.glob p str)
  end.
Proof.
  unfold glob_test.
  assert (MatchGlob.cache_ok ∅) as Hok by (split; [intros p r Hp; by rewrite lookup_empty in Hp|vm_compute; lia]).
  destruct pattern as [p|ps]; cbn [MatchGlob.matchGlob].
  - destruct (MatchGlob.match_one_ok p str ∅ Hok) as (m' & b & -> & _ & Hb). exact Hb.
  - destruct (MatchGlob.match_some_ok ps str ∅ Hok) as (m' & b & -> & _ & Hb). exact Hb.
Qed.

Module QueryNodePatternIndex.

Definition MATCH_ALL_PATTERN : ascii := "*"%char.

(* @src domain/services/query/QueryNodePatternIndex.ts SortedEntryKeyCache 9-12 *)
Record SortedEntryKeyCache := mkCache { entryCount : nat; keys : list string }.

(* @src domain/services/query/QueryNodePatternIndex.ts QueryNodePatternSegment 14-16 *)
Inductive Segment := Exact (value : string) | Prefix (value : string).

#[global] Instance Segment_eq_dec : EqDecision Segment.
Proof. solve_decision. Defined.

(** [pattern.indexOf(c, from)] *)
Fixpoint index_of (c : ascii) (s : string) (from : nat) : option nat :=
  match s with
  | EmptyString => None
  | String a s' =>
      match from with
      | O => if decide (a = c) then Some 0 else S <$> index_of c s' 0
      | S from' => S <$> index_of c s' from'
      end
  end.

(* @src domain/services/query/QueryNodePatternIndex.ts isSingleTrailingWildcard *)
Definition isSingleTrailingWildcard (pattern : string) (wildcardIndex : nat) : bool :=
  (Z.of_nat wildcardIndex =? Z.of_nat (String.length pattern) - 1)%Z &&
  bool_decide (index_of MATCH_ALL_PATTERN pattern (wildcardIndex + 1) = None).

(* @src domain/services/query/QueryNodePatternIndex.ts patternSegment *)
Definition patternSegment (pattern : string) : option Segment :=
  if decide (pattern = "*") then None
  else
    match index_of MATCH_ALL_PATTERN pattern 0 with
    | None => Some (Exact pattern)
    | Some wildcardIndex =>
        if isSingleTrailingWildcard pattern wildcardIndex
        then Some (Prefix (String.substring 0 wildcardIndex pattern)) else None
    end.

(** The loop gives up at the first pattern without a segment. *)
(* @src domain/services/query/QueryNodePatternIndex.ts patternRoute *)
Fixpoint patternRoute (patterns : list string) : option (list Segment) :=
  match patterns with
  | [] => Some []
  | entry :: rest =>
      match patternSegment entry with
      | None => None
      | Some segment => cons segment <$> patternRoute rest
      end
  end.

(** [Math.floor((low + high) / 2)]; the interval shrinks in every turn. *)
(* @src domain/services/query/QueryNodePatternIndex.ts lowerBound *)
Fixpoint lower_bound (fuel : nat) (keys : list string) (needle : string) (low high : nat) : nat :=
  match fuel with
  | O => low
  | S fuel' =>
      if (low <? high)%nat then
        let mid := ((low + high) / 2)%nat in
        match keys !! mid with
        | None => low
        | Some midValue =>
            if str_ltb midValue needle then lower_bound fuel' keys needle (mid + 1) high
            else lower_bound fuel' keys needle low mid
        end
      else low
  end.

Definition lowerBound (keys : list string) (needle : string) : nat :=
  lower_bound (length keys) keys needle 0 (length keys).

(** The weak map has at most one entry for a set: it is passed and returned. *)
(* @src domain/services/query/QueryNodePatternIndex.ts sortedEntryKeys *)
Definition sortedEntryKeys (alive : ORSet.ORSet) (cached : option SortedEntryKeyCache)
    : list string * option SortedEntryKeyCache :=
  let recompute :=
    let ks := js_sort compareStrings (map_to_list (ORSet.entries alive)).*1 in
    (ks, Some (mkCache (size (ORSet.entries alive)) ks)) in
  match cached with
  | Some c => if (entryCount c =? size (ORSet.entries alive))%nat then (keys c, cached) else recompute
  | None => recompute
  end.

(** The loop from the lower bound on, up to the first key without the prefix. *)
Fixpoint with_prefix (prefix : string) (alive : ORSet.ORSet) (ks : list string) : list string :=
  match ks with
  | [] => []
  | candidate :: rest =>
      if negb (String.prefix prefix candidate) then []
      else if ORSet.contains alive candidate then candidate :: with_prefix prefix alive rest
      else with_prefix prefix alive rest
  end.

(* @src domain/services/query/QueryNodePatternIndex.ts prefixCandidates 70-84 *)
Definition prefixCandidates (alive : ORSet.ORSet) (cached : option SortedEntryKeyCache)
    (prefix : string) : list string * option SortedEntryKeyCache :=
  let '(ks, cached) := sortedEntryKeys alive cached in
  (with_prefix prefix alive (drop (lowerBound ks prefix) ks), cached).

(* @src domain/services/query/QueryNodePatternIndex.ts exactCandidate 64-68 *)
Definition exactCandidate (alive : ORSet.ORSet) (nodeId : string) : list string :=
  if ORSet.contains alive nodeId then [nodeId] else [].

(** [emitted] is the list of what was yielded. *)
(* @src domain/services/query/QueryNodePatternIndex.ts segmentCandidates 52-62 *)
Definition segmentCandidates (alive : ORSet.ORSet) (acc : list string * option SortedEntryKeyCache)
    (segment : Segment) : list string * option SortedEntryKeyCache :=
  let '(emitted, cached) := acc in
  let '(candidates, cached) :=
    match segment with
    | Exact value => (exactCandidate alive value, cached)
    | Prefix value => prefixCandidates alive cached value
    end in
  (foldl (λ emitted c, if decide (c ∈ emitted) then emitted else emitted ++ [c]) emitted candidates,
   cached).

(* @src domain/services/query/QueryNodePatternIndex.ts indexedCandidates 45-50 *)
Definition indexedCandidates (alive : ORSet.ORSet) (cached : option SortedEntryKeyCache)
    (route : list Segment) : list string * option SortedEntryKeyCache :=
  foldl (segmentCandidates alive) ([], cached) route.

(* @src domain/services/query/QueryNodePatternIndex.ts allLiveCandidates 37-43 *)
Definition allLiveCandidates (alive : ORSet.ORSet) : list string :=
  filter (λ e, ORSet.contains alive e) (map_to_list (ORSet.entries alive)).*1.

(* @src domain/services/query/QueryNodePatternIndex.ts liveCandidates 28-35 *)
Definition liveCandidates (alive : ORSet.ORSet) (cached : option SortedEntryKeyCache)
    (pattern : string + list string) : list string * option SortedEntryKeyCache :=
  match patternRoute (match pattern with inl p => [p] | inr ps => ps end) with
  | None => (allLiveCandidates alive, cached)
  | Some route => indexedCandidates alive cached route
  end.
End QueryNodePatternIndex.

(** ** Prefixes in the order of strings *)
Section prefixes.

Lemma str_ltb_cons a s b t :
  str_ltb (String a s) (String b t) =
  match Ascii.compare a b with Lt => true | Gt => false | Eq => str_ltb s t end.
Proof. unfold str_ltb. simpl. by destruct (Ascii.compare a b). Qed.

Lemma prefix_not_less p k : String.prefix p k = true → str_ltb k p = false.
Proof.
  revert k. induction p as [|a p IH]; intros k Hp; [by destruct k|].
  destruct k as [|b k]; [done|]. simpl in Hp. destruct (ascii_dec a b) as [->|]; [|done].
  assert (Ascii.compare b b = Eq) as E by apply N.compare_refl. rewrite str_ltb_cons, E. by apply IH.
Qed.

(** The strings with a prefix are contiguous. *)
Lemma prefix_between p k1 k2 :
  str_ltb k1 p = false → str_ltb k2 k1 = false → String.prefix p k2 = true → String.prefix p k1 = true.
Proof.
  revert k1 k2. induction p as [|a p IH]; intros k1 k2 H1 H2 Hp; [by destruct k1|].
  destruct k2 as [|c k2]; [done|]. simpl in Hp. destruct (ascii_dec a c) as [<-|]; [|done].
  destruct k1 as [|b k1]; [done|]. rewrite str_ltb_cons in H1, H2. rewrite (Ascii.compare_antisym a b) in H2.
  simpl. destruct (Ascii.compare b a) eqn:E; simpl in H2; [|done..].
  apply Ascii.compare_eq_iff in E as ->. destruct (ascii_dec a a); [|done]. by apply (IH k1 k2).
Qed.
End prefixes.

Lemma StronglySorted_lookup_lt {A} (R : relation A) l i j x y :
  StronglySorted R l → i < j → l !! i = Some x → l !! j = Some y → R x y.
Proof.
  intros Hs. revert i j. induction Hs as [|z l _ IH Hz]; intros i j Hij Hi Hj; [done|].
  destruct j as [|j]; [lia|]. destruct i as [|i]; simplify_eq/=.
  - rewrite Forall_forall in Hz. by apply Hz, (list_elem_of_lookup_2 _ j).
  - apply (IH i j); [lia|done..].
Qed.

Section search.
Import QueryNodePatternIndex.
Context (ks : list string) (needle : string) (Hsorted : strictly_sorted compareStrings ks).

Definition below (i : nat) : Prop := ∃ k, ks !! i = Some k ∧ str_ltb k needle = true.

Lemma sorted_lookup_lt i j x y :
  (i < j)%nat → ks !! i = Some x → ks !! j = Some y → str_ltb x y = true.
Proof.
  intros Hij Hi Hj. pose proof (StronglySorted_lookup_lt _ _ i j x y Hsorted Hij Hi Hj) as Hlt. simpl in Hlt.
  unfold compareStrings in Hlt. by destruct (str_ltb x y); [|destruct (str_ltb y x)].
Qed.

Lemma below_mono i j : (i ≤ j)%nat → below j → below i.
Proof.
  intros Hij (y & Hj & Hy). destruct (decide (i = j)) as [->|Hne]; [by exists y|].
  destruct (lookup_lt_is_Some_2 ks i) as [x Hi]; [apply lookup_lt_Some in Hj; lia|].
  exists x. split; [done|]. apply (ltb_trans (ltb:=str_ltb) x y); [|done].
  by apply (sorted_lookup_lt i j); [lia|..].
Qed.

(** Binary search ends at the first key that is not below the needle. *)
Lemma key_bound_spec fuel low high :
  (low ≤ high ≤ length ks)%nat → (high - low ≤ fuel)%nat →
  (∀ i, (i < low)%nat → below i) → (∀ i, (high ≤ i)%nat → ¬ below i) →
  let r := lower_bound fuel ks needle low high in
  (r ≤ length ks)%nat ∧ ∀ i, below i ↔ (i < r)%nat.
Proof.
  revert low high. induction fuel as [|fuel IH]; intros low high Hle Hfuel Hlow Hhigh; cbn [lower_bound]; cbn zeta.
  - assert (low = high) as -> by lia. split; [lia|]. intros i. split; [|apply Hlow].
    intros Hb. destruct (decide (i < high)%nat); [done|]. exfalso. apply (Hhigh i); [lia|done].
  - destruct (Nat.ltb_spec low high) as [Hlt|Hge].
    + set (mid := ((low + high) / 2)%nat).
      assert (low ≤ mid < high)%nat as Hmid
        by (unfold mid; split; [apply Nat.div_le_lower_bound; lia|apply Nat.Div0.div_lt_upper_bound; lia]).
      destruct (lookup_lt_is_Some_2 ks mid) as [v Ev]; [lia|]. rewrite Ev.
      destruct (str_ltb v needle) eqn:Hv.
      * apply IH; [lia|lia| |done]. intros i Hi. apply (below_mono i mid); [lia|]. by exists v.
      * apply IH; [lia|lia|done|]. intros i Hi Hb. apply (below_mono mid i Hi) in Hb as (v' & Ev' & Hv').
        congruence.
    + assert (low = high) as -> by lia. split; [lia|]. intros i. split; [|apply Hlow].
      intros Hb. destruct (decide (i < high)%nat); [done|]. exfalso. apply (Hhigh i); [lia|done].
Qed.

Lemma lowerBound_spec :
  (lowerBound ks needle ≤ length ks)%nat ∧ ∀ i, below i ↔ (i < lowerBound ks needle)%nat.
Proof.
  apply key_bound_spec; [lia|lia|lia|].
  intros i Hi (k & Hk & _). apply lookup_lt_Some in Hk. lia.
Qed.
End search.

Section prefix_scan.
Import QueryNodePatternIndex.
Context (alive : ORSet.ORSet) (prefix : string).

Lemma with_prefix_spec ks x :
  strictly_sorted compareStrings ks → (∀ k, k ∈ ks → str_ltb k prefix = false) →
  x ∈ with_prefix prefix alive ks ↔ x ∈ ks ∧ String.prefix prefix x = true ∧ ORSet.contains alive x = true.
Proof.
  induction 1 as [|k ks Hs IH Hk]; intros Hge; simpl; [by rewrite elem_of_nil; split; [|intros []]|].
  destruct (String.prefix prefix k) eqn:Ek; simpl.
  - assert (x ∈ with_prefix prefix alive ks ↔ x ∈ ks ∧ String.prefix prefix x = true ∧ ORSet.contains alive x = true)
      as IH' by (apply IH; intros; apply Hge; by right).
    destruct (ORSet.contains alive k) eqn:Ec; rewrite ?elem_of_cons, IH'.
    + split; [intros [->|(? & ? & ?)]|intros ([->|?] & ? & ?)]; auto.
    + split; [intros (? & ? & ?)|intros ([->|?] & ? & ?)]; [auto|congruence|auto].
  - rewrite elem_of_nil, elem_of_cons. split; [done|]. intros ([->|Hx] & Hp & _); [congruence|].
    rewrite Forall_forall in Hk. specialize (Hk x Hx).
    rewrite (prefix_between prefix k x) in Ek; [done|apply Hge; by left| |done].
    unfold compareStrings in Hk. destruct (str_ltb k x) eqn:E1, (str_ltb x k) eqn:E2; try done.
    pose proof (ltb_trans _ _ _ E1 E2) as E3. by rewrite ltb_irrefl in E3.
Qed.

(** The scan from the lower bound finds every alive key with the prefix. *)
Lemma prefix_scan_spec ks x :
  strictly_sorted compareStrings ks →
  x ∈ with_prefix prefix alive (drop (lowerBound ks prefix) ks) ↔
  x ∈ ks ∧ String.prefix prefix x = true ∧ ORSet.contains alive x = true.
Proof.
  intros Hs. destruct (lowerBound_spec ks prefix Hs) as [Hle Hb]. rewrite with_prefix_spec.
  - split; [intros (Hx & ?)|intros (Hx & Hp & ?)]; [split; [eapply elem_of_sublist; [exact Hx|apply sublist_drop]|done]|].
    split; [|done]. apply list_elem_of_lookup in Hx as [i Hi]. apply list_elem_of_lookup.
    assert (lowerBound ks prefix ≤ i)%nat as Hge.
    { apply Nat.nlt_ge. intros (k & Hk & Hlt)%Hb. rewrite Hi in Hk. injection Hk as <-.
      by rewrite prefix_not_less in Hlt. }
    exists (i - lowerBound ks prefix)%nat. rewrite lookup_drop.
    by replace (lowerBound ks prefix + (i - lowerBound ks prefix))%nat with i by lia.
  - by apply (StronglySorted_sublist _ _ ks (sublist_drop _ _)).
  - intros k [i Hi]%list_elem_of_lookup. rewrite lookup_drop in Hi. apply not_true_is_false. intros Hlt.
    assert (lowerBound ks prefix + i < lowerBound ks prefix)%nat; [|lia]. apply Hb. by exists k.
Qed.
End prefix_scan.

Section candidates.
Import QueryNodePatternIndex.
Context (alive : ORSet.ORSet).

Definition entry_keys : list string := js_sort compareStrings (map_to_list (ORSet.entries alive)).*1.

Lemma entry_keys_sorted : strictly_sorted compareStrings entry_keys.
Proof. apply js_sort_strict; [apply _|apply NoDup_fst_map_to_list]. Qed.

Lemma contains_entry x : ORSet.contains alive x = true → x ∈ entry_keys.
Proof.
  intros Hx%ORSet.elem_of_elements. apply elem_of_js_sort. unfold ORSet.elements in Hx.
  by apply list_elem_of_filter in Hx as [_ Hx].
Qed.

(** The cached keys are those of the set, unless the count tells. *)
Definition fresh_cache (cached : option SortedEntryKeyCache) : Prop :=
  ∀ c, cached = Some c → entryCount c ≤ size (ORSet.entries alive) ∧
    (entryCount c = size (ORSet.entries alive) → keys c = entry_keys).

Lemma sortedEntryKeys_fresh cached :
  fresh_cache cached →
  (sortedEntryKeys alive cached).1 = entry_keys ∧ fresh_cache (sortedEntryKeys alive cached).2.
Proof.
  intros Hf. unfold sortedEntryKeys. cbn zeta.
  assert (fresh_cache (Some (mkCache (size (ORSet.entries alive)) entry_keys))) by by intros c [= <-].
  destruct cached as [c|]; [|done]. destruct (Nat.eqb_spec (entryCount c) (size (ORSet.entries alive))) as [E|];
    [|done]. split; [by apply (Hf c eq_refl)|done].
Qed.

Definition segment_matches (segment : Segment) (x : string) : Prop :=
  match segment with Exact v => x = v | Prefix v => String.prefix v x = true end.

Lemma segment_emit_spec (emitted candidates : list string) :
  NoDup emitted →
  let l := foldl (λ emitted c, if decide (c ∈ emitted) then emitted else emitted ++ [c]) emitted candidates in
  NoDup l ∧ ∀ x, x ∈ l ↔ x ∈ emitted ∨ x ∈ candidates.
Proof.
  revert emitted. induction candidates as [|c candidates IH]; intros emitted Hnd; cbn [foldl].
  { split; [done|]. intros x. rewrite elem_of_nil. tauto. }
  assert (NoDup (if decide (c ∈ emitted) then emitted else emitted ++ [c]) ∧
    ∀ x, x ∈ (if decide (c ∈ emitted) then emitted else emitted ++ [c]) ↔ x ∈ emitted ∨ x = c) as [Hnd' Hx].
  { case_decide as Hc; [split; [done|]; intros x; split; [by left|by intros [|E]; [|rewrite E]]|]. split.
    - apply NoDup_app. split; [done|]. split; [by intros x Hx ->%list_elem_of_singleton|apply NoDup_singleton].
    - intros x. by rewrite elem_of_app, list_elem_of_singleton. }
  destruct (IH _ Hnd') as [Hl Hm]. split; [done|]. intros x. rewrite Hm, Hx, elem_of_cons. tauto.
Qed.

Lemma segmentCandidates_spec emitted cached segment :
  NoDup emitted → fresh_cache cached →
  let '(emitted', cached') := segmentCandidates alive (emitted, cached) segment in
  NoDup emitted' ∧ fresh_cache cached' ∧
  ∀ x, x ∈ emitted' ↔ x ∈ emitted ∨ (segment_matches segment x ∧ ORSet.contains alive x = true).
Proof.
  intros Hnd Hf. unfold segmentCandidates. destruct segment as [v|v].
  - destruct (segment_emit_spec emitted (exactCandidate alive v) Hnd) as [Hl Hm]. split; [done|]. split; [done|].
    intros x. rewrite Hm. unfold exactCandidate. simpl. destruct (ORSet.contains alive v) eqn:Ev.
    + rewrite list_elem_of_singleton. split; [intros [|E]; [by left|right; by subst]|intros [|[E _]]; [by left|by right]].
    + rewrite elem_of_nil. split; [intros [|[]]; by left|intros [|[E ?]]; [by left|congruence]].
  - unfold prefixCandidates. destruct (sortedEntryKeys_fresh cached Hf) as [Ek Hf'].
    destruct (sortedEntryKeys alive cached) as [ks cached']. simpl in Ek, Hf'. subst ks.
    match goal with |- context [foldl _ emitted ?c] => destruct (segment_emit_spec emitted c Hnd) as [Hl Hm] end.
    split; [done|]. split; [done|]. intros x. rewrite Hm.
    rewrite (prefix_scan_spec alive v entry_keys x entry_keys_sorted). simpl.
    split; [intros [|(? & ? & ?)]; [by left|by right]|intros [|[? ?]]; [by left|right; auto using contains_entry]].
Qed.

Lemma indexedCandidates_spec cached route :
  fresh_cache cached →
  let '(l, cached') := indexedCandidates alive cached route in
  NoDup l ∧ fresh_cache cached' ∧
  ∀ x, x ∈ l ↔ (∃ segment, segment ∈ route ∧ segment_matches segment x) ∧ ORSet.contains alive x = true.
Proof.
  unfold indexedCandidates.
  enough (∀ emitted cached, NoDup emitted → fresh_cache cached →
    let '(l, cached') := foldl (segmentCandidates alive) (emitted, cached) route in
    NoDup l ∧ fresh_cache cached' ∧ ∀ x, x ∈ l ↔ x ∈ emitted ∨
      (∃ segment, segment ∈ route ∧ segment_matches segment x) ∧ ORSet.contains alive x = true) as Hgen.
  { intros Hf. specialize (Hgen [] cached (NoDup_nil_2) Hf). destruct (foldl _ _ _) as [l cached'].
    destruct Hgen as (? & ? & Hx). split; [done|]. split; [done|]. intros x. rewrite Hx, elem_of_nil. tauto. }
  induction route as [|segment route IH]; intros emitted c Hnd Hf; cbn [foldl].
  { split; [done|]. split; [done|]. intros x. split; [by left|]. by intros [|[(? & []%elem_of_nil & _) _]]. }
  pose proof (segmentCandidates_spec emitted c segment Hnd Hf) as Hs.
  destruct (segmentCandidates alive (emitted, c) segment) as [e1 c1]. destruct Hs as (Hnd1 & Hf1 & Hx1).
  specialize (IH e1 c1 Hnd1 Hf1). destruct (foldl _ _ route) as [l c']. destruct IH as (Hl & Hc & Hx).
  split; [done|]. split; [done|]. intros x. rewrite Hx, Hx1. setoid_rewrite elem_of_cons. split.
  - intros [[?|[? ?]]|[(sg & ? & ?) ?]]; [by left|right; split; [by exists segment; auto|done]|].
    right. split; [exists sg; auto|done].
  - intros [?|[(sg & [->|?] & ?) ?]]; [by left; left|left; by right|]. right. split; [by exists sg|done].
Qed.
End candidates.

(** ** Segments and patterns *)
Section patterns.
Import QueryNodePatternIndex MatchGlob.

Lemma index_of_none p : index_of MATCH_ALL_PATTERN p 0 = None → str_includes Regex.star p = false.
Proof.
  induction p as [|a p IH]; [done|]. simpl. case_decide as Ha; [done|].
  destruct (index_of _ p 0) eqn:E; [done|]. intros _. rewrite IH by done.
  by rewrite bool_decide_false.
Qed.

Lemma glob_prefix p x i :
  index_of MATCH_ALL_PATTERN p 0 = Some i → glob p x → String.prefix (String.substring 0 i p) x = true.
Proof.
  revert x i. induction p as [|a p IH]; intros x i; [done|]. simpl. case_decide as Ha.
  - intros [= <-] _. by destruct x.
  - destruct (index_of _ p 0) as [j|] eqn:E; [|done]. intros [= <-] Hg.
    inversion Hg as [|c p' s Hc Hg'| |]; subst; [|done|done]. simpl.
    destruct (ascii_dec a a); [|done]. by apply IH.
Qed.

Lemma patternSegment_matches p segment x :
  patternSegment p = Some segment → p = "*" ∨ glob p x → segment_matches segment x.
Proof.
  unfold patternSegment. case_decide as Hp; [done|].
  destruct (index_of MATCH_ALL_PATTERN p 0) as [i|] eqn:Ei.
  - destruct (isSingleTrailingWildcard p i); [|done]. intros [= <-] [|Hg]; [done|]. by apply glob_prefix.
  - intros [= <-] [|Hg]; [done|]. symmetry. by apply glob_literal; [apply index_of_none|].
Qed.

Lemma patternRoute_matches patterns route p x :
  patternRoute patterns = Some route → p ∈ patterns → p = "*" ∨ glob p x →
  ∃ segment, segment ∈ route ∧ segment_matches segment x.
Proof.
  revert route. induction patterns as [|q patterns IH]; intros route; simpl; [by intros _ []%elem_of_nil|].
  destruct (patternSegment q) as [sg|] eqn:Eq; [|done].
  destruct (patternRoute patterns) as [route'|] eqn:Er; [|done]. intros [= <-] [->|Hp]%elem_of_cons Hg.
  - exists sg. split; [by left|]. by apply (patternSegment_matches q).
  - destruct (IH route' eq_refl Hp Hg) as (sg' & Hs & ?). exists sg'. split; [by right|done].
Qed.
End patterns.

Lemma elem_of_map_keys {A} (m : gmap string A) x : x ∈ (map_to_list m).*1 ↔ is_Some (m !! x).
Proof.
  rewrite list_elem_of_fmap. split; [intros ([k v] & -> & Hkv%elem_of_map_to_list); by exists v|].
  intros [v Hv]. exists (x, v). by rewrite elem_of_map_to_list.
Qed.

(** A set that only gets entries never makes the cache stale. *)
Lemma add_fresh alive cached e dot :
  fresh_cache alive cached → fresh_cache (ORSet.add e dot alive) cached.
Proof.
  intros Hf c Ec. destruct (Hf c Ec) as [Hle Heq]. unfold ORSet.add. simpl.
  destruct (ORSet.entries alive !! e) as [dots|] eqn:Ee.
  - rewrite map_size_insert_Some by done. split; [done|]. intros E. rewrite Heq by done.
    unfold entry_keys. simpl. apply (js_sort_unique compareStrings).
    apply NoDup_Permutation; [apply NoDup_fst_map_to_list..|]. intros x.
    rewrite !elem_of_map_keys. rewrite lookup_insert_is_Some'.
    split; [by right|intros [<-|]; [by exists dots|done]].
  - rewrite map_size_insert_None by done. split; [lia|]. lia.
Qed.

Lemma liveCandidates_spec (alive : ORSet.ORSet) cached (pattern : string + list string) :
  fresh_cache alive cached →
  let r := QueryNodePatternIndex.liveCandidates alive cached pattern in
  NoDup r.1 ∧ fresh_cache alive r.2 ∧ (∀ x, x ∈ r.1 → ORSet.contains alive x = true) ∧
  ∀ x, ORSet.contains alive x = true → glob_test pattern x = true → x ∈ r.1.
Proof.
  intros Hf.
  cbn zeta. unfold QueryNodePatternIndex.liveCandidates.
  set (patterns := match pattern with inl p => [p] | inr ps => ps end).
  destruct (QueryNodePatternIndex.patternRoute patterns) as [route|] eqn:Er; cbn [fst snd].
  2: { change (QueryNodePatternIndex.allLiveCandidates alive) with (ORSet.elements alive).
       split; [apply ORSet.elements_NoDup|]. split; [done|]. split; [apply ORSet.elem_of_elements|].
       intros x Hx _. by apply ORSet.elem_of_elements. }
  pose proof (indexedCandidates_spec alive cached route Hf) as Hi.
  destruct (QueryNodePatternIndex.indexedCandidates alive cached route) as [l cached'].
  destruct Hi as (Hnd & Hc & Hx). split; [done|]. split; [done|]. split; [intros x [_ ?]%Hx; done|].
  intros x Hal Hg. apply Hx. split; [|done].
  pose proof (proj1 (glob_test_spec pattern x) Hg) as Hm. destruct pattern as [p|ps].
  - apply (patternRoute_matches patterns route p x Er); [by left|done].
  - destruct Hm as (p & Hp & Hm). by apply (patternRoute_matches patterns route p x Er).
Qed.

(** The candidates of a pattern are alive, without duplicates, and contain
    every alive node that matches, by the binary search on the sorted keys as by
    the scan of all keys: filtered by the pattern they are the nodes a scan
    finds. The cache stays fresh, also when nodes are added afterwards. *)
Theorem pattern_index_complete (alive : ORSet.ORSet) cached (pattern : string + list string) :
  fresh_cache alive cached →
  let r := QueryNodePatternIndex.liveCandidates alive cached pattern in
  NoDup r.1 ∧ (∀ x, x ∈ r.1 → ORSet.contains alive x = true) ∧
  filter (λ x, glob_test pattern x = true) r.1 ≡ₚ
    filter (λ x, glob_test pattern x = true) (ORSet.elements alive) ∧
  fresh_cache alive r.2 ∧ ∀ e dot, fresh_cache (ORSet.add e dot alive) r.2.
Proof.
  intros Hf. destruct (liveCandidates_spec alive cached pattern Hf) as (Hnd & Hc & Hal & Hall). cbn zeta.
  split; [done|]. split; [done|]. split; [|split; [done|by intros; apply add_fresh]].
  apply NoDup_Permutation; [by apply NoDup_filter|apply NoDup_filter, ORSet.elements_NoDup|].
  intros x. rewrite !list_elem_of_filter, ORSet.elem_of_elements.
  split; [by intros [? ?%Hal]|by intros [? ?]; auto].
Qed.

(** ** Runs *)
Section runs.
Import QueryNodePatternIndex.

Definition alive_of (l : list (string * Z)) : ORSet.ORSet :=
  foldl (λ s '(x, i), ORSet.add x (Dot.mk "w" i) s) ORSet.empty l.

Definition people : ORSet.ORSet := alive_of [("user:b", 1%Z); ("tag:a", 2%Z); ("user:a", 3%Z)].

Lemma pattern_index_complete_witness :
  let r := liveCandidates people None (inl "user:*") in
  NoDup r.1 ∧ (∀ x, x ∈ r.1 → ORSet.contains people x = true) ∧
  filter (λ x, glob_test (inl "user:*") x = true) r.1 ≡ₚ
    filter (λ x, glob_test (inl "user:*") x = true) (ORSet.elements people) ∧
  fresh_cache people r.2 ∧ ∀ e dot, fresh_cache (ORSet.add e dot people) r.2.
Proof. exact (pattern_index_complete people None (inl "user:*") (λ c E, match E with end)). Defined.

Example people_found : (liveCandidates people None (inl "user:*")).1 = ["user:a"; "user:b"].
Proof. vm_compute. reflexivity. Qed.

(** What [entryCount] relies on is that one set only gets entries: compacted in
    place, with one entry collected and another added, it would hide the new
    node. Garbage collection runs on a clone, which has a cache of its own. *)
Lemma pattern_index_stale :
  let alive := alive_of [("a1", 1%Z)] in
  let cached := (liveCandidates alive None (inl "a*")).2 in
  let alive' := ORSet.add "b1" (Dot.mk "w" 2)
    (ORSet.compact (VersionVector.mk {["w" := 1%Z]} false) (ORSet.remove {["w:1"]} alive)).1 in
  ORSet.contains alive' "b1" = true ∧
  (liveCandidates alive' cached (inl "b*")).1 = [] ∧
  (liveCandidates alive' None (inl "b*")).1 = ["b1"].
Proof. vm_compute. auto. Qed.
End runs.
