(* ===== verification/ReadModel.v ===== *)
(** Read models: what queries and traversals see of a state
    ([query/QueryReadModelProvider.ts], [query/QueryPlan.ts],
    [services/NodePropertyProjection.ts], [query/StateQueryReadModel.ts],
    [query/VisibleQueryReadModel.ts], [query/QueryReadModelNeighborProvider.ts]). *)
From S2P Require Export Adjacency PatternIndex.
#[local] Open Scope string_scope.
#[local] Open Scope list_scope.

(** ** Property values in snapshots *)
Module Snapshot.

(* @src domain/services/snapshot/SnapshotPropValue.ts SnapshotPropValue 10-17 *)
Inductive SnapshotPropValue : Type :=
  | SnNull
  | SnBool (b : bool)
  | SnNumber (n : jsnum)
  | SnString (s : string)
  | SnBytes (bytes : list Z)
  | SnArray (items : list SnapshotPropValue)
  | SnObject (fields : list (string * SnapshotPropValue)).

(** [None] is a value that is no tree of property values. *)
Definition all_some {A B} (f : A → option B) (l : list A) : option (list B) :=
  foldr (λ x acc, match f x, acc with Some y, Some ys => Some (y :: ys) | _, _ => None end) (Some []) l.

(* @src domain/services/ImmutableSnapshot.ts createSnapshotPropValueArray *)
Definition createSnapshotPropValueArray (rec : jsval → option SnapshotPropValue) (source : list jsval)
    : option SnapshotPropValue :=
  SnArray <$> all_some rec source.

(* @src domain/services/ImmutableSnapshot.ts createSnapshotPropValueObject *)
Definition createSnapshotPropValueObject (rec : jsval → option SnapshotPropValue)
    (source : list (string * jsval)) : option SnapshotPropValue :=
  SnObject <$> all_some (λ '(key, value), pair key <$> rec value) source.

(** A tree is at most as high as there are objects, plus the leaf. *)
(* @src domain/services/ImmutableSnapshot.ts createSnapshotPropValue *)
Fixpoint create (fuel : nat) (h : heap) (source : jsval) : option SnapshotPropValue :=
  match fuel with
  | O => None
  | S fuel' =>
      match source with
      | JUndefined => None
      | JNull => Some SnNull
      | JBool b => Some (SnBool b)
      | JNum n => Some (SnNumber n)
      | JStr s => Some (SnString s)
      | JRef a =>
          match h !! a with
          | None => None
          | Some (OBytes bytes) => Some (SnBytes bytes)
          | Some (OArray items) => createSnapshotPropValueArray (create fuel' h) items
          | Some (OPlain fields) | Some (OOther fields) =>
              createSnapshotPropValueObject (create fuel' h) fields
          end
      end
  end.

Definition createSnapshotPropValue (h : heap) (source : jsval) : option SnapshotPropValue :=
  create (S (size h)) h source.
End Snapshot.
Export Snapshot(SnapshotPropValue).

(** A property bag. [__proto__] names the prototype of an object, not a property
    of its own; what a bag would inherit through it is left out. *)
Abbreviation Bag := (gmap string SnapshotPropValue).

(** [bag[key] = value] *)
Definition bag_set (key : string) (value : SnapshotPropValue) (bag : Bag) : Bag :=
  if decide (key = "__proto__") then bag else <[key := value]> bag.

(** ** Plans and read models *)
Module QueryPlan.

(* @src domain/services/query/QueryPlan.ts QueryNodeEdgeSnapshot 5-9 *)
Record QueryNodeEdgeSnapshot := mkEdgeSnapshot {
  es_label : string;
  to : option string;
  from : option string;
}.

(* @src domain/services/query/QueryPlan.ts QueryNodeSnapshot 19-24 *)
Record QueryNodeSnapshot := mkSnapshot {
  id : string;
  props : Bag;
  edgesOut : list QueryNodeEdgeSnapshot;
  edgesIn : list QueryNodeEdgeSnapshot;
}.

Inductive QueryDirection := outgoing | incoming.

#[global] Instance QueryDirection_eq_dec : EqDecision QueryDirection.
Proof. solve_decision. Defined.

(** A predicate may throw. *)
(* @src domain/services/query/QueryPlan.ts QueryOperation 27-40 *)
Inductive QueryOperation :=
  | Where (fn : QueryNodeSnapshot → result bool)
  | Traverse (type : QueryDirection) (label : option string) (depth : nat * nat).

(* @src domain/services/query/QueryPlan.ts AggregateSpec 43-49 *)
Record AggregateSpec := mkAggregate {
  count : option bool;
  sum : option string;
  avg : option string;
  min : option string;
  max : option string;
}.

(* @src domain/services/query/QueryPlan.ts QueryPlan 51-68 *)
Record QueryPlan := mkPlan {
  pattern : string + list string;
  operations : list QueryOperation;
  select : option (list string);
  aggregate : option AggregateSpec;
}.
End QueryPlan.

Module QueryReadModel.
Import QueryPlan.

(* @src domain/services/query/QueryReadModelProvider.ts QueryNodeStreamRequest 12-15 *)
Record QueryNodeStreamRequest := mkRequest {
  r_pattern : string + list string;
  r_select : option (list string);
}.

(* @src domain/services/query/QueryReadModelProvider.ts QueryNeighborOptions 17-20 *)
Record QueryNeighborOptions := mkNeighborOptions {
  o_label : option string;
  o_direction : QueryDirection;
}.

(* @src domain/services/query/QueryReadModelProvider.ts QueryNeighborEntry 22-25 *)
Record QueryNeighborEntry := mkNeighbor { nodeId : string; n_label : string }.

(** The streams are read to their end. *)
(* @src domain/services/query/QueryReadModelProvider.ts QueryReadModel 27-35 *)
Record QueryReadModel := mk {
  stateHash : string;
  nodes : QueryNodeStreamRequest → result (list QueryNodeSnapshot);
  neighbors : string → QueryNeighborOptions → result (list QueryNeighborEntry);
  nodeProps : string → result (option Bag);
}.

(* @src domain/services/query/VisibleQueryReadModel.ts QueryReadModelVisibility 14-18 *)
Record Visibility := mkVisibility {
  match_ : string + list string;
  expose : option (list string);
  redact : option (list string);
}.

(** An empty list is no filter. *)
(* @src domain/services/query/StateQueryReadModel.ts toFilterSet *)
Definition toFilterSet (l : option (list string)) : option (list string) :=
  match l with Some (x :: l') => Some (x :: l') | _ => None end.

(* @src domain/services/query/StateQueryReadModel.ts isKeyVisible *)
Definition isKeyVisible (key : string) (redactSet exposeSet : option (list string)) : bool :=
  match redactSet with
  | Some ks => if decide (key ∈ ks) then false else
      match exposeSet with Some es => bool_decide (key ∈ es) | None => true end
  | None => match exposeSet with Some es => bool_decide (key ∈ es) | None => true end
  end.
End QueryReadModel.

(** ** Node properties *)
Module NodePropertyProjection.

(* @src domain/graph/VisibleNodePropertyRecord.ts VisibleNodePropertyRecord 13-16 *)
Record VisibleNodePropertyRecord := mkRecord {
  owner : NodeRecord.NodeRecord;
  key : string;
  value : jsval;
}.

(* @src domain/graph/LegacyPropertyKeyClassification.ts requireLegacyPropertyKeyValue *)
Definition requireLegacyPropertyKeyValue (value : string) : result string :=
  _ ← require (str_nonempty value) E_VALIDATION;
  _ ← require (negb (str_includes FIELD_SEPARATOR value)) E_VALIDATION;
  Ok value.

(** The copies it makes are the same tree. *)
(* @src domain/graph/LegacyPropertyValue.ts requirePropValue *)
Definition requirePropValue (h : heap) (value : jsval) : result jsval :=
  _ ← require (bool_decide (PropValue.isPropValue h value = Some true)) E_VALIDATION;
  Ok value.

(* @src domain/services/LegacyPropertyProjectionTarget.ts isNonEmptyLegacySegment *)
Definition isNonEmptyLegacySegment (value : string) : bool :=
  str_nonempty value && negb (str_includes FIELD_SEPARATOR value).

(* @src domain/services/LegacyPropertyProjectionTarget.ts isLegacyNodeSegment *)
Definition isLegacyNodeSegment (value : string) : bool :=
  isNonEmptyLegacySegment value && negb (starts_with_prefix value).

(* @src domain/services/LegacyPropertyProjectionTarget.ts isLegacyNodePropertyProjectionTarget *)
Definition isLegacyNodePropertyProjectionTarget (nodeId : string) : bool :=
  isLegacyNodeSegment nodeId.

(** The pair (nodeId, propKey). *)
(* @src domain/services/NodePropertyProjection.ts nodePropertyKeyPartsFromValues *)
Definition nodePropertyKeyPartsFromValues (nodeId propKey : string) : option (string * string) :=
  if str_nonempty nodeId then if str_nonempty propKey then Some (nodeId, propKey) else None else None.

(* @src domain/services/NodePropertyProjection.ts nodePropertyKeyPartsFromSegments *)
Definition nodePropertyKeyPartsFromSegments (parts : list string) : option (string * string) :=
  match parts with
  | [nodeId; propKey] => nodePropertyKeyPartsFromValues nodeId propKey
  | _ => None
  end.

(* @src domain/services/NodePropertyProjection.ts decodeVisibleNodePropertyKey *)
Definition decodeVisibleNodePropertyKey (encodedKey : string) : option (string * string) :=
  if starts_with_prefix encodedKey then None
  else nodePropertyKeyPartsFromSegments (str_split FIELD_SEPARATOR encodedKey).

Section projection.
Context (h : heap).

(* @src domain/services/NodePropertyProjection.ts nodePropertyRecordForRegister *)
Definition nodePropertyRecordForRegister (s : WarpState.WarpState) (encodedKey : string)
    (register : WarpState.register) : result (option VisibleNodePropertyRecord) :=
  match decodeVisibleNodePropertyKey encodedKey with
  | None => Ok None
  | Some (nodeId, propKey) =>
      owner ← WarpState.getNodeRecord s (inl nodeId);
      match owner with
      | None => Ok None
      | Some owner =>
          key ← requireLegacyPropertyKeyValue propKey;
          value ← requirePropValue h (LWW.value register);
          Ok (Some (mkRecord owner key value))
      end
  end.

(* @src domain/services/NodePropertyProjection.ts nodePropertyRecordForOwnerRegister *)
Definition nodePropertyRecordForOwnerRegister (owner : NodeRecord.NodeRecord) (encodedKey : string)
    (register : WarpState.register) : result (option VisibleNodePropertyRecord) :=
  match decodeVisibleNodePropertyKey encodedKey with
  | None => Ok None
  | Some (nodeId, propKey) =>
      if decide (nodeId = NodeId.toString (NodeRecord.id owner)) then
        key ← requireLegacyPropertyKeyValue propKey;
        value ← requirePropValue h (LWW.value register);
        Ok (Some (mkRecord owner key value))
      else Ok None
  end.

(* @src domain/services/NodePropertyProjection.ts nodePropertyRecordSortKey *)
Definition nodePropertyRecordSortKey (record : VisibleNodePropertyRecord) : string :=
  NodeId.toString (NodeRecord.id (owner record)) +:+ ":" +:+ key record.

(* @src domain/services/NodePropertyProjection.ts compareNodePropertyRecords *)
Definition compareNodePropertyRecords (left right : VisibleNodePropertyRecord) : Z :=
  compareStrings (nodePropertyRecordSortKey left) (nodePropertyRecordSortKey right).

(* @src domain/services/NodePropertyProjection.ts fromState *)
Definition fromState (s : WarpState.WarpState) : result (list VisibleNodePropertyRecord) :=
  records ← map_result (λ '(k, r), nodePropertyRecordForRegister s k r) (WarpState.allPropEntries s);
  Ok (js_sort compareNodePropertyRecords (omap (λ r, r) records)).

(* @src domain/services/NodePropertyProjection.ts forNodeRecord *)
Definition forNodeRecord (s : WarpState.WarpState) (owner : NodeRecord.NodeRecord)
    : result (list VisibleNodePropertyRecord) :=
  let ownerKeyPrefix := encodePropKey (NodeId.toString (NodeRecord.id owner)) "" in
  records ← map_result (λ '(k, r), nodePropertyRecordForOwnerRegister owner k r)
              (filter (λ e, String.prefix ownerKeyPrefix e.1) (WarpState.allPropEntries s));
  Ok (js_sort compareNodePropertyRecords (omap (λ r, r) records)).

(* @src domain/services/NodePropertyProjection.ts nodeRecordForProjectionTarget *)
Definition nodeRecordForProjectionTarget (s : WarpState.WarpState) (nodeId : string + NodeId.NodeId)
    : result (option NodeRecord.NodeRecord) :=
  match nodeId with
  | inr _ => WarpState.getNodeRecord s nodeId
  | inl n =>
      if isLegacyNodePropertyProjectionTarget n then WarpState.getNodeRecord s nodeId else Ok None
  end.

(* @src domain/services/NodePropertyProjection.ts forNode *)
Definition forNode (s : WarpState.WarpState) (nodeId : string + NodeId.NodeId)
    : result (list VisibleNodePropertyRecord) :=
  owner ← nodeRecordForProjectionTarget s nodeId;
  match owner with None => Ok [] | Some owner => forNodeRecord s owner end.
End projection.
End NodePropertyProjection.

(** ** The read model of a state *)
Module StateQueryReadModel.
Import QueryPlan QueryReadModel.

(* @src domain/services/query/StateQueryReadModel.ts StateQueryReadModelParams 27-32 *)
Record StateQueryReadModel := new {
  state : WarpState.WarpState;
  s_stateHash : string;
  visibility : Visibility;
  neighborProvider : option NeighborProviderPort.NeighborProviderPort;
}.

Section model.
Context (h : heap) (m : StateQueryReadModel).

(* @src domain/services/query/StateQueryReadModel.ts isVisibleNode 236-239 *)
Definition isVisibleNode (nodeId : string) : bool :=
  ORSet.contains (WarpState.nodeAlive (state m)) nodeId && glob_test (match_ (visibility m)) nodeId.

(* @src domain/services/query/StateQueryReadModel.ts emptyNodeSnapshot *)
Definition emptyNodeSnapshot (id : string) : QueryNodeSnapshot := mkSnapshot id ∅ [] [].

(** The index of the alive set may be cached. *)
(* @src domain/services/query/StateQueryReadModel.ts visibleNodes 183-189 *)
Definition visibleNodes (cached : option QueryNodePatternIndex.SortedEntryKeyCache)
    (request : QueryNodeStreamRequest) : list QueryNodeSnapshot :=
  emptyNodeSnapshot <$>
    filter (λ nodeId, isVisibleNode nodeId && glob_test (r_pattern request) nodeId)
      (QueryNodePatternIndex.liveCandidates (WarpState.nodeAlive (state m)) cached (r_pattern request)).1.

(* @src domain/services/query/StateQueryReadModel.ts outgoingNeighbor 222-227 *)
Definition outgoingNeighbor (nodeId : string) (edge : edge_parts) : option string :=
  if decide (ep_from edge = nodeId) then Some (ep_to edge) else None.
(* @src domain/services/query/StateQueryReadModel.ts incomingNeighbor 229-234 *)
Definition incomingNeighbor (nodeId : string) (edge : edge_parts) : option string :=
  if decide (ep_to edge = nodeId) then Some (ep_from edge) else None.

(* @src domain/services/query/StateQueryReadModel.ts labelMatches *)
Definition labelMatches (label : string) (filter : option string) : bool :=
  match filter with None => true | Some f => bool_decide (label = f) end.

(* @src domain/services/query/StateQueryReadModel.ts linearNeighborForEdge 203-220 *)
Definition linearNeighborForEdge (edgeKey nodeId : string) (options : QueryNeighborOptions)
    : option QueryNeighborEntry :=
  let edge := decodeEdgeKey edgeKey in
  let neighborId := match o_direction options with
                    | outgoing => outgoingNeighbor nodeId edge
                    | incoming => incomingNeighbor nodeId edge
                    end in
  match neighborId with
  | None => None
  | Some neighborId =>
      if negb (labelMatches (ep_label edge) (o_label options)) || negb (isVisibleNode neighborId)
      then None else Some (mkNeighbor neighborId (ep_label edge))
  end.

(* @src domain/services/query/StateQueryReadModel.ts visibleLinearNeighbors 191-201 *)
Definition visibleLinearNeighbors (nodeId : string) (options : QueryNeighborOptions)
    : list QueryNeighborEntry :=
  omap (λ edgeKey, linearNeighborForEdge edgeKey nodeId options)
    (ORSet.elements (WarpState.edgeAlive (state m))).

(* @src domain/services/query/StateQueryReadModel.ts providerDirection *)
Definition providerDirection (direction : QueryDirection) : Direction :=
  match direction with outgoing => DOut | incoming => DIn end.

(* @src domain/services/query/StateQueryReadModel.ts nodeEdgeEntry *)
Definition nodeEdgeEntry (edge : NeighborEdge) : QueryNeighborEntry :=
  mkNeighbor (neighborId edge) (label edge).

(* @src domain/services/query/StateQueryReadModel.ts indexedNeighbors 158-174 *)
Definition indexedNeighbors (provider : NeighborProviderPort.NeighborProviderPort) (nodeId : string)
    (options : QueryNeighborOptions) : result (list QueryNeighborEntry) :=
  edges ← NeighborProviderPort.getNeighbors provider nodeId (providerDirection (o_direction options))
    (mkOptions (match o_label options with None => None | Some l => Some [l] end));
  Ok (nodeEdgeEntry <$> filter (λ edge : NeighborEdge, isVisibleNode (neighborId edge)) (edges : list NeighborEdge)).

(* @src domain/services/query/StateQueryReadModel.ts neighbors 129-139 *)
Definition model_neighbors (nodeId : string) (options : QueryNeighborOptions)
    : result (list QueryNeighborEntry) :=
  if isVisibleNode nodeId then
    match neighborProvider m with
    | Some provider => indexedNeighbors provider nodeId options
    | None => Ok (visibleLinearNeighbors nodeId options)
    end
  else Ok [].

(** Throws what the projection throws; the values it lets through are trees. *)
(* @src domain/services/query/StateQueryReadModel.ts nodeProps *)
Definition model_nodeProps (nodeId : string) : result (option Bag) :=
  if isVisibleNode nodeId then
    let redactSet := toFilterSet (redact (visibility m)) in
    let exposeSet := toFilterSet (expose (visibility m)) in
    records ← NodePropertyProjection.forNode h (state m) (inl nodeId);
    Ok (Some (foldl (λ props record,
      let propKey := NodePropertyProjection.key record in
      if isKeyVisible propKey redactSet exposeSet then
        match Snapshot.createSnapshotPropValue h (NodePropertyProjection.value record) with
        | Some v => bag_set propKey v props
        | None => props
        end
      else props) ∅ records))
  else Ok None.

(* @src domain/services/query/StateQueryReadModel.ts nodes 125-127 *)
Definition model (cached : option QueryNodePatternIndex.SortedEntryKeyCache) : QueryReadModel :=
  mk (s_stateHash m) (λ request, Ok (visibleNodes cached request)) model_neighbors model_nodeProps.
End model.
End StateQueryReadModel.

(** ** What an observer lets through *)
Module VisibleQueryReadModel.
Import QueryPlan QueryReadModel.

Section model.
Context (source : QueryReadModel) (visibility : Visibility).

(* @src domain/services/query/VisibleQueryReadModel.ts isVisibleNode 142-144 *)
Definition isVisibleNode (nodeId : string) : bool := glob_test (match_ visibility) nodeId.

(* @src domain/services/query/VisibleQueryReadModel.ts filterProps *)
Definition filterProps (props : Bag) : Bag :=
  let redactSet := toFilterSet (redact visibility) in
  let exposeSet := toFilterSet (expose visibility) in
  foldl (λ filtered '(key, value),
    if isKeyVisible key redactSet exposeSet then bag_set key value filtered else filtered) ∅
    (map_to_list props).

(* @src domain/services/query/VisibleQueryReadModel.ts edgeEndpointVisible *)
Definition edgeEndpointVisible (edge : QueryNodeEdgeSnapshot) : bool :=
  match to edge with
  | Some n => glob_test (match_ visibility) n
  | None => match from edge with Some n => glob_test (match_ visibility) n | None => true end
  end.

(* @src domain/services/query/VisibleQueryReadModel.ts visibleEdges *)
Definition visibleEdges (edges : list QueryNodeEdgeSnapshot) : list QueryNodeEdgeSnapshot :=
  filter (λ e, edgeEndpointVisible e) edges.

(* @src domain/services/query/VisibleQueryReadModel.ts visibleNode *)
Definition visibleNode (node : QueryNodeSnapshot) : QueryNodeSnapshot :=
  mkSnapshot (id node) (filterProps (props node)) (visibleEdges (edgesOut node)) (visibleEdges (edgesIn node)).

(* @src domain/services/query/VisibleQueryReadModel.ts nodes 109-115 *)
Definition visible_nodes (request : QueryNodeStreamRequest) : result (list QueryNodeSnapshot) :=
  ns ← nodes source request;
  Ok (visibleNode <$> filter (λ n, isVisibleNode (id n)) (ns : list QueryNodeSnapshot)).

(* @src domain/services/query/VisibleQueryReadModel.ts neighbors 117-129 *)
Definition visible_neighbors (nodeId : string) (options : QueryNeighborOptions)
    : result (list QueryNeighborEntry) :=
  if isVisibleNode nodeId then
    es ← neighbors source nodeId options;
    Ok (filter (λ e, isVisibleNode (QueryReadModel.nodeId e)) (es : list QueryNeighborEntry))
  else Ok [].

(* @src domain/services/query/VisibleQueryReadModel.ts nodeProps *)
Definition visible_nodeProps (nodeId : string) : result (option Bag) :=
  if isVisibleNode nodeId then
    props ← nodeProps source nodeId;
    Ok (filterProps <$> (props : option Bag))
  else Ok None.

Definition model : QueryReadModel :=
  mk (stateHash source) visible_nodes visible_neighbors visible_nodeProps.
End model.
End VisibleQueryReadModel.

(** ** Neighbours from a read model *)
Module QueryReadModelNeighborProvider.
Import QueryPlan QueryReadModel.

(* @src domain/services/query/QueryReadModelNeighborProvider.ts compareEdges *)
Definition compareEdges (a b : NeighborEdge) : Z :=
  if str_ltb (neighborId a) (neighborId b) then -1
  else if str_ltb (neighborId b) (neighborId a) then 1
  else if str_ltb (label a) (label b) then -1
  else if str_ltb (label b) (label a) then 1
  else 0.

(* @src domain/services/query/QueryReadModelNeighborProvider.ts singleQueryLabel *)
Definition singleQueryLabel (labels : option (list string)) : option string :=
  match labels with
  | None => None
  | Some ls => match remove_dups ls with [l] => Some l | _ => None end
  end.

(* @src domain/services/query/QueryReadModelNeighborProvider.ts queryOptions *)
Definition queryOptions (direction : QueryDirection) (labels : option (list string)) : QueryNeighborOptions :=
  mkNeighborOptions (singleQueryLabel labels) direction.

(* @src domain/services/query/QueryReadModelNeighborProvider.ts labelAllowed *)
Definition labelAllowed (entry : QueryNeighborEntry) (labels : option (list string)) : bool :=
  match labels with None => true | Some ls => bool_decide (n_label entry ∈ ls) end.

(* @src domain/services/query/QueryReadModelNeighborProvider.ts toNeighborEdge *)
Definition toNeighborEdge (entry : QueryNeighborEntry) : NeighborEdge :=
  mkEdge (QueryReadModel.nodeId entry) (n_label entry).

(* @src domain/services/query/QueryReadModelNeighborProvider.ts edgeKey *)
Definition edgeKey (edge : NeighborEdge) : string := neighborId edge +:+ nul +:+ label edge.

Section provider.
Context (readModel : QueryReadModel).

(* @src domain/services/query/QueryReadModelNeighborProvider.ts directionalNeighbors 96-108 *)
Definition directionalNeighbors (nodeId : string) (direction : QueryDirection)
    (labels : option (list string)) : result (list NeighborEdge) :=
  entries ← neighbors readModel nodeId (queryOptions direction labels);
  Ok (js_sort compareEdges
        (toNeighborEdge <$> filter (λ e, labelAllowed e labels) (entries : list QueryNeighborEntry))).

(* @src domain/services/query/QueryReadModelNeighborProvider.ts bothNeighbors 83-94 *)
Definition bothNeighbors (nodeId : string) (labels : option (list string)) : result (list NeighborEdge) :=
  outs ← directionalNeighbors nodeId outgoing labels;
  ins ← directionalNeighbors nodeId incoming labels;
  let deduped := foldl (λ m edge, ordmap_set (edgeKey edge) edge m) [] (outs : list NeighborEdge) in
  let deduped := foldl (λ m edge,
    match ordmap_get (edgeKey edge) m with None => ordmap_set (edgeKey edge) edge m | Some _ => m end)
    deduped (ins : list NeighborEdge) in
  Ok (js_sort compareEdges deduped.*2).

(* @src domain/services/query/QueryReadModelNeighborProvider.ts getNeighbors *)
Definition getNeighbors (nodeId : string) (direction : Direction) (options : NeighborOptions)
    : result (list NeighborEdge) :=
  match direction with
  | DBoth => bothNeighbors nodeId (labels options)
  | DOut => directionalNeighbors nodeId outgoing (labels options)
  | DIn => directionalNeighbors nodeId incoming (labels options)
  end.

(* @src domain/services/query/QueryReadModelNeighborProvider.ts hasNode *)
Definition hasNode (nodeId : string) : result bool :=
  props ← nodeProps readModel nodeId;
  Ok (bool_decide (is_Some (props : option Bag))).

(** The latency class is the one of the base class. *)
Definition port : NeighborProviderPort.NeighborProviderPort :=
  NeighborProviderPort.mk getNeighbors hasNode async_local.
End provider.
End QueryReadModelNeighborProvider.

(** ** Observers over a state *)
Section observers.
Import QueryPlan QueryReadModel.

(** The visibility of the live read model. *)
Definition everything : Visibility := mkVisibility (inl "*") None None.

Lemma glob_everything n : glob_test (match_ everything) n = true.
Proof. apply glob_test_spec. by left. Qed.

Lemma isVisibleNode_everything s hash np n :
  StateQueryReadModel.isVisibleNode (StateQueryReadModel.new s hash everything np) n =
  ORSet.contains (WarpState.nodeAlive s) n.
Proof. unfold StateQueryReadModel.isVisibleNode. cbn [StateQueryReadModel.visibility]. by rewrite glob_everything, andb_true_r. Qed.

Lemma filter_filter_bool {A} (f g : A → bool) (l : list A) :
  filter (λ x, f x) (filter (λ x, g x) l) = filter (λ x, g x && f x) l.
Proof.
  induction l as [|x l IH]; [done|]. rewrite !filter_cons.
  destruct (g x) eqn:Eg; simpl; [|exact IH]. rewrite filter_cons. destruct (f x); simpl; [by f_equal|exact IH].
Qed.

Lemma filter_fmap_bool {A B} (f : A → B) (g : B → bool) (l : list A) :
  filter (λ y, g y) (f <$> l) = f <$> filter (λ x, g (f x)) l.
Proof.
  induction l as [|x l IH]; [done|]. rewrite fmap_cons, !filter_cons. destruct (g (f x)); simpl; [by f_equal|done].
Qed.

Lemma filter_ext_bool {A} (f g : A → bool) (l : list A) :
  (∀ x, x ∈ l → f x = g x) → filter (λ x, f x) l = filter (λ x, g x) l.
Proof.
  induction l as [|x l IH]; intros Hfg; [done|]. rewrite !filter_cons, (Hfg x) by by left.
  rewrite IH by (intros y Hy; apply Hfg; by right). done.
Qed.

Lemma filter_omap_bool {A B} (f : A → option B) (g : B → bool) (l : list A) :
  filter (λ y, g y) (omap f l) = omap (λ x, y ← f x; if g y then Some y else None) l.
Proof.
  induction l as [|x l IH]; [done|]. csimpl. destruct (f x) as [y|]; [|exact IH]. simpl.
  rewrite filter_cons. destruct (g y); simpl; [by f_equal|exact IH].
Qed.

(** ** Bags under a filter of keys *)
Lemma lookup_bag_set k v bag k' :
  bag_set k v bag !! k' = if decide (k = k' ∧ k ≠ "__proto__") then Some v else bag !! k'.
Proof.
  unfold bag_set. destruct (decide (k = "__proto__")) as [->|Hk]; [rewrite decide_False by naive_solver; done|].
  destruct (decide (k = k')) as [->|Hne].
  - by rewrite lookup_insert_eq, decide_True.
  - by rewrite lookup_insert_ne, decide_False by naive_solver.
Qed.

Section bags.
Context (keep : string → bool).

(** Filtering while a bag is filled is filtering the filled bag. *)
Lemma lookup_filled {R} (key : R → string) (val : R → option SnapshotPropValue) records k :
  let fill (keep : string → bool) := foldl (λ props r,
    if keep (key r) then match val r with Some v => bag_set (key r) v props | None => props end
    else props) (∅ : Bag) records in
  fill keep !! k = (if keep k then fill (λ _, true) !! k else None) ∧
  fill (λ _, true) !! "__proto__" = None.
Proof.
  cbn zeta.
  enough (∀ b1 b2 : Bag, b1 !! k = (if keep k then b2 !! k else None) → b2 !! "__proto__" = None →
    let fill (keep : string → bool) b := foldl (λ props r,
      if keep (key r) then match val r with Some v => bag_set (key r) v props | None => props end
      else props) b records in
    fill keep b1 !! k = (if keep k then fill (λ _, true) b2 !! k else None) ∧
    fill (λ _, true) b2 !! "__proto__" = None) as Hgen
    by (apply Hgen; [by destruct (keep k)|done]).
  induction records as [|r records IH]; intros b1 b2 E Ep; [done|]. cbn [foldl]. apply IH.
  - destruct (val r) as [v|]; [|by destruct (keep (key r))].
    destruct (keep (key r)) eqn:Er; rewrite !lookup_bag_set, ?E; [|].
    + destruct (decide _) as [[<- _]|]; [by rewrite Er|done].
    + destruct (decide _) as [[<- _]|]; [by rewrite Er in *|done].
  - destruct (val r) as [v|]; [|done]. rewrite lookup_bag_set. rewrite decide_False; [done|]. naive_solver.
Qed.

Lemma lookup_filtered (bag : Bag) k :
  bag !! "__proto__" = None →
  foldl (λ filtered '(key, value), if keep key then bag_set key value filtered else filtered) (∅ : Bag)
    (map_to_list bag) !! k = if keep k then bag !! k else None.
Proof.
  intros Hp.
  enough (∀ (l : list (string * SnapshotPropValue)) (acc : Bag), NoDup l.*1 → "__proto__" ∉ l.*1 →
    foldl (λ filtered '(key, value), if keep key then bag_set key value filtered else filtered) acc l !! k
    = match (list_to_map l : Bag) !! k with
      | Some v => if keep k then Some v else acc !! k
      | None => acc !! k
      end) as Hgen.
  { rewrite Hgen; [|apply NoDup_fst_map_to_list|].
    - rewrite list_to_map_to_list, lookup_empty. by destruct (bag !! k), (keep k).
    - intros Hin. apply elem_of_map_keys in Hin as [v Hv]. congruence. }
  induction l as [|[k1 v1] l IH]; intros acc Hnd Hni; [done|]. cbn [foldl fmap list_fmap fst] in *.
  apply NoDup_cons in Hnd as [Hk1 Hnd]. apply not_elem_of_cons in Hni as [Hne Hni].
  rewrite IH by done. simpl. destruct (decide (k1 = k)) as [->|Hkk].
  - rewrite lookup_insert_eq, (not_elem_of_list_to_map_1 _ _ Hk1).
    destruct (keep k); [|done]. rewrite lookup_bag_set, decide_True by done. done.
  - rewrite lookup_insert_ne by done. destruct (keep k1); [|done].
    by rewrite lookup_bag_set, decide_False by naive_solver.
Qed.
End bags.

Section layered.
Context (h : heap) (s : WarpState.WarpState) (hash : string) (v : Visibility).
Context (np : option NeighborProviderPort.NeighborProviderPort).
Context (cached : option QueryNodePatternIndex.SortedEntryKeyCache).
#[local] Abbreviation all := (StateQueryReadModel.new s hash everything np).
#[local] Abbreviation restricted := (StateQueryReadModel.new s hash v np).
#[local] Abbreviation layered := (VisibleQueryReadModel.model (StateQueryReadModel.model h all cached) v).
#[local] Abbreviation direct := (StateQueryReadModel.model h restricted cached).

Lemma isVisibleNode_layered n :
  StateQueryReadModel.isVisibleNode restricted n =
  StateQueryReadModel.isVisibleNode all n && VisibleQueryReadModel.isVisibleNode v n.
Proof. by rewrite isVisibleNode_everything. Qed.

Lemma nodes_layered request : nodes layered request = nodes direct request.
Proof.
  cbn [nodes VisibleQueryReadModel.model StateQueryReadModel.model]. unfold VisibleQueryReadModel.visible_nodes.
  cbn [nodes StateQueryReadModel.model]. cbn [mbind result_bind]. f_equal.
  unfold StateQueryReadModel.visibleNodes. rewrite filter_fmap_bool, <- list_fmap_compose, filter_filter_bool.
  rewrite (filter_ext_bool (λ n, StateQueryReadModel.isVisibleNode restricted n && glob_test (r_pattern request) n)
    (λ n, (StateQueryReadModel.isVisibleNode all n && glob_test (r_pattern request) n) &&
      VisibleQueryReadModel.isVisibleNode v n)).
  - apply list_fmap_ext. intros i n _. done.
  - intros n _. rewrite isVisibleNode_layered. by destruct (StateQueryReadModel.isVisibleNode all n),
      (glob_test (r_pattern request) n), (VisibleQueryReadModel.isVisibleNode v n).
Qed.

Lemma linear_layered k n o :
  StateQueryReadModel.linearNeighborForEdge restricted k n o =
  (y ← StateQueryReadModel.linearNeighborForEdge all k n o;
   if VisibleQueryReadModel.isVisibleNode v (QueryReadModel.nodeId y) then Some y else None).
Proof.
  unfold StateQueryReadModel.linearNeighborForEdge.
  destruct (match o_direction o with outgoing => _ | incoming => _ end) as [m|]; [|done].
  rewrite isVisibleNode_layered. destruct (StateQueryReadModel.labelMatches _ _); simpl; [|done].
  destruct (StateQueryReadModel.isVisibleNode all m); simpl; [|done].
  by destruct (VisibleQueryReadModel.isVisibleNode v m).
Qed.

Lemma neighbors_layered n o : neighbors layered n o = neighbors direct n o.
Proof.
  cbn [neighbors VisibleQueryReadModel.model StateQueryReadModel.model].
  unfold VisibleQueryReadModel.visible_neighbors. cbn [neighbors StateQueryReadModel.model].
  unfold StateQueryReadModel.model_neighbors. rewrite isVisibleNode_layered.
  destruct (VisibleQueryReadModel.isVisibleNode v n) eqn:En; [rewrite andb_true_r|by rewrite andb_false_r].
  destruct (StateQueryReadModel.isVisibleNode all n); [|done]. cbn [StateQueryReadModel.neighborProvider].
  destruct np as [provider|].
  - unfold StateQueryReadModel.indexedNeighbors.
    destruct (NeighborProviderPort.getNeighbors _ _ _ _) as [es|e]; [|done]. simpl. f_equal.
    rewrite filter_fmap_bool, filter_filter_bool. f_equal. apply filter_ext_bool. intros e _.
    symmetry. apply isVisibleNode_layered.
  - simpl. f_equal. unfold StateQueryReadModel.visibleLinearNeighbors. rewrite filter_omap_bool.
    cbn [StateQueryReadModel.state]. apply list_omap_ext. apply Forall2_same_length_lookup_2; [done|].
    intros i k k' Hk Hk'. simplify_eq. symmetry. apply linear_layered.
Qed.

Lemma nodeProps_layered n : nodeProps layered n = nodeProps direct n.
Proof.
  cbn [nodeProps VisibleQueryReadModel.model StateQueryReadModel.model].
  unfold VisibleQueryReadModel.visible_nodeProps. cbn [nodeProps StateQueryReadModel.model].
  unfold StateQueryReadModel.model_nodeProps. rewrite isVisibleNode_layered.
  destruct (VisibleQueryReadModel.isVisibleNode v n) eqn:En; [rewrite andb_true_r|by rewrite andb_false_r].
  destruct (StateQueryReadModel.isVisibleNode all n); [|done]. cbn [StateQueryReadModel.state].
  destruct (NodePropertyProjection.forNode h s (inl n)) as [records|e]; [|done].
  cbn [mbind result_bind]. do 2 f_equal. simpl. f_equal.
  apply map_eq. intros k. unfold VisibleQueryReadModel.filterProps. cbn zeta.
  set (keep k := isKeyVisible k (toFilterSet (redact v)) (toFilterSet (expose v))).
  set (val r := Snapshot.createSnapshotPropValue h (NodePropertyProjection.value r)).
  pose proof (lookup_filled keep NodePropertyProjection.key val records k) as [Hk Hp]. cbn zeta in Hk, Hp.
  rewrite (lookup_filtered keep); [symmetry; exact Hk|exact Hp].
Qed.
End layered.
End observers.

(** The two ways in which an observer opens a read model show the same: a
    visibility laid over the read model of the whole state, and the read model
    of the state with that visibility, stream the same nodes, the same
    neighbours in the same order and the same properties, and throw alike, with
    and without an index of neighbours. *)
Theorem observer_read_models_agree (h : heap) (s : WarpState.WarpState) (hash : string)
    (v : QueryReadModel.Visibility) np cached :
  let layered := VisibleQueryReadModel.model
    (StateQueryReadModel.model h (StateQueryReadModel.new s hash everything np) cached) v in
  let direct := StateQueryReadModel.model h (StateQueryReadModel.new s hash v np) cached in
  QueryReadModel.stateHash layered = QueryReadModel.stateHash direct ∧
  (∀ request, QueryReadModel.nodes layered request = QueryReadModel.nodes direct request) ∧
  (∀ n o, QueryReadModel.neighbors layered n o = QueryReadModel.neighbors direct n o) ∧
  (∀ n, QueryReadModel.nodeProps layered n = QueryReadModel.nodeProps direct n).
Proof.
  cbn zeta. split; [done|]. split; [apply nodes_layered|]. split; [apply neighbors_layered|].
  apply nodeProps_layered.
Qed.

(** ** Neighbours by scan and by index *)
Section scan.
Context (h : heap) (s : WarpState.WarpState) (hash : string).
Context (cached : option QueryNodePatternIndex.SortedEntryKeyCache) (Hok : WarpState.edges_ok s).
Import QueryPlan QueryReadModel QueryReadModelNeighborProvider.
#[local] Abbreviation whole := (StateQueryReadModel.new s hash everything None).
#[local] Abbreviation scanned := (StateQueryReadModel.model h whole cached).
#[local] Abbreviation alive n := (ORSet.contains (WarpState.nodeAlive s) n).

Lemma compareEdges_edgeCmp l : js_sort compareEdges l = js_sort AdjacencyNeighborProvider.edgeCmp l.
Proof. done. Qed.

Definition side (d : QueryDirection) : Direction := StateQueryReadModel.providerDirection d.

Definition side_edge (d : QueryDirection) (n k : string) : option NeighborEdge :=
  match d with outgoing => out_edge s n k | incoming => in_edge s n k end.

Lemma single_label ls l e :
  singleQueryLabel ls = Some l → allowed (mkOptions ls) e → label e = l.
Proof.
  unfold singleQueryLabel, allowed. destruct ls as [ls|]; [|done]. simpl.
  destruct (remove_dups ls) as [|l1 [|]] eqn:E; try done. intros [= <-] Hl.
  specialize (Hl ls eq_refl). rewrite <- elem_of_remove_dups, E in Hl. by apply list_elem_of_singleton in Hl.
Qed.

Lemma scanned_edge d n k ls e :
  alive n = true →
  (∃ y, StateQueryReadModel.linearNeighborForEdge whole k n (queryOptions d ls) = Some y ∧
    labelAllowed y ls = true ∧ toNeighborEdge y = e) ↔
  side_edge d n k = Some e ∧ allowed (mkOptions ls) e.
Proof.
  intros Hn. unfold StateQueryReadModel.linearNeighborForEdge, side_edge, out_edge, in_edge,
    WarpState.endpoints_alive, StateQueryReadModel.outgoingNeighbor, StateQueryReadModel.incomingNeighbor.
  destruct (decodeEdgeKey k) as [f t lb]. cbn [ep_from ep_to ep_label queryOptions o_direction o_label].
  assert (∀ m, allowed (mkOptions ls) (mkEdge m lb) ↔ match ls with Some l => lb ∈ l | None => True end) as Hal
    by (intros m; unfold allowed; destruct ls; simpl; naive_solver).
  assert (∀ m, labelAllowed (mkNeighbor m lb) ls = true ↔ allowed (mkOptions ls) (mkEdge m lb)) as Hla.
  { intros m. rewrite Hal. unfold labelAllowed. destruct ls; [apply bool_decide_eq_true|done]. }
  assert (∀ m, allowed (mkOptions ls) (mkEdge m lb) →
    StateQueryReadModel.labelMatches lb (singleQueryLabel ls) = true) as Hlm.
  { intros m Ha. unfold StateQueryReadModel.labelMatches. destruct (singleQueryLabel ls) as [l|] eqn:El; [|done].
    apply bool_decide_eq_true. by apply (single_label ls l (mkEdge m lb)). }
  assert (∀ m, (∃ y, (if negb (StateQueryReadModel.labelMatches lb (singleQueryLabel ls))
       || negb (StateQueryReadModel.isVisibleNode whole m) then None else Some (mkNeighbor m lb)) = Some y ∧
      labelAllowed y ls = true ∧ toNeighborEdge y = e) ↔
    alive m = true ∧ e = mkEdge m lb ∧ allowed (mkOptions ls) e) as Hone.
  { intros m. rewrite isVisibleNode_everything. split.
    - intros (y & Hy & Hl & <-). destruct (StateQueryReadModel.labelMatches _ _); [|done].
      destruct (alive m) eqn:Em; [|done]. simpl in Hy. injection Hy as <-.
      split; [done|]. split; [done|]. by apply Hla.
    - intros (Hm & -> & Ha). exists (mkNeighbor m lb). rewrite (Hlm m Ha), Hm. simpl.
      split; [done|]. split; [by apply Hla|done]. }
  destruct d; (case_decide as E; [subst; rewrite (Hone _), Hn, bool_decide_true, andb_true_r by done|
    rewrite bool_decide_false, andb_false_r by done; naive_solver]).
  - destruct (alive t); naive_solver.
  - rewrite andb_true_r. destruct (alive f); naive_solver.
Qed.

Lemma links_nodes d n e : links s d n e → alive n = true.
Proof.
  assert (∀ f t l, shown s (EdgeParts f t l) → alive f = true ∧ alive t = true) as Hs
    by (intros f t l [_ [_ ?%andb_true_iff]%andb_true_iff]; done).
  destruct d; simpl; [intros H|intros H|intros [H|H]]; by apply Hs in H as [? ?].
Qed.

Lemma elem_of_side d n e :
  (∃ k, k ∈ ORSet.elements (WarpState.edgeAlive s) ∧ side_edge d n k = Some e) ↔ links s (side d) n e.
Proof.
  destruct d; simpl.
  - rewrite <- (elem_of_out_edges s Hok n e), list_elem_of_omap. done.
  - rewrite <- (elem_of_in_edges s Hok n e), list_elem_of_omap. done.
Qed.

Lemma side_edge_inj d n k1 k2 e :
  side_edge d n k1 = Some e → side_edge d n k2 = Some e → decodeEdgeKey k1 = decodeEdgeKey k2.
Proof.
  unfold side_edge, out_edge, in_edge.
  destruct (decodeEdgeKey k1) as [f1 t1 l1], (decodeEdgeKey k2) as [f2 t2 l2]. cbn [ep_from ep_to ep_label].
  destruct d; (destruct (WarpState.endpoints_alive s _); [|done]);
    (destruct (WarpState.endpoints_alive s _); [|by destruct (_ && _)]); simpl; do 2 case_bool_decide; naive_solver.
Qed.

Lemma directional_links d n ls :
  ∃ es, directionalNeighbors scanned n d ls = Ok es ∧ answers_links s (mkOptions ls) (side d) n es.
Proof.
  unfold directionalNeighbors. cbn [neighbors StateQueryReadModel.model].
  unfold StateQueryReadModel.model_neighbors. rewrite isVisibleNode_everything.
  destruct (alive n) eqn:Hn; cbn [StateQueryReadModel.neighborProvider].
  2: { eexists. split; [done|]. split; [constructor|]. intros e. simpl. rewrite elem_of_nil.
       split; [done|]. intros [Hl%links_nodes _]. congruence. }
  eexists. split; [done|]. rewrite compareEdges_edgeCmp. unfold StateQueryReadModel.visibleLinearNeighbors.
  rewrite filter_omap_bool. cbn [StateQueryReadModel.state].
  set (g k := e ← (y ← StateQueryReadModel.linearNeighborForEdge whole k n (queryOptions d ls);
    if labelAllowed y ls then Some y else None); Some (toNeighborEdge e)).
  assert (∀ (l : list string), toNeighborEdge <$> omap (λ k,
    y ← StateQueryReadModel.linearNeighborForEdge whole k n (queryOptions d ls);
    if labelAllowed y ls then Some y else None) l = omap g l) as ->.
  { intros l. induction l as [|k l IH]; [done|]. csimpl. unfold g at 1.
    destruct (StateQueryReadModel.linearNeighborForEdge _ _ _ _) as [y|]; simpl; [|exact IH].
    destruct (labelAllowed y ls); simpl; [by f_equal|exact IH]. }
  assert (∀ k e, g k = Some e ↔ side_edge d n k = Some e ∧ allowed (mkOptions ls) e) as Hg.
  { intros k e. rewrite <- (scanned_edge d n k ls e Hn). unfold g. split.
    - intros Hk. destruct (StateQueryReadModel.linearNeighborForEdge _ _ _ _) as [y|]; [|done]. simpl in Hk.
      destruct (labelAllowed y ls) eqn:El; [|done]. injection Hk as <-. by exists y.
    - intros (y & -> & Hl & <-). simpl. by rewrite Hl. }
  split.
  - apply js_sort_strict; [apply _|]. apply (omap_nodup s Hok). intros k1 k2 e H1 H2.
    apply Hg in H1 as [H1 _], H2 as [H2 _]. by apply (side_edge_inj d n k1 k2 e).
  - intros e. rewrite elem_of_js_sort, list_elem_of_omap. setoid_rewrite Hg.
    rewrite <- elem_of_side. naive_solver.
Qed.

(** ** Both directions, without duplicates *)
Definition sound_entry (e : NeighborEdge) : Prop := no_sep (neighborId e) ∧ no_sep (label e).

Lemma links_sound d n e : links s d n e → sound_entry e.
Proof.
  assert (∀ f t l, shown s (EdgeParts f t l) → no_sep f ∧ no_sep t ∧ no_sep l) as Hs
    by (intros f t l [((_ & ? & _) & (_ & ? & _) & _ & ?) _]; done).
  unfold sound_entry. destruct d; simpl; [intros H|intros H|intros [H|H]]; by apply Hs in H as (? & ? & ?).
Qed.

Lemma edgeKey_inj e1 e2 : sound_entry e1 → sound_entry e2 → edgeKey e1 = edgeKey e2 → e1 = e2.
Proof.
  destruct e1 as [n1 l1], e2 as [n2 l2]. intros [? ?] [? ?] E.
  apply (encode_prop_key_inj n1 l1 n2 l2) in E as [-> ->]; done.
Qed.

Definition dedup_ok (m : list (string * NeighborEdge)) : Prop :=
  NoDup m.*1 ∧ ∀ k e, (k, e) ∈ m → k = edgeKey e ∧ sound_entry e.

Lemma ordmap_set_elem (k : string) (v : NeighborEdge) m p :
  p ∈ ordmap_set k v m → p = (k, v) ∨ p ∈ m.
Proof.
  induction m as [|[k1 v1] m IH]; simpl; [rewrite list_elem_of_singleton; by left|].
  case_decide; rewrite !elem_of_cons; naive_solver.
Qed.

Lemma ordmap_get_in (k : string) m (v : NeighborEdge) : ordmap_get k m = Some v → (k, v) ∈ m.
Proof.
  induction m as [|[k1 v1] m IH]; [done|]. simpl. case_decide as Hk; subst; rewrite elem_of_cons; naive_solver.
Qed.

Lemma elem_ordmap_get (k : string) m (v : NeighborEdge) : NoDup m.*1 → (k, v) ∈ m → ordmap_get k m = Some v.
Proof.
  induction m as [|[k1 v1] m IH]; csimpl; [by intros _ Hn%elem_of_nil|].
  intros [Hni Hnd]%NoDup_cons [[= -> ->]|Hin]%elem_of_cons; [by rewrite decide_True|].
  rewrite decide_False; [by apply IH|]. intros ->. apply Hni, list_elem_of_fmap. by exists (k1, v).
Qed.

(** Setting an edge under its key, or only when the key is free, adds it. *)
Lemma dedup_add (skip : bool) m e :
  dedup_ok m → sound_entry e →
  let m' := if skip then match ordmap_get (edgeKey e) m with None => ordmap_set (edgeKey e) e m | Some _ => m end
            else ordmap_set (edgeKey e) e m in
  dedup_ok m' ∧ ∀ x, x ∈ m'.*2 ↔ x ∈ m.*2 ∨ x = e.
Proof.
  intros [Hnd Hm] He.
  assert (dedup_ok (ordmap_set (edgeKey e) e m)) as Hset.
  { split; [by apply ordmap_set_NoDup|]. intros k x [[= -> ->]|Hin]%ordmap_set_elem; [done|by apply Hm]. }
  assert (∀ m' : list (string * NeighborEdge), dedup_ok m' →
    ∀ x, sound_entry x → x ∈ m'.*2 ↔ ordmap_get (edgeKey x) m' = Some x) as Hget.
  { intros m' [Hnd' Hm'] x Hx. rewrite list_elem_of_fmap. split.
    - intros ([k y] & -> & Hin). apply elem_ordmap_get; [done|]. by destruct (Hm' k y Hin) as [-> _].
    - intros Hg%ordmap_get_in. by exists (edgeKey x, x). }
  assert (∀ m' : list (string * NeighborEdge), dedup_ok m' → ∀ x, x ∈ m'.*2 → sound_entry x) as Hsound.
  { intros m' [_ Hm'] x ([k y] & -> & Hin)%list_elem_of_fmap. by destruct (Hm' k y Hin). }
  assert (∀ x, x ∈ (ordmap_set (edgeKey e) e m).*2 ↔ x ∈ m.*2 ∨ x = e) as Hmem.
  { intros x. destruct (decide (x = e)) as [->|Hne].
    - split; [by right|]. intros _. apply (Hget _ Hset e He). by rewrite ordmap_get_set, decide_True.
    - split.
      + intros Hx. left. pose proof (Hsound _ Hset x Hx) as Hsx. apply (Hget _ Hset x Hsx) in Hx.
        rewrite ordmap_get_set, decide_False in Hx; [by apply (Hget m (conj Hnd Hm))|].
        intros E. by apply Hne, edgeKey_inj.
      + intros [Hx|]; [|done]. pose proof (Hsound _ (conj Hnd Hm) x Hx) as Hsx.
        apply (Hget _ Hset x Hsx). rewrite ordmap_get_set, decide_False.
        * by apply (Hget m (conj Hnd Hm)).
        * intros E. by apply Hne, edgeKey_inj. }
  cbn zeta. destruct skip; [|done]. destruct (ordmap_get (edgeKey e) m) as [y|] eqn:Ey; [|done].
  split; [done|]. intros x. split; [by left|]. intros [Hx| ->]; [done|].
  apply ordmap_get_in in Ey. destruct (Hm _ _ Ey) as [Ek Hy].
  assert (y = e) as <- by (by apply edgeKey_inj). apply list_elem_of_fmap. by exists (edgeKey y, y).
Qed.

Lemma dedup_all (skip : bool) l m :
  dedup_ok m → (∀ e, e ∈ l → sound_entry e) →
  let m' := foldl (λ m e, if skip then match ordmap_get (edgeKey e) m with
                                       | None => ordmap_set (edgeKey e) e m | Some _ => m end
                          else ordmap_set (edgeKey e) e m) m l in
  dedup_ok m' ∧ ∀ x, x ∈ m'.*2 ↔ x ∈ m.*2 ∨ x ∈ l.
Proof.
  revert m. induction l as [|e l IH]; intros m Hm Hl; cbn [foldl].
  { split; [done|]. intros x. rewrite elem_of_nil. tauto. }
  destruct (dedup_add skip m e Hm) as [Hm1 Hx1]; [apply Hl; by left|].
  edestruct IH as [Hm2 Hx2]; [exact Hm1|intros; apply Hl; by right|].
  split; [exact Hm2|]. intros x. rewrite Hx2, Hx1, elem_of_cons. tauto.
Qed.

Lemma both_links n ls :
  ∃ es, bothNeighbors scanned n ls = Ok es ∧ answers_links s (mkOptions ls) DBoth n es.
Proof.
  destruct (directional_links outgoing n ls) as (outs & Eo & _ & Ho).
  destruct (directional_links incoming n ls) as (ins & Ei & _ & Hi).
  unfold bothNeighbors. rewrite Eo. cbn [mbind result_bind]. rewrite Ei. cbn [mbind result_bind].
  assert (∀ e, e ∈ outs → sound_entry e) as Hso by (intros e [He _]%Ho; by eapply links_sound).
  assert (∀ e, e ∈ ins → sound_entry e) as Hsi by (intros e [He _]%Hi; by eapply links_sound).
  assert (dedup_ok []) as H0 by (split; [constructor|intros k e Hn; by apply elem_of_nil in Hn]).
  destruct (dedup_all false outs [] H0 Hso) as [Hm1 Hx1]. cbn [fmap list_fmap] in Hx1.
  destruct (dedup_all true ins _ Hm1 Hsi) as [[Hnd Hm2] Hx2].
  eexists. split; [reflexivity|]. rewrite compareEdges_edgeCmp. split.
  - apply js_sort_strict; [apply _|]. cbn beta iota in *. revert Hnd Hm2. clear.
    generalize (foldl (λ m e, match ordmap_get (edgeKey e) m with
      | None => ordmap_set (edgeKey e) e m | Some _ => m end)
      (foldl (λ m e, ordmap_set (edgeKey e) e m) [] outs) ins). intros m Hnd Hm.
    apply (NoDup_fmap_1 edgeKey). assert (edgeKey <$> m.*2 = m.*1) as ->; [|done].
    rewrite <- list_fmap_compose. apply list_fmap_ext. intros i [k e] Hin.
    by destruct (Hm k e (list_elem_of_lookup_2 _ _ _ Hin)) as [-> _].
  - intros e. rewrite elem_of_js_sort. etrans; [exact (Hx2 e)|]. rewrite Hx1, elem_of_nil, Ho, Hi. simpl. tauto.
Qed.
End scan.

(** A read model of a state without an index of neighbours, asked through
    its provider, serves the same neighbours as the adjacency built from that
    state: scanning the alive edges on each question and looking up the sorted
    lists give the same edges in the same order, in every direction and under
    every filter of labels. *)
Theorem scan_serves_adjacency (h : heap) (s : WarpState.WarpState) (hash : string)
    (cached : option QueryNodePatternIndex.SortedEntryKeyCache) :
  WarpState.edges_ok s →
  let scan := QueryReadModelNeighborProvider.port (StateQueryReadModel.model h
    (StateQueryReadModel.new s hash everything None) cached) in
  ∃ p, AdjacencyNeighborProvider.new (MaterializeHelpers.outgoing (MaterializeHelpers.buildAdjacency s))
         (MaterializeHelpers.incoming (MaterializeHelpers.buildAdjacency s)) (Some (alive_nodes s)) = Ok p ∧
    ∀ n d options, NeighborProviderPort.getNeighbors scan n d options =
      AdjacencyNeighborProvider.getNeighbors p n d options.
Proof.
  intros Hok. cbn zeta. exists (state_provider s). split; [done|]. intros n d [ls].
  destruct (resolveEdges_links s Hok (mkOptions ls) d n) as [Hs Hm].
  assert (∃ es, QueryReadModelNeighborProvider.getNeighbors (StateQueryReadModel.model h
    (StateQueryReadModel.new s hash everything None) cached) n d (mkOptions ls) = Ok es ∧
    answers_links s (mkOptions ls) d n es) as (es & E & Hs' & Hm').
  { destruct d; [apply (directional_links h s hash cached Hok QueryPlan.outgoing)
    |apply (directional_links h s hash cached Hok QueryPlan.incoming)|by apply both_links]. }
  etrans; [exact E|]. unfold AdjacencyNeighborProvider.getNeighbors. f_equal.
  apply (strictly_sorted_unique AdjacencyNeighborProvider.edgeCmp); [done..|].
  intros e. by rewrite Hm, Hm'.
Qed.

Lemma scan_serves_adjacency_witness :
  let scan := QueryReadModelNeighborProvider.port (StateQueryReadModel.model ∅
    (StateQueryReadModel.new sample_state "hash" everything None) None) in
  ∃ p, AdjacencyNeighborProvider.new
         (MaterializeHelpers.outgoing (MaterializeHelpers.buildAdjacency sample_state))
         (MaterializeHelpers.incoming (MaterializeHelpers.buildAdjacency sample_state))
         (Some (alive_nodes sample_state)) = Ok p ∧
    ∀ n d options, NeighborProviderPort.getNeighbors scan n d options =
      AdjacencyNeighborProvider.getNeighbors p n d options.
Proof. apply (scan_serves_adjacency ∅ sample_state "hash" None), sample_edges_ok. Defined.
