(* ===== verification/SupportRules.v ===== *)
(** What a query needs before it runs: the support rule of its plan, the plan
    of the indexes and of the fragment to materialize
    ([query/BoundedSupportRule.ts], [query/queryValidation.ts],
    [query/CausalIndexPlan.ts], [query/SupportFragmentPlan.ts]). *)
From S2P Require Export ReadModel Diff Texts.
#[local] Open Scope string_scope.
#[local] Open Scope list_scope.

Definition QueryError (code : string) : error := Err "QueryError" code.

(** [Object.freeze([...new Set(values)].sort())] *)
Definition sorted_set (values : list string) : list string := js_sort compareStrings (js_set values).

Lemma elem_of_sorted_set l x : x ∈ sorted_set l ↔ x ∈ l.
Proof. unfold sorted_set. by rewrite elem_of_js_sort, elem_of_js_set. Qed.

Lemma sorted_set_strict l : strictly_sorted compareStrings (sorted_set l).
Proof. apply js_sort_strict; [apply _|apply js_set_NoDup]. Qed.

Lemma sorted_set_of_strict l : strictly_sorted compareStrings l → sorted_set l = l.
Proof.
  intros Hl. apply (strictly_sorted_unique compareStrings); [apply sorted_set_strict|done|].
  intros x. apply elem_of_sorted_set.
Qed.

Module queryValidation.

(* @src domain/services/query/queryValidation.ts requireNonEmptyString *)
Definition requireNonEmptyString (value errorCode : string) : result string :=
  _ ← require (str_nonempty (js_trim value)) (QueryError errorCode);
  Ok (js_trim value).

(* @src domain/services/query/queryValidation.ts freezeStringList *)
Definition freezeStringList (values : list string) (errorCode : string) : result (list string) :=
  normalized ← map_result (λ value, requireNonEmptyString value errorCode) values;
  Ok (sorted_set normalized).
End queryValidation.

Module BoundedSupportRule.
Import QueryPlan.

Definition E_SUPPORT : string := "E_QUERY_SUPPORT_RULE".

(* @src domain/services/query/BoundedSupportRule.ts SUPPORT_SURFACES *)
Definition SUPPORT_SURFACES : list string := ["query"; "optic"; "diff"].
(* @src domain/services/query/BoundedSupportRule.ts SUPPORT_KINDS *)
Definition SUPPORT_KINDS : list string := ["entity"; "neighborhood"; "global-discovery"; "interval-diff"].
(* @src domain/services/query/BoundedSupportRule.ts SUPPORT_DIRECTIONS *)
Definition SUPPORT_DIRECTIONS : list string := ["outgoing"; "incoming"].

(* @src domain/services/query/BoundedSupportRule.ts BoundedSupportRuleFields 8-15 *)
Record BoundedSupportRuleFields := mkFields {
  f_surface : string;
  f_kind : string;
  f_reason : string;
  f_rootNodeIds : option (list string);
  f_maxDepth : option jsnum;
  f_directions : option (list string);
}.

(* @src domain/services/query/BoundedSupportRule.ts BoundedSupportRule 27-33 *)
Record BoundedSupportRule := mk {
  surface : string;
  kind : string;
  reason : string;
  rootNodeIds : list string;
  maxDepth : option Z;
  directions : list string;
}.

#[global] Instance BoundedSupportRule_eq_dec : EqDecision BoundedSupportRule.
Proof. solve_decision. Defined.

(* @src domain/services/query/BoundedSupportRule.ts requireSurface *)
Definition requireSurface (surface : string) : result string :=
  _ ← require (bool_decide (surface ∈ SUPPORT_SURFACES)) (QueryError E_SUPPORT); Ok surface.

(* @src domain/services/query/BoundedSupportRule.ts requireKind *)
Definition requireKind (kind : string) : result string :=
  _ ← require (bool_decide (kind ∈ SUPPORT_KINDS)) (QueryError E_SUPPORT); Ok kind.

(* @src domain/services/query/BoundedSupportRule.ts requireNonEmptyString *)
Definition requireNonEmptyString (value : string) : result string :=
  _ ← require (str_nonempty (js_trim value)) (QueryError E_SUPPORT); Ok (js_trim value).

(* @src domain/services/query/BoundedSupportRule.ts optionalNonNegativeInteger *)
Definition optionalNonNegativeInteger (value : option jsnum) : result (option Z) :=
  match value with
  | None => Ok None
  | Some (JInt z) => if (z <? 0)%Z then Throw (QueryError E_SUPPORT) else Ok (Some z)
  | Some _ => Throw (QueryError E_SUPPORT)
  end.

(* @src domain/services/query/BoundedSupportRule.ts freezeStringList *)
Definition freezeStringList (values : list string) : result (list string) :=
  normalized ← map_result requireNonEmptyString values;
  Ok (sorted_set normalized).

(* @src domain/services/query/BoundedSupportRule.ts freezeDirections *)
Definition freezeDirections (values : list string) : result (list string) :=
  normalized ← map_result (λ value,
    _ ← require (bool_decide (value ∈ SUPPORT_DIRECTIONS)) (QueryError E_SUPPORT); Ok value) values;
  Ok (sorted_set normalized).

(* @src domain/services/query/BoundedSupportRule.ts constructor 35-44 *)
Definition new (fields : BoundedSupportRuleFields) : result BoundedSupportRule :=
  surface ← requireSurface (f_surface fields);
  kind ← requireKind (f_kind fields);
  reason ← requireNonEmptyString (f_reason fields);
  rootNodeIds ← freezeStringList (default [] (f_rootNodeIds fields));
  maxDepth ← optionalNonNegativeInteger (f_maxDepth fields);
  directions ← freezeDirections (default [] (f_directions fields));
  Ok (mk surface kind reason rootNodeIds maxDepth directions).

(* @src domain/services/query/BoundedSupportRule.ts entityRead 46-56 *)
Definition entityRead (surface : string) (nodeIds : list string) : result BoundedSupportRule :=
  new (mkFields surface "entity" "exact node-id support" (Some nodeIds) None None).

(* @src domain/services/query/BoundedSupportRule.ts neighborhoodRead 58-72 *)
Definition neighborhoodRead (surface : string) (rootNodeIds : list string) (maxDepth : jsnum)
    (directions : list string) : result BoundedSupportRule :=
  new (mkFields surface "neighborhood" "exact node-id traversal support" (Some rootNodeIds)
    (Some maxDepth) (Some directions)).

(* @src domain/services/query/BoundedSupportRule.ts globalDiscovery 74-83 *)
Definition globalDiscovery (surface reason : string) : result BoundedSupportRule :=
  new (mkFields surface "global-discovery" reason None None None).

(* @src domain/services/query/BoundedSupportRule.ts exactPatternNodeId *)
Definition exactPatternNodeId (pattern : string) : result (option string) :=
  if str_includes "*"%char pattern then Ok None
  else nodeId ← requireNonEmptyString pattern; Ok (Some nodeId).

(** The loop over a list of patterns, up to the first with a star. *)
Fixpoint exact_ids (patterns : list string) : result (option (list string)) :=
  match patterns with
  | [] => Ok (Some [])
  | entry :: rest =>
      nodeId ← exactPatternNodeId entry;
      match nodeId with
      | None => Ok None
      | Some nodeId => ids ← exact_ids rest; Ok (match ids with Some ids => Some (nodeId :: ids) | None => None end)
      end
  end.

(* @src domain/services/query/BoundedSupportRule.ts exactNodeIdsForPattern *)
Definition exactNodeIdsForPattern (pattern : string + list string) : result (option (list string)) :=
  match pattern with
  | inl pattern =>
      nodeId ← exactPatternNodeId pattern;
      match nodeId with None => Ok None | Some nodeId => Ok (Some [nodeId]) end
  | inr patterns =>
      exactIds ← exact_ids patterns;
      match exactIds with None => Ok None | Some exactIds => Ok (Some (sorted_set exactIds)) end
  end.

(* @src domain/services/query/BoundedSupportRule.ts isTraversalOperation *)
Definition isTraversalOperation (operation : QueryOperation)
    : option (QueryDirection * option string * (nat * nat)) :=
  match operation with Traverse type label depth => Some (type, label, depth) | Where _ => None end.

(* @src domain/services/query/BoundedSupportRule.ts traversalOperations *)
Definition traversalOperations (operations : list QueryOperation)
    : list (QueryDirection * option string * (nat * nat)) :=
  omap isTraversalOperation operations.

(* @src domain/services/query/BoundedSupportRule.ts maxTraversalDepth *)
Definition maxTraversalDepth (operations : list (QueryDirection * option string * (nat * nat))) : nat :=
  foldl (λ maxDepth operation,
    let candidate := operation.2.2 in
    if decide (maxDepth < candidate)%nat then candidate else maxDepth) 0%nat operations.

Definition direction_name (d : QueryDirection) : string :=
  match d with outgoing => "outgoing" | incoming => "incoming" end.

(* @src domain/services/query/BoundedSupportRule.ts traversalDirections *)
Definition traversalDirections (operations : list (QueryDirection * option string * (nat * nat)))
    : list string :=
  sorted_set ((λ o, direction_name o.1.1) <$> operations).

(* @src domain/services/query/BoundedSupportRule.ts fromQueryPlan 85-109 *)
Definition fromQueryPlan (plan : QueryPlan) : result BoundedSupportRule :=
  exactNodeIds ← exactNodeIdsForPattern (pattern plan);
  match exactNodeIds with
  | None => globalDiscovery "query" "query pattern requires discovery over the visible graph"
  | Some exactNodeIds =>
      let traversals := traversalOperations (operations plan) in
      if decide (length traversals = 0%nat) then entityRead "query" exactNodeIds
      else neighborhoodRead "query" exactNodeIds (JInt (Z.of_nat (maxTraversalDepth traversals)))
             (traversalDirections traversals)
  end.

(* @src domain/services/query/BoundedSupportRule.ts isBounded 111-113 *)
Definition isBounded (r : BoundedSupportRule) : bool := bool_decide (kind r ≠ "global-discovery").

(* @src domain/services/query/BoundedSupportRule.ts requiresWholeGraphDiscovery 115-117 *)
Definition requiresWholeGraphDiscovery (r : BoundedSupportRule) : bool :=
  bool_decide (kind r = "global-discovery").
End BoundedSupportRule.

Module CausalIndexPlan.
Import BoundedSupportRule.

(* @src domain/services/query/CausalIndexPlan.ts CAUSAL_INDEX_PLAN_ERROR *)
Definition CAUSAL_INDEX_PLAN_ERROR : string := "E_QUERY_CAUSAL_INDEX_PLAN".
(* @src domain/services/query/CausalIndexPlan.ts INDEX_FAMILIES *)
Definition INDEX_FAMILIES : list string := ["entity-patch"; "neighborhood-adjacency"; "global-discovery"].
(* @src domain/services/query/CausalIndexPlan.ts INDEX_POSTURES *)
Definition INDEX_POSTURES : list string := ["available"; "composite"; "unsupported"].

(* @src domain/services/query/CausalIndexPlan.ts CausalIndexPlan 29-34 *)
Record CausalIndexPlan := mk {
  supportRule : BoundedSupportRule;
  posture : string;
  families : list string;
  reason : string;
  requiredEntityIds : list string;
}.

#[global] Instance CausalIndexPlan_eq_dec : EqDecision CausalIndexPlan.
Proof. solve_decision. Defined.

(* @src domain/services/query/CausalIndexPlan.ts requirePosture *)
Definition requirePosture (value : string) : result string :=
  _ ← require (bool_decide (value ∈ INDEX_POSTURES)) (QueryError CAUSAL_INDEX_PLAN_ERROR); Ok value.

(* @src domain/services/query/CausalIndexPlan.ts freezeFamilies *)
Definition freezeFamilies (values : list string) : result (list string) :=
  normalized ← map_result (λ value,
    _ ← require (bool_decide (value ∈ INDEX_FAMILIES)) (QueryError CAUSAL_INDEX_PLAN_ERROR); Ok value) values;
  Ok (sorted_set normalized).

(* @src domain/services/query/CausalIndexPlan.ts constructor 36-48 *)
Definition new (supportRule : BoundedSupportRule) (posture : string) (families : list string)
    (reason : string) (requiredEntityIds : option (list string)) : result CausalIndexPlan :=
  posture ← requirePosture posture;
  families ← freezeFamilies families;
  reason ← queryValidation.requireNonEmptyString reason CAUSAL_INDEX_PLAN_ERROR;
  requiredEntityIds ← queryValidation.freezeStringList (default [] requiredEntityIds) CAUSAL_INDEX_PLAN_ERROR;
  Ok (mk supportRule posture families reason requiredEntityIds).

(* @src domain/services/query/CausalIndexPlan.ts fromSupportRule 50-76 *)
Definition fromSupportRule (supportRule : BoundedSupportRule) : result CausalIndexPlan :=
  if decide (kind supportRule = "entity") then
    new supportRule "available" ["entity-patch"]
      "entity support can be served by the provenance entity-to-patch index"
      (Some (rootNodeIds supportRule))
  else if decide (kind supportRule = "neighborhood") then
    new supportRule "composite" ["entity-patch"; "neighborhood-adjacency"]
      "neighborhood support needs entity patch discovery plus adjacency expansion"
      (Some (rootNodeIds supportRule))
  else
    new supportRule "unsupported" ["global-discovery"]
      "global discovery has no bounded causal index family" None.

(* @src domain/services/query/CausalIndexPlan.ts canUseCausalIndex 78-80 *)
Definition canUseCausalIndex (p : CausalIndexPlan) : bool := bool_decide (posture p ≠ "unsupported").

(* @src domain/services/query/CausalIndexPlan.ts requiresGlobalScan 82-84 *)
Definition requiresGlobalScan (p : CausalIndexPlan) : bool := bool_decide (posture p = "unsupported").
End CausalIndexPlan.

Module SupportFragmentPlan.
Import BoundedSupportRule.

(* @src domain/services/query/SupportFragmentPlan.ts SUPPORT_FRAGMENT_PLAN_ERROR *)
Definition SUPPORT_FRAGMENT_PLAN_ERROR : string := "E_QUERY_SUPPORT_FRAGMENT_PLAN".
(* @src domain/services/query/SupportFragmentPlan.ts SUPPORT_FRAGMENT_POSTURES *)
Definition SUPPORT_FRAGMENT_POSTURES : list string :=
  ["support-fragment"; "support-fragment-with-index-fill"; "global-fallback"].

(* @src domain/services/query/SupportFragmentPlan.ts SupportFragmentPlan 27-32 *)
Record SupportFragmentPlan := mk {
  supportRule : BoundedSupportRule;
  causalIndexPlan : CausalIndexPlan.CausalIndexPlan;
  posture : string;
  scopeKey : string;
  requiredEntityIds : list string;
}.

(** [identical] answers whether the two rules are one object. *)
(* @src domain/services/query/SupportFragmentPlan.ts requireMatchingCausalIndexPlan *)
Definition requireMatchingCausalIndexPlan (value : CausalIndexPlan.CausalIndexPlan) (identical : bool)
    : result CausalIndexPlan.CausalIndexPlan :=
  _ ← require identical (QueryError SUPPORT_FRAGMENT_PLAN_ERROR); Ok value.

(* @src domain/services/query/SupportFragmentPlan.ts requirePosture *)
Definition requirePosture (value : string) : result string :=
  _ ← require (bool_decide (value ∈ SUPPORT_FRAGMENT_POSTURES)) (QueryError SUPPORT_FRAGMENT_PLAN_ERROR);
  Ok value.

(* @src domain/services/query/SupportFragmentPlan.ts constructor 34-49 *)
Definition new (supportRule : BoundedSupportRule) (causalIndexPlan : CausalIndexPlan.CausalIndexPlan)
    (identical : bool) (posture scopeKey : string) (requiredEntityIds : option (list string))
    : result SupportFragmentPlan :=
  causalIndexPlan ← requireMatchingCausalIndexPlan causalIndexPlan identical;
  posture ← requirePosture posture;
  scopeKey ← queryValidation.requireNonEmptyString scopeKey SUPPORT_FRAGMENT_PLAN_ERROR;
  requiredEntityIds ← queryValidation.freezeStringList (default [] requiredEntityIds)
    SUPPORT_FRAGMENT_PLAN_ERROR;
  Ok (mk supportRule causalIndexPlan posture scopeKey requiredEntityIds).

(* @src domain/services/query/SupportFragmentPlan.ts postureFor *)
Definition postureFor (supportRule : BoundedSupportRule)
    (causalIndexPlan : CausalIndexPlan.CausalIndexPlan) : string :=
  if negb (isBounded supportRule) || CausalIndexPlan.requiresGlobalScan causalIndexPlan
  then "global-fallback"
  else if decide (CausalIndexPlan.posture causalIndexPlan = "composite")
  then "support-fragment-with-index-fill" else "support-fragment".

(* @src domain/services/query/SupportFragmentPlan.ts joinOrNone *)
Definition joinOrNone (values : list string) : string :=
  match values with [] => "none" | _ => str_join "+"%char values end.

Definition depth_text (maxDepth : option Z) : string :=
  match maxDepth with None => "none" | Some z => num_to_string z end.

(* @src domain/services/query/SupportFragmentPlan.ts scopeKeyFor *)
Definition scopeKeyFor (supportRule : BoundedSupportRule)
    (causalIndexPlan : CausalIndexPlan.CausalIndexPlan) : string :=
  str_join "/"%char [
    "surface:" +:+ surface supportRule;
    "kind:" +:+ kind supportRule;
    "roots:" +:+ joinOrNone (rootNodeIds supportRule);
    "depth:" +:+ depth_text (maxDepth supportRule);
    "directions:" +:+ joinOrNone (directions supportRule);
    "indexes:" +:+ joinOrNone (CausalIndexPlan.families causalIndexPlan)].

(* @src domain/services/query/SupportFragmentPlan.ts fromSupportAndIndex 59-72 *)
Definition fromSupportAndIndex (supportRule : BoundedSupportRule)
    (causalIndexPlan : CausalIndexPlan.CausalIndexPlan) (identical : bool) : result SupportFragmentPlan :=
  causalIndexPlan ← requireMatchingCausalIndexPlan causalIndexPlan identical;
  new supportRule causalIndexPlan identical (postureFor supportRule causalIndexPlan)
    (scopeKeyFor supportRule causalIndexPlan) (Some (CausalIndexPlan.requiredEntityIds causalIndexPlan)).

(* @src domain/services/query/SupportFragmentPlan.ts fromSupportRule 51-57 *)
Definition fromSupportRule (supportRule : BoundedSupportRule) : result SupportFragmentPlan :=
  causalIndexPlan ← CausalIndexPlan.fromSupportRule supportRule;
  fromSupportAndIndex supportRule causalIndexPlan true.

(* @src domain/services/query/SupportFragmentPlan.ts canMaterializeSupportFragment 74-76 *)
Definition canMaterializeSupportFragment (p : SupportFragmentPlan) : bool :=
  bool_decide (posture p ≠ "global-fallback").

(* @src domain/services/query/SupportFragmentPlan.ts requiresFullGraphFallback 78-80 *)
Definition requiresFullGraphFallback (p : SupportFragmentPlan) : bool :=
  bool_decide (posture p = "global-fallback").

(* @src domain/services/query/SupportFragmentPlan.ts fragmentKeyForCoordinate 82-93 *)
Definition fragmentKeyForCoordinate (p : SupportFragmentPlan) (coordinateRef : string) : result string :=
  if requiresFullGraphFallback p then Throw (QueryError SUPPORT_FRAGMENT_PLAN_ERROR)
  else
    ref ← queryValidation.requireNonEmptyString coordinateRef SUPPORT_FRAGMENT_PLAN_ERROR;
    Ok (scopeKey p +:+ "@" +:+ ref).
End SupportFragmentPlan.

(** ** Valid rules *)
Section rules.
Import BoundedSupportRule.

(** What the constructor lets through. *)
Record rule_ok (r : BoundedSupportRule) : Prop := {
  ok_surface : surface r ∈ SUPPORT_SURFACES;
  ok_kind : kind r ∈ SUPPORT_KINDS;
  ok_roots : strictly_sorted compareStrings (rootNodeIds r);
  ok_root : ∀ x, x ∈ rootNodeIds r → js_trim x = x ∧ x ≠ "";
  ok_depth : ∀ z, maxDepth r = Some z → (0 <= z)%Z;
  ok_directions : strictly_sorted compareStrings (directions r);
  ok_direction : ∀ x, x ∈ directions r → x ∈ SUPPORT_DIRECTIONS;
}.

Lemma require_Ok b e u : require b e = Ok u → b = true.
Proof. by destruct b. Qed.

Lemma map_result_Ok {A B} (f : A → result B) (P : B → Prop) l l' :
  (∀ x y, f x = Ok y → P y) → map_result f l = Ok l' → ∀ y, y ∈ l' → P y.
Proof.
  intros Hf. revert l'. induction l as [|x l IH]; simpl; intros l'; [intros [= <-] y []%not_elem_of_nil|].
  destruct (f x) as [y|] eqn:E; simpl; [|done].
  destruct (map_result f l) as [ys|]; simpl; [|done]. intros [= <-] z [->|Hz]%elem_of_cons; [by eapply Hf|].
  by eapply IH.
Qed.

Lemma trimmed_value s code x :
  queryValidation.requireNonEmptyString s code = Ok x → js_trim x = x ∧ x ≠ "".
Proof.
  unfold queryValidation.requireNonEmptyString. destruct (str_nonempty (js_trim s)) eqn:E; simpl; [|done].
  intros [= <-]. split; [apply js_trim_idemp|]. intros E'. by rewrite E' in E.
Qed.

Lemma new_rule_ok fields r : new fields = Ok r → rule_ok r.
Proof.
  unfold new, requireSurface, requireKind, freezeDirections, freezeStringList.
  destruct (bool_decide (f_surface fields ∈ _)) eqn:Es; simpl; [|done].
  destruct (bool_decide (f_kind fields ∈ _)) eqn:Ek; simpl; [|done].
  destruct (requireNonEmptyString (f_reason fields)) as [reason|]; simpl; [|done].
  destruct (map_result requireNonEmptyString _) as [roots|] eqn:Er; simpl; [|done].
  destruct (optionalNonNegativeInteger (f_maxDepth fields)) as [depth|] eqn:Ed; simpl; [|done].
  destruct (map_result _ (default [] (f_directions fields))) as [dirs|] eqn:Edir; simpl; [|done].
  intros [= <-]. apply bool_decide_eq_true in Es, Ek. split; simpl; try done.
  - apply sorted_set_strict.
  - intros x. rewrite elem_of_sorted_set. revert x. eapply map_result_Ok, Er. intros s y.
    apply (trimmed_value s E_SUPPORT).
  - intros z ->. destruct (f_maxDepth fields) as [[d| | |]|]; simpl in Ed; try done.
    destruct (Z.ltb_spec d 0); simplify_eq; lia.
  - apply sorted_set_strict.
  - intros x. rewrite elem_of_sorted_set. revert x. eapply map_result_Ok, Edir. intros s y. simpl.
    destruct (bool_decide _) eqn:E; [|done]. intros [= <-]. by apply bool_decide_eq_true in E.
Qed.

(** A list of trimmed texts is frozen as it is. *)
Lemma freeze_trimmed l code :
  strictly_sorted compareStrings l → (∀ x, x ∈ l → js_trim x = x ∧ x ≠ "") →
  queryValidation.freezeStringList l code = Ok l.
Proof.
  intros Hs Hl. unfold queryValidation.freezeStringList.
  assert (map_result (λ value, queryValidation.requireNonEmptyString value code) l = Ok l) as ->.
  { clear Hs. induction l as [|x l IH]; [done|]. simpl.
    destruct (Hl x) as [Et Hne]; [by left|].
    assert (queryValidation.requireNonEmptyString x code = Ok x) as ->
      by (unfold queryValidation.requireNonEmptyString; rewrite Et; by destruct x). simpl.
    rewrite IH; [done|]. intros y Hy. apply Hl. by right. }
  simpl. by rewrite sorted_set_of_strict.
Qed.

(** The families of indexes of a kind of rule. *)
Definition kind_families (kind : string) : list string :=
  if decide (kind = "entity") then ["entity-patch"]
  else if decide (kind = "neighborhood") then ["entity-patch"; "neighborhood-adjacency"]
  else ["global-discovery"].

Definition index_posture (kind : string) : string :=
  if decide (kind = "entity") then "available"
  else if decide (kind = "neighborhood") then "composite" else "unsupported".

Definition fragment_posture (kind : string) : string :=
  if decide (kind = "entity") then "support-fragment"
  else if decide (kind = "neighborhood") then "support-fragment-with-index-fill" else "global-fallback".

Lemma index_plan_spec r :
  rule_ok r →
  ∃ c, CausalIndexPlan.fromSupportRule r = Ok c ∧ CausalIndexPlan.supportRule c = r ∧
    CausalIndexPlan.posture c = index_posture (kind r) ∧ CausalIndexPlan.families c = kind_families (kind r) ∧
    CausalIndexPlan.requiredEntityIds c =
      (if decide (kind r = "entity" ∨ kind r = "neighborhood") then rootNodeIds r else []).
Proof.
  intros Hr. unfold CausalIndexPlan.fromSupportRule, CausalIndexPlan.new, index_posture, kind_families.
  pose proof (freeze_trimmed (rootNodeIds r) CausalIndexPlan.CAUSAL_INDEX_PLAN_ERROR (ok_roots r Hr) (ok_root r Hr)) as Hf.
  assert (queryValidation.freezeStringList [] CausalIndexPlan.CAUSAL_INDEX_PLAN_ERROR = Ok []) as H0 by done.
  destruct (decide (kind r = "entity")) as [E|E]; [|destruct (decide (kind r = "neighborhood")) as [E'|E']];
    cbn [default from_option id]; rewrite ?Hf, ?H0;
    (eexists; split; [vm_compute; reflexivity|]); cbn [CausalIndexPlan.supportRule CausalIndexPlan.posture
      CausalIndexPlan.families CausalIndexPlan.requiredEntityIds].
  - by rewrite decide_True by tauto.
  - by rewrite decide_True by tauto.
  - by rewrite decide_False by tauto.
Qed.
End rules.

(** ** Keys of fragments *)
Section fragment_keys.
Import BoundedSupportRule.

Lemma kind_families_text kind :
  let t := SupportFragmentPlan.joinOrNone (kind_families kind) in js_trim_end t = t ∧ t ≠ "".
Proof. unfold kind_families. cbn zeta. destruct (decide _); [|destruct (decide _)]; by vm_compute. Qed.

Definition scope_parts (r : BoundedSupportRule) : list string :=
  ["surface:" +:+ surface r; "kind:" +:+ kind r;
   "roots:" +:+ SupportFragmentPlan.joinOrNone (rootNodeIds r);
   "depth:" +:+ SupportFragmentPlan.depth_text (maxDepth r);
   "directions:" +:+ SupportFragmentPlan.joinOrNone (directions r)].

Definition scope_text (r : BoundedSupportRule) : string :=
  str_join "/"%char (scope_parts r ++
    ["indexes:" +:+ SupportFragmentPlan.joinOrNone (kind_families (kind r))]).

Lemma scope_text_trimmed r : js_trim (scope_text r) = scope_text r ∧ str_nonempty (scope_text r) = true.
Proof.
  split; [|done]. unfold js_trim.
  assert (js_trim_start (scope_text r) = scope_text r) as -> by done.
  unfold scope_text. rewrite str_join_snoc by done. destruct (kind_families_text (kind r)) as [Ht Hne].
  apply js_trim_end_app; [|done]. by apply (js_trim_end_app "/indexes:").
Qed.

Lemma fragment_plan_spec r :
  rule_ok r →
  ∃ p, SupportFragmentPlan.fromSupportRule r = Ok p ∧ SupportFragmentPlan.supportRule p = r ∧
    SupportFragmentPlan.posture p = fragment_posture (kind r) ∧
    SupportFragmentPlan.scopeKey p = scope_text r ∧
    SupportFragmentPlan.requiredEntityIds p =
      (if decide (kind r = "entity" ∨ kind r = "neighborhood") then rootNodeIds r else []).
Proof.
  intros Hr. destruct (index_plan_spec r Hr) as (c & Ec & _ & Ep & Ef & Ei).
  unfold SupportFragmentPlan.fromSupportRule. rewrite Ec. cbn [mbind result_bind].
  unfold SupportFragmentPlan.fromSupportAndIndex, SupportFragmentPlan.new.
  assert (SupportFragmentPlan.requireMatchingCausalIndexPlan c true = Ok c) as -> by done.
  cbn [mbind result_bind default from_option id].
  assert (SupportFragmentPlan.requireMatchingCausalIndexPlan c true = Ok c) as -> by done.
  cbn [mbind result_bind].
  assert (SupportFragmentPlan.postureFor r c = fragment_posture (kind r)) as ->.
  { unfold SupportFragmentPlan.postureFor, CausalIndexPlan.requiresGlobalScan, isBounded, fragment_posture.
    rewrite Ep. unfold index_posture. destruct (decide (kind r = "entity")) as [->|]; [done|].
    destruct (decide (kind r = "neighborhood")) as [->|]; [done|]. by rewrite orb_true_r. }
  assert (SupportFragmentPlan.scopeKeyFor r c = scope_text r) as ->
    by (unfold SupportFragmentPlan.scopeKeyFor; by rewrite Ef).
  assert (SupportFragmentPlan.requirePosture (fragment_posture (kind r)) = Ok (fragment_posture (kind r))) as Hp
    by (unfold fragment_posture; destruct (decide (kind r = "entity"));
      [|destruct (decide (kind r = "neighborhood"))]; done).
  assert (queryValidation.requireNonEmptyString (scope_text r) SupportFragmentPlan.SUPPORT_FRAGMENT_PLAN_ERROR
    = Ok (scope_text r)) as Hs.
  { unfold queryValidation.requireNonEmptyString. by destruct (scope_text_trimmed r) as [-> ->]. }
  assert (queryValidation.freezeStringList (CausalIndexPlan.requiredEntityIds c)
    SupportFragmentPlan.SUPPORT_FRAGMENT_PLAN_ERROR = Ok (CausalIndexPlan.requiredEntityIds c)) as Hf.
  { rewrite Ei. destruct (decide _); [|done]. by apply freeze_trimmed; apply Hr. }
  rewrite Hp. cbn [mbind result_bind]. rewrite Hs. cbn [mbind result_bind]. rewrite Hf. cbn [mbind result_bind].
  eexists. split; [done|]. simpl. done.
Qed.

(** Roots that a key can tell apart. *)
Definition plain_root (x : string) : Prop :=
  str_includes "/"%char x = false ∧ str_includes "+"%char x = false ∧ str_includes "@"%char x = false ∧
  x ≠ "none".

Definition plain_roots (r : BoundedSupportRule) : Prop := ∀ x, x ∈ rootNodeIds r → plain_root x.

Lemma join_or_none_inj l1 l2 :
  (∀ x, x ∈ l1 ++ l2 → str_includes "+"%char x = false ∧ x ≠ "none") →
  SupportFragmentPlan.joinOrNone l1 = SupportFragmentPlan.joinOrNone l2 → l1 = l2.
Proof.
  intros Hl. setoid_rewrite elem_of_app in Hl.
  assert (∀ l, (∀ x, x ∈ l → str_includes "+"%char x = false ∧ x ≠ "none") → l ≠ [] →
    str_join "+"%char l ≠ "none") as Hnone.
  { intros l Hx Hne E. assert (l = ["none"]) as ->.
    { apply (str_join_inj "+"%char); [done..| |by repeat constructor|done].
      apply Forall_forall. intros x Hin. by apply Hx. }
    destruct (Hx "none"); [by left|done]. }
  destruct l1 as [|x1 l1], l2 as [|x2 l2]; [done|..].
  - intros E. symmetry in E. apply Hnone in E; [done| |done]. intros x Hx. apply Hl. by right.
  - intros E. apply Hnone in E; [done| |done]. intros x Hx. apply Hl. by left.
  - apply str_join_inj; [done..|apply Forall_forall|apply Forall_forall]; intros x Hx; apply Hl; tauto.
Qed.

Lemma depth_text_inj d1 d2 :
  (∀ z, d1 = Some z → (0 <= z)%Z) → (∀ z, d2 = Some z → (0 <= z)%Z) →
  SupportFragmentPlan.depth_text d1 = SupportFragmentPlan.depth_text d2 → d1 = d2.
Proof.
  assert (∀ z, (0 <= z)%Z → num_to_string z ≠ "none") as Hn.
  { intros z Hz E. pose proof (num_to_string_free "n"%char z Hz eq_refl) as Hf. by rewrite E in Hf. }
  intros H1 H2. destruct d1 as [z1|], d2 as [z2|]; simpl; [|..|done].
  - intros E. f_equal. apply num_to_string_inj; eauto.
  - intros E. exfalso. by apply (Hn z1); [apply H1|].
  - intros E. exfalso. by apply (Hn z2); [apply H2|].
Qed.

(** A character that no part of a scope but the roots could hold. *)
Lemma scope_parts_free c r :
  rule_ok r → c ∈ ["/"%char; "@"%char] → (∀ x, x ∈ rootNodeIds r → str_includes c x = false) →
  Forall (λ s, str_includes c s = false)
    (scope_parts r ++ ["indexes:" +:+ SupportFragmentPlan.joinOrNone (kind_families (kind r))]).
Proof.
  intros Hr Hc Hx.
  assert (∀ l, (∀ x, x ∈ l → str_includes c x = false) →
    str_includes c (SupportFragmentPlan.joinOrNone l) = false) as Hjoin.
  { intros l Hl. assert (c ≠ "+"%char) as Hp by (intros ->; set_unfold; naive_solver).
    destruct l as [|x l]; [simpl; set_unfold; destruct Hc as [->|[->|[]]]; done|].
    unfold SupportFragmentPlan.joinOrNone. rewrite str_includes_join by done. revert Hl.
    generalize (x :: l). clear. intros l Hl. induction l as [|y l IH]; [done|]. cbn [existsb].
    rewrite Hl by by left. apply IH. intros z Hz. apply Hl. by right. }
  assert (∀ l s, s ∈ l → forallb (λ s, negb (str_includes "/"%char s) && negb (str_includes "@"%char s)) l = true →
    str_includes c s = false) as Hconst.
  { intros l s Hs Hl. rewrite List.forallb_forall in Hl. apply list_elem_of_In, Hl in Hs.
    apply andb_true_iff in Hs as [H1 H2]. apply negb_true_iff in H1, H2.
    set_unfold. by destruct Hc as [->|[->|[]]]. }
  assert (c ≠ ":"%char ∧ ∀ s, s ∈ ["surface"; "kind"; "roots"; "depth"; "directions"; "indexes"] →
    str_includes c s = false) as [Hcolon Hnames].
  { split; [set_unfold; naive_solver|]. intros s Hs. by apply (Hconst _ s Hs). }
  assert (∀ n s, n ∈ ["surface"; "kind"; "roots"; "depth"; "directions"; "indexes"] →
    str_includes c s = false → str_includes c (n +:+ String ":"%char s) = false) as Hfield.
  { intros n s Hn Hs. rewrite str_includes_app, (Hnames n Hn). cbn [str_includes orb].
    by rewrite bool_decide_eq_false_2, Hs. }
  repeat constructor.
  - apply (Hfield "surface"); [set_solver|]. by apply (Hconst SUPPORT_SURFACES); [apply Hr|].
  - apply (Hfield "kind"); [set_solver|]. by apply (Hconst SUPPORT_KINDS); [apply Hr|].
  - apply (Hfield "roots"); [set_solver|]. by apply Hjoin.
  - apply (Hfield "depth"); [set_solver|]. unfold SupportFragmentPlan.depth_text.
    destruct (maxDepth r) as [z|] eqn:Ez; [|by apply (Hconst ["none"]); [left|]].
    apply num_to_string_free; [by eapply ok_depth|]. set_unfold. by destruct Hc as [->|[->|[]]].
  - apply (Hfield "directions"); [set_solver|]. apply Hjoin. intros x Hd.
    by apply (Hconst SUPPORT_DIRECTIONS); [apply Hr|].
  - apply (Hfield "indexes"); [set_solver|]. apply Hjoin. intros x Hd. apply (Hconst CausalIndexPlan.INDEX_FAMILIES); [|done].
    revert Hd. unfold kind_families. destruct (decide _); [|destruct (decide _)]; set_solver.
Qed.

Lemma scope_text_free c r :
  rule_ok r → c = "@"%char → plain_roots r → str_includes c (scope_text r) = false.
Proof.
  intros Hr -> Hp. unfold scope_text. rewrite str_includes_join by done.
  assert (Forall (λ s, str_includes "@"%char s = false)
    (scope_parts r ++ ["indexes:" +:+ SupportFragmentPlan.joinOrNone (kind_families (kind r))])) as Hf.
  { apply scope_parts_free; [done|set_solver|]. intros x Hx. by apply Hp. }
  revert Hf. generalize (scope_parts r ++ ["indexes:" +:+ SupportFragmentPlan.joinOrNone (kind_families (kind r))]).
  induction 1 as [|s l Hs _ IH]; [done|]. simpl. by rewrite Hs.
Qed.

Lemma scope_text_inj r1 r2 :
  rule_ok r1 → rule_ok r2 → plain_roots r1 → plain_roots r2 → scope_text r1 = scope_text r2 →
  surface r1 = surface r2 ∧ kind r1 = kind r2 ∧ rootNodeIds r1 = rootNodeIds r2 ∧
  maxDepth r1 = maxDepth r2 ∧ directions r1 = directions r2.
Proof.
  intros H1 H2 P1 P2 E. apply str_join_inj in E; [|done|done|..];
    [|(apply scope_parts_free; [done|set_solver|intros x Hx; by apply P1])
     |(apply scope_parts_free; [done|set_solver|intros x Hx; by apply P2])].
  injection E as Es Ek Er Ed Edir _.
  split; [done|]. split; [done|]. split; [|split].
  - apply join_or_none_inj; [|done]. intros x [Hx|Hx]%elem_of_app; [apply P1 in Hx|apply P2 in Hx]; by destruct Hx as (_ & ? & _ & ?).
  - apply depth_text_inj; [by apply ok_depth|by apply ok_depth|done].
  - apply join_or_none_inj; [|done]. intros x Hx. assert (x ∈ SUPPORT_DIRECTIONS) as Hd
      by (apply elem_of_app in Hx as [Hx|Hx]; [by apply H1|by apply H2]).
    unfold SUPPORT_DIRECTIONS in Hd. set_unfold. by destruct Hd as [->|[->|[]]].
Qed.
End fragment_keys.

(** The plan of the fragment of a valid rule is always made; fragments of
    one key have the same scope and coordinate: where the ids of the roots hold
    none of the separators, two rules whose fragments have the same key agree
    on surface, kind, roots, depth and directions, and the two coordinates are
    the same up to surrounding space. Global rules have no key. *)
Theorem fragment_keys_identify (f1 f2 : BoundedSupportRule.BoundedSupportRuleFields)
    (r1 r2 : BoundedSupportRule.BoundedSupportRule) (c1 c2 k : string) :
  BoundedSupportRule.new f1 = Ok r1 → BoundedSupportRule.new f2 = Ok r2 →
  plain_roots r1 → plain_roots r2 →
  ∃ p1 p2, SupportFragmentPlan.fromSupportRule r1 = Ok p1 ∧ SupportFragmentPlan.fromSupportRule r2 = Ok p2 ∧
    (SupportFragmentPlan.canMaterializeSupportFragment p1 = true ↔
      BoundedSupportRule.kind r1 = "entity" ∨ BoundedSupportRule.kind r1 = "neighborhood") ∧
    (is_ok (SupportFragmentPlan.fragmentKeyForCoordinate p1 c1) = true ↔
      SupportFragmentPlan.canMaterializeSupportFragment p1 = true ∧ js_trim c1 ≠ "") ∧
    (SupportFragmentPlan.fragmentKeyForCoordinate p1 c1 = Ok k →
     SupportFragmentPlan.fragmentKeyForCoordinate p2 c2 = Ok k →
     BoundedSupportRule.surface r1 = BoundedSupportRule.surface r2 ∧
     BoundedSupportRule.kind r1 = BoundedSupportRule.kind r2 ∧
     BoundedSupportRule.rootNodeIds r1 = BoundedSupportRule.rootNodeIds r2 ∧
     BoundedSupportRule.maxDepth r1 = BoundedSupportRule.maxDepth r2 ∧
     BoundedSupportRule.directions r1 = BoundedSupportRule.directions r2 ∧ js_trim c1 = js_trim c2).
Proof.
  intros H1%new_rule_ok H2%new_rule_ok P1 P2.
  destruct (fragment_plan_spec r1 H1) as (p1 & E1 & _ & Ep1 & Ek1 & _).
  destruct (fragment_plan_spec r2 H2) as (p2 & E2 & _ & Ep2 & Ek2 & _).
  exists p1, p2. do 2 (split; [done|]). split; [|split].
  - unfold SupportFragmentPlan.canMaterializeSupportFragment. rewrite Ep1. unfold fragment_posture.
    destruct (decide (BoundedSupportRule.kind r1 = "entity")); [by split; [left|]|].
    destruct (decide (BoundedSupportRule.kind r1 = "neighborhood")); [by split; [right|]|].
    split; [done|]. by intros [].
  - unfold SupportFragmentPlan.fragmentKeyForCoordinate, SupportFragmentPlan.requiresFullGraphFallback,
      SupportFragmentPlan.canMaterializeSupportFragment, queryValidation.requireNonEmptyString.
    rewrite !bool_decide_eq_true. case_bool_decide; simpl; [naive_solver|].
    destruct (js_trim c1); simpl; naive_solver.
  - unfold SupportFragmentPlan.fragmentKeyForCoordinate, queryValidation.requireNonEmptyString.
    destruct (SupportFragmentPlan.requiresFullGraphFallback p1); [done|].
    destruct (SupportFragmentPlan.requiresFullGraphFallback p2); [by intros _|].
    destruct (str_nonempty (js_trim c1)); simpl; [|done]. intros [= <-].
    destruct (str_nonempty (js_trim c2)); simpl; [|done]. intros [= E].
    rewrite Ek1, Ek2 in E. pose proof (f_equal (str_split "@"%char) E) as Es.
    change ("@" +:+ js_trim c1) with (String "@"%char (js_trim c1)) in *.
    change ("@" +:+ js_trim c2) with (String "@"%char (js_trim c2)) in *.
    rewrite !str_split_app in Es by (by apply scope_text_free). pose proof (f_equal (hd "") Es) as Et. cbn [hd] in Et.
    rewrite Et in E. apply str_app_inj_l in E. injection E as E.
    apply scope_text_inj in Et as (? & ? & ? & ? & ?); done.
Qed.

(** Two queries for different nodes whose fragments have one key. *)
Lemma fragment_keys_collide :
  ∃ f1 f2 r1 r2 p1 p2,
    BoundedSupportRule.new f1 = Ok r1 ∧ BoundedSupportRule.new f2 = Ok r2 ∧
    BoundedSupportRule.rootNodeIds r1 ≠ BoundedSupportRule.rootNodeIds r2 ∧
    SupportFragmentPlan.fromSupportRule r1 = Ok p1 ∧ SupportFragmentPlan.fromSupportRule r2 = Ok p2 ∧
    SupportFragmentPlan.fragmentKeyForCoordinate p1 "c" = SupportFragmentPlan.fragmentKeyForCoordinate p2 "c" ∧
    is_ok (SupportFragmentPlan.fragmentKeyForCoordinate p1 "c") = true.
Proof.
  exists (BoundedSupportRule.mkFields "query" "entity" "r" (Some ["n:a"; "n:b"]) None None).
  exists (BoundedSupportRule.mkFields "query" "entity" "r" (Some ["n:a+n:b"]) None None).
  do 4 eexists. split; [vm_compute; reflexivity|]. split; [vm_compute; reflexivity|]. split; [done|].
  split; [vm_compute; reflexivity|]. split; [vm_compute; reflexivity|]. split; vm_compute; reflexivity.
Qed.

Definition sample_fields : BoundedSupportRule.BoundedSupportRuleFields :=
  BoundedSupportRule.mkFields "query" "neighborhood" "links" (Some ["n2"; "n1"; " n1 "])
    (Some (JInt 2)) (Some ["outgoing"]).

Definition sample_rule : BoundedSupportRule.BoundedSupportRule :=
  BoundedSupportRule.mk "query" "neighborhood" "links" ["n1"; "n2"] (Some 2%Z) ["outgoing"].

Lemma fragment_keys_identify_witness :
  BoundedSupportRule.new sample_fields = Ok sample_rule ∧
  ∃ p1 p2, SupportFragmentPlan.fromSupportRule sample_rule = Ok p1 ∧
    SupportFragmentPlan.fromSupportRule sample_rule = Ok p2 ∧
    (SupportFragmentPlan.canMaterializeSupportFragment p1 = true ↔
      BoundedSupportRule.kind sample_rule = "entity" ∨ BoundedSupportRule.kind sample_rule = "neighborhood") ∧
    (is_ok (SupportFragmentPlan.fragmentKeyForCoordinate p1 "tip") = true ↔
      SupportFragmentPlan.canMaterializeSupportFragment p1 = true ∧ js_trim "tip" ≠ "") ∧
    (SupportFragmentPlan.fragmentKeyForCoordinate p1 "tip" = Ok "k" →
     SupportFragmentPlan.fragmentKeyForCoordinate p2 " tip " = Ok "k" →
     BoundedSupportRule.surface sample_rule = BoundedSupportRule.surface sample_rule ∧
     BoundedSupportRule.kind sample_rule = BoundedSupportRule.kind sample_rule ∧
     BoundedSupportRule.rootNodeIds sample_rule = BoundedSupportRule.rootNodeIds sample_rule ∧
     BoundedSupportRule.maxDepth sample_rule = BoundedSupportRule.maxDepth sample_rule ∧
     BoundedSupportRule.directions sample_rule = BoundedSupportRule.directions sample_rule ∧
     js_trim "tip" = js_trim " tip ").
Proof.
  split; [vm_compute; reflexivity|].
  assert (plain_roots sample_rule) as Hp.
  { intros x Hx. cbn in Hx. set_unfold. destruct Hx as [->|[->|[]]]; by repeat split. }
  apply (fragment_keys_identify sample_fields sample_fields sample_rule sample_rule "tip" " tip " "k");
    [vm_compute; reflexivity|vm_compute; reflexivity|exact Hp|exact Hp].
Defined.

(** ** The rule of a plan *)
Section rule_of_plan.
Import QueryPlan BoundedSupportRule.

Definition patterns_of (p : string + list string) : list string :=
  match p with inl s => [s] | inr l => l end.

Definition starred (p : string) : bool := str_includes "*"%char p.

(** No exact pattern is blank. *)
Definition patterns_ok (p : string + list string) : Prop :=
  ∀ s, s ∈ patterns_of p → starred s = false → js_trim s ≠ "".

Lemma exact_ids_spec l :
  (∀ s, s ∈ l → starred s = false → js_trim s ≠ "") →
  exact_ids l = Ok (if existsb starred l then None else Some (js_trim <$> l)).
Proof.
  induction l as [|s l IH]; intros Hl; [done|]. cbn [exact_ids existsb]. unfold exactPatternNodeId at 1.
  change (str_includes "*"%char s) with (starred s). destruct (starred s) eqn:Es; [done|].
  specialize (Hl s) as Hs. unfold requireNonEmptyString.
  assert (str_nonempty (js_trim s) = true) as ->
    by (destruct (js_trim s); [exfalso; by apply Hs; [left| |]|done]).
  cbn [require mbind result_bind]. rewrite IH by (intros t Ht; apply Hl; by right).
  cbn [mbind result_bind orb]. by destruct (existsb starred l).
Qed.

Lemma exactNodeIds_spec p :
  patterns_ok p →
  exactNodeIdsForPattern p =
    Ok (if existsb starred (patterns_of p) then None else Some (sorted_set (js_trim <$> patterns_of p))).
Proof.
  intros Hp. destruct p as [s|l].
  - pose proof (exact_ids_spec [s] Hp) as E. cbn [exact_ids existsb patterns_of] in *. rewrite orb_false_r in *.
    unfold exactNodeIdsForPattern. destruct (exactPatternNodeId s) as [[n|]|]; cbn in *.
    + destruct (starred s); [done|]. injection E as ->. done.
    + by destruct (starred s).
    + done.
  - pose proof (exact_ids_spec l Hp) as E. cbn [exactNodeIdsForPattern patterns_of]. rewrite E.
    cbn [mbind result_bind]. by destruct (existsb starred l).
Qed.

Lemma maxTraversalDepth_spec ops d :
  (maxTraversalDepth ops <= d)%nat ↔ ∀ o, o ∈ ops → (o.2.2 <= d)%nat.
Proof.
  unfold maxTraversalDepth.
  enough (∀ m, (foldl (λ maxDepth operation, let candidate := operation.2.2 in
      if decide (maxDepth < candidate)%nat then candidate else maxDepth) m ops <= d)%nat
    ↔ (m <= d)%nat ∧ ∀ o, o ∈ ops → (o.2.2 <= d)%nat) as Hgen by (rewrite Hgen; naive_solver lia).
  induction ops as [|o ops IH]; intros m; cbn [foldl]; [set_solver by lia|].
  rewrite IH. setoid_rewrite elem_of_cons. cbn zeta. case_decide; naive_solver lia.
Qed.

(** The rule of a plan without blank patterns. *)
Lemma fromQueryPlan_spec plan :
  patterns_ok (pattern plan) →
  let ids := js_trim <$> patterns_of (pattern plan) in
  let traversals := traversalOperations (operations plan) in
  ∃ r, fromQueryPlan plan = Ok r ∧ surface r = "query" ∧
    (existsb starred (patterns_of (pattern plan)) = true → kind r = "global-discovery" ∧ rootNodeIds r = []) ∧
    (existsb starred (patterns_of (pattern plan)) = false →
      rootNodeIds r = sorted_set ids ∧
      (traversals = [] → kind r = "entity" ∧ maxDepth r = None ∧ directions r = []) ∧
      (traversals ≠ [] → kind r = "neighborhood" ∧ maxDepth r = Some (Z.of_nat (maxTraversalDepth traversals)) ∧
        directions r = traversalDirections traversals)).
Proof.
  intros Hp. cbn zeta. unfold fromQueryPlan. rewrite exactNodeIds_spec by done. cbn [mbind result_bind].
  destruct (existsb starred (patterns_of (pattern plan))) eqn:Es.
  { exists (mk "query" "global-discovery" "query pattern requires discovery over the visible graph" [] None []).
    split; [vm_compute; reflexivity|]. split; [done|]. split; [done|]. by intros. }
  set (ids := js_trim <$> patterns_of (pattern plan)).
  assert (∀ x, x ∈ sorted_set ids → js_trim x = x ∧ x ≠ "") as Hids.
  { intros x. rewrite elem_of_sorted_set. unfold ids. rewrite list_elem_of_fmap.
    intros (s & -> & Hs). split; [apply js_trim_idemp|]. apply Hp; [done|].
    destruct (starred s) eqn:E; [|done]. rewrite <- Es. symmetry. apply existsb_exists. exists s.
    split; [by apply list_elem_of_In|done]. }
  pose proof (freeze_trimmed (sorted_set ids) E_SUPPORT (sorted_set_strict ids) Hids) as Hf.
  change (queryValidation.freezeStringList (sorted_set ids) E_SUPPORT) with (freezeStringList (sorted_set ids)) in Hf.
  destruct (decide (length (traversalOperations (operations plan)) = 0%nat)) as [E0|E0].
  - apply nil_length_inv in E0. rewrite E0. unfold entityRead, new.
    cbn [f_surface f_kind f_reason f_rootNodeIds f_maxDepth f_directions default from_option Datatypes.id].
    rewrite Hf.
    assert (requireSurface "query" = Ok "query") as -> by done.
    assert (requireKind "entity" = Ok "entity") as -> by done.
    assert (∃ reason, requireNonEmptyString "exact node-id support" = Ok reason) as [reason ->] by (by eexists).
    assert (freezeDirections [] = Ok []) as -> by done.
    cbn [mbind result_bind optionalNonNegativeInteger]. eexists. split; [reflexivity|].
    cbn [surface kind rootNodeIds maxDepth directions]. split; [done|]. split; [done|]. by intros _.
  - unfold neighborhoodRead, new.
    cbn [f_surface f_kind f_reason f_rootNodeIds f_maxDepth f_directions default from_option Datatypes.id].
    rewrite Hf.
    assert (freezeDirections (traversalDirections (traversalOperations (operations plan)))
      = Ok (traversalDirections (traversalOperations (operations plan)))) as ->.
    { unfold freezeDirections.
      assert (∀ l : list string, (∀ x, x ∈ l → x ∈ SUPPORT_DIRECTIONS) → map_result (λ value,
        _ ← require (bool_decide (value ∈ SUPPORT_DIRECTIONS)) (QueryError E_SUPPORT); Ok value) l = Ok l) as ->.
      { induction l as [|x l IH]; intros Hl; [done|]. simpl. rewrite bool_decide_eq_true_2 by (apply Hl; by left).
        simpl. rewrite IH; [done|]. intros y Hy. apply Hl. by right. }
      - simpl. by rewrite sorted_set_of_strict by apply sorted_set_strict.
      - intros x. unfold traversalDirections. rewrite elem_of_sorted_set, list_elem_of_fmap.
        intros ([[[] ?] ?] & -> & _); set_solver. }
    assert (requireSurface "query" = Ok "query") as -> by done.
    assert (requireKind "neighborhood" = Ok "neighborhood") as -> by done.
    assert (∃ reason, requireNonEmptyString "exact node-id traversal support" = Ok reason) as [reason ->] by (by eexists).
    assert (∀ n, optionalNonNegativeInteger (Some (JInt (Z.of_nat n))) = Ok (Some (Z.of_nat n))) as ->
      by (intros n; unfold optionalNonNegativeInteger; by rewrite (proj2 (Z.ltb_ge _ _)) by lia).
    cbn [mbind result_bind]. eexists. split; [reflexivity|]. cbn [surface kind rootNodeIds maxDepth directions].
    split; [done|]. split; [done|]. intros _. split; [done|]. split; [intros E; by rewrite E in E0|done].
Qed.
End rule_of_plan.
