(* ===== verification/Doubles.v ===== *)
(** Arithmetic on doubles, as far as the program computes with numbers that
    are not integers: sums, means, least and greatest values. A finite double
    is a dyadic number; results are rounded to 53 bits, ties to even. *)
From S2P Require Export Prelude.
#[local] Open Scope Z_scope.

(** The finite double [m * 2^e], as an integer where it is one. *)
Fixpoint strip (fuel : nat) (m e : Z) : jsnum :=
  if 0 <=? e then JInt (m * 2 ^ e)
  else match fuel with
       | O => JFrac m e
       | S fuel' => if Z.even m then strip fuel' (m / 2) (e + 1) else JFrac m e
       end.

Definition dyadic (m e : Z) : jsnum := if m =? 0 then JInt 0 else strip (Z.to_nat (- e)) m e.

(** The double nearest to [a / b * 2^e], where [a >= 0] and [b > 0]. *)
Definition round_ratio (neg : bool) (a b e : Z) : jsnum :=
  if a =? 0 then JInt 0
  else
    let l := Z.log2 a - Z.log2 b in
    let fl := if b * 2 ^ Z.max l 0 <=? a * 2 ^ Z.max (- l) 0 then l else l - 1 in
    let u := Z.max (fl + e - 52) (-1074) in
    let num := a * 2 ^ Z.max (e - u) 0 in
    let den := b * 2 ^ Z.max (u - e) 0 in
    let q := num / den in
    let r := num mod den in
    let q := if (den <? 2 * r) || ((den =? 2 * r) && Z.odd q) then q + 1 else q in
    if 2 ^ 1024 <=? q * 2 ^ Z.max u 0 then JInf neg
    else dyadic (if neg then - q else q) u.

(** Sign, mantissa and exponent of a finite double. *)
Definition mantissa (x : jsnum) : option (Z * Z) :=
  match x with JInt z => Some (z, 0) | JFrac m e => Some (m, e) | _ => None end.

(** [a + b] *)
Definition d_add (a b : jsnum) : jsnum :=
  match a, b with
  | JNaN, _ | _, JNaN => JNaN
  | JInf s, JInf t => if Bool.eqb s t then JInf s else JNaN
  | JInf s, _ => JInf s
  | _, JInf t => JInf t
  | _, _ =>
      match mantissa a, mantissa b with
      | Some (m1, e1), Some (m2, e2) =>
          let e := Z.min e1 e2 in
          let m := m1 * 2 ^ (e1 - e) + m2 * 2 ^ (e2 - e) in
          round_ratio (m <? 0) (Z.abs m) 1 e
      | _, _ => JNaN
      end
  end.

(** [a / n] for a positive integer [n]. *)
Definition d_div_int (a : jsnum) (n : Z) : jsnum :=
  match a with
  | JNaN => JNaN
  | JInf s => JInf s
  | JInt z => round_ratio (z <? 0) (Z.abs z) n 0
  | JFrac m e => round_ratio (m <? 0) (Z.abs m) n e
  end.

(** [a < b] *)
Definition d_ltb (a b : jsnum) : bool :=
  match a, b with
  | JNaN, _ | _, JNaN => false
  | JInf s, JInf t => s && negb t
  | JInf s, _ => s
  | _, JInf t => negb t
  | _, _ =>
      match mantissa a, mantissa b with
      | Some (m1, e1), Some (m2, e2) =>
          let e := Z.min e1 e2 in m1 * 2 ^ (e1 - e) <? m2 * 2 ^ (e2 - e)
      | _, _ => false
      end
  end.

(** [Math.min] and [Math.max] of two arguments that are not NaN. *)
Definition d_min (a b : jsnum) : jsnum := if d_ltb b a then b else a.
Definition d_max (a b : jsnum) : jsnum := if d_ltb a b then b else a.

(** [Math.min(...l)], [Math.max(...l)] *)
Definition math_min (l : list jsnum) : jsnum := foldl d_min (JInf false) l.
Definition math_max (l : list jsnum) : jsnum := foldl d_max (JInf true) l.

Example d_add_rounds : d_add (JInt max_exact) (JInt 1) = JInt max_exact.
Proof. vm_compute. reflexivity. Qed.

(** 0.1 + 0.2 *)
Example d_add_tenths :
  d_add (JFrac 3602879701896397 (-55)) (JFrac 3602879701896397 (-54)) = JFrac 1351079888211149 (-52).
Proof. vm_compute. reflexivity. Qed.

(** 1 / 3 *)
Example d_div_third : d_div_int (JInt 1) 3 = JFrac 6004799503160661 (-54).
Proof. vm_compute. reflexivity. Qed.

(** ** Integers *)
Lemma strip_shifted z k : strip k (z * 2 ^ Z.of_nat k) (- Z.of_nat k) = JInt z.
Proof.
  induction k as [|k IH]; [by simpl; rewrite !Z.mul_1_r|]. cbn [strip].
  destruct (Z.leb_spec 0 (- Z.of_nat (S k))); [lia|].
  assert (z * 2 ^ Z.of_nat (S k) = 2 * (z * 2 ^ Z.of_nat k)) as ->
    by (rewrite Nat2Z.inj_succ, Z.pow_succ_r by lia; lia).
  rewrite Z.even_mul. cbn [Z.even orb]. rewrite Z.mul_comm, Z.div_mul by lia.
  replace (- Z.of_nat (S k) + 1) with (- Z.of_nat k) by lia. done.
Qed.

Lemma dyadic_shifted z k : 0 <= k → dyadic (z * 2 ^ k) (- k) = JInt z.
Proof.
  intros Hk. unfold dyadic. destruct (Z.eqb_spec (z * 2 ^ k) 0) as [E|E].
  - apply Z.mul_eq_0 in E as [->|E]; [done|]. pose proof (Z.pow_pos_nonneg 2 k). lia.
  - rewrite Z.opp_involutive. rewrite <- (Z2Nat.id k Hk) at 2 3. apply strip_shifted.
Qed.

(** Integers up to 2^53 are doubles. *)
Lemma round_ratio_int neg a : 0 <= a <= max_exact → round_ratio neg a 1 0 = JInt (if neg then - a else a).
Proof.
  intros Ha. destruct (decide (a = 0)) as [->|Hne]; [by destruct neg|].
  destruct (decide (a = max_exact)) as [->|Hlt]; [by destruct neg; vm_compute|].
  pose proof (Z.log2_spec a ltac:(lia)) as Hspec. pose proof (Z.log2_nonneg a) as Hl0.
  assert (Z.log2 a <= 52) as Hl52.
  { assert (Z.log2 a < 53); [|lia]. apply Z.log2_lt_pow2; [lia|]. change (2 ^ 53) with max_exact. lia. }
  assert ((if 1 * 2 ^ Z.max (Z.log2 a - Z.log2 1) 0 <=? a * 2 ^ Z.max (- (Z.log2 a - Z.log2 1)) 0
           then Z.log2 a - Z.log2 1 else Z.log2 a - Z.log2 1 - 1) = Z.log2 a) as Hfl.
  { change (Z.log2 1) with 0. replace (Z.max (Z.log2 a - 0) 0) with (Z.log2 a) by lia.
    replace (Z.max (- (Z.log2 a - 0)) 0) with 0 by lia. change (2 ^ 0) with 1.
    rewrite (proj2 (Z.leb_le _ _)) by lia. lia. }
  unfold round_ratio. rewrite (proj2 (Z.eqb_neq _ _)) by done. cbv zeta. rewrite Hfl. clear Hfl.
  replace (Z.max (Z.log2 a + 0 - 52) (-1074)) with (Z.log2 a - 52) by lia.
  set (k := 52 - Z.log2 a). replace (Z.log2 a - 52) with (- k) by lia.
  replace (Z.max (0 - - k) 0) with k by lia. replace (Z.max (- k - 0) 0) with 0 by lia.
  replace (Z.max (- k) 0) with 0 by lia. change (1 * 2 ^ 0) with 1.
  rewrite Z.div_1_r, Z.mod_1_r. change (2 * 0) with 0. change (1 <? 0) with false. change (1 =? 0) with false.
  cbn [orb andb]. change (2 ^ 0) with 1. rewrite Z.mul_1_r.
  assert (a * 2 ^ k < 2 ^ 53) as Hb.
  { replace 53 with (Z.succ (Z.log2 a) + k) by lia. rewrite Z.pow_add_r by lia.
    apply Z.mul_lt_mono_pos_r; [apply Z.pow_pos_nonneg; lia|lia]. }
  assert (2 ^ 53 < 2 ^ 1024) as Hp by (apply Z.pow_lt_mono_r; lia).
  rewrite (proj2 (Z.leb_gt _ _)) by lia.
  destruct neg; [rewrite <- Z.mul_opp_l|]; apply dyadic_shifted; lia.
Qed.

(** Below 2^53 sums of integers are exact. *)
Lemma d_add_exact a b : Z.abs (a + b) <= max_exact → d_add (JInt a) (JInt b) = JInt (a + b).
Proof.
  intros Hab. unfold d_add, mantissa. cbn [Z.min Z.sub]. change (2 ^ 0) with 1. rewrite !Z.mul_1_r.
  change (Z.min 0 0) with 0. rewrite round_ratio_int by lia. f_equal.
  destruct (Z.ltb_spec (a + b) 0); lia.
Qed.

(** ** The order *)

(** [m * 2^e] in units of [2^k]. *)
Lemma scale_ltb m1 e1 m2 e2 k :
  k <= e1 → k <= e2 →
  (m1 * 2 ^ (e1 - Z.min e1 e2) <? m2 * 2 ^ (e2 - Z.min e1 e2)) =
  (m1 * 2 ^ (e1 - k) <? m2 * 2 ^ (e2 - k)).
Proof.
  intros H1 H2. set (e := Z.min e1 e2).
  assert (∀ x, 2 ^ (x - k) = 2 ^ (x - e) * 2 ^ (e - k) ∨ x < e) as Hpow.
  { intros x. destruct (Z_lt_le_dec x e); [by right|left]. rewrite <- Z.pow_add_r by lia. f_equal. lia. }
  destruct (Hpow e1) as [->|]; [|lia]. destruct (Hpow e2) as [->|]; [|lia].
  pose proof (Z.pow_pos_nonneg 2 (e - k)). rewrite !Z.mul_assoc.
  destruct (Z.ltb_spec (m1 * 2 ^ (e1 - e)) (m2 * 2 ^ (e2 - e)));
    destruct (Z.ltb_spec (m1 * 2 ^ (e1 - e) * 2 ^ (e - k)) (m2 * 2 ^ (e2 - e) * 2 ^ (e - k))); nia.
Qed.

Lemma d_ltb_mantissa a b m1 e1 m2 e2 k :
  mantissa a = Some (m1, e1) → mantissa b = Some (m2, e2) → k <= e1 → k <= e2 →
  d_ltb a b = (m1 * 2 ^ (e1 - k) <? m2 * 2 ^ (e2 - k)).
Proof.
  intros H1 H2 K1 K2. rewrite <- (scale_ltb m1 e1 m2 e2 k K1 K2).
  destruct a, b; simpl in H1, H2; simplify_eq; done.
Qed.

(** Three numbers in one unit. *)
Ltac d_units a b c :=
  let m1 := fresh "m" in let e1 := fresh "e" in let m2 := fresh "m" in let e2 := fresh "e" in
  let m3 := fresh "m" in let e3 := fresh "e" in
  destruct (mantissa a) as [[m1 e1]|] eqn:Ea, (mantissa b) as [[m2 e2]|] eqn:Eb,
    (mantissa c) as [[m3 e3]|] eqn:Ec;
  [rewrite ?(d_ltb_mantissa a b m1 e1 m2 e2 (Z.min e1 (Z.min e2 e3))),
     ?(d_ltb_mantissa b a m2 e2 m1 e1 (Z.min e1 (Z.min e2 e3))),
     ?(d_ltb_mantissa a c m1 e1 m3 e3 (Z.min e1 (Z.min e2 e3))),
     ?(d_ltb_mantissa c a m3 e3 m1 e1 (Z.min e1 (Z.min e2 e3))),
     ?(d_ltb_mantissa b c m2 e2 m3 e3 (Z.min e1 (Z.min e2 e3))),
     ?(d_ltb_mantissa c b m3 e3 m2 e2 (Z.min e1 (Z.min e2 e3))) by (done || lia);
   rewrite ?Z.ltb_lt, ?Z.ltb_ge; lia
  |destruct a as [| |[]|], b as [| |[]|], c as [| |[]|]; simpl in *; done..].

Lemma d_ltb_asymm a b : d_ltb a b = true → d_ltb b a = false.
Proof.
  destruct (mantissa a) as [[m1 e1]|] eqn:Ea, (mantissa b) as [[m2 e2]|] eqn:Eb;
    [|destruct a as [| |[]|], b as [| |[]|]; simpl in *; done..].
  rewrite (d_ltb_mantissa a b m1 e1 m2 e2 (Z.min e1 e2)), (d_ltb_mantissa b a m2 e2 m1 e1 (Z.min e1 e2))
    by (done || lia). rewrite Z.ltb_lt, Z.ltb_ge. lia.
Qed.

Lemma d_ltb_irrefl a : d_ltb a a = false.
Proof. destruct (d_ltb a a) eqn:E; [|done]. by rewrite <- E, (d_ltb_asymm a a E). Qed.

(** ** Least and greatest values *)
Section best.
Context (lt : jsnum → jsnum → bool).
Context (Hirrefl : ∀ a, lt a a = false).
Context (Htrans : ∀ a b c, a ≠ JNaN → lt a b = true → lt a c = false → lt b c = false).
Context (Hlower : ∀ a b c, c ≠ JNaN → lt a b = true → lt c b = false → lt a c = true).
#[local] Abbreviation best := (λ a b, if lt b a then b else a).

Lemma foldl_best l a :
  a ≠ JNaN → (∀ x, x ∈ l → x ≠ JNaN) →
  let r := foldl best a l in
  (r = a ∨ r ∈ l) ∧ lt a r = false ∧ ∀ x, x ∈ l → lt x r = false.
Proof.
  cbn zeta. revert a. induction l as [|y l IH]; intros a Ha Hl; cbn [foldl].
  { split; [by left|]. split; [apply Hirrefl|]. by intros x ?%elem_of_nil. }
  assert (y ≠ JNaN) as Hy by (apply Hl; by left).
  destruct (IH (best a y)) as (Hin & Hm & Hrest);
    [simpl; by destruct (lt y a)|intros x Hx; apply Hl; by right|].
  simpl in *. destruct (lt y a) eqn:E.
  - split; [destruct Hin as [->|]; right; [by left|by right]|]. split; [by apply (Htrans y a)|].
    intros x [->|Hx]%elem_of_cons; [done|by apply Hrest].
  - split; [destruct Hin as [->|]; [by left|right; by right]|]. split; [done|].
    intros x [->|Hx]%elem_of_cons; [|by apply Hrest].
    destruct (lt y (foldl best a l)) eqn:E'; [|done].
    pose proof (Hlower y (foldl best a l) a Ha E' Hm). congruence.
Qed.

Lemma foldl_best_spec top l :
  (∀ y, y ≠ JNaN → best top y = y) → l ≠ [] → (∀ x, x ∈ l → x ≠ JNaN) →
  foldl best top l ∈ l ∧ ∀ x, x ∈ l → lt x (foldl best top l) = false.
Proof.
  intros Htop Hne Hn. destruct l as [|y l]; [done|]. cbn [foldl].
  rewrite Htop by (apply Hn; by left).
  destruct (foldl_best l y) as (Hin & Hy & Hl); [apply Hn; by left|intros x Hx; apply Hn; by right|].
  split; [destruct Hin as [->|]; [by left|by right]|]. intros x [->|Hx]%elem_of_cons; [done|by apply Hl].
Qed.
End best.

(** [Math.min] takes a value that no other undercuts, [Math.max] one that no
    other exceeds. *)
Lemma math_min_spec l :
  l ≠ [] → (∀ x, x ∈ l → x ≠ JNaN) →
  math_min l ∈ l ∧ ∀ x, x ∈ l → d_ltb x (math_min l) = false.
Proof.
  apply (foldl_best_spec d_ltb); [apply d_ltb_irrefl|intros a b c; d_units a b c..|].
  intros y Hy. by destruct y as [| |[]|].
Qed.

Lemma math_max_spec l :
  l ≠ [] → (∀ x, x ∈ l → x ≠ JNaN) →
  math_max l ∈ l ∧ ∀ x, x ∈ l → d_ltb (math_max l) x = false.
Proof.
  apply (foldl_best_spec (λ a b, d_ltb b a)); [apply d_ltb_irrefl|intros a b c; d_units a b c..|].
  intros y Hy. by destruct y as [| |[]|].
Qed.
