(* ===== verification/QueryRunner.v ===== *)
(** Execution of queries: aggregation and the pipeline of operations
    ([query/QueryAggregation.ts], [query/QueryRunner.ts]). *)
From S2P Require Export SupportRules Doubles.
#[local] Open Scope string_scope.
#[local] Open Scope list_scope.

Module QueryAggregation.

Inductive NumericAggregateKey := KSum | KAvg | KMin | KMax.

#[global] Instance NumericAggregateKey_eq_dec : EqDecision NumericAggregateKey.
Proof. solve_decision. Defined.

(* @src domain/services/query/QueryAggregation.ts AggregateAccumulator 10-13 *)
Record AggregateAccumulator := mkAccumulator { segments : list string; values : list jsnum }.

(* @src domain/services/query/QueryAggregation.ts AggregateResult 15-22 *)
Record AggregateResult := mkResult {
  r_stateHash : string;
  r_count : option Z;
  r_numbers : list (NumericAggregateKey * jsnum);
}.

(** [spec[key]] *)
Definition spec_path (spec : QueryPlan.AggregateSpec) (key : NumericAggregateKey) : option string :=
  match key with
  | KSum => QueryPlan.sum spec
  | KAvg => QueryPlan.avg spec
  | KMin => QueryPlan.min spec
  | KMax => QueryPlan.max spec
  end.

(** A name inherited from a prototype is no number and no object with
    numbers, so that it counts as missing. *)
Definition field (segment : string) (fields : list (string * SnapshotPropValue)) : option SnapshotPropValue :=
  snd <$> head (filter (λ f, f.1 = segment) fields).

(* @src domain/services/query/QueryAggregation.ts isSnapshotPropObject *)
Definition isSnapshotPropObject (value : option SnapshotPropValue)
    : option (list (string * SnapshotPropValue)) :=
  match value with Some (Snapshot.SnObject fields) => Some fields | _ => None end.

(** The loop over the segments after the first. *)
Fixpoint resolve_from (value : option SnapshotPropValue) (rest : list string) : option SnapshotPropValue :=
  match rest with
  | [] => value
  | segment :: rest =>
      match isSnapshotPropObject value with
      | None => None
      | Some fields => resolve_from (field segment fields) rest
      end
  end.

(* @src domain/services/query/QueryAggregation.ts resolvePropertyPath *)
Definition resolvePropertyPath (obj : Bag) (segments : list string) : option SnapshotPropValue :=
  match segments with [] => None | first :: rest => resolve_from (obj !! first) rest end.

(* @src domain/services/query/QueryAggregation.ts computeSingleAggregate *)
Definition computeSingleAggregate (key : NumericAggregateKey) (values : list jsnum) : jsnum :=
  match values with
  | [] => JInt 0
  | _ =>
      match key with
      | KSum => foldl d_add (JInt 0) values
      | KAvg => d_div_int (foldl d_add (JInt 0) values) (Z.of_nat (length values))
      | KMin => math_min values
      | KMax => math_max values
      end
  end.

(* @src domain/services/query/QueryAggregation.ts NUMERIC_AGGREGATE_KEYS *)
Definition NUMERIC_AGGREGATE_KEYS : list NumericAggregateKey := [KSum; KAvg; KMin; KMax].

(* @src domain/services/query/QueryAggregation.ts activeAggregateKeys *)
Definition activeAggregateKeys (spec : QueryPlan.AggregateSpec) : list NumericAggregateKey :=
  filter (λ key, is_Some (spec_path spec key)) NUMERIC_AGGREGATE_KEYS.

(** [path.replace(/^props\./, '')] *)
Definition drop_props (path : string) : string :=
  if String.prefix "props." path then String.substring 6 (String.length path - 6) path else path.

(** The keys are distinct, so that the map is a list. *)
(* @src domain/services/query/QueryAggregation.ts buildAggMap *)
Definition buildAggMap (activeAggs : list NumericAggregateKey) (spec : QueryPlan.AggregateSpec)
    : list (NumericAggregateKey * AggregateAccumulator) :=
  omap (λ key, path ← spec_path spec key;
    Some (key, mkAccumulator (str_split "."%char (drop_props path)) [])) activeAggs.

(** The body of the inner loop. *)
Definition collect_value (propsRecord : Bag) (acc : AggregateAccumulator) : AggregateAccumulator :=
  match resolvePropertyPath propsRecord (segments acc) with
  | Some (Snapshot.SnNumber n) =>
      if decide (n = JNaN) then acc else mkAccumulator (segments acc) (values acc ++ [n])
  | _ => acc
  end.

(* @src domain/services/query/QueryAggregation.ts collectAggValues *)
Definition collectAggValues (propsList : list Bag)
    (aggMap : list (NumericAggregateKey * AggregateAccumulator))
    : list (NumericAggregateKey * AggregateAccumulator) :=
  foldl (λ aggMap propsRecord, prod_map id (collect_value propsRecord) <$> aggMap) aggMap propsList.

Section run.
Context {S : Type} (getProps : string → step S Bag).

(* @src domain/services/query/QueryAggregation.ts collectProps *)
Definition collectProps (strand : list string) : step S (list Bag) := map_step getProps strand.

(* @src domain/services/query/QueryAggregation.ts computeNumericAggregates *)
Definition computeNumericAggregates (strand : list string) (activeAggs : list NumericAggregateKey)
    (spec : QueryPlan.AggregateSpec) (result : AggregateResult) : step S AggregateResult :=
  let aggMap := buildAggMap activeAggs spec in
  propsList ← collectProps strand;
  mret (mkResult (r_stateHash result) (r_count result)
    ((λ '(key, acc), (key, computeSingleAggregate key (values acc))) <$> collectAggValues propsList aggMap)).

(* @src domain/services/query/QueryAggregation.ts runAggregate *)
Definition runAggregate (strand : list string) (stateHash : string) (spec : QueryPlan.AggregateSpec)
    : step S AggregateResult :=
  let result := mkResult stateHash
    (match QueryPlan.count spec with Some true => Some (Z.of_nat (length strand)) | _ => None end) [] in
  let activeAggs := activeAggregateKeys spec in
  match activeAggs with
  | [] => mret result
  | _ => computeNumericAggregates strand activeAggs spec result
  end.
End run.
End QueryAggregation.

Module QueryRunner.
Import QueryPlan QueryReadModel.

(* @src domain/services/query/QueryRunner.ts QueryResultNode 26-29 *)
Record QueryResultNode := mkNode { n_id : option string; n_props : option Bag }.

(* @src domain/services/query/QueryRunner.ts QueryResult 34-37 *)
Record QueryResult := mkQueryResult { q_stateHash : string; q_nodes : list QueryResultNode }.

(** The memo of the properties: [createPropsMemo]. *)
Abbreviation Memo := (gmap string Bag).

(** A promise of a batch runs when its turn comes; the answers of a read model
    do not depend on the order. *)
Fixpoint batches {S T R} (fuel : nat) (fn : T → step S R) (limit : nat) (items : list T) (results : list R)
    : step S (list R) :=
  match fuel, items with
  | Datatypes.S fuel', _ :: _ =>
      batchResults ← map_step fn (take limit items);
      batches fuel' fn limit (drop limit items) (results ++ batchResults)
  | _, _ => mret results
  end.

(** There are at most as many batches as items. *)
(* @src domain/services/query/QueryRunner.ts batchMap *)
Definition batchMap {S T R} (items : list T) (fn : T → step S R) (limit : nat) : step S (list R) :=
  batches (length items) fn limit items [].

(* @src domain/services/query/QueryRunner.ts sortIds *)
Definition sortIds (ids : list string) : list string := js_sort compareStrings ids.

(* @src domain/services/query/QueryRunner.ts buildPropsSnapshot *)
Definition buildPropsSnapshot (propsRecord : Bag) : Bag :=
  foldl (λ props key, match propsRecord !! key with
    | Some value => bag_set key value props
    | None => props
    end) ∅ (js_sort compareStrings (map_to_list propsRecord).*1).

(* @src domain/services/query/QueryRunner.ts edgePeer *)
Definition edgePeer (edge : QueryNodeEdgeSnapshot) (peerKey : QueryDirection) : string :=
  match peerKey with outgoing => default "" (to edge) | incoming => default "" (from edge) end.

(* @src domain/services/query/QueryRunner.ts compareEdgeEntries *)
Definition compareEdgeEntries (peerKey : QueryDirection) (a b : QueryNodeEdgeSnapshot) : Z :=
  let labelComparison := compareStrings (es_label a) (es_label b) in
  if decide (labelComparison ≠ 0%Z) then labelComparison
  else compareStrings (edgePeer a peerKey) (edgePeer b peerKey).

Section reads.
Context (readModel : QueryReadModel).

(* @src domain/services/query/QueryRunner.ts collectNodeEdges *)
Definition collectNodeEdges (nodeId : string) (direction : QueryDirection)
    : result (list QueryNodeEdgeSnapshot) :=
  entries ← neighbors readModel nodeId (mkNeighborOptions None direction);
  Ok (js_sort (compareEdgeEntries direction)
    ((λ edge, match direction with
       | outgoing => mkEdgeSnapshot (n_label edge) (Some (QueryReadModel.nodeId edge)) None
       | incoming => mkEdgeSnapshot (n_label edge) None (Some (QueryReadModel.nodeId edge))
       end) <$> (entries : list QueryNeighborEntry))).

(** The three promises as if one after the other. *)
(* @src domain/services/query/QueryRunner.ts createNodeSnapshot *)
Definition createNodeSnapshot (nodeId : string) : result QueryNodeSnapshot :=
  propsRecord ← nodeProps readModel nodeId;
  edgesOut ← collectNodeEdges nodeId outgoing;
  edgesIn ← collectNodeEdges nodeId incoming;
  Ok (mkSnapshot nodeId (buildPropsSnapshot (default ∅ (propsRecord : option Bag))) edgesOut edgesIn).

(* @src domain/services/query/QueryRunner.ts collectMatchingNeighbors *)
Definition collectMatchingNeighbors (nodeId : string) (options : QueryNeighborOptions)
    : result (list string) :=
  entries ← neighbors readModel nodeId options;
  Ok (QueryReadModel.nodeId <$> (entries : list QueryNeighborEntry)).

(** A loop that fills a set. *)
Fixpoint fold_result {A B} (f : B → A → result B) (l : list A) (b : B) : result B :=
  match l with [] => Ok b | x :: l' => b' ← f b x; fold_result f l' b' end.

(* @src domain/services/query/QueryRunner.ts applyHop *)
Definition applyHop (direction : QueryDirection) (label : option string) (strand : list string)
    : result (list string) :=
  next ← fold_result (λ next nodeId,
    ids ← collectMatchingNeighbors nodeId (mkNeighborOptions label direction);
    Ok (foldl js_set_add next (ids : list string))) strand [];
  Ok (sortIds next).

(** The visited nodes and the next level. *)
(* @src domain/services/query/QueryRunner.ts expandBfsLevel *)
Definition expandBfsLevel (currentLevel visited : list string) (options : QueryNeighborOptions)
    : result (list string * list string) :=
  fold_result (λ '(visited, nextLevel) nodeId,
    neighbors ← collectMatchingNeighbors nodeId options;
    Ok (foldl (λ '(visited, nextLevel) id,
      if decide (id ∈ visited) then (visited, nextLevel)
      else (js_set_add visited id, js_set_add nextLevel id)) (visited, nextLevel) (neighbors : list string)))
    currentLevel (visited, []).

(* @src domain/services/query/QueryRunner.ts addAllTo *)
Definition addAllTo (source target : list string) : list string := foldl js_set_add target source.

(** The hops from [hop] on, [count] of them. *)
Fixpoint bfs_hops (count hop minDepth : nat) (options : QueryNeighborOptions)
    (currentLevel visited result : list string) : Prelude.result (list string) :=
  match count with
  | O => Ok result
  | S count' =>
      expanded ← expandBfsLevel currentLevel visited options;
      let '(visited, currentLevel) := (expanded : list string * list string) in
      let result := if decide (minDepth <= hop)%nat then addAllTo currentLevel result else result in
      match currentLevel with
      | [] => Ok result
      | _ => bfs_hops count' (S hop) minDepth options currentLevel visited result
      end
  end.

(* @src domain/services/query/QueryRunner.ts runBfsLoop *)
Definition runBfsLoop (options : QueryNeighborOptions) (strand : list string) (depth : nat * nat)
    : result (list string) :=
  let '(minDepth, maxDepth) := depth in
  let visited := js_set strand in
  let currentLevel := js_set strand in
  let result := if decide (minDepth = 0%nat) then addAllTo currentLevel [] else [] in
  bfs_hops maxDepth 1 minDepth options currentLevel visited result.

(* @src domain/services/query/QueryRunner.ts applyMultiHop *)
Definition applyMultiHop (direction : QueryDirection) (label : option string) (strand : list string)
    (depth : nat * nat) : result (list string) :=
  result ← runBfsLoop (mkNeighborOptions label direction) strand depth;
  Ok (sortIds result).

(** [filter] with a predicate that may throw. *)
Fixpoint filter_result {A} (f : A → result bool) (l : list A) : result (list A) :=
  match l with
  | [] => Ok []
  | x :: l' => keep ← f x; rest ← filter_result f l'; Ok (if keep : bool then x :: rest else rest)
  end.

(* @src domain/services/query/QueryRunner.ts applyWhereOp *)
Definition applyWhereOp {S} (strand : list string) (predicate : QueryNodeSnapshot → result bool)
    : step S (list string) :=
  snapshots ← batchMap strand (λ nodeId,
    snapshot ← lift (createNodeSnapshot nodeId); mret (nodeId, snapshot)) 100;
  kept ← lift (filter_result (λ '(_, snapshot), predicate snapshot) snapshots);
  mret (sortIds kept.*1).

(* @src domain/services/query/QueryRunner.ts applyTraversalOp *)
Definition applyTraversalOp (strand : list string) (type : QueryDirection) (label : option string)
    (depth : nat * nat) : result (list string) :=
  if decide (depth.1 = 1%nat ∧ depth.2 = 1%nat) then applyHop type label strand
  else applyMultiHop type label strand depth.

(** The body of the loop over the operations. *)
Definition apply_operation {S} (current : list string) (op : QueryOperation) : step S (list string) :=
  match op with
  | Where fn => applyWhereOp current fn
  | Traverse type label depth => lift (applyTraversalOp current type label depth)
  end.

(* @src domain/services/query/QueryRunner.ts applyOperations *)
Definition applyOperations {S} (strand : list string) (operations : list QueryOperation)
    : step S (list string) :=
  for_fold apply_operation operations strand.

(* @src domain/services/query/QueryRunner.ts createPropsMemo *)
Definition getProps (nodeId : string) : step Memo Bag :=
  memo ← get;
  match memo !! nodeId with
  | Some cached => mret cached
  | None =>
      raw ← lift (nodeProps readModel nodeId);
      let record := default ∅ (raw : option Bag) in
      _ ← modify (<[nodeId := record]>);
      mret record
  end.

(* @src domain/services/query/QueryRunner.ts isSingleExactPattern *)
Definition isSingleExactPattern (pattern : string + list string) : bool :=
  match pattern with inl p => negb (str_includes "*"%char p) | inr _ => false end.

(* @src domain/services/query/QueryRunner.ts collectInitialStrand *)
Definition collectInitialStrand (request : QueryNodeStreamRequest) : result (list string) :=
  found ← nodes readModel request;
  let strand := id <$> (found : list QueryNodeSnapshot) in
  Ok (sortIds (if isSingleExactPattern (r_pattern request) then take 1 strand else strand)).
End reads.

(* @src domain/services/query/QueryRunner.ts ALLOWED_FIELDS *)
Definition ALLOWED_FIELDS : list string := ["id"; "props"].

(* @src domain/services/query/QueryRunner.ts assertAllFieldsKnown *)
Fixpoint assertAllFieldsKnown (fields : list string) : result unit :=
  match fields with
  | [] => Ok ()
  | field :: rest =>
      _ ← require (bool_decide (field ∈ ALLOWED_FIELDS)) (QueryError "E_QUERY_SELECT_FIELD");
      assertAllFieldsKnown rest
  end.

(* @src domain/services/query/QueryRunner.ts validateSelectFields *)
Definition validateSelectFields (select : option (list string)) : result (option (list string)) :=
  match select with
  | None | Some [] => Ok None
  | Some fields => _ ← assertAllFieldsKnown fields; Ok (Some fields)
  end.

(* @src domain/services/query/QueryRunner.ts buildResultNodes *)
Definition buildResultNodes {S} (strand : list string) (selectFields : option (list string))
    (getProps : string → step S Bag) : step S (list QueryResultNode) :=
  let includeId := match selectFields with None => true | Some l => bool_decide ("id" ∈ l) end in
  let includeProps := match selectFields with None => true | Some l => bool_decide ("props" ∈ l) end in
  batchMap strand (λ nodeId,
    let entryId := if includeId then Some nodeId else None in
    if includeProps then
      record ← getProps nodeId;
      let props := buildPropsSnapshot record in
      mret (mkNode entryId
        (if bool_decide (selectFields ≠ None) || bool_decide (props ≠ ∅) then Some props else None))
    else mret (mkNode entryId None)) 100.

(* @src domain/services/query/QueryReadModelProvider.ts QueryReadModelOpenRequest 37-44 *)
Record QueryReadModelOpenRequest := mkOpenRequest {
  nodeRequest : QueryNodeStreamRequest;
  op_operations : list QueryOperation;
  op_aggregate : bool;
  op_supportRule : BoundedSupportRule.BoundedSupportRule;
  op_causalIndexPlan : CausalIndexPlan.CausalIndexPlan;
  op_supportFragmentPlan : SupportFragmentPlan.SupportFragmentPlan;
}.

(** What opens the read models ([QueryReadModelProvider]). *)
Definition Provider : Type := option QueryReadModelOpenRequest → result QueryReadModel.

(* @src domain/services/query/QueryRunner.ts openRequest *)
Definition openRequest (plan : QueryPlan) (request : QueryNodeStreamRequest)
    : result QueryReadModelOpenRequest :=
  supportRule ← BoundedSupportRule.fromQueryPlan plan;
  causalIndexPlan ← CausalIndexPlan.fromSupportRule supportRule;
  fragmentPlan ← SupportFragmentPlan.fromSupportAndIndex supportRule causalIndexPlan true;
  Ok (mkOpenRequest request (operations plan) (bool_decide (is_Some (aggregate plan)))
    supportRule causalIndexPlan fragmentPlan).

(** A query answers with nodes or with aggregates. *)
Inductive Answer :=
  | Nodes (r : QueryResult)
  | Aggregates (r : QueryAggregation.AggregateResult).

(** After the read model is open. *)
Definition run_on (readModel : QueryReadModel) (plan : QueryPlan) (request : QueryNodeStreamRequest)
    : step Memo Answer :=
  matched ← lift (collectInitialStrand readModel request);
  strand ← applyOperations readModel matched (operations plan);
  match aggregate plan with
  | Some spec =>
      r ← QueryAggregation.runAggregate (getProps readModel) strand (stateHash readModel) spec;
      mret (Aggregates r)
  | None =>
      ns ← buildResultNodes strand (r_select request) (getProps readModel);
      mret (Nodes (mkQueryResult (stateHash readModel) ns))
  end.

(** The pattern of a plan is set. *)
(* @src domain/services/query/QueryRunner.ts run 392-418 *)
Definition run (provider : Provider) (plan : QueryPlan) : result Answer :=
  selectFields ← validateSelectFields (select plan);
  let request := mkRequest (pattern plan) selectFields in
  open ← openRequest plan request;
  readModel ← provider (Some open);
  (run_on readModel plan request ∅).2.
End QueryRunner.
