(* ===== verification/QueryMeaning.v ===== *)
(** What queries mean: a plan denotes a set of nodes, and the runner finds it
    ([query/QueryRunner.ts] over any read model that does not throw). *)
From S2P Require Export QueryRunner.
#[local] Open Scope nat_scope.
#[local] Open Scope list_scope.

Import QueryPlan QueryReadModel QueryRunner.

(** ** Loops *)
Lemma fold_result_total {A B} (f : B → A → result B) (g : B → A → B) l b :
  (∀ b x, f b x = Ok (g b x)) → fold_result f l b = Ok (foldl g b l).
Proof. intros Hf. revert b. induction l as [|x l IH]; intros b; [done|]. simpl. rewrite Hf. simpl. apply IH. Qed.

Lemma js_set_acc_elem l acc y : y ∈ foldl js_set_add acc l ↔ y ∈ acc ∨ y ∈ l.
Proof.
  revert acc. induction l as [|x l IH]; intros acc; cbn [foldl]; [rewrite elem_of_nil; tauto|].
  rewrite IH, elem_of_js_set_add, elem_of_cons. tauto.
Qed.

Lemma js_set_acc_NoDup l acc : NoDup acc → NoDup (foldl js_set_add acc l).
Proof. intros Hacc. by apply js_set_acc. Qed.

Lemma sortIds_strict l : NoDup l → strictly_sorted compareStrings (sortIds l).
Proof. intros Hl. apply js_sort_strict; [apply _|done]. Qed.

Lemma elem_of_sortIds l y : y ∈ sortIds l ↔ y ∈ l.
Proof. apply elem_of_js_sort. Qed.

(** A mapping in batches is a mapping. *)
Lemma map_step_app {S T R} (fn : T → step S R) l1 l2 s :
  map_step fn (l1 ++ l2) s = (map_step fn l1 ≫= λ r1, map_step fn l2 ≫= λ r2, mret (r1 ++ r2)) s.
Proof.
  revert s. induction l1 as [|x l1 IH]; intros s; cbn [map_step app].
  - unfold mbind, step_bind. cbn [mret step_ret]. by destruct (map_step fn l2 s) as [s' [r|e]].
  - unfold mbind, step_bind in *. destruct (fn x s) as [s1 [y|e]]; [|done]. rewrite IH.
    destruct (map_step fn l1 s1) as [s2 [ys|e]]; [|done]. simpl.
    by destruct (map_step fn l2 s2) as [s3 [zs|e]].
Qed.

Lemma batchMap_map {S T R} (items : list T) (fn : T → step S R) limit s :
  1 ≤ limit → batchMap items fn limit s = map_step fn items s.
Proof.
  intros Hlim. unfold batchMap.
  enough (∀ fuel items (results : list R) s, length items ≤ fuel →
    batches fuel fn limit items results s = (map_step fn items ≫= λ r, mret (results ++ r)) s) as Hgen.
  { rewrite Hgen by done. unfold mbind, step_bind. by destruct (map_step fn items s) as [s' [r|e]]. }
  clear items s. induction fuel as [|fuel IH]; intros items results s Hlen.
  { apply Nat.le_0_r, length_zero_iff_nil in Hlen as ->. simpl. unfold mbind, step_bind, mret, step_ret. by rewrite app_nil_r. }
  destruct items as [|x items]; [simpl; unfold mbind, step_bind, mret, step_ret; by rewrite app_nil_r|].
  cbn [batches]. set (l := x :: items) in *.
  assert (map_step fn l s = map_step fn (take limit l ++ drop limit l) s) as El by (by rewrite take_drop).
  rewrite map_step_app in El. unfold mbind, step_bind in *. rewrite El.
  destruct (map_step fn (take limit l) s) as [s1 [r1|e]]; [|done].
  rewrite IH by (rewrite length_drop; unfold l; simpl in *; lia). unfold mbind, step_bind, mret, step_ret.
  destruct (map_step fn (drop limit l) s1) as [s2 [r2|e]]; [|done]. by rewrite app_assoc.
Qed.

Lemma map_step_yields {S A B} (ok : S → Prop) (f : A → step S B) (g : A → B) l :
  (∀ x, x ∈ l → yields ok (f x) (g x)) → yields ok (map_step f l) (g <$> l).
Proof.
  induction l as [|x l IH]; intros Hf; [apply yields_ret|].
  eapply yields_bind; [apply Hf; by left|]. eapply yields_bind; [apply IH; intros y Hy; apply Hf; by right|].
  apply yields_ret.
Qed.

Lemma batchMap_yields {S A B} (ok : S → Prop) (f : A → step S B) (g : A → B) l limit :
  1 ≤ limit → (∀ x, x ∈ l → yields ok (f x) (g x)) → yields ok (batchMap l f limit) (g <$> l).
Proof. intros Hlim Hf s Hs. rewrite batchMap_map by done. by apply map_step_yields. Qed.

Lemma yields_lift {S A} (ok : S → Prop) (a : A) : yields ok (lift (Ok a)) a.
Proof. apply yields_ret. Qed.

(** ** A read model that answers *)
Section meaning.
Context (rm : QueryReadModel).

Record answers : Prop := {
  total_neighbors n o : ∃ es, neighbors rm n o = Ok es;
  total_props n : ∃ p, nodeProps rm n = Ok p;
}.

Definition neighbor_edges (o : QueryNeighborOptions) (n : string) : list NeighborEdge :=
  match neighbors rm n o with
  | Ok es => QueryReadModelNeighborProvider.toNeighborEdge <$> es
  | Throw _ => []
  end.

(** A step along an edge, from a set of nodes. *)
Definition steps (o : QueryNeighborOptions) (k : nat) (strand : list string) (y : string) : Prop :=
  ∃ x, x ∈ strand ∧ walk (neighbor_edges o) k x y.

(** [y] is [k] steps away from the set. *)
Definition away (o : QueryNeighborOptions) (k : nat) (strand : list string) (y : string) : Prop :=
  steps o k strand y ∧ ∀ j, steps o j strand y → k ≤ j.

Context (Hrm : answers).

Lemma matching_neighbors n o :
  collectMatchingNeighbors rm n o = Ok (neighborId <$> neighbor_edges o n).
Proof.
  unfold collectMatchingNeighbors, neighbor_edges. destruct (total_neighbors Hrm n o) as [es ->]. simpl.
  f_equal. rewrite <- list_fmap_compose. done.
Qed.

Lemma elem_of_next o n y : y ∈ (neighborId <$> neighbor_edges o n) ↔ edge (neighbor_edges o) n y.
Proof. rewrite list_elem_of_fmap. unfold edge. naive_solver. Qed.

Lemma applyHop_spec d lb strand :
  let o := mkNeighborOptions lb d in
  ∃ ids, applyHop rm d lb strand = Ok ids ∧ strictly_sorted compareStrings ids ∧
    ∀ y, y ∈ ids ↔ ∃ x, x ∈ strand ∧ edge (neighbor_edges o) x y.
Proof.
  cbn zeta. set (o := mkNeighborOptions lb d). unfold applyHop.
  rewrite (fold_result_total _ (λ next n, foldl js_set_add next (neighborId <$> neighbor_edges o n)))
    by (intros b n; by rewrite matching_neighbors).
  cbn [mbind result_bind].
  enough (∀ acc, NoDup acc →
    let r := foldl (λ next n, foldl js_set_add next (neighborId <$> neighbor_edges o n)) acc strand in
    NoDup r ∧ ∀ y, y ∈ r ↔ y ∈ acc ∨ ∃ x, x ∈ strand ∧ edge (neighbor_edges o) x y) as Hgen.
  { destruct (Hgen [] (NoDup_nil_2)) as [Hnd Hy]. eexists. split; [done|]. split; [by apply sortIds_strict|].
    intros y. rewrite elem_of_sortIds, Hy, elem_of_nil. tauto. }
  induction strand as [|n strand IH]; intros acc Hacc; cbn [foldl].
  { split; [done|]. intros y. setoid_rewrite elem_of_nil. naive_solver. }
  destruct (IH (foldl js_set_add acc (neighborId <$> neighbor_edges o n))) as [Hnd Hy];
    [by apply js_set_acc_NoDup|].
  split; [done|]. intros y. rewrite Hy, js_set_acc_elem, elem_of_next.
  setoid_rewrite elem_of_cons. naive_solver.
Qed.

(** ** Levels *)
Lemma expand_one (visited next ids : list string) :
  let r := foldl (λ '(visited, nextLevel) id,
      if decide (id ∈ visited) then (visited, nextLevel)
      else (js_set_add visited id, js_set_add nextLevel id)) (visited, next) ids in
  (∀ y, y ∈ r.1 ↔ y ∈ visited ∨ y ∈ ids) ∧
  (∀ y, y ∈ r.2 ↔ y ∈ next ∨ (y ∈ ids ∧ y ∉ visited)) ∧
  (NoDup next → NoDup r.2).
Proof.
  cbn zeta. revert visited next. induction ids as [|x ids IH]; intros visited next; cbn [foldl].
  { setoid_rewrite elem_of_nil. naive_solver. }
  case_decide as Hx.
  - destruct (IH visited next) as (H1 & H2 & H3). split; [|split; [|done]]; intros y.
    + rewrite H1, elem_of_cons. naive_solver.
    + rewrite H2, elem_of_cons. naive_solver.
  - destruct (IH (js_set_add visited x) (js_set_add next x)) as (H1 & H2 & H3).
    split; [|split; [|intros Hn; by apply H3, js_set_add_NoDup]]; intros y.
    + rewrite H1, elem_of_js_set_add, elem_of_cons. tauto.
    + rewrite H2, !elem_of_js_set_add, elem_of_cons. destruct (decide (y = x)) as [->|]; tauto.
Qed.

Lemma expandBfsLevel_spec level visited o :
  ∃ V N, expandBfsLevel rm level visited o = Ok (V, N) ∧ NoDup N ∧
    (∀ y, y ∈ N ↔ (y ∉ visited) ∧ ∃ x, x ∈ level ∧ edge (neighbor_edges o) x y) ∧
    (∀ y, y ∈ V ↔ y ∈ visited ∨ y ∈ N).
Proof.
  unfold expandBfsLevel.
  set (inner := λ '(visited, nextLevel) (id : string), if decide (id ∈ visited) then (visited, nextLevel)
      else (js_set_add visited id, js_set_add nextLevel id)).
  rewrite (fold_result_total _ (λ acc n, foldl inner acc (neighborId <$> neighbor_edges o n)))
    by (intros [V N] n; by rewrite matching_neighbors).
  enough (∀ level V N, NoDup N → (∀ y, y ∈ N → y ∈ V ∧ y ∉ visited) → (∀ y, y ∈ V → y ∈ visited ∨ y ∈ N) →
    (∀ y, y ∈ visited → y ∈ V) →
    let r := foldl (λ acc n, foldl inner acc (neighborId <$> neighbor_edges o n)) (V, N) level in
    NoDup r.2 ∧
    (∀ y, y ∈ r.2 ↔ y ∈ N ∨ (y ∉ visited) ∧ ∃ x, x ∈ level ∧ edge (neighbor_edges o) x y) ∧
    (∀ y, y ∈ r.1 ↔ y ∈ visited ∨ y ∈ r.2)) as Hgen.
  { destruct (Hgen level visited []) as (Hnd & H2 & H1); [constructor|by intros y ?%elem_of_nil|by left|done|].
    destruct (foldl _ _ level) as [V N]. exists V, N. split; [done|]. split; [done|]. split; [|done].
    intros y. rewrite H2, elem_of_nil. tauto. }
  clear level. induction level as [|n level IH]; intros V N Hnd HN HV Hvis; cbn [foldl].
  { split; [done|]. split; [setoid_rewrite elem_of_nil; naive_solver|]. simpl. intros y. split; [apply HV|].
    intros [?|?%HN]; [by apply Hvis|tauto]. }
  destruct (expand_one V N (neighborId <$> neighbor_edges o n)) as (H1 & H2 & H3). fold inner in H1, H2, H3.
  destruct (foldl inner (V, N) (neighborId <$> neighbor_edges o n)) as [V1 N1]. simpl in H1, H2, H3.
  setoid_rewrite elem_of_next in H1. setoid_rewrite elem_of_next in H2.
  destruct (IH V1 N1) as (I1 & I2 & I3).
  - by apply H3.
  - intros y [Hy|[Hy Hn]]%H2; [apply HN in Hy as [? ?]; split; [apply H1; tauto|done]|].
    split; [apply H1; tauto|]. intros Hv. by apply Hn, Hvis.
  - intros y [Hy|Hy]%H1; [apply HV in Hy as [|]; [tauto|right; apply H2; tauto]|].
    destruct (decide (y ∈ V)) as [Hv|Hv]; [apply HV in Hv as [|]; [tauto|right; apply H2; tauto]|].
    right. apply H2. tauto.
  - intros y Hy. apply H1. left. by apply Hvis.
  - split; [done|]. split; [|done]. intros y. rewrite I2, H2. setoid_rewrite elem_of_cons.
    destruct (decide (y ∈ V)) as [Hv|Hv].
    + apply HV in Hv as [Hv|Hv]; naive_solver.
    + assert (y ∉ visited) by (intros ?%Hvis; done). naive_solver.
Qed.

Lemma steps_0 o strand y : steps o 0 strand y ↔ y ∈ strand.
Proof.
  split; [by intros (x & Hx & ->%walk_0)|]. intros Hy. exists y. split; [done|constructor].
Qed.

Lemma steps_S o k strand y :
  steps o (S k) strand y ↔ ∃ x, steps o k strand x ∧ edge (neighbor_edges o) x y.
Proof.
  split.
  - intros (x & Hx & (z & Hz & Hzy)%walk_S). exists z. split; [by exists x|done].
  - intros (z & (x & Hx & Hz) & Hzy). exists x. split; [done|]. by econstructor.
Qed.

Lemma steps_edge o k strand x y :
  steps o k strand x → edge (neighbor_edges o) x y → steps o (S k) strand y.
Proof. intros. apply steps_S. by exists x. Qed.

Lemma away_0 o strand y : away o 0 strand y ↔ y ∈ strand.
Proof. unfold away. rewrite steps_0. split; [by intros []|]. intros Hy. split; [done|lia]. Qed.

Lemma away_unique o j k strand y : away o j strand y → away o k strand y → j = k.
Proof. intros [H1 M1] [H2 M2]. apply M1 in H2. apply M2 in H1. lia. Qed.

Lemma away_pred o k strand y :
  away o (S k) strand y → ∃ x, away o k strand x ∧ edge (neighbor_edges o) x y.
Proof.
  intros [(x & Hx & Hxy)%steps_S Hmin]. exists x. split; [|done]. split; [done|].
  intros j Hj. pose proof (Hmin (S j) (steps_edge _ _ _ _ _ Hj Hxy)). lia.
Qed.

(** Behind an empty level nothing is left. *)
Lemma away_empty o h k strand y : (∀ x, ¬ away o h strand x) → h ≤ k → ¬ away o k strand y.
Proof.
  intros Hh Hk. revert y. induction Hk as [|k Hk IH]; intros y; [apply Hh|].
  intros (x & Hx & _)%away_pred. by apply (IH x).
Qed.

(** The search has seen [h] levels. *)
Record bfs_at (o : QueryNeighborOptions) (strand : list string) (h : nat) (level visited : list string) : Prop := {
  at_level y : y ∈ level ↔ away o h strand y;
  at_visited y : y ∈ visited ↔ ∃ j, j ≤ h ∧ steps o j strand y;
}.

Lemma bfs_at_next o strand h level visited :
  bfs_at o strand h level visited →
  ∃ V N, expandBfsLevel rm level visited o = Ok (V, N) ∧ NoDup N ∧ bfs_at o strand (S h) N V.
Proof.
  intros [Hl Hv]. destruct (expandBfsLevel_spec level visited o) as (V & N & E & Hnd & HN & HV).
  exists V, N. split; [done|]. split; [done|].
  assert (∀ y, y ∈ N ↔ away o (S h) strand y) as HN'.
  { intros y. rewrite HN, Hv. setoid_rewrite Hl. split.
    - intros (Hno & x & [Hx Hm] & Hxy). split; [by eapply steps_edge|]. intros j Hj.
      destruct (decide (j ≤ h)); [|lia]. exfalso. by apply Hno; exists j.
    - intros Hy. destruct (away_pred _ _ _ _ Hy) as (x & Hx & Hxy). split; [|by exists x].
      intros (j & Hj & Hs). destruct Hy as [_ Hm]. apply Hm in Hs. lia. }
  split; [done|]. intros y. rewrite HV. split.
  - intros [(j & Hj & Hs)%Hv|[Hs _]%HN']; [exists j; split; [lia|done]|by exists (S h)].
  - intros (j & Hj & Hs). destruct (decide (y ∈ visited)) as [|Hno]; [by left|right].
    assert (j = S h) as ->.
    { destruct (decide (j ≤ h)); [|lia]. exfalso. apply Hno, Hv. by exists j. }
    apply steps_S in Hs as (x & Hx & Hxy). apply HN. split; [done|]. exists x. split; [|done].
    apply Hl. split; [done|]. intros i Hi. destruct (decide (h ≤ i)); [done|]. exfalso.
    apply Hno, Hv. exists (S i). split; [lia|]. by eapply steps_edge.
Qed.

Lemma bfs_hops_spec o strand count h minDepth level visited found :
  bfs_at o strand h level visited → NoDup found →
  ∃ r, bfs_hops rm count (S h) minDepth o level visited found = Ok r ∧ NoDup r ∧
    ∀ y, y ∈ r ↔ y ∈ found ∨ ∃ k, h < k ≤ h + count ∧ minDepth ≤ k ∧ away o k strand y.
Proof.
  revert h level visited found. induction count as [|count IH]; intros h level visited found Hat Hnd.
  { exists found. split; [done|]. split; [done|]. intros y. split; [by left|]. intros [|(k & ? & _)]; [done|lia]. }
  destruct (bfs_at_next _ _ _ _ _ Hat) as (V & N & E & HN & Hat'). cbn [bfs_hops]. rewrite E.
  cbn [mbind result_bind].
  set (found' := if decide (minDepth ≤ S h) then addAllTo N found else found).
  assert (NoDup found' ∧ ∀ y, y ∈ found' ↔ y ∈ found ∨ (minDepth ≤ S h ∧ away o (S h) strand y)) as [Hnd' Hf'].
  { unfold found', addAllTo. case_decide.
    - split; [by apply js_set_acc_NoDup|]. intros y. rewrite js_set_acc_elem, (at_level _ _ _ _ _ Hat'). tauto.
    - split; [done|]. intros y. tauto. }
  assert (∀ y, (y ∈ found' ∨ ∃ k, S h < k ≤ S h + count ∧ minDepth ≤ k ∧ away o k strand y) ↔
    y ∈ found ∨ ∃ k, h < k ≤ h + S count ∧ minDepth ≤ k ∧ away o k strand y) as Hiff.
  { intros y. rewrite Hf'. split.
    - intros [[?|[? ?]]|(k & ? & ? & ?)]; [by left|right; exists (S h); split; [lia|done]|].
      right. exists k. split; [lia|done].
    - intros [?|(k & ? & ? & ?)]; [by left; left|]. destruct (decide (k = S h)) as [->|]; [left; by right|].
      right. exists k. split; [lia|done]. }
  destruct N as [|x N].
  - exists found'. split; [done|]. split; [done|]. intros y. rewrite <- Hiff. split; [by left|].
    intros [|(k & Hk & _ & Hy)]; [done|]. exfalso. revert Hy. apply (away_empty o (S h)); [|lia].
    intros z Hz. apply (at_level _ _ _ _ _ Hat') in Hz. by apply elem_of_nil in Hz.
  - destruct (IH (S h) (x :: N) V found' Hat' Hnd') as (r & Er & Hr & Hy).
    exists r. split; [exact Er|]. split; [done|]. intros y. rewrite Hy. apply Hiff.
Qed.

Lemma runBfsLoop_spec o strand depth :
  ∃ r, runBfsLoop rm o strand depth = Ok r ∧ NoDup r ∧
    ∀ y, y ∈ r ↔ ∃ k, depth.1 ≤ k ≤ depth.2 ∧ away o k strand y.
Proof.
  destruct depth as [minD maxD]. unfold runBfsLoop. cbn [fst snd].
  set (found := if decide (minD = 0) then addAllTo (js_set strand) [] else []).
  assert (NoDup found ∧ ∀ y, y ∈ found ↔ minD = 0 ∧ y ∈ strand) as [Hnd Hf].
  { unfold found, addAllTo. case_decide.
    - split; [apply js_set_acc_NoDup; constructor|]. intros y. rewrite js_set_acc_elem, elem_of_nil, elem_of_js_set. tauto.
    - split; [constructor|]. intros y. rewrite elem_of_nil. tauto. }
  assert (bfs_at o strand 0 (js_set strand) (js_set strand)) as Hat.
  { split; intros y; rewrite elem_of_js_set; [by rewrite away_0|]. rewrite <- (steps_0 o). split.
    - intros Hy. by exists 0.
    - intros (j & Hj & Hs). by assert (j = 0) as -> by lia. }
  destruct (bfs_hops_spec o strand maxD 0 minD _ _ found Hat Hnd) as (r & Er & Hr & Hy).
  exists r. split; [exact Er|]. split; [done|]. intros y. rewrite Hy, Hf. split.
  - intros [[? ?]|(k & ? & ? & ?)]; [exists 0; rewrite away_0; split; [lia|done]|exists k; split; [lia|done]].
  - intros (k & ? & Ha). destruct (decide (k = 0)) as [->|].
    + left. split; [lia|]. by apply (away_0 o).
    + right. exists k. split; [lia|]. split; [lia|done].
Qed.

(** What a traversal operation asks for: one hop is one step along an edge; any
    other range of depths is measured from the nodes of the strand. *)
Definition traverses (type : QueryDirection) (label : option string) (depth : nat * nat)
    (strand : list string) (y : string) : Prop :=
  let o := mkNeighborOptions label type in
  if decide (depth.1 = 1 ∧ depth.2 = 1) then steps o 1 strand y
  else ∃ k, depth.1 ≤ k ≤ depth.2 ∧ away o k strand y.

Lemma applyTraversalOp_spec strand type label depth :
  ∃ ids, applyTraversalOp rm strand type label depth = Ok ids ∧ strictly_sorted compareStrings ids ∧
    ∀ y, y ∈ ids ↔ traverses type label depth strand y.
Proof.
  unfold applyTraversalOp, traverses. cbn zeta. case_decide.
  - destruct (applyHop_spec type label strand) as (ids & E & Hs & Hy). exists ids. split; [done|].
    split; [done|]. intros y. rewrite Hy, steps_S. by setoid_rewrite steps_0.
  - unfold applyMultiHop. destruct (runBfsLoop_spec (mkNeighborOptions label type) strand depth) as (r & E & Hnd & Hy).
    rewrite E. cbn [mbind result_bind]. eexists. split; [done|]. split; [by apply sortIds_strict|].
    intros y. by rewrite elem_of_sortIds, Hy.
Qed.

(** ** The other operations *)

(** The snapshot of a node, as a predicate sees it. *)
Definition snapshot_of (n : string) : QueryNodeSnapshot :=
  match createNodeSnapshot rm n with Ok s => s | Throw _ => mkSnapshot n ∅ [] [] end.

Lemma createNodeSnapshot_total n : createNodeSnapshot rm n = Ok (snapshot_of n).
Proof.
  unfold snapshot_of, createNodeSnapshot, collectNodeEdges.
  destruct (total_props Hrm n) as [p ->].
  destruct (total_neighbors Hrm n (mkNeighborOptions None outgoing)) as [outs ->].
  by destruct (total_neighbors Hrm n (mkNeighborOptions None incoming)) as [ins ->].
Qed.

Lemma filter_result_total {A} (f : A → result bool) (g : A → bool) l :
  (∀ x, x ∈ l → f x = Ok (g x)) → filter_result f l = Ok (filter (λ x, g x) l).
Proof.
  induction l as [|x l IH]; intros Hf; [done|]. cbn [filter_result]. rewrite Hf by by left.
  cbn [mbind result_bind]. rewrite IH by (intros y Hy; apply Hf; by right). cbn [mbind result_bind].
  rewrite filter_cons. by destruct (g x).
Qed.

(** A predicate that does not throw on the nodes of the graph. *)
Definition calm (fn : QueryNodeSnapshot → result bool) : Prop := ∀ n, ∃ b, fn (snapshot_of n) = Ok b.

Definition accepts (fn : QueryNodeSnapshot → result bool) (n : string) : Prop := fn (snapshot_of n) = Ok true.

Lemma applyWhereOp_yields {S} (ok : S → Prop) strand fn :
  calm fn → strictly_sorted compareStrings strand →
  ∃ ids, yields ok (applyWhereOp rm strand fn) ids ∧ strictly_sorted compareStrings ids ∧
    ∀ y, y ∈ ids ↔ y ∈ strand ∧ accepts fn y.
Proof.
  intros Hc Hs.
  set (test n := match fn (snapshot_of n) with Ok b => b | Throw _ => false end).
  assert (∀ n, fn (snapshot_of n) = Ok (test n)) as Htest
    by (intros n; unfold test; by destruct (Hc n) as [b ->]).
  set (snaps := (λ n, (n, snapshot_of n)) <$> strand).
  set (kept := filter (λ p : string * QueryNodeSnapshot, test p.1) snaps).
  exists (sortIds kept.*1). split; [|split].
  - eapply yields_bind.
    { apply (batchMap_yields ok _ (λ n, (n, snapshot_of n))); [lia|]. intros n _.
      rewrite createNodeSnapshot_total. eapply yields_bind; [apply yields_lift|apply yields_ret]. }
    eapply yields_bind; [|apply yields_ret].
    rewrite (filter_result_total _ (λ p, test p.1)); [apply yields_lift|].
    intros p (n & -> & _)%list_elem_of_fmap. apply Htest.
  - assert (snaps.*1 = strand) as Hsn.
    { unfold snaps. rewrite <- list_fmap_compose. rewrite <- (list_fmap_id strand) at 2. by apply list_fmap_ext. }
    apply sortIds_strict, (sublist_NoDup kept.*1 snaps.*1).
    + rewrite Hsn. by apply (strictly_sorted_nodup compareStrings).
    + apply fmap_sublist, sublist_filter.
  - intros y. rewrite elem_of_sortIds, list_elem_of_fmap. unfold kept, snaps, accepts. rewrite Htest. split.
    + intros ([n s] & -> & [Ht (n' & [= -> ->] & Hn)%list_elem_of_fmap]%list_elem_of_filter). split; [done|].
      cbn [fst] in *. apply Is_true_true in Ht. by rewrite Ht.
    + intros [Hy Ht]. exists (y, snapshot_of y). split; [done|]. apply list_elem_of_filter.
      split; [injection Ht as Ht; cbn [fst]; by rewrite Ht|]. apply list_elem_of_fmap. by exists y.
Qed.

(** A plan denotes a set of nodes. *)
Definition op_means (op : QueryOperation) (strand : list string) (y : string) : Prop :=
  match op with
  | Where fn => y ∈ strand ∧ accepts fn y
  | Traverse type label depth => traverses type label depth strand y
  end.

(** [finds ops strand ids]: the operations lead from [strand] to [ids]. *)
Inductive finds : list QueryOperation → list string → list string → Prop :=
  | finds_nil ids : finds [] ids ids
  | finds_cons op ops strand next ids :
      strictly_sorted compareStrings next → (∀ y, y ∈ next ↔ op_means op strand y) →
      finds ops next ids → finds (op :: ops) strand ids.

(** There is one answer. *)
Lemma finds_unique ops strand ids1 ids2 : finds ops strand ids1 → finds ops strand ids2 → ids1 = ids2.
Proof.
  intros H1. revert ids2. induction H1 as [|op ops strand next ids Hs Hn _ IH]; [by inversion 1|].
  inversion 1 as [|? ? ? next2 ? Hs2 Hn2 H2]; subst. apply IH.
  assert (next = next2) as ->; [|done]. apply (strictly_sorted_unique compareStrings); [done..|].
  intros y. by rewrite Hn, Hn2.
Qed.

Definition calm_ops (ops : list QueryOperation) : Prop := ∀ fn, Where fn ∈ ops → calm fn.

Lemma applyOperations_yields {S} (ok : S → Prop) ops strand :
  calm_ops ops → strictly_sorted compareStrings strand →
  ∃ ids, yields ok (applyOperations rm strand ops) ids ∧ finds ops strand ids ∧
    strictly_sorted compareStrings ids.
Proof.
  revert strand. unfold applyOperations. induction ops as [|op ops IH]; intros strand Hc Hs.
  { exists strand. split; [apply yields_ret|]. split; [constructor|done]. }
  assert (∃ next, yields ok (apply_operation rm strand op) next ∧ strictly_sorted compareStrings next ∧
    ∀ y, y ∈ next ↔ op_means op strand y) as (next & Hnext & Hns & Hn).
  { destruct op as [fn|type label depth].
    - apply applyWhereOp_yields; [|done]. apply Hc. by left.
    - destruct (applyTraversalOp_spec strand type label depth) as (next & E & ? & ?).
      exists next. split; [|done]. cbn [apply_operation]. rewrite E. apply yields_lift. }
  destruct (IH next) as (ids & Hids & Hf & Hss); [intros fn Hfn; apply Hc; by right|done|].
  exists ids. split; [by eapply yields_bind|]. split; [by apply (finds_cons op ops strand next)|done].
Qed.

(** ** Properties and results *)
Definition props_of (n : string) : Bag :=
  match nodeProps rm n with Ok (Some p) => p | _ => ∅ end.

(** The memo holds what the read model answers. *)
Definition query_memo_ok (memo : Memo) : Prop := ∀ n b, memo !! n = Some b → b = props_of n.

Lemma query_memo_empty : query_memo_ok ∅.
Proof. intros n b Hb. by rewrite lookup_empty in Hb. Qed.

Lemma getProps_yields n : yields query_memo_ok (getProps rm n) (props_of n).
Proof.
  intros memo Hm. unfold getProps, mbind, step_bind, get. destruct (memo !! n) as [b|] eqn:E.
  - exists memo. by rewrite <- (Hm n b E).
  - destruct (total_props Hrm n) as [p Ep]. unfold lift. rewrite Ep.
    assert (default ∅ p = props_of n) as Ed by (unfold props_of; rewrite Ep; by destruct p).
    rewrite Ed. eexists. split; [done|]. intros n' b. rewrite lookup_insert_Some. intros [[<- <-]|[_ Hb]]; [done|].
    by apply Hm.
Qed.

Lemma buildPropsSnapshot_spec b : buildPropsSnapshot b = delete "__proto__"%string b.
Proof.
  unfold buildPropsSnapshot. apply map_eq. intros k. rewrite lookup_delete.
  enough (∀ l (acc : Bag), acc !! "__proto__"%string = None →
    foldl (λ props key, match b !! key with Some value => bag_set key value props | None => props end) acc l !! k =
    if decide (k = "__proto__"%string) then None
    else if decide (k ∈ l) then match b !! k with Some v => Some v | None => acc !! k end else acc !! k) as Hgen.
  { rewrite Hgen, lookup_empty by done. case_decide as Hk; [subst; by rewrite decide_True|].
    rewrite (decide_False (P:="__proto__"%string = k)) by congruence.
    destruct (b !! k) as [v|] eqn:E; [|by case_decide]. rewrite decide_True; [done|].
    apply elem_of_js_sort, elem_of_map_keys. by exists v. }
  induction l as [|x l IH]; intros acc Hacc; cbn [foldl].
  { case_decide; [by subst|]. by rewrite decide_False by apply not_elem_of_nil. }
  rewrite IH.
  2: { destruct (b !! x); [|done]. rewrite lookup_bag_set. rewrite (decide_False (P:=x = "__proto__"%string ∧ x ≠ "__proto__"%string)); [done|]. by intros []. }
  destruct (decide (k = "__proto__"%string)) as [|Hk]; [done|].
  destruct (decide (x = k)) as [->|Hx].
  - rewrite (decide_True (P:=k ∈ k :: l)) by by left. destruct (b !! k) as [v|] eqn:E; [|by case_decide].
    rewrite lookup_bag_set, (decide_True (P:=k = k ∧ k ≠ "__proto__"%string)) by done. by case_decide.
  - assert (∀ v, bag_set x v acc !! k = acc !! k) as Hset
      by (intros v; rewrite lookup_bag_set; rewrite (decide_False (P:=x = k ∧ x ≠ "__proto__"%string)); [done|]; by intros []).
    assert (match b !! x with Some v => bag_set x v acc | None => acc end !! k = acc !! k) as Hacc'
      by (destruct (b !! x); [apply Hset|done]).
    rewrite Hacc'. destruct (decide (k ∈ l)) as [Hin|Hni], (decide (k ∈ x :: l)) as [Hin'|Hni']; try done.
    + exfalso. apply Hni'. by right.
    + exfalso. apply elem_of_cons in Hin' as [?|?]; [by subst|done].
Qed.

(** What a result says of a node under a selection of fields. *)
Definition result_node (selectFields : option (list string)) (n : string) : QueryResultNode :=
  let selected field := match selectFields with None => true | Some l => bool_decide (field ∈ l) end in
  let props := delete "__proto__"%string (props_of n) in
  mkNode (if selected "id"%string then Some n else None)
    (if selected "props"%string
     then if bool_decide (selectFields ≠ None) || bool_decide (props ≠ ∅) then Some props else None
     else None).

Lemma buildResultNodes_yields strand selectFields :
  yields query_memo_ok (buildResultNodes strand selectFields (getProps rm)) (result_node selectFields <$> strand).
Proof.
  unfold buildResultNodes. apply batchMap_yields; [lia|]. intros n _. unfold result_node.
  destruct (match selectFields with None => true | Some l => bool_decide ("props"%string ∈ l) end); [|apply yields_ret].
  eapply yields_bind; [apply getProps_yields|]. rewrite buildPropsSnapshot_spec. apply yields_ret.
Qed.

(** ** Aggregates *)
Import QueryAggregation.

(** The number at a path of a node. *)
Definition number_at (segments : list string) (n : string) : option jsnum :=
  match resolvePropertyPath (props_of n) segments with
  | Some (Snapshot.SnNumber x) => if decide (x = JNaN) then None else Some x
  | _ => None
  end.

Definition path_segments (path : string) : list string := str_split "."%char (drop_props path).

(** The numbers of the nodes of a strand at a path. *)
Definition numbers_at (path : string) (strand : list string) : list jsnum :=
  omap (number_at (path_segments path)) strand.

Definition aggregate_of (strand : list string) (spec : AggregateSpec) : AggregateResult :=
  mkResult (stateHash rm)
    (match count spec with Some true => Some (Z.of_nat (length strand)) | _ => None end)
    (omap (λ key, path ← spec_path spec key;
       Some (key, computeSingleAggregate key (numbers_at path strand))) NUMERIC_AGGREGATE_KEYS).

Lemma collect_value_spec n acc :
  collect_value (props_of n) acc =
  mkAccumulator (segments acc) (values acc ++ match number_at (segments acc) n with Some x => [x] | None => [] end).
Proof.
  destruct acc as [segs vals]. unfold collect_value, number_at. cbn [segments values].
  destruct (resolvePropertyPath (props_of n) segs) as [[]|]; rewrite ?app_nil_r; try done.
  case_decide; by rewrite ?app_nil_r.
Qed.

Lemma collectAggValues_spec strand aggMap :
  collectAggValues (props_of <$> strand) aggMap =
  (λ '(key, acc), (key, mkAccumulator (segments acc) (values acc ++ omap (number_at (segments acc)) strand))) <$> aggMap.
Proof.
  unfold collectAggValues. revert aggMap. induction strand as [|n strand IH]; intros aggMap.
  - cbn. rewrite <- (list_fmap_id aggMap) at 1. apply list_fmap_ext. intros i [key [segs vals]] _. simpl. by rewrite app_nil_r.
  - cbn [fmap list_fmap foldl]. rewrite IH, <- list_fmap_compose. apply list_fmap_ext.
    intros i [key [segs vals]] _. unfold compose, prod_map. cbn [fst snd]. rewrite collect_value_spec.
    cbn [segments values]. rewrite <- app_assoc. do 3 f_equal. csimpl. by destruct (number_at segs n).
Qed.

Lemma runAggregate_yields strand spec :
  yields query_memo_ok (runAggregate (getProps rm) strand (stateHash rm) spec) (aggregate_of strand spec).
Proof.
  unfold runAggregate.
  assert (omap (λ key, path ← spec_path spec key;
       Some (key, computeSingleAggregate key (numbers_at path strand))) NUMERIC_AGGREGATE_KEYS =
    (λ '(key, acc), (key, computeSingleAggregate key (values acc))) <$>
      collectAggValues (props_of <$> strand) (buildAggMap (activeAggregateKeys spec) spec)) as E.
  { rewrite collectAggValues_spec, <- list_fmap_compose. unfold buildAggMap, activeAggregateKeys.
    generalize NUMERIC_AGGREGATE_KEYS. intros keys. induction keys as [|key keys IH]; [done|].
    rewrite filter_cons. csimpl. destruct (spec_path spec key) as [path|] eqn:Ep.
    - rewrite decide_True by done. csimpl. rewrite Ep. csimpl. f_equal. exact IH.
    - rewrite decide_False by (intros [? ?]; done). exact IH. }
  unfold aggregate_of. rewrite E.
  destruct (activeAggregateKeys spec) as [|key keys] eqn:Ea; [rewrite collectAggValues_spec; apply yields_ret|].
  eapply yields_bind; [apply map_step_yields; intros n _; apply getProps_yields|]. apply yields_ret.
Qed.

(** ** Runs *)
Definition answer_of (plan : QueryPlan) (selectFields : option (list string)) (ids : list string) : Answer :=
  match aggregate plan with
  | Some spec => Aggregates (aggregate_of ids spec)
  | None => Nodes (mkQueryResult (stateHash rm) (result_node selectFields <$> ids))
  end.

(** The nodes a query starts from. *)
Definition starts (request : QueryNodeStreamRequest) (ids : list string) : Prop :=
  ∃ found, nodes rm request = Ok found ∧
    ids = sortIds (if isSingleExactPattern (r_pattern request) then take 1 (id <$> found) else id <$> found) ∧
    NoDup (id <$> found).

Lemma run_on_yields plan request start :
  starts request start → calm_ops (operations plan) →
  ∃ ids, finds (operations plan) start ids ∧ strictly_sorted compareStrings ids ∧
    yields query_memo_ok (run_on rm plan request) (answer_of plan (r_select request) ids).
Proof.
  intros (found & Ef & -> & Hnd) Hc. unfold run_on, collectInitialStrand. rewrite Ef. cbn [mbind result_bind].
  set (start := sortIds _).
  assert (strictly_sorted compareStrings start) as Hs.
  { apply sortIds_strict. destruct (isSingleExactPattern _); [|done].
    eapply sublist_NoDup; [exact Hnd|apply sublist_take]. }
  destruct (applyOperations_yields query_memo_ok (operations plan) start Hc Hs) as (ids & Hids & Hf & Hss).
  exists ids. split; [done|]. split; [done|].
  eapply yields_bind; [apply yields_lift|]. eapply yields_bind; [exact Hids|]. unfold answer_of.
  destruct (aggregate plan) as [spec|].
  - eapply yields_bind; [apply runAggregate_yields|apply yields_ret].
  - eapply yields_bind; [apply buildResultNodes_yields|apply yields_ret].
Qed.
End meaning.

Lemma assertAllFieldsKnown_ok fields :
  assertAllFieldsKnown fields = if decide (Forall (λ f, f ∈ ALLOWED_FIELDS) fields) then Ok ()
    else Throw (QueryError "E_QUERY_SELECT_FIELD").
Proof.
  induction fields as [|f fields IH]; [done|]. cbn [assertAllFieldsKnown].
  case_bool_decide as Hf; cbn [require mbind result_bind].
  - rewrite IH. destruct (decide (Forall _ fields)) as [Hl|Hl], (decide (Forall _ (f :: fields))) as [Hl'|Hl']; try done.
    + exfalso. apply Hl'. by constructor.
    + exfalso. apply Hl. by inversion Hl'.
  - destruct (decide (Forall _ (f :: fields))) as [Hl|]; [exfalso; by inversion Hl|done].
Qed.

Definition known_fields (sel : option (list string)) : Prop :=
  Forall (λ f, f ∈ ALLOWED_FIELDS) (default [] sel).

#[export] Instance known_fields_dec sel : Decision (known_fields sel).
Proof. unfold known_fields. apply _. Defined.

(** An empty selection is none. *)
Definition selected_fields (sel : option (list string)) : option (list string) :=
  match sel with Some [] => None | _ => sel end.

Lemma validateSelectFields_spec sel :
  validateSelectFields sel =
  if decide (known_fields sel) then Ok (selected_fields sel) else Throw (QueryError "E_QUERY_SELECT_FIELD").
Proof.
  destruct sel as [[|f fields]|]; [done| |done]. unfold validateSelectFields. rewrite assertAllFieldsKnown_ok.
  unfold known_fields. cbn [default from_option Datatypes.id]. by destruct (decide (Forall _ (f :: fields))).
Qed.

Lemma openRequest_spec plan request :
  patterns_ok (pattern plan) →
  ∃ o, openRequest plan request = Ok o ∧ nodeRequest o = request ∧ op_operations o = operations plan ∧
    BoundedSupportRule.fromQueryPlan plan = Ok (op_supportRule o) ∧
    SupportFragmentPlan.fromSupportRule (op_supportRule o) = Ok (op_supportFragmentPlan o).
Proof.
  intros Hp. destruct (fromQueryPlan_spec plan Hp) as (r & Er & _).
  assert (rule_ok r) as Hr.
  { revert Er. unfold BoundedSupportRule.fromQueryPlan. destruct (BoundedSupportRule.exactNodeIdsForPattern _) as [[ids|]|];
      [|intros E; by eapply new_rule_ok|done]. cbn [mbind result_bind]. case_decide; intros E; by eapply new_rule_ok. }
  destruct (index_plan_spec r Hr) as (c & Ec & _). destruct (fragment_plan_spec r Hr) as (p & Ep & _).
  unfold openRequest. rewrite Er. cbn [mbind result_bind]. rewrite Ec. cbn [mbind result_bind].
  pose proof Ep as Ep'. unfold SupportFragmentPlan.fromSupportRule in Ep'. rewrite Ec in Ep'. cbn [mbind result_bind] in Ep'.
  rewrite Ep'. eexists. split; [done|]. done.
Qed.

(** C33. Over any read model that answers, a query ends with what its plan
    denotes: the matched nodes in order of id, then for each operation exactly
    the nodes that the predicate accepts, or that an edge leads to, or whose
    distance from the nodes so far is within the range of depths, again in
    order of id and each once; the answer is the selected fields of these
    nodes or their aggregates. A query with an unknown field is rejected. *)
Theorem query_finds_meaning (provider : Provider) (rm : QueryReadModel) (plan : QueryPlan) (start : list string) :
  let request := mkRequest (pattern plan) (selected_fields (select plan)) in
  (¬ known_fields (select plan) → run provider plan = Throw (QueryError "E_QUERY_SELECT_FIELD")) ∧
  (known_fields (select plan) → patterns_ok (pattern plan) →
   (∀ o, nodeRequest o = request → op_operations o = operations plan → provider (Some o) = Ok rm) →
   answers rm → starts rm request start → calm_ops rm (operations plan) →
   ∃ ids, finds rm (operations plan) start ids ∧ strictly_sorted compareStrings ids ∧
     run provider plan = Ok (answer_of rm plan (selected_fields (select plan)) ids)).
Proof.
  cbn zeta. unfold run. rewrite validateSelectFields_spec. split.
  - intros Hk. by rewrite decide_False.
  - intros Hk Hp Hprov Hrm Hst Hc. rewrite decide_True by done. cbn [mbind result_bind].
    destruct (openRequest_spec plan (mkRequest (pattern plan) (selected_fields (select plan))) Hp)
      as (o & Eo & E1 & E2 & _).
    rewrite Eo. cbn [mbind result_bind]. rewrite (Hprov o E1 E2). cbn [mbind result_bind].
    destruct (run_on_yields rm Hrm plan _ start Hst Hc) as (ids & Hf & Hs & Hy). exists ids. split; [done|].
    split; [done|]. destruct (Hy ∅ (query_memo_empty rm)) as (memo & E & _). by rewrite E.
Qed.
