(* ===== verification/QueryState.v ===== *)
(** Queries over a materialized state: the read model of a state shows its
    visible graph ([query/StateQueryReadModel.ts],
    [services/NodePropertyProjection.ts] under [query/QueryRunner.ts]). *)
From S2P Require Export QueryMeaning.
#[local] Open Scope string_scope.
#[local] Open Scope list_scope.

Import QueryPlan QueryReadModel QueryRunner.

(** ** Bags that are filled from records *)
Section filling.
Context {R : Type} (key : R → string) (val : R → option SnapshotPropValue) (keep : string → bool).
#[local] Abbreviation fill := (λ (b : Bag) (records : list R), foldl (λ props r,
    if keep (key r) then match val r with Some v => bag_set (key r) v props | None => props end
    else props) b records).

Lemma fill_other records b k : (∀ r, r ∈ records → key r ≠ k) → fill b records !! k = b !! k.
Proof.
  revert b. induction records as [|r records IH]; intros b Hk; [done|]. cbn [foldl].
  rewrite IH by (intros r' Hr'; apply Hk; by right).
  destruct (keep (key r)); [|done]. destruct (val r) as [v|]; [|done]. rewrite lookup_bag_set.
  destruct (decide (key r = k ∧ key r ≠ "__proto__")) as [[E _]|]; [|done]. exfalso. by apply (Hk r); [left|].
Qed.

Lemma fill_lookup records k :
  NoDup (key <$> records) →
  (∀ r, r ∈ records → key r = k →
    fill ∅ records !! k = if decide (keep k = true ∧ k ≠ "__proto__") then val r else None).
Proof.
  enough (∀ b, b !! k = None → NoDup (key <$> records) → ∀ r, r ∈ records → key r = k →
    fill b records !! k = if decide (keep k = true ∧ k ≠ "__proto__") then val r else None) as Hgen
    by (intros; by apply Hgen).
  induction records as [|r0 records IH]; intros b Hb; csimpl; [by intros _ r ?%elem_of_nil|].
  intros [Hni Hnd]%NoDup_cons r Hr Hk.
  assert (r = r0 ∨ (r ∈ records ∧ key r0 ≠ k)) as [->|[Hin Hne]].
  { apply elem_of_cons in Hr as [|Hr]; [by left|right]. split; [done|]. intros E. apply Hni.
    rewrite E, <- Hk. by apply list_elem_of_fmap_2. }
  - rewrite fill_other.
    2: { intros r' Hr' E. apply Hni. rewrite Hk, <- E. by apply list_elem_of_fmap_2. }
    rewrite Hk. destruct (keep k); [|by rewrite (decide_False (P:=false = true ∧ _)) by (by intros [])].
    destruct (val r0) as [v|].
    + rewrite lookup_bag_set. destruct (decide (k = k ∧ k ≠ "__proto__")) as [[_ Hp]|Hp].
      * by rewrite decide_True.
      * rewrite Hb. symmetry. apply decide_False. intros [_ ?]. by apply Hp.
    + rewrite Hb. by destruct (decide _).
  - apply IH; [|done..]. destruct (keep (key r0)); [|done]. destruct (val r0) as [v|]; [|done].
    rewrite lookup_bag_set. destruct (decide (key r0 = k ∧ key r0 ≠ "__proto__")) as [[? _]|]; done.
Qed.
End filling.

(** ** The properties of a node *)
Section properties.
Context (h : heap) (s : WarpState.WarpState).
Import NodePropertyProjection.

(** The values of the node properties are property values. *)
Definition props_ok : Prop := ∀ k r n key,
  WarpState.prop s !! k = Some r → decodeVisibleNodePropertyKey k = Some (n, key) →
  PropValue.isPropValue h (LWW.value r) = Some true.

Definition prop_name_ok (key : string) : Prop := str_nonempty key = true ∧ no_sep key.

Lemma decodeVisible_spec k n key :
  decodeVisibleNodePropertyKey k = Some (n, key) ↔ k = encodePropKey n key ∧ ident_ok n ∧ prop_name_ok key.
Proof.
  unfold decodeVisibleNodePropertyKey, ident_ok, prop_name_ok, no_sep. split.
  - destruct (starts_with_prefix k) eqn:Ep; [done|].
    destruct (str_split FIELD_SEPARATOR k) as [|a [|b [|]]] eqn:Es; simpl; try done.
    unfold nodePropertyKeyPartsFromValues. destruct (str_nonempty a) eqn:Ea; [|done].
    destruct (str_nonempty b) eqn:Eb; [|done]. intros [= <- <-].
    assert (∀ w, w ∈ [a; b] → str_includes FIELD_SEPARATOR w = false) as Hfree
      by (intros w; rewrite <- Es; apply str_split_free).
    destruct (str_split_cons _ _ _ _ Es) as (k' & -> & Es'); [done|].
    apply str_split_single in Es' as Ek. subst k'.
    split; [done|]. split; [split; [done|split; [by apply Hfree; left|]]|split; [done|by apply Hfree; right; left]].
    by destruct a as [|c a].
  - intros (-> & (Ha & Hsa & Hp) & Hb & Hsb).
    assert (starts_with_prefix (encodePropKey n key) = false) as -> by (by destruct n).
    unfold encodePropKey. rewrite split_join, split_one by done. simpl.
    unfold nodePropertyKeyPartsFromValues. by rewrite Ha, Hb.
Qed.

(** The record of a register, where it belongs to the node. *)
Definition record_for (n : string) (e : string * WarpState.register) : option VisibleNodePropertyRecord :=
  '(nodeId, key) ← decodeVisibleNodePropertyKey e.1;
  if decide (nodeId = n) then Some (mkRecord (NodeRecord.of_legacy n) key (LWW.value e.2)) else None.

Lemma record_for_Some n e r :
  record_for n e = Some r ↔ ∃ key, e.1 = encodePropKey n key ∧ ident_ok n ∧ prop_name_ok key ∧
    r = mkRecord (NodeRecord.of_legacy n) key (LWW.value e.2).
Proof.
  unfold record_for. split.
  - destruct (decodeVisibleNodePropertyKey e.1) as [[n1 key]|] eqn:D; simpl; [|done].
    case_decide; [subst|done]. intros [= <-]. apply decodeVisible_spec in D as (? & ? & ?). by exists key.
  - intros (key & Ek & Hn & Hk & ->). rewrite (proj2 (decodeVisible_spec _ n key)) by done. simpl.
    by rewrite decide_True.
Qed.

Lemma owner_register n e :
  props_ok → e ∈ WarpState.allPropEntries s →
  nodePropertyRecordForOwnerRegister h (NodeRecord.of_legacy n) e.1 e.2 = Ok (record_for n e).
Proof.
  intros Hok He. destruct e as [k r]. apply elem_of_map_to_list in He.
  unfold nodePropertyRecordForOwnerRegister, record_for. cbn [fst snd].
  destruct (decodeVisibleNodePropertyKey k) as [[nodeId key]|] eqn:Ed; [|done].
  cbn [mbind option_bind].
  change (NodeId.toString (NodeRecord.id (NodeRecord.of_legacy n))) with n. case_decide; [|done].
  pose proof (Hok k r nodeId key He Ed) as Hv. apply decodeVisible_spec in Ed as (_ & _ & Hk & Hsep).
  unfold requireLegacyPropertyKeyValue, requirePropValue. rewrite Hk. cbn [require mbind result_bind].
  rewrite Hsep. cbn [negb require mbind result_bind]. by rewrite bool_decide_eq_true_2.
Qed.

(** The records of a node are those of its registers, whatever the prefix scan
    and the order. *)
Lemma forNode_spec n :
  props_ok → ident_ok n →
  ∃ records, forNode h s (inl n) = Ok records ∧
    (ORSet.contains (WarpState.nodeAlive s) n = true →
      NoDup (key <$> records) ∧
      ∀ r, r ∈ records ↔ ∃ e, e ∈ WarpState.allPropEntries s ∧ record_for n e = Some r) ∧
    (ORSet.contains (WarpState.nodeAlive s) n = false → records = []).
Proof.
  intros Hok Hn. unfold forNode, nodeRecordForProjectionTarget.
  assert (isLegacyNodePropertyProjectionTarget n = true) as ->.
  { destruct Hn as (H1 & H2 & H3). unfold isLegacyNodePropertyProjectionTarget, isLegacyNodeSegment,
      isNonEmptyLegacySegment. by rewrite H1, H2, H3. }
  rewrite WarpState.getNodeRecord_ok by done. cbn [mbind result_bind].
  destruct (ORSet.contains (WarpState.nodeAlive s) n) eqn:Ec; [|by exists []].
  unfold forNodeRecord. change (NodeId.toString (NodeRecord.id (NodeRecord.of_legacy n))) with n.
  set (entries := filter (λ e : string * WarpState.register, String.prefix (encodePropKey n "") e.1)
    (WarpState.allPropEntries s)).
  assert (map_result (λ '(k, r), nodePropertyRecordForOwnerRegister h (NodeRecord.of_legacy n) k r) entries
    = Ok (record_for n <$> entries)) as ->.
  { apply map_result_fmap. intros [k r] He. unfold entries in He. apply list_elem_of_filter in He as [_ He].
    by apply (owner_register n (k, r)). }
  cbn [mbind result_bind]. eexists. split; [done|]. split; [|done]. intros _.
  assert (omap (λ r, r) (record_for n <$> entries) = omap (record_for n) entries) as Eo by apply omap_id_fmap.
  rewrite Eo. split.
  - rewrite (js_sort_perm compareNodePropertyRecords).
    assert (∀ l : list (string * WarpState.register), NoDup l.*1 → NoDup (key <$> omap (record_for n) l)) as Hnd.
    { induction l as [|[k r] l IH]; csimpl; [constructor|]. intros [Hni Hnd]%NoDup_cons.
      destruct (record_for n (k, r)) as [rec|] eqn:E; [|by apply IH]. csimpl. constructor; [|by apply IH].
      rewrite list_elem_of_fmap. intros (rec' & Ek & Hrec'). apply list_elem_of_omap in Hrec' as ([k' r'] & Hin & E').
      apply Hni.
      apply list_elem_of_fmap. exists (k', r'). split; [|done]. cbn [fst].
      apply record_for_Some in E as (k1 & E1 & _ & _ & ->), E' as (k2 & E2 & _ & _ & ->).
      cbn in E1, E2, Ek. congruence. }
    apply Hnd. unfold entries. eapply sublist_NoDup; [|apply fmap_sublist, sublist_filter].
    apply NoDup_fst_map_to_list.
  - intros r. rewrite elem_of_js_sort, list_elem_of_omap. unfold entries. setoid_rewrite list_elem_of_filter.
    split; [intros (e & [_ He] & E); by exists e|]. intros (e & He & E). exists e. split; [|done]. split; [|done].
    apply record_for_Some in E as (k1 & -> & _).
    assert (∀ a b : string, String.prefix a (a +:+ b) = true) as Hpre.
    { clear. induction a as [|c a IH]; intros b; [by destruct b|].
      change (String c a +:+ b) with (String c (a +:+ b)). cbn [String.prefix]. by destruct (ascii_dec c c). }
    assert (encodePropKey n k1 = encodePropKey n "" +:+ k1) as ->.
    { unfold encodePropKey, sep_join. by rewrite str_app_assoc. }
    by rewrite Hpre.
Qed.
End properties.

(** ** The read model of a state *)
Section state_model.
Context (h : heap) (s : WarpState.WarpState) (hash : string) (v : Visibility).
Context (cached : option QueryNodePatternIndex.SortedEntryKeyCache).
Context (Hedges : WarpState.edges_ok s) (Hprops : props_ok h s).
Context (Hids : ∀ n, ORSet.contains (WarpState.nodeAlive s) n = true → ident_ok n).
Context (Hcached : fresh_cache (WarpState.nodeAlive s) cached).
#[local] Abbreviation view := (StateQueryReadModel.new s hash v None).
#[local] Abbreviation rm := (StateQueryReadModel.model h view cached).

(** The nodes that the model shows. *)
Definition shows (n : string) : Prop :=
  ORSet.contains (WarpState.nodeAlive s) n = true ∧ glob_test (match_ v) n = true.

Lemma isVisibleNode_shows n : StateQueryReadModel.isVisibleNode view n = true ↔ shows n.
Proof. unfold StateQueryReadModel.isVisibleNode, shows. cbn. apply andb_true_iff. Qed.

(** The value of a property that the model shows. *)
Definition shown_prop (n key : string) : option SnapshotPropValue :=
  if decide (prop_name_ok key ∧ key ≠ "__proto__" ∧
     isKeyVisible key (toFilterSet (redact v)) (toFilterSet (expose v)) = true)
  then r ← WarpState.prop s !! encodePropKey n key; Snapshot.createSnapshotPropValue h (LWW.value r)
  else None.

Lemma nodeProps_shows n :
  ∃ p, nodeProps rm n = Ok p ∧ (is_Some p ↔ shows n) ∧ ∀ b key, p = Some b → b !! key = shown_prop n key.
Proof.
  cbn [nodeProps StateQueryReadModel.model]. unfold StateQueryReadModel.model_nodeProps.
  destruct (StateQueryReadModel.isVisibleNode view n) eqn:Ev.
  2: { exists None. split; [done|]. split; [|done]. rewrite <- isVisibleNode_shows, Ev. split; [by intros []|done]. }
  pose proof (proj1 (isVisibleNode_shows n) Ev) as [Hal Hm].
  destruct (forNode_spec h s n Hprops (Hids n Hal)) as (records & E & Hrec & _).
  destruct (Hrec Hal) as [Hnd Hin]. cbn [StateQueryReadModel.state]. rewrite E. cbn [mbind result_bind].
  eexists. split; [done|]. split; [by rewrite <- isVisibleNode_shows|].
  intros b key [= <-]. cbn [StateQueryReadModel.visibility].
  set (keep k := isKeyVisible k (toFilterSet (redact v)) (toFilterSet (expose v))).
  set (val r := Snapshot.createSnapshotPropValue h (NodePropertyProjection.value r)).
  set (filled := foldl _ ∅ records).
  assert (∀ r, r ∈ records → NodePropertyProjection.key r = key →
    filled !! key = if decide (keep key = true ∧ key ≠ "__proto__") then val r else None) as Hfill
    by (intros r; by apply (fill_lookup NodePropertyProjection.key val keep)).
  assert ((∀ r, r ∈ records → NodePropertyProjection.key r ≠ key) → filled !! key = None) as Hother.
  { intros Hno. unfold filled. etrans; [|exact (lookup_empty key)].
    by apply (fill_other NodePropertyProjection.key val keep). }
  unfold shown_prop. fold (keep key).
  destruct (WarpState.prop s !! encodePropKey n key) as [r|] eqn:Er.
  - destruct (decide (prop_name_ok key)) as [Hk|Hk].
    + assert (record_for n (encodePropKey n key, r) =
        Some (NodePropertyProjection.mkRecord (NodeRecord.of_legacy n) key (LWW.value r))) as Erec
        by (apply record_for_Some; exists key; split; [done|split; [by apply Hids|done]]).
      rewrite (Hfill (NodePropertyProjection.mkRecord (NodeRecord.of_legacy n) key (LWW.value r))); [|apply Hin|done].
      * destruct (decide (keep key = true ∧ key ≠ "__proto__")) as [[H1 H2]|Hn]; [rewrite decide_True; done|].
        rewrite decide_False; [done|]. intros (_ & H2 & H1). by apply Hn.
      * exists (encodePropKey n key, r). split; [by apply elem_of_map_to_list|done].
    + rewrite Hother, decide_False; [done|by intros (? & _)|]. intros rec (e & _ & Erec)%Hin Ek. apply Hk.
      apply record_for_Some in Erec as (k1 & _ & _ & ? & ->). cbn in Ek. by subst k1.
  - rewrite Hother; [by destruct (decide (prop_name_ok key ∧ key ≠ "__proto__" ∧ keep key = true))|]. intros rec (e & He & Erec)%Hin Ek.
    apply record_for_Some in Erec as (k1 & D & _ & _ & ->). cbn in Ek. subst k1. destruct e as [k r].
    cbn [fst] in D. subst k. apply elem_of_map_to_list in He. discriminate (eq_trans (eq_sym He) Er).
Qed.

(** Every node is asked for: it has the properties it shows, or none. *)
Lemma props_of_shows n key : props_of rm n !! key = if decide (shows n) then shown_prop n key else None.
Proof.
  unfold props_of. destruct (nodeProps_shows n) as (p & -> & Hp & Hb). destruct p as [b|].
  - rewrite decide_True by (by apply Hp). by apply Hb.
  - rewrite decide_False; [apply lookup_empty|]. intros Hs. by apply Hp in Hs as [].
Qed.

(** A step of a query is a visible edge between shown nodes. *)
Definition shown_edge (o : QueryNeighborOptions) (n m : string) : Prop :=
  shows n ∧ shows m ∧ ∃ l, links s (StateQueryReadModel.providerDirection (o_direction o)) n (mkEdge m l) ∧
    (∀ l', o_label o = Some l' → l = l').

Lemma neighbors_total n o : ∃ es, neighbors rm n o = Ok es.
Proof.
  cbn [neighbors StateQueryReadModel.model]. unfold StateQueryReadModel.model_neighbors.
  destruct (StateQueryReadModel.isVisibleNode view n); by eexists.
Qed.

Lemma state_model_answers : answers rm.
Proof.
  split; [apply neighbors_total|]. intros n. destruct (nodeProps_shows n) as (p & E & _). by exists p.
Qed.

Definition label_list (o : QueryNeighborOptions) : option (list string) :=
  match o_label o with Some l => Some [l] | None => None end.

Lemma label_list_options o :
  QueryReadModelNeighborProvider.queryOptions (o_direction o) (label_list o) = o.
Proof. by destruct o as [[l|] d]. Qed.

(** A neighbour that the scan finds has the label asked for. *)
Lemma linear_label m k n o y :
  StateQueryReadModel.linearNeighborForEdge m k n o = Some y →
  QueryReadModelNeighborProvider.labelAllowed y (label_list o) = true.
Proof.
  unfold StateQueryReadModel.linearNeighborForEdge, label_list, QueryReadModelNeighborProvider.labelAllowed.
  destruct (match o_direction o with outgoing => _ | incoming => _ end) as [t|]; [|done].
  unfold StateQueryReadModel.labelMatches. destruct (o_label o) as [l|]; [|done].
  generalize (ep_label (decodeEdgeKey k)). intros lb. case_bool_decide as El; simpl; [|done].
  case_match; [done|]. intros [= <-]. simpl. apply bool_decide_eq_true. subst. by left.
Qed.

Lemma neighbor_edges_shown o n m : edge (neighbor_edges rm o) n m ↔ shown_edge o n m.
Proof.
  unfold edge, neighbor_edges. cbn [neighbors StateQueryReadModel.model].
  unfold StateQueryReadModel.model_neighbors.
  destruct (StateQueryReadModel.isVisibleNode view n) eqn:Ev.
  2: { split; [by intros (e & He & _); apply elem_of_nil in He|].
       intros [Hn _]. apply isVisibleNode_shows in Hn. congruence. }
  pose proof (proj1 (isVisibleNode_shows n) Ev) as Hn. cbn [StateQueryReadModel.neighborProvider].
  unfold StateQueryReadModel.visibleLinearNeighbors. cbn [StateQueryReadModel.state].
  set (d := o_direction o).
  assert (∀ k y, StateQueryReadModel.linearNeighborForEdge view k n o = Some y ↔
    (∃ e, side_edge s d n k = Some e ∧ allowed (mkOptions (label_list o)) e ∧
      QueryReadModelNeighborProvider.toNeighborEdge y = e) ∧ glob_test (match_ v) (QueryReadModel.nodeId y) = true) as Hlin.
  { intros k y. rewrite (linear_layered s hash v None k n o).
    assert (∀ e, (∃ y, StateQueryReadModel.linearNeighborForEdge (StateQueryReadModel.new s hash everything None) k n o = Some y ∧
        QueryReadModelNeighborProvider.labelAllowed y (label_list o) = true ∧
        QueryReadModelNeighborProvider.toNeighborEdge y = e) ↔
      side_edge s d n k = Some e ∧ allowed (mkOptions (label_list o)) e) as Hscan.
    { intros e. pose proof (scanned_edge s hash d n k (label_list o) e (proj1 Hn)) as Hs.
      unfold d in Hs. rewrite label_list_options in Hs. exact Hs. }
    unfold VisibleQueryReadModel.isVisibleNode. split.
    - destruct (StateQueryReadModel.linearNeighborForEdge _ k n o) as [y'|] eqn:El; simpl; [|done].
      destruct (glob_test (match_ v) (QueryReadModel.nodeId y')) eqn:Eg; [|done]. intros [= <-].
      split; [|done]. exists (QueryReadModelNeighborProvider.toNeighborEdge y'). 
      destruct (proj1 (Hscan (QueryReadModelNeighborProvider.toNeighborEdge y'))) as [? ?]; [|done].
      exists y'. split; [done|]. split; [by eapply linear_label|done].
    - intros [(e & He & Ha & Hy) Hg]. destruct (proj2 (Hscan e) (conj He Ha)) as (y' & El & _ & Hy').
      rewrite El. simpl. assert (y' = y) as -> by (destruct y, y'; unfold QueryReadModelNeighborProvider.toNeighborEdge in *; naive_solver).
      by rewrite Hg. }
  unfold shown_edge. split.
  - intros (e & He & <-). apply list_elem_of_fmap in He as (y & -> & (k & Hk & Hy)%list_elem_of_omap).
    apply Hlin in Hy as [(e & He & Ha & <-) Hg].
    assert (links s (StateQueryReadModel.providerDirection d) n (QueryReadModelNeighborProvider.toNeighborEdge y)) as Hl
      by (apply (elem_of_side s Hedges d n); by exists k).
    split; [done|]. split.
    + split; [|done]. pose proof (links_alive s _ _ _ Hl) as Hal. unfold alive_nodes in Hal.
      by rewrite elem_of_list_to_set, ORSet.elem_of_elements in Hal.
    + exists (n_label y). split; [exact Hl|]. intros l' El. unfold allowed, label_list in Ha. rewrite El in Ha.
      specialize (Ha [l'] eq_refl). by apply list_elem_of_singleton in Ha.
  - intros (_ & [Hal Hg] & l & Hl & Hlab). exists (mkEdge m l). split; [|done].
    apply (elem_of_side s Hedges d n) in Hl as (k & Hk & He). apply list_elem_of_fmap.
    exists (mkNeighbor m l). split; [done|]. apply list_elem_of_omap. exists k. split; [done|].
    apply Hlin. split; [|done]. exists (mkEdge m l). split; [done|]. split; [|done].
    intros ls. unfold label_list. simpl. destruct (o_label o) as [l'|]; [|done]. intros [= <-].
    rewrite (Hlab l' eq_refl). by left.
Qed.

(** A query starts from the shown nodes that match its pattern. *)
Lemma state_model_starts request :
  ∃ ids, starts rm request ids ∧ strictly_sorted compareStrings ids ∧
    ∀ n, n ∈ ids ↔ shows n ∧ glob_test (r_pattern request) n = true.
Proof.
  destruct (liveCandidates_spec (WarpState.nodeAlive s) cached (r_pattern request) Hcached) as (Hnd & _ & Hal & Hall).
  set (cands := (QueryNodePatternIndex.liveCandidates (WarpState.nodeAlive s) cached (r_pattern request)).1) in *.
  set (kept := filter (λ n, StateQueryReadModel.isVisibleNode view n && glob_test (r_pattern request) n) cands).
  assert (NoDup kept) as Hk by (by apply NoDup_filter).
  assert (∀ n, n ∈ kept ↔ shows n ∧ glob_test (r_pattern request) n = true) as Hin.
  { intros n. unfold kept. rewrite list_elem_of_filter, Is_true_true, andb_true_iff, isVisibleNode_shows.
    split; [by intros [[? ?] _]|]. intros [Hs Hg]. split; [done|]. by apply Hall; [apply Hs|]. }
  assert (id <$> StateQueryReadModel.visibleNodes view cached request = kept) as Eids.
  { unfold StateQueryReadModel.visibleNodes. cbn [StateQueryReadModel.state]. rewrite <- list_fmap_compose.
    fold cands. fold kept. rewrite <- (list_fmap_id kept) at 2. by apply list_fmap_ext. }
  assert (isSingleExactPattern (r_pattern request) = true → take 1 kept = kept) as Hexact.
  { intros He. destruct (r_pattern request) as [p|] eqn:Ep; [|done]. simpl in He. apply negb_true_iff in He.
    assert (∀ n, n ∈ kept → n = p) as Hone.
    { intros n [_ Hg]%Hin. apply glob_test_spec in Hg as [->|Hg]; [done|].
      symmetry. by apply (MatchGlob.glob_literal p n). }
    destruct kept as [|a [|b l]]; [done|done|]. exfalso. apply NoDup_cons in Hk as [Hni _]. apply Hni.
    rewrite (Hone a), <- (Hone b) by set_solver. by left. }
  exists (sortIds kept). split; [|split].
  - eexists. split; [done|]. rewrite Eids. split; [|done].
    destruct (isSingleExactPattern _); [by rewrite Hexact|done].
  - by apply sortIds_strict.
  - intros n. by rewrite elem_of_sortIds.
Qed.
End state_model.

(** C34. The read model of a valid state shows its visible graph: it always
    answers; a query starts from the alive nodes that the visibility and the
    pattern match; a step of a query is a visible edge between shown nodes with
    the label asked for; and the properties of a shown node are the snapshots of
    its registers, up to the names that the visibility hides. *)
Theorem state_read_model_shows_graph (h : heap) (s : WarpState.WarpState) (hash : string) (v : Visibility)
    (cached : option QueryNodePatternIndex.SortedEntryKeyCache) (request : QueryNodeStreamRequest) :
  WarpState.edges_ok s → props_ok h s →
  (∀ n, ORSet.contains (WarpState.nodeAlive s) n = true → ident_ok n) →
  fresh_cache (WarpState.nodeAlive s) cached →
  let rm := StateQueryReadModel.model h (StateQueryReadModel.new s hash v None) cached in
  answers rm ∧
  (∃ ids, starts rm request ids ∧ strictly_sorted compareStrings ids ∧
    ∀ n, n ∈ ids ↔ shows s v n ∧ glob_test (r_pattern request) n = true) ∧
  (∀ o n m, edge (neighbor_edges rm o) n m ↔ shown_edge s v o n m) ∧
  (∀ n key, props_of rm n !! key = if decide (shows s v n) then shown_prop h s v n key else None).
Proof.
  intros He Hp Hi Hc. cbn zeta. split; [by apply state_model_answers|].
  split; [by apply state_model_starts|]. split; [by intros o n m; apply neighbor_edges_shown|].
  intros n key. by apply props_of_shows.
Qed.

(** ** Runs *)
Section runs.
(** Decided versions of the conditions. *)
Definition props_check (h : heap) (s : WarpState.WarpState) : bool :=
  forallb (λ '(k, r), match NodePropertyProjection.decodeVisibleNodePropertyKey k with
    | Some _ => bool_decide (PropValue.isPropValue h (LWW.value r) = Some true)
    | None => true
    end) (map_to_list (WarpState.prop s)).

Lemma props_check_ok h s : props_check h s = true → props_ok h s.
Proof.
  unfold props_check. rewrite List.forallb_forall. intros Hf k r n key Hk Hd.
  specialize (Hf (k, r)). cbv beta iota in Hf. rewrite Hd in Hf. apply (proj1 (bool_decide_eq_true _)), Hf.
  by apply list_elem_of_In, elem_of_map_to_list.
Qed.

#[local] Instance ident_ok_dec n : Decision (ident_ok n).
Proof. unfold ident_ok, no_sep. apply _. Defined.

Definition ids_check (s : WarpState.WarpState) : bool :=
  forallb (λ n, bool_decide (ident_ok n)) (ORSet.elements (WarpState.nodeAlive s)).

Lemma ids_check_ok s :
  ids_check s = true → ∀ n, ORSet.contains (WarpState.nodeAlive s) n = true → ident_ok n.
Proof.
  unfold ids_check. rewrite List.forallb_forall. intros Hf n Hn.
  apply (proj1 (bool_decide_eq_true (ident_ok n))), Hf, list_elem_of_In. by apply ORSet.elem_of_elements.
Qed.

#[local] Abbreviation sample_model :=
  (StateQueryReadModel.model ∅ (StateQueryReadModel.new sample_state "hash" everything None) None).

Lemma state_read_model_shows_graph_witness :
  let rm := sample_model in
  answers rm ∧
  (∃ ids, starts rm (mkRequest (inl "n*") None) ids ∧ strictly_sorted compareStrings ids ∧
    ∀ n, n ∈ ids ↔ shows sample_state everything n ∧ glob_test (inl "n*") n = true) ∧
  (∀ o n m, edge (neighbor_edges rm o) n m ↔ shown_edge sample_state everything o n m) ∧
  (∀ n key, props_of rm n !! key =
    if decide (shows sample_state everything n) then shown_prop ∅ sample_state everything n key else None).
Proof.
  apply (state_read_model_shows_graph ∅ sample_state "hash" everything None (mkRequest (inl "n*") None)).
  - apply sample_edges_ok.
  - apply props_check_ok. vm_compute. reflexivity.
  - apply ids_check_ok. vm_compute. reflexivity.
  - intros c E. discriminate E.
Defined.

(** Named nodes and what they link to. *)
Definition named : QueryNodeSnapshot → result bool := λ n, Ok (bool_decide (is_Some (props n !! "name"))).

Definition sample_plan : QueryPlan :=
  mkPlan (inl "n*") [Where named; Traverse outgoing (Some "knows") (0, 2)%nat] (Some ["id"]) None.

Lemma query_finds_meaning_witness :
  ∃ start ids, finds sample_model (operations sample_plan) start ids ∧ strictly_sorted compareStrings ids ∧
    run (λ _, Ok sample_model) sample_plan =
      Ok (answer_of sample_model sample_plan (selected_fields (select sample_plan)) ids).
Proof.
  assert (props_ok ∅ sample_state) as Hp by (apply props_check_ok; vm_compute; reflexivity).
  assert (∀ n, ORSet.contains (WarpState.nodeAlive sample_state) n = true → ident_ok n) as Hi
    by (apply ids_check_ok; vm_compute; reflexivity).
  assert (fresh_cache (WarpState.nodeAlive sample_state) None) as Hc by (intros c E; discriminate E).
  destruct (state_model_starts ∅ sample_state "hash" everything None sample_edges_ok Hp Hi Hc (mkRequest (inl "n*") (Some ["id"])))
    as (start & Hst & _). exists start.
  apply (query_finds_meaning (λ _, Ok sample_model) sample_model sample_plan start).
  - apply (bool_decide_unpack _). vm_compute. exact I.
  - intros p Hp'. apply list_elem_of_singleton in Hp' as ->. vm_compute. discriminate.
  - intros o _ _. reflexivity.
  - apply (state_model_answers ∅ sample_state "hash" everything None Hp Hi).
  - exact Hst.
  - intros fn Hfn. apply elem_of_cons in Hfn as [[= ->]|Hfn]; [by intros n; eexists|].
    apply list_elem_of_singleton in Hfn. discriminate Hfn.
Defined.

Example sample_query :
  run (λ _, Ok sample_model) sample_plan =
    Ok (Nodes (mkQueryResult "hash" [mkNode (Some "n1") None; mkNode (Some "n2") None])).
Proof. vm_compute. reflexivity. Qed.

(** Two nodes that link to each other. *)
Definition pair_state : WarpState.WarpState :=
  WarpState.mk
    (ORSet.add "n2" (Dot.mk "w" 2) (ORSet.add "n1" (Dot.mk "w" 1) ORSet.empty))
    (ORSet.add (encodeEdgeKey "n2" "n1" "knows") (Dot.mk "w" 4)
      (ORSet.add (encodeEdgeKey "n1" "n2" "knows") (Dot.mk "w" 3) ORSet.empty))
    ∅ (VersionVector.mk {["w" := 4%Z]} false) ∅.

Definition pair_query (depth : nat * nat) : result Answer :=
  run (λ _, Ok (StateQueryReadModel.model ∅ (StateQueryReadModel.new pair_state "hash" everything None) None))
    (mkPlan (inl "*") [Traverse outgoing None depth] (Some ["id"]) None).

(** One hop finds both nodes, one or two hops find none: the single hop keeps
    nodes that the query started from, the search over several hops does not. *)
Lemma wider_depth_finds_less :
  pair_query (1, 1)%nat = Ok (Nodes (mkQueryResult "hash" [mkNode (Some "n1") None; mkNode (Some "n2") None])) ∧
  pair_query (1, 2)%nat = Ok (Nodes (mkQueryResult "hash" [])).
Proof. split; vm_compute; reflexivity. Qed.

(** A chain of three nodes. *)
Definition chain_state : WarpState.WarpState :=
  WarpState.mk
    (ORSet.add "n3" (Dot.mk "w" 3) (ORSet.add "n2" (Dot.mk "w" 2) (ORSet.add "n1" (Dot.mk "w" 1) ORSet.empty)))
    (ORSet.add (encodeEdgeKey "n2" "n3" "knows") (Dot.mk "w" 5)
      (ORSet.add (encodeEdgeKey "n1" "n2" "knows") (Dot.mk "w" 4) ORSet.empty))
    ∅ (VersionVector.mk {["w" := 5%Z]} false) ∅.

Definition two_hops : QueryPlan :=
  mkPlan (inl "n1") [Traverse outgoing None (1, 1)%nat; Traverse outgoing None (1, 1)%nat] (Some ["id"]) None.

(** The support rule of a plan takes the deepest traversal for the depth of the
    plan, but traversals add up: the answer lies two steps from the root. *)
Lemma support_depth_too_small :
  BoundedSupportRule.maxDepth <$> BoundedSupportRule.fromQueryPlan two_hops = Ok (Some 1%Z) ∧
  run (λ _, Ok (StateQueryReadModel.model ∅ (StateQueryReadModel.new chain_state "hash" everything None) None))
    two_hops = Ok (Nodes (mkQueryResult "hash" [mkNode (Some "n3") None])).
Proof. split; vm_compute; reflexivity. Qed.
End runs.
