(* ===== verification/QueryBuilder.v ===== *)
(** The fluent builder of queries ([query/QueryBuilder.ts]). *)
From S2P Require Export QueryState.
#[local] Open Scope string_scope.
#[local] Open Scope list_scope.

Module QueryBuilder.
Import QueryPlan QueryReadModel.

(** What callers pass, as far as the builder can tell the types apart. *)
Inductive PatternArg := PString (p : string) | PStrings (l : list string) | POther.
Inductive WhereArg := WFunction (fn : QueryNodeSnapshot → result bool) | WValue (v : SnapshotPropValue) | WOther.
Inductive LabelArg := LNone | LString (s : string) | LOther.
Inductive DepthArg := DNone | DNumber (n : jsnum) | DArray (l : list jsnum) | DOther.
Inductive SelectArg := SNone | SList (l : list string) | SOther.
Inductive FieldArg := FString (s : string) | FBool (b : bool) | FOther.
Record SpecArg := mkSpec {
  a_count : option FieldArg;
  a_sum : option FieldArg;
  a_avg : option FieldArg;
  a_min : option FieldArg;
  a_max : option FieldArg;
}.

(* @src domain/services/query/QueryBuilder.ts QueryBuilder 151-156 *)
Record QueryBuilder := mk {
  _pattern : option (string + list string);
  _operations : list QueryOperation;
  _select : option (list string);
  _aggregate : option AggregateSpec;
}.

(* @src domain/services/query/QueryBuilder.ts constructor 158-164 *)
Definition new : QueryBuilder := mk None [] None None.

(* @src domain/services/query/QueryBuilder.ts assertMatchPattern *)
Definition assertMatchPattern (pattern : PatternArg) : result (string + list string) :=
  match pattern with
  | PString p => Ok (inl p)
  | PStrings l => Ok (inr l)
  | POther => Throw (QueryError "E_QUERY_MATCH_TYPE")
  end.

(* @src domain/services/query/QueryBuilder.ts isQueryWhereObject *)
Definition isQueryWhereObject (value : WhereArg) : option (list (string * SnapshotPropValue)) :=
  match value with WValue (Snapshot.SnObject fields) => Some fields | _ => None end.

(* @src domain/services/query/QueryBuilder.ts isPrimitive *)
Definition isPrimitive (value : SnapshotPropValue) : bool :=
  match value with
  | Snapshot.SnNull | Snapshot.SnString _ | Snapshot.SnNumber _ | Snapshot.SnBool _ => true
  | _ => false
  end.

(** [props[key] !== value] for a primitive [value]. *)
Definition strict_equals (x value : SnapshotPropValue) : bool :=
  match x, value with
  | Snapshot.SnNull, Snapshot.SnNull => true
  | Snapshot.SnBool a, Snapshot.SnBool b => Bool.eqb a b
  | Snapshot.SnNumber a, Snapshot.SnNumber b => bool_decide (a = b ∧ a ≠ JNaN)
  | Snapshot.SnString a, Snapshot.SnString b => bool_decide (a = b)
  | _, _ => false
  end.

(** What [props] inherits is a function or an object, which equals no
    primitive. *)
(* @src domain/services/query/QueryBuilder.ts objectToPredicate *)
Definition objectToPredicate (entries : list (string * SnapshotPropValue))
    : result (QueryNodeSnapshot → result bool) :=
  _ ← require (forallb (λ e, isPrimitive e.2) entries) (QueryError "E_QUERY_WHERE_VALUE_TYPE");
  Ok (λ node, Ok (forallb (λ '(key, value),
    match props node !! key with Some x => strict_equals x value | None => false end) entries)).

(* @src domain/services/query/QueryBuilder.ts createPredicate *)
Definition createPredicate (fn : WhereArg) : result (QueryNodeSnapshot → result bool) :=
  match isQueryWhereObject fn with
  | Some fields => objectToPredicate fields
  | None => match fn with WFunction fn => Ok fn | _ => Throw (QueryError "E_QUERY_WHERE_TYPE") end
  end.

(* @src domain/services/query/QueryBuilder.ts assertLabel *)
Definition assertLabel (label : LabelArg) : result (option string) :=
  match label with
  | LNone => Ok None
  | LString s => Ok (Some s)
  | LOther => Throw (QueryError "E_QUERY_LABEL_TYPE")
  end.

(** [Number.isInteger(n) && n >= 0] *)
Definition non_negative_integer (n : jsnum) : option nat :=
  match n with JInt z => if (z <? 0)%Z then None else Some (Z.to_nat z) | _ => None end.

(* @src domain/services/query/QueryBuilder.ts normalizeDepth *)
Definition normalizeDepth (depth : DepthArg) : result (nat * nat) :=
  match depth with
  | DNone => Ok (1, 1)%nat
  | DNumber n =>
      match non_negative_integer n with
      | None => Throw (QueryError "E_QUERY_DEPTH_TYPE")
      | Some d => Ok (d, d)
      end
  | DArray [min; max] =>
      match non_negative_integer min, non_negative_integer max with
      | Some min, Some max =>
          if decide (max < min)%nat then Throw (QueryError "E_QUERY_DEPTH_RANGE") else Ok (min, max)
      | _, _ => Throw (QueryError "E_QUERY_DEPTH_TYPE")
      end
  | _ => Throw (QueryError "E_QUERY_DEPTH_TYPE")
  end.

Definition not_aggregated : step QueryBuilder unit :=
  b ← get;
  match _aggregate b with
  | Some _ => lift (Throw (QueryError "E_QUERY_AGGREGATE_TERMINAL"))
  | None => mret ()
  end.

Definition push_operation (op : QueryOperation) : step QueryBuilder unit :=
  modify (λ b, mk (_pattern b) (_operations b ++ [op]) (_select b) (_aggregate b)).

(* @src domain/services/query/QueryBuilder.ts match 183-187 *)
Definition match_ (pattern : PatternArg) : step QueryBuilder unit :=
  p ← lift (assertMatchPattern pattern);
  modify (λ b, mk (Some p) (_operations b) (_select b) (_aggregate b)).

(* @src domain/services/query/QueryBuilder.ts where 189-193 *)
Definition where_ (fn : WhereArg) : step QueryBuilder unit :=
  predicate ← lift (createPredicate fn);
  push_operation (Where predicate).

(* @src domain/services/query/QueryBuilder.ts outgoing 195-205 *)
Definition outgoing (label : LabelArg) (depth : DepthArg) : step QueryBuilder unit :=
  _ ← not_aggregated;
  label ← lift (assertLabel label);
  depth ← lift (normalizeDepth depth);
  push_operation (Traverse QueryPlan.outgoing label depth).

(* @src domain/services/query/QueryBuilder.ts incoming 207-217 *)
Definition incoming (label : LabelArg) (depth : DepthArg) : step QueryBuilder unit :=
  _ ← not_aggregated;
  label ← lift (assertLabel label);
  depth ← lift (normalizeDepth depth);
  push_operation (Traverse QueryPlan.incoming label depth).

(* @src domain/services/query/QueryBuilder.ts select 219-237 *)
Definition select_ (fields : SelectArg) : step QueryBuilder unit :=
  _ ← not_aggregated;
  match fields with
  | SNone => modify (λ b, mk (_pattern b) (_operations b) None (_aggregate b))
  | SList l => modify (λ b, mk (_pattern b) (_operations b) (Some l) (_aggregate b))
  | SOther => lift (Throw (QueryError "E_QUERY_SELECT_TYPE"))
  end.

(* @src domain/services/query/QueryBuilder.ts assertAggregateSpec *)
Definition assertAggregateSpec (spec : option SpecArg) : result SpecArg :=
  match spec with None => Throw (QueryError "E_QUERY_AGGREGATE_TYPE") | Some spec => Ok spec end.

(** A field that is set has to be a path. *)
Definition path_field (value : option FieldArg) : result (option string) :=
  match value with
  | None => Ok None
  | Some (FString s) => Ok (Some s)
  | Some _ => Throw (QueryError "E_QUERY_AGGREGATE_TYPE")
  end.

Definition count_field (value : option FieldArg) : result (option bool) :=
  match value with
  | None => Ok None
  | Some (FBool b) => Ok (Some b)
  | Some _ => Throw (QueryError "E_QUERY_AGGREGATE_TYPE")
  end.

(* @src domain/services/query/QueryBuilder.ts aggregate 239-258 *)
Definition aggregate_ (spec : option SpecArg) : step QueryBuilder unit :=
  spec ← lift (assertAggregateSpec spec);
  sum ← lift (path_field (a_sum spec));
  avg ← lift (path_field (a_avg spec));
  min ← lift (path_field (a_min spec));
  max ← lift (path_field (a_max spec));
  count ← lift (count_field (a_count spec));
  modify (λ b, mk (_pattern b) (_operations b) (_select b) (Some (mkAggregate count sum avg min max))).

(** A plan holds the pattern, the selection and the specification of its time,
    but the array of operations is the one of the builder. *)
Record PlanHandle := mkHandle {
  ph_pattern : string + list string;
  ph_select : option (list string);
  ph_aggregate : option AggregateSpec;
}.

(* @src domain/services/query/QueryBuilder.ts toPlan 166-173 *)
Definition toPlan (b : QueryBuilder) : PlanHandle :=
  mkHandle (default (inl "*") (_pattern b)) (_select b) (_aggregate b).

(** The plan as it reads while its builder is in the state [b]. *)
(* @src domain/services/query/QueryPlan.ts constructor 55-67 *)
Definition read_plan (p : PlanHandle) (b : QueryBuilder) : QueryPlan :=
  mkPlan (ph_pattern p) (_operations b) (ph_select p) (ph_aggregate p).

(* @src domain/services/query/QueryBuilder.ts supportRule 175-177 *)
Definition supportRule (b : QueryBuilder) : result BoundedSupportRule.BoundedSupportRule :=
  BoundedSupportRule.fromQueryPlan (read_plan (toPlan b) b).

(* @src domain/services/query/QueryBuilder.ts supportFragmentPlan 179-181 *)
Definition supportFragmentPlan (b : QueryBuilder) : result SupportFragmentPlan.SupportFragmentPlan :=
  rule ← supportRule b; SupportFragmentPlan.fromSupportRule rule.

(** The builder is not called while the query runs. *)
(* @src domain/services/query/QueryBuilder.ts run 260-263 *)
Definition run (provider : QueryRunner.Provider) (b : QueryBuilder) : result QueryRunner.Answer :=
  QueryRunner.run provider (read_plan (toPlan b) b).

(** A call of the builder. *)
Inductive Call :=
  | CMatch (pattern : PatternArg)
  | CWhere (fn : WhereArg)
  | COutgoing (label : LabelArg) (depth : DepthArg)
  | CIncoming (label : LabelArg) (depth : DepthArg)
  | CSelect (fields : SelectArg)
  | CAggregate (spec : option SpecArg).

Definition call (c : Call) : step QueryBuilder unit :=
  match c with
  | CMatch pattern => match_ pattern
  | CWhere fn => where_ fn
  | COutgoing label depth => outgoing label depth
  | CIncoming label depth => incoming label depth
  | CSelect fields => select_ fields
  | CAggregate spec => aggregate_ spec
  end.

(** Calls one after the other; the caller goes on after a throw. *)
Definition after (b : QueryBuilder) (calls : list Call) : QueryBuilder := foldl (λ b c, (call c b).1) b calls.
End QueryBuilder.

(** ** What the builder makes *)
Section builder.
Import QueryPlan QueryBuilder.

(** The operation that a call adds. *)
Definition adds (c : Call) (op : QueryOperation) : Prop :=
  match c, op with
  | CWhere (WFunction fn), Where p => p = fn
  | CWhere (WValue (Snapshot.SnObject fields)), Where p =>
      Forall (λ e, isPrimitive e.2 = true) fields ∧
      ∀ node, p node = Ok true ↔
        ∀ key value, (key, value) ∈ fields → ∃ x, props node !! key = Some x ∧ strict_equals x value = true
  | COutgoing label depth, Traverse t l d =>
      t = QueryPlan.outgoing ∧ assertLabel label = Ok l ∧ normalizeDepth depth = Ok d ∧ (d.1 <= d.2)%nat
  | CIncoming label depth, Traverse t l d =>
      t = QueryPlan.incoming ∧ assertLabel label = Ok l ∧ normalizeDepth depth = Ok d ∧ (d.1 <= d.2)%nat
  | _, _ => False
  end.

Definition traversal_call (c : Call) : Prop :=
  match c with COutgoing _ _ | CIncoming _ _ | CSelect _ => True | _ => False end.

Lemma normalizeDepth_ordered depth d : normalizeDepth depth = Ok d → (d.1 <= d.2)%nat.
Proof.
  destruct depth as [|n|l|]; simpl; [by intros [= <-]| | |done].
  - destruct (non_negative_integer n); [|done]. by intros [= <-].
  - destruct l as [|a [|b [|]]]; try done. destruct (non_negative_integer a) as [x|]; [|done].
    destruct (non_negative_integer b) as [y|]; [|done]. case_decide; [done|]. intros [= <-]. simpl. lia.
Qed.

Lemma objectToPredicate_spec fields p :
  objectToPredicate fields = Ok p → adds (CWhere (WValue (Snapshot.SnObject fields))) (Where p).
Proof.
  unfold objectToPredicate. destruct (forallb _ fields) eqn:E; [|done]. cbn [require mbind result_bind].
  intros [= <-]. split.
  - apply Forall_forall. intros e He. rewrite List.forallb_forall in E. by apply E, list_elem_of_In.
  - intros node. split.
    + intros [= Ht] key value Hin. rewrite List.forallb_forall in Ht.
      apply list_elem_of_In, Ht in Hin. cbv beta iota in Hin. destruct (props node !! key) as [x|]; [by exists x|done].
    + intros Hall. f_equal. apply List.forallb_forall. intros [key value] Hin%list_elem_of_In.
      destruct (Hall key value Hin) as (x & -> & ?). done.
Qed.

(** What an accepted call sets. *)
Definition adds_op (c : Call) : bool :=
  match c with CWhere _ | COutgoing _ _ | CIncoming _ _ => true | _ => false end.

Definition pattern_of (c : Call) : option (string + list string) :=
  match c with CMatch (PString p) => Some (inl p) | CMatch (PStrings l) => Some (inr l) | _ => None end.

Definition selection_of (c : Call) : option (option (list string)) :=
  match c with CSelect SNone => Some None | CSelect (SList l) => Some (Some l) | _ => None end.

Definition text_of (f : option FieldArg) : option string :=
  match f with Some (FString s) => Some s | _ => None end.

Definition aggregates_of (c : Call) : option AggregateSpec :=
  match c with
  | CAggregate (Some a) =>
      Some (mkAggregate (match a_count a with Some (FBool b) => Some b | _ => None end)
        (text_of (a_sum a)) (text_of (a_avg a)) (text_of (a_min a)) (text_of (a_max a)))
  | _ => None
  end.

(** The calls that do not throw, one after the other. *)
Fixpoint accepted (b : QueryBuilder) (calls : list Call) : list Call :=
  match calls with
  | [] => []
  | c :: rest =>
      match call c b with
      | (b', Ok _) => c :: accepted b' rest
      | (b', Throw _) => accepted b' rest
      end
  end.

(** An accepted call. *)
Record effect (c : Call) (b b' : QueryBuilder) : Prop := {
  e_ops : ∃ ops, _operations b' = _operations b ++ ops ∧ Forall2 adds (filter adds_op [c]) ops;
  e_pattern : _pattern b' = match pattern_of c with Some p => Some p | None => _pattern b end;
  e_select : _select b' = default (_select b) (selection_of c);
  e_aggregate : _aggregate b' = match aggregates_of c with Some a => Some a | None => _aggregate b end;
  e_terminal : traversal_call c → _aggregate b = None;
}.

Lemma path_field_ok f s : path_field f = Ok s → s = text_of f.
Proof. destruct f as [[]|]; simpl; by intros [= <-]. Qed.

Lemma count_field_ok f s : count_field f = Ok s → s = match f with Some (FBool b) => Some b | _ => None end.
Proof. destruct f as [[]|]; simpl; by intros [= <-]. Qed.

(** A call that keeps the operations. *)
Lemma effect_keeps c b b' :
  adds_op c = false → _operations b' = _operations b →
  _pattern b' = match pattern_of c with Some p => Some p | None => _pattern b end →
  _select b' = default (_select b) (selection_of c) →
  _aggregate b' = match aggregates_of c with Some a => Some a | None => _aggregate b end →
  (traversal_call c → _aggregate b = None) → effect c b b'.
Proof.
  intros Hc Ho Hp Hs Ha Ht. split; [|done..]. exists []. rewrite app_nil_r. split; [done|].
  assert (filter adds_op [c] = []) as -> by (rewrite filter_cons; by destruct (adds_op c)). constructor.
Qed.

(** A call that adds an operation. *)
Lemma effect_adds c op b :
  adds c op → adds_op c = true → pattern_of c = None → selection_of c = None → aggregates_of c = None →
  (traversal_call c → _aggregate b = None) →
  effect c b (mk (_pattern b) (_operations b ++ [op]) (_select b) (_aggregate b)).
Proof.
  intros Hop Hc Hp Hs Ha Ht. split; rewrite ?Hp, ?Hs, ?Ha; try done. exists [op]. split; [done|].
  assert (filter adds_op [c] = [c]) as -> by (rewrite filter_cons; by destruct (adds_op c)). by repeat constructor.
Qed.

Definition outcome_ok (c : Call) (b : QueryBuilder) (r : QueryBuilder * result unit) : Prop :=
  match r with
  | (b', Ok _) => effect c b b'
  | (b', Throw e) => b' = b ∧ err_class e = "QueryError"
  end.

Lemma traversal_effect t c label depth b :
  adds_op c = true → pattern_of c = None → selection_of c = None → aggregates_of c = None →
  (∀ l d, assertLabel label = Ok l → normalizeDepth depth = Ok d → adds c (Traverse t l d)) →
  outcome_ok c b ((_ ← not_aggregated; label ← lift (assertLabel label); depth ← lift (normalizeDepth depth);
    push_operation (Traverse t label depth)) b).
Proof.
  intros H1 H2 H3 H4 Hadds. unfold not_aggregated, mbind, step_bind, get, lift.
  destruct (_aggregate b) eqn:Ea; [done|]. cbn [mret step_ret].
  destruct (assertLabel label) as [l|e] eqn:El; [|by destruct label; simplify_eq/=].
  destruct (normalizeDepth depth) as [d|e] eqn:Ed.
  - apply effect_adds; auto.
  - split; [done|]. destruct depth as [|n|[|x [|y [|]]]|]; simpl in Ed; try by simplify_eq.
    + destruct (non_negative_integer n); by simplify_eq.
    + destruct (non_negative_integer x); [|by simplify_eq]. destruct (non_negative_integer y); [|by simplify_eq].
      case_decide; by simplify_eq.
Qed.

Lemma path_field_error f e : path_field f = Throw e → err_class e = "QueryError".
Proof. destruct f as [[]|]; simpl; intros; by simplify_eq. Qed.

Lemma call_effect c b : outcome_ok c b (call c b).
Proof.
  destruct c as [pattern|fn|label depth|label depth|fields|spec]; cbn [call].
  - destruct pattern; [by apply effect_keeps..|done].
  - unfold where_, mbind, step_bind, lift. destruct (createPredicate fn) as [p|e] eqn:E.
    + apply effect_adds; [|done..]. unfold createPredicate in E. destruct fn as [fn|v|]; [by injection E as <-| |done].
      destruct v; try done. by apply objectToPredicate_spec.
    + split; [done|]. unfold createPredicate, objectToPredicate in E.
      destruct fn as [fn|[]|]; simpl in E; try by simplify_eq. destruct (forallb _ _); by simplify_eq/=.
  - apply traversal_effect; try done. intros l d El Ed. split; [done|]. split; [done|]. split; [done|].
    by eapply normalizeDepth_ordered.
  - apply traversal_effect; try done. intros l d El Ed. split; [done|]. split; [done|]. split; [done|].
    by eapply normalizeDepth_ordered.
  - unfold select_, not_aggregated, mbind, step_bind, get, lift. destruct (_aggregate b) eqn:Ea; [done|].
    destruct fields; [by apply effect_keeps..|done].
  - destruct spec as [spec|]; [|done]. unfold aggregate_, mbind, step_bind, lift. cbn [assertAggregateSpec].
    destruct (path_field (a_sum spec)) as [sum|e] eqn:E1; [|split; [done|by eapply path_field_error]].
    destruct (path_field (a_avg spec)) as [avg|e] eqn:E2; [|split; [done|by eapply path_field_error]].
    destruct (path_field (a_min spec)) as [min|e] eqn:E3; [|split; [done|by eapply path_field_error]].
    destruct (path_field (a_max spec)) as [max|e] eqn:E4; [|split; [done|by eapply path_field_error]].
    destruct (count_field (a_count spec)) as [count|e] eqn:E5.
    + apply path_field_ok in E1, E2, E3, E4. apply count_field_ok in E5. apply effect_keeps; try done.
      simpl. by subst.
    + split; [done|]. destruct (a_count spec) as [[]|]; simpl in E5; by simplify_eq.
Qed.

(** The builder after calls that start anywhere. *)
Lemma after_spec b calls :
  let b' := after b calls in
  let acc := accepted b calls in
  (∃ ops, _operations b' = _operations b ++ ops ∧ Forall2 adds (filter adds_op acc) ops) ∧
  _pattern b' = match last (omap pattern_of acc) with Some p => Some p | None => _pattern b end ∧
  _select b' = default (_select b) (last (omap selection_of acc)) ∧
  _aggregate b' = match last (omap aggregates_of acc) with Some a => Some a | None => _aggregate b end ∧
  (∀ l1 c l2, acc = l1 ++ c :: l2 → traversal_call c → _aggregate b = None ∧ omap aggregates_of l1 = []).
Proof.
  cbn zeta. revert b. induction calls as [|c calls IH]; intros b.
  { split; [by exists []; rewrite app_nil_r|]. do 3 (split; [done|]). by intros [|]. }
  cbn [after foldl accepted]. pose proof (call_effect c b) as Hc. unfold outcome_ok in Hc.
  destruct (call c b) as [b1 [[]|e]]; [|destruct Hc as [-> _]; apply IH].
  destruct (IH b1) as ((ops & Eo & Hops) & Hp & Hs & Ha & Ht). unfold after in *. cbn [fst] in *.
  destruct Hc as [(ops1 & Eo1 & Hops1) Hp1 Hs1 Ha1 Ht1].
  assert (∀ {A} (f : Call → option A) l, last (omap f (c :: l)) =
    match last (omap f l) with Some x => Some x | None => f c end) as Hlast.
  { intros A f l. csimpl. destruct (f c) as [x|]; [|by destruct (last (omap f l))]. by rewrite last_cons. }
  rewrite !Hlast. split; [|split; [|split; [|split]]].
  - exists (ops1 ++ ops). rewrite Eo, Eo1, app_assoc. split; [done|].
    change (c :: accepted b1 calls) with ([c] ++ accepted b1 calls). rewrite filter_app. by apply Forall2_app.
  - rewrite Hp, Hp1. by destruct (last (omap pattern_of (accepted b1 calls))).
  - rewrite Hs, Hs1. by destruct (last (omap selection_of (accepted b1 calls))).
  - rewrite Ha, Ha1. by destruct (last (omap aggregates_of (accepted b1 calls))).
  - intros [|c1 l1] c' l2 [= <- E] Hc'; [by split; [apply Ht1|]|].
    destruct (Ht l1 c' l2 E Hc') as [Hn Ho]. rewrite Ha1 in Hn. csimpl. destruct (aggregates_of c) as [a|]; [done|].
    split; [done|exact Ho].
Qed.
End builder.

(** The plan of a builder after any calls is made of the calls it accepted:
    one operation for each filter and traversal, in their order, whose depths
    are integers in order and whose predicate accepts exactly the nodes with
    the given properties; the last pattern, selection and aggregates; and no
    traversal or selection was accepted after aggregates were set. A call that
    is not accepted throws a query error and changes nothing. *)
Theorem query_builder_plan (calls : list QueryBuilder.Call) :
  let b := QueryBuilder.after QueryBuilder.new calls in
  let acc := accepted QueryBuilder.new calls in
  let plan := QueryBuilder.read_plan (QueryBuilder.toPlan b) b in
  Forall2 adds (filter adds_op acc) (QueryPlan.operations plan) ∧
  QueryPlan.pattern plan = default (inl "*") (last (omap pattern_of acc)) ∧
  QueryPlan.select plan = default None (last (omap selection_of acc)) ∧
  QueryPlan.aggregate plan = last (omap aggregates_of acc) ∧
  (∀ l1 c l2, acc = l1 ++ c :: l2 → traversal_call c → omap aggregates_of l1 = []) ∧
  (∀ c, match QueryBuilder.call c b with
        | (b', Throw e) => b' = b ∧ err_class e = "QueryError"
        | _ => True
        end).
Proof.
  cbn zeta. destruct (after_spec QueryBuilder.new calls) as ((ops & Eo & Hops) & Hp & Hs & Ha & Ht).
  split; [|split; [|split; [|split; [|split]]]].
  - simpl in Eo |- *. by rewrite Eo.
  - simpl. rewrite Hp. by destruct (last (omap pattern_of _)).
  - simpl. by rewrite Hs.
  - simpl. rewrite Ha. by destruct (last (omap aggregates_of _)).
  - intros l1 c l2 E Hc. by destruct (Ht l1 c l2 E Hc).
  - intros c. pose proof (call_effect c (QueryBuilder.after QueryBuilder.new calls)) as Hc. unfold outcome_ok in Hc.
    by destruct (QueryBuilder.call c _) as [b' [|]].
Qed.

(** A plan that was made reads differently after its builder was called again. *)
Lemma plan_follows_builder :
  let b := QueryBuilder.after QueryBuilder.new [QueryBuilder.CMatch (QueryBuilder.PString "n1")] in
  let plan := QueryBuilder.toPlan b in
  let b' := QueryBuilder.after b [QueryBuilder.COutgoing QueryBuilder.LNone QueryBuilder.DNone] in
  QueryPlan.operations (QueryBuilder.read_plan plan b) = [] ∧
  QueryPlan.operations (QueryBuilder.read_plan plan b') = [QueryPlan.Traverse QueryPlan.outgoing None (1, 1)%nat].
Proof. split; vm_compute; reflexivity. Qed.
