(* ===== verification/WriteIntents.v ===== *)
(** What a write names before it becomes an operation: copies of property
    values ([types/PropValue.ts]), legacy property keys and values, and the
    intents that write a node or an edge property ([src/domain/graph/]). Then content
    attachments and canonical JSON texts. *)
From S2P Require Export ReadModel SessionRefinement Texts PropValue KeyCodec.
#[local] Open Scope string_scope.
#[local] Open Scope list_scope.
Import SessionReducer.

(** ** Copies *)
Module CopyPropValue.

(** Every composite is copied, byte arrays too. *)
(* @src domain/types/PropValue.ts copyCompositePropValue *)
Definition copyCompositePropValue (rec : jsval → step heap jsval) (a : N) : step heap jsval :=
  h ← get;
  match h !! a with
  | Some (OBytes bytes) => alloc (OBytes bytes)
  | Some (OArray items) => items' ← map_step rec items; alloc (OArray items')
  | Some (OPlain fields) | Some (OOther fields) =>
      fields' ← map_step (copy_field rec) fields; alloc (OPlain fields')
  | None => mret (JRef a)
  end.

(** The call stack is exhausted on cyclic values only. *)
(* @src domain/types/PropValue.ts copyPropValue *)
Fixpoint copyPropValue (fuel : nat) (value : jsval) : step heap jsval :=
  match fuel with
  | O => lift (Throw StackOverflow)
  | S fuel' =>
      match value with
      | JRef a => copyCompositePropValue (copyPropValue fuel') a
      | _ => mret value
      end
  end.

(** A call of the copier: a tree is no higher than the heap is large. *)
Definition copy (value : jsval) : step heap jsval := λ h, copyPropValue (S (size h)) value h.
End CopyPropValue.

Module LegacyPropertyValue.
Import CopyPropValue.

(* @src domain/graph/LegacyPropertyValue.ts LegacyPropertyValue 5-6 *)
Record LegacyPropertyValue := mk { value : jsval }.

(* @src domain/graph/LegacyPropertyValue.ts constructor *)
Definition new (value : jsval) : step heap LegacyPropertyValue :=
  h ← get;
  value ← lift (NodePropertyProjection.requirePropValue h value);
  own ← copy value;
  mret (mk own).

(* @src domain/graph/LegacyPropertyValue.ts toPropValue *)
Definition toPropValue (v : LegacyPropertyValue) : step heap jsval := copy (value v).
End LegacyPropertyValue.

(** ** Keys *)

(* @src domain/graph/LegacyContentPropertyKeys.ts CONTENT_PROPERTY_KEY *)
Definition CONTENT_PROPERTY_KEY : string := "_content".
(* @src domain/graph/LegacyContentPropertyKeys.ts CONTENT_MIME_PROPERTY_KEY *)
Definition CONTENT_MIME_PROPERTY_KEY : string := "_content.mime".
(* @src domain/graph/LegacyContentPropertyKeys.ts CONTENT_SIZE_PROPERTY_KEY *)
Definition CONTENT_SIZE_PROPERTY_KEY : string := "_content.size".

Module LegacyPropertyKey.

(* @src domain/graph/LegacyPropertyKeyClassification.ts LegacyPropertyKeyClassification 15-19 *)
Inductive Classification :=
  | LEGACY_PROPERTY_KEY_USER
  | LEGACY_PROPERTY_KEY_CONTENT_OID
  | LEGACY_PROPERTY_KEY_CONTENT_MIME
  | LEGACY_PROPERTY_KEY_CONTENT_SIZE.

#[global] Instance Classification_eq_dec : EqDecision Classification.
Proof. solve_decision. Defined.

(* @src domain/graph/LegacyPropertyKeyClassification.ts classifyLegacyPropertyKey *)
Definition classifyLegacyPropertyKey (value : string) : Classification :=
  if decide (value = CONTENT_PROPERTY_KEY) then LEGACY_PROPERTY_KEY_CONTENT_OID
  else if decide (value = CONTENT_MIME_PROPERTY_KEY) then LEGACY_PROPERTY_KEY_CONTENT_MIME
  else if decide (value = CONTENT_SIZE_PROPERTY_KEY) then LEGACY_PROPERTY_KEY_CONTENT_SIZE
  else LEGACY_PROPERTY_KEY_USER.

(* @src domain/graph/LegacyPropertyKeyClassification.ts isContentCompatibilityClassification *)
Definition isContentCompatibilityClassification (c : Classification) : bool :=
  bool_decide (c = LEGACY_PROPERTY_KEY_CONTENT_OID)
  || bool_decide (c = LEGACY_PROPERTY_KEY_CONTENT_MIME)
  || bool_decide (c = LEGACY_PROPERTY_KEY_CONTENT_SIZE).
End LegacyPropertyKey.

Module LegacyNodePropertyKey.
Import LegacyPropertyKey.

(* @src domain/graph/LegacyNodePropertyKey.ts LegacyNodePropertyKey 9-10 *)
Record LegacyNodePropertyKey := mk { value : string }.

(* @src domain/graph/LegacyNodePropertyKey.ts constructor *)
Definition new (value : string) : result LegacyNodePropertyKey :=
  v ← NodePropertyProjection.requireLegacyPropertyKeyValue value; Ok (mk v).

(* @src domain/graph/LegacyNodePropertyKey.ts toString *)
Definition toString (k : LegacyNodePropertyKey) : string := value k.

(* @src domain/graph/LegacyNodePropertyKey.ts classification *)
Definition classification (k : LegacyNodePropertyKey) : Classification :=
  classifyLegacyPropertyKey (value k).

(* @src domain/graph/LegacyNodePropertyKey.ts isContentCompatibilityKey *)
Definition isContentCompatibilityKey (k : LegacyNodePropertyKey) : bool :=
  isContentCompatibilityClassification (classification k).

(* @src domain/graph/LegacyNodePropertyKey.ts equals *)
Definition equals (k : LegacyNodePropertyKey) (other : option LegacyNodePropertyKey) : bool :=
  match other with None => false | Some o => String.eqb (value k) (value o) end.
End LegacyNodePropertyKey.

Module LegacyEdgePropertyKey.
Import LegacyPropertyKey.

(* @src domain/graph/LegacyEdgePropertyKey.ts LegacyEdgePropertyKey 9-10 *)
Record LegacyEdgePropertyKey := mk { value : string }.

(* @src domain/graph/LegacyEdgePropertyKey.ts constructor *)
Definition new (value : string) : result LegacyEdgePropertyKey :=
  v ← NodePropertyProjection.requireLegacyPropertyKeyValue value; Ok (mk v).

(* @src domain/graph/LegacyEdgePropertyKey.ts toString *)
Definition toString (k : LegacyEdgePropertyKey) : string := value k.

(* @src domain/graph/LegacyEdgePropertyKey.ts classification *)
Definition classification (k : LegacyEdgePropertyKey) : Classification :=
  classifyLegacyPropertyKey (value k).

(* @src domain/graph/LegacyEdgePropertyKey.ts isContentCompatibilityKey *)
Definition isContentCompatibilityKey (k : LegacyEdgePropertyKey) : bool :=
  isContentCompatibilityClassification (classification k).

(* @src domain/graph/LegacyEdgePropertyKey.ts equals *)
Definition equals (k : LegacyEdgePropertyKey) (other : option LegacyEdgePropertyKey) : bool :=
  match other with None => false | Some o => String.eqb (value k) (value o) end.
End LegacyEdgePropertyKey.

(** ** Property intents *)
Module NodePropertyWriteIntent.

(* @src domain/graph/NodePropertyWriteIntent.ts NodePropertyWriteIntent 14-17 *)
Record NodePropertyWriteIntent := mk {
  owner : NodeRecord.NodeRecord;
  key : LegacyNodePropertyKey.LegacyNodePropertyKey;
  value : LegacyPropertyValue.LegacyPropertyValue }.

(** The three fields are instances. *)
(* @src domain/graph/NodePropertyWriteIntent.ts constructor *)
Definition new (owner : option NodeRecord.NodeRecord)
    (key : option LegacyNodePropertyKey.LegacyNodePropertyKey)
    (value : option LegacyPropertyValue.LegacyPropertyValue) : result NodePropertyWriteIntent :=
  o ← instance_of owner; k ← instance_of key; v ← instance_of value; Ok (mk o k v).

(* @src domain/graph/NodePropertyWriteIntent.ts fromLegacyProperty *)
Definition fromLegacyProperty (nodeId key : string) (value : jsval)
    : step heap NodePropertyWriteIntent :=
  owner ← lift (NodeRecord.fromLegacyNodeId (Some nodeId));
  key ← lift (LegacyNodePropertyKey.new key);
  value ← LegacyPropertyValue.new value;
  lift (new (Some owner) (Some key) (Some value)).

(* @src domain/graph/NodePropertyWriteIntent.ts nodeId *)
Definition nodeId (i : NodePropertyWriteIntent) : string := NodeId.toString (NodeRecord.id (owner i)).

(* @src domain/graph/NodePropertyWriteIntent.ts propertyKey *)
Definition propertyKey (i : NodePropertyWriteIntent) : string :=
  LegacyNodePropertyKey.toString (key i).

(* @src domain/graph/NodePropertyWriteIntent.ts propertyValue *)
Definition propertyValue (i : NodePropertyWriteIntent) : step heap jsval :=
  LegacyPropertyValue.toPropValue (value i).
End NodePropertyWriteIntent.

Module EdgePropertyWriteIntent.

(* @src domain/graph/EdgePropertyWriteIntent.ts EdgePropertyWriteIntent 21-24 *)
Record EdgePropertyWriteIntent := mk {
  owner : EdgeRecord.EdgeRecord;
  key : LegacyEdgePropertyKey.LegacyEdgePropertyKey;
  value : LegacyPropertyValue.LegacyPropertyValue }.

(* @src domain/graph/EdgePropertyWriteIntent.ts constructor *)
Definition new (owner : option EdgeRecord.EdgeRecord)
    (key : option LegacyEdgePropertyKey.LegacyEdgePropertyKey)
    (value : option LegacyPropertyValue.LegacyPropertyValue) : result EdgePropertyWriteIntent :=
  o ← instance_of owner; k ← instance_of key; v ← instance_of value; Ok (mk o k v).

(* @src domain/graph/EdgePropertyWriteIntent.ts fromLegacyProperty *)
Definition fromLegacyProperty (edge : edge_parts) (key : string) (value : jsval)
    : step heap EdgePropertyWriteIntent :=
  owner ← lift (EdgeRecord.fromLegacyEdge edge);
  key ← lift (LegacyEdgePropertyKey.new key);
  value ← LegacyPropertyValue.new value;
  lift (new (Some owner) (Some key) (Some value)).

(* @src domain/graph/EdgePropertyWriteIntent.ts edgeTarget *)
Definition edgeTarget (i : EdgePropertyWriteIntent) : edge_parts :=
  EdgeParts (NodeId.toString (EdgeRecord.from (owner i))) (NodeId.toString (EdgeRecord.to (owner i)))
    (EdgeTypeId.toString (EdgeRecord.typeId (owner i))).

(* @src domain/graph/EdgePropertyWriteIntent.ts propertyKey *)
Definition propertyKey (i : EdgePropertyWriteIntent) : string :=
  LegacyEdgePropertyKey.toString (key i).

(* @src domain/graph/EdgePropertyWriteIntent.ts propertyValue *)
Definition propertyValue (i : EdgePropertyWriteIntent) : step heap jsval :=
  LegacyPropertyValue.toPropValue (value i).
End EdgePropertyWriteIntent.

(** ** Content attachments ([src/domain/graph/ContentAttachment*.ts],
    [services/PatchBuilderValidation.ts], [services/PatchBuilderContent.ts],
    [storage/StorageHandle.ts], [utils/streamUtils.ts]): how content is described,
    staged in the asset storage and bound to its owner. *)
#[local] Open Scope string_scope.
#[local] Open Scope list_scope.

(** ** Handles, MIME hints, sizes *)
Module StorageHandle.

(** Also the class [AssetHandle] and [ContentAttachmentHandle], which extend it. *)
(* @src domain/storage/StorageHandle.ts StorageHandle 6-7 *)
Record StorageHandle := mk { token : string }.

#[global] Instance StorageHandle_eq_dec : EqDecision StorageHandle.
Proof. solve_decision. Defined.

(* @src domain/storage/StorageHandle.ts MAX_HANDLE_LENGTH *)
Definition MAX_HANDLE_LENGTH : Z := 4096.

Definition E_STORAGE_HANDLE : error := WarpError "E_STORAGE_HANDLE".

(* @src domain/storage/StorageHandle.ts requireBoundedToken *)
Definition requireBoundedToken (token : string) : result unit :=
  require (Z.of_nat (String.length token) <=? MAX_HANDLE_LENGTH)%Z E_STORAGE_HANDLE.

(* @src domain/storage/StorageHandle.ts requireSingleLineToken *)
Definition requireSingleLineToken (token : string) : result unit :=
  require (negb (str_includes FIELD_SEPARATOR token
    || str_includes "013"%char token || str_includes "010"%char token)) E_STORAGE_HANDLE.

(* @src domain/storage/StorageHandle.ts requireHandleToken *)
Definition requireHandleToken (token : string) : result unit :=
  _ ← require (str_nonempty token) E_STORAGE_HANDLE;
  _ ← requireBoundedToken token;
  requireSingleLineToken token.

(* @src domain/storage/StorageHandle.ts constructor *)
Definition new (token : string) : result StorageHandle :=
  _ ← requireHandleToken token; Ok (mk token).

(* @src domain/storage/StorageHandle.ts toString *)
Definition toString (h : StorageHandle) : string := token h.

(* @src domain/storage/StorageHandle.ts equals *)
Definition equals (h : StorageHandle) (other : option StorageHandle) : bool :=
  match other with None => false | Some o => String.eqb (token o) (token h) end.
End StorageHandle.

Module ContentAttachmentMime.

(* @src domain/graph/ContentAttachmentMime.ts ContentAttachmentMime 6-7 *)
Record ContentAttachmentMime := mk { value : string }.

(** A value that is not a string is [None]. *)
(* @src domain/graph/ContentAttachmentMime.ts requireMimeValue *)
Definition requireMimeValue (value : option string) : result string :=
  match value with
  | None => Throw E_VALIDATION
  | Some v =>
      _ ← require (str_nonempty v) E_VALIDATION;
      _ ← require (negb (str_includes FIELD_SEPARATOR v)) E_VALIDATION;
      Ok v
  end.

(* @src domain/graph/ContentAttachmentMime.ts constructor *)
Definition new (value : option string) : result ContentAttachmentMime :=
  v ← requireMimeValue value; Ok (mk v).

(* @src domain/graph/ContentAttachmentMime.ts toString *)
Definition toString (m : ContentAttachmentMime) : string := value m.

(* @src domain/graph/ContentAttachmentMime.ts equals *)
Definition equals (m : ContentAttachmentMime) (other : option ContentAttachmentMime) : bool :=
  match other with None => false | Some o => String.eqb (value m) (value o) end.
End ContentAttachmentMime.

Module ContentAttachmentSize.

(* @src domain/graph/ContentAttachmentSize.ts ContentAttachmentSize 4-5 *)
Record ContentAttachmentSize := mk { value : Z }.

(** A value that is not a number is [None]. *)
(* @src domain/graph/ContentAttachmentSize.ts requireSizeValue *)
Definition requireSizeValue (value : option jsnum) : result Z :=
  match value with
  | Some (JInt z) => _ ← require (0 <=? z)%Z E_VALIDATION; Ok z
  | _ => Throw E_VALIDATION
  end.

(* @src domain/graph/ContentAttachmentSize.ts constructor *)
Definition new (value : option jsnum) : result ContentAttachmentSize :=
  v ← requireSizeValue value; Ok (mk v).

(* @src domain/graph/ContentAttachmentSize.ts toNumber *)
Definition toNumber (s : ContentAttachmentSize) : Z := value s.

(* @src domain/graph/ContentAttachmentSize.ts equals *)
Definition equals (s : ContentAttachmentSize) (other : option ContentAttachmentSize) : bool :=
  match other with None => false | Some o => (value s =? value o)%Z end.
End ContentAttachmentSize.

Export StorageHandle(StorageHandle).
Export ContentAttachmentMime(ContentAttachmentMime).
Export ContentAttachmentSize(ContentAttachmentSize).

(** ** Payloads and records *)
Module ContentAttachmentPayload.

(* @src domain/graph/ContentAttachmentPayload.ts ContentAttachmentPayload 14-17 *)
Record ContentAttachmentPayload := mk {
  handle : StorageHandle;
  mime : option ContentAttachmentMime;
  size : option ContentAttachmentSize }.

(* @src domain/graph/ContentAttachmentPayload.ts requireHandle *)
Definition requireHandle (value : option StorageHandle) : result StorageHandle :=
  instance_of value.

(** Absent, an instance, or anything else. *)
Inductive optional_instance (A : Type) :=
  | Absent
  | Present (a : A)
  | Foreign.
Arguments Absent {A}.
Arguments Present {A} a.
Arguments Foreign {A}.

(* @src domain/graph/ContentAttachmentPayload.ts requireMime *)
Definition requireMime (value : optional_instance ContentAttachmentMime)
    : result (option ContentAttachmentMime) :=
  match value with Absent => Ok None | Present m => Ok (Some m) | Foreign => Throw E_VALIDATION end.

(* @src domain/graph/ContentAttachmentPayload.ts requireSize *)
Definition requireSize (value : optional_instance ContentAttachmentSize)
    : result (option ContentAttachmentSize) :=
  match value with Absent => Ok None | Present s => Ok (Some s) | Foreign => Throw E_VALIDATION end.

(* @src domain/graph/ContentAttachmentPayload.ts constructor *)
Definition new (handle : option StorageHandle) (mime : optional_instance ContentAttachmentMime)
    (size : optional_instance ContentAttachmentSize) : result ContentAttachmentPayload :=
  h ← requireHandle handle; m ← requireMime mime; s ← requireSize size; Ok (mk h m s).

(* @src domain/graph/ContentAttachmentPayload.ts hasMime *)
Definition hasMime (p : ContentAttachmentPayload) : bool := bool_decide (is_Some (mime p)).
(* @src domain/graph/ContentAttachmentPayload.ts hasSize *)
Definition hasSize (p : ContentAttachmentPayload) : bool := bool_decide (is_Some (size p)).
End ContentAttachmentPayload.
Export ContentAttachmentPayload(ContentAttachmentPayload).

Module ContentAttachmentRecord.

(* @src domain/graph/ContentAttachmentRecord.ts ContentAttachmentRecord 14-16 *)
Record ContentAttachmentRecord := mk {
  owner : AttachmentRecord.AttachmentOwnerRecord;
  payload : ContentAttachmentPayload }.

(* @src domain/graph/ContentAttachmentRecord.ts requireOwner *)
Definition requireOwner (value : option AttachmentRecord.AttachmentOwnerRecord)
    : result AttachmentRecord.AttachmentOwnerRecord := instance_of value.

(* @src domain/graph/ContentAttachmentRecord.ts requirePayload *)
Definition requirePayload (value : option ContentAttachmentPayload)
    : result ContentAttachmentPayload := instance_of value.

(* @src domain/graph/ContentAttachmentRecord.ts constructor *)
Definition new (owner : option AttachmentRecord.AttachmentOwnerRecord)
    (payload : option ContentAttachmentPayload) : result ContentAttachmentRecord :=
  o ← requireOwner owner; p ← requirePayload payload; Ok (mk o p).

(* @src domain/graph/ContentAttachmentRecord.ts isNodeContent *)
Definition isNodeContent (r : ContentAttachmentRecord) : bool :=
  match owner r with AttachmentRecord.NodeOwner _ => true | AttachmentRecord.EdgeOwner _ => false end.
(* @src domain/graph/ContentAttachmentRecord.ts isEdgeContent *)
Definition isEdgeContent (r : ContentAttachmentRecord) : bool :=
  match owner r with AttachmentRecord.NodeOwner _ => false | AttachmentRecord.EdgeOwner _ => true end.
End ContentAttachmentRecord.

Module ContentAttachmentWriteIntent.
Import ContentAttachmentRecord.

(* @src domain/graph/ContentAttachmentWriteIntent.ts ContentAttachmentWriteIntent 15-16 *)
Record ContentAttachmentWriteIntent := mk { record : ContentAttachmentRecord }.

(* @src domain/graph/ContentAttachmentWriteIntent.ts requireRecord *)
Definition requireRecord (record : option ContentAttachmentRecord) : result ContentAttachmentRecord :=
  instance_of record.

(* @src domain/graph/ContentAttachmentWriteIntent.ts constructor *)
Definition new (record : option ContentAttachmentRecord) : result ContentAttachmentWriteIntent :=
  r ← requireRecord record; Ok (mk r).

(* @src domain/graph/ContentAttachmentWriteIntent.ts forNode *)
Definition forNode (nodeId : string) (payload : ContentAttachmentPayload)
    : result ContentAttachmentWriteIntent :=
  owner ← NodeRecord.fromLegacyNodeId (Some nodeId);
  r ← ContentAttachmentRecord.new (Some (AttachmentRecord.NodeOwner owner)) (Some payload);
  new (Some r).

(* @src domain/graph/ContentAttachmentWriteIntent.ts forEdge *)
Definition forEdge (edge : edge_parts) (payload : ContentAttachmentPayload)
    : result ContentAttachmentWriteIntent :=
  owner ← EdgeRecord.fromLegacyEdge edge;
  r ← ContentAttachmentRecord.new (Some (AttachmentRecord.EdgeOwner owner)) (Some payload);
  new (Some r).

(* @src domain/graph/ContentAttachmentWriteIntent.ts nodeId *)
Definition nodeId (i : ContentAttachmentWriteIntent) : result string :=
  match owner (record i) with
  | AttachmentRecord.NodeOwner n => Ok (NodeId.toString (NodeRecord.id n))
  | AttachmentRecord.EdgeOwner _ => Throw E_VALIDATION
  end.

(* @src domain/graph/ContentAttachmentWriteIntent.ts edgeTarget *)
Definition edgeTarget (i : ContentAttachmentWriteIntent) : result edge_parts :=
  match owner (record i) with
  | AttachmentRecord.EdgeOwner e => Ok (EdgeParts (NodeId.toString (EdgeRecord.from e)) (NodeId.toString (EdgeRecord.to e))
               (EdgeTypeId.toString (EdgeRecord.typeId e)))
  | AttachmentRecord.NodeOwner _ => Throw E_VALIDATION
  end.

(* @src domain/graph/ContentAttachmentWriteIntent.ts handle *)
Definition handle (i : ContentAttachmentWriteIntent) : StorageHandle :=
  ContentAttachmentPayload.handle (payload (record i)).

(* @src domain/graph/ContentAttachmentWriteIntent.ts mime *)
Definition mime (i : ContentAttachmentWriteIntent) : option string :=
  ContentAttachmentMime.toString <$> ContentAttachmentPayload.mime (payload (record i)).

(* @src domain/graph/ContentAttachmentWriteIntent.ts size *)
Definition size (i : ContentAttachmentWriteIntent) : option Z :=
  ContentAttachmentSize.toNumber <$> ContentAttachmentPayload.size (payload (record i)).
End ContentAttachmentWriteIntent.

(** ** Metadata *)

(** Bytes as chunks: what an asynchronous iterable yields, read to its end. *)
Abbreviation chunks := (list (list Z)).

(** [new TextEncoder().encode(s)]: a code unit below 128 is one byte, one below
    256 is two. *)
Definition utf8_char (c : ascii) : list Z :=
  let n := Z.of_N (N_of_ascii c) in
  if (n <? 128)%Z then [n] else [192 + Z.shiftr n 6; 128 + Z.land n 63]%Z.

Definition utf8_encode (s : string) : list Z := String.list_ascii_of_string s ≫= utf8_char.

(** A readable stream is iterated in the same way as an async iterable. *)
(* @src domain/services/PatchBuilderContent.ts ContentInput *)
Inductive ContentInput :=
  | CText (s : string)
  | CBytes (bytes : list Z)
  | CStream (source : chunks).

(** The [metadata] argument: omitted, not an object, or an object whose field is
    absent or [null] ([None]), or of the wrong type ([Some None]). *)
(* @src domain/services/PatchBuilderContent.ts ContentMetadataInput *)
Inductive ContentMetadataInput :=
  | MetaUndefined
  | MetaNotObject
  | MetaObject (mime : option (option string)) (size : option (option jsnum)).

Module PatchBuilderContent.
Import ContentAttachmentPayload.

(* @src domain/services/PatchBuilderValidation.ts byteSizeOfContent *)
Definition byteSizeOfContent (content : string + list Z) : Z :=
  match content with
  | inl s => Z.of_nat (length (utf8_encode s))
  | inr bytes => Z.of_nat (length bytes)
  end.

(* @src domain/services/PatchBuilderContent.ts metadataMime *)
Definition metadataMime (metadata : ContentMetadataInput) : option (option string) :=
  match metadata with MetaObject m _ => m | _ => None end.

(* @src domain/services/PatchBuilderContent.ts metadataSize *)
Definition metadataSize (metadata : ContentMetadataInput) : option (option jsnum) :=
  match metadata with MetaObject _ s => s | _ => None end.

(* @src domain/services/PatchBuilderValidation.ts normalizeContentMetadata *)
Definition normalizeContentMetadata (content : string + list Z) (metadata : ContentMetadataInput)
    : result (option string * Z) :=
  _ ← match metadata with
      | MetaNotObject => Throw (PatchError "E_PATCH_CONTENT_METADATA_TYPE")
      | _ => Ok ()
      end;
  let actualSize := byteSizeOfContent content in
  _ ← match metadataSize metadata with
      | None => Ok ()
      | Some (Some (JInt providedSize)) =>
          _ ← require (0 <=? providedSize)%Z (PatchError "E_PATCH_CONTENT_SIZE_TYPE");
          require (providedSize =? actualSize)%Z (PatchError "E_PATCH_CONTENT_SIZE_MISMATCH")
      | Some _ => Throw (PatchError "E_PATCH_CONTENT_SIZE_TYPE")
      end;
  match metadataMime metadata with
  | None => Ok (None, actualSize)
  | Some (Some providedMime) =>
      _ ← require (str_nonempty (js_trim providedMime)) (PatchError "E_PATCH_CONTENT_MIME_TYPE");
      Ok (Some providedMime, actualSize)
  | Some None => Throw (PatchError "E_PATCH_CONTENT_MIME_TYPE")
  end.

(* @src domain/services/PatchBuilderContent.ts optionalMime *)
Definition optionalMime (value : option (option string)) : result (option string) :=
  match value with
  | None => Ok None
  | Some v => m ← ContentAttachmentMime.new v; Ok (Some (ContentAttachmentMime.toString m))
  end.

(* @src domain/services/PatchBuilderContent.ts optionalSize *)
Definition optionalSize (value : option (option jsnum)) : result (option Z) :=
  match value with
  | None => Ok None
  | Some v => s ← ContentAttachmentSize.new v; Ok (Some (ContentAttachmentSize.toNumber s))
  end.

(* @src domain/services/PatchBuilderContent.ts streamingContentMetadata *)
Definition streamingContentMetadata (metadata : ContentMetadataInput)
    : result (option string * option Z) :=
  m ← optionalMime (metadataMime metadata);
  s ← optionalSize (metadataSize metadata);
  Ok (m, s).

(** What a buffered input is. *)
(* @src domain/utils/streamUtils.ts isStreamingInput *)
Definition isStreamingInput (content : ContentInput) : option (string + list Z) :=
  match content with
  | CText s => Some (inl s)
  | CBytes bytes => Some (inr bytes)
  | CStream _ => None
  end.

(* @src domain/services/PatchBuilderContent.ts contentMetadata *)
Definition contentMetadata (content : ContentInput) (metadata : ContentMetadataInput)
    : result (option string * option Z) :=
  match isStreamingInput content with
  | Some buffered =>
      '(mime, size) ← normalizeContentMetadata buffered metadata;
      Ok (mime, Some size)
  | None => streamingContentMetadata metadata
  end.

(* @src domain/utils/streamUtils.ts normalizeToAsyncIterable *)
Definition normalizeToAsyncIterable (content : ContentInput) : chunks :=
  match content with
  | CText s => [utf8_encode s]
  | CBytes bytes => [bytes]
  | CStream source => source
  end.

(* @src ports/AssetStoragePort.ts AssetWriteOptions *)
Record AssetWriteOptions := mkOptions {
  slug : string;
  filename : string;
  expectedSize : option Z }.

(* @src domain/services/PatchBuilderContent.ts assetWriteOptions *)
Definition assetWriteOptions (slug : string) (expectedSize : option Z) : AssetWriteOptions :=
  mkOptions slug "content" expectedSize.

(** The handle is a [StorageHandle] already; the rest of the record is evidence
    that is not used here. *)
(* @src ports/AssetStoragePort.ts StagedAsset *)
Record StagedAsset := mkStaged { staged_handle : StorageHandle; staged_size : jsnum }.

(** The request for the storage: it is sent before the first [await]. *)
Definition stage_request (content : ContentInput) (metadata : ContentMetadataInput) (slug : string)
    : result (option string * (chunks * AssetWriteOptions)) :=
  '(mime, expectedSize) ← contentMetadata content metadata;
  Ok (mime, (normalizeToAsyncIterable content, assetWriteOptions slug expectedSize)).

(** What is made of the answer. *)
Definition staged_payload (mime : option string) (staged : StagedAsset)
    : result ContentAttachmentPayload :=
  h ← StorageHandle.new (StorageHandle.toString (staged_handle staged));
  m ← match mime with
      | None => Ok Absent
      | Some m => Present <$> ContentAttachmentMime.new (Some m)
      end;
  s ← ContentAttachmentSize.new (Some (staged_size staged));
  ContentAttachmentPayload.new (Some h) m (Present s).

(** [stage] is the storage's method. *)
(* @src domain/services/PatchBuilderContent.ts storeContentAttachmentPayload *)
Definition storeContentAttachmentPayload {W : Type}
    (stage : chunks → AssetWriteOptions → step W StagedAsset)
    (content : ContentInput) (metadata : ContentMetadataInput) (slug : string)
    : step W ContentAttachmentPayload :=
  '(mime, (source, options)) ← lift (stage_request content metadata slug);
  staged ← stage source options;
  lift (staged_payload mime staged).
End PatchBuilderContent.

(** ** Canonical JSON texts ([utils/canonicalStringify.ts]): object keys in order,
    fields without a value left out, cycles rejected. *)
#[local] Open Scope string_scope.
#[local] Open Scope list_scope.
Import Json.

(** How the platform writes a number that is not an integer below 10^21. *)
Class NumberText := number_text : jsnum → string.

(** [String(n)] *)
Definition number_string `{NumberText} (n : jsnum) : string :=
  match n with
  | JInt z => if (Z.abs z <? 10 ^ 21)%Z then num_to_string z else number_text n
  | JFrac _ _ => number_text n
  | JInf neg => if neg then "-Infinity" else "Infinity"
  | JNaN => "NaN"
  end.

Module CanonicalJson.

(* @src domain/utils/canonicalStringify.ts NULL_LITERAL *)
Definition NULL_LITERAL : string := "null".

Definition E_CIRCULAR_REFERENCE : error := WarpError "E_CIRCULAR_REFERENCE".

(** The call stack; the cycle check keeps it from being exhausted. *)
Definition StackOverflow : error := Err "RangeError" "".

(** [val === undefined]; functions and symbols are not values of the model. *)
(* @src domain/utils/canonicalStringify.ts _isNullish *)
Definition _isNullish (val : jsval) : bool := match val with JUndefined => true | _ => false end.

(* @src domain/utils/canonicalStringify.ts _assertNoCycle *)
Definition _assertNoCycle (ref : N) (seen : gset N) : result unit :=
  require (bool_decide (ref ∉ seen)) E_CIRCULAR_REFERENCE.

(** The own enumerable properties of an object that is not an array. *)
Definition own_entries (o : obj) : list (string * jsval) :=
  match o with
  | OBytes bytes => imap (λ i b, (num_to_string (Z.of_nat i), JNum (JInt b))) bytes
  | OArray items => imap (λ i x, (num_to_string (Z.of_nat i), x)) items
  | OPlain fields | OOther fields => fields
  end.

Section stringify.
Context `{NumberText}.

(** [JSON.stringify] of a number. *)
Definition stringify_number (n : jsnum) : string :=
  match n with
  | JInt z => if (Z.abs z <? 10 ^ 21)%Z then num_to_string z else number_text n
  | JFrac _ _ => number_text n
  | JInf _ | JNaN => NULL_LITERAL
  end.

(* @src domain/utils/canonicalStringify.ts _stringifyArray *)
Definition _stringifyArray (rec : gset N → jsval → result string) (a : N) (arr : list jsval)
    (seen : gset N) : result string :=
  _ ← _assertNoCycle a seen;
  elements ← map_result (λ el,
    if _isNullish el then Ok NULL_LITERAL else rec ({[a]} ∪ seen) el) arr;
  Ok ("[" +:+ join_with "," elements +:+ "]").

(* @src domain/utils/canonicalStringify.ts _stringifyObject *)
Definition _stringifyObject (rec : gset N → jsval → result string) (a : N)
    (obj : list (string * jsval)) (seen : gset N) : result string :=
  _ ← _assertNoCycle a seen;
  let keys := js_sort (compare_key fst) (filter (λ kv, _isNullish kv.2 = false) obj) in
  pairs ← map_result (λ kv,
    text ← rec ({[a]} ∪ seen) kv.2; Ok (stringify_string kv.1 +:+ ":" +:+ text)) keys;
  Ok ("{" +:+ join_with "," pairs +:+ "}").

(** [seen] holds the objects on the path, as in [isPropValue]. *)
(* @src domain/utils/canonicalStringify.ts _canonicalStringify *)
Fixpoint _canonicalStringify (fuel : nat) (h : heap) (seen : gset N) (value : jsval)
    : result string :=
  match fuel with
  | O => Throw StackOverflow
  | S fuel' =>
      match value with
      | JUndefined | JNull => Ok NULL_LITERAL
      | JBool b => Ok (if b then "true" else "false")
      | JNum n => Ok (stringify_number n)
      | JStr s => Ok (stringify_string s)
      | JRef a =>
          match h !! a with
          | Some (OArray arr) => _stringifyArray (_canonicalStringify fuel' h) a arr seen
          | Some o => _stringifyObject (_canonicalStringify fuel' h) a (own_entries o) seen
          | None => Ok NULL_LITERAL
          end
      end
  end.

(* @src domain/utils/canonicalStringify.ts canonicalStringify *)
Definition canonicalStringify (h : heap) (value : jsval) : result string :=
  _canonicalStringify (S (size h)) h ∅ value.

(** ** It answers, or reports a cycle *)

Definition settled (r : result string) : Prop :=
  match r with Ok _ => True | Throw e => e = E_CIRCULAR_REFERENCE end.

Lemma map_result_settled {A} (f : A → result string) l :
  (∀ x, x ∈ l → settled (f x)) →
  match map_result f l with Ok _ => True | Throw e => e = E_CIRCULAR_REFERENCE end.
Proof.
  induction l as [|x l IH]; intros Hf; [done|]. cbn [map_result].
  pose proof (Hf x (list_elem_of_here _ _)) as Hx. destruct (f x) as [y|e]; simpl in *; [|done].
  assert (∀ z, z ∈ l → settled (f z)) as Hl by (intros z Hz; apply Hf; by right).
  specialize (IH Hl). by destruct (map_result f l).
Qed.

Lemma stringify_settled fuel h seen v :
  (size (dom h ∖ seen) < fuel)%nat → settled (_canonicalStringify fuel h seen v).
Proof.
  revert seen v. induction fuel as [|fuel IH]; intros seen v Hf; [lia|].
  cbn [_canonicalStringify]. destruct v as [| | | | |a]; try exact I.
  destruct (h !! a) as [o|] eqn:Ha; [|exact I].
  assert (∀ (A : Type) (k : result A) (g : A → string),
    (a ∉ seen → match k with Ok _ => True | Throw e => e = E_CIRCULAR_REFERENCE end) →
    settled (_ ← _assertNoCycle a seen; x ← k; Ok (g x))) as Hk.
  { intros A k g Hok. unfold _assertNoCycle. case_bool_decide as Hin; simpl; [|done].
    specialize (Hok Hin). by destruct k. }
  assert (a ∉ seen → ∀ x, settled (_canonicalStringify fuel h ({[a]} ∪ seen) x)) as Hrec.
  { intros Hin x. apply IH. pose proof (PropValue.size_minus_one h a seen (elem_of_dom_2 _ _ _ Ha) Hin). lia. }
  assert (∀ fields, settled (_stringifyObject (_canonicalStringify fuel h) a fields seen)) as Hobj.
  { intros fields. apply (Hk _ _ (λ pairs, "{" +:+ join_with "," pairs +:+ "}")). intros Hin.
    apply map_result_settled. intros kv _. pose proof (Hrec Hin kv.2) as Hx.
    by destruct (_canonicalStringify _ _ _ _). }
  destruct o as [bytes|items|fields|fields]; try apply Hobj.
  apply (Hk _ _ (λ elements, "[" +:+ join_with "," elements +:+ "]")). intros Hin.
  apply map_result_settled. intros x _. destruct (_isNullish x); [exact I|by apply Hrec].
Qed.

Lemma canonical_settled h v : settled (canonicalStringify h v).
Proof. apply stringify_settled. rewrite difference_empty_L, size_dom. lia. Qed.
End stringify.
End CanonicalJson.
