(* ===== verification/PatchBuilder.v ===== *)
(** The patch builder ([services/PatchBuilder.ts], with the checks of
    [services/PatchBuilderValidation.ts] and [services/PatchBuilderContent.ts]):
    every call that adds operations, and [build].

    The state of the graph is an object that others may replace and change in
    place, so a builder holds its address: [env] gives the address of the
    current state and what is stored there at the time of a call. *)
From S2P Require Export WriteIntents Patch.
#[local] Open Scope string_scope.
#[local] Open Scope list_scope.

Definition WriterError (code : string) : error := Err "WriterError" code.

(* @src domain/services/KeyCodec.ts EFFECT_NODE_PREFIX *)
Definition EFFECT_NODE_PREFIX : string := "@warp/effect:".

(** [key.includes(infix)] *)
Fixpoint js_includes (infix s : string) : bool :=
  String.prefix infix s || match s with EmptyString => false | String _ s' => js_includes infix s' end.

Module PatchBuilderValidation.

(* @src domain/services/PatchBuilderValidation.ts findAttachedData *)
Definition findAttachedData (state : State) (nodeId : string) : list string * list string * bool :=
  let srcPrefix := nodeId +:+ String FIELD_SEPARATOR "" in
  let tgtInfix := String FIELD_SEPARATOR (nodeId +:+ String FIELD_SEPARATOR "") in
  let edges := filter (λ key, String.prefix srcPrefix key || js_includes tgtInfix key)
    (ORSet.elements (WarpState.edgeAlive state)) in
  let props := filter (λ key, String.prefix srcPrefix key)
    (WarpState.allPropEntriesFromState (inl state)).*1 in
  (edges, props, (0 <? length edges)%nat || (0 <? length props)%nat).

(** A value that is not a string is [None]. *)
(* @src domain/services/PatchBuilderValidation.ts assertNoReservedBytes *)
Definition assertNoReservedBytes (value : option string) : result unit :=
  match value with
  | None => Throw (PatchError "E_PATCH_IDENTIFIER_TYPE")
  | Some v =>
      _ ← require (negb (str_includes FIELD_SEPARATOR v)) (PatchError "E_PATCH_IDENTIFIER_NULL_BYTE");
      require (negb (str_nonempty v && starts_with_prefix v))
        (PatchError "E_PATCH_IDENTIFIER_RESERVED_PREFIX")
  end.

(* @src domain/services/PatchBuilderValidation.ts assertObservedDotsForRemove *)
Definition assertObservedDotsForRemove (observedDots : list string) : result unit :=
  require (0 <? length observedDots)%nat (PatchError "E_PATCH_ENTITY_NOT_FOUND").
End PatchBuilderValidation.

Module PatchBuilder.
Import PatchBuilderValidation.

(* @src domain/services/PatchBuilder.ts DeletePolicy *)
Inductive DeletePolicy := reject | cascade | warn.

#[global] Instance DeletePolicy_eq_dec : EqDecision DeletePolicy.
Proof. solve_decision. Defined.

Record env := Env { current : option N; state_at : N → State }.

(** What the builder is constructed with and never changes. The persistence,
    the journal, the codec and the callback are arguments of the committer. *)
(* @src domain/services/PatchBuilder.ts PatchBuilderOptions 51-69 *)
Record PatchBuilderOptions := Options {
  graphName : string;
  writerId : string;
  lamport : jsnum;
  versionVector : VersionVector.VersionVector;
  expectedParentSha : option string;
  targetRefPath : option string;
  onDeleteWithData : option DeletePolicy;
  hasAssetStorage : bool }.

(** [_options] are the read-only fields; [_log] are the nodes warned about;
    [_heap] is where composite values live. *)
(* @src domain/services/PatchBuilder.ts PatchBuilder 71-97 *)
Record PatchBuilder := mk {
  _options : PatchBuilderOptions;
  _vv : VersionVector.VersionVector;
  _ops : list Op;
  _nodesAdded : gset string;
  _edgesAdded : gset string;
  _observedOperands : gset string;
  _writes : gset string;
  _contentAssets : list StorageHandle;
  _snapshotState : option (option N);
  _hasEdgeProps : bool;
  _committed : bool;
  _committing : bool;
  _log : list string;
  _heap : heap }.

(** An empty target path is none. *)
(* @src domain/services/PatchBuilder.ts constructor *)
Definition new (options : PatchBuilderOptions) (h : heap) : PatchBuilder :=
  let options := Options (graphName options) (writerId options) (lamport options)
    (versionVector options) (expectedParentSha options)
    (match targetRefPath options with Some p => if str_nonempty p then Some p else None | None => None end)
    (Some (default warn (onDeleteWithData options))) (hasAssetStorage options) in
  mk options (VersionVector.clone (versionVector options)) [] ∅ ∅ ∅ ∅ [] None false false false [] h.

Definition policy (b : PatchBuilder) : DeletePolicy := default warn (onDeleteWithData (_options b)).

(** *** The fields as receivers *)

Definition asks {A} (f : PatchBuilder → A) : step PatchBuilder A := λ b, (b, Ok (f b)).

Definition push (o : Op) : step PatchBuilder unit := modify (λ b,
  mk (_options b) (_vv b) (_ops b ++ [o]) (_nodesAdded b) (_edgesAdded b) (_observedOperands b)
    (_writes b) (_contentAssets b) (_snapshotState b) (_hasEdgeProps b) (_committed b)
    (_committing b) (_log b) (_heap b)).
Definition on_vv {A} (m : step VersionVector.VersionVector A) : step PatchBuilder A := λ b,
  let '(vv, r) := m (_vv b) in
  (mk (_options b) vv (_ops b) (_nodesAdded b) (_edgesAdded b) (_observedOperands b)
    (_writes b) (_contentAssets b) (_snapshotState b) (_hasEdgeProps b) (_committed b)
    (_committing b) (_log b) (_heap b), r).
Definition on_heap {A} (m : step heap A) : step PatchBuilder A := λ b,
  let '(h, r) := m (_heap b) in
  (mk (_options b) (_vv b) (_ops b) (_nodesAdded b) (_edgesAdded b) (_observedOperands b)
    (_writes b) (_contentAssets b) (_snapshotState b) (_hasEdgeProps b) (_committed b)
    (_committing b) (_log b) h, r).
(** The four sets, in the order nodes added, edges added, operands, writes. *)
Definition on_sets (f : gset string * gset string * gset string * gset string →
    gset string * gset string * gset string * gset string) : step PatchBuilder unit := modify (λ b,
  let '(na, ea, oo, ws) := f (_nodesAdded b, _edgesAdded b, _observedOperands b, _writes b) in
  mk (_options b) (_vv b) (_ops b) na ea oo ws (_contentAssets b) (_snapshotState b)
    (_hasEdgeProps b) (_committed b) (_committing b) (_log b) (_heap b)).
Definition add_nodesAdded (k : string) : step PatchBuilder unit :=
  on_sets (λ '(na, ea, oo, ws), ({[k]} ∪ na, ea, oo, ws)).
Definition add_edgesAdded (k : string) : step PatchBuilder unit :=
  on_sets (λ '(na, ea, oo, ws), (na, {[k]} ∪ ea, oo, ws)).
Definition add_observed (k : string) : step PatchBuilder unit :=
  on_sets (λ '(na, ea, oo, ws), (na, ea, {[k]} ∪ oo, ws)).
Definition add_write (k : string) : step PatchBuilder unit :=
  on_sets (λ '(na, ea, oo, ws), (na, ea, oo, {[k]} ∪ ws)).
Definition push_asset (a : StorageHandle) : step PatchBuilder unit := modify (λ b,
  mk (_options b) (_vv b) (_ops b) (_nodesAdded b) (_edgesAdded b) (_observedOperands b)
    (_writes b) (_contentAssets b ++ [a]) (_snapshotState b) (_hasEdgeProps b) (_committed b)
    (_committing b) (_log b) (_heap b)).
Definition set_snapshot (s : option N) : step PatchBuilder unit := modify (λ b,
  mk (_options b) (_vv b) (_ops b) (_nodesAdded b) (_edgesAdded b) (_observedOperands b)
    (_writes b) (_contentAssets b) (Some s) (_hasEdgeProps b) (_committed b)
    (_committing b) (_log b) (_heap b)).
Definition set_hasEdgeProps : step PatchBuilder unit := modify (λ b,
  mk (_options b) (_vv b) (_ops b) (_nodesAdded b) (_edgesAdded b) (_observedOperands b)
    (_writes b) (_contentAssets b) (_snapshotState b) true (_committed b)
    (_committing b) (_log b) (_heap b)).
Definition set_commit (committed committing : bool) (b : PatchBuilder) : PatchBuilder :=
  mk (_options b) (_vv b) (_ops b) (_nodesAdded b) (_edgesAdded b) (_observedOperands b)
    (_writes b) (_contentAssets b) (_snapshotState b) (_hasEdgeProps b) committed
    committing (_log b) (_heap b).
Definition log_warning (nodeId : string) : step PatchBuilder unit := modify (λ b,
  mk (_options b) (_vv b) (_ops b) (_nodesAdded b) (_edgesAdded b) (_observedOperands b)
    (_writes b) (_contentAssets b) (_snapshotState b) (_hasEdgeProps b) (_committed b)
    (_committing b) (_log b ++ [nodeId]) (_heap b)).

(** *** State access *)

(* @src domain/services/PatchBuilder.ts _getSnapshotState *)
Definition _getSnapshotState (E : env) : step PatchBuilder (option State) :=
  cached ← asks _snapshotState;
  match cached with
  | Some s => mret (state_at E <$> s)
  | None => _ ← set_snapshot (current E); mret (state_at E <$> current E)
  end.

(* @src domain/services/PatchBuilder.ts _assertNotCommitted *)
Definition _assertNotCommitted : step PatchBuilder unit :=
  committed ← asks (λ b, _committed b || _committing b);
  lift (require (negb committed) (PatchError "E_PATCH_ALREADY_COMMITTED")).

(** A checked argument. *)
Definition checked (value : string) : step PatchBuilder unit :=
  lift (assertNoReservedBytes (Some value)).

(** *** Nodes and edges *)

(* @src domain/services/PatchBuilder.ts addNode *)
Definition addNode (nodeId : string) : step PatchBuilder unit :=
  _ ← _assertNotCommitted;
  _ ← checked nodeId;
  w ← asks (λ b, writerId (_options b));
  dot ← on_vv (VersionVector.increment w);
  op ← lift (NodeAdd.new (Some nodeId) (Some dot));
  _ ← push (ONodeAdd op);
  _ ← add_nodesAdded nodeId;
  add_write nodeId.

(** [[...state.getDots(x)]] *)
Definition dots_list (dots : gset string) : list string := elements dots.

(** One edge of a cascade; a missing part of the key is [undefined]. *)
(* @src domain/services/PatchBuilder.ts removeNode 159-163 *)
Definition cascade_edge (state : State) (edgeKey : string) : step PatchBuilder unit :=
  let parts := str_split FIELD_SEPARATOR edgeKey in
  let edgeDots := dots_list (ORSet.getDots (WarpState.edgeAlive state) edgeKey) in
  op ← lift (EdgeRemove.new (parts !! 0%nat) (parts !! 1%nat) (parts !! 2%nat)
    (Some (Some <$> edgeDots)));
  _ ← push (OEdgeRemove op);
  add_observed edgeKey.

(* @src domain/services/PatchBuilder.ts removeNode *)
Definition removeNode (E : env) (nodeId : string) : step PatchBuilder unit :=
  _ ← _assertNotCommitted;
  state ← _getSnapshotState E;
  policy ← asks policy;
  match state with
  | None => lift (Throw (PatchError "E_PATCH_NO_STATE"))
  | Some state =>
      let '(edges, props, hasData) := findAttachedData state nodeId in
      _ ← match policy with
          | cascade => for_each (cascade_edge state) edges
          | reject =>
              if hasData then lift (Throw (PatchError "E_PATCH_DELETE_WITH_DATA")) else mret ()
          | warn => if hasData then log_warning nodeId else mret ()
          end;
      let observedDots := dots_list (ORSet.getDots (WarpState.nodeAlive state) nodeId) in
      _ ← lift (assertObservedDotsForRemove observedDots);
      op ← lift (NodeRemove.new (Some nodeId) (Some (Some <$> observedDots)));
      _ ← push (ONodeRemove op);
      add_observed nodeId
  end.

(* @src domain/services/PatchBuilder.ts addEdge *)
Definition addEdge (from to label : string) : step PatchBuilder unit :=
  _ ← _assertNotCommitted;
  _ ← checked from; _ ← checked to; _ ← checked label;
  w ← asks (λ b, writerId (_options b));
  dot ← on_vv (VersionVector.increment w);
  op ← lift (EdgeAdd.new (Some from) (Some to) (Some label) (Some dot));
  _ ← push (OEdgeAdd op);
  let edgeKey := encodeEdgeKey from to label in
  _ ← add_edgesAdded edgeKey;
  _ ← add_observed from;
  _ ← add_observed to;
  add_write edgeKey.

(* @src domain/services/PatchBuilder.ts removeEdge *)
Definition removeEdge (E : env) (from to label : string) : step PatchBuilder unit :=
  _ ← _assertNotCommitted;
  state ← _getSnapshotState E;
  let edgeKey := encodeEdgeKey from to label in
  match state with
  | None => lift (Throw (PatchError "E_PATCH_NO_STATE"))
  | Some state =>
      let observedDots := dots_list (ORSet.getDots (WarpState.edgeAlive state) edgeKey) in
      _ ← lift (assertObservedDotsForRemove observedDots);
      op ← lift (EdgeRemove.new (Some from) (Some to) (Some label) (Some (Some <$> observedDots)));
      _ ← push (OEdgeRemove op);
      add_observed edgeKey
  end.

(** *** Properties *)

(* @src domain/services/PatchBuilderContent.ts requirePatchPropertyValue *)
Definition requirePatchPropertyValue (value : jsval) : step PatchBuilder jsval :=
  h ← asks _heap;
  lift (if decide (PropValue.isPropValue h value = Some true) then Ok value
        else Throw (PatchError "E_PATCH_INVALID_PROPERTY_VALUE")).

(* @src domain/services/PatchBuilder.ts _lowerNodePropertyIntent *)
Definition _lowerNodePropertyIntent (intent : NodePropertyWriteIntent.NodePropertyWriteIntent)
    : step PatchBuilder unit :=
  let nodeId := NodePropertyWriteIntent.nodeId intent in
  value ← on_heap (NodePropertyWriteIntent.propertyValue intent);
  op ← lift (NodePropSet.new (Some nodeId) (Some (NodePropertyWriteIntent.propertyKey intent)) value);
  _ ← push (ONodePropSet op);
  _ ← add_observed nodeId;
  add_write nodeId.

(* @src domain/services/PatchBuilder.ts _lowerEdgePropertyIntent *)
Definition _lowerEdgePropertyIntent (intent : EdgePropertyWriteIntent.EdgePropertyWriteIntent)
    : step PatchBuilder unit :=
  let target := EdgePropertyWriteIntent.edgeTarget intent in
  value ← on_heap (EdgePropertyWriteIntent.propertyValue intent);
  op ← lift (EdgePropSet.new (Some (ep_from target)) (Some (ep_to target)) (Some (ep_label target))
    (Some (EdgePropertyWriteIntent.propertyKey intent)) value);
  _ ← push (OEdgePropSet op);
  set_hasEdgeProps.

(* @src domain/services/PatchBuilder.ts setProperty *)
Definition setProperty (nodeId key : string) (value : jsval) : step PatchBuilder unit :=
  _ ← _assertNotCommitted;
  _ ← checked nodeId; _ ← checked key;
  value ← requirePatchPropertyValue value;
  intent ← on_heap (NodePropertyWriteIntent.fromLegacyProperty nodeId key value);
  _lowerNodePropertyIntent intent.

(* @src domain/services/PatchBuilder.ts _assertEdgeExists *)
Definition _assertEdgeExists (E : env) (from to label : string) : step PatchBuilder string :=
  let ek := encodeEdgeKey from to label in
  added ← asks _edgesAdded;
  if decide (ek ∈ added) then mret ek
  else
    state ← _getSnapshotState E;
    match state with
    | Some s =>
        if ORSet.contains (WarpState.edgeAlive s) ek then mret ek
        else lift (Throw (PatchError "E_PATCH_EDGE_PROP_UNKNOWN_EDGE"))
    | None => lift (Throw (PatchError "E_PATCH_EDGE_PROP_UNKNOWN_EDGE"))
    end.

(* @src domain/services/PatchBuilder.ts _assertNodeExistsForContent *)
Definition _assertNodeExistsForContent (E : env) (nodeId : string) : step PatchBuilder unit :=
  added ← asks _nodesAdded;
  if decide (nodeId ∈ added) then mret ()
  else
    state ← _getSnapshotState E;
    match state with
    | Some s =>
        lift (require (ORSet.contains (WarpState.nodeAlive s) nodeId)
          (PatchError "E_PATCH_CONTENT_UNKNOWN_NODE"))
    | None => lift (Throw (PatchError "E_PATCH_CONTENT_UNKNOWN_NODE"))
    end.

(* @src domain/services/PatchBuilder.ts setEdgeProperty *)
Definition setEdgeProperty (E : env) (from to label key : string) (value : jsval)
    : step PatchBuilder unit :=
  _ ← _assertNotCommitted;
  _ ← checked from; _ ← checked to; _ ← checked label; _ ← checked key;
  value ← requirePatchPropertyValue value;
  intent ← on_heap (EdgePropertyWriteIntent.fromLegacyProperty (EdgeParts from to label) key value);
  ek ← _assertEdgeExists E from to label;
  _ ← _lowerEdgePropertyIntent intent;
  _ ← add_observed ek;
  add_write ek.

(** *** Effects *)

Section effects.
Context `{NumberText}.

(** The payload is [undefined] when omitted; an empty id is replaced too. *)
(* @src domain/services/PatchBuilder.ts emitEffect *)
Definition emitEffect (kind : option string) (payload : jsval) (effectId : option string)
    : step PatchBuilder string :=
  _ ← _assertNotCommitted;
  kind ← match kind with
    | Some k => if str_nonempty k then mret k else lift (Throw (PatchError "E_EFFECT_INVALID_KIND"))
    | None => lift (Throw (PatchError "E_EFFECT_INVALID_KIND"))
    end;
  w ← asks (λ b, writerId (_options b));
  l ← asks (λ b, lamport (_options b));
  n ← asks (λ b, Z.of_nat (length (_ops b)));
  let generated := EFFECT_NODE_PREFIX +:+ w +:+ "-" +:+ number_string l +:+ "-" +:+ num_to_string n in
  let effectId := match effectId with
    | Some i => if str_nonempty i then i else generated
    | None => generated
    end in
  _ ← addNode effectId;
  _ ← setProperty effectId "kind" (JStr kind);
  _ ← setProperty effectId "writer" (JStr w);
  _ ← match payload with
    | JUndefined | JNull => mret ()
    | _ =>
        h ← asks _heap;
        text ← lift (CanonicalJson.canonicalStringify h payload);
        setProperty effectId "payload" (JStr text)
    end;
  mret effectId.
End effects.

(** *** Content *)

(** A nullable field as a property value. *)
Definition nullable {A} (f : A → jsval) (v : option A) : jsval :=
  match v with Some a => f a | None => JNull end.

(* @src domain/services/PatchBuilder.ts _lowerNodeContentIntent *)
Definition _lowerNodeContentIntent (intent : ContentAttachmentWriteIntent.ContentAttachmentWriteIntent)
    : step PatchBuilder unit :=
  nodeId ← lift (ContentAttachmentWriteIntent.nodeId intent);
  _ ← setProperty nodeId CONTENT_PROPERTY_KEY
    (JStr (StorageHandle.toString (ContentAttachmentWriteIntent.handle intent)));
  _ ← setProperty nodeId CONTENT_SIZE_PROPERTY_KEY
    (nullable (λ n, JNum (JInt n)) (ContentAttachmentWriteIntent.size intent));
  setProperty nodeId CONTENT_MIME_PROPERTY_KEY (nullable JStr (ContentAttachmentWriteIntent.mime intent)).

(* @src domain/services/PatchBuilder.ts _lowerEdgeContentIntent *)
Definition _lowerEdgeContentIntent (E : env)
    (intent : ContentAttachmentWriteIntent.ContentAttachmentWriteIntent) : step PatchBuilder unit :=
  target ← lift (ContentAttachmentWriteIntent.edgeTarget intent);
  let set := setEdgeProperty E (ep_from target) (ep_to target) (ep_label target) in
  _ ← set CONTENT_PROPERTY_KEY
    (JStr (StorageHandle.toString (ContentAttachmentWriteIntent.handle intent)));
  _ ← set CONTENT_SIZE_PROPERTY_KEY
    (nullable (λ n, JNum (JInt n)) (ContentAttachmentWriteIntent.size intent));
  set CONTENT_MIME_PROPERTY_KEY (nullable JStr (ContentAttachmentWriteIntent.mime intent)).

(** A request that was sent to the storage: the MIME hint that is kept for the
    answer, and the arguments of [stage]. *)
Definition pending : Type :=
  option string * (chunks * PatchBuilderContent.AssetWriteOptions).

Definition requireAssetStorage : step PatchBuilder unit :=
  has ← asks (λ b, hasAssetStorage (_options b));
  lift (require has (WriterError "NO_ASSET_STORAGE")).

(** [attachContent] up to its [await] ... *)
Definition attachContent_request (E : env) (nodeId : string) (content : ContentInput)
    (metadata : ContentMetadataInput) : step PatchBuilder pending :=
  _ ← _assertNotCommitted;
  _ ← checked nodeId; _ ← checked CONTENT_PROPERTY_KEY;
  _ ← _assertNodeExistsForContent E nodeId;
  _ ← requireAssetStorage;
  g ← asks (λ b, graphName (_options b));
  lift (PatchBuilderContent.stage_request content metadata (g +:+ "/" +:+ nodeId)).

(** ... and after it. *)
Definition attachContent_answer (nodeId : string) (mime : option string)
    (staged : PatchBuilderContent.StagedAsset) : step PatchBuilder unit :=
  payload ← lift (PatchBuilderContent.staged_payload mime staged);
  intent ← lift (ContentAttachmentWriteIntent.forNode nodeId payload);
  _ ← _lowerNodeContentIntent intent;
  push_asset (ContentAttachmentWriteIntent.handle intent).

Definition attachEdgeContent_request (E : env) (from to label : string) (content : ContentInput)
    (metadata : ContentMetadataInput) : step PatchBuilder pending :=
  _ ← _assertNotCommitted;
  _ ← checked from; _ ← checked to; _ ← checked label; _ ← checked CONTENT_PROPERTY_KEY;
  _ ← _assertEdgeExists E from to label;
  _ ← requireAssetStorage;
  g ← asks (λ b, graphName (_options b));
  lift (PatchBuilderContent.stage_request content metadata
    (g +:+ "/" +:+ from +:+ "/" +:+ to +:+ "/" +:+ label)).

Definition attachEdgeContent_answer (E : env) (from to label : string) (mime : option string)
    (staged : PatchBuilderContent.StagedAsset) : step PatchBuilder unit :=
  payload ← lift (PatchBuilderContent.staged_payload mime staged);
  intent ← lift (ContentAttachmentWriteIntent.forEdge (EdgeParts from to label) payload);
  _ ← _lowerEdgeContentIntent E intent;
  push_asset (ContentAttachmentWriteIntent.handle intent).

(** Both halves with nothing in between: the builder and the storage [W]. *)
Section staging.
Context {W : Type} (stage : chunks → PatchBuilderContent.AssetWriteOptions →
  step W PatchBuilderContent.StagedAsset).

Definition in_builder {A} (m : step PatchBuilder A) : step (PatchBuilder * W) A := λ '(b, w),
  let '(b', r) := m b in ((b', w), r).
Definition in_storage {A} (m : step W A) : step (PatchBuilder * W) A := λ '(b, w),
  let '(w', r) := m w in ((b, w'), r).

(* @src domain/services/PatchBuilder.ts attachContent *)
Definition attachContent (E : env) (nodeId : string) (content : ContentInput)
    (metadata : ContentMetadataInput) : step (PatchBuilder * W) unit :=
  '(mime, (source, options)) ← in_builder (attachContent_request E nodeId content metadata);
  staged ← in_storage (stage source options);
  in_builder (attachContent_answer nodeId mime staged).

(* @src domain/services/PatchBuilder.ts attachEdgeContent *)
Definition attachEdgeContent (E : env) (from to label : string) (content : ContentInput)
    (metadata : ContentMetadataInput) : step (PatchBuilder * W) unit :=
  '(mime, (source, options)) ← in_builder (attachEdgeContent_request E from to label content metadata);
  staged ← in_storage (stage source options);
  in_builder (attachEdgeContent_answer E from to label mime staged).
End staging.

(* @src domain/services/PatchBuilder.ts clearContent *)
Definition clearContent (E : env) (nodeId : string) : step PatchBuilder unit :=
  _ ← _assertNotCommitted;
  _ ← checked nodeId; _ ← checked CONTENT_PROPERTY_KEY;
  _ ← _assertNodeExistsForContent E nodeId;
  _ ← setProperty nodeId CONTENT_PROPERTY_KEY JNull;
  _ ← setProperty nodeId CONTENT_SIZE_PROPERTY_KEY JNull;
  setProperty nodeId CONTENT_MIME_PROPERTY_KEY JNull.

(* @src domain/services/PatchBuilder.ts clearEdgeContent *)
Definition clearEdgeContent (E : env) (from to label : string) : step PatchBuilder unit :=
  _ ← _assertNotCommitted;
  _ ← checked from; _ ← checked to; _ ← checked label; _ ← checked CONTENT_PROPERTY_KEY;
  _ ← _assertEdgeExists E from to label;
  _ ← setEdgeProperty E from to label CONTENT_PROPERTY_KEY JNull;
  _ ← setEdgeProperty E from to label CONTENT_SIZE_PROPERTY_KEY JNull;
  setEdgeProperty E from to label CONTENT_MIME_PROPERTY_KEY JNull.

(** *** The patch *)

(** The object [VersionVector.serialize] fills: assigning ["__proto__"] leaves
    no property. *)
Definition context_object (assignments : list (string * Z)) : list (string * jsnum) :=
  (λ kv, (kv.1, JInt kv.2)) <$> filter (λ kv, kv.1 ≠ "__proto__") assignments.

(** [[...set].sort()] *)
Definition sorted_set (s : gset string) : list string := js_sort compareStrings (elements s).

(** The patch, from what the builder keeps; [commitPatch] makes it in the same
    way with a later Lamport time. *)
(* @src domain/services/PatchBuilder.ts build 433-445 *)
Definition assemble (hasEdgeProps : bool) (writerId : string) (lamport : jsnum)
    (vv : VersionVector.VersionVector) (ops : list Op) (reads writes : gset string)
    : result Patch.Patch :=
  rawOps ← map_result OpNormalizer.lowerCanonicalOp ops;
  context ← VersionVector.serialize vv;
  Patch.new (Patch.Args (Some (JInt (if hasEdgeProps then 3 else 2)))
    (Some writerId) (Some lamport)
    (VersionVector.SObject (context_object context))
    (Some ((λ o, RObject (Instance o)) <$> rawOps))
    (Patch.SAArray (Some <$> sorted_set reads))
    (Patch.SAArray (Some <$> sorted_set writes))).

(** The patch of the given Lamport time. *)
Definition patch_at (lamport : jsnum) (b : PatchBuilder) : result Patch.Patch :=
  assemble (_hasEdgeProps b) (writerId (_options b)) lamport (_vv b) (_ops b)
    (_observedOperands b) (_writes b).

(* @src domain/services/PatchBuilder.ts build *)
Definition build (b : PatchBuilder) : result Patch.Patch := patch_at (lamport (_options b)) b.

(* @src domain/services/PatchBuilder.ts reads *)
Definition reads (b : PatchBuilder) : gset string := _observedOperands b.
(* @src domain/services/PatchBuilder.ts writes *)
Definition writes (b : PatchBuilder) : gset string := _writes b.
(* @src domain/services/PatchBuilder.ts contentAssets *)
Definition contentAssets (b : PatchBuilder) : list StorageHandle := _contentAssets b.
End PatchBuilder.
