(* ===== verification/PatchBuilding.v ===== *)
(** What a patch builder holds after any calls, failed ones included: the
    operations are valid, their dots fresh and in order, their removals carry
    what the snapshot shows, the sets are what the operations read and write,
    and the patch can be built. *)
From S2P Require Export PatchBuilder.
#[local] Open Scope string_scope.
#[local] Open Scope list_scope.
Import PatchBuilder PatchBuilderValidation.

(** ** Calls with pre- and postconditions

    A call that throws must leave the invariant [I] behind. *)
Section triples.
Context {S : Type} (I : S → Prop).

Definition triple {A} (P : S → Prop) (m : step S A) (Q : A → S → Prop) : Prop :=
  ∀ s, P s → match m s with (s', Ok a) => Q a s' | (s', Throw _) => I s' end.

Lemma triple_bind {A B} P (m : step S A) (k : A → step S B) R Q :
  triple P m R → (∀ a, triple (R a) (k a) Q) → triple P (m ≫= k) Q.
Proof.
  intros Hm Hk s Hs. unfold mbind, step_bind. specialize (Hm s Hs).
  destruct (m s) as [s' [a|e]]; [by apply Hk|done].
Qed.

Lemma triple_ret {A} P (a : A) (Q : A → S → Prop) : (∀ s, P s → Q a s) → triple P (mret a) Q.
Proof. intros HQ s Hs. by apply HQ. Qed.

Lemma triple_lift {A} P (r : result A) (Q : A → S → Prop) :
  (∀ s, P s → I s) → (∀ a s, r = Ok a → P s → Q a s) → triple P (lift r) Q.
Proof. intros HI HQ s Hs. unfold lift. destruct r as [a|e]; auto. Qed.

Lemma triple_throw {A} P e (Q : A → S → Prop) : (∀ s, P s → I s) → triple P (lift (Throw e)) Q.
Proof. intros HI. by apply triple_lift. Qed.

Lemma triple_modify P f (Q : () → S → Prop) : (∀ s, P s → Q () (f s)) → triple P (modify f) Q.
Proof. intros HQ s Hs. by apply HQ. Qed.

Lemma triple_weaken {A} (P P' : S → Prop) (m : step S A) (Q Q' : A → S → Prop) :
  triple P m Q → (∀ s, P' s → P s) → (∀ a s, Q a s → Q' a s) → triple P' m Q'.
Proof.
  intros Hm HP HQ s Hs. specialize (Hm s (HP s Hs)). destruct (m s) as [s' [a|e]]; [by apply HQ|done].
Qed.

Lemma triple_pre_ext {A} (P P' : S → Prop) (m : step S A) (Q : A → S → Prop) :
  triple P m Q → (∀ s, P' s → P s) → triple P' m Q.
Proof. intros Hm HP. by apply (triple_weaken P P' m Q Q). Qed.

(** A fact about the state before that does not depend on the state. *)
Lemma triple_pure {A} (φ : Prop) P (m : step S A) (Q : A → S → Prop) :
  (φ → triple P m Q) → triple (λ s, φ ∧ P s) m Q.
Proof. intros Hm s [Hφ Hs]. by apply Hm. Qed.

Lemma triple_for_each {A} (body : A → step S unit) l :
  (∀ x, x ∈ l → triple I (body x) (λ _, I)) → triple I (for_each body l) (λ _, I).
Proof.
  induction l as [|x l IH]; intros Hb; cbn [for_each]; [by apply triple_ret|].
  apply (triple_bind _ _ _ (λ _, I)); [apply Hb; by left|]. intros []. apply IH.
  intros y Hy. apply Hb. by right.
Qed.

Definition keeps {A} (m : step S A) : Prop := triple I m (λ _, I).

Lemma keep_bind {A B} (m : step S A) (k : A → step S B) :
  keeps m → (∀ a, keeps (k a)) → keeps (m ≫= k).
Proof. intros Hm Hk. by apply (triple_bind _ _ _ (λ _, I)). Qed.

Lemma keep_lift {A} (r : result A) : keeps (lift r).
Proof. by apply triple_lift. Qed.

Lemma keeps_ret {A} (a : A) : keeps (mret a).
Proof. by apply triple_ret. Qed.

(** Whether it returns or throws. *)
Lemma keeps_run {A} (m : step S A) s : keeps m → I s → I (m s).1.
Proof. intros Hm Hs. specialize (Hm s Hs). by destruct (m s) as [s' [a|e]]. Qed.
End triples.

#[export] Hint Resolve keep_lift keeps_ret : core.

(** ** What operations read, write and issue *)

Definition nodes_of (o : Op) : gset string :=
  match o with ONodeAdd o => {[NodeAdd.node o]} | _ => ∅ end.
Definition edges_of (o : Op) : gset string :=
  match o with OEdgeAdd o => {[EdgeAdd.key o]} | _ => ∅ end.

(** Removals read what they remove, an edge its ends, a property its owner. *)
Definition reads_of (o : Op) : gset string :=
  match o with
  | ONodeRemove o => {[NodeRemove.node o]}
  | OEdgeAdd o => {[ep_from (EdgeAdd.edge o); ep_to (EdgeAdd.edge o)]}
  | OEdgeRemove o => {[WarpState.key_of (EdgeRemove.edge o)]}
  | ONodePropSet o => {[NodePropSet.node o]}
  | OEdgePropSet o => {[WarpState.key_of (EdgePropSet.edge o)]}
  | _ => ∅
  end.

(** Removals write nothing. *)
Definition writes_of (o : Op) : gset string :=
  match o with
  | ONodeAdd o => {[NodeAdd.node o]}
  | OEdgeAdd o => {[EdgeAdd.key o]}
  | ONodePropSet o => {[NodePropSet.node o]}
  | OEdgePropSet o => {[WarpState.key_of (EdgePropSet.edge o)]}
  | _ => ∅
  end.

Definition dots_of (o : Op) : list Dot.Dot :=
  match o with ONodeAdd o => [NodeAdd.dot o] | OEdgeAdd o => [EdgeAdd.dot o] | _ => [] end.

Definition is_edge_prop (o : Op) : bool := match o with OEdgePropSet _ => true | _ => false end.

Definition all_of (f : Op → gset string) (ops : list Op) : gset string := ⋃ (f <$> ops).

Lemma all_of_snoc f ops o : all_of f (ops ++ [o]) = f o ∪ all_of f ops.
Proof. unfold all_of. rewrite fmap_app, union_list_app_L. simpl. set_solver. Qed.

Lemma elem_of_all_of f ops x : x ∈ all_of f ops ↔ ∃ o, o ∈ ops ∧ x ∈ f o.
Proof.
  unfold all_of. rewrite elem_of_union_list. split.
  - intros (X & (o & -> & Ho)%list_elem_of_fmap & Hx). by exists o.
  - intros (o & Ho & Hx). exists (f o). split; [|done]. by apply list_elem_of_fmap_2.
Qed.

(** The dots of the operations in order. *)
Definition issued (ops : list Op) : list Dot.Dot := ops ≫= dots_of.

(** Dots of one writer with increasing counters in an interval. *)
Definition fresh_dots (w : string) (lo hi : Z) (ds : list Dot.Dot) : Prop :=
  StronglySorted (λ d d', Dot.counter d < Dot.counter d')%Z ds ∧
  Forall (λ d, Dot.writerId d = w ∧ (lo < Dot.counter d <= hi)%Z) ds.

Lemma fresh_dots_snoc w lo hi ds :
  (lo <= hi)%Z → fresh_dots w lo hi ds → fresh_dots w lo (hi + 1) (ds ++ [Dot.mk w (hi + 1)]).
Proof.
  intros Hle [Hs Hf]. split.
  - apply StronglySorted_app_2; [|done|repeat constructor].
    intros d d' Hd ->%list_elem_of_singleton. rewrite Forall_forall in Hf.
    destruct (Hf d Hd) as [_ ?]. simpl. lia.
  - apply Forall_app. split; [eapply Forall_impl; [exact Hf|]; intros d [? ?]; split; [done|lia]|].
    constructor; [|constructor]. simpl. split; [done|lia].
Qed.

Lemma fresh_dots_mono w lo hi hi' ds : (hi <= hi')%Z → fresh_dots w lo hi ds → fresh_dots w lo hi' ds.
Proof.
  intros Hle [Hs Hf]. split; [done|]. eapply Forall_impl; [exact Hf|]. intros d [? ?]. split; [done|lia].
Qed.

(** ** The invariant *)
Section invariant.
Context (E : env) (o : PatchBuilderOptions).

Abbreviation w := (writerId o).
Abbreviation v0 := (versionVector o).

(** What the builder takes for the state. *)
Definition snapshot_of : option State := state_at E <$> current E.

(** An operation of a call: valid, its removals observed in the snapshot. *)
Definition op_built (op : Op) : Prop :=
  op_ok op ∧ canonical op = true ∧
  match op with
  | ONodeRemove r => ∃ s, snapshot_of = Some s ∧
      NodeRemove.observedDots r
        = dots_list (ORSet.getDots (WarpState.nodeAlive s) (NodeRemove.node r)) ∧
      NodeRemove.observedDots r ≠ []
  | OEdgeRemove r => ∃ s, snapshot_of = Some s ∧
      EdgeRemove.observedDots r
        = dots_list (ORSet.getDots (WarpState.edgeAlive s) (WarpState.key_of (EdgeRemove.edge r))) ∧
      EdgeRemove.observedDots r ≠ []
  | OBlobValue _ => False
  | _ => True
  end.

Record ok_builder (b : PatchBuilder) : Prop := {
  ok_options : writerId (_options b) = w ∧ lamport (_options b) = lamport o ∧
    graphName (_options b) = graphName o ∧ expectedParentSha (_options b) = expectedParentSha o ∧
    targetRefPath (_options b) = targetRefPath (_options (new o ∅));
  ok_snapshot : _snapshotState b = None ∨ _snapshotState b = Some (current E);
  ok_ops : Forall op_built (_ops b);
  ok_vv : VersionVector.wf (_vv b) ∧ VersionVector.frozen (_vv b) = false;
  ok_others : ∀ w', w' ≠ w → VersionVector.get (_vv b) w' = VersionVector.get v0 w';
  ok_own : (VersionVector.at_ v0 w <= VersionVector.at_ (_vv b) w <= max_exact)%Z;
  ok_dots : (VersionVector.at_ (_vv b) w < max_exact)%Z →
    fresh_dots w (VersionVector.at_ v0 w) (VersionVector.at_ (_vv b) w) (issued (_ops b));
  ok_nodes : _nodesAdded b = all_of nodes_of (_ops b);
  ok_edges : _edgesAdded b = all_of edges_of (_ops b);
  ok_reads : _observedOperands b = all_of reads_of (_ops b);
  ok_writes : _writes b = all_of writes_of (_ops b);
  ok_schema : _hasEdgeProps b = existsb is_edge_prop (_ops b) }.

(** The keys of the edges of the snapshot were made by [encodeEdgeKey]. *)
Definition snapshot_keys_ok : Prop := ∀ s, snapshot_of = Some s → keys_wf (WarpState.edgeAlive s).

Lemma issued_snoc ops op : issued (ops ++ [op]) = issued ops ++ dots_of op.
Proof. unfold issued. rewrite bind_app. simpl. by rewrite app_nil_r. Qed.

Lemma existsb_snoc {A} (f : A → bool) l x : existsb f (l ++ [x]) = existsb f l || f x.
Proof. rewrite existsb_app. simpl. by rewrite orb_false_r. Qed.

(** One more operation without a dot. *)
Lemma ok_push b b' op :
  ok_builder b → op_built op → dots_of op = [] →
  _options b' = _options b → _snapshotState b' = _snapshotState b → _vv b' = _vv b →
  _ops b' = _ops b ++ [op] →
  _nodesAdded b' = nodes_of op ∪ _nodesAdded b → _edgesAdded b' = edges_of op ∪ _edgesAdded b →
  _observedOperands b' = reads_of op ∪ _observedOperands b →
  _writes b' = writes_of op ∪ _writes b →
  _hasEdgeProps b' = _hasEdgeProps b || is_edge_prop op →
  ok_builder b'.
Proof.
  intros [] Hop Hd Eo Es Ev Eops En Ee Er Ew Eh.
  constructor; rewrite ?Eo, ?Es, ?Ev, ?Eops, ?En, ?Ee, ?Er, ?Ew, ?Eh, ?all_of_snoc, ?existsb_snoc,
    ?issued_snoc, ?Hd, ?app_nil_r; try done.
  - apply Forall_app. split; [done|by constructor].
  - by rewrite ok_nodes0.
  - by rewrite ok_edges0.
  - by rewrite ok_reads0.
  - by rewrite ok_writes0.
  - by rewrite ok_schema0.
Qed.

(** One more operation with the dot that was just issued. *)
Lemma ok_push_add b b' op :
  ok_builder b → op_built op →
  let c := VersionVector.at_ (_vv b) w in
  let c' := VersionVector.at_ (_vv b') w in
  (c < max_exact ∧ c' = c + 1 ∨ c' = max_exact)%Z →
  (c' < max_exact → dots_of op = [Dot.mk w c'])%Z →
  VersionVector.wf (_vv b') → VersionVector.frozen (_vv b') = false →
  (∀ w', w' ≠ w → VersionVector.get (_vv b') w' = VersionVector.get (_vv b) w') →
  _options b' = _options b → _snapshotState b' = _snapshotState b →
  _ops b' = _ops b ++ [op] →
  _nodesAdded b' = nodes_of op ∪ _nodesAdded b → _edgesAdded b' = edges_of op ∪ _edgesAdded b →
  _observedOperands b' = reads_of op ∪ _observedOperands b →
  _writes b' = writes_of op ∪ _writes b →
  _hasEdgeProps b' = _hasEdgeProps b || is_edge_prop op →
  ok_builder b'.
Proof.
  intros Hb Hop c c' Hc Hd Hwf Hfr Hot Eo Es Eops En Ee Er Ew Eh.
  pose proof (ok_own b Hb) as Hown. destruct Hb.
  constructor; rewrite ?Eo, ?Es, ?Eops, ?En, ?Ee, ?Er, ?Ew, ?Eh, ?all_of_snoc, ?existsb_snoc,
    ?issued_snoc; try done.
  - apply Forall_app. split; [done|by constructor].
  - intros w' Hw'. by rewrite Hot, ok_others0.
  - fold c c' in Hown |- *. lia.
  - intros Hlt. fold c' in Hlt |- *. rewrite Hd by done.
    assert (c' = c + 1 ∧ c < max_exact)%Z as [-> Hlt'] by (unfold c, c' in *; lia).
    apply fresh_dots_snoc; [lia|by apply ok_dots0].
  - by rewrite ok_nodes0.
  - by rewrite ok_edges0.
  - by rewrite ok_reads0.
  - by rewrite ok_writes0.
  - by rewrite ok_schema0.
Qed.

(** Fields the invariant does not look at. *)
Lemma ok_same b b' :
  ok_builder b → _options b' = _options b →
  (_snapshotState b' = _snapshotState b ∨ _snapshotState b' = Some (current E)) →
  _vv b' = _vv b → _ops b' = _ops b → _nodesAdded b' = _nodesAdded b →
  _edgesAdded b' = _edgesAdded b → _observedOperands b' = _observedOperands b →
  _writes b' = _writes b → _hasEdgeProps b' = _hasEdgeProps b → ok_builder b'.
Proof.
  intros [] Eo Es Ev Eops En Ee Er Ew Eh.
  constructor; rewrite ?Eo, ?Ev, ?Eops, ?En, ?Ee, ?Er, ?Ew, ?Eh; try done.
  destruct Es as [->|]; auto.
Qed.

(** A dot that was issued and not used. *)
Lemma ok_bump b b' :
  ok_builder b → (VersionVector.at_ (_vv b) w <= VersionVector.at_ (_vv b') w <= max_exact)%Z →
  VersionVector.wf (_vv b') → VersionVector.frozen (_vv b') = false →
  (∀ w', w' ≠ w → VersionVector.get (_vv b') w' = VersionVector.get (_vv b) w') →
  _options b' = _options b → _snapshotState b' = _snapshotState b → _ops b' = _ops b →
  _nodesAdded b' = _nodesAdded b → _edgesAdded b' = _edgesAdded b →
  _observedOperands b' = _observedOperands b → _writes b' = _writes b →
  _hasEdgeProps b' = _hasEdgeProps b → ok_builder b'.
Proof.
  intros Hb Hc Hwf Hfr Hot Eo Es Eops En Ee Er Ew Eh.
  pose proof (ok_own b Hb) as Hown. destruct Hb.
  constructor; rewrite ?Eo, ?Es, ?Eops, ?En, ?Ee, ?Er, ?Ew, ?Eh; try done.
  - intros w' Hw'. by rewrite Hot, ok_others0.
  - lia.
  - intros Hlt. eapply fresh_dots_mono; [apply Hc|]. apply ok_dots0. lia.
Qed.
End invariant.

Lemma increment_cases vv w :
  VersionVector.wf vv → VersionVector.frozen vv = false → (VersionVector.at_ vv w <= max_exact)%Z →
  ∃ vv' r, VersionVector.increment w vv = (vv', r) ∧
    VersionVector.wf vv' ∧ VersionVector.frozen vv' = false ∧
    (∀ w', w' ≠ w → VersionVector.get vv' w' = VersionVector.get vv w') ∧
    match r with
    | Ok d =>
        let c := VersionVector.at_ vv w in let c' := VersionVector.at_ vv' w in
        (c < max_exact ∧ c' = c + 1 ∨ c' = max_exact)%Z ∧ (c <= c' <= max_exact)%Z ∧
        d = Dot.mk w c' ∧ valid_dot d
    | Throw _ => vv' = vv
    end.
Proof.
  intros Hwf Hfr Hle. pose proof (VersionVector.wf_at_nonneg vv w Hwf) as Hnn.
  set (c := VersionVector.at_ vv w) in *.
  assert (∃ c', js_add c 1 = JInt c' ∧ (c < max_exact ∧ c' = c + 1 ∨ c' = max_exact) ∧
    c <= c' <= max_exact ∧ 1 <= c')%Z as (c' & Ec & Hc & Hc' & H1).
  { destruct (decide (c = max_exact)) as [->|Hne].
    - exists max_exact. rewrite js_add_saturates. unfold max_exact. split_and!; [done|lia..].
    - exists (c + 1)%Z. rewrite js_add_exact by lia. split_and!; [done|lia..]. }
  unfold VersionVector.increment. rewrite Hfr. fold (VersionVector.at_ vv w). fold c. rewrite Ec.
  destruct (str_nonempty w) eqn:Hw.
  - rewrite (proj2 (Dot.dot_new_ok w _ (Dot.mk w c'))) by done.
    eexists _, _. split; [reflexivity|]. cbn [Dot.writerId Dot.counter].
    assert (VersionVector.at_ (VersionVector.mk (<[w:=c']> (VersionVector.entries vv)) false) w = c') as ->.
    { unfold VersionVector.at_. simpl. by rewrite lookup_insert_eq. }
    split_and!; try done; try lia.
    + intros w' c2. simpl. destruct (decide (w = w')) as [->|Hne].
      * rewrite lookup_insert_eq. intros [= <-]. split; [done|lia].
      * rewrite lookup_insert_ne by done. apply Hwf.
    + intros w' Hne. unfold VersionVector.get. simpl. by rewrite lookup_insert_ne.
  - unfold Dot.new. rewrite Hw. eexists _, _. by split.
Qed.

(** ** Every call keeps the invariant *)

Lemma keeps_ext {S A} (I : S → Prop) (m m' : step S A) :
  (∀ s, m s = m' s) → keeps I m' → keeps I m.
Proof. intros He Hm s Hs. rewrite He. by apply Hm. Qed.

Lemma step_bind_assoc {S A B C} (m : step S A) (f : A → step S B) (g : B → step S C) s :
  ((m ≫= f) ≫= g) s = (m ≫= λ a, f a ≫= g) s.
Proof. unfold mbind, step_bind. by destruct (m s) as [s' [a|e]]. Qed.

(** Bookkeeping for one operation: it touches the sets and the schema flag only. *)
Definition records (op : Op) (m : step PatchBuilder unit) : Prop := ∀ b, ∃ b', m b = (b', Ok ()) ∧
  _options b' = _options b ∧ _snapshotState b' = _snapshotState b ∧ _vv b' = _vv b ∧
  _ops b' = _ops b ∧ _nodesAdded b' = nodes_of op ∪ _nodesAdded b ∧
  _edgesAdded b' = edges_of op ∪ _edgesAdded b ∧
  _observedOperands b' = reads_of op ∪ _observedOperands b ∧
  _writes b' = writes_of op ∪ _writes b ∧ _hasEdgeProps b' = _hasEdgeProps b || is_edge_prop op.

(** Closes a goal [records]: the bookkeeping computes. *)
Ltac solve_records :=
  let b := fresh "b" in intros b; eexists; split; [reflexivity|]; simpl;
  split_and!; try reflexivity; try set_solver; try (by rewrite orb_false_r); try (by rewrite orb_true_r).

Section keeping.
Context (E : env) (o : PatchBuilderOptions).
Context (Hkeys : snapshot_keys_ok E).

Abbreviation I := (ok_builder E o).
Abbreviation w := (writerId o).

Lemma keeps_asks {A} (f : PatchBuilder → A) : keeps I (asks f).
Proof. intros b Hb. done. Qed.

Lemma keeps_assertNotCommitted : keeps I _assertNotCommitted.
Proof. apply keep_bind; [apply keeps_asks|auto]. Qed.

Lemma keeps_checked v : keeps I (checked v).
Proof. apply keep_lift. Qed.

Lemma keeps_requireValue v : keeps I (requirePatchPropertyValue v).
Proof. apply keep_bind; [apply keeps_asks|auto]. Qed.

Lemma keeps_push_asset a : keeps I (push_asset a).
Proof. intros b Hb. by apply (ok_same _ _ b); [|auto..]. Qed.

Lemma keeps_log n : keeps I (log_warning n).
Proof. intros b Hb. by apply (ok_same _ _ b); [|auto..]. Qed.

Lemma triple_on_heap {A} (m : step heap A) (φ : A → Prop) :
  (∀ h h' a, m h = (h', Ok a) → φ a) → triple I I (on_heap m) (λ a b, φ a ∧ I b).
Proof.
  intros Hφ b Hb. unfold on_heap. destruct (m (_heap b)) as [h r] eqn:Em.
  assert (∀ b', _options b' = _options b → _snapshotState b' = _snapshotState b → _vv b' = _vv b →
    _ops b' = _ops b → _nodesAdded b' = _nodesAdded b → _edgesAdded b' = _edgesAdded b →
    _observedOperands b' = _observedOperands b → _writes b' = _writes b →
    _hasEdgeProps b' = _hasEdgeProps b → I b') as Hsame.
  { intros b' **. apply (ok_same _ _ b); auto. }
  destruct r as [a|e]; [split; [by eapply Hφ|]|]; by apply Hsame.
Qed.

Lemma triple_getSnapshot : triple I I (_getSnapshotState E) (λ s b, s = snapshot_of E ∧ I b).
Proof.
  intros b Hb. unfold _getSnapshotState, asks, mbind, step_bind.
  pose proof (ok_snapshot _ _ b Hb) as Hs. destruct (_snapshotState b) as [a|] eqn:Ea.
  - unfold mret, step_ret. destruct Hs as [|[= ->]]; [done|]. done.
  - cbn. split; [done|]. apply (ok_same _ _ b); auto.
Qed.

(** Pushing one operation together with its bookkeeping. *)
Lemma keeps_emit op m : op_built E op → dots_of op = [] → records op m → keeps I (push op ≫= λ _, m).
Proof.
  intros Hop Hd Hm b Hb. unfold mbind, step_bind. simpl.
  match goal with |- match m ?b1 with _ => _ end =>
    destruct (Hm b1) as (b' & -> & E1 & E2 & E3 & E4 & E5 & E6 & E7 & E8 & E9) end.
  simpl in *. by apply (ok_push _ _ b b' op).
Qed.

(** An operation with a dot of its own. *)
Lemma keeps_issue {A} (mkop : Dot.Dot → result A) (inj : A → Op) (m : A → step PatchBuilder unit) :
  (∀ d a, valid_dot d → mkop d = Ok a → op_built E (inj a) ∧ dots_of (inj a) = [d] ∧ records (inj a) (m a)) →
  keeps I (w ← asks (λ b, writerId (_options b)); dot ← on_vv (VersionVector.increment w);
    op ← lift (mkop dot); _ ← push (inj op); m op).
Proof.
  intros Hop b Hb. unfold asks, mbind, step_bind. rewrite (proj1 (ok_options _ _ b Hb)).
  destruct (increment_cases (_vv b) w) as (vv' & r & Ei & Hwf & Hfr & Hot & Hr);
    [apply Hb|apply Hb|apply Hb|].
  unfold on_vv. rewrite Ei. destruct r as [d|e].
  - destruct Hr as (Hc & Hle & -> & Hd). unfold lift. destruct (mkop _) as [a|e] eqn:Ea.
    + destruct (Hop _ _ Hd Ea) as (Hbuilt & Hdots & Hm). simpl.
      match goal with |- match m a ?b1 with _ => _ end =>
        destruct (Hm b1) as (b' & -> & E1 & E2 & E3 & E4 & E5 & E6 & E7 & E8 & E9) end.
      simpl in *. apply (ok_push_add _ _ b b' (inj a)); rewrite ?E3; try done.
    + by apply (ok_bump _ _ b).
  - subst vv'. apply (ok_same _ _ b); auto.
Qed.

Lemma keeps_addNode n : keeps I (addNode n).
Proof.
  apply keep_bind; [apply keeps_assertNotCommitted|intros _].
  apply keep_bind; [apply keeps_checked|intros _].
  apply (keeps_issue (λ d, NodeAdd.new (Some n) (Some d)) ONodeAdd
    (λ op, add_nodesAdded n ≫= λ _, add_write n)).
  intros d a Hd ([= ->] & [= ->] & Hn)%NodeAdd_new. split; [done|]. split; [done|]. solve_records.
Qed.

Lemma keeps_addEdge f t l : keeps I (addEdge f t l).
Proof.
  apply keep_bind; [apply keeps_assertNotCommitted|intros _].
  do 3 (apply keep_bind; [apply keeps_checked|intros _]).
  apply (keeps_issue (λ d, EdgeAdd.new (Some f) (Some t) (Some l) (Some d)) OEdgeAdd
    (λ op, add_edgesAdded (encodeEdgeKey f t l) ≫= λ _, add_observed f ≫= λ _, add_observed t ≫= λ _,
      add_write (encodeEdgeKey f t l))).
  intros d a Hd [He [= ->]]%EdgeAdd_new. apply assertEdge_ok in He as ([= ->] & [= ->] & [= ->] & He).
  split; [done|]. split; [done|]. solve_records.
Qed.

(** The dots of an element that is alive in the snapshot. *)
Lemma live_dots_nonempty s e : ORSet.contains s e = true → dots_list (ORSet.getDots s e) ≠ [].
Proof.
  intros (d & Hd & Hn)%ORSet.contains_live E0.
  assert (d ∈ elements (ORSet.getDots s e)) as Hin by (apply elem_of_elements, ORSet.elem_of_getDots; done).
  unfold dots_list in E0. rewrite E0 in Hin. by apply not_elem_of_nil in Hin.
Qed.

Lemma edge_key_parts e : EdgeRecord.edge_ok e →
  str_split FIELD_SEPARATOR (WarpState.key_of e) = [ep_from e; ep_to e; ep_label e].
Proof.
  intros ((_ & Hf & _) & (_ & Ht & _) & _ & Hl).
  unfold WarpState.key_of, encodeEdgeKey. rewrite !split_join by done. by rewrite split_one.
Qed.

(** The keys of the snapshot that are alive. *)
Lemma snapshot_edge s k : snapshot_of E = Some s → k ∈ ORSet.elements (WarpState.edgeAlive s) →
  ∃ e, EdgeRecord.edge_ok e ∧ k = WarpState.key_of e ∧ ORSet.contains (WarpState.edgeAlive s) k = true.
Proof.
  intros Hs Hk%ORSet.elem_of_elements. pose proof Hk as (d & Hd & _)%ORSet.contains_live.
  destruct (Hkeys s Hs k d Hd) as (e & He & ->). by exists e.
Qed.

(** A removal of an edge with the dots that the snapshot shows. *)
Lemma keeps_edge_remove s e :
  snapshot_of E = Some s →
  dots_list (ORSet.getDots (WarpState.edgeAlive s) (WarpState.key_of e)) ≠ [] →
  keeps I (op ← lift (EdgeRemove.new (Some (ep_from e)) (Some (ep_to e)) (Some (ep_label e))
      (Some (Some <$> dots_list (ORSet.getDots (WarpState.edgeAlive s) (WarpState.key_of e)))));
    _ ← push (OEdgeRemove op);
    add_observed (WarpState.key_of e)).
Proof.
  intros Hs Hne.
  apply (triple_bind _ _ _ _ (λ op b, (op_built E (OEdgeRemove op) ∧ EdgeRemove.edge op = e) ∧ I b)).
  - apply triple_lift; [done|]. intros op b [Hed [Hds Hdo]%assertDots_ok]%EdgeRemove_new Hb.
    apply assertEdge_ok in Hed as ([= Ef] & [= Et] & [= El] & Hid).
    assert (EdgeRemove.edge op = e) as Ee by (destruct e, (EdgeRemove.edge op); simpl in *; by subst).
    injection Hds as Hds. apply (inj (fmap Some)) in Hds. split; [|done]. split; [|done].
    split; [done|]. split; [done|]. exists s. split; [done|]. rewrite Ee. split; [done|]. by rewrite <- Hds.
  - intros op. apply triple_pure. intros [Hop Ee]. apply keeps_emit; [done|done|].
    assert (reads_of (OEdgeRemove op) = {[WarpState.key_of e]}) as Er by (simpl; by rewrite Ee).
    intros b. eexists. split; [reflexivity|]. rewrite Er. simpl. split_and!; try done; try set_solver.
    by rewrite orb_false_r.
Qed.

Lemma keeps_cascade_edge s k : snapshot_of E = Some s →
  k ∈ ORSet.elements (WarpState.edgeAlive s) → keeps I (cascade_edge s k).
Proof.
  intros Hs Hk. destruct (snapshot_edge s k Hs Hk) as (e & He & -> & Hc).
  unfold cascade_edge. rewrite edge_key_parts by done. cbn [lookup list_lookup].
  by apply keeps_edge_remove; [|apply live_dots_nonempty].
Qed.

(** The check of the observed dots, for what follows it. *)
Lemma keeps_observed dots {A} (k : () → step PatchBuilder A) :
  (dots ≠ [] → keeps I (k ())) →
  keeps I (lift (assertObservedDotsForRemove dots) ≫= k).
Proof.
  intros Hk. apply (triple_bind _ _ _ _ (λ _ b, dots ≠ [] ∧ I b)).
  - apply triple_lift; [done|]. intros [] b Hr Hb. split; [|done].
    apply require_ok in Hr. by destruct dots.
  - intros []. by apply triple_pure.
Qed.

(** The snapshot, for what follows it. *)
Lemma keeps_snapshot {A} (k : option State → step PatchBuilder A) :
  keeps I (k (snapshot_of E)) → keeps I (_getSnapshotState E ≫= k).
Proof.
  intros Hk. eapply triple_bind; [apply triple_getSnapshot|]. intros st. cbn beta.
  apply triple_pure. by intros ->.
Qed.

Lemma keeps_throw {A} e : keeps I (lift (Throw e) : step PatchBuilder A).
Proof. by apply triple_throw. Qed.

Lemma keeps_removeEdge f t l : keeps I (removeEdge E f t l).
Proof.
  apply keep_bind; [apply keeps_assertNotCommitted|intros _]. apply keeps_snapshot.
  destruct (snapshot_of E) as [s|] eqn:Hs; [|apply keeps_throw].
  apply keeps_observed. intros Hne. by apply (keeps_edge_remove s (EdgeParts f t l)).
Qed.

Lemma keeps_removeNode n : keeps I (removeNode E n).
Proof.
  apply keep_bind; [apply keeps_assertNotCommitted|intros _].
  apply keeps_snapshot. apply keep_bind; [apply keeps_asks|intros pol].
  destruct (snapshot_of E) as [s|] eqn:Hs; [|apply keeps_throw].
  destruct (findAttachedData s n) as [[edges props] hasData] eqn:Ef.
  apply keep_bind.
  { destruct pol; destruct hasData; try apply keeps_throw; try apply keeps_ret; try apply keeps_log.
    all: apply triple_for_each; intros k Hk; apply keeps_cascade_edge; [done|];
      unfold findAttachedData in Ef; injection Ef as <- _ _;
      by apply list_elem_of_filter in Hk as [_ Hk]. }
  intros []. apply keeps_observed. intros Hne.
  apply (triple_bind _ _ _ _ (λ op b, (op_built E (ONodeRemove op) ∧ NodeRemove.node op = n) ∧ I b)).
  - apply triple_lift; [done|]. intros op b ([= En] & Hds & Hok)%NodeRemove_new Hb.
    injection Hds as Hds. apply (inj (fmap Some)) in Hds. split; [|done]. split; [|done].
    split; [done|]. split; [done|]. exists s. split; [done|]. rewrite <- En. split; [done|]. by rewrite <- Hds.
  - intros op. apply triple_pure. intros [Hop <-]. apply keeps_emit; [done|done|]. solve_records.
Qed.

(** *** Properties *)

Lemma node_intent_spec n k v h h' i :
  NodePropertyWriteIntent.fromLegacyProperty n k v h = (h', Ok i) →
  NodePropertyWriteIntent.nodeId i = n ∧ NodePropertyWriteIntent.propertyKey i = k.
Proof.
  unfold NodePropertyWriteIntent.fromLegacyProperty, mbind, step_bind, lift.
  destruct (NodeRecord.fromLegacyNodeId (Some n)) as [r|] eqn:Er; [|done].
  apply NodeRecord.fromLegacyNodeId_ok in Er as [Hn ->].
  destruct (LegacyNodePropertyKey.new k) as [ky|] eqn:Ek; [|done].
  assert (LegacyNodePropertyKey.toString ky = k) as Hk.
  { unfold LegacyNodePropertyKey.new in Ek. invert_ok. subst ky. simpl.
    unfold NodePropertyProjection.requireLegacyPropertyKeyValue in Ha. invert_ok. done. }
  destruct (LegacyPropertyValue.new v h) as [h1 [lv|]]; [|done]. cbn. by intros [= <- <-].
Qed.

Lemma edge_intent_spec e k v h h' i :
  EdgePropertyWriteIntent.fromLegacyProperty e k v h = (h', Ok i) →
  EdgePropertyWriteIntent.edgeTarget i = e ∧ EdgePropertyWriteIntent.propertyKey i = k.
Proof.
  unfold EdgePropertyWriteIntent.fromLegacyProperty, mbind, step_bind, lift.
  destruct (EdgeRecord.fromLegacyEdge e) as [r|] eqn:Er; [|done].
  apply EdgeRecord.fromLegacyEdge_ok in Er as [He ->].
  destruct (LegacyEdgePropertyKey.new k) as [ky|] eqn:Ek; [|done].
  assert (LegacyEdgePropertyKey.toString ky = k) as Hk.
  { unfold LegacyEdgePropertyKey.new in Ek. invert_ok. subst ky. simpl.
    unfold NodePropertyProjection.requireLegacyPropertyKeyValue in Ha. invert_ok. done. }
  destruct (LegacyPropertyValue.new v h) as [h1 [lv|]]; [|done]. cbn. intros [= <- <-].
  by destruct e.
Qed.

Lemma keeps_setProperty n k v : keeps I (setProperty n k v).
Proof.
  apply keep_bind; [apply keeps_assertNotCommitted|intros _].
  do 2 (apply keep_bind; [apply keeps_checked|intros _]).
  apply keep_bind; [apply keeps_requireValue|intros v'].
  eapply triple_bind; [apply (triple_on_heap _ (λ i, NodePropertyWriteIntent.nodeId i = n ∧
    NodePropertyWriteIntent.propertyKey i = k)), node_intent_spec|].
  intros i. cbn beta. apply triple_pure. intros [Hn Hk]. unfold _lowerNodePropertyIntent. rewrite Hn, Hk.
  apply keep_bind; [eapply triple_weaken; [apply (triple_on_heap _ (λ _, True)); done|done|by intros ? ? []]|].
  intros v2.
  apply (triple_bind _ _ _ _ (λ op b, (op_built E (ONodePropSet op) ∧ NodePropSet.node op = n) ∧ I b)).
  - apply triple_lift; [done|]. intros op b ([= En] & _ & _ & Hok)%NodePropSet_new Hb. by rewrite <- En.
  - intros op. apply triple_pure. intros [Hop <-]. apply keeps_emit; [done|done|]. solve_records.
Qed.

Lemma keeps_assertEdgeExists f t l :
  triple I I (_assertEdgeExists E f t l) (λ ek b, ek = encodeEdgeKey f t l ∧ I b).
Proof.
  unfold _assertEdgeExists. eapply triple_bind; [apply keeps_asks|]. intros added.
  case_decide; [by apply triple_ret|].
  eapply triple_bind; [apply triple_getSnapshot|]. intros st. cbn beta. apply triple_pure. intros ->.
  destruct (snapshot_of E) as [s|]; [|by apply triple_throw].
  destruct (ORSet.contains _ _); [by apply triple_ret|by apply triple_throw].
Qed.

Lemma keeps_assertNodeExists n : keeps I (_assertNodeExistsForContent E n).
Proof.
  unfold _assertNodeExistsForContent. apply keep_bind; [apply keeps_asks|]. intros added.
  case_decide; [apply keeps_ret|]. apply keeps_snapshot.
  destruct (snapshot_of E) as [s|]; [apply keep_lift|apply keeps_throw].
Qed.

Lemma keeps_setEdgeProperty f t l k v : keeps I (setEdgeProperty E f t l k v).
Proof.
  apply keep_bind; [apply keeps_assertNotCommitted|intros _].
  do 4 (apply keep_bind; [apply keeps_checked|intros _]).
  apply keep_bind; [apply keeps_requireValue|intros v'].
  eapply triple_bind; [apply (triple_on_heap _ (λ i, EdgePropertyWriteIntent.edgeTarget i = EdgeParts f t l ∧
    EdgePropertyWriteIntent.propertyKey i = k)), edge_intent_spec|].
  intros i. cbn beta. apply triple_pure. intros [He Hk].
  eapply triple_bind; [apply keeps_assertEdgeExists|]. intros ek. cbn beta. apply triple_pure. intros ->.
  eapply keeps_ext; [intros b; unfold _lowerEdgePropertyIntent; apply step_bind_assoc|].
  rewrite He, Hk.
  apply keep_bind; [eapply triple_weaken; [apply (triple_on_heap _ (λ _, True)); done|done|by intros ? ? []]|].
  intros v2. eapply keeps_ext; [intros b; apply step_bind_assoc|].
  apply (triple_bind _ _ _ _ (λ op b, (op_built E (OEdgePropSet op) ∧ EdgePropSet.edge op = EdgeParts f t l) ∧ I b)).
  - apply triple_lift; [done|]. intros op b ([= Ef] & [= Et] & [= El] & _ & _ & Hok)%EdgePropSet_new Hb.
    split; [|done]. split; [done|]. destruct (EdgePropSet.edge op). simpl in *. by subst.
  - intros op. apply triple_pure. intros [Hop Ee].
    eapply keeps_ext; [intros b; apply step_bind_assoc|].
    apply keeps_emit; [done|done|].
    assert (reads_of (OEdgePropSet op) = {[encodeEdgeKey f t l]}) as Er by (simpl; by rewrite Ee).
    assert (writes_of (OEdgePropSet op) = {[encodeEdgeKey f t l]}) as Ew by (simpl; by rewrite Ee).
    intros b. eexists. split; [reflexivity|]. rewrite Er, Ew. simpl. split_and!; try done; try set_solver.
    by rewrite orb_true_r.
Qed.

Lemma keeps_emitEffect `{NumberText} k p i : keeps I (emitEffect k p i).
Proof.
  apply keep_bind; [apply keeps_assertNotCommitted|intros _].
  apply keep_bind; [destruct k as [k|]; [destruct (str_nonempty k)|]; auto; apply keeps_throw|intros kind].
  do 3 (apply keep_bind; [apply keeps_asks|intros ?]).
  apply keep_bind; [apply keeps_addNode|intros _].
  do 2 (apply keep_bind; [apply keeps_setProperty|intros _]).
  apply keep_bind; [|auto].
  destruct p; try apply keeps_ret; (apply keep_bind; [apply keeps_asks|intros h]);
    (apply keep_bind; [apply keep_lift|intros text]); apply keeps_setProperty.
Qed.

(** *** Content *)

Lemma keeps_lowerNodeContent i : keeps I (_lowerNodeContentIntent i).
Proof.
  apply keep_bind; [apply keep_lift|intros n].
  do 2 (apply keep_bind; [apply keeps_setProperty|intros _]). apply keeps_setProperty.
Qed.

Lemma keeps_lowerEdgeContent i : keeps I (_lowerEdgeContentIntent E i).
Proof.
  apply keep_bind; [apply keep_lift|intros t].
  do 2 (apply keep_bind; [apply keeps_setEdgeProperty|intros _]). apply keeps_setEdgeProperty.
Qed.

Lemma keeps_requireAssetStorage : keeps I requireAssetStorage.
Proof. apply keep_bind; [apply keeps_asks|auto]. Qed.

Lemma keeps_edgeExists f t l : keeps I (_assertEdgeExists E f t l).
Proof. eapply triple_weaken; [apply keeps_assertEdgeExists|done|by intros ? ? []]. Qed.

Lemma keeps_attachContent_request n c m : keeps I (attachContent_request E n c m).
Proof.
  apply keep_bind; [apply keeps_assertNotCommitted|intros _].
  do 2 (apply keep_bind; [apply keeps_checked|intros _]).
  apply keep_bind; [apply keeps_assertNodeExists|intros _].
  apply keep_bind; [apply keeps_requireAssetStorage|intros _].
  apply keep_bind; [apply keeps_asks|auto].
Qed.

Lemma keeps_attachEdgeContent_request f t l c m : keeps I (attachEdgeContent_request E f t l c m).
Proof.
  apply keep_bind; [apply keeps_assertNotCommitted|intros _].
  do 4 (apply keep_bind; [apply keeps_checked|intros _]).
  apply keep_bind; [apply keeps_edgeExists|intros _].
  apply keep_bind; [apply keeps_requireAssetStorage|intros _].
  apply keep_bind; [apply keeps_asks|auto].
Qed.

Lemma keeps_attachContent_answer n m s : keeps I (attachContent_answer n m s).
Proof.
  do 2 (apply keep_bind; [apply keep_lift|intros ?]).
  apply keep_bind; [apply keeps_lowerNodeContent|intros _]. apply keeps_push_asset.
Qed.

Lemma keeps_attachEdgeContent_answer f t l m s : keeps I (attachEdgeContent_answer E f t l m s).
Proof.
  do 2 (apply keep_bind; [apply keep_lift|intros ?]).
  apply keep_bind; [apply keeps_lowerEdgeContent|intros _]. apply keeps_push_asset.
Qed.

Lemma keeps_clearContent n : keeps I (clearContent E n).
Proof.
  apply keep_bind; [apply keeps_assertNotCommitted|intros _].
  do 2 (apply keep_bind; [apply keeps_checked|intros _]).
  apply keep_bind; [apply keeps_assertNodeExists|intros _].
  do 2 (apply keep_bind; [apply keeps_setProperty|intros _]). apply keeps_setProperty.
Qed.

Lemma keeps_clearEdgeContent f t l : keeps I (clearEdgeContent E f t l).
Proof.
  apply keep_bind; [apply keeps_assertNotCommitted|intros _].
  do 4 (apply keep_bind; [apply keeps_checked|intros _]).
  apply keep_bind; [apply keeps_edgeExists|intros _].
  do 2 (apply keep_bind; [apply keeps_setEdgeProperty|intros _]). apply keeps_setEdgeProperty.
Qed.

(** The flags that a commit changes. *)
Lemma ok_set_commit b c1 c2 : I b → I (set_commit c1 c2 b).
Proof. intros Hb. apply (ok_same _ _ b); auto. Qed.
End keeping.

(** ** Sequences of calls *)

(** What a client can do to a builder before it commits; the two halves of an
    attachment are calls of their own, so that others may come in between. *)
Inductive call :=
  | CAddNode (nodeId : string)
  | CRemoveNode (nodeId : string)
  | CAddEdge (from to label : string)
  | CRemoveEdge (from to label : string)
  | CSetProperty (nodeId key : string) (value : jsval)
  | CSetEdgeProperty (from to label key : string) (value : jsval)
  | CEmitEffect (kind : option string) (payload : jsval) (effectId : option string)
  | CAttach (nodeId : string) (content : ContentInput) (metadata : ContentMetadataInput)
  | CAttached (nodeId : string) (mime : option string) (staged : PatchBuilderContent.StagedAsset)
  | CAttachEdge (from to label : string) (content : ContentInput) (metadata : ContentMetadataInput)
  | CAttachedEdge (from to label : string) (mime : option string) (staged : PatchBuilderContent.StagedAsset)
  | CClearContent (nodeId : string)
  | CClearEdgeContent (from to label : string).

Definition run `{NumberText} (E : env) (c : call) : step PatchBuilder unit :=
  match c with
  | CAddNode n => addNode n
  | CRemoveNode n => removeNode E n
  | CAddEdge f t l => addEdge f t l
  | CRemoveEdge f t l => removeEdge E f t l
  | CSetProperty n k v => setProperty n k v
  | CSetEdgeProperty f t l k v => setEdgeProperty E f t l k v
  | CEmitEffect k p i => _ ← emitEffect k p i; mret ()
  | CAttach n c m => _ ← attachContent_request E n c m; mret ()
  | CAttached n m s => attachContent_answer n m s
  | CAttachEdge f t l c m => _ ← attachEdgeContent_request E f t l c m; mret ()
  | CAttachedEdge f t l m s => attachEdgeContent_answer E f t l m s
  | CClearContent n => clearContent E n
  | CClearEdgeContent f t l => clearEdgeContent E f t l
  end.

(** The client catches what a call throws and goes on. *)
Definition run_all `{NumberText} (E : env) (cs : list call) (b : PatchBuilder) : PatchBuilder :=
  foldl (λ b c, (run E c b).1) b cs.

Lemma keeps_call `{NumberText} E o c : snapshot_keys_ok E → keeps (ok_builder E o) (run E c).
Proof.
  intros Hk. destruct c; cbn [run];
    eauto using keeps_addNode, keeps_removeNode, keeps_addEdge, keeps_removeEdge, keeps_setProperty,
      keeps_setEdgeProperty, keeps_attachContent_answer, keeps_attachEdgeContent_answer,
      keeps_clearContent, keeps_clearEdgeContent.
  - by apply keep_bind; [apply keeps_emitEffect|auto].
  - by apply keep_bind; [apply keeps_attachContent_request|auto].
  - by apply keep_bind; [apply keeps_attachEdgeContent_request|auto].
Qed.

(** The options a builder is made with. *)
Definition options_ok (o : PatchBuilderOptions) : Prop :=
  VersionVector.wf (versionVector o) ∧ (VersionVector.at_ (versionVector o) (writerId o) <= max_exact)%Z.

Lemma builder_new_ok E o h : options_ok o → ok_builder E o (new o h).
Proof.
  intros [Hwf Hle]. constructor; simpl; try done; try (by left).
  intros _. split; constructor.
Qed.

Lemma run_all_ok `{NumberText} E o h cs :
  options_ok o → snapshot_keys_ok E → ok_builder E o (run_all E cs (new o h)).
Proof.
  intros Ho Hk. unfold run_all. assert (ok_builder E o (new o h)) as Hb by (by apply builder_new_ok).
  revert Hb. generalize (new o h). induction cs as [|c cs IH]; intros b Hb; [done|].
  simpl. apply IH. apply keeps_run; [by apply keeps_call|done].
Qed.
