(* ===== verification/PatchMeaning.v ===== *)
(** What a built patch does to the state it was built on: it shows what the
    calls asked for. *)
From S2P Require Export PatchBuilding.
#[local] Open Scope string_scope.
#[local] Open Scope list_scope.
Import OpNormalizer JoinReducer PatchBuilder.

(** ** Playing operations *)

(** The event of the [i]-th operation. *)
Definition event_at (l : Z) (w sha : string) (i : Z) : EventId := EventId.mk l w sha i.

(** The mutations of operations with the indices from [i] on. *)
Fixpoint play (l : Z) (w sha : string) (i : Z) (ops : list Op) (s : State) : State :=
  match ops with
  | [] => s
  | o :: ops' => play l w sha (i + 1) ops' (mutate o (event_at l w sha i) s).1
  end.

Lemma mutate_ok o ev s : canonical o = true → ∃ s', mutate o ev s = (s', Ok ()).
Proof. intros Hc. destruct o; try done; by eexists. Qed.

Lemma mutate_live o ev s : canonical o = true → live_state s → live_state (mutate o ev s).1.
Proof.
  intros Hc Hs. rewrite mutate_delta by done. apply ws_join_live; [done|apply delta_live].
Qed.

(** A lowered operation is normalized back, and gets its event. *)
Lemma prepare_lowered o raw : op_ok o → canonical o = true → lowerCanonicalOp o = Ok raw →
  prepare (RObject (Instance raw)) = Ok (Some o).
Proof.
  intros Ho Hc Hl. destruct (normalize_lower o raw Ho Hc Hl) as [_ Hn].
  unfold prepare, readReducerOpType, like_type, assertKnownReducerOp. cbn [mbind result_bind].
  assert (OpValidator.isKnownRaw (RObject (Instance raw)) || OpValidator.isKnownCanonical (RObject (Instance raw))
    = true) as -> by (destruct raw; reflexivity).
  cbn [require mbind result_bind]. by rewrite Hn.
Qed.

Lemma event_id_at p l sha i : JoinReducer.lamport p = JInt l → (1 <= l)%Z →
  str_nonempty (JoinReducer.writer p) = true → EventId.hex_oid sha = true → (0 <= i)%Z →
  event_id p sha i = Ok (event_at l (JoinReducer.writer p) sha i).
Proof.
  intros Hl H1 Hne Hsha Hi. unfold event_id. rewrite Hl. apply EventId.event_new_ok. simpl. split_and!; done || lia.
Qed.

Section play.
Context (l : Z) (w sha : string).

Lemma play_live i ops s :
  Forall (λ o, canonical o = true) ops → live_state s → live_state (play l w sha i ops s).
Proof.
  intros Hc. revert i s. induction Hc as [|o ops Ho _ IH]; intros i s Hs; cbn [play]; [done|].
  apply IH. by apply mutate_live.
Qed.

(** Lowered operations are normalized back and played one after the other. *)
Lemma for_each_play p i ops raws s :
  JoinReducer.lamport p = JInt l → JoinReducer.writer p = w → (1 <= l)%Z → str_nonempty w = true →
  EventId.hex_oid sha = true → (0 <= i)%Z →
  Forall (λ o, op_ok o ∧ canonical o = true) ops → map_result lowerCanonicalOp ops = Ok raws →
  for_each (fast_round p sha) (imap (λ j x, (i + Z.of_nat j, RObject (Instance x))%Z) raws) s
  = (play l w sha i ops s, Ok ()).
Proof.
  intros Hl Hw H1 Hne Hsha. revert i raws s. induction ops as [|o ops IH]; intros i raws s Hi Hops Hm.
  { injection Hm as <-. done. }
  cbn [map_result] in Hm. invert_ok. subst raws. inversion Hops as [|? ? [Ho Hc] Hops']; subst.
  cbn [imap for_each play].
  replace (i + Z.of_nat 0)%Z with i by lia.
  assert (fast_round p sha (i, RObject (Instance a)) s = ((mutate o (event_at l (JoinReducer.writer p) sha i) s).1, Ok ())) as Hr.
  { unfold fast_round, mbind, step_bind, lift.
    rewrite (prepare_lowered o a Ho Hc Ha), (event_id_at p l sha i) by done. cbn [mbind].
    destruct (mutate_ok o (event_at l (JoinReducer.writer p) sha i) s Hc) as [s' Es]. by rewrite Es. }
  unfold mbind, step_bind. rewrite Hr.
  rewrite <- (IH (i + 1)%Z a0) by (done || lia). f_equal.
  apply imap_ext. intros j x _. simpl. f_equal. lia.
Qed.

Lemma play_frontier i ops s : Forall (λ o, canonical o = true) ops →
  WarpState.observedFrontier (play l w sha i ops s) = WarpState.observedFrontier s.
Proof.
  intros Hc. revert i s. induction Hc as [|o ops Ho _ IH]; intros i s; cbn [play]; [done|].
  rewrite IH. destruct o; try done; simpl; unfold WarpState.prop_put; by repeat case_match.
Qed.

(** *** The alive sets *)

Definition node_added (ops : list Op) (n d : string) : Prop :=
  ∃ a, ONodeAdd a ∈ ops ∧ NodeAdd.node a = n ∧ d = Dot.encode (NodeAdd.dot a).
Definition node_gone (ops : list Op) (d : string) : Prop :=
  ∃ r, ONodeRemove r ∈ ops ∧ d ∈ NodeRemove.observedDots r.
Definition edge_added (ops : list Op) (k d : string) : Prop :=
  ∃ a, OEdgeAdd a ∈ ops ∧ EdgeAdd.key a = k ∧ d = Dot.encode (EdgeAdd.dot a).
Definition edge_gone (ops : list Op) (d : string) : Prop :=
  ∃ r, OEdgeRemove r ∈ ops ∧ d ∈ EdgeRemove.observedDots r.

(** What the first operation adds and removes. *)
Definition adds_node (o : Op) (n d : string) : Prop :=
  match o with ONodeAdd a => NodeAdd.node a = n ∧ d = Dot.encode (NodeAdd.dot a) | _ => False end.
Definition kills_node (o : Op) (d : string) : Prop :=
  match o with ONodeRemove r => d ∈ NodeRemove.observedDots r | _ => False end.
Definition adds_edge (o : Op) (k d : string) : Prop :=
  match o with OEdgeAdd a => EdgeAdd.key a = k ∧ d = Dot.encode (EdgeAdd.dot a) | _ => False end.
Definition kills_edge (o : Op) (d : string) : Prop :=
  match o with OEdgeRemove r => d ∈ EdgeRemove.observedDots r | _ => False end.

Lemma op_cons {A} (inj : A → Op) (P : A → Prop) (Q : Op → Prop) o ops :
  (∀ a, Q (inj a) ↔ P a) → (∀ o', Q o' → ∃ a, o' = inj a) →
  (∃ a, inj a ∈ o :: ops ∧ P a) ↔ Q o ∨ ∃ a, inj a ∈ ops ∧ P a.
Proof.
  intros HQ Hinj. split.
  - intros (a & [<-|Ha]%elem_of_cons & HP); [left; by apply HQ|right; by exists a].
  - intros [Ho|(a & Ha & HP)]; [|exists a; split; [by right|done]].
    destruct (Hinj o Ho) as [a ->]. exists a. split; [by left|by apply HQ].
Qed.

Lemma node_added_cons o ops n d : node_added (o :: ops) n d ↔ adds_node o n d ∨ node_added ops n d.
Proof. apply (op_cons ONodeAdd _ (λ o, adds_node o n d)); [done|]. intros []; try done. by eexists. Qed.
Lemma node_gone_cons o ops d : node_gone (o :: ops) d ↔ kills_node o d ∨ node_gone ops d.
Proof. apply (op_cons ONodeRemove _ (λ o, kills_node o d)); [done|]. intros []; try done. by eexists. Qed.
Lemma edge_added_cons o ops k d : edge_added (o :: ops) k d ↔ adds_edge o k d ∨ edge_added ops k d.
Proof. apply (op_cons OEdgeAdd _ (λ o, adds_edge o k d)); [done|]. intros []; try done. by eexists. Qed.
Lemma edge_gone_cons o ops d : edge_gone (o :: ops) d ↔ kills_edge o d ∨ edge_gone ops d.
Proof. apply (op_cons OEdgeRemove _ (λ o, kills_edge o d)); [done|]. intros []; try done. by eexists. Qed.

Lemma elem_of_add e dot s e' d :
  d ∈ ORSet.dots_of (ORSet.add e dot s) e' ↔ d ∈ ORSet.dots_of s e' ∨ e = e' ∧ d = Dot.encode dot.
Proof. rewrite ORSet.dots_of_add, elem_of_union. case_decide; [rewrite elem_of_singleton|rewrite elem_of_empty]; tauto. Qed.

Lemma elem_of_remove (dots : list string) s d :
  d ∈ ORSet.tombstones (ORSet.remove (list_to_set dots) s) ↔ d ∈ ORSet.tombstones s ∨ d ∈ dots.
Proof. simpl. by rewrite elem_of_union, elem_of_list_to_set. Qed.

(** One mutation, on each of the two sets. *)
Lemma mutate_nodes o ev s e d : canonical o = true →
  (d ∈ ORSet.dots_of (WarpState.nodeAlive (mutate o ev s).1) e ↔
    d ∈ ORSet.dots_of (WarpState.nodeAlive s) e ∨ adds_node o e d) ∧
  (d ∈ ORSet.tombstones (WarpState.nodeAlive (mutate o ev s).1) ↔
    d ∈ ORSet.tombstones (WarpState.nodeAlive s) ∨ kills_node o d).
Proof.
  intros Hc. destruct o as [a|r|a|r|a|a|a|a]; try done; cbn [adds_node kills_node];
    try (split; simpl; tauto).
  - split; [apply elem_of_add|simpl; tauto].
  - split; [unfold ORSet.dots_of; simpl; tauto|apply elem_of_remove].
Qed.

Lemma mutate_edges o ev s e d : canonical o = true →
  (d ∈ ORSet.dots_of (WarpState.edgeAlive (mutate o ev s).1) e ↔
    d ∈ ORSet.dots_of (WarpState.edgeAlive s) e ∨ adds_edge o e d) ∧
  (d ∈ ORSet.tombstones (WarpState.edgeAlive (mutate o ev s).1) ↔
    d ∈ ORSet.tombstones (WarpState.edgeAlive s) ∨ kills_edge o d).
Proof.
  intros Hc. destruct o as [a|r|a|r|a|a|a|a]; try done; cbn [adds_edge kills_edge];
    try (split; simpl; tauto).
  - split; [apply elem_of_add|simpl; tauto].
  - split; [unfold ORSet.dots_of; simpl; tauto|apply elem_of_remove].
Qed.

Lemma play_nodes i ops s e d :
  Forall (λ o, canonical o = true) ops →
  (d ∈ ORSet.dots_of (WarpState.nodeAlive (play l w sha i ops s)) e ↔
    d ∈ ORSet.dots_of (WarpState.nodeAlive s) e ∨ node_added ops e d) ∧
  (d ∈ ORSet.tombstones (WarpState.nodeAlive (play l w sha i ops s)) ↔
    d ∈ ORSet.tombstones (WarpState.nodeAlive s) ∨ node_gone ops d).
Proof.
  intros Hc. revert i s. induction Hc as [|o ops Ho _ IH]; intros i s; cbn [play].
  { unfold node_added, node_gone. set_solver. }
  destruct (IH (i + 1)%Z (mutate o (event_at l w sha i) s).1) as [-> ->].
  destruct (mutate_nodes o (event_at l w sha i) s e d Ho) as [-> ->].
  rewrite node_added_cons, node_gone_cons. tauto.
Qed.

Lemma play_edges i ops s e d :
  Forall (λ o, canonical o = true) ops →
  (d ∈ ORSet.dots_of (WarpState.edgeAlive (play l w sha i ops s)) e ↔
    d ∈ ORSet.dots_of (WarpState.edgeAlive s) e ∨ edge_added ops e d) ∧
  (d ∈ ORSet.tombstones (WarpState.edgeAlive (play l w sha i ops s)) ↔
    d ∈ ORSet.tombstones (WarpState.edgeAlive s) ∨ edge_gone ops d).
Proof.
  intros Hc. revert i s. induction Hc as [|o ops Ho _ IH]; intros i s; cbn [play].
  { unfold edge_added, edge_gone. set_solver. }
  destruct (IH (i + 1)%Z (mutate o (event_at l w sha i) s).1) as [-> ->].
  destruct (mutate_edges o (event_at l w sha i) s e d Ho) as [-> ->].
  rewrite edge_added_cons, edge_gone_cons. tauto.
Qed.

(** *** The registers *)

(** The property an operation sets. *)
Definition set_of (o : Op) : option (string * jsval) :=
  match o with
  | ONodePropSet p => Some (encodePropKey (NodePropSet.node p) (NodePropSet.key p), NodePropSet.value p)
  | OEdgePropSet p => Some (EdgePropSet.prop_key p, EdgePropSet.value p)
  | _ => None
  end.

(** The last value set, or the one there was. *)
Fixpoint last_set (k : string) (ops : list Op) (old : option jsval) : option jsval :=
  match ops with
  | [] => old
  | o :: ops' =>
      last_set k ops' (match set_of o with
        | Some (k', v) => if decide (k = k') then Some v else old
        | None => old
        end)
  end.

(** Every register was written before the [i]-th operation. *)
Definition before (i : Z) (s : State) : Prop :=
  ∀ k (r : WarpState.register), WarpState.prop s !! k = Some r →
    (EventId.compareEventIds (LWW.eventId r) (event_at l w sha i) < 0)%Z.

Lemma event_at_lt i j : (i < j)%Z → (EventId.compareEventIds (event_at l w sha i) (event_at l w sha j) < 0)%Z.
Proof.
  intros Hij. unfold EventId.compareEventIds, cmp_step. simpl.
  rewrite (decide_True (P := l = l)), (decide_True (P := w = w)), (decide_True (P := sha = sha)) by done.
  rewrite (decide_False (P := i = j)) by lia. by rewrite (proj2 (Z.ltb_lt i j)).
Qed.

Lemma prop_put_before i k v s :
  before i s →
  WarpState.prop (WarpState.prop_put k (LWW.mk (event_at l w sha i) v) s)
    = <[k := LWW.mk (event_at l w sha i) v]> (WarpState.prop s) ∧
  before (i + 1) (WarpState.prop_put k (LWW.mk (event_at l w sha i) v) s).
Proof.
  intros Hb.
  assert (WarpState.prop (WarpState.prop_put k (LWW.mk (event_at l w sha i) v) s)
    = <[k := LWW.mk (event_at l w sha i) v]> (WarpState.prop s)) as Hp.
  { unfold WarpState.prop_put. destruct (WarpState.prop s !! k) as [r|] eqn:Er; cbn [LWW.max LWW.eventId]; [|done].
    specialize (Hb k r Er). by rewrite (proj2 (Z.leb_gt _ _)) by lia. }
  split; [done|]. intros k' r. rewrite Hp. intros [[<- <-]|[_ Hr]]%lookup_insert_Some.
  - simpl. apply event_at_lt. lia.
  - apply (cmp_trans _ (event_at l w sha i)); [by apply (Hb k')|]. apply event_at_lt. lia.
Qed.

Lemma play_props i ops s k :
  Forall (λ o, canonical o = true) ops → before i s →
  LWW.value <$> WarpState.prop (play l w sha i ops s) !! k
  = last_set k ops (LWW.value <$> WarpState.prop s !! k).
Proof.
  intros Hc. revert i s. induction Hc as [|o ops Ho _ IH]; intros i s Hb; cbn [play last_set]; [done|].
  assert (∀ k' v, (mutate o (event_at l w sha i) s).1
      = WarpState.prop_put k' (LWW.mk (event_at l w sha i) v) s →
    LWW.value <$> WarpState.prop (play l w sha (i + 1) ops (mutate o (event_at l w sha i) s).1) !! k
    = last_set k ops (if decide (k = k') then Some v else LWW.value <$> WarpState.prop s !! k)) as Hset.
  { intros k' v ->. destruct (prop_put_before i k' v s Hb) as [Hp Hb']. rewrite IH by done.
    f_equal. rewrite Hp. case_decide as Hk; [subst; by rewrite lookup_insert_eq|by rewrite lookup_insert_ne]. }
  assert (WarpState.prop (mutate o (event_at l w sha i) s).1 = WarpState.prop s →
    LWW.value <$> WarpState.prop (play l w sha (i + 1) ops (mutate o (event_at l w sha i) s).1) !! k
    = last_set k ops (LWW.value <$> WarpState.prop s !! k)) as Hsame.
  { intros Hp. rewrite IH, Hp; [done|]. intros k' r. rewrite Hp. intros Hr.
    apply (cmp_trans _ (event_at l w sha i)); [by apply (Hb k')|]. apply event_at_lt. lia. }
  destruct o as [a|r|a|r|a|a|a|a]; try done; cbn [set_of]; try by apply Hsame.
  - by apply Hset.
  - by apply Hset.
Qed.
End play.

(** ** The patch can be built *)

Lemma serialize_wf vv : VersionVector.wf vv →
  VersionVector.serialize vv
  = Ok ((λ k, (k, VersionVector.at_ vv k)) <$> js_sort compareStrings (VersionVector.keys vv)).
Proof.
  intros Hwf. apply map_result_fmap. intros k Hk%elem_of_js_sort.
  unfold VersionVector.keys in Hk. apply list_elem_of_fmap in Hk as ([k' c] & -> & Hk).
  apply elem_of_map_to_list in Hk. simpl. unfold VersionVector.get, VersionVector.at_. rewrite Hk.
  simpl. destruct (Hwf k' c Hk) as [_ ?]. by rewrite (proj2 (Z.eqb_neq c 0)) by lia.
Qed.

Lemma collect_positive (f : string → Z) ks acc :
  Forall (λ k, str_nonempty k = true ∧ (0 < f k)%Z) ks → NoDup ks →
  (∀ k, k ∈ ks → acc !! k = None) →
  ∃ m, VersionVector.collect ((λ k, (k, JInt (f k))) <$> ks) acc = Ok m ∧
    ∀ k, m !! k = if decide (k ∈ ks) then Some (f k) else acc !! k.
Proof.
  intros Hks Hnd. revert acc. induction Hks as [|k ks [Hk Hf] _ IH]; intros acc Hacc.
  - exists acc. split; [done|]. done.
  - inversion Hnd as [|? ? Hnin Hnd']; subst. csimpl.
    rewrite (proj2 (VersionVector.validateEntry_ok k (JInt (f k)) (f k))) by (split_and!; done || lia).
    cbn [mbind result_bind]. rewrite (proj2 (Z.ltb_lt _ _)) by done.
    destruct (IH Hnd' (<[k:=f k]> acc)) as (m & Hm & Hl).
    { intros k' Hk'. rewrite lookup_insert_ne by (by intros ->). apply Hacc. by right. }
    exists m. split; [done|]. intros k'. rewrite Hl.
    destruct (decide (k' ∈ ks)) as [Hin|Hout].
    + by rewrite decide_True by (by right).
    + destruct (decide (k = k')) as [->|Hne].
      * rewrite lookup_insert_eq. by rewrite decide_True by (by left).
      * rewrite lookup_insert_ne by done. rewrite decide_False; [done|].
        intros [->|?]%elem_of_cons; done.
Qed.

(** The context of the patch is the vector, but for a writer called [__proto__]. *)
Lemma context_read_back vv : VersionVector.wf vv →
  VersionVector.from (VersionVector.SObject (context_object
    ((λ k, (k, VersionVector.at_ vv k)) <$> js_sort compareStrings (VersionVector.keys vv))))
  = Ok (VersionVector.mk (delete "__proto__" (VersionVector.entries vv)) false).
Proof.
  intros Hwf. unfold VersionVector.from, VersionVector.fromPlainObject, context_object.
  set (ks := filter (λ k, k ≠ "__proto__") (js_sort compareStrings (VersionVector.keys vv))).
  assert ((λ kv : string * Z, (kv.1, JInt kv.2)) <$> filter (λ kv, kv.1 ≠ "__proto__")
      ((λ k, (k, VersionVector.at_ vv k)) <$> js_sort compareStrings (VersionVector.keys vv))
    = (λ k, (k, JInt (VersionVector.at_ vv k))) <$> ks) as ->.
  { unfold ks. generalize (js_sort compareStrings (VersionVector.keys vv)) as l.
    induction l as [|k l IHl]; [done|]. rewrite fmap_cons, !filter_cons. cbn [fst].
    case_decide; csimpl; by rewrite IHl. }
  assert (∀ k, k ∈ ks ↔ k ≠ "__proto__" ∧ is_Some (VersionVector.entries vv !! k)) as Hks.
  { intros k. unfold ks. rewrite list_elem_of_filter, elem_of_js_sort. unfold VersionVector.keys.
    rewrite list_elem_of_fmap. split.
    - intros [Hne ([k' c] & -> & Hk%elem_of_map_to_list)]. split; [done|]. by exists c.
    - intros [Hne [c Hc]]. split; [done|]. exists (k, c). split; [done|]. by apply elem_of_map_to_list. }
  destruct (collect_positive (VersionVector.at_ vv) ks ∅) as (m & -> & Hm).
  - apply Forall_forall. intros k [_ [c Hc]]%Hks. unfold VersionVector.at_. rewrite Hc. by apply (Hwf k).
  - apply NoDup_filter. rewrite js_sort_perm. apply NoDup_fst_map_to_list.
  - intros k _. apply lookup_empty.
  - simpl. do 2 f_equal. apply map_eq. intros k. rewrite Hm.
    destruct (decide (k = "__proto__")) as [->|Hne].
    + rewrite lookup_delete_eq. rewrite decide_False; [by rewrite lookup_empty|]. by intros [? _]%Hks.
    + rewrite lookup_delete_ne by done. unfold VersionVector.at_.
      destruct (VersionVector.entries vv !! k) as [c|] eqn:Hc.
      * rewrite decide_True; [done|]. apply Hks. split; [done|]. by exists c.
      * rewrite decide_False; [by rewrite lookup_empty|]. intros [_ [c Hc']]%Hks. congruence.
Qed.

Definition nonempty_list (l : list string) : option (list string) :=
  match l with [] => None | _ => Some l end.

Lemma patch_strings (l : list string) :
  Forall (λ s, str_nonempty s = true) l →
  Patch.nonEmpty (Patch.SAArray (Some <$> l)) = Ok (nonempty_list l).
Proof.
  intros Hl. unfold Patch.nonEmpty, Patch.assertStringArray.
  rewrite (map_result_fmap _ (λ o, default "" o)).
  - simpl. rewrite <- list_fmap_compose, list_fmap_id. by destruct l.
  - intros x Hx. apply list_elem_of_fmap in Hx as (s & -> & Hs). simpl.
    rewrite Forall_forall in Hl. by rewrite (Hl s Hs).
Qed.

Lemma key_nonempty e : edge_ident e → str_nonempty (WarpState.key_of e) = true.
Proof.
  intros [[Hf _] _]. unfold WarpState.key_of, encodeEdgeKey, sep_join.
  by destruct (ep_from e).
Qed.

Lemma op_strings_nonempty o : op_ok o →
  (∀ x, x ∈ reads_of o → str_nonempty x = true) ∧ (∀ x, x ∈ writes_of o → str_nonempty x = true).
Proof.
  intros Ho. destruct o as [a|r|a|r|a|a|a|a]; simpl in *;
    (split; intros x; rewrite ?elem_of_union, ?elem_of_singleton, ?elem_of_empty); try done;
    try (intros ->); try (intros [->| ->]); try apply Ho; by apply key_nonempty, Ho.
Qed.

Section building.
Context (E : env) (o : PatchBuilderOptions).

Lemma ok_canonical b : ok_builder E o b → Forall (λ op, op_ok op ∧ canonical op = true) (_ops b).
Proof. intros Hb. eapply Forall_impl; [apply Hb|]. by intros op (? & ? & _). Qed.

Lemma sorted_nonempty b (f : Op → gset string) :
  ok_builder E o b → (∀ op x, op_ok op → x ∈ f op → str_nonempty x = true) →
  Forall (λ s, str_nonempty s = true) (sorted_set (all_of f (_ops b))).
Proof.
  intros Hb Hf. apply Forall_forall. intros x Hx%elem_of_js_sort%elem_of_elements%elem_of_all_of.
  destruct Hx as (op & Hop & Hx). pose proof (ok_canonical b Hb) as Hc. rewrite Forall_forall in Hc.
  by apply (Hf op), Hx; apply Hc.
Qed.

Lemma patch_at_ok l b :
  ok_builder E o b → str_nonempty (writerId o) = true → (0 <= l)%Z →
  ∃ raws, map_result lowerCanonicalOp (_ops b) = Ok raws ∧
  patch_at (JInt l) b = Ok (Patch.mk (if existsb is_edge_prop (_ops b) then 3 else 2) (writerId o) l
    (VersionVector.SObject (context_object ((λ k, (k, VersionVector.at_ (_vv b) k)) <$>
      js_sort compareStrings (VersionVector.keys (_vv b)))))
    ((λ op, RObject (Instance op)) <$> raws)
    (nonempty_list (sorted_set (all_of reads_of (_ops b))))
    (nonempty_list (sorted_set (all_of writes_of (_ops b))))).
Proof.
  intros Hb Hw Hl. pose proof (ok_canonical b Hb) as Hc. rewrite Forall_forall in Hc.
  destruct (map_result_total lowerCanonicalOp (_ops b)) as [raws Hraws].
  { intros op [Hop Hcan]%Hc. destruct op as [a|r|a|r|a|a|a|a]; try done; cbn [lowerCanonicalOp];
      try by eexists.
    - rewrite (proj2 (PropSet_new _ _ _ (PropSet.mk (NodePropSet.node a) (NodePropSet.key a) (NodePropSet.value a))));
        [by eexists|]. split_and!; try done. by destruct Hop as [[? _] ?].
    - set (e := EdgePropSet.edge a).
      rewrite (proj2 (PropSet_new _ _ _ (PropSet.mk (encodeLegacyEdgePropNode (ep_from e) (ep_to e) (ep_label e))
        (EdgePropSet.key a) (EdgePropSet.value a)))); [by eexists|]. split_and!; try done. by destruct Hop. }
  exists raws. split; [done|]. unfold patch_at, assemble. rewrite Hraws. cbn [mbind result_bind].
  rewrite serialize_wf by apply Hb. cbn [mbind result_bind].
  rewrite (ok_reads _ _ b Hb), (ok_writes _ _ b Hb), (ok_schema _ _ b Hb), (proj1 (ok_options _ _ b Hb)).
  unfold Patch.new. cbn [Patch.a_schema Patch.a_writer Patch.a_lamport Patch.a_ops Patch.a_context
    Patch.a_reads Patch.a_writes default from_option id].
  rewrite (Patch.validateSchema_int (if existsb is_edge_prop (_ops b) then 3 else 2)%Z)
    by (destruct (existsb _ _); auto).
  cbn [mbind result_bind]. rewrite Patch.validateWriter_ok by done. cbn [mbind result_bind].
  rewrite Patch.validateLamport_int by done. cbn [mbind result_bind Patch.validateOps].
  unfold Patch.normalizeContext. rewrite context_read_back by apply Hb. cbn [mbind result_bind].
  rewrite patch_strings; [|apply sorted_nonempty; [done|]; intros op x Hop; by apply op_strings_nonempty].
  cbn [mbind result_bind].
  rewrite patch_strings; [|apply sorted_nonempty; [done|]; intros op x Hop; by apply op_strings_nonempty].
  done.
Qed.
End building.

(** ** What the patch does *)

(** The specification: what the operations ask for, whatever their order. *)
Definition removes_node (ops : list Op) (n : string) : Prop :=
  ∃ r, ONodeRemove r ∈ ops ∧ NodeRemove.node r = n.
Definition removes_edge (ops : list Op) (k : string) : Prop :=
  ∃ r, OEdgeRemove r ∈ ops ∧ WarpState.key_of (EdgeRemove.edge r) = k.

(** A dot that occurs nowhere in a set. *)
Definition unused (d : string) (X : ORSet.ORSet) : Prop :=
  (d ∉ ORSet.tombstones X) ∧ (∀ e, d ∉ ORSet.dots_of X e).

(** The dots a writer may still issue occur nowhere in the state. *)
Definition covered (w : string) (v : VersionVector.VersionVector) (s : State) : Prop :=
  ∀ c, (VersionVector.at_ v w < c <= max_exact)%Z →
    unused (Dot.encode (Dot.mk w c)) (WarpState.nodeAlive s) ∧
    unused (Dot.encode (Dot.mk w c)) (WarpState.edgeAlive s).

(** A state a writer [w] with the vector [v] can build on. *)
Record buildable (w : string) (v : VersionVector.VersionVector) (s : State) : Prop := {
  bd_live : live_state s;
  bd_keys : keys_wf (WarpState.edgeAlive s);
  bd_nodes : DiffCalculator.owned (WarpState.nodeAlive s);
  bd_edges : DiffCalculator.owned (WarpState.edgeAlive s);
  bd_covered : covered w v s }.

(** Membership after adds of unused dots and removals of observed ones. *)
Lemma membership_after X X' (added : string → string → Prop) (gone removed : string → Prop) :
  (∀ e d, d ∈ ORSet.dots_of X' e ↔ d ∈ ORSet.dots_of X e ∨ added e d) →
  (∀ d, d ∈ ORSet.tombstones X' ↔ d ∈ ORSet.tombstones X ∨ gone d) →
  DiffCalculator.owned X →
  (∀ e d, added e d → unused d X) →
  (∀ d, gone d ↔ (∃ e, removed e ∧ d ∈ ORSet.getDots X e)) →
  ∀ e, ORSet.contains X' e = true ↔
    (∃ d, added e d) ∨ (ORSet.contains X e = true ∧ ¬ removed e).
Proof.
  intros Hd Ht Ho Ha Hg e. rewrite !ORSet.contains_live. unfold ORSet.live.
  setoid_rewrite Hd. setoid_rewrite Ht. split.
  - intros (d & [Hin|Hadd] & Hn); [|left; by exists d]. right. split; [exists d; naive_solver|].
    intros Hr. apply Hn. right. apply Hg. exists e. split; [done|]. apply ORSet.elem_of_getDots. naive_solver.
  - intros [[d Hadd]|[(d & Hin & Hn) Hr]].
    + exists d. split; [by right|]. destruct (Ha e d Hadd) as [Hnt Hnd]. intros [?|(e' & _ & Hg')%Hg]; [done|].
      apply ORSet.elem_of_getDots in Hg' as [Hg' _]. by apply (Hnd e').
    + exists d. split; [by left|]. intros [?|(e' & Hr' & Hg')%Hg]; [done|].
      apply ORSet.elem_of_getDots in Hg' as [Hg' _]. by rewrite (Ho _ _ _ Hin Hg') in Hr.
Qed.

(** One dot, one element. *)
Lemma owned_after X X' (added : string → string → Prop) :
  (∀ e d, d ∈ ORSet.dots_of X' e ↔ d ∈ ORSet.dots_of X e ∨ added e d) →
  DiffCalculator.owned X → (∀ e d, added e d → unused d X) →
  (∀ e1 e2 d, added e1 d → added e2 d → e1 = e2) → DiffCalculator.owned X'.
Proof.
  intros Hd Ho Ha Hu e1 e2 d [H1|H1]%Hd [H2|H2]%Hd.
  - by apply (Ho e1 e2 d).
  - by destruct (proj2 (Ha _ _ H2) e1).
  - by destruct (proj2 (Ha _ _ H1) e2).
  - by apply (Hu e1 e2 d).
Qed.

Lemma bind_unique {A B} (f : A → list B) l x y d :
  NoDup (l ≫= f) → x ∈ l → y ∈ l → d ∈ f x → d ∈ f y → x = y.
Proof.
  induction l as [|z l IH]; intros Hnd Hx Hy Hdx Hdy; [by apply not_elem_of_nil in Hx|].
  change ((z :: l) ≫= f) with (f z ++ (l ≫= f)) in Hnd. apply NoDup_app in Hnd as (_ & Hdis & Hnd).
  assert (∀ u, u ∈ l → d ∈ f u → d ∈ l ≫= f) as Hin by (intros u Hu Hd; apply list_elem_of_bind; by exists u).
  apply elem_of_cons in Hx as [->|Hx]; apply elem_of_cons in Hy as [->|Hy]; try done.
  - by destruct (Hdis d Hdx (Hin y Hy Hdy)).
  - by destruct (Hdis d Hdy (Hin x Hx Hdx)).
  - by apply IH.
Qed.

Section meaning.
Context (E : env) (o : PatchBuilderOptions) (s : State) (b : PatchBuilder).
Context (Hs : snapshot_of E = Some s) (Hb : ok_builder E o b).
Context (Hw : str_nonempty (writerId o) = true).
Context (Hbd : buildable (writerId o) (versionVector o) s).
Context (Hmax : (VersionVector.at_ (_vv b) (writerId o) < max_exact)%Z).

Lemma issued_fresh d : d ∈ issued (_ops b) →
  Dot.wf d ∧ Dot.writerId d = writerId o ∧
  (VersionVector.at_ (versionVector o) (writerId o) < Dot.counter d <= VersionVector.at_ (_vv b) (writerId o))%Z.
Proof.
  intros Hd. destruct (ok_dots _ _ b Hb Hmax) as [_ Hf]. rewrite Forall_forall in Hf.
  destruct (Hf d Hd) as [Hwr Hc]. pose proof (ok_own _ _ b Hb).
  assert (op : ∃ op, op ∈ _ops b ∧ d ∈ dots_of op) by (by apply list_elem_of_bind in Hd as (op & ? & ?); exists op).
  destruct op as (op & Hop & Hdo). pose proof (ok_ops _ _ b Hb) as Hops. rewrite Forall_forall in Hops.
  destruct (Hops op Hop) as [Hok _]. split; [|by rewrite Hwr].
  assert (valid_dot d) as [? ?].
  { destruct op; simpl in Hdo; try (by apply not_elem_of_nil in Hdo);
      apply list_elem_of_singleton in Hdo as ->; apply Hok. }
  split; [done|]. lia.
Qed.

Lemma issued_unused d : d ∈ issued (_ops b) →
  unused (Dot.encode d) (WarpState.nodeAlive s) ∧ unused (Dot.encode d) (WarpState.edgeAlive s).
Proof.
  intros Hd. destruct (issued_fresh d Hd) as (_ & Hwr & Hc).
  destruct d as [dw c]. simpl in *. subst dw. apply Hbd. lia.
Qed.

Lemma issued_NoDup : NoDup (issued (_ops b)).
Proof.
  destruct (ok_dots _ _ b Hb Hmax) as [Hs' _]. revert Hs'. generalize (issued (_ops b)) as l.
  induction l as [|d l IH]; intros Hso; [constructor|]. inversion Hso as [|? ? Hso' Hall]; subst.
  constructor; [|by apply IH]. intros Hd. rewrite Forall_forall in Hall. specialize (Hall d Hd). lia.
Qed.

(** Two operations with one dot are one. *)
Lemma issued_once op1 op2 d1 d2 :
  op1 ∈ _ops b → op2 ∈ _ops b → d1 ∈ dots_of op1 → d2 ∈ dots_of op2 →
  Dot.encode d1 = Dot.encode d2 → op1 = op2.
Proof.
  intros H1 H2 Hd1 Hd2 Ee.
  assert (d1 ∈ issued (_ops b)) as Hi1 by (apply list_elem_of_bind; by exists op1).
  assert (d2 ∈ issued (_ops b)) as Hi2 by (apply list_elem_of_bind; by exists op2).
  apply Dot.encode_inj in Ee; [|by apply issued_fresh..]. subst d2.
  by apply (bind_unique dots_of (_ops b) op1 op2 d1 issued_NoDup).
Qed.

Lemma added_node_dot n d : node_added (_ops b) n d →
  ∃ dot, dot ∈ issued (_ops b) ∧ d = Dot.encode dot.
Proof.
  intros (a & Ha & _ & ->). exists (NodeAdd.dot a). split; [|done].
  apply list_elem_of_bind. exists (ONodeAdd a). split; [by left|done].
Qed.

Lemma added_edge_dot k d : edge_added (_ops b) k d →
  ∃ dot, dot ∈ issued (_ops b) ∧ d = Dot.encode dot.
Proof.
  intros (a & Ha & _ & ->). exists (EdgeAdd.dot a). split; [|done].
  apply list_elem_of_bind. exists (OEdgeAdd a). split; [by left|done].
Qed.

Lemma gone_node d : node_gone (_ops b) d ↔
  ∃ n, removes_node (_ops b) n ∧ d ∈ ORSet.getDots (WarpState.nodeAlive s) n.
Proof.
  pose proof (ok_ops _ _ b Hb) as Hops. rewrite Forall_forall in Hops. split.
  - intros (r & Hr & Hd). exists (NodeRemove.node r). split; [by exists r|].
    destruct (Hops _ Hr) as (_ & _ & s' & Hs' & Hobs & _). rewrite Hs in Hs'. injection Hs' as <-.
    rewrite Hobs in Hd. by apply elem_of_elements in Hd.
  - intros (n & (r & Hr & <-) & Hd). exists r. split; [done|].
    destruct (Hops _ Hr) as (_ & _ & s' & Hs' & -> & _). rewrite Hs in Hs'. injection Hs' as <-.
    by apply elem_of_elements.
Qed.

Lemma gone_edge d : edge_gone (_ops b) d ↔
  ∃ k, removes_edge (_ops b) k ∧ d ∈ ORSet.getDots (WarpState.edgeAlive s) k.
Proof.
  pose proof (ok_ops _ _ b Hb) as Hops. rewrite Forall_forall in Hops. split.
  - intros (r & Hr & Hd). exists (WarpState.key_of (EdgeRemove.edge r)). split; [by exists r|].
    destruct (Hops _ Hr) as (_ & _ & s' & Hs' & Hobs & _). rewrite Hs in Hs'. injection Hs' as <-.
    rewrite Hobs in Hd. by apply elem_of_elements in Hd.
  - intros (k & (r & Hr & <-) & Hd). exists r. split; [done|].
    destruct (Hops _ Hr) as (_ & _ & s' & Hs' & -> & _). rewrite Hs in Hs'. injection Hs' as <-.
    by apply elem_of_elements.
Qed.

(** The state after the operations. *)
Lemma played_sets l sha s' : s' = play l (writerId o) sha 0 (_ops b) s →
  (∀ n, ORSet.contains (WarpState.nodeAlive s') n = true ↔
    n ∈ all_of nodes_of (_ops b) ∨
    (ORSet.contains (WarpState.nodeAlive s) n = true ∧ ¬ removes_node (_ops b) n)) ∧
  (∀ k, ORSet.contains (WarpState.edgeAlive s') k = true ↔
    k ∈ all_of edges_of (_ops b) ∨
    (ORSet.contains (WarpState.edgeAlive s) k = true ∧ ¬ removes_edge (_ops b) k)).
Proof.
  intros ->. assert (Forall (λ o, canonical o = true) (_ops b)) as Hc.
  { eapply Forall_impl; [apply (ok_canonical E o b Hb)|]. by intros op []. }
  split; intros e.
  - rewrite (membership_after (WarpState.nodeAlive s) _ (node_added (_ops b)) (node_gone (_ops b))
      (removes_node (_ops b))).
    + rewrite elem_of_all_of. apply or_iff_compat_r. split.
      * intros (d & a & Ha & <- & _). exists (ONodeAdd a). split; [done|]. simpl. set_solver.
      * intros ([a|r|a|r|a|a|a|a] & Ha & Hn); simpl in Hn; try set_solver.
        apply elem_of_singleton in Hn as ->. eexists. by exists a.
    + intros e' d. by apply play_nodes.
    + intros d. by apply (play_nodes _ _ _ _ _ _ "").
    + apply Hbd.
    + intros e' d (dot & Hd & ->)%added_node_dot. by apply issued_unused.
    + apply gone_node.
  - rewrite (membership_after (WarpState.edgeAlive s) _ (edge_added (_ops b)) (edge_gone (_ops b))
      (removes_edge (_ops b))).
    + rewrite elem_of_all_of. apply or_iff_compat_r. split.
      * intros (d & a & Ha & <- & _). exists (OEdgeAdd a). split; [done|]. simpl. set_solver.
      * intros ([a|r|a|r|a|a|a|a] & Ha & Hn); simpl in Hn; try set_solver.
        apply elem_of_singleton in Hn as ->. eexists. by exists a.
    + intros e' d. by apply play_edges.
    + intros d. by apply (play_edges _ _ _ _ _ _ "").
    + apply Hbd.
    + intros e' d (dot & Hd & ->)%added_edge_dot. by apply issued_unused.
    + apply gone_edge.
Qed.

(** The writer can build on the result. *)
Lemma played_buildable l sha s' v' : s' = play l (writerId o) sha 0 (_ops b) s →
  (VersionVector.at_ (_vv b) (writerId o) <= VersionVector.at_ v' (writerId o))%Z →
  keys_wf (WarpState.edgeAlive s') ∧
  DiffCalculator.owned (WarpState.nodeAlive s') ∧ DiffCalculator.owned (WarpState.edgeAlive s') ∧
  covered (writerId o) v' s'.
Proof.
  intros -> Hv'. assert (Forall (λ o, canonical o = true) (_ops b)) as Hc.
  { eapply Forall_impl; [apply (ok_canonical E o b Hb)|]. by intros op []. }
  split_and!.
  - intros k d [Hd|(a & Ha & <- & _)]%play_edges; [by apply (bd_keys _ _ _ Hbd k d)| |done].
    exists (EdgeAdd.edge a). split; [|done]. apply edge_ident_ok.
    pose proof (ok_ops _ _ b Hb) as Hops. rewrite Forall_forall in Hops.
    by destruct (Hops _ Ha) as [[? _] _].
  - apply (owned_after (WarpState.nodeAlive s) _ (node_added (_ops b))).
    + intros e d. by apply play_nodes.
    + apply Hbd.
    + intros e d (dot & Hd & ->)%added_node_dot. by apply issued_unused.
    + intros e1 e2 d (a1 & H1 & <- & ->) (a2 & H2 & <- & He).
      assert (ONodeAdd a1 = ONodeAdd a2) as [= ->]; [|done].
      by apply (issued_once _ _ (NodeAdd.dot a1) (NodeAdd.dot a2)); [..|left|left|].
  - apply (owned_after (WarpState.edgeAlive s) _ (edge_added (_ops b))).
    + intros e d. by apply play_edges.
    + apply Hbd.
    + intros e d (dot & Hd & ->)%added_edge_dot. by apply issued_unused.
    + intros e1 e2 d (a1 & H1 & <- & ->) (a2 & H2 & <- & He).
      assert (OEdgeAdd a1 = OEdgeAdd a2) as [= ->]; [|done].
      by apply (issued_once _ _ (EdgeAdd.dot a1) (EdgeAdd.dot a2)); [..|left|left|].
  - intros c Hcc. pose proof (ok_own _ _ b Hb) as Hown.
    destruct (bd_covered _ _ _ Hbd c) as [[Hn1 Hn2] [He1 He2]]; [lia|].
    assert (∀ dot, dot ∈ issued (_ops b) → Dot.encode (Dot.mk (writerId o) c) ≠ Dot.encode dot) as Hnew.
    { intros dot Hd Heq. destruct (issued_fresh dot Hd) as (Hwf & Hwr & Hcn).
      apply Dot.encode_inj in Heq; [subst dot; simpl in *; lia| |done].
      split; [done|]. simpl. pose proof (VersionVector.wf_at_nonneg (_vv b) (writerId o) (proj1 (ok_vv _ _ b Hb))). lia. }
    split; (split; [|intros e]).
    + intros [Ht|Hg]%(play_nodes _ _ _ _ _ _ ""); [done| |done].
      apply gone_node in Hg as (n & _ & [Hd _]%ORSet.elem_of_getDots). by apply (Hn2 n).
    + intros [Hd|(dot & Hd & Heq)%added_node_dot]%play_nodes; [by apply (Hn2 e)| |done].
      by apply (Hnew dot).
    + intros [Ht|Hg]%(play_edges _ _ _ _ _ _ ""); [done| |done].
      apply gone_edge in Hg as (n & _ & [Hd _]%ORSet.elem_of_getDots). by apply (He2 n).
    + intros [Hd|(dot & Hd & Heq)%added_edge_dot]%play_edges; [by apply (He2 e)| |done].
      by apply (Hnew dot).
Qed.
End meaning.

Section applying.
Context (E : env) (o : PatchBuilderOptions) (b : PatchBuilder).
Context (Hb : ok_builder E o b) (Hw : str_nonempty (writerId o) = true).

(** The patch of the builder as the reducer takes it. *)
Definition built_patch (l : Z) (sha : string) (p : Patch.Patch) : Prop :=
  patch_instances_valid (Patch.like p) ∧ (∃ d, denote (Patch.like p) sha = Ok d) ∧
  Patch.lamport p = l ∧ Patch.writer p = writerId o ∧
  ∃ raws, map_result lowerCanonicalOp (_ops b) = Ok raws ∧
    JoinReducer.ops (Patch.like p) = (λ x, RObject (Instance x)) <$> raws.

(** Applying the patch of a builder is playing its operations and merging the
    vector into the frontier. *)
Lemma apply_built l sha s :
  writerId o ≠ "__proto__" → (1 <= l)%Z → live_state s → EventId.hex_oid sha = true →
  ∃ p s', patch_at (JInt l) b = Ok p ∧ applyFast (Patch.like p) sha s = (s', Ok ()) ∧ live_state s' ∧
    built_patch l sha p ∧
    (∃ vv, s' = WarpState.with_frontier vv (play l (writerId o) sha 0 (_ops b) s)) ∧
    VersionVector.at_ (WarpState.observedFrontier s') (writerId o)
      = Z.max (VersionVector.at_ (WarpState.observedFrontier s) (writerId o))
          (Z.max (VersionVector.at_ (_vv b) (writerId o)) l).
Proof.
  intros Hp Hl Hs Hsha. destruct (patch_at_ok E o l b Hb Hw) as (raws & Hraws & Hpatch); [lia|].
  set (ctx := (λ k, (k, VersionVector.at_ (_vv b) k)) <$> js_sort compareStrings (VersionVector.keys (_vv b))) in *.
  set (p := Patch.mk _ _ _ _ _ _ _) in *.
  assert (Forall (λ o, canonical o = true) (_ops b)) as Hc.
  { eapply Forall_impl; [apply (ok_canonical E o b Hb)|]. by intros op []. }
  set (sp := play l (writerId o) sha 0 (_ops b) s).
  assert (live_state sp) as Hsp by (by apply play_live).
  set (m := VersionVector.mk (delete "__proto__" (VersionVector.entries (_vv b))) false).
  set (own := VersionVector.mk (if (0 <? l)%Z then {[writerId o := l]} else ∅) false).
  assert (frontier_delta (Patch.like p) = Ok (WarpState.with_frontier (VersionVector.merge m own) bottom)) as Hfd.
  { unfold frontier_delta, Patch.like. cbn [JoinReducer.context JoinReducer.writer JoinReducer.lamport].
    unfold WarpState.context_vector. cbn [Patch.context p]. unfold ctx.
    rewrite context_read_back by apply (ok_vv _ _ b Hb). cbn [mbind result_bind Patch.writer p Patch.lamport].
    rewrite Hw. cbn [require mbind result_bind]. by rewrite (proj2 (int_at_least_Some 0 (JInt l) l)) by (split; [done|lia]). }
  assert (VersionVector.wf m) as Hm.
  { intros w' c. unfold m. simpl. intros [_ Hl']%lookup_delete_Some. by apply (proj1 (ok_vv _ _ b Hb) w'). }
  assert (patch_instances_valid (Patch.like p)) as Hv.
  { split; [|done]. cbn [JoinReducer.ops Patch.like Patch.ops p]. apply Forall_fmap, Forall_forall.
    intros raw Hraw. simpl. apply map_result_ok in Hraws.
    apply list_elem_of_lookup in Hraw as [i Hi].
    destruct (Forall2_lookup_r _ _ _ _ _ Hraws Hi) as (op & Hop & Hlow).
    destruct (proj1 (Forall_lookup _ _) (ok_canonical E o b Hb) i op Hop) as [Hok Hca].
    by apply (normalize_lower op raw). }
  destruct (fold_patch_delta (Patch.like p) _ sp Hv Hsp Hfd) as [Hfold Hlive].
  exists p, (WarpState.join sp (WarpState.with_frontier (VersionVector.merge m own) bottom)).
  split; [done|]. split.
  - unfold applyFast, mbind, step_bind.
    assert (for_each (fast_round (Patch.like p) sha) (indexed (JoinReducer.ops (Patch.like p))) s = (sp, Ok ())) as ->.
    { unfold indexed. cbn [JoinReducer.ops Patch.like Patch.ops p]. rewrite imap_fmap.
      apply (for_each_play l (writerId o) sha (Patch.like p) 0 (_ops b) raws s); try done; try lia.
      by apply (ok_canonical E o b Hb). }
    exact Hfold.
  - split; [by apply ws_join_live|]. split.
    { split; [done|]. split; [|by split_and!; [..|exists raws]]. unfold denote, deltas. rewrite Hfd.
      destruct (map_result_total (op_delta (Patch.like p) sha) (indexed (JoinReducer.ops (Patch.like p))))
        as [ds ->]; [|by eexists].
      intros [i op] (j & raw & [= -> ->] & Hraw)%elem_of_lookup_imap. simpl.
      cbn [JoinReducer.ops Patch.like Patch.ops p] in Hraw. rewrite list_lookup_fmap in Hraw.
      apply fmap_Some in Hraw as (a & Ha & ->).
      destruct (Forall2_lookup_r _ _ _ _ _ (proj1 (map_result_ok _ _ _) Hraws) Ha) as (op & Hop & Hlow).
      destruct (proj1 (Forall_lookup _ _) (ok_canonical E o b Hb) j op Hop) as [Hok Hca].
      rewrite (prepare_lowered op a Hok Hca Hlow). cbn [mbind result_bind].
      rewrite (event_id_at (Patch.like p) l sha (Z.of_nat j)) by (done || lia). by eexists. }
    rewrite join_frontier. split; [by eexists|]. simpl.
    assert (VersionVector.wf own) as Hown by (by apply own_dot_wf).
    rewrite VersionVector.at_merge by (by apply Hsp || by apply VersionVector.vv_merge_wf).
    rewrite VersionVector.at_merge by done.
    assert (VersionVector.at_ m (writerId o) = VersionVector.at_ (_vv b) (writerId o)) as ->
      by (unfold VersionVector.at_, m; simpl; by rewrite lookup_delete_ne).
    assert (VersionVector.at_ own (writerId o) = l) as ->.
    { unfold VersionVector.at_, own. simpl. rewrite (proj2 (Z.ltb_lt 0 l)) by lia. by rewrite lookup_singleton_eq. }
    unfold sp. by rewrite play_frontier.
Qed.
End applying.

(** The state after a patch, against the state before and the operations. *)
Definition shows_asked (ops : list Op) (s s' : State) : Prop :=
  (∀ n, ORSet.contains (WarpState.nodeAlive s') n = true ↔
    n ∈ all_of nodes_of ops ∨ (ORSet.contains (WarpState.nodeAlive s) n = true ∧ ¬ removes_node ops n)) ∧
  (∀ k, ORSet.contains (WarpState.edgeAlive s') k = true ↔
    k ∈ all_of edges_of ops ∨ (ORSet.contains (WarpState.edgeAlive s) k = true ∧ ¬ removes_edge ops k)) ∧
  (∀ k, LWW.value <$> WarpState.prop s' !! k = last_set k ops (LWW.value <$> WarpState.prop s !! k)).

(** The patch of a builder, made with any Lamport time that is later than the
    registers of the state. *)
Lemma built_meaning `{NumberText} (E : env) (o : PatchBuilderOptions) (h : heap)
    (cs : list call) (s : State) (l : Z) (sha : string) :
  options_ok o → str_nonempty (writerId o) = true → writerId o ≠ "__proto__" →
  (1 <= l)%Z → EventId.hex_oid sha = true →
  snapshot_of E = Some s → buildable (writerId o) (versionVector o) s →
  (∀ k (r : WarpState.register), WarpState.prop s !! k = Some r →
    (EventId.lamport (LWW.eventId r) < l)%Z) →
  let b := run_all E cs (new o h) in
  (VersionVector.at_ (_vv b) (writerId o) < max_exact)%Z →
  ok_builder E o b ∧
  ∃ p s', patch_at (JInt l) b = Ok p ∧ applyFast (Patch.like p) sha s = (s', Ok ()) ∧
    built_patch o b l sha p ∧ shows_asked (_ops b) s s' ∧
    (∃ vv, s' = WarpState.with_frontier vv (play l (writerId o) sha 0 (_ops b) s)) ∧
    buildable (writerId o) (WarpState.observedFrontier s') s' ∧
    VersionVector.at_ (WarpState.observedFrontier s') (writerId o)
      = Z.max (VersionVector.at_ (WarpState.observedFrontier s) (writerId o))
          (Z.max (VersionVector.at_ (_vv b) (writerId o)) l).
Proof.
  intros Ho Hw Hp Hl Hsha Hs Hbd Hold b Hmax.
  assert (snapshot_keys_ok E) as Hk.
  { intros s1 Hs1. rewrite Hs in Hs1. injection Hs1 as <-. by apply (bd_keys _ _ _ Hbd). }
  assert (ok_builder E o b) as Hb by (by apply run_all_ok). split; [done|].
  destruct (apply_built E o b Hb Hw l sha s) as (p & s' & Hbuild & Happly & Hlive & Hpatch & (vv & Es') & Hvv);
    [done|done|by apply (bd_live _ _ _ Hbd)|done|].
  set (sp := play l (writerId o) sha 0 (_ops b) s) in *.
  exists p, s'. split; [done|]. split; [done|]. split; [done|].
  destruct (played_sets E o s b Hs Hb Hw Hbd Hmax l sha sp eq_refl) as [Hn He].
  destruct (played_buildable E o s b Hs Hb Hw Hbd Hmax l sha sp
    (WarpState.observedFrontier s') eq_refl ltac:(lia)) as (Hky & Hon & Hoe & Hcv).
  split; [|split; [by exists vv|split; [|done]]].
  - subst s'. split; [done|]. split; [done|]. intros k. unfold sp. simpl. rewrite play_props; [done| |].
    + eapply Forall_impl; [apply (ok_canonical E o b Hb)|]. by intros op [].
    + intros k' r Hr. specialize (Hold k' r Hr). unfold EventId.compareEventIds, cmp_step. simpl.
      rewrite (decide_False (P := EventId.lamport (LWW.eventId r) = l)) by lia.
      by rewrite (proj2 (Z.ltb_lt _ _)).
  - subst s'. by constructor.
Qed.

(** ** Properties *)


(** *** A sample: two nodes with an edge and a property *)

Definition edge_ab : edge_parts := EdgeParts "a" "b" "knows".

Definition built_state : State :=
  WarpState.mk
    (ORSet.add "b" (Dot.mk "w" 2) (ORSet.add "a" (Dot.mk "w" 1) ORSet.empty))
    (ORSet.add (WarpState.key_of edge_ab) (Dot.mk "w" 3) ORSet.empty)
    {[encodePropKey "b" "name" := LWW.mk (EventId.mk 1 "w" "abcd" 3) (JStr "old")]}
    (vv_of [("w", 3)]) ∅.

Definition built_env : env := Env (Some 0%N) (λ _, built_state).

Definition built_options (policy : option DeletePolicy) : PatchBuilderOptions :=
  Options "g" "w" (JInt 2) (vv_of [("w", 3)]) None None policy true.

Definition sample_calls : list call :=
  [CAddNode "c"; CSetProperty "b" "name" (JStr "new"); CRemoveNode "a"; CRemoveNode "missing";
   CAddEdge "b" "c" "knows"; CSetProperty "b" "name" (JStr "newer")].

#[export] Instance no_number_text : NumberText := λ _, "".

Definition sample_builder : PatchBuilder :=
  run_all built_env sample_calls (new (built_options (Some cascade)) ∅).

Lemma single_entry {A} (m : gmap string A) k v k' v' : m !! k' = Some v' → m = {[k := v]} → k' = k ∧ v' = v.
Proof. intros Hl ->. apply lookup_singleton_Some in Hl. by destruct Hl. Qed.

Lemma sample_dots_nodes e d : d ∈ ORSet.dots_of (WarpState.nodeAlive built_state) e →
  (e = "b" ∧ d = Dot.encode (Dot.mk "w" 2)) ∨ (e = "a" ∧ d = Dot.encode (Dot.mk "w" 1)).
Proof.
  intros [[[]%elem_of_empty|[<- ->]]%elem_of_add|[<- ->]]%elem_of_add; auto.
Qed.

Lemma sample_dots_edges e d : d ∈ ORSet.dots_of (WarpState.edgeAlive built_state) e →
  e = WarpState.key_of edge_ab ∧ d = Dot.encode (Dot.mk "w" 3).
Proof. intros [[]%elem_of_empty|[<- ->]]%elem_of_add; auto. Qed.

Lemma built_state_buildable : buildable "w" (vv_of [("w", 3)]) built_state.
Proof.
  constructor.
  - split; [|done]. by apply (bool_decide_unpack _); vm_compute.
  - intros k d [-> _]%sample_dots_edges. exists edge_ab. split; [|done]. by split_and!.
  - intros e1 e2 d [[-> ->]|[-> ->]]%sample_dots_nodes [[-> Hd]|[-> Hd]]%sample_dots_nodes; try done.
  - intros e1 e2 d [-> _]%sample_dots_edges [-> _]%sample_dots_edges. done.
  - intros c Hc. assert (3 < c <= max_exact)%Z as Hc' by exact Hc.
    assert (∀ n, (1 <= n <= 3)%Z → Dot.encode (Dot.mk "w" c) ≠ Dot.encode (Dot.mk "w" n)) as Hne.
    { intros n Hn He. apply Dot.encode_inj in He; [by injection He; lia|..];
        (split; [done|simpl; unfold max_exact in *; lia]). }
    split; (split; [by intros []%elem_of_empty|intros e]).
    + intros [[_ He]|[_ He]]%sample_dots_nodes; revert He; apply Hne; lia.
    + intros [_ He]%sample_dots_edges; revert He; apply Hne; lia.
Qed.


(** *** Calls that throw and leave something behind *)

(** A state whose edge outlived one of its nodes. *)
Definition dangling_state : State :=
  WarpState.mk (ORSet.add "b" (Dot.mk "w" 2) ORSet.empty)
    (ORSet.add (WarpState.key_of edge_ab) (Dot.mk "w" 3) ORSet.empty) ∅ (vv_of [("w", 3)]) ∅.

(** Removing a node that is gone throws, but under the cascade policy the
    removals of its dangling edges stay in the patch: a client that catches the
    error and commits removes them. *)
Theorem failed_cascade_keeps_removals :
  let E := Env (Some 0%N) (λ _, dangling_state) in
  let '(b, r) := removeNode E "a" (new (built_options (Some cascade)) ∅) in
  r = Throw (PatchError "E_PATCH_ENTITY_NOT_FOUND") ∧
  _ops b = [OEdgeRemove (EdgeRemove.mk edge_ab ["w:3"])].
Proof. vm_compute. split; reflexivity. Qed.

(** An effect whose payload is cyclic throws after its node and two of its
    properties were added to the patch. *)
Theorem failed_effect_keeps_its_node :
  let h := {[0%N := OArray [JRef 0%N]]} in
  let '(b, r) := emitEffect (Some "mail") (JRef 0%N) None (new (built_options None) h) in
  r = Throw (WarpError "E_CIRCULAR_REFERENCE") ∧
  op_type <$> _ops b = ["NodeAdd"; "NodePropSet"; "NodePropSet"] ∧
  _writes b = {["@warp/effect:w-2-0"]}.
Proof. vm_compute. split_and!; reflexivity. Qed.

(** A node that the patch adds cannot be removed by it: the removal carries the
    dots of the snapshot only, and the add has a new one. *)
Theorem own_add_survives_removal :
  let b := run_all built_env [CAddNode "a"; CRemoveNode "a"] (new (built_options None) ∅) in
  (op_type <$> _ops b = ["NodeAdd"; "NodeRemove"]) ∧
  ∃ p s', build b = Ok p ∧ applyFast (Patch.like p) "abcd" built_state = (s', Ok ()) ∧
    ORSet.contains (WarpState.nodeAlive s') "a" = true.
Proof.
  split; [vm_compute; reflexivity|]. eexists _, _.
  split; [vm_compute; reflexivity|]. split; [vm_compute; reflexivity|]. vm_compute. reflexivity.
Qed.
