(* ===== verification/PatchPolicies.v ===== *)
(** What [removeNode] does to the data attached to a node, under each policy, and
    that the values in a patch belong to the patch. At the end: the
    three paths of the reducer on a built patch. *)
From S2P Require Export PatchMeaning Effects.
#[local] Open Scope string_scope.
#[local] Open Scope list_scope.
Import PatchBuilder PatchBuilderValidation.

(** ** Keys that mention a node *)

Lemma prefix_app p s : String.prefix p s = true ↔ ∃ t, s = p +:+ t.
Proof.
  revert s. induction p as [|a p IH]; intros s; simpl; [split; [intros _; by exists s|by destruct s]|].
  destruct s as [|b s]; [split; [done|by intros [t [=]]]|].
  cbn [String.prefix]. destruct (ascii_dec a b) as [->|Hne].
  - rewrite IH. split; intros [t Ht]; exists t; [by rewrite Ht|].
    by injection Ht.
  - split; [done|]. intros [t [=]]. by destruct Hne.
Qed.

Lemma includes_app i s : js_includes i s = true ↔ ∃ a t, s = a +:+ i +:+ t.
Proof.
  revert i. induction s as [|c s IH]; intros i; cbn [js_includes]; rewrite orb_true_iff, prefix_app.
  - split; [|intros (a & t & Ht); left; exists t; by destruct a].
    intros [[t Ht]|]; [|done]. by exists "", t.
  - rewrite IH. split.
    + intros [[t Ht]|(a & t & Ht)]; [by exists "", t|]. exists (String c a), t. by rewrite Ht.
    + intros ([|c' a] & t & Ht); [left; by exists t|]. injection Ht as -> Ht. right. by exists a, t.
Qed.

(** A separator splits a text, wherever it is. *)
Lemma str_split_at c a b : str_split c (a +:+ String c b) = str_split c a ++ str_split c b.
Proof.
  induction a as [|x a IH].
  - simpl. by rewrite decide_True.
  - change (String x a +:+ String c b) with (String x (a +:+ String c b)). cbn [str_split].
    rewrite IH. case_decide; [done|].
    destruct (str_split c a) as [|p ps] eqn:Ea; [by apply str_split_cons_nonnil in Ea|done].
Qed.

Section keys.
Context (e : edge_parts) (n : string) (He : EdgeRecord.edge_ok e) (Hn : no_sep n).

Lemma key_app : WarpState.key_of e
  = ep_from e +:+ String FIELD_SEPARATOR (ep_to e +:+ String FIELD_SEPARATOR (ep_label e)).
Proof. done. Qed.

Lemma key_source : String.prefix (n +:+ String FIELD_SEPARATOR "") (WarpState.key_of e) = true ↔ ep_from e = n.
Proof.
  rewrite prefix_app, key_app. split.
  - intros [t Ht]. rewrite str_app_assoc in Ht. simpl in Ht.
    assert (str_split FIELD_SEPARATOR (ep_from e +:+ String FIELD_SEPARATOR (ep_to e +:+ String FIELD_SEPARATOR (ep_label e)))
      = str_split FIELD_SEPARATOR (n +:+ String FIELD_SEPARATOR t)) as Hsp by (by rewrite Ht).
    rewrite (str_split_app FIELD_SEPARATOR (ep_from e)), (str_split_app FIELD_SEPARATOR n) in Hsp
      by (done || apply He). by injection Hsp.
  - intros <-. eexists. rewrite str_app_assoc. reflexivity.
Qed.

Lemma key_target :
  js_includes (String FIELD_SEPARATOR (n +:+ String FIELD_SEPARATOR "")) (WarpState.key_of e) = true ↔ ep_to e = n.
Proof.
  rewrite includes_app. split.
  - intros (a & t & Ht).
    assert (str_split FIELD_SEPARATOR (WarpState.key_of e)
      = str_split FIELD_SEPARATOR a ++ n :: str_split FIELD_SEPARATOR t) as Hsp.
    { rewrite Ht. change (String FIELD_SEPARATOR (n +:+ String FIELD_SEPARATOR "") +:+ t)
        with (String FIELD_SEPARATOR ((n +:+ String FIELD_SEPARATOR "") +:+ t)).
      rewrite (str_split_at _ a). f_equal. rewrite str_app_assoc.
      change (String FIELD_SEPARATOR "" +:+ t) with (String FIELD_SEPARATOR t). by apply str_split_app. }
    rewrite edge_key_parts in Hsp by done.
    destruct (str_split FIELD_SEPARATOR a) as [|x [|y ys]] eqn:Ea; [by apply str_split_cons_nonnil in Ea|by injection Hsp|].
    exfalso. destruct (str_split FIELD_SEPARATOR t) as [|z zs] eqn:Et; [by apply str_split_cons_nonnil in Et|].
    apply (f_equal length) in Hsp. simpl in Hsp. rewrite length_app in Hsp. simpl in Hsp. lia.
  - intros <-. exists (ep_from e), (ep_label e). rewrite key_app. do 2 f_equal.
    change (String FIELD_SEPARATOR (ep_to e +:+ String FIELD_SEPARATOR "") +:+ ep_label e)
      with (String FIELD_SEPARATOR ((ep_to e +:+ String FIELD_SEPARATOR "") +:+ ep_label e)).
    f_equal. by rewrite str_app_assoc.
Qed.
End keys.

(** ** Attached data *)

(** An edge key of a node. *)
Definition touches (n k : string) : Prop :=
  ∃ e, EdgeRecord.edge_ok e ∧ k = WarpState.key_of e ∧ (ep_from e = n ∨ ep_to e = n).

(** A node has data: an edge that is alive, or a property. *)
Definition has_data (s : State) (n : string) : Prop :=
  (∃ k, ORSet.contains (WarpState.edgeAlive s) k = true ∧ touches n k) ∨
  (∃ p, is_Some (WarpState.prop s !! encodePropKey n p)).

(** What the program puts into a state: edges with valid ends and labels, dots
    that are not empty. *)
Definition edges_named (s : State) : Prop :=
  ∀ k d, d ∈ ORSet.dots_of (WarpState.edgeAlive s) k → ∃ e, edge_ident e ∧ k = WarpState.key_of e.
Definition dots_named (X : ORSet.ORSet) : Prop :=
  ∀ e d, d ∈ ORSet.dots_of X e → str_nonempty d = true.

Section attached.
Context (s : State) (n : string) (Hnamed : edges_named s) (Hn : no_sep n).

Lemma alive_edge_ident k : ORSet.contains (WarpState.edgeAlive s) k = true →
  ∃ e, edge_ident e ∧ k = WarpState.key_of e.
Proof. intros (d & Hd & _)%ORSet.contains_live. by apply (Hnamed k d). Qed.

Lemma attached_edges k :
  k ∈ (findAttachedData s n).1.1 ↔ ORSet.contains (WarpState.edgeAlive s) k = true ∧ touches n k.
Proof.
  unfold findAttachedData. cbn [fst]. rewrite list_elem_of_filter, Is_true_true, orb_true_iff.
  rewrite ORSet.elem_of_elements. split.
  - intros [Hm Hk]. split; [done|]. destruct (alive_edge_ident k Hk) as (e & He%edge_ident_ok & ->).
    exists e. split; [done|]. split; [done|]. by rewrite key_source, key_target in Hm.
  - intros [Hk (e & He & -> & Hends)]. split; [|done]. by rewrite key_source, key_target.
Qed.

Lemma attached_data : (findAttachedData s n).2 = true ↔ has_data s n.
Proof.
  unfold has_data. rewrite <- (exist_proper _ _ (λ k, attached_edges k)).
  unfold findAttachedData at 1. cbn [snd fst]. rewrite orb_true_iff, !Nat.ltb_lt.
  assert (∀ (A : Type) (l : list A), (0 < length l)%nat ↔ ∃ x, x ∈ l) as Hlen.
  { intros A [|x l]; simpl; split; [lia|intros [x Hx]; by apply not_elem_of_nil in Hx|exists x; by left|lia]. }
  rewrite !Hlen. apply or_iff_compat_l. split.
  - intros [k Hk]. apply list_elem_of_filter in Hk as [Hm Hk]. apply Is_true_true, prefix_app in Hm as [t ->].
    apply list_elem_of_fmap in Hk as ([k' r] & Hk' & Hr%elem_of_map_to_list). simpl in Hk'. subst k'.
    exists t. exists r. rewrite str_app_assoc in Hr. done.
  - intros [p [r Hr]]. exists (encodePropKey n p). apply list_elem_of_filter. split.
    + apply Is_true_true, prefix_app. exists p. rewrite str_app_assoc. done.
    + apply list_elem_of_fmap. exists (encodePropKey n p, r). split; [done|]. by apply elem_of_map_to_list.
Qed.
End attached.

(** ** The removal *)

(** The removal of an edge as the cascade pushes it. *)
Definition edge_removal (s : State) (k : string) : Op :=
  OEdgeRemove (EdgeRemove.mk (decodeEdgeKey k)
    (dots_list (ORSet.getDots (WarpState.edgeAlive s) k))).

Lemma dots_list_ok X e : dots_named X → dots_ok (dots_list (ORSet.getDots X e)).
Proof.
  intros Hd. apply Forall_forall. intros d [Hin _]%elem_of_elements%ORSet.elem_of_getDots. by apply (Hd e).
Qed.

Lemma cascade_edge_run s k b :
  edges_named s → dots_named (WarpState.edgeAlive s) → ORSet.contains (WarpState.edgeAlive s) k = true →
  ∃ b', cascade_edge s k b = (b', Ok ()) ∧ _ops b' = _ops b ++ [edge_removal s k].
Proof.
  intros Hn Hd Hk. destruct (alive_edge_ident s Hn k Hk) as (e & He & ->).
  pose proof (edge_ident_ok e He) as Hok. unfold cascade_edge. rewrite edge_key_parts by done.
  cbn [lookup list_lookup].
  set (op := EdgeRemove.mk e (dots_list (ORSet.getDots (WarpState.edgeAlive s) (WarpState.key_of e)))).
  rewrite (proj2 (EdgeRemove_new _ _ _ _ op)).
  - eexists. split; [reflexivity|]. unfold edge_removal. rewrite WarpState.edge_ok_decode by done. done.
  - split; [by apply assertEdge_ok|]. apply assertDots_ok. split; [done|]. by apply dots_list_ok.
Qed.

Lemma cascade_run s ks b :
  edges_named s → dots_named (WarpState.edgeAlive s) →
  (∀ k, k ∈ ks → ORSet.contains (WarpState.edgeAlive s) k = true) →
  ∃ b', for_each (cascade_edge s) ks b = (b', Ok ()) ∧ _ops b' = _ops b ++ (edge_removal s <$> ks).
Proof.
  intros Hn Hd. revert b. induction ks as [|k ks IH]; intros b Hks; cbn [for_each].
  - exists b. split; [done|]. by rewrite app_nil_r.
  - destruct (cascade_edge_run s k b Hn Hd) as (b1 & E1 & O1); [apply Hks; by left|].
    destruct (IH b1) as (b2 & E2 & O2); [intros k' Hk'; apply Hks; by right|].
    exists b2. unfold mbind, step_bind. rewrite E1, E2. split; [done|]. rewrite O2, O1. csimpl. by rewrite <- app_assoc.
Qed.

Lemma getSnapshot_run E b :
  _snapshotState b = None ∨ _snapshotState b = Some (current E) →
  ∃ b1, _getSnapshotState E b = (b1, Ok (snapshot_of E)) ∧ _ops b1 = _ops b ∧ _options b1 = _options b.
Proof.
  intros Hs. unfold _getSnapshotState, asks, mbind, step_bind.
  destruct (_snapshotState b) as [a|] eqn:Ea; [|by eexists].
  destruct Hs as [|[= ->]]; [done|]. by eexists.
Qed.

(** The end of a removal: the dots, the operation, the bookkeeping. *)
Definition finish_removal (s : State) (n : string) : step PatchBuilder unit :=
  let observedDots := dots_list (ORSet.getDots (WarpState.nodeAlive s) n) in
  _ ← lift (assertObservedDotsForRemove observedDots);
  op ← lift (NodeRemove.new (Some n) (Some (Some <$> observedDots)));
  _ ← push (ONodeRemove op);
  add_observed n.

Lemma finish_removal_run s n b :
  ident_ok n → dots_named (WarpState.nodeAlive s) →
  if ORSet.contains (WarpState.nodeAlive s) n
  then ∃ b', finish_removal s n b = (b', Ok ()) ∧ _ops b' = _ops b ++ [ONodeRemove
         (NodeRemove.mk n (dots_list (ORSet.getDots (WarpState.nodeAlive s) n)))]
  else finish_removal s n b = (b, Throw (PatchError "E_PATCH_ENTITY_NOT_FOUND")).
Proof.
  intros Hn Hd. unfold finish_removal.
  destruct (ORSet.contains (WarpState.nodeAlive s) n) eqn:Hc.
  - pose proof (live_dots_nonempty _ _ Hc) as Hne.
    set (op := NodeRemove.mk n (dots_list (ORSet.getDots (WarpState.nodeAlive s) n))).
    unfold assertObservedDotsForRemove.
    assert ((0 <? length (dots_list (ORSet.getDots (WarpState.nodeAlive s) n)))%nat = true) as ->.
    { apply Nat.ltb_lt. destruct (dots_list _); [done|simpl; lia]. }
    rewrite (proj2 (NodeRemove_new _ _ op)); [by eexists|].
    split; [done|]. split; [done|]. split; [done|]. by apply dots_list_ok.
  - assert (dots_list (ORSet.getDots (WarpState.nodeAlive s) n) = []) as ->; [|done].
    unfold dots_list. apply elements_empty_iff. intros d. split; [|set_solver].
    intros [Hin Hnt]%ORSet.elem_of_getDots. exfalso.
    assert (ORSet.contains (WarpState.nodeAlive s) n = true); [|congruence].
    apply ORSet.contains_live. by exists d.
Qed.

(** A removal on the snapshot [s]: refused, or the cascade and then the end. *)
Lemma removeNode_run E b s n :
  snapshot_of E = Some s → _snapshotState b = None ∨ _snapshotState b = Some (current E) →
  _committed b = false → _committing b = false →
  edges_named s → dots_named (WarpState.edgeAlive s) → no_sep n →
  ((policy b = reject ∧ has_data s n) ∧
    ∃ b', removeNode E n b = (b', Throw (PatchError "E_PATCH_DELETE_WITH_DATA"))) ∨
  (¬ (policy b = reject ∧ has_data s n) ∧
    ∃ b', removeNode E n b = finish_removal s n b' ∧ _ops b' = _ops b ++
      (if decide (policy b = cascade) then edge_removal s <$> (findAttachedData s n).1.1 else [])).
Proof.
  intros Hs Hsnap Hc1 Hc2 Hnamed Hde Hn.
  destruct (getSnapshot_run E b Hsnap) as (b1 & Hget & Hops & Hopts). rewrite Hs in Hget.
  assert (∀ k, k ∈ (findAttachedData s n).1.1 → ORSet.contains (WarpState.edgeAlive s) k = true) as Hall
    by (by intros k [? _]%attached_edges).
  pose proof (attached_data s n Hnamed) as Hdata.
  assert (removeNode E n b = ((
      let '(edges, props, hasData) := findAttachedData s n in
      _ ← match policy b with
          | cascade => for_each (cascade_edge s) edges
          | reject => if hasData then lift (Throw (PatchError "E_PATCH_DELETE_WITH_DATA")) else mret ()
          | warn => if hasData then log_warning n else mret ()
          end;
      finish_removal s n) : step PatchBuilder unit) b1) as ->.
  { unfold removeNode, _assertNotCommitted, asks, mbind, step_bind. rewrite Hc1, Hc2. cbn [orb negb require lift].
    unfold mbind, step_bind in Hget. rewrite Hget. unfold policy. rewrite Hopts.
    by destruct (findAttachedData s n) as [[edges props] hasData]. }
  destruct (findAttachedData s n) as [[edges props] hasData]. cbn [fst snd] in *.
  destruct (policy b) eqn:Hp.
  - destruct hasData.
    + left. split; [split; [done|by apply Hdata]|]. by eexists.
    + right. split; [intros [_ Hh]; by apply Hdata in Hh|]. rewrite decide_False by done.
      exists b1. split; [done|]. by rewrite app_nil_r.
  - right. split; [by intros []|]. rewrite decide_True by done.
    destruct (cascade_run s edges b1 Hnamed Hde Hall) as (b2 & E2 & O2). exists b2.
    unfold mbind, step_bind. rewrite E2. split; [done|]. by rewrite O2, Hops.
  - right. split; [by intros []|]. rewrite decide_False by done.
    destruct hasData; [eexists|exists b1]; (split; [reflexivity|]); simpl; by rewrite app_nil_r.
Qed.

Lemma removes_node_app ops ops' m : removes_node (ops ++ ops') m ↔ removes_node ops m ∨ removes_node ops' m.
Proof. unfold removes_node. setoid_rewrite elem_of_app. naive_solver. Qed.
Lemma removes_edge_app ops ops' m : removes_edge (ops ++ ops') m ↔ removes_edge ops m ∨ removes_edge ops' m.
Proof. unfold removes_edge. setoid_rewrite elem_of_app. naive_solver. Qed.

(** The operations of a cascade. *)
Lemma cascade_removes s n : edges_named s → no_sep n →
  (∀ m, ¬ removes_node (edge_removal s <$> (findAttachedData s n).1.1) m) ∧
  (∀ k, removes_edge (edge_removal s <$> (findAttachedData s n).1.1) k ↔
    ORSet.contains (WarpState.edgeAlive s) k = true ∧ touches n k).
Proof.
  intros Hnamed Hn. split.
  - intros m (r & Hr & _). by apply list_elem_of_fmap in Hr as (k & [=] & _).
  - intros k. rewrite <- attached_edges by done.
    assert (∀ k', k' ∈ (findAttachedData s n).1.1 → WarpState.key_of (decodeEdgeKey k') = k') as Hdec.
    { intros k' [_ (e & He & -> & _)]%attached_edges; [|done..]. by rewrite WarpState.edge_ok_decode. }
    split.
    + intros (r & Hr & <-). apply list_elem_of_fmap in Hr as (k' & [= ->] & Hk'). simpl. by rewrite Hdec.
    + intros Hk. eexists. split; [by apply list_elem_of_fmap; exists k|]. simpl. by apply Hdec.
Qed.

(** What [removeNode] does under each policy. It is refused for attached data
    under [reject] only, exactly when a live edge touches the node or it has a
    property; else it is refused exactly when the node is not alive. When it
    returns, the patch removes the node besides what it removed before, and
    under [cascade] exactly the live edges that touch it. *)
Theorem delete_policies (E : env) (b : PatchBuilder) (s : State) (n : string) :
  snapshot_of E = Some s → _snapshotState b = None ∨ _snapshotState b = Some (current E) →
  _committed b = false → _committing b = false →
  ident_ok n → edges_named s → dots_named (WarpState.nodeAlive s) → dots_named (WarpState.edgeAlive s) →
  let '(b', r) := removeNode E n b in
  (r = Throw (PatchError "E_PATCH_DELETE_WITH_DATA") ↔ policy b = reject ∧ has_data s n) ∧
  (r = Throw (PatchError "E_PATCH_ENTITY_NOT_FOUND") ↔
    ¬ (policy b = reject ∧ has_data s n) ∧ ORSet.contains (WarpState.nodeAlive s) n = false) ∧
  (r = Ok () ↔ ¬ (policy b = reject ∧ has_data s n) ∧ ORSet.contains (WarpState.nodeAlive s) n = true) ∧
  (r = Ok () →
    (∀ m, removes_node (_ops b') m ↔ removes_node (_ops b) m ∨ m = n) ∧
    (∀ k, removes_edge (_ops b') k ↔ removes_edge (_ops b) k ∨
      (policy b = cascade ∧ ORSet.contains (WarpState.edgeAlive s) k = true ∧ touches n k))).
Proof.
  intros Hs Hsnap Hc1 Hc2 Hn Hnamed Hdn Hde.
  pose proof (removeNode_run E b s n Hs Hsnap Hc1 Hc2 Hnamed Hde (proj1 (proj2 Hn))) as Hrun.
  destruct Hrun as [[Hr [b' ->]]|[Hr (b1 & -> & Hops)]].
  { split_and!; try done; naive_solver. }
  pose proof (finish_removal_run s n b1 Hn Hdn) as Hfin.
  destruct (ORSet.contains (WarpState.nodeAlive s) n).
  - destruct Hfin as (b' & -> & Hops'). split; [by split; [|intros]|]. split; [by split; [|intros []]|].
    split; [done|]. intros _. destruct (cascade_removes s n Hnamed (proj1 (proj2 Hn))) as [Hcn Hce].
    set (r := NodeRemove.mk n _) in *.
    assert (∀ m, removes_node [ONodeRemove r] m ↔ m = n) as H1.
    { intros m. unfold removes_node. setoid_rewrite list_elem_of_singleton. split.
      - by intros (r' & [= ->] & <-).
      - intros ->. by exists r. }
    assert (∀ k, ¬ removes_edge [ONodeRemove r] k) as H2.
    { intros k (r' & Hr'%list_elem_of_singleton & _). done. }
    rewrite Hops', Hops. split; intros x.
    + rewrite !removes_node_app, H1. case_decide; [specialize (Hcn x); tauto|].
      assert (¬ removes_node [] x) by (by intros (? & []%not_elem_of_nil & _)). tauto.
    + rewrite !removes_edge_app. specialize (H2 x). case_decide as Hp; [rewrite Hce; tauto|].
      assert (¬ removes_edge [] x) by (by intros (? & []%not_elem_of_nil & _)). tauto.
  - rewrite Hfin. split_and!; try done; naive_solver.
Qed.

(** *** The sample, under each policy *)

Lemma built_dots_named :
  dots_named (WarpState.nodeAlive built_state) ∧ dots_named (WarpState.edgeAlive built_state).
Proof.
  split; [intros e d [[_ ->]|[_ ->]]%sample_dots_nodes|intros e d [_ ->]%sample_dots_edges]; reflexivity.
Qed.

Lemma built_edges_named : edges_named built_state.
Proof. intros k d [-> _]%sample_dots_edges. exists edge_ab. by split_and!. Qed.

Lemma built_has_data : has_data built_state "a".
Proof.
  left. exists (WarpState.key_of edge_ab). split; [reflexivity|].
  exists edge_ab. split_and!; [done..|by left].
Qed.

Lemma delete_policies_witness :
  (removeNode built_env "a" (new (built_options (Some reject)) ∅)).2
    = Throw (PatchError "E_PATCH_DELETE_WITH_DATA") ∧
  (removeNode built_env "missing" (new (built_options (Some warn)) ∅)).2
    = Throw (PatchError "E_PATCH_ENTITY_NOT_FOUND") ∧
  let '(b, r) := removeNode built_env "a" (new (built_options (Some cascade)) ∅) in
  r = Ok () ∧ removes_edge (_ops b) (WarpState.key_of edge_ab).
Proof.
  split; [vm_compute; reflexivity|]. split; [vm_compute; reflexivity|].
  pose proof (delete_policies built_env (new (built_options (Some cascade)) ∅) built_state "a"
    eq_refl (or_introl eq_refl) eq_refl eq_refl) as H.
  destruct (removeNode built_env "a" (new (built_options (Some cascade)) ∅)) as [b r].
  destruct H as (_ & _ & Hok & Hdone).
  - split_and!; reflexivity.
  - apply built_edges_named.
  - apply built_dots_named.
  - apply built_dots_named.
  - assert (r = Ok ()) as Hr.
    { apply Hok. split; [intros [Hp _]; discriminate Hp|reflexivity]. }
    split; [exact Hr|]. apply (proj2 (Hdone Hr)). right.
    split; [reflexivity|]. split; [reflexivity|].
    exists edge_ab. split_and!; [done..|by left].
Defined.

(** ** A built patch is applied with a diff or with a receipt: both are made, and
    leave the state of the plain path. *)
#[local] Open Scope string_scope.
#[local] Open Scope list_scope.
Import OpNormalizer JoinReducer PatchBuilder.

(** ** Diffs that can be made *)

(** The accumulator holds names that are not empty. *)
Record diff_valid (d : PatchDiff.PatchDiff) : Prop := {
  dv_added : Forall (λ n, str_nonempty n = true) (PatchDiff.nodesAdded d);
  dv_removed : Forall (λ n, str_nonempty n = true) (PatchDiff.nodesRemoved d);
  dv_edges_added : Forall (λ e, PatchDiff.edge_entry e = Ok e) (PatchDiff.edgesAdded d);
  dv_edges_removed : Forall (λ e, PatchDiff.edge_entry e = Ok e) (PatchDiff.edgesRemoved d);
  dv_props : Forall (λ p, PatchDiff.prop_entry p = Ok p) (PatchDiff.propsChanged d) }.

Lemma map_result_id {A B} (f : A → result B) (g : A → B) l :
  Forall (λ x, f x = Ok (g x)) l → map_result f l = Ok (g <$> l).
Proof. rewrite Forall_forall. apply map_result_fmap. Qed.

Lemma map_result_inr {A B} (f : A → result B) (g : B + A → result B) (l : list A) (h : A → B) :
  (∀ x, g (inr x) = f x) → Forall (λ x, f x = Ok (h x)) l → map_result g (inr <$> l) = Ok (h <$> l).
Proof.
  intros Hg Hl. induction Hl as [|x l Hx Hl IH]; [done|]. csimpl. cbn [map_result]. rewrite Hg, Hx.
  cbn [mbind result_bind]. by rewrite IH.
Qed.

Lemma of_accumulator_valid d : diff_valid d → PatchDiff.of_accumulator d = Ok d.
Proof.
  intros [Ha Hr Hea Her Hp]. unfold PatchDiff.of_accumulator, PatchDiff.new.
  assert (∀ l, Forall (λ n, str_nonempty n = true) l → map_result PatchDiff.requireNonEmptyString l = Ok (id <$> l)) as Hn.
  { intros l Hl. apply map_result_id. eapply Forall_impl; [exact Hl|]. intros n Hn. simpl.
    unfold PatchDiff.requireNonEmptyString. by rewrite Hn. }
  rewrite (Hn _ Ha), (Hn _ Hr), (map_result_inr PatchDiff.edge_entry _ _ id), (map_result_inr PatchDiff.edge_entry _ _ id),
    (map_result_inr PatchDiff.prop_entry _ _ id) by done.
  cbn [mbind result_bind]. rewrite !list_fmap_id. by destruct d.
Qed.

Lemma edge_entry_ident e : edge_ident e → PatchDiff.edge_entry e = Ok e.
Proof.
  intros ([Hf _] & [Ht _] & [Hl _]). unfold PatchDiff.edge_entry, PatchDiff.requireNonEmptyString.
  rewrite Hf, Ht, Hl. by destruct e.
Qed.

(** What is alive has a name. *)
Definition nodes_named (s : State) : Prop :=
  ∀ n d, d ∈ ORSet.dots_of (WarpState.nodeAlive s) n → str_nonempty n = true.
Definition named (s : State) : Prop := nodes_named s ∧ edges_named s.

Lemma mutate_named o ev s : op_ok o → canonical o = true → named s → named (mutate o ev s).1.
Proof.
  intros Ho Hc [Hn He]. split.
  - intros n d Hd. apply (mutate_nodes o ev s n d Hc) in Hd as [Hd|Ha]; [by apply (Hn n d)|].
    destruct o; try done. destruct Ha as [<- _]. apply Ho.
  - intros k d Hd. apply (mutate_edges o ev s k d Hc) in Hd as [Hd|Ha]; [by apply (He k d)|].
    destruct o as [| |a| | | | |]; try done. destruct Ha as [<- _]. exists (EdgeAdd.edge a). split; [apply Ho|done].
Qed.

Lemma alive_elements_live X dots e :
  e ∈ DiffCalculator.aliveElementsForDots X dots → ∃ d, d ∈ ORSet.dots_of X e.
Proof.
  intros He. assert (ORSet.contains X e = true) as (d & Hd & _)%ORSet.contains_live; [|by exists d].
  unfold DiffCalculator.aliveElementsForDots in He.
  apply (DiffCalculator.alive_fold X _ dots [] (NoDup_nil_2)) in He as [[]%not_elem_of_nil|[? _]]. done.
Qed.

Lemma accumulate_valid o ev s d : op_ok o → canonical o = true → named s → diff_valid d →
  diff_valid (accumulate o d (mutate o ev s).1 (snapshot o s)).
Proof.
  intros Ho Hc [Hn He] Hd. destruct Hd as [D1 D2 D3 D4 D5].
  assert (∀ n k v w, str_nonempty n = true → ident_ok k →
    diff_valid (push_prop (PatchDiff.PropDiff n k v w) d)) as Hprop.
  { intros n k v w Hn' [Hk _]. constructor; try done. apply Forall_app. split; [done|].
    constructor; [|done]. unfold PatchDiff.prop_entry, PatchDiff.requireNonEmptyString. simpl. by rewrite Hn', Hk. }
  destruct o as [a|r|a|r|a|a|a|a]; try done; simpl.
  - unfold NodeAdd.accumulate. case_match; [|done]. constructor; try done. simpl.
    apply Forall_app. split; [done|]. constructor; [apply Ho|done].
  - constructor; try done. simpl. apply Forall_app. split; [done|].
    apply Forall_forall. intros n [_ Hin]%list_elem_of_filter. apply alive_elements_live in Hin as [x Hx].
    by apply (Hn n x).
  - unfold EdgeAdd.accumulate. simpl. case_match; [|done]. constructor; try done. simpl.
    apply Forall_app. split; [done|]. constructor; [|done]. apply edge_entry_ident, Ho.
  - constructor; try done. simpl. apply Forall_app. split; [done|].
    apply Forall_fmap, Forall_forall. intros k [_ Hin]%list_elem_of_filter. simpl.
    apply alive_elements_live in Hin as [x Hx]. destruct (He k x Hx) as (e & Hi & ->).
    rewrite WarpState.edge_ok_decode by (by apply edge_ident_ok). by apply edge_entry_ident.
  - unfold NodePropSet.accumulate, accumulatePropDiff. case_match; [|done]. apply Hprop; apply Ho.
  - unfold EdgePropSet.accumulate, accumulatePropDiff. case_match; [|done]. apply Hprop; [|apply Ho].
    destruct Ho as [[[Hne _] _] _]. by destruct (EdgePropSet.edge a) as [[|c f] t l].
Qed.

(** *** The loop that fills the accumulator *)

Section loop.
Context (l : Z) (w sha : string).

Lemma diff_loop p i ops raws s d :
  JoinReducer.lamport p = JInt l → JoinReducer.writer p = w → (1 <= l)%Z → str_nonempty w = true →
  EventId.hex_oid sha = true → (0 <= i)%Z →
  Forall (λ o, op_ok o ∧ canonical o = true) ops → map_result lowerCanonicalOp ops = Ok raws →
  named s → diff_valid d →
  ∃ d', for_fold (diff_round p sha) (imap (λ j x, (i + Z.of_nat j, RObject (Instance x))%Z) raws) d s
    = (play l w sha i ops s, Ok d') ∧ diff_valid d'.
Proof.
  intros Hl Hw H1 Hne Hsha. revert i raws s d.
  induction ops as [|o ops IH]; intros i raws s d Hi Hops Hm Hs Hd.
  { injection Hm as <-. by exists d. }
  cbn [map_result] in Hm. invert_ok. subst raws. inversion Hops as [|? ? [Ho Hc] Hops']; subst.
  cbn [imap for_fold play]. replace (i + Z.of_nat 0)%Z with i by lia.
  set (ev := event_at l (JoinReducer.writer p) sha i).
  assert (diff_round p sha d (i, RObject (Instance a)) s
    = ((mutate o ev s).1, Ok (accumulate o d (mutate o ev s).1 (snapshot o s)))) as Hr.
  { unfold diff_round, mbind, step_bind, lift, get.
    rewrite (prepare_lowered o a Ho Hc Ha), (event_id_at p l sha i) by done. fold ev.
    destruct (mutate_ok o ev s Hc) as [s' Es]. by rewrite Es. }
  destruct (IH (i + 1)%Z a0 (mutate o ev s).1 (accumulate o d (mutate o ev s).1 (snapshot o s)))
    as (d' & Hrest & Hv); [lia|done|done|by apply mutate_named|by apply accumulate_valid|].
  exists d'. split; [|done]. unfold mbind, step_bind. rewrite Hr. rewrite <- Hrest. f_equal.
  apply imap_ext. intros j x _. simpl. f_equal. lia.
Qed.
End loop.

(** ** A built patch *)

Lemma applied_with_diff o l sha p b s s' :
  built_patch o b l sha p → (1 <= l)%Z → str_nonempty (writerId o) = true → EventId.hex_oid sha = true →
  Forall (λ o, op_ok o ∧ canonical o = true) (_ops b) → named s →
  applyFast (Patch.like p) sha s = (s', Ok ()) →
  ∃ d, applyWithDiff (Patch.like p) sha s = (s', Ok d).
Proof.
  intros (_ & _ & Hl & Hw & raws & Hraws & Hops) H1 Hne Hsha Hok Hs Happ.
  assert (JoinReducer.lamport (Patch.like p) = JInt l) as Hl' by (simpl; by rewrite Hl).
  destruct (diff_loop l (writerId o) sha (Patch.like p) 0 (_ops b) raws s PatchDiff.createPatchDiffAccumulator)
    as (d & Hloop & Hd); [done..|by repeat constructor|].
  pose proof (for_each_play l (writerId o) sha (Patch.like p) 0 (_ops b) raws s Hl' Hw H1 Hne Hsha
    ltac:(lia) Hok Hraws) as Hplay.
  assert (indexed (JoinReducer.ops (Patch.like p))
    = imap (λ j x, (0 + Z.of_nat j, RObject (Instance x))%Z) raws) as Hidx.
  { unfold indexed. rewrite Hops, imap_fmap. by apply imap_ext. }
  exists d. unfold applyFast, applyWithDiff, mbind, step_bind, lift in *. rewrite Hidx in *.
  rewrite Hplay in Happ. rewrite Hloop, Happ. by rewrite of_accumulator_valid.
Qed.

Lemma applied_with_receipt o l sha p b s s' :
  built_patch o b l sha p → live_state s → str_nonempty sha = true →
  applyFast (Patch.like p) sha s = (s', Ok ()) →
  ∃ r, applyWithReceipt (Patch.like p) sha s = (s', Ok r).
Proof.
  intros (Hv & [d Hd] & _) Hs Hsha Happ. destruct (receipt_total (Patch.like p) sha s d Hv Hs Hsha Hd) as (r & Hr & _).
  exists r. rewrite Hr. destruct (applyWithReceipt_state (Patch.like p) sha s) as [Hst _].
  rewrite Hr, Happ in Hst. simpl in Hst. by rewrite Hst.
Qed.
