(* ===== verification/Provenance.v ===== *)
(** The index from entities to the patches that read or wrote them
    ([services/provenance/ProvenanceIndex.ts]). *)
From S2P Require Export Patch.
#[local] Open Scope string_scope.
#[local] Open Scope list_scope.

Module ProvenanceIndex.

(** An index is the map it keeps; every entry of it is an object of its own. *)
(* @src domain/services/provenance/ProvenanceIndex.ts ProvenanceIndex 18-30 *)
Definition ProvenanceIndex : Type := gmap string (gset string).

(* @src domain/services/provenance/ProvenanceIndex.ts empty *)
Definition empty : gmap string (gset string) := ∅.

(* @src domain/services/provenance/ProvenanceIndex.ts addEntry *)
Definition addEntry (index : gmap string (gset string)) (entityId patchSha : string) : gmap string (gset string) :=
  let shas := default ∅ (index !! entityId) in
  <[entityId := {[patchSha]} ∪ shas]> index.

(* @src domain/services/provenance/ProvenanceIndex.ts indexEntityList *)
Definition indexEntityList (index : gmap string (gset string)) (entities : option (list string)) (patchSha : string)
    : gmap string (gset string) :=
  foldl (λ i e, addEntry i e patchSha) index (default [] entities).

(* @src domain/services/provenance/ProvenanceIndex.ts addPatch *)
Definition addPatch (index : gmap string (gset string)) (patchSha : string) (reads writes : option (list string))
    : gmap string (gset string) :=
  indexEntityList (indexEntityList index reads patchSha) writes patchSha.

Definition sorted_shas (shas : gset string) : list string := js_sort compareStrings (elements shas).

(* @src domain/services/provenance/ProvenanceIndex.ts patchesFor *)
Definition patchesFor (index : gmap string (gset string)) (entityId : string) : list string :=
  match index !! entityId with Some shas => sorted_shas shas | None => [] end.

(* @src domain/services/provenance/ProvenanceIndex.ts has *)
Definition has (index : gmap string (gset string)) (entityId : string) : bool :=
  match index !! entityId with Some shas => (0 <? base.size shas)%nat | None => false end.

(* @src domain/services/provenance/ProvenanceIndex.ts size *)
Definition size (index : gmap string (gset string)) : nat := base.size index.

(* @src domain/services/provenance/ProvenanceIndex.ts entities *)
Definition entities (index : gmap string (gset string)) : list string :=
  js_sort compareStrings (map_to_list index).*1.

(* @src domain/services/provenance/ProvenanceIndex.ts clear *)
Definition clear (index : gmap string (gset string)) : gmap string (gset string) := ∅.

(** The entries of the other index are added in any order. *)
(* @src domain/services/provenance/ProvenanceIndex.ts merge *)
Definition merge (index other : gmap string (gset string)) : gmap string (gset string) :=
  foldl (λ i es, foldl (λ i sha, addEntry i es.1 sha) i (elements es.2)) index (map_to_list other).

(* @src domain/services/provenance/ProvenanceIndex.ts clone *)
Definition clone (index : gmap string (gset string)) : gmap string (gset string) := index.

(* @src domain/services/provenance/ProvenanceIndex.ts sortedEntries *)
Definition sortedEntries (index : gmap string (gset string)) : list (string * list string) :=
  js_sort (compare_key fst) ((λ es, (es.1, sorted_shas es.2)) <$> map_to_list index).

(** The object that is encoded; [None] is a field that is missing or of another
    type. *)
Record document := Document { doc_version : option Z; doc_entries : option (list (string * list string)) }.

(* @src domain/services/provenance/ProvenanceIndex.ts toJSON *)
Definition toJSON (index : gmap string (gset string)) : document := Document (Some 1) (Some (sortedEntries index)).

(* @src domain/services/provenance/ProvenanceIndex.ts buildIndex *)
Definition buildIndex (entries : list (string * list string)) : gmap string (gset string) :=
  foldl (λ i es, <[es.1 := list_to_set es.2]> i) ∅ entries.

(* @src domain/services/provenance/ProvenanceIndex.ts validateSerialized *)
Definition validateSerialized (obj : document) : result unit :=
  _ ← require (bool_decide (doc_version obj = Some 1)) (Err "SchemaUnsupportedError" "E_SCHEMA_UNSUPPORTED");
  require (bool_decide (is_Some (doc_entries obj))) (WarpError "E_PROVENANCE_INDEX_MALFORMED").

(* @src domain/services/provenance/ProvenanceIndex.ts fromJSON *)
Definition fromJSON (json : document) : result (gmap string (gset string)) :=
  _ ← validateSerialized json;
  Ok (buildIndex (default [] (doc_entries json))).

Section codec.
Context {B : Type} (encode : document → B) (decode : B → result document).

(* @src domain/services/provenance/ProvenanceIndex.ts serialize *)
Definition serialize (index : gmap string (gset string)) : B := encode (toJSON index).

(* @src domain/services/provenance/ProvenanceIndex.ts deserialize *)
Definition deserialize (buffer : B) : result (gmap string (gset string)) :=
  obj ← decode buffer;
  _ ← validateSerialized obj;
  Ok (buildIndex (default [] (doc_entries obj))).
End codec.
End ProvenanceIndex.

(** ** What an index knows *)

Section index.
Import ProvenanceIndex.

Definition shas_of (i : gmap string (gset string)) (e : string) : gset string := default ∅ (i !! e).
Definition full (i : gmap string (gset string)) : Prop := ∀ e shas, i !! e = Some shas → shas ≠ ∅.

Lemma index_ext (i j : gmap string (gset string)) : full i → full j → (∀ e, shas_of i e = shas_of j e) → i = j.
Proof.
  unfold shas_of, full. intros Hi Hj He. apply map_eq. intros e. specialize (He e).
  destruct (i !! e) as [a|] eqn:Ei, (j !! e) as [b|] eqn:Ej; simpl in He; rewrite ?Ei, ?Ej; try done.
  - by rewrite He.
  - by destruct (Hi e a Ei).
  - by destruct (Hj e b Ej).
Qed.

Lemma addEntry_shas (i : gmap string (gset string)) e s e' :
  shas_of (addEntry i e s) e' = if decide (e' = e) then {[s]} ∪ shas_of i e' else shas_of i e'.
Proof.
  unfold addEntry, shas_of. case_decide; [subst; by rewrite lookup_insert_eq|by rewrite lookup_insert_ne].
Qed.

Lemma addEntry_full i e s : full i → full (addEntry i e s).
Proof. intros Hi e' shas. unfold addEntry. intros [[<- <-]|[_ Hl]]%lookup_insert_Some; [set_solver|by apply (Hi e')]. Qed.

Lemma entries_spec i es s :
  full i → let i' := foldl (λ i e, addEntry i e s) i es in
  full i' ∧ ∀ e s', s' ∈ shas_of i' e ↔ s' ∈ shas_of i e ∨ (s' = s ∧ e ∈ es).
Proof.
  revert i. induction es as [|e es IH]; intros i Hi; simpl; [split; [done|set_solver]|].
  destruct (IH (addEntry i e s)) as [Hf Hm]; [by apply addEntry_full|]. split; [done|].
  intros e' s'. rewrite Hm, addEntry_shas, elem_of_cons. case_decide; set_solver.
Qed.

(** The entities a patch names. *)
Definition names (p : Patch.Patch) (e : string) : Prop :=
  e ∈ default [] (Patch.reads p) ∨ e ∈ default [] (Patch.writes p).

Definition add (i : gmap string (gset string)) (sp : string * Patch.Patch) : gmap string (gset string) :=
  addPatch i sp.1 (Patch.reads sp.2) (Patch.writes sp.2).

Definition index_of (sps : list (string * Patch.Patch)) : gmap string (gset string) := foldl add empty sps.

Lemma add_spec i sp : full i →
  full (add i sp) ∧ ∀ e s, s ∈ shas_of (add i sp) e ↔ s ∈ shas_of i e ∨ (s = sp.1 ∧ names sp.2 e).
Proof.
  intros Hi. unfold add, addPatch, indexEntityList.
  destruct (entries_spec i (default [] (Patch.reads sp.2)) sp.1 Hi) as [Hf Hm].
  destruct (entries_spec _ (default [] (Patch.writes sp.2)) sp.1 Hf) as [Hf' Hm'].
  split; [done|]. intros e s. rewrite Hm', Hm. unfold names. tauto.
Qed.

Lemma index_of_spec sps : full (index_of sps) ∧
  ∀ e s, s ∈ shas_of (index_of sps) e ↔ ∃ p, (s, p) ∈ sps ∧ names p e.
Proof.
  induction sps as [|[s0 p0] sps IH] using rev_ind; [split; [done|set_solver]|].
  unfold index_of. rewrite foldl_app. simpl. destruct IH as [Hf Hm].
  destruct (add_spec (foldl add empty sps) (s0, p0) Hf) as [Hf' Hm']. split; [done|].
  intros e s. rewrite Hm'. unfold index_of in Hm. rewrite Hm. simpl. setoid_rewrite elem_of_app.
  setoid_rewrite list_elem_of_singleton. naive_solver.
Qed.

Lemma merge_spec i j : full i → full j →
  full (merge i j) ∧ ∀ e, shas_of (merge i j) e = shas_of i e ∪ shas_of j e.
Proof.
  intros Hi Hj. unfold merge.
  assert (∀ l, (∀ e shas, (e, shas) ∈ l → j !! e = Some shas) →
    let i' := foldl (λ i es, foldl (λ i sha, addEntry i es.1 sha) i (elements es.2)) i l in
    full i' ∧ ∀ e s, s ∈ shas_of i' e ↔ s ∈ shas_of i e ∨ ∃ shas, (e, shas) ∈ l ∧ s ∈ shas) as Hl.
  { induction l as [|[e shas] l IH] using rev_ind; intros Hin; [split; [done|set_solver]|].
    rewrite foldl_app. simpl. destruct IH as [Hf Hm]; [set_solver|].
    set (i1 := foldl _ i l) in *. clearbody i1.
    assert (∀ ss i1, full i1 → let i2 := foldl (λ i sha, addEntry i e sha) i1 ss in
      full i2 ∧ ∀ e' s, s ∈ shas_of i2 e' ↔ s ∈ shas_of i1 e' ∨ (e' = e ∧ s ∈ ss)) as Hss.
    { induction ss as [|s ss IHs]; intros i2 Hf2; simpl; [split; [done|set_solver]|].
      destruct (IHs (addEntry i2 e s)) as [Hf3 Hm3]; [by apply addEntry_full|]. split; [done|].
      intros e' s'. rewrite Hm3, addEntry_shas. case_decide; set_solver. }
    destruct (Hss (elements shas) i1 Hf) as [Hf2 Hm2]. split; [done|]. intros e' s.
    rewrite Hm2, Hm, elem_of_elements. setoid_rewrite elem_of_app. setoid_rewrite list_elem_of_singleton.
    naive_solver. }
  destruct (Hl (map_to_list j)) as [Hf Hm]; [by intros e shas ?%elem_of_map_to_list|].
  split; [done|]. intros e. apply set_eq. intros s. rewrite Hm, elem_of_union. apply or_iff_compat_l.
  setoid_rewrite elem_of_map_to_list. unfold shas_of. split.
  - intros (shas & -> & Hs). done.
  - destruct (j !! e) as [shas|]; simpl; [by exists shas|set_solver].
Qed.

Lemma foldl_insert (l : list (string * list string)) acc e : NoDup l.*1 →
  foldl (λ (i : gmap string (gset string)) es, <[es.1 := list_to_set es.2]> i) acc l !! e =
    match list_to_map (M := gmap string (list string)) l !! e with
    | Some shas => Some (list_to_set shas)
    | None => acc !! e
    end.
Proof.
  revert acc. induction l as [|[k shas] l IH]; intros acc Hnd; [done|]. csimpl.
  apply NoDup_cons in Hnd as [Hk Hnd]. rewrite IH by done.
  destruct (decide (e = k)) as [->|Hne].
  - rewrite lookup_insert_eq, not_elem_of_list_to_map_1 by done. by rewrite lookup_insert_eq.
  - by rewrite !lookup_insert_ne by done.
Qed.

Lemma build_sorted i : buildIndex (sortedEntries i) = i.
Proof.
  unfold buildIndex, sortedEntries. set (l := (λ es : string * gset string, (es.1, sorted_shas es.2)) <$> map_to_list i).
  assert (NoDup l.*1) as Hnd.
  { unfold l. rewrite <- list_fmap_compose. apply NoDup_fst_map_to_list. }
  assert (js_sort (compare_key fst) l ≡ₚ l) as Hp by apply js_sort_perm.
  apply map_eq. intros e. rewrite foldl_insert by (by rewrite Hp).
  rewrite (list_to_map_proper _ l); [|by rewrite Hp|done].
  assert (list_to_map l = sorted_shas <$> i) as ->.
  { change l with (prod_map id sorted_shas <$> map_to_list i).
    by rewrite list_to_map_fmap, list_to_map_to_list. }
  rewrite lookup_fmap. destruct (i !! e) as [shas|] eqn:E; simpl; rewrite ?E; [|done]. f_equal.
  apply set_eq. intros s. unfold sorted_shas. by rewrite elem_of_list_to_set, elem_of_js_sort, elem_of_elements.
Qed.

Lemma elem_of_patchesFor i e s : s ∈ patchesFor i e ↔ s ∈ shas_of i e.
Proof.
  unfold patchesFor, shas_of. destruct (i !! e); simpl; [|set_solver].
  unfold sorted_shas. by rewrite elem_of_js_sort, elem_of_elements.
Qed.

Lemma has_entities i e : full i → (has i e = true ↔ e ∈ entities i) ∧ (has i e = true ↔ ∃ s, s ∈ shas_of i e).
Proof.
  intros Hi. unfold has, entities, shas_of. rewrite elem_of_js_sort. split.
  - rewrite list_elem_of_fmap. split.
    + destruct (i !! e) as [shas|] eqn:E; [|done]. intros _. exists (e, shas). split; [done|]. by apply elem_of_map_to_list.
    + intros ([e' shas] & He & Hin%elem_of_map_to_list). simpl in He. subst e'. rewrite Hin. apply Nat.ltb_lt.
      pose proof (Hi e shas Hin) as Hne. apply set_choose_L in Hne as [s Hs].
      assert (base.size shas ≠ 0%nat); [|lia]. apply size_non_empty_iff. set_solver.
  - destruct (i !! e) as [shas|] eqn:E; simpl; [|set_solver]. rewrite Nat.ltb_lt. split.
    + intros Hs. apply size_pos_elem_of. lia.
    + intros [s Hs]. assert (base.size shas ≠ 0%nat); [|lia]. apply size_non_empty_iff. set_solver.
Qed.
End index.

(** ** Properties *)

(** The index of patches knows, for every entity, exactly the patches that read
    or wrote it, sorted and once; it does not depend on the order in which the
    patches were added nor on adding one twice; merging two indexes gives the
    index of all their patches; and it survives its serial form. *)
Theorem provenance_index_exact (sps sps' : list (string * Patch.Patch)) :
  let i := index_of sps in
  (∀ e s, s ∈ ProvenanceIndex.patchesFor i e ↔ ∃ p, (s, p) ∈ sps ∧ names p e) ∧
  (∀ e, strictly_sorted compareStrings (ProvenanceIndex.patchesFor i e)) ∧
  (∀ e, ProvenanceIndex.has i e = true ↔ e ∈ ProvenanceIndex.entities i) ∧
  (∀ e, ProvenanceIndex.has i e = true ↔ ∃ s p, (s, p) ∈ sps ∧ names p e) ∧
  ((∀ sp, sp ∈ sps ↔ sp ∈ sps') → i = index_of sps') ∧
  ProvenanceIndex.merge i (index_of sps') = index_of (sps ++ sps') ∧
  ProvenanceIndex.fromJSON (ProvenanceIndex.toJSON i) = Ok i.
Proof.
  intros i. subst i. destruct (index_of_spec sps) as [Hf Hm]. destruct (index_of_spec sps') as [Hf' Hm'].
  split_and!.
  - intros e s. rewrite elem_of_patchesFor. apply Hm.
  - intros e. unfold ProvenanceIndex.patchesFor. destruct (index_of sps !! e); [|constructor].
    apply js_sort_strict; [apply _|]. apply NoDup_elements.
  - intros e. by apply has_entities.
  - intros e. rewrite (proj2 (has_entities (index_of sps) e Hf)).
    split; intros [s Hs]; exists s; by apply Hm.
  - intros Hsame. apply index_ext; [done..|]. intros e. apply set_eq. intros s. rewrite Hm, Hm'.
    by setoid_rewrite Hsame.
  - destruct (merge_spec (index_of sps) (index_of sps') Hf Hf') as [Hfm Hmm].
    destruct (index_of_spec (sps ++ sps')) as [Hfa Hma]. apply index_ext; [done..|]. intros e.
    apply set_eq. intros s. rewrite Hmm, elem_of_union, Hma. rewrite Hm, Hm'.
    setoid_rewrite elem_of_app. naive_solver.
  - unfold ProvenanceIndex.fromJSON. simpl. by rewrite build_sorted.
Qed.
