(* ===== verification/Repository.v ===== *)
(** The repository as the committer sees it: the ports it calls ([ports/], as
    classes), what they promise, and how the chains of the writers grow while
    other processes write. At the end: a repository in memory. *)
From S2P Require Export PatchBuilder.
#[local] Open Scope string_scope.
#[local] Open Scope list_scope.

(** ** Messages and ports *)

(* @src ports/CommitMessageCodecPort.ts CommitMessageKind 8-8 *)
Inductive CommitMessageKind := KPatch | KCheckpoint | KAnchor | KAudit.

#[global] Instance CommitMessageKind_eq_dec : EqDecision CommitMessageKind.
Proof. solve_decision. Defined.

(** The message of a patch commit; the fields that say how the patch is stored
    are not used here. *)
(* @src ports/CommitMessageCodecPort.ts PatchCommitMessage 32-43 *)
Record PatchCommitMessage := Message {
  msg_graph : string;
  msg_writer : string;
  msg_lamport : jsnum;
  msg_schema : Z;
  msg_handle : StorageHandle }.

(** Messages are texts that only go from port to port: a type [M]. *)
(* @src ports/CommitMessageCodecPort.ts CommitMessageCodecPort 59-73 *)
Class CommitMessageCodec (M : Type) := {
  encodePatch : PatchCommitMessage → result M;
  decodePatch : M → result PatchCommitMessage;
  detectKind : M → option CommitMessageKind }.

(* @src ports/CommitPort.ts NodeInfo 34-40 *)
Record NodeInfo (M : Type) := Node { message : M; parents : list string }.
Arguments Node {M} message parents.
Arguments message {M} n.
Arguments parents {M} n.

(** What the committer and the discovery use of the kernel port. *)
Class Persistence (M X : Type) := {
  readRef : string → step X (option string);
  listRefs : string → step X (list string);
  showNode : string → step X M;
  getNodeInfo : string → step X (NodeInfo M) }.

(* @src ports/PatchJournalPort.ts AppendPatchRequest 10-18 *)
Record AppendPatchRequest := Append {
  req_patch : Patch.Patch;
  req_graph : string;
  req_writer : string;
  req_targetRef : string;
  req_expectedHead : option string;
  req_parent : option string;
  req_attachments : list StorageHandle }.

(** The rest of the record is evidence that is not used here. *)
(* @src ports/PatchJournalPort.ts PublishedPatch 20-25 *)
Record PublishedPatch := Published { sha : string; bundleHandle : StorageHandle }.

(* @src ports/PatchJournalPort.ts PatchJournalPort 28-41 *)
Class PatchJournal (X : Type) := {
  appendPatch : AppendPatchRequest → step X PublishedPatch;
  readPatch : PatchCommitMessage → step X Patch.Patch }.

(** ** Chains *)

Section chains.
Context {M : Type} `{CommitMessageCodec M}.

(** What is stored: where the refs point, the commits, and the patches by the
    handle their commit message holds. Commits and patches never change. *)
Record Repo := mkRepo {
  refs : gmap string string;
  commits : gmap string (NodeInfo M);
  patches : gmap string Patch.Patch }.

Definition entry : Type := string * PatchCommitMessage.

(** A patch commit and its message. *)
Definition patch_commit (cs : gmap string (NodeInfo M)) (sha : string) (m : PatchCommitMessage)
    (parent : option string) : Prop :=
  ∃ info, cs !! sha = Some info ∧ detectKind (message info) = Some KPatch ∧
    decodePatch (message info) = Ok m ∧ head (parents info) = parent ∧ str_nonempty sha = true.

(** A chain of patch commits by their first parents, the latest first, and the
    commit it stands on, which is not a patch. *)
Inductive chain (cs : gmap string (NodeInfo M)) : option string → list entry → option string → Prop :=
  | chain_root : chain cs None [] None
  | chain_base sha info : cs !! sha = Some info → str_nonempty sha = true →
      detectKind (message info) ≠ Some KPatch → chain cs (Some sha) [] (Some sha)
  | chain_next sha m parent l base : patch_commit cs sha m parent → chain cs parent l base →
      chain cs (Some sha) ((sha, m) :: l) base.

Definition head_of (l : list entry) (base : option string) : option string :=
  match l with [] => base | (sha, _) :: _ => Some sha end.

Lemma chain_head cs h l base : chain cs h l base → h = head_of l base.
Proof. by destruct 1. Qed.

Lemma chain_mono cs cs' h l base : cs ⊆ cs' → chain cs h l base → chain cs' h l base.
Proof.
  intros Hs. induction 1 as [|sha info Hl|sha m parent l base (info & Hl & Hrest) _ IH].
  - constructor.
  - apply chain_base with info; [|done..]. by apply (lookup_weaken _ _ _ _ Hl).
  - apply chain_next with parent; [|done]. exists info. split; [|done]. by apply (lookup_weaken _ _ _ _ Hl).
Qed.

Lemma chain_det cs h l l' base base' : chain cs h l base → chain cs h l' base' → l = l' ∧ base = base'.
Proof.
  intros Hc. revert l' base'.
  induction Hc as [|sha info Hl Hne Hk|sha m parent l base (info & Hl & Hk & Hd & Hp & _) _ IH]; intros l' base' Hc'.
  - by inversion Hc'.
  - inversion Hc' as [| |? ? ? ? ? (info' & Hl' & Hk' & _)]; subst; [done|]. congruence.
  - inversion Hc' as [|? info' Hl'|? m' ? ? ? (info' & Hl' & Hk' & Hd' & Hp' & _) Hrest]; subst; [congruence|].
    rewrite Hl in Hl'. injection Hl' as <-. rewrite Hd in Hd'. injection Hd' as <-.
    by destruct (IH _ _ Hrest) as [-> ->].
Qed.

Lemma chain_suffix cs h l1 l2 base : chain cs h (l1 ++ l2) base → chain cs (head_of l2 base) l2 base.
Proof.
  revert h. induction l1 as [|e l1 IH]; intros h Hc; cbn [app] in Hc.
  - by rewrite <- (chain_head _ _ _ _ Hc).
  - inversion Hc; subst. by eapply IH.
Qed.

(** No commit is its own ancestor. *)
Lemma chain_no_return cs h l1 l2 base : chain cs h (l1 ++ l2) base → head_of l2 base = h → l1 = [].
Proof.
  intros Hc Hh. pose proof (chain_suffix _ _ _ _ _ Hc) as Hs. rewrite Hh in Hs.
  destruct (chain_det _ _ _ _ _ _ Hc Hs) as [Heq _]. apply (f_equal length) in Heq.
  rewrite length_app in Heq. destruct l1; [done|simpl in Heq; lia].
Qed.

(** The Lamport times of a chain get less towards its root. *)
Definition tick (e : entry) : Z := match msg_lamport e.2 with JInt t => t | _ => 0 end.
Definition descending (l : list entry) : Prop := StronglySorted (λ a b, (tick b < tick a)%Z) l.

(** ** How a repository changes under the program

    Every process appends patches to the chains, and never takes one away. *)
Definition grows (r r' : Repo) : Prop :=
  commits r ⊆ commits r' ∧ patches r ⊆ patches r' ∧
  ∀ ref l base, chain (commits r) (refs r !! ref) l base →
    ∃ l2, chain (commits r') (refs r' !! ref) (l2 ++ l) base ∧ (descending l → descending (l2 ++ l)).

#[global] Instance grows_preorder : PreOrder grows.
Proof.
  split.
  - intros r. split_and!; [done..|]. intros ref l base Hc. by exists [].
  - intros r1 r2 r3 (Hc1 & Hp1 & Hg1) (Hc2 & Hp2 & Hg2).
    split_and!; [by etrans|by etrans|]. intros ref l base Hc.
    destruct (Hg1 ref l base Hc) as (l2 & Hl2 & Hd2). destruct (Hg2 _ _ _ Hl2) as (l3 & Hl3 & Hd3).
    exists (l3 ++ l2). rewrite <- app_assoc. auto.
Qed.

Lemma grows_patch r r' k p : grows r r' → patches r !! k = Some p → patches r' !! k = Some p.
Proof. intros (_ & Hp & _) Hl. by apply (lookup_weaken _ _ _ _ Hl). Qed.

Lemma grows_commit r r' k c : grows r r' → commits r !! k = Some c → commits r' !! k = Some c.
Proof. intros (Hc & _) Hl. by apply (lookup_weaken _ _ _ _ Hl). Qed.

(** A ref that has moved never comes back. *)
Lemma grows_no_return r1 r2 r3 ref l base :
  chain (commits r1) (refs r1 !! ref) l base → grows r1 r2 → grows r2 r3 →
  refs r3 !! ref = refs r1 !! ref → refs r2 !! ref = refs r1 !! ref.
Proof.
  intros Hc (_ & _ & H12) (_ & _ & H23) Heq.
  destruct (H12 _ _ _ Hc) as (l2 & Hl2 & _). destruct (H23 _ _ _ Hl2) as (l3 & Hl3 & _).
  rewrite app_assoc in Hl3. assert (l3 ++ l2 = []) as [_ ->]%app_eq_nil.
  { apply (chain_no_return _ _ _ _ _ Hl3). by rewrite Heq, (chain_head _ _ _ _ Hc). }
  by rewrite (chain_head _ _ _ _ Hl2), (chain_head _ _ _ _ Hc).
Qed.

(** ** Publication *)

(** The message a patch is stored under. *)
Definition message_of (req : AppendPatchRequest) (handle : StorageHandle) : PatchCommitMessage :=
  Message (req_graph req) (req_writer req) (JInt (Patch.lamport (req_patch req)))
    (Patch.schema (req_patch req)) handle.

(** The ref is compared and moved in one step; a commit or a handle that was
    there before is the same one. *)
Definition publishes (req : AppendPatchRequest) (sha : string) (r r' : Repo) : Prop :=
  ∃ handle m, let info := Node m (option_list (req_parent req)) in
    encodePatch (message_of req handle) = Ok m ∧
    refs r !! req_targetRef req = req_expectedHead req ∧ str_nonempty sha = true ∧
    (∀ info', commits r !! sha = Some info' → info' = info) ∧
    (∀ p, patches r !! StorageHandle.toString handle = Some p → p = req_patch req) ∧
    r' = mkRepo (<[req_targetRef req := sha]> (refs r)) (<[sha := info]> (commits r))
      (<[StorageHandle.toString handle := req_patch req]> (patches r)).

(** A codec of messages reads back what it wrote, and a Lamport time it reads is
    a positive integer; that it stays below 2^53 is assumed. *)
Class MessageLaws : Prop := {
  decode_encode m t : encodePatch m = Ok t → decodePatch t = Ok m ∧ detectKind t = Some KPatch;
  decode_range t m : decodePatch t = Ok m → ∃ n, msg_lamport m = JInt n ∧ (1 <= n < max_exact)%Z }.

Lemma insert_same {A} (m : gmap string A) k v : (∀ v', m !! k = Some v' → v' = v) → m ⊆ <[k := v]> m.
Proof.
  intros Hv. destruct (m !! k) as [v'|] eqn:E.
  - rewrite insert_id; [done|]. by rewrite E, (Hv v').
  - by apply insert_subseteq.
Qed.

(** A publication on top of the expected head is growth. *)
Lemma publishes_grows `{!MessageLaws} req sha r r' l base :
  publishes req sha r r' → req_parent req = req_expectedHead req →
  chain (commits r) (refs r !! req_targetRef req) l base →
  (descending l → Forall (λ e, (tick e < Patch.lamport (req_patch req))%Z) l) →
  grows r r' ∧ ∃ handle,
    patches r' !! StorageHandle.toString handle = Some (req_patch req) ∧
    chain (commits r') (Some sha) ((sha, message_of req handle) :: l) base ∧
    refs r' !! req_targetRef req = Some sha.
Proof.
  intros (handle & m & Henc & Href & Hne & Hc & Hp & ->) Hpar Hl Hlt.
  destruct (decode_encode _ _ Henc) as [Hdec Hkind].
  pose proof (insert_same _ _ _ Hc) as Hsub. pose proof (insert_same _ _ _ Hp) as Hsubp.
  set (info := Node m (option_list (req_parent req))) in *.
  assert (chain (<[sha:=info]> (commits r)) (Some sha) ((sha, message_of req handle) :: l) base) as Hnew.
  { apply chain_next with (req_parent req).
    - exists info. rewrite lookup_insert_eq. split_and!; try done. unfold info. simpl. by destruct (req_parent req).
    - rewrite Hpar, <- Href. by apply (chain_mono (commits r)). }
  split.
  - split; [done|]. split; [done|]. simpl. intros ref l' base' Hl'.
    destruct (decide (ref = req_targetRef req)) as [->|Hne'].
    + rewrite lookup_insert_eq. destruct (chain_det _ _ _ _ _ _ Hl Hl') as [<- <-].
      exists [(sha, message_of req handle)]. split; [done|]. intros Hd.
      constructor; [done|]. eapply Forall_impl; [by apply Hlt|]. done.
    + rewrite lookup_insert_ne by done. exists []. split; [|done]. by apply (chain_mono (commits r)).
  - exists handle. simpl. rewrite !lookup_insert_eq. done.
Qed.
End chains.
Arguments Repo M : clear implicits.
Arguments MessageLaws M {_}.

(** ** What the ports promise

    Other processes may write before and after every call. *)
Class RepositoryLaws {M X : Type} `{CommitMessageCodec M} `{!Persistence M X} `{!PatchJournal X}
    (view : X → Repo M) : Prop := {
  laws_messages :: MessageLaws M;
  readRef_law ref x x' r : readRef ref x = (x', r) →
    grows (view x) (view x') ∧ ∀ h, r = Ok h → refs (view x') !! ref = h;
  showNode_law sha x x' r : showNode sha x = (x', r) →
    grows (view x) (view x') ∧ ∀ m, r = Ok m → ∃ ps, commits (view x') !! sha = Some (Node m ps);
  getNodeInfo_law sha x x' r : getNodeInfo sha x = (x', r) →
    grows (view x) (view x') ∧ ∀ info, r = Ok info → commits (view x') !! sha = Some info;
  readPatch_law m x x' r : readPatch m x = (x', r) →
    grows (view x) (view x') ∧
    ∀ p, r = Ok p → patches (view x') !! StorageHandle.toString (msg_handle m) = Some p;
  sha_law req x x' p : appendPatch req x = (x', Ok p) → EventId.hex_oid (sha p) = true;
  (** A call that throws may have published the patch: its answer was lost. *)
  appendPatch_law req x x' r : appendPatch req x = (x', r) →
    (∃ r1 r2 s, grows (view x) r1 ∧ publishes req s r1 r2 ∧ grows r2 (view x') ∧
      ∀ p, r = Ok p → s = sha p) ∨
    ((∃ e, r = Throw e) ∧ grows (view x) (view x')) }.

(** ** A repository in memory: an instance of the ports that keeps their laws. It
    stands for Git in samples. *)
#[local] Open Scope string_scope.
#[local] Open Scope list_scope.

Module Memory.

(** A commit message is the message itself, or what kind it is. *)
Inductive text :=
  | Stored (m : PatchCommitMessage)
  | Other (kind : option CommitMessageKind).

Definition in_range (n : jsnum) : bool :=
  match n with JInt z => (1 <=? z)%Z && (z <? max_exact)%Z | _ => false end.

Definition MessageError : error := Err "MessageCodecError" "E_MESSAGE_CODEC".

#[global] Instance text_codec : CommitMessageCodec text := {|
  encodePatch m := if in_range (msg_lamport m) then Ok (Stored m) else Throw MessageError;
  decodePatch t := match t with
    | Stored m => if in_range (msg_lamport m) then Ok m else Throw MessageError
    | Other _ => Throw MessageError
    end;
  detectKind t := match t with
    | Stored m => Some KPatch
    | Other kind => if bool_decide (kind = Some KPatch) then None else kind
    end |}.

#[global] Instance text_laws : MessageLaws text.
Proof.
  split; simpl.
  - intros m t Ht. destruct (in_range (msg_lamport m)) eqn:E; [|done]. injection Ht as <-. by rewrite E.
  - intros [m|k] m' Ht; [|done]. destruct (in_range (msg_lamport m)) eqn:E; [|done]. injection Ht as <-.
    destruct (msg_lamport m) as [z| | |]; try done. exists z. simpl in E. apply andb_prop in E as [? ?].
    split; [done|]. lia.
Qed.

Definition world : Type := Repo text.
Definition empty : world := mkRepo ∅ ∅ ∅.

Definition NotFound : error := Err "PersistenceError" "E_MISSING_OBJECT".

(** A look at the repository, which nobody else writes. *)
Definition look {A} (f : world → result A) : step world A := λ x, (x, f x).
Definition found {A} (o : option A) : result A := match o with Some a => Ok a | None => Throw NotFound end.

#[global] Instance memory_persistence : Persistence text world := {|
  readRef ref := look (λ x, Ok (refs x !! ref));
  listRefs prefix := look (λ x, Ok (filter (λ k, String.prefix prefix k) (map_to_list (refs x)).*1));
  showNode sha := look (λ x, message <$> found (commits x !! sha));
  getNodeInfo sha := look (λ x, found (commits x !! sha)) |}.

(** Names of commits and handles are counted. *)
Definition next_sha (x : world) : string := "abcd" +:+ num_to_string (Z.of_nat (size (commits x))).
Definition next_handle (x : world) : StorageHandle :=
  StorageHandle.mk ("patch:" +:+ num_to_string (Z.of_nat (size (patches x)))).

Definition append (req : AppendPatchRequest) : step world PublishedPatch := λ x,
  let s := next_sha x in let h := next_handle x in
  match encodePatch (message_of req h) with
  | Throw e => (x, Throw e)
  | Ok m =>
      if bool_decide (refs x !! req_targetRef req = req_expectedHead req) && EventId.hex_oid s then
        match commits x !! s, patches x !! StorageHandle.toString h with
        | None, None =>
            (mkRepo (<[req_targetRef req := s]> (refs x))
               (<[s := Node m (option_list (req_parent req))]> (commits x))
               (<[StorageHandle.toString h := req_patch req]> (patches x)), Ok (Published s h))
        | _, _ => (x, Throw NotFound)
        end
      else (x, Throw (Err "PatchPublicationConflictError" "E_PATCH_PUBLICATION_CONFLICT"))
  end.

#[global] Instance memory_journal : PatchJournal world := {|
  appendPatch := append;
  readPatch m := look (λ x, found (patches x !! StorageHandle.toString (msg_handle m))) |}.

#[global] Instance memory_laws : RepositoryLaws (M := text) (X := world) (λ x, x).
Proof.
  split.
  - apply text_laws.
  - intros ref x x' r [= <- <-]. split; [done|]. by intros h [= <-].
  - intros sha x x' r [= <- <-]. split; [done|]. intros m Hm. destruct (commits x !! sha) as [[m' ps]|]; [|done].
    injection Hm as <-. by exists ps.
  - intros sha x x' r [= <- <-]. split; [done|]. intros info Hm. by destruct (commits x !! sha); [injection Hm as <-|].
  - intros m x x' r [= <- <-]. split; [done|]. intros p Hm. by destruct (patches x !! _); [injection Hm as <-|].
  - intros req x x' p. simpl. unfold append. destruct (encodePatch _) as [m|e]; [|done].
    case_bool_decide; [|done]. destruct (EventId.hex_oid (next_sha x)) eqn:Eh; [|done]. simpl.
    destruct (commits x !! next_sha x); [done|]. destruct (patches x !! StorageHandle.token (next_handle x)) eqn:Ep; simpl in *;
      rewrite ?Ep; [done|].
    intros [= _ <-]. exact Eh.
  - intros req x x' r. simpl. unfold append.
    destruct (encodePatch _) as [m|e] eqn:Em; [|intros [= <- <-]; right; split; [by eexists|done]].
    case_bool_decide as Hhead; [|intros [= <- <-]; right; split; [by eexists|done]].
    destruct (EventId.hex_oid (next_sha x)); [|intros [= <- <-]; right; split; [by eexists|done]]. simpl.
    destruct (commits x !! next_sha x) eqn:Ec; [intros [= <- <-]; right; split; [by eexists|done]|].
    destruct (patches x !! _) eqn:Ep; [intros [= <- <-]; right; split; [by eexists|done]|].
    intros [= <- <-]. left. exists x. eexists. exists (next_sha x). split; [done|]. split; [|split; [done|]].
    + exists (next_handle x), m. split_and!; try done.
      * intros info'. by rewrite Ec.
      * intros p Hp. simpl in Hp. congruence.
    + by intros p [= <-].
Qed.
End Memory.
