(* ===== verification/PatchCommit.v ===== *)
(** Committing patches: [services/PatchCommitter.ts], the commit of the builder,
    [warp/PatchSession.ts] and [warp/Writer.ts]. *)
From S2P Require Export Repository PatchMeaning RefLayout Doubles.
#[local] Open Scope string_scope.
#[local] Open Scope list_scope.
Import PatchBuilder.

Definition PersistenceError (code : string) : error := Err "PersistenceError" code.
Definition PatchPublicationConflictError : error :=
  Err "PatchPublicationConflictError" "E_PATCH_PUBLICATION_CONFLICT".

(** [Math.max(a, b)] *)
Definition js_max (a b : jsnum) : jsnum :=
  match a, b with JNaN, _ | _, JNaN => JNaN | _, _ => d_max a b end.

(** [try { m } catch (e) { handler(e) }] *)
Definition try_catch {X A} (m : step X A) (handler : error → step X A) : step X A := λ x,
  match m x with
  | (x', Ok a) => (x', Ok a)
  | (x', Throw e) => handler e x'
  end.

(** ** The committer *)

(** What the builder passes on. The presence of a journal is a flag; the ports
    themselves are instances. *)
Section state.
Context {X : Type}.

(* @src domain/types/PatchCommitResult.ts PatchCommitResult *)
Record PatchCommitResult := CommitResult {
  result_patch : Patch.Patch;
  published : PublishedPatch }.

(* @src domain/services/PatchCommitter.ts CommitState 29-46 *)
Record CommitState := Commit {
  c_graphName : string;
  c_writerId : string;
  c_lamport : jsnum;
  c_vv : VersionVector.VersionVector;
  c_ops : list Op;
  c_observedOperands : gset string;
  c_writes : gset string;
  c_hasEdgeProps : bool;
  c_expectedParentSha : option string;
  c_targetRefPath : option string;
  c_contentAssets : list StorageHandle;
  c_hasPatchJournal : bool;
  c_onCommitSuccess : option (PatchCommitResult → step X unit) }.
End state.
Arguments CommitState X : clear implicits.

Module PatchCommitter.
Section committer.
Context {M X : Type} `{CommitMessageCodec M} `{!Persistence M X} `{!PatchJournal X}.

(* @src domain/services/PatchCommitter.ts buildWriterCasConflict *)
Definition buildWriterCasConflict : error := WriterError "WRITER_CAS_CONFLICT".

Definition is_conflict (e : error) : bool :=
  String.eqb (err_class e) "PatchPublicationConflictError".

(* @src domain/services/PatchCommitter.ts publishPatch *)
Definition publishPatch (state : CommitState X) (writerRef : string) (parentCommit : option string)
    (patch : Patch.Patch) : step X PublishedPatch :=
  try_catch
    (appendPatch (Append patch (c_graphName state) (c_writerId state) writerRef
      (c_expectedParentSha state) parentCommit (c_contentAssets state)))
    (λ error,
      actualSha ← readRef writerRef;
      if bool_decide (actualSha ≠ c_expectedParentSha state) || is_conflict error
      then lift (Throw buildWriterCasConflict)
      else lift (Throw error)).

(** The ref of the chain; an empty target path is none. *)
(* @src domain/services/PatchCommitter.ts commitPatch 60-62 *)
Definition writerRefOf (state : CommitState X) : result string :=
  match c_targetRefPath state with
  | Some p => if str_nonempty p then Ok p else RefLayout.buildWriterRef (c_graphName state) (c_writerId state)
  | None => RefLayout.buildWriterRef (c_graphName state) (c_writerId state)
  end.

(** The Lamport time and the parent, from the commit the ref points to. *)
(* @src domain/services/PatchCommitter.ts commitPatch 70-94 *)
Definition resolveParent (state : CommitState X) (currentRefSha : option string)
    : step X (jsnum * option string) :=
  match currentRefSha with
  | Some currentRefSha =>
      if str_nonempty currentRefSha then
        commitMessage ← (showNode currentRefSha : step X M);
        match detectKind commitMessage with
        | Some KPatch =>
            patchInfo ← lift (match decodePatch commitMessage with
              | Ok info => Ok info
              | Throw _ => Throw (PatchError "E_PATCH_LAMPORT_PARSE")
              end);
            mret (js_max (c_lamport state) (d_add (msg_lamport patchInfo) (JInt 1)), Some currentRefSha)
        | _ => mret (c_lamport state, Some currentRefSha)
        end
      else mret (c_lamport state, None)
  | None => mret (c_lamport state, None)
  end.

(** What the success callback throws is logged. *)
(* @src domain/services/PatchCommitter.ts commitPatch *)
Definition commitPatch (state : CommitState X) : step X PatchCommitResult :=
  _ ← lift (require (0 <? length (c_ops state))%nat (PatchError "E_PATCH_EMPTY"));
  writerRef ← lift (writerRefOf state);
  currentRefSha ← readRef writerRef;
  _ ← lift (require (bool_decide (currentRefSha = c_expectedParentSha state)) buildWriterCasConflict);
  '(lamport, parentCommit) ← resolveParent state currentRefSha;
  patch ← lift (assemble (c_hasEdgeProps state) (c_writerId state) lamport (c_vv state) (c_ops state)
    (c_observedOperands state) (c_writes state));
  _ ← lift (require (c_hasPatchJournal state) (PersistenceError "E_MISSING_JOURNAL"));
  published ← publishPatch state writerRef parentCommit patch;
  let result := CommitResult patch published in
  _ ← match c_onCommitSuccess state with
      | Some onCommitSuccess => try_catch (onCommitSuccess result) (λ _, mret ())
      | None => mret ()
      end;
  mret result.

(** ** The commit of a builder *)

Definition commit_state (hasPatchJournal : bool) (onCommitSuccess : option (PatchCommitResult → step X unit))
    (b : PatchBuilder) : CommitState X :=
  let o := _options b in
  Commit (graphName o) (writerId o) (lamport o) (_vv b) (_ops b) (_observedOperands b) (_writes b)
    (_hasEdgeProps b) (expectedParentSha o) (targetRefPath o) (_contentAssets b)
    hasPatchJournal onCommitSuccess.

(** Up to the first [await]: while the commit runs, the builder is locked. *)
Definition commit_start : step PatchBuilder PatchBuilder :=
  _ ← _assertNotCommitted;
  _ ← modify (λ b, set_commit (_committed b) true b);
  get.

(** And after it. *)
Definition commit_end (r : result PatchCommitResult) : step PatchBuilder PatchCommitResult :=
  _ ← match r with Ok _ => modify (λ b, set_commit true (_committing b) b) | Throw _ => mret () end;
  _ ← modify (λ b, set_commit (_committed b) false b);
  lift r.

(** Both with nothing in between but the committer. *)
(* @src domain/services/PatchBuilder.ts commitWithEvidence *)
Definition commitWithEvidence (hasPatchJournal : bool)
    (onCommitSuccess : option (PatchCommitResult → step X unit)) : step (PatchBuilder * X) PatchCommitResult := λ '(b, x),
  match commit_start b with
  | (b', Throw e) => ((b', x), Throw e)
  | (b', Ok locked) =>
      let '(x', r) := commitPatch (commit_state hasPatchJournal onCommitSuccess locked) x in
      let '(b'', r') := commit_end r b' in ((b'', x'), r')
  end.

(* @src domain/services/PatchBuilder.ts commit *)
Definition commit (hasPatchJournal : bool) (onCommitSuccess : option (PatchCommitResult → step X unit))
    : step (PatchBuilder * X) string :=
  result ← commitWithEvidence hasPatchJournal onCommitSuccess;
  mret (sha (published result)).
End committer.
End PatchCommitter.

(** ** The session *)

Module PatchSession.
Import PatchCommitter.

(* @src domain/warp/PatchSession.ts PatchSession 80-98 *)
Record PatchSession := mk {
  _builder : PatchBuilder;
  _graphName : string;
  _writerId : string;
  _committed : bool }.

(* @src domain/warp/PatchSession.ts _ensureNotCommitted *)
Definition _ensureNotCommitted : step PatchSession unit := λ s,
  (s, require (negb (_committed s)) (WriterError "SESSION_COMMITTED")).

Definition on_builder {A} (m : step PatchBuilder A) : step PatchSession A := λ s,
  let '(b, r) := m (_builder s) in (mk b (_graphName s) (_writerId s) (_committed s), r).

(** The check and the call of the builder. *)
Definition delegate {A} (m : step PatchBuilder A) : step PatchSession A :=
  _ ← _ensureNotCommitted; on_builder m.

(* @src domain/warp/PatchSession.ts addNode *)
Definition addNode (nodeId : string) : step PatchSession unit := delegate (PatchBuilder.addNode nodeId).
(* @src domain/warp/PatchSession.ts removeNode *)
Definition removeNode (E : env) (nodeId : string) : step PatchSession unit :=
  delegate (PatchBuilder.removeNode E nodeId).
(* @src domain/warp/PatchSession.ts addEdge *)
Definition addEdge (from to label : string) : step PatchSession unit :=
  delegate (PatchBuilder.addEdge from to label).
(* @src domain/warp/PatchSession.ts removeEdge *)
Definition removeEdge (E : env) (from to label : string) : step PatchSession unit :=
  delegate (PatchBuilder.removeEdge E from to label).
(* @src domain/warp/PatchSession.ts setProperty *)
Definition setProperty (nodeId key : string) (value : jsval) : step PatchSession unit :=
  delegate (PatchBuilder.setProperty nodeId key value).
(* @src domain/warp/PatchSession.ts setEdgeProperty *)
Definition setEdgeProperty (E : env) (from to label key : string) (value : jsval) : step PatchSession unit :=
  delegate (PatchBuilder.setEdgeProperty E from to label key value).
(* @src domain/warp/PatchSession.ts clearContent *)
Definition clearContent (E : env) (nodeId : string) : step PatchSession unit :=
  delegate (PatchBuilder.clearContent E nodeId).
(* @src domain/warp/PatchSession.ts clearEdgeContent *)
Definition clearEdgeContent (E : env) (from to label : string) : step PatchSession unit :=
  delegate (PatchBuilder.clearEdgeContent E from to label).

Section storage.
Context {W : Type} (stage : chunks → PatchBuilderContent.AssetWriteOptions →
  step W PatchBuilderContent.StagedAsset).

Definition with_builder {A} (m : step (PatchBuilder * W) A) : step (PatchSession * W) A := λ '(s, w),
  match _ensureNotCommitted s with
  | (s, Throw e) => ((s, w), Throw e)
  | (s, Ok _) =>
      let '((b, w), r) := m (_builder s, w) in
      ((mk b (_graphName s) (_writerId s) (_committed s), w), r)
  end.

(* @src domain/warp/PatchSession.ts attachContent *)
Definition attachContent (E : env) (nodeId : string) (content : ContentInput)
    (metadata : ContentMetadataInput) : step (PatchSession * W) unit :=
  with_builder (PatchBuilder.attachContent stage E nodeId content metadata).
(* @src domain/warp/PatchSession.ts attachEdgeContent *)
Definition attachEdgeContent (E : env) (from to label : string) (content : ContentInput)
    (metadata : ContentMetadataInput) : step (PatchSession * W) unit :=
  with_builder (PatchBuilder.attachEdgeContent stage E from to label content metadata).
End storage.

(* @src domain/warp/PatchSession.ts build *)
Definition build (s : PatchSession) : result Patch.Patch := PatchBuilder.build (_builder s).

(* @src domain/warp/PatchSession.ts opCount *)
Definition opCount (s : PatchSession) : nat := length (_ops (_builder s)).

Definition is_writer_error (code : string) (e : error) : bool :=
  String.eqb (err_class e) "WriterError" && String.eqb (err_code e) code.

(** The ref is built for the message only, but may be invalid. *)
(* @src domain/warp/PatchSession.ts _buildCasConflictError *)
Definition _buildCasConflictError (graphName writerId : string) : error :=
  match RefLayout.buildWriterRef graphName writerId with
  | Ok _ => WriterError "WRITER_REF_ADVANCED"
  | Throw e => e
  end.

(* @src domain/warp/PatchSession.ts _classifyCommitError *)
Definition _classifyCommitError (graphName writerId : string) (err : error) : error :=
  if is_writer_error "WRITER_CAS_CONFLICT" err then _buildCasConflictError graphName writerId
  else if is_writer_error "WRITER_REF_ADVANCED" err then err
  else WriterError "PERSIST_WRITE_FAILED".

(* @src domain/warp/PatchSession.ts _ensureNotEmpty *)
Definition _ensureNotEmpty : step PatchSession unit := λ s,
  (s, require (0 <? length (_ops (_builder s)))%nat (WriterError "EMPTY_PATCH")).

Section commit.
Context {M X : Type} `{CommitMessageCodec M} `{!Persistence M X} `{!PatchJournal X}.

(* @src domain/warp/PatchSession.ts commit *)
Definition commit (hasPatchJournal : bool) (onCommitSuccess : option (PatchCommitResult → step X unit))
    : step (PatchSession * X) string := λ '(s, x),
  match _ensureNotCommitted s, _ensureNotEmpty s with
  | (_, Throw e), _ | (_, Ok _), (_, Throw e) => ((s, x), Throw e)
  | (_, Ok _), (_, Ok _) =>
      match PatchCommitter.commit hasPatchJournal onCommitSuccess (_builder s, x) with
      | ((b, x), Ok sha) => ((mk b (_graphName s) (_writerId s) true, x), Ok sha)
      | ((b, x), Throw err) => ((mk b (_graphName s) (_writerId s) (_committed s), x),
          Throw (_classifyCommitError (_graphName s) (_writerId s) err))
      end
  end.
End commit.
End PatchSession.

(** ** The writer *)

(** A version vector is an object that its owner changes in place: whoever else
    keeps it, keeps its address. *)
Class VectorStore (X : Type) := vector_at : X → N → VersionVector.VersionVector.

Module Writer.

(** [writerVector] is the address of the vector the writer was made with. *)
(* @src domain/warp/Writer.ts Writer 79-107 *)
Record Writer := mk {
  _graphName : string;
  _writerId : string;
  writerVector : N;
  _onDeleteWithData : DeletePolicy;
  hasAssetStorage : bool;
  _commitInProgress : bool }.

(* @src domain/warp/Writer.ts _assertValidLamport *)
Definition _assertValidLamport (lamport : jsnum) : result unit :=
  require (match lamport with JInt _ | JFrac _ _ => negb (d_ltb lamport (JInt 1)) | _ => false end)
    (WriterError "E_LAMPORT_CORRUPT").

(* @src domain/warp/Writer.ts _validateJournal *)
Definition _validateJournal (hasPatchJournal : bool) : result unit :=
  require hasPatchJournal (WriterError "E_MISSING_JOURNAL").

(* @src domain/warp/Writer.ts constructor *)
Definition new (graphName : string) (writerId : option string) (versionVector : N)
    (onDeleteWithData : option DeletePolicy) (hasPatchJournal hasAssetStorage : bool) : result Writer :=
  _ ← RefLayout.validateWriterId writerId;
  _ ← _validateJournal hasPatchJournal;
  Ok (mk graphName (default "" writerId) versionVector (default warn onDeleteWithData)
    hasAssetStorage false).

Section writer.
Context {M X : Type} `{CommitMessageCodec M} `{!Persistence M X} `{!PatchJournal X} `{!VectorStore X}.

(* @src domain/warp/Writer.ts head *)
Definition head (w : Writer) : step X (option string) :=
  writerRef ← lift (RefLayout.buildWriterRef (_graphName w) (_writerId w));
  readRef writerRef.

(* @src domain/warp/Writer.ts _resolveNextLamport *)
Definition _resolveNextLamport (headSha : option string) : step X jsnum :=
  match headSha with
  | None => mret (JInt 1)
  | Some headSha =>
      commitMessage ← (showNode headSha : step X M);
      if bool_decide (detectKind commitMessage = Some KPatch) then
        info ← lift (decodePatch commitMessage);
        _ ← lift (_assertValidLamport (msg_lamport info));
        mret (d_add (msg_lamport info) (JInt 1))
      else mret (JInt 1)
  end.

(** The vector is copied when the patch begins. *)
(* @src domain/warp/Writer.ts _buildPatchOpts *)
Definition _buildPatchOpts (w : Writer) (vv : VersionVector.VersionVector) (lamport : jsnum)
    (expectedParentSha : option string) : PatchBuilderOptions :=
  Options (_graphName w) (_writerId w) lamport (VersionVector.clone vv) expectedParentSha None
    (Some (_onDeleteWithData w)) (hasAssetStorage w).

Definition _versionVector (w : Writer) : step X VersionVector.VersionVector := λ x,
  (x, Ok (vector_at x (writerVector w))).

(* @src domain/warp/Writer.ts beginPatch *)
Definition beginPatch (w : Writer) (h : heap) : step X PatchSession.PatchSession :=
  writerRef ← lift (RefLayout.buildWriterRef (_graphName w) (_writerId w));
  expectedOldHead ← readRef writerRef;
  lamport ← _resolveNextLamport expectedOldHead;
  vv ← _versionVector w;
  mret (PatchSession.mk (PatchBuilder.new (_buildPatchOpts w vv lamport expectedOldHead) h)
    (_graphName w) (_writerId w) false).

Definition set_progress (progress : bool) (w : Writer) : Writer :=
  mk (_graphName w) (_writerId w) (writerVector w) (_onDeleteWithData w) (hasAssetStorage w) progress.

(** [build] may use the writer too; it starts on the values of [h]. *)
(* @src domain/warp/Writer.ts commitPatch *)
Definition commitPatch (h : heap) (onCommitSuccess : option (PatchCommitResult → step X unit))
    (build : step (PatchSession.PatchSession * (Writer * X)) unit) : step (Writer * X) string := λ '(w, x),
  if _commitInProgress w then ((w, x), Throw (WriterError "COMMIT_IN_PROGRESS"))
  else
    let finish '(wx : Writer * X) := (set_progress false wx.1, wx.2) in
    let w := set_progress true w in
    match beginPatch w h x with
    | (x, Throw e) => (finish (w, x), Throw e)
    | (x, Ok patch) =>
        match build (patch, (w, x)) with
        | ((_, wx), Throw e) => (finish wx, Throw e)
        | ((patch, (w, x)), Ok _) =>
            let '((_, x), r) := PatchSession.commit true onCommitSuccess (patch, x) in
            (finish (w, x), r)
        end
    end.
End writer.
End Writer.
