(* ===== verification/CommitSafety.v ===== *)
(** Commits are safe: a patch is published on the head its builder was made on,
    later than it, once; and a builder is locked while it is committed. *)
From S2P Require Export PatchCommit Repository.
#[local] Open Scope string_scope.
#[local] Open Scope list_scope.
Import PatchBuilder PatchCommitter.

Section safety.
Context {M X : Type} `{CommitMessageCodec M} `{!Persistence M X} `{!PatchJournal X}.
Context (view : X → Repo M) `{!RepositoryLaws view}.

(** A callback that only writes as every process does. *)
Definition tidy (callback : option (PatchCommitResult → step X unit)) : Prop :=
  ∀ f, callback = Some f → ∀ res x x' r, f res x = (x', r) → grows (view x) (view x').

(** What an attempt to publish may have done. *)
Definition attempted (req : AppendPatchRequest) (x x' : X) (r : result PublishedPatch) : Prop :=
  (∃ r1 r2 s, grows (view x) r1 ∧ publishes req s r1 r2 ∧ grows r2 (view x') ∧
    ∀ p, r = Ok p → s = sha p) ∨
  ((∃ e, r = Throw e) ∧ grows (view x) (view x')).

Lemma publishPatch_spec state ref parent patch x x' r :
  publishPatch state ref parent patch x = (x', r) →
  attempted (Append patch (c_graphName state) (c_writerId state) ref
    (c_expectedParentSha state) parent (c_contentAssets state)) x x' r.
Proof.
  unfold publishPatch, try_catch. set (req := Append _ _ _ _ _ _ _).
  destruct (appendPatch req x) as [x1 r1] eqn:Ea. pose proof (appendPatch_law _ _ _ _ Ea) as Hlaw.
  destruct r1 as [p|e]; [intros [= <- <-]; exact Hlaw|]. unfold mbind, step_bind.
  destruct (readRef ref x1) as [x2 r2] eqn:Er. destruct (readRef_law _ _ _ _ Er) as [Hg _].
  assert (attempted req x x2 (Throw e)) as Hatt.
  { destruct Hlaw as [(ra & rb & s & ? & ? & ? & _)|[_ ?]]; [left|right].
    - exists ra, rb, s. split_and!; [done..|by etrans|done].
    - split; [by eexists|by etrans]. }
  assert (∀ e', attempted req x x2 (Throw e')) as Hany.
  { intros e'. destruct Hatt as [(ra & rb & s & ? & ? & ? & _)|[_ ?]]; [left|right].
    - by exists ra, rb, s.
    - split; [by eexists|done]. }
  destruct r2 as [actual|e']; [case_match|]; intros [= <- <-]; apply Hany.
Qed.

Lemma publishPatch_grows state ref parent patch x x' r l base :
  publishPatch state ref parent patch x = (x', r) →
  chain (commits (view x)) parent l base → descending l → parent = c_expectedParentSha state →
  Forall (λ e, (tick e < Patch.lamport patch)%Z) l →
  grows (view x) (view x') ∧ ∀ p, r = Ok p → ∃ handle l2,
    patches (view x') !! StorageHandle.toString handle = Some patch ∧
    let m := Message (c_graphName state) (c_writerId state) (JInt (Patch.lamport patch)) (Patch.schema patch) handle in
    chain (commits (view x')) (refs (view x') !! ref) (l2 ++ (sha p, m) :: l) base ∧
    descending (l2 ++ (sha p, m) :: l).
Proof.
  intros Hp Hc Hd Hpar Hlt. apply publishPatch_spec in Hp.
  destruct Hp as [(r1 & r2 & s & Hg1 & Hpub & Hg2 & Hs)|[[e ->] Hg]]; [|by split].
  assert (chain (commits r1) (refs r1 !! ref) l base) as Hc1.
  { pose proof Hpub as (? & ? & _ & Hr1 & _). simpl in Hr1. rewrite Hr1, <- Hpar.
    apply (chain_mono (commits (view x))); [by destruct Hg1|done]. }
  destruct (publishes_grows _ _ _ _ l base Hpub) as (Hg12 & handle & Hpatch & Hchain & Hhead); [done..|].
  simpl in Hhead, Hchain, Hpatch. split; [by do 2 (etrans; [done|])|]. intros p ->. rewrite (Hs p eq_refl) in *.
  destruct Hg2 as (_ & Hp2 & Hg2). rewrite <- Hhead in Hchain.
  destruct (Hg2 _ _ _ Hchain) as (l2 & Hl2 & Hd2). exists handle, l2.
  split; [by apply (lookup_weaken _ _ _ _ Hpatch)|]. split; [done|].
  apply Hd2. by constructor.
Qed.

(** The Lamport time on top of a chain. *)
Definition lamport_on (n : Z) (l : list entry) : Z :=
  match l with [] => n | e :: _ => Z.max n (tick e + 1) end.

Lemma tick_range cs h l base e : chain cs h l base → e ∈ l →
  msg_lamport e.2 = JInt (tick e) ∧ (1 <= tick e < max_exact)%Z.
Proof.
  induction 1 as [| |sha m parent l base (info & _ & _ & Hd & _) _ IH]; [by intros ?%not_elem_of_nil..|].
  intros [->|He]%elem_of_cons; [|by apply IH]. destruct (decode_range _ _ Hd) as (n & Hn & Hr).
  unfold tick. simpl. by rewrite Hn.
Qed.

Lemma js_max_int a b : js_max (JInt a) (JInt b) = JInt (Z.max a b).
Proof.
  unfold js_max, d_max, d_ltb. cbn [mantissa]. rewrite Z.min_id, Z.sub_diag, !Z.mul_1_r.
  destruct (Z.ltb_spec a b); f_equal; lia.
Qed.

Lemma resolveParent_spec state x x' r l base n cur :
  resolveParent state cur x = (x', r) → chain (commits (view x)) cur l base → c_lamport state = JInt n →
  grows (view x) (view x') ∧ ∀ lam parent, r = Ok (lam, parent) → parent = cur ∧ lam = JInt (lamport_on n l).
Proof.
  intros Hr Hc Hn. unfold resolveParent in Hr. destruct cur as [sha|].
  - assert (str_nonempty sha = true) as Hne by (by inversion Hc as [| |? ? ? ? ? (? & ? & ? & ? & ? & ?)]).
    rewrite Hne in Hr. unfold mbind, step_bind in Hr. destruct (showNode sha x) as [x1 r1] eqn:Es.
    destruct (showNode_law _ _ _ _ Es) as [Hg Hm]. destruct r1 as [m|e]; [|by injection Hr as <- <-].
    destruct (Hm m eq_refl) as [ps Hps].
    inversion Hc as [|? info Hl _ Hk|? pm parent l' ? (info & Hl & Hk & Hd & Hp & _) Hrest]; subst.
    + apply (grows_commit _ _ _ _ Hg) in Hl. rewrite Hps in Hl. injection Hl as <-. simpl in Hk.
      destruct (detectKind m) as [[]|]; try done; injection Hr as <- <-; (split; [done|]);
        intros lam par [= <- <-]; by rewrite Hn.
    + apply (grows_commit _ _ _ _ Hg) in Hl. rewrite Hps in Hl. injection Hl as <-. simpl in Hk, Hd.
      rewrite Hk, Hd in Hr. injection Hr as <- <-. split; [done|]. intros lam par [= <- <-].
      split; [done|]. destruct (tick_range _ _ _ _ (sha, pm) Hc) as [Ht Hrange]; [by left|].
      simpl in Ht. rewrite Hn, Ht, d_add_exact, js_max_int by (unfold max_exact in *; lia). done.
  - injection Hr as <- <-. split; [done|]. intros lam par [= <- <-]. inversion Hc; subst. by rewrite Hn.
Qed.

Lemma lamport_on_later n l : descending l → Forall (λ e, (tick e < lamport_on n l)%Z) l.
Proof.
  destruct l as [|e l]; [by constructor|]. intros Hd. inversion Hd as [|? ? _ Hall]; subst. simpl.
  constructor; [lia|]. eapply Forall_impl; [exact Hall|]. simpl. lia.
Qed.

Lemma assemble_fields e w lam vv ops rs ws p : assemble e w (JInt lam) vv ops rs ws = Ok p →
  Patch.lamport p = lam ∧ Patch.writer p = w.
Proof.
  unfold assemble, Patch.new. intros Hp. cbn [Patch.a_lamport Patch.a_writer] in Hp. invert_ok. subst p. simpl.
  split.
  - unfold Patch.validateLamport, mbind, option_bind in *.
    destruct (int_at_least 0 (JInt lam)) as [z|] eqn:Ei; [|done].
    apply int_at_least_Some in Ei as [[= ->] _]. congruence.
  - unfold Patch.validateWriter in *. destruct (str_nonempty w); congruence.
Qed.

(** The world after an attempt to commit a builder's patch on [ref]. *)
Definition committed_on (state : CommitState X) (ref : string) (base : option string) (n : Z) (x' : X)
    (res : PatchCommitResult) : Prop :=
  ∃ l l2 handle, let p := result_patch res in
    let m := Message (c_graphName state) (c_writerId state) (JInt (lamport_on n l)) (Patch.schema p) handle in
    assemble (c_hasEdgeProps state) (c_writerId state) (JInt (lamport_on n l)) (c_vv state) (c_ops state)
      (c_observedOperands state) (c_writes state) = Ok p ∧
    patches (view x') !! StorageHandle.toString handle = Some p ∧
    head_of l base = c_expectedParentSha state ∧
    chain (commits (view x')) (refs (view x') !! ref) (l2 ++ (sha (published res), m) :: l) base ∧
    descending (l2 ++ (sha (published res), m) :: l).

Lemma committed_on_grows state ref base n x x' res :
  committed_on state ref base n x res → grows (view x) (view x') → committed_on state ref base n x' res.
Proof.
  intros (l & l2 & handle & Ha & Hp & Hh & Hc & Hd) Hg.
  pose proof Hg as (_ & _ & Hgr). destruct (Hgr _ _ _ Hc) as (l3 & Hl3 & Hd3).
  rewrite app_assoc in Hl3, Hd3. exists l, (l3 ++ l2), handle.
  split_and!; [done|by apply (grows_patch _ _ _ _ Hg)|done|done|by apply Hd3].
Qed.

Lemma commitPatch_spec state ref l base n x x' r :
  commitPatch state x = (x', r) → writerRefOf state = Ok ref → tidy (c_onCommitSuccess state) →
  chain (commits (view x)) (refs (view x) !! ref) l base → descending l → c_lamport state = JInt n →
  grows (view x) (view x') ∧ ∀ res, r = Ok res → committed_on state ref base n x' res.
Proof.
  intros Hrun Href Htidy Hc Hd Hn. unfold commitPatch, mbind, step_bind, lift in Hrun.
  destruct (require (0 <? length (c_ops state))%nat (PatchError "E_PATCH_EMPTY")); [|by injection Hrun as <- <-].
  rewrite Href in Hrun. destruct (readRef ref x) as [x1 r1] eqn:Er.
  destruct (readRef_law _ _ _ _ Er) as [Hg1 Hh1]. destruct r1 as [cur|e]; [|by injection Hrun as <- <-].
  specialize (Hh1 cur eq_refl). case_bool_decide as Hcur; [|by injection Hrun as <- <-].
  cbn [require] in Hrun. pose proof Hg1 as (_ & _ & Hgr1). destruct (Hgr1 _ _ _ Hc) as (la & Hc1 & Hd1).
  specialize (Hd1 Hd). rewrite Hh1 in Hc1. set (l1 := la ++ l) in *.
  destruct (resolveParent state cur x1) as [x2 r2] eqn:Ep.
  destruct (resolveParent_spec _ _ _ _ _ _ _ _ Ep Hc1 Hn) as [Hg2 Hp2].
  assert (grows (view x) (view x2)) as Hg02 by (by etrans).
  destruct r2 as [[lam par]|e]; [|by injection Hrun as <- <-]. destruct (Hp2 lam par eq_refl) as [-> ->].
  destruct (assemble _ _ _ _ _ _ _) as [p|e] eqn:Easm; [|by injection Hrun as <- <-].
  destruct (require (c_hasPatchJournal state) _); [|by injection Hrun as <- <-].
  destruct (assemble_fields _ _ _ _ _ _ _ _ Easm) as [Hlam _].
  destruct (publishPatch state ref cur p x2) as [x3 r3] eqn:Epub.
  destruct (publishPatch_grows _ _ _ _ _ _ _ l1 base Epub) as [Hg3 Hp3];
    [by apply (chain_mono (commits (view x1))); [destruct Hg2|]|done|done| |].
  { rewrite Hlam. by apply lamport_on_later. }
  assert (grows (view x) (view x3)) as Hg03 by (by etrans).
  destruct r3 as [pub|e]; [|by injection Hrun as <- <-].
  assert (committed_on state ref base n x3 (CommitResult p pub)) as Hdone.
  { destruct (Hp3 pub eq_refl) as (handle & l2 & Hpatch & Hchain & Hdesc). rewrite Hlam in Hchain, Hdesc.
    exists l1, l2, handle. split_and!; try done. rewrite <- Hcur. symmetry. apply (chain_head _ _ _ _ Hc1). }
  destruct (c_onCommitSuccess state) as [f|] eqn:Ef.
  - unfold try_catch in Hrun. destruct (f (CommitResult p pub) x3) as [x4 r4] eqn:Ecb.
    pose proof (Htidy f eq_refl _ _ _ _ Ecb) as Hg4.
    assert (x' = x4 ∧ r = Ok (CommitResult p pub)) as [-> ->] by (destruct r4; by injection Hrun as <- <-).
    split; [by etrans|]. intros res [= <-]. by apply (committed_on_grows _ _ _ _ x3).
  - injection Hrun as <- <-. split; [done|]. by intros res [= <-].
Qed.
(** An attempt on a head that the ref has left reads the ref and throws. *)
Lemma stale_commit state ref r0 r1 x x' r l base :
  chain (commits r0) (refs r0 !! ref) l base → refs r0 !! ref = c_expectedParentSha state →
  grows r0 r1 → refs r1 !! ref ≠ c_expectedParentSha state → grows r1 (view x) →
  commitPatch state x = (x', r) → writerRefOf state = Ok ref →
  (x' = x ∧ r = Throw (PatchError "E_PATCH_EMPTY")) ∨
  (∃ h, readRef ref x = (x', h) ∧
    r = match h with Ok _ => Throw buildWriterCasConflict | Throw e => Throw e end).
Proof.
  intros Hc Hexp Hg1 Hmoved Hg2 Hrun Href. unfold commitPatch, mbind, step_bind, lift in Hrun.
  destruct (0 <? length (c_ops state))%nat; cbn [require] in Hrun; [|injection Hrun as <- <-; by left].
  right. rewrite Href in Hrun. destruct (readRef ref x) as [x1 h] eqn:Er.
  destruct (readRef_law _ _ _ _ Er) as [Hg3 Hh]. exists h. destruct h as [cur|e]; [|by injection Hrun as <- <-].
  specialize (Hh cur eq_refl). rewrite bool_decide_false in Hrun; [by injection Hrun as <- <-|].
  intros ->. apply Hmoved. rewrite <- Hexp. rewrite <- Hexp in Hh.
  apply (grows_no_return r0 r1 (view x1) ref l base); [done|done|by etrans|done].
Qed.

(** *** On a builder *)

Context (hasPatchJournal : bool) (callback : option (PatchCommitResult → step X unit)).

Lemma commit_start_spec b :
  (commit_start b = (b, Throw (PatchError "E_PATCH_ALREADY_COMMITTED")) ∧ (_committed b = true ∨ _committing b = true)) ∨
  (commit_start b = (set_commit false true b, Ok (set_commit false true b)) ∧
    _committed b = false ∧ _committing b = false).
Proof.
  unfold commit_start, _assertNotCommitted, asks, modify, get, lift, mbind, step_bind.
  destruct (_committed b) eqn:Ec; [by left; auto|]. destruct (_committing b) eqn:Eg; [by left; auto|].
  right. auto.
Qed.

Lemma set_commit_same b : _committed b = false → _committing b = false → set_commit false false b = b.
Proof. by destruct b; simpl; intros -> ->. Qed.

(** The commit of a builder: refused, or the committer on what it holds. *)
Lemma commit_run b x :
  (commitWithEvidence hasPatchJournal callback (b, x) = ((b, x), Throw (PatchError "E_PATCH_ALREADY_COMMITTED")) ∧
    (_committed b = true ∨ _committing b = true)) ∨
  (let '(x', r) := commitPatch (commit_state hasPatchJournal callback b) x in
   commitWithEvidence hasPatchJournal callback (b, x) =
     ((match r with Ok _ => set_commit true false b | Throw _ => b end, x'), r)).
Proof.
  unfold commitWithEvidence. destruct (commit_start_spec b) as [[-> ?]|(-> & Hc & Hg)]; [by left|]. right.
  change (commit_state hasPatchJournal callback (set_commit false true b)) with (commit_state hasPatchJournal callback b).
  destruct (commitPatch (commit_state hasPatchJournal callback b) x) as [x' [res|e]]; [done|].
  change ((set_commit false false b, x', @Throw PatchCommitResult e) = (b, x', Throw e)).
  by rewrite set_commit_same.
Qed.
End safety.

(** ** Properties *)

(** C5. A commit puts the patch of its builder on the head the builder was made on,
    whatever other processes write meanwhile: when it returns, the patch is
    stored, its commit lies in the chain of the ref directly on that head, with
    a Lamport time above every other one below it, so that the times of the
    chain still ascend; the ref has left that head for good, and the builder is
    closed. When it throws, the builder is as before. *)
Theorem commit_extends_its_chain {M X : Type} `{CommitMessageCodec M} `{!Persistence M X} `{!PatchJournal X}
    (view : X → Repo M) `{!RepositoryLaws view} (hasPatchJournal : bool)
    (callback : option (PatchCommitResult → step X unit)) (b b' : PatchBuilder) (x x' : X)
    (r : result PatchCommitResult) (ref : string) (l : list entry) (base : option string) (n : Z) :
  commitWithEvidence hasPatchJournal callback (b, x) = ((b', x'), r) →
  writerRefOf (commit_state hasPatchJournal callback b) = Ok ref → tidy view callback →
  lamport (_options b) = JInt n →
  chain (commits (view x)) (refs (view x) !! ref) l base → descending l →
  grows (view x) (view x') ∧
  match r with
  | Throw _ => b' = b
  | Ok res => _committed b' = true ∧ refs (view x') !! ref ≠ expectedParentSha (_options b) ∧
      ∃ below above m, let p := result_patch res in
        patch_at (JInt (lamport_on n below)) b = Ok p ∧
        patches (view x') !! StorageHandle.toString (msg_handle m) = Some p ∧
        msg_lamport m = JInt (Patch.lamport p) ∧ msg_writer m = writerId (_options b) ∧
        head_of below base = expectedParentSha (_options b) ∧
        chain (commits (view x')) (refs (view x') !! ref) (above ++ (sha (published res), m) :: below) base ∧
        descending (above ++ (sha (published res), m) :: below)
  end.
Proof.
  intros Hrun Href Htidy Hn Hc Hd.
  destruct (commit_run hasPatchJournal callback b x) as [[Hrun' _]|Hrun'].
  { rewrite Hrun in Hrun'. by injection Hrun' as -> -> ->. }
  destruct (commitPatch (commit_state hasPatchJournal callback b) x) as [x1 r1] eqn:Ep.
  rewrite Hrun in Hrun'. injection Hrun' as -> -> ->.
  destruct (commitPatch_spec view _ _ _ _ _ _ _ _ Ep Href Htidy Hc Hd Hn) as [Hg Hres].
  split; [done|]. destruct r1 as [res|e]; [|done].
  destruct (Hres res eq_refl) as (below & above & handle & Hasm & Hpatch & Hhead & Hchain & Hdesc).
  destruct (assemble_fields _ _ _ _ _ _ _ _ Hasm) as [Hlam _]. simpl in Hhead, Hchain, Hdesc.
  split; [done|]. split.
  - intros Heq. rewrite <- Hhead in Heq.
    rewrite cons_middle, app_assoc in Hchain. by apply chain_no_return in Hchain as [_ [=]]%app_eq_nil.
  - exists below, above. eexists. split_and!; [exact Hasm| | | |exact Hhead|exact Hchain|exact Hdesc]; simpl.
    + exact Hpatch.
    + by rewrite Hlam.
    + done.
Qed.

(** C35. A builder is published at most once, also when the answer of an attempt was
    lost: once the ref has left the head the builder was made on, whoever moved
    it, every further commit only reads the ref and throws the conflict, or the
    error of that read, and leaves the builder as it is. *)
Theorem stale_commit_publishes_nothing {M X : Type} `{CommitMessageCodec M} `{!Persistence M X}
    `{!PatchJournal X} (view : X → Repo M) `{!RepositoryLaws view} (hasPatchJournal : bool)
    (callback : option (PatchCommitResult → step X unit)) (b b' : PatchBuilder) (x x' : X)
    (r : result PatchCommitResult) (ref : string) (l : list entry) (base : option string) (r0 r1 : Repo M) :
  chain (commits r0) (refs r0 !! ref) l base → refs r0 !! ref = expectedParentSha (_options b) →
  grows r0 r1 → refs r1 !! ref ≠ expectedParentSha (_options b) → grows r1 (view x) →
  commitWithEvidence hasPatchJournal callback (b, x) = ((b', x'), r) →
  writerRefOf (commit_state hasPatchJournal callback b) = Ok ref →
  b' = b ∧
  ((x' = x ∧ (r = Throw (PatchError "E_PATCH_ALREADY_COMMITTED") ∨ r = Throw (PatchError "E_PATCH_EMPTY"))) ∨
   ∃ h, readRef ref x = (x', h) ∧
     r = match h with Ok _ => Throw (WriterError "WRITER_CAS_CONFLICT") | Throw e => Throw e end).
Proof.
  intros Hc Hexp Hg1 Hmoved Hg2 Hrun Href.
  destruct (commit_run hasPatchJournal callback b x) as [[Hrun' _]|Hrun'].
  { rewrite Hrun in Hrun'. injection Hrun' as -> -> ->. auto. }
  destruct (commitPatch (commit_state hasPatchJournal callback b) x) as [x1 rr] eqn:Ep.
  rewrite Hrun in Hrun'. injection Hrun' as -> -> ->.
  destruct (stale_commit view (commit_state hasPatchJournal callback b) _ _ _ _ _ _ _ _ Hc Hexp Hg1 Hmoved Hg2 Ep Href) as [[-> ->]|(h & Hh & ->)].
  - auto.
  - split; [by destruct h|]. right. by exists h.
Qed.

(** *** The lock *)

Lemma locked_guard {A} (k : unit → step PatchBuilder A) b :
  _committed b || _committing b = true →
  (u ← _assertNotCommitted; k u) b = (b, Throw (PatchError "E_PATCH_ALREADY_COMMITTED")).
Proof. intros Hl. unfold _assertNotCommitted, asks, lift, mbind, step_bind. by rewrite Hl. Qed.

Lemma locked_bind {A B} (m : step PatchBuilder A) (k : A → step PatchBuilder B) b e :
  m b = (b, Throw e) → (m ≫= k) b = (b, Throw e).
Proof. unfold mbind, step_bind. by intros ->. Qed.

(** The answer of the storage is looked at before the lock. *)
Lemma locked_lift {A B} (r : result A) (k : A → step PatchBuilder B) b :
  (∀ a, ∃ e, k a b = (b, Throw e)) → ∃ e, (a ← lift r; k a) b = (b, Throw e).
Proof. intros Hk. unfold lift, mbind, step_bind. destruct r as [a|e]; [apply Hk|by exists e]. Qed.

(** While a builder is committed and after it was, no call changes it: every
    call throws, also the second half of an attachment that was begun before. *)
Theorem locked_builder_is_frozen `{NumberText} (E : env) (c : call) (b : PatchBuilder) :
  _committed b = true ∨ _committing b = true → ∃ e, run E c b = (b, Throw e).
Proof.
  intros Hl. assert (_committed b || _committing b = true) as Hb by (by apply orb_true_iff).
  destruct c; cbn [run];
    try (eexists; first [apply locked_guard|apply locked_bind, locked_guard]; exact Hb).
  - apply locked_lift. intros payload. apply locked_lift. intros intent.
    unfold _lowerNodeContentIntent. destruct (ContentAttachmentWriteIntent.nodeId intent) as [n|e]; [|by exists e].
    eexists. apply locked_bind. apply (locked_bind (setProperty _ _ _)). by apply locked_guard.
  - apply locked_lift. intros payload. apply locked_lift. intros intent.
    unfold _lowerEdgeContentIntent. destruct (ContentAttachmentWriteIntent.edgeTarget intent) as [t|e]; [|by exists e].
    eexists. apply locked_bind. apply (locked_bind (setEdgeProperty _ _ _ _ _ _)). by apply locked_guard.
Qed.

(** *** The sample builder in an empty repository *)

Definition sample_ref : string := "refs/warp/g/writers/w".

Definition commit_sample (x : Memory.world) : (PatchBuilder * Memory.world) * result PatchCommitResult :=
  commitWithEvidence true None (sample_builder, x).

Definition sample_repository : Memory.world := (commit_sample Memory.empty).1.2.

Lemma commit_extends_its_chain_witness :
  is_ok (commit_sample Memory.empty).2 = true ∧ grows Memory.empty sample_repository ∧
  refs sample_repository !! sample_ref ≠ None ∧
  ∃ p, patch_at (JInt 2) sample_builder = Ok p ∧ patches sample_repository !! "patch:0" = Some p.
Proof.
  split; [vm_compute; reflexivity|].
  destruct (commit_sample Memory.empty) as [[b' x'] r] eqn:Erun.
  pose proof Erun as Erun'. unfold commit_sample in Erun'.
  destruct (commit_extends_its_chain (M := Memory.text) (λ x, x) true None sample_builder b' Memory.empty x' r
    sample_ref [] None 2 Erun') as [Hg Hr].
  - reflexivity.
  - by intros f.
  - reflexivity.
  - apply chain_root.
  - constructor.
  - assert (sample_repository = x') as Hx' by (unfold sample_repository; by rewrite Erun).
    rewrite Hx'. split; [exact Hg|]. split.
    + rewrite <- Hx'. vm_compute. discriminate.
    + rewrite <- Hx'. eexists. split; vm_compute; reflexivity.
Defined.

Lemma sample_repository_grew : grows Memory.empty sample_repository.
Proof.
  unfold sample_repository. destruct (commit_sample Memory.empty) as [[b' x'] r] eqn:Erun.
  destruct (commit_run (M := Memory.text) true None sample_builder Memory.empty) as [[_ [Hc|Hc]]|Hrun];
    [vm_compute in Hc; discriminate Hc..|].
  destruct (commitPatch _ Memory.empty) as [x1 r1] eqn:Ep.
  unfold commit_sample in Erun. rewrite Hrun in Erun. injection Erun as <- <- <-. simpl.
  eapply (commitPatch_spec (M := Memory.text) (λ x, x) _ sample_ref [] None 2 _ _ _ Ep);
    [reflexivity|by intros f|apply chain_root|constructor|reflexivity].
Qed.

Lemma stale_commit_publishes_nothing_witness :
  let '((b', x'), r) := commit_sample sample_repository in
  b' = sample_builder ∧ x' = sample_repository ∧ r = Throw (WriterError "WRITER_CAS_CONFLICT").
Proof.
  destruct (commit_sample sample_repository) as [[b' x'] r] eqn:Erun.
  destruct (stale_commit_publishes_nothing (M := Memory.text) (λ x, x) true None sample_builder b'
    sample_repository x' r sample_ref [] None Memory.empty sample_repository) as [Hb [[_ He]|(h & Hh & ->)]].
  - apply chain_root.
  - reflexivity.
  - exact sample_repository_grew.
  - vm_compute. discriminate.
  - reflexivity.
  - unfold commit_sample in Erun. exact Erun.
  - reflexivity.
  - exfalso. assert ((commit_sample sample_repository).2 = Throw (WriterError "WRITER_CAS_CONFLICT")) as Hr
      by (vm_compute; reflexivity).
    rewrite Erun in Hr. simpl in Hr. subst r. by destruct He.
  - split; [exact Hb|].
    change (readRef sample_ref sample_repository) with
      (sample_repository, @Ok (option string) (refs sample_repository !! sample_ref)) in Hh.
    apply pair_equal_spec in Hh as [Hx Hr]. split; [symmetry; exact Hx|]. rewrite <- Hr. reflexivity.
Defined.

Lemma locked_builder_is_frozen_witness :
  let b := set_commit false true sample_builder in
  run built_env (PatchBuilding.CAddNode "late") b = (b, Throw (PatchError "E_PATCH_ALREADY_COMMITTED")).
Proof.
  intros b. destruct (locked_builder_is_frozen built_env (PatchBuilding.CAddNode "late") b) as [e He].
  - right. reflexivity.
  - assert ((run built_env (PatchBuilding.CAddNode "late") b).2 = Throw (PatchError "E_PATCH_ALREADY_COMMITTED")) as Hr
      by reflexivity.
    rewrite He in *. simpl in Hr. by rewrite Hr.
Defined.
