(* ===== verification/HostPatches.v ===== *)
(** The write path of a graph: [services/controllers/PatchDiscovery.ts] reads the
    chains of the writers, [services/controllers/PatchController.ts] makes
    builders and writers, commits, and brings the materialized state up to date. *)
From S2P Require Export CommitSafety WriterId Provenance PatchPolicies.
#[local] Open Scope string_scope.
#[local] Open Scope list_scope.
Import PatchBuilder.

(** ** Reading chains *)

(** A loop that ran out of fuel; with enough it does not. *)
Definition OutOfFuel : error := Err "OutOfFuel" "".

(* @src domain/services/controllers/PatchDiscovery.ts LamportResult 42-45 *)
Definition LamportResult : Type := jsnum * option string.

(* @src domain/services/controllers/PatchDiscovery.ts PatchEntry 47-50 *)
Record PatchEntry := Entry { entry_patch : Patch.Patch; entry_sha : string }.

(** [tickShas] is an object: its keys are the texts of the ticks. *)
(* @src domain/services/controllers/PatchDiscovery.ts PerWriterTicks 52-56 *)
Record PerWriterTicks := Ticks {
  writer_ticks : list jsnum;
  tipSha : option string;
  tickShas : gmap string string }.

(* @src domain/services/controllers/PatchDiscovery.ts DiscoverTicksResult 58-62 *)
Record DiscoverTicksResult := AllTicks {
  all_ticks : list jsnum;
  maxTick : jsnum;
  perWriter : list (string * PerWriterTicks) }.

Module PatchDiscovery.
Section discovery.
Context {M W : Type} `{CommitMessageCodec M} `{!Persistence M W} `{!PatchJournal W}.

(** The own tick: the one of the head, if it is a patch. *)
(* @src domain/services/controllers/PatchDiscovery.ts _nextLamportForWriter *)
Definition nextLamportFor (writerRef : string) (maxObservedLamport : jsnum) : step W LamportResult :=
  currentRefSha ← readRef writerRef;
  ownTick ← match currentRefSha with
    | Some sha =>
        if str_nonempty sha then
          commitMessage ← (showNode sha : step W M);
          match detectKind commitMessage with
          | Some KPatch =>
              match decodePatch commitMessage with
              | Ok patchInfo => mret (msg_lamport patchInfo)
              | Throw _ => lift (Throw (PatchError "E_PATCH_LAMPORT_PARSE"))
              end
          | _ => mret (JInt 0)
          end
        else mret (JInt 0)
    | None => mret (JInt 0)
    end;
  mret (d_add (js_max ownTick maxObservedLamport) (JInt 1), currentRefSha).

(** The walk along the first parents; what was read so far comes latest first. *)
(* @src domain/services/controllers/PatchDiscovery.ts loadPatchChainFromSha 127-150 *)
Fixpoint walk (fuel : nat) (hasPatchJournal : bool) (stopAtSha : option string) (currentSha : string)
    (found : list PatchEntry) : step W (list PatchEntry) :=
  if negb (str_nonempty currentSha) || bool_decide (Some currentSha = stopAtSha) then mret found
  else match fuel with
    | O => lift (Throw OutOfFuel)
    | S fuel =>
        nodeInfo ← (getNodeInfo currentSha : step W (NodeInfo M));
        if bool_decide (detectKind (message nodeInfo) ≠ Some KPatch) then mret found
        else
          patchMeta ← lift (decodePatch (message nodeInfo));
          _ ← lift (require hasPatchJournal (PatchError "E_MISSING_JOURNAL"));
          patch ← readPatch patchMeta;
          let found := found ++ [Entry patch currentSha] in
          match parents nodeInfo with
          | [] => mret found
          | parent :: _ => walk fuel hasPatchJournal stopAtSha parent found
          end
    end.

(** Oldest first. *)
(* @src domain/services/controllers/PatchDiscovery.ts loadPatchChainFromSha *)
Definition loadPatchChainFromSha (fuel : nat) (hasPatchJournal : bool) (tip : string)
    (stopAtSha : option string) : step W (list PatchEntry) :=
  if str_nonempty tip then
    found ← walk fuel hasPatchJournal stopAtSha tip [];
    mret (reverse found)
  else mret [].

(* @src domain/services/controllers/PatchDiscovery.ts loadWriterPatches *)
Definition loadWriterPatches (fuel : nat) (hasPatchJournal : bool) (graphName writerId : string)
    (stopAtSha : option string) : step W (list PatchEntry) :=
  writerRef ← lift (RefLayout.buildWriterRef graphName writerId);
  tip ← readRef writerRef;
  match tip with
  | Some tip =>
      if str_nonempty tip then loadPatchChainFromSha fuel hasPatchJournal tip stopAtSha else mret []
  | None => mret []
  end.

(* @src domain/services/controllers/PatchDiscovery.ts discoverWriters *)
Definition discoverWriters (graphName : string) : step W (list string) :=
  prefix ← lift (RefLayout.buildWritersPrefix graphName);
  refs ← (listRefs prefix : step W (list string));
  mret (js_sort compareStrings (omap (λ refPath, RefLayout.parseWriterIdFromRef (Some refPath)) refs)).

Section ticks.
Context `{NumberText}.

(** One chain: the ticks, latest first, and the commit of each. *)
(* @src domain/services/controllers/PatchDiscovery.ts discoverTicks 205-232 *)
Fixpoint walk_ticks (fuel : nat) (currentSha : string) (found : list jsnum * gmap string string)
    : step W (list jsnum * gmap string string) :=
  if negb (str_nonempty currentSha) then mret found
  else match fuel with
    | O => lift (Throw OutOfFuel)
    | S fuel =>
        nodeInfo ← (getNodeInfo currentSha : step W (NodeInfo M));
        if bool_decide (detectKind (message nodeInfo) ≠ Some KPatch) then mret found
        else
          patchMeta ← lift (decodePatch (message nodeInfo));
          let tick := msg_lamport patchMeta in
          let found := (found.1 ++ [tick], <[number_string tick := currentSha]> found.2) in
          match parents nodeInfo with
          | [] => mret found
          | parent :: _ => walk_ticks fuel parent found
          end
    end.

(** The ticks of one writer. *)
(* @src domain/services/controllers/PatchDiscovery.ts discoverTicks 197-243 *)
Definition ticks_of (fuel : nat) (graphName writerId : string) : step W (string * PerWriterTicks) :=
  writerRef ← lift (RefLayout.buildWriterRef graphName writerId);
  tip ← readRef writerRef;
  let tip := match tip with Some t => if str_nonempty t then Some t else None | None => None end in
  '(ticks, shas) ← match tip with Some t => walk_ticks fuel t ([], ∅) | None => mret ([], ∅) end;
  mret (writerId, Ticks (reverse ticks) tip shas).

Fixpoint map_step {A B} (f : A → step W B) (l : list A) : step W (list B) :=
  match l with
  | [] => mret []
  | x :: l' => y ← f x; ys ← map_step f l'; mret (y :: ys)
  end.

(** [a - b] as a sort sees it. *)
Definition compare_ticks (a b : jsnum) : Z := if d_ltb a b then -1 else if d_ltb b a then 1 else 0.

(** The set of all ticks is sorted at once, so that its order does not show. *)
(* @src domain/services/controllers/PatchDiscovery.ts discoverTicks *)
Definition discoverTicks (fuel : nat) (graphName : string) : step W DiscoverTicksResult :=
  writerIds ← discoverWriters graphName;
  perWriter ← map_step (ticks_of fuel graphName) writerIds;
  let ticks := js_sort compare_ticks (remove_dups (perWriter ≫= λ wt, writer_ticks wt.2)) in
  mret (AllTicks ticks (default (JInt 0) (last ticks)) perWriter).
End ticks.
End discovery.
End PatchDiscovery.

(** ** The controller and its host *)

(** States and version vectors are objects: the host keeps addresses, and
    changes what is stored there. *)
(* @src domain/services/controllers/PatchController.ts PatchHost 66-96 *)
Record Host := mkHost {
  _graphName : string;
  _writerId : string;
  _objects : N;
  _vectors : gmap N VersionVector.VersionVector;
  _states : gmap N State;
  _versionVector : N;
  _cachedState : option N;
  _stateDirty : bool;
  _maxObservedLamport : Z;
  _patchInProgress : bool;
  _patchesSinceCheckpoint : Z;
  _onDeleteWithData : DeletePolicy;
  _hasPatchJournal : bool;
  _hasAssetStorage : bool;
  _provenance : option ProvenanceIndex.ProvenanceIndex;
  _cachedFrontier : option (gmap string string);
  _lastFrontier : option (gmap string string);
  _cachedViewHash : option string;
  _auditSkipCount : Z }.

Section fields.
Context (h : Host).
Definition vector : VersionVector.VersionVector := default VersionVector.empty (_vectors h !! _versionVector h).
Definition state_of (a : N) : State := default JoinReducer.createEmptyState (_states h !! a).

(** [h._versionVector = vv], an object of its own. *)
Definition new_vector (vv : VersionVector.VersionVector) : Host :=
  mkHost (_graphName h) (_writerId h) (_objects h + 1) (<[_objects h := vv]> (_vectors h)) (_states h)
    (_objects h) (_cachedState h) (_stateDirty h) (_maxObservedLamport h) (_patchInProgress h)
    (_patchesSinceCheckpoint h) (_onDeleteWithData h) (_hasPatchJournal h) (_hasAssetStorage h)
    (_provenance h) (_cachedFrontier h) (_lastFrontier h) (_cachedViewHash h) (_auditSkipCount h).
(** A new state object, which is not the state of the host yet. *)
Definition alloc_state (s : State) : Host :=
  mkHost (_graphName h) (_writerId h) (_objects h + 1) (_vectors h) (<[_objects h := s]> (_states h))
    (_versionVector h) (_cachedState h) (_stateDirty h) (_maxObservedLamport h) (_patchInProgress h)
    (_patchesSinceCheckpoint h) (_onDeleteWithData h) (_hasPatchJournal h) (_hasAssetStorage h)
    (_provenance h) (_cachedFrontier h) (_lastFrontier h) (_cachedViewHash h) (_auditSkipCount h).
(** [h._cachedState = state], an object of its own. *)
Definition new_state (s : State) : Host :=
  mkHost (_graphName h) (_writerId h) (_objects h + 1) (_vectors h) (<[_objects h := s]> (_states h))
    (_versionVector h) (Some (_objects h)) (_stateDirty h) (_maxObservedLamport h) (_patchInProgress h)
    (_patchesSinceCheckpoint h) (_onDeleteWithData h) (_hasPatchJournal h) (_hasAssetStorage h)
    (_provenance h) (_cachedFrontier h) (_lastFrontier h) (_cachedViewHash h) (_auditSkipCount h).
(** Changes in place. *)
Definition store_vector (vv : VersionVector.VersionVector) : Host :=
  mkHost (_graphName h) (_writerId h) (_objects h) (<[_versionVector h := vv]> (_vectors h)) (_states h)
    (_versionVector h) (_cachedState h) (_stateDirty h) (_maxObservedLamport h) (_patchInProgress h)
    (_patchesSinceCheckpoint h) (_onDeleteWithData h) (_hasPatchJournal h) (_hasAssetStorage h)
    (_provenance h) (_cachedFrontier h) (_lastFrontier h) (_cachedViewHash h) (_auditSkipCount h).
Definition store_state (a : N) (s : State) : Host :=
  mkHost (_graphName h) (_writerId h) (_objects h) (_vectors h) (<[a := s]> (_states h))
    (_versionVector h) (_cachedState h) (_stateDirty h) (_maxObservedLamport h) (_patchInProgress h)
    (_patchesSinceCheckpoint h) (_onDeleteWithData h) (_hasPatchJournal h) (_hasAssetStorage h)
    (_provenance h) (_cachedFrontier h) (_lastFrontier h) (_cachedViewHash h) (_auditSkipCount h).
(** The counters after a commit of the given Lamport time. *)
Definition count_commit (lamport : Z) : Host :=
  mkHost (_graphName h) (_writerId h) (_objects h) (_vectors h) (_states h)
    (_versionVector h) (_cachedState h) (_stateDirty h)
    (if (lamport >? _maxObservedLamport h)%Z then lamport else _maxObservedLamport h) (_patchInProgress h)
    (_patchesSinceCheckpoint h + 1) (_onDeleteWithData h) (_hasPatchJournal h) (_hasAssetStorage h)
    (_provenance h) (_cachedFrontier h) (_lastFrontier h) (_cachedViewHash h) (_auditSkipCount h).
Definition set_progress (progress : bool) : Host :=
  mkHost (_graphName h) (_writerId h) (_objects h) (_vectors h) (_states h)
    (_versionVector h) (_cachedState h) (_stateDirty h) (_maxObservedLamport h) progress
    (_patchesSinceCheckpoint h) (_onDeleteWithData h) (_hasPatchJournal h) (_hasAssetStorage h)
    (_provenance h) (_cachedFrontier h) (_lastFrontier h) (_cachedViewHash h) (_auditSkipCount h).
Definition set_cached (a : N) : Host :=
  mkHost (_graphName h) (_writerId h) (_objects h) (_vectors h) (_states h)
    (_versionVector h) (Some a) (_stateDirty h) (_maxObservedLamport h) (_patchInProgress h)
    (_patchesSinceCheckpoint h) (_onDeleteWithData h) (_hasPatchJournal h) (_hasAssetStorage h)
    (_provenance h) (_cachedFrontier h) (_lastFrontier h) (_cachedViewHash h) (_auditSkipCount h).
Definition set_dirty (dirty : bool) : Host :=
  mkHost (_graphName h) (_writerId h) (_objects h) (_vectors h) (_states h)
    (_versionVector h) (_cachedState h) dirty (_maxObservedLamport h) (_patchInProgress h)
    (_patchesSinceCheckpoint h) (_onDeleteWithData h) (_hasPatchJournal h) (_hasAssetStorage h)
    (_provenance h) (_cachedFrontier h) (_lastFrontier h) (_cachedViewHash h) (_auditSkipCount h).
Definition set_view (hash : option string) (skipped : Z) : Host :=
  mkHost (_graphName h) (_writerId h) (_objects h) (_vectors h) (_states h)
    (_versionVector h) (_cachedState h) (_stateDirty h) (_maxObservedLamport h) (_patchInProgress h)
    (_patchesSinceCheckpoint h) (_onDeleteWithData h) (_hasPatchJournal h) (_hasAssetStorage h)
    (_provenance h) (_cachedFrontier h) (_lastFrontier h) hash skipped.
Definition set_frontiers (cached last : option (gmap string string)) : Host :=
  mkHost (_graphName h) (_writerId h) (_objects h) (_vectors h) (_states h)
    (_versionVector h) (_cachedState h) (_stateDirty h) (_maxObservedLamport h) (_patchInProgress h)
    (_patchesSinceCheckpoint h) (_onDeleteWithData h) (_hasPatchJournal h) (_hasAssetStorage h)
    (_provenance h) cached last (_cachedViewHash h) (_auditSkipCount h).
Definition set_provenance (p : option ProvenanceIndex.ProvenanceIndex) : Host :=
  mkHost (_graphName h) (_writerId h) (_objects h) (_vectors h) (_states h)
    (_versionVector h) (_cachedState h) (_stateDirty h) (_maxObservedLamport h) (_patchInProgress h)
    (_patchesSinceCheckpoint h) (_onDeleteWithData h) (_hasPatchJournal h) (_hasAssetStorage h)
    p (_cachedFrontier h) (_lastFrontier h) (_cachedViewHash h) (_auditSkipCount h).

(** [getCurrentState], and what is stored where at the moment. *)
Definition host_env : env := Env (_cachedState h) state_of.
End fields.

Module PatchController.
Section controller.
Context {M W : Type} `{CommitMessageCodec M} `{!Persistence M W} `{!PatchJournal W}.

(** What the host calls besides: the hash of a state (codec and crypto), the audit
    service if there is one, and the configuration. *)
Context (computeStateHash : State → step W string)
  (audit : option (TickReceipt.TickReceipt → step W unit))
  (getRandomValues : option (nat → list Z))
  (configGet : string → step W (option string)) (configSet : string → string → step W unit).

(** The ports in the state of the whole. *)
Definition in_ports {A} (m : step W A) : step (Host * W) A := λ '(h, w), let '(w', r) := m w in ((h, w'), r).
Definition in_host {A} (m : step Host A) : step (Host * W) A := λ '(h, w), let '(h', r) := m h in ((h', w), r).

#[global] Instance world_persistence : Persistence M (Host * W) := {|
  readRef ref := in_ports (readRef ref);
  listRefs prefix := in_ports (listRefs prefix);
  showNode sha := in_ports (showNode sha);
  getNodeInfo sha := in_ports (getNodeInfo sha) |}.
#[global] Instance world_journal : PatchJournal (Host * W) := {|
  appendPatch req := in_ports (appendPatch req);
  readPatch m := in_ports (readPatch m) |}.
#[global] Instance world_vectors : VectorStore (Host * W) := λ x a,
  default VersionVector.empty (_vectors x.1 !! a).

Definition host : step (Host * W) Host := in_host get.
Definition change (f : Host → Host) : step (Host * W) unit := in_host (modify f).

(** *** Making builders *)

(* @src domain/services/controllers/PatchController.ts _nextLamport *)
Definition _nextLamport : step (Host * W) LamportResult :=
  h ← host;
  writerRef ← lift (RefLayout.buildWriterRef (_graphName h) (_writerId h));
  in_ports (PatchDiscovery.nextLamportFor writerRef (JInt (_maxObservedLamport h))).

(** The vector is copied by the builder. *)
(* @src domain/services/controllers/PatchController.ts createPatch *)
Definition createPatch (values : heap) : step (Host * W) PatchBuilder :=
  '(lamport, parentSha) ← _nextLamport;
  h ← host;
  mret (PatchBuilder.new (Options (_graphName h) (_writerId h) lamport (vector h) parentSha None
    (Some (_onDeleteWithData h)) (_hasAssetStorage h)) values).

(** *** After a commit *)

(** A call on the state stored at an address. *)
Definition in_state {A} (a : N) (m : step State A) : step Host A := λ h,
  let '(s, r) := m (state_of h a) in (store_state h a s, r).

(** The vector of the host is changed in place. *)
Definition increment (writerId : string) : step Host Dot.Dot := λ h,
  let '(vv, r) := VersionVector.increment writerId (vector h) in (store_vector h vv, r).

(** The state is the object at [a]; the vector becomes a new one. The index of the
    view is not modelled, but for the hash it was built for. *)
(* @src domain/RuntimeHost.ts _setMaterializedState *)
Definition _setMaterializedState (a : N) (coordinate : option (gmap string string)) : step (Host * W) unit :=
  h ← host;
  stateHash ← in_ports (computeStateHash (state_of h a));
  _ ← change (λ h, set_dirty (set_cached h a) false);
  _ ← change (λ h, new_vector h (VersionVector.clone (WarpState.observedFrontier (state_of h a))));
  _ ← change (λ h, set_frontiers h coordinate (_lastFrontier h));
  change (λ h, set_view h (Some stateHash) (_auditSkipCount h)).

(* @src domain/services/controllers/PatchController.ts _onPatchCommitted *)
Definition _onPatchCommitted (writerId : string) (committed : PatchCommitResult) : step (Host * W) unit :=
  let p := result_patch committed in let sha := sha (published committed) in
  _ ← in_host (increment writerId);
  _ ← change (λ h, count_commit h (Patch.lamport p));
  h ← host;
  match _cachedState h with
  | Some a =>
      if negb (_stateDirty h) && str_nonempty sha then
        tickReceipt ← match audit with
          | Some _ => receipt ← in_host (in_state a (JoinReducer.applyWithReceipt (Patch.like p) sha)); mret (Some receipt)
          | None => _ ← in_host (in_state a (JoinReducer.applyWithDiff (Patch.like p) sha)); mret None
          end;
        _ ← _setMaterializedState a (<[writerId := sha]> <$> _cachedFrontier h);
        _ ← change (λ h, set_provenance h
              ((λ i, ProvenanceIndex.addPatch i sha (Patch.reads p) (Patch.writes p)) <$> _provenance h));
        _ ← change (λ h, set_frontiers h (_cachedFrontier h) (<[writerId := sha]> <$> _lastFrontier h));
        match audit, tickReceipt with
        | Some commit, Some receipt => in_ports (try_catch (commit receipt) (λ _, mret ()))
        | _, _ => mret ()
        end
      else
        _ ← change (λ h, set_dirty h true);
        change (λ h, set_view h None (_auditSkipCount h + (if audit is Some _ then 1 else 0)))
  | None =>
      _ ← change (λ h, set_dirty h true);
      change (λ h, set_view h None (_auditSkipCount h + (if audit is Some _ then 1 else 0)))
  end.

(** *** Patches *)

(** [build] may use the host too; it starts on [values]. *)
(* @src domain/services/controllers/PatchController.ts patchWithEvidence *)
Definition patchWithEvidence (values : heap) (build : step (PatchBuilder * (Host * W)) unit)
    : step (Host * W) PatchCommitResult := λ '(h, w),
  if _patchInProgress h then ((h, w), Throw (PatchError "E_PATCH_REENTRANT"))
  else
    let finish '(x : Host * W) := (set_progress x.1 false, x.2) in
    match createPatch values (set_progress h true, w) with
    | (x, Throw e) => (finish x, Throw e)
    | (x, Ok p) =>
        match build (p, x) with
        | ((_, x), Throw e) => (finish x, Throw e)
        | ((p, x), Ok _) =>
            let '((_, x), r) := PatchCommitter.commitWithEvidence (_hasPatchJournal x.1)
              (Some (_onPatchCommitted (_writerId x.1))) (p, x) in
            (finish x, r)
        end
    end.

(* @src domain/services/controllers/PatchController.ts patch *)
Definition patch (values : heap) (build : step (PatchBuilder * (Host * W)) unit) : step (Host * W) string :=
  result ← patchWithEvidence values build;
  mret (sha (published result)).

(* @src domain/services/controllers/PatchController.ts patchMany *)
Fixpoint patchMany (builds : list (heap * step (PatchBuilder * (Host * W)) unit))
    : step (Host * W) (list string) :=
  match builds with
  | [] => mret []
  | (values, build) :: builds =>
      sha ← patch values build; shas ← patchMany builds; mret (sha :: shas)
  end.

(** *** Writers *)

(** The writer keeps the address of the vector the host has at this moment. *)
(* @src domain/services/controllers/PatchController.ts writer *)
Definition writer (writerId : option string) : step (Host * W) Writer.Writer :=
  h ← host;
  resolvedWriterId ← in_ports (WriterId.resolveWriterId getRandomValues configGet configSet
    (_graphName h) writerId);
  h ← host;
  _ ← lift (require (_hasPatchJournal h) (PatchError "E_MISSING_JOURNAL"));
  lift (Writer.new (_graphName h) (Some resolvedWriterId) (_versionVector h)
    (Some (_onDeleteWithData h)) true (_hasAssetStorage h)).

(** A patch through a writer, with the callback the controller gives it. *)
Definition writer_patch (w : Writer.Writer) (values : heap)
    (build : step (PatchSession.PatchSession * (Writer.Writer * (Host * W))) unit)
    : step (Host * W) string := λ x,
  let '((_, x), r) := Writer.commitPatch values (Some (_onPatchCommitted (Writer._writerId w))) build (w, x) in
  (x, r).

(** *** The state *)

Definition QueryError (code : string) : error := Err "QueryError" code.

(* @src domain/services/controllers/PatchController.ts _ensureFreshState *)
Definition _ensureFreshState (h : Host) : result unit :=
  _ ← require (bool_decide (is_Some (_cachedState h))) (QueryError "E_NO_STATE");
  require (negb (_stateDirty h)) (QueryError "E_STALE_STATE").

(* @src domain/services/controllers/PatchController.ts JoinReceipt 112-119 *)
Record JoinReceipt := mkJoinReceipt {
  nodesAdded : nat; nodesRemoved : nat; edgesAdded : nat; edgesRemoved : nat;
  propsChanged : nat; frontierMerged : bool }.

(** [!oldReg || oldReg.value !== entry.register.value] *)
Definition changed (before : State) (k : string) (r : WarpState.register) : bool :=
  match WarpState.getEncodedProp before k with
  | Some old => negb (js_strict_eq (LWW.value old) (LWW.value r))
  | None => true
  end.

(* @src domain/services/controllers/PatchController.ts _frontierEquals *)
Definition _frontierEquals (a b : VersionVector.VersionVector) : bool := VersionVector.equals a b.

(* @src domain/services/controllers/PatchController.ts join 395-441 *)
Definition join_receipt (before merged : State) : result JoinReceipt :=
  let beforeNodes := length (ORSet.elements (WarpState.nodeAlive before)) in
  let beforeEdges := length (ORSet.elements (WarpState.edgeAlive before)) in
  let afterNodes := length (ORSet.elements (WarpState.nodeAlive merged)) in
  let afterEdges := length (ORSet.elements (WarpState.edgeAlive merged)) in
  let nodeProps := filter (λ e, changed before (WarpState.np_encodedKey e) (WarpState.np_register e))
    (WarpState.nodeProperties merged) in
  edges ← map_result id (WarpState.edgeProperties merged);
  let edgeProps := filter (λ e, changed before (WarpState.ep_encodedKey e) (WarpState.ep_register e)) edges in
  Ok (mkJoinReceipt (afterNodes - beforeNodes) (beforeNodes - afterNodes)
    (afterEdges - beforeEdges) (beforeEdges - afterEdges) (length nodeProps + length edgeProps)
    (negb (bool_decide (VersionVector.size (WarpState.observedFrontier merged)
        = VersionVector.size (WarpState.observedFrontier before))) ||
     negb (_frontierEquals (WarpState.observedFrontier before) (WarpState.observedFrontier merged)))).

(** [None] is an argument that is not a state. *)
(* @src domain/services/controllers/PatchController.ts join *)
Definition join (otherState : option State) : step Host JoinReceipt :=
  cached ← (λ h, (h, Ok (_cachedState h)) : Host * result (option N));
  match cached with
  | None => lift (Throw (QueryError "E_NO_STATE"))
  | Some a =>
      match otherState with
      | None => lift (Throw (QueryError "E_INVALID_STATE"))
      | Some otherState =>
          before ← (λ h, (h, Ok (state_of h a)) : Host * result State);
          let mergedState := JoinReducer.joinStates before otherState in
          receipt ← lift (join_receipt before mergedState);
          _ ← modify (λ h, new_state h mergedState);
          _ ← modify (λ h, new_vector h (VersionVector.clone (WarpState.observedFrontier mergedState)));
          _ ← modify (λ h, set_view h None (_auditSkipCount h));
          _ ← modify (λ h, set_dirty h false);
          mret receipt
      end
  end.
End controller.
End PatchController.
