(* ===== verification/HostMeaning.v ===== *)
(** What the write path of a host promises: patches of a host that has its state
    do, one after the other, what was asked of them; and what goes wrong when
    it has none, or when the patches go through a writer. *)
From S2P Require Export HostPatches.
#[local] Open Scope string_scope.
#[local] Open Scope list_scope.
Import PatchBuilder PatchCommitter PatchController.

(** ** Ports of the whole *)

Section world.
Context {M W : Type} `{CommitMessageCodec M} `{!Persistence M W} `{!PatchJournal W}.
Context (view : W → Repo M) `{!RepositoryLaws view}.

Lemma in_ports_inv {A} (m : step W A) (x x' : Host * W) r :
  in_ports m x = (x', r) → m x.2 = (x'.2, r) ∧ x'.1 = x.1.
Proof. destruct x as [h w]. unfold in_ports. destruct (m w) as [w' r'] eqn:E. intros [= <- <-]. by simpl. Qed.

Lemma readRef_keeps h ref (x x' : Host * W) r : readRef ref x = (x', r) → x.1 = h → x'.1 = h.
Proof. by intros [_ ->]%in_ports_inv. Qed.
Lemma showNode_keeps h sha (x x' : Host * W) r : showNode sha x = (x', r) → x.1 = h → x'.1 = h.
Proof. by intros [_ ->]%in_ports_inv. Qed.
Lemma appendPatch_keeps h req (x x' : Host * W) r : appendPatch req x = (x', r) → x.1 = h → x'.1 = h.
Proof. by intros [_ ->]%in_ports_inv. Qed.

#[export] Instance world_laws : RepositoryLaws (X := Host * W) (λ x, view x.2).
Proof.
  split.
  - apply (laws_messages (view := view)).
  - intros ref x x' r [Hr _]%in_ports_inv. apply (readRef_law _ _ _ _ Hr).
  - intros sha x x' r [Hr _]%in_ports_inv. apply (showNode_law _ _ _ _ Hr).
  - intros sha x x' r [Hr _]%in_ports_inv. apply (getNodeInfo_law _ _ _ _ Hr).
  - intros m x x' r [Hr _]%in_ports_inv. apply (readPatch_law _ _ _ _ Hr).
  - intros req x x' p [Hr _]%in_ports_inv. apply (sha_law _ _ _ _ Hr).
  - intros req x x' r [Hr _]%in_ports_inv. apply (appendPatch_law _ _ _ _ Hr).
Qed.
End world.

(** ** The committer keeps what the ports keep *)

Section frame.
Context {M X : Type} `{CommitMessageCodec M} `{!Persistence M X} `{!PatchJournal X}.
Context (view : X → Repo M) `{!RepositoryLaws view} (inv : X → Prop).
Context (Hread : ∀ ref x x' r, readRef ref x = (x', r) → inv x → inv x')
  (Hshow : ∀ sha x x' r, showNode sha x = (x', r) → inv x → inv x')
  (Happend : ∀ req x x' r, appendPatch req x = (x', r) → inv x → inv x').

Lemma publishPatch_frame state ref parent patch x x' r :
  publishPatch state ref parent patch x = (x', r) → inv x →
  inv x' ∧ ∀ p, r = Ok p → EventId.hex_oid (sha p) = true.
Proof.
  unfold publishPatch, try_catch. intros Hrun Hx. destruct (appendPatch _ x) as [x1 r1] eqn:Ea.
  pose proof (Happend _ _ _ _ Ea Hx) as Hx1. destruct r1 as [p|e].
  { injection Hrun as <- <-. split; [done|]. intros p' [= <-]. by apply (sha_law _ _ _ _ Ea). }
  unfold mbind, step_bind in Hrun. destruct (readRef ref x1) as [x2 r2] eqn:Er.
  pose proof (Hread _ _ _ _ Er Hx1) as Hx2. destruct r2; [case_match|]; by injection Hrun as <- <-.
Qed.

Lemma resolveParent_frame state cur x x' r :
  resolveParent state cur x = (x', r) → inv x → inv x'.
Proof.
  unfold resolveParent, mbind, step_bind. intros Hrun Hx. destruct cur as [sha|]; [|by injection Hrun as <- <-].
  destruct (str_nonempty sha); [|by injection Hrun as <- <-].
  destruct (showNode sha x) as [x1 r1] eqn:Es. pose proof (Hshow _ _ _ _ Es Hx) as Hx1.
  destruct r1 as [m|e]; [|by injection Hrun as <- <-].
  destruct (detectKind m) as [[]|]; try by injection Hrun as <- <-.
  unfold lift in Hrun. destruct (decodePatch m); by injection Hrun as <- <-.
Qed.

(** A commit threw, with the rest as it was, or its callback ran last. *)
Lemma commitPatch_frame state x x' r :
  commitPatch state x = (x', r) → inv x →
  (∃ e, r = Throw e ∧ inv x') ∨
  (∃ res x3, r = Ok res ∧ inv x3 ∧ EventId.hex_oid (sha (published res)) = true ∧
    x' = match c_onCommitSuccess state with Some f => (f res x3).1 | None => x3 end).
Proof.
  intros Hrun Hx. unfold commitPatch, mbind, step_bind, lift in Hrun.
  destruct (require (0 <? length (c_ops state))%nat _); [|injection Hrun as <- <-; left; by eexists].
  destruct (writerRefOf state) as [ref|e]; [|injection Hrun as <- <-; left; by eexists].
  destruct (readRef ref x) as [x1 r1] eqn:Er. pose proof (Hread _ _ _ _ Er Hx) as Hx1.
  destruct r1 as [cur|e]; [|injection Hrun as <- <-; left; by eexists].
  destruct (require (bool_decide (cur = _)) _); [|injection Hrun as <- <-; left; by eexists].
  destruct (resolveParent state cur x1) as [x2 r2] eqn:Ep. pose proof (resolveParent_frame _ _ _ _ _ Ep Hx1) as Hx2.
  destruct r2 as [[lam par]|e]; [|injection Hrun as <- <-; left; by eexists].
  destruct (assemble _ _ _ _ _ _ _) as [p|e]; [|injection Hrun as <- <-; left; by eexists].
  destruct (require (c_hasPatchJournal state) _); [|injection Hrun as <- <-; left; by eexists].
  destruct (publishPatch state ref par p x2) as [x3 r3] eqn:Epub.
  destruct (publishPatch_frame _ _ _ _ _ _ _ Epub Hx2) as [Hx3 Hsha].
  destruct r3 as [pub|e]; [|injection Hrun as <- <-; left; by eexists]. right.
  exists (CommitResult p pub), x3. specialize (Hsha pub eq_refl).
  destruct (c_onCommitSuccess state) as [f|].
  - unfold try_catch in Hrun. destruct (f (CommitResult p pub) x3) as [x4 r4].
    destruct r4; by injection Hrun as <- <-.
  - by injection Hrun as <- <-.
Qed.
End frame.

(** ** A host that has its state *)

(** The state of the host, and the time it has observed. *)
Record host_ok (h : Host) (a : N) (s : State) : Prop := {
  hk_writer : str_nonempty (_writerId h) = true ∧ _writerId h ≠ "__proto__";
  hk_idle : _patchInProgress h = false;
  hk_state : _cachedState h = Some a ∧ _stateDirty h = false ∧ state_of h a = s;
  hk_buildable : buildable (_writerId h) (WarpState.observedFrontier s) s;
  hk_named : named s;
  hk_vector : vector h = VersionVector.clone (WarpState.observedFrontier s);
  hk_bound : (VersionVector.at_ (WarpState.observedFrontier s) (_writerId h) <= max_exact)%Z;
  hk_time : (0 <= _maxObservedLamport h < max_exact)%Z;
  hk_past : ∀ k (r : WarpState.register), WarpState.prop s !! k = Some r →
    (EventId.lamport (LWW.eventId r) <= _maxObservedLamport h)%Z }.

Section host.
Context {M W : Type} `{CommitMessageCodec M} `{!Persistence M W} `{!PatchJournal W}.
Context (view : W → Repo M) `{!RepositoryLaws view}.
Context (computeStateHash : State → step W string)
  (audit : option (TickReceipt.TickReceipt → step W unit)).

(** The hash can be computed; neither it nor the audit takes away patches. *)
Record services_ok : Prop := {
  so_hash s w : ∃ w' hash, computeStateHash s w = (w', Ok hash) ∧ grows (view w) (view w');
  so_audit commit r w w' res : audit = Some commit → commit r w = (w', res) → grows (view w) (view w') }.
Context (Hservices : services_ok).

Lemma increment_ok vv w : VersionVector.wf vv → VersionVector.frozen vv = false →
  (VersionVector.at_ vv w <= max_exact)%Z → str_nonempty w = true →
  ∃ vv' d, VersionVector.increment w vv = (vv', Ok d).
Proof.
  intros Hwf Hfr Hle Hw. pose proof (VersionVector.wf_at_nonneg vv w Hwf) as Hnn.
  assert (∃ c, js_add (VersionVector.at_ vv w) 1 = JInt c ∧ (1 <= c)%Z) as (c & Hc & H1).
  { destruct (decide (VersionVector.at_ vv w = max_exact)) as [->|].
    - rewrite js_add_saturates. by eexists.
    - rewrite js_add_exact by lia. eexists. split; [done|]. lia. }
  unfold VersionVector.increment. rewrite Hfr. fold (VersionVector.at_ vv w). rewrite Hc.
  rewrite (proj2 (Dot.dot_new_ok w _ (Dot.mk w c))) by (simpl; split_and!; done || lia). by eexists _, _.
Qed.

(** The state as it is stored at [a] becomes the state of the host. *)
Lemma setMaterializedState_run h a coord w : ∃ w' hash,
  grows (view w) (view w') ∧
  _setMaterializedState computeStateHash a coord (h, w) =
    ((set_view (set_frontiers (new_vector (set_dirty (set_cached h a) false)
        (VersionVector.clone (WarpState.observedFrontier (state_of h a)))) coord (_lastFrontier h))
      (Some hash) (_auditSkipCount h), w'), Ok ()).
Proof.
  destruct (so_hash Hservices (state_of h a) w) as (w' & hash & Hhash & Hg). exists w', hash. split; [done|].
  unfold _setMaterializedState, mbind, step_bind, host, change, in_host, in_ports, modify, get.
  by rewrite Hhash.
Qed.

(** The host that a commit leaves, up to what no patch looks at. *)
Definition is_current (h h' : Host) (a : N) (s' : State) (lam : Z) : Prop :=
  _graphName h' = _graphName h ∧ _writerId h' = _writerId h ∧ _cachedState h' = Some a ∧
  _stateDirty h' = false ∧ state_of h' a = s' ∧
  vector h' = VersionVector.clone (WarpState.observedFrontier s') ∧
  _maxObservedLamport h' = Z.max (_maxObservedLamport h) lam ∧
  _patchInProgress h' = _patchInProgress h ∧ _onDeleteWithData h' = _onDeleteWithData h ∧
  _hasPatchJournal h' = _hasPatchJournal h ∧ _hasAssetStorage h' = _hasAssetStorage h.

(** What the callback does to the host after it stored the state. *)
Lemma stored_state_is_current h vv lam a s' :
  _cachedState h = Some a →
  let h1 := store_state (count_commit (store_vector h vv) lam) a s' in
  let h2 := new_vector (set_dirty (set_cached h1 a) false)
    (VersionVector.clone (WarpState.observedFrontier (state_of h1 a))) in
  ∀ c l hash skipped prov c' l', is_current h (set_frontiers (set_provenance
    (set_view (set_frontiers h2 c l) hash skipped) prov) c' l') a s' lam.
Proof.
  intros Ha h1 h2.
  assert (state_of h1 a = s') as Hs by (unfold state_of; simpl; by rewrite lookup_insert_eq).
  unfold h2. rewrite Hs. intros. unfold is_current, vector, state_of. simpl. rewrite !lookup_insert_eq. simpl.
  split_and!; try done. rewrite Z.gtb_ltb. destruct (Z.ltb_spec (_maxObservedLamport h) lam); lia.
Qed.

(** The callback on a host that has its state. *)
Lemma committed_spec h a s s' p pub w d rc :
  _cachedState h = Some a → _stateDirty h = false → state_of h a = s → str_nonempty (sha pub) = true →
  VersionVector.wf (vector h) → VersionVector.frozen (vector h) = false →
  (VersionVector.at_ (vector h) (_writerId h) <= max_exact)%Z → str_nonempty (_writerId h) = true →
  JoinReducer.applyWithDiff (Patch.like p) (sha pub) s = (s', Ok d) →
  JoinReducer.applyWithReceipt (Patch.like p) (sha pub) s = (s', Ok rc) →
  let x := (_onPatchCommitted computeStateHash audit (_writerId h) (CommitResult p pub) (h, w)).1 in
  grows (view w) (view x.2) ∧ is_current h x.1 a s' (Patch.lamport p).
Proof.
  intros Ha Hdirty Hs Hsha Hwf Hfr Hle Hw Hdiff Hrec.
  destruct (increment_ok _ _ Hwf Hfr Hle Hw) as (vv & dot & Hinc).
  set (h1 := count_commit (store_vector h vv) (Patch.lamport p)).
  assert (state_of h1 a = s) as Hs1 by done.
  unfold _onPatchCommitted, mbind, step_bind, host, change, in_host, modify, get, increment.
  cbn [result_patch published]. rewrite Hinc. cbn [_cachedState _stateDirty count_commit store_vector].
  rewrite Ha, Hdirty, Hsha. cbn [negb andb]. fold h1. unfold in_state.
  destruct (setMaterializedState_run (store_state h1 a s') a
    (<[_writerId h := sha pub]> <$> _cachedFrontier h) w) as (w1 & hash & Hg & Hset).
  destruct audit as [commit|] eqn:Eaudit.
  - rewrite Hs1, Hrec. cbn [mret step_ret]. change (_cachedFrontier h1) with (_cachedFrontier h).
    rewrite Hset. unfold in_ports, try_catch. destruct (commit rc w1) as [w2 r2] eqn:Ec.
    pose proof (so_audit Hservices _ _ _ _ _ Eaudit Ec) as Hg2.
    destruct r2; (split; [by transitivity (view w1)|]); by apply (stored_state_is_current h vv).
  - rewrite Hs1, Hdiff. cbn [mret step_ret]. change (_cachedFrontier h1) with (_cachedFrontier h).
    rewrite Hset. split; [done|]. by apply (stored_state_is_current h vv).
Qed.

(** *** Nothing takes a patch away *)

Definition steady {A} (m : step (Host * W) A) : Prop :=
  ∀ x x' r, m x = (x', r) → grows (view x.2) (view x'.2).

Lemma steady_bind {A B} (m : step (Host * W) A) (k : A → step (Host * W) B) :
  steady m → (∀ a, steady (k a)) → steady (m ≫= k).
Proof.
  intros Hm Hk x x' r. unfold mbind, step_bind. destruct (m x) as [x1 [a|e]] eqn:E.
  - intros E'. etrans; [by apply (Hm _ _ _ E)|by apply (Hk a _ _ _ E')].
  - intros [= <- <-]. by apply (Hm _ _ _ E).
Qed.

Lemma steady_ret {A} (a : A) : steady (mret a).
Proof. by intros x x' r [= <- <-]. Qed.

Lemma steady_lift {A} (a : result A) : steady (lift a).
Proof. by intros x x' r [= <- <-]. Qed.

Lemma steady_in_host {A} (m : step Host A) : steady (in_host m).
Proof. intros [h w] x' r. unfold in_host. destruct (m h). by intros [= <- <-]. Qed.

Lemma steady_in_ports {A} (m : step W A) :
  (∀ w w' r, m w = (w', r) → grows (view w) (view w')) → steady (in_ports m).
Proof. intros Hm [h w] x' r. unfold in_ports. destruct (m w) as [w' r'] eqn:E. intros [= <- <-]. by apply (Hm _ _ _ E). Qed.

Lemma steady_hash s : steady (in_ports (computeStateHash s)).
Proof.
  apply steady_in_ports. intros w w' r E. destruct (so_hash Hservices s w) as (w1 & hash & Hh & Hg).
  rewrite E in Hh. by injection Hh as -> ->.
Qed.

Lemma steady_audit commit receipt : audit = Some commit →
  steady (in_ports (try_catch (commit receipt) (λ _, mret ()))).
Proof.
  intros Ha. apply steady_in_ports. intros w w' r. unfold try_catch. destruct (commit receipt w) as [w1 r1] eqn:E.
  pose proof (so_audit Hservices _ _ _ _ _ Ha E). by destruct r1; intros [= <- <-].
Qed.

Ltac steady := repeat first
  [ apply steady_bind; [|intros ?]
  | apply steady_ret | apply steady_lift | apply steady_in_host | apply steady_hash
  | apply steady_audit; done
  | match goal with |- steady (match ?x with _ => _ end) => destruct x eqn:? end
  | progress unfold _onPatchCommitted, _setMaterializedState, host, change ].

Lemma callback_tidy writerId : tidy (λ x, view x.2) (Some (_onPatchCommitted computeStateHash audit writerId)).
Proof.
  intros f [= <-] res. change (steady (_onPatchCommitted computeStateHash audit writerId res)).
  steady.
Qed.

(** *** The Lamport time of the next patch *)

Lemma nextLamport_spec h w x' r ref l base :
  _nextLamport (h, w) = (x', r) → RefLayout.buildWriterRef (_graphName h) (_writerId h) = Ok ref →
  chain (commits (view w)) (refs (view w) !! ref) l base → (0 <= _maxObservedLamport h < max_exact)%Z →
  x'.1 = h ∧ grows (view w) (view x'.2) ∧
  ∀ lam parent, r = Ok (lam, parent) → ∃ n, lam = JInt n ∧ (_maxObservedLamport h < n <= max_exact)%Z.
Proof.
  intros Hrun Href Hc Hmax. unfold _nextLamport, mbind, step_bind, host, in_host, get, lift in Hrun.
  rewrite Href in Hrun. apply in_ports_inv in Hrun as [Hrun ->]. cbn [snd] in Hrun. split; [done|].
  destruct x' as [h' w']. cbn [snd] in *.
  unfold PatchDiscovery.nextLamportFor, mbind, step_bind in Hrun.
  destruct (readRef ref w) as [w1 [cur|e]] eqn:Er; destruct (readRef_law _ _ _ _ Er) as [Hg1 Hh];
    [|injection Hrun as <- <-; by split].
  specialize (Hh cur eq_refl). subst cur.
  pose proof Hg1 as (_ & _ & Hgr). destruct (Hgr _ _ _ Hc) as (la & Hc1 & _).
  assert (∀ t, (0 <= t < max_exact)%Z → ∃ n,
    d_add (js_max (JInt t) (JInt (_maxObservedLamport h))) (JInt 1) = JInt n ∧
    (_maxObservedLamport h < n <= max_exact)%Z) as Htop.
  { intros t Ht. rewrite js_max_int, d_add_exact by (unfold max_exact in *; lia).
    eexists. split; [done|]. lia. }
  assert (0 <= 0 < max_exact)%Z as H0 by done.
  destruct (refs (view w1) !! ref) as [sha|] eqn:Eref.
  2:{ injection Hrun as <- <-. split; [done|]. intros lam parent [= <- <-]. by apply Htop. }
  destruct (str_nonempty sha).
  2:{ injection Hrun as <- <-. split; [done|]. intros lam parent [= <- <-]. by apply Htop. }
  destruct (showNode sha w1) as [w2 [m|e]] eqn:Es; destruct (showNode_law _ _ _ _ Es) as [Hg2 Hm];
    [|injection Hrun as <- <-; split; [by etrans|done]].
  destruct (Hm m eq_refl) as [ps Hps]. destruct (detectKind m) as [[]|];
    try (injection Hrun as <- <-; split; [by etrans|]; intros lam parent [= <- <-]; by apply Htop).
  unfold lift in Hrun. destruct (decodePatch m) as [info|e] eqn:Ed;
    injection Hrun as <- <-; (split; [by etrans|]); [|done].
  intros lam parent [= <- <-]. destruct (decode_range _ _ Ed) as (t & -> & Ht). apply Htop. lia.
Qed.
End host.

(** ** The state a patch leaves *)

Lemma play_past l w sha i ops s k r : Forall (λ o, canonical o = true) ops →
  WarpState.prop (play l w sha i ops s) !! k = Some r →
  EventId.lamport (LWW.eventId r) = l ∨ WarpState.prop s !! k = Some r.
Proof.
  intros Hc. revert i s. induction Hc as [|o ops Ho _ IH]; intros i s; cbn [play]; [by right|].
  intros [?|Hr]%IH; [by left|]. revert Hr.
  assert (∀ k' v, WarpState.prop (WarpState.prop_put k' (LWW.mk (event_at l w sha i) v) s) !! k = Some r →
    EventId.lamport (LWW.eventId r) = l ∨ WarpState.prop s !! k = Some r) as Hput.
  { intros k' v. unfold WarpState.prop_put. simpl. destruct (WarpState.prop s !! k') as [old|] eqn:Eo; simpl.
    - destruct (_ <=? _)%Z; intros [[<- <-]|[_ ?]]%lookup_insert_Some; auto.
    - intros [[<- <-]|[_ ?]]%lookup_insert_Some; auto. }
  destruct o as [a|r'|a|r'|a|a|a|a]; try done; simpl; try by auto.
  - apply Hput.
  - apply Hput.
Qed.

Lemma play_named l w sha i ops s : Forall (λ o, op_ok o ∧ canonical o = true) ops → named s →
  named (play l w sha i ops s).
Proof.
  intros Hops. revert i s. induction Hops as [|o ops [Ho Hc] _ IH]; intros i s Hs; cbn [play]; [done|].
  apply IH. by apply mutate_named.
Qed.

(** ** One patch after the other *)

Section patches.
Context {M W : Type} `{CommitMessageCodec M} `{!Persistence M W} `{!PatchJournal W} `{NumberText}.
Context (view : W → Repo M) `{!RepositoryLaws view}.
Context (computeStateHash : State → step W string)
  (audit : option (TickReceipt.TickReceipt → step W unit)).
Context (Hservices : services_ok view computeStateHash audit).

(** A client that makes some calls on the builder, and catches what they throw. *)
Definition asking (cs : list call) : step (PatchBuilder * (Host * W)) unit := λ '(b, x),
  ((run_all (host_env x.1) cs b, x), Ok ()).

(** The builder of a patch, with its Lamport time and the head it stands on. *)
Definition builder_of (h : Host) (values : heap) (lam : Z) (parent : option string) : PatchBuilder :=
  PatchBuilder.new (Options (_graphName h) (_writerId h) (JInt lam) (vector h) parent None
    (Some (_onDeleteWithData h)) (_hasAssetStorage h)) values.

Lemma set_progress_back h : _patchInProgress h = false → set_progress (set_progress h true) false = h.
Proof. by destruct h; simpl; intros ->. Qed.

(** Its options are those of the host, whatever was called. *)
Lemma builder_of_options h a s cs values n parent : host_ok h a s →
  let b := run_all (host_env h) cs (builder_of h values n parent) in
  writerId (_options b) = _writerId h ∧ lamport (_options b) = JInt n ∧
  graphName (_options b) = _graphName h ∧ targetRefPath (_options b) = None.
Proof.
  intros [_ _ (Ha & _ & Hs) Hbd _ Hvec Hbound _ _]. destruct (bd_live _ _ _ Hbd) as [Hwf Hnf].
  set (o := Options (_graphName h) (_writerId h) (JInt n) (vector h) parent None
    (Some (_onDeleteWithData h)) (_hasAssetStorage h)).
  destruct (ok_options _ _ _ (run_all_ok (host_env h) o values cs
    ltac:(split; simpl; by rewrite Hvec) ltac:(intros s1; unfold snapshot_of, host_env; simpl;
      rewrite Ha; simpl; rewrite Hs; intros [= <-]; by apply (bd_keys _ _ _ Hbd)))) as (? & ? & ? & ? & ?).
  by split_and!.
Qed.

(** A patch throws and leaves the host as it was, or commits what the builder holds
    and runs the callback. *)
Lemma patch_run h w values cs x' r ref l base :
  _patchInProgress h = false → (0 <= _maxObservedLamport h < max_exact)%Z →
  RefLayout.buildWriterRef (_graphName h) (_writerId h) = Ok ref →
  chain (commits (view w)) (refs (view w) !! ref) l base → descending l →
  (∀ n parent, let b := run_all (host_env h) cs (builder_of h values n parent) in
    writerId (_options b) = _writerId h ∧ lamport (_options b) = JInt n ∧
    graphName (_options b) = _graphName h ∧ targetRefPath (_options b) = None) →
  patchWithEvidence computeStateHash audit values (asking cs) (h, w) = (x', r) →
  grows (view w) (view x'.2) ∧
  ((∃ e, r = Throw e ∧ x'.1 = h) ∨
   ∃ res n parent w3, let b := run_all (host_env h) cs (builder_of h values n parent) in
     let callback := _onPatchCommitted computeStateHash audit (_writerId h) in
     let x2 := (callback res (set_progress h true, w3)).1 in
     r = Ok res ∧ (_maxObservedLamport h < n)%Z ∧ EventId.hex_oid (sha (published res)) = true ∧
     x' = (set_progress x2.1 false, x2.2) ∧
     committed_on (X := Host * W) (λ x, view x.2) (commit_state (_hasPatchJournal h) (Some callback) b) ref base n x2 res).
Proof.
  intros Hidle Hmax Href Hc Hd Hopts Hrun. unfold patchWithEvidence in Hrun. rewrite Hidle in Hrun.
  set (h1 := set_progress h true) in *.
  unfold createPatch, mbind, step_bind in Hrun.
  destruct (_nextLamport (h1, w)) as [[h1' w1] r1] eqn:En.
  destruct (nextLamport_spec view h1 w _ _ ref l base En Href Hc Hmax) as (Hh1 & Hg1 & Hn).
  cbn [fst snd] in Hh1, Hg1. subst h1'.
  assert (set_progress h1 false = h) as Hback by (by apply set_progress_back).
  destruct r1 as [[lam parent]|e].
  2:{ injection Hrun as <- <-. cbn [fst snd]. split; [done|]. left. by eexists. }
  destruct (Hn lam parent eq_refl) as (n & -> & Hnr). cbn [mret step_ret host in_host get] in Hrun.
  change (asking cs (PatchBuilder.new _ values, (h1, w1)))
    with ((run_all (host_env h) cs (builder_of h values n parent), (h1, w1)), Ok ()) in Hrun.
  set (b := run_all (host_env h) cs (builder_of h values n parent)) in *.
  destruct (Hopts n parent) as (Ew & El & Eg & Et). fold b in Ew, El, Eg, Et. cbn [fst snd] in Hrun.
  set (callback := _onPatchCommitted computeStateHash audit (_writerId h)) in *.
  change (_onPatchCommitted computeStateHash audit (_writerId h1)) with callback in Hrun.
  change (_hasPatchJournal h1) with (_hasPatchJournal h) in Hrun.
  set (st := commit_state (_hasPatchJournal h) (Some callback) b) in *.
  destruct (commit_run (M := M) (X := Host * W) (_hasPatchJournal h) (Some callback) b (h1, w1)) as [[Hcr _]|Hcr].
  { rewrite Hcr in Hrun. injection Hrun as <- <-. cbn [fst snd]. split; [done|]. left. by eexists. }
  fold st in Hcr.
  destruct (commitPatch st (h1, w1)) as [x2 r2] eqn:Ep. rewrite Hcr in Hrun. injection Hrun as <- <-.
  destruct Hg1 as (Hgc & Hgp & Hgg) eqn:Eg1. clear Eg1.
  destruct (Hgg ref l base Hc) as (l1 & Hc1 & Hd1). specialize (Hd1 Hd).
  destruct (commitPatch_spec (X := Host * W) (λ x, view x.2) st ref (l1 ++ l) base n _ _ _ Ep) as [Hg2 Hres].
  { unfold writerRefOf. simpl. by rewrite Et, Eg, Ew. }
  { by apply callback_tidy. }
  { done. }
  { done. }
  { done. }
  split; [by etrans; [|exact Hg2]|].
  destruct (commitPatch_frame (λ x : Host * W, view x.2) (λ x, x.1 = h1)) with (4 := Ep)
    (1 := readRef_keeps h1) (2 := showNode_keeps h1) (3 := appendPatch_keeps h1) (5 := @eq_refl Host h1)
    as [(e & -> & Hx2)|(res & [h3 w3] & -> & Hh3 & Hsha & Hx2)].
  - left. exists e. by rewrite Hx2.
  - right. cbn [fst] in Hh3. subst h3. exists res, n, parent, w3. fold b. fold callback.
    specialize (Hres res eq_refl). rewrite Hx2 in Hres |- *. split_and!; try done. apply Hnr.
Qed.
Lemma hex_nonempty s : EventId.hex_oid s = true → str_nonempty s = true.
Proof. by destruct s. Qed.

Lemma live_frontier s : live_state s → VersionVector.clone (WarpState.observedFrontier s) = WarpState.observedFrontier s.
Proof. intros [_ Hf]. unfold VersionVector.clone. destruct (WarpState.observedFrontier s). simpl in *. by subst. Qed.

(** What the calls of a patch do to a host that has its state. *)
Lemma host_step h a s values cs n parent l res w3 :
  host_ok h a s → EventId.hex_oid (sha (published res)) = true → (1 <= l < max_exact)%Z →
  (_maxObservedLamport h < l)%Z →
  let b := run_all (host_env h) cs (builder_of h values n parent) in
  (VersionVector.at_ (_vv b) (_writerId h) < max_exact)%Z → patch_at (JInt l) b = Ok (result_patch res) →
  ∃ s', let h' := set_progress (_onPatchCommitted computeStateHash audit (_writerId h) res
      (set_progress h true, w3)).1.1 false in
    host_ok h' a s' ∧ shows_asked (_ops b) s s'.
Proof.
  intros Hok Hsha Hl Hlt b Hmax Hpatch. pose proof Hok as [[Hw Hproto] Hidle (Ha & Hdirty & Hs) Hbd Hnm Hvec Hbound Htime Hpast].
  set (o := Options (_graphName h) (_writerId h) (JInt n) (vector h) parent None
    (Some (_onDeleteWithData h)) (_hasAssetStorage h)) in *.
  pose proof (live_frontier s (bd_live _ _ _ Hbd)) as Hfr. pose proof (bd_live _ _ _ Hbd) as [Hwf Hnf].
  destruct (built_meaning (host_env h) o values cs s l (sha (published res)))
    as (Hb & p & s' & Hp & Happ & Hpb & Hasked & (vv & Es') & Hbd' & Hvv); try done; try lia.
  { split; simpl; rewrite Hvec, Hfr; done. }
  { unfold snapshot_of, host_env. simpl. by rewrite Ha, <- Hs. }
  { simpl. by rewrite Hvec, Hfr. }
  { intros k r Hr. specialize (Hpast k r Hr). lia. }
  fold b in Hb, Hp, Hpb, Hasked. change (PatchBuilder.new o values) with (builder_of h values n parent) in *. fold b in Hb, Hp, Hpb, Hasked, Es', Hvv.
  rewrite Hpatch in Hp. injection Hp as <-.
  assert (Forall (λ o, op_ok o ∧ canonical o = true) (_ops b)) as Hops.
  { eapply Forall_impl; [apply (ok_ops _ _ b Hb)|]. by intros op (? & ? & _). }
  destruct (applied_with_diff o l _ _ b s s' Hpb ltac:(lia) Hw Hsha Hops Hnm Happ) as [d Hdiff].
  destruct (applied_with_receipt o l _ _ b s s' Hpb (bd_live _ _ _ Hbd) (hex_nonempty _ Hsha) Happ) as [rc Hrc].
  exists s'.
  destruct (committed_spec view computeStateHash audit Hservices (set_progress h true) a s s'
    (result_patch res) (published res) w3 d rc) as [_ Hcur]; try done.
  { by apply hex_nonempty. }
  { change (vector (set_progress h true)) with (vector h). by rewrite Hvec, Hfr. }
  { change (vector (set_progress h true)) with (vector h). by rewrite Hvec. }
  { change (vector (set_progress h true)) with (vector h). by rewrite Hvec, Hfr. }
  destruct res as [p pub]. cbn [result_patch published] in *.
  destruct (_onPatchCommitted _ _ _ _ _) as [[h2 w2] r2]. cbn [fst snd] in *.
  destruct Hcur as (Eg & Ew & Eca & Ed & Est & Evec & Emax & _).
  destruct Hpb as (_ & _ & Epl & _). rewrite Epl in Emax. cbn [_maxObservedLamport _writerId _graphName set_progress] in *.
  split; [|done]. constructor; cbn [_writerId _patchInProgress _cachedState _stateDirty _maxObservedLamport set_progress].
  - by rewrite Ew.
  - done.
  - done.
  - by rewrite Ew.
  - rewrite Es'. by apply play_named.
  - done.
  - rewrite Ew. change (writerId o) with (_writerId h) in Hvv. rewrite Hvv. lia.
  - rewrite Emax. lia.
  - intros k r. rewrite Emax, Es'. cbn [WarpState.prop WarpState.with_frontier]. intros Hr.
    apply play_past in Hr as [->|Hr]; [lia| |].
    + specialize (Hpast k r Hr). lia.
    + eapply Forall_impl; [exact Hops|]. by intros op [].
Qed.
End patches.

(** ** Properties *)

(** C3. A host that has its state keeps it through its patches, whatever other
    processes write meanwhile. A patch that throws leaves the host as it was,
    so that the next one can be made. A patch that commits has a Lamport time
    above all the host has observed, its commit is in the chain of the writer,
    and the state of the host then shows what its calls asked for, on the
    state before; its vector again counts every dot of the writer, so that the
    next patch uses new ones. *)
Theorem patch_keeps_the_host {M W : Type} `{CommitMessageCodec M} `{!Persistence M W} `{!PatchJournal W}
    `{NumberText} (view : W → Repo M) `{!RepositoryLaws view} (computeStateHash : State → step W string)
    (audit : option (TickReceipt.TickReceipt → step W unit)) (h : Host) (a : N) (s : State) (w : W)
    (values : heap) (cs : list call) (x' : Host * W) (r : result PatchCommitResult)
    (ref : string) (l : list entry) (base : option string) :
  services_ok view computeStateHash audit → host_ok h a s →
  RefLayout.buildWriterRef (_graphName h) (_writerId h) = Ok ref →
  chain (commits (view w)) (refs (view w) !! ref) l base → descending l →
  patchWithEvidence computeStateHash audit values (asking cs) (h, w) = (x', r) →
  grows (view w) (view x'.2) ∧
  match r with
  | Throw _ => x'.1 = h
  | Ok res => ∃ n parent m above below,
      let b := run_all (host_env h) cs (builder_of h values n parent) in
      let p := result_patch res in
      patch_at (JInt (Patch.lamport p)) b = Ok p ∧ (_maxObservedLamport h < Patch.lamport p)%Z ∧
      patches (view x'.2) !! StorageHandle.toString (msg_handle m) = Some p ∧
      chain (commits (view x'.2)) (refs (view x'.2) !! ref) (above ++ (sha (published res), m) :: below) base ∧
      ((VersionVector.at_ (_vv b) (_writerId h) < max_exact)%Z →
        ∃ s', host_ok x'.1 a s' ∧ shows_asked (_ops b) s s')
  end.
Proof.
  intros Hsv Hok Href Hc Hd Hrun.
  assert (∀ n parent, let b := run_all (host_env h) cs (builder_of h values n parent) in
    writerId (_options b) = _writerId h ∧ lamport (_options b) = JInt n ∧
    graphName (_options b) = _graphName h ∧ targetRefPath (_options b) = None) as Hopts.
  { intros n parent. by apply builder_of_options with a s. }
  destruct (patch_run view computeStateHash audit Hsv h w values cs x' r ref l base) as [Hg Hcase];
    [by destruct Hok..|]. split; [done|].
  destruct Hcase as [(e & -> & Hx)|(res & n & parent & w3 & -> & Hn & Hsha & -> & below & above & handle & Hp & Hst & _ & Hch & _)];
    [done|].
  destruct (assemble_fields _ _ _ _ _ _ _ _ Hp) as [Hlam _].
  set (m := Message _ _ _ _ _) in Hch. destruct (tick_range view _ _ _ _ (sha (published res), m) Hch) as [Ht Hr];
    [set_solver|].
  assert (n <= lamport_on n below)%Z as Hle by (destruct below; simpl; lia).
  assert (tick (sha (published res), m) = lamport_on n below) as Etick by done.
  exists n, parent, m, above, below. intros b q. change (result_patch res) with q in Hlam.
  rewrite Hlam. split_and!; [exact Hp|lia|exact Hst|exact Hch|].
  intros Hmax. apply (host_step view computeStateHash audit Hsv h a s values cs n parent (lamport_on n below) res w3);
    done || lia.
Qed.

(** *** Samples: a host with its state, in a repository in memory *)

Definition no_hash : State → step Memory.world string := λ _ w, (w, Ok "hash").

Definition sample_vector : VersionVector.VersionVector := vv_of [("w", 3%Z)].

Definition ready_host : Host :=
  mkHost "g" "w" 2 {[0%N := sample_vector]} {[1%N := built_state]} 0 (Some 1%N) false 1 false 0 cascade
    true false None None None None 0.

Lemma no_services : services_ok (λ x : Memory.world, x) no_hash None.
Proof. split; [|done]. intros s w. by exists w, "hash". Qed.

Lemma ready_host_ok : host_ok ready_host 1 built_state.
Proof.
  split; try done.
  - apply built_state_buildable.
  - split; [|apply built_edges_named]. by intros n d [[-> _]|[-> _]]%sample_dots_nodes.
  - intros k r Hr. destruct (single_entry _ _ _ _ _ Hr eq_refl) as [-> ->]. done.
Qed.

Definition sample_patch : (Host * Memory.world) * result PatchCommitResult :=
  patchWithEvidence no_hash None ∅ (asking [CAddNode "c"; CRemoveNode "a"]) (ready_host, Memory.empty).

Lemma patch_keeps_the_host_witness :
  is_ok sample_patch.2 = true ∧ refs sample_patch.1.2 !! sample_ref = Some "abcd0" ∧
  ∃ s', host_ok sample_patch.1.1 1 s' ∧ ORSet.contains (WarpState.nodeAlive s') "c" = true.
Proof.
  split; [vm_compute; reflexivity|]. split; [vm_compute; reflexivity|].
  destruct sample_patch as [x' r] eqn:Erun. pose proof Erun as Erun'. unfold sample_patch in Erun'.
  destruct (patch_keeps_the_host (M := Memory.text) (λ x : Memory.world, x) no_hash None ready_host 1
    built_state Memory.empty ∅ [CAddNode "c"; CRemoveNode "a"] x' r sample_ref [] None) as [_ Hr].
  - exact no_services.
  - exact ready_host_ok.
  - reflexivity.
  - apply chain_root.
  - constructor.
  - exact Erun'.
  - destruct r as [res|e].
    + destruct Hr as (n & parent & m & above & below & _ & _ & _ & _ & Hs).
      destruct Hs as (s' & Hok & Hn & _); [vm_compute; reflexivity|]. exists s'. split; [exact Hok|].
      apply Hn. left. by apply (bool_decide_unpack _); vm_compute.
    + exfalso. assert (is_ok sample_patch.2 = true) as Hf by (vm_compute; reflexivity).
      rewrite Erun in Hf. discriminate Hf.
Defined.

(** *** Hosts and writers that use a dot again *)

(** A host that has no state yet: nothing was materialized. *)
Definition new_host : Host :=
  mkHost "g" "w" 1 {[0%N := VersionVector.empty]} ∅ 0 None false 0 false 0 warn true false None None None None 0.

(** The state that the chain of the writer stands for. *)
Definition replayed (w : Memory.world) : State :=
  match (PatchDiscovery.loadWriterPatches 10 true "g" "w" None w).2 with
  | Ok found => (for_each (λ e, JoinReducer.applyFast (Patch.like (entry_patch e)) (entry_sha e)) found JoinReducer.createEmptyState).1
  | Throw _ => JoinReducer.createEmptyState
  end.

(** A host opened on it, with the state of the chain. *)
Definition opened_host (w : Memory.world) : Host :=
  let s := replayed w in
  mkHost "g" "w" 2 {[0%N := VersionVector.clone (WarpState.observedFrontier s)]} {[1%N := s]} 0 (Some 1%N)
    false 10 false 0 warn true false None None None None 0.

(** The nodes of [l] that are alive. *)
Definition alive_of (l : list string) (s : State) : list string :=
  filter (λ n, ORSet.contains (WarpState.nodeAlive s) n = true) l.

(** A host that was not materialized counts one dot per patch, however many the
    patch used: its second patch uses dots of its first again. Two nodes then
    live on one dot, and who removes one of them removes the other too. *)
Theorem unmaterialized_host_reuses_dots :
  let x := (patchMany no_hash None [(∅, asking [CAddNode "a"; CAddNode "b"]); (∅, asking [CAddNode "c"])]
    (new_host, Memory.empty)).1 in
  let y := (patch no_hash None ∅ (asking [CRemoveNode "b"]) (opened_host x.2, x.2)).1 in
  alive_of ["a"; "b"; "c"] (replayed x.2) = ["a"; "b"; "c"] ∧
  ORSet.getDots (WarpState.nodeAlive (replayed x.2)) "b" = ORSet.getDots (WarpState.nodeAlive (replayed x.2)) "c" ∧
  alive_of ["a"; "b"; "c"] (replayed y.2) = ["a"].
Proof. vm_compute. split_and!; reflexivity. Qed.

(** *** Writers *)

Definition in_session (m : step PatchSession.PatchSession unit)
    : step (PatchSession.PatchSession * (Writer.Writer * (Host * Memory.world))) unit := λ '(s, x),
  let '(s', r) := m s in ((s', x), r).

(** A writer for [w], and patches through it that each add one node. *)
Definition writer_adds (nodes : list string) (h : Host) (w : Memory.world) : (Host * Memory.world) * result unit :=
  (wr ← writer None (λ _ w, (w, Ok None)) (λ _ _ w, (w, Ok ())) (Some "w");
   for_each (λ n, _ ← writer_patch no_hash None wr ∅ (in_session (PatchSession.addNode n)); mret ()) nodes) (h, w).

