(* ===== verification/Sync.v ===== *)
(** Synchronization of two replicas: what each side misses
    ([services/sync/syncDelta.ts]), the ranges of a chain that are sent
    ([services/sync/syncPatchLoader.ts] and [scanPatchRange] of
    [infrastructure/adapters/CborPatchJournalAdapter.ts]), pages
    ([services/sync/SyncResponsePaging.ts]), request and response
    ([services/sync/syncRequestResponse.ts]), the trust gate
    ([services/sync/SyncTrustGate.ts]) and the controller
    ([services/controllers/SyncController.ts]). *)
From S2P Require Export HostPatches Frontier.
#[local] Open Scope string_scope.
#[local] Open Scope list_scope.

Definition SyncError (code : string) : error := Err "SyncError" code.
Definition SchemaUnsupportedError : error := Err "SchemaUnsupportedError" "E_SCHEMA_UNSUPPORTED".

(** ** What each side needs *)

Module SyncDelta.

(* @src domain/services/sync/syncDelta.ts WriterRange 16-19 *)
Record WriterRange := Range { from : option string; to : string }.

(* @src domain/services/sync/syncDelta.ts SyncDelta 22-31 *)
Record SyncDelta := mk {
  needFromRemote : gmap string WriterRange;
  needFromLocal : gmap string WriterRange;
  newWritersForLocal : list string;
  newWritersForRemote : list string }.

(** One of the two loops: what the side with [mine] needs of [theirs]. *)
Definition needs (mine theirs : gmap string string) : gmap string WriterRange :=
  map_imap (λ writerId theirSha,
    match mine !! writerId with
    | None => Some (Range None theirSha)
    | Some mySha => if decide (mySha = theirSha) then None else Some (Range (Some mySha) theirSha)
    end) theirs.

Definition new_writers (mine theirs : gmap string string) : list string :=
  filter (λ w, mine !! w = None) (map_to_list theirs).*1.

(* @src domain/services/sync/syncDelta.ts computeSyncDelta *)
Definition computeSyncDelta (localFrontier remoteFrontier : gmap string string) : SyncDelta :=
  mk (needs localFrontier remoteFrontier) (needs remoteFrontier localFrontier)
    (new_writers localFrontier remoteFrontier) (new_writers remoteFrontier localFrontier).

(* @src domain/services/sync/syncDelta.ts syncNeeded *)
Definition syncNeeded (localFrontier remoteFrontier : gmap string string) : bool :=
  negb (size localFrontier =? size remoteFrontier)%nat ||
  existsb (λ '(writerId, localSha), negb (bool_decide (remoteFrontier !! writerId = Some localSha)))
    (map_to_list localFrontier).
End SyncDelta.

(** ** Patches on the way *)

(** A patch as it arrives: an instance, or an object with the fields of one. *)
(* @src domain/services/sync/syncPatchLoader.ts DecodedPatch 23-31 *)
Record DecodedPatch := Decoded {
  d_context : option VersionVector.source;
  d_args : Patch.patch_args }.

Definition decoded_of (p : Patch.Patch) : DecodedPatch := Decoded (Some (Patch.context p)) (Patch.args_of p).

Definition with_context (a : Patch.patch_args) (c : VersionVector.source) : Patch.patch_args :=
  Patch.Args (Patch.a_schema a) (Patch.a_writer a) (Patch.a_lamport a) c (Patch.a_ops a)
    (Patch.a_reads a) (Patch.a_writes a).

(* @src domain/services/sync/syncPatchLoader.ts normalizePatch *)
Definition normalizePatch (patch : DecodedPatch) : result Patch.Patch :=
  context ← match d_context patch with
    | Some (VersionVector.SVector vv) => Ok vv
    | None => Ok VersionVector.empty
    | Some source => VersionVector.from source
    end;
  Patch.new (with_context (d_args patch) (VersionVector.SVector context)).

Module MessageSchemaDetector.

(* @src domain/services/codec/MessageSchemaDetector.ts CLASSIC_PATCH_SCHEMA_VERSION *)
Definition CLASSIC_PATCH_SCHEMA_VERSION : Z := 2.
(* @src domain/services/codec/MessageSchemaDetector.ts EDGE_PROPERTY_PATCH_SCHEMA_VERSION *)
Definition EDGE_PROPERTY_PATCH_SCHEMA_VERSION : Z := 3.

(** Only instances are looked at. *)
(* @src domain/services/codec/MessageSchemaDetector.ts isEdgePropOp *)
Definition isEdgePropOp (op : raw_op) : bool :=
  match op with
  | RObject (Instance (OEdgePropSet _)) => true
  | RObject (Instance (OPropSet p)) => bool_decide (str_head (PropSet.node p) = Some EDGE_PROP_PREFIX)
  | _ => false
  end.

(* @src domain/services/codec/MessageSchemaDetector.ts detectSchemaVersion *)
Definition detectSchemaVersion (ops : option (list raw_op)) : Z :=
  match ops with
  | Some ops => if existsb isEdgePropOp ops then EDGE_PROPERTY_PATCH_SCHEMA_VERSION else CLASSIC_PATCH_SCHEMA_VERSION
  | None => CLASSIC_PATCH_SCHEMA_VERSION
  end.

(* @src domain/services/codec/MessageSchemaDetector.ts assertOpsCompatible *)
Definition assertOpsCompatible (ops : option (list raw_op)) (maxSchema : Z) : result unit :=
  if (EDGE_PROPERTY_PATCH_SCHEMA_VERSION <=? maxSchema)%Z then Ok ()
  else match ops with
    | Some ops => require (negb (existsb isEdgePropOp ops)) SchemaUnsupportedError
    | None => Ok ()
    end.
End MessageSchemaDetector.

(** ** Requests and responses *)

(* @src domain/services/sync/SyncResponsePaging.ts SyncRequestPage 6-9 *)
Record SyncRequestPage := RequestPage { rp_maxPatches : jsnum; rp_cursor : option string }.

(* @src domain/services/sync/syncRequestResponse.ts SyncRequest 50-61 *)
Record SyncRequest := Request { req_frontier : gmap string string; req_page : option SyncRequestPage }.

(* @src domain/services/sync/syncRequestResponse.ts SyncPatchEntry 64-68 *)
Record SyncPatchEntry := PatchOf { se_writerId : string; se_sha : string; se_patch : DecodedPatch }.

(* @src domain/services/sync/syncRequestResponse.ts SkippedWriterEntry 71-76 *)
Record SkippedWriterEntry := Skipped {
  sk_writerId : string; sk_reason : string; sk_localSha : string; sk_remoteSha : option string }.

(* @src domain/services/sync/SyncResponsePaging.ts SyncResponsePage 12-17 *)
Record SyncResponsePage := ResponsePage {
  maxPatches : option Z; cursor : option string; hasMore : bool; returnedPatches : Z }.

(** The metrics of a response are left out. *)
(* @src domain/services/sync/syncRequestResponse.ts SyncResponse 84-102 *)
Record SyncResponse := Response {
  resp_frontier : gmap string string;
  resp_patches : list SyncPatchEntry;
  resp_skipped : list SkippedWriterEntry;
  resp_page : option SyncResponsePage }.

(** ** Pages *)

Module SyncResponsePaging.

(* @src domain/services/sync/SyncResponsePaging.ts NormalizedSyncPageRequest 31-34 *)
Record NormalizedSyncPageRequest := Page { page_max : option Z; cursorOffset : Z }.

Definition paging_error : error := SyncError "E_SYNC_PAGING_INVALID".

(* @src domain/services/sync/SyncResponsePaging.ts requirePositiveMaxPatches *)
Definition requirePositiveMaxPatches (value : jsnum) : result Z :=
  match value with
  | JInt z => if (0 <? z)%Z then Ok z else Throw paging_error
  | _ => Throw paging_error
  end.

(** From 10^21 on the text of a number has an exponent, which [parseInt] does not
    read. *)
(* @src domain/services/sync/SyncResponsePaging.ts cursorOffsetFor *)
Definition cursorOffsetFor (cursor : option string) : result Z :=
  match cursor with
  | None => Ok 0%Z
  | Some cursor =>
      match parse_int cursor with
      | JInt z => if ((0 <=? z)%Z && (z <? 10 ^ 21)%Z && String.eqb (num_to_string z) cursor)%bool then Ok z else Throw paging_error
      | _ => Throw paging_error
      end
  end.

(* @src domain/services/sync/SyncResponsePaging.ts normalizeSyncPageRequest *)
Definition normalizeSyncPageRequest (page : option SyncRequestPage) : result NormalizedSyncPageRequest :=
  match page with
  | None => Ok (Page None 0)
  | Some page =>
      m ← requirePositiveMaxPatches (rp_maxPatches page);
      offset ← cursorOffsetFor (rp_cursor page);
      Ok (Page (Some m) offset)
  end.

(** What a response has gathered so far: the variables of the handler. *)
Record Progress := Gathered {
  g_patches : list SyncPatchEntry;
  g_skipped : list SkippedWriterEntry;
  seenPatches : Z;
  g_hasMore : bool;
  g_cursor : option string }.

Definition start : Progress := Gathered [] [] 0 false None.

(** The call and what the handler does with its result. *)
(* @src domain/services/sync/SyncResponsePaging.ts appendPatchForPage *)
Definition appendPatchForPage (page : NormalizedSyncPageRequest) (entry : SyncPatchEntry) (g : Progress) : Progress :=
  if (seenPatches g <? cursorOffset page)%Z then
    Gathered (g_patches g) (g_skipped g) (seenPatches g + 1) false None
  else if match page_max page with Some m => (m <=? Z.of_nat (length (g_patches g)))%Z | None => false end then
    Gathered (g_patches g) (g_skipped g) (seenPatches g) true (Some (num_to_string (seenPatches g)))
  else Gathered (g_patches g ++ [entry]) (g_skipped g) (seenPatches g + 1) false None.

Definition skip_writer (entry : SkippedWriterEntry) (g : Progress) : Progress :=
  Gathered (g_patches g) (g_skipped g ++ [entry]) (seenPatches g) (g_hasMore g) (g_cursor g).
End SyncResponsePaging.

(** ** Ranges of a chain *)

Definition E_SYNC_DIVERGENCE : error := SyncError "E_SYNC_DIVERGENCE".

Section ranges.
Context {M X : Type} `{CommitMessageCodec M} `{!Persistence M X} `{!PatchJournal X}.

(** The codec of messages is optional here. *)
(* @src domain/services/sync/syncPatchLoader.ts loadPatchFromCommit *)
Definition loadPatchFromCommit (hasPatchJournal hasCodec : bool) (sha : string) : step X Patch.Patch :=
  _ ← lift (require hasPatchJournal (PersistenceError "E_MISSING_OBJECT"));
  _ ← lift (require hasCodec (Err "MessageCodecError" "E_MESSAGE_CODEC_REQUIRED"));
  message ← (showNode sha : step X M);
  decoded ← lift (decodePatch message);
  patch ← readPatch decoded;
  lift (normalizePatch (decoded_of patch)).

(** The patches so far, oldest first, and where the walk stopped. *)
(* @src domain/services/sync/syncPatchLoader.ts loadPatchRange 159-177 *)
Fixpoint range_walk (fuel : nat) (hasPatchJournal hasCodec : bool) (fromSha cur : option string)
    (patches : list (Patch.Patch * string)) : step X (list (Patch.Patch * string) * option string) :=
  match cur with
  | None => mret (patches, None)
  | Some sha =>
      if decide (Some sha = fromSha) then mret (patches, cur)
      else match fuel with
        | O => lift (Throw OutOfFuel)
        | S fuel =>
            commitInfo ← (getNodeInfo sha : step X (NodeInfo M));
            patch ← loadPatchFromCommit hasPatchJournal hasCodec sha;
            range_walk fuel hasPatchJournal hasCodec fromSha (head (parents commitInfo)) ((patch, sha) :: patches)
        end
  end.

(* @src domain/services/sync/syncPatchLoader.ts loadPatchRange *)
Definition loadPatchRange (fuel : nat) (hasPatchJournal hasCodec : bool) (fromSha : option string)
    (toSha : string) : step X (list (Patch.Patch * string)) :=
  '(patches, cur) ← range_walk fuel hasPatchJournal hasCodec fromSha (Some toSha) [];
  match fromSha, cur with
  | Some from, None => if str_nonempty from then lift (Throw E_SYNC_DIVERGENCE) else mret patches
  | _, _ => mret patches
  end.

(** The same for the journal that the program uses: it reads the commits first. *)
(* @src infrastructure/adapters/CborPatchJournalAdapter.ts scanPatchRange 142-151 *)
Fixpoint scan_walk (fuel : nat) (fromSha current : option string) (stack : list (string * PatchCommitMessage))
    : step X (list (string * PatchCommitMessage) * option string) :=
  match current with
  | None => mret (stack, None)
  | Some sha =>
      if decide (Some sha = fromSha) then mret (stack, current)
      else match fuel with
        | O => lift (Throw OutOfFuel)
        | S fuel =>
            node ← (getNodeInfo sha : step X (NodeInfo M));
            if bool_decide (detectKind (message node) ≠ Some KPatch) then mret (stack, current)
            else
              m ← lift (decodePatch (message node));
              scan_walk fuel fromSha (head (parents node)) ((sha, m) :: stack)
        end
  end.

(** What the stream will yield, oldest first; the patches are read when they are
    asked for. *)
(* @src infrastructure/adapters/CborPatchJournalAdapter.ts scanPatchRange *)
Definition scanPatchRange (fuel : nat) (fromSha : option string) (toSha : string)
    : step X (list (string * PatchCommitMessage)) :=
  '(stack, current) ← scan_walk fuel fromSha (Some toSha) [];
  if bool_decide (fromSha ≠ None) && negb (bool_decide (current = fromSha)) then lift (Throw E_SYNC_DIVERGENCE)
  else mret stack.

(* @src domain/artifacts/PatchEntry.ts constructor *)
Definition new_entry (patch : Patch.Patch) (sha : string) : result PatchEntry :=
  _ ← require (str_nonempty sha) (WarpError "E_INVALID_ENTRY");
  Ok (Entry patch sha).
End ranges.

(** ** The two sides *)

Module SyncProtocol.
Import SyncDelta SyncResponsePaging.

(** The assignment of a text to [obj["__proto__"]] is ignored. *)
(* @src domain/services/sync/syncRequestResponse.ts frontierToObject *)
Definition frontierToObject (map : gmap string string) : gmap string string := delete "__proto__" map.
(* @src domain/services/sync/syncRequestResponse.ts objectToFrontier *)
Definition objectToFrontier (obj : gmap string string) : gmap string string := obj.

(* @src domain/services/sync/syncRequestResponse.ts createSyncRequest *)
Definition createSyncRequest (frontier : gmap string string) (page : option SyncRequestPage) : result SyncRequest :=
  _ ← match page with Some page => _ ← normalizeSyncPageRequest (Some page); Ok () | None => Ok () end;
  Ok (Request (frontierToObject frontier) page).

(* @src domain/services/sync/syncRequestResponse.ts createEmptySyncResponse *)
Definition createEmptySyncResponse (frontier : gmap string string) : SyncResponse :=
  Response (frontierToObject frontier) [] [] None.

Section server.
Context {M X : Type} `{CommitMessageCodec M} `{!Persistence M X} `{!PatchJournal X}.

(** The order of the platform's locale; the check of ancestry that the
    persistence may have; whether there is a journal, and whether it can scan. *)
Context (localeCompare : string → string → Z) (isAncestor : option (string → string → step X bool))
  (hasPatchJournal canScan : bool) (fuel : nat).

Definition in_store {A} (m : step X A) : step (Progress * X) A := λ '(g, x),
  let '(x', r) := m x in ((g, x'), r).
Definition gather (f : Progress → Progress) : step (Progress * X) unit := λ '(g, x), ((f g, x), Ok ()).
Definition more : step (Progress * X) bool := λ '(g, x), ((g, x), Ok (g_hasMore g)).

(** The stream of a range, until the page is full. *)
(* @src domain/services/sync/syncRequestResponse.ts processSyncRequest 259-272 *)
Fixpoint send_stream (page : NormalizedSyncPageRequest) (writerId : string)
    (stream : list (string * PatchCommitMessage)) : step (Progress * X) unit :=
  match stream with
  | [] => mret ()
  | (sha, m) :: stream =>
      patch ← in_store (readPatch m);
      entry ← lift (new_entry patch sha);
      _ ← gather (appendPatchForPage page (PatchOf writerId (entry_sha entry) (decoded_of (entry_patch entry))));
      stop ← more;
      if (stop : bool) then mret () else send_stream page writerId stream
  end.

(** The same for patches that were loaded already. *)
(* @src domain/services/sync/syncRequestResponse.ts processSyncRequest 277-290 *)
Fixpoint send_list (page : NormalizedSyncPageRequest) (writerId : string)
    (l : list (Patch.Patch * string)) : step (Progress * X) unit :=
  match l with
  | [] => mret ()
  | (patch, sha) :: l =>
      _ ← gather (appendPatchForPage page (PatchOf writerId sha (decoded_of patch)));
      stop ← more;
      if (stop : bool) then mret () else send_list page writerId l
  end.

(** An error that says so in its message has this class and code here. *)
Definition is_divergence (e : error) : bool :=
  String.eqb (err_class e) "SyncError" && String.eqb (err_code e) "E_SYNC_DIVERGENCE".

(** One writer: nothing, what is asked for, or an entry of the skipped. *)
(* @src domain/services/sync/syncRequestResponse.ts processSyncRequest 231-314 *)
Definition send_range (page : NormalizedSyncPageRequest) (writerId : string) (range : WriterRange)
    : step (Progress * X) unit :=
  try_catch
    (ahead ← match isAncestor, from range with
       | Some isAncestor, Some f =>
           if str_nonempty f then isAnc ← in_store (isAncestor f (to range)); mret (negb isAnc) else mret false
       | _, _ => mret false
       end;
     if (ahead : bool) then gather (skip_writer (Skipped writerId "E_SYNC_DIVERGENCE" (to range) (from range)))
     else if hasPatchJournal && canScan then
       stream ← in_store (scanPatchRange fuel (from range) (to range)); send_stream page writerId stream
     else
       writerPatches ← in_store (loadPatchRange fuel hasPatchJournal false (from range) (to range));
       send_list page writerId writerPatches)
    (λ err, if is_divergence err
       then gather (skip_writer (Skipped writerId "E_SYNC_DIVERGENCE" (to range) (Some (default "" (from range)))))
       else lift (Throw err)).

(* @src domain/services/sync/syncRequestResponse.ts processSyncRequest 227-315 *)
Fixpoint send_ranges (page : NormalizedSyncPageRequest) (ranges : list (string * WriterRange))
    : step (Progress * X) unit :=
  match ranges with
  | [] => mret ()
  | (writerId, range) :: ranges =>
      stop ← more;
      if (stop : bool) then mret ()
      else _ ← send_range page writerId range; send_ranges page ranges
  end.

Definition compare_writers (a b : string * WriterRange) : Z := localeCompare a.1 b.1.

Definition response_of (localFrontier : gmap string string) (page : NormalizedSyncPageRequest) (g : Progress)
    : SyncResponse :=
  Response (frontierToObject localFrontier) (g_patches g) (g_skipped g)
    (Some (ResponsePage (page_max page) (if g_hasMore g then g_cursor g else None) (g_hasMore g)
      (Z.of_nat (length (g_patches g))))).

(* @src domain/services/sync/syncRequestResponse.ts processSyncRequest *)
Definition processSyncRequest (request : SyncRequest) (localFrontier : gmap string string)
    : step X SyncResponse := λ x,
  match normalizeSyncPageRequest (req_page request) with
  | Throw e => (x, Throw e)
  | Ok page =>
      let delta := computeSyncDelta (objectToFrontier (req_frontier request)) localFrontier in
      let writerRanges := js_sort compare_writers (map_to_list (needFromRemote delta)) in
      match send_ranges page writerRanges (start, x) with
      | ((g, x), Ok _) => (x, Ok (response_of localFrontier page g))
      | ((_, x), Throw e) => (x, Throw e)
      end
  end.
End server.

(** *** The client *)

(* @src domain/services/sync/syncRequestResponse.ts ApplySyncResponseResult 110-114 *)
Record ApplySyncResponseResult := Applied { ap_state : State; ap_frontier : gmap string string; ap_count : Z }.

(* @src domain/services/sync/syncRequestResponse.ts applySyncResponse 400-407 *)
Definition group_by_writer (patches : list SyncPatchEntry) : list (string * list SyncPatchEntry) :=
  foldl (λ groups e, ordmap_set (se_writerId e) (default [] (ordmap_get (se_writerId e) groups) ++ [e]) groups) [] patches.

(* @src domain/services/sync/syncRequestResponse.ts applySyncResponse 412-431 *)
Definition apply_entry (applied : Z) (e : SyncPatchEntry) : step State Z :=
  normalizedPatch ← lift (normalizePatch (se_patch e));
  _ ← lift (require (forallb OpValidator.isKnownRaw (Patch.ops normalizedPatch)) SchemaUnsupportedError);
  _ ← lift (MessageSchemaDetector.assertOpsCompatible (Some (Patch.ops normalizedPatch))
    MessageSchemaDetector.EDGE_PROPERTY_PATCH_SCHEMA_VERSION);
  _ ← JoinReducer.applyFast (Patch.like normalizedPatch) (se_sha e);
  mret (applied + 1)%Z.

(** The patches of one writer; the frontier is updated after them. *)
(* @src domain/services/sync/syncRequestResponse.ts applySyncResponse 410-440 *)
Definition apply_writer (acc : gmap string string * Z) (group : string * list SyncPatchEntry)
    : step State (gmap string string * Z) :=
  applied ← for_fold apply_entry group.2 acc.2;
  mret (match last group.2 with
    | Some lastPatch => Frontier.updateFrontier group.1 (se_sha lastPatch) acc.1
    | None => acc.1
    end, applied).

(** A throw leaves both arguments as they were: the loop works on copies. *)
(* @src domain/services/sync/syncRequestResponse.ts applySyncResponse *)
Definition applySyncResponse (response : SyncResponse) (state : State) (frontier : gmap string string)
    : result ApplySyncResponseResult :=
  let groups := group_by_writer (resp_patches response) in
  let newState := JoinReducer.cloneState (inl state) in
  match for_fold apply_writer groups (Frontier.cloneFrontier frontier, 0%Z) newState with
  | (newState, Ok (newFrontier, applied)) => Ok (Applied newState newFrontier applied)
  | (_, Throw e) => Throw e
  end.
End SyncProtocol.

(** ** The trust gate *)

Module SyncTrustGate.

(* @src domain/services/sync/SyncTrustGate.ts TrustMode 14-14 *)
Inductive TrustMode := enforce | log_only | off.

(* @src domain/services/sync/SyncTrustGate.ts TrustGateResult 16-20 *)
Record TrustGateResult := Verdict { allowed : bool; untrustedWriters : list string; verdict : string }.

Section gate.
Context {W : Type}.

(** The evaluator says which of some writers are trusted. *)
(* @src domain/services/sync/SyncTrustGate.ts SyncTrustGate 42-51 *)
Record SyncTrustGate := mk { _evaluator : option (list string → step W (gset string)); _mode : TrustMode }.

(* @src domain/services/sync/SyncTrustGate.ts PASS *)
Definition PASS : TrustGateResult := Verdict true [] "pass".

(* @src domain/services/sync/SyncTrustGate.ts _decide *)
Definition _decide (mode : TrustMode) (untrusted : list string) : TrustGateResult :=
  match untrusted with
  | [] => PASS
  | _ => match mode with
      | enforce => Verdict false untrusted "rejected"
      | _ => Verdict true untrusted "warn_allowed"
      end
  end.

(* @src domain/services/sync/SyncTrustGate.ts _handleError *)
Definition _handleError (mode : TrustMode) (writerIds : list string) : TrustGateResult :=
  match mode with
  | enforce => Verdict false writerIds "error_rejected"
  | _ => Verdict true [] "error_allowed"
  end.

(** With the early exit of [_checkEarlyExit]. *)
(* @src domain/services/sync/SyncTrustGate.ts evaluate *)
Definition evaluate (gate : SyncTrustGate) (writerIds : list string) : step W TrustGateResult :=
  match _mode gate, _evaluator gate, writerIds with
  | off, _, _ | _, None, _ => mret (Verdict true [] "trust_disabled")
  | _, Some _, [] => mret (Verdict true [] "no_writers")
  | mode, Some evaluateWriters, _ =>
      try_catch
        (trusted ← evaluateWriters writerIds;
         mret (_decide mode (filter (λ id, id ∉ trusted) writerIds)))
        (λ _, mret (_handleError mode writerIds))
  end.

(* @src domain/services/sync/SyncTrustGate.ts extractWritersFromPatches *)
Definition extractWritersFromPatches (patches : list SyncPatchEntry) : list string :=
  js_set (filter (λ w, str_nonempty w = true) (se_writerId <$> patches)).
End gate.
Arguments SyncTrustGate W : clear implicits.
End SyncTrustGate.

(** ** The controller *)

Module SyncController.
Import SyncTrustGate.
Section controller.
Context {M W : Type} `{CommitMessageCodec M} `{!Persistence M W} `{!PatchJournal W}.
Context (computeStateHash : State → step W string).
Context (localeCompare : string → string → Z) (isAncestor : option (string → string → step W bool))
  (canScan : bool) (fuel : nat).

(* @src domain/services/controllers/SyncController.ts getFrontier 179-185 *)
Fixpoint tips (graphName : string) (writerIds : list string) (frontier : gmap string string)
    : step W (gmap string string) :=
  match writerIds with
  | [] => mret frontier
  | writerId :: writerIds =>
      writerRef ← lift (RefLayout.buildWriterRef graphName writerId);
      tipSha ← readRef writerRef;
      tips graphName writerIds (match tipSha with
        | Some tip => if str_nonempty tip then Frontier.updateFrontier writerId tip frontier else frontier
        | None => frontier
        end)
  end.

(** The frontier of the refs: what was received by [applySyncResponse] is not in it. *)
(* @src domain/services/controllers/SyncController.ts getFrontier *)
Definition getFrontier : step (Host * W) (gmap string string) :=
  h ← PatchController.host;
  writerIds ← PatchController.in_ports (PatchDiscovery.discoverWriters (_graphName h));
  PatchController.in_ports (tips (_graphName h) writerIds Frontier.createFrontier).

(* @src domain/services/controllers/SyncController.ts hasFrontierChanged *)
Definition hasFrontierChanged : step (Host * W) bool :=
  h ← PatchController.host;
  match _lastFrontier h with
  | None => mret true
  | Some last => current ← getFrontier; mret (SyncDelta.syncNeeded current last)
  end.

(* @src domain/services/controllers/SyncController.ts createSyncRequest *)
Definition createSyncRequest : step (Host * W) SyncRequest :=
  frontier ← getFrontier;
  lift (SyncProtocol.createSyncRequest frontier None).

(* @src domain/services/controllers/SyncController.ts processSyncRequest *)
Definition processSyncRequest (request : SyncRequest) : step (Host * W) SyncResponse :=
  localFrontier ← getFrontier;
  h ← PatchController.host;
  PatchController.in_ports (SyncProtocol.processSyncRequest localeCompare isAncestor (_hasPatchJournal h)
    canScan fuel request localFrontier).

(* @src domain/services/controllers/SyncController.ts _evaluateWriters *)
Definition _evaluateWriters (patches : list SyncPatchEntry) (trustGate : option (SyncTrustGate W))
    : step W (list string) :=
  let writersApplied := extractWritersFromPatches patches in
  match trustGate, writersApplied with
  | Some gate, _ :: _ =>
      verdict ← evaluate gate writersApplied;
      _ ← lift (require (allowed verdict) (SyncError "E_SYNC_UNTRUSTED_WRITER"));
      mret writersApplied
  | _, _ => mret writersApplied
  end.

(** The state becomes a new object. How many patches came since the last garbage
    collection is not kept here. *)
(* @src domain/services/controllers/SyncController.ts _applySyncResponseWithGate *)
Definition applySyncResponse (trustGate : option (SyncTrustGate W)) (response : SyncResponse)
    : step (Host * W) (SyncProtocol.ApplySyncResponseResult * list string) :=
  h ← PatchController.host;
  match _cachedState h with
  | None => lift (Throw (PatchController.QueryError "E_NO_STATE"))
  | Some a =>
      writersApplied ← PatchController.in_ports (_evaluateWriters (resp_patches response) trustGate);
      h ← PatchController.host;
      let currentFrontier := default Frontier.createFrontier (_lastFrontier h) in
      result ← lift (SyncProtocol.applySyncResponse response (state_of h a) currentFrontier);
      let a' := _objects h in
      _ ← PatchController.change (λ h, alloc_state h (SyncProtocol.ap_state result));
      _ ← PatchController._setMaterializedState computeStateHash a' (Some (SyncProtocol.ap_frontier result));
      _ ← PatchController.change (λ h, set_frontiers h (_cachedFrontier h) (Some (SyncProtocol.ap_frontier result)));
      mret (result, writersApplied)
  end.

(* @src domain/services/controllers/SyncController.ts syncNeeded *)
Definition syncNeeded (remoteFrontier : gmap string string) : step (Host * W) bool :=
  localFrontier ← getFrontier;
  mret (SyncDelta.syncNeeded localFrontier remoteFrontier).

(** One attempt against a peer, without materializing first, whose response is
    valid, without the events for the caller: a host without a
    state only counts the patches. *)
(* @src domain/services/controllers/SyncController.ts syncWith 358-396 *)
Definition sync_attempt (peer : SyncRequest → step W SyncResponse) (trustGate : option (SyncTrustGate W))
    : step (Host * W) Z :=
  request ← createSyncRequest;
  response ← PatchController.in_ports (peer request);
  h ← PatchController.host;
  match _cachedState h with
  | None =>
      _ ← PatchController.in_ports (_evaluateWriters (resp_patches response) trustGate);
      mret (Z.of_nat (length (resp_patches response)))
  | Some _ => r ← applySyncResponse trustGate response; mret (SyncProtocol.ap_count r.1)
  end.
End controller.
End SyncController.
