(* ===== verification/SyncMeaning.v ===== *)
(** What synchronization promises: a response holds exactly the patches that the
    requester misses, page by page, and applying it gives the state of a replica
    that received both sides' patches. *)
From S2P Require Export Sync HostMeaning.
#[local] Open Scope string_scope.
#[local] Open Scope list_scope.
Import SyncDelta SyncResponsePaging SyncProtocol.

(** ** What is missing of a chain *)

(** The entries of a chain above the commit [from]; none if it is not on the
    chain. A chain is written latest first. *)
Fixpoint above (from : option string) (l : list entry) (base : option string) : option (list entry) :=
  if decide (head_of l base = from) then Some []
  else match l with
    | [] => match from with None => Some [] | Some _ => None end
    | e :: l => cons e <$> above from l base
    end.

Lemma above_app f l1 l2 base : (∀ e, e ∈ l1 → e.1 ≠ f) → head_of l2 base = Some f →
  above (Some f) (l1 ++ l2) base = Some l1.
Proof.
  intros Hne Hh. induction l1 as [|[sha m] l1 IH]; cbn [app above].
  - destruct l2; cbn [app above]; by rewrite decide_True.
  - cbn [head_of]. rewrite decide_False by (intros [= ->]; by apply (Hne (f, m)); [left|]).
    rewrite IH; [done|]. intros e He. apply Hne. by right.
Qed.

Lemma above_Some from l base m : above from l base = Some m → ∃ l2, l = m ++ l2.
Proof.
  revert m. induction l as [|e l IH]; intros m; cbn [above]; case_decide; try (intros [= <-]; by eexists).
  - destruct from; [done|]. intros [= <-]. by eexists.
  - destruct (above from l base) as [m'|]; [|done]. intros [= <-]. destruct (IH m' eq_refl) as [l2 ->].
    by exists l2.
Qed.

(** ** Reading a range *)

Section reading.
Context {M X : Type} `{CommitMessageCodec M} `{!Persistence M X} `{!PatchJournal X}.
Context (view : X → Repo M) `{!RepositoryLaws view}.

(** Reads that answer; other processes may write meanwhile. *)
Record reads_answer : Prop := {
  ra_info x sha info : commits (view x) !! sha = Some info → ∃ x', getNodeInfo sha x = (x', Ok info);
  ra_patch x m p : patches (view x) !! StorageHandle.toString (msg_handle m) = Some p → ∃ x', readPatch m x = (x', Ok p) }.
Context (Hreads : reads_answer).

Lemma read_info x sha info : commits (view x) !! sha = Some info →
  ∃ x', getNodeInfo sha x = (x', Ok info) ∧ grows (view x) (view x').
Proof.
  intros Hl. destruct (ra_info Hreads x sha info Hl) as [x' Hr]. exists x'. split; [done|].
  apply (getNodeInfo_law _ _ _ _ Hr).
Qed.

Lemma read_patch x m p : patches (view x) !! StorageHandle.toString (msg_handle m) = Some p →
  ∃ x', readPatch m x = (x', Ok p) ∧ grows (view x) (view x').
Proof.
  intros Hl. destruct (ra_patch Hreads x m p Hl) as [x' Hr]. exists x'. split; [done|].
  apply (readPatch_law _ _ _ _ Hr).
Qed.

(** The walk stops at [from], at the base, or at the root. *)
Lemma scan_walk_spec fuel from cur l base x stack :
  chain (commits (view x)) cur l base → (length l < fuel)%nat →
  ∃ x' m l2, l = m ++ l2 ∧ grows (view x) (view x') ∧
    scan_walk fuel from cur stack x = (x', Ok (reverse m ++ stack, head_of l2 base)) ∧
    (above from l base = if decide (from ≠ None ∧ head_of l2 base ≠ from) then None else Some m).
Proof.
  revert cur l x stack. induction fuel as [|fuel IH]; intros cur l x stack Hc Hf; [lia|].
  inversion Hc as [|sha info Hl Hne Hk|sha m parent l' base' (info & Hl & Hk & Hd & Hp & Hne) Hrest]; subst.
  - exists x, [], []. split_and!; [done..|]. cbn [above head_of].
    destruct from; [|by rewrite decide_True by done; rewrite decide_False by naive_solver].
    rewrite decide_False by done. by rewrite decide_True.
  - cbn [scan_walk above head_of] in *. destruct (decide (Some sha = from)) as [Heq|Hneq].
    + exists x, [], []. split_and!; [done..|]. by rewrite decide_False by naive_solver.
    + destruct (read_info x sha info Hl) as (x' & Hr & Hg). exists x', [], []. split_and!; try done.
      * unfold mbind, step_bind. rewrite Hr. by rewrite bool_decide_true.
      * simpl. destruct from; [by rewrite decide_True|by rewrite decide_False by naive_solver].
  - cbn [scan_walk above head_of] in *. destruct (decide (Some sha = from)) as [Heq|Hneq].
    + exists x, [], ((sha, m) :: l'). split_and!; [done..|]. by rewrite decide_False by naive_solver.
    + destruct (read_info x sha info Hl) as (x1 & Hr & Hg).
      destruct (IH (head (parents info)) l' x1 ((sha, m) :: stack)) as (x' & m' & l2 & -> & Hg' & Hw & Ha).
      { by apply (chain_mono (commits (view x))); [destruct Hg|]. }
      { simpl in Hf. lia. }
      exists x', ((sha, m) :: m'), l2. split_and!; [done|by etrans| |].
      * unfold mbind, step_bind, lift. rewrite Hr, bool_decide_false by (by intros Hno; apply Hno). rewrite Hd, Hw.
        by rewrite reverse_cons, <- app_assoc.
      * rewrite Ha. by case_decide.
Qed.

Lemma scanPatchRange_spec fuel from to l base x :
  chain (commits (view x)) (Some to) l base → (length l < fuel)%nat →
  ∃ x', grows (view x) (view x') ∧ scanPatchRange fuel from to x =
    (x', match above from l base with Some m => Ok (reverse m) | None => Throw E_SYNC_DIVERGENCE end).
Proof.
  intros Hc Hf. destruct (scan_walk_spec fuel from (Some to) l base x [] Hc Hf) as (x' & m & l2 & -> & Hg & Hw & Ha).
  exists x'. split; [done|]. unfold scanPatchRange, mbind, step_bind. rewrite Hw, Ha, app_nil_r.
  destruct (decide (from ≠ None ∧ head_of l2 base ≠ from)) as [[H1 H2]|Hn].
  - by rewrite bool_decide_true, bool_decide_false.
  - destruct (bool_decide (from ≠ None)) eqn:E1; [|done]. apply bool_decide_eq_true in E1.
    rewrite bool_decide_true; [done|]. destruct (decide (head_of l2 base = from)); [done|]. naive_solver.
Qed.

(** *** Sending ranges *)

(** The entry of a response for a stored patch. *)
Definition sent (w : string) (ep : entry * Patch.Patch) : SyncPatchEntry := PatchOf w ep.1.1 (decoded_of ep.2).

(** A commit with the patch it stores. *)
Definition stored (r : Repo M) (ep : entry * Patch.Patch) : Prop :=
  patches r !! StorageHandle.toString (msg_handle ep.1.2) = Some ep.2 ∧ str_nonempty ep.1.1 = true.

Lemma stored_grows r r' ep : grows r r' → stored r ep → stored r' ep.
Proof. intros Hg [Hp Hne]. split; [by apply (grows_patch _ _ _ _ Hg)|done]. Qed.

(** The handler without the effects: it stops when the page is full. *)
Fixpoint feed (page : NormalizedSyncPageRequest) (l : list SyncPatchEntry) (g : Progress) : Progress :=
  match l with
  | [] => g
  | e :: l =>
      let g := appendPatchForPage page e g in
      if g_hasMore g then g else feed page l g
  end.

Lemma send_stream_spec r0 page w log g x :
  Forall (stored r0) log → grows r0 (view x) →
  ∃ x', grows (view x) (view x') ∧
    send_stream page w log.*1 (g, x) = ((feed page (sent w <$> log) g, x'), Ok ()).
Proof.
  intros Hall. revert g x. induction Hall as [|[[sha m] p] log Hst _ IH]; intros g x Hg0.
  { by exists x. }
  destruct (stored_grows _ _ _ Hg0 Hst) as [Hp Hne]. cbn [fst snd] in Hp, Hne.
  destruct (read_patch x m p Hp) as (x1 & Hr & Hg1).
  csimpl. unfold mbind, step_bind, in_store, gather, more, lift.
  rewrite Hr. unfold new_entry. rewrite Hne. cbn [require mbind result_bind].
  set (g1 := appendPatchForPage page _ g). change (appendPatchForPage page (sent w (sha, m, p)) g) with g1.
  destruct (g_hasMore g1); [by exists x1|].
  destruct (IH g1 x1) as (x' & Hg' & ->); [by etrans|]. exists x'. split; [by etrans|done].
Qed.

(** What a range comes to. *)
Record job := Job { j_writer : string; j_range : WriterRange; j_log : list (entry * Patch.Patch); j_base : option string }.

Definition job_ok (r : Repo M) (j : job) : Prop :=
  chain (commits r) (Some (to (j_range j))) (j_log j).*1 (j_base j) ∧ Forall (stored r) (j_log j).

Lemma job_ok_grows r r' j : grows r r' → job_ok r j → job_ok r' j.
Proof.
  intros Hg [Hc Hs]. split; [by apply (chain_mono (commits r)); [destruct Hg|]|].
  eapply Forall_impl; [exact Hs|]. intros ep. by apply stored_grows.
Qed.

(** The patches above [from], latest first; none if it is not on the chain. *)
Definition log_above (from : option string) (log : list (entry * Patch.Patch)) (base : option string)
    : option (list (entry * Patch.Patch)) :=
  (λ m, take (length m) log) <$> above from log.*1 base.

Lemma log_above_fst from log base : above from log.*1 base = (λ l : list (entry * Patch.Patch), l.*1) <$> log_above from log base.
Proof.
  unfold log_above. destruct (above from log.*1 base) as [m|] eqn:Ea; [|done]. csimpl. f_equal.
  destruct (above_Some _ _ _ _ Ea) as [l2 El]. by rewrite fmap_take, El, take_app_length.
Qed.

(** Oldest first. *)
Definition job_missing (j : job) : option (list SyncPatchEntry) :=
  (λ log, sent (j_writer j) <$> reverse log) <$> log_above (from (j_range j)) (j_log j) (j_base j).

Definition job_skipped (j : job) : SkippedWriterEntry :=
  Skipped (j_writer j) "E_SYNC_DIVERGENCE" (to (j_range j)) (from (j_range j)).

Definition work (page : NormalizedSyncPageRequest) (g : Progress) (j : job) : Progress :=
  if g_hasMore g then g
  else match job_missing j with Some es => feed page es g | None => skip_writer (job_skipped j) g end.

(** The check of ancestry answers for commits that are there, and knows the
    ancestors of a patch; below the base of a chain it may say what it likes. *)
Definition ancestry_ok (isAncestor : option (string → string → step X bool)) : Prop :=
  ∀ isA, isAncestor = Some isA → ∀ a b l base x, chain (commits (view x)) (Some b) l base →
    is_Some (commits (view x) !! a) →
    ∃ x' anc, isA a b x = (x', Ok anc) ∧ grows (view x) (view x') ∧ (is_Some (above (Some a) l base) → anc = true).

Definition known (r : Repo M) (j : job) : Prop :=
  ∀ f, from (j_range j) = Some f → is_Some (commits r !! f).

Context (isAncestor : option (string → string → step X bool)) (Hanc : ancestry_ok isAncestor) (fuel : nat).

Lemma scan_missing page j g x : job_ok (view x) j → (length (j_log j) < fuel)%nat →
  ∃ x' r, grows (view x) (view x') ∧
    (stream ← in_store (scanPatchRange fuel (from (j_range j)) (to (j_range j)));
     send_stream page (j_writer j) stream) (g, x) = r ∧
    match job_missing j with
    | Some es => r = ((feed page es g, x'), Ok ())
    | None => r = ((g, x'), Throw E_SYNC_DIVERGENCE)
    end.
Proof.
  intros Hj Hf. pose proof Hj as [Hc Hst].
  destruct (scanPatchRange_spec fuel (from (j_range j)) _ _ _ x Hc) as (x1 & Hg1 & Hs); [by rewrite length_fmap|].
  unfold mbind at 1, step_bind at 1, in_store at 1. rewrite Hs, log_above_fst. unfold job_missing.
  destruct (log_above (from (j_range j)) (j_log j) (j_base j)) as [log|] eqn:Ea; cbn [fmap option_fmap option_map].
  - destruct (send_stream_spec (view x1) page (j_writer j) (reverse log) g x1) as (x2 & Hg2 & Hr).
    { apply (job_ok_grows _ _ _ Hg1) in Hj as [_ Hst']. unfold log_above in Ea.
      destruct (above _ _ _); [|done]. injection Ea as <-. by apply Forall_reverse, Forall_take. }
    { done. }
    rewrite fmap_reverse in Hr. exists x2. eexists. split; [by etrans|]. split; [exact Hr|done].
  - by exists x1, ((g, x1), Throw E_SYNC_DIVERGENCE).
Qed.

Lemma send_range_spec page j g x : job_ok (view x) j → known (view x) j → (length (j_log j) < fuel)%nat →
  g_hasMore g = false →
  ∃ x', grows (view x) (view x') ∧
    send_range isAncestor true true fuel page (j_writer j) (j_range j) (g, x) = ((work page g j, x'), Ok ()).
Proof.
  intros Hj Hk Hf Hm. unfold work. rewrite Hm. unfold send_range, try_catch.
  assert (∀ x, job_ok (view x) j → ∃ x', grows (view x) (view x') ∧
    match (stream ← in_store (scanPatchRange fuel (from (j_range j)) (to (j_range j)));
      send_stream page (j_writer j) stream) (g, x) with
    | (x', Ok a) => (x', Ok a)
    | (x', Throw e) => (if is_divergence e
        then gather (skip_writer (Skipped (j_writer j) "E_SYNC_DIVERGENCE" (to (j_range j))
          (Some (default "" (from (j_range j)))))) else lift (Throw e)) x'
    end = ((match job_missing j with Some es => feed page es g | None => skip_writer (job_skipped j) g end, x'), Ok ()))
    as Hscan.
  { intros x1 Hj1. destruct (scan_missing page j g x1 Hj1 Hf) as (x2 & r & Hg & -> & Hr). exists x2. split; [done|].
    destruct (job_missing j) as [es|] eqn:Em; rewrite Hr; [done|].
    assert (is_Some (from (j_range j))) as [f Ef].
    { unfold job_missing in Em. destruct (from (j_range j)) as [f|] eqn:Ef; [done|].
      exfalso. revert Em. unfold log_above. assert (is_Some (above None (j_log j).*1 (j_base j))) as [m ->]; [|done].
      clear. induction (j_log j).*1 as [|e l IH]; cbn [above]; case_decide; try by eexists.
      destruct IH as [m ->]. by eexists. }
    unfold job_skipped. by rewrite Ef. }
  destruct isAncestor as [isA|] eqn:EA.
  2:{ apply (Hscan x Hj). }
  destruct (from (j_range j)) as [f|] eqn:Ef.
  2:{ apply (Hscan x Hj). }
  destruct (str_nonempty f) eqn:Ene.
  2:{ apply (Hscan x Hj). }
  destruct Hj as [Hc Hst].
  destruct (Hanc isA eq_refl f _ _ _ x Hc (Hk f Ef)) as (x1 & anc & Hrun & Hg1 & Ha).
  unfold mbind at 1, step_bind at 1, mbind at 1, step_bind at 1, in_store at 1. rewrite Hrun. cbn [mret step_ret].
  destruct anc; cbn [negb].
  - destruct (Hscan x1) as (x' & Hg' & Hr); [by apply (job_ok_grows (view x))|]. exists x'. split; [by etrans|]. exact Hr.
  - exists x1. split; [done|]. unfold job_missing, log_above. rewrite Ef.
    destruct (above (Some f) (j_log j).*1 (j_base j)); [by discriminate Ha|]. cbn [fmap option_fmap option_map].
    unfold gather, job_skipped. by rewrite Ef.
Qed.

Lemma send_ranges_spec page js g x :
  Forall (λ j, job_ok (view x) j ∧ known (view x) j ∧ (length (j_log j) < fuel)%nat) js →
  ∃ x', grows (view x) (view x') ∧
    send_ranges isAncestor true true fuel page ((λ j, (j_writer j, j_range j)) <$> js) (g, x)
    = ((foldl (work page) g js, x'), Ok ()).
Proof.
  revert g x. induction js as [|j js IH]; intros g x Hall.
  { by exists x. }
  inversion Hall as [|? ? (Hj & Hk & Hf) Hrest]; subst. csimpl.
  unfold mbind at 1, step_bind at 1, more. destruct (g_hasMore g) eqn:Em.
  - exists x. split; [done|]. assert (foldl (work page) (work page g j) js = g) as ->; [|done].
    assert (work page g j = g) as -> by (unfold work; by rewrite Em). clear -Em.
    induction js as [|j js IH]; [done|]. simpl. unfold work at 2. by rewrite Em.
  - destruct (send_range_spec page j g x Hj Hk Hf Em) as (x1 & Hg1 & Hr).
    unfold mbind, step_bind. rewrite Hr. destruct (IH (work page g j) x1) as (x' & Hg' & ->).
    { eapply Forall_impl; [exact Hrest|]. intros j' (H1 & H2 & H3). split_and!; [by apply (job_ok_grows (view x))| |done].
      intros f' Hf'. destruct (H2 f' Hf') as [c Hcc]. exists c. by apply (grows_commit _ _ _ _ Hg1). }
    exists x'. split; [by etrans|done].
Qed.
End reading.

(** ** Pages *)

(** The part of all entries that a page holds. *)
Definition window (page : NormalizedSyncPageRequest) (l : list SyncPatchEntry) : list SyncPatchEntry :=
  let rest := drop (Z.to_nat (cursorOffset page)) l in
  match page_max page with Some m => take (Z.to_nat m) rest | None => rest end.

Definition page_ok (page : NormalizedSyncPageRequest) : Prop :=
  (0 <= cursorOffset page)%Z ∧ match page_max page with Some m => (0 < m)%Z | None => True end.

(** The end of a page among all entries. *)
Definition beyond (page : NormalizedSyncPageRequest) (l : list SyncPatchEntry) : Prop :=
  match page_max page with Some m => (cursorOffset page + m < Z.of_nat (length l))%Z | None => False end.

Definition page_of (page : NormalizedSyncPageRequest) (c : list SyncPatchEntry) (g : Progress) : Prop :=
  g_patches g = window page c ∧
  ((g_hasMore g = false ∧ seenPatches g = Z.of_nat (length c) ∧ ¬ beyond page c) ∨
   (g_hasMore g = true ∧ beyond page c ∧
    g_cursor g = Some (num_to_string (cursorOffset page + default 0%Z (page_max page))%Z))).

Lemma window_app page c es : beyond page c → page_ok page → window page (c ++ es) = window page c.
Proof.
  unfold beyond, window, page_ok. destruct (page_max page) as [m|]; [|done]. intros Hb [Ho Hm].
  rewrite drop_app_le by lia. rewrite take_app_le; [done|]. rewrite length_drop. lia.
Qed.

Lemma beyond_app page c es : beyond page c → beyond page (c ++ es).
Proof. unfold beyond. destruct (page_max page); [|done]. rewrite length_app. lia. Qed.

Lemma append_page page c e g : page_ok page → page_of page c g → g_hasMore g = false →
  page_of page (c ++ [e]) (appendPatchForPage page e g).
Proof.
  intros [Ho Hm] [Hp [(Hf & Hs & Hb)|(Hf & _)]] Hmore; [|by rewrite Hf in Hmore].
  unfold appendPatchForPage, page_of, beyond, window in *. rewrite Hs in *.
  assert (length (c ++ [e]) = S (length c)) as Hlen by (rewrite length_app; simpl; lia).
  destruct (Z.ltb_spec (Z.of_nat (length c)) (cursorOffset page)) as [Hlt|Hge]; cbn [g_patches g_hasMore seenPatches].
  - rewrite Hp, !drop_ge by lia. split; [by destruct (page_max page)|]. left. rewrite Hlen.
    split_and!; [done|lia|]. destruct (page_max page); [lia|done].
  - rewrite (drop_app_le c) by lia. destruct (page_max page) as [m|] eqn:Em; cbn [default].
    + rewrite Hp, length_take, length_drop. destruct (Z.leb_spec m (Z.of_nat (Z.to_nat m `min` (length c - Z.to_nat (cursorOffset page))))).
      * assert (Z.of_nat (length c) = cursorOffset page + m)%Z as Hc by lia. cbn [g_patches g_hasMore g_cursor].
        split; [rewrite take_app_le; [done|rewrite length_drop; lia]|]. right. rewrite Hlen.
        split_and!; [done|lia|]. by rewrite Hc.
      * cbn [g_patches g_hasMore seenPatches]. rewrite (take_ge (drop _ c)) by (rewrite length_drop; lia).
        rewrite take_ge by (rewrite length_app, length_drop; simpl; lia). split; [done|]. left. rewrite Hlen.
        split_and!; [done|lia|lia].
    + cbn [g_patches g_hasMore seenPatches]. rewrite Hp. split; [done|]. left. rewrite Hlen. split_and!; [done|lia|done].
Qed.

Lemma page_more page c es g : page_ok page → page_of page c g → g_hasMore g = true → page_of page (c ++ es) g.
Proof.
  intros Hok [Hp [(Hf & _)|(Hf & Hb & Hc)]] Hm; [by rewrite Hf in Hm|].
  split; [by rewrite window_app|]. right. split_and!; [done|by apply beyond_app|done].
Qed.

Lemma feed_page page c es g : page_ok page → page_of page c g → g_hasMore g = false →
  page_of page (c ++ es) (feed page es g).
Proof.
  intros Hok. revert c g. induction es as [|e es IH]; intros c g Hp Hm; cbn [feed]; [by rewrite app_nil_r|].
  rewrite cons_middle, app_assoc. pose proof (append_page page c e g Hok Hp Hm) as Hp1.
  destruct (g_hasMore (appendPatchForPage page e g)) eqn:E; [by apply page_more|by apply IH].
Qed.

Lemma append_skipped page e g : g_skipped (appendPatchForPage page e g) = g_skipped g.
Proof. unfold appendPatchForPage. by repeat case_match. Qed.
Lemma feed_skipped page es g : g_skipped (feed page es g) = g_skipped g.
Proof. revert g. induction es as [|e es IH]; intros g; cbn [feed]; [done|]. case_match; [|rewrite IH]; apply append_skipped. Qed.

(** All that the requester misses, writer by writer, and the writers with another
    history. *)
Definition all_missing (js : list job) : list SyncPatchEntry := js ≫= λ j, default [] (job_missing j).
Definition all_skipped (js : list job) : list SkippedWriterEntry :=
  omap (λ j, match job_missing j with None => Some (job_skipped j) | Some _ => None end) js.

Lemma work_page page js c g : page_ok page → page_of page c g →
  page_of page (c ++ all_missing js) (foldl (work page) g js) ∧
  (g_hasMore (foldl (work page) g js) = false → g_skipped (foldl (work page) g js) = g_skipped g ++ all_skipped js).
Proof.
  intros Hok. revert c g. induction js as [|j js IH]; intros c g Hp; cbn [foldl].
  { unfold all_missing, all_skipped. cbn. by rewrite !app_nil_r. }
  unfold all_missing, all_skipped in *. cbn [mbind list_bind omap list_omap]. rewrite app_assoc. unfold work at 2 4 6.
  destruct (g_hasMore g) eqn:Em.
  - destruct (IH (c ++ default [] (job_missing j)) g) as [H1 H2]; [by apply page_more|]. split; [done|].
    intros Hf. exfalso. revert Hf. assert (foldl (work page) g js = g) as ->; [|by rewrite Em].
    clear -Em. induction js as [|j' js IHj]; [done|]. simpl. unfold work at 2. by rewrite Em.
  - destruct (job_missing j) as [es|] eqn:Ej; cbn [default].
    + destruct (IH (c ++ es) (feed page es g)) as [H1 H2]; [by apply feed_page|]. split; [done|].
      intros Hf. rewrite (H2 Hf), feed_skipped. done.
    + rewrite app_nil_r. destruct (IH c (skip_writer (job_skipped j) g)) as [H1 H2].
      { destruct Hp as [Hp Hcase]. split; [done|]. exact Hcase. }
      split; [done|]. intros Hf. rewrite (H2 Hf). simpl. by rewrite <- app_assoc.
Qed.

(** ** Applying a response *)

(** A patch that a replica accepts: constructed, of wire operations, and valid. *)
Definition deliverable (p : Patch.Patch) (sha : string) : Prop :=
  Patch.patch_ok p ∧ forallb OpValidator.isKnownRaw (Patch.ops p) = true ∧
  patch_instances_valid (Patch.like p) ∧ ∃ d, denote (Patch.like p) sha = Ok d.

Lemma like_context p c : WarpState.context_vector (Some (Patch.context p)) = WarpState.context_vector (Some c) →
  ∀ sha, denote (Patch.like p) sha =
    denote (Patch.like (Patch.mk (Patch.schema p) (Patch.writer p) (Patch.lamport p) c (Patch.ops p)
      (Patch.reads p) (Patch.writes p))) sha.
Proof.
  intros Hc sha. unfold denote, deltas, frontier_delta. cbn [Patch.like JoinReducer.ops JoinReducer.context
    JoinReducer.writer JoinReducer.lamport Patch.writer Patch.lamport Patch.context Patch.ops].
  rewrite Hc. done.
Qed.

(** Normalizing turns the context into a vector, and changes nothing else. *)
Lemma normalize_arrived p : Patch.patch_ok p → patch_instances_valid (Patch.like p) → ∃ vv,
  let p' := Patch.mk (Patch.schema p) (Patch.writer p) (Patch.lamport p) (VersionVector.SVector vv)
    (Patch.ops p) (Patch.reads p) (Patch.writes p) in
  normalizePatch (decoded_of p) = Ok p' ∧ patch_instances_valid (Patch.like p') ∧
  ∀ sha, denote (Patch.like p') sha = denote (Patch.like p) sha.
Proof.
  intros Hok Hv. pose proof Hok as [Hs Hw Hl Hc Hr Hwr].
  destruct (Patch.normalized_context_vector _ Hc) as [vv Hvv].
  pose proof (context_vector_wf (Patch.like p) vv Hv Hvv) as Hwf.
  assert (match d_context (decoded_of p) with
     | Some (VersionVector.SVector vv) => Ok vv
     | None => Ok VersionVector.empty
     | Some source => VersionVector.from source
     end = Ok vv ∧ VersionVector.clone vv = vv) as [Hsel Hclone].
  { unfold decoded_of. cbn [d_context]. destruct Hv as [_ Hv]. cbn [Patch.like JoinReducer.context] in Hv.
    destruct (Patch.context p) as [v|m|o] eqn:Ec; cbn [Patch.normalizeContext] in Hc.
    - cbn [WarpState.context_vector] in Hvv. injection Hvv as ->. split; [done|]. by injection Hc.
    - by destruct (VersionVector.from (VersionVector.SMap m)).
    - cbn [WarpState.context_vector] in Hvv. split; [done|].
      destruct (VersionVector.from_wf (VersionVector.SObject o) vv I Hvv) as [_ Hf]. unfold VersionVector.clone. destruct vv. simpl in Hf. by subst. }
  exists vv. split; [|split].
  - unfold normalizePatch. rewrite Hsel. cbn [mbind result_bind].
    pose proof (Patch.patch_ok_rebuilds p Hok) as Hnew. unfold Patch.new, Patch.args_of, with_context in *.
    cbn [d_args decoded_of Patch.args_of Patch.a_schema Patch.a_writer Patch.a_lamport Patch.a_ops Patch.a_context
      Patch.a_reads Patch.a_writes from_option id] in *.
    rewrite (Patch.validateSchema_int _ Hs), (Patch.validateWriter_ok _ Hw), (Patch.validateLamport_int _ Hl).
    cbn [mbind result_bind Patch.validateOps Patch.normalizeContext]. rewrite Hclone, Hr. cbn [mbind result_bind].
    by rewrite Hwr.
  - destruct Hv as [Hops _]. by split.
  - intros sha. symmetry. by apply like_context.
Qed.

(** What an entry does to a state. *)
Definition entry_delta (e : SyncPatchEntry) : State :=
  match normalizePatch (se_patch e) with
  | Ok p => match denote (Patch.like p) (se_sha e) with Ok d => d | Throw _ => bottom end
  | Throw _ => bottom
  end.

Definition entry_of (e : SyncPatchEntry) (p : Patch.Patch) : Prop :=
  se_patch e = decoded_of p ∧ deliverable p (se_sha e).

Lemma apply_entry_delta n e p s : entry_of e p → live_state s →
  apply_entry n e s = (WarpState.join s (entry_delta e), Ok (n + 1)%Z) ∧
  denote (Patch.like p) (se_sha e) = Ok (entry_delta e) ∧ live_state (entry_delta e).
Proof.
  intros [He (Hok & Hknown & Hv & d & Hd)] Hs. unfold entry_delta, apply_entry, mbind, step_bind, lift.
  destruct (normalize_arrived p Hok Hv) as (vv & Hn & Hv' & Hden). rewrite He, Hn, Hden, Hd.
  cbn [Patch.ops]. rewrite Hknown. cbn [require MessageSchemaDetector.assertOpsCompatible].
  change (MessageSchemaDetector.assertOpsCompatible _ _) with (@Ok unit ()). cbn [require].
  destruct (applyFast_denote _ (se_sha e) d s Hv' Hs ltac:(by rewrite Hden)) as [Hf Hl]. rewrite Hf. by split_and!.
Qed.

Lemma apply_entries es ps n s : Forall2 entry_of es ps → live_state s →
  for_fold apply_entry es n s = (joins s (entry_delta <$> es), Ok (n + Z.of_nat (length es))%Z) ∧
  Forall live_state (entry_delta <$> es).
Proof.
  intros Hall. revert n s. induction Hall as [|e p es ps He _ IH]; intros n s Hs; csimpl.
  { split; [|constructor]. cbn. by rewrite Z.add_0_r. }
  destruct (apply_entry_delta n e p s He Hs) as (Hr & _ & Hl). unfold mbind, step_bind. rewrite Hr.
  destruct (IH (n + 1)%Z (WarpState.join s (entry_delta e))) as [-> Hls]; [by apply ws_join_live|].
  split; [|by constructor]. cbn [joins foldl length].
  by replace (n + 1 + Z.of_nat (length es))%Z with (n + Z.of_nat (S (length es)))%Z by lia.
Qed.

Definition deliverables (es : list SyncPatchEntry) : Prop := ∀ e, e ∈ es → ∃ p, entry_of e p.

Lemma deliverables_forall es : deliverables es → ∃ ps, Forall2 entry_of es ps.
Proof.
  induction es as [|e es IH]; intros Hd; [by exists []|].
  destruct (Hd e) as [p Hp]; [by left|]. destruct IH as [ps Hps]; [intros e' He'; apply Hd; by right|].
  exists (p :: ps). by constructor.
Qed.

(** *** Groups *)

Definition tip_of (f : gmap string string) (g : string * list SyncPatchEntry) : gmap string string :=
  match last g.2 with Some e => <[g.1 := se_sha e]> f | None => f end.

Lemma apply_groups gs f n s : deliverables (gs ≫= snd) → live_state s →
  for_fold apply_writer gs (f, n) s =
    (joins s (entry_delta <$> (gs ≫= snd)), Ok (foldl tip_of f gs, n + Z.of_nat (length (gs ≫= snd)))%Z).
Proof.
  revert f n s. induction gs as [|[w es] gs IH]; intros f n s Hd Hs; csimpl.
  { cbn. by rewrite Z.add_0_r. }
  assert (deliverables es) as Hd1 by (intros e He; apply Hd; csimpl; set_solver).
  assert (deliverables (gs ≫= snd)) as Hd2 by (intros e He; apply Hd; csimpl; set_solver).
  destruct (deliverables_forall es Hd1) as [ps Hps].
  destruct (apply_entries es ps n s Hps Hs) as [Hr Hl].
  unfold mbind, step_bind, apply_writer, mbind, step_bind. cbn [fst snd]. rewrite Hr. cbn [mret step_ret].
  rewrite IH; [|done|by apply joins_live]. rewrite fmap_app, joins_app, length_app.
  change (list_bind _ _ snd gs) with (gs ≫= snd). by rewrite Nat2Z.inj_add, Z.add_assoc.
Qed.

Lemma ordmap_get_None {V} k (m : list (string * V)) : ordmap_get k m = None ↔ k ∉ m.*1.
Proof.
  induction m as [|[k' v] m IH]; csimpl; [set_solver|]. case_decide as Hk; [subst; set_solver|]. set_solver.
Qed.

Lemma ordmap_set_mbind {A} k (e : A) m :
  NoDup m.*1 → ordmap_set k (default [] (ordmap_get k m) ++ [e]) m ≫= snd ≡ₚ (m ≫= snd) ++ [e].
Proof.
  induction m as [|[k' v] m IH]; csimpl; intros Hnd; [done|]. inversion Hnd as [|? ? Hnin Hnd']; subst.
  case_decide as Hk; csimpl.
  - subst. by rewrite <- !app_assoc, (Permutation_app_comm [e]).
  - rewrite IH by done. by rewrite app_assoc.
Qed.

(** The entries of one writer. *)
Definition of_writer (w : string) (es : list SyncPatchEntry) : list SyncPatchEntry :=
  filter (λ e, se_writerId e = w) es.

Lemma group_spec es : let gs := group_by_writer es in
  NoDup gs.*1 ∧ gs ≫= snd ≡ₚ es ∧ ∀ w, default [] (ordmap_get w gs) = of_writer w es.
Proof.
  unfold group_by_writer. induction es as [|e es IH] using rev_ind; cbn zeta.
  { split; [constructor|]. by split. }
  rewrite foldl_app. cbn [foldl]. set (gs := foldl _ [] es) in *. destruct IH as (Hnd & Hp & Hg).
  split; [by apply ordmap_set_NoDup|]. split; [by rewrite ordmap_set_mbind, Hp|].
  intros w. rewrite ordmap_get_set. unfold of_writer in *. rewrite filter_app, filter_cons, filter_nil, <- Hg.
  destruct (decide (w = se_writerId e)) as [->|Hne]; [by rewrite decide_True|].
  rewrite decide_False by congruence. by rewrite app_nil_r.
Qed.

Lemma tips_lookup gs f w : NoDup gs.*1 →
  foldl tip_of f gs !! w = match last (default [] (ordmap_get w gs)) with Some e => Some (se_sha e) | None => f !! w end.
Proof.
  revert f. induction gs as [|[k es] gs IH]; intros f Hnd; [done|]. cbn [foldl]. csimpl in *.
  inversion Hnd as [|? ? Hnin Hnd']; subst. rewrite IH by done. unfold tip_of. cbn [fst snd].
  case_decide as Hk.
  - subst k. rewrite (proj2 (ordmap_get_None w gs)) by done. cbn.
    destruct (last es); [by rewrite lookup_insert_eq|done].
  - destruct (last (default [] (ordmap_get w gs))); [done|].
    destruct (last es); [by rewrite lookup_insert_ne|done].
Qed.

(** A response applied to a state that is a reduction. *)
Definition received (e : SyncPatchEntry) (p : Patch.Patch) : JoinReducer.sha_patch := (Patch.like p, se_sha e).

Lemma apply_response_spec resp ps P s f :
  patches_valid P → JoinReducer.reducePatches P None None = Ok (JoinReducer.RState s) → (∃ ds, denotes P = Ok ds) →
  Forall2 entry_of (resp_patches resp) ps → one_patch_per_sha (P ++ zip_with received (resp_patches resp) ps) →
  ∃ s' f', applySyncResponse resp s f = Ok (Applied s' f' (Z.of_nat (length (resp_patches resp)))) ∧
    JoinReducer.reducePatches (P ++ zip_with received (resp_patches resp) ps) None None = Ok (JoinReducer.RState s') ∧
    ∀ w, f' !! w = match last (of_writer w (resp_patches resp)) with Some e => Some (se_sha e) | None => f !! w end.
Proof.
  intros HvP HP [dP HdP] Hps Hone. set (es := resp_patches resp) in *.
  assert (deliverables es) as Hdel.
  { clear -Hps. induction Hps as [|e p es ps He _ IH]; intros e'; [set_solver|].
    intros [->|?]%elem_of_cons; [by exists p|by apply IH]. }
  destruct (reducePatches_empty P dP HvP HdP) as [HP' HlP]. rewrite HP in HP'. injection HP' as ->.
  set (s := joins bottom dP) in *. assert (live_state s) as Hs by (apply joins_live; [apply bottom_live|done]).
  set (Q := zip_with received es ps) in *.
  assert (denotes Q = Ok (entry_delta <$> es) ∧ patches_valid Q) as [HdQ HvQ].
  { clear -Hps Hs. unfold denotes, patches_valid. rewrite map_result_ok. subst Q.
    induction Hps as [|e p es ps He _ [IH1 IH2]]; csimpl; [by split; constructor|].
    destruct (apply_entry_delta 0 e p s He Hs) as (_ & Hden & _).
    split; constructor; [exact Hden|exact IH1|apply He|exact IH2]. }
  assert (denotes (P ++ Q) = Ok (dP ++ (entry_delta <$> es))) as HdPQ.
  { unfold denotes in *. rewrite map_result_ok in *. by apply Forall2_app. }
  destruct (reducePatches_empty (P ++ Q) _ ltac:(by apply Forall_app) HdPQ) as [HPQ Hl].
  apply Forall_app in Hl as [_ HlQ].
  destruct (group_spec es) as (Hnd & Hperm & Hget). set (gs := group_by_writer es) in *.
  exists (joins s (entry_delta <$> es)), (foldl tip_of f gs). split; [|split].
  - unfold applySyncResponse. fold es gs. unfold JoinReducer.cloneState, WarpState.cloneFromSnapshot.
    rewrite clone_live by done. unfold Frontier.cloneFrontier. rewrite Frontier.map_of_to_list.
    rewrite apply_groups; [| |done]. 2:{ intros e He. apply Hdel. by rewrite <- Hperm. }
    f_equal. f_equal; [|by rewrite Hperm].
    apply joins_perm; [done| |by rewrite Hperm|].
    + by rewrite Hperm.
    + intros a b. rewrite Hperm. intros Ha Hb. apply (denotes_agree (P ++ Q) _ Hone HdPQ); apply elem_of_app; by right.
  - rewrite HPQ. by rewrite joins_app.
  - intros w. by rewrite tips_lookup, Hget.
Qed.

(** ** The same patches reduce to the same state *)

Lemma joins_again d l : Forall live_state (d :: l) → (∀ a b, a ∈ d :: l → b ∈ d :: l → WarpState.agree a b) →
  d ∈ l → joins bottom (d :: l) = joins bottom l.
Proof.
  intros Hl Hag Hd. destruct (list_elem_of_split _ _ Hd) as (l1 & l2 & El).
  assert (l ≡ₚ d :: (l1 ++ l2)) as Hp by (by rewrite El, Permutation_middle).
  pose proof (Forall_inv Hl) as Hld.
  rewrite (joins_perm bottom (d :: l) (d :: d :: (l1 ++ l2))); [|apply bottom_live|done|by rewrite <- Hp|done].
  rewrite (joins_perm bottom l (d :: (l1 ++ l2))); [|apply bottom_live|by apply (Forall_inv_tail Hl)|done|].
  2:{ intros a b Ha Hb. apply Hag; by right. }
  cbn [joins foldl]. change WarpState.empty with bottom. f_equal.
  rewrite WarpState.ws_join_empty_l, (clone_live d), WarpState.ws_join_idemp by apply Hld. by rewrite clone_live.
Qed.

Lemma joins_known l1 l2 : Forall live_state (l1 ++ l2) → (∀ a b, a ∈ l1 ++ l2 → b ∈ l1 ++ l2 → WarpState.agree a b) →
  (∀ d, d ∈ l2 → d ∈ l1) → joins bottom (l1 ++ l2) = joins bottom l1.
Proof.
  induction l2 as [|d l2 IH]; intros Hl Hag Hin; [by rewrite app_nil_r|].
  assert (l1 ++ d :: l2 ≡ₚ d :: (l1 ++ l2)) as Hp by (by rewrite Permutation_middle).
  rewrite (joins_perm bottom _ (d :: (l1 ++ l2))); [|apply bottom_live|done..].
  assert (Forall live_state (d :: (l1 ++ l2))) as Hl' by (by rewrite <- Hp).
  rewrite joins_again.
  - apply IH; [by inversion Hl'| |intros d' Hd'; apply Hin; by right].
    intros a b Ha Hb. apply Hag; rewrite Hp; by right.
  - done.
  - intros a b Ha Hb. apply Hag; by rewrite Hp.
  - apply elem_of_app. left. apply Hin. by left.
Qed.

Lemma denotes_elem ps ds q : denotes ps = Ok ds → q ∈ ps → ∃ d, d ∈ ds ∧ denote q.1 q.2 = Ok d.
Proof.
  unfold denotes. rewrite map_result_ok. intros Hall [i Hi]%list_elem_of_lookup.
  destruct (Forall2_lookup_l _ _ _ _ _ Hall Hi) as (d & Hd & Hq). exists d. split; [by apply list_elem_of_lookup_2 in Hd|].
  by destruct q.
Qed.

Lemma denotes_elem_inv ps ds d : denotes ps = Ok ds → d ∈ ds → ∃ q, q ∈ ps ∧ denote q.1 q.2 = Ok d.
Proof.
  unfold denotes. rewrite map_result_ok. intros Hall [i Hi]%list_elem_of_lookup.
  destruct (Forall2_lookup_r _ _ _ _ _ Hall Hi) as ([p sha] & Hp & Hq). exists (p, sha).
  split; [by apply list_elem_of_lookup_2 in Hp|done].
Qed.

Lemma denotes_sub ps qs : patches_valid ps → (∃ ds, denotes ps = Ok ds) → (∀ q, q ∈ qs → q ∈ ps) →
  patches_valid qs ∧ ∃ ds, denotes qs = Ok ds.
Proof.
  intros Hv [ds Hds] Hsub. split.
  { apply Forall_forall. intros q Hq. by apply (proj1 (Forall_forall _ _) Hv q), Hsub. }
  induction qs as [|q qs IH]; [by exists []|]. destruct IH as [ds' Hds']; [intros q' Hq'; apply Hsub; by right|].
  destruct (denotes_elem ps ds q Hds) as (d & _ & Hd); [apply Hsub; by left|].
  exists (d :: ds'). unfold denotes in *. rewrite map_result_ok in *. constructor; [by destruct q|done].
Qed.

(** What is delivered, not how often. *)
Lemma reduce_same_patches ps qs : patches_valid ps → patches_valid qs →
  (∃ ds, denotes ps = Ok ds) → (∃ ds, denotes qs = Ok ds) → one_patch_per_sha ps →
  (∀ q, q ∈ ps ↔ q ∈ qs) → JoinReducer.reducePatches ps None None = JoinReducer.reducePatches qs None None.
Proof.
  intros Hvp Hvq [dp Hdp] [dq Hdq] Hone Hiff.
  destruct (reducePatches_empty ps dp Hvp Hdp) as [-> Hlp]. destruct (reducePatches_empty qs dq Hvq Hdq) as [-> Hlq].
  do 2 f_equal.
  assert (∀ d, d ∈ dp ↔ d ∈ dq) as Hd.
  { intros d. split; intros Hin.
    - destruct (denotes_elem_inv ps dp d Hdp Hin) as (q & Hq & Hden).
      destruct (denotes_elem qs dq q Hdq) as (d' & Hd' & Hden'); [by apply Hiff|]. congruence.
    - destruct (denotes_elem_inv qs dq d Hdq Hin) as (q & Hq & Hden).
      destruct (denotes_elem ps dp q Hdp) as (d' & Hd' & Hden'); [by apply Hiff|]. congruence. }
  assert (∀ a b, a ∈ dp ++ dq → b ∈ dp ++ dq → WarpState.agree a b) as Hag.
  { intros a b Ha Hb. apply (denotes_agree ps dp Hone Hdp); set_solver. }
  rewrite <- (joins_known dp dq); [|by apply Forall_app|done|by intros d ?; apply Hd].
  rewrite <- (joins_known dq dp); [|by apply Forall_app| |by intros d ?; apply Hd].
  - apply joins_perm; [apply bottom_live|by apply Forall_app|apply Permutation_app_comm|done].
  - intros a b Ha Hb. apply Hag; set_solver.
Qed.

(** ** What the responder has *)

(** The history of a writer: its commits with their patches, latest first. *)
Record history := History { h_log : list (entry * Patch.Patch); h_base : option string }.

Definition has_history {M} `{CommitMessageCodec M} (r : Repo M) (tip : string) (h : history) : Prop :=
  chain (commits r) (Some tip) (h_log h).*1 (h_base h) ∧ Forall (stored r) (h_log h).

(** The ranges of a request, in the order in which they are served. *)
Definition jobs (localeCompare : string → string → Z) (theirs ours : gmap string string) (hs : string → history)
    : list job :=
  (λ wr, Job wr.1 wr.2 (h_log (hs wr.1)) (h_base (hs wr.1)))
    <$> js_sort (compare_writers localeCompare) (map_to_list (needs theirs ours)).

Lemma elem_of_jobs cmp theirs ours hs j : j ∈ jobs cmp theirs ours hs ↔
  ∃ w tip, ours !! w = Some tip ∧ theirs !! w ≠ Some tip ∧
    j = Job w (Range (theirs !! w) tip) (h_log (hs w)) (h_base (hs w)).
Proof.
  unfold jobs. rewrite list_elem_of_fmap. setoid_rewrite elem_of_js_sort. split.
  - intros ([w rg] & -> & Hin). apply elem_of_map_to_list in Hin. unfold needs in Hin.
    rewrite map_lookup_imap in Hin. destruct (ours !! w) as [tip|] eqn:Eo; [|done]. cbn in Hin.
    exists w, tip. destruct (theirs !! w) as [f|] eqn:Et.
    + case_decide; [done|]. injection Hin as <-. split_and!; [done|congruence|done].
    + injection Hin as <-. by split_and!.
  - intros (w & tip & Ho & Hne & ->). exists (w, Range (theirs !! w) tip). split; [done|].
    apply elem_of_map_to_list. unfold needs. rewrite map_lookup_imap, Ho. cbn.
    destruct (theirs !! w) as [f|]; [|done]. by rewrite decide_False by congruence.
Qed.

(** *** The patches that a response brings *)

Definition named_patch (ep : entry * Patch.Patch) : JoinReducer.sha_patch := (Patch.like ep.2, ep.1.1).

Definition missing_log (j : job) : list (entry * Patch.Patch) :=
  default [] (log_above (from (j_range j)) (j_log j) (j_base j)).

Lemma default_missing j : default [] (job_missing j) = sent (j_writer j) <$> reverse (missing_log j).
Proof. unfold job_missing, missing_log. by destruct (log_above _ _ _). Qed.

Lemma missing_log_sub j ep : ep ∈ missing_log j → ep ∈ j_log j.
Proof.
  unfold missing_log, log_above. destruct (above _ _ _) as [m|]; [|set_solver]. csimpl.
  apply subseteq_take || (intros Hin; rewrite <- (take_drop (length m) (j_log j)); set_solver).
Qed.

Definition missing_patches (js : list job) : list Patch.Patch := js ≫= λ j, (reverse (missing_log j)).*2.

Lemma received_missing js :
  zip_with received (all_missing js) (missing_patches js) = js ≫= λ j, named_patch <$> reverse (missing_log j).
Proof.
  unfold all_missing, missing_patches. induction js as [|j js IH]; [done|]. csimpl. rewrite default_missing.
  rewrite zip_with_app by (by rewrite !length_fmap). f_equal; [|exact IH].
  generalize (reverse (missing_log j)). intros l. induction l as [|ep l IHl]; [done|]. csimpl. by rewrite IHl.
Qed.

Lemma missing_entries js : (∀ j ep, j ∈ js → ep ∈ j_log j → deliverable ep.2 ep.1.1) →
  Forall2 entry_of (all_missing js) (missing_patches js).
Proof.
  unfold all_missing, missing_patches. induction js as [|j js IH]; intros Hd; [constructor|]. csimpl.
  rewrite default_missing. apply Forall2_app.
  - assert (∀ ep, ep ∈ reverse (missing_log j) → deliverable ep.2 ep.1.1) as Hj.
    { intros ep Hep%elem_of_reverse%missing_log_sub. apply (Hd j); [by left|done]. }
    revert Hj. generalize (reverse (missing_log j)). intros l. induction l as [|ep l IHl]; intros Hl; csimpl; constructor.
    + split; [done|]. apply Hl. by left.
    + apply IHl. intros ep' Hep'. apply Hl. by right.
  - apply IH. intros j' ep Hj'. apply Hd. by right.
Qed.

Lemma of_writer_missing w js :
  of_writer w (all_missing js) = js ≫= λ j, if decide (j_writer j = w) then default [] (job_missing j) else [].
Proof.
  unfold all_missing, of_writer. induction js as [|j js IH]; [done|]. csimpl. rewrite filter_app. f_equal; [|exact IH].
  rewrite default_missing. generalize (reverse (missing_log j)). intros l.
  case_decide as Hw; induction l as [|ep l IHl]; csimpl; try done; rewrite filter_cons; cbn [se_writerId sent].
  - by rewrite decide_True, IHl.
  - by rewrite decide_False, IHl.
Qed.

Lemma of_one_writer w js j : NoDup (j_writer <$> js) → j ∈ js → j_writer j = w →
  of_writer w (all_missing js) = sent w <$> reverse (missing_log j).
Proof.
  intros Hnd Hj Hw. rewrite of_writer_missing. induction js as [|j' js IH]; [set_solver|]. csimpl in *.
  inversion Hnd as [|? ? Hnin Hnd']; subst. apply elem_of_cons in Hj as [->|Hj].
  - rewrite decide_True by done. rewrite default_missing.
    assert ((js ≫= λ j0, if decide (j_writer j0 = j_writer j') then default [] (job_missing j0) else []) = []) as ->;
      [|by rewrite app_nil_r].
    clear -Hnin. induction js as [|j0 js IH]; [done|]. csimpl in *. rewrite decide_False by set_solver. apply IH. set_solver.
  - rewrite decide_False; [by apply IH|]. intros Heq. apply Hnin. rewrite Heq. by apply list_elem_of_fmap_2.
Qed.

Lemma jobs_writers cmp theirs ours hs : NoDup (j_writer <$> jobs cmp theirs ours hs).
Proof.
  unfold jobs. rewrite <- list_fmap_compose. change (j_writer ∘ _) with (fst (A := string) (B := WriterRange)).
  rewrite js_sort_perm. apply NoDup_fst_map_to_list.
Qed.

Lemma above_known {M} `{CommitMessageCodec M} (cs : gmap string (NodeInfo M)) h l base f :
  chain cs h l base → is_Some (above (Some f) l base) → is_Some (cs !! f).
Proof.
  induction 1 as [|sha info Hl Hne Hk|sha m parent l base (info & Hl & _) _ IH]; cbn [above head_of]; intros Ha.
  - by destruct Ha.
  - case_decide as Hf; [|by destruct Ha]. injection Hf as <-. by exists info.
  - case_decide as Hf; [injection Hf as <-; by exists info|]. apply IH. destruct (above _ _ _); [by eexists|by destruct Ha].
Qed.

Lemma missing_head w tip theirs h {M} `{CommitMessageCodec M} (r : Repo M) :
  has_history r tip h → theirs ≠ Some tip → h_log h ≠ [] →
  is_Some (log_above theirs (h_log h) (h_base h)) →
  ∃ m p l, missing_log (Job w (Range theirs tip) (h_log h) (h_base h)) = ((tip, m), p) :: l.
Proof.
  intros [Hc _] Hne Hlog Hs. unfold missing_log, log_above in *. cbn [from j_range j_log j_base] in *.
  destruct (h_log h) as [|[[sha m] p] l]; [done|]. csimpl in *. 
  pose proof (chain_head _ _ _ _ Hc) as Hh. cbn [head_of] in Hh. injection Hh as <-.
  cbn [above head_of] in *. rewrite decide_False in * by congruence.
  destruct (above theirs l.*1 (h_base h)) as [k|]; [|by destruct Hs]. csimpl. by exists m, p, (take (length k) l).
Qed.

Lemma normalize_page_ok page page' : normalizeSyncPageRequest page = Ok page' → page_ok page'.
Proof.
  destruct page as [[m c]|]; cbn [normalizeSyncPageRequest rp_maxPatches rp_cursor].
  2:{ intros [= <-]. by split. }
  intros Hn. invert_ok. subst page'. split; cbn [cursorOffset page_max].
  - unfold cursorOffsetFor in *. repeat case_match; simplify_eq; try lia.
  - unfold requirePositiveMaxPatches in *. repeat case_match; simplify_eq; lia.
Qed.

(** ** The whole handler *)

Lemma process_spec {M X : Type} `{CommitMessageCodec M} `{!Persistence M X} `{!PatchJournal X} (view : X → Repo M)
    `{!RepositoryLaws view} cmp isAncestor fuel request page ours hs x :
  reads_answer view → ancestry_ok view isAncestor → normalizeSyncPageRequest (req_page request) = Ok page →
  let js := jobs cmp (req_frontier request) ours hs in
  Forall (λ j, job_ok (view x) j ∧ known (view x) j ∧ (length (j_log j) < fuel)%nat) js →
  ∃ x' g, processSyncRequest cmp isAncestor true true fuel request ours x = (x', Ok (response_of ours page g)) ∧
    grows (view x) (view x') ∧ page_of page (all_missing js) g ∧
    (g_hasMore g = false → g_skipped g = all_skipped js).
Proof.
  intros Hreads Hanc Hpage js Hjs. assert (page_ok page) as Hok by (by apply (normalize_page_ok _ _ Hpage)).
  destruct (send_ranges_spec view Hreads isAncestor Hanc fuel page js start x Hjs) as (x' & Hg & Hrun).
  assert (page_of page [] start) as Hstart.
  { split.
    - unfold window. rewrite drop_nil. destruct (page_max page); [by rewrite take_nil|done].
    - left. split_and!; [done|done|]. unfold beyond. destruct Hok as [Ho Hm]. destruct (page_max page); [simpl; lia|tauto]. }
  destruct (work_page page js [] start Hok Hstart) as [Hp Hskip].
  exists x', (foldl (work page) start js). split; [|done]. unfold processSyncRequest. rewrite Hpage.
  unfold js, jobs in Hrun. rewrite <- list_fmap_compose in Hrun.
  assert ((λ j, (j_writer j, j_range j)) ∘ (λ wr : string * WriterRange, Job wr.1 wr.2 (h_log (hs wr.1)) (h_base (hs wr.1)))
    <$> js_sort (compare_writers cmp) (map_to_list (needs (req_frontier request) ours))
    = js_sort (compare_writers cmp) (map_to_list (needs (req_frontier request) ours))) as Eq.
  { rewrite <- list_fmap_id. apply list_fmap_ext. by intros ? [w r] _. }
  rewrite Eq in Hrun. unfold computeSyncDelta, objectToFrontier. cbn [needFromRemote]. by rewrite Hrun.
Qed.

(** ** Up to date *)

(** The patches of all chains of a replica. *)
Definition all_of_chains (ours : gmap string string) (hs : string → history) : list JoinReducer.sha_patch :=
  map_to_list ours ≫= λ wt, named_patch <$> h_log (hs wt.1).

Lemma elem_of_chains ours hs q : q ∈ all_of_chains ours hs ↔
  ∃ w ep, is_Some (ours !! w) ∧ ep ∈ h_log (hs w) ∧ q = named_patch ep.
Proof.
  unfold all_of_chains. rewrite list_elem_of_bind. split.
  - intros ([w t] & (ep & -> & Hep)%list_elem_of_fmap & Hw%elem_of_map_to_list). by exists w, ep.
  - intros (w & ep & [t Ht] & Hep & ->). exists (w, t). split; [by apply list_elem_of_fmap_2|].
    by apply elem_of_map_to_list.
Qed.

Lemma above_root l : above None l None = Some l.
Proof. by induction l as [|[sha m] l IH]; cbn [above head_of]; [|rewrite IH]. Qed.

Lemma log_above_root log : log_above None log None = Some log.
Proof. unfold log_above. rewrite above_root. csimpl. by rewrite length_fmap, firstn_all. Qed.

Lemma history_nonempty {M} `{CommitMessageCodec M} (r : Repo M) tip h :
  has_history r tip h → h_base h = None → h_log h ≠ [].
Proof. intros [Hc _] Hb He. rewrite Hb, He in Hc. by inversion Hc. Qed.

Lemma log_above_tip {M} `{CommitMessageCodec M} (r : Repo M) tip h :
  has_history r tip h → log_above (Some tip) (h_log h) (h_base h) = Some [].
Proof.
  intros [Hc _]. unfold log_above. pose proof (chain_head _ _ _ _ Hc) as Hh.
  destruct (h_log h).*1; cbn [above]; by rewrite decide_True.
Qed.

Section up_to_date.
Context {M X : Type} `{CommitMessageCodec M} `{!Persistence M X} `{!PatchJournal X} (view : X → Repo M)
  `{!RepositoryLaws view} (cmp : string → string → Z) (theirs ours : gmap string string) (hs : string → history)
  (x : X) (P : list JoinReducer.sha_patch).
Context (Hours : ∀ w tip, ours !! w = Some tip → has_history (view x) tip (hs w) ∧ h_base (hs w) = None ∧
    ∀ ep, ep ∈ h_log (hs w) → deliverable ep.2 ep.1.1)
  (Hbelow : ∀ w tip g, ours !! w = Some tip → theirs !! w = Some g →
    ∃ log below, log_above (Some g) (h_log (hs w)) (h_base (hs w)) = Some log ∧ h_log (hs w) = log ++ below ∧
      ∀ ep, ep ∈ below → named_patch ep ∈ P).

Let js := jobs cmp theirs ours hs.
Let Q := js ≫= λ j, named_patch <$> reverse (missing_log j).

Lemma job_log w tip : ours !! w = Some tip → ∃ log below, h_log (hs w) = log ++ below ∧
  log_above (theirs !! w) (h_log (hs w)) (h_base (hs w)) = Some log ∧ ∀ ep, ep ∈ below → named_patch ep ∈ P.
Proof.
  intros Ho. destruct (theirs !! w) as [g|] eqn:Et.
  - destruct (Hbelow w tip g Ho Et) as (log & below & Ha & Hl & Hin). by exists log, below.
  - destruct (Hours w tip Ho) as (_ & -> & _). exists (h_log (hs w)), []. rewrite log_above_root, app_nil_r.
    split_and!; [done..|set_solver].
Qed.

Lemma job_missing_is_Some j : j ∈ js → is_Some (job_missing j).
Proof.
  intros (w & tip & Ho & _ & ->)%elem_of_jobs. destruct (job_log w tip Ho) as (log & below & _ & Hlog & _).
  unfold job_missing. cbn [j_range from j_log j_base]. rewrite Hlog. by eexists.
Qed.

Lemma none_skipped : all_skipped js = [].
Proof.
  unfold all_skipped. pose proof job_missing_is_Some as Hj. revert Hj. generalize js. intros l.
  induction l as [|j l IH]; intros Hj; [done|]. cbn [omap list_omap].
  destruct (Hj j) as [es ->]; [by left|]. apply IH. intros j' Hj'. apply Hj. by right.
Qed.

Lemma elem_of_sent q : q ∈ Q ↔ ∃ j ep, j ∈ js ∧ ep ∈ missing_log j ∧ q = named_patch ep.
Proof.
  unfold Q. rewrite list_elem_of_bind. split.
  - intros (j & (ep & -> & Hep)%list_elem_of_fmap & Hj). rewrite elem_of_reverse in Hep. exists j, ep. by split_and!.
  - intros (j & ep & Hj & Hep & ->). exists j. split; [|done]. apply list_elem_of_fmap_2. by apply elem_of_reverse.
Qed.

Lemma sent_of_chains q : q ∈ Q → q ∈ all_of_chains ours hs.
Proof.
  rewrite elem_of_sent, elem_of_chains. intros (j & ep & (w & tip & Ho & _ & ->)%elem_of_jobs & Hep%missing_log_sub & ->).
  exists w, ep. by split; [eexists|].
Qed.

(** Nothing is lost: what is not sent was there. *)
Lemma chains_covered q : q ∈ P ++ Q ↔ q ∈ P ++ all_of_chains ours hs.
Proof.
  rewrite !elem_of_app. split; [intros [?|?%sent_of_chains]; tauto|]. intros [?|Hq]; [tauto|].
  apply elem_of_chains in Hq as (w & ep & [tip Ho] & Hep & ->).
  destruct (job_log w tip Ho) as (log & below & Hl & Hlog & Hrest). destruct (decide (theirs !! w = Some tip)) as [Heq|Hne].
  - destruct (Hours w tip Ho) as (Hh & _). rewrite Heq, (log_above_tip _ _ _ Hh) in Hlog. injection Hlog as <-.
    left. apply Hrest. by rewrite Hl in Hep.
  - rewrite Hl in Hep. apply elem_of_app in Hep as [Hep|?]; [right|left; by apply Hrest].
    apply elem_of_sent. eexists _, ep. split; [by apply elem_of_jobs; exists w, tip|].
    unfold missing_log. cbn [j_range from j_log j_base]. by rewrite Hlog.
Qed.

Lemma chains_denote : patches_valid (all_of_chains ours hs) ∧ ∃ ds, denotes (all_of_chains ours hs) = Ok ds.
Proof.
  assert (∀ q, q ∈ all_of_chains ours hs → patch_instances_valid q.1 ∧ ∃ d, denote q.1 q.2 = Ok d) as Hq.
  { intros q (w & ep & [tip Ho] & Hep & ->)%elem_of_chains. destruct (Hours w tip Ho) as (_ & _ & Hd).
    destruct (Hd ep Hep) as (_ & _ & Hv & Hden). by split. }
  revert Hq. generalize (all_of_chains ours hs). intros l. induction l as [|q l IH]; intros Hq.
  { split; [constructor|]. by exists []. }
  destruct IH as [Hv [ds Hds]]; [intros q' Hq'; apply Hq; by right|]. destruct (Hq q) as [Hvq [d Hd]]; [by left|].
  split; [by constructor|]. exists (d :: ds). unfold denotes in *. rewrite map_result_ok in *. constructor; [|done].
  by destruct q.
Qed.

Lemma new_head w tip : ours !! w = Some tip → theirs !! w ≠ Some tip →
  ∃ e, last (of_writer w (all_missing js)) = Some e ∧ se_sha e = tip.
Proof.
  intros Ho Hne. destruct (Hours w tip Ho) as (Hh & Hb & _). destruct (job_log w tip Ho) as (log & below & _ & Hlog & _).
  destruct (missing_head w tip (theirs !! w) (hs w) (view x) Hh Hne) as (m & p & l & Hm);
    [by apply (history_nonempty (view x) tip)|by eexists|].
  set (j := Job w _ _ _) in Hm.
  rewrite (of_one_writer w js j) by (done || apply jobs_writers || (apply elem_of_jobs; by exists w, tip)).
  rewrite Hm, reverse_cons, fmap_app; csimpl; rewrite last_snoc. by eexists.
Qed.

Lemma old_head w : ours !! w = None ∨ ours !! w = theirs !! w → last (of_writer w (all_missing js)) = None.
Proof.
  intros Hw. rewrite of_writer_missing. assert (∀ j, j ∈ js → j_writer j ≠ w) as Hj.
  { intros j (w' & tip & Ho & Hne & ->)%elem_of_jobs <-. destruct Hw as [Hw|Hw]; cbn [j_writer] in Hw; congruence. }
  revert Hj. generalize js. intros l. induction l as [|j l IH]; intros Hj; [done|]. csimpl.
  rewrite decide_False by (apply Hj; by left). apply IH. intros j' Hj'. apply Hj. by right.
Qed.
End up_to_date.

(** ** Properties *)

(** C7. A responder answers a request with exactly what the requester misses. The
    response holds the part of the missing patches that its page covers: for
    every writer whose head differs, the patches above the head the requester
    named, oldest first, writer after writer. More is announced exactly when
    there is more, with the cursor where the next page starts; without more, the
    writers whose head the requester named lies on no chain of the responder
    are reported as skipped. Other processes may write meanwhile. *)
Theorem sync_response_is_what_is_missing {M X : Type} `{CommitMessageCodec M} `{!Persistence M X}
    `{!PatchJournal X} (view : X → Repo M) `{!RepositoryLaws view}
    (localeCompare : string → string → Z) (isAncestor : option (string → string → step X bool)) (fuel : nat)
    (request : SyncRequest) (page : NormalizedSyncPageRequest) (ours : gmap string string)
    (hs : string → history) (x : X) :
  reads_answer view → ancestry_ok view isAncestor →
  normalizeSyncPageRequest (req_page request) = Ok page →
  (∀ w tip, ours !! w = Some tip → has_history (view x) tip (hs w) ∧ (length (h_log (hs w)) < fuel)%nat) →
  (∀ w f, req_frontier request !! w = Some f → is_Some (ours !! w) → is_Some (commits (view x) !! f)) →
  let js := jobs localeCompare (req_frontier request) ours hs in
  ∃ x' resp pg, processSyncRequest localeCompare isAncestor true true fuel request ours x = (x', Ok resp) ∧
    grows (view x) (view x') ∧ resp_frontier resp = delete "__proto__" ours ∧
    resp_patches resp = window page (all_missing js) ∧ resp_page resp = Some pg ∧
    (hasMore pg = true ↔ beyond page (all_missing js)) ∧
    cursor pg = (if hasMore pg then Some (num_to_string (cursorOffset page + default 0%Z (page_max page))) else None) ∧
    (hasMore pg = false → resp_skipped resp = all_skipped js).
Proof.
  intros Hreads Hanc Hpage Hours Hknown js.
  destruct (process_spec view localeCompare isAncestor fuel request page ours hs x Hreads Hanc Hpage)
    as (x' & g & Hrun & Hg & [Hpat Hcase] & Hskip).
  { apply Forall_forall. intros j (w & tip & Ho & Hne & ->)%elem_of_jobs.
    destruct (Hours w tip Ho) as [[Hc Hs] Hf]. split_and!; [by split| |done].
    intros f Hf'. apply (Hknown w f Hf'). by eexists. }
  fold js in Hpat, Hcase, Hskip. exists x', (response_of ours page g). eexists.
  split; [exact Hrun|split; [done|split; [done|split; [exact Hpat|split; [done|]]]]].
  cbn [hasMore cursor resp_skipped response_of] in *. destruct Hcase as [(Hm & _ & Hnb)|(Hm & Hb & Hcur)]; rewrite Hm.
  - split_and!; [by split|done|]. intros _. apply (Hskip Hm).
  - split_and!; [by split|done|done].
Qed.

(** C6. A sync round brings the requester up to date. When the heads that the
    requester names lie on the chains of the responder, and its state is the
    reduction of patches that include everything from those heads down, then the
    response skips nobody and can be applied, and the new state is the one of a
    replica that reduced its own patches together with every patch of the
    responder. Its frontier then has the heads of the responder. *)
Theorem sync_catches_up {M X : Type} `{CommitMessageCodec M} `{!Persistence M X}
    `{!PatchJournal X} (view : X → Repo M) `{!RepositoryLaws view}
    (localeCompare : string → string → Z) (isAncestor : option (string → string → step X bool)) (fuel : nat)
    (request : SyncRequest) (ours : gmap string string) (hs : string → history) (x : X)
    (P : list JoinReducer.sha_patch) (s : State) (f : gmap string string) :
  reads_answer view → ancestry_ok view isAncestor → req_page request = None →
  (∀ w tip, ours !! w = Some tip → (length (h_log (hs w)) < fuel)%nat) →
  (∀ w tip, ours !! w = Some tip → has_history (view x) tip (hs w) ∧ h_base (hs w) = None ∧
    ∀ ep, ep ∈ h_log (hs w) → deliverable ep.2 ep.1.1) →
  (∀ w tip g, ours !! w = Some tip → req_frontier request !! w = Some g →
    ∃ log below, log_above (Some g) (h_log (hs w)) (h_base (hs w)) = Some log ∧ h_log (hs w) = log ++ below ∧
      ∀ ep, ep ∈ below → named_patch ep ∈ P) →
  patches_valid P → (∃ ds, denotes P = Ok ds) → one_patch_per_sha (P ++ all_of_chains ours hs) →
  JoinReducer.reducePatches P None None = Ok (JoinReducer.RState s) →
  ∃ x' resp s' f', processSyncRequest localeCompare isAncestor true true fuel request ours x = (x', Ok resp) ∧
    grows (view x) (view x') ∧ resp_skipped resp = [] ∧
    applySyncResponse resp s f = Ok (Applied s' f' (Z.of_nat (length (resp_patches resp)))) ∧
    JoinReducer.reducePatches (P ++ all_of_chains ours hs) None None = Ok (JoinReducer.RState s') ∧
    ∀ w, f' !! w = match ours !! w with
      | Some tip => if decide (req_frontier request !! w = Some tip) then f !! w else Some tip
      | None => f !! w
      end.
Proof.
  intros Hreads Hanc Hpage Hfuel Hours Hbelow HvP HdP Hone HP. set (theirs := req_frontier request) in *.
  set (js := jobs localeCompare theirs ours hs). set (Q := js ≫= λ j, named_patch <$> reverse (missing_log j)).
  destruct (process_spec view localeCompare isAncestor fuel request (Page None 0) ours hs x Hreads Hanc)
    as (x' & g & Hrun & Hg & [Hpat Hcase] & Hskip); [by rewrite Hpage| |].
  { apply Forall_forall. intros j (w & tip & Ho & Hne & ->)%elem_of_jobs. fold theirs in Hne |- *.
    destruct (Hours w tip Ho) as ([Hc Hs] & _). split_and!; [by split| |by apply (Hfuel w tip)].
    intros g' Hg'. cbn [j_range from] in Hg'. destruct (Hbelow w tip g' Ho Hg') as (log & below & Ha & _).
    apply (above_known _ _ _ _ _ Hc). rewrite log_above_fst, Ha. by eexists. }
  fold theirs js in Hpat, Hcase, Hskip. change (window (Page None 0) (all_missing js)) with (all_missing js) in Hpat.
  destruct Hcase as [(Hm & _ & _)|(_ & Hb & _)]; [|by destruct Hb].
  assert (zip_with received (all_missing js) (missing_patches js) = Q) as HQ by apply received_missing.
  assert (one_patch_per_sha (P ++ Q)) as Hone'.
  { intros p q sha Hp Hq. apply (Hone p q sha); by apply (chains_covered view localeCompare theirs ours hs x P Hours Hbelow). }
  destruct (apply_response_spec (response_of ours (Page None 0) g) (missing_patches js) P s f HvP HP HdP)
    as (s' & f' & Happ & Hred & Hf); cbn [resp_patches response_of] in *; rewrite ?Hpat, ?HQ in *; [|done|].
  { apply missing_entries. intros j ep (w & tip & Ho & _ & ->)%elem_of_jobs Hep. by apply (Hours w tip Ho). }
  destruct (chains_denote view ours hs x Hours) as [HvA [dA HdA]]. destruct HdP as [dP HdP].
  assert (patches_valid (P ++ all_of_chains ours hs) ∧ ∃ ds, denotes (P ++ all_of_chains ours hs) = Ok ds) as [HvPA HdPA].
  { split; [by apply Forall_app|]. exists (dP ++ dA). unfold denotes in *. rewrite map_result_ok in *. by apply Forall2_app. }
  assert (∀ q, q ∈ P ++ Q ↔ q ∈ P ++ all_of_chains ours hs) as Hsame
    by apply (chains_covered view localeCompare theirs ours hs x P Hours Hbelow).
  destruct (denotes_sub _ (P ++ Q) HvPA HdPA) as [HvPQ HdPQ]; [by intros q ?; apply Hsame|].
  exists x', (response_of ours (Page None 0) g), s', f'. split; [exact Hrun|]. cbn [resp_skipped response_of resp_patches] in *.
  rewrite ?Hpat. split_and!; [done| |done| |].
  - rewrite (Hskip Hm). by apply (none_skipped view localeCompare theirs ours hs x P).
  - rewrite <- Hred. symmetry. by apply reduce_same_patches.
  - intros w. rewrite Hf. destruct (ours !! w) as [tip|] eqn:Eo.
    + case_decide as Hw.
      * assert (last (of_writer w (all_missing js)) = None) as ->; [|done]. apply old_head. right. by rewrite Hw.
      * destruct (new_head view localeCompare theirs ours hs x P Hours Hbelow w tip Eo Hw) as (e & He & <-).
        change (jobs _ _ _ _) with js in He. by rewrite He.
    + assert (last (of_writer w (all_missing js)) = None) as ->; [|done]. apply old_head. by left.
Qed.

(** ** Samples *)

(** What the repository in memory answers about ancestry. *)
Fixpoint reaches (n : nat) (cs : gmap string (NodeInfo Memory.text)) (a : string) (cur : option string) : bool :=
  bool_decide (cur = Some a) ||
  match n, cur with
  | S n, Some sha => match cs !! sha with Some info => reaches n cs a (head (parents info)) | None => false end
  | _, _ => false
  end.
Definition memory_isAncestor (a b : string) : step Memory.world bool :=
  Memory.look (λ x, Ok (reaches (size (commits x)) (commits x) a (Some b))).

Lemma memory_reads : reads_answer (λ x : Memory.world, x).
Proof. split; intros x a b Hl; exists x; cbn; unfold Memory.look; by rewrite Hl. Qed.

(** A patch that adds one node. *)
Definition adds (w : string) (l : Z) (node : string) : Patch.Patch :=
  Patch.mk 2 w l (VersionVector.SVector VersionVector.empty)
    [RObject (Instance (ONodeAdd (NodeAdd.mk node (Dot.mk w l))))] None (Some [node]).

Definition sync_message (w : string) (l : Z) : PatchCommitMessage :=
  Message "g" w (JInt l) 2 (StorageHandle.mk (w +:+ num_to_string l)).

(** Two writers: one with two patches, one with one. *)
Definition replica : Memory.world := mkRepo ∅
  {["aaa1" := Node (Memory.Stored (sync_message "u" 1)) [];
    "aaa2" := Node (Memory.Stored (sync_message "u" 2)) ["aaa1"];
    "bbb1" := Node (Memory.Stored (sync_message "v" 1)) []]}
  {["u1" := adds "u" 1 "x"; "u2" := adds "u" 2 "y"; "v1" := adds "v" 1 "z"]}.

Definition replica_history (w : string) : history :=
  if String.eqb w "u" then History [("aaa2", sync_message "u" 2, adds "u" 2 "y"); ("aaa1", sync_message "u" 1, adds "u" 1 "x")] None
  else History [("bbb1", sync_message "v" 1, adds "v" 1 "z")] None.
Definition replica_frontier : gmap string string := {["u" := "aaa2"; "v" := "bbb1"]}.

Lemma replica_heads w tip : replica_frontier !! w = Some tip → (w = "u" ∧ tip = "aaa2") ∨ (w = "v" ∧ tip = "bbb1").
Proof.
  unfold replica_frontier. intros [[<- <-]|[_ [<- <-]%lookup_singleton_Some]]%lookup_insert_Some; auto.
Qed.

Lemma replica_has w tip : replica_frontier !! w = Some tip → has_history replica tip (replica_history w).
Proof.
  intros [[-> ->]|[-> ->]]%replica_heads; (split; [|by repeat constructor]); cbn.
  - apply chain_next with (Some "aaa1"); [|apply chain_next with None; [|apply chain_root]].
    + exists (Node (Memory.Stored (sync_message "u" 2)) ["aaa1"]). split_and!; reflexivity.
    + exists (Node (Memory.Stored (sync_message "u" 1)) []). split_and!; reflexivity.
  - apply chain_next with None; [|apply chain_root].
    exists (Node (Memory.Stored (sync_message "v" 1)) []). split_and!; reflexivity.
Qed.

Lemma chain_fits {M} `{CommitMessageCodec M} (cs : gmap string (NodeInfo M)) h l base :
  chain cs h l base → (length l <= size cs)%nat.
Proof.
  intros Hc. assert (NoDup l.*1 ∧ (list_to_set l.*1 : gset string) ⊆ dom cs) as [Hnd Hsub].
  { induction Hc as [| |sha m parent l base (info & Hl & Hrest) Hc [IH1 IH2]]; [split; [constructor|set_solver]..|].
    split.
    - csimpl. constructor; [|done]. intros Hin. apply list_elem_of_fmap in Hin as ([sha' m'] & Heq & Hin). cbn in Heq. subst sha'.
      destruct (list_elem_of_split _ _ Hin) as (l1 & l2 & ->). cbn [fst] in *.
      assert (chain cs (Some sha) (((sha, m) :: l1) ++ (sha, m') :: l2) base) as Hc'
        by (eapply chain_next; [by exists info|exact Hc]).
      by apply chain_no_return in Hc'.
    - csimpl. assert (sha ∈ dom cs) by (apply elem_of_dom; by eexists). set_solver. }
  apply subseteq_size in Hsub. rewrite size_list_to_set, length_fmap, size_dom in Hsub by done. exact Hsub.
Qed.

Lemma reaches_above n cs a h l base : chain cs h l base → (length l <= n)%nat →
  is_Some (above (Some a) l base) → reaches n cs a h = true.
Proof.
  intros Hc. revert n. induction Hc as [|sha info Hl Hne Hk|sha m parent l base (info & Hl & _ & _ & Hp & _) _ IH];
    intros n Hn Ha; cbn [above head_of] in Ha.
  - by destruct Ha.
  - case_decide as Hd; [|by destruct Ha]. destruct n; cbn [reaches]; by rewrite bool_decide_true.
  - destruct n as [|n]; [simpl in Hn; lia|]. cbn [reaches]. rewrite Hl, Hp. case_decide as Hd.
    + by rewrite bool_decide_true.
    + rewrite IH; [by rewrite orb_true_r|simpl in Hn; lia|]. destruct (above _ _ _); [by eexists|by destruct Ha].
Qed.

Lemma memory_ancestry : ancestry_ok (λ x : Memory.world, x) (Some memory_isAncestor).
Proof.
  intros isA [= <-] a b l base x Hc _. exists x. eexists. split; [reflexivity|]. split; [done|].
  intros Ha. by apply (reaches_above _ _ _ _ _ _ Hc (chain_fits _ _ _ _ Hc)).
Qed.

Lemma adds_deliverable w l node sha : str_nonempty w = true → (1 <= l)%Z → str_nonempty node = true →
  ident_ok node → valid_dot (Dot.mk w l) →
  is_ok (denote (Patch.like (adds w l node)) sha) = true → deliverable (adds w l node) sha.
Proof.
  intros Hw Hl Hn Hid Hdot Hd. split; [|split; [done|split]].
  - split; cbn; try done; [by left|lia|by rewrite Hn].
  - split; [|by intros k c Hk]. constructor; [|constructor]. by split.
  - destruct (denote _ _) as [d|]; [by exists d|done].
Qed.

Definition code_order (a b : string) : Z := if String.ltb a b then -1 else if String.eqb a b then 0 else 1.

(** A requester that has the first patch of [u]. *)
Definition asked (page : option SyncRequestPage) : SyncRequest := Request {["u" := "aaa1"]} page.
Definition answer (page : option SyncRequestPage) : Memory.world * result SyncResponse :=
  processSyncRequest code_order (Some memory_isAncestor) true true 3 (asked page) replica_frontier replica.
Definition shas (r : result SyncResponse) : list string :=
  match r with Ok r => se_sha <$> resp_patches r | Throw _ => [] end.

Lemma asked_known w f : req_frontier (asked None) !! w = Some f → w = "u" ∧ f = "aaa1".
Proof. intros Hw. cbn in Hw. by apply lookup_singleton_Some in Hw as [<- <-]. Qed.

Lemma replica_short w tip : replica_frontier !! w = Some tip → (length (h_log (replica_history w)) < 3)%nat.
Proof. intros [[-> ->]|[-> ->]]%replica_heads; cbn; lia. Qed.

Lemma sync_response_is_what_is_missing_witness :
  shas (answer (Some (RequestPage (JInt 1) None))).2 = ["aaa2"] ∧
  shas (answer (Some (RequestPage (JInt 1) (Some "1")))).2 = ["bbb1"] ∧
  ∃ resp pg, (answer (Some (RequestPage (JInt 1) None))).2 = Ok resp ∧ resp_page resp = Some pg ∧
    hasMore pg = true ∧ cursor pg = Some "1".
Proof.
  split; [vm_compute; reflexivity|]. split; [vm_compute; reflexivity|].
  destruct (sync_response_is_what_is_missing (M := Memory.text) (λ x : Memory.world, x) code_order (Some memory_isAncestor) 3
    (asked (Some (RequestPage (JInt 1) None))) (Page (Some 1%Z) 0) replica_frontier replica_history replica)
    as (x' & resp & pg & Hrun & _ & _ & _ & Hpg & Hmore & Hcur & _).
  - exact memory_reads.
  - exact memory_ancestry.
  - reflexivity.
  - intros w tip Ho. split; [by apply replica_has|by apply (replica_short w tip)].
  - intros w f [-> ->]%asked_known _. eexists. reflexivity.
  - exists resp, pg. unfold answer. rewrite Hrun. split; [reflexivity|]. split; [exact Hpg|].
    assert (hasMore pg = true) as Hm by (apply Hmore; vm_compute; reflexivity).
    split; [exact Hm|]. rewrite Hcur, Hm. reflexivity.
Defined.

(** The requester has applied the first patch of [u] and one of its own. *)
Definition own_patches : list JoinReducer.sha_patch :=
  [(Patch.like (adds "u" 1 "x"), "aaa1"); (Patch.like (adds "w" 1 "mine"), "ccc1")].
Definition own_state : State :=
  match JoinReducer.reducePatches own_patches None None with
  | Ok (JoinReducer.RState s) => s
  | _ => JoinReducer.createEmptyState
  end.

Lemma replica_deliverable w tip ep : replica_frontier !! w = Some tip → ep ∈ h_log (replica_history w) →
  deliverable ep.2 ep.1.1.
Proof.
  intros [[-> ->]|[-> ->]]%replica_heads Hep; cbn in Hep; repeat (apply elem_of_cons in Hep as [->|Hep]);
    [..|by apply not_elem_of_nil in Hep| |by apply not_elem_of_nil in Hep];
    (apply adds_deliverable; [done|lia|done|done|done|vm_compute; reflexivity]).
Qed.

Lemma sync_catches_up_witness :
  shas (answer None).2 = ["aaa2"; "bbb1"] ∧
  ∃ resp s' f' n, (answer None).2 = Ok resp ∧ applySyncResponse resp own_state {["u" := "aaa1"]} = Ok (Applied s' f' n) ∧
    f' !! "u" = Some "aaa2" ∧ f' !! "v" = Some "bbb1" ∧
    JoinReducer.reducePatches (own_patches ++ all_of_chains replica_frontier replica_history) None None
      = Ok (JoinReducer.RState s').
Proof.
  split; [vm_compute; reflexivity|].
  destruct (sync_catches_up (M := Memory.text) (λ x : Memory.world, x) code_order (Some memory_isAncestor) 3
    (asked None) replica_frontier replica_history replica own_patches own_state {["u" := "aaa1"]})
    as (x' & resp & s' & f' & Hrun & _ & _ & Happ & Hred & Hf).
  - exact memory_reads.
  - exact memory_ancestry.
  - reflexivity.
  - exact replica_short.
  - intros w tip Ho. split; [by apply replica_has|]. split.
    + by destruct (replica_heads w tip Ho) as [[-> ->]|[-> ->]].
    + intros ep. by apply (replica_deliverable w tip).
  - intros w tip g _ [-> ->]%asked_known.
    exists [("aaa2", sync_message "u" 2, adds "u" 2 "y")], [("aaa1", sync_message "u" 1, adds "u" 1 "x")].
    split; [reflexivity|]. split; [reflexivity|]. intros ep ->%list_elem_of_singleton. apply elem_of_cons. by left.
  - constructor; [|constructor; [|constructor]]; (split; [|by intros k c Hk]); (constructor; [by split|constructor]).
  - exists (match denotes own_patches with Ok ds => ds | Throw _ => [] end). vm_compute. reflexivity.
  - intros p q sha Hp Hq. revert Hp Hq.
    assert (own_patches ++ all_of_chains replica_frontier replica_history =
      own_patches ++ [(Patch.like (adds "u" 2 "y"), "aaa2"); (Patch.like (adds "u" 1 "x"), "aaa1");
        (Patch.like (adds "v" 1 "z"), "bbb1")]) as -> by reflexivity.
    unfold own_patches. cbn [app]. rewrite !elem_of_cons, !elem_of_nil. intros Hp Hq.
    destruct_or!; try done; simplify_eq; done.
  - vm_compute. reflexivity.
  - exists resp, s', f'. eexists. unfold answer. rewrite Hrun. split; [reflexivity|]. split; [exact Happ|].
    split; [rewrite Hf; reflexivity|]. split; [rewrite Hf; reflexivity|exact Hred].
Defined.

(** ** A write after a sync *)

(** What another writer did: a node with a name, at Lamport time 5. *)
Definition named_there : SyncResponse :=
  let patch := Patch.mk 2 "v" 5 (VersionVector.SVector VersionVector.empty)
    [RObject (Instance (ONodeAdd (NodeAdd.mk "x" (Dot.mk "v" 1))));
     RObject (Instance (OPropSet (PropSet.mk "x" "name" (JStr "theirs"))))] None (Some ["x"]) in
  Response {["v" := "bbb1"]} [PatchOf "v" "bbb1" (decoded_of patch)] [] None.

(** A host that was materialized on an empty repository. *)
Definition fresh_host : Host :=
  mkHost "g" "w" 2 {[0%N := VersionVector.empty]} {[1%N := JoinReducer.createEmptyState]} 0 (Some 1%N)
    false 0 false 0 PatchBuilder.warn true false None None None None 0.

Definition name_of (h : Host) : option jsval :=
  match _cachedState h with
  | Some a => LWW.value <$> WarpState.getNodeProp (state_of h a) "x" "name"
  | None => None
  end.


(** ** A head that the responder does not have *)

(** Git fails on a commit that it does not have; it does not answer no. *)
Definition git_isAncestor (a b : string) : step Memory.world bool := λ x,
  match commits x !! a with
  | Some _ => memory_isAncestor a b x
  | None => (x, Throw (Err "GitPlumbingError" "128"))
  end.

Lemma git_ancestry : ancestry_ok (λ x : Memory.world, x) (Some git_isAncestor).
Proof.
  intros isA [= <-] a b l base x Hc Hk. unfold git_isAncestor. destruct (commits x !! a) as [info|] eqn:E; [|by destruct Hk].
  apply (memory_ancestry _ eq_refl a b l base x Hc). by exists info.
Qed.

(** The requester is ahead for its writer [v], and behind for [u]. *)
Definition ahead : SyncRequest := Request {["u" := "aaa1"; "v" := "ffff"]} None.

