(* ===== verification/Trust.v ===== *)
(** Trust: the signed records ([trust/TrustRecord.ts]), the state that a log of
    them builds ([trust/TrustStateBuilder.ts]), the evaluation of writers
    ([trust/TrustEvaluator.ts], [TrustAssessment.ts], [verdict.ts],
    [services/audit/TrustEvaluationService.ts]), appending to the log
    ([trust/TrustRecordService.ts]), and the gate that the runtime builds for
    synchronization ([domain/RuntimeHost.ts], [domain/runtimeHelpers.ts]). *)
From S2P Require Export Sync.
#[local] Open Scope string_scope.
#[local] Open Scope list_scope.

Definition TrustError (code : string) : error := Err "TrustError" code.

(** ** Records *)

Module TrustRecord.

(* @src domain/trust/TrustRecord.ts RECORD_TYPES *)
Definition RECORD_TYPES : list string := ["KEY_ADD"; "KEY_REVOKE"; "WRITER_BIND_ADD"; "WRITER_BIND_REVOKE"].

(** The subject of a record, which tells the type of the record too. *)
(* @src domain/trust/TrustRecord.ts TrustSubject 24-45 *)
Inductive TrustSubject :=
  | KeyAdd (keyId publicKey : string)
  | KeyRevoke (keyId reasonCode : string)
  | WriterBindAdd (writerId keyId : string)
  | WriterBindRevoke (writerId keyId reasonCode : string).

(* @src domain/trust/TrustRecord.ts TrustSignature 49-52 *)
Record TrustSignature := Signature { alg : string; sig : string }.

(** What the adapter has decoded; a field is [None] where it is not a text. The
    meta data is left out. *)
(* @src domain/trust/TrustRecord.ts DecodedTrustRecord 56-67 *)
Record DecodedTrustRecord := Decoded {
  d_schemaVersion : jsnum;
  d_recordType : string;
  d_recordId : string;
  d_issuerKeyId : string;
  d_issuedAt : string;
  d_prev : option string;
  d_subject : gmap string (option string);
  d_alg : string;
  d_sig : option string;
  d_signaturePayload : string }.

(* @src domain/trust/TrustRecord.ts TrustRecord 131-165 *)
Record TrustRecord := mk {
  recordId : string;
  issuerKeyId : string;
  issuedAt : string;
  prev : option string;
  subject : TrustSubject;
  signature : TrustSignature;
  signaturePayload : string }.

(** The type of a record is that of its subject. *)
Definition recordType (r : TrustRecord) : string :=
  match subject r with
  | KeyAdd _ _ => "KEY_ADD"
  | KeyRevoke _ _ => "KEY_REVOKE"
  | WriterBindAdd _ _ => "WRITER_BIND_ADD"
  | WriterBindRevoke _ _ _ => "WRITER_BIND_REVOKE"
  end.

Definition record_invalid : error := TrustError "E_TRUST_RECORD_INVALID".

(* @src domain/trust/TrustRecord.ts requireString *)
Definition requireString (obj : gmap string (option string)) (key : string) : result string :=
  match obj !! key with
  | Some (Some val) => if str_nonempty val then Ok val else Throw record_invalid
  | _ => Throw record_invalid
  end.

(* @src domain/trust/TrustRecord.ts validateKeyAddSubject *)
Definition validateKeyAddSubject (subj : gmap string (option string)) : result TrustSubject :=
  k ← requireString subj "keyId"; p ← requireString subj "publicKey"; Ok (KeyAdd k p).
(* @src domain/trust/TrustRecord.ts validateKeyRevokeSubject *)
Definition validateKeyRevokeSubject (subj : gmap string (option string)) : result TrustSubject :=
  k ← requireString subj "keyId"; c ← requireString subj "reasonCode"; Ok (KeyRevoke k c).
(* @src domain/trust/TrustRecord.ts validateBindAddSubject *)
Definition validateBindAddSubject (subj : gmap string (option string)) : result TrustSubject :=
  w ← requireString subj "writerId"; k ← requireString subj "keyId"; Ok (WriterBindAdd w k).
(* @src domain/trust/TrustRecord.ts validateBindRevokeSubject *)
Definition validateBindRevokeSubject (subj : gmap string (option string)) : result TrustSubject :=
  w ← requireString subj "writerId"; k ← requireString subj "keyId"; c ← requireString subj "reasonCode";
  Ok (WriterBindRevoke w k c).

(* @src domain/trust/TrustRecord.ts validateSubject *)
Definition validateSubject (recordType : string) (subj : gmap string (option string)) : result TrustSubject :=
  if String.eqb recordType "KEY_ADD" then validateKeyAddSubject subj
  else if String.eqb recordType "KEY_REVOKE" then validateKeyRevokeSubject subj
  else if String.eqb recordType "WRITER_BIND_ADD" then validateBindAddSubject subj
  else if String.eqb recordType "WRITER_BIND_REVOKE" then validateBindRevokeSubject subj
  else Throw record_invalid.

(* @src domain/trust/TrustRecord.ts validateSignature *)
Definition validateSignature (alg : string) (sig : option string) : result TrustSignature :=
  _ ← require (String.eqb alg "ed25519") record_invalid;
  match sig with
  | Some sig => if str_nonempty sig then Ok (Signature "ed25519" sig) else Throw (TrustError "E_TRUST_SIGNATURE_MISSING")
  | None => Throw (TrustError "E_TRUST_SIGNATURE_MISSING")
  end.

(* @src domain/trust/TrustRecord.ts fromDecoded *)
Definition fromDecoded (input : DecodedTrustRecord) : result TrustRecord :=
  _ ← require (bool_decide (d_schemaVersion input = JInt 1)) record_invalid;
  _ ← require (bool_decide (d_recordType input ∈ RECORD_TYPES)) record_invalid;
  subject ← validateSubject (d_recordType input) (d_subject input);
  signature ← validateSignature (d_alg input) (d_sig input);
  Ok (mk (d_recordId input) (d_issuerKeyId input) (d_issuedAt input) (d_prev input) subject signature
    (d_signaturePayload input)).
End TrustRecord.

(** ** The state that a log builds *)

Module TrustState.
Import TrustRecord.

(* @src domain/trust/TrustStateBuilder.ts ActiveKeyInfo 20-20 *)
Record ActiveKeyInfo := ActiveKey { ak_publicKey : string; addedAt : string }.
(* @src domain/trust/TrustStateBuilder.ts RevokedKeyInfo 21-21 *)
Record RevokedKeyInfo := RevokedKey { rk_publicKey : string; rk_revokedAt : string; rk_reasonCode : string }.
(* @src domain/trust/TrustStateBuilder.ts BindingInfo 22-22 *)
Record BindingInfo := Binding { b_keyId : string; boundAt : string }.
(* @src domain/trust/TrustStateBuilder.ts RevokedBindingInfo 23-23 *)
Record RevokedBindingInfo := RevokedBinding { rb_keyId : string; rb_revokedAt : string; rb_reasonCode : string }.

(** What the texts of the errors say. *)
Inductive problem :=
  | FingerprintMismatch | FingerprintFailed | UnknownIssuer | SignatureInvalid | SignatureFailed
  | ReaddRevokedKey | DuplicateKey | KeyAlreadyRevoked | RevokeUnknownKey
  | BindRevokedKey | BindUnknownKey | RevokeMissingBinding.

(* @src domain/trust/TrustStateBuilder.ts BuildError 24-24 *)
Record BuildError := Problem { be_recordId : string; be_error : problem }.

(** What is gathered while the log is read. *)
(* @src domain/trust/TrustStateBuilder.ts TrustBuildContext 276-283 *)
Record TrustBuildContext := Context_ {
  c_activeKeys : gmap string ActiveKeyInfo;
  c_revokedKeys : gmap string RevokedKeyInfo;
  c_writerBindings : gmap string BindingInfo;
  c_revokedBindings : gmap string RevokedBindingInfo;
  c_errors : list BuildError }.

(* @src domain/trust/TrustStateBuilder.ts TrustState 32-56 *)
Record TrustState := mk {
  activeKeys : gmap string ActiveKeyInfo;
  revokedKeys : gmap string RevokedKeyInfo;
  writerBindings : gmap string BindingInfo;
  revokedBindings : gmap string RevokedBindingInfo;
  errors : list BuildError;
  recordsProcessed : Z }.

(* @src domain/trust/TrustStateBuilder.ts TRUST_STATE_INVALID_CODE *)
Definition TRUST_STATE_INVALID : error := TrustError "E_TRUST_STATE_INVALID".

(* @src domain/trust/TrustStateBuilder.ts BINDING_KEY_SEPARATOR *)
Definition BINDING_KEY_SEPARATOR : ascii := "000"%char.

(** [/^ed25519:[a-f0-9]{64}$/] *)
(* @src domain/trust/TrustStateBuilder.ts KEY_ID_PATTERN *)
Definition key_id (s : string) : bool :=
  let l := String.list_ascii_of_string s in
  bool_decide (take 8 l = String.list_ascii_of_string "ed25519:") &&
  (length l =? 72)%nat && forallb EventId.is_hex (drop 8 l).

(* @src domain/trust/TrustStateBuilder.ts assertNonEmptyString *)
Definition assertNonEmptyString (value : string) : result unit := require (str_nonempty value) TRUST_STATE_INVALID.

(* @src domain/trust/TrustStateBuilder.ts assertKeyId *)
Definition assertKeyId (keyId : string) : result unit :=
  _ ← assertNonEmptyString keyId; require (key_id keyId) TRUST_STATE_INVALID.

(* @src domain/trust/TrustStateBuilder.ts assertWriterId *)
Definition assertWriterId (writerId : string) : result unit :=
  _ ← assertNonEmptyString writerId;
  require (negb (str_includes BINDING_KEY_SEPARATOR writerId)) TRUST_STATE_INVALID.

(* @src domain/trust/TrustStateBuilder.ts assertRecordCount *)
Definition assertRecordCount (recordsProcessed : Z) : result unit :=
  require (0 <=? recordsProcessed)%Z TRUST_STATE_INVALID.

(* @src domain/trust/TrustStateBuilder.ts encodeBindingKey *)
Definition encodeBindingKey (writerId keyId : string) : result string :=
  _ ← assertWriterId writerId; _ ← assertKeyId keyId;
  Ok (writerId +:+ String BINDING_KEY_SEPARATOR keyId).

(** Exactly one separator, and not at the start. *)
(* @src domain/trust/TrustStateBuilder.ts parseBindingKey *)
Definition parseBindingKey (bindingKey : string) : result (string * string) :=
  _ ← assertNonEmptyString bindingKey;
  match str_split BINDING_KEY_SEPARATOR bindingKey with
  | [writerId; keyId] =>
      _ ← require (str_nonempty writerId) TRUST_STATE_INVALID;
      _ ← assertWriterId writerId; _ ← assertKeyId keyId;
      Ok (writerId, keyId)
  | _ => Throw TRUST_STATE_INVALID
  end.

(* @src domain/trust/TrustStateBuilder.ts assertMatchingBindingKey *)
Definition assertMatchingBindingKey (encodedKeyId valueKeyId : string) : result unit :=
  require (String.eqb encodedKeyId valueKeyId) TRUST_STATE_INVALID.

(* @src domain/trust/TrustStateBuilder.ts freezeActiveKeyInfo *)
Definition freezeActiveKeyInfo (info : ActiveKeyInfo) : result ActiveKeyInfo :=
  _ ← assertNonEmptyString (ak_publicKey info); _ ← assertNonEmptyString (addedAt info); Ok info.
(* @src domain/trust/TrustStateBuilder.ts freezeRevokedKeyInfo *)
Definition freezeRevokedKeyInfo (info : RevokedKeyInfo) : result RevokedKeyInfo :=
  _ ← assertNonEmptyString (rk_publicKey info); _ ← assertNonEmptyString (rk_revokedAt info);
  _ ← assertNonEmptyString (rk_reasonCode info); Ok info.
(* @src domain/trust/TrustStateBuilder.ts freezeBindingInfo *)
Definition freezeBindingInfo (info : BindingInfo) : result BindingInfo :=
  _ ← assertKeyId (b_keyId info); _ ← assertNonEmptyString (boundAt info); Ok info.
(* @src domain/trust/TrustStateBuilder.ts freezeRevokedBindingInfo *)
Definition freezeRevokedBindingInfo (info : RevokedBindingInfo) : result RevokedBindingInfo :=
  _ ← assertKeyId (rb_keyId info); _ ← assertNonEmptyString (rb_revokedAt info);
  _ ← assertNonEmptyString (rb_reasonCode info); Ok info.

(** A copy of a map whose entries pass a check; all checks throw the same. *)
Definition copy_map {V} (check : string → V → result V) (source : gmap string V) : result (gmap string V) :=
  _ ← map_result (λ '(k, v), check k v) (map_to_list source); Ok source.

(* @src domain/trust/TrustStateBuilder.ts copyActiveKeys *)
Definition copyActiveKeys : gmap string ActiveKeyInfo → result (gmap string ActiveKeyInfo) :=
  copy_map (λ keyId info, _ ← assertKeyId keyId; freezeActiveKeyInfo info).
(* @src domain/trust/TrustStateBuilder.ts copyRevokedKeys *)
Definition copyRevokedKeys : gmap string RevokedKeyInfo → result (gmap string RevokedKeyInfo) :=
  copy_map (λ keyId info, _ ← assertKeyId keyId; freezeRevokedKeyInfo info).
(* @src domain/trust/TrustStateBuilder.ts copyWriterBindings *)
Definition copyWriterBindings : gmap string BindingInfo → result (gmap string BindingInfo) :=
  copy_map (λ bindingKey info, parsed ← parseBindingKey bindingKey; frozen ← freezeBindingInfo info;
    _ ← assertMatchingBindingKey parsed.2 (b_keyId frozen); Ok frozen).
(* @src domain/trust/TrustStateBuilder.ts copyRevokedBindings *)
Definition copyRevokedBindings : gmap string RevokedBindingInfo → result (gmap string RevokedBindingInfo) :=
  copy_map (λ bindingKey info, parsed ← parseBindingKey bindingKey; frozen ← freezeRevokedBindingInfo info;
    _ ← assertMatchingBindingKey parsed.2 (rb_keyId frozen); Ok frozen).

(* @src domain/trust/TrustStateBuilder.ts copyBuildErrors *)
Definition copyBuildErrors (errors : list BuildError) : result (list BuildError) :=
  map_result (λ error, _ ← assertNonEmptyString (be_recordId error); Ok error) errors.

(* @src domain/trust/TrustStateBuilder.ts constructor *)
Definition new (c : TrustBuildContext) (recordsProcessed : Z) : result TrustState :=
  activeKeys ← copyActiveKeys (c_activeKeys c);
  revokedKeys ← copyRevokedKeys (c_revokedKeys c);
  writerBindings ← copyWriterBindings (c_writerBindings c);
  revokedBindings ← copyRevokedBindings (c_revokedBindings c);
  errors ← copyBuildErrors (c_errors c);
  _ ← assertRecordCount recordsProcessed;
  Ok (mk activeKeys revokedKeys writerBindings revokedBindings errors recordsProcessed).

(* @src domain/trust/TrustStateBuilder.ts hasActiveKey *)
Definition hasActiveKey (keyId : string) (s : TrustState) : result bool :=
  _ ← assertKeyId keyId; Ok (bool_decide (is_Some (activeKeys s !! keyId))).

(** A binding, if it is one of the writer. *)
Definition binding_of (writerId : string) (entry : string * BindingInfo) : result (option BindingInfo) :=
  parsed ← parseBindingKey entry.1;
  Ok (if String.eqb parsed.1 writerId then Some entry.2 else None).

(** In the order of the map. *)
(* @src domain/trust/TrustStateBuilder.ts getBindingsForWriter *)
Definition getBindingsForWriter (writerId : string) (s : TrustState) : result (list BindingInfo) :=
  _ ← assertWriterId writerId;
  found ← map_result (binding_of writerId) (map_to_list (writerBindings s));
  Ok (omap (λ b, b) (found : list (option BindingInfo))).

Fixpoint any_of_writer (writerId : string) (bindingKeys : list string) : result bool :=
  match bindingKeys with
  | [] => Ok false
  | bindingKey :: bindingKeys =>
      parsed ← parseBindingKey bindingKey;
      if String.eqb parsed.1 writerId then Ok true else any_of_writer writerId bindingKeys
  end.

(* @src domain/trust/TrustStateBuilder.ts hasRevokedBindingsForWriter *)
Definition hasRevokedBindingsForWriter (writerId : string) (s : TrustState) : result bool :=
  _ ← assertWriterId writerId;
  any_of_writer writerId (map_to_list (revokedBindings s)).*1.
End TrustState.

Module TrustStateBuilder.
Import TrustRecord TrustState.

(** The crypto that may be given; both functions may throw. *)
(* @src domain/trust/TrustStateBuilder.ts TrustBuildOptions 269-272 *)
Record TrustBuildOptions := Options {
  signatureVerifier : option (TrustRecord → string → result bool);
  computeKeyFingerprint : option (string → result string) }.

Definition the_context : step TrustBuildContext TrustBuildContext := λ c, (c, Ok c).

Definition report (recordId : string) (p : problem) : step TrustBuildContext unit := λ c,
  (Context_ (c_activeKeys c) (c_revokedKeys c) (c_writerBindings c) (c_revokedBindings c)
    (c_errors c ++ [Problem recordId p]), Ok ()).

Definition set_keys (active : gmap string ActiveKeyInfo) (revoked : gmap string RevokedKeyInfo)
    : step TrustBuildContext unit := λ c,
  (Context_ active revoked (c_writerBindings c) (c_revokedBindings c) (c_errors c), Ok ()).

Definition set_bindings (active : gmap string BindingInfo) (revoked : gmap string RevokedBindingInfo)
    : step TrustBuildContext unit := λ c,
  (Context_ (c_activeKeys c) (c_revokedKeys c) active revoked (c_errors c), Ok ()).

(* @src domain/trust/TrustStateBuilder.ts validateFingerprint *)
Definition validateFingerprint (keyId publicKey recordId : string) (compute : string → result string)
    : step TrustBuildContext bool :=
  match compute publicKey with
  | Ok expected =>
      if String.eqb expected keyId then mret true
      else _ ← report recordId FingerprintMismatch; mret false
  | Throw _ => _ ← report recordId FingerprintFailed; mret false
  end.

(* @src domain/trust/TrustStateBuilder.ts resolveIssuerKey *)
Definition resolveIssuerKey (rec : TrustRecord) (activeKeys : gmap string ActiveKeyInfo) : option string :=
  let found := match activeKeys !! issuerKeyId rec with
    | Some info => if str_nonempty (ak_publicKey info) then Some (ak_publicKey info) else None
    | None => None
    end in
  match subject rec with
  | KeyAdd keyId publicKey => if String.eqb (issuerKeyId rec) keyId then Some publicKey else found
  | _ => found
  end.

(* @src domain/trust/TrustStateBuilder.ts validateCryptography *)
Definition validateCryptography (options : TrustBuildOptions) (rec : TrustRecord) : step TrustBuildContext bool :=
  fits ← match computeKeyFingerprint options, subject rec with
    | Some compute, KeyAdd keyId publicKey => validateFingerprint keyId publicKey (recordId rec) compute
    | _, _ => mret true
    end;
  if negb fits then mret false
  else match signatureVerifier options with
    | None => mret true
    | Some verify =>
        ctx ← the_context;
        match resolveIssuerKey rec (c_activeKeys ctx) with
        | None => _ ← report (recordId rec) UnknownIssuer; mret false
        | Some issuerPk =>
            match verify rec issuerPk with
            | Ok true => mret true
            | Ok false => _ ← report (recordId rec) SignatureInvalid; mret false
            | Throw _ => _ ← report (recordId rec) SignatureFailed; mret false
            end
        end
    end.

(* @src domain/trust/TrustStateBuilder.ts handleKeyAdd *)
Definition handleKeyAdd (keyId publicKey issuedAt recordId : string) : step TrustBuildContext unit :=
  ctx ← the_context;
  if bool_decide (is_Some (c_revokedKeys ctx !! keyId)) then report recordId ReaddRevokedKey
  else if bool_decide (is_Some (c_activeKeys ctx !! keyId)) then report recordId DuplicateKey
  else set_keys (<[keyId := ActiveKey publicKey issuedAt]> (c_activeKeys ctx)) (c_revokedKeys ctx).

(* @src domain/trust/TrustStateBuilder.ts handleKeyRevoke *)
Definition handleKeyRevoke (keyId reasonCode issuedAt recordId : string) : step TrustBuildContext unit :=
  ctx ← the_context;
  if bool_decide (is_Some (c_revokedKeys ctx !! keyId)) then report recordId KeyAlreadyRevoked
  else match c_activeKeys ctx !! keyId with
    | None => report recordId RevokeUnknownKey
    | Some keyInfo =>
        set_keys (delete keyId (c_activeKeys ctx))
          (<[keyId := RevokedKey (ak_publicKey keyInfo) issuedAt reasonCode]> (c_revokedKeys ctx))
    end.

(* @src domain/trust/TrustStateBuilder.ts handleBindAdd *)
Definition handleBindAdd (writerId keyId issuedAt recordId : string) : step TrustBuildContext unit :=
  bindingKey ← lift (encodeBindingKey writerId keyId);
  ctx ← the_context;
  if bool_decide (is_Some (c_revokedKeys ctx !! keyId)) then report recordId BindRevokedKey
  else if negb (bool_decide (is_Some (c_activeKeys ctx !! keyId))) then report recordId BindUnknownKey
  else set_bindings (<[bindingKey := Binding keyId issuedAt]> (c_writerBindings ctx)) (c_revokedBindings ctx).

(* @src domain/trust/TrustStateBuilder.ts handleBindRevoke *)
Definition handleBindRevoke (writerId keyId reasonCode issuedAt recordId : string) : step TrustBuildContext unit :=
  bindingKey ← lift (encodeBindingKey writerId keyId);
  ctx ← the_context;
  match c_writerBindings ctx !! bindingKey with
  | None => report recordId RevokeMissingBinding
  | Some _ =>
      set_bindings (delete bindingKey (c_writerBindings ctx))
        (<[bindingKey := RevokedBinding keyId issuedAt reasonCode]> (c_revokedBindings ctx))
  end.

(* @src domain/trust/TrustStateBuilder.ts processRecord *)
Definition processRecord (options : TrustBuildOptions) (rec : TrustRecord) : step TrustBuildContext unit :=
  valid ← validateCryptography options rec;
  if negb valid then mret ()
  else match subject rec with
    | KeyAdd keyId publicKey => handleKeyAdd keyId publicKey (issuedAt rec) (recordId rec)
    | KeyRevoke keyId reasonCode => handleKeyRevoke keyId reasonCode (issuedAt rec) (recordId rec)
    | WriterBindAdd writerId keyId => handleBindAdd writerId keyId (issuedAt rec) (recordId rec)
    | WriterBindRevoke writerId keyId reasonCode =>
        handleBindRevoke writerId keyId reasonCode (issuedAt rec) (recordId rec)
    end.

Definition no_context : TrustBuildContext := Context_ ∅ ∅ ∅ ∅ [].

(* @src domain/trust/TrustStateBuilder.ts buildState *)
Definition buildState (options : TrustBuildOptions) (records : list TrustRecord) : result TrustState :=
  match for_each (processRecord options) records no_context with
  | (ctx, Ok _) => TrustState.new ctx (Z.of_nat (length records))
  | (_, Throw e) => Throw e
  end.
End TrustStateBuilder.

(** ** Assessments *)

Module TrustAssessment.

(* @src domain/trust/TrustAssessment.ts TrustStatus 16-16 *)
Inductive TrustStatus := configured | pinned | status_error | not_configured.
(* @src domain/trust/verdict.ts TrustVerdict 18-18 *)
Inductive TrustVerdict := pass | fail | verdict_not_configured.

(** The registry of reasons. *)
(* @src domain/trust/reasonCodes.ts TRUST_REASON_CODES 11-41 *)
Inductive TrustReasonCode :=
  | WRITER_BOUND_TO_ACTIVE_KEY
  | WRITER_HAS_NO_ACTIVE_BINDING | WRITER_BOUND_KEY_REVOKED | BINDING_REVOKED | KEY_UNKNOWN
  | TRUST_REF_MISSING | TRUST_PIN_INVALID | TRUST_RECORD_SCHEMA_INVALID | TRUST_SIGNATURE_INVALID
  | TRUST_RECORD_CHAIN_INVALID | TRUST_POLICY_INVALID.

(** The text of the reason is left out. *)
(* @src domain/trust/schemas.ts TrustExplanationSchema *)
Record TrustExplanation := Explain { e_writerId : string; trusted : bool; reasonCode : TrustReasonCode }.

(* @src domain/trust/schemas.ts EvidenceSummarySchema *)
Record EvidenceSummary := Evidence {
  recordsScanned : Z; n_activeKeys : Z; n_revokedKeys : Z; n_activeBindings : Z; n_revokedBindings : Z }.
Definition no_evidence : EvidenceSummary := Evidence 0 0 0 0 0.

(* @src domain/trust/TrustAssessment.ts TrustDetail 21-29 *)
Record TrustDetail := Detail {
  status : TrustStatus;
  source : string;
  sourceDetail : option string;
  evaluatedWriters : list string;
  untrustedWriters : list string;
  explanations : list TrustExplanation;
  evidenceSummary : EvidenceSummary }.

(* @src domain/trust/verdict.ts deriveTrustVerdict *)
Definition deriveTrustVerdict (status : TrustStatus) (untrustedWriters : list string) : TrustVerdict :=
  match status, untrustedWriters with
  | not_configured, _ => verdict_not_configured
  | status_error, _ => fail
  | _, _ :: _ => fail
  | _, [] => pass
  end.

(* @src domain/trust/TrustAssessment.ts TrustAssessment 33-50 *)
Record TrustAssessment := mk { trustVerdict : TrustVerdict; trust : TrustDetail }.

(* @src domain/trust/TrustAssessment.ts constructor *)
Definition new (detail : TrustDetail) : TrustAssessment :=
  mk (deriveTrustVerdict (status detail) (untrustedWriters detail)) detail.
End TrustAssessment.

Module TrustEvaluator.
Import TrustState TrustAssessment.

(* @src domain/trust/schemas.ts TrustPolicySchema *)
Record TrustPolicy := Policy { p_schemaVersion : jsnum; p_mode : string; writerPolicy : string }.

(** [TrustPolicySchema.safeParse(policy).success] *)
Definition policy_parses (p : TrustPolicy) : bool :=
  bool_decide (p_schemaVersion p = JInt 1) && (String.eqb (p_mode p) "warn" || String.eqb (p_mode p) "enforce") &&
  String.eqb (writerPolicy p) "all_writers_must_be_trusted".

(* @src domain/trust/TrustEvaluator.ts buildEvidenceSummary *)
Definition buildEvidenceSummary (state : TrustState) : EvidenceSummary :=
  Evidence (recordsProcessed state) (Z.of_nat (size (activeKeys state))) (Z.of_nat (size (revokedKeys state)))
    (Z.of_nat (size (writerBindings state))) (Z.of_nat (size (revokedBindings state))).

Fixpoint any_active (keyIds : list string) (state : TrustState) : result bool :=
  match keyIds with
  | [] => Ok false
  | keyId :: keyIds => active ← hasActiveKey keyId state; if (active : bool) then Ok true else any_active keyIds state
  end.

(* @src domain/trust/TrustEvaluator.ts evaluateSingleWriter *)
Definition evaluateSingleWriter (writerId : string) (state : TrustState) : result TrustExplanation :=
  bindings ← getBindingsForWriter writerId state;
  let activeKeyIds := b_keyId <$> bindings in
  match activeKeyIds with
  | [] =>
      revoked ← hasRevokedBindingsForWriter writerId state;
      Ok (Explain writerId false (if (revoked : bool) then BINDING_REVOKED else WRITER_HAS_NO_ACTIVE_BINDING))
  | _ =>
      active ← any_active activeKeyIds state;
      Ok (if (active : bool) then Explain writerId true WRITER_BOUND_TO_ACTIVE_KEY
          else Explain writerId false WRITER_BOUND_KEY_REVOKED)
  end.

(* @src domain/trust/TrustEvaluator.ts buildInvalidWriterExplanation *)
Definition buildInvalidWriterExplanation (writerId : string) : TrustExplanation :=
  Explain writerId false WRITER_HAS_NO_ACTIVE_BINDING.

(* @src domain/trust/TrustEvaluator.ts evaluateSingleWriterSafely *)
Definition evaluateSingleWriterSafely (writerId : string) (state : TrustState) : result TrustExplanation :=
  match evaluateSingleWriter writerId state with
  | Ok e => Ok e
  | Throw err => if String.eqb (err_class err) "TrustError" then Ok (buildInvalidWriterExplanation writerId) else Throw err
  end.

(* @src domain/trust/TrustEvaluator.ts failAll *)
Definition failAll (writers : list string) (reasonCode : TrustReasonCode) : list TrustExplanation :=
  match writers with
  | [] => [Explain "*" false reasonCode]
  | _ => (λ writerId, Explain writerId false reasonCode) <$> writers
  end.

Definition untrusted (explanations : list TrustExplanation) : list string :=
  e_writerId <$> filter (λ e, trusted e = false) explanations.

(* @src domain/trust/TrustEvaluator.ts evaluateWriters *)
Definition evaluateWriters (writerIds : list string) (trustState : TrustState) (policy : TrustPolicy)
    : result TrustAssessment :=
  let sorted := js_sort compareStrings writerIds in
  if negb (policy_parses policy) then
    Ok (TrustAssessment.new (Detail status_error "none" None sorted sorted (failAll sorted TRUST_POLICY_INVALID) no_evidence))
  else if bool_decide (errors trustState ≠ []) then
    Ok (TrustAssessment.new (Detail status_error "ref" None sorted sorted (failAll sorted TRUST_RECORD_CHAIN_INVALID)
      (buildEvidenceSummary trustState)))
  else
    explanations ← map_result (λ w, evaluateSingleWriterSafely w trustState) sorted;
    Ok (TrustAssessment.new (Detail configured "ref" None sorted (untrusted explanations) explanations
      (buildEvidenceSummary trustState))).
End TrustEvaluator.

(** ** Appending to the log *)

(** The port of the chain: its tip with the id of the record there, and a publication
    that expects a tip. *)
(* @src ports/TrustChainPort.ts TrustChainPort 38-72 *)
Class TrustChain (X : Type) := {
  readTip : step X (option (string * option string));
  persistRecord : TrustRecord.TrustRecord → option string → step X string }.

Module TrustRecordService.
Import TrustRecord.
Section service.
Context {X : Type} `{!TrustChain X}.

(* @src domain/trust/TrustRecordService.ts verifySignatureEnvelope *)
Definition verifySignatureEnvelope (record : TrustRecord) : result unit :=
  _ ← require (String.eqb (alg (signature record)) "ed25519") (TrustError "E_TRUST_SIGNATURE_MISSING");
  require (str_nonempty (sig (signature record))) (TrustError "E_TRUST_SIGNATURE_MISSING").

Definition prevMismatch : error := TrustError "E_TRUST_PREV_MISMATCH".

(** [tip?.recordId ?? null] and [tip?.tipSha ?? null] *)
Definition tip_record (tip : option (string * option string)) : option string := t ← tip; t.2.
Definition tip_sha (tip : option (string * option string)) : option string := fst <$> tip.

(* @src domain/trust/TrustRecordService.ts appendRecord *)
Definition appendRecord (record : TrustRecord) (skipSignatureVerify : bool) : step X string :=
  _ ← lift (if skipSignatureVerify then Ok () else verifySignatureEnvelope record);
  tip ← readTip;
  _ ← lift (require (bool_decide (prev record = tip_record tip)) prevMismatch);
  persistRecord record (tip_sha tip).

(* @src domain/trust/TrustRecordService.ts isRetryableConflict *)
Definition isRetryableConflict (code : string) (resign : bool) : bool :=
  String.eqb code "E_TRUST_CAS_CONFLICT" || (String.eqb code "E_TRUST_PREV_MISMATCH" && resign).

(* @src domain/trust/TrustRecordService.ts requireRetryPrev *)
Definition requireRetryPrev (record : TrustRecord) (expectedPrev : option string) : result unit :=
  require (bool_decide (prev record = expectedPrev)) prevMismatch.

(** The attempts that are left, and those made. *)
(* @src domain/trust/TrustRecordService.ts appendRecordWithRetry 93-127 *)
Fixpoint attempts (retries : nat) (made : Z) (resign : option (TrustRecord → option string * option string → step X TrustRecord))
    (skipSignatureVerify : bool) (currentRecord : TrustRecord) : step X (string * Z) := λ x,
  match appendRecord currentRecord skipSignatureVerify x with
  | (x, Ok commitSha) => (x, Ok (commitSha, (made + 1)%Z))
  | (x, Throw err) =>
      if negb (String.eqb (err_class err) "TrustError") || negb (isRetryableConflict (err_code err) (bool_decide (is_Some resign)))
      then (x, Throw err)
      else match retries with
        | O => (x, Throw (TrustError "E_TRUST_CAS_EXHAUSTED"))
        | S retries =>
            (freshTip ← readTip;
             nextRecord ← match resign with
               | Some resign =>
                   r ← resign currentRecord (tip_sha freshTip, tip_record freshTip);
                   _ ← lift (requireRetryPrev r (tip_record freshTip)); mret r
               | None => _ ← lift (requireRetryPrev currentRecord (tip_record freshTip)); mret currentRecord
               end;
             attempts retries (made + 1)%Z resign skipSignatureVerify nextRecord) x
        end
  end.

(* @src domain/trust/TrustRecordService.ts appendRecordWithRetry *)
Definition appendRecordWithRetry (record : TrustRecord) (maxRetries : nat)
    (resign : option (TrustRecord → option string * option string → step X TrustRecord)) (skipSignatureVerify : bool)
    : step X (string * Z) :=
  attempts maxRetries 0 resign skipSignatureVerify record.
End service.
End TrustRecordService.

(** ** The evaluation of a graph *)

Module TrustEvaluationService.
Import TrustRecord TrustAssessment TrustEvaluator.

(** Empty texts count as absent where the source says so. *)
(* @src domain/services/audit/TrustEvaluationService.ts TrustEvaluationOptions 21-28 *)
Record TrustEvaluationOptions := Options {
  o_pin : option string;
  o_mode : option string;
  o_writerIds : option (list string);
  o_source : option string;
  o_sourceDetail : option string;
  o_status : option TrustStatus }.

(* @src domain/services/audit/TrustEvaluationService.ts isNonEmptyStr *)
Definition isNonEmptyStr (v : option string) : bool := match v with Some s => str_nonempty s | None => false end.

(* @src domain/services/audit/TrustEvaluationService.ts ResolvedSource 34-34 *)
Record ResolvedSource := Resolved { r_status : TrustStatus; r_source : string; r_sourceDetail : option string }.

(** A status is one of four texts, which are not empty. *)
(* @src domain/services/audit/TrustEvaluationService.ts resolveTrustSource *)
Definition resolveTrustSource (options : TrustEvaluationOptions) : ResolvedSource :=
  let pinned := isNonEmptyStr (o_pin options) in
  Resolved (default (if pinned then TrustAssessment.pinned else configured) (o_status options))
    (match o_source options with
     | Some s => if str_nonempty s then s else if pinned then "pinned" else "ref"
     | None => if pinned then "pinned" else "ref"
     end)
    (match o_sourceDetail options with Some d => Some d | None => o_pin options end).

(* @src domain/services/audit/TrustEvaluationService.ts buildFailureAssessment *)
Definition buildFailureAssessment (status : TrustStatus) (source : string) (sourceDetail : option string)
    (writerIds : list string) (reasonCode : TrustReasonCode) : TrustAssessment :=
  let evaluatedWriters := js_sort compareStrings writerIds in
  TrustAssessment.new (Detail status source sourceDetail evaluatedWriters evaluatedWriters
    (failAll evaluatedWriters reasonCode) no_evidence).

Section service.
Context {W : Type}.

(** Reading the records up to a tip, and the crypto: both may be absent. *)
(* @src domain/services/audit/TrustEvaluationService.ts TrustEvaluationService 90-103 *)
Record TrustEvaluationService := mk {
  _trustChain : option (option string → step W (list TrustRecord));
  _trustCrypto : option TrustStateBuilder.TrustBuildOptions;
  _listWriterIds : step W (list string) }.

(* @src domain/services/audit/TrustEvaluationService.ts _failWith *)
Definition _failWith (resolved : ResolvedSource) : TrustAssessment :=
  buildFailureAssessment status_error (r_source resolved) (r_sourceDetail resolved) [] TRUST_RECORD_CHAIN_INVALID.

(* @src domain/services/audit/TrustEvaluationService.ts _checkPreconditions *)
Definition _checkPreconditions (service : TrustEvaluationService) (resolved : ResolvedSource) : option TrustAssessment :=
  match _trustChain service, _trustCrypto service with
  | Some _, Some _ => None
  | _, _ => Some (_failWith resolved)
  end.

(* @src domain/services/audit/TrustEvaluationService.ts _buildNotConfiguredAssessment *)
Definition _buildNotConfiguredAssessment : TrustAssessment :=
  TrustAssessment.new (Detail not_configured "none" None [] [] [] no_evidence).

(* @src domain/services/audit/TrustEvaluationService.ts _buildTrustState *)
Definition _buildTrustState (service : TrustEvaluationService) (records : list TrustRecord) : result TrustState.TrustState :=
  match _trustCrypto service with
  | None => Throw (TrustError "E_TRUST_CRYPTO_REQUIRED")
  | Some crypto => TrustStateBuilder.buildState crypto records
  end.

(* @src domain/services/audit/TrustEvaluationService.ts _evaluateWithState *)
Definition _evaluateWithState (service : TrustEvaluationService) (records : list TrustRecord)
    (options : TrustEvaluationOptions) (resolved : ResolvedSource) : step W TrustAssessment :=
  trustState ← lift (_buildTrustState service records);
  writerIds ← match o_writerIds options with Some ids => mret ids | None => _listWriterIds service end;
  assessment ← lift (evaluateWriters writerIds trustState
    (Policy (JInt 1) (default "warn" (o_mode options)) "all_writers_must_be_trusted"));
  let d := trust assessment in
  mret (TrustAssessment.new (Detail (match status d with status_error => status_error | _ => r_status resolved end)
    (r_source resolved) (r_sourceDetail resolved) (evaluatedWriters d) (untrustedWriters d) (explanations d)
    (evidenceSummary d))).

(** With [_readRecords]: what the chain throws is a failed assessment. *)
(* @src domain/services/audit/TrustEvaluationService.ts evaluateTrust *)
Definition evaluateTrust (service : TrustEvaluationService) (options : TrustEvaluationOptions) : step W TrustAssessment :=
  let resolved := resolveTrustSource options in
  match _checkPreconditions service resolved, _trustChain service with
  | Some earlyExit, _ => mret earlyExit
  | None, None => mret (_failWith resolved)
  | None, Some readRecords => λ x,
      match readRecords (if isNonEmptyStr (o_pin options) then o_pin options else None) x with
      | (x, Throw _) => (x, Ok (_failWith resolved))
      | (x, Ok []) => (x, Ok _buildNotConfiguredAssessment)
      | (x, Ok records) => _evaluateWithState service records options resolved x
      end
  end.
End service.
Arguments TrustEvaluationService W : clear implicits.
End TrustEvaluationService.

(** ** The gate of the runtime *)

Module RuntimeTrust.
Import TrustAssessment TrustEvaluationService SyncTrustGate.

Definition E_TRUST_CONFIG : error := Err "WarpError" "E_TRUST_CONFIG".

(* @src domain/runtimeHelpers.ts NormalizedTrustConfig 42-45 *)
Record NormalizedTrustConfig := Config { mode : TrustMode; pin : option string }.

(* @src domain/runtimeHelpers.ts validateTrustMode *)
Definition validateTrustMode (mode : string) : result TrustMode :=
  if String.eqb mode "off" then Ok off
  else if String.eqb mode "log-only" then Ok log_only
  else if String.eqb mode "enforce" then Ok enforce
  else Throw E_TRUST_CONFIG.

(** A configuration is absent, or has a mode or none, and a pin that is [None] where
    it is not a text. *)
(* @src domain/runtimeHelpers.ts normalizeTrustConfig *)
Definition normalizeTrustConfig (trust : option (option string * option (option string))) : result NormalizedTrustConfig :=
  match trust with
  | None => Ok (Config off None)
  | Some (mode, pin) =>
      m ← validateTrustMode (default "off" mode);
      p ← match pin with None => Ok None | Some (Some p) => Ok (Some p) | Some None => Throw E_TRUST_CONFIG end;
      Ok (Config m p)
  end.

(* @src domain/RuntimeHost.ts _extractTrustedWriters *)
Definition _extractTrustedWriters (assessment : TrustAssessment) : gset string :=
  list_to_set (e_writerId <$> filter (λ e, trusted e = true) (explanations (trust assessment))).

Section runtime.
Context {W : Type}.
Context (trustCrypto : option TrustStateBuilder.TrustBuildOptions) (listWriterIds : step W (list string)).

(** The verifier is made without a chain of trust records. *)
(* @src domain/RuntimeHost.ts _buildTrustGate *)
Definition _buildTrustGate (config : NormalizedTrustConfig) : SyncTrustGate W :=
  let verifier := TrustEvaluationService.mk None trustCrypto listWriterIds in
  SyncTrustGate.mk
    (Some (λ writerIds,
      assessment ← evaluateTrust verifier
        (TrustEvaluationService.Options (if isNonEmptyStr (pin config) then pin config else None)
          (Some (match mode config with enforce => "enforce" | _ => "warn" end)) (Some writerIds) None None None);
      mret (_extractTrustedWriters assessment)))
    (mode config).

(** The gate of an option or of the configuration; none where the mode is [off]. *)
(* @src domain/RuntimeHost.ts _createSyncTrustGate 354-360 *)
Definition _createSyncTrustGate (trustConfig : NormalizedTrustConfig)
    (override : option (option string * option (option string))) : result (option (SyncTrustGate W)) :=
  config ← match override with None => Ok trustConfig | Some o => normalizeTrustConfig (Some o) end;
  Ok (match mode config with off => None | _ => Some (_buildTrustGate config) end).
End runtime.
End RuntimeTrust.
