(* ===== verification/TrustMeaning.v ===== *)
(** What trust promises: a writer is trusted exactly on the evidence of the log, every
    record of a clean log is signed by a key that was active, and the log stays
    linked while processes append to it. And what it does not: a record that is
    missing is not noticed, and the gate of the runtime has no log. *)
From S2P Require Export Trust SyncMeaning.
#[local] Open Scope string_scope.
#[local] Open Scope list_scope.
Import TrustRecord TrustState TrustStateBuilder TrustAssessment TrustEvaluator.

(** ** Keys of bindings *)

Definition writer_ok (w : string) : bool := str_nonempty w && negb (str_includes BINDING_KEY_SEPARATOR w).
Definition enc (w k : string) : string := w +:+ String BINDING_KEY_SEPARATOR k.

Lemma assertWriterId_ok w : assertWriterId w = if writer_ok w then Ok () else Throw TRUST_STATE_INVALID.
Proof. unfold assertWriterId, assertNonEmptyString, writer_ok. by destruct (str_nonempty w), (str_includes _ w). Qed.

Lemma key_id_nonempty k : key_id k = true → str_nonempty k = true.
Proof. by destruct k. Qed.

Lemma assertKeyId_ok k : assertKeyId k = if key_id k then Ok () else Throw TRUST_STATE_INVALID.
Proof.
  unfold assertKeyId, assertNonEmptyString. destruct (key_id k) eqn:E.
  - by rewrite (key_id_nonempty k E).
  - by destruct (str_nonempty k).
Qed.

(** Key ids hold no separator. *)
Lemma key_id_no_separator k : key_id k = true → str_includes BINDING_KEY_SEPARATOR k = false.
Proof.
  unfold key_id. intros H. apply andb_prop in H as [H Hhex]. apply andb_prop in H as [Hp _].
  apply bool_decide_eq_true in Hp. rewrite <- (String.string_of_list_ascii_of_string k).
  rewrite <- (take_drop 8 (String.list_ascii_of_string k)), Hp.
  revert Hhex. generalize (drop 8 (String.list_ascii_of_string k)). intros l Hl.
  assert (str_includes BINDING_KEY_SEPARATOR (String.string_of_list_ascii l) = false) as Hf; [|cbn; by rewrite Hf].
  revert Hl. induction l as [|a l IH]; cbn; [done|].
  intros [Ha Hl]%andb_prop. rewrite IH by done. case_bool_decide as Hc; [|done]. by subst a.
Qed.

Lemma enc_parse w k : writer_ok w = true → key_id k = true → parseBindingKey (enc w k) = Ok (w, k).
Proof.
  intros Hw Hk. unfold parseBindingKey, enc. pose proof Hw as [Hne Hs]%andb_prop. apply negb_true_iff in Hs.
  unfold assertNonEmptyString. assert (str_nonempty (w +:+ String BINDING_KEY_SEPARATOR k) = true) as -> by (by destruct w).
  rewrite str_split_app by done. rewrite str_split_none by (by apply key_id_no_separator).
  cbn. rewrite Hne, assertWriterId_ok, Hw, assertKeyId_ok, Hk. done.
Qed.

Lemma enc_inj w k w' k' : writer_ok w = true → key_id k = true → writer_ok w' = true → key_id k' = true →
  enc w k = enc w' k' → w = w' ∧ k = k'.
Proof.
  intros Hw Hk Hw' Hk' He. pose proof (enc_parse w k Hw Hk) as H1. rewrite He, (enc_parse w' k') in H1 by done.
  by injection H1.
Qed.

Lemma encodeBindingKey_ok w k key : encodeBindingKey w k = Ok key ↔ writer_ok w = true ∧ key_id k = true ∧ key = enc w k.
Proof.
  unfold encodeBindingKey. rewrite assertWriterId_ok, assertKeyId_ok. destruct (writer_ok w), (key_id k); cbn.
  all: try (split; [by intros [= <-]|by intros (_ & _ & ->)]).
  all: split; [done|naive_solver].
Qed.

(** ** What a log says *)

Definition adds_key (log : list TrustRecord) (k pk : string) : Prop := ∃ r, r ∈ log ∧ subject r = KeyAdd k pk.
Definition revokes_key (log : list TrustRecord) (k : string) : Prop := ∃ r c, r ∈ log ∧ subject r = KeyRevoke k c.
Definition unbinds (log : list TrustRecord) (w k : string) : Prop :=
  ∃ r c, r ∈ log ∧ subject r = WriterBindRevoke w k c.

(** What the last record on the two says. *)
Definition rebound (w k : string) (b : bool) (r : TrustRecord) : bool :=
  match subject r with
  | WriterBindAdd w' k' => if decide (w' = w ∧ k' = k) then true else b
  | WriterBindRevoke w' k' _ => if decide (w' = w ∧ k' = k) then false else b
  | _ => b
  end.
Definition bound (log : list TrustRecord) (w k : string) : bool := foldl (rebound w k) false log.

(** The signed evidence for a writer: it is bound to a key that was added and not
    revoked. *)
Definition evidence (log : list TrustRecord) (w : string) : Prop :=
  ∃ k pk, bound log w k = true ∧ adds_key log k pk ∧ ¬ revokes_key log k.

(** ** Reading a clean log *)

Section log.
Context (options : TrustBuildOptions).

Record crypto_ok (rec : TrustRecord) (active : gmap string ActiveKeyInfo) : Prop := {
  co_fingerprint : ∀ compute k pk, computeKeyFingerprint options = Some compute → subject rec = KeyAdd k pk →
    compute pk = Ok k;
  co_signature : ∀ verify, signatureVerifier options = Some verify →
    ∃ pk, resolveIssuerKey rec active = Some pk ∧ verify rec pk = Ok true }.

(** What a record needs of the state before it. *)
Definition fits (c : TrustBuildContext) (rec : TrustRecord) : Prop :=
  match subject rec with
  | KeyAdd k _ => c_revokedKeys c !! k = None ∧ c_activeKeys c !! k = None
  | KeyRevoke k _ => c_revokedKeys c !! k = None ∧ is_Some (c_activeKeys c !! k)
  | WriterBindAdd w k => (writer_ok w = true ∧ key_id k = true) ∧ c_revokedKeys c !! k = None ∧ is_Some (c_activeKeys c !! k)
  | WriterBindRevoke w k _ => (writer_ok w = true ∧ key_id k = true) ∧ is_Some (c_writerBindings c !! enc w k)
  end.

Definition effect (c : TrustBuildContext) (rec : TrustRecord) : TrustBuildContext :=
  match subject rec with
  | KeyAdd k pk =>
      Context_ (<[k := ActiveKey pk (issuedAt rec)]> (c_activeKeys c)) (c_revokedKeys c) (c_writerBindings c)
        (c_revokedBindings c) (c_errors c)
  | KeyRevoke k reason =>
      let pk := match c_activeKeys c !! k with Some i => ak_publicKey i | None => "" end in
      Context_ (delete k (c_activeKeys c)) (<[k := RevokedKey pk (issuedAt rec) reason]> (c_revokedKeys c))
        (c_writerBindings c) (c_revokedBindings c) (c_errors c)
  | WriterBindAdd w k =>
      Context_ (c_activeKeys c) (c_revokedKeys c) (<[enc w k := Binding k (issuedAt rec)]> (c_writerBindings c))
        (c_revokedBindings c) (c_errors c)
  | WriterBindRevoke w k reason =>
      Context_ (c_activeKeys c) (c_revokedKeys c) (delete (enc w k) (c_writerBindings c))
        (<[enc w k := RevokedBinding k (issuedAt rec) reason]> (c_revokedBindings c)) (c_errors c)
  end.

Lemma reported id p c : c_errors (report id p c).1 ≠ [].
Proof. cbn. by destruct (c_errors c). Qed.

Lemma validateCryptography_spec rec c :
  (validateCryptography options rec c = (c, Ok true) ∧ crypto_ok rec (c_activeKeys c)) ∨
  ∃ c', validateCryptography options rec c = (c', Ok false) ∧ c_errors c' ≠ [].
Proof.
  unfold validateCryptography, mbind, step_bind, the_context.
  assert ((match computeKeyFingerprint options, subject rec with
    | Some compute, KeyAdd keyId publicKey => validateFingerprint keyId publicKey (recordId rec) compute
    | _, _ => mret true end c = (c, Ok true) ∧
    ∀ compute k pk, computeKeyFingerprint options = Some compute → subject rec = KeyAdd k pk → compute pk = Ok k) ∨
    ∃ c', match computeKeyFingerprint options, subject rec with
    | Some compute, KeyAdd keyId publicKey => validateFingerprint keyId publicKey (recordId rec) compute
    | _, _ => mret true end c = (c', Ok false) ∧ c_errors c' ≠ []) as [[-> Hfp]|(c' & -> & Herr)].
  - destruct (computeKeyFingerprint options) as [compute|]; [|by left].
    destruct (subject rec) as [k pk| | |]; try (by left; split; [|intros ? ? ? ? [=]]).
    unfold validateFingerprint. destruct (compute pk) as [expected|e] eqn:Ec.
    + destruct (String.eqb_spec expected k) as [->|Hne].
      * left. split; [done|]. intros ? ? ? [= <-] [= <- <-]. done.
      * right. eexists. split; [reflexivity|]. apply (reported (recordId rec) FingerprintMismatch).
    + right. eexists. split; [reflexivity|]. apply (reported (recordId rec) FingerprintFailed).
  - cbn [negb]. destruct (signatureVerifier options) as [verify|] eqn:Ev; cbn.
    2:{ left. split; [done|]. split; [done|]. intros ?. by rewrite Ev. }
    destruct (resolveIssuerKey rec (c_activeKeys c)) as [pk|] eqn:Er.
    2:{ right. eexists. split; [reflexivity|]. apply (reported (recordId rec) UnknownIssuer). }
    destruct (verify rec pk) as [[]|e] eqn:Es.
    + left. split; [done|]. split; [done|]. rewrite Ev. intros ? [= <-]. by exists pk.
    + right. eexists. split; [reflexivity|]. apply (reported (recordId rec) SignatureInvalid).
    + right. eexists. split; [reflexivity|]. apply (reported (recordId rec) SignatureFailed).
  - right. by exists c'.
Qed.

Lemma processRecord_clean rec c c' : processRecord options rec c = (c', Ok ()) → c_errors c' = [] →
  c_errors c = [] ∧ crypto_ok rec (c_activeKeys c) ∧ fits c rec ∧ c' = effect c rec.
Proof.
  unfold processRecord, mbind, step_bind. destruct (validateCryptography_spec rec c) as [[-> Hok]|(c1 & -> & Herr)].
  2:{ cbn. intros [= <-]. done. }
  cbn [negb]. intros Hp He. assert (∀ p, (c', Ok ()) ≠ report (recordId rec) p c) as Hno.
  { intros p Hc. apply (reported (recordId rec) p c). by rewrite <- Hc. }
  assert (fits c rec ∧ c' = effect c rec) as [Hf ->].
  { unfold fits, effect. destruct (subject rec) as [k pk|k reason|w k|w k reason].
    - unfold handleKeyAdd, mbind, step_bind, the_context in Hp.
      case_bool_decide as Hb; [by destruct (Hno _ (eq_sym Hp))|]. apply eq_None_not_Some in Hb.
      case_bool_decide as Ha; [by destruct (Hno _ (eq_sym Hp))|]. apply eq_None_not_Some in Ha.
      by injection Hp as <-.
    - unfold handleKeyRevoke, mbind, step_bind, the_context in Hp.
      case_bool_decide as Hb; [by destruct (Hno _ (eq_sym Hp))|]. apply eq_None_not_Some in Hb.
      destruct (c_activeKeys c !! k) as [i|]; [|by destruct (Hno _ (eq_sym Hp))]. by injection Hp as <-.
    - unfold handleBindAdd, mbind, step_bind, the_context, lift in Hp.
      destruct (encodeBindingKey w k) as [key|] eqn:Ee; [|done]. apply encodeBindingKey_ok in Ee as (Hw & Hk & ->).
      case_bool_decide as Hb; [by destruct (Hno _ (eq_sym Hp))|]. apply eq_None_not_Some in Hb.
      case_bool_decide as Ha; cbn [negb] in Hp; [|by destruct (Hno _ (eq_sym Hp))]. by injection Hp as <-.
    - unfold handleBindRevoke, mbind, step_bind, the_context, lift in Hp.
      destruct (encodeBindingKey w k) as [key|] eqn:Ee; [|done]. apply encodeBindingKey_ok in Ee as (Hw & Hk & ->).
      destruct (c_writerBindings c !! enc w k) as [b|]; [|by destruct (Hno _ (eq_sym Hp))]. by injection Hp as <-. }
  split; [|by split]. revert He. unfold effect. by destruct (subject rec).
Qed.
End log.

(** ** The state is what the log says *)

Lemma adds_key_snoc log r k pk : adds_key (log ++ [r]) k pk ↔ adds_key log k pk ∨ subject r = KeyAdd k pk.
Proof. unfold adds_key. setoid_rewrite elem_of_app. setoid_rewrite list_elem_of_singleton. naive_solver. Qed.
Lemma revokes_key_snoc log r k : revokes_key (log ++ [r]) k ↔ revokes_key log k ∨ ∃ c, subject r = KeyRevoke k c.
Proof. unfold revokes_key. setoid_rewrite elem_of_app. setoid_rewrite list_elem_of_singleton. naive_solver. Qed.
Lemma unbinds_snoc log r w k : unbinds (log ++ [r]) w k ↔ unbinds log w k ∨ ∃ c, subject r = WriterBindRevoke w k c.
Proof. unfold unbinds. setoid_rewrite elem_of_app. setoid_rewrite list_elem_of_singleton. naive_solver. Qed.
Lemma bound_snoc log r w k : bound (log ++ [r]) w k = rebound w k (bound log w k) r.
Proof. unfold bound. by rewrite foldl_app. Qed.

Definition binding_ok (w k : string) : Prop := writer_ok w = true ∧ key_id k = true.

(** Keys. *)
Record keys_inv (log : list TrustRecord) (c : TrustBuildContext) : Prop := {
  ki_active k pk : (∃ t, c_activeKeys c !! k = Some (ActiveKey pk t)) ↔ adds_key log k pk ∧ ¬ revokes_key log k;
  ki_revoked k : is_Some (c_revokedKeys c !! k) ↔ revokes_key log k }.

(** Bindings. *)
Record bindings_inv (log : list TrustRecord) (c : TrustBuildContext) : Prop := {
  bi_bound w k : bound log w k = true ↔ binding_ok w k ∧ is_Some (c_writerBindings c !! enc w k);
  bi_keys key b : c_writerBindings c !! key = Some b → ∃ w, binding_ok w (b_keyId b) ∧ key = enc w (b_keyId b);
  bi_known w k : bound log w k = true → ∃ pk, adds_key log k pk;
  bi_unbound w k : unbinds log w k ↔ binding_ok w k ∧ is_Some (c_revokedBindings c !! enc w k);
  bi_unbound_keys key : is_Some (c_revokedBindings c !! key) → ∃ w k, binding_ok w k ∧ key = enc w k }.

Lemma no_context_inv : keys_inv [] no_context ∧ bindings_inv [] no_context.
Proof.
  split; split; unfold adds_key, revokes_key, unbinds, bound; cbn.
  all: try setoid_rewrite lookup_empty; try setoid_rewrite elem_of_nil.
  all: try by intros ? ? [=]. all: try by intros ? [? [=]].
  all: split; naive_solver.
Qed.

Lemma keys_inv_step log c rec : keys_inv log c → fits c rec → keys_inv (log ++ [rec]) (effect c rec).
Proof.
  intros [Ha Hr] Hf. unfold fits, effect in *. destruct (subject rec) as [k pk|k reason|w k|w k reason] eqn:Es.
  - destruct Hf as [Hnr Hna]. assert (¬ revokes_key log k) as Hno by (rewrite <- Hr, Hnr; by intros [? [=]]).
    split; [intros k' pk'|intros k']; cbn [c_activeKeys c_revokedKeys]; rewrite ?adds_key_snoc, ?revokes_key_snoc, Es.
    + destruct (decide (k' = k)) as [->|Hne].
      * rewrite lookup_insert_eq. split.
        -- intros [t [= <- _]]. split; [by right|]. by intros [?|[? [=]]].
        -- intros [[Hin|[= <-]] _]; [|by eexists]. exfalso.
           destruct (proj2 (Ha k pk') (conj Hin Hno)) as [t Ht]. by rewrite Hna in Ht.
      * rewrite lookup_insert_ne by done. rewrite Ha. naive_solver.
    + rewrite Hr. naive_solver.
  - destruct Hf as [Hnr [i Hi]].
    split; [intros k' pk'|intros k']; cbn [c_activeKeys c_revokedKeys]; rewrite ?adds_key_snoc, ?revokes_key_snoc, Es.
    + destruct (decide (k' = k)) as [->|Hne].
      * rewrite lookup_delete_eq. split; [by intros [? [=]]|]. intros [_ []]. right. by eexists.
      * rewrite lookup_delete_ne by done. rewrite Ha. naive_solver.
    + destruct (decide (k' = k)) as [->|Hne].
      * rewrite lookup_insert_eq. split; [|by eexists]. intros _. right. by eexists.
      * rewrite lookup_insert_ne by done. rewrite Hr. naive_solver.
  - split; [intros k' pk'|intros k']; cbn [c_activeKeys c_revokedKeys]; rewrite ?adds_key_snoc, ?revokes_key_snoc, Es, ?Ha, ?Hr; naive_solver.
  - split; [intros k' pk'|intros k']; cbn [c_activeKeys c_revokedKeys]; rewrite ?adds_key_snoc, ?revokes_key_snoc, Es, ?Ha, ?Hr; naive_solver.
Qed.

Lemma active_added log c k : keys_inv log c → is_Some (c_activeKeys c !! k) → ∃ pk, adds_key log k pk.
Proof. intros Hk [[pk t] Hi]. exists pk. apply (ki_active log c Hk k pk). by exists t. Qed.

Lemma bindings_inv_same log c rec : bindings_inv log c →
  (∀ w k, subject rec ≠ WriterBindAdd w k) → (∀ w k r, subject rec ≠ WriterBindRevoke w k r) →
  bindings_inv (log ++ [rec]) (effect c rec).
Proof.
  intros [Hb Hk Hn Hu Hx] H1 H2. unfold effect. split.
  1: intros w k; rewrite bound_snoc; unfold rebound.
  3: intros w k; rewrite bound_snoc; setoid_rewrite adds_key_snoc; unfold rebound.
  4: intros w k; rewrite unbinds_snoc.
  all: destruct (subject rec) as [k' pk'|k' reason|w' k'|w' k' reason] eqn:Es; cbn; try (by destruct (H1 w' k')); try (by destruct (H2 w' k' reason)).
  all: try done. all: try (intros ?%Hn; naive_solver). all: rewrite Hu; naive_solver.
Qed.

Lemma bindings_inv_step log c rec : keys_inv log c → bindings_inv log c → fits c rec →
  bindings_inv (log ++ [rec]) (effect c rec).
Proof.
  intros Hkeys Hinv Hf. destruct (subject rec) as [k pk|k reason|w k|w k reason] eqn:Es.
  1-2: apply bindings_inv_same; [done|intros *; by rewrite Es|intros *; by rewrite Es].
  all: destruct Hinv as [Hb Hk Hn Hu Hx]; unfold fits, effect in *; rewrite Es in *; destruct Hf as [Hok Hf].
  all: split; cbn [c_writerBindings c_revokedBindings];
    [intros w' k'; rewrite bound_snoc|intros key b|intros w' k'; rewrite bound_snoc; setoid_rewrite adds_key_snoc
    |intros w' k'; rewrite unbinds_snoc|intros key]; unfold rebound; rewrite ?Es.
  - destruct Hok. case_decide as Heq.
    + destruct Heq as [-> ->]. rewrite lookup_insert_eq. split; [|done]. intros _. by split; [|eexists].
    + rewrite Hb. split; intros [[Hw' Hk'] Hs]; (split; [done|]); revert Hs;
        rewrite lookup_insert_ne; try done; intros He; apply enc_inj in He as [-> ->]; naive_solver.
  - intros [[<- <-]|[_ Hl]]%lookup_insert_Some; [by exists w|by apply Hk].
  - case_decide as Heq; [destruct Heq as [-> ->]|]; [|intros [pk ?]%Hn; naive_solver].
    intros _. destruct Hf as [_ Hact]. destruct (active_added log c k' Hkeys Hact) as [pk ?]. exists pk. by left.
  - rewrite Hu. naive_solver.
  - apply Hx.
  - destruct Hok. case_decide as Heq.
    + destruct Heq as [-> ->]. rewrite lookup_delete_eq. split; [done|]. by intros [_ [? [=]]].
    + rewrite Hb. split; intros [[Hw' Hk'] Hs]; (split; [done|]); revert Hs;
        rewrite lookup_delete_ne; try done; intros He; apply enc_inj in He as [-> ->]; naive_solver.
  - intros [_ Hl]%lookup_delete_Some. by apply Hk.
  - case_decide; [done|]. intros [pk ?]%Hn. naive_solver.
  - rewrite Hu. destruct (decide (w' = w ∧ k' = k)) as [[-> ->]|Hne].
    + rewrite lookup_insert_eq. split; [by eauto|]. intros _. right. by eexists.
    + split.
      * intros [[Hok' Hs]|[? [=]]]; [|naive_solver]. split; [done|]. rewrite lookup_insert_ne; [done|].
        intros He. destruct Hok, Hok'. apply enc_inj in He; naive_solver.
      * intros [Hok' Hs]. left. split; [done|]. rewrite lookup_insert_ne in Hs; [done|].
        intros He. destruct Hok, Hok'. apply enc_inj in He; naive_solver.
  - intros Hs. destruct (decide (key = enc w k)) as [->|Hne]; [by exists w, k|]. apply Hx. by rewrite lookup_insert_ne in Hs.
Qed.

Section building.
Context (options : TrustBuildOptions).

(** Every record of a clean log met the state of the records before it. *)
Definition met (log : list TrustRecord) : Prop := ∀ l1 r l2, log = l1 ++ r :: l2 →
  ∃ c, keys_inv l1 c ∧ fits c r ∧ crypto_ok options r (c_activeKeys c).

Lemma clean_run log c : for_each (processRecord options) log no_context = (c, Ok ()) → c_errors c = [] →
  keys_inv log c ∧ bindings_inv log c ∧ met log.
Proof.
  revert c. induction log as [|r log IH] using rev_ind; intros c.
  { cbn. intros [= <-] _. destruct no_context_inv. split_and!; [done..|]. intros l1 r l2 Hl. by destruct l1. }
  rewrite for_each_app. unfold mbind, step_bind. destruct (for_each _ log no_context) as [c1 [[]|e]] eqn:E1; [|done].
  cbn [for_each]. unfold mbind, step_bind. destruct (processRecord options r c1) as [c2 [[]|e]] eqn:E2; [|done].
  cbn. intros [= <-] He. destruct (processRecord_clean options r c1 c2 E2 He) as (He1 & Hok & Hf & ->).
  destruct (IH c1 eq_refl He1) as (Hk & Hb & Hm). split; [by apply keys_inv_step|].
  split; [by apply bindings_inv_step|]. intros l1 r' l2 Hl.
  destruct l2 as [|x l2 _] using rev_ind.
  - apply app_inj_tail in Hl as [-> ->]. by exists c1.
  - rewrite app_comm_cons, app_assoc in Hl. apply app_inj_tail in Hl as [-> _]. by apply (Hm l1 r' l2).
Qed.

Lemma copy_map_ok {V} (check : string → V → result V) m m' : copy_map check m = Ok m' → m' = m.
Proof. unfold copy_map. destruct (map_result _ _); cbn; [by intros [= <-]|done]. Qed.

Lemma copy_errors_ok l l' : copyBuildErrors l = Ok l' → l' = l.
Proof.
  unfold copyBuildErrors. rewrite map_result_ok. induction 1 as [|e e' l l' He _ IH]; [done|]. f_equal; [|done].
  revert He. unfold assertNonEmptyString. by destruct (str_nonempty _); [intros [= <-]|].
Qed.

Lemma state_new_ok c n st : TrustState.new c n = Ok st → st = TrustState.mk (c_activeKeys c) (c_revokedKeys c)
  (c_writerBindings c) (c_revokedBindings c) (c_errors c) n.
Proof.
  unfold TrustState.new, copyActiveKeys, copyRevokedKeys, copyWriterBindings, copyRevokedBindings. intros H. invert_ok.
  repeat match goal with H : copy_map _ _ = Ok _ |- _ => apply copy_map_ok in H end.
  match goal with H : copyBuildErrors _ = Ok _ |- _ => apply copy_errors_ok in H end. by subst.
Qed.

Lemma buildState_ok log st : buildState options log = Ok st → ∃ c,
  for_each (processRecord options) log no_context = (c, Ok ()) ∧
  st = TrustState.mk (c_activeKeys c) (c_revokedKeys c) (c_writerBindings c) (c_revokedBindings c) (c_errors c)
    (Z.of_nat (length log)).
Proof.
  unfold buildState. destruct (for_each _ log no_context) as [c [[]|e]]; [|done]. intros H%state_new_ok. by exists c.
Qed.
End building.

(** ** What the evaluation finds *)

Section evaluating.
Context (log : list TrustRecord) (st : TrustState).
Context (c : TrustBuildContext) (Hst : st = TrustState.mk (c_activeKeys c) (c_revokedKeys c) (c_writerBindings c)
  (c_revokedBindings c) (c_errors c) (Z.of_nat (length log))).
Context (Hkeys : keys_inv log c) (Hbind : bindings_inv log c).

Lemma bindings_of w : writer_ok w = true → ∃ l, getBindingsForWriter w st = Ok l ∧
  ∀ k, k ∈ b_keyId <$> l ↔ bound log w k = true.
Proof.
  intros Hw. unfold getBindingsForWriter. rewrite assertWriterId_ok, Hw. cbn. rewrite Hst. cbn [writerBindings].
  assert (∀ kb, kb ∈ map_to_list (c_writerBindings c) →
    binding_of w kb = Ok (if decide (kb.1 = enc w (b_keyId kb.2)) then Some kb.2 else None)) as Hof.
  { intros [key b] Hin%elem_of_map_to_list. destruct (bi_keys _ _ Hbind _ _ Hin) as (w' & [Hw' Hk'] & ->).
    unfold binding_of. cbn [fst snd]. rewrite enc_parse by done. cbn. destruct (String.eqb_spec w' w) as [->|Hne].
    - by rewrite decide_True.
    - rewrite decide_False; [done|]. intros He. by apply enc_inj in He as [-> _]. }
  rewrite (map_result_fmap _ _ _ Hof). cbn. eexists. split; [reflexivity|]. intros k.
  rewrite (bi_bound _ _ Hbind w k). rewrite list_elem_of_fmap. setoid_rewrite list_elem_of_omap.
  setoid_rewrite list_elem_of_fmap. split.
  - intros (b & -> & ob & ([key b'] & -> & Hin) & Hob). cbn in Hob. case_decide as Hd; [|done].
    injection Hob as ->. subst key. apply elem_of_map_to_list in Hin.
    destruct (bi_keys _ _ Hbind _ _ Hin) as (w' & Hok & He). split; [|by eexists].
    destruct Hok as [Hw' Hk']. by split.
  - intros [[_ Hk] [b Hb]]. destruct (bi_keys _ _ Hbind _ _ Hb) as (w' & [Hw' Hk'] & He).
    apply enc_inj in He as [-> Hkk]; [|done..]. exists b. split; [done|]. exists (Some b). split; [|done].
    exists (enc w' k, b). split; [by rewrite decide_True by (by rewrite Hkk)|by apply elem_of_map_to_list].
Qed.

Lemma any_active_spec l : (∀ k, k ∈ l → key_id k = true) →
  any_active l st = Ok (existsb (λ k, bool_decide (is_Some (c_activeKeys c !! k))) l).
Proof.
  induction l as [|k l IH]; intros Hk; [done|]. cbn [any_active existsb]. unfold hasActiveKey.
  rewrite assertKeyId_ok, Hk by (by left). rewrite Hst. cbn [activeKeys mbind result_bind].
  case_bool_decide; [done|]. rewrite <- Hst. apply IH. intros k' Hk'. apply Hk. by right.
Qed.

Lemma any_of_writer_spec w l : (∀ key, key ∈ l → ∃ w' k, binding_ok w' k ∧ key = enc w' k) → writer_ok w = true →
  ∃ b, any_of_writer w l = Ok b ∧ (b = true ↔ ∃ k, binding_ok w k ∧ enc w k ∈ l).
Proof.
  intros Hl Hw. induction l as [|key l IH]; [exists false; split; [done|]; set_solver|].
  destruct (Hl key) as (w' & k & [Hw' Hk] & ->); [by left|]. cbn [any_of_writer]. rewrite enc_parse by done. cbn.
  destruct (String.eqb_spec w' w) as [->|Hne].
  - exists true. split; [done|]. split; [|done]. intros _. exists k. split; [done|by left].
  - destruct IH as (b & -> & Hb); [intros key Hkey; apply Hl; by right|]. exists b. split; [done|]. rewrite Hb.
    split; intros (k' & Hok & Hin); exists k'; (split; [done|]).
    + by right.
    + apply elem_of_cons in Hin as [He|Hin]; [|done]. destruct Hok. apply enc_inj in He as [-> _]; done.
Qed.

Lemma evaluate_writer w : writer_ok w = true → ∃ e, evaluateSingleWriter w st = Ok e ∧ e_writerId e = w ∧
  (trusted e = true ↔ evidence log w).
Proof.
  intros Hw. unfold evaluateSingleWriter. destruct (bindings_of w Hw) as (l & -> & Hl). cbn.
  destruct (b_keyId <$> l) as [|k ks] eqn:El.
  - unfold hasRevokedBindingsForWriter. rewrite assertWriterId_ok, Hw. cbn. rewrite Hst. cbn [revokedBindings].
    destruct (any_of_writer_spec w (map_to_list (c_revokedBindings c)).*1) as (b & -> & _); [|done|].
    { intros key Hkey. apply (bi_unbound_keys _ _ Hbind). apply list_elem_of_fmap in Hkey as ([key' v] & -> & Hin).
      apply elem_of_map_to_list in Hin. by exists v. }
    cbn. eexists. split; [reflexivity|]. split; [by destruct b|]. split; [by destruct b|].
    intros (k & pk & Hb & _). apply Hl in Hb. by apply not_elem_of_nil in Hb.
  - rewrite <- El in *. rewrite any_active_spec.
    2:{ intros k' Hk'. apply Hl in Hk'. by apply (bi_bound _ _ Hbind w k') in Hk' as [[]]. }
    cbn. eexists. split; [reflexivity|]. split; [by case_match|].
    transitivity (existsb (λ k0, bool_decide (is_Some (c_activeKeys c !! k0))) (b_keyId <$> l) = true).
    { by case_match. }
    rewrite existsb_exists. split.
    + intros (k0 & Hin%list_elem_of_In & Ha%bool_decide_eq_true). destruct Ha as [[pk t] Ha].
      exists k0, pk. split; [by apply Hl|]. apply (ki_active _ _ Hkeys). by exists t.
    + intros (k0 & pk & Hb & Hev). exists k0. split; [by apply list_elem_of_In, Hl|].
      apply bool_decide_eq_true. destruct (proj2 (ki_active _ _ Hkeys k0 pk) Hev) as [t Ht]. by eexists.
Qed.

(** A writer id that cannot be bound is not trusted. *)
Lemma evaluate_safely w : ∃ e, evaluateSingleWriterSafely w st = Ok e ∧ e_writerId e = w ∧
  (trusted e = true ↔ evidence log w).
Proof.
  unfold evaluateSingleWriterSafely. destruct (writer_ok w) eqn:Hw.
  - destruct (evaluate_writer w Hw) as (e & -> & He). by exists e.
  - unfold evaluateSingleWriter, getBindingsForWriter. rewrite assertWriterId_ok, Hw. cbn.
    eexists. split; [reflexivity|]. split; [done|]. cbn. split; [done|]. intros (k & pk & Hb & _).
    apply (bi_bound _ _ Hbind) in Hb as [[Hw' _] _]. congruence.
Qed.
End evaluating.

(** ** Properties *)

Lemma sorted_elem ws w : w ∈ js_sort compareStrings ws ↔ w ∈ ws.
Proof. by rewrite elem_of_js_sort. Qed.

Lemma elem_of_untrusted es w : w ∈ untrusted es ↔ ∃ e, e ∈ es ∧ trusted e = false ∧ e_writerId e = w.
Proof.
  unfold untrusted. rewrite list_elem_of_fmap. setoid_rewrite list_elem_of_filter. naive_solver.
Qed.

(** A clean log decides about every writer. *)
Lemma evaluated options log st c ws : st = TrustState.mk (c_activeKeys c) (c_revokedKeys c) (c_writerBindings c)
    (c_revokedBindings c) (c_errors c) (Z.of_nat (length log)) →
  for_each (processRecord options) log no_context = (c, Ok ()) → c_errors c = [] →
  ∃ es, map_result (λ w, evaluateSingleWriterSafely w st) ws = Ok es ∧
    (∀ w, w ∈ untrusted es ↔ w ∈ ws ∧ ¬ evidence log w) ∧ (untrusted es = [] ↔ ∀ w, w ∈ ws → evidence log w).
Proof.
  intros Hst Hrun He. destruct (clean_run options log c Hrun He) as (Hk & Hb & _).
  assert (∀ w, ∃ e, evaluateSingleWriterSafely w st = Ok e ∧ e_writerId e = w ∧ (trusted e = true ↔ evidence log w)) as Hev
    by (intros w; by apply (evaluate_safely log st c)).
  assert (∀ w, evidence log w ∨ ¬ evidence log w) as Hdec.
  { intros w. destruct (Hev w) as ([? [] ?] & _ & _ & Hw); rewrite <- Hw; [by left|by right]. }
  destruct (map_result_total (λ w, evaluateSingleWriterSafely w st) ws) as [es Hes].
  { intros w _. destruct (Hev w) as (e & He' & _). by exists e. }
  exists es. split; [done|]. apply map_result_ok in Hes.
  assert (∀ w, w ∈ untrusted es ↔ w ∈ ws ∧ ¬ evidence log w) as Hun.
  { intros w. rewrite elem_of_untrusted. split.
    - intros (e & [i Hi]%list_elem_of_lookup & Ht & <-). destruct (Forall2_lookup_r _ _ _ _ _ Hes Hi) as (w & Hw & Hwe).
      destruct (Hev w) as (e' & He' & Hid & Htr). rewrite Hwe in He'. injection He' as <-.
      rewrite Hid. split; [by apply list_elem_of_lookup; exists i|]. by rewrite <- Htr, Ht.
    - intros [[i Hi]%list_elem_of_lookup Hno]. destruct (Forall2_lookup_l _ _ _ _ _ Hes Hi) as (e & Hle & Hwe).
      destruct (Hev w) as (e' & He' & Hid & Htr). rewrite Hwe in He'. injection He' as <-.
      exists e. split; [by apply list_elem_of_lookup; exists i|]. split; [|done].
      apply not_true_is_false. by rewrite Htr. }
  split; [done|]. split.
  - intros Hnil w Hw. destruct (Hdec w) as [|Hno]; [done|]. assert (w ∈ untrusted es) as Hin by (by apply Hun).
    rewrite Hnil in Hin. by apply not_elem_of_nil in Hin.
  - intros Hall. destruct (untrusted es) as [|w l] eqn:E; [done|].
    destruct (proj1 (Hun w)) as [Hw Hno]; [by left|]. by destruct Hno; apply Hall.
Qed.

(** C8. The verdict on some writers is the signed evidence of the log: it passes
    exactly if every record of the log was accepted and every writer is bound,
    by the last record on it and a key, to a key that was added and never
    revoked. The writers without that evidence are listed as untrusted, all of
    them when the log has an error. The evaluation of a state that was built
    never throws. *)
Theorem trust_verdict_is_evidence (options : TrustBuildOptions) (log : list TrustRecord) (st : TrustState)
    (ws : list string) (policy : TrustPolicy) :
  buildState options log = Ok st → policy_parses policy = true →
  ∃ a, evaluateWriters ws st policy = Ok a ∧
    (trustVerdict a = pass ↔ TrustState.errors st = [] ∧ ∀ w, w ∈ ws → evidence log w) ∧
    (∀ w, w ∈ untrustedWriters (trust a) ↔ w ∈ ws ∧ (TrustState.errors st ≠ [] ∨ ¬ evidence log w)).
Proof.
  intros Hbuild Hp. destruct (buildState_ok _ _ _ Hbuild) as (c & Hrun & Hst).
  unfold evaluateWriters. rewrite Hp. cbn [negb].
  assert (TrustState.errors st = c_errors c) as He by (by rewrite Hst).
  case_bool_decide as Herr.
  - eexists. split; [reflexivity|]. cbn. split; [by split; [|intros []]|].
    intros w. rewrite sorted_elem. tauto.
  - rewrite He in *. destruct (evaluated options log st c (js_sort compareStrings ws) Hst Hrun Herr) as (es & -> & Hun & Hall).
    eexists. split; [reflexivity|]. cbn [trust trustVerdict TrustAssessment.new untrustedWriters status deriveTrustVerdict].
    setoid_rewrite sorted_elem in Hun. setoid_rewrite sorted_elem in Hall. split.
    + destruct (untrusted es) as [|w l] eqn:E; [by rewrite <- Hall|]. split; [done|].
      intros [_ Hall']. by apply Hall in Hall'.
    + intros w. rewrite Hun. naive_solver.
Qed.

(** C9. In a log without errors every record is signed by a key that was active when
    the record was appended: added before it, or by the record itself, and not
    revoked before it. So a key signs nothing after its revocation. Where
    fingerprints are checked, the key that verifies the signature is the one that
    the id of the issuer names. *)
Theorem clean_log_is_signed (options : TrustBuildOptions) (verify : TrustRecord → string → result bool)
    (log : list TrustRecord) (st : TrustState) :
  buildState options log = Ok st → TrustState.errors st = [] → signatureVerifier options = Some verify →
  ∀ l1 r l2, log = l1 ++ r :: l2 → ¬ revokes_key l1 (issuerKeyId r) ∧
    ∃ pk, verify r pk = Ok true ∧
      (adds_key l1 (issuerKeyId r) pk ∨ subject r = KeyAdd (issuerKeyId r) pk) ∧
      ∀ compute, computeKeyFingerprint options = Some compute → compute pk = Ok (issuerKeyId r).
Proof.
  intros Hbuild He Hv l1 r l2 Hlog. destruct (buildState_ok _ _ _ Hbuild) as (c & Hrun & ->). cbn in He.
  destruct (clean_run options log c Hrun He) as (_ & _ & Hmet).
  destruct (Hmet l1 r l2 Hlog) as (c1 & Hk & Hf & [Hfp Hsig]). destruct (Hsig verify Hv) as (pk & Hr & Hver).
  assert (subject r = KeyAdd (issuerKeyId r) pk ∨ ∃ t, c_activeKeys c1 !! issuerKeyId r = Some (ActiveKey pk t)) as Hcase.
  { assert (match c_activeKeys c1 !! issuerKeyId r with
      | Some info => if str_nonempty (ak_publicKey info) then Some (ak_publicKey info) else None
      | None => None end = Some pk → ∃ t, c_activeKeys c1 !! issuerKeyId r = Some (ActiveKey pk t)) as Hact.
    { destruct (c_activeKeys c1 !! issuerKeyId r) as [[pk' t]|]; [|done]. cbn.
      destruct (str_nonempty pk'); [|done]. intros [= ->]. by exists t. }
    unfold resolveIssuerKey in Hr. destruct (subject r) as [k pk'| | |]; [|by right; apply Hact..].
    destruct (String.eqb_spec (issuerKeyId r) k) as [->|]; [left; by injection Hr as ->|right; by apply Hact]. }
  destruct Hcase as [Hs|Hs].
  - unfold fits in Hf. rewrite Hs in Hf. destruct Hf as [Hnr _]. split.
    + rewrite <- (ki_revoked _ _ Hk), Hnr. by intros [? [=]].
    + exists pk. split_and!; [done|by right|]. intros compute Hc. by apply (Hfp compute).
  - apply (ki_active _ _ Hk) in Hs as [Hadd Hnr]. split; [done|]. exists pk. split_and!; [done|by left|].
    intros compute Hc. destruct Hadd as (r' & [l3 [l4 ->]]%list_elem_of_split & Hs').
    destruct (Hmet l3 r' (l4 ++ r :: l2)) as (c2 & _ & _ & [Hfp' _]); [by rewrite Hlog, <- app_assoc|].
    by apply (Hfp' compute (issuerKeyId r) pk).
Qed.

(** *** Appending *)

(** A chain of trust records: its tip, and the commits with their parents. *)
Record chain_state := Chain { ch_tip : option string; ch_commits : gmap string (TrustRecord * option string) }.

(** Every record names the record of the parent commit. *)
Definition linked (s : chain_state) : Prop :=
  (∀ sha r parent, ch_commits s !! sha = Some (r, parent) → match parent with
    | None => prev r = None
    | Some p => ∃ r' parent', ch_commits s !! p = Some (r', parent') ∧ prev r = Some (recordId r')
    end) ∧
  match ch_tip s with Some t => is_Some (ch_commits s !! t) | None => True end.

(** What other processes may do: commits stay, and who appends keeps the links. *)
Definition advances (s s' : chain_state) : Prop := ch_commits s ⊆ ch_commits s' ∧ (linked s → linked s').

#[global] Instance advances_preorder : PreOrder advances.
Proof.
  split; [by split|]. intros a b c [H1 H2] [H3 H4]. split; [by etrans|]. tauto.
Qed.

Definition published_on (s : chain_state) (sha : string) (r : TrustRecord) (parent : option string) : chain_state :=
  Chain (Some sha) (<[sha := (r, parent)]> (ch_commits s)).

Section appending.
Context {X : Type} `{!TrustChain X} (view : X → chain_state).

(** The tip is read at one moment; a record is published at one moment, if the tip is
    the expected one, on a commit that is new or holds the same, possibly without an answer. *)
Record chain_laws : Prop := {
  cl_tip x x' r : readTip x = (x', r) → advances (view x) (view x') ∧
    ∀ t, r = Ok t → ∃ mid, advances (view x) mid ∧ advances mid (view x') ∧ match t with
      | None => ch_tip mid = None
      | Some (sha, id) => ch_tip mid = Some sha ∧ ∀ rec parent, ch_commits mid !! sha = Some (rec, parent) → id = Some (recordId rec)
      end;
  cl_persist rec parent x x' r : persistRecord rec parent x = (x', r) →
    (advances (view x) (view x') ∧ ∃ e, r = Throw e) ∨
    ∃ mid sha, advances (view x) mid ∧ ch_tip mid = parent ∧
      (ch_commits mid !! sha = None ∨ ch_commits mid !! sha = Some (rec, parent)) ∧
      advances (published_on mid sha rec parent) (view x') ∧ (r = Ok sha ∨ ∃ e, r = Throw e) }.
Context (Hlaws : chain_laws).

Lemma publish_linked s sha rec parent : linked s → ch_tip s = parent →
  (ch_commits s !! sha = None ∨ ch_commits s !! sha = Some (rec, parent)) →
  match parent with
  | None => prev rec = None
  | Some p => ∃ r' parent', ch_commits s !! p = Some (r', parent') ∧ prev rec = Some (recordId r')
  end → linked (published_on s sha rec parent) ∧ ch_commits s ⊆ ch_commits (published_on s sha rec parent).
Proof.
  intros [Hl Ht] Htip Hnew Hp. assert (ch_commits s ⊆ <[sha := (rec, parent)]> (ch_commits s)) as Hsub.
  { destruct Hnew as [Hn|Hs]; [by apply insert_subseteq|by rewrite insert_id]. }
  split; [|done]. split; cbn; [|rewrite lookup_insert_eq; by eexists].
  intros sha' r parent' [[<- [= <- <-]]|[_ Hc]]%lookup_insert_Some.
  - destruct parent as [p|]; [|done]. destruct Hp as (r' & q & Hr' & Hid). exists r', q.
    split; [|done]. by apply (lookup_weaken _ _ _ _ Hr').
  - specialize (Hl _ _ _ Hc). destruct parent' as [p|]; [|done]. destruct Hl as (r' & q & Hr' & Hid). exists r', q.
    split; [|done]. by apply (lookup_weaken _ _ _ _ Hr').
Qed.

Lemma append_linked rec skip x x' r : TrustRecordService.appendRecord rec skip x = (x', r) → linked (view x) →
  advances (view x) (view x') ∧ ∀ sha, r = Ok sha → ∃ parent, ch_commits (view x') !! sha = Some (rec, parent).
Proof.
  unfold TrustRecordService.appendRecord, mbind, step_bind, lift. intros Hrun Hlinked.
  destruct (if skip then _ else _) as [[]|e]; [|injection Hrun as <- <-; by split].
  destruct (readTip x) as [x1 [tip|e]] eqn:Et; [|injection Hrun as <- <-; destruct (cl_tip Hlaws _ _ _ Et); by split].
  destruct (cl_tip Hlaws _ _ _ Et) as [Hg1 Htip]. specialize (Htip tip eq_refl) as (mid & Hg & Hg' & Ht).
  unfold require in Hrun. case_bool_decide as Hprev; [|injection Hrun as <- <-; by split].
  destruct (cl_persist Hlaws _ _ _ _ _ Hrun) as [[Hg2 [e ->]]|(mid2 & sha & Hg2 & Htip2 & Hnew & Hg3 & Hr)].
  { split; [by transitivity (view x1)|done]. }
  assert (advances mid mid2) as Hmm by (by transitivity (view x1)).
  assert (linked mid) as Hlm by (by apply Hg). assert (linked mid2) as Hlm2 by (by apply Hmm).
  destruct (publish_linked mid2 sha rec (TrustRecordService.tip_sha tip) Hlm2 Htip2 Hnew) as [Hl Hsub].
  { rewrite Hprev. destruct tip as [[t id]|]; [|done]. cbn. destruct Ht as [Ht Hid].
    destruct Hlm as [_ Hlt]. rewrite Ht in Hlt. destruct Hlt as [[r' q] Hr'].
    exists r', q. split; [by apply (lookup_weaken _ _ _ _ Hr'), Hmm|by apply (Hid r' q)]. }
  assert (advances mid2 (published_on mid2 sha rec (TrustRecordService.tip_sha tip))) as Hpub by (by split).
  split; [transitivity mid; [done|]; transitivity mid2; [done|]; by transitivity (published_on mid2 sha rec (TrustRecordService.tip_sha tip))|].
  intros sha' ->. destruct Hr as [[= ->]|[e [=]]]. eexists.
  destruct Hg3 as [Hsub3 _]. apply (lookup_weaken _ _ _ _ (lookup_insert_eq _ _ _) Hsub3).
Qed.
End appending.

Lemma attempts_linked {X : Type} `{!TrustChain X} (view : X → chain_state) (Hlaws : chain_laws view) resign skip n made rec x x' r :
  (∀ f rec tip x x' r, resign = Some f → f rec tip x = (x', r) → advances (view x) (view x')) →
  TrustRecordService.attempts n made resign skip rec x = (x', r) → linked (view x) →
  advances (view x) (view x') ∧ ∀ sha k, r = Ok (sha, k) → (made + 1 <= k <= made + 1 + Z.of_nat n)%Z ∧
    ∃ rec' parent, ch_commits (view x') !! sha = Some (rec', parent) ∧ (resign = None → rec' = rec).
Proof.
  intros Hres. revert made rec x. induction n as [|n IH]; intros made rec x; cbn [TrustRecordService.attempts];
    destruct (TrustRecordService.appendRecord rec skip x) as [x1 [commitSha|err]] eqn:Ea; intros Hrun Hl;
    destruct (append_linked view Hlaws _ _ _ _ _ Ea Hl) as [Hg1 Hok].
  1, 3: injection Hrun as <- <-; split; [done|]; intros sha k [= <- <-]; split; [lia|];
    destruct (Hok commitSha eq_refl) as [parent Hc]; by exists rec, parent.
  all: destruct (negb _ || negb _); [injection Hrun as <- <-; by split|].
  { injection Hrun as <- <-. by split. }
  unfold mbind, step_bind in Hrun. destruct (readTip x1) as [x2 [tip|e]] eqn:Et;
    destruct (cl_tip view Hlaws _ _ _ Et) as [Hg2 _]; assert (advances (view x) (view x2)) as Hg12 by (by transitivity (view x1));
    [|injection Hrun as <- <-; by split].
  assert (linked (view x2)) as Hl2 by (by apply Hg12).
  assert (∀ rec2 x3, TrustRecordService.attempts n (made + 1) resign skip rec2 x3 = (x', r) → advances (view x) (view x3) →
    (resign = None → rec2 = rec) → advances (view x) (view x') ∧ ∀ sha k, r = Ok (sha, k) →
      (made + 1 <= k <= made + 1 + Z.of_nat (S n))%Z ∧
      ∃ rec' parent, ch_commits (view x') !! sha = Some (rec', parent) ∧ (resign = None → rec' = rec)) as Hrest.
  { intros rec2 x3 Hrun3 Hg3 Hsame. destruct (IH _ _ _ Hrun3) as [Hg Hk]; [by apply Hg3|]. split; [by transitivity (view x3)|].
    intros sha k Hr. destruct (Hk sha k Hr) as [Hle (rec' & parent & Hc & Hn)]. split; [lia|]. exists rec', parent.
    split; [done|]. intros H. by rewrite Hn, Hsame. }
  destruct resign as [f|]; unfold lift, TrustRecordService.requireRetryPrev, require in Hrun.
  - destruct (f rec _ x2) as [x3 [rec2|e]] eqn:Ef; pose proof (Hres f _ _ _ _ _ eq_refl Ef) as Hg3;
      assert (advances (view x) (view x3)) as Hg13 by (by transitivity (view x2)); [|injection Hrun as <- <-; by split].
    case_bool_decide; [|injection Hrun as <- <-; by split]. by apply (Hrest rec2 x3).
  - case_bool_decide; [|injection Hrun as <- <-; by split]. by apply (Hrest rec x2).
Qed.

(** C10. Whatever other processes append meanwhile, a log of trust records stays linked:
    every record names the record of its parent commit. An append with retries
    ends after at most one attempt more than retries; when it succeeds, the
    commit it returns holds the record, the one given or the one signed again. *)
Theorem trust_log_stays_linked {X : Type} `{!TrustChain X} (view : X → chain_state) (record : TrustRecord)
    (maxRetries : nat) (resign : option (TrustRecord → option string * option string → step X TrustRecord))
    (skip : bool) (x x' : X) (r : result (string * Z)) :
  chain_laws view →
  (∀ f rec tip x x' r, resign = Some f → f rec tip x = (x', r) → advances (view x) (view x')) →
  linked (view x) →
  TrustRecordService.appendRecordWithRetry record maxRetries resign skip x = (x', r) →
  linked (view x') ∧ ch_commits (view x) ⊆ ch_commits (view x') ∧
  ∀ sha k, r = Ok (sha, k) → (1 <= k <= 1 + Z.of_nat maxRetries)%Z ∧
    ∃ rec' parent, ch_commits (view x') !! sha = Some (rec', parent) ∧ (resign = None → rec' = record).
Proof.
  intros Hlaws Hres Hl Hrun. destruct (attempts_linked view Hlaws _ _ _ _ _ _ _ _ Hres Hrun Hl) as [[Hsub Hlink] Hk].
  split; [by apply Hlink|]. split; [done|]. intros sha k Hr. destruct (Hk sha k Hr) as [Hle Hc]. split; [lia|done].
Qed.

(** *** The gate of the runtime *)

Lemma filter_everything {A} (P : A → Prop) `{∀ x, Decision (P x)} (l : list A) : (∀ x, P x) → filter P l = l.
Proof. intros HP. induction l as [|x l IH]; [done|]. by rewrite filter_cons, decide_True, IH. Qed.

Lemma gate_rejects {W} crypto list (config : RuntimeTrust.NormalizedTrustConfig) writerIds (x : W) :
  RuntimeTrust.mode config = SyncTrustGate.enforce → writerIds ≠ [] →
  SyncTrustGate.evaluate (RuntimeTrust._buildTrustGate crypto list config) writerIds x =
    (x, Ok (SyncTrustGate.Verdict false writerIds "rejected")).
Proof.
  intros Hm Hne. unfold SyncTrustGate.evaluate, RuntimeTrust._buildTrustGate. cbn [SyncTrustGate._mode SyncTrustGate._evaluator].
  rewrite Hm. destruct writerIds as [|w ws]; [done|].
  unfold try_catch, mbind, step_bind. unfold TrustEvaluationService.evaluateTrust at 1.
  cbn [TrustEvaluationService._trustChain TrustEvaluationService._checkPreconditions mret step_ret].
  set (a := TrustEvaluationService._failWith _).
  assert (RuntimeTrust._extractTrustedWriters a = ∅) as ->.
  { unfold RuntimeTrust._extractTrustedWriters, a. cbn. apply set_eq. intros y. set_solver. }
  rewrite filter_everything by (intros y; apply not_elem_of_empty).
  done.
Qed.


(** *** Samples: a key is a digit, its id repeats it, and it signs with itself *)

Fixpoint repeated (n : nat) (s : string) : string := match n with O => "" | S n => s +:+ repeated n s end.
Definition key_of (pk : string) : string := "ed25519:" +:+ repeated 64 pk.
Definition toy_crypto : TrustBuildOptions :=
  TrustStateBuilder.Options (Some (λ r pk, Ok (String.eqb (sig (signature r)) pk))) (Some (λ pk, Ok (key_of pk))).

Definition signed (id pk : string) (prev : option string) (s : TrustSubject) : TrustRecord :=
  TrustRecord.mk id (key_of pk) "2025-06-15T12:00:00Z" prev s (Signature "ed25519" pk) "".

Definition key_added : TrustRecord := signed "r1" "a" None (KeyAdd (key_of "a") "a").
Definition alice_bound : TrustRecord := signed "r2" "a" (Some "r1") (WriterBindAdd "alice" (key_of "a")).
Definition alice_unbound : TrustRecord :=
  signed "r3" "a" (Some "r2") (WriterBindRevoke "alice" (key_of "a") "ACCESS_REMOVED").
Definition bob_bound : TrustRecord := signed "r4" "a" (Some "r3") (WriterBindAdd "bob" (key_of "a")).

Definition strict : TrustPolicy := Policy (JInt 1) "enforce" "all_writers_must_be_trusted".

(** The errors of a log and the verdict on some writers. *)
Definition verdict_on (log : list TrustRecord) (ws : list string) : option (list BuildError * TrustVerdict) :=
  match buildState toy_crypto log with
  | Ok st => match evaluateWriters ws st strict with
      | Ok a => Some (TrustState.errors st, trustVerdict a)
      | Throw _ => None
      end
  | Throw _ => None
  end.


(** One binding with a malformed key id is no error of the log: the build throws, so
    that there is no assessment at all. *)
Lemma malformed_binding_breaks_the_build :
  buildState toy_crypto [key_added; signed "r2" "a" (Some "r1") (WriterBindAdd "alice" "not a key id")] =
    Throw TRUST_STATE_INVALID.
Proof. vm_compute. reflexivity. Qed.

Definition sample_log : list TrustRecord := [key_added; alice_bound].
Definition sample_trust : TrustState :=
  match buildState toy_crypto sample_log with Ok st => st | Throw _ => TrustState.mk ∅ ∅ ∅ ∅ [] 0 end.

Lemma sample_trust_built : buildState toy_crypto sample_log = Ok sample_trust.
Proof. vm_compute. reflexivity. Qed.

Lemma trust_verdict_is_evidence_witness :
  verdict_on sample_log ["alice"] = Some ([], pass) ∧ evidence sample_log "alice" ∧
  ∃ a, evaluateWriters ["alice"; "bob"] sample_trust strict = Ok a ∧ "bob" ∈ untrustedWriters (trust a).
Proof.
  split; [vm_compute; reflexivity|].
  split.
  - destruct (trust_verdict_is_evidence toy_crypto sample_log sample_trust ["alice"] strict sample_trust_built eq_refl)
      as (a & Ha & Hpass & _).
    assert (trustVerdict a = pass) as Hv.
    { assert (evaluateWriters ["alice"] sample_trust strict = Ok a → trustVerdict a = pass) as Hc; [|exact (Hc Ha)].
      clear. vm_compute. intros H. injection H as <-. reflexivity. }
    destruct Hpass as [Hpass _]. destruct (Hpass Hv) as [_ Hall]. apply Hall. by left.
  - destruct (trust_verdict_is_evidence toy_crypto sample_log sample_trust ["alice"; "bob"] strict sample_trust_built eq_refl)
      as (a & Ha & _ & Hun).
    exists a. split; [exact Ha|].
    assert (evaluateWriters ["alice"; "bob"] sample_trust strict = Ok a → untrustedWriters (trust a) = ["bob"]) as Hc.
    { clear. vm_compute. intros H. injection H as <-. reflexivity. }
    rewrite (Hc Ha). by left.
Defined.

Lemma clean_log_is_signed_witness : ¬ revokes_key [key_added] (key_of "a") ∧ ∃ pk, key_of pk = key_of "a".
Proof.
  destruct (clean_log_is_signed toy_crypto (λ r pk, Ok (String.eqb (sig (signature r)) pk)) sample_log sample_trust
    sample_trust_built ltac:(vm_compute; reflexivity) eq_refl [key_added] alice_bound [] eq_refl) as (Hr & pk & _ & _ & Hf).
  split; [exact Hr|]. exists pk. specialize (Hf _ eq_refl). exact (f_equal (λ r, match r with Ok s => s | Throw _ => "" end) Hf).
Defined.

(** A chain in memory, whose commits are named like their records. *)
#[export] Instance memory_chain : TrustChain chain_state := {|
  readTip := λ x, (x, Ok (t ← ch_tip x; Some (t, (λ c : TrustRecord * option string, recordId c.1) <$> ch_commits x !! t)));
  persistRecord rec parent := λ x,
    match ch_commits x !! recordId rec with
    | Some _ => (x, Throw (TrustError "E_TRUST_CAS_CONFLICT"))
    | None =>
        if bool_decide (ch_tip x = parent) then (published_on x (recordId rec) rec parent, Ok (recordId rec))
        else (x, Throw (TrustError "E_TRUST_CAS_CONFLICT"))
    end |}.

Lemma memory_chain_laws : chain_laws (λ x : chain_state, x).
Proof.
  split.
  - intros x x' r [= <- <-]. split; [done|]. intros t [= <-]. exists x. split; [done|]. split; [done|].
    destruct (ch_tip x) as [sha|]; [|done]. cbn. split; [done|]. intros rec parent ->. done.
  - intros rec parent x x' r. cbn. destruct (ch_commits x !! recordId rec) as [c|] eqn:Ec.
    { intros [= <- <-]. left. by split; [|eexists]. }
    case_bool_decide as Ht; intros [= <- <-]; [right|left; by split; [|eexists]].
    exists x, (recordId rec). split; [done|]. split; [done|]. split; [by left|]. split; [done|by left].
Qed.

Lemma trust_log_stays_linked_witness :
  let run := TrustRecordService.appendRecordWithRetry alice_bound 3 None false
    (published_on (Chain None ∅) "r1" key_added None) in
  run.2 = Ok ("r2", 1%Z) ∧ linked run.1.
Proof.
  split; [vm_compute; reflexivity|].
  destruct (TrustRecordService.appendRecordWithRetry _ _ _ _ _) as [x' r] eqn:Erun.
  apply (trust_log_stays_linked (λ x : chain_state, x) alice_bound 3 None false
    (published_on (Chain None ∅) "r1" key_added None) x' r memory_chain_laws).
  - intros ? ? ? ? ? ? [=].
  - split; [|by eexists]. intros sha r' parent. cbn. intros [[<- [= <- <-]]|[_ Hc]]%lookup_insert_Some; [done|].
    by rewrite lookup_empty in Hc.
  - exact Erun.
Defined.

